(* ===== verification/_CoqProject ===== *)
-Q . S2P
Prelude.v
BTree.v
BitVec.v
Crypto.v
Nibble.v
SparseMerkle.v
JmtNode.v
JmtCodec.v
Jmt.v
JmtTree.v
JmtUpdate.v
JmtPut.v
JmtInsert.v
StateMerkleDb.v
StateMerkleSystem.v
StateMerkleSafety.v
Position.v
Accumulator.v
ValidatorVerifier.v
LedgerInfo.v
ConsensusTypes.v
Timeouts.v
Blocks.v
SafetyRules.v
TwoChain.v
PendingVotes.v
RoundState.v
ProposerElection.v
LeaderReputation.v
Recovery.v
BlockTree.v
BlockStore.v
SyncManager.v
MempoolIndex.v
MempoolStore.v
MempoolInv.v
MempoolOps.v
MempoolBatch.v
MempoolTimeline.v
MempoolRun.v
SharedMempool.v
SharedMempoolInv.v
SharedMempoolRun.v
