(* ===== verification/Prelude.v ===== *)
(** * Arx: verification library

    Arx is a fork of the Aptos validator: validators agree on a chain of blocks with
    a two-chain variant of HotStuff, sign with BLS keys, and publish what they agreed
    on as ledger infos whose transactions hang in a Merkle accumulator. This library
    models the parts of it a validator's safety and a client's trust rest on, and
    the part of consensus that keeps blocks, elects leaders and recovers after a crash,
    the authenticated tree that stores the state, and the mempool from which blocks are filled.

    ** Files

    - [Prelude]: outcomes, the state monad, machine integers, lists, hints and tactics.
    - [BTree]: ordered sets and the ranges of ordered maps.
    - [BitVec] (crates/arx-bitvec/src/lib.rs): [BitVec], the set of signers.
    - [Crypto] (crates/arx-crypto, types/src/account_address.rs): hashes, addresses,
      the [anyhow] errors, and the classes [CryptoHash] and [Bls].
    - [Nibble] (types/src/nibble, crates/arx-crypto/src/hash.rs): bits and nibbles of hashes,
      nibble paths and their iterators.
    - [SparseMerkle] (types/src/proof/definition.rs): the sparse Merkle tree of a map, and
      proofs of presence, of absence and of ranges.
    - [JmtNode], [Jmt] (storage/jellyfish-merkle/src: node_type/mod.rs, lib.rs): the nodes of the
      Jellyfish Merkle tree, its updates and reads. [JmtTree] says what map a stored tree
      holds and proves the reads, [JmtUpdate] has the tools for updates, [JmtPut] the subtrees
      that are built anew, and [JmtInsert] the update of a stored version. [JmtCodec] has the
      bytes in which nodes and node keys are stored.
    - [StateMerkleDb] (storage/arxdb/src: state_merkle_db.rs, versioned_node_cache.rs,
      lru_node_cache.rs, schema, pruner/state_merkle_pruner, pruner/state_store): the database of the state tree, its two caches, its
      pruners with their workers and managers. [StateMerkleSystem] runs them together as the threads of a
      node do, one event at a time, and [StateMerkleSafety] proves what holds in every run.
    - [Position] (types/src/proof/position/mod.rs): node indices of the accumulator.
    - [Accumulator] (types/src/proof/accumulator/mod.rs, types/src/proof/definition.rs):
      [InMemoryAccumulator], the inclusion, range and extension proofs.
    - [ValidatorVerifier] (types/src/validator_verifier.rs, aggregate_signature.rs).
    - [LedgerInfo] (types/src: block_info.rs, ledger_info.rs, epoch_state.rs,
      epoch_change.rs, waypoint.rs, trusted_state.rs): what a light client verifies.
    - [ConsensusTypes], [Timeouts], [Blocks] (consensus/consensus-types/src): votes,
      certificates, blocks, timeouts, sync infos, retrieval messages and their checks.
    - [SafetyRules] (consensus/safety-rules/src, storage of secrets behind the class
      [KVStorage]): the signing kernel, its persistent state and its six operations.
    - [TwoChain]: a system of validators each running [SafetyRules], and agreement.
    - [PendingVotes] (consensus/src/pending_votes.rs), [RoundState] (consensus/src/
      liveness/round_state.rs): votes become certificates, certificates end rounds.
    - [ProposerElection], [LeaderReputation] (consensus/src/liveness): who proposes.
    - [Recovery] (consensus/src/consensusdb/mod.rs, persistent_liveness_storage.rs):
      the consensus database, the write proxy, and the data a restart starts from.
    - [BlockTree] (consensus/src/block_storage/block_tree.rs, executed_block.rs),
      [BlockStore] (block_store.rs), [SyncManager] (sync_manager.rs): the blocks above
      the last commit, their execution and persistence, and catching up with peers.
    - [MempoolIndex], [MempoolStore] (mempool/src/core_mempool: transaction.rs, index.rs,
      transaction_store.rs, mempool.rs): the transactions waiting for a block and the five indexes over
      them. [MempoolInv] and [MempoolOps] say how the indexes follow the transactions and prove each
      operation, [MempoolBatch] the choice of a block, [MempoolTimeline] the reads for broadcast, and
      [MempoolRun] has the runs, their specification and the theorems.
    - [SharedMempool] (mempool/src/shared_mempool: types.rs, network.rs, tasks.rs, coordinator.rs): peers,
      broadcasts, acks, the tasks and the event loop. [SharedMempoolInv] has what a node remembers of a peer
      and the proofs about one broadcast, [SharedMempoolRun] the runs of a node.

    ** How code becomes definitions

    A struct is a [Record], an enum an [Inductive], both with the source's names; a
    method is a function of the same name, prefixed by its type where two types share
    it. [u64] and the other integers are [N]: the release profile keeps overflow checks
    on, so an arithmetic step that leaves the width is a [Panic], and wrapping or
    saturating operations are written out. A function returns [outcome E A]: a value, an
    [Err] of its error type, or a [Panic] ([unwrap], [expect], a failed assertion, an
    index out of range). Code with mutable state is in the monad [M S E], which returns the
    state also after an error, because the caller of the source keeps it as well. An
    ordered or hash map is a [gmap]; where the order of a traversal matters it is a list.

    Code outside the repository is a class: the hash ([CryptoHash], [ArxHashes], [SparseHashes]), BLS
    ([Bls]), BCS ([Bcs]), the secure key-value store ([KVStorage]), the executor
    ([StateComputer]), the network ([Network]), the bounded cache of the lru crate ([LruCache]), the payloads and
    the encoding of transactions ([TransactionTypes], [TransactionEncoding]), the status codes of the Move VM
    ([DiscardedStatuses]), the random hasher of peers ([PeerHasher]); what a step of the shared mempool reads from the
    clocks, the database, the virtual machine and the network is an argument of the step; [PersistentLivenessStorage] is a trait of the
    source and has the write proxy as its instance. Every class has a sample instance,
    and the witness of a theorem evaluates the definitions on it.

    ** What the theorems show

    - Safety. [TwoChain.two_chain_agreement]: in a system where less than a third of the voting
      power is faulty, two blocks of an epoch with commit certificates lie on one chain,
      whatever order of calls, restarts and storage failures. It rests on what a node signs
      ([SafetyRules.node_outputs_safe]), on the conditions of each operation
      ([vote_two_chain_correct], [sign_timeout_correct], [vote_two_chain_complete],
      [initialize_correct]) and on persisted state that only grows ([safety_data_monotone]).
    - Quorums. [quorum_intersection], and what an accepted multi-signature means.
    - Ledger. The accumulator equals the Merkle tree built level by level; an inclusion proof is
      accepted exactly for the leaf at its index, up to a hash collision that the proof of
      the theorem exhibits; range and extension proofs bind what they claim; a trusted state only
      ratchets along epoch changes signed by the previous validators.
    - State. A proof of presence or absence is accepted exactly for what the map has for the key,
      up to a collision ([sparse_merkle_proof_correct]). A stored tree is read as the map it
      holds, with proofs that verify ([get_with_proof_correct]). An update with any set of keys returns
      the root hash of the updated map, and a store with its nodes holds that map and every older
      version unchanged ([batch_put_value_set_correct]); the nodes it marks as stale are
      exactly those of the old version the new one does not use ([put_stale_nodes_exact]).
    - State database. Stored nodes decode to themselves ([node_codec_correct]), and the bytes on which
      decoding panics are characterised. In every run of merklizing, committing, evicting and pruning, a snapshot that
      is not pruned is read in full ([committed_snapshots_readable]), no thread panics, pruning
      reaches its target, and a restart finds the last committed snapshot.
    - Votes and rounds. [PendingVotes] counts an author once and forms certificates that verify;
      [RoundState] refines a small specification over whole runs.
    - Leaders. [choose_index] finds the slice of the cumulative weights; the weights of
      [LeaderReputation] are those of the definition over the history; at most one proposal
      per round is valid.
    - Blocks. The tree keeps its links, roots and bounds; pruning removes exactly what is
      not below the new root; after any run with failing writes a restart recovers the
      committed block and what hangs on it ([BlockStore.crash_recovery]), and building the store from it
      succeeds ([build_complete]). Retrieval terminates whatever peers answer, and an honest
      peer's blocks are retrieved ([SyncManager]).
    - Mempool. In every run the indexes agree with the transactions and no operation panics
      ([mempool_indexes_agree]), the capacities bound what is kept ([mempool_bounds]), and each operation follows a
      specification of the pool as a map ([mempool_refines]). A batch for consensus can be executed in order and is
      complete within its limits ([get_batch_correct]); a read for broadcast is exactly a window of the
      timelines ([read_timeline_correct]).
    - Broadcast. In every run of a node no event panics ([coordinator_never_panics]), every entry of a timeline is still to be
      sent to a peer, or in a batch that is sent, to be retried or acknowledged ([broadcasts_cover_timelines]), each broadcast
      does what its result says ([execute_broadcast_correct]) and is scheduled again ([broadcast_progress]), to
      a bounded number of peers ([failovers_bounded]). An ack with an empty id breaks this
      ([empty_ack_panics]).

    ** Assumptions

    Hash functions may collide: theorems either exhibit the collision or, in [TwoChain],
    assume vote data do not collide. A BLS aggregate that verifies was signed by
    each honest voter. A read or write of the consensus database that reports an error has
    not taken effect; one that reports success is durable. BCS decodes what it encoded. A
    timeout certificate handed to safety rules has the epoch of the node, as
    [SyncInfo::verify] checks; the code of safety rules does not, see
    [SafetyRules.foreign_epoch_tc_accepted]. The block tree is given certificates of blocks
    it holds and commits that the two-chain rule allows: these are the preconditions of
    each call of a run. The commit callback comes later than the commit it belongs
    to, and callbacks come in the order of their commits. The transactions that clients of the mempool submit
    and the virtual machine validates are those of a [Workload]: no two of them have the same hash, none has
    the last sequence number or needs more than a maximal number of bytes. The capacities leave room for one such
    transaction below [2 ^ 64], the timeline ids do not reach it, and the clock does not go back. Peers acknowledge
    batches with ids of as many buckets as the node has.

    ** Bounds and fuel

    [find_blocks_to_prune] and [path_from_root_to_block] run with one more step than the tree has
    blocks, and each step visits another block. [retrieve_loop] has
    [num_blocks + MAX_FAILED_ATTEMPTS + 1] steps: each adds a block or counts as a failed attempt. The
    binary searches have the length of the list. The recursions of the Jellyfish Merkle tree have as
    many steps as nibbles are left below 64, and one more; those of a node over its 16 children five. A pruner worker
    gets more rounds than the stale index has rows, and each round removes a row or finishes. The loops over bits of a [u64] have 64 steps. The loop
    that makes transactions of an account ready has one more step than the account has transactions, and the loop over skipped
    transactions of [get_batch] one more than were skipped; each step uses one of them up.
    The theorems show that none of these ever runs out. [fetch_quorum_cert] follows parents until one is
    known and takes its fuel as an argument, since peers choose how long the chain is.

    ** Not modelled

    Floating point (the exponential round interval, the chain health ratio), metrics and
    logging, serialization formats other than those of the state tree, asynchronous tasks and channels (round manager, epoch
    manager, quorum store, network, the runtime and executor below the tasks of the shared mempool), the Move virtual machine, the executor, the ledger database,
    the iterator and the restore of the state tree ([get_rightmost_leaf] and [write_node_batch] of
    the state Merkle database serve the restore), failures of RocksDB, storage engines and the node's configuration and tooling. The manifest lists them by directory. *)
From stdpp Require Export base gmap list sorting strings numbers fin_maps.
From Stdlib Require Export NArith Lia.

Declare Scope arx_scope.
Delimit Scope arx_scope with arx.

(** ** Outcomes of Rust calls

    A call returns [Ok a], returns [Err e], or panics ([assert!], [expect],
    [unwrap], an out-of-range index, or an arithmetic overflow: the release
    profile of the workspace sets [overflow-checks = true]). *)
Inductive outcome (E A : Type) : Type :=
| Ok (a : A)
| Err (e : E)
| Panic.
Arguments Ok {E A} a.
Arguments Err {E A} e.
Arguments Panic {E A}.

Section outcome.
Context {E : Type}.

#[export] Instance outcome_ret : MRet (outcome E) := λ A, Ok.
#[export] Instance outcome_bind : MBind (outcome E) := λ A B k m,
  match m with Ok a => k a | Err e => Err e | Panic => Panic end.
#[export] Instance outcome_fmap : FMap (outcome E) := λ A B f m,
  match m with Ok a => Ok (f a) | Err e => Err e | Panic => Panic end.

#[export] Instance outcome_eq_dec `{EqDecision E} {A} `{EqDecision A} :
  EqDecision (outcome E A).
Proof. solve_decision. Defined.

(** [ensure!(b, e)] *)
Definition ensure (b : bool) (e : E) : outcome E unit :=
  if b then Ok tt else Err e.
(** [assert!(b)] *)
Definition rassert (b : bool) : outcome E unit :=
  if b then Ok tt else Panic.
(** [Option::ok_or] *)
Definition ok_or {A} (o : option A) (e : E) : outcome E A :=
  match o with Some a => Ok a | None => Err e end.
(** [Option::expect], [Option::unwrap], slice indexing *)
Definition expect {A} (o : option A) : outcome E A :=
  match o with Some a => Ok a | None => Panic end.
(** [Result::map_err], also the conversion of [?] *)
Definition map_err {F A} (f : E → F) (m : outcome E A) : outcome F A :=
  match m with Ok a => Ok a | Err e => Err (f e) | Panic => Panic end.
Definition is_ok {A} (m : outcome E A) : bool :=
  match m with Ok _ => true | _ => false end.

Lemma bind_Ok {A B} (m : outcome E A) (k : A → outcome E B) b :
  (m ≫= k) = Ok b ↔ ∃ a, m = Ok a ∧ k a = Ok b.
Proof. destruct m; naive_solver. Qed.
Lemma fmap_Ok {A B} (f : A → B) (m : outcome E A) b :
  (f <$> m) = Ok b ↔ ∃ a, m = Ok a ∧ b = f a.
Proof. destruct m; naive_solver. Qed.
Lemma ensure_Ok b (e : E) u : ensure b e = Ok u ↔ b = true.
Proof. destruct b, u; naive_solver. Qed.
Lemma ensure_bind {B} b (e : E) (k : unit → outcome E B) r :
  (ensure b e ≫= k) = Ok r ↔ b = true ∧ k tt = Ok r.
Proof. destruct b; naive_solver. Qed.
Lemma unit_bind {B} (m : outcome E unit) (k : unit → outcome E B) r :
  (m ≫= k) = Ok r ↔ m = Ok tt ∧ k tt = Ok r.
Proof. destruct m as [[]| |]; naive_solver. Qed.
Lemma rassert_Ok b u : rassert b = Ok u ↔ b = true.
Proof. destruct b, u; naive_solver. Qed.
Lemma ok_or_Ok {A} (o : option A) (e : E) a : ok_or o e = Ok a ↔ o = Some a.
Proof. destruct o; naive_solver. Qed.
Lemma expect_Ok {A} (o : option A) a : expect o = Ok a ↔ o = Some a.
Proof. destruct o; naive_solver. Qed.
Lemma map_err_Ok {F A} (f : E → F) (m : outcome E A) a :
  map_err f m = Ok a ↔ m = Ok a.
Proof. destruct m; naive_solver. Qed.
End outcome.

(** Inverts every [outcome] equation with result [Ok] in the context. *)
Ltac inv_ok :=
  repeat match goal with
  | H : mbind _ _ = Ok _ |- _ =>
      let a := fresh "a" in let Ha := fresh "Hok" in
      apply bind_Ok in H as (a & Ha & H)
  | H : fmap _ _ = Ok _ |- _ =>
      let a := fresh "a" in let Ha := fresh "Hok" in
      apply fmap_Ok in H as (a & Ha & H)
  | H : ensure _ _ = Ok _ |- _ => apply ensure_Ok in H
  | H : rassert _ = Ok _ |- _ => apply rassert_Ok in H
  | H : ok_or _ _ = Ok _ |- _ => apply ok_or_Ok in H
  | H : expect _ = Ok _ |- _ => apply expect_Ok in H
  | H : map_err _ _ = Ok _ |- _ => apply map_err_Ok in H
  | H : Ok _ = Ok _ |- _ => injection H as H
  | H : mret _ = Ok _ |- _ => injection H as H
  | H : Err _ = Ok _ |- _ => discriminate H
  | H : Panic = Ok _ |- _ => discriminate H
  end.

(** Runs the [outcome] monad on results that are already known. *)
Ltac run_ok :=
  cbn [mbind outcome_bind mret outcome_ret fmap outcome_fmap rassert ensure expect ok_or map_err].

(** ** State and errors: a method taking [&mut self] and returning [Result]

    The state after an [Err] is the one the method left behind. *)
Definition M (S E A : Type) : Type := S → outcome E A * S.

Section state.
Context {S E : Type}.

#[export] Instance M_ret : MRet (M S E) := λ A a s, (Ok a, s).
#[export] Instance M_bind : MBind (M S E) := λ A B k m s,
  match m s with
  | (Ok a, s') => k a s'
  | (Err e, s') => (Err e, s')
  | (Panic, s') => (Panic, s')
  end.
Definition mget : M S E S := λ s, (Ok s, s).
Definition mput (s' : S) : M S E unit := λ _, (Ok tt, s').
Definition mlift {A} (m : outcome E A) : M S E A := λ s, (m, s).

Lemma M_bind_Ok {A B} (m : M S E A) (k : A → M S E B) s b s'' :
  (m ≫= k) s = (Ok b, s'') ↔ ∃ a s', m s = (Ok a, s') ∧ k a s' = (Ok b, s'').
Proof.
  unfold mbind, M_bind. destruct (m s) as [[a| |] s']; naive_solver.
Qed.
Lemma mget_bind {B} (k : S → M S E B) s : (mget ≫= k) s = k s s.
Proof. done. Qed.
Lemma mput_bind {B} s' (k : unit → M S E B) s : (mput s' ≫= k) s = k tt s'.
Proof. done. Qed.
Lemma mret_bind {A B} (a : A) (k : A → M S E B) s : (mret a ≫= k) s = k a s.
Proof. done. Qed.
Lemma mlift_bind {A B} (m : outcome E A) a (k : A → M S E B) s :
  m = Ok a → (mlift m ≫= k) s = k a s.
Proof. by intros ->. Qed.
Lemma mret_run {A} (a : A) s r s' : mret (M := M S E) a s = (r, s') ↔ r = Ok a ∧ s' = s.
Proof. unfold mret, M_ret. naive_solver. Qed.
Lemma mlift_run {A} (m : outcome E A) s r s' : mlift m s = (r, s') ↔ m = r ∧ s' = s.
Proof. unfold mlift. naive_solver. Qed.
Lemma mget_run s r s' : mget s = (r, s') ↔ r = Ok s ∧ s' = s.
Proof. unfold mget. naive_solver. Qed.
Lemma M_run_bind {A B} (m : M S E A) (k : A → M S E B) a s s' :
  m s = (Ok a, s') → (m ≫= k) s = k a s'.
Proof. unfold mbind, M_bind. by intros ->. Qed.
(** Whatever the outcome, the bind ran [m] and then perhaps the continuation. *)
Lemma M_bind_inv {A B} (m : M S E A) (k : A → M S E B) s r s'' :
  (m ≫= k) s = (r, s'') →
  (∃ a s', m s = (Ok a, s') ∧ k a s' = (r, s'')) ∨
  (∃ r', m s = (r', s'') ∧ is_ok r' = false ∧ is_ok r = false).
Proof.
  unfold mbind, M_bind. destruct (m s) as [[a| |] s'] eqn:?; naive_solver.
Qed.
Lemma M_bind_cases {A B} (m : M S E A) (k : A → M S E B) s r s'' :
  (m ≫= k) s = (r, s'') →
  (∃ a s', m s = (Ok a, s') ∧ k a s' = (r, s'')) ∨
  (∃ e, m s = (Err e, s'') ∧ r = Err e) ∨ (m s = (Panic, s'') ∧ r = Panic).
Proof.
  unfold mbind, M_bind. destruct (m s) as [[a| |] s'] eqn:?; naive_solver.
Qed.
End state.

(** The error of a call that returns a value or panics. *)
Abbreviation Infallible := Empty_set (only parsing).

(** [Result::expect] and [Result::unwrap] on the result of a method *)
Definition mexpect {S E F A} (m : M S E A) : M S F A := λ s,
  match m s with
  | (Ok a, s') => (Ok a, s')
  | (_, s') => (Panic, s')
  end.
(** A method of a field: it runs on the field and leaves the rest of the state alone. *)
Definition zoom {S T E A} (get : S → T) (set : T → S → S) (m : M T E A) : M S E A := λ s,
  let '(r, t) := m (get s) in (r, set t s).
(** [Result::map_err] and the conversion of [?] on the result of a method *)
Definition mmap_err {S E F A} (f : E → F) (m : M S E A) : M S F A := λ s,
  let '(r, s') := m s in (map_err f r, s').

(** Inverts successful runs of the state monad in the context. *)
Ltac inv_M :=
  repeat match goal with
  | H : mbind _ _ _ = (Ok _, _) |- _ =>
      let a := fresh "a" in let s := fresh "s" in let Ha := fresh "Hrun" in
      apply M_bind_Ok in H as (a & s & Ha & H)
  | H : mlift _ _ = (_, _) |- _ => apply mlift_run in H as [H ->]
  | H : mret _ _ = (_, _) |- _ => apply mret_run in H as [H ->]
  | H : mget _ = (_, _) |- _ => apply mget_run in H as [H ->]
  | H : (Ok _, _) = (_, _) |- _ => injection H as ? H; try subst
  | H : (Err _, _) = (Ok _, _) |- _ => discriminate H
  end; inv_ok.

Ltac destruct_units := repeat match goal with u : unit |- _ => destruct u end.

(** ** Machine integers

    [u64], [u32], [u16], [usize] values are numbers of [N] below the power of
    two of their width; every operation writes out what it does at the edge. *)
Local Open Scope N_scope.

(** [lia] with divisions and remainders by constants. *)
Ltac dlia := zify; Z.to_euclidean_division_equations; lia.

(** Case analysis on a boolean comparison of numbers in the goal or a hypothesis. *)
Ltac case_N :=
  match goal with
  | |- context [?a <=? ?b] => destruct (N.leb_spec a b)
  | |- context [?a <? ?b] => destruct (N.ltb_spec a b)
  | |- context [?a =? ?b] => destruct (N.eqb_spec a b)
  | _ : context [?a <=? ?b] |- _ => destruct (N.leb_spec a b)
  | _ : context [?a <? ?b] |- _ => destruct (N.ltb_spec a b)
  | _ : context [?a =? ?b] |- _ => destruct (N.eqb_spec a b)
  end.

Definition U64_MAX : N := 2 ^ 64 - 1.
Definition is_u64 (n : N) : bool := n <? 2 ^ 64.

Definition u64_checked_add (a b : N) : option N :=
  if a + b <? 2 ^ 64 then Some (a + b) else None.
Definition u64_checked_sub (a b : N) : option N :=
  if b <=? a then Some (a - b) else None.
Definition u64_saturating_add (a b : N) : N := N.min (a + b) U64_MAX.
Definition u128_checked_add (a b : N) : option N :=
  if a + b <? 2 ^ 128 then Some (a + b) else None.
(** [a + b], [a - b] under [overflow-checks]: a panic out of range. *)
Definition u64_add {E} (a b : N) : outcome E N := expect (u64_checked_add a b).
Definition u64_sub {E} (a b : N) : outcome E N := expect (u64_checked_sub a b).
Definition u64_wrapping_add (a b : N) : N := (a + b) mod 2 ^ 64.
(** [!a], [a << s] and [a >> s] on [u64] (bits shifted out are dropped). *)
Definition u64_not (a : N) : N := N.lnot a 64.
Definition u64_shl (a s : N) : N := N.shiftl a s mod 2 ^ 64.
Definition u64_shr (a s : N) : N := N.shiftr a s.

(** [a >> s] and [a << s] with a shift amount that may reach the width (a panic). *)
Definition u64_shr_checked {E} (a s : N) : outcome E N :=
  if s <? 64 then Ok (u64_shr a s) else Panic.
Definition u64_shl_checked {E} (a s : N) : outcome E N :=
  if s <? 64 then Ok (u64_shl a s) else Panic.

Fixpoint pos_count_ones (p : positive) : N :=
  match p with
  | xH => 1
  | xO p => pos_count_ones p
  | xI p => 1 + pos_count_ones p
  end.
(** [count_ones] *)
Definition count_ones (n : N) : N :=
  match n with N0 => 0 | Npos p => pos_count_ones p end.
Fixpoint pos_trailing_zeros (p : positive) : N :=
  match p with
  | xO p => 1 + pos_trailing_zeros p
  | _ => 0
  end.
(** [trailing_zeros] at width [w] *)
Definition trailing_zeros (w n : N) : N :=
  match n with N0 => w | Npos p => pos_trailing_zeros p end.
(** [leading_zeros] at width [w] *)
Definition leading_zeros (w n : N) : N := w - N.size n.

Lemma u64_checked_add_Some a b c :
  u64_checked_add a b = Some c ↔ c = a + b ∧ a + b < 2 ^ 64.
Proof.
  unfold u64_checked_add. destruct (N.ltb_spec (a + b) (2 ^ 64)); naive_solver lia.
Qed.
Lemma u64_checked_sub_Some a b c :
  u64_checked_sub a b = Some c ↔ c = a - b ∧ b ≤ a.
Proof.
  unfold u64_checked_sub. destruct (N.leb_spec b a); naive_solver lia.
Qed.

Lemma testbit_above w n i : n < 2 ^ w → w <= i → N.testbit n i = false.
Proof.
  intros Hn Hi. rewrite <- (N.mod_small n (2 ^ w)) by done.
  by apply N.mod_pow2_bits_high.
Qed.

Lemma trailing_zeros_spec w n :
  n ≠ 0 →
  N.testbit n (trailing_zeros w n) = true ∧
  ∀ i, i < trailing_zeros w n → N.testbit n i = false.
Proof.
  destruct n as [|p]; [done|]. intros _. cbn [trailing_zeros].
  induction p as [p IH|p IH|]; cbn [pos_trailing_zeros].
  - split; [done|]. intros; lia.
  - destruct IH as [IH1 IH2]. split.
    + change (N.pos p~0) with (2 * N.pos p).
      rewrite N.add_1_l, N.testbit_even_succ by lia. done.
    + intros i Hi. change (N.pos p~0) with (2 * N.pos p).
      destruct (N.zero_or_succ i) as [->|[j ->]].
      * by rewrite N.testbit_even_0.
      * rewrite N.testbit_even_succ by lia. apply IH2. lia.
  - split; [done|]. intros; lia.
Qed.

Lemma count_ones_double n : count_ones (2 * n) = count_ones n.
Proof. by destruct n. Qed.
Lemma count_ones_succ_double n : count_ones (2 * n + 1) = 1 + count_ones n.
Proof. by destruct n. Qed.

(** ** Decidable equality as a boolean *)
Notation "x =!= y" := (bool_decide (x = y))
  (at level 70, no associativity) : arx_scope.

(** ** Lists indexed by numbers *)
Definition lenN {A} (l : list A) : N := N.of_nat (length l).

(** The half-open range [start .. start + len]. *)
Definition seqN (start len : N) : list N :=
  (λ k, start + N.of_nat k) <$> seq 0 (N.to_nat len).

Lemma elem_of_seqN start len i : i ∈ seqN start len ↔ start <= i < start + len.
Proof.
  unfold seqN. rewrite list_elem_of_fmap. split.
  - intros (k & -> & Hk%elem_of_seq). lia.
  - intros [??]. exists (N.to_nat (i - start)). rewrite elem_of_seq. lia.
Qed.
Lemma NoDup_seqN start len : NoDup (seqN start len).
Proof. apply NoDup_fmap_2; [intros ???; lia|apply NoDup_seq]. Qed.
Lemma length_seqN start len : length (seqN start len) = N.to_nat len.
Proof. unfold seqN. by rewrite length_fmap, length_seq. Qed.
Lemma lookup_seqN start len i :
  (i < N.to_nat len)%nat → seqN start len !! i = Some (start + N.of_nat i).
Proof.
  intros. unfold seqN. rewrite list_lookup_fmap, lookup_seq_lt by lia. done.
Qed.
Lemma seqN_succ_r start len : seqN start (len + 1) = seqN start len ++ [start + len].
Proof.
  unfold seqN. rewrite N.add_1_r, N2Nat.inj_succ, seq_S, fmap_app. simpl.
  by rewrite N2Nat.id.
Qed.
Lemma seqN_0 start : seqN start 0 = [].
Proof. done. Qed.
Lemma seqN_app start m n : seqN start (m + n) = seqN start m ++ seqN (start + m) n.
Proof.
  apply list_eq. intros i.
  destruct (decide (i < N.to_nat (m + n))%nat) as [Hi|Hi].
  - rewrite lookup_seqN by done.
    destruct (decide (i < N.to_nat m)%nat).
    + by rewrite lookup_app_l, lookup_seqN by (rewrite ?length_seqN; lia).
    + rewrite lookup_app_r, length_seqN, lookup_seqN by (rewrite ?length_seqN; lia).
      f_equal. lia.
  - rewrite !lookup_ge_None_2; [done|..];
      rewrite ?length_app, ?length_seqN; lia.
Qed.
Lemma seqN_shift start len : seqN start len = (λ i, start + i) <$> seqN 0 len.
Proof.
  unfold seqN. rewrite <- list_fmap_compose. apply list_fmap_ext. intros. simpl. lia.
Qed.

Lemma list_filter_ext_in {A} (P Q : A → Prop) `{!∀ x, Decision (P x)}
    `{!∀ x, Decision (Q x)} (l : list A) :
  (∀ x, x ∈ l → P x ↔ Q x) → filter P l = filter Q l.
Proof.
  induction l as [|x l IH]; intros HPQ; [done|].
  rewrite !filter_cons, IH by (intros; apply HPQ; by right).
  assert (P x ↔ Q x) by (apply HPQ; left). repeat case_decide; tauto.
Qed.
Lemma list_filter_none {A} (P : A → Prop) `{!∀ x, Decision (P x)} (l : list A) :
  (∀ x, x ∈ l → ¬ P x) → filter P l = [].
Proof.
  induction l as [|x l IH]; intros HP; [done|]. rewrite filter_cons_False by (apply HP; left).
  apply IH. intros; apply HP. by right.
Qed.
Lemma list_filter_id {A} (P : A → Prop) `{!∀ x, Decision (P x)} (l : list A) :
  (∀ x, x ∈ l → P x) → filter P l = l.
Proof.
  induction l as [|x l IH]; intros HP; [done|]. rewrite filter_cons_True by (apply HP; left).
  f_equal. apply IH. intros; apply HP. by right.
Qed.
Lemma list_filter_fmap {A B} (f : A → B) (P : B → Prop) `{!∀ x, Decision (P x)}
    (l : list A) :
  filter P (f <$> l) = f <$> filter (λ x, P (f x)) l.
Proof.
  induction l as [|x l IH]; [done|].
  rewrite fmap_cons, !filter_cons, IH. by case_decide.
Qed.

(** Induction two elements at a time. *)
Lemma list_pair_ind {A} (P : list A → Prop) :
  P [] → (∀ x, P [x]) → (∀ x y r, P r → P (x :: y :: r)) → ∀ l, P l.
Proof. intros H0 H1 H2. fix IH 1. intros [|x [|y r]]; [done|done|]. apply H2, IH. Qed.

Lemma elem_of_concat {A} (x : A) ls : x ∈ concat ls ↔ ∃ l, l ∈ ls ∧ x ∈ l.
Proof.
  induction ls as [|l ls IH]; cbn; [rewrite elem_of_nil; split; [done|intros (? & ?%elem_of_nil & _); done]|].
  rewrite elem_of_app, IH. setoid_rewrite elem_of_cons. naive_solver.
Qed.

(** ** Durations

    Nanoseconds, at most [Duration::MAX]; [+] and [* u32] panic beyond it. *)
Abbreviation Duration := N (only parsing).
Definition DURATION_MAX : Duration := (2 ^ 64 - 1) * 1000000000 + 999999999.
Definition duration_add {E} (a b : Duration) : outcome E Duration :=
  if a + b <=? DURATION_MAX then Ok (a + b) else Panic.
Definition duration_mul {E} (a : Duration) (n : N) : outcome E Duration :=
  if a * n <=? DURATION_MAX then Ok (a * n) else Panic.

(** The order in which a [BTreeMap] is iterated: by increasing key. *)
Definition key_le {A} (x y : N * A) : Prop := x.1 <= y.1.
#[export] Instance key_le_dec {A} : RelDecision (@key_le A).
Proof. intros x y. unfold key_le. apply _. Defined.
Definition btree_iter {A} (m : gmap N A) : list (N * A) := merge_sort key_le (map_to_list m).
Lemma btree_iter_perm {A} (m : gmap N A) : btree_iter m ≡ₚ map_to_list m.
Proof. apply merge_sort_Permutation. Qed.
Lemma elem_of_btree_iter {A} (m : gmap N A) k x : (k, x) ∈ btree_iter m ↔ m !! k = Some x.
Proof. rewrite btree_iter_perm. apply elem_of_map_to_list. Qed.
Lemma NoDup_fst_btree_iter {A} (m : gmap N A) : NoDup ((btree_iter m).*1).
Proof. rewrite btree_iter_perm. apply NoDup_fst_map_to_list. Qed.
Lemma sorted_btree_iter {A} (m : gmap N A) : StronglySorted N.le ((btree_iter m).*1).
Proof.
  apply (StronglySorted_fmap fst key_le); [by intros x y|].
  assert (Transitive (@key_le A)) by (intros x y z; unfold key_le; lia).
  assert (Total (@key_le A)) by (intros x y; unfold key_le; lia).
  apply StronglySorted_merge_sort; apply _.
Qed.
Lemma elem_of_btree_keys {A} (m : gmap N A) k : k ∈ (btree_iter m).*1 ↔ is_Some (m !! k).
Proof.
  rewrite list_elem_of_fmap. split.
  - intros ([k' x] & -> & Hx%elem_of_btree_iter). by exists x.
  - intros [x Hx]. exists (k, x). split; [done|]. by apply elem_of_btree_iter.
Qed.
(** The values, in the order of the keys. *)
Lemma btree_iter_values {A} (m : gmap N A) :
  Forall2 (λ k x, m !! k = Some x) (btree_iter m).*1 (btree_iter m).*2.
Proof.
  assert (∀ p, p ∈ btree_iter m → m !! p.1 = Some p.2) as Hp
    by (intros [k x]; apply elem_of_btree_iter).
  induction (btree_iter m) as [|[k x] l IH]; [constructor|]. rewrite !fmap_cons. constructor.
  - apply (Hp (k, x)). by left.
  - apply IH. intros p ?. apply Hp. by right.
Qed.
