(* ===== verification/BTree.v ===== *)
(** * Ordered collections

    [BTreeSet] with an order of its own: a list without repetitions, increasing in that order.
    The order may identify keys that differ ([cmp] is [Eq]), as [Ord] implementations that
    skip a field do. [BTreeMap<u64, _>] is a [gmap]; its ranges are here. *)
From S2P Require Import Prelude.
Local Open Scope N_scope.

(** [Ord::cmp], total and transitive *)
Class Ord (A : Type) := {
  cmp : A → A → comparison;
  cmp_refl x : cmp x x = Eq;
  cmp_opp x y : cmp y x = CompOpp (cmp x y);
  cmp_lt_trans x y z : cmp x y = Lt → cmp y z = Lt → cmp x z = Lt;
  cmp_eq_l x y z : cmp x y = Eq → cmp x z = cmp y z;
}.
Definition before `{Ord A} (x y : A) : Prop := cmp x y = Lt.
#[export] Instance before_dec `{Ord A} : RelDecision (before (A := A)).
Proof. intros x y. unfold before. apply _. Defined.

#[export, refine] Instance N_Ord : Ord N := {| cmp := N.compare |}.
Proof.
  - apply N.compare_refl.
  - apply N.compare_antisym.
  - intros x y z. rewrite !N.compare_lt_iff. lia.
  - intros x y z ->%N.compare_eq. done.
Defined.

(** ** [BTreeSet] *)
Section bset.
Context `{Ord A}.
Implicit Types (x y : A) (l : list A).

Fixpoint bset_insert (x : A) (l : list A) : list A :=
  match l with
  | [] => [x]
  | y :: r =>
      match cmp x y with
      | Lt => x :: l
      | Eq => l
      | Gt => y :: bset_insert x r
      end
  end.
Fixpoint bset_remove (x : A) (l : list A) : list A :=
  match l with
  | [] => []
  | y :: r =>
      match cmp x y with
      | Lt => l
      | Eq => r
      | Gt => y :: bset_remove x r
      end
  end.
Fixpoint bset_contains (x : A) (l : list A) : bool :=
  match l with
  | [] => false
  | y :: r =>
      match cmp x y with
      | Lt => false
      | Eq => true
      | Gt => bset_contains x r
      end
  end.
(** [split_off]: the part that stays and the part from [x] on *)
Definition bset_split_off (x : A) (l : list A) : list A * list A :=
  (filter (λ y, before y x) l, filter (λ y, ¬ before y x) l).

Definition bset_wf (l : list A) : Prop := StronglySorted before l.

Lemma cmp_gt_lt x y : cmp x y = Gt ↔ before y x.
Proof. unfold before. rewrite (cmp_opp x y). destruct (cmp x y); naive_solver. Qed.
Lemma cmp_eq_sym x y : cmp x y = Eq → cmp y x = Eq.
Proof. rewrite (cmp_opp x y). by intros ->. Qed.
Lemma cmp_eq_r x y z : cmp x y = Eq → cmp z x = cmp z y.
Proof. intros Hxy. rewrite (cmp_opp x z), (cmp_opp y z). f_equal. by apply cmp_eq_l. Qed.

Lemma bset_wf_cons x l : bset_wf (x :: l) ↔ bset_wf l ∧ Forall (before x) l.
Proof.
  unfold bset_wf. split; [by inversion 1|]. intros [??]. by constructor.
Qed.
Lemma bset_contains_spec x l :
  bset_wf l → bset_contains x l = true ↔ ∃ y, y ∈ l ∧ cmp x y = Eq.
Proof.
  induction l as [|y l IH]; cbn [bset_contains].
  { split; [done|]. intros (y & Hy & _). by apply not_elem_of_nil in Hy. }
  rewrite bset_wf_cons, Forall_forall. intros [Hwf Hy]. destruct (cmp x y) eqn:Hc.
  - split; [intros _|done]. exists y. by split; [left|].
  - split; [done|]. intros (z & [->|Hz]%elem_of_cons & Hz'); [congruence|].
    pose proof (cmp_lt_trans x y z Hc (Hy z Hz)). congruence.
  - rewrite IH by done. split; intros (z & Hz & Hz'); exists z; (split; [|done]).
    + by right.
    + apply elem_of_cons in Hz as [->|]; [congruence|done].
Qed.
Lemma bset_contains_false x l :
  bset_wf l → bset_contains x l = false ↔ ∀ y, y ∈ l → cmp x y ≠ Eq.
Proof.
  intros Hwf. pose proof (bset_contains_spec x l Hwf). destruct (bset_contains x l); naive_solver.
Qed.
Lemma elem_of_bset_insert x y l :
  bset_wf l → y ∈ bset_insert x l ↔ (y = x ∧ bset_contains x l = false) ∨ y ∈ l.
Proof.
  induction l as [|z l IH]; cbn [bset_insert bset_contains].
  { intros _. rewrite !list_elem_of_singleton. rewrite elem_of_nil. naive_solver. }
  rewrite bset_wf_cons. intros [Hwf Hz]. destruct (cmp x z) eqn:Hc.
  - naive_solver.
  - rewrite elem_of_cons. naive_solver.
  - rewrite !elem_of_cons, IH by done. naive_solver.
Qed.
Lemma elem_of_bset_remove x y l :
  bset_wf l → y ∈ bset_remove x l ↔ y ∈ l ∧ cmp x y ≠ Eq.
Proof.
  induction l as [|z l IH]; cbn [bset_remove]; [by set_solver|].
  rewrite bset_wf_cons, Forall_forall. intros [Hwf Hz].
  assert (∀ w, w ∈ l → cmp x z ≠ Gt → cmp x w = Lt) as Hlt.
  { intros w Hw Hc. specialize (Hz w Hw). destruct (cmp x z) eqn:Hxz; [| |done].
    - by rewrite (cmp_eq_l _ _ _ Hxz).
    - by apply (cmp_lt_trans x z w). }
  destruct (cmp x z) eqn:Hc; rewrite ?elem_of_cons, ?IH by done.
  - split; [intros Hy; split; [by right|]; by rewrite Hlt|].
    intros [[->|?] ?]; [by rewrite Hc in *|done].
  - split; [|naive_solver]. intros [->|Hy]; (split; [auto|]); [by rewrite Hc|by rewrite Hlt].
  - split; [|naive_solver]. intros [->|[??]]; [|naive_solver]. split; [auto|]. by rewrite Hc.
Qed.
Lemma bset_insert_wf x l : bset_wf l → bset_wf (bset_insert x l).
Proof.
  induction l as [|z l IH]; cbn [bset_insert].
  { intros _. apply bset_wf_cons. split; [constructor|constructor]. }
  intros Hwf. pose proof Hwf as [Hl Hz]%bset_wf_cons. destruct (cmp x z) eqn:Hc; [done| |].
  - apply bset_wf_cons. split; [done|]. constructor; [done|].
    eapply Forall_impl; [exact Hz|]. intros w Hw. by apply (cmp_lt_trans x z w).
  - apply bset_wf_cons. split; [by apply IH|]. apply Forall_forall. intros w Hw.
    apply elem_of_bset_insert in Hw as [[-> _]|Hw]; [by apply cmp_gt_lt| |done].
    by rewrite Forall_forall in Hz; apply Hz.
Qed.
Lemma bset_remove_sublist x l : bset_remove x l `sublist_of` l.
Proof.
  induction l as [|y l IH]; cbn [bset_remove]; [done|].
  destruct (cmp x y); [by apply sublist_cons|done|by apply sublist_skip].
Qed.
Lemma bset_wf_sublist l1 l2 : l1 `sublist_of` l2 → bset_wf l2 → bset_wf l1.
Proof.
  induction 1 as [|y l1 l2 Hs IH|y l1 l2 Hs IH]; [done| |].
  - rewrite !bset_wf_cons. intros [? Hy]. split; [by apply IH|].
    apply Forall_forall. intros w Hw. rewrite Forall_forall in Hy. apply Hy.
    by apply (elem_of_sublist l1 l2).
  - rewrite bset_wf_cons. naive_solver.
Qed.
Lemma bset_remove_wf x l : bset_wf l → bset_wf (bset_remove x l).
Proof. apply bset_wf_sublist, bset_remove_sublist. Qed.
Lemma bset_filter_wf (P : A → Prop) `{!∀ x, Decision (P x)} l : bset_wf l → bset_wf (filter P l).
Proof. apply bset_wf_sublist, sublist_filter. Qed.
Lemma bset_NoDup l : bset_wf l → NoDup l.
Proof.
  induction l as [|y l IH]; [constructor|]. rewrite bset_wf_cons, Forall_forall. intros [? Hy].
  constructor; [|by apply IH]. intros Hin. specialize (Hy _ Hin). unfold before in Hy.
  by rewrite cmp_refl in Hy.
Qed.
Lemma bset_unique x y l : bset_wf l → x ∈ l → y ∈ l → cmp x y = Eq → x = y.
Proof.
  induction l as [|z l IH]; [by rewrite elem_of_nil|].
  rewrite bset_wf_cons, Forall_forall, !elem_of_cons. intros [? Hz] [->|Hx] [->|Hy] Hc; try done.
  - specialize (Hz _ Hy). unfold before in Hz. congruence.
  - specialize (Hz _ Hx). apply cmp_gt_lt in Hz. congruence.
  - by apply IH.
Qed.
Lemma length_bset_insert x l :
  length (bset_insert x l) = if bset_contains x l then length l else S (length l).
Proof.
  induction l as [|z l IH]; [done|]. cbn [bset_insert bset_contains].
  destruct (cmp x z); [done..|]. cbn [length]. rewrite IH. by destruct (bset_contains x l).
Qed.
Lemma length_bset_remove x l :
  length l = (if bset_contains x l then S (length (bset_remove x l)) else length (bset_remove x l)).
Proof.
  induction l as [|z l IH]; [done|]. cbn [bset_remove bset_contains].
  destruct (cmp x z); [done..|]. cbn [length]. rewrite IH at 1. by destruct (bset_contains x l).
Qed.
Lemma bset_remove_absent x l : bset_contains x l = false → bset_remove x l = l.
Proof.
  induction l as [|z l IH]; cbn [bset_remove bset_contains]; [done|].
  destruct (cmp x z); [done..|]. intros ?. f_equal. by apply IH.
Qed.
(** The last element of the list is the greatest. *)
Lemma bset_last_max x y l : bset_wf l → last l = Some x → y ∈ l → y = x ∨ before y x.
Proof.
  induction l as [|z l IH]; [done|]. rewrite bset_wf_cons, Forall_forall. intros [? Hz] Hl.
  rewrite elem_of_cons. destruct l as [|w l].
  { injection Hl as <-. set_solver. }
  change (last (w :: l) = Some x) in Hl. intros [->|Hy]; [|by apply IH]. right.
  apply Hz. by apply last_Some_elem_of.
Qed.
End bset.

(** ** Sets whose order is equality *)
Class StrictOrd (A : Type) `{!Ord A} := cmp_eq (x y : A) : cmp x y = Eq → x = y.
#[export] Instance N_StrictOrd : StrictOrd N.
Proof. intros x y. apply N.compare_eq. Qed.

Section strict.
Context `{Ord A, !StrictOrd A}.
Implicit Types (x y : A) (l : list A).

Lemma cmp_eq_iff x y : cmp x y = Eq ↔ x = y.
Proof. split; [apply cmp_eq|]. intros ->. apply cmp_refl. Qed.
Lemma bset_contains_elem x l : bset_wf l → bset_contains x l = true ↔ x ∈ l.
Proof. intros Hwf. rewrite bset_contains_spec by done. setoid_rewrite cmp_eq_iff. naive_solver. Qed.
Lemma bset_contains_not_elem x l : bset_wf l → bset_contains x l = false ↔ x ∉ l.
Proof.
  intros Hwf. rewrite <- (bset_contains_elem x l) by done. by destruct (bset_contains x l).
Qed.
Lemma elem_of_bset_insert_strict x y l : bset_wf l → y ∈ bset_insert x l ↔ y = x ∨ y ∈ l.
Proof.
  intros Hwf. rewrite elem_of_bset_insert by done. pose proof (bset_contains_elem x l Hwf).
  destruct (bset_contains x l); naive_solver.
Qed.
Lemma elem_of_bset_remove_strict x y l : bset_wf l → y ∈ bset_remove x l ↔ y ∈ l ∧ y ≠ x.
Proof. intros Hwf. rewrite elem_of_bset_remove by done. rewrite cmp_eq_iff. naive_solver. Qed.
End strict.

(** ** Ranges of a [BTreeMap] *)
Inductive Bound := Included (k : N) | Excluded (k : N) | Unbounded.

Definition above (lo : Bound) (k : N) : bool :=
  match lo with Included a => a <=? k | Excluded a => a <? k | Unbounded => true end.
Definition below (hi : Bound) (k : N) : bool :=
  match hi with Included b => k <=? b | Excluded b => k <? b | Unbounded => true end.
(** [BTreeMap::range] panics when the start is beyond the end, or equal to it and both are
    excluded. *)
Definition range_ok (lo hi : Bound) : bool :=
  match lo, hi with
  | Excluded a, Excluded b => a <? b
  | Included a, Included b | Included a, Excluded b | Excluded a, Included b => a <=? b
  | _, _ => true
  end.
Definition in_range (lo hi : Bound) (k : N) : bool := above lo k && below hi k.
Definition btree_range {E A} (lo hi : Bound) (m : gmap N A) : outcome E (list (N * A)) :=
  if range_ok lo hi then Ok (filter (λ p, in_range lo hi p.1) (btree_iter m)) else Panic.

Lemma elem_of_btree_range {E A} lo hi (m : gmap N A) l k x :
  btree_range (E := E) lo hi m = Ok l → (k, x) ∈ l ↔ m !! k = Some x ∧ in_range lo hi k = true.
Proof.
  unfold btree_range. destruct (range_ok lo hi); [|done]. intros [= <-].
  rewrite list_elem_of_filter, elem_of_btree_iter. cbn. rewrite Is_true_true. naive_solver.
Qed.
