(* ===== verification/BitVec.v ===== *)
(** * Bit vectors (crates/arx-bitvec)

    The vector of [u8] buckets that records which validators signed, with its
    four operations, its conversions and its deserialisation check, and the
    finite set of positions it refines. *)
From S2P Require Import Prelude.
Local Open Scope N_scope.

(** ** Data *)

Definition BUCKET_SIZE : N := 8.
Definition MAX_BUCKETS : N := 8192.

Record BitVec := mkBitVec { bv_inner : list N }.

#[export] Instance BitVec_eq_dec : EqDecision BitVec.
Proof. solve_decision. Defined.

Definition bv_default : BitVec := mkBitVec [].

(** ** Operations *)

Definition required_buckets (num_bits : N) : N :=
  match u64_checked_sub num_bits 1 with
  | Some pos => pos / BUCKET_SIZE + 1
  | None => 0
  end.

Definition with_num_bits (num_bits : N) : BitVec :=
  mkBitVec (replicate (N.to_nat (required_buckets num_bits)) 0).

(** [0b1000_0000 >> bucket_pos] *)
Definition bucket_mask (bucket_pos : N) : N := N.shiftr 128 bucket_pos.

Definition bv_set (bv : BitVec) (pos : N) : BitVec :=
  let bucket := pos / BUCKET_SIZE in
  let inner :=
    if lenN (bv_inner bv) <=? bucket
    then resize (N.to_nat (bucket + 1)) 0 (bv_inner bv) else bv_inner bv in
  let bucket_pos := pos - bucket * BUCKET_SIZE in
  mkBitVec (alter (λ b, N.lor b (bucket_mask bucket_pos)) (N.to_nat bucket) inner).

Definition bv_is_set (bv : BitVec) (pos : N) : bool :=
  let bucket := pos / BUCKET_SIZE in
  match bv_inner bv !! N.to_nat bucket with
  | None => false
  | Some b =>
      let bucket_pos := pos - bucket * BUCKET_SIZE in
      negb (N.land b (bucket_mask bucket_pos) =? 0)
  end.

Definition bv_all_zeros (bv : BitVec) : bool :=
  forallb (λ b, b =? 0) (bv_inner bv).

Definition bv_count_ones (bv : BitVec) : N :=
  foldr (λ b acc, count_ones b + acc) 0 (bv_inner bv).

(** [iter().rev().enumerate().find(..)]: the first nonzero bucket from the end,
    with its distance [i] from the end. *)
Fixpoint find_nonzero (i : N) (rev_inner : list N) : option (N * N) :=
  match rev_inner with
  | [] => None
  | b :: rest => if b =? 0 then find_nonzero (i + 1) rest else Some (i, b)
  end.

Definition bv_last_set_bit (bv : BitVec) : option N :=
  match find_nonzero 0 (reverse (bv_inner bv)) with
  | None => None
  | Some (i, b) =>
      Some ((8 * (lenN (bv_inner bv) - i) - trailing_zeros 8 b - 1) mod 2 ^ 16)
  end.

Definition bv_iter_ones (bv : BitVec) : list N :=
  filter (λ idx, bv_is_set bv (idx mod 2 ^ 16))
    (seqN 0 (lenN (bv_inner bv) * BUCKET_SIZE)).

Definition bv_num_buckets (bv : BitVec) : N := lenN (bv_inner bv).

Definition bv_bitand (self other : BitVec) : BitVec :=
  mkBitVec (zip_with N.land (bv_inner self) (bv_inner other)).

Fixpoint lor_buckets (l k : list N) : list N :=
  match l, k with
  | [], k => k
  | l, [] => l
  | a :: l, b :: k => N.lor a b :: lor_buckets l k
  end.
Definition bv_bitor (self other : BitVec) : BitVec :=
  mkBitVec (lor_buckets (bv_inner self) (bv_inner other)).

Definition bv_from_iter (bits : list N) : BitVec :=
  foldl bv_set bv_default bits.

Definition bv_from_bytes {E} (raw_bytes : list N) : outcome E BitVec :=
  _ ← rassert (lenN raw_bytes <=? MAX_BUCKETS);
  Ok (mkBitVec raw_bytes).

Definition bv_into_bytes (bv : BitVec) : list N := bv_inner bv.

Definition bv_from_bools {E} (bits : list bool) : outcome E BitVec :=
  _ ← rassert (lenN bits <=? MAX_BUCKETS * BUCKET_SIZE);
  Ok (foldl (λ bv ib, if (ib : N * bool).2 then bv_set bv (ib.1 mod 2 ^ 16) else bv)
        (with_num_bits (lenN bits mod 2 ^ 16))
        (zip (seqN 0 (lenN bits)) bits)).

Inductive DeserializeError := BitVecTooLong (len : N).

Definition bv_deserialize (v : list N) : outcome DeserializeError BitVec :=
  if MAX_BUCKETS <? lenN v then Err (BitVecTooLong (lenN v)) else Ok (mkBitVec v).

(** ** Invariant: buckets are bytes, and at most [MAX_BUCKETS] of them *)
Definition bv_wf (bv : BitVec) : Prop :=
  Forall (λ b, b < 256) (bv_inner bv) ∧ lenN (bv_inner bv) <= MAX_BUCKETS.

(** The set of positions a bit vector stands for. *)
Definition bv_positions (bv : BitVec) : gset N := list_to_set (bv_iter_ones bv).

(** ** Buckets and bits *)

Lemma bucket_mask_pow2 k : k < 8 → bucket_mask k = 2 ^ (7 - k).
Proof.
  intros Hk. unfold bucket_mask. change 128 with (2 ^ 7).
  rewrite N.shiftr_div_pow2, <- N.pow_sub_r by lia. done.
Qed.

Lemma bucket_mask_testbit b k :
  k < 8 → negb (N.land b (bucket_mask k) =? 0) = N.testbit b (7 - k).
Proof.
  intros Hk. rewrite bucket_mask_pow2 by done.
  destruct (N.testbit b (7 - k)) eqn:Hb.
  - apply negb_true_iff, N.eqb_neq. intros H0.
    apply (f_equal (λ x, N.testbit x (7 - k))) in H0.
    by rewrite N.land_spec, Hb, N.pow2_bits_true, N.bits_0 in H0.
  - apply negb_false_iff, N.eqb_eq, N.bits_inj. intros i.
    rewrite N.land_spec, N.bits_0.
    destruct (decide (i = 7 - k)) as [->|Hi]; [by rewrite Hb|].
    rewrite N.pow2_bits_false by done. apply andb_false_r.
Qed.

Lemma pos_split pos : pos - pos / 8 * 8 = pos mod 8.
Proof. dlia. Qed.

(** [is_set] reads bit [7 - pos mod 8] of bucket [pos / 8]. *)
Lemma bv_is_set_testbit bv pos :
  bv_is_set bv pos =
    match bv_inner bv !! N.to_nat (pos / 8) with
    | Some b => N.testbit b (7 - pos mod 8)
    | None => false
    end.
Proof.
  unfold bv_is_set, BUCKET_SIZE. case_match; [|done].
  rewrite pos_split. apply bucket_mask_testbit. apply N.mod_lt. lia.
Qed.

(** The buckets [set] works on: grown with zeros to contain the bucket. *)
Lemma set_inner_lookup (l : list N) (k : N) i :
  (if lenN l <=? k then resize (N.to_nat (k + 1)) 0 l else l) !! i =
    if decide (i < length l)%nat then l !! i
    else if decide (i <= N.to_nat k)%nat then Some 0 else None.
Proof.
  destruct (N.leb_spec (lenN l) k) as [Hle|Hlt]; unfold lenN in *.
  - destruct (decide (i < length l)%nat).
    + apply lookup_resize; lia.
    + destruct (decide (i <= N.to_nat k)%nat).
      * apply lookup_resize_new; lia.
      * apply lookup_resize_old; lia.
  - destruct (decide (i < length l)%nat); [done|].
    destruct (decide (i <= N.to_nat k)%nat); [lia|]. apply lookup_ge_None. lia.
Qed.

Lemma div_mod_8_inj p q : p / 8 = q / 8 → p mod 8 = q mod 8 → p = q.
Proof. intros. dlia. Qed.

Lemma bv_set_is_set bv p q :
  bv_is_set (bv_set bv p) q = bool_decide (p = q) || bv_is_set bv q.
Proof.
  rewrite !bv_is_set_testbit. unfold bv_set, BUCKET_SIZE. cbn [bv_inner].
  rewrite pos_split, list_lookup_alter, !set_inner_lookup.
  pose proof (N.mod_lt p 8) as Hp. pose proof (N.mod_lt q 8) as Hq.
  destruct (decide (N.to_nat (p / 8) = N.to_nat (q / 8))) as [Hb|Hb].
  - apply N2Nat.inj in Hb. rewrite <- Hb.
    assert (Hbit : ∀ b, N.testbit (N.lor b (bucket_mask (p mod 8))) (7 - q mod 8)
              = bool_decide (p = q) || N.testbit b (7 - q mod 8)).
    { intros b. rewrite N.lor_spec, bucket_mask_pow2 by lia.
      rewrite N.pow2_bits_eqb, orb_comm. f_equal.
      destruct (N.eqb_spec (7 - p mod 8) (7 - q mod 8)) as [He|He];
        case_bool_decide as Hpq; try done.
      - destruct Hpq. apply div_mod_8_inj; lia.
      - by subst. }
    destruct (decide (N.to_nat (p / 8) < length (bv_inner bv))%nat) as [Hl|Hl].
    + destruct (lookup_lt_is_Some_2 _ _ Hl) as [b ->]. simpl. apply Hbit.
    + rewrite (lookup_ge_None_2 (bv_inner bv)) by lia.
      rewrite decide_True by lia. simpl. rewrite Hbit. by rewrite N.bits_0.
  - rewrite bool_decide_false by (intros ->; done). simpl.
    destruct (decide (N.to_nat (q / 8) < length (bv_inner bv))%nat); [done|].
    rewrite (lookup_ge_None_2 (bv_inner bv)) by lia.
    case_decide; [apply N.bits_0|done].
Qed.

(** ** Invariant *)

Lemma lor_byte a b : a < 256 → b < 256 → N.lor a b < 256.
Proof.
  intros Ha Hb. destruct (decide (N.lor a b = 0)) as [->|Hn]; [lia|].
  change 256 with (2 ^ 8). apply N.log2_lt_pow2; [lia|]. rewrite N.log2_lor.
  assert (Hlt : ∀ x, x < 256 → N.log2 x < 8).
  { intros x Hx. destruct (decide (x = 0)) as [->|]; [done|].
    apply N.log2_lt_pow2; lia. }
  apply N.max_lub_lt; auto.
Qed.

Lemma bucket_mask_byte k : k < 8 → bucket_mask k < 256.
Proof.
  intros. rewrite bucket_mask_pow2 by done.
  apply (N.le_lt_trans _ (2 ^ 7)); [apply N.pow_le_mono_r; lia|done].
Qed.

Lemma length_bv_set bv p :
  lenN (bv_inner (bv_set bv p)) = N.max (lenN (bv_inner bv)) (p / 8 + 1).
Proof.
  unfold bv_set, lenN, BUCKET_SIZE. cbn [bv_inner]. rewrite length_alter.
  case_N; [rewrite length_resize|]; lia.
Qed.

Lemma bv_set_wf bv p : p < 2 ^ 16 → bv_wf bv → bv_wf (bv_set bv p).
Proof.
  intros Hp [Hb Hl]. split.
  - unfold bv_set, BUCKET_SIZE. cbn [bv_inner]. rewrite pos_split.
    apply Forall_alter.
    + case_match; [|done]. by apply Forall_resize.
    + intros b _ Hlt. apply lor_byte; [done|]. apply bucket_mask_byte. dlia.
  - rewrite length_bv_set. unfold MAX_BUCKETS in *. dlia.
Qed.

(** ** Positions *)

Lemma elem_of_bv_iter_ones bv i :
  lenN (bv_inner bv) <= MAX_BUCKETS →
  i ∈ bv_iter_ones bv ↔ bv_is_set bv i = true.
Proof.
  unfold MAX_BUCKETS. intros Hl. unfold bv_iter_ones, BUCKET_SIZE.
  rewrite list_elem_of_filter, elem_of_seqN. split.
  - intros [Hs Hi]. rewrite N.mod_small in Hs by lia. by apply Is_true_true.
  - intros Hs.
    assert (i < lenN (bv_inner bv) * 8) as Hi.
    { rewrite bv_is_set_testbit in Hs. case_match eqn:Hlk; [|done].
      apply lookup_lt_Some in Hlk. unfold lenN in *. dlia. }
    rewrite N.mod_small by lia. split; [by apply Is_true_true|lia].
Qed.

Lemma NoDup_bv_iter_ones bv : NoDup (bv_iter_ones bv).
Proof. apply NoDup_filter, NoDup_seqN. Qed.

Lemma elem_of_bv_positions bv i :
  bv_wf bv → i ∈ bv_positions bv ↔ bv_is_set bv i = true.
Proof.
  intros [_ Hl]. unfold bv_positions. rewrite elem_of_list_to_set.
  by apply elem_of_bv_iter_ones.
Qed.

(** ** Reading a vector bucket by bucket from the left *)

Lemma bv_is_set_snoc l b i :
  bv_is_set (mkBitVec (l ++ [b])) i =
    if i <? lenN l * 8 then bv_is_set (mkBitVec l) i
    else if i <? (lenN l + 1) * 8 then N.testbit b (7 - i mod 8) else false.
Proof.
  rewrite !bv_is_set_testbit. unfold lenN. cbn [bv_inner].
  repeat case_N.
  - rewrite lookup_app_l by dlia. done.
  - rewrite lookup_app_r by dlia.
    replace (N.to_nat (i / 8) - length l)%nat with 0%nat by dlia. done.
  - rewrite lookup_ge_None_2; [done|]. rewrite length_app. simpl. dlia.
Qed.

Definition byte_ones (off b : N) : list N :=
  filter (λ i, N.testbit b (7 - i mod 8)) (seqN off 8).

Lemma bv_iter_ones_snoc l b :
  (lenN l + 1) * 8 <= 2 ^ 16 →
  bv_iter_ones (mkBitVec (l ++ [b])) =
    bv_iter_ones (mkBitVec l) ++ byte_ones (lenN l * 8) b.
Proof.
  intros Hl. unfold bv_iter_ones, byte_ones, BUCKET_SIZE. cbn [bv_inner].
  replace (lenN (l ++ [b]) * 8) with (lenN l * 8 + 8)
    by (unfold lenN; rewrite length_app; simpl; lia).
  rewrite seqN_app, filter_app. f_equal.
  - apply list_filter_ext_in. intros i Hi%elem_of_seqN.
    rewrite N.mod_small, bv_is_set_snoc by lia. case_N; [done|lia].
  - apply list_filter_ext_in. intros i Hi%elem_of_seqN.
    rewrite N.mod_small, bv_is_set_snoc by lia. repeat case_N; lia || done.
Qed.

(** Every byte has as many positions as ones (checked byte by byte). *)
Lemma byte_ones_count off b :
  b < 256 → lenN (byte_ones (off * 8) b) = count_ones b.
Proof.
  intros Hb.
  assert (byte_ones (off * 8) b = (λ i, off * 8 + i) <$> byte_ones 0 b) as ->.
  { unfold byte_ones. rewrite seqN_shift, list_filter_fmap. f_equal.
    apply list_filter_iff. intros i.
    replace ((off * 8 + i) mod 8) with (i mod 8) by dlia. done. }
  unfold lenN. rewrite length_fmap.
  assert (forallb (λ b, N.of_nat (length (byte_ones 0 b)) =? count_ones b) (seqN 0 256) = true)
    as Hall by (vm_compute; reflexivity).
  rewrite forallb_forall in Hall.
  apply N.eqb_eq, Hall, list_elem_of_In, elem_of_seqN. lia.
Qed.

Lemma bv_count_ones_snoc l b :
  bv_count_ones (mkBitVec (l ++ [b])) = bv_count_ones (mkBitVec l) + count_ones b.
Proof.
  unfold bv_count_ones. cbn [bv_inner]. rewrite foldr_app. simpl.
  rewrite N.add_0_r. induction l as [|x l IH]; simpl; [lia|]. rewrite IH. lia.
Qed.

(** Induction on the buckets of a well-formed vector, from the left. *)
Lemma bv_snoc_ind (P : list N → Prop) :
  P [] →
  (∀ l b, bv_wf (mkBitVec l) → b < 256 → (lenN l + 1) * 8 <= 2 ^ 16 → P l → P (l ++ [b])) →
  ∀ bv, bv_wf bv → P (bv_inner bv).
Proof.
  intros Hnil Hsnoc [l] [Hb Hl]. cbn [bv_inner] in *.
  induction l as [|b l IH] using rev_ind; [done|].
  apply Forall_app in Hb as [Hb Hb1]. rewrite Forall_singleton in Hb1.
  unfold lenN, MAX_BUCKETS in *. rewrite length_app in Hl. simpl in Hl.
  apply Hsnoc; [by split; [|unfold lenN, MAX_BUCKETS; cbn [bv_inner]; lia]|exact Hb1|lia|].
  apply IH; [done|lia].
Qed.

Lemma find_nonzero_shift i l :
  find_nonzero (i + 1) l = (λ jb, (jb.1 + 1, jb.2)) <$> find_nonzero i l.
Proof.
  revert i. induction l as [|b l IH]; intros i; [done|]. simpl.
  case_N; [|done]. apply IH.
Qed.

Lemma bv_last_set_bit_snoc l b :
  bv_last_set_bit (mkBitVec (l ++ [b])) =
    if b =? 0 then bv_last_set_bit (mkBitVec l)
    else Some ((8 * (lenN l + 1) - trailing_zeros 8 b - 1) mod 2 ^ 16).
Proof.
  unfold bv_last_set_bit. cbn [bv_inner]. rewrite reverse_snoc. cbn [find_nonzero].
  replace (lenN (l ++ [b])) with (lenN l + 1)
    by (unfold lenN; rewrite length_app; simpl; lia).
  case_N; [|by rewrite N.sub_0_r].
  rewrite (find_nonzero_shift 0). destruct (find_nonzero 0 _) as [[i x]|]; [|done].
  simpl. do 2 f_equal. lia.
Qed.

Lemma bv_last_set_bit_spec bv :
  bv_wf bv →
  match bv_last_set_bit bv with
  | Some m => bv_is_set bv m = true ∧ m < 8 * lenN (bv_inner bv) ∧
              ∀ i, bv_is_set bv i = true → i <= m
  | None => ∀ i, bv_is_set bv i = false
  end.
Proof.
  intros Hwf. destruct bv as [l0]. revert Hwf.
  apply (bv_snoc_ind (λ l, match bv_last_set_bit (mkBitVec l) with
    | Some m => bv_is_set (mkBitVec l) m = true ∧ m < 8 * lenN l ∧
                ∀ i, bv_is_set (mkBitVec l) i = true → i <= m
    | None => ∀ i, bv_is_set (mkBitVec l) i = false end)).
  { intros i. rewrite bv_is_set_testbit. done. }
  intros l b Hl Hb Hlen IH. rewrite bv_last_set_bit_snoc.
  replace (lenN (l ++ [b])) with (lenN l + 1)
    by (unfold lenN; rewrite length_app; simpl; lia).
  destruct (N.eqb_spec b 0) as [->|Hb0].
  { destruct (bv_last_set_bit (mkBitVec l)) as [m|].
    - destruct IH as (H1 & H2 & H3). split; [|split; [lia|]].
      + rewrite bv_is_set_snoc. case_N; [done|lia].
      + intros i. rewrite bv_is_set_snoc. repeat case_N; [apply H3|..];
          by rewrite ?N.bits_0.
    - intros i. rewrite bv_is_set_snoc, IH, N.bits_0. by repeat case_N. }
  destruct (trailing_zeros_spec 8 b Hb0) as [Htz Hlow].
  assert (trailing_zeros 8 b < 8) as Htz8.
  { apply N.nle_gt. intros Hge.
    by rewrite (testbit_above 8) in Htz. }
  rewrite N.mod_small by lia. split; [|split; [lia|]].
  - rewrite bv_is_set_snoc. repeat case_N; [lia| |lia].
    replace (7 - (8 * (lenN l + 1) - trailing_zeros 8 b - 1) mod 8)
      with (trailing_zeros 8 b) by dlia. done.
  - intros i. rewrite bv_is_set_snoc. repeat case_N; [lia| |done].
    intros Hi. apply N.nlt_ge. intros Hlt. rewrite Hlow in Hi; [done|dlia].
Qed.

(** ** Bitwise operators and conversions *)

Lemma bv_bitand_is_set a b i :
  bv_is_set (bv_bitand a b) i = bv_is_set a i && bv_is_set b i.
Proof.
  rewrite !bv_is_set_testbit. unfold bv_bitand. cbn [bv_inner].
  rewrite lookup_zip_with.
  destruct (bv_inner a !! _), (bv_inner b !! _); simpl;
    by rewrite ?N.land_spec, ?andb_false_r.
Qed.

Lemma lor_buckets_lookup l k i :
  lor_buckets l k !! i = match l !! i, k !! i with
    | Some a, Some b => Some (N.lor a b)
    | Some a, None | None, Some a => Some a
    | None, None => None
    end.
Proof.
  revert k i. induction l as [|a l IH]; intros [|b k] [|i]; simpl; try done.
  - by destruct (k !! i).
  - by destruct (l !! i).
Qed.

Lemma bv_bitor_is_set a b i :
  bv_is_set (bv_bitor a b) i = bv_is_set a i || bv_is_set b i.
Proof.
  rewrite !bv_is_set_testbit. unfold bv_bitor. cbn [bv_inner].
  rewrite lor_buckets_lookup.
  destruct (bv_inner a !! _), (bv_inner b !! _);
    by rewrite ?N.lor_spec, ?orb_false_r.
Qed.

Lemma lor_buckets_wf l k :
  Forall (λ b, b < 256) l → Forall (λ b, b < 256) k →
  Forall (λ b, b < 256) (lor_buckets l k) ∧
  length (lor_buckets l k) = Nat.max (length l) (length k).
Proof.
  intros Hl. revert k. induction Hl as [|a l Ha Hl IH]; intros k Hk; [by destruct k|].
  destruct Hk as [|b k Hb Hk]; simpl; [by split; [constructor|]|].
  destruct (IH k Hk) as [H1 H2]. split; [|lia].
  constructor; [by apply lor_byte|done].
Qed.

Lemma bv_with_num_bits_is_set n i : bv_is_set (with_num_bits n) i = false.
Proof.
  rewrite bv_is_set_testbit. unfold with_num_bits. cbn [bv_inner].
  destruct (replicate _ _ !! _) as [b|] eqn:Hb; [|done].
  apply lookup_replicate in Hb as [-> _]. apply N.bits_0.
Qed.

Lemma required_buckets_le n : n <= 2 ^ 16 → required_buckets n <= MAX_BUCKETS.
Proof.
  intros. unfold required_buckets, u64_checked_sub, BUCKET_SIZE, MAX_BUCKETS.
  case_N; dlia.
Qed.

Lemma bv_with_num_bits_wf n : n <= 2 ^ 16 → bv_wf (with_num_bits n).
Proof.
  intros Hn. split; cbn [bv_inner with_num_bits].
  - by apply Forall_replicate.
  - unfold lenN. rewrite length_replicate, N2Nat.id. by apply required_buckets_le.
Qed.

(** Setting, in order, the positions of the [true]s of a list of booleans. *)
Lemma bv_set_bools_spec bits : ∀ off bv,
  bv_wf bv → off + lenN bits <= 2 ^ 16 →
  let bv' := foldl (λ bv ib, if (ib : N * bool).2 then bv_set bv (ib.1 mod 2 ^ 16) else bv)
                bv (zip (seqN off (lenN bits)) bits) in
  bv_wf bv' ∧
  ∀ i, bv_is_set bv' i =
    bv_is_set bv i || (bool_decide (off <= i) &&
      bool_decide (bits !! N.to_nat (i - off) = Some true)).
Proof.
  induction bits as [|x bits IH]; intros off bv Hwf Hlen bv'.
  - split; [done|]. intros i. simpl. by rewrite andb_false_r, orb_false_r.
  - assert (Hz : zip (seqN off (lenN (x :: bits))) (x :: bits)
              = (off, x) :: zip (seqN (off + 1) (lenN bits)) bits).
    { replace (lenN (x :: bits)) with (1 + lenN bits) by (unfold lenN; simpl; lia).
      rewrite seqN_app. unfold seqN at 1. simpl. by rewrite N.add_0_r. }
    replace (lenN (x :: bits)) with (1 + lenN bits) in Hlen by (unfold lenN; simpl; lia).
    subst bv'. rewrite Hz. cbn [foldl fst snd].
    rewrite N.mod_small by lia.
    destruct (IH (off + 1) (if x then bv_set bv off else bv)) as [IH1 IH2];
      [destruct x; [apply bv_set_wf; [lia|]|]; done|lia|].
    split; [done|]. intros i. rewrite IH2.
    destruct (decide (i = off)) as [->|Hi].
    { rewrite (bool_decide_false (off + 1 <= off)), (bool_decide_true (off <= off)),
        N.sub_diag by lia.
      simpl. rewrite orb_false_r. destruct x.
      - rewrite bv_set_is_set, bool_decide_true by done. simpl. by rewrite orb_true_r.
      - simpl. by rewrite orb_false_r. }
    assert (bv_is_set (if x then bv_set bv off else bv) i = bv_is_set bv i) as ->.
    { destruct x; [|done]. rewrite bv_set_is_set, bool_decide_false by done. done. }
    f_equal. destruct (decide (off <= i)) as [Hle|Hle].
    + rewrite !(bool_decide_true (_ <= _)) by lia. simpl.
      replace (N.to_nat (i - off)) with (S (N.to_nat (i - (off + 1)))) by lia. done.
    + rewrite !(bool_decide_false (_ <= _)) by lia. done.
Qed.

(** ** Properties *)

(** [BitVec::set] keeps the vector well formed and adds exactly the given
    position to the set of positions the vector stands for. *)
Theorem bv_set_refines bv p (Hwf : bv_wf bv) (Hp : p < 2 ^ 16) :
  bv_wf (bv_set bv p) ∧ bv_positions (bv_set bv p) = {[p]} ∪ bv_positions bv.
Proof.
  pose proof (bv_set_wf bv p Hp Hwf) as Hwf'. split; [done|].
  apply set_eq. intros i.
  rewrite elem_of_union, elem_of_singleton, !elem_of_bv_positions by done.
  rewrite bv_set_is_set, orb_true_iff, bool_decide_eq_true. naive_solver.
Qed.

Lemma bv_set_refines_witness :
  bv_wf (bv_set (mkBitVec [129]) 9) ∧
  bv_positions (bv_set (mkBitVec [129]) 9) = {[9]} ∪ bv_positions (mkBitVec [129]).
Proof.
  apply (bv_set_refines (mkBitVec [129]) 9); [split|]; [repeat constructor| |]; vm_compute; done.
Defined.

Lemma bv_count_ones_length bv : bv_wf bv → bv_count_ones bv = lenN (bv_iter_ones bv).
Proof.
  intros Hwf. destruct bv as [l0]. revert Hwf.
  apply (bv_snoc_ind (λ l, bv_count_ones (mkBitVec l) = lenN (bv_iter_ones (mkBitVec l))));
    [done|]. intros l b Hl Hb Hlen IH.
  rewrite bv_count_ones_snoc, bv_iter_ones_snoc, IH by done.
  pose proof (byte_ones_count (lenN l) b Hb) as Hc.
  unfold lenN in *. rewrite length_app. lia.
Qed.

(** [count_ones] is the number of positions set, and [last_set_bit] is the
    largest of them ([None] when there is none). *)
Theorem bv_count_last_refine bv (Hwf : bv_wf bv) :
  bv_count_ones bv = N.of_nat (size (bv_positions bv)) ∧
  match bv_last_set_bit bv with
  | Some m => m ∈ bv_positions bv ∧ ∀ i, i ∈ bv_positions bv → i <= m
  | None => bv_positions bv = ∅
  end.
Proof.
  split.
  - unfold bv_positions. rewrite size_list_to_set by apply NoDup_bv_iter_ones.
    by apply bv_count_ones_length.
  - pose proof (bv_last_set_bit_spec bv Hwf) as Hspec.
    destruct (bv_last_set_bit bv) as [m|].
    + destruct Hspec as (H1 & _ & H3). rewrite elem_of_bv_positions by done.
      split; [done|]. intros i. rewrite elem_of_bv_positions by done. apply H3.
    + apply set_eq. intros i. rewrite elem_of_bv_positions by done.
      rewrite Hspec. set_solver.
Qed.

Lemma bv_count_last_refine_witness :
  bv_count_ones (mkBitVec [129; 0]) = N.of_nat (size (bv_positions (mkBitVec [129; 0]))) ∧
  (7 ∈ bv_positions (mkBitVec [129; 0]) ∧ ∀ i, i ∈ bv_positions (mkBitVec [129; 0]) → i <= 7).
Proof.
  apply (bv_count_last_refine (mkBitVec [129; 0])).
  split; [repeat constructor|]; vm_compute; done.
Defined.

(** [&] and [|] on bit vectors are intersection and union of the position
    sets, and keep the vectors well formed. *)
Theorem bv_bitops_refine a b (Ha : bv_wf a) (Hb : bv_wf b) :
  bv_wf (bv_bitand a b) ∧ bv_wf (bv_bitor a b) ∧
  bv_positions (bv_bitand a b) = bv_positions a ∩ bv_positions b ∧
  bv_positions (bv_bitor a b) = bv_positions a ∪ bv_positions b.
Proof.
  assert (bv_wf (bv_bitand a b)) as Hand.
  { destruct Ha as [Ha1 Ha2], Hb as [Hb1 Hb2]. split; cbn [bv_inner bv_bitand].
    - apply Forall_forall. intros x Hx.
      apply elem_of_lookup_zip_with in Hx as (i & c & d & -> & Hc & Hd).
      apply (N.le_lt_trans _ c); [apply N.land_le_l|].
      by apply (Forall_lookup_1 _ _ _ _ Ha1 Hc).
    - unfold lenN, MAX_BUCKETS in *. rewrite length_zip_with. lia. }
  assert (bv_wf (bv_bitor a b)) as Hor.
  { destruct Ha as [Ha1 Ha2], Hb as [Hb1 Hb2].
    destruct (lor_buckets_wf _ _ Ha1 Hb1) as [H1 H2].
    split; [done|]. unfold lenN, MAX_BUCKETS in *. cbn [bv_bitor bv_inner]. lia. }
  split; [done|]. split; [done|]. split; apply set_eq; intros i;
    rewrite ?elem_of_intersection, ?elem_of_union, !elem_of_bv_positions by done.
  - by rewrite bv_bitand_is_set, andb_true_iff.
  - by rewrite bv_bitor_is_set, orb_true_iff.
Qed.

Lemma bv_bitops_refine_witness :
  let a := mkBitVec [129] in let b := mkBitVec [128; 1] in
  bv_wf (bv_bitand a b) ∧ bv_wf (bv_bitor a b) ∧
  bv_positions (bv_bitand a b) = bv_positions a ∩ bv_positions b ∧
  bv_positions (bv_bitor a b) = bv_positions a ∪ bv_positions b.
Proof.
  apply (bv_bitops_refine (mkBitVec [129]) (mkBitVec [128; 1]));
    (split; [repeat constructor|]; vm_compute; done).
Defined.

(** Converting a list of at most 65536 booleans never panics and gives a
    well-formed vector whose positions are the indices of the [true]s; a longer
    list panics. *)
Theorem bv_from_bools_correct {E} (bits : list bool) :
  if lenN bits <=? 2 ^ 16 then
    ∃ bv, bv_from_bools (E:=E) bits = Ok bv ∧ bv_wf bv ∧
      ∀ i, bv_is_set bv i = bool_decide (bits !! N.to_nat i = Some true)
  else bv_from_bools (E:=E) bits = Panic.
Proof.
  unfold bv_from_bools. change (MAX_BUCKETS * BUCKET_SIZE) with (2 ^ 16).
  destruct (N.leb_spec (lenN bits) (2 ^ 16)) as [Hle|Hgt]; [|done]. simpl mbind.
  assert (bv_wf (with_num_bits (lenN bits mod 2 ^ 16))) as Hwf
    by (apply bv_with_num_bits_wf; dlia).
  destruct (bv_set_bools_spec bits 0 _ Hwf) as [H1 H2]; [lia|].
  eexists. split; [done|]. split; [done|]. intros i.
  rewrite H2, bv_with_num_bits_is_set, (bool_decide_true (0 <= i)), N.sub_0_r by lia.
  done.
Qed.

(** Deserialisation accepts exactly the byte vectors of at most 8192 buckets,
    and reading back what was written gives the same vector. *)
Theorem bv_deserialize_roundtrip bv :
  bv_deserialize (bv_into_bytes bv) =
    if lenN (bv_inner bv) <=? MAX_BUCKETS then Ok bv
    else Err (BitVecTooLong (lenN (bv_inner bv))).
Proof. destruct bv. unfold bv_deserialize. simpl. repeat case_N; lia || done. Qed.
