(* ===== verification/Crypto.v ===== *)
(** * Hashes, addresses, errors and the BLS signature interface

    The 32-byte values of the program, the errors [anyhow] carries, and the
    interface of the cryptographic primitives: SHA3, BCS and the blst library are
    not part of the repository, so [CryptoHash] and [Bls] are type classes whose
    operations the other files take as arguments. *)
From S2P Require Import Prelude.
Local Open Scope N_scope.

(** ** Values compared and ordered as byte strings

    A [HashValue] and an [AccountAddress] are arrays of 32 bytes, a public key
    and a signature are compared through their byte encodings; each is the number
    its bytes spell in big-endian order, so that [Ord] is the order of [N]. *)
Abbreviation HashValue := N (only parsing).
Abbreviation AccountAddress := N (only parsing).
Abbreviation Author := N (only parsing).
Abbreviation PublicKey := N (only parsing).
Abbreviation PrivateKey := N (only parsing).
Abbreviation Signature := N (only parsing).
Abbreviation Round := N (only parsing).
Abbreviation Version := N (only parsing).

Definition hash_zero : HashValue := 0.

Fixpoint string_bytes (s : string) : list N :=
  match s with
  | EmptyString => []
  | String c s => Ascii.N_of_ascii c :: string_bytes s
  end.

Definition HASH_LENGTH : nat := 32.

(** The big-endian number of a byte string. *)
Definition be_number (bytes : list N) : N := foldl (λ acc b, acc * 256 + b) 0 bytes.

Definition create_literal_hash (word : string) : option HashValue :=
  let s := string_bytes word in
  if decide (length s <= HASH_LENGTH)%nat
  then Some (be_number (resize HASH_LENGTH 0 s)) else None.

Definition ACCUMULATOR_PLACEHOLDER_HASH : HashValue :=
  default hash_zero (create_literal_hash "ACCUMULATOR_PLACEHOLDER_HASH").

(** ** [anyhow] errors: a format string with its numeric arguments, and the
    contexts wrapped around it *)
Inductive anyhow :=
| fmt (s : string) (args : list N)
| with_context (s : string) (cause : anyhow).

#[export] Instance anyhow_eq_dec : EqDecision anyhow.
Proof. solve_decision. Defined.

(** [Error::to_string]: the outermost message. *)
Definition anyhow_to_string (e : anyhow) : string * list N :=
  match e with
  | fmt s args => (s, args)
  | with_context s _ => (s, [])
  end.

(** ** Traits *)

(** Bytes fed to a signature scheme. *)
Abbreviation Msg := (list N) (only parsing).

(** [CryptoHash + Serialize]: the hash of a value, and the bytes that are signed
    for it (the BCS encoding behind the hasher's seed; [None] when BCS refuses
    the value). *)
Class CryptoHash (A : Type) := {
  crypto_hash : A → HashValue;
  signing_message : A → option Msg;
}.

(** [bcs::to_bytes] and [bcs::from_bytes]: decoding inverts encoding. *)
Class Bcs (A Bytes : Type) := {
  to_bytes : A → outcome anyhow Bytes;
  from_bytes : Bytes → outcome anyhow A;
  from_to_bytes a bs : to_bytes a = Ok bs → from_bytes bs = Ok a;
}.

(** The bls12381 operations the program calls. *)
Class Bls := {
  bls_public_key : PrivateKey → PublicKey;
  bls_sign : PrivateKey → Msg → Signature;
  bls_verify : Signature → Msg → PublicKey → bool;
  bls_verify_aggregate : Signature → list Msg → list PublicKey → bool;
  bls_aggregate_sigs : list Signature → option Signature;
  bls_aggregate_pks : list PublicKey → option PublicKey;
}.

(** [ValidatorSigner] (types/src/validator_signer.rs) *)
Record ValidatorSigner := mkValidatorSigner {
  vs_author : AccountAddress;
  vs_private_key : PrivateKey;
}.

#[export] Instance ValidatorSigner_eq_dec : EqDecision ValidatorSigner.
Proof. solve_decision. Defined.

Inductive CryptoMaterialError := SerializationFailed.

Section bls.
Context `{!Bls}.

Definition validator_signer_sign {A} `{!CryptoHash A} (s : ValidatorSigner) (message : A)
  : outcome CryptoMaterialError Signature :=
  bytes ← ok_or (signing_message message) SerializationFailed;
  Ok (bls_sign (vs_private_key s) bytes).

Definition validator_signer_public_key (s : ValidatorSigner) : PublicKey :=
  bls_public_key (vs_private_key s).

(** [Signature::verify] on a struct: serialise, then verify. *)
Definition signature_verify {A} `{!CryptoHash A}
    (sig : Signature) (message : A) (pk : PublicKey) : bool :=
  match signing_message message with
  | Some bytes => bls_verify sig bytes pk
  | None => false
  end.

(** [Signature::verify_aggregate]: serialise every message, then verify. *)
Definition signature_verify_aggregate {A} `{!CryptoHash A}
    (sig : Signature) (msgs : list A) (pks : list PublicKey) : bool :=
  match mapM signing_message msgs with
  | Some messages => bls_verify_aggregate sig messages pks
  | None => false
  end.
End bls.

(** ** A linear scheme for the examples

    A signature is the message's number times the key, so that sums of signatures
    verify under sums of keys; the hash of a number is the number. *)
Definition sample_digest (m : Msg) : N := be_number m + 1.
Definition sum_list_N (l : list N) : N := foldr N.add 0 l.
Definition sample_bls : Bls := {|
  bls_public_key := λ k, k;
  bls_sign := λ k m, sample_digest m * k;
  bls_verify := λ s m pk, s =? sample_digest m * pk;
  bls_verify_aggregate := λ s ms pks,
    (lenN ms =? lenN pks) && (s =? sum_list_N (zip_with (λ m pk, sample_digest m * pk) ms pks));
  bls_aggregate_sigs := λ l, match l with [] => None | _ => Some (sum_list_N l) end;
  bls_aggregate_pks := λ l, match l with [] => None | _ => Some (sum_list_N l) end;
|}.
Definition sample_crypto_hash : CryptoHash N := {|
  crypto_hash := λ n, n + 1;
  signing_message := λ n, Some [n];
|}.
