(* ===== verification/Nibble.v ===== *)
(** * Bits and nibbles of keys (crates/arx-crypto/src/hash.rs, types/src/nibble)

    The bits and nibbles of a [HashValue], and [NibblePath], which packs two nibbles to a
    byte and names the nodes of the Jellyfish Merkle tree. A path refines the list of its
    nibbles, and every operation does on that list what its name says. *)
From S2P Require Import Prelude Crypto.
Local Open Scope N_scope.

(** ** Hash values as strings of bytes, bits and nibbles *)

Definition LENGTH_IN_BITS : N := 256.
Definition ROOT_NIBBLE_HEIGHT : N := 64.

(** The [index]-th byte, the first being the most significant. *)
Definition hash_byte (h : HashValue) (index : N) : N := N.land (N.shiftr h (8 * (31 - index))) 255.
Definition hash_to_vec (h : HashValue) : list N := hash_byte h <$> seqN 0 32.
Definition hash_from_slice (bytes : list N) : option HashValue :=
  if lenN bytes =? 32 then Some (be_number bytes) else None.

Definition hash_bit (h : HashValue) (index : N) : bool :=
  negb (N.land (N.shiftr (hash_byte h (index / 8)) (7 - index mod 8)) 1 =? 0).
Definition hash_nibble (h : HashValue) (index : N) : N :=
  N.land (N.shiftr (hash_byte h (index / 2)) (if index mod 2 =? 0 then 4 else 0)) 15.
Definition iter_bits (h : HashValue) : list bool := hash_bit h <$> seqN 0 LENGTH_IN_BITS.
Fixpoint common_prefix_len (l1 l2 : list bool) : N :=
  match l1, l2 with
  | x :: l1, y :: l2 => if eqb x y then 1 + common_prefix_len l1 l2 else 0
  | _, _ => 0
  end.
Definition common_prefix_bits_len (a b : HashValue) : N :=
  common_prefix_len (iter_bits a) (iter_bits b).

(** [Nibble::from] *)
Definition nibble_from {E} (n : N) : outcome E N := _ ← rassert (n <? 16); Ok n.
(** [NibbleExt::get_nibble] *)
Definition get_nibble {E} (h : HashValue) (index : N) : outcome E N :=
  _ ← rassert (index / 2 <? 32);
  nibble_from (if index mod 2 =? 0 then N.shiftr (hash_byte h (index / 2)) 4
               else N.land (hash_byte h (index / 2)) 15).
Definition common_prefix_nibbles_len (a b : HashValue) : N := common_prefix_bits_len a b / 4.

(** ** Paths *)

Record NibblePath := mkNibblePath { np_num_nibbles : N; np_bytes : list N }.

#[export] Instance NibblePath_eq_dec : EqDecision NibblePath.
Proof. solve_decision. Defined.
#[export] Instance NibblePath_countable : Countable NibblePath.
Proof.
  by apply (inj_countable' (λ p, (np_num_nibbles p, np_bytes p)) (λ '(n, b), mkNibblePath n b)); intros [].
Defined.

Section nibble_path.
Context {E : Type}.

Definition np_new_even (bytes : list N) : outcome E NibblePath :=
  _ ← rassert (lenN bytes <=? ROOT_NIBBLE_HEIGHT / 2);
  Ok (mkNibblePath (lenN bytes * 2) bytes).
Definition np_new_odd (bytes : list N) : outcome E NibblePath :=
  _ ← rassert (lenN bytes <=? ROOT_NIBBLE_HEIGHT / 2);
  last_byte ← expect (last bytes);
  _ ← rassert (N.land last_byte 15 =? 0);
  Ok (mkNibblePath (lenN bytes * 2 - 1) bytes).
Definition np_new_from_byte_array (bytes : list N) (num_nibbles : N) : outcome E NibblePath :=
  _ ← rassert (num_nibbles <=? ROOT_NIBBLE_HEIGHT);
  if num_nibbles mod 2 =? 1 then
    let num_bytes := (num_nibbles + 1) / 2 in
    _ ← rassert (num_bytes <=? lenN bytes);
    let nibble_bytes := take (N.to_nat num_bytes) bytes in
    last_byte ← expect (bytes !! N.to_nat (num_bytes - 1));
    np_new_odd (<[N.to_nat (num_bytes - 1) := N.land last_byte 240]> nibble_bytes)
  else
    _ ← rassert (num_nibbles / 2 <=? lenN bytes);
    np_new_even (take (N.to_nat (num_nibbles / 2)) bytes).

Definition np_push (p : NibblePath) (nibble : N) : outcome E NibblePath :=
  _ ← rassert (np_num_nibbles p <? ROOT_NIBBLE_HEIGHT);
  bytes ← (if np_num_nibbles p mod 2 =? 0 then Ok (np_bytes p ++ [N.shiftl nibble 4 mod 256])
           else let i := N.to_nat (np_num_nibbles p / 2) in
                b ← expect (np_bytes p !! i); Ok (<[i := N.lor b nibble]> (np_bytes p)));
  Ok (mkNibblePath (np_num_nibbles p + 1) bytes).
Definition np_pop (p : NibblePath) : outcome E (option N * NibblePath) :=
  match last (np_bytes p) with
  | None => Ok (None, p)
  | Some last_byte =>
      let rest := take (length (np_bytes p) - 1) (np_bytes p) in
      if np_num_nibbles p mod 2 =? 0 then
        nibble ← nibble_from (N.land last_byte 15);
        n ← u64_sub (np_num_nibbles p) 1;
        Ok (Some nibble, mkNibblePath n (rest ++ [N.land last_byte 240]))
      else
        nibble ← nibble_from (N.shiftr last_byte 4);
        n ← u64_sub (np_num_nibbles p) 1;
        Ok (Some nibble, mkNibblePath n rest)
  end.
Definition np_last (p : NibblePath) : outcome E (option N) :=
  if np_num_nibbles p mod 2 =? 0 then
    match last (np_bytes p) with
    | Some last_byte => Some <$> nibble_from (N.land last_byte 15)
    | None => Ok None
    end
  else last_byte ← expect (last (np_bytes p)); Some <$> nibble_from (N.shiftr last_byte 4).

Definition np_get_bit (p : NibblePath) (i : N) : outcome E bool :=
  _ ← rassert (i <? np_num_nibbles p * 4);
  b ← expect (np_bytes p !! N.to_nat (i / 8));
  Ok (negb (N.land (N.shiftr b (7 - i mod 8)) 1 =? 0)).
Definition np_get_nibble (p : NibblePath) (i : N) : outcome E N :=
  _ ← rassert (i <? np_num_nibbles p);
  b ← expect (np_bytes p !! N.to_nat (i / 2));
  nibble_from (N.land (N.shiftr b (if i mod 2 =? 1 then 0 else 4)) 15).
Definition np_is_empty (p : NibblePath) : bool := np_num_nibbles p =? 0.
Definition np_truncate (p : NibblePath) (len : N) : outcome E NibblePath :=
  _ ← rassert (len <=? np_num_nibbles p);
  let bytes := take (N.to_nat ((len + 1) / 2)) (np_bytes p) in
  bytes ← (if len mod 2 =? 0 then Ok bytes
           else b ← expect (last bytes); Ok (take (length bytes - 1) bytes ++ [N.land b 240]));
  Ok (mkNibblePath len bytes).

(** [FromIterator] *)
Fixpoint np_extend (p : NibblePath) (nibbles : list N) : outcome E NibblePath :=
  match nibbles with
  | [] => Ok p
  | nibble :: nibbles => p ← np_push p nibble; np_extend p nibbles
  end.
Definition np_from_iter (nibbles : list N) : outcome E NibblePath :=
  p ← np_new_even []; np_extend p nibbles.

(** ** Iterators *)

(** [pos] is the range [ni_pos .. ni_end]. *)
Record NibbleIterator := mkNibbleIterator {
  ni_path : NibblePath; ni_pos : N; ni_end : N; ni_start : N }.
Definition nibble_iterator_new (p : NibblePath) (start end_ : N) : outcome E NibbleIterator :=
  _ ← rassert (start <=? end_);
  _ ← rassert (start <=? ROOT_NIBBLE_HEIGHT);
  _ ← rassert (end_ <=? ROOT_NIBBLE_HEIGHT);
  Ok (mkNibbleIterator p start end_ start).
Definition np_nibbles (p : NibblePath) : outcome E NibbleIterator :=
  nibble_iterator_new p 0 (np_num_nibbles p).
Definition ni_peek (it : NibbleIterator) : outcome E (option N) :=
  if ni_pos it <? ni_end it then Some <$> np_get_nibble (ni_path it) (ni_pos it) else Ok None.
Definition ni_next (it : NibbleIterator) : outcome E (option N * NibbleIterator) :=
  if ni_pos it <? ni_end it then
    n ← np_get_nibble (ni_path it) (ni_pos it);
    Ok (Some n, mkNibbleIterator (ni_path it) (ni_pos it + 1) (ni_end it) (ni_start it))
  else Ok (None, it).
Definition ni_visited_nibbles (it : NibbleIterator) : outcome E NibbleIterator :=
  nibble_iterator_new (ni_path it) (ni_start it) (ni_pos it).
Definition ni_remaining_nibbles (it : NibbleIterator) : outcome E NibbleIterator :=
  nibble_iterator_new (ni_path it) (ni_pos it) (ni_end it).
Definition ni_num_nibbles (it : NibbleIterator) : outcome E N :=
  _ ← rassert (ni_start it <=? ni_end it); Ok (ni_end it - ni_start it).
Definition ni_is_finished (it : NibbleIterator) : outcome E bool :=
  o ← ni_peek it; Ok (match o with Some _ => false | None => true end).

(** The nibbles [next] yields until it returns [None]. *)
Fixpoint ni_drain (steps : nat) (it : NibbleIterator) : outcome E (list N) :=
  match steps with
  | O => Ok []
  | S steps =>
      '(o, it) ← ni_next it;
      match o with Some n => rest ← ni_drain steps it; Ok (n :: rest) | None => Ok [] end
  end.
Definition ni_collect (it : NibbleIterator) : outcome E (list N) :=
  ni_drain (N.to_nat (ni_end it - ni_pos it)) it.
Definition ni_get_nibble_path (it : NibbleIterator) : outcome E NibblePath :=
  visited ← ni_visited_nibbles it;
  remaining ← ni_remaining_nibbles it;
  l1 ← ni_collect visited;
  l2 ← ni_collect remaining;
  np_from_iter (l1 ++ l2).

(** [skip_common_prefix] on two nibble iterators: the count, and both iterators advanced. *)
Fixpoint skip_loop (steps : nat) (x y : NibbleIterator) (count : N)
  : outcome E (N * NibbleIterator * NibbleIterator) :=
  match steps with
  | O => Ok (count, x, y)
  | S steps =>
      x_peek ← ni_peek x;
      y_peek ← ni_peek y;
      match x_peek, y_peek with
      | Some a, Some b =>
          if a =? b then
            '(_, x) ← ni_next x; '(_, y) ← ni_next y; skip_loop steps x y (count + 1)
          else Ok (count, x, y)
      | _, _ => Ok (count, x, y)
      end
  end.
Definition skip_common_prefix (x y : NibbleIterator)
  : outcome E (N * NibbleIterator * NibbleIterator) :=
  skip_loop (S (N.to_nat (ni_end x - ni_pos x))) x y 0.
End nibble_path.

(** ** Bits of a key *)

Definition hash_wf (h : HashValue) : Prop := h < 2 ^ LENGTH_IN_BITS.
#[export] Instance hash_wf_dec h : Decision (hash_wf h) := _.

Lemma land_1_testbit x : negb (N.land x 1 =? 0) = N.testbit x 0.
Proof. by destruct x as [|[]]. Qed.

Lemma hash_byte_testbit h i j :
  j < 8 → N.testbit (hash_byte h i) j = N.testbit h (8 * (31 - i) + j).
Proof.
  intros Hj. unfold hash_byte. change 255 with (N.ones 8).
  rewrite N.land_spec, N.ones_spec_low, N.shiftr_spec, andb_true_r by lia. f_equal. lia.
Qed.
Lemma hash_byte_lt h i : hash_byte h i < 256.
Proof.
  unfold hash_byte. change 255 with (N.ones 8). rewrite N.land_ones. apply N.mod_lt. done.
Qed.
Lemma hash_bit_testbit h i : i < 256 → hash_bit h i = N.testbit h (255 - i).
Proof.
  intros Hi. unfold hash_bit. rewrite land_1_testbit, N.shiftr_spec, N.add_0_l by lia.
  rewrite hash_byte_testbit by dlia. f_equal. dlia.
Qed.
Lemma hash_nibble_testbit h i j :
  i < 64 → j < 4 → N.testbit (hash_nibble h i) j = N.testbit h (4 * (63 - i) + j).
Proof.
  intros Hi Hj. unfold hash_nibble. change 15 with (N.ones 4).
  rewrite N.land_spec, N.ones_spec_low, andb_true_r, N.shiftr_spec by lia.
  rewrite hash_byte_testbit by (case_N; lia). f_equal. case_N; dlia.
Qed.
Lemma hash_nibble_lt h i : hash_nibble h i < 16.
Proof.
  unfold hash_nibble. change 15 with (N.ones 4). rewrite N.land_ones. apply N.mod_lt. done.
Qed.
Lemma hash_nibble_bit h i j :
  i < 64 → j < 4 → N.testbit (hash_nibble h i) j = hash_bit h (4 * i + (3 - j)).
Proof.
  intros. rewrite hash_nibble_testbit, hash_bit_testbit by lia. f_equal. lia.
Qed.

Lemma hash_bits_inj a b :
  hash_wf a → hash_wf b → (∀ i, i < 256 → hash_bit a i = hash_bit b i) → a = b.
Proof.
  unfold hash_wf. intros Ha Hb Hbits. apply N.bits_inj. intros i.
  destruct (N.lt_ge_cases i 256).
  - specialize (Hbits (255 - i)). rewrite !hash_bit_testbit in Hbits by lia.
    replace (255 - (255 - i)) with i in Hbits by lia. apply Hbits. lia.
  - by rewrite !(testbit_above 256).
Qed.
Lemma nibbles_eq_iff a b i :
  i < 64 →
  hash_nibble a i = hash_nibble b i ↔ ∀ j, j < 4 → hash_bit a (4 * i + j) = hash_bit b (4 * i + j).
Proof.
  intros Hi. split.
  - intros Heq j Hj. replace j with (3 - (3 - j)) by lia.
    rewrite <- !hash_nibble_bit by lia. by rewrite Heq.
  - intros Heq. apply N.bits_inj. intros j. destruct (N.lt_ge_cases j 4).
    + rewrite !hash_nibble_bit by lia. apply Heq. lia.
    + by rewrite !(testbit_above 4) by first [done|apply hash_nibble_lt].
Qed.
Lemma hash_nibbles_inj a b :
  hash_wf a → hash_wf b → (∀ i, i < 64 → hash_nibble a i = hash_nibble b i) → a = b.
Proof.
  intros Ha Hb Hn. apply hash_bits_inj; [done..|]. intros i Hi.
  replace i with (4 * (i / 4) + i mod 4) by dlia.
  apply nibbles_eq_iff; [dlia| |dlia]. apply Hn. dlia.
Qed.

Lemma get_nibble_run {E} h i : i < 64 → get_nibble (E := E) h i = Ok (hash_nibble h i).
Proof.
  intros Hi. unfold get_nibble, nibble_from.
  rewrite (proj2 (N.ltb_lt (i / 2) 32)) by dlia. run_ok.
  assert ((if i mod 2 =? 0 then N.shiftr (hash_byte h (i / 2)) 4
           else N.land (hash_byte h (i / 2)) 15) = hash_nibble h i) as ->.
  { unfold hash_nibble. case_N.
    - pose proof (hash_byte_lt h (i / 2)). change 15 with (N.ones 4).
      rewrite N.land_ones, N.mod_small; [done|]. rewrite N.shiftr_div_pow2. apply N.Div0.div_lt_upper_bound. lia.
    - by rewrite N.shiftr_0_r. }
  rewrite (proj2 (N.ltb_lt _ 16)) by apply hash_nibble_lt. done.
Qed.

(** The nibble as a digit of the key in base 16. *)
Lemma hash_nibble_digit h i : i < 64 → hash_nibble h i = (h / 16 ^ (63 - i)) mod 16.
Proof.
  intros Hi. apply N.bits_inj. intros j.
  change 16 with (2 ^ 4) at 2. change (16 ^ (63 - i)) with ((2 ^ 4) ^ (63 - i)).
  rewrite <- N.pow_mul_r. destruct (N.lt_ge_cases j 4).
  - rewrite hash_nibble_testbit by lia. rewrite N.mod_pow2_bits_low by lia.
    rewrite N.div_pow2_bits. f_equal. lia.
  - rewrite (testbit_above 4) by first [done|apply hash_nibble_lt].
    by rewrite N.mod_pow2_bits_high.
Qed.

Lemma quotient_step x (d : nat) :
  (d < 64)%nat → x / 16 ^ (64 - N.of_nat d) = x / 16 ^ (63 - N.of_nat d) / 16.
Proof.
  intros Hd. rewrite N.Div0.div_div. f_equal.
  replace (64 - N.of_nat d) with (N.succ (63 - N.of_nat d)) by lia.
  by rewrite N.pow_succ_r', N.mul_comm.
Qed.

(** Keys with the same [d] nibbles in front are ordered by what follows. *)
Lemma prefix_quotient a b (d : nat) :
  (d <= 64)%nat → hash_wf a → hash_wf b →
  (∀ i, (i < d)%nat → hash_nibble a (N.of_nat i) = hash_nibble b (N.of_nat i)) →
  a / 16 ^ (64 - N.of_nat d) = b / 16 ^ (64 - N.of_nat d).
Proof.
  intros Hd Ha Hb. induction d as [|d IH]; intros Heq.
  - change (64 - N.of_nat 0) with 64. change (16 ^ 64) with (2 ^ LENGTH_IN_BITS).
    by rewrite !N.div_small.
  - specialize (IH ltac:(lia)). specialize (Heq d ltac:(lia)) as Hlast.
    rewrite !hash_nibble_digit in Hlast by lia.
    replace (64 - N.of_nat (S d)) with (63 - N.of_nat d) by lia.
    rewrite !quotient_step in IH by lia. specialize (IH ltac:(intros; apply Heq; lia)).
    rewrite (N.div_mod (a / _) 16), (N.div_mod (b / _) 16) by done. congruence.
Qed.
Lemma nibble_mono a b (d : nat) :
  (d < 64)%nat → hash_wf a → hash_wf b →
  (∀ i, (i < d)%nat → hash_nibble a (N.of_nat i) = hash_nibble b (N.of_nat i)) →
  a <= b → hash_nibble a (N.of_nat d) <= hash_nibble b (N.of_nat d).
Proof.
  intros Hd Ha Hb Heq Hle. rewrite !hash_nibble_digit by lia.
  pose proof (prefix_quotient a b d ltac:(lia) Ha Hb Heq) as Hq.
  rewrite !quotient_step in Hq by lia.
  assert (a / 16 ^ (63 - N.of_nat d) <= b / 16 ^ (63 - N.of_nat d)) as Hdiv
    by (apply N.Div0.div_le_mono; done).
  revert Hq Hdiv. generalize (a / 16 ^ (63 - N.of_nat d)), (b / 16 ^ (63 - N.of_nat d)).
  intros x y ??. dlia.
Qed.

Lemma length_iter_bits h : length (iter_bits h) = 256%nat.
Proof. unfold iter_bits. by rewrite length_fmap, length_seqN. Qed.
Lemma lookup_iter_bits h i : (i < 256)%nat → iter_bits h !! i = Some (hash_bit h (N.of_nat i)).
Proof. intros. unfold iter_bits. rewrite list_lookup_fmap, lookup_seqN by (unfold LENGTH_IN_BITS; lia). done. Qed.

Lemma common_prefix_len_spec l1 l2 (n : nat) :
  length l1 = length l2 →
  N.of_nat n <= common_prefix_len l1 l2 ↔ (n <= length l1)%nat ∧ take n l1 = take n l2.
Proof.
  revert l2 n. induction l1 as [|x l1 IH]; intros [|y l2] n Hlen; simplify_eq/=.
  - split; [intros; split; [lia|by rewrite !take_nil]|]. intros [??]; lia.
  - destruct n as [|n]; [cbn; split; [split; [lia|done]|lia]|].
    destruct (eqb x y) eqn:Hxy.
    + apply eqb_prop in Hxy as ->. specialize (IH l2 n ltac:(lia)).
      rewrite !firstn_cons. split.
      * intros. destruct (proj1 IH) as [? ->]; [lia|]. split; [lia|done].
      * intros [? Heq]. simplify_eq. assert (N.of_nat n <= common_prefix_len l1 l2); [|lia].
        apply IH. split; [lia|done].
    + split; [lia|]. rewrite !firstn_cons. intros [? ?]. simplify_eq. by rewrite eqb_reflx in Hxy.
Qed.
Lemma common_prefix_bits_len_spec a b n :
  n <= common_prefix_bits_len a b ↔ n <= 256 ∧ ∀ i, i < n → hash_bit a i = hash_bit b i.
Proof.
  unfold common_prefix_bits_len. rewrite <- (N2Nat.id n) at 1.
  rewrite common_prefix_len_spec by by rewrite !length_iter_bits. rewrite length_iter_bits.
  split; intros [Hn Heq]; (split; [lia|]).
  - intros i Hi. assert (take (N.to_nat n) (iter_bits a) !! N.to_nat i = take (N.to_nat n) (iter_bits b) !! N.to_nat i)
      as Hl by by rewrite Heq.
    rewrite !lookup_take_lt, !lookup_iter_bits, !N2Nat.id in Hl by lia. by simplify_eq.
  - apply list_eq. intros i. destruct (decide (i < N.to_nat n)%nat).
    + rewrite !lookup_take_lt, !lookup_iter_bits by lia. rewrite Heq by lia. done.
    + by rewrite !lookup_take_ge by lia.
Qed.

(** ** Paths as lists of nibbles *)

Fixpoint pack (l : list N) : list N :=
  match l with
  | [] => []
  | [a] => [16 * a]
  | a :: b :: l => (16 * a + b) :: pack l
  end.
Definition path_of (l : list N) : NibblePath := mkNibblePath (lenN l) (pack l).
Definition nibbles_ok (l : list N) : Prop := Forall (λ n, n < 16) l ∧ (length l <= 64)%nat.

(** Every byte of [bytes] but perhaps the last one holds two nibbles. *)
Fixpoint unpack (n : nat) (bytes : list N) : list N :=
  match n, bytes with
  | S (S n), b :: bytes => N.shiftr b 4 :: N.land b 15 :: unpack n bytes
  | S O, b :: _ => [N.shiftr b 4]
  | _, _ => []
  end.
Definition np_list (p : NibblePath) : list N := unpack (N.to_nat (np_num_nibbles p)) (np_bytes p).

(** The representation invariant the comments of the struct state. *)
Definition np_wf (p : NibblePath) : Prop :=
  np_num_nibbles p <= ROOT_NIBBLE_HEIGHT ∧ lenN (np_bytes p) = (np_num_nibbles p + 1) / 2 ∧
  Forall (λ b, b < 256) (np_bytes p) ∧
  (np_num_nibbles p mod 2 = 1 → ∀ b, last (np_bytes p) = Some b → N.land b 15 = 0).

Lemma even_pairs {A} (l : list A) :
  (∃ l', l = l' ∧ Nat.even (length l') = true) ∨
  (∃ l' a, l = l' ++ [a] ∧ Nat.even (length l') = true).
Proof.
  destruct (Nat.even (length l)) eqn:Hl; [eauto|]. right.
  destruct l as [|a l _] using rev_ind; [done|]. exists l, a. split; [done|].
  rewrite length_app in Hl. cbn in Hl. rewrite Nat.add_1_r, Nat.even_succ in Hl.
  by rewrite <- Nat.negb_odd, Hl.
Qed.

Lemma shiftr_4_pair a b : b < 16 → N.shiftr (16 * a + b) 4 = a.
Proof. intros. rewrite N.shiftr_div_pow2. change (2 ^ 4) with 16. dlia. Qed.
Lemma land_15_pair a b : b < 16 → N.land (16 * a + b) 15 = b.
Proof. intros. change 15 with (N.ones 4). rewrite N.land_ones. change (2 ^ 4) with 16. dlia. Qed.
Lemma land_15_mul a : N.land (16 * a) 15 = 0.
Proof. rewrite <- (N.add_0_r (16 * a)). by apply land_15_pair. Qed.
Lemma shiftr_4_mul a : N.shiftr (16 * a) 4 = a.
Proof. rewrite <- (N.add_0_r (16 * a)). by apply shiftr_4_pair. Qed.
Lemma byte_pair b : b = 16 * N.shiftr b 4 + N.land b 15.
Proof.
  change 15 with (N.ones 4). rewrite N.land_ones, N.shiftr_div_pow2. change (2 ^ 4) with 16. dlia.
Qed.
Lemma land_240_pair a b : a < 16 → b < 16 → N.land (16 * a + b) 240 = 16 * a.
Proof.
  intros Ha Hb. rewrite (byte_pair (N.land _ 240)).
  rewrite N.shiftr_land, <- N.land_assoc. change (N.shiftr 240 4) with (N.ones 4).
  change (N.land 240 15) with 0. rewrite shiftr_4_pair, N.land_ones, N.land_0_r, N.mod_small by done. lia.
Qed.
Lemma lor_pair a b : b < 16 → N.lor (16 * a) b = 16 * a + b.
Proof.
  intros Hb. rewrite (byte_pair (N.lor _ _)), N.shiftr_lor, N.land_lor_distr_l.
  rewrite shiftr_4_mul, land_15_mul, N.lor_0_l.
  replace (N.shiftr b 4) with 0 by (rewrite N.shiftr_div_pow2, N.div_small; done).
  change 15 with (N.ones 4). rewrite N.lor_0_r, N.land_ones, N.mod_small by done. done.
Qed.

Lemma pack_app l1 l2 : Nat.even (length l1) = true → pack (l1 ++ l2) = pack l1 ++ pack l2.
Proof.
  induction l1 as [|a|a b l1 IH] using list_pair_ind; intros Hl; [done..|].
  cbn in *. by rewrite IH.
Qed.
Lemma length_pack l : length (pack l) = ((length l + 1) / 2)%nat.
Proof.
  induction l as [|a|a b l IH] using list_pair_ind; [done..|]. cbn [pack length]. rewrite IH.
  replace (S (S (length l)) + 1)%nat with (length l + 1 + 1 * 2)%nat by lia.
  rewrite Nat.div_add by done. lia.
Qed.
Lemma pack_bytes l : Forall (λ n, n < 16) l → Forall (λ b, b < 256) (pack l).
Proof.
  induction l as [|a|a b l IH] using list_pair_ind; intros Hl; repeat apply Forall_cons in Hl as [? Hl];
    cbn; repeat constructor; [lia..|auto].
Qed.
Lemma unpack_pack l : Forall (λ n, n < 16) l → unpack (length l) (pack l) = l.
Proof.
  induction l as [|a|a b l IH] using list_pair_ind; intros Hl; repeat apply Forall_cons in Hl as [? Hl];
    cbn; [done| |].
  - by rewrite shiftr_4_mul.
  - by rewrite shiftr_4_pair, land_15_pair, IH.
Qed.
Lemma pack_inj l1 l2 :
  Forall (λ n, n < 16) l1 → Forall (λ n, n < 16) l2 → path_of l1 = path_of l2 → l1 = l2.
Proof.
  unfold path_of. intros H1 H2 [= Hlen Hp]. assert (length l1 = length l2) as Hl by (unfold lenN in Hlen; lia).
  rewrite <- (unpack_pack l1), <- (unpack_pack l2) by done. by rewrite Hp, Hl.
Qed.
Lemma np_list_path_of l : nibbles_ok l → np_list (path_of l) = l.
Proof. intros [? _]. unfold np_list, path_of, lenN. cbn. rewrite Nat2N.id. by apply unpack_pack. Qed.

Lemma path_of_wf l : nibbles_ok l → np_wf (path_of l).
Proof.
  intros [Hl Hlen]. unfold np_wf, path_of, ROOT_NIBBLE_HEIGHT. cbn [np_num_nibbles np_bytes].
  split; [unfold lenN; lia|]. split; [|split; [by apply pack_bytes|]].
  - unfold lenN. rewrite length_pack, Nat2N.inj_div, Nat2N.inj_add. done.
  - destruct (even_pairs l) as [(l' & -> & He)|(l' & a & -> & He)].
    + unfold lenN. intros Hodd. apply Nat.even_spec in He as [k Hk]. rewrite Hk in Hodd. dlia.
    + rewrite pack_app by done. cbn [pack]. intros _ b. rewrite last_snoc. intros [= <-]. apply land_15_mul.
Qed.

Lemma wf_path_of p : np_wf p → p = path_of (np_list p) ∧ nibbles_ok (np_list p).
Proof.
  destruct p as [n bytes]. unfold np_wf, np_list, path_of, nibbles_ok, ROOT_NIBBLE_HEIGHT.
  cbn [np_num_nibbles np_bytes]. intros (Hn & Hlen & Hb & Hodd).
  cut (pack (unpack (N.to_nat n) bytes) = bytes ∧ length (unpack (N.to_nat n) bytes) = N.to_nat n ∧
       Forall (λ m, m < 16) (unpack (N.to_nat n) bytes)).
  { intros (Hp & Hl & Hf). split_and!; [|done|lia]. unfold lenN. rewrite Hp, Hl. f_equal. lia. }
  clear Hn. revert n Hlen Hodd. induction Hb as [|b bytes Hb Hbytes IH]; intros n Hlen Hodd.
  { replace n with 0 by (unfold lenN in Hlen; cbn in Hlen; dlia). done. }
  destruct (decide (n = 0)) as [->|]; [done|]. destruct (decide (n = 1)) as [->|].
  { destruct bytes; [|unfold lenN in Hlen; cbn in Hlen; dlia]. change (N.to_nat 1) with 1%nat. cbn.
    split_and!; [|done|repeat constructor].
    - f_equal. rewrite (byte_pair b) at 2. rewrite (Hodd eq_refl b eq_refl). lia.
    - rewrite N.shiftr_div_pow2. change (2 ^ 4) with 16. dlia. }
  destruct (IH (n - 2)) as (Hp & Hl & Hf).
  { unfold lenN in *. cbn [length] in Hlen. dlia. }
  { intros Hm b' Hb'. apply Hodd; [dlia|]. rewrite last_cons, Hb'. done. }
  replace (N.to_nat n) with (S (S (N.to_nat (n - 2)))) by lia. cbn [unpack pack length].
  rewrite Hp, Hl, <- byte_pair. split_and!; [done|lia|]. repeat constructor; [..|done].
  - rewrite N.shiftr_div_pow2. change (2 ^ 4) with 16. dlia.
  - change 15 with (N.ones 4). rewrite N.land_ones. by apply N.mod_lt.
Qed.

Lemma lookup_pack l i a :
  Forall (λ n, n < 16) l → l !! i = Some a →
  ∃ b, pack l !! (i / 2)%nat = Some b ∧ b < 256 ∧
    a = if Nat.even i then N.shiftr b 4 else N.land b 15.
Proof.
  revert i. induction l as [|x|x y l IH] using list_pair_ind; intros i Hl Hi; [done| |].
  - apply list_lookup_singleton_Some in Hi as [-> ->]. rewrite Forall_singleton in Hl.
    exists (16 * a). cbn [pack]. rewrite shiftr_4_mul. split_and!; [done|lia|done].
  - repeat apply Forall_cons in Hl as [? Hl]. destruct i as [|[|i]];
      [injection Hi as ->|injection Hi as ->|change (l !! i = Some a) in Hi].
    + exists (16 * a + y). rewrite shiftr_4_pair by done. split_and!; [done|lia|done].
    + exists (16 * x + a). rewrite land_15_pair by done. split_and!; [done|lia|done].
    + destruct (IH i Hl Hi) as (b & Hb & Hlt & ->). exists b.
      replace (S (S i) / 2)%nat with (S (i / 2))%nat; [done|].
      replace (S (S i)) with (i + 1 * 2)%nat by lia. rewrite Nat.div_add by done. lia.
Qed.

Lemma pad_pack l k a :
  Forall (λ n, n < 16) l → l !! (2 * k)%nat = Some a →
  ∃ b, pack l !! k = Some b ∧ N.land b 240 = 16 * a.
Proof.
  intros Hl Ha. destruct (lookup_pack l (2 * k) a Hl Ha) as (b & Hb & _ & Hab).
  rewrite Nat.mul_comm, Nat.div_mul in Hb by done. rewrite Nat.even_even in Hab.
  assert (a < 16) by (rewrite Forall_lookup in Hl; eauto).
  exists b. split; [done|]. rewrite (byte_pair b), <- Hab, land_240_pair; [done|done|].
  change 15 with (N.ones 4). rewrite N.land_ones. by apply N.mod_lt.
Qed.

Section refine.
Context {E : Type}.

Lemma np_get_nibble_run l i a :
  nibbles_ok l → l !! N.to_nat i = Some a → np_get_nibble (E := E) (path_of l) i = Ok a.
Proof.
  intros [Hl _] Hi. destruct (lookup_pack l _ a Hl Hi) as (b & Hb & Hlt & Ha).
  apply lookup_lt_Some in Hi as Hlt'. unfold np_get_nibble, path_of. cbn [np_num_nibbles np_bytes].
  rewrite (proj2 (N.ltb_lt i (lenN l))) by (unfold lenN; lia). run_ok.
  replace (N.to_nat (i / 2)) with (N.to_nat i / 2)%nat by (rewrite N2Nat.inj_div; done).
  rewrite Hb. run_ok. unfold nibble_from.
  assert (N.land (N.shiftr b (if i mod 2 =? 1 then 0 else 4)) 15 = a) as ->.
  { rewrite Ha. destruct (Nat.even (N.to_nat i)) eqn:He.
    - apply Nat.even_spec in He as [k Hk]. destruct (N.eqb_spec (i mod 2) 1); [dlia|].
      change 15 with (N.ones 4). rewrite N.land_ones, N.mod_small; [done|].
      rewrite N.shiftr_div_pow2. change (2 ^ 4) with 16. dlia.
    - apply (f_equal negb) in He. rewrite Nat.negb_even in He. apply Nat.odd_spec in He as [k Hk].
      destruct (N.eqb_spec (i mod 2) 1); [by rewrite N.shiftr_0_r|dlia]. }
  rewrite (proj2 (N.ltb_lt a 16)); [done|].
  rewrite Forall_lookup in Hl. eauto.
Qed.
Lemma np_get_nibble_oob l i : ¬ i < lenN l → np_get_nibble (E := E) (path_of l) i = Panic.
Proof.
  intros Hi. unfold np_get_nibble, path_of. cbn. by rewrite (proj2 (N.ltb_ge _ _)) by lia.
Qed.

Lemma np_push_run l n :
  nibbles_ok l → n < 16 → (length l < 64)%nat → np_push (E := E) (path_of l) n = Ok (path_of (l ++ [n])).
Proof.
  intros [Hl _] Hn Hlen. unfold np_push, path_of. cbn [np_num_nibbles np_bytes].
  rewrite (proj2 (N.ltb_lt (lenN l) ROOT_NIBBLE_HEIGHT)) by (unfold lenN, ROOT_NIBBLE_HEIGHT; lia). run_ok.
  assert (lenN (l ++ [n]) = lenN l + 1) as -> by (unfold lenN; rewrite length_app; cbn; lia).
  destruct (even_pairs l) as [(l' & -> & He)|(l' & a & -> & He)];
    pose proof He as He'; apply Nat.even_spec in He' as [k Hk].
  - replace (lenN l' mod 2 =? 0) with true by (symmetry; apply N.eqb_eq; unfold lenN; dlia). run_ok.
    rewrite pack_app by done. do 2 f_equal. rewrite N.shiftl_mul_pow2. change (2 ^ 4) with 16.
    rewrite N.mod_small by lia. cbn. do 2 f_equal. lia.
  - assert (lenN (l' ++ [a]) = 2 * N.of_nat k + 1) as -> by (unfold lenN; rewrite length_app; cbn; lia).
    replace ((2 * N.of_nat k + 1) mod 2 =? 0) with false by (symmetry; apply N.eqb_neq; dlia).
    replace (N.to_nat ((2 * N.of_nat k + 1) / 2)) with k by dlia.
    rewrite <- app_assoc, !pack_app by done. cbn.
    assert (k = length (pack l')) as Hkl.
    { rewrite length_pack, Hk. rewrite (Nat.mul_comm 2), Nat.div_add_l by done. change (1 / 2)%nat with 0%nat. lia. }
    rewrite Hkl. rewrite lookup_app_r, Nat.sub_diag by lia. change ([16 * a] !! 0%nat) with (Some (16 * a)). run_ok.
    rewrite insert_app_r_alt, Nat.sub_diag by lia. cbn. rewrite lor_pair by done. done.
Qed.
Lemma np_push_full l n : ¬ (length l < 64)%nat → np_push (E := E) (path_of l) n = Panic.
Proof.
  intros Hlen. unfold np_push, path_of. cbn.
  by rewrite (proj2 (N.ltb_ge (lenN l) ROOT_NIBBLE_HEIGHT)) by (unfold lenN, ROOT_NIBBLE_HEIGHT; lia).
Qed.
Lemma np_push_wf p n p' : np_wf p → n < 16 → np_push (E := E) p n = Ok p' →
  np_wf p' ∧ np_list p' = np_list p ++ [n].
Proof.
  intros [Hp Hok]%wf_path_of Hn. rewrite Hp. destruct (decide (length (np_list p) < 64)%nat).
  - rewrite np_push_run by done. intros [= <-].
    assert (nibbles_ok (np_list p ++ [n])).
    { destruct Hok. split; [apply Forall_app; by repeat constructor|rewrite length_app; cbn; lia]. }
    split; [by apply path_of_wf|]. by rewrite <- Hp, np_list_path_of.
  - by rewrite np_push_full.
Qed.

Lemma snoc_pack l n :
  nibbles_ok (l ++ [n]) →
  (∃ k, length l = (2 * k)%nat ∧ pack (l ++ [n]) = pack l ++ [16 * n]) ∨
  (∃ k l' a, length l = (2 * k + 1)%nat ∧ l = l' ++ [a] ∧ a < 16 ∧
     pack (l ++ [n]) = pack l' ++ [16 * a + n] ∧ pack l = pack l' ++ [16 * a]).
Proof.
  intros [Hf _]. destruct (even_pairs l) as [(l' & -> & He)|(l' & a & -> & He)];
    pose proof He as He'; apply Nat.even_spec in He' as [k Hk].
  - left. exists k. by rewrite pack_app.
  - right. exists k, l', a. rewrite length_app, <- app_assoc, !pack_app by done. cbn.
    repeat rewrite Forall_app in Hf. destruct Hf as [[_ Ha]_]. rewrite Forall_singleton in Ha.
    split_and!; [lia|done..|by rewrite pack_app].
Qed.
Lemma nibbles_ok_snoc l n : nibbles_ok (l ++ [n]) ↔ nibbles_ok l ∧ n < 16 ∧ (length l < 64)%nat.
Proof. unfold nibbles_ok. rewrite Forall_app, Forall_singleton, length_app. cbn. intuition lia. Qed.

Lemma np_pop_run l n :
  nibbles_ok (l ++ [n]) → np_pop (E := E) (path_of (l ++ [n])) = Ok (Some n, path_of l).
Proof.
  intros Hok. pose proof Hok as (_ & Hn & _)%nibbles_ok_snoc. unfold np_pop, path_of. cbn [np_bytes np_num_nibbles].
  assert (lenN (l ++ [n]) = lenN l + 1) as -> by (unfold lenN; rewrite length_app; cbn; lia).
  destruct (snoc_pack l n Hok) as [(k & Hk & ->)|(k & l' & a & Hk & -> & Ha & -> & ->)];
    rewrite last_snoc, length_app, Nat.add_sub, take_app_length;
    unfold u64_sub, u64_checked_sub, nibble_from.
  - destruct (N.eqb_spec ((lenN l + 1) mod 2) 0) as [Hm|_]; [unfold lenN in Hm; dlia|].
    rewrite shiftr_4_mul, (proj2 (N.ltb_lt n 16)), (proj2 (N.leb_le 1 _)) by lia. run_ok.
    by rewrite N.add_sub.
  - destruct (N.eqb_spec ((lenN (l' ++ [a]) + 1) mod 2) 0) as [_|Hm]; [|unfold lenN in Hm; dlia].
    rewrite land_15_pair, land_240_pair, (proj2 (N.ltb_lt n 16)), (proj2 (N.leb_le 1 _)) by lia. run_ok.
    by rewrite N.add_sub.
Qed.
Lemma np_pop_nil : np_pop (E := E) (path_of []) = Ok (None, path_of []).
Proof. done. Qed.
Lemma np_last_run l : nibbles_ok l → np_last (E := E) (path_of l) = Ok (last l).
Proof.
  destruct l as [|n l _] using rev_ind; [done|]. intros Hok.
  pose proof Hok as (_ & Hn & _)%nibbles_ok_snoc. unfold np_last, path_of. cbn [np_bytes np_num_nibbles].
  rewrite last_snoc.
  assert (lenN (l ++ [n]) = lenN l + 1) as -> by (unfold lenN; rewrite length_app; cbn; lia).
  destruct (snoc_pack l n Hok) as [(k & Hk & ->)|(k & l' & a & Hk & -> & Ha & -> & _)];
    rewrite last_snoc; unfold nibble_from.
  - destruct (N.eqb_spec ((lenN l + 1) mod 2) 0) as [Hm|_]; [unfold lenN in Hm; dlia|]. run_ok.
    by rewrite shiftr_4_mul, (proj2 (N.ltb_lt n 16)).
  - destruct (N.eqb_spec ((lenN (l' ++ [a]) + 1) mod 2) 0) as [_|Hm]; [|unfold lenN in Hm; dlia].
    by rewrite land_15_pair, (proj2 (N.ltb_lt n 16)).
Qed.

Lemma np_extend_run l l' :
  nibbles_ok (l ++ l') → np_extend (E := E) (path_of l) l' = Ok (path_of (l ++ l')).
Proof.
  revert l. induction l' as [|n l' IH]; intros l Hok; cbn [np_extend]; [by rewrite app_nil_r|].
  replace (l ++ n :: l') with ((l ++ [n]) ++ l') in * by (by rewrite <- app_assoc).
  assert (nibbles_ok (l ++ [n])) as (Hl & Hn & Hlen)%nibbles_ok_snoc.
  { destruct Hok as [Hf Hlen]. apply Forall_app in Hf as [? _]. rewrite length_app in Hlen. split; [done|lia]. }
  rewrite np_push_run by done. run_ok. by apply IH.
Qed.
Lemma np_from_iter_run l : nibbles_ok l → np_from_iter (E := E) l = Ok (path_of l).
Proof. apply (np_extend_run []). Qed.

Lemma ni_next_run l i e s a :
  nibbles_ok l → i < e → l !! N.to_nat i = Some a →
  ni_next (E := E) (mkNibbleIterator (path_of l) i e s) =
    Ok (Some a, mkNibbleIterator (path_of l) (i + 1) e s) ∧
  ni_peek (E := E) (mkNibbleIterator (path_of l) i e s) = Ok (Some a).
Proof.
  intros Hl Hi Ha. unfold ni_next, ni_peek. cbn. rewrite (proj2 (N.ltb_lt i e)) by done.
  by rewrite (np_get_nibble_run l i a).
Qed.
Lemma ni_peek_end p e s : ni_peek (E := E) (mkNibbleIterator p e e s) = Ok None.
Proof. unfold ni_peek. cbn. by rewrite N.ltb_irrefl. Qed.
Lemma ni_collect_run l i e s :
  nibbles_ok l → i <= e → e <= lenN l →
  ni_collect (E := E) (mkNibbleIterator (path_of l) i e s)
  = Ok (take (N.to_nat (e - i)) (drop (N.to_nat i) l)).
Proof.
  intros Hl Hi He. unfold ni_collect. cbn [ni_end ni_pos].
  remember (N.to_nat (e - i)) as k eqn:Hk. revert i Hi Hk. induction k as [|k IH]; intros i Hi Hk; [done|].
  destruct (lookup_lt_is_Some_2 l (N.to_nat i)) as [a Ha]; [unfold lenN in He; lia|].
  cbn [ni_drain]. destruct (ni_next_run l i e s a) as [-> _]; [done|lia|done|]. run_ok.
  rewrite IH by lia. run_ok. rewrite (drop_S l a (N.to_nat i)) by done.
  by rewrite N2Nat.inj_add, Nat.add_1_r.
Qed.
Lemma np_nibbles_collect l :
  nibbles_ok l → (np_nibbles (E := E) (path_of l) ≫= ni_collect) = Ok l.
Proof.
  intros Hl. pose proof (proj2 Hl). unfold np_nibbles, nibble_iterator_new, ROOT_NIBBLE_HEIGHT.
  change (np_num_nibbles (path_of l)) with (lenN l).
  rewrite (proj2 (N.leb_le 0 (lenN l))), (proj2 (N.leb_le (lenN l) 64)) by (unfold lenN; lia).
  change (0 <=? 64) with true. run_ok.
  rewrite ni_collect_run by (done || lia). rewrite N.sub_0_r. change (N.to_nat 0) with 0%nat.
  rewrite drop_0. unfold lenN. by rewrite Nat2N.id, firstn_all.
Qed.
Lemma ni_get_nibble_path_run l i e s :
  nibbles_ok l → s <= i → i <= e → e <= lenN l →
  ni_get_nibble_path (E := E) (mkNibbleIterator (path_of l) i e s)
  = Ok (path_of (take (N.to_nat (e - s)) (drop (N.to_nat s) l))).
Proof.
  intros Hl Hs Hi He. pose proof (proj2 Hl). unfold ni_get_nibble_path, ni_visited_nibbles, ni_remaining_nibbles,
    nibble_iterator_new, ROOT_NIBBLE_HEIGHT. cbn [ni_path ni_pos ni_end ni_start].
  rewrite (proj2 (N.leb_le s i)), (proj2 (N.leb_le i e)), (proj2 (N.leb_le s 64)), (proj2 (N.leb_le i 64)),
    (proj2 (N.leb_le e 64)) by (unfold lenN in *; lia). run_ok.
  rewrite !ni_collect_run by (done || lia). run_ok.
  assert (take (N.to_nat (i - s)) (drop (N.to_nat s) l) ++ take (N.to_nat (e - i)) (drop (N.to_nat i) l)
    = take (N.to_nat (e - s)) (drop (N.to_nat s) l)) as ->.
  { replace (N.to_nat i) with (N.to_nat s + N.to_nat (i - s))%nat by lia.
    rewrite <- drop_drop. replace (N.to_nat (e - s)) with (N.to_nat (i - s) + N.to_nat (e - i))%nat by lia.
    by rewrite take_take_drop. }
  apply np_from_iter_run. destruct Hl as [Hf _]. split.
  - by apply Forall_take, Forall_drop.
  - rewrite length_take, length_drop. unfold lenN in *. lia.
Qed.

Lemma take_pack k l : take k (pack l) = pack (take (2 * k) l).
Proof.
  revert k. induction l as [|a|a b l IH] using list_pair_ind; intros [|k]; try done.
  - replace (2 * S k)%nat with (S (S (2 * k))) by lia. cbn. by rewrite !take_nil.
  - replace (2 * S k)%nat with (S (S (2 * k))) by lia. cbn [pack]. rewrite !firstn_cons.
    cbn [pack]. by rewrite IH.
Qed.
Lemma np_truncate_run l n :
  nibbles_ok l → n <= lenN l → np_truncate (E := E) (path_of l) n = Ok (path_of (take (N.to_nat n) l)).
Proof.
  intros Hok Hn. unfold np_truncate, path_of. cbn [np_num_nibbles np_bytes].
  rewrite (proj2 (N.leb_le n (lenN l))) by done. run_ok.
  assert (lenN (take (N.to_nat n) l) = n) as -> by (unfold lenN in *; rewrite length_take; lia).
  destruct (N.eqb_spec (n mod 2) 0) as [Hm|Hm].
  - run_ok. rewrite take_pack. do 4 f_equal. dlia.
  - set (k := N.to_nat (n / 2)). assert (N.to_nat n = 2 * k + 1)%nat as -> by dlia.
    assert (N.to_nat ((n + 1) / 2) = S k) as -> by dlia.
    destruct (lookup_lt_is_Some_2 l (2 * k)) as [a Ha]; [unfold lenN in Hn; dlia|].
    destruct (pad_pack l k a) as (b & Hb & Hpad); [apply Hok|done|].
    rewrite (take_S_r _ _ _ Hb), last_snoc. run_ok. rewrite length_app, Nat.add_sub.
    rewrite length_take_le by (apply lookup_lt_Some in Hb; lia).
    rewrite take_app_le, take_take, Nat.min_id by (rewrite length_take; apply lookup_lt_Some in Hb; lia).
    rewrite take_pack, Nat.add_1_r, (take_S_r _ _ _ Ha).
    rewrite pack_app by (rewrite length_take_le by (apply lookup_lt_Some in Ha; lia); apply Nat.even_even).
    by rewrite Hpad.
Qed.

Lemma skip_loop_run l1 l2 steps i j e1 e2 s1 s2 c :
  nibbles_ok l1 → nibbles_ok l2 → i <= e1 → j <= e2 → e1 <= lenN l1 → e2 <= lenN l2 →
  (N.to_nat (e1 - i) < steps)%nat →
  ∃ n, skip_loop (E := E) steps (mkNibbleIterator (path_of l1) i e1 s1)
         (mkNibbleIterator (path_of l2) j e2 s2) c
       = Ok (c + n, mkNibbleIterator (path_of l1) (i + n) e1 s1,
             mkNibbleIterator (path_of l2) (j + n) e2 s2) ∧
    i + n <= e1 ∧ j + n <= e2 ∧
    (∀ k, k < n → l1 !! N.to_nat (i + k) = l2 !! N.to_nat (j + k)) ∧
    (i + n = e1 ∨ j + n = e2 ∨ l1 !! N.to_nat (i + n) ≠ l2 !! N.to_nat (j + n)).
Proof.
  intros Hl1 Hl2. revert i j c. induction steps as [|steps IH]; intros i j c Hi Hj He1 He2 Hs; [lia|].
  cbn [skip_loop].
  destruct (decide (i = e1)) as [->|Hie].
  { rewrite ni_peek_end. run_ok. exists 0. rewrite !N.add_0_r.
    destruct (decide (j = e2)) as [->|].
    { rewrite ni_peek_end. run_ok. split_and!; [done..|intros; lia|by left]. }
    destruct (lookup_lt_is_Some_2 l2 (N.to_nat j)) as [b Hb]; [unfold lenN in He2; lia|].
    destruct (ni_next_run l2 j e2 s2 b) as [_ ->]; [done|lia|done|]. run_ok.
    split_and!; [done..|intros; lia|by left]. }
  destruct (lookup_lt_is_Some_2 l1 (N.to_nat i)) as [a Ha]; [unfold lenN in He1; lia|].
  destruct (ni_next_run l1 i e1 s1 a) as [Hn1 ->]; [done|lia|done|]. run_ok.
  destruct (decide (j = e2)) as [->|Hje].
  { rewrite ni_peek_end. run_ok.
    exists 0. rewrite !N.add_0_r. split_and!; [done..|intros; lia|by right; left]. }
  destruct (lookup_lt_is_Some_2 l2 (N.to_nat j)) as [b Hb]; [unfold lenN in He2; lia|].
  destruct (ni_next_run l2 j e2 s2 b) as [Hn2 ->]; [done|lia|done|]. run_ok.
  destruct (N.eqb_spec a b) as [->|Hab].
  - rewrite Hn1. run_ok. rewrite Hn2. run_ok.
    destruct (IH (i + 1) (j + 1) (c + 1)) as (n & -> & ? & ? & Heq & Hend); [lia..|].
    exists (n + 1). rewrite <- !N.add_assoc, (N.add_comm 1 n). split_and!; [done|lia|lia|..].
    + intros k Hk. destruct (decide (k = 0)) as [->|]; [by rewrite !N.add_0_r, Ha, Hb|].
      replace (i + k) with (i + 1 + (k - 1)) by lia. replace (j + k) with (j + 1 + (k - 1)) by lia.
      apply Heq. lia.
    + rewrite (N.add_comm n 1), !N.add_assoc. destruct Hend as [|[|]]; [left; lia|right; left; lia|by right; right].
  - exists 0. rewrite !N.add_0_r. split_and!; [done..|intros; lia|]. right; right. congruence.
Qed.
End refine.

(** ** The nibbles of a key *)

Definition key_nibbles (h : HashValue) : list N := hash_nibble h <$> seqN 0 64.

Lemma key_nibbles_ok h : nibbles_ok (key_nibbles h).
Proof.
  split; [|unfold key_nibbles; by rewrite length_fmap, length_seqN].
  apply Forall_fmap, Forall_true. intros i. apply hash_nibble_lt.
Qed.
Lemma lookup_key_nibbles h i : (i < 64)%nat → key_nibbles h !! i = Some (hash_nibble h (N.of_nat i)).
Proof. intros. unfold key_nibbles. by rewrite list_lookup_fmap, lookup_seqN by lia. Qed.

Lemma hash_byte_nibbles h i :
  i < 32 → hash_byte h i = 16 * hash_nibble h (2 * i) + hash_nibble h (2 * i + 1).
Proof.
  intros Hi. pose proof (hash_byte_lt h i). rewrite (byte_pair (hash_byte h i)). unfold hash_nibble.
  replace (2 * i / 2) with i by dlia. replace ((2 * i + 1) / 2) with i by dlia.
  replace (2 * i mod 2 =? 0) with true by (symmetry; apply N.eqb_eq; dlia).
  replace ((2 * i + 1) mod 2 =? 0) with false by (symmetry; apply N.eqb_neq; dlia).
  rewrite N.shiftr_0_r. do 2 f_equal. change 15 with (N.ones 4). rewrite N.land_ones, N.mod_small; [done|].
  rewrite N.shiftr_div_pow2. change (2 ^ 4) with 16. dlia.
Qed.
Lemma pack_seqN (f : N → N) (n : nat) :
  pack (f <$> seqN 0 (2 * N.of_nat n)) = (λ i, 16 * f (2 * i) + f (2 * i + 1)) <$> seqN 0 (N.of_nat n).
Proof.
  induction n as [|n IH]; [done|].
  replace (2 * N.of_nat (S n)) with (2 * N.of_nat n + 1 + 1) by lia.
  replace (N.of_nat (S n)) with (N.of_nat n + 1) by lia.
  rewrite !seqN_succ_r, <- app_assoc, !fmap_app, pack_app, IH; [done|].
  rewrite length_fmap, length_seqN. replace (N.to_nat (2 * N.of_nat n)) with (2 * n)%nat by lia.
  apply Nat.even_even.
Qed.
Lemma hash_to_vec_pack h : hash_to_vec h = pack (key_nibbles h).
Proof.
  unfold key_nibbles. change 64 with (2 * N.of_nat 32). rewrite pack_seqN.
  unfold hash_to_vec. apply list_fmap_ext. intros i x Hx.
  apply list_elem_of_lookup_2, elem_of_seqN in Hx. apply hash_byte_nibbles. lia.
Qed.
Lemma key_nibbles_path {E} h : np_new_even (E := E) (hash_to_vec h) = Ok (path_of (key_nibbles h)).
Proof.
  assert (lenN (hash_to_vec h) = 32) as Hl
    by (unfold hash_to_vec, lenN; by rewrite length_fmap, length_seqN).
  unfold np_new_even. rewrite Hl. run_ok. unfold path_of. rewrite hash_to_vec_pack. done.
Qed.
Lemma np_from_hash {E} h n :
  n <= 64 → np_new_from_byte_array (E := E) (hash_to_vec h) n = Ok (path_of (take (N.to_nat n) (key_nibbles h))).
Proof.
  intros Hn. rewrite hash_to_vec_pack. unfold np_new_from_byte_array.
  rewrite (proj2 (N.leb_le n ROOT_NIBBLE_HEIGHT)) by done. run_ok.
  pose proof (key_nibbles_ok h) as [Hf Hlen].
  assert (length (key_nibbles h) = 64)%nat as Hk by (unfold key_nibbles; by rewrite length_fmap, length_seqN).
  assert (lenN (pack (key_nibbles h)) = 32) as -> by (unfold lenN; by rewrite length_pack, Hk).
  unfold path_of, np_new_even, np_new_odd.
  destruct (N.eqb_spec (n mod 2) 1) as [Hm|Hm].
  - set (k := N.to_nat (n / 2)). assert (N.to_nat n = 2 * k + 1)%nat as -> by dlia.
    assert ((n + 1) / 2 = N.of_nat (S k)) as -> by dlia.
    rewrite (proj2 (N.leb_le _ 32)) by dlia. run_ok.
    replace (N.to_nat (N.of_nat (S k) - 1)) with k by lia. rewrite Nat2N.id.
    destruct (lookup_lt_is_Some_2 (key_nibbles h) (2 * k)) as [a Ha]; [dlia|].
    destruct (pad_pack (key_nibbles h) k a) as (b & Hb & Hpad); [done|done|].
    rewrite Hb. run_ok. rewrite (take_S_r _ _ _ Hb), Hpad.
    assert (length (take k (pack (key_nibbles h))) = k) as Hl
      by (apply length_take_le; apply lookup_lt_Some in Hb; lia).
    rewrite insert_app_r_alt by lia. rewrite Hl, Nat.sub_diag. cbn [insert list_insert].
    rewrite last_snoc. unfold lenN. rewrite length_app, Hl. cbn [length].
    rewrite (proj2 (N.leb_le _ _)) by (change (ROOT_NIBBLE_HEIGHT / 2) with 32; dlia). run_ok.
    rewrite land_15_mul. run_ok. cbn [N.eqb]. run_ok. rewrite length_take_le by (rewrite Hk; dlia).
    replace (2 * k + 1)%nat with (S (2 * k)) by lia. rewrite (take_S_r _ _ _ Ha), take_pack.
    rewrite pack_app by (rewrite length_take_le by (rewrite Hk; dlia); apply Nat.even_even).
    do 2 f_equal. lia.
  - rewrite (proj2 (N.leb_le (n / 2) 32)) by dlia. run_ok. rewrite take_pack.
    replace (2 * N.to_nat (n / 2))%nat with (N.to_nat n) by dlia.
    assert (lenN (pack (take (N.to_nat n) (key_nibbles h))) = n / 2) as ->.
    { unfold lenN. rewrite length_pack, length_take_le by (rewrite Hk; lia).
      rewrite Nat2N.inj_div, Nat2N.inj_add, N2Nat.id. change (N.of_nat 1) with 1. change (N.of_nat 2) with 2. dlia. }
    rewrite (proj2 (N.leb_le (n / 2) _)) by (change (ROOT_NIBBLE_HEIGHT / 2) with 32; dlia). run_ok.
    unfold lenN. rewrite length_take_le by (rewrite Hk; lia). do 2 f_equal. dlia.
Qed.

Lemma np_get_bit_run {E} l i a :
  nibbles_ok l → l !! N.to_nat (i / 4) = Some a →
  np_get_bit (E := E) (path_of l) i = Ok (N.testbit a (3 - i mod 4)).
Proof.
  intros [Hf _] Ha. destruct (lookup_pack l _ a Hf Ha) as (b & Hb & Hlt & Hab).
  apply lookup_lt_Some in Ha. unfold np_get_bit, path_of. cbn [np_num_nibbles np_bytes].
  rewrite (proj2 (N.ltb_lt _ _)) by (unfold lenN; dlia). run_ok.
  replace (N.to_nat (i / 8)) with (N.to_nat (i / 4) / 2)%nat
    by (change 2%nat with (N.to_nat 2); rewrite <- N2Nat.inj_div, N.Div0.div_div; done).
  rewrite Hb. run_ok. rewrite land_1_testbit, N.shiftr_spec, N.add_0_l by lia. rewrite Hab.
  destruct (Nat.even (N.to_nat (i / 4))) eqn:He.
  - apply Nat.even_spec in He as [k Hk]. rewrite N.shiftr_spec by lia. do 2 f_equal. dlia.
  - apply (f_equal negb) in He. rewrite Nat.negb_even in He. apply Nat.odd_spec in He as [k Hk].
    change 15 with (N.ones 4). rewrite N.land_spec, N.ones_spec_low, andb_true_r by dlia. do 2 f_equal. dlia.
Qed.

(** A well-formed [NibblePath] is the packed list of its nibbles and nothing else, so
    that equal lists are equal paths; [push], [pop], [last], [get_nibble], [truncate] and the
    nibble iterator do on that list what their names say, keep it well formed, and panic
    exactly when the path is full or the index out of range. *)
Theorem nibble_path_refines {E} (p : NibblePath) (Hp : np_wf p) :
  let l := np_list p in
  np_num_nibbles p = lenN l ∧ p = path_of l ∧
  (∀ l', nibbles_ok l' → np_wf (path_of l') ∧ np_list (path_of l') = l') ∧
  (∀ n, n < 16 → np_push (E := E) p n =
     if decide (length l < 64)%nat then Ok (path_of (l ++ [n])) else Panic) ∧
  np_pop (E := E) p = Ok (last l, path_of (take (length l - 1) l)) ∧
  np_last (E := E) p = Ok (last l) ∧
  (∀ i, np_get_nibble (E := E) p i = expect (l !! N.to_nat i)) ∧
  (∀ n, np_truncate (E := E) p n =
     if n <=? lenN l then Ok (path_of (take (N.to_nat n) l)) else Panic) ∧
  (np_nibbles (E := E) p ≫= ni_collect) = Ok l.
Proof.
  intros l. destruct (wf_path_of p Hp) as [Hpl Hok]. fold l in Hpl, Hok. rewrite Hpl.
  split_and!; [done|done| | | |by apply np_last_run| | |by apply np_nibbles_collect].
  - intros l' Hl'. split; [by apply path_of_wf|by apply np_list_path_of].
  - intros n Hn. case_decide; [by apply np_push_run|by apply np_push_full].
  - clear Hpl. destruct l as [|n l' _] using rev_ind; [done|].
    rewrite np_pop_run, last_snoc, length_app, Nat.add_sub, take_app_length by done. done.
  - intros i. destruct (l !! N.to_nat i) as [a|] eqn:Ha; [by apply np_get_nibble_run|].
    apply np_get_nibble_oob. apply lookup_ge_None in Ha. unfold lenN. lia.
  - intros n. case_N; [by apply np_truncate_run|]. unfold np_truncate, path_of. cbn.
    by rewrite (proj2 (N.leb_gt n (lenN l))).
Qed.
Lemma nibble_path_refines_witness :
  let p := mkNibblePath 3 [18; 160] in
  np_list p = [1; 2; 10] ∧ np_push (E := unit) p 5 = Ok (mkNibblePath 4 [18; 165]).
Proof.
  intros p. split; [done|].
  destruct (nibble_path_refines (E := unit) p) as (_ & _ & _ & Hpush & _).
  - split_and!; [done|done|repeat constructor|]. intros _ b [= <-]. done.
  - rewrite Hpush by done. done.
Defined.
