(* ===== verification/SparseMerkle.v ===== *)
(** * Sparse Merkle proofs (types/src/proof)

    The proofs a client checks against the root hash of the state: [SparseMerkleProof] for
    the presence or absence of one key, [SparseMerkleRangeProof] for a prefix of the keys.
    The reference is the sparse Merkle tree of a finite map, where a subtree with no key is
    a placeholder and one with a single key is that key's leaf. *)
From S2P Require Import Prelude Crypto Nibble.
Local Open Scope N_scope.

Definition SPARSE_MERKLE_PLACEHOLDER_HASH : HashValue :=
  default hash_zero (create_literal_hash "SPARSE_MERKLE_PLACEHOLDER_HASH").

(** SHA3 under the seeds of [SparseMerkleInternalHasher] and [SparseMerkleLeafNodeHasher],
    on the two 32-byte values fed to it. *)
Class SparseHashes := {
  smi_hash : HashValue → HashValue → HashValue;
  sml_hash : HashValue → HashValue → HashValue;
}.

Record SparseMerkleLeafNode := mkSparseMerkleLeafNode {
  sml_key : HashValue; sml_value_hash : HashValue }.
Inductive NodeInProof :=
| NipLeaf (leaf : SparseMerkleLeafNode)
| NipOther (hash : HashValue).
Record SparseMerkleProof := mkSparseMerkleProof {
  smp_leaf : option SparseMerkleLeafNode; smp_siblings : list HashValue }.
Record SparseMerkleProofExt := mkSparseMerkleProofExt {
  smpe_leaf : option SparseMerkleLeafNode; smpe_siblings : list NodeInProof }.
Record SparseMerkleRangeProof := mkSparseMerkleRangeProof { right_siblings : list HashValue }.

#[export] Instance SparseMerkleLeafNode_eq_dec : EqDecision SparseMerkleLeafNode.
Proof. solve_decision. Defined.
#[export] Instance NodeInProof_eq_dec : EqDecision NodeInProof.
Proof. solve_decision. Defined.
#[export] Instance SparseMerkleProof_eq_dec : EqDecision SparseMerkleProof.
Proof. solve_decision. Defined.

Section sparse_merkle.
Context `{!SparseHashes}.

Definition sml_node_hash (leaf : SparseMerkleLeafNode) : HashValue :=
  sml_hash (sml_key leaf) (sml_value_hash leaf).
Definition node_in_proof_hash (node : NodeInProof) : HashValue :=
  match node with NipLeaf leaf => sml_node_hash leaf | NipOther hash => hash end.
(** [From<SparseMerkleProofExt> for SparseMerkleProof] *)
Definition smp_from_ext (proof_ext : SparseMerkleProofExt) : SparseMerkleProof :=
  mkSparseMerkleProof (smpe_leaf proof_ext) (node_in_proof_hash <$> smpe_siblings proof_ext).

Definition smp_step (hash : HashValue) (sibling : HashValue * bool) : HashValue :=
  let '(sibling_hash, bit) := sibling in
  if bit : bool then smi_hash sibling_hash hash else smi_hash hash sibling_hash.

Definition verify_by_hash (proof : SparseMerkleProof) (expected_root_hash element_key : HashValue)
    (element_hash : option HashValue) : outcome anyhow unit :=
  _ ← ensure (lenN (smp_siblings proof) <=? LENGTH_IN_BITS)
        (fmt "Sparse Merkle Tree proof has more than {} ({}) siblings."
           [LENGTH_IN_BITS; lenN (smp_siblings proof)]);
  _ ← match element_hash, smp_leaf proof with
      | Some hash, Some leaf =>
          _ ← ensure (element_key =? sml_key leaf)
                (fmt "Keys do not match." [sml_key leaf; element_key; hash; sml_value_hash leaf]);
          ensure (hash =? sml_value_hash leaf)
            (fmt "Value hashes do not match for key." [element_key; sml_value_hash leaf; hash])
      | Some hash, None =>
          Err (fmt "Expected inclusion proof, value hash: {:x}. Found non-inclusion proof." [hash])
      | None, Some leaf =>
          _ ← ensure (negb (element_key =? sml_key leaf))
                (fmt "Expected non-inclusion proof, but key exists in proof." [element_key; sml_key leaf]);
          ensure (lenN (smp_siblings proof) <=? common_prefix_bits_len element_key (sml_key leaf))
            (fmt "Key would not have ended up in the subtree where the provided key in proof is the only existing key, if it existed."
               [element_key; sml_key leaf])
      | None, None => Ok tt
      end;
  let current_hash := match smp_leaf proof with
                      | Some leaf => sml_node_hash leaf
                      | None => SPARSE_MERKLE_PLACEHOLDER_HASH
                      end in
  let actual_root_hash :=
    foldl smp_step current_hash
      (zip (smp_siblings proof)
         (drop (N.to_nat (LENGTH_IN_BITS - lenN (smp_siblings proof))) (reverse (iter_bits element_key)))) in
  ensure (actual_root_hash =? expected_root_hash)
    (fmt "Root hashes do not match." [actual_root_hash; expected_root_hash]).

Definition smp_verify {V} `{!CryptoHash V} (proof : SparseMerkleProof)
    (expected_root_hash element_key : HashValue) (element_value : option V) : outcome anyhow unit :=
  verify_by_hash proof expected_root_hash element_key (crypto_hash <$> element_value).

(** The loop of [SparseMerkleRangeProof::verify] over the bits, bottom first. *)
Fixpoint range_verify_loop (bits : list bool) (lefts rights : list HashValue) (current_hash : HashValue)
  : outcome anyhow HashValue :=
  match bits with
  | [] => Ok current_hash
  | true :: bits =>
      match lefts with
      | l :: lefts => range_verify_loop bits lefts rights (smi_hash l current_hash)
      | [] => Err (fmt "Missing left sibling." [])
      end
  | false :: bits =>
      match rights with
      | r :: rights => range_verify_loop bits lefts rights (smi_hash current_hash r)
      | [] => Err (fmt "Missing right sibling." [])
      end
  end.
Definition range_proof_verify (proof : SparseMerkleRangeProof) (expected_root_hash : HashValue)
    (rightmost_known_leaf : SparseMerkleLeafNode) (left_siblings : list HashValue) : outcome anyhow unit :=
  let num_siblings := lenN left_siblings + lenN (right_siblings proof) in
  skip ← u64_sub LENGTH_IN_BITS num_siblings;
  current_hash ← range_verify_loop
    (drop (N.to_nat skip) (reverse (iter_bits (sml_key rightmost_known_leaf))))
    left_siblings (right_siblings proof) (sml_node_hash rightmost_known_leaf);
  ensure (current_hash =? expected_root_hash)
    (fmt "Root hashes do not match." [current_hash; expected_root_hash]).

(** ** The sparse Merkle tree of a map *)

(** The entries whose key has [b] as its [d]-th bit. *)
Definition half (b : bool) (d : N) (m : gmap HashValue HashValue) : gmap HashValue HashValue :=
  filter (λ kv, hash_bit kv.1 d = b) m.

(** The root of the subtree for the keys of [m], which differ in their last [n] bits only. *)
Fixpoint smt_hash (n : nat) (m : gmap HashValue HashValue) : HashValue :=
  match map_to_list m with
  | [] => SPARSE_MERKLE_PLACEHOLDER_HASH
  | [(k, v)] => sml_hash k v
  | _ =>
      match n with
      | O => SPARSE_MERKLE_PLACEHOLDER_HASH
      | S n => smi_hash (smt_hash n (half false (255 - N.of_nat n) m))
                 (smt_hash n (half true (255 - N.of_nat n) m))
      end
  end.
Definition smt_root (m : gmap HashValue HashValue) : HashValue := smt_hash 256 m.

(** What ends the path of a key: the siblings from the root down, and the leaf found. *)
Fixpoint smt_path (n : nat) (m : gmap HashValue HashValue) (key : HashValue)
  : list HashValue * option SparseMerkleLeafNode :=
  match map_to_list m with
  | [] => ([], None)
  | [(k, v)] => ([], Some (mkSparseMerkleLeafNode k v))
  | _ =>
      match n with
      | O => ([], None)
      | S n =>
          let d := 255 - N.of_nat n in
          let b := hash_bit key d in
          let '(siblings, leaf) := smt_path n (half b d m) key in
          (smt_hash n (half (negb b) d m) :: siblings, leaf)
      end
  end.
Definition smt_proof (m : gmap HashValue HashValue) (key : HashValue) : SparseMerkleProof :=
  let '(siblings, leaf) := smt_path 256 m key in mkSparseMerkleProof leaf (reverse siblings).

(** Different inputs with the same hash, or an input that hashes to the placeholder. *)
Definition SparseCollision : Prop :=
  (∃ a b c d, (a, b) ≠ (c, d) ∧ smi_hash a b = smi_hash c d) ∨
  (∃ a b c d, (a, b) ≠ (c, d) ∧ sml_hash a b = sml_hash c d) ∨
  (∃ a b c d, smi_hash a b = sml_hash c d) ∨
  (∃ a b, smi_hash a b = SPARSE_MERKLE_PLACEHOLDER_HASH) ∨
  (∃ a b, sml_hash a b = SPARSE_MERKLE_PLACEHOLDER_HASH).

(** ** Lemmas *)

Lemma map_cases {A} (m : gmap HashValue A) :
  (m = ∅ ∧ map_to_list m = []) ∨ (∃ k v, m = {[k := v]} ∧ map_to_list m = [(k, v)]) ∨
  ((2 <= size m)%nat ∧ ∃ p q l, map_to_list m = p :: q :: l).
Proof.
  pose proof (length_map_to_list m) as Hl.
  destruct (map_to_list m) as [|[k v] [|q l]] eqn:Hm.
  - left. split; [by apply map_to_list_empty_iff|done].
  - right; left. exists k, v. split; [|done]. apply map_to_list_inj. by rewrite map_to_list_singleton, Hm.
  - right; right. cbn in Hl. split; [lia|eauto].
Qed.

Lemma lookup_half b d m k v : half b d m !! k = Some v ↔ m !! k = Some v ∧ hash_bit k d = b.
Proof. unfold half. by rewrite map_lookup_filter_Some. Qed.
Lemma half_subseteq b d m : half b d m ⊆ m.
Proof. apply map_filter_subseteq. Qed.

Lemma smt_root_eq m : smt_root m = smt_hash 256 m.
Proof. reflexivity. Qed.
Lemma smt_hash_empty n : smt_hash n ∅ = SPARSE_MERKLE_PLACEHOLDER_HASH.
Proof. by destruct n. Qed.
Lemma smt_hash_singleton n k v : smt_hash n {[k := v]} = sml_hash k v.
Proof. destruct n; cbn [smt_hash]; by rewrite map_to_list_singleton. Qed.
Lemma smt_hash_branch n m :
  (2 <= size m)%nat →
  smt_hash (S n) m = smi_hash (smt_hash n (half false (255 - N.of_nat n) m))
                       (smt_hash n (half true (255 - N.of_nat n) m)).
Proof.
  intros Hs. cbn [smt_hash]. pose proof (length_map_to_list m) as Hl.
  destruct (map_to_list m) as [|[] [|??]]; cbn in Hl; [lia..|done].
Qed.
Lemma smt_path_branch n m key :
  (2 <= size m)%nat →
  let d := 255 - N.of_nat n in
  let b := hash_bit key d in
  smt_path (S n) m key = (smt_hash n (half (negb b) d m) :: (smt_path n (half b d m) key).1,
                          (smt_path n (half b d m) key).2).
Proof.
  intros Hs d b. cbn [smt_path]. pose proof (length_map_to_list m) as Hl.
  destruct (map_to_list m) as [|[] [|??]]; cbn in Hl; [lia..|].
  fold d b. by destruct (smt_path n (half b d m) key).
Qed.
Lemma smt_path_empty n key : smt_path n ∅ key = ([], None).
Proof. by destruct n. Qed.
Lemma smt_path_singleton n k v key :
  smt_path n {[k := v]} key = ([], Some (mkSparseMerkleLeafNode k v)).
Proof. destruct n; cbn [smt_path]; by rewrite map_to_list_singleton. Qed.

(** The keys are 32 bytes long and agree with [key] in all but the last [n] bits. *)
Definition agree {A} (n : nat) (key : HashValue) (m : gmap HashValue A) : Prop :=
  ∀ k v, m !! k = Some v → hash_wf k ∧ ∀ i, i + N.of_nat n < 256 → hash_bit k i = hash_bit key i.

Lemma agree_0 {A} key (m : gmap HashValue A) : agree 0 key m → (size m <= 1)%nat.
Proof.
  intros Ha. destruct (map_cases m) as [(-> & _)|[(k & v & -> & _)|(_ & [k v] & [k' v'] & l & Hm)]].
  - rewrite map_size_empty. lia.
  - by rewrite map_size_singleton.
  - pose proof (NoDup_fst_map_to_list m) as Hnd. rewrite Hm in Hnd. cbn in Hnd.
    apply NoDup_cons in Hnd as [Hnd _]. destruct Hnd. rewrite elem_of_cons. left.
    assert (m !! k = Some v) as Hk by (apply elem_of_map_to_list; rewrite Hm; left).
    assert (m !! k' = Some v') as Hk' by (apply elem_of_map_to_list; rewrite Hm; right; left).
    apply Ha in Hk as [? Hk], Hk' as [? Hk'].
    apply hash_bits_inj; [done..|]. intros i Hi. by rewrite Hk, Hk' by lia.
Qed.
Lemma agree_half n key m :
  (n < 256)%nat → agree (S n) key m → agree n key (half (hash_bit key (255 - N.of_nat n)) (255 - N.of_nat n) m).
Proof.
  intros Hn Ha k v [Hk Hb]%lookup_half. destruct (Ha k v Hk) as [Hwf Hi]. split; [done|].
  intros i Hin. destruct (decide (i = 255 - N.of_nat n)) as [->|]; [done|]. apply Hi. lia.
Qed.
Lemma agree_sub {A} n key (m m' : gmap HashValue A) : m' ⊆ m → agree n key m → agree n key m'.
Proof. intros Hsub Ha k v Hk. eapply Ha, lookup_weaken; eauto. Qed.
Lemma agree_size n key (m : gmap HashValue HashValue) :
  agree n key m → (2 <= size m)%nat → ∃ n', n = S n'.
Proof. destruct n; [|eauto]. intros ?%agree_0 ?. lia. Qed.

(** Collisions resolved, or exhibited. *)
Lemma smi_hash_inj a b c d : smi_hash a b = smi_hash c d → (a = c ∧ b = d) ∨ SparseCollision.
Proof.
  intros Heq. destruct (decide ((a, b) = (c, d))) as [|Hne]; [left; naive_solver|].
  right. left. eauto 6.
Qed.
Lemma sml_hash_inj a b c d : sml_hash a b = sml_hash c d → (a = c ∧ b = d) ∨ SparseCollision.
Proof.
  intros Heq. destruct (decide ((a, b) = (c, d))) as [|Hne]; [left; naive_solver|].
  right. right; left. eauto 6.
Qed.

(** ** The fold of [verify] read from the root down *)

Definition fold_down (bits : list bool) (siblings : list HashValue) (h : HashValue) : HashValue :=
  foldr (λ sb h, smp_step h sb) h (zip siblings bits).

Lemma zip_reverse {A B} (l1 : list A) (l2 : list B) :
  length l1 = length l2 → zip (reverse l1) (reverse l2) = reverse (zip l1 l2).
Proof.
  revert l2. induction l1 as [|x l1 IH]; intros [|y l2] Hl; [done..|]. cbn in Hl. cbn [zip_with].
  rewrite !reverse_cons, zip_with_app, IH by (rewrite ?length_reverse; lia). done.
Qed.
Lemma zip_take {A B} (l1 : list A) (l2 : list B) : zip l1 (take (length l1) l2) = zip l1 l2.
Proof. revert l2. induction l1 as [|x l1 IH]; intros [|y l2]; [done..|]. cbn. by rewrite IH. Qed.

Lemma foldl_reverse {A B} (f : A → B → A) a l : foldl f a (reverse l) = foldr (λ y x, f x y) a l.
Proof. induction l as [|x l IH]; [done|]. by rewrite reverse_cons, foldl_app, IH. Qed.

Lemma verify_fold siblings key h :
  (length siblings <= 256)%nat →
  foldl smp_step h (zip (reverse siblings)
    (drop (N.to_nat (LENGTH_IN_BITS - lenN (reverse siblings))) (reverse (iter_bits key))))
  = fold_down (iter_bits key) siblings h.
Proof.
  intros Hl. unfold lenN. rewrite length_reverse, drop_reverse, length_iter_bits.
  replace (256 - N.to_nat (LENGTH_IN_BITS - N.of_nat (length siblings)))%nat with (length siblings)
    by (unfold LENGTH_IN_BITS; lia).
  rewrite zip_reverse by (rewrite length_take_le; rewrite ?length_iter_bits; done).
  rewrite zip_take. apply foldl_reverse.
Qed.
Lemma fold_down_cons b bits s siblings h :
  fold_down (b :: bits) (s :: siblings) h = smp_step (fold_down bits siblings h) (s, b).
Proof. done. Qed.
Lemma drop_iter_bits key n :
  (n < 256)%nat →
  drop (255 - n) (iter_bits key) = hash_bit key (255 - N.of_nat n) :: drop (256 - n) (iter_bits key).
Proof.
  intros Hn. rewrite (drop_S _ (hash_bit key (255 - N.of_nat n))).
  - by replace (S (255 - n)) with (256 - n)%nat by lia.
  - rewrite lookup_iter_bits by lia. do 2 f_equal. lia.
Qed.

(** What a proof folds to determines the subtree at its end. *)
Lemma fold_down_sound siblings n key (m : gmap HashValue HashValue) leaf :
  (n <= 256)%nat → (length siblings <= n)%nat → agree n key m →
  fold_down (drop (256 - n) (iter_bits key)) siblings
    (match leaf with Some l => sml_node_hash l | None => SPARSE_MERKLE_PLACEHOLDER_HASH end)
  = smt_hash n m →
  (match leaf with
   | Some l => m !! sml_key l = Some (sml_value_hash l) ∧
       ∀ v, m !! key = Some v → key = sml_key l
   | None => m !! key = None
   end) ∨ SparseCollision.
Proof.
  revert n m. induction siblings as [|s siblings IH]; intros n m Hn Hlen Ha Heq.
  - unfold fold_down in Heq. cbn in Heq.
    destruct (map_cases m) as [[-> _]|[(k & v & -> & _)|[Hs _]]].
    + rewrite smt_hash_empty in Heq. destruct leaf as [l|]; [|left; apply lookup_empty].
      right. right; right; right; right. unfold sml_node_hash in Heq. eauto.
    + rewrite smt_hash_singleton in Heq. destruct leaf as [l|].
      * apply sml_hash_inj in Heq as [[<- <-]|]; [left|by right].
        split; [apply lookup_singleton_eq|]. by intros v' [<- _]%lookup_singleton_Some.
      * right. right; right; right; right. eauto.
    + destruct (agree_size n key m Ha Hs) as [n' ->]. rewrite smt_hash_branch in Heq by done. right.
      destruct leaf as [l|]; [right; right; left|right; right; right; left]; eauto 6.
  - destruct n as [|n]; [cbn in Hlen; lia|]. cbn in Hlen.
    replace (256 - S n)%nat with (255 - n)%nat in Heq by lia.
    rewrite drop_iter_bits, fold_down_cons in Heq by lia. unfold smp_step in Heq.
    set (b := hash_bit key (255 - N.of_nat n)) in *. set (d := 255 - N.of_nat n) in *.
    destruct (map_cases m) as [[-> _]|[(k & v & -> & _)|[Hs _]]].
    + rewrite smt_hash_empty in Heq. right. right; right; right; left. destruct b; eauto.
    + rewrite smt_hash_singleton in Heq. right. right; right; left. destruct b; eauto 6.
    + rewrite smt_hash_branch in Heq by done. fold d in Heq.
      assert (fold_down (drop (256 - n) (iter_bits key)) siblings
                (match leaf with Some l => sml_node_hash l | None => SPARSE_MERKLE_PLACEHOLDER_HASH end)
              = smt_hash n (half b d m) ∨ SparseCollision) as [Hsub|]; [|clear Heq|by right].
      { destruct b; apply smi_hash_inj in Heq as [[??]|]; auto. }
      apply IH in Hsub as [Hsub|]; [left|by right|lia|lia|by apply agree_half; [lia|]].
      destruct leaf as [l|].
      * destruct Hsub as [[Hl _]%lookup_half Hkey]. split; [done|]. intros v Hv.
        eapply Hkey, lookup_half. by split.
      * destruct (m !! key) as [v|] eqn:Hv; [|done].
        assert (half b d m !! key = Some v) by by apply lookup_half. congruence.
Qed.

Lemma fold_down_path n key (m : gmap HashValue HashValue) :
  (n <= 256)%nat → agree n key m →
  let '(siblings, leaf) := smt_path n m key in
  fold_down (drop (256 - n) (iter_bits key)) siblings
    (match leaf with Some l => sml_node_hash l | None => SPARSE_MERKLE_PLACEHOLDER_HASH end)
  = smt_hash n m ∧ (length siblings <= n)%nat ∧
  match leaf with
  | Some l => m !! sml_key l = Some (sml_value_hash l) ∧ (m !! key = None ∨ key = sml_key l) ∧
      ∀ i, i < 256 - N.of_nat n + lenN siblings → hash_bit (sml_key l) i = hash_bit key i
  | None => m !! key = None
  end.
Proof.
  revert m. induction n as [|n IH]; intros m Hn Ha;
    (destruct (map_cases m) as [[-> _]|[(k & v & -> & _)|[Hs _]]];
     [rewrite smt_path_empty, smt_hash_empty; split_and!; [done|cbn; lia|apply lookup_empty]
     |rewrite smt_path_singleton, smt_hash_singleton; split_and!; [done|cbn; lia|..]; cbn [sml_key sml_value_hash]|]).
  all: try apply lookup_singleton_eq.
  all: try (destruct (decide (key = k)) as [->|]; [by right|left; by apply lookup_singleton_ne]).
  all: try (intros i Hi; apply (Ha k v); [apply lookup_singleton_eq|unfold lenN in Hi; cbn in Hi; lia]).
  - apply agree_0 in Ha. lia.
  - rewrite smt_path_branch, smt_hash_branch by done.
    set (d := 255 - N.of_nat n) in *. set (b := hash_bit key d) in *.
    specialize (IH (half b d m) ltac:(lia) ltac:(by apply agree_half; [lia|])).
    destruct (smt_path n (half b d m) key) as [siblings leaf]. destruct IH as (Hfold & Hlen & Hleaf).
    cbn [fst snd]. split_and!; [|cbn; lia|].
    + replace (256 - S n)%nat with (255 - n)%nat by lia. rewrite drop_iter_bits by lia.
      rewrite fold_down_cons, Hfold. unfold smp_step. fold d b. by destruct b.
    + destruct leaf as [l|].
      * destruct Hleaf as ([Hl Hbit]%lookup_half & Hkey & Hpre). split_and!; [done|..].
        -- destruct Hkey as [Hkey|]; [left|by right]. destruct (m !! key) as [v|] eqn:Hv; [|done].
           assert (half b d m !! key = Some v) by by apply lookup_half. congruence.
        -- intros i Hi. unfold lenN in *. cbn [length] in Hi. apply Hpre. lia.
      * destruct (m !! key) as [v|] eqn:Hv; [|done].
        assert (half b d m !! key = Some v) by by apply lookup_half. congruence.
Qed.

(** ** Properties *)

Definition keys_wf {A} (m : gmap HashValue A) : Prop := ∀ k v, m !! k = Some v → hash_wf k.
Lemma agree_root {A} key (m : gmap HashValue A) : keys_wf m → agree 256 key m.
Proof. intros Hm k v Hk. split; [by eapply Hm|]. intros i Hi. lia. Qed.

Lemma smt_proof_verifies (m : gmap HashValue HashValue) key :
  keys_wf m → verify_by_hash (smt_proof m key) (smt_root m) key (m !! key) = Ok tt.
Proof.
  intros Hm. unfold smt_proof. rewrite smt_root_eq. pose proof (fold_down_path 256 key m ltac:(lia) (agree_root key m Hm)) as Hp.
  destruct (smt_path 256 m key) as [siblings leaf]. destruct Hp as (Hfold & Hlen & Hleaf).
  rewrite Nat.sub_diag, drop_0 in Hfold.
  unfold verify_by_hash. cbn [smp_siblings smp_leaf].
  rewrite verify_fold, Hfold, N.eqb_refl by done.
  rewrite (proj2 (N.leb_le (lenN (reverse siblings)) LENGTH_IN_BITS))
    by (unfold lenN, LENGTH_IN_BITS; rewrite length_reverse; lia). run_ok.
  destruct leaf as [l|]; [|by rewrite Hleaf].
  destruct Hleaf as (Hl & Hkey & Hpre). destruct (m !! key) as [v|] eqn:Hv.
  - destruct Hkey as [?|Hkey]; [done|]. subst key. rewrite Hl in Hv. simplify_eq. by rewrite !N.eqb_refl.
  - destruct (N.eqb_spec key (sml_key l)) as [->|]; [congruence|]. run_ok. cbn [negb]. run_ok.
    rewrite (proj2 (N.leb_le _ _)); [done|]. apply common_prefix_bits_len_spec.
    unfold lenN in *. rewrite length_reverse. split; [lia|]. intros i Hi. symmetry. apply Hpre. lia.
Qed.

(** C29: A sparse Merkle proof that verifies against the root hash of a state says of the key
    what the state says of it, whether that is a value or its absence, or else a collision of
    the hash functions is at hand; and for every key there is a proof that verifies. *)
Theorem sparse_merkle_proof_correct (m : gmap HashValue HashValue) key (Hm : keys_wf m) :
  (∃ proof, verify_by_hash proof (smt_root m) key (m !! key) = Ok tt) ∧
  ∀ proof element_hash, verify_by_hash proof (smt_root m) key element_hash = Ok tt →
    m !! key = element_hash ∨ SparseCollision.
Proof.
  split; [eexists; by apply smt_proof_verifies|].
  intros [leaf siblings] eh Hv. unfold verify_by_hash in Hv. cbn [smp_leaf smp_siblings] in Hv.
  apply ensure_bind in Hv as [Hlen Hv]. apply N.leb_le in Hlen. unfold lenN, LENGTH_IN_BITS in Hlen.
  apply unit_bind in Hv as [Hcase Hv]. apply ensure_Ok, N.eqb_eq in Hv. rewrite smt_root_eq in Hv.
  rewrite <- (reverse_involutive siblings), verify_fold in Hv by (rewrite length_reverse; lia).
  destruct (fold_down_sound (reverse siblings) 256 key m leaf) as [Hleaf|]; [lia|..|by right].
  { rewrite length_reverse. lia. }
  { by apply agree_root. }
  { rewrite Nat.sub_diag, drop_0. exact Hv. }
  left. destruct eh as [h|], leaf as [l|]; inv_ok; [..|done].
  - apply N.eqb_eq in Hok as ->, Hcase as ->. apply Hleaf.
  - apply negb_true_iff, N.eqb_neq in Hok. destruct (m !! key) as [v|] eqn:Hk; [|done].
    destruct Hok. by eapply Hleaf.
Qed.
End sparse_merkle.

(** ** An example: injective on small numbers, never the placeholder *)
Definition sample_sparse_hashes : SparseHashes := {|
  smi_hash := λ a b, (a * 1000003 + b * 7 + 2) mod 2 ^ 256;
  sml_hash := λ a b, (a * 10007 + b * 5 + 1) mod 2 ^ 256;
|}.
#[local] Existing Instance sample_sparse_hashes.
Definition sample_state : gmap HashValue HashValue := {[ 1 := 10; 2 ^ 255 := 20 ]}.

Lemma sample_state_wf : keys_wf sample_state.
Proof.
  intros k v. unfold sample_state. rewrite lookup_insert_Some, lookup_singleton_Some.
  intros [[<- _]|[_ [<- _]]]; vm_compute; done.
Qed.
Lemma sparse_merkle_proof_correct_witness :
  ∃ proof, verify_by_hash proof
    (smt_root sample_state) 1 (Some 10) = Ok tt.
Proof.
  destruct (sparse_merkle_proof_correct sample_state 1 sample_state_wf)
    as [[proof Hp] _].
  exists proof. exact Hp.
Defined.
