(* ===== verification/JmtNode.v ===== *)
(** * Nodes of the Jellyfish Merkle tree (storage/jellyfish-merkle/src/node_type)

    An internal node stands for four levels of a binary tree and has up to sixteen children,
    a leaf holds a key; both are stored under their version and nibble path. The file has their hashes,
    the siblings a proof takes from an internal node, and their encodings. *)
From S2P Require Import Prelude Crypto Nibble SparseMerkle.
Local Open Scope N_scope.

(** ** Data *)

Record NodeKey := mkNodeKey { nk_version : Version; nk_nibble_path : NibblePath }.
Inductive NodeType := NtLeaf | NtNull | NtInternal (leaf_count : N).
Record Child := mkChild { ch_hash : HashValue; ch_version : Version; ch_node_type : NodeType }.
Abbreviation Children := (gmap N Child) (only parsing).
Record InternalNode := mkInternalNode { in_children : Children; in_leaf_count : N }.
Record LeafNode (K : Type) := mkLeafNode {
  ln_account_key : HashValue; ln_value_hash : HashValue; ln_value_index : K * Version }.
Arguments mkLeafNode {K}.
Arguments ln_account_key {K}.
Arguments ln_value_hash {K}.
Arguments ln_value_index {K}.
Inductive Node (K : Type) :=
| NodeInternal (n : InternalNode)
| NodeLeaf (n : LeafNode K)
| NodeNull.
Arguments NodeInternal {K}.
Arguments NodeLeaf {K}.
Arguments NodeNull {K}.

#[export] Instance NodeKey_eq_dec : EqDecision NodeKey.
Proof. solve_decision. Defined.
#[export] Instance NodeKey_countable : Countable NodeKey.
Proof.
  by apply (inj_countable' (λ k, (nk_version k, nk_nibble_path k)) (λ '(v, p), mkNodeKey v p)); intros [].
Defined.
#[export] Instance NodeType_eq_dec : EqDecision NodeType.
Proof. solve_decision. Defined.
#[export] Instance Child_eq_dec : EqDecision Child.
Proof. solve_decision. Defined.
#[export] Instance InternalNode_eq_dec : EqDecision InternalNode.
Proof. solve_decision. Defined.
#[export] Instance LeafNode_eq_dec {K} `{!EqDecision K} : EqDecision (LeafNode K).
Proof. solve_decision. Defined.
#[export] Instance Node_eq_dec {K} `{!EqDecision K} : EqDecision (Node K).
Proof. solve_decision. Defined.

(** ** Keys *)

Definition new_empty_path (version : Version) : NodeKey := mkNodeKey version (mkNibblePath 0 []).
Definition gen_child_node_key {E} (key : NodeKey) (version : Version) (n : N) : outcome E NodeKey :=
  p ← np_push (nk_nibble_path key) n; Ok (mkNodeKey version p).
Definition gen_parent_node_key {E} (key : NodeKey) : outcome E NodeKey :=
  '(popped, p) ← np_pop (nk_nibble_path key);
  _ ← rassert (bool_decide (is_Some popped));
  Ok (mkNodeKey (nk_version key) p).

(** [byteorder]'s reads, on the bytes still to be read *)
Definition unexpected_eof : anyhow := fmt "failed to fill whole buffer" [].
Definition read_u8 (val : list N) : outcome anyhow (N * list N) :=
  match val with b :: val => Ok (b, val) | [] => Err unexpected_eof end.
Definition write_be (n : nat) (x : N) : list N :=
  (λ i, N.land (N.shiftr x (8 * (N.of_nat n - 1 - i))) 255) <$> seqN 0 (N.of_nat n).
Definition read_u64_be (val : list N) : outcome anyhow (N * list N) :=
  if decide (length val < 8)%nat then Err unexpected_eof
  else Ok (be_number (take 8 val), drop 8 val).
Definition write_u16_le (x : N) : list N := [N.land x 255; N.shiftr x 8].
Definition read_u16_le (val : list N) : outcome anyhow (N * list N) :=
  match val with a :: b :: val => Ok (a + 256 * b, val) | _ => Err unexpected_eof end.

Definition node_key_encode (key : NodeKey) : list N :=
  write_be 8 (nk_version key) ++ [np_num_nibbles (nk_nibble_path key) mod 256]
    ++ np_bytes (nk_nibble_path key).
Definition node_key_decode (val : list N) : outcome anyhow NodeKey :=
  '(version, val) ← read_u64_be val;
  '(num_nibbles, nibble_bytes) ← read_u8 val;
  _ ← ensure (num_nibbles <=? ROOT_NIBBLE_HEIGHT) (fmt "Invalid number of nibbles: {}" [num_nibbles]);
  _ ← ensure ((num_nibbles + 1) / 2 =? lenN nibble_bytes)
        (fmt "encoded num_nibbles {} mismatches nibble path bytes {:?}" (num_nibbles :: nibble_bytes));
  nibble_path ←
    (if num_nibbles mod 2 =? 0 then np_new_even nibble_bytes
     else last_byte ← expect (last nibble_bytes);
          let padding := N.land last_byte 15 in
          _ ← ensure (padding =? 0) (fmt "Padding nibble expected to be 0, got: {}" [padding]);
          np_new_odd nibble_bytes);
  Ok (mkNodeKey version nibble_path).

(** ** Variable-length integers: seven bits a byte, the ninth byte raw *)
Fixpoint serialize_u64_varint_loop {E} (n : nat) (num : N) : outcome E (list N) :=
  match n with
  | O => _ ← rassert (negb (num =? 0)); _ ← rassert (num <=? 255); Ok [N.land num 255]
  | S n =>
      let low_bits := N.land (N.land num 255) 127 in
      let num := N.shiftr num 7 in
      let more := if num =? 0 then 0 else 128 in
      if more =? 0 then Ok [N.lor low_bits more]
      else rest ← serialize_u64_varint_loop n num; Ok (N.lor low_bits more :: rest)
  end.
Definition serialize_u64_varint {E} (num : N) : outcome E (list N) := serialize_u64_varint_loop 8 num.
Fixpoint deserialize_u64_varint_loop (n : nat) (i num : N) (val : list N) : outcome anyhow (N * list N) :=
  '(byte, val) ← read_u8 val;
  match n with
  | O => Ok (N.lor num (u64_shl byte 56), val)
  | S n =>
      let num := N.lor num (u64_shl (N.land byte 127) (i * 7)) in
      if N.land byte 128 =? 0 then Ok (num, val) else deserialize_u64_varint_loop n (i + 1) num val
  end.
Definition deserialize_u64_varint (val : list N) : outcome anyhow (N * list N) :=
  deserialize_u64_varint_loop 8 0 0 val.

(** ** Children and internal nodes *)

Definition child_is_leaf (c : Child) : bool :=
  match ch_node_type c with NtLeaf => true | _ => false end.
Definition child_leaf_count {E} (c : Child) : outcome E N :=
  match ch_node_type c with
  | NtLeaf => Ok 1
  | NtInternal leaf_count => Ok leaf_count
  | NtNull => Panic
  end.
(** [Iterator::sum], which overflows with a panic *)
Fixpoint sum_leaf_counts {E} (l : list Child) : outcome E N :=
  match l with
  | [] => Ok 0
  | c :: l => n ← child_leaf_count c; rest ← sum_leaf_counts l; u64_add n rest
  end.
Definition internal_node_new_impl (children : Children) : outcome anyhow InternalNode :=
  _ ← ensure (negb (bool_decide (children = ∅))) (fmt "Children must not be empty" []);
  _ ← match map_to_list children with
      | [(_, c)] => ensure (negb (child_is_leaf c))
                      (fmt "If there's only one child, it must not be a leaf." [])
      | _ => Ok tt
      end;
  leaf_count ← sum_leaf_counts ((map_to_list children).*2);
  Ok (mkInternalNode children leaf_count).
Definition internal_node_new {E} (children : Children) : outcome E InternalNode :=
  match internal_node_new_impl children with Ok n => Ok n | _ => Panic end.

Definition internal_node_type (n : InternalNode) : NodeType := NtInternal (in_leaf_count n).
Definition internal_child (n : InternalNode) (nibble : N) : option Child := in_children n !! nibble.

Definition set_bits (f : Child → bool) (l : list (N * Child)) : N :=
  foldr (λ ic bitmap, if f ic.2 then N.lor bitmap (N.shiftl 1 ic.1) else bitmap) 0 l.
Definition generate_bitmaps {E} (n : InternalNode) : outcome E (N * N) :=
  let existence_bitmap := set_bits (λ _, true) (map_to_list (in_children n)) in
  let leaf_bitmap := set_bits child_is_leaf (map_to_list (in_children n)) in
  _ ← rassert (N.lor existence_bitmap leaf_bitmap =? existence_bitmap);
  Ok (existence_bitmap, leaf_bitmap).
Definition range_bitmaps {E} (start width : N) (bitmaps : N * N) : outcome E (N * N) :=
  _ ← rassert ((start <? 16) && (count_ones width =? 1) && (start mod width =? 0));
  _ ← rassert ((width <=? 16) && (start + width <=? 16));
  let mask := N.land (N.shiftl (N.shiftl 1 width - 1) start) 65535 in
  Ok (N.land bitmaps.1 mask, N.land bitmaps.2 mask).

Section internal.
Context `{!SparseHashes} {E : Type}.

(** The recursion halves [width], from 16 at most: five calls deep. *)
Fixpoint merkle_hash_loop (fuel : nat) (n : InternalNode) (start width : N) (bitmaps : N * N)
  : outcome E HashValue :=
  match fuel with
  | O => Panic
  | S fuel =>
      '(range_existence_bitmap, range_leaf_bitmap) ← range_bitmaps start width bitmaps;
      if range_existence_bitmap =? 0 then Ok SPARSE_MERKLE_PLACEHOLDER_HASH
      else if (width =? 1) || ((count_ones range_existence_bitmap =? 1) && negb (range_leaf_bitmap =? 0))
      then
        only_child_index ← nibble_from (trailing_zeros 16 range_existence_bitmap);
        child ← expect (internal_child n only_child_index);
        Ok (ch_hash child)
      else
        left_child ← merkle_hash_loop fuel n start (width / 2) (range_existence_bitmap, range_leaf_bitmap);
        right_child ← merkle_hash_loop fuel n (start + width / 2) (width / 2)
                        (range_existence_bitmap, range_leaf_bitmap);
        Ok (smi_hash left_child right_child)
  end.
Definition merkle_hash (n : InternalNode) (start width : N) (bitmaps : N * N) : outcome E HashValue :=
  merkle_hash_loop 5 n start width bitmaps.
Definition internal_hash (n : InternalNode) : outcome E HashValue :=
  bitmaps ← generate_bitmaps n; merkle_hash n 0 16 bitmaps.

Definition get_child_and_sibling_half_start (n height : N) : N * N :=
  let child_half_start := N.land (N.shiftl 255 height mod 256) n in
  (child_half_start, N.lxor child_half_start (N.shiftl 1 height)).
End internal.

Section node.
Context {K : Type}.

Definition leaf_to_sparse (n : LeafNode K) : SparseMerkleLeafNode :=
  mkSparseMerkleLeafNode (ln_account_key n) (ln_value_hash n).
Definition node_is_leaf (n : Node K) : bool := match n with NodeLeaf _ => true | _ => false end.
Definition node_type (n : Node K) : NodeType :=
  match n with
  | NodeLeaf _ => NtLeaf
  | NodeInternal n => internal_node_type n
  | NodeNull => NtNull
  end.
Definition node_leaf_count (n : Node K) : N :=
  match n with NodeLeaf _ => 1 | NodeInternal n => in_leaf_count n | NodeNull => 0 end.

Section hash.
Context `{!SparseHashes}.

Definition leaf_hash (n : LeafNode K) : HashValue := sml_node_hash (leaf_to_sparse n).
Definition node_hash {E} (n : Node K) : outcome E HashValue :=
  match n with
  | NodeInternal n => internal_hash n
  | NodeLeaf n => Ok (leaf_hash n)
  | NodeNull => Ok SPARSE_MERKLE_PLACEHOLDER_HASH
  end.

(** ** Reading: the [TreeReader] trait *)

Context (get_node_option : NodeKey → outcome anyhow (option (Node K))).

Definition get_node (key : NodeKey) : outcome anyhow (Node K) :=
  o ← get_node_option key; ok_or o (fmt "Missing node at {:?}." [nk_version key]).

Definition gen_node_in_proof (n : InternalNode) (start width : N) (bitmaps : N * N) (node_key : NodeKey)
  : outcome anyhow NodeInProof :=
  '(range_existence_bitmap, range_leaf_bitmap) ← range_bitmaps start width bitmaps;
  if range_existence_bitmap =? 0 then Ok (NipOther SPARSE_MERKLE_PLACEHOLDER_HASH)
  else if (width =? 1) || ((count_ones range_existence_bitmap =? 1) && negb (range_leaf_bitmap =? 0))
  then
    only_child_index ← nibble_from (trailing_zeros 16 range_existence_bitmap);
    only_child ← expect (internal_child n only_child_index);
    if child_is_leaf only_child then
      only_child_node_key ← gen_child_node_key node_key (ch_version only_child) only_child_index;
      node ← get_node only_child_node_key;
      match node with
      | NodeLeaf leaf_node => Ok (NipLeaf (leaf_to_sparse leaf_node))
      | _ => Panic
      end
    else Ok (NipOther (ch_hash only_child))
  else
    left_child ← merkle_hash n start (width / 2) (range_existence_bitmap, range_leaf_bitmap);
    right_child ← merkle_hash n (start + width / 2) (width / 2) (range_existence_bitmap, range_leaf_bitmap);
    Ok (NipOther (smi_hash left_child right_child)).

(** The loop over the heights 3 to 0; [reader] says whether the siblings that are leaves are
    read from the tree or given by their hash. *)
Fixpoint child_with_siblings_loop (heights : list N) (n : InternalNode) (node_key : NodeKey) (nibble : N)
    (reader : bool) (bitmaps : N * N) (siblings : list NodeInProof)
  : outcome anyhow (option NodeKey * list NodeInProof) :=
  match heights with
  | [] => Panic
  | h :: heights =>
      let width := N.shiftl 1 h in
      let '(child_half_start, sibling_half_start) := get_child_and_sibling_half_start nibble h in
      sibling ← (if reader then gen_node_in_proof n sibling_half_start width bitmaps node_key
                 else h ← merkle_hash n sibling_half_start width bitmaps; Ok (NipOther h));
      let siblings := siblings ++ [sibling] in
      '(range_existence_bitmap, range_leaf_bitmap) ← range_bitmaps child_half_start width bitmaps;
      if range_existence_bitmap =? 0 then Ok (None, siblings)
      else if (width =? 1) || ((count_ones range_existence_bitmap =? 1) && negb (range_leaf_bitmap =? 0))
      then
        only_child_index ← nibble_from (trailing_zeros 16 range_existence_bitmap);
        only_child ← expect (internal_child n only_child_index);
        child_key ← gen_child_node_key node_key (ch_version only_child) only_child_index;
        Ok (Some child_key, siblings)
      else child_with_siblings_loop heights n node_key nibble reader bitmaps siblings
  end.
Definition get_child_with_siblings (n : InternalNode) (node_key : NodeKey) (nibble : N) (reader : bool)
  : outcome anyhow (option NodeKey * list NodeInProof) :=
  bitmaps ← generate_bitmaps n;
  child_with_siblings_loop [3; 2; 1; 0] n node_key nibble reader bitmaps [].
End hash.
End node.

(** ** Bitmaps *)

(** [b] has the bits of the children that satisfy [f]. *)
Definition bitmap_of (f : Child → bool) (m : Children) (b : N) : Prop :=
  ∀ j, N.testbit b j = true ↔ ∃ c, m !! j = Some c ∧ f c = true.

Lemma set_bits_spec f l j : N.testbit (set_bits f l) j = true ↔ ∃ c, (j, c) ∈ l ∧ f c = true.
Proof.
  induction l as [|[i c] l IH]; cbn [set_bits foldr fst snd].
  - rewrite N.bits_0. split; [done|]. by intros (c & Hc%elem_of_nil & _).
  - fold (set_bits f l). setoid_rewrite elem_of_cons. destruct (f c) eqn:Hf.
    + rewrite N.lor_spec, orb_true_iff, IH, N.shiftl_1_l, N.pow2_bits_eqb, N.eqb_eq. split.
      * intros [(c' & Hc' & ?)|<-]; eauto.
      * intros (c' & [[= -> ->]|Hc'] & ?); eauto.
    + rewrite IH. split; [naive_solver|]. intros (c' & [[= -> ->]|Hc'] & ?); [congruence|eauto].
Qed.
Lemma generate_bitmaps_run {E} (n : InternalNode) :
  ∃ eb lb, generate_bitmaps (E := E) n = Ok (eb, lb) ∧
    bitmap_of (λ _, true) (in_children n) eb ∧ bitmap_of child_is_leaf (in_children n) lb.
Proof.
  set (eb := set_bits (λ _, true) (map_to_list (in_children n))).
  set (lb := set_bits child_is_leaf (map_to_list (in_children n))).
  assert (bitmap_of (λ _, true) (in_children n) eb) as He.
  { intros j. unfold eb. rewrite set_bits_spec. by setoid_rewrite elem_of_map_to_list. }
  assert (bitmap_of child_is_leaf (in_children n) lb) as Hl.
  { intros j. unfold lb. rewrite set_bits_spec. by setoid_rewrite elem_of_map_to_list. }
  exists eb, lb. split; [|done]. unfold generate_bitmaps. fold eb lb.
  assert (N.lor eb lb = eb) as ->; [|by rewrite N.eqb_refl].
  apply N.bits_inj. intros j. rewrite N.lor_spec. apply eq_true_iff_eq. rewrite orb_true_iff.
  split; [|by left]. intros [|(c & Hc & _)%Hl]; [done|]. apply He. eauto.
Qed.

(** The children with index [start .. start + width]. *)
Definition child_range (start width : N) (m : Children) : Children :=
  filter (λ ic, start <= ic.1 ∧ ic.1 < start + width) m.
Lemma lookup_child_range start width m i c :
  child_range start width m !! i = Some c ↔ m !! i = Some c ∧ start <= i < start + width.
Proof. unfold child_range. by rewrite map_lookup_filter_Some. Qed.

(** The subtrees an internal node is cut into: [2 ^ h] children from a multiple of it on. *)
Definition aligned (start h : N) : Prop := h <= 4 ∧ start mod 2 ^ h = 0 ∧ start + 2 ^ h <= 16.

Lemma pow2_cases h : h <= 4 → h = 0 ∨ h = 1 ∨ h = 2 ∨ h = 3 ∨ h = 4.
Proof. lia. Qed.
Lemma mask_testbit start width j :
  start + width <= 16 →
  N.testbit (N.land (N.shiftl (N.shiftl 1 width - 1) start) 65535) j
  = bool_decide (start <= j ∧ j < start + width).
Proof.
  intros Hw. rewrite N.shiftl_1_l, N.sub_1_r, <- N.ones_equiv, N.land_spec.
  change 65535 with (N.ones 16). case_bool_decide as Hj.
  - rewrite N.shiftl_spec_high', !N.ones_spec_low by lia. done.
  - destruct (decide (j < start)).
    + by rewrite N.shiftl_spec_low by done.
    + rewrite N.shiftl_spec_high', N.ones_spec_high by lia. done.
Qed.
Lemma range_bitmaps_run {E} start h f g m eb lb :
  aligned start h → bitmap_of f m eb → bitmap_of g m lb →
  ∃ eb' lb', range_bitmaps (E := E) start (2 ^ h) (eb, lb) = Ok (eb', lb') ∧
    bitmap_of f (child_range start (2 ^ h) m) eb' ∧ bitmap_of g (child_range start (2 ^ h) m) lb'.
Proof.
  intros (Hh & Hmod & Hend) He Hl. unfold range_bitmaps.
  assert (count_ones (2 ^ h) = 1 ∧ 0 < 2 ^ h ∧ 2 ^ h <= 16) as (-> & Hpos & ->%N.leb_le)
    by (destruct (pow2_cases h Hh) as [->|[->|[->|[->| ->]]]]; done).
  rewrite Hmod, (proj2 (N.ltb_lt start 16)), (proj2 (N.leb_le (start + 2 ^ h) 16)) by lia. run_ok.
  cbn [fst snd andb N.eqb]. do 2 eexists. split; [done|].
  split; intros j; rewrite N.land_spec, andb_true_iff, mask_testbit, bool_decide_eq_true by done;
    [rewrite (He j)|rewrite (Hl j)]; setoid_rewrite lookup_child_range; naive_solver.
Qed.

Lemma count_ones_pow2 i : count_ones (2 ^ i) = 1.
Proof.
  induction i as [|i IH] using N.peano_ind; [done|]. by rewrite N.pow_succ_r', count_ones_double.
Qed.
Lemma count_ones_0 n : count_ones n = 0 → n = 0.
Proof.
  destruct n as [|p]; [done|]. cbn. assert (0 < pos_count_ones p); [|lia].
  induction p; cbn; lia.
Qed.
Lemma count_ones_1 n : count_ones n = 1 → ∃ i, n = 2 ^ i.
Proof.
  induction n as [|n IH|n IH] using N.binary_ind; rewrite ?N.double_spec, ?N.succ_double_spec.
  - done.
  - rewrite count_ones_double. intros [i ->]%IH. exists (N.succ i). by rewrite N.pow_succ_r'.
  - rewrite count_ones_succ_double. intros Hn. assert (n = 0) as -> by (apply count_ones_0; lia).
    exists 0. done.
Qed.
Lemma trailing_zeros_pow2 w i : trailing_zeros w (2 ^ i) = i.
Proof.
  destruct (trailing_zeros_spec w (2 ^ i)) as [Hbit _]; [apply N.pow_nonzero; done|].
  rewrite N.pow2_bits_eqb in Hbit. by apply N.eqb_eq in Hbit.
Qed.

(** What the tests on a bitmap say of the children. *)
Lemma bitmap_zero m b : bitmap_of (λ _, true) m b → (b =? 0) = true ↔ m = ∅.
Proof.
  intros Hb. rewrite N.eqb_eq. split.
  - intros ->. apply map_empty. intros i. destruct (m !! i) as [c|] eqn:Hi; [|done].
    assert (N.testbit 0 i = true) by (apply Hb; eauto). by rewrite N.bits_0 in *.
  - intros ->. apply N.bits_inj. intros j. rewrite N.bits_0. apply not_true_iff_false.
    intros (c & Hc & _)%Hb. by rewrite lookup_empty in Hc.
Qed.
Lemma bitmap_single i c : bitmap_of (λ _, true) {[i := c]} (2 ^ i).
Proof.
  intros j. rewrite N.pow2_bits_eqb, N.eqb_eq. setoid_rewrite lookup_singleton_Some. naive_solver.
Qed.
Lemma bitmap_unique f m b b' : bitmap_of f m b → bitmap_of f m b' → b = b'.
Proof. intros H1 H2. apply N.bits_inj. intros j. apply eq_true_iff_eq. by rewrite (H1 j), (H2 j). Qed.
Lemma bitmap_one m b :
  bitmap_of (λ _, true) m b → count_ones b = 1 → ∃ i c, m = {[i := c]} ∧ trailing_zeros 16 b = i.
Proof.
  intros Hb [i ->]%count_ones_1. rewrite trailing_zeros_pow2.
  destruct (proj1 (Hb i)) as (c & Hc & _); [by rewrite N.pow2_bits_true|].
  exists i, c. split; [|done]. apply map_eq. intros j. destruct (decide (i = j)) as [->|Hne].
  - by rewrite Hc, lookup_singleton_eq.
  - rewrite lookup_singleton_ne by done. destruct (m !! j) as [c'|] eqn:Hj; [|done].
    assert (N.testbit (2 ^ i) j = true) as Ht by (apply Hb; eauto).
    rewrite N.pow2_bits_eqb in Ht. by apply N.eqb_eq in Ht.
Qed.
Lemma bitmap_leaf m b lb :
  bitmap_of (λ _, true) m b → bitmap_of child_is_leaf m lb →
  (count_ones b =? 1) && negb (lb =? 0) = true ↔ ∃ i c, m = {[i := c]} ∧ child_is_leaf c = true.
Proof.
  intros Hb Hl. rewrite andb_true_iff, N.eqb_eq, negb_true_iff, N.eqb_neq. split.
  - intros [H1 H2]. destruct (bitmap_one m b Hb H1) as (i & c & -> & _). exists i, c. split; [done|].
    destruct (child_is_leaf c) eqn:Hc; [done|]. destruct H2. apply N.bits_inj. intros j.
    rewrite N.bits_0. apply not_true_iff_false. intros (c' & [<- <-]%lookup_singleton_Some & ?)%Hl. congruence.
  - intros (i & c & -> & Hc). split.
    + rewrite (bitmap_unique _ _ _ _ Hb (bitmap_single i c)). apply count_ones_pow2.
    + intros ->. assert (N.testbit 0 i = true) as Ht; [|by rewrite N.bits_0 in Ht].
      apply Hl. exists c. by rewrite lookup_singleton_eq.
Qed.
Lemma bitmap_index i c b : bitmap_of (λ _, true) {[i := c]} b → trailing_zeros 16 b = i.
Proof. intros Hb. rewrite (bitmap_unique _ _ _ _ Hb (bitmap_single i c)). apply trailing_zeros_pow2. Qed.

(** ** The hash of an internal node *)

Section content.
Context {A : Type}.
Implicit Types m : gmap HashValue A.

(** The entries whose [d]-th nibble is [i], or in a range. *)
Definition sub (d : nat) (i : N) m : gmap HashValue A :=
  filter (λ kv, hash_nibble kv.1 (N.of_nat d) = i) m.
Definition key_range (d : nat) (start width : N) m : gmap HashValue A :=
  filter (λ kv, start <= hash_nibble kv.1 (N.of_nat d) ∧ hash_nibble kv.1 (N.of_nat d) < start + width) m.

Lemma lookup_sub d i m k v : sub d i m !! k = Some v ↔ m !! k = Some v ∧ hash_nibble k (N.of_nat d) = i.
Proof. unfold sub. by rewrite map_lookup_filter_Some. Qed.
Lemma sub_subseteq d i m : sub d i m ⊆ m.
Proof. apply map_filter_subseteq. Qed.
Lemma lookup_key_range d start width m k v :
  key_range d start width m !! k = Some v ↔
  m !! k = Some v ∧ start <= hash_nibble k (N.of_nat d) < start + width.
Proof. unfold key_range. by rewrite map_lookup_filter_Some. Qed.
Lemma key_range_all d m : key_range d 0 16 m = m.
Proof.
  apply map_eq. intros k. apply option_eq. intros v. rewrite lookup_key_range.
  pose proof (hash_nibble_lt k (N.of_nat d)). intuition lia.
Qed.
Lemma key_range_one d i m : key_range d i 1 m = sub d i m.
Proof.
  apply map_eq. intros k. apply option_eq. intros v. rewrite lookup_key_range, lookup_sub. intuition lia.
Qed.

Lemma size_ge_2 m k1 k2 v1 v2 : m !! k1 = Some v1 → m !! k2 = Some v2 → k1 ≠ k2 → (2 <= size m)%nat.
Proof.
  intros H1 H2 Hne. destruct (map_cases m) as [[-> _]|[(k & v & -> & _)|[? _]]]; [..|done].
  - by rewrite lookup_empty in H1.
  - apply lookup_singleton_Some in H1 as [<- _], H2 as [<- _]. done.
Qed.
Lemma size_pos_lookup m : m ≠ ∅ → ∃ k v, m !! k = Some v.
Proof. apply map_choose. Qed.
End content.

(** The bits left below a node at nibble depth [d + 1]. *)
Definition bits_below (d : nat) : nat := 252 - 4 * d.

(** What the children of an internal node at depth [d] say of its content. *)
Record children_ok `{!SparseHashes} (d : nat) (ch : Children) (m : gmap HashValue HashValue) : Prop := {
  co_none i : ch !! i = None → sub d i m = ∅;
  co_index i c : ch !! i = Some c → i < 16;
  co_leaf i c : ch !! i = Some c → child_is_leaf c = true → ∃ k v, sub d i m = {[k := v]};
  co_inner i c : ch !! i = Some c → child_is_leaf c = false → (2 <= size (sub d i m))%nat;
  co_hash i c : ch !! i = Some c → ch_hash c = smt_hash (bits_below d) (sub d i m);
}.

(** The bit that decides between the halves of a range. *)
Lemma aligned_bit start h n :
  start mod 2 ^ N.succ h = 0 → start <= n < start + 2 ^ N.succ h →
  N.testbit n h = true ↔ start + 2 ^ h <= n.
Proof.
  intros Hmod Hn. rewrite N.pow_succ_r' in *. assert (0 < 2 ^ h) by (apply N.neq_0_lt_0, N.pow_nonzero; done).
  rewrite N.testbit_true. apply N.Div0.div_exact in Hmod. set (q := start / (2 * 2 ^ h)) in *.
  replace n with ((n - start) + 2 * q * 2 ^ h) at 1 by lia.
  rewrite N.div_add by lia. rewrite <- N.Div0.add_mod_idemp_r, (N.mul_comm 2 q), N.Div0.mod_mul, N.add_0_r.
  destruct (N.lt_ge_cases (n - start) (2 ^ h)).
  - rewrite N.div_small by done. split; [done|lia].
  - replace ((n - start) / 2 ^ h) with 1; [split; [lia|done]|].
    apply N.div_unique with (n - start - 2 ^ h); lia.
Qed.
Lemma aligned_halves start h : aligned start (N.succ h) → aligned start h ∧ aligned (start + 2 ^ h) h.
Proof.
  intros (Hh & Hmod & Hend). unfold aligned. rewrite N.pow_succ_r' in *.
  assert (2 ^ h ≠ 0) by (apply N.pow_nonzero; done).
  assert (start mod 2 ^ h = 0) as Hm.
  { apply N.Div0.div_exact in Hmod. rewrite Hmod, (N.mul_comm 2), <- N.mul_assoc.
    rewrite (N.mul_comm (2 ^ h)). apply N.Div0.mod_mul. }
  split_and!; [lia|done|lia|lia| |lia].
  replace (start + 2 ^ h) with (start + 1 * 2 ^ h) by lia. by rewrite N.Div0.mod_add.
Qed.
Lemma child_range_range s w s' w' (c : Children) :
  s <= s' → s' + w' <= s + w → child_range s' w' (child_range s w c) = child_range s' w' c.
Proof.
  intros. apply map_eq. intros k. apply option_eq. intros v. rewrite !lookup_child_range. intuition lia.
Qed.

Section hash_spec.
Context `{!SparseHashes}.
Context (d : nat) (Hd : (d < 64)%nat) (ch : Children) (m : gmap HashValue HashValue).
Context (Hch : children_ok d ch m).

Lemma range_empty start width : child_range start width ch = ∅ → key_range d start width m = ∅.
Proof.
  intros Hr. apply map_empty. intros k. destruct (key_range d start width m !! k) as [v|] eqn:Hk; [|done].
  apply lookup_key_range in Hk as [Hk Hi]. set (i := hash_nibble k (N.of_nat d)) in *.
  destruct (ch !! i) as [c|] eqn:Hc.
  - assert (child_range start width ch !! i = Some c) as Hx by by apply lookup_child_range.
    by rewrite Hr, lookup_empty in Hx.
  - assert (sub d i m !! k = Some v) as Hx by by apply lookup_sub.
    by rewrite (co_none _ _ _ Hch _ Hc), lookup_empty in Hx.
Qed.
Lemma range_single start width i c :
  child_range start width ch = {[i := c]} →
  key_range d start width m = sub d i m ∧ ch !! i = Some c ∧ start <= i < start + width.
Proof.
  intros Hr. assert (child_range start width ch !! i = Some c) as [Hc Hi]%lookup_child_range
    by by rewrite Hr, lookup_singleton_eq.
  split; [|done]. apply map_eq. intros k. apply option_eq. intros v.
  rewrite lookup_key_range, lookup_sub. split; [|intros [? <-]; done].
  intros [Hk Hn]. split; [done|]. set (j := hash_nibble k (N.of_nat d)) in *.
  destruct (ch !! j) as [c'|] eqn:Hj.
  - assert (child_range start width ch !! j = Some c') as Hx by by apply lookup_child_range.
    rewrite Hr in Hx. by apply lookup_singleton_Some in Hx as [-> _].
  - assert (sub d j m !! k = Some v) as Hx by by apply lookup_sub.
    by rewrite (co_none _ _ _ Hch _ Hj), lookup_empty in Hx.
Qed.
Lemma child_nonempty i c : ch !! i = Some c → ∃ k v, m !! k = Some v ∧ hash_nibble k (N.of_nat d) = i.
Proof.
  intros Hc. destruct (size_pos_lookup (sub d i m)) as (k & v & Hk%lookup_sub); [|eauto].
  intros Hs. destruct (child_is_leaf c) eqn:Hl.
  - destruct (co_leaf _ _ _ Hch i c Hc Hl) as (k & v & Hsub). rewrite Hs in Hsub.
    by apply (f_equal (lookup k)) in Hsub; rewrite lookup_empty, lookup_singleton_eq in Hsub.
  - pose proof (co_inner _ _ _ Hch i c Hc Hl) as Hsz. rewrite Hs, map_size_empty in Hsz. lia.
Qed.
Lemma range_many start width :
  child_range start width ch ≠ ∅ →
  (¬ ∃ i c, child_range start width ch = {[i := c]} ∧ child_is_leaf c = true) →
  (2 <= size (key_range d start width m))%nat.
Proof.
  intros Hne Hnl. destruct (map_cases (child_range start width ch)) as [[? _]|[(i & c & Hr & _)|[_ Hr]]]; [done|..].
  - destruct (range_single _ _ _ _ Hr) as (-> & Hc & _). apply (co_inner _ _ _ Hch i c Hc).
    destruct (child_is_leaf c) eqn:Hl; [|done]. destruct Hnl. eauto.
  - destruct Hr as ([i1 c1] & [i2 c2] & l & Hl).
    pose proof (NoDup_fst_map_to_list (child_range start width ch)) as Hnd. rewrite Hl in Hnd. cbn in Hnd.
    assert (i1 ≠ i2) as Hi by (apply NoDup_cons in Hnd as [Hnd _]; set_solver).
    assert (∀ i c, (i, c) ∈ map_to_list (child_range start width ch) →
      ∃ k v, key_range d start width m !! k = Some v ∧ hash_nibble k (N.of_nat d) = i) as Hk.
    { intros i c [Hc Hi']%elem_of_map_to_list%lookup_child_range.
      destruct (child_nonempty i c Hc) as (k & v & Hk & <-). exists k, v. by rewrite lookup_key_range. }
    destruct (Hk i1 c1) as (k1 & v1 & H1 & <-); [rewrite Hl; left|].
    destruct (Hk i2 c2) as (k2 & v2 & H2 & <-); [rewrite Hl; right; left|].
    eapply (size_ge_2 _ k1 k2); [done..|]. by intros ->.
Qed.

Lemma half_key_range b start h :
  aligned start (N.succ h) →
  half b (255 - N.of_nat (bits_below d + N.to_nat h)) (key_range d start (2 ^ N.succ h) m)
  = key_range d (if b then start + 2 ^ h else start) (2 ^ h) m.
Proof.
  intros (Hh & Hmod & Hend). apply map_eq. intros k. apply option_eq. intros v.
  rewrite lookup_half, !lookup_key_range.
  replace (255 - N.of_nat (bits_below d + N.to_nat h)) with (4 * N.of_nat d + (3 - h))
    by (unfold bits_below; lia).
  rewrite <- hash_nibble_bit by lia. set (n := hash_nibble k (N.of_nat d)).
  assert (2 ^ N.succ h = 2 * 2 ^ h) as Hp by apply N.pow_succ_r'.
  pose proof (aligned_bit start h n Hmod) as Hbit. destruct (N.testbit n h) eqn:Ht, b; split; intros; lia || intuition lia.
Qed.

Lemma only_child_run {E} start h i c b (k : N → outcome E HashValue) :
  bitmap_of (λ _, true) (child_range start (2 ^ h) ch) b →
  child_range start (2 ^ h) ch = {[i := c]} →
  (nibble_from (trailing_zeros 16 b) ≫= k) = k i.
Proof.
  intros Hb Hr. rewrite Hr in Hb. rewrite (bitmap_index i c b Hb). unfold nibble_from.
  destruct (range_single _ _ _ _ Hr) as (_ & Hc & _). apply (co_index _ _ _ Hch) in Hc.
  by rewrite (proj2 (N.ltb_lt i 16)).
Qed.

(** The cases [merkle_hash], [gen_node_in_proof] and [get_child_with_siblings] distinguish. *)
Inductive range_case (start h : N) : bool → bool → Prop :=
| range_is_empty b : child_range start (2 ^ h) ch = ∅ → range_case start h true b
| range_is_child i c :
    child_range start (2 ^ h) ch = {[i := c]} → h = 0 ∨ child_is_leaf c = true → range_case start h false true
| range_is_branch :
    h ≠ 0 → (2 <= size (key_range d start (2 ^ h) m))%nat → range_case start h false false.

Lemma range_cases start h eb lb :
  aligned start h →
  bitmap_of (λ _, true) (child_range start (2 ^ h) ch) eb →
  bitmap_of child_is_leaf (child_range start (2 ^ h) ch) lb →
  range_case start h (eb =? 0) ((2 ^ h =? 1) || ((count_ones eb =? 1) && negb (lb =? 0))).
Proof.
  intros Hal He Hl. destruct (eb =? 0) eqn:Hz.
  { apply range_is_empty. by apply (bitmap_zero _ _ He). }
  assert (child_range start (2 ^ h) ch ≠ ∅) as Hne.
  { intros Hr%(bitmap_zero _ _ He). congruence. }
  pose proof (bitmap_leaf _ _ _ He Hl) as Hleaf.
  destruct ((count_ones eb =? 1) && negb (lb =? 0)).
  { destruct (proj1 Hleaf eq_refl) as (i & c & Hr & Hc). rewrite orb_true_r.
    by apply (range_is_child _ _ i c); [|right]. }
  rewrite orb_false_r. destruct (N.eqb_spec (2 ^ h) 1) as [Hh|Hh].
  - assert (h = 0) as -> by (destruct (decide (h = 0)); [done|]; pose proof (N.pow_gt_1 2 h); lia).
    apply map_choose in Hne as (i & c & Hi). apply (range_is_child _ _ i c); [|by left].
    apply map_eq. intros j. pose proof Hi as [_ ?]%lookup_child_range.
    destruct (decide (i = j)) as [->|]; [by rewrite Hi, lookup_singleton_eq|].
    rewrite lookup_singleton_ne by done.
    destruct (child_range start (2 ^ 0) ch !! j) as [c'|] eqn:Hj; [|done].
    apply lookup_child_range in Hj as [_ ?]. change (2 ^ 0) with 1 in *. lia.
  - apply range_is_branch; [by intros ->|]. apply range_many; [done|]. intros ?%Hleaf. done.
Qed.

Lemma merkle_hash_loop_run {E} n fuel start h eb lb chs :
  in_children n = ch → aligned start h → (N.to_nat h < fuel)%nat →
  child_range start (2 ^ h) chs = child_range start (2 ^ h) ch →
  bitmap_of (λ _, true) chs eb → bitmap_of child_is_leaf chs lb →
  merkle_hash_loop (E := E) fuel n start (2 ^ h) (eb, lb)
  = Ok (smt_hash (bits_below d + N.to_nat h) (key_range d start (2 ^ h) m)).
Proof.
  intros Hn. revert start h eb lb chs. induction fuel as [|fuel IH]; intros start h eb lb chs Hal Hf Hrange He Hl;
    [lia|]. cbn [merkle_hash_loop].
  destruct (range_bitmaps_run (E := E) start h _ _ chs eb lb Hal He Hl) as (eb' & lb' & -> & He' & Hl'). run_ok.
  rewrite Hrange in He', Hl'.
  destruct (range_cases start h eb' lb' Hal He' Hl') as [b Hr|i c Hr Hc|Hh Hs].
  - by rewrite range_empty, smt_hash_empty.
  - rewrite (only_child_run start h i c _ _ He' Hr). unfold internal_child. rewrite Hn.
    destruct (range_single _ _ _ _ Hr) as (-> & Hi & Hin). rewrite Hi. run_ok.
    f_equal. rewrite (co_hash _ _ _ Hch i c Hi). destruct Hc as [->|Hc]; [by rewrite Nat.add_0_r|].
    destruct (co_leaf _ _ _ Hch i c Hi Hc) as (k & v & ->). by rewrite !smt_hash_singleton.
  - destruct (N.zero_or_succ h) as [|[h' ->]]; [done|].
    assert (2 ^ N.succ h' / 2 = 2 ^ h') as ->.
    { rewrite N.pow_succ_r', N.mul_comm. by apply N.div_mul. }
    assert (2 ^ N.succ h' = 2 ^ h' + 2 ^ h') as Hp by (rewrite N.pow_succ_r'; lia).
    destruct (aligned_halves start h' Hal) as [Ha1 Ha2].
    rewrite (IH start h' eb' lb' _ Ha1 ltac:(lia) (child_range_range start (2 ^ N.succ h') start (2 ^ h') _ ltac:(lia) ltac:(lia)) He' Hl').
    rewrite (IH (start + 2 ^ h') h' eb' lb' _ Ha2 ltac:(lia) (child_range_range start (2 ^ N.succ h') (start + 2 ^ h') (2 ^ h') _ ltac:(lia) ltac:(lia)) He' Hl').
    run_ok. replace (bits_below d + N.to_nat (N.succ h'))%nat with (S (bits_below d + N.to_nat h')) by lia.
    rewrite smt_hash_branch by done. by rewrite !half_key_range.
Qed.
Lemma merkle_hash_run {E} n start h eb lb :
  in_children n = ch → aligned start h →
  bitmap_of (λ _, true) ch eb → bitmap_of child_is_leaf ch lb →
  merkle_hash (E := E) n start (2 ^ h) (eb, lb)
  = Ok (smt_hash (bits_below d + N.to_nat h) (key_range d start (2 ^ h) m)).
Proof.
  intros Hn Hal. assert (h <= 4) by apply Hal. apply merkle_hash_loop_run; [done|done|lia|done].
Qed.
Lemma internal_hash_run {E} n :
  in_children n = ch → internal_hash (E := E) n = Ok (smt_hash (256 - 4 * d) m).
Proof.
  intros Hn. unfold internal_hash. destruct (generate_bitmaps_run (E := E) n) as (eb & lb & -> & He & Hl).
  run_ok. rewrite Hn in He, Hl. change 16 with (2 ^ 4).
  rewrite (merkle_hash_run n 0 4) by done. change (2 ^ 4) with 16. rewrite key_range_all.
  do 2 f_equal. unfold bits_below. lia.
Qed.
End hash_spec.

(** ** The siblings a proof takes from an internal node *)

Lemma below_16 (P : N → Prop) : Forall P (seqN 0 16) → ∀ n, n < 16 → P n.
Proof. rewrite Forall_forall. intros HP n Hn. apply HP, elem_of_seqN. lia. Qed.

(** The aligned range of [2 ^ h] indices that contains [n]. *)
Definition block (n h : N) : N := 2 ^ h * (n / 2 ^ h).

Lemma half_start_spec n h :
  n < 16 → h < 4 →
  get_child_and_sibling_half_start n h
    = (block n h, block n (h + 1) + if N.testbit n h then 0 else 2 ^ h) ∧
  block n h = (block n (h + 1) + if N.testbit n h then 2 ^ h else 0) ∧
  aligned (block n (h + 1)) (h + 1) ∧ aligned (block n h) h ∧
  aligned (block n (h + 1) + if N.testbit n h then 0 else 2 ^ h) h.
Proof.
  intros Hn Hh. assert (h = 0 ∨ h = 1 ∨ h = 2 ∨ h = 3) as Hc by lia. revert n Hn.
  destruct Hc as [->|[->|[->| ->]]]; apply below_16; repeat constructor; vm_compute; done.
Qed.

Definition heights (h : nat) : list N := reverse (seqN 0 (N.of_nat h)).
Lemma heights_S h : heights (S h) = N.of_nat h :: heights h.
Proof.
  unfold heights. replace (N.of_nat (S h)) with (N.of_nat h + 1) by lia.
  rewrite seqN_succ_r, reverse_snoc. done.
Qed.

Section siblings_spec.
Context `{!SparseHashes} {K : Type} (get_node_option : NodeKey → outcome anyhow (option (Node K))).
Context (path : list N) (Hpath : nibbles_ok path) (Hlen : (length path < 64)%nat).
Context (n : InternalNode) (m : gmap HashValue HashValue) (version : Version).
Abbreviation d := (length path).
Abbreviation ch := (in_children n).
Abbreviation node_key := (mkNodeKey version (path_of path)).
Abbreviation child_key i c := (mkNodeKey (ch_version c) (path_of (path ++ [i]))).
Context (Hch : children_ok d ch m).
(** Leaves are stored where their parent says. *)
Context (Hread : ∀ i c, ch !! i = Some c → child_is_leaf c = true →
  ∃ l, get_node_option (child_key i c) = Ok (Some (NodeLeaf l)) ∧
       sub d i m = {[ln_account_key l := ln_value_hash l]}).

Lemma gen_child_node_key_run {E} v i :
  i < 16 → gen_child_node_key (E := E) node_key v i = Ok (mkNodeKey v (path_of (path ++ [i]))).
Proof. intros Hi. unfold gen_child_node_key. cbn [nk_nibble_path]. by rewrite np_push_run. Qed.

Lemma gen_node_in_proof_run start h eb lb :
  aligned start h → bitmap_of (λ _, true) ch eb → bitmap_of child_is_leaf ch lb →
  ∃ nip, gen_node_in_proof get_node_option n start (2 ^ h) (eb, lb) node_key = Ok nip ∧
    node_in_proof_hash nip = smt_hash (bits_below d + N.to_nat h) (key_range d start (2 ^ h) m).
Proof.
  intros Hal He Hl. unfold gen_node_in_proof.
  destruct (range_bitmaps_run (E := anyhow) start h _ _ ch eb lb Hal He Hl) as (eb' & lb' & -> & He' & Hl'). run_ok.
  destruct (range_cases d Hlen ch m Hch start h eb' lb' Hal He' Hl') as [b Hr|i c Hr Hc|Hh Hs].
  - exists (NipOther SPARSE_MERKLE_PLACEHOLDER_HASH). split; [done|].
    by rewrite (range_empty d ch m Hch), smt_hash_empty.
  - rewrite Hr in He'. rewrite (bitmap_index i c _ He').
    destruct (range_single d ch m Hch _ _ _ _ Hr) as (Hsub & Hi & _). rewrite Hsub.
    pose proof (co_index _ _ _ Hch i c Hi) as Hlt. unfold nibble_from. rewrite (proj2 (N.ltb_lt i 16)) by done.
    run_ok. unfold internal_child. rewrite Hi. run_ok. destruct (child_is_leaf c) eqn:Hcl.
    + rewrite gen_child_node_key_run by done. run_ok. unfold get_node.
      destruct (Hread i c Hi Hcl) as (l & -> & ->). run_ok. eexists. split; [done|].
      by rewrite smt_hash_singleton.
    + destruct Hc as [->|]; [|congruence]. eexists. split; [done|]. cbn [node_in_proof_hash].
      rewrite (co_hash _ _ _ Hch i c Hi). by rewrite Nat.add_0_r.
  - destruct (N.zero_or_succ h) as [|[h' ->]]; [done|].
    assert (2 ^ N.succ h' / 2 = 2 ^ h') as -> by (rewrite N.pow_succ_r', N.mul_comm; by apply N.div_mul).
    assert (2 ^ N.succ h' = 2 ^ h' + 2 ^ h') as Hp by (rewrite N.pow_succ_r'; lia).
    destruct (aligned_halves start h' Hal) as [Ha1 Ha2]. assert (h' <= 4) by apply Ha1. unfold merkle_hash.
    rewrite (merkle_hash_loop_run d Hlen ch m Hch n 5 start h' eb' lb' _ eq_refl Ha1 ltac:(lia)
      (child_range_range start (2 ^ N.succ h') start (2 ^ h') _ ltac:(lia) ltac:(lia)) He' Hl').
    rewrite (merkle_hash_loop_run d Hlen ch m Hch n 5 (start + 2 ^ h') h' eb' lb' _ eq_refl Ha2 ltac:(lia)
      (child_range_range start (2 ^ N.succ h') (start + 2 ^ h') (2 ^ h') _ ltac:(lia) ltac:(lia)) He' Hl').
    run_ok. eexists. split; [done|]. cbn [node_in_proof_hash].
    replace (bits_below d + N.to_nat (N.succ h'))%nat with (S (bits_below d + N.to_nat h')) by lia.
    rewrite smt_hash_branch by done. by rewrite !half_key_range.
Qed.

(** The rest of the proof after the siblings [s] of this node. *)
Definition continues (key : HashValue) (r : nat) (range : gmap HashValue HashValue)
    (child : option NodeKey) (s : list HashValue) : Prop :=
  match child with
  | None => smt_path r range key = (s, None)
  | Some k => ∃ i c, ch !! i = Some c ∧ k = child_key i c ∧
      (i = hash_nibble key (N.of_nat d) ∨ child_is_leaf c = true) ∧
      smt_path r range key = (s ++ (smt_path (bits_below d) (sub d i m) key).1,
                              (smt_path (bits_below d) (sub d i m) key).2)
  end.

Lemma continues_cons key r range range' s child ss :
  smt_path (S r) range key = (s :: (smt_path r range' key).1, (smt_path r range' key).2) →
  continues key r range' child ss → continues key (S r) range child (s :: ss).
Proof.
  intros Hp. unfold continues. destruct child as [k|].
  - intros (i & c & Hi & -> & Hor & Heq). exists i, c. split_and!; [done..|]. by rewrite Hp, Heq.
  - intros Heq. by rewrite Hp, Heq.
Qed.

(** Half the range around the key's nibble, its sibling, and how the path goes on. *)
Abbreviation around key h := (key_range d (block (hash_nibble key (N.of_nat d)) h) (2 ^ h) m).
Abbreviation sibling_start key h :=
  (block (hash_nibble key (N.of_nat d)) (h + 1)
     + if N.testbit (hash_nibble key (N.of_nat d)) h then 0 else 2 ^ h).

Lemma smt_path_step key h :
  (h < 4)%nat → (2 <= size (around key (N.of_nat h + 1)))%nat →
  smt_path (S (bits_below d + h)) (around key (N.of_nat h + 1)) key
  = (smt_hash (bits_below d + h) (key_range d (sibling_start key (N.of_nat h)) (2 ^ N.of_nat h) m)
       :: (smt_path (bits_below d + h) (around key (N.of_nat h)) key).1,
     (smt_path (bits_below d + h) (around key (N.of_nat h)) key).2).
Proof.
  intros Hh Hsz. rewrite smt_path_branch by done. set (nibble := hash_nibble key (N.of_nat d)) in *.
  assert (hash_bit key (255 - N.of_nat (bits_below d + h)) = N.testbit nibble (N.of_nat h)) as ->.
  { unfold nibble. rewrite hash_nibble_bit by lia. f_equal. unfold bits_below. lia. }
  destruct (half_start_spec nibble (N.of_nat h)) as (_ & Hblock & Hal & _); [apply hash_nibble_lt|lia|].
  assert (∀ b, half b (255 - N.of_nat (bits_below d + h)) (around key (N.of_nat h + 1))
    = key_range d (if b then block nibble (N.of_nat h + 1) + 2 ^ N.of_nat h else block nibble (N.of_nat h + 1))
        (2 ^ N.of_nat h) m) as Hhalf.
  { intros b. pose proof (half_key_range d Hlen m b (block nibble (N.of_nat h + 1)) (N.of_nat h)) as Hk.
    rewrite Nat2N.id, <- N.add_1_r in Hk. by apply Hk. }
  rewrite !Hhalf, Hblock. by destruct (N.testbit nibble (N.of_nat h)); rewrite ?N.add_0_r.
Qed.
Lemma sibling_run start h eb lb (reader : bool) :
  aligned start (N.of_nat h) → bitmap_of (λ _, true) ch eb → bitmap_of child_is_leaf ch lb →
  ∃ sib,
    (if reader then gen_node_in_proof get_node_option n start (2 ^ N.of_nat h) (eb, lb) node_key
     else h ← merkle_hash n start (2 ^ N.of_nat h) (eb, lb); Ok (NipOther h)) = Ok sib ∧
    node_in_proof_hash sib = smt_hash (bits_below d + h) (key_range d start (2 ^ N.of_nat h) m).
Proof.
  intros Hal He Hl. destruct reader.
  - destruct (gen_node_in_proof_run start (N.of_nat h) eb lb) as (nip & -> & Hnip); [done..|].
    rewrite Nat2N.id in Hnip. eauto.
  - rewrite (merkle_hash_run d Hlen ch m Hch) by done. run_ok. rewrite Nat2N.id. eauto.
Qed.

Lemma child_with_siblings_run key reader eb lb h acc :
  let nibble := hash_nibble key (N.of_nat d) in
  (h < 4)%nat → bitmap_of (λ _, true) ch eb → bitmap_of child_is_leaf ch lb →
  (2 <= size (key_range d (block nibble (N.of_nat h + 1)) (2 ^ (N.of_nat h + 1)) m))%nat →
  ∃ child sibs ss,
    child_with_siblings_loop get_node_option (heights (S h)) n node_key nibble reader (eb, lb) acc
      = Ok (child, acc ++ sibs) ∧
    node_in_proof_hash <$> sibs = ss ∧
    continues key (bits_below d + S h)
      (key_range d (block nibble (N.of_nat h + 1)) (2 ^ (N.of_nat h + 1)) m) child ss.
Proof.
  intros nibble Hh He Hl. revert acc. induction h as [h IH] using lt_wf_ind; intros acc Hsz.
  rewrite heights_S. cbn [child_with_siblings_loop]. rewrite N.shiftl_1_l.
  assert (nibble < 16) as Hnib by apply hash_nibble_lt.
  destruct (half_start_spec nibble (N.of_nat h)) as (-> & Hblock & Hal1 & Hal & Hal'); [done|lia|].
  pose proof (smt_path_step key h Hh Hsz) as Hpath1. fold nibble in Hpath1.
  destruct (sibling_run _ h eb lb reader Hal' He Hl) as (sib & -> & Hsib).
  run_ok. rewrite <- Hsib in Hpath1.
  destruct (range_bitmaps_run (E := anyhow) (block nibble (N.of_nat h)) (N.of_nat h) _ _ ch eb lb Hal He Hl)
    as (eb' & lb' & -> & He' & Hl'). run_ok.
  replace (bits_below d + S h)%nat with (S (bits_below d + h)) by lia.
  destruct (range_cases d Hlen ch m Hch _ _ eb' lb' Hal He' Hl') as [b Hr|i c Hr Hc|Hh0 Hs].
  - exists None, [sib], [node_in_proof_hash sib]. split_and!; [done..|].
    eapply continues_cons; [exact Hpath1|]. cbn. rewrite (range_empty d ch m Hch) by done.
    apply smt_path_empty.
  - rewrite Hr in He'. rewrite (bitmap_index i c _ He').
    destruct (range_single d ch m Hch _ _ _ _ Hr) as (Hsub & Hi & Hin).
    pose proof (co_index _ _ _ Hch i c Hi) as Hlt. unfold nibble_from. rewrite (proj2 (N.ltb_lt i 16)) by done.
    run_ok. unfold internal_child. rewrite Hi. run_ok. rewrite gen_child_node_key_run by done. run_ok.
    exists (Some (child_key i c)), [sib], [node_in_proof_hash sib]. split_and!; [done..|].
    eapply continues_cons; [exact Hpath1|]. exists i, c. rewrite Hsub. split_and!; [done..| |].
    + destruct Hc as [Hh0|]; [left|by right]. rewrite Hh0 in *. unfold block in Hin. fold nibble.
      change (2 ^ 0) with 1 in Hin. rewrite N.div_1_r in Hin. lia.
    + destruct Hc as [Hh0|Hcl].
      * replace h with 0%nat by lia. rewrite Nat.add_0_r. apply surjective_pairing.
      * destruct (co_leaf _ _ _ Hch i c Hi Hcl) as (k & v & ->). by rewrite !smt_path_singleton.
  - destruct h as [|h]; [done|].
    destruct (IH h ltac:(lia) ltac:(lia) (acc ++ [sib])) as (child & sibs & ss & -> & Hss & Hcont).
    { replace (N.of_nat h + 1) with (N.of_nat (S h)) by lia. done. }
    exists child, (sib :: sibs), (node_in_proof_hash sib :: ss). split_and!.
    + by rewrite <- app_assoc.
    + by rewrite fmap_cons, Hss.
    + eapply continues_cons; [exact Hpath1|]. by replace (N.of_nat (S h)) with (N.of_nat h + 1) by lia.
Qed.

Lemma get_child_with_siblings_run key reader :
  (2 <= size m)%nat →
  ∃ child sibs,
    get_child_with_siblings get_node_option n node_key (hash_nibble key (N.of_nat d)) reader = Ok (child, sibs) ∧
    continues key (256 - 4 * d) m child (node_in_proof_hash <$> sibs).
Proof.
  intros Hsz. unfold get_child_with_siblings.
  destruct (generate_bitmaps_run (E := anyhow) n) as (eb & lb & -> & He & Hl). run_ok.
  pose proof (hash_nibble_lt key (N.of_nat d)) as Hn.
  assert (block (hash_nibble key (N.of_nat d)) (N.of_nat 3 + 1) = 0) as Hb.
  { unfold block. change (2 ^ (N.of_nat 3 + 1)) with 16. by rewrite N.div_small. }
  destruct (child_with_siblings_run key reader eb lb 3 []) as (child & sibs & ss & Hrun & <- & Hcont);
    [lia|done|done|..]; rewrite Hb in *; change (2 ^ (N.of_nat 3 + 1)) with 16 in *;
    rewrite key_range_all in *; [done|].
  exists child, sibs. split; [exact Hrun|].
  by replace (256 - 4 * d)%nat with (bits_below d + 4)%nat by (unfold bits_below; lia).
Qed.
End siblings_spec.
