(* ===== verification/JmtCodec.v ===== *)
(** * The stored form of Jellyfish Merkle tree nodes (storage/jellyfish-merkle/src/node_type/mod.rs)

    Keys sort by version, internal nodes are two bitmaps and their children, leaves are BCS.
    What is written is read back, and reading arbitrary bytes panics only where leaf counts overflow. *)
From S2P Require Import Prelude Crypto Nibble SparseMerkle JmtNode.
Local Open Scope N_scope.

(** ** [InternalNode] *)

Inductive NodeDecodeError :=
| EmptyInput
| UnknownTag (unknown_tag : N)
| NoChildren
| ExtraLeaves (existing leaves : N).
Definition node_decode_error (e : NodeDecodeError) : anyhow :=
  match e with
  | EmptyInput => fmt "Missing tag due to empty input" []
  | UnknownTag t => fmt "lead tag byte is unknown: {}" [t]
  | NoChildren => fmt "No children found in internal node" []
  | ExtraLeaves e l => fmt "Non-existent leaf bits set, existing: {}, leaves: {}" [e; l]
  end.

(** [existence_bitmap &= !(1 << next_child)] *)
Definition clear_bit (bitmap next_child : N) : N := N.ldiff bitmap (N.shiftl 1 next_child).

(** One child of the loop *)
Definition serialize_child {E} (child : Child) : outcome E (list N) :=
  version ← serialize_u64_varint (ch_version child);
  node_type ← match ch_node_type child with
              | NtLeaf => Ok []
              | NtInternal leaf_count => serialize_u64_varint leaf_count
              | NtNull => Panic
              end;
  Ok (version ++ hash_to_vec (ch_hash child) ++ node_type).
Fixpoint serialize_children {E} (n : nat) (existence_bitmap : N) (children : Children) : outcome E (list N) :=
  match n with
  | O => Ok []
  | S n =>
      next_child ← nibble_from (trailing_zeros 16 existence_bitmap);
      child ← expect (children !! next_child);
      bytes ← serialize_child child;
      rest ← serialize_children n (clear_bit existence_bitmap next_child) children;
      Ok (bytes ++ rest)
  end.
Definition internal_serialize {E} (node : InternalNode) : outcome E (list N) :=
  '(existence_bitmap, leaf_bitmap) ← generate_bitmaps node;
  children ← serialize_children (N.to_nat (count_ones existence_bitmap)) existence_bitmap (in_children node);
  Ok (write_u16_le existence_bitmap ++ write_u16_le leaf_bitmap ++ children).

Definition deserialize_child (existence_bitmap : N) (is_leaf : bool) (val : list N) : outcome anyhow (Child * list N) :=
  '(version, val) ← deserialize_u64_varint val;
  _ ← ensure (32 <=? lenN val)
        (fmt "not enough bytes left, children: {}, bytes: {}" [count_ones existence_bitmap; lenN val]);
  hash ← ok_or (hash_from_slice (take 32 val)) (fmt "unable to parse HashValue" []);
  let val := drop 32 val in
  '(node_type, val) ←
    (if is_leaf then Ok (NtLeaf, val)
     else '(leaf_count, val) ← deserialize_u64_varint val; Ok (NtInternal leaf_count, val));
  Ok (mkChild hash version node_type, val).
Fixpoint deserialize_children (n : nat) (existence_bitmap leaf_bitmap : N) (children : Children) (val : list N)
  : outcome anyhow Children :=
  match n with
  | O => _ ← rassert (existence_bitmap =? 0); Ok children
  | S n =>
      let next_child := trailing_zeros 16 existence_bitmap in
      let child_bit := N.shiftl 1 next_child in
      '(child, val) ← deserialize_child existence_bitmap (negb (N.land leaf_bitmap child_bit =? 0)) val;
      nibble ← nibble_from next_child;
      deserialize_children n (clear_bit existence_bitmap next_child) leaf_bitmap (<[nibble := child]> children) val
  end.
(** The bitmaps, checked, and the children they announce *)
Definition internal_parse (data : list N) : outcome anyhow Children :=
  '(existence_bitmap, val) ← read_u16_le data;
  '(leaf_bitmap, val) ← read_u16_le val;
  _ ← (if existence_bitmap =? 0 then Err (node_decode_error NoChildren)
       else if negb (N.land existence_bitmap leaf_bitmap =? leaf_bitmap)
       then Err (node_decode_error (ExtraLeaves existence_bitmap leaf_bitmap)) else Ok tt);
  deserialize_children (N.to_nat (count_ones existence_bitmap)) existence_bitmap leaf_bitmap ∅ val.
Definition internal_deserialize (data : list N) : outcome anyhow InternalNode :=
  children ← internal_parse data; internal_node_new_impl children.

(** ** [Node] *)

Section node_codec.
Context {K : Type} `{!Bcs (LeafNode K) (list N)}.

Definition node_encode (node : Node K) : outcome anyhow (list N) :=
  match node with
  | NodeInternal internal_node => bytes ← internal_serialize internal_node; Ok (2 :: bytes)
  | NodeLeaf leaf_node => bytes ← to_bytes leaf_node; Ok (1 :: bytes)
  | NodeNull => Ok [3]
  end.
Definition node_decode (val : list N) : outcome anyhow (Node K) :=
  match val with
  | [] => Err (node_decode_error EmptyInput)
  | tag :: val =>
      match tag with
      | 1 => NodeLeaf <$> from_bytes val
      | 2 => NodeInternal <$> internal_deserialize val
      | 3 => Ok NodeNull
      | _ => Err (node_decode_error (UnknownTag tag))
      end
  end.
End node_codec.

(** ** Integers *)

Lemma land_shift a b k : a < 2 ^ k → N.land a (N.shiftl b k) = 0.
Proof.
  intros Ha. apply N.bits_inj. intros j. rewrite N.land_spec, N.bits_0. destruct (decide (j < k)).
  - rewrite N.shiftl_spec_low, andb_false_r by done. done.
  - rewrite <- (N.mod_small a (2 ^ k)), N.mod_pow2_bits_high by (done || lia). done.
Qed.
Lemma lor_shift_add a b k : a < 2 ^ k → N.lor a (N.shiftl b k) = a + b * 2 ^ k.
Proof.
  intros Ha. rewrite <- N.lxor_lor, <- N.add_nocarry_lxor by by apply land_shift. by rewrite N.shiftl_mul_pow2.
Qed.
Lemma varint_byte low more :
  low < 128 → more = 0 ∨ more = 128 →
  N.land (N.lor low more) 127 = low ∧ N.land (N.lor low more) 128 = more.
Proof.
  intros Hl Hm. assert (N.land low 127 = low) as H1 by (change 127 with (N.ones 7); by rewrite N.land_ones, N.mod_small).
  assert (N.land low 128 = 0) as H2 by by apply (land_shift low 1 7).
  rewrite !N.land_lor_distr_l, H1, H2. destruct Hm as [->| ->]; cbn; by rewrite ?N.lor_0_r.
Qed.
Lemma serialize_u64_varint_loop_run {E} n i num acc rest :
  N.of_nat n + i = 8 → num < 2 ^ (7 * N.of_nat n + 8) → acc < 2 ^ (7 * i) → (n = O → num ≠ 0) →
  ∃ bytes, serialize_u64_varint_loop (E := E) n num = Ok bytes ∧
    deserialize_u64_varint_loop n i acc (bytes ++ rest) = Ok (acc + num * 2 ^ (7 * i), rest).
Proof.
  revert i num acc. induction n as [|n IH]; intros i num acc Hi Hnum Hacc Hne; cbn [serialize_u64_varint_loop].
  - assert (i = 8) as -> by lia. rewrite (proj2 (N.eqb_neq num 0)), (proj2 (N.leb_le num 255)) by (lia || auto). run_ok.
    change 255 with (N.ones 8) at 1. rewrite N.land_ones, N.mod_small by (cbn in *; lia).
    eexists. split; [done|]. cbn. do 2 f_equal. unfold u64_shl. rewrite N.mod_small.
    + rewrite lor_shift_add by done. done.
    + rewrite N.shiftl_mul_pow2. cbn in *. lia.
  - set (low := N.land (N.land num 255) 127). set (high := N.shiftr num 7).
    assert (low = num mod 128) as Hlow.
    { unfold low. rewrite <- N.land_assoc. change (N.land 255 127) with (N.ones 7). by rewrite N.land_ones. }
    assert (high = num / 128) as Hhigh by (unfold high; by rewrite N.shiftr_div_pow2).
    assert (low < 128) as Hlow' by dlia. assert (0 < 2 ^ (7 * i)) as Hpos by (apply N.neq_0_lt_0, N.pow_nonzero; done).
    assert (u64_shl low (i * 7) = low * 2 ^ (7 * i)) as Hshl.
    { unfold u64_shl. rewrite N.shiftl_mul_pow2, (N.mul_comm i 7), N.mod_small; [done|].
      apply N.lt_le_trans with (2 ^ 7 * 2 ^ (7 * i)); [apply N.mul_lt_mono_pos_r; done|].
      rewrite <- N.pow_add_r. apply N.pow_le_mono_r; [done|lia]. }
    assert (N.lor acc (u64_shl low (i * 7)) = acc + low * 2 ^ (7 * i)) as Hacc'.
    { rewrite Hshl, <- N.shiftl_mul_pow2. by rewrite lor_shift_add, N.shiftl_mul_pow2. }
    destruct (N.eqb_spec high 0) as [Hz|Hnz].
    + destruct (varint_byte low 0) as [Hb1 Hb2]; [done|by left|].
      eexists. split; [done|]. cbn [app deserialize_u64_varint_loop read_u8]. run_ok.
      rewrite Hb1, Hb2, Hacc'. cbn. do 3 f_equal. dlia.
    + destruct (varint_byte low 128) as [Hb1 Hb2]; [done|by right|].
      destruct (IH (i + 1) high (acc + low * 2 ^ (7 * i))) as (bytes & Hs & Hd); [lia| | |done|].
      * rewrite Hhigh. apply N.Div0.div_lt_upper_bound. change 128 with (2 ^ 7). rewrite <- N.pow_add_r.
        eapply N.lt_le_trans; [exact Hnum|]. apply N.pow_le_mono_r; [done|lia].
      * replace (7 * (i + 1)) with (7 * i + 7) by lia. rewrite N.pow_add_r. change (2 ^ 7) with 128. nia.
      * rewrite Hs. run_ok. eexists. split; [done|]. cbn [app deserialize_u64_varint_loop read_u8]. run_ok.
        rewrite Hb1, Hb2, Hacc', Hd. cbn. do 2 f_equal.
        replace (7 * (i + 1)) with (7 * i + 7) by lia. rewrite N.pow_add_r. change (2 ^ 7) with 128.
        replace num with (128 * high + low) by dlia. lia.
Qed.
Lemma varint_roundtrip {E} num rest :
  num < 2 ^ 64 → ∃ bytes, serialize_u64_varint (E := E) num = Ok bytes ∧ deserialize_u64_varint (bytes ++ rest) = Ok (num, rest).
Proof.
  intros Hn. destruct (serialize_u64_varint_loop_run (E := E) 8 0 num 0 rest) as (bytes & Hs & Hd); [done..|].
  exists bytes. split; [done|]. unfold deserialize_u64_varint. rewrite Hd. by rewrite N.mul_1_r.
Qed.
Lemma length_write_be n x : length (write_be n x) = n.
Proof. unfold write_be. rewrite length_fmap, length_seqN. lia. Qed.
Lemma write_be_S n x : write_be (S n) x = write_be n (N.shiftr x 8) ++ [N.land x 255].
Proof.
  unfold write_be. replace (N.of_nat (S n)) with (N.of_nat n + 1) by lia. rewrite seqN_succ_r, fmap_app. f_equal.
  - apply list_fmap_ext. intros i j Hj%list_elem_of_lookup_2%elem_of_seqN. f_equal. rewrite N.shiftr_shiftr. f_equal. lia.
  - cbn. do 2 f_equal. replace (8 * _) with 0 by lia. apply N.shiftr_0_r.
Qed.
Lemma be_number_snoc l b : be_number (l ++ [b]) = be_number l * 256 + b.
Proof. unfold be_number. by rewrite foldl_app. Qed.
Lemma be_number_write n x : be_number (write_be n x) = x mod 2 ^ (8 * N.of_nat n).
Proof.
  revert x. induction n as [|n IH]; intros x; [by rewrite N.mod_1_r|].
  rewrite write_be_S, be_number_snoc, IH, N.shiftr_div_pow2. change 255 with (N.ones 8). rewrite N.land_ones.
  replace (8 * N.of_nat (S n)) with (8 + 8 * N.of_nat n) by lia. rewrite N.pow_add_r.
  rewrite N.Div0.mod_mul_r. lia.
Qed.
Lemma read_write_u64 x rest : x < 2 ^ 64 → read_u64_be (write_be 8 x ++ rest) = Ok (x, rest).
Proof.
  intros Hx. unfold read_u64_be. rewrite decide_False by (rewrite length_app, length_write_be; lia).
  rewrite take_app_length', drop_app_length' by (by rewrite length_write_be). by rewrite be_number_write, N.mod_small.
Qed.
Lemma read_write_u16 x rest : x < 2 ^ 16 → read_u16_le (write_u16_le x ++ rest) = Ok (x, rest).
Proof.
  intros Hx. unfold write_u16_le. cbn [app read_u16_le]. do 2 f_equal.
  change 255 with (N.ones 8). rewrite N.land_ones, N.shiftr_div_pow2. dlia.
Qed.
Lemma hash_to_vec_be h : hash_to_vec h = write_be 32 h.
Proof. done. Qed.
Lemma hash_from_to_vec h : hash_wf h → hash_from_slice (hash_to_vec h) = Some h.
Proof.
  intros Hh. rewrite hash_to_vec_be. unfold hash_from_slice, lenN. rewrite length_write_be. cbn.
  by rewrite be_number_write, N.mod_small.
Qed.

(** ** Bitmaps of children *)

Lemma count_ones_clear b i : N.testbit b i = true → count_ones b = 1 + count_ones (clear_bit b i).
Proof.
  unfold clear_bit. rewrite N.shiftl_1_l. revert i.
  induction b as [|b IH|b IH] using N.binary_ind; intros i; rewrite ?N.double_spec, ?N.succ_double_spec.
  - by rewrite N.bits_0.
  - destruct i as [|i] using N.peano_ind; [by rewrite N.testbit_even_0|].
    rewrite N.testbit_even_succ by lia. intros Hb. rewrite count_ones_double, (IH i Hb), N.pow_succ_r'.
    rewrite <- (count_ones_double (N.ldiff b (2 ^ i))). do 2 f_equal.
    apply N.bits_inj. intros j. destruct j as [|j] using N.peano_ind.
    + by rewrite N.ldiff_spec, !N.testbit_even_0.
    + by rewrite N.testbit_even_succ, !N.ldiff_spec, !N.testbit_even_succ by lia.
  - rewrite count_ones_succ_double. destruct i as [|i] using N.peano_ind.
    + intros _. f_equal. rewrite <- count_ones_double. f_equal. apply N.bits_inj. intros j.
      destruct j as [|j] using N.peano_ind.
      * by rewrite N.ldiff_spec, N.testbit_even_0, N.testbit_odd_0.
      * rewrite N.testbit_even_succ, N.ldiff_spec, N.testbit_odd_succ, N.pow2_bits_eqb by lia.
        rewrite (proj2 (N.eqb_neq 0 (N.succ j))) by lia. by rewrite andb_true_r.
    + rewrite N.testbit_odd_succ by lia. intros Hb. rewrite (IH i Hb), N.pow_succ_r'.
      rewrite <- (count_ones_succ_double (N.ldiff b (2 ^ i))). do 2 f_equal.
      apply N.bits_inj. intros j. destruct j as [|j] using N.peano_ind.
      * by rewrite N.ldiff_spec, N.testbit_even_0, !N.testbit_odd_0.
      * by rewrite N.testbit_odd_succ, !N.ldiff_spec, N.testbit_even_succ, N.testbit_odd_succ by lia.
Qed.
Lemma clear_bit_spec b i j : N.testbit (clear_bit b i) j = N.testbit b j && negb (i =? j).
Proof. unfold clear_bit. by rewrite N.ldiff_spec, N.shiftl_1_l, N.pow2_bits_eqb. Qed.
Lemma land_bit b i : negb (N.land b (N.shiftl 1 i) =? 0) = N.testbit b i.
Proof.
  rewrite N.shiftl_1_l. destruct (N.testbit b i) eqn:Hb.
  - apply negb_true_iff, N.eqb_neq. intros Hz. assert (N.testbit (N.land b (2 ^ i)) i = true) as Ht.
    { by rewrite N.land_spec, Hb, N.pow2_bits_true. }
    by rewrite Hz, N.bits_0 in Ht.
  - apply negb_false_iff, N.eqb_eq, N.bits_inj. intros j. rewrite N.land_spec, N.pow2_bits_eqb, N.bits_0.
    destruct (N.eqb_spec i j) as [<-|]; [by rewrite Hb|by rewrite andb_false_r].
Qed.

(** ** Children and nodes *)

(** What fits the stored form. *)
Definition child_ok (c : Child) : Prop :=
  ch_version c < 2 ^ 64 ∧ hash_wf (ch_hash c) ∧
  match ch_node_type c with NtLeaf => True | NtInternal n => n < 2 ^ 64 | NtNull => False end.

Lemma nibble_from_run {E} n : n < 16 → nibble_from (E := E) n = Ok n.
Proof. intros Hn. unfold nibble_from. by rewrite (proj2 (N.ltb_lt n 16)). Qed.
Lemma node_type_roundtrip {E} c rest :
  child_ok c →
  ∃ nt, (match ch_node_type c with NtLeaf => Ok [] | NtInternal n => serialize_u64_varint n | NtNull => Panic end : outcome E (list N)) = Ok nt ∧
    (if child_is_leaf c then Ok (NtLeaf, nt ++ rest)
     else '(leaf_count, val) ← deserialize_u64_varint (nt ++ rest); Ok (NtInternal leaf_count, val)) = Ok (ch_node_type c, rest).
Proof.
  intros (_ & _ & Ht). unfold child_is_leaf. destruct (ch_node_type c) as [| |n]; [by exists []|done|].
  destruct (varint_roundtrip (E := E) n rest Ht) as (nt & Hs & Hd). exists nt. split; [done|]. by rewrite Hd.
Qed.
Lemma length_hash_to_vec h : length (hash_to_vec h) = 32%nat.
Proof. unfold hash_to_vec. by rewrite length_fmap, length_seqN. Qed.
Lemma child_roundtrip {E} eb c rest :
  child_ok c →
  ∃ bytes, serialize_child (E := E) c = Ok bytes ∧ deserialize_child eb (child_is_leaf c) (bytes ++ rest) = Ok (c, rest).
Proof.
  intros Hok. destruct (node_type_roundtrip (E := E) c rest Hok) as (nt & Hnt & Hd). destruct Hok as (Hv & Hh & _).
  destruct (varint_roundtrip (E := E) (ch_version c) (hash_to_vec (ch_hash c) ++ nt ++ rest) Hv) as (vs & Hs & Hdv).
  unfold serialize_child. rewrite Hs. run_ok. rewrite Hnt. run_ok. eexists. split; [done|].
  unfold deserialize_child. rewrite <- !app_assoc, Hdv. run_ok.
  pose proof (length_hash_to_vec (ch_hash c)) as Hl. pose proof (hash_from_to_vec _ Hh) as Hft.
  generalize dependent (hash_to_vec (ch_hash c)). intros hv _ Hl Hft.
  rewrite (proj2 (N.leb_le 32 _)) by (unfold lenN; rewrite !length_app; lia). run_ok.
  rewrite take_app_length', drop_app_length' by done. rewrite Hft. run_ok. rewrite Hd. run_ok. by destruct c.
Qed.
Lemma children_roundtrip {E} n eb lb children acc rest :
  N.to_nat (count_ones eb) = n →
  (∀ j, N.testbit eb j = true → j < 16 ∧ ∃ c, children !! j = Some c ∧ child_ok c ∧ N.testbit lb j = child_is_leaf c) →
  ∃ bytes acc', serialize_children (E := E) n eb children = Ok bytes ∧
    deserialize_children n eb lb acc (bytes ++ rest) = Ok acc' ∧
    ∀ j, acc' !! j = if N.testbit eb j then children !! j else acc !! j.
Proof.
  revert eb acc. induction n as [|n IH]; intros eb acc Hn Hbits.
  - assert (eb = 0) as -> by (apply count_ones_0; lia). exists [], acc. split_and!; [done|done|].
    intros j. by rewrite N.bits_0.
  - assert (eb ≠ 0) as Hne by (by intros ->). destruct (trailing_zeros_spec 16 eb Hne) as [Hbit _].
    set (i := trailing_zeros 16 eb) in *. destruct (Hbits i Hbit) as (Hi & c & Hc & Hok & Hl).
    pose proof (count_ones_clear eb i Hbit) as Hcnt.
    destruct (IH (clear_bit eb i) (<[i := c]> acc)) as (bytes & acc' & Hs & Hd & Hacc'); [lia| |].
    { intros j. rewrite clear_bit_spec, andb_true_iff. intros [? _]. by apply Hbits. }
    destruct (child_roundtrip (E := E) eb c (bytes ++ rest) Hok) as (cs & Hcs & Hcd).
    exists (cs ++ bytes), acc'. cbn [serialize_children deserialize_children]. fold i.
    rewrite nibble_from_run by done. run_ok. rewrite Hc. run_ok. rewrite Hcs. run_ok. rewrite Hs. run_ok.
    split; [done|]. rewrite land_bit, Hl, <- app_assoc, Hcd. run_ok.
    rewrite nibble_from_run by done. run_ok. split; [done|].
    intros j. rewrite Hacc', clear_bit_spec. destruct (N.eqb_spec i j) as [<-|Hij].
    + by rewrite andb_false_r, lookup_insert_eq, Hbit.
    + by rewrite andb_true_r, lookup_insert_ne.
Qed.

(** A node that [InternalNode::new] accepts and whose numbers have their width. *)
Definition internal_ok (n : InternalNode) : Prop :=
  map_Forall (λ i c, i < 16 ∧ child_ok c) (in_children n) ∧ internal_node_new_impl (in_children n) = Ok n.

Lemma bitmap_bound f m b : map_Forall (λ i (_ : Child), i < 16) m → bitmap_of f m b → b < 2 ^ 16.
Proof.
  intros Hm Hb. destruct (N.lt_ge_cases b (2 ^ 16)) as [|Hge]; [done|]. exfalso.
  destruct (proj1 (Hb (N.log2 b))) as (c & Hc%Hm & _).
  - apply N.bit_log2. intros ->. by apply Hge.
  - apply (N.lt_irrefl 16). eapply N.le_lt_trans; [|exact Hc]. by apply (N.log2_le_mono (2 ^ 16) b).
Qed.
Lemma bitmap_land m eb lb : bitmap_of (λ _, true) m eb → bitmap_of child_is_leaf m lb → N.land eb lb = lb.
Proof.
  intros He Hl. apply N.bits_inj. intros j. rewrite N.land_spec. apply eq_true_iff_eq. rewrite andb_true_iff.
  split; [by intros []|]. intros Hj. split; [|done]. apply Hl in Hj as (c & Hc & _). apply He. eauto.
Qed.
Lemma internal_codec_run {E} n :
  internal_ok n → ∃ bytes, internal_serialize (E := E) n = Ok bytes ∧ internal_deserialize bytes = Ok n.
Proof.
  intros [Hch Hnew]. destruct (generate_bitmaps_run (E := E) n) as (eb & lb & Hg & He & Hl).
  assert (map_Forall (λ i (_ : Child), i < 16) (in_children n)) as H16 by (intros i c Hc; by apply (Hch i c)).
  destruct (children_roundtrip (E := E) (N.to_nat (count_ones eb)) eb lb (in_children n) ∅ [])
    as (bytes & acc & Hs & Hd & Hacc); [done| |].
  { intros j Hj. apply He in Hj as (c & Hc & _). destruct (Hch j c Hc). split; [done|]. exists c. split_and!; [done..|].
    apply eq_true_iff_eq. rewrite (Hl j). naive_solver. }
  assert (acc = in_children n) as ->.
  { apply map_eq. intros j. rewrite Hacc. destruct (N.testbit eb j) eqn:Hj; [done|].
    destruct (in_children n !! j) as [c|] eqn:Hc; [|done]. by rewrite (proj2 (He j)) in Hj by eauto. }
  unfold internal_serialize. rewrite Hg. run_ok. rewrite Hs. run_ok. eexists. split; [done|].
  unfold internal_deserialize, internal_parse. rewrite read_write_u16 by by eapply bitmap_bound. run_ok.
  rewrite read_write_u16 by by eapply bitmap_bound. run_ok. rewrite app_nil_r in Hd.
  destruct (eb =? 0) eqn:Hz.
  { apply (bitmap_zero _ _ He) in Hz. unfold internal_node_new_impl in Hnew. rewrite Hz in Hnew. done. }
  rewrite (bitmap_land _ _ _ He Hl), N.eqb_refl. run_ok. rewrite Hd. run_ok. done.
Qed.

(** ** Node keys *)

Definition node_key_ok (key : NodeKey) : Prop := nk_version key < 2 ^ 64 ∧ np_wf (nk_nibble_path key).

Lemma node_key_decode_encode key : node_key_ok key → node_key_decode (node_key_encode key) = Ok key.
Proof.
  destruct key as [v [num bytes]]. intros [Hv (Hn & Hlen & Hb & Hodd)]. cbn in *. unfold ROOT_NIBBLE_HEIGHT in *.
  unfold node_key_decode, node_key_encode. cbn [nk_version nk_nibble_path np_num_nibbles np_bytes].
  rewrite read_write_u64 by done. run_ok. rewrite N.mod_small by lia. cbn [app read_u8]. run_ok.
  rewrite (proj2 (N.leb_le num ROOT_NIBBLE_HEIGHT)) by done. run_ok. rewrite Hlen, N.eqb_refl. run_ok.
  unfold np_new_even, np_new_odd, ROOT_NIBBLE_HEIGHT. change (64 / 2) with 32.
  rewrite (proj2 (N.leb_le (lenN bytes) 32)) by dlia. run_ok.
  destruct (N.eqb_spec (num mod 2) 0).
  - run_ok. by replace (lenN bytes * 2) with num by dlia.
  - destruct (last bytes) as [b|] eqn:Hlast.
    + run_ok. rewrite (Hodd ltac:(dlia) b eq_refl). run_ok.
      by replace (lenN bytes * 2 - 1) with num by dlia.
    + apply last_None in Hlast as ->. unfold lenN in Hlen. cbn in Hlen. dlia.
Qed.
Definition is_byte (b : N) : Prop := b < 256.
Lemma be_number_bound l : Forall is_byte l → be_number l < 2 ^ (8 * N.of_nat (length l)).
Proof.
  induction l as [|b l IH] using rev_ind; [done|]. intros [Hl [Hb _]%Forall_cons]%Forall_app.
  rewrite be_number_snoc, length_app. cbn [length]. unfold is_byte in Hb.
  replace (8 * N.of_nat (length l + 1)) with (8 * N.of_nat (length l) + 8) by lia.
  rewrite N.pow_add_r. change (2 ^ 8) with 256. specialize (IH Hl).
  generalize dependent (2 ^ (8 * N.of_nat (length l))). intros. lia.
Qed.
Lemma write_be_number l : Forall is_byte l → write_be (length l) (be_number l) = l.
Proof.
  induction l as [|b l IH] using rev_ind; [done|]. intros [Hl [Hb _]%Forall_cons]%Forall_app.
  rewrite be_number_snoc, length_app. cbn [length]. unfold is_byte in Hb. rewrite Nat.add_1_r, write_be_S.
  change 255 with (N.ones 8). rewrite N.land_ones, N.shiftr_div_pow2. change (2 ^ 8) with 256.
  replace ((be_number l * 256 + b) / 256) with (be_number l) by dlia.
  replace ((be_number l * 256 + b) mod 256) with b by dlia. by rewrite IH.
Qed.
Lemma length_le_8 {A} (l : list A) : ¬ (length l < 8)%nat → length (take 8 l) = 8%nat.
Proof. intros. rewrite length_take. lia. Qed.
Lemma node_key_encode_decode val key :
  Forall is_byte val → node_key_decode val = Ok key → node_key_ok key ∧ node_key_encode key = val.
Proof.
  intros Hb. unfold node_key_decode, read_u64_be. destruct (decide _) as [|Hl]; [done|]. run_ok.
  pose proof (length_le_8 _ Hl) as H8. rewrite <- (take_drop 8 val) in Hb. apply Forall_app in Hb as [Hb1 Hb2].
  destruct (drop 8 val) as [|num bytes] eqn:Hd; [done|]. apply Forall_cons in Hb2 as [Hnum Hbytes].
  cbn [read_u8]. run_ok. intros Hk.
  destruct (N.leb_spec num ROOT_NIBBLE_HEIGHT) as [Hn|]; [|done]. cbn in Hk.
  destruct (N.eqb_spec ((num + 1) / 2) (lenN bytes)) as [Hlen|]; [|done]. cbn in Hk.
  pose proof (be_number_bound _ Hb1) as Hv. rewrite H8 in Hv. unfold ROOT_NIBBLE_HEIGHT in Hn.
  assert (∀ p, np_num_nibbles p = num → np_bytes p = bytes →
    (num mod 2 = 1 → ∀ b, last bytes = Some b → N.land b 15 = 0) → key = mkNodeKey (be_number (take 8 val)) p →
    node_key_ok key ∧ node_key_encode key = val) as Hfinish.
  { intros [? ?] Hp1 Hp2 Hodd ->. cbn in Hp1, Hp2. subst. split; [|]; cbn.
    - split; [done|]. split_and!; cbn; auto.
    - unfold node_key_encode. cbn [nk_version nk_nibble_path np_num_nibbles np_bytes].
      rewrite N.mod_small by (unfold is_byte in Hnum; lia). rewrite <- H8 at 1. rewrite write_be_number by done.
      rewrite <- (take_drop 8 val) at 2. by rewrite Hd. }
  unfold np_new_even, np_new_odd, ROOT_NIBBLE_HEIGHT in Hk. change (64 / 2) with 32 in Hk.
  rewrite (proj2 (N.leb_le (lenN bytes) 32)) in Hk by dlia.
  destruct (N.eqb_spec (num mod 2) 0).
  - cbn in Hk. simplify_eq. eapply Hfinish; [| | |done]; cbn; [dlia|done|dlia].
  - destruct (last bytes) as [b|] eqn:Hlast; [|done]. cbn in Hk.
    destruct (N.eqb_spec (N.land b 15) 0); [|done]. cbn in Hk.
    simplify_eq. eapply Hfinish; [| | |done]; cbn; [dlia|done|]. naive_solver.
Qed.
Lemma node_key_decode_no_panic val : node_key_decode val ≠ Panic.
Proof.
  unfold node_key_decode, read_u64_be. destruct (decide _) as [|Hl]; [done|]. run_ok.
  destruct (drop 8 val) as [|num bytes]; [done|]. cbn [read_u8]. run_ok.
  destruct (N.leb_spec num ROOT_NIBBLE_HEIGHT) as [Hn|]; [|done]. run_ok.
  destruct (N.eqb_spec ((num + 1) / 2) (lenN bytes)) as [Hlen|]; [|done]. run_ok.
  unfold np_new_even, np_new_odd, ROOT_NIBBLE_HEIGHT in *. change (64 / 2) with 32.
  rewrite (proj2 (N.leb_le (lenN bytes) 32)) by dlia. destruct (N.eqb_spec (num mod 2) 0); [done|].
  destruct (last bytes) as [b|] eqn:Hlast.
  - run_ok. by destruct (N.land b 15 =? 0).
  - apply last_None in Hlast as ->. unfold lenN in Hlen. cbn in Hlen. dlia.
Qed.

(** The order of byte strings, RocksDB's. *)
Fixpoint bytes_compare (l1 l2 : list N) : comparison :=
  match l1, l2 with
  | [], [] => Eq
  | [], _ :: _ => Lt
  | _ :: _, [] => Gt
  | a :: l1, b :: l2 => match a ?= b with Eq => bytes_compare l1 l2 | c => c end
  end.
(** The derived orders, field by field in the order of declaration. *)
Definition nibble_path_compare (p1 p2 : NibblePath) : comparison :=
  match np_num_nibbles p1 ?= np_num_nibbles p2 with Eq => bytes_compare (np_bytes p1) (np_bytes p2) | c => c end.
Definition node_key_compare (k1 k2 : NodeKey) : comparison :=
  match nk_version k1 ?= nk_version k2 with
  | Eq => nibble_path_compare (nk_nibble_path k1) (nk_nibble_path k2)
  | c => c
  end.
Lemma bytes_compare_app l1 l2 r1 r2 :
  length l1 = length l2 →
  bytes_compare (l1 ++ r1) (l2 ++ r2) = match bytes_compare l1 l2 with Eq => bytes_compare r1 r2 | c => c end.
Proof.
  revert l2. induction l1 as [|a l1 IH]; intros [|b l2] Hl; try done. cbn in *. destruct (a ?= b); auto.
Qed.
Lemma bytes_compare_number l1 l2 :
  length l1 = length l2 → Forall is_byte l1 → Forall is_byte l2 →
  bytes_compare l1 l2 = (be_number l1 ?= be_number l2).
Proof.
  revert l2. induction l1 as [|a l1 IH] using rev_ind; intros l2 Hl H1 H2.
  { destruct l2; [done|done]. }
  destruct l2 as [|b l2 _] using rev_ind; [rewrite length_app in Hl; cbn in Hl; lia|].
  rewrite !length_app in Hl. cbn in Hl.
  apply Forall_app in H1 as [H1 [Ha _]%Forall_cons], H2 as [H2 [Hb _]%Forall_cons]. unfold is_byte in Ha, Hb.
  rewrite bytes_compare_app, IH, !be_number_snoc by (done || lia). cbn.
  destruct (N.compare_spec (be_number l1) (be_number l2)) as [->| |];
    [destruct (N.compare_spec a b) as [->| |]|..]; symmetry; rewrite ?N.compare_eq_iff, ?N.compare_lt_iff, ?N.compare_gt_iff; lia.
Qed.
Lemma write_be_bytes n x : Forall is_byte (write_be n x).
Proof.
  unfold write_be. apply Forall_fmap, Forall_true. intros i. unfold is_byte. cbn.
  change 255 with (N.ones 8). rewrite N.land_ones. apply N.mod_lt. done.
Qed.
Lemma node_key_order k1 k2 :
  node_key_ok k1 → node_key_ok k2 → bytes_compare (node_key_encode k1) (node_key_encode k2) = node_key_compare k1 k2.
Proof.
  destruct k1 as [v1 [n1 b1]], k2 as [v2 [n2 b2]]. intros [Hv1 (Hn1 & _)] [Hv2 (Hn2 & _)]. cbn in *.
  unfold ROOT_NIBBLE_HEIGHT in *. unfold node_key_encode. cbn [nk_version nk_nibble_path np_num_nibbles np_bytes].
  rewrite bytes_compare_app, bytes_compare_number by (rewrite ?length_write_be; done || apply write_be_bytes).
  rewrite !be_number_write, !N.mod_small by (done || lia). done.
Qed.

(** ** Arbitrary bytes *)

Definition leaf_total (l : list Child) : N :=
  foldr (λ c n, match ch_node_type c with NtLeaf => 1 | NtInternal m => m | NtNull => 0 end + n) 0 l.
Lemma sum_leaf_counts_total {E} l :
  Forall (λ c, ch_node_type c ≠ NtNull) l →
  sum_leaf_counts (E := E) l = if leaf_total l <? 2 ^ 64 then Ok (leaf_total l) else Panic.
Proof.
  induction 1 as [|c l Hc Hl IH]; [done|]. cbn [sum_leaf_counts leaf_total foldr]. fold (leaf_total l). rewrite IH.
  unfold child_leaf_count. destruct (ch_node_type c); [|done|]; run_ok;
    (destruct (N.ltb_spec (leaf_total l) (2 ^ 64)); run_ok;
     [unfold u64_add, u64_checked_add; by destruct (_ <? _)|by rewrite (proj2 (N.ltb_ge _ _)) by lia]).
Qed.
Lemma lor_bound a b k : a < 2 ^ k → b < 2 ^ k → N.lor a b < 2 ^ k.
Proof.
  intros Ha Hb. rewrite <- (N.mod_small a (2 ^ k)), <- (N.mod_small b (2 ^ k)) by done.
  rewrite <- !N.land_ones, <- N.land_lor_distr_l, N.land_ones. by apply N.mod_lt, N.pow_nonzero.
Qed.
Lemma varint_loop_safe n i num val :
  num < 2 ^ 64 → Forall is_byte val →
  match deserialize_u64_varint_loop n i num val with
  | Ok (x, rest) => x < 2 ^ 64 ∧ Forall is_byte rest
  | Err _ => True
  | Panic => False
  end.
Proof.
  assert (∀ x k, u64_shl x k < 2 ^ 64) as Hshl by (intros; unfold u64_shl; by apply N.mod_lt).
  revert i num val. induction n as [|n IH]; intros i num [|b val] Hnum Hval; try done;
    apply Forall_cons in Hval as [_ Hval]; cbn [deserialize_u64_varint_loop read_u8]; run_ok.
  - split; [|done]. by apply lor_bound.
  - destruct (_ =? 0); [split; [|done]|apply IH; [|done]]; by apply lor_bound.
Qed.
Lemma deserialize_child_safe eb is_leaf val :
  Forall is_byte val →
  match deserialize_child eb is_leaf val with
  | Ok (c, rest) => child_ok c ∧ Forall is_byte rest
  | Err _ => True
  | Panic => False
  end.
Proof.
  intros Hval. unfold deserialize_child, deserialize_u64_varint.
  pose proof (varint_loop_safe 8 0 0 val eq_refl Hval) as Hv.
  destruct (deserialize_u64_varint_loop 8 0 0 val) as [[v rest]|e|]; [|done|done]. destruct Hv as [Hv Hrest]. run_ok.
  destruct (N.leb_spec 32 (lenN rest)) as [Hl|]; [|done]. run_ok.
  assert (length (take 32 rest) = 32%nat) as H32 by (unfold lenN in Hl; rewrite length_take; lia).
  pose proof (Forall_take _ 32 _ Hrest) as Ht. apply be_number_bound in Ht. rewrite H32 in Ht.
  unfold hash_from_slice. unfold lenN at 1. rewrite H32. run_ok. apply (Forall_drop _ 32) in Hrest.
  destruct is_leaf; run_ok; [done|].
  pose proof (varint_loop_safe 8 0 0 (drop 32 rest) eq_refl Hrest) as Hn.
  destruct (deserialize_u64_varint_loop 8 0 0 (drop 32 rest)) as [[m rest']|e|]; [|done|done].
  destruct Hn. run_ok. done.
Qed.
Lemma clear_bit_bound b i k : b < 2 ^ k → clear_bit b i < 2 ^ k.
Proof.
  intros Hb. unfold clear_bit. rewrite <- (N.mod_small b (2 ^ k)) by done.
  assert (N.ldiff (b mod 2 ^ k) (N.shiftl 1 i) = N.ldiff b (N.shiftl 1 i) mod 2 ^ k) as ->.
  { rewrite <- !N.land_ones. apply N.bits_inj. intros j. rewrite !N.land_spec, !N.ldiff_spec, N.land_spec.
    by destruct (N.testbit b j), (N.testbit (N.ones k) j), (N.testbit (N.shiftl 1 i) j). }
  by apply N.mod_lt, N.pow_nonzero.
Qed.
Lemma testbit_bound b i k : b < 2 ^ k → N.testbit b i = true → i < k.
Proof.
  intros Hb Ht. destruct (N.lt_ge_cases i k) as [|Hge]; [done|]. exfalso.
  rewrite <- (N.mod_small b (2 ^ k)), N.mod_pow2_bits_high in Ht by done. done.
Qed.
Lemma deserialize_children_safe n eb lb acc val :
  N.to_nat (count_ones eb) = n → eb < 2 ^ 16 → Forall is_byte val → map_Forall (λ i c, i < 16 ∧ child_ok c) acc →
  match deserialize_children n eb lb acc val with
  | Ok children => map_Forall (λ i c, i < 16 ∧ child_ok c) children
  | Err _ => True
  | Panic => False
  end.
Proof.
  revert eb acc val. induction n as [|n IH]; intros eb acc val Hn Heb Hval Hacc; cbn [deserialize_children].
  - assert (eb = 0) as -> by (apply count_ones_0; lia). done.
  - assert (eb ≠ 0) as Hne by (by intros ->). destruct (trailing_zeros_spec 16 eb Hne) as [Hbit _].
    set (i := trailing_zeros 16 eb) in *. pose proof (testbit_bound _ _ _ Heb Hbit) as Hi.
    pose proof (deserialize_child_safe eb (negb (N.land lb (N.shiftl 1 i) =? 0)) val Hval) as Hc.
    destruct (deserialize_child _ _ _) as [[c rest]|e|]; [|done|done]. destruct Hc as [Hc Hrest]. run_ok.
    rewrite nibble_from_run by done. run_ok. apply IH; [|by apply clear_bit_bound|done|by apply map_Forall_insert_2].
    rewrite (count_ones_clear eb i Hbit) in Hn. lia.
Qed.
Lemma read_u16_safe data :
  Forall is_byte data →
  match read_u16_le data with Ok (x, rest) => x < 2 ^ 16 ∧ Forall is_byte rest | Err _ => True | Panic => False end.
Proof.
  intros Hd. destruct data as [|a [|b data]]; [done..|]. cbn.
  apply Forall_cons in Hd as [Ha Hd]. apply Forall_cons in Hd as [Hb Hd]. unfold is_byte in Ha, Hb. split; [lia|done].
Qed.
Lemma internal_parse_safe data :
  Forall is_byte data →
  match internal_parse data with
  | Ok children => map_Forall (λ i c, i < 16 ∧ child_ok c) children
  | Err _ => True
  | Panic => False
  end.
Proof.
  intros Hd. unfold internal_parse. pose proof (read_u16_safe data Hd) as He.
  destruct (read_u16_le data) as [[eb val]|e|]; [|done|done]. destruct He as [He Hval]. run_ok.
  pose proof (read_u16_safe val Hval) as Hl.
  destruct (read_u16_le val) as [[lb val']|e|]; [|done|done]. destruct Hl as [Hl Hval']. run_ok.
  destruct (eb =? 0); [done|]. destruct (negb _); [done|]. run_ok.
  by apply deserialize_children_safe.
Qed.
Lemma new_impl_panic children :
  map_Forall (λ i c, i < 16 ∧ child_ok c) children →
  internal_node_new_impl children = Panic ↔ 2 ^ 64 <= leaf_total ((map_to_list children).*2).
Proof.
  intros Hch. assert (∀ i c, (i, c) ∈ map_to_list children → child_ok c) as Hin.
  { intros i c Hc%elem_of_map_to_list. by apply (Hch i c). }
  unfold internal_node_new_impl. rewrite sum_leaf_counts_total.
  2: { apply Forall_fmap, Forall_forall. intros [i c] Hc%Hin. destruct Hc as (_ & _ & Hc). cbn. by destruct (ch_node_type c). }
  destruct (bool_decide_reflect (children = ∅)) as [->|]; [by rewrite map_to_list_empty|]. run_ok.
  destruct (map_to_list children) as [|[i c] [|[j d] l]]; cbn [fmap list_fmap]; run_ok.
  - by destruct (N.ltb_spec (leaf_total []) (2 ^ 64)).
  - destruct (Hin i c ltac:(by left)) as (_ & _ & Hc). unfold child_is_leaf. cbn.
    destruct (ch_node_type c); [done|done|]. cbn. rewrite N.add_0_r.
    rewrite (proj2 (N.ltb_lt _ _)) by done. cbn. split; [done|lia].
  - cbn [snd]. generalize (leaf_total (c :: d :: l.*2)). intros t.
    destruct (N.ltb_spec t (2 ^ 64)); cbn; (split; [done|intros; done || lia]).
Qed.

Section node_theorems.
Context {K : Type} `{!Bcs (LeafNode K) (list N)}.

(** What [Node::encode] is asked to write: nodes the tree builds, and leaves BCS can encode. *)
Definition node_ok (node : Node K) : Prop :=
  match node with
  | NodeInternal n => internal_ok n
  | NodeLeaf l => is_ok (to_bytes l)
  | NodeNull => True
  end.

(** C28: What is stored can be read back, and sorts as it does in memory. A node whose numbers have their width is
    encoded without an error or a panic and decodes to itself. A node key decodes from its encoding, the bytes that
    decode are exactly the encodings, no bytes make the key decoder panic, and comparing two encodings byte by byte,
    as the database does, gives the derived order of the keys: by version, then depth, then path. *)
Theorem node_codec_correct :
  (∀ node, node_ok node → ∃ bytes, node_encode node = Ok bytes ∧ node_decode bytes = Ok node) ∧
  (∀ key, node_key_ok key → node_key_decode (node_key_encode key) = Ok key) ∧
  (∀ val, Forall is_byte val → node_key_decode val ≠ Panic ∧
     ∀ key, node_key_decode val = Ok key → node_key_ok key ∧ node_key_encode key = val) ∧
  (∀ k1 k2, node_key_ok k1 → node_key_ok k2 →
     bytes_compare (node_key_encode k1) (node_key_encode k2) = node_key_compare k1 k2).
Proof.
  split_and!.
  - intros [n|l|]; cbn [node_ok node_encode]; [| |by eexists].
    + intros Hn. destruct (internal_codec_run (E := anyhow) n Hn) as (bytes & -> & Hd). run_ok.
      eexists. split; [done|]. cbn [node_decode]. by rewrite Hd.
    + intros Hok. destruct (to_bytes l) as [bytes| |] eqn:Hb; [|done|done]. run_ok.
      eexists. split; [done|]. cbn [node_decode]. by rewrite (from_to_bytes _ _ Hb).
  - apply node_key_decode_encode.
  - intros val Hval. split; [apply node_key_decode_no_panic|]. intros key. by apply node_key_encode_decode.
  - apply node_key_order.
Qed.

(** [Node::decode] on arbitrary bytes. When [bcs::from_bytes] does not panic, the decoder panics on exactly the
    inputs with the internal tag whose children parse and whose leaf counts sum to [2 ^ 64] or more; every other byte
    string gives a node or an error. *)
Theorem node_decode_panics_iff (Hbcs : ∀ bs : list N, from_bytes (A := LeafNode K) bs ≠ Panic) val :
  Forall is_byte val →
  node_decode (K := K) val = Panic ↔
  ∃ data children, val = 2 :: data ∧ internal_parse data = Ok children ∧
    2 ^ 64 <= leaf_total ((map_to_list children).*2).
Proof.
  intros Hval. split.
  - destruct val as [|tag data]; [done|]. apply Forall_cons in Hval as [_ Hdata]. unfold node_decode.
    destruct tag as [|[[p|p|]|[p|p|]|]]; try done.
    + unfold internal_deserialize. pose proof (internal_parse_safe data Hdata) as Hsafe.
      destruct (internal_parse data) as [children|e|] eqn:Hp; [|done|done]. run_ok. intros Hn. exists data, children.
      split_and!; [done|done|]. apply new_impl_panic; [done|]. by destruct (internal_node_new_impl children).
    + destruct (from_bytes data) eqn:Hb; try done. by destruct (Hbcs data).
  - intros (data & children & -> & Hp & Ht). apply Forall_cons in Hval as [_ Hdata].
    pose proof (internal_parse_safe data Hdata) as Hsafe. rewrite Hp in Hsafe.
    cbn [node_decode]. unfold internal_deserialize. rewrite Hp. run_ok. by rewrite (proj2 (new_impl_panic children Hsafe) Ht).
Qed.
End node_theorems.

(** ** Samples *)

#[local] Instance sample_leaf_bcs : Bcs (LeafNode N) (list N).
Proof.
  refine {| to_bytes l := Ok [ln_account_key l; ln_value_hash l; (ln_value_index l).1; (ln_value_index l).2];
            from_bytes bs := match bs with
                             | [a; h; k; v] => Ok (mkLeafNode a h (k, v))
                             | _ => Err (fmt "unexpected end of input" []) end |}.
  by intros [a h [k v]] bs [= <-].
Defined.

(** Two internal children of [u64::MAX] leaves each. *)
Definition overflowing_child : list N := 0 :: replicate 32 7 ++ replicate 9 255.
Definition overflowing_node : list N := [2; 3; 0; 0; 0] ++ overflowing_child ++ overflowing_child.
Definition sample_child : Child := mkChild 5 3 (NtInternal 300).
Definition sample_internal : InternalNode := mkInternalNode {[ 4 := sample_child; 9 := mkChild 6 2 NtLeaf ]} 301.

Lemma node_codec_correct_witness :
  node_key_decode (node_key_encode (mkNodeKey 258 (mkNibblePath 3 [18; 48]))) = Ok (mkNodeKey 258 (mkNibblePath 3 [18; 48])) ∧
  ∃ bytes, node_encode (NodeInternal sample_internal) = Ok bytes ∧ node_decode bytes = Ok (NodeInternal sample_internal).
Proof.
  destruct (node_codec_correct (K := N)) as (Hnode & Hkey & _). split.
  - apply Hkey. split; [reflexivity|]. split_and!; [vm_compute; discriminate|reflexivity|repeat constructor|].
    intros _ b [= <-]. reflexivity.
  - apply Hnode. split; [|reflexivity]. apply map_Forall_insert_2; [split; [reflexivity|split_and!; reflexivity]|].
    apply map_Forall_insert_2; [split; [reflexivity|split_and!; reflexivity || exact I]|]. apply map_Forall_empty.
Defined.

Lemma node_decode_panics_iff_witness :
  node_decode (K := N) overflowing_node = Panic ∧ (∀ e, node_decode (K := N) [2; 0; 0; 0; 0] = Err e → e = node_decode_error NoChildren).
Proof.
  split.
  - apply (node_decode_panics_iff (K := N)).
    + intros bs. cbn. by repeat (destruct bs as [|? bs]; try done).
    + by repeat constructor.
    + eexists _, _. split; [reflexivity|]. split; [vm_compute; reflexivity|]. vm_compute. discriminate.
  - intros e He. injection He as <-. reflexivity.
Defined.
