(* ===== verification/Jmt.v ===== *)
(** * The Jellyfish Merkle tree (storage/jellyfish-merkle/src/lib.rs)

    A versioned map kept as a tree of nodes in a store that is only added to: an update
    returns the new nodes of its version and the old nodes it makes stale, a read returns a
    value with its proof. The reference is a finite map from keys to values. *)
From S2P Require Import Prelude Crypto Nibble SparseMerkle JmtNode.
Local Open Scope N_scope.

Definition MAX_PARALLELIZABLE_DEPTH : N := 2.

Record StaleNodeIndex := mkStaleNodeIndex { stale_since_version : Version; stale_node_key : NodeKey }.
Record TreeUpdateBatch (K : Type) := mkTreeUpdateBatch {
  node_batch : list (list (NodeKey * Node K));
  stale_node_index_batch : list (list StaleNodeIndex);
  num_new_leaves : N;
  num_stale_leaves : N;
}.
Arguments mkTreeUpdateBatch {K}.
Arguments node_batch {K}.
Arguments stale_node_index_batch {K}.
Arguments num_new_leaves {K}.
Arguments num_stale_leaves {K}.

(** The calls of [f] one after the other, their results in order. *)
Fixpoint mmap {S E A B} (f : A → M S E B) (l : list A) : M S E (list B) :=
  match l with
  | [] => mret []
  | x :: l => y ← f x; ys ← mmap f l; mret (y :: ys)
  end.

(** ** [NibbleRangeIterator] *)
Section ranges.
Context {A : Type} (sorted_kvs : list (HashValue * A)) (nibble_idx : N).

Definition nibble_at {E} (i : nat) : outcome E N :=
  kv ← expect (sorted_kvs !! i); Ok (hash_nibble kv.1 nibble_idx).

(** The last index with a nibble that is not above [cur_nibble]: the range at least halves. *)
Fixpoint last_index_loop {E} (fuel : nat) (cur_nibble : N) (i j : nat) : outcome E nat :=
  match fuel with
  | O => Ok i
  | S fuel =>
      if (i <? j)%nat then
        let mid := (j - (j - i) / 2)%nat in
        nibble ← nibble_at mid;
        if cur_nibble <? nibble then last_index_loop fuel cur_nibble i (mid - 1)
        else last_index_loop fuel cur_nibble mid j
      else Ok i
  end.
Definition nibble_range_next {E} (pos : nat) : outcome E (option (nat * nat) * nat) :=
  if (pos <? length sorted_kvs)%nat then
    cur_nibble ← nibble_at pos;
    i ← last_index_loop (length sorted_kvs) cur_nibble pos (length sorted_kvs - 1);
    Ok (Some (pos, i), (i + 1)%nat)
  else Ok (None, pos).
Fixpoint nibble_ranges_loop {E} (fuel pos : nat) : outcome E (list (nat * nat)) :=
  match fuel with
  | O => Ok []
  | S fuel =>
      '(o, pos) ← nibble_range_next pos;
      match o with
      | Some range => rest ← nibble_ranges_loop fuel pos; Ok (range :: rest)
      | None => Ok []
      end
  end.
(** [NibbleRangeIterator::new] and the ranges it yields *)
Definition nibble_ranges {E} : outcome E (list (nat * nat)) :=
  _ ← rassert (nibble_idx <? ROOT_NIBBLE_HEIGHT);
  nibble_ranges_loop (S (length sorted_kvs)) 0.
End ranges.

(** [&kvs[left..=right]] *)
Definition slice {E A} (l : list A) (left right : nat) : outcome E (list A) :=
  if ((left <=? right + 1) && (right <? length l))%nat
  then Ok (take (right + 1 - left) (drop left l)) else Panic.

Section jmt.
Context `{!SparseHashes} {K : Type}.
Abbreviation Batch := (TreeUpdateBatch K).
Abbreviation kv := (HashValue * option (HashValue * K))%type.

(** ** [TreeUpdateBatch] *)

Definition batch_new : Batch := mkTreeUpdateBatch [[]] [[]] 0 0.
Definition batch_combine (b other : Batch) : Batch :=
  mkTreeUpdateBatch (node_batch b ++ node_batch other)
    (stale_node_index_batch b ++ stale_node_index_batch other)
    (num_new_leaves b + num_new_leaves other) (num_stale_leaves b + num_stale_leaves other).
Definition put_node {E} (node_key : NodeKey) (node : Node K) : M Batch E unit := λ b,
  match node_batch b with
  | first :: rest =>
      (Ok tt, mkTreeUpdateBatch ((first ++ [(node_key, node)]) :: rest) (stale_node_index_batch b)
                (num_new_leaves b + if node_is_leaf node then 1 else 0) (num_stale_leaves b))
  | [] => (Panic, b)
  end.
Definition put_stale_node {E} (node_key : NodeKey) (version : Version) (node : Node K) : M Batch E unit := λ b,
  match stale_node_index_batch b with
  | first :: rest =>
      (Ok tt, mkTreeUpdateBatch (node_batch b) ((first ++ [mkStaleNodeIndex version node_key]) :: rest)
                (num_new_leaves b) (num_stale_leaves b + if node_is_leaf node then 1 else 0))
  | [] => (Panic, b)
  end.

(** ** Building a subtree *)

Definition get_hash {E} (node_key : NodeKey) (node : Node K)
    (hash_cache : option (gmap NibblePath HashValue)) : outcome E HashValue :=
  match hash_cache with
  | Some cache => expect (cache !! nk_nibble_path node_key)
  | None => node_hash node
  end.

(** The closure over the children of a new internal node *)
Definition new_child (node_key : NodeKey) (version : Version)
    (hash_cache : option (gmap NibblePath HashValue)) (child : N * Node K)
  : M Batch anyhow (N * Child) :=
  let '(child_index, new_child_node) := child in
  new_child_node_key ← mlift (gen_child_node_key node_key version child_index);
  hash ← mlift (get_hash new_child_node_key new_child_node hash_cache);
  _ ← put_node new_child_node_key new_child_node;
  mret (child_index, mkChild hash version (node_type new_child_node)).
Definition collect_children (l : list (N * Child)) (m : Children) : Children :=
  foldl (λ m ic, <[ic.1 := ic.2]> m) m l.
(** The end of [batch_update_subtree] and of its variant with a leaf *)
Definition finish_subtree (node_key : NodeKey) (version : Version)
    (hash_cache : option (gmap NibblePath HashValue)) (children : list (N * Node K))
  : M Batch anyhow (option (Node K)) :=
  match children with
  | [] => mret None
  | [(_, NodeLeaf leaf)] => mret (Some (NodeLeaf leaf))
  | _ =>
      l ← mmap (new_child node_key version hash_cache) children;
      n ← mlift (internal_node_new (collect_children l ∅));
      mret (Some (NodeInternal n))
  end.
Definition some_children (l : list (N * option (Node K))) : list (N * Node K) :=
  omap (λ io, (λ n, (io.1, n)) <$> io.2) l.

(** The recursion ends at the height of the tree, where [NibbleRangeIterator::new] panics. *)
Fixpoint batch_update_subtree_loop (fuel : nat) (node_key : NodeKey) (version : Version) (kvs : list kv)
    (depth : N) (hash_cache : option (gmap NibblePath HashValue)) : M Batch anyhow (option (Node K)) :=
  match fuel with
  | O => mlift Panic
  | S fuel =>
      match kvs with
      | [(key, Some (value_hash, state_key))] =>
          mret (Some (NodeLeaf (mkLeafNode key value_hash (state_key, version))))
      | [(key, None)] => mret None
      | _ =>
          ranges ← mlift (nibble_ranges kvs depth);
          children ← mmap (λ '(l, r),
            entry ← mlift (expect (kvs !! l));
            child_index ← mlift (get_nibble entry.1 depth);
            child_node_key ← mlift (gen_child_node_key node_key version child_index);
            sub_kvs ← mlift (slice kvs l r);
            o ← batch_update_subtree_loop fuel child_node_key version sub_kvs (depth + 1) hash_cache;
            mret (child_index, o)) ranges;
          finish_subtree node_key version hash_cache (some_children children)
      end
  end.
Definition batch_update_subtree (node_key : NodeKey) (version : Version) (kvs : list kv) (depth : N)
    (hash_cache : option (gmap NibblePath HashValue)) : M Batch anyhow (option (Node K)) :=
  batch_update_subtree_loop (N.to_nat (65 - depth)) node_key version kvs depth hash_cache.

Fixpoint with_existing_leaf_loop (fuel : nat) (node_key : NodeKey) (version : Version)
    (existing_leaf_node : LeafNode K) (kvs : list kv) (depth : N)
    (hash_cache : option (gmap NibblePath HashValue)) : M Batch anyhow (option (Node K)) :=
  match fuel with
  | O => mlift Panic
  | S fuel =>
      let existing_leaf_key := ln_account_key existing_leaf_node in
      let otherwise :=
        existing_leaf_bucket ← mlift (get_nibble existing_leaf_key depth);
        ranges ← mlift (nibble_ranges kvs depth);
        children ← mmap (λ '(l, r),
          entry ← mlift (expect (kvs !! l));
          child_index ← mlift (get_nibble entry.1 depth);
          child_node_key ← mlift (gen_child_node_key node_key version child_index);
          sub_kvs ← mlift (slice kvs l r);
          o ← (if existing_leaf_bucket =? child_index
               then with_existing_leaf_loop fuel child_node_key version existing_leaf_node sub_kvs (depth + 1) hash_cache
               else batch_update_subtree child_node_key version sub_kvs (depth + 1) hash_cache);
          mret (child_index, o)) ranges;
        let isolated_existing_leaf := negb (existsb (λ io, existing_leaf_bucket =? io.1) children) in
        finish_subtree node_key version hash_cache
          (some_children children
             ++ if isolated_existing_leaf then [(existing_leaf_bucket, NodeLeaf existing_leaf_node)] else []) in
      match kvs with
      | [(key, value)] =>
          if key =? existing_leaf_key then
            match value with
            | Some (value_hash, state_key) =>
                mret (Some (NodeLeaf (mkLeafNode key value_hash (state_key, version))))
            | None => mret None
            end
          else otherwise
      | _ => otherwise
      end
  end.
Definition batch_update_subtree_with_existing_leaf (node_key : NodeKey) (version : Version)
    (existing_leaf_node : LeafNode K) (kvs : list kv) (depth : N)
    (hash_cache : option (gmap NibblePath HashValue)) : M Batch anyhow (option (Node K)) :=
  with_existing_leaf_loop (N.to_nat (65 - depth)) node_key version existing_leaf_node kvs depth hash_cache.

(** ** Updating a stored tree *)

Context (get_node_option : NodeKey → outcome anyhow (option (Node K))).

(** [par_iter().map(..).collect::<Result<_>>()]: every call gets a batch of its own, and the
    batches are combined in order when all of them succeed. *)
Fixpoint par_calls {A B} (f : A → M Batch anyhow B) (l : list A) : outcome anyhow (list (B * Batch)) :=
  match l with
  | [] => Ok []
  | x :: l =>
      '(y, sub_batch) ← match f x batch_new with
                        | (Ok y, b) => Ok (y, b)
                        | (Err e, _) => Err e
                        | (Panic, _) => Panic
                        end;
      ys ← par_calls f l;
      Ok ((y, sub_batch) :: ys)
  end.
Definition par_mmap {A B} (f : A → M Batch anyhow B) (l : list A) : M Batch anyhow (list B) :=
  results ← mlift (par_calls f l);
  b ← mget;
  _ ← mput (foldl batch_combine b (results.*2));
  mret (results.*1).

Definition insert_at_child
    (batch_insert_at : NodeKey → list kv → N → M Batch anyhow (option (Node K)))
    (node_key : NodeKey) (internal_node : InternalNode) (version : Version) (kvs : list kv) (depth : N)
    (hash_cache : option (gmap NibblePath HashValue)) (range : nat * nat)
  : M Batch anyhow (N * option (Node K)) :=
  let '(l, r) := range in
  entry ← mlift (expect (kvs !! l));
  child_index ← mlift (get_nibble entry.1 depth);
  sub_kvs ← mlift (slice kvs l r);
  new_child_node_option ←
    match internal_child internal_node child_index with
    | Some child =>
        key ← mlift (gen_child_node_key node_key (ch_version child) child_index);
        batch_insert_at key sub_kvs (depth + 1)
    | None =>
        key ← mlift (gen_child_node_key node_key version child_index);
        batch_update_subtree key version sub_kvs (depth + 1) hash_cache
    end;
  mret (child_index, new_child_node_option).

(** The new children split into those that are created and those that are gone. *)
Definition split_children (l : list (N * option (Node K))) (old_children : Children)
  : Children * gmap N (Node K) :=
  foldl (λ '(old_children, new_created) io,
    match io.2 with
    | Some child => (old_children, <[io.1 := child]> new_created)
    | None => (delete io.1 old_children, new_created)
    end) (old_children, ∅) l.

(** Whether the node collapses into its only leaf, and then into which. *)
Definition collapse (node_key : NodeKey) (version : Version) (old_children : Children)
    (new_created : gmap N (Node K)) : M Batch anyhow (option (Node K)) :=
  if ((size old_children <=? 1) && (size new_created <=? 1))%nat then
    match map_to_list new_created with
    | (new_nibble, new_child) :: _ =>
        match map_to_list old_children with
        | (old_nibble, _) :: _ =>
            mret (if (old_nibble =? new_nibble) && node_is_leaf new_child then Some new_child else None)
        | [] => mret (if node_is_leaf new_child then Some new_child else None)
        end
    | [] =>
        match map_to_list old_children with
        | (old_nibble, old_child) :: _ =>
            if child_is_leaf old_child then
              key ← mlift (gen_child_node_key node_key (ch_version old_child) old_nibble);
              old_child_node ← mlift (get_node get_node_option key);
              _ ← put_stale_node key version old_child_node;
              mret (Some old_child_node)
            else mret None
        | [] => mlift Panic
        end
    end
  else mret None.

(** As [NibbleRangeIterator::new] panics at the height of the tree, the recursion ends there. *)
Fixpoint batch_insert_at_loop (fuel : nat) (node_key : NodeKey) (version : Version) (kvs : list kv)
    (depth : N) (hash_cache : option (gmap NibblePath HashValue)) : M Batch anyhow (option (Node K)) :=
  match fuel with
  | O => mlift Panic
  | S fuel =>
      node ← mlift (get_node get_node_option node_key);
      _ ← put_stale_node node_key version node;
      match node with
      | NodeInternal internal_node =>
          ranges ← mlift (nibble_ranges kvs depth);
          let call := insert_at_child
            (λ key kvs depth, batch_insert_at_loop fuel key version kvs depth hash_cache)
            node_key internal_node version kvs depth hash_cache in
          new_children ← (if depth <=? MAX_PARALLELIZABLE_DEPTH then par_mmap call ranges else mmap call ranges);
          let '(old_children, new_created) := split_children new_children (in_children internal_node) in
          if bool_decide (old_children = ∅) && bool_decide (new_created = ∅) then mret None
          else
            collapsed ← collapse node_key version old_children new_created;
            match collapsed with
            | Some node => mret (Some node)
            | None =>
                l ← mmap (new_child node_key version hash_cache) (map_to_list new_created);
                n ← mlift (internal_node_new (collect_children l old_children));
                mret (Some (NodeInternal n))
            end
      | NodeLeaf leaf_node =>
          batch_update_subtree_with_existing_leaf node_key version leaf_node kvs depth hash_cache
      | NodeNull =>
          _ ← mlift (ensure (depth =? 0) (fmt "Null node can only exist at depth 0" []));
          batch_update_subtree node_key version kvs 0 hash_cache
      end
  end.
Definition batch_insert_at (node_key : NodeKey) (version : Version) (kvs : list kv) (depth : N)
    (hash_cache : option (gmap NibblePath HashValue)) : M Batch anyhow (option (Node K)) :=
  batch_insert_at_loop (N.to_nat (65 - depth)) node_key version kvs depth hash_cache.

Definition dedup_and_sort (value_set : list kv) : list kv :=
  btree_iter (foldl (λ m (x : kv), <[x.1 := x.2]> m) ∅ value_set).
Definition batch_put_value_set (value_set : list kv) (node_hashes : option (gmap NibblePath HashValue))
    (persisted_version : option Version) (version : Version) : outcome anyhow (HashValue * Batch) :=
  let deduped_and_sorted_kvs := dedup_and_sort value_set in
  let '(r, batch) :=
    (root_node_opt ←
       match persisted_version with
       | Some persisted_version =>
           batch_insert_at (new_empty_path persisted_version) version deduped_and_sorted_kvs 0 node_hashes
       | None => batch_update_subtree (new_empty_path version) version deduped_and_sorted_kvs 0 node_hashes
       end;
     let node_key := new_empty_path version in
     match root_node_opt with
     | Some root_node =>
         hash ← mlift (node_hash root_node);
         _ ← put_node node_key root_node;
         mret hash
     | None => _ ← put_node node_key NodeNull; mret SPARSE_MERKLE_PLACEHOLDER_HASH
     end) batch_new in
  hash ← r; Ok (hash, batch).

(** ** Reading *)

Fixpoint get_with_proof_loop (fuel : nat) (key : HashValue) (version : Version) (nibble_depth : N)
    (next_node_key : NodeKey) (nibble_iter : NibbleIterator) (siblings : list NodeInProof)
  : outcome anyhow (option (HashValue * (K * Version)) * SparseMerkleProofExt) :=
  match fuel with
  | O => Err (fmt "Jellyfish Merkle tree has cyclic graph inside." [])
  | S fuel =>
      next_node ← match get_node get_node_option next_node_key with
                  | Err e => Err (if nibble_depth =? 0
                                  then fmt "Missing state root node at version {version}, probably pruned." [version]
                                  else e)
                  | r => r
                  end;
      match next_node with
      | NodeInternal internal_node =>
          '(o, nibble_iter) ← ni_next nibble_iter;
          queried_child_index ← ok_or o (fmt "ran out of nibbles" []);
          '(child_node_key, siblings_in_internal) ←
            get_child_with_siblings get_node_option internal_node next_node_key queried_child_index true;
          let siblings := siblings ++ siblings_in_internal in
          match child_node_key with
          | Some node_key =>
              get_with_proof_loop fuel key version (nibble_depth + 1) node_key nibble_iter siblings
          | None => Ok (None, mkSparseMerkleProofExt None (reverse siblings))
          end
      | NodeLeaf leaf_node =>
          Ok (if ln_account_key leaf_node =? key
              then Some (ln_value_hash leaf_node, ln_value_index leaf_node) else None,
              mkSparseMerkleProofExt (Some (leaf_to_sparse leaf_node)) (reverse siblings))
      | NodeNull => Ok (None, mkSparseMerkleProofExt None [])
      end
  end.
Definition get_with_proof_ext (key : HashValue) (version : Version)
  : outcome anyhow (option (HashValue * (K * Version)) * SparseMerkleProofExt) :=
  nibble_path ← np_new_even (hash_to_vec key);
  nibble_iter ← np_nibbles nibble_path;
  get_with_proof_loop (S (N.to_nat ROOT_NIBBLE_HEIGHT)) key version 0 (new_empty_path version) nibble_iter [].
Definition get_with_proof (key : HashValue) (version : Version)
  : outcome anyhow (option (HashValue * (K * Version)) * SparseMerkleProof) :=
  '(value, proof_ext) ← get_with_proof_ext key version; Ok (value, smp_from_ext proof_ext).
Definition get_range_proof (rightmost_key_to_prove : HashValue) (version : Version)
  : outcome anyhow SparseMerkleRangeProof :=
  '(account, proof) ← get_with_proof rightmost_key_to_prove version;
  _ ← ensure (bool_decide (is_Some account)) (fmt "rightmost_key_to_prove must exist." []);
  let siblings :=
    omap (λ sb : HashValue * bool, if sb.2 then None else Some sb.1)
      (zip (reverse (smp_siblings proof)) (iter_bits rightmost_key_to_prove)) in
  Ok (mkSparseMerkleRangeProof (reverse siblings)).

Definition get_root_node_option (version : Version) : outcome anyhow (option (Node K)) :=
  get_node_option (new_empty_path version).
Definition get_root_node (version : Version) : outcome anyhow (Node K) :=
  o ← get_root_node_option version; ok_or o (fmt "Root node not found for version {}." [version]).
Definition get_root_hash (version : Version) : outcome anyhow HashValue :=
  n ← get_root_node version; node_hash n.
Definition get_root_hash_option (version : Version) : outcome anyhow (option HashValue) :=
  o ← get_root_node_option version;
  match o with Some n => Some <$> node_hash n | None => Ok None end.
Definition get_leaf_count (version : Version) : outcome anyhow N :=
  node_leaf_count <$> get_root_node version.

(** The children in the order of their nibbles; a path of 64 nibbles cannot be extended. *)
Fixpoint all_nodes_referenced_loop (fuel : nat) (key : NodeKey) (out_keys : list NodeKey)
  : outcome anyhow (list NodeKey) :=
  match fuel with
  | O => Panic
  | S fuel =>
      node ← get_node get_node_option key;
      out_keys ←
        match node with
        | NodeInternal internal_node =>
            foldl (λ acc ic, out_keys ← acc;
                     child_key ← gen_child_node_key key (ch_version ic.2) ic.1;
                     all_nodes_referenced_loop fuel child_key out_keys)
              (Ok out_keys) (btree_iter (in_children internal_node))
        | _ => Ok out_keys
        end;
      Ok (out_keys ++ [key])
  end.
Definition get_all_nodes_referenced (version : Version) : outcome anyhow (list NodeKey) :=
  all_nodes_referenced_loop 66 (new_empty_path version) [].
End jmt.
