(* ===== verification/JmtTree.v ===== *)
(** * What a stored Jellyfish Merkle tree contains, and reading it

    [rep] says that a node and the nodes stored below it hold a finite map; its hash is then the
    root hash of the sparse Merkle tree of that map, and a read returns what the map has. *)
From S2P Require Import Prelude Crypto Nibble SparseMerkle JmtNode Jmt.
Local Open Scope N_scope.

(** The key has [path] as its first nibbles. *)
Definition key_in (path : list N) (k : HashValue) : Prop := take (length path) (key_nibbles k) = path.
#[export] Instance key_in_dec path k : Decision (key_in path k).
Proof. unfold key_in. apply _. Defined.

Lemma length_key_nibbles k : length (key_nibbles k) = 64%nat.
Proof. unfold key_nibbles. by rewrite length_fmap, length_seqN. Qed.
Lemma key_in_nil k : key_in [] k.
Proof. done. Qed.
Lemma key_in_snoc path i k :
  (length path < 64)%nat →
  key_in (path ++ [i]) k ↔ key_in path k ∧ hash_nibble k (N.of_nat (length path)) = i.
Proof.
  intros Hl. unfold key_in. rewrite length_app. cbn [length]. rewrite Nat.add_1_r.
  rewrite (take_S_r _ _ _ (lookup_key_nibbles k _ Hl)). split.
  - intros Heq. apply app_inj_2 in Heq as [? [= ?]]; done.
  - by intros [-> ->].
Qed.
Lemma key_in_nibble path k i :
  key_in path k → (i < length path)%nat → path !! i = Some (hash_nibble k (N.of_nat i)).
Proof.
  intros Hk Hi. pose proof (f_equal length Hk) as Hl. rewrite length_take, length_key_nibbles in Hl.
  rewrite <- Hk, lookup_take_lt by done. apply lookup_key_nibbles. lia.
Qed.
Lemma key_in_unique path k k' :
  length path = 64%nat → hash_wf k → hash_wf k' → key_in path k → key_in path k' → k = k'.
Proof.
  intros Hl Hk Hk' H1 H2. apply hash_nibbles_inj; [done..|]. intros i Hi.
  pose proof (key_in_nibble path k (N.to_nat i) H1 ltac:(lia)) as E1.
  rewrite (key_in_nibble path k' (N.to_nat i) H2 ltac:(lia)), !N2Nat.id in E1. congruence.
Qed.
Lemma key_in_prefix path ext k : key_in (path ++ ext) k → key_in path k.
Proof.
  unfold key_in. intros Hk. apply (f_equal (take (length path))) in Hk.
  rewrite take_take, take_app_length, length_app in Hk. by rewrite Nat.min_l in Hk by lia.
Qed.

Section tree.
Context `{!SparseHashes} {K : Type}.
Abbreviation value := (HashValue * (K * Version))%type.
Abbreviation content := (gmap HashValue (HashValue * (K * Version))).
Abbreviation store := (gmap NodeKey (Node K)).

Definition value_hashes (m : content) : gmap HashValue HashValue := fst <$> m.

Abbreviation child_key path i c := (mkNodeKey (ch_version c) (path_of (path ++ [i]))).

(** [node] at [path], with what the store has below it, holds [m]. *)
Inductive rep (s : store) : list N → Node K → content → Prop :=
| rep_leaf path k vh idx :
    nibbles_ok path → key_in path k → hash_wf k →
    rep s path (NodeLeaf (mkLeafNode k vh idx)) {[k := (vh, idx)]}
| rep_internal path n m (nodes : N → Node K) :
    nibbles_ok path → (length path < 64)%nat →
    (∀ k v, m !! k = Some v → key_in path k ∧ hash_wf k) →
    (2 <= size m)%nat → in_leaf_count n = N.of_nat (size m) →
    (∀ i, in_children n !! i = None → sub (length path) i m = ∅) →
    (∀ i c, in_children n !! i = Some c →
       i < 16 ∧ s !! child_key path i c = Some (nodes i) ∧
       node_hash (E := anyhow) (nodes i) = Ok (ch_hash c) ∧ node_type (nodes i) = ch_node_type c) →
    (∀ i c, in_children n !! i = Some c → rep s (path ++ [i]) (nodes i) (sub (length path) i m)) →
    rep s path (NodeInternal n) m.

Lemma rep_keys s path nd m : rep s path nd m → ∀ k v, m !! k = Some v → key_in path k ∧ hash_wf k.
Proof. intros [? k vh idx ???|]; [|done]. by intros ? ? [<- _]%lookup_singleton_Some. Qed.
Lemma rep_path s path nd m : rep s path nd m → nibbles_ok path.
Proof. by intros []. Qed.
Lemma rep_mono s s' path nd m : s ⊆ s' → rep s path nd m → rep s' path nd m.
Proof.
  intros Hsub. induction 1 as [|path n m nodes ? ? ? ? ? ? Hc ? IH]; [by constructor|].
  apply (rep_internal s' path n m nodes); try done.
  intros i c Hi. destruct (Hc i c Hi) as (?&?&?&?). split_and!; [done| |done..].
  by eapply lookup_weaken.
Qed.

(** Leaves and internal nodes by the number of keys they hold. *)
Lemma rep_leaf_inv s path l m :
  rep s path (NodeLeaf l) m → m = {[ln_account_key l := (ln_value_hash l, ln_value_index l)]}.
Proof. by inversion 1. Qed.
Lemma rep_null s path m : ¬ rep s path NodeNull m.
Proof. by inversion 1. Qed.
Lemma rep_type s path nd m :
  rep s path nd m →
  (node_is_leaf nd = true ∧ size m = 1%nat ∧ node_type nd = NtLeaf) ∨
  (node_is_leaf nd = false ∧ (2 <= size m)%nat ∧ node_type nd = NtInternal (N.of_nat (size m))).
Proof.
  intros [|? n ? ? ? ? ? ? Hlc]; [left|right].
  - by rewrite map_size_singleton.
  - cbn. unfold internal_node_type. by rewrite Hlc.
Qed.
Lemma rep_size s path nd m : rep s path nd m → (1 <= size m)%nat.
Proof. intros [(_ & -> & _)|(_ & ? & _)]%rep_type; lia. Qed.

Lemma lookup_value_hashes m k : value_hashes m !! k = fst <$> m !! k.
Proof. apply lookup_fmap. Qed.
Lemma sub_value_hashes d i m : sub d i (value_hashes m) = value_hashes (sub d i m).
Proof.
  apply map_eq. intros k. apply option_eq. intros v.
  rewrite lookup_sub, !lookup_value_hashes, !fmap_Some. setoid_rewrite lookup_sub. naive_solver.
Qed.
Lemma size_value_hashes m : size (value_hashes m) = size m.
Proof. apply map_size_fmap. Qed.
Lemma value_hashes_singleton k v : value_hashes {[k := v]} = {[k := v.1]}.
Proof. apply map_fmap_singleton. Qed.
Lemma keys_wf_value_hashes m : keys_wf (value_hashes m) ↔ keys_wf m.
Proof.
  unfold keys_wf. split; intros Hm k v.
  - intros Hk. apply (Hm k v.1). by rewrite lookup_value_hashes, Hk.
  - rewrite lookup_value_hashes, fmap_Some. intros (v' & Hk & _). eauto.
Qed.

Lemma child_type_leaf c (nd : Node K) : node_type nd = ch_node_type c → child_is_leaf c = node_is_leaf nd.
Proof. unfold child_is_leaf. intros <-. by destruct nd. Qed.

(** The hash of a node is that of the sparse Merkle tree of what it holds. *)
Lemma rep_children_ok s path n m (nodes : N → Node K) :
  (length path < 64)%nat →
  (∀ i, in_children n !! i = None → sub (length path) i m = ∅) →
  (∀ i c, in_children n !! i = Some c →
     i < 16 ∧ node_hash (E := anyhow) (nodes i) = Ok (ch_hash c) ∧ node_type (nodes i) = ch_node_type c ∧
     rep s (path ++ [i]) (nodes i) (sub (length path) i m) ∧
     node_hash (E := anyhow) (nodes i)
       = Ok (smt_hash (256 - 4 * length (path ++ [i])) (value_hashes (sub (length path) i m)))) →
  children_ok (length path) (in_children n) (value_hashes m).
Proof.
  intros Hlen Hnone Hsome. split.
  - intros i Hi. by rewrite sub_value_hashes, Hnone.
  - intros i c Hi. apply (Hsome i c Hi).
  - intros i c Hi Hl. destruct (Hsome i c Hi) as (_ & _ & Ht & Hrep & _).
    rewrite (child_type_leaf c _ Ht) in Hl. destruct (nodes i) as [|l|]; try done.
    rewrite sub_value_hashes, (rep_leaf_inv _ _ _ _ Hrep), value_hashes_singleton. eauto.
  - intros i c Hi Hl. destruct (Hsome i c Hi) as (_ & _ & Ht & Hrep & _).
    rewrite (child_type_leaf c _ Ht) in Hl. rewrite sub_value_hashes, size_value_hashes.
    destruct (rep_type _ _ _ _ Hrep) as [(? & _)|(_ & ? & _)]; [congruence|done].
  - intros i c Hi. destruct (Hsome i c Hi) as (_ & H1 & _ & _ & H2). rewrite H1 in H2. injection H2 as ->.
    rewrite sub_value_hashes. f_equal. rewrite length_app. unfold bits_below. cbn [length]. lia.
Qed.
Lemma rep_hash s path nd m :
  rep s path nd m → node_hash (E := anyhow) nd = Ok (smt_hash (256 - 4 * length path) (value_hashes m)).
Proof.
  induction 1 as [path k vh idx|path n m nodes Hok Hlen Hkeys Hsz Hlc Hnone Hsome Hrep IH].
  - by rewrite value_hashes_singleton, smt_hash_singleton.
  - cbn [node_hash]. apply internal_hash_run with (ch := in_children n); [done| |done].
    apply (rep_children_ok s path n m nodes); [done..|]. intros i c Hi.
    destruct (Hsome i c Hi) as (?&?&?&?). split_and!; eauto.
Qed.
Lemma rep_internal_children s path n m :
  rep s path (NodeInternal n) m → children_ok (length path) (in_children n) (value_hashes m).
Proof.
  inversion 1 as [|? ? ? nodes Hok Hlen Hkeys Hsz Hlc Hnone Hsome Hrep]; subst.
  apply (rep_children_ok s path n m nodes); [done..|]. intros i c Hi.
  destruct (Hsome i c Hi) as (?&?&?&?). split_and!; [done..|eauto|]. by apply rep_hash with s, (Hrep i c).
Qed.


Lemma key_in_agree path key (m : gmap HashValue HashValue) :
  (length path <= 64)%nat → key_in path key →
  (∀ k v, m !! k = Some v → key_in path k ∧ hash_wf k) → agree (256 - 4 * length path) key m.
Proof.
  intros Hlen Hkey Hm k v Hk. destruct (Hm k v Hk) as [Hin Hwf]. split; [done|]. intros i Hi.
  assert (hash_nibble k (i / 4) = hash_nibble key (i / 4)) as Hn.
  { rewrite <- (N2Nat.id (i / 4)). pose proof (key_in_nibble path k (N.to_nat (i / 4)) Hin ltac:(dlia)) as E1.
    pose proof (key_in_nibble path key (N.to_nat (i / 4)) Hkey ltac:(dlia)). congruence. }
  replace i with (4 * (i / 4) + i mod 4) by dlia. apply nibbles_eq_iff; [dlia|done|dlia].
Qed.

(** The path of a key goes into the subtree of its nibble. *)
Lemma sub_same_lookup path key (m : content) i :
  (length path < 64)%nat → key_in path key →
  (∀ k v, m !! k = Some v → key_in path k ∧ hash_wf k) →
  (i = hash_nibble key (N.of_nat (length path)) ∨
   ∃ k v s, smt_path (256 - 4 * length path) (value_hashes m) key = (s, Some (mkSparseMerkleLeafNode k v)) ∧
            hash_nibble k (N.of_nat (length path)) = i) →
  sub (length path) i m !! key = m !! key.
Proof.
  intros Hlen Hkey Hm Hi. destruct (decide (hash_nibble key (N.of_nat (length path)) = i)) as [Heq|Hne].
  - apply option_eq. intros v. rewrite lookup_sub. naive_solver.
  - destruct Hi as [->|(k & v & s & Hp & Hk)]; [done|].
    pose proof (fold_down_path (256 - 4 * length path) key (value_hashes m)) as Hf. rewrite Hp in Hf.
    destruct Hf as (_ & _ & _ & Hor & _); [lia| |].
    { apply key_in_agree; [lia|done|]. intros k' v'. rewrite lookup_value_hashes, fmap_Some.
      intros (? & ? & _). eauto. }
    cbn [sml_key] in Hor. destruct Hor as [Hnone| ->]; [|congruence].
    rewrite lookup_value_hashes, fmap_None in Hnone. rewrite Hnone.
    destruct (sub (length path) i m !! key) as [x|] eqn:Hx; [|done]. apply lookup_sub in Hx as [? _]. congruence.
Qed.

Section read.
Context (s : store) (get_node_option : NodeKey → outcome anyhow (option (Node K))).
Context (Hserves : ∀ k nd, s !! k = Some nd → get_node_option k = Ok (Some nd)).

Lemma get_node_run k nd : s !! k = Some nd → get_node get_node_option k = Ok nd.
Proof. intros Hk. unfold get_node. by rewrite (Hserves k nd Hk). Qed.

Lemma rep_siblings path n m version key :
  rep s path (NodeInternal n) m →
  ∃ child sibs,
    get_child_with_siblings get_node_option n (mkNodeKey version (path_of path))
      (hash_nibble key (N.of_nat (length path))) true = Ok (child, sibs) ∧
    continues path n (value_hashes m) key (256 - 4 * length path) (value_hashes m) child (node_in_proof_hash <$> sibs).
Proof.
  intros Hrep. pose proof (rep_internal_children _ _ _ _ Hrep) as Hch.
  inversion Hrep as [|? ? ? nodes Hok Hlen Hkeys Hsz Hlc Hnone Hsome Hsub]; subst.
  apply get_child_with_siblings_run; [done|done|done| |by rewrite size_value_hashes].
  intros i c Hi Hl. destruct (Hsome i c Hi) as (_ & Hst & _ & Ht). rewrite (child_type_leaf c _ Ht) in Hl.
  pose proof (Hsub i c Hi) as Hr. destruct (nodes i) as [|l|]; try done.
  exists l. split; [by apply Hserves|].
  by rewrite sub_value_hashes, (rep_leaf_inv _ _ _ _ Hr), value_hashes_singleton.
Qed.

Lemma get_with_proof_loop_run fuel key version depth v path nd m acc :
  rep s path nd m → s !! mkNodeKey v (path_of path) = Some nd → (64 < length path + fuel)%nat →
  key_in path key ∨ (node_is_leaf nd = true ∧ (0 < fuel)%nat) →
  ∃ sibs leaf,
    get_with_proof_loop get_node_option fuel key version depth (mkNodeKey v (path_of path))
      (mkNibbleIterator (path_of (key_nibbles key)) (N.of_nat (length path)) 64 0) acc
      = Ok (m !! key, mkSparseMerkleProofExt leaf (reverse (acc ++ sibs))) ∧
    smt_path (256 - 4 * length path) (value_hashes m) key = (node_in_proof_hash <$> sibs, leaf).
Proof.
  revert depth v path nd m acc. induction fuel as [|fuel IH]; intros depth v path nd m acc Hrep Hst Hfuel Hkey.
  { destruct Hkey as [Hkey|[_ ?]]; [|lia]. apply rep_path in Hrep as [_ ?]. lia. }
  cbn [get_with_proof_loop]. rewrite (get_node_run _ _ Hst). run_ok.
  destruct nd as [n|l|]; [|clear IH|by apply rep_null in Hrep].
  - destruct Hkey as [Hkey|[? _]]; [|done].
    inversion Hrep as [|? ? ? nodes Hok Hlen Hkeys Hsz Hlc Hnone Hsome Hsub]; subst.
    destruct (ni_next_run (E := anyhow) (key_nibbles key) (N.of_nat (length path)) 64 0
      (hash_nibble key (N.of_nat (length path)))) as [-> _].
    { apply key_nibbles_ok. } { lia. } { rewrite Nat2N.id. by apply lookup_key_nibbles. }
    run_ok. destruct (rep_siblings path n m v key Hrep) as (child & sibs & -> & Hcont). run_ok.
    destruct child as [ck|].
    + destruct Hcont as (i & c & Hi & -> & Hor & Hp). destruct (Hsome i c Hi) as (Hlt & Hst' & _ & Ht).
      pose proof (Hsub i c Hi) as Hr.
      destruct (IH (depth + 1) (ch_version c) (path ++ [i]) (nodes i) (sub (length path) i m) (acc ++ sibs))
        as (sibs' & leaf & Hrun & Hp'); [done|done|rewrite length_app; cbn; lia| |].
      { destruct Hor as [->|Hl]; [left; by apply key_in_snoc|].
        rewrite (child_type_leaf c _ Ht) in Hl. right. split; [done|]. lia. }
      replace (N.of_nat (length (path ++ [i]))) with (N.of_nat (length path) + 1) in Hrun
        by (rewrite length_app; cbn; lia).
      rewrite Hrun. exists (sibs ++ sibs'), leaf. rewrite <- app_assoc, fmap_app.
      rewrite sub_value_hashes in Hp.
      replace (bits_below (length path)) with (256 - 4 * length (path ++ [i]))%nat in Hp
        by (unfold bits_below; rewrite length_app; cbn; lia).
      rewrite Hp' in Hp. cbn [fst snd] in Hp. split; [|done]. do 2 f_equal.
      apply sub_same_lookup; [done..|]. destruct Hor as [|Hl]; [by left|right].
      rewrite (child_type_leaf c _ Ht) in Hl. destruct (nodes i) as [|l|]; try done.
      pose proof (rep_leaf_inv _ _ _ _ Hr) as Hs. rewrite Hs, value_hashes_singleton, smt_path_singleton in Hp'.
      injection Hp' as Hs1 Hs2. rewrite <- Hs2 in Hp. do 3 eexists. split; [exact Hp|].
      assert (sub (length path) i m !! ln_account_key l = Some (ln_value_hash l, ln_value_index l)) as Hl'
        by by rewrite Hs, lookup_singleton_eq.
      by apply lookup_sub in Hl' as [_ ?].
    + exists sibs, None. split; [|done]. do 2 f_equal.
      pose proof (fold_down_path (256 - 4 * length path) key (value_hashes m)) as Hf. rewrite Hcont in Hf.
      destruct Hf as (_ & _ & Hnk); [lia| |].
      { apply key_in_agree; [lia|done|]. intros k' v'. rewrite lookup_value_hashes, fmap_Some.
        intros (? & ? & _). eauto. }
      rewrite lookup_value_hashes, fmap_None in Hnk. by rewrite Hnk.
  - rewrite (rep_leaf_inv _ _ _ _ Hrep). exists [], (Some (leaf_to_sparse l)).
    rewrite app_nil_r, value_hashes_singleton, smt_path_singleton. split; [|done].
    destruct (N.eqb_spec (ln_account_key l) key) as [->|Hne].
    + by rewrite lookup_singleton_eq.
    + by rewrite lookup_singleton_ne.
Qed.

(** The version has a root, and what is stored below it holds [m]. *)
Definition jmt_at (version : Version) (m : content) : Prop :=
  ∃ nd, s !! new_empty_path version = Some nd ∧ ((nd = NodeNull ∧ m = ∅) ∨ rep s [] nd m).

Lemma jmt_at_keys version m : jmt_at version m → keys_wf m.
Proof.
  intros (nd & _ & [[_ ->]|Hrep]) k v Hk; [by rewrite lookup_empty in Hk|].
  by apply (rep_keys _ _ _ _ Hrep k v).
Qed.
Lemma get_root_hash_run version m :
  jmt_at version m → get_root_hash get_node_option version = Ok (smt_root (value_hashes m)).
Proof.
  intros (nd & Hnd & Hor). unfold get_root_hash, get_root_node, get_root_node_option.
  rewrite (Hserves _ _ Hnd). run_ok. rewrite smt_root_eq.
  destruct Hor as [[-> ->]|Hrep]; [|exact (rep_hash _ _ _ _ Hrep)].
  unfold value_hashes. by rewrite fmap_empty, smt_hash_empty.
Qed.
Lemma get_with_proof_ext_run key version m :
  jmt_at version m →
  ∃ sibs leaf,
    get_with_proof_ext get_node_option key version = Ok (m !! key, mkSparseMerkleProofExt leaf (reverse sibs)) ∧
    smt_path 256 (value_hashes m) key = (node_in_proof_hash <$> sibs, leaf).
Proof.
  intros (nd & Hnd & Hor). unfold get_with_proof_ext. rewrite key_nibbles_path. run_ok.
  unfold np_nibbles, nibble_iterator_new. change (np_num_nibbles (path_of (key_nibbles key))) with (lenN (key_nibbles key)).
  assert (lenN (key_nibbles key) = 64) as -> by (unfold lenN; by rewrite length_key_nibbles). run_ok.
  change (0 <=? 64) with true. change (0 <=? ROOT_NIBBLE_HEIGHT) with true.
  change (64 <=? ROOT_NIBBLE_HEIGHT) with true. run_ok.
  destruct Hor as [[-> ->]|Hrep].
  - exists [], None. cbn [get_with_proof_loop]. rewrite (get_node_run _ _ Hnd). run_ok.
    unfold value_hashes. rewrite fmap_empty, lookup_empty, smt_path_empty. done.
  - destruct (get_with_proof_loop_run (S (N.to_nat ROOT_NIBBLE_HEIGHT)) key version 0 version [] nd m [])
      as (sibs & leaf & Hrun & Hp); [done|done|unfold ROOT_NIBBLE_HEIGHT; cbn [length]; lia|left; apply key_in_nil|].
    exists sibs, leaf. split; [exact Hrun|]. by rewrite Nat.mul_0_r, Nat.sub_0_r in Hp.
Qed.
Lemma get_with_proof_run key version m :
  jmt_at version m →
  ∃ proof,
    get_with_proof get_node_option key version = Ok (m !! key, proof) ∧
    get_root_hash get_node_option version = Ok (smt_root (value_hashes m)) ∧
    verify_by_hash proof (smt_root (value_hashes m)) key (fst <$> m !! key) = Ok tt.
Proof.
  intros Ht. destruct (get_with_proof_ext_run key version m Ht) as (sibs & leaf & Hrun & Hp).
  exists (smt_proof (value_hashes m) key). split_and!.
  - unfold get_with_proof. rewrite Hrun. run_ok. unfold smt_proof, smp_from_ext. rewrite Hp.
    cbn [smpe_leaf smpe_siblings]. by rewrite fmap_reverse.
  - by apply get_root_hash_run.
  - rewrite <- lookup_value_hashes. apply smt_proof_verifies, keys_wf_value_hashes. by eapply jmt_at_keys.
Qed.
End read.

(** C23: Reading a key of a stored tree never fails or panics: it returns exactly what the map held
    by the tree has for the key, with a proof that verifies, for presence and absence alike, against the
    root hash of that version, which is the root of the sparse Merkle tree of the map. *)
Theorem get_with_proof_correct (s : store) get_node_option version (m : content) key
    (Hserves : ∀ k nd, s !! k = Some nd → get_node_option k = Ok (Some nd))
    (Ht : jmt_at s version m) :
  ∃ proof,
    get_with_proof get_node_option key version = Ok (m !! key, proof) ∧
    get_root_hash get_node_option version = Ok (smt_root (value_hashes m)) ∧
    verify_by_hash proof (smt_root (value_hashes m)) key (fst <$> m !! key) = Ok tt.
Proof. by apply (get_with_proof_run s). Qed.
End tree.

#[local] Existing Instance sample_sparse_hashes.
Definition sample_leaf : LeafNode N := mkLeafNode (2 ^ 255) 11 (7, 0).
Definition sample_leaf_store : gmap NodeKey (Node N) := {[new_empty_path 0 := NodeLeaf sample_leaf]}.
Definition sample_leaf_content : gmap HashValue (HashValue * (N * Version)) := {[2 ^ 255 := (11, (7, 0))]}.
Lemma get_with_proof_correct_witness :
  sample_leaf_content !! (2 ^ 255) = Some (11, (7, 0)) ∧
  ∃ proof,
    get_with_proof (λ k, Ok (sample_leaf_store !! k)) (2 ^ 255) 0 = Ok (sample_leaf_content !! (2 ^ 255), proof) ∧
    get_root_hash (λ k, Ok (sample_leaf_store !! k)) 0 = Ok (smt_root (value_hashes sample_leaf_content)) ∧
    verify_by_hash proof (smt_root (value_hashes sample_leaf_content)) (2 ^ 255)
      (fst <$> sample_leaf_content !! (2 ^ 255)) = Ok tt.
Proof.
  split; [by vm_compute|].
  apply (get_with_proof_correct sample_leaf_store (λ k, Ok (sample_leaf_store !! k)) 0 sample_leaf_content (2 ^ 255)).
  - by intros k nd ->.
  - exists (NodeLeaf sample_leaf). split; [done|]. right.
    apply (rep_leaf sample_leaf_store [] (2 ^ 255) 11 (7, 0)); [split; [constructor|cbn; lia]|done|by vm_compute].
Defined.
