(* ===== verification/JmtUpdate.v ===== *)
(** * Updating a Jellyfish Merkle tree: the tools

    Runs that only add to a batch, the ranges of equal nibbles of sorted keys, the content of a
    tree after an update, and the hashes the caller may supply. *)
From S2P Require Import Prelude Crypto Nibble SparseMerkle JmtNode Jmt JmtTree.
Local Open Scope N_scope.

(** ** Runs that only add to the batch *)

Section runs.
Context {K : Type}.
Abbreviation Batch := (TreeUpdateBatch K).
Abbreviation nodes := (list (NodeKey * Node K)).

Definition batch_ok (b : Batch) : Prop := node_batch b ≠ [] ∧ stale_node_index_batch b ≠ [].
Definition batch_nodes (b : Batch) : nodes := concat (node_batch b).
Definition batch_stale (b : Batch) : list StaleNodeIndex := concat (stale_node_index_batch b).

(** [f] succeeds with [a], adding [new] nodes and [old] indices so that [Q a new old]. *)
Definition runs {A} (f : M Batch anyhow A) (Q : A → nodes → list StaleNodeIndex → Prop) : Prop :=
  ∀ b, batch_ok b → ∃ a b' new old, f b = (Ok a, b') ∧ batch_ok b' ∧
    batch_nodes b' ≡ₚ batch_nodes b ++ new ∧ batch_stale b' ≡ₚ batch_stale b ++ old ∧ Q a new old.

Lemma runs_mono {A} (f : M Batch anyhow A) (P Q : A → nodes → list StaleNodeIndex → Prop) :
  runs f P → (∀ a new old, P a new old → Q a new old) → runs f Q.
Proof.
  intros Hf HPQ b Hb. destruct (Hf b Hb) as (a & b' & new & old & ? & ? & ? & ? & ?).
  exists a, b', new, old. split_and!; auto.
Qed.
Lemma runs_ret {A} (a : A) (Q : A → nodes → list StaleNodeIndex → Prop) : Q a [] [] → runs (mret a) Q.
Proof. intros HQ b Hb. exists a, b, [], []. rewrite !app_nil_r. done. Qed.
Lemma runs_bind {A B} (f : M Batch anyhow A) (k : A → M Batch anyhow B) P Q :
  runs f P →
  (∀ a new old, P a new old → runs (k a) (λ c new' old', Q c (new ++ new') (old ++ old'))) →
  runs (f ≫= k) Q.
Proof.
  intros Hf Hk b Hb. destruct (Hf b Hb) as (a & b1 & n1 & o1 & Hrun & Hb1 & Hn1 & Ho1 & HP).
  destruct (Hk a n1 o1 HP b1 Hb1) as (c & b2 & n2 & o2 & Hrun2 & Hb2 & Hn2 & Ho2 & HQ).
  exists c, b2, (n1 ++ n2), (o1 ++ o2). split_and!; [|done|..|done].
  - by rewrite (M_run_bind _ _ _ _ _ Hrun).
  - by rewrite Hn2, Hn1, app_assoc.
  - by rewrite Ho2, Ho1, app_assoc.
Qed.
Lemma runs_lift {A B} (m : outcome anyhow A) a (k : A → M Batch anyhow B) Q :
  m = Ok a → runs (k a) Q → runs (mlift m ≫= k) Q.
Proof. intros -> Hk b Hb. apply (Hk b Hb). Qed.

Lemma runs_put_node key node :
  runs (put_node key node) (λ _ new old, new = [(key, node)] ∧ old = []).
Proof.
  intros [nb sb nl sl] [Hn Hs]. unfold put_node. cbn [node_batch] in *. destruct nb as [|first rest]; [done|].
  eexists _, _, [(key, node)], []. split_and!; [done|done| |by rewrite app_nil_r|done|done].
  unfold batch_nodes. cbn. rewrite <- !app_assoc. f_equiv. apply Permutation_app_comm.
Qed.
Lemma runs_put_stale key version node :
  runs (put_stale_node key version node) (λ _ new old, new = [] ∧ old = [mkStaleNodeIndex version key]).
Proof.
  intros [nb sb nl sl] [Hn Hs]. unfold put_stale_node. cbn [stale_node_index_batch] in *.
  destruct sb as [|first rest]; [done|].
  eexists _, _, [], [mkStaleNodeIndex version key]. split_and!; [done|done|by rewrite app_nil_r| |done|done].
  unfold batch_stale. cbn. rewrite <- !app_assoc. f_equiv. apply Permutation_app_comm.
Qed.

(** A loop of calls: the results of each, with what it added. *)
Definition calls {A B} (P : A → B → nodes → list StaleNodeIndex → Prop) (l : list A)
    (ys : list B) (new : nodes) (old : list StaleNodeIndex) : Prop :=
  ∃ ds : list (B * (nodes * list StaleNodeIndex)),
    ys = ds.*1 ∧ new = concat ds.*2.*1 ∧ old = concat ds.*2.*2 ∧
    Forall2 (λ x d, P x d.1 d.2.1 d.2.2) l ds.

Lemma runs_mmap {A B} (f : A → M Batch anyhow B) P l :
  (∀ x, x ∈ l → runs (f x) (P x)) → runs (mmap f l) (calls P l).
Proof.
  induction l as [|x l IH]; intros Hf; cbn [mmap].
  - apply runs_ret. exists []. by repeat constructor.
  - eapply runs_bind; [apply Hf; left|]. intros y n o Hy.
    eapply runs_bind; [apply IH; intros; apply Hf; by right|]. intros ys n' o' (ds & -> & -> & -> & Hds).
    apply runs_ret. exists ((y, (n, o)) :: ds). cbn. rewrite !app_nil_r. split_and!; [done..|].
    by constructor.
Qed.
Lemma par_calls_run {A B} (f : A → M Batch anyhow B) P l :
  (∀ x, x ∈ l → runs (f x) (P x)) →
  ∃ results, par_calls f l = Ok results ∧ Forall (λ r, batch_ok r.2) results ∧
    Forall2 (λ x r, ∃ new old, batch_nodes r.2 ≡ₚ new ∧ batch_stale r.2 ≡ₚ old ∧ P x r.1 new old) l results.
Proof.
  induction l as [|x l IH]; intros Hf; cbn [par_calls]; [exists []; by repeat constructor|].
  destruct (Hf x ltac:(left) batch_new) as (y & b & new & old & -> & Hb & Hn & Ho & HP); [done|].
  destruct IH as (results & -> & Hok & Hall); [intros; apply Hf; by right|].
  exists ((y, b) :: results). split_and!; [done|by constructor|]. constructor; [|done].
  exists new, old. done.
Qed.
Lemma combine_nodes l b :
  batch_ok b → Forall batch_ok l →
  batch_ok (foldl batch_combine b l) ∧
  batch_nodes (foldl batch_combine b l) = batch_nodes b ++ concat (batch_nodes <$> l) ∧
  batch_stale (foldl batch_combine b l) = batch_stale b ++ concat (batch_stale <$> l).
Proof.
  revert b. induction l as [|x l IH]; intros b Hb Hl; cbn [foldl]; [by rewrite !app_nil_r|].
  apply Forall_cons in Hl as [Hx Hl]. destruct (IH (batch_combine b x)) as (? & -> & ->); [|done|].
  - destruct Hb as [? ?]. split; unfold batch_combine; cbn; by destruct (node_batch b), (stale_node_index_batch b).
  - split; [done|]. unfold batch_nodes, batch_stale, batch_combine. cbn. by rewrite !concat_app, <- !app_assoc.
Qed.
Lemma runs_par_mmap {A B} (f : A → M Batch anyhow B) P l :
  (∀ x, x ∈ l → runs (f x) (P x)) → runs (par_mmap f l) (calls P l).
Proof.
  intros Hf b Hb. destruct (par_calls_run f P l Hf) as (results & Hrun & Hok & Hall).
  destruct (combine_nodes results.*2 b Hb) as (Hb' & Hn & Ho); [by apply Forall_fmap|].
  assert (∃ ds : list (B * (nodes * list StaleNodeIndex)), results.*1 = ds.*1 ∧
    concat (batch_nodes <$> results.*2) ≡ₚ concat ds.*2.*1 ∧
    concat (batch_stale <$> results.*2) ≡ₚ concat ds.*2.*2 ∧
    Forall2 (λ x d, P x d.1 d.2.1 d.2.2) l ds) as (ds & Hds1 & Hdn & Hdo & Hds).
  { clear Hrun Hok Hb' Hn Ho. induction Hall as [|x [y r] l results (new & old & Hn & Ho & HP) _ IH];
      [exists []; by repeat constructor|].
    destruct IH as (ds & Hd1 & Hdn & Hdo & Hds); [intros; apply Hf; by right|].
    exists ((y, (new, old)) :: ds). cbn in *. rewrite Hd1, Hn, Ho, Hdn, Hdo. split_and!; [done..|]. by constructor. }
  exists results.*1, (foldl batch_combine b results.*2), (concat ds.*2.*1), (concat ds.*2.*2).
  split_and!; [|done|by rewrite Hn, Hdn|by rewrite Ho, Hdo|by exists ds].
  unfold par_mmap. rewrite (mlift_bind _ _ _ _ Hrun). done.
Qed.
End runs.

(** ** The ranges of equal nibbles of sorted keys *)

Section ranges_spec.
Context {A : Type} (kvs : list (HashValue * A)) (d : N).
(** The nibble of the [i]-th key; the keys are sorted by it. *)
Definition nib (i : nat) : N := from_option (λ e, hash_nibble e.1 d) 0 (kvs !! i).
Context (Hsorted : ∀ i j, (i <= j < length kvs)%nat → nib i <= nib j).

Lemma nibble_at_run {E} i : (i < length kvs)%nat → nibble_at (E := E) kvs d i = Ok (nib i).
Proof.
  intros Hi. unfold nibble_at, nib. destruct (lookup_lt_is_Some_2 kvs i Hi) as [e ->]. done.
Qed.
Lemma last_index_loop_run {E} fuel cur i j :
  (j - i <= fuel)%nat → (i <= j < length kvs)%nat → nib i <= cur →
  (∀ x, (j < x < length kvs)%nat → cur < nib x) →
  ∃ r, last_index_loop (E := E) kvs d fuel cur i j = Ok r ∧ (i <= r <= j)%nat ∧ nib r <= cur ∧
    ∀ x, (r < x < length kvs)%nat → cur < nib x.
Proof.
  revert i j. induction fuel as [|fuel IH]; intros i j Hf Hij Hi Hj; cbn [last_index_loop].
  { exists i. split_and!; [done|lia..|]. intros x Hx. apply Hj. lia. }
  destruct (Nat.ltb_spec i j) as [Hlt|Hge].
  - set (mid := (j - (j - i) / 2)%nat).
    assert (i < mid <= j)%nat as Hmid.
    { unfold mid. pose proof (Nat.Div0.div_lt_upper_bound (j - i) 2 (j - i)). lia. }
    rewrite nibble_at_run by lia. run_ok. destruct (N.ltb_spec cur (nib mid)).
    + destruct (IH i (mid - 1)%nat) as (r & -> & ? & ? & ?); [lia|lia|done| |].
      { intros x Hx. pose proof (Hsorted mid x ltac:(lia)). lia. }
      exists r. split_and!; [done|lia..|done].
    + destruct (IH mid j) as (r & -> & ? & ? & ?); [lia|lia|done|done|].
      exists r. split_and!; [done|lia..|done].
  - exists i. split_and!; [done|lia..|]. intros x Hx. apply Hj. lia.
Qed.

(** The cuts of a list from [pos] on. *)
Inductive grouping : nat → list (nat * nat) → Prop :=
| grouping_end : grouping (length kvs) []
| grouping_cons pos r rest :
    (pos <= r < length kvs)%nat → nib r = nib pos →
    (∀ x, (r < x < length kvs)%nat → nib pos < nib x) →
    grouping (r + 1) rest → grouping pos ((pos, r) :: rest).

Lemma nibble_ranges_loop_run {E} fuel pos :
  (pos <= length kvs)%nat → (length kvs - pos < fuel)%nat →
  ∃ ranges, nibble_ranges_loop (E := E) kvs d fuel pos = Ok ranges ∧ grouping pos ranges.
Proof.
  revert pos. induction fuel as [|fuel IH]; intros pos Hpos Hf; [lia|]. cbn [nibble_ranges_loop].
  unfold nibble_range_next. destruct (Nat.ltb_spec pos (length kvs)) as [Hlt|Hge].
  - rewrite nibble_at_run by done. run_ok.
    destruct (last_index_loop_run (E := E) (length kvs) (nib pos) pos (length kvs - 1))
      as (r & -> & ? & Hle & Habove); [lia|lia|done|intros; lia|]. run_ok.
    destruct (IH (r + 1)%nat) as (ranges & -> & Hg); [lia|lia|]. run_ok.
    eexists. split; [done|]. constructor; [lia| |done|done].
    pose proof (Hsorted pos r ltac:(lia)). lia.
  - run_ok. exists []. split; [done|]. replace pos with (length kvs) by lia. constructor.
Qed.

(** The slice of a range is the group of its nibble. *)
Definition group (i : N) : list (HashValue * A) := filter (λ e, hash_nibble e.1 d = i) kvs.
Definition range_of (lr : nat * nat) (i : N) : Prop :=
  ∃ e, kvs !! lr.1 = Some e ∧ hash_nibble e.1 d = i ∧ slice (E := anyhow) kvs lr.1 lr.2 = Ok (group i).

Lemma nib_lookup i e : kvs !! i = Some e → nib i = hash_nibble e.1 d.
Proof. unfold nib. by intros ->. Qed.
Lemma slice_group pos r :
  (pos <= r < length kvs)%nat → nib r = nib pos → (∀ x, (x < pos)%nat → nib x < nib pos) →
  (∀ x, (r < x < length kvs)%nat → nib pos < nib x) → range_of (pos, r) (nib pos).
Proof.
  intros Hpr Hr Hlo Hhi. destruct (lookup_lt_is_Some_2 kvs pos ltac:(lia)) as [e He].
  exists e. cbn [fst snd]. split_and!; [done|by rewrite (nib_lookup pos e)|].
  unfold slice. rewrite (proj2 (Nat.leb_le _ _)), (proj2 (Nat.ltb_lt _ _)) by lia. cbn. f_equal.
  unfold group. rewrite <- (take_drop pos kvs) at 2. rewrite <- (take_drop (r + 1 - pos) (drop pos kvs)) at 2.
  rewrite drop_drop, !filter_app.
  rewrite (list_filter_none _ (take pos kvs)), (list_filter_none _ (drop _ kvs)).
  - rewrite app_nil_r. cbn. symmetry. apply list_filter_id. intros e' [i Hi]%list_elem_of_lookup.
    apply lookup_take_Some in Hi as [Hi ?]. rewrite lookup_drop in Hi.
    rewrite <- (nib_lookup _ _ Hi).
    pose proof (Hsorted pos (pos + i) ltac:(lia)). pose proof (Hsorted (pos + i) r ltac:(lia)). lia.
  - intros e' [i Hi]%list_elem_of_lookup. rewrite lookup_drop in Hi. apply lookup_lt_Some in Hi as Hl.
    rewrite <- (nib_lookup _ _ Hi). pose proof (Hhi (pos + (r + 1 - pos) + i)%nat ltac:(lia)). lia.
  - intros e' [i Hi]%list_elem_of_lookup. apply lookup_take_Some in Hi as [Hi ?].
    rewrite <- (nib_lookup _ _ Hi). pose proof (Hlo i ltac:(lia)). lia.
Qed.
Lemma grouping_ranges pos ranges :
  grouping pos ranges → (∀ x, (x < pos)%nat → (pos < length kvs)%nat → nib x < nib pos) →
  ∃ ixs, Forall2 range_of ranges ixs ∧ NoDup ixs ∧ (∀ i, i ∈ ixs ↔ ∃ x, (pos <= x < length kvs)%nat ∧ nib x = i).
Proof.
  induction 1 as [|pos r rest Hpr Hr Hhi Hg IH]; intros Hlo.
  - exists []. split_and!; [constructor|constructor|]. intros i. rewrite elem_of_nil. split; [done|]. intros (x & ? & _). lia.
  - destruct IH as (ixs & Hall & Hnd & Hin).
    { intros x Hx Hr1. pose proof (Hhi (r + 1)%nat ltac:(lia)). destruct (decide (x < pos)%nat).
      - pose proof (Hlo x ltac:(lia) ltac:(lia)). lia.
      - pose proof (Hsorted x r ltac:(lia)). lia. }
    exists (nib pos :: ixs). split_and!.
    + constructor; [|done]. apply slice_group; [done|done| |done]. intros x Hx. apply Hlo; lia.
    + constructor; [|done]. rewrite Hin. intros (x & Hx & Hn). pose proof (Hhi x ltac:(lia)). lia.
    + intros i. rewrite elem_of_cons, Hin. split.
      * intros [->|(x & ? & ?)]; [exists pos|exists x]; (split; [lia|done]).
      * intros (x & Hx & <-). destruct (decide (x <= r)%nat).
        -- left. pose proof (Hsorted pos x ltac:(lia)). pose proof (Hsorted x r ltac:(lia)). lia.
        -- right. exists x. split; [lia|done].
Qed.
Lemma nibble_ranges_run :
  d < 64 →
  ∃ ranges ixs, nibble_ranges (E := anyhow) kvs d = Ok ranges ∧ Forall2 range_of ranges ixs ∧ NoDup ixs ∧
    (∀ i, i ∈ ixs ↔ ∃ e, e ∈ kvs ∧ hash_nibble e.1 d = i).
Proof.
  intros Hd. unfold nibble_ranges. rewrite (proj2 (N.ltb_lt d ROOT_NIBBLE_HEIGHT)) by done. run_ok.
  destruct (nibble_ranges_loop_run (E := anyhow) (S (length kvs)) 0) as (ranges & -> & Hg); [lia|lia|].
  destruct (grouping_ranges 0 ranges Hg) as (ixs & Hall & Hnd & Hin); [intros; lia|].
  exists ranges, ixs. split_and!; [done..|]. intros i. rewrite Hin. split.
  - intros (x & Hx & <-). destruct (lookup_lt_is_Some_2 kvs x ltac:(lia)) as [e He].
    exists e. split; [by eapply list_elem_of_lookup_2|]. by rewrite (nib_lookup x e).
  - intros (e & [x Hx]%list_elem_of_lookup & <-). exists x. split; [|by apply nib_lookup].
    apply lookup_lt_Some in Hx. lia.
Qed.
End ranges_spec.

(** ** Contents and their updates *)

Section update.
Context `{!SparseHashes} {K : Type}.
Abbreviation content := (gmap HashValue (HashValue * (K * Version))).
Abbreviation updates := (gmap HashValue (option (HashValue * K))).
Abbreviation store := (gmap NodeKey (Node K)).
Abbreviation kv := (HashValue * option (HashValue * K))%type.
Abbreviation nodes := (list (NodeKey * Node K)).
Abbreviation child_key path i c := (mkNodeKey (ch_version c) (path_of (path ++ [i]))).

(** The content after the updates of a version: values set, keys deleted, the rest kept. *)
Definition update_entry (version : Version) (u : option (option (HashValue * K)))
    (old : option (HashValue * (K * Version))) : option (HashValue * (K * Version)) :=
  match u with
  | Some (Some (value_hash, state_key)) => Some (value_hash, (state_key, version))
  | Some None => None
  | None => old
  end.
Definition updated (version : Version) (u : updates) (m : content) : content :=
  merge (update_entry version) u m.

Lemma lookup_updated v u m k : updated v u m !! k = update_entry v (u !! k) (m !! k).
Proof. unfold updated. rewrite lookup_merge. by destruct (u !! k), (m !! k). Qed.
Lemma sub_lookup_None {A} d i (m : gmap HashValue A) k :
  hash_nibble k (N.of_nat d) ≠ i → sub d i m !! k = None.
Proof. intros Hne. destruct (sub d i m !! k) eqn:Hk; [|done]. by apply lookup_sub in Hk as [_ ?]. Qed.
Lemma sub_lookup_same {A} d i (m : gmap HashValue A) k :
  hash_nibble k (N.of_nat d) = i → sub d i m !! k = m !! k.
Proof. intros Heq. apply option_eq. intros v. rewrite lookup_sub. naive_solver. Qed.
Lemma sub_updated v d i u m : sub d i (updated v u m) = updated v (sub d i u) (sub d i m).
Proof.
  apply map_eq. intros k. rewrite lookup_updated.
  destruct (decide (hash_nibble k (N.of_nat d) = i)).
  - by rewrite !sub_lookup_same, lookup_updated.
  - by rewrite !sub_lookup_None.
Qed.
Lemma updated_nothing v m : updated v ∅ m = m.
Proof. apply map_eq. intros k. by rewrite lookup_updated, lookup_empty. Qed.

(** Sorted lists of updates below a path *)
Definition kvs_ok (path : list N) (kvs : list kv) : Prop :=
  StronglySorted N.lt kvs.*1 ∧ ∀ e, e ∈ kvs → key_in path e.1 ∧ hash_wf e.1.
Definition kvs_map (kvs : list kv) : updates := list_to_map kvs.

Lemma sorted_lookup (l : list N) i j x y :
  StronglySorted N.lt l → (i < j)%nat → l !! i = Some x → l !! j = Some y → x < y.
Proof.
  intros Hs. revert i j. induction Hs as [|z l Hs IH Hz]; intros i j Hij Hi Hj; [done|].
  destruct j as [|j]; [lia|]. destruct i as [|i].
  - injection Hi as <-. rewrite Forall_lookup in Hz. eauto.
  - apply (IH i j); [lia|done..].
Qed.
Lemma kvs_NoDup path kvs : kvs_ok path kvs → NoDup kvs.*1.
Proof.
  intros [Hs _]. induction Hs as [|x l Hs IH Hx]; constructor; [|done].
  intros Hin. rewrite Forall_forall in Hx. specialize (Hx x Hin). lia.
Qed.
Lemma kvs_lookup path kvs k o : kvs_ok path kvs → kvs_map kvs !! k = Some o ↔ (k, o) ∈ kvs.
Proof. intros Hok. symmetry. apply elem_of_list_to_map. by eapply kvs_NoDup. Qed.
Lemma kvs_keys path kvs k o : kvs_ok path kvs → kvs_map kvs !! k = Some o → key_in path k ∧ hash_wf k.
Proof. intros Hok Hk%(kvs_lookup path); [|done]. by apply Hok in Hk. Qed.
Lemma kvs_sorted path kvs :
  kvs_ok path kvs → (length path < 64)%nat →
  ∀ i j, (i <= j < length kvs)%nat → nib kvs (N.of_nat (length path)) i <= nib kvs (N.of_nat (length path)) j.
Proof.
  intros [Hs Hk] Hlen i j Hij. destruct (decide (i = j)) as [->|Hne]; [lia|].
  destruct (lookup_lt_is_Some_2 kvs i ltac:(lia)) as [e1 H1].
  destruct (lookup_lt_is_Some_2 kvs j ltac:(lia)) as [e2 H2].
  rewrite (nib_lookup _ _ _ _ H1), (nib_lookup _ _ _ _ H2).
  destruct (Hk e1) as [Hin1 Hwf1]; [by eapply list_elem_of_lookup_2|].
  destruct (Hk e2) as [Hin2 Hwf2]; [by eapply list_elem_of_lookup_2|].
  apply nibble_mono; [done..| |].
  - intros x Hx. pose proof (key_in_nibble path e1.1 x Hin1 Hx). pose proof (key_in_nibble path e2.1 x Hin2 Hx). congruence.
  - apply N.lt_le_incl, (sorted_lookup kvs.*1 i j); [done|lia|by rewrite list_lookup_fmap, H1|by rewrite list_lookup_fmap, H2].
Qed.
Lemma sorted_filter_keys (P : kv → Prop) `{!∀ x, Decision (P x)} (kvs : list kv) :
  StronglySorted N.lt kvs.*1 → StronglySorted N.lt (filter P kvs).*1.
Proof.
  induction kvs as [|e kvs IH]; intros Hs; [done|]. apply StronglySorted_inv in Hs as [Hs He].
  rewrite filter_cons. case_decide; [|auto]. rewrite fmap_cons. constructor; [auto|].
  rewrite Forall_forall in *. intros x Hx. apply He. apply list_elem_of_fmap in Hx as (y & -> & Hy).
  apply list_elem_of_filter in Hy as [_ Hy]. by apply list_elem_of_fmap_2.
Qed.
Lemma kvs_ok_group path kvs i :
  kvs_ok path kvs → (length path < 64)%nat → kvs_ok (path ++ [i]) (group kvs (N.of_nat (length path)) i).
Proof.
  intros [Hs Hk] Hlen. split; [by apply sorted_filter_keys|].
  intros e [Hi He]%list_elem_of_filter. destruct (Hk e He) as [? ?]. rewrite key_in_snoc by done. done.
Qed.
Lemma group_map path kvs i :
  kvs_ok path kvs → (length path < 64)%nat →
  kvs_map (group kvs (N.of_nat (length path)) i) = sub (length path) i (kvs_map kvs).
Proof.
  intros Hok Hlen. apply map_eq. intros k. apply option_eq. intros o.
  rewrite (kvs_lookup (path ++ [i])) by by apply kvs_ok_group.
  rewrite lookup_sub, (kvs_lookup path) by done. unfold group. rewrite list_elem_of_filter. cbn. naive_solver.
Qed.
Lemma kvs_bottom path kvs :
  kvs_ok path kvs → length path = 64%nat → kvs ≠ [] → ∃ e, kvs = [e].
Proof.
  intros Hok Hlen Hne. destruct kvs as [|e1 [|e2 kvs]]; [done|eauto|]. exfalso.
  pose proof (kvs_NoDup _ _ Hok) as Hnd. destruct Hok as [_ Hk].
  destruct (Hk e1 ltac:(left)) as [? ?], (Hk e2 ltac:(right; left)) as [? ?].
  rewrite !fmap_cons in Hnd. apply NoDup_cons in Hnd as [Hnd _]. apply Hnd.
  rewrite (key_in_unique path e1.1 e2.1) by done. left.
Qed.
Lemma updated_keys path v kvs m :
  kvs_ok path kvs → (∀ k x, m !! k = Some x → key_in path k ∧ hash_wf k) →
  ∀ k x, updated v (kvs_map kvs) m !! k = Some x → key_in path k ∧ hash_wf k.
Proof.
  intros Hok Hm k x. rewrite lookup_updated. destruct (kvs_map kvs !! k) as [o|] eqn:Hk.
  - intros _. by eapply kvs_keys.
  - apply Hm.
Qed.

(** ** The hash cache *)

Definition prefix_content (l : list N) (m : content) : content := filter (λ kx, key_in l kx.1) m.
(** The hashes the caller computed are those of the content to come. *)
Definition cache_ok (hash_cache : option (gmap NibblePath HashValue)) (path : list N) (m : content) : Prop :=
  match hash_cache with
  | None => True
  | Some cache => ∀ l, nibbles_ok l → path `prefix_of` l → prefix_content l m ≠ ∅ →
      cache !! path_of l = Some (smt_hash (256 - 4 * length l) (value_hashes (prefix_content l m)))
  end.

Lemma lookup_prefix_content l m k x : prefix_content l m !! k = Some x ↔ m !! k = Some x ∧ key_in l k.
Proof. unfold prefix_content. by rewrite map_lookup_filter_Some. Qed.
Lemma prefix_content_sub path i l m :
  (length path < 64)%nat → path ++ [i] `prefix_of` l →
  prefix_content l (sub (length path) i m) = prefix_content l m.
Proof.
  intros Hlen [ext ->]. apply map_eq. intros k. apply option_eq. intros x.
  rewrite !lookup_prefix_content, lookup_sub. split; [naive_solver|]. intros [? Hk]. split_and!; [done| |done].
  apply key_in_prefix in Hk. by apply key_in_snoc in Hk as [_ ?].
Qed.
Lemma prefix_content_child path i m :
  (length path < 64)%nat → (∀ k x, m !! k = Some x → key_in path k ∧ hash_wf k) →
  prefix_content (path ++ [i]) m = sub (length path) i m.
Proof.
  intros Hlen Hm. apply map_eq. intros k. apply option_eq. intros x.
  rewrite lookup_prefix_content, lookup_sub, key_in_snoc by done. naive_solver.
Qed.
Lemma cache_ok_sub hash_cache path i m :
  (length path < 64)%nat → cache_ok hash_cache path m → cache_ok hash_cache (path ++ [i]) (sub (length path) i m).
Proof.
  intros Hlen Hc. destruct hash_cache as [cache|]; [|done]. intros l Hl Hpre Hne.
  rewrite prefix_content_sub in * by done. apply Hc; [done| |done].
  etrans; [|done]. by apply prefix_app_r.
Qed.

Definition hash_of (nd : Node K) : HashValue :=
  match node_hash (E := anyhow) nd with Ok h => h | _ => hash_zero end.
Lemma rep_hash_of s path nd m :
  rep s path nd m → node_hash (E := anyhow) nd = Ok (hash_of nd) ∧
    hash_of nd = smt_hash (256 - 4 * length path) (value_hashes m).
Proof. intros Hr. unfold hash_of. by rewrite (rep_hash _ _ _ _ Hr). Qed.
Lemma get_hash_run s hash_cache path i v nd m :
  (length path < 64)%nat → (∀ k x, m !! k = Some x → key_in path k ∧ hash_wf k) →
  cache_ok hash_cache path m → rep s (path ++ [i]) nd (sub (length path) i m) →
  get_hash (E := anyhow) (mkNodeKey v (path_of (path ++ [i]))) nd hash_cache = Ok (hash_of nd).
Proof.
  intros Hlen Hm Hc Hr. destruct (rep_hash_of _ _ _ _ Hr) as [Hh Hs]. destruct hash_cache as [cache|]; [|done].
  cbn [get_hash nk_nibble_path]. rewrite (Hc (path ++ [i])).
  - cbn. f_equal. by rewrite Hs, prefix_content_child.
  - by eapply rep_path.
  - by apply prefix_app_r.
  - rewrite prefix_content_child by done. intros He. apply rep_size in Hr. rewrite He, map_size_empty in Hr. lia.
Qed.
End update.
