(* ===== verification/JmtPut.v ===== *)
(** * Updating a Jellyfish Merkle tree

    [batch_put_value_set] on a stored tree returns the nodes of a tree that holds the updated map,
    the root hash of that map, and the nodes of the old tree the new one does not use. *)
From S2P Require Import Prelude Crypto Nibble SparseMerkle JmtNode Jmt JmtTree JmtUpdate.
Local Open Scope N_scope.

Section put.
Context `{!SparseHashes} {K : Type}.
Abbreviation content := (gmap HashValue (HashValue * (K * Version))).
Abbreviation store := (gmap NodeKey (Node K)).
Abbreviation kv := (HashValue * option (HashValue * K))%type.
Abbreviation nodes := (list (NodeKey * Node K)).
Abbreviation child_key path i c := (mkNodeKey (ch_version c) (path_of (path ++ [i]))).
Abbreviation content_in path m := (∀ k x, m !! k = Some x → key_in path k ∧ hash_wf k).

(** ** The nodes below a node *)

Inductive reach_below (s : store) : list N → Node K → NodeKey → Prop :=
| reach_child path n i c :
    in_children n !! i = Some c → reach_below s path (NodeInternal n) (child_key path i c)
| reach_deeper path n i c nd k :
    in_children n !! i = Some c → s !! child_key path i c = Some nd →
    reach_below s (path ++ [i]) nd k → reach_below s path (NodeInternal n) k.

Lemma reach_mono s s' path nd k : s ⊆ s' → reach_below s path nd k → reach_below s' path nd k.
Proof.
  intros Hsub. induction 1 as [|path n i c nd k Hi Hst _ IH]; [by constructor|].
  eapply reach_deeper; [done| |done]. by eapply lookup_weaken.
Qed.
Lemma reach_mono_inv s s' path nd m k :
  rep s path nd m → s ⊆ s' → reach_below s' path nd k → reach_below s path nd k.
Proof.
  intros Hrep Hsub. revert k.
  induction Hrep as [? k0 vh idx|path n m nds Hok Hlen Hkeys Hsz Hlc Hnone Hsome Hrep IH]; intros k; inversion 1; subst.
  - by constructor.
  - match goal with Hi : in_children n !! ?i = Some ?c |- _ =>
      destruct (Hsome i c Hi) as (_ & Hst & _); eapply reach_deeper; [exact Hi|exact Hst|]; apply (IH i c Hi) end.
    match goal with Hst : s' !! _ = Some ?nd |- _ => assert (nds i = nd) as ->; [|done] end.
    pose proof (lookup_weaken _ _ _ _ Hst Hsub). congruence.
Qed.
Lemma reach_leaf s path l k : ¬ reach_below s path (NodeLeaf l) k.
Proof. by inversion 1. Qed.

(** ** Internal nodes built from their children *)

Lemma size_by_nibble {A} d (m : gmap HashValue A) l :
  NoDup l → (∀ k x, m !! k = Some x → hash_nibble k (N.of_nat d) ∈ l) →
  size m = sum_list ((λ i, size (sub d i m)) <$> l).
Proof.
  revert m. induction l as [|i l IH]; intros m Hnd Hin.
  - assert (m = ∅) as ->; [|by rewrite map_size_empty]. apply map_empty. intros k.
    destruct (m !! k) as [x|] eqn:Hk; [|done]. by apply Hin, elem_of_nil in Hk.
  - apply NoDup_cons in Hnd as [Hni Hnd]. cbn [fmap list_fmap sum_list].
    set (m' := filter (λ kx, hash_nibble kx.1 (N.of_nat d) ≠ i) m).
    assert (m = sub d i m ∪ m') as Hm by (symmetry; apply map_filter_union_complement).
    rewrite Hm at 1. rewrite map_size_disj_union by apply map_disjoint_filter_complement. f_equal.
    rewrite (IH m'); [|done|].
    + f_equal. apply list_fmap_ext. intros j x Hx%list_elem_of_lookup_2. f_equal.
      apply map_eq. intros k. apply option_eq. intros y. rewrite !lookup_sub. unfold m'.
      rewrite map_lookup_filter_Some. cbn. split; [naive_solver|].
      intros [Hk Hj]. split_and!; [done| |done]. intros Heq. apply Hni. by rewrite <- Heq, Hj.
    + intros k x Hk. unfold m' in Hk. apply map_lookup_filter_Some in Hk as [Hk Hne].
      apply Hin in Hk. apply elem_of_cons in Hk as [|]; done.
Qed.
(** What a map of children must satisfy to make the node that holds [m]. *)
Record children_rep (s : store) (path : list N) (ch : Children) (nds : N → Node K) (m : content) : Prop := {
  cr_path : nibbles_ok path;
  cr_len : (length path < 64)%nat;
  cr_keys : content_in path m;
  cr_none i : ch !! i = None → sub (length path) i m = ∅;
  cr_some i c : ch !! i = Some c →
    i < 16 ∧ s !! child_key path i c = Some (nds i) ∧ node_hash (E := anyhow) (nds i) = Ok (ch_hash c) ∧
    node_type (nds i) = ch_node_type c ∧ rep s (path ++ [i]) (nds i) (sub (length path) i m);
}.

Lemma children_leaf_count {E} s path ch nds m i c :
  children_rep s path ch nds m → ch !! i = Some c →
  child_leaf_count (E := E) c = Ok (N.of_nat (size (sub (length path) i m))).
Proof.
  intros Hcr Hi. destruct (cr_some _ _ _ _ _ Hcr i c Hi) as (_ & _ & _ & Ht & Hr).
  unfold child_leaf_count. rewrite <- Ht.
  destruct (rep_type _ _ _ _ Hr) as [(_ & -> & ->)|(_ & _ & ->)]; done.
Qed.
Lemma children_total s path ch nds m :
  children_rep s path ch nds m →
  size m = sum_list ((λ ic, size (sub (length path) ic.1 m)) <$> map_to_list ch).
Proof.
  intros Hcr. rewrite (size_by_nibble (length path) m (map_to_list ch).*1).
  - by rewrite <- list_fmap_compose.
  - apply NoDup_fst_map_to_list.
  - intros k x Hk. destruct (ch !! hash_nibble k (N.of_nat (length path))) as [c|] eqn:Hc.
    + change (hash_nibble k (N.of_nat (length path))) with (hash_nibble k (N.of_nat (length path)), c).1.
      apply list_elem_of_fmap_2, elem_of_map_to_list. done.
    + pose proof (cr_none _ _ _ _ _ Hcr _ Hc) as He.
      assert (sub (length path) (hash_nibble k (N.of_nat (length path))) m !! k = Some x) as Hx by by apply lookup_sub.
      by rewrite He, lookup_empty in Hx.
Qed.
Lemma sum_children_run {E} s path ch nds m :
  children_rep s path ch nds m → N.of_nat (size m) < 2 ^ 64 →
  sum_leaf_counts (E := E) (map_to_list ch).*2 = Ok (N.of_nat (size m)).
Proof.
  intros Hcr Hlt. pose proof (children_total _ _ _ _ _ Hcr) as Htot.
  assert (∀ l, l ⊆ map_to_list ch → N.of_nat (sum_list ((λ ic, size (sub (length path) ic.1 m)) <$> l)) < 2 ^ 64 →
    sum_leaf_counts (E := E) l.*2 = Ok (N.of_nat (sum_list ((λ ic, size (sub (length path) ic.1 m)) <$> l)))) as Hgen.
  { induction l as [|[i c] l IH]; intros Hsub Hl; [done|]. rewrite !fmap_cons in *. cbn [sum_list_with id sum_leaf_counts fst snd] in *.
    rewrite (children_leaf_count s path ch nds m i c) by (done || apply elem_of_map_to_list, Hsub; left). run_ok.
    rewrite IH by (first [lia | intros ? ?; apply Hsub; by right]). run_ok.
    unfold u64_add, u64_checked_add. rewrite (proj2 (N.ltb_lt _ _)) by lia. cbn. f_equal. lia. }
  rewrite Htot in *. by apply Hgen.
Qed.
Lemma internal_node_new_run {E} s path ch nds m :
  children_rep s path ch nds m → (2 <= size m)%nat → N.of_nat (size m) < 2 ^ 64 →
  internal_node_new (E := E) ch = Ok (mkInternalNode ch (N.of_nat (size m))) ∧
  rep s path (NodeInternal (mkInternalNode ch (N.of_nat (size m)))) m.
Proof.
  intros Hcr Hsz Hlt. split.
  - unfold internal_node_new, internal_node_new_impl. rewrite bool_decide_false.
    2:{ intros ->. pose proof (children_total _ _ _ _ _ Hcr) as Ht. rewrite map_to_list_empty in Ht. cbn in Ht. lia. }
    run_ok. cbn [negb]. run_ok.
    assert (match map_to_list ch with
            | [(_, c)] => ensure (negb (child_is_leaf c)) (fmt "If there's only one child, it must not be a leaf." [])
            | _ => Ok tt end = Ok tt) as ->.
    { pose proof (children_total _ _ _ _ _ Hcr) as Ht.
      destruct (map_to_list ch) as [|[i c] [|]] eqn:Hl; [done| |done]. cbn in Ht.
      assert (ch !! i = Some c) as Hi by (apply elem_of_map_to_list; rewrite Hl; left).
      destruct (cr_some _ _ _ _ _ Hcr i c Hi) as (_ & _ & _ & Hty & Hr).
      rewrite (child_type_leaf c _ Hty). destruct (rep_type _ _ _ _ Hr) as [(_ & ? & _)|(-> & _)]; [lia|done]. }
    run_ok. rewrite (sum_children_run s path ch nds m) by done. done.
  - destruct Hcr as [Hp Hlen Hk Hn Hs]. eapply rep_internal with (nodes := nds); try done;
      intros i c Hi; by destruct (Hs i c Hi) as (?&?&?&?&?).
Qed.

(** ** The nodes of a new version *)


(** The node key is at the path or below it, and below one of its children. *)
Definition under (path : list N) (k : NodeKey) : Prop :=
  ∃ ext, nibbles_ok (path ++ ext) ∧ nk_nibble_path k = path_of (path ++ ext).
Definition below (path : list N) (k : NodeKey) : Prop := ∃ i, under (path ++ [i]) k.

Lemma under_self v path : nibbles_ok path → under path (mkNodeKey v (path_of path)).
Proof. exists []. by rewrite app_nil_r. Qed.
Lemma under_child path i k : under (path ++ [i]) k → under path k.
Proof. intros (ext & Hok & Hk). exists (i :: ext). by rewrite <- app_assoc in *. Qed.
Lemma below_child path i k : below (path ++ [i]) k → below path k.
Proof. intros [j Hj]. exists i. by eapply under_child. Qed.
Lemma below_under path k : below path k → under path k.
Proof. intros [j Hj]. by eapply under_child. Qed.
Lemma under_disjoint path i j k : under (path ++ [i]) k → under (path ++ [j]) k → i = j.
Proof.
  intros (e1 & [H1 _] & Hk1) (e2 & [H2 _] & Hk2). rewrite Hk1 in Hk2. apply pack_inj in Hk2; [|done..].
  rewrite <- !app_assoc in Hk2. by apply app_inv_head in Hk2 as [= ->].
Qed.
Lemma below_not_self path v k : nibbles_ok path → below path k → k ≠ mkNodeKey v (path_of path).
Proof.
  intros [Hok _] (i & ext & [He _] & Hk) ->. cbn in Hk. apply pack_inj in Hk; [|done..].
  apply (f_equal length) in Hk. rewrite !length_app in Hk. cbn in Hk. lia.
Qed.
Lemma reach_under s path nd m k : rep s path nd m → reach_below s path nd k → below path k.
Proof.
  intros Hrep Hr. revert m Hrep.
  induction Hr as [path n i c Hi|path n i c nd k Hi Hst Hr IH]; intros m Hrep;
    inversion Hrep as [|? ? ? nds Hok Hlen Hkeys Hsz Hlc Hnone Hsome Hsub]; subst.
  - exists i. apply under_self. by apply (rep_path _ _ _ _ (Hsub i c Hi)).
  - destruct (Hsome i c Hi) as (_ & Hst' & _). rewrite Hst in Hst'. injection Hst' as ->.
    exists i. by eapply below_under, IH, Hsub.
Qed.
Lemma reach_stored s path nd m k : rep s path nd m → reach_below s path nd k → is_Some (s !! k).
Proof.
  intros Hrep Hr. revert m Hrep.
  induction Hr as [path n i c Hi|path n i c nd k Hi Hst Hr IH]; intros m Hrep;
    inversion Hrep as [|? ? ? nds Hok Hlen Hkeys Hsz Hlc Hnone Hsome Hsub]; subst;
    destruct (Hsome i c Hi) as (_ & Hst' & _); [by rewrite Hst'|].
  rewrite Hst in Hst'. injection Hst' as ->. by eapply IH, Hsub.
Qed.

Definition new_ok (v : Version) (path : list N) (new : nodes) : Prop :=
  NoDup new.*1 ∧ ∀ k, k ∈ new.*1 → nk_version k = v ∧ below path k.
(** The store after the new nodes are written to it. *)
Definition overlay (new : nodes) (s : store) : store := list_to_map new ∪ s.
Definition fresh (v : Version) (s : store) : Prop := ∀ k nd, s !! k = Some nd → nk_version k ≠ v.

Lemma overlay_new new s k nd : NoDup new.*1 → (k, nd) ∈ new → overlay new s !! k = Some nd.
Proof. intros Hnd Hk. unfold overlay. apply lookup_union_Some_l. by apply elem_of_list_to_map_1. Qed.
Lemma lookup_overlay new s k nd :
  overlay new s !! k = Some nd → (k, nd) ∈ new ∨ s !! k = Some nd.
Proof.
  unfold overlay. rewrite lookup_union_Some_raw. intros [Hk|[_ Hk]]; [left|by right].
  by apply elem_of_list_to_map_2.
Qed.
Lemma overlay_old v path new s : new_ok v path new → fresh v s → s ⊆ overlay new s.
Proof.
  intros [_ Hn] Hf. apply map_subseteq_spec. intros k nd Hk. unfold overlay. rewrite lookup_union_r; [done|].
  apply not_elem_of_list_to_map_1. intros Hin. apply (Hf k nd Hk). by apply Hn.
Qed.
Lemma overlay_mono v path new new' s :
  new_ok v path new' → fresh v s → new ⊆ new' → overlay new s ⊆ overlay new' s.
Proof.
  intros Hn Hf Hsub. apply map_subseteq_spec. intros k nd [Hk|Hk]%lookup_overlay.
  - apply overlay_new; [apply Hn|by apply Hsub].
  - eapply lookup_weaken; [exact Hk|]. by eapply overlay_old.
Qed.
Lemma new_ok_nil v path : new_ok v path [].
Proof. split; [constructor|]. by intros k ?%elem_of_nil. Qed.
Lemma new_ok_concat v path (ds : list (N * nodes)) :
  NoDup ds.*1 → (∀ d, d ∈ ds → new_ok v (path ++ [d.1]) d.2) → new_ok v path (concat ds.*2).
Proof.
  induction ds as [|[i new] ds IH]; intros Hnd Hall; [apply new_ok_nil|]. rewrite fmap_cons in Hnd.
  apply NoDup_cons in Hnd as [Hni Hnd]. destruct (Hall (i, new)) as [Hn Hb]; [left|]. cbn [fst snd] in *.
  destruct IH as [Hnc Hbc]; [done|intros; apply Hall; by right|].
  change (concat ((i, new) :: ds).*2) with (new ++ concat ds.*2). split; rewrite fmap_app.
  - apply NoDup_app. split_and!; [done| |done]. intros k Hk Hin.
    apply list_elem_of_fmap in Hin as ([k' nd] & -> & Hin). apply elem_of_concat in Hin as (new' & Hnew' & Hin).
    apply list_elem_of_fmap in Hnew' as ([j new''] & -> & Hj). cbn [fst snd] in *.
    destruct (Hall (j, new'')) as [_ Hbj]; [by right|]. cbn [fst snd] in *.
    assert (i = j) as ->; [|by apply Hni, (list_elem_of_fmap_2 fst _ _ Hj)].
    apply (under_disjoint path _ _ k'); apply below_under; [by apply Hb|].
    apply Hbj, (list_elem_of_fmap_2 fst _ _ Hin).
  - intros k [Hk|Hk]%elem_of_app; [|by apply Hbc]. destruct (Hb k Hk). split; [done|]. by eapply below_child.
Qed.

(** The nodes of the children of a new node *)
Definition level (v : Version) (path : list N) (l : list (N * Node K)) : nodes :=
  (λ x, (mkNodeKey v (path_of (path ++ [x.1])), x.2)) <$> l.
Lemma elem_of_level v path l k nd :
  (k, nd) ∈ level v path l ↔ ∃ i, k = mkNodeKey v (path_of (path ++ [i])) ∧ (i, nd) ∈ l.
Proof.
  unfold level. rewrite list_elem_of_fmap. split.
  - intros ([i nd'] & [= -> ->] & Hin). eauto.
  - intros (i & -> & Hin). by exists (i, nd).
Qed.
Lemma elem_of_level_keys v path l k :
  k ∈ (level v path l).*1 ↔ ∃ i, k = mkNodeKey v (path_of (path ++ [i])) ∧ i ∈ l.*1.
Proof.
  split.
  - intros ([k' nd] & -> & (i & -> & Hi)%elem_of_level)%list_elem_of_fmap. exists i. split; [done|].
    apply (list_elem_of_fmap_2 fst _ _ Hi).
  - intros (i & -> & ([i' nd] & -> & Hi)%list_elem_of_fmap).
    apply (list_elem_of_fmap_2 fst _ (_, nd)), elem_of_level. eauto.
Qed.
Lemma level_ok v path l :
  NoDup l.*1 → (∀ i, i ∈ l.*1 → nibbles_ok (path ++ [i])) → new_ok v path (level v path l).
Proof.
  intros Hnd Hok. split.
  - unfold level. rewrite <- list_fmap_compose.
    change (NoDup ((λ i, mkNodeKey v (path_of (path ++ [i]))) ∘ fst <$> l)). rewrite list_fmap_compose.
    apply NoDup_fmap_2_strong; [|done]. intros i j Hi Hj [= Heq1 Heq2].
    assert (path_of (path ++ [i]) = path_of (path ++ [j])) as Hp by (unfold path_of; by f_equal).
    apply pack_inj in Hp; [|apply (Hok i Hi)|apply (Hok j Hj)]. by apply app_inv_head in Hp as [= ->].
  - intros k (i & -> & Hi)%elem_of_level_keys. split; [done|]. exists i. by apply under_self, Hok.
Qed.
Lemma new_ok_level v path (ds : list (N * nodes)) l :
  NoDup ds.*1 → (∀ d, d ∈ ds → new_ok v (path ++ [d.1]) d.2 ∧ nibbles_ok (path ++ [d.1])) →
  NoDup l.*1 → l.*1 ⊆ ds.*1 → new_ok v path (concat ds.*2 ++ level v path l).
Proof.
  intros Hnd Hall Hl Hsub.
  assert (∀ i, i ∈ l.*1 → nibbles_ok (path ++ [i])) as Hli.
  { intros i Hi. apply Hsub, list_elem_of_fmap in Hi as (d & -> & Hd). by apply Hall. }
  destruct (new_ok_concat v path ds) as [Hn Hb]; [done|intros; by apply Hall|].
  destruct (level_ok v path l) as [Hnl Hbl]; [done..|].
  split; rewrite fmap_app.
  - apply NoDup_app. split_and!; [done| |done].
    intros k Hk (i & -> & Hi)%elem_of_level_keys.
    apply list_elem_of_fmap in Hk as ([k' nd] & Heq & Hin). cbn [fst] in Heq. subst k'.
    apply elem_of_concat in Hin as (new' & Hnew' & Hin).
    apply list_elem_of_fmap in Hnew' as ([j new''] & -> & Hj). cbn [fst snd] in *.
    destruct (Hall _ Hj) as [[_ Hbj] Hjok]. cbn [fst snd] in *.
    destruct (Hbj _ (list_elem_of_fmap_2 fst _ _ Hin)) as [_ Hbelow].
    assert (i = j) as -> by (apply (under_disjoint path _ _ (mkNodeKey v (path_of (path ++ [i]))));
      [by apply under_self, Hli|by apply below_under]).
    by apply (below_not_self _ v _ Hjok) in Hbelow.
  - intros k [Hk|Hk]%elem_of_app; [by apply Hb|by apply Hbl].
Qed.

(** ** What an update of a subtree returns *)

Definition tree_keys (s : store) (path : list N) (nk : NodeKey) (nd : Node K) (k : NodeKey) : Prop :=
  k = nk ∨ reach_below s path nd k.
Definition uses (s : store) (path : list N) (o : option (Node K)) (k : NodeKey) : Prop :=
  match o with Some nd => reach_below s path nd k | None => False end.
Definition stale_keys (old : list StaleNodeIndex) : list NodeKey := stale_node_key <$> old.

(** The subtree at [path] is to hold [m]; [D] are the keys of the old subtree there. The nodes the
    new one uses are the new ones and the old ones that are not stale. *)
Record result (s : store) (v : Version) (path : list N) (m : content) (D : NodeKey → Prop)
    (o : option (Node K)) (new : nodes) (old : list StaleNodeIndex) : Prop := {
  r_new : new_ok v path new;
  r_rep : match o with Some nd => rep (overlay new s) path nd m | None => m = ∅ end;
  r_uses k : uses (overlay new s) path o k ↔ k ∈ new.*1 ∨ (D k ∧ k ∉ stale_keys old);
  r_stale : Forall (λ x, stale_since_version x = v ∧ D (stale_node_key x)) old;
}.

Lemma result_iff s v path m (D D' : NodeKey → Prop) o new old :
  (∀ k, D k ↔ D' k) → result s v path m D o new old → result s v path m D' o new old.
Proof.
  intros HD [? ? Hu Hs]. constructor; [done|done|intros k; by rewrite Hu, HD|].
  eapply Forall_impl; [exact Hs|]. intros x [? ?]. by rewrite <- HD.
Qed.
Lemma result_leaf s v path l m :
  rep ∅ path (NodeLeaf l) m → result s v path m (λ _, False) (Some (NodeLeaf l)) [] [].
Proof.
  intros Hr. constructor; [apply new_ok_nil| | |constructor].
  - eapply rep_mono; [|exact Hr]. apply map_empty_subseteq.
  - intros k. cbn [uses]. split; [by intros ?%reach_leaf|]. intros [?%elem_of_nil|[[] _]]; done.
Qed.
Lemma result_none s v path : result s v path ∅ (λ _, False) None [] [].
Proof.
  constructor; [apply new_ok_nil|done| |constructor].
  intros k. cbn [uses]. split; [done|]. intros [?%elem_of_nil|[[] _]]; done.
Qed.
(** A result without nodes below it adds none, and leaves nothing of the old subtree. *)
Lemma result_flat s v path m D o new old :
  result s v path m D o new old → (∀ k, ¬ uses (overlay new s) path o k) →
  new = [] ∧ ∀ k, D k → k ∈ stale_keys old.
Proof.
  intros Hr Hno. split.
  - destruct new as [|x new]; [done|]. exfalso. apply (Hno x.1), (r_uses _ _ _ _ _ _ _ _ Hr). left.
    rewrite fmap_cons. left.
  - intros k Hk. destruct (decide (k ∈ stale_keys old)); [done|]. exfalso. apply (Hno k), (r_uses _ _ _ _ _ _ _ _ Hr). by right.
Qed.

Definition child_of (v : Version) (nd : Node K) : Child := mkChild (hash_of nd) v (node_type nd).

(** ** The contents of the children *)

Lemma snoc_ok path i : nibbles_ok path → (length path < 64)%nat → i < 16 → nibbles_ok (path ++ [i]).
Proof.
  intros [Hf _] Hlen Hi. split; [by apply Forall_app; split; [|apply Forall_singleton]|].
  rewrite length_app. cbn. lia.
Qed.

Lemma sub_nowhere d (m : content) : (∀ j, sub d j m = ∅) → m = ∅.
Proof.
  intros Hall. apply map_empty. intros k. destruct (m !! k) as [x|] eqn:Hk; [|done].
  assert (sub d (hash_nibble k (N.of_nat d)) m !! k = Some x) as Hx by by apply lookup_sub.
  by rewrite Hall, lookup_empty in Hx.
Qed.
Lemma sub_only d (m : content) i : (∀ j, j ≠ i → sub d j m = ∅) → sub d i m = m.
Proof.
  intros Hall. apply map_eq. intros k. destruct (decide (hash_nibble k (N.of_nat d) = i)) as [|Hne].
  - by apply sub_lookup_same.
  - rewrite sub_lookup_None by done. symmetry. rewrite <- (sub_lookup_same d (hash_nibble k (N.of_nat d)) m k) by done.
    by rewrite Hall, lookup_empty.
Qed.
Lemma size_sub_le d (m : content) i : (size (sub d i m) <= size m)%nat.
Proof. apply map_subseteq_size, map_filter_subseteq. Qed.
Lemma size_two d (m : content) i j :
  i ≠ j → (1 <= size (sub d i m))%nat → (1 <= size (sub d j m))%nat → (2 <= size m)%nat.
Proof.
  intros Hne Hi Hj. assert (sub d i m ##ₘ sub d j m) as Hdis.
  { apply map_disjoint_spec. intros k x y [_ ?]%lookup_sub [_ ?]%lookup_sub. congruence. }
  assert (sub d i m ∪ sub d j m ⊆ m) as Hsub.
  { apply map_union_least; apply map_filter_subseteq. }
  apply map_subseteq_size in Hsub. rewrite map_size_disj_union in Hsub by done. lia.
Qed.
(** A leaf can be moved up when it is the only entry. *)
Lemma leaf_moves_up (S : store) path m i lf :
  nibbles_ok path →
  rep S (path ++ [i]) (NodeLeaf lf) (sub (length path) i m) → (∀ j, j ≠ i → sub (length path) j m = ∅) →
  ∀ S' : store, rep S' path (NodeLeaf lf) m.
Proof.
  intros Hpath Hr Hall S'. rewrite sub_only in Hr by done. inversion Hr; subst. constructor; [done| |done].
  by eapply key_in_prefix.
Qed.

(** ** A node and its updated children *)

Section assemble.
Context (s : store) (v : Version) (path : list N) (m : content) (olds : Children).
Context (ds : list ((N * option (Node K)) * (nodes * list StaleNodeIndex))).

(** The children that are updated, the new nodes of these and what they make stale *)
Definition ixs : list N := ds.*1.*1.
Definition created : list (N * Node K) := some_children ds.*1.
Definition below_new : nodes := concat ds.*2.*1.
Definition below_stale : list StaleNodeIndex := concat ds.*2.*2.
(** The keys of the old subtree of a child *)
Definition old_keys (i : N) (k : NodeKey) : Prop :=
  ∃ c nd, olds !! i = Some c ∧ s !! child_key path i c = Some nd ∧
    tree_keys s (path ++ [i]) (child_key path i c) nd k.
Definition all_old_keys (k : NodeKey) : Prop := ∃ i, old_keys i k.

Lemma elem_of_created i nd : (i, nd) ∈ created ↔ ∃ d, d ∈ ds ∧ d.1 = (i, Some nd).
Proof.
  unfold created, some_children. rewrite list_elem_of_omap. split.
  - intros ([j o] & (d & -> & Hd)%list_elem_of_fmap & Heq). exists d. split; [done|]. destruct d as [[j' o'] ?].
    cbn in *. destruct o' as [nd'|]; [|done]. by injection Heq as -> ->.
  - intros (d & Hd & Heq). exists d.1. split; [by apply list_elem_of_fmap_2|]. by rewrite Heq.
Qed.
Lemma elem_of_ixs i : i ∈ ixs ↔ ∃ d, d ∈ ds ∧ d.1.1 = i.
Proof.
  unfold ixs. rewrite <- list_fmap_compose, list_elem_of_fmap. cbn. naive_solver.
Qed.
Lemma elem_of_below_new k : k ∈ below_new.*1 ↔ ∃ d, d ∈ ds ∧ k ∈ d.2.1.*1.
Proof.
  unfold below_new. rewrite <- list_fmap_compose. split.
  - intros ([k' nd] & -> & (l & (d & -> & Hd)%list_elem_of_fmap & Hin)%elem_of_concat)%list_elem_of_fmap.
    exists d. split; [done|]. apply (list_elem_of_fmap_2 fst _ _ Hin).
  - intros (d & Hd & (x & -> & Hx)%list_elem_of_fmap). apply list_elem_of_fmap_2, elem_of_concat.
    exists d.2.1. split; [|done]. by apply (list_elem_of_fmap_2 (fst ∘ snd)).
Qed.
Lemma elem_of_below_stale x : x ∈ below_stale ↔ ∃ d, d ∈ ds ∧ x ∈ d.2.2.
Proof.
  unfold below_stale. rewrite <- list_fmap_compose, elem_of_concat. setoid_rewrite list_elem_of_fmap. cbn. naive_solver.
Qed.
Lemma elem_of_stale_keys k : k ∈ stale_keys below_stale ↔ ∃ d, d ∈ ds ∧ k ∈ stale_keys d.2.2.
Proof.
  unfold stale_keys. rewrite list_elem_of_fmap. setoid_rewrite elem_of_below_stale.
  setoid_rewrite list_elem_of_fmap. naive_solver.
Qed.

Context (Hfresh : fresh v s) (Hpath : nibbles_ok path) (Hlen : (length path < 64)%nat).
Context (Hkeys : content_in path m) (Hsize : N.of_nat (size m) < 2 ^ 64).
Context (Hnd : NoDup ixs).
Context (Hds : ∀ d, d ∈ ds → d.1.1 < 16 ∧
  result s v (path ++ [d.1.1]) (sub (length path) d.1.1 m) (old_keys d.1.1) d.1.2 d.2.1 d.2.2).
Context (Hold : ∀ i c, olds !! i = Some c → ∃ nd m0, i < 16 ∧
  s !! child_key path i c = Some nd ∧ node_hash (E := anyhow) nd = Ok (ch_hash c) ∧
  node_type nd = ch_node_type c ∧ rep s (path ++ [i]) nd m0 ∧ (i ∉ ixs → m0 = sub (length path) i m)).
Context (Hnone : ∀ i, olds !! i = None → i ∉ ixs → sub (length path) i m = ∅).

Lemma old_keys_under i k : old_keys i k → under (path ++ [i]) k ∧ is_Some (s !! k).
Proof.
  intros (c & nd & Hi & Hst & Hk). destruct (Hold i c Hi) as (nd' & m0 & Hlt & Hst' & _ & _ & Hr & _).
  rewrite Hst in Hst'. injection Hst' as <-. destruct Hk as [->|Hk].
  - split; [|by rewrite Hst]. by apply under_self, snoc_ok.
  - split; [eapply below_under, reach_under|eapply reach_stored]; done.
Qed.
(** Every updated child is listed once. *)
Lemma ds_unique d d' : d ∈ ds → d' ∈ ds → d.1.1 = d'.1.1 → d = d'.
Proof.
  intros [x Hx]%list_elem_of_lookup [y Hy]%list_elem_of_lookup Heq.
  assert (x = y) as ->; [|congruence]. eapply (NoDup_lookup ixs); [exact Hnd| |].
  - unfold ixs. by rewrite <- list_fmap_compose, list_lookup_fmap, Hx.
  - unfold ixs. by rewrite <- list_fmap_compose, list_lookup_fmap, Hy; cbn; rewrite Heq.
Qed.
Lemma created_NoDup : NoDup created.*1.
Proof.
  unfold created, ixs in *. clear -Hnd. induction ds as [|[[i o] ?] l IH]; [constructor|].
  rewrite !fmap_cons in Hnd. apply NoDup_cons in Hnd as [Hni Hnd']. specialize (IH Hnd').
  rewrite fmap_cons. unfold some_children in *. cbn [omap list_omap fst snd] in *. destruct o as [nd|]; [|done]. cbn.
  constructor; [|done]. intros Hin. apply Hni. apply list_elem_of_fmap in Hin as ([j nd'] & -> & Hin).
  apply list_elem_of_omap in Hin as ([j' o'] & Hin & Heq). cbn in *. destruct o'; [|done]. injection Heq as -> ->.
  apply (list_elem_of_fmap_2 fst _ _ Hin).
Qed.

Lemma stale_old d k : d ∈ ds → k ∈ stale_keys d.2.2 → old_keys d.1.1 k.
Proof.
  intros Hd (x & -> & Hx)%list_elem_of_fmap. destruct (Hds d Hd) as [_ Hr].
  pose proof (r_stale _ _ _ _ _ _ _ _ Hr) as Hs. rewrite Forall_forall in Hs. by apply Hs.
Qed.
(** What the children use is new, or old and not stale. *)
Lemma uses_below k :
  (∃ d, d ∈ ds ∧ uses (overlay d.2.1 s) (path ++ [d.1.1]) d.1.2 k) ∨ (∃ i, i ∉ ixs ∧ old_keys i k) ↔
  k ∈ below_new.*1 ∨ (all_old_keys k ∧ k ∉ stale_keys below_stale).
Proof.
  assert (∀ i d, d ∈ ds → old_keys i k → k ∈ stale_keys d.2.2 → d.1.1 = i) as Hsame.
  { intros i d Hd Hk Hs. apply (under_disjoint path _ _ k); apply old_keys_under; [|done]. by apply stale_old. }
  rewrite elem_of_below_new, elem_of_stale_keys. split.
  - intros [(d & Hd & Hu)|(i & Hi & Hk)].
    + destruct (Hds d Hd) as [_ Hr]. apply (r_uses _ _ _ _ _ _ _ _ Hr) in Hu as [Hu|[HD Hns]]; [left; eauto|right].
      split; [by eexists|]. intros (d' & Hd' & Hs). apply Hns. assert (d' = d) as ->; [|done].
      apply ds_unique; [done..|]. by apply Hsame.
    + right. split; [by eexists|]. intros (d' & Hd' & Hs). apply Hi, elem_of_ixs. exists d'. eauto.
  - intros [(d & Hd & Hk)|[[i Hk] Hns]].
    + left. exists d. split; [done|]. destruct (Hds d Hd) as [_ Hr]. apply (r_uses _ _ _ _ _ _ _ _ Hr). by left.
    + destruct (decide (i ∈ ixs)) as [(d & Hd & <-)%elem_of_ixs|]; [left|right; eauto].
      exists d. split; [done|]. destruct (Hds d Hd) as [_ Hr]. apply (r_uses _ _ _ _ _ _ _ _ Hr). right.
      split; [done|]. intros Hs. apply Hns. eauto.
Qed.
Lemma below_stale_ok : Forall (λ x, stale_since_version x = v ∧ all_old_keys (stale_node_key x)) below_stale.
Proof.
  rewrite Forall_forall. intros x (d & Hd & Hx)%elem_of_below_stale. destruct (Hds d Hd) as [_ Hr].
  pose proof (r_stale _ _ _ _ _ _ _ _ Hr) as Hs. rewrite Forall_forall in Hs. destruct (Hs x Hx). split; [done|by eexists].
Qed.
Lemma below_new_level l : l ≡ₚ created → new_ok v path (below_new ++ level v path l).
Proof.
  intros Hl. pose proof (new_ok_level v path ((λ d, (d.1.1, d.2.1)) <$> ds) l) as Hn.
  rewrite <- !list_fmap_compose in Hn. unfold below_new. rewrite <- list_fmap_compose. apply Hn.
  - unfold ixs in Hnd. by rewrite <- list_fmap_compose in Hnd.
  - intros x (d & -> & Hd)%list_elem_of_fmap. cbn. destruct (Hds d Hd) as [? Hr]. split; [apply Hr|by apply snoc_ok].
  - rewrite Hl. apply created_NoDup.
  - intros i. rewrite Hl. intros ([j nd] & -> & (d & Hd & Heq)%elem_of_created)%list_elem_of_fmap.
    apply list_elem_of_fmap. exists d. split; [|done]. cbn. by rewrite Heq.
Qed.
Lemma below_new_sub d : d ∈ ds → d.2.1 ⊆ below_new.
Proof.
  intros Hd x Hx. unfold below_new. rewrite <- list_fmap_compose. apply elem_of_concat.
  exists d.2.1. split; [|done]. by apply (list_elem_of_fmap_2 (fst ∘ snd)).
Qed.

(** *** The new internal node *)

Section internal.
Context (l : list (N * Node K)) (ch : Children) (Hl : l ≡ₚ created).
Context (Hch : ∀ i, ch !! i = match (list_to_map l : gmap N (Node K)) !! i with
                              | Some nd => Some (child_of v nd)
                              | None => if decide (i ∈ ixs) then None else olds !! i
                              end).
Abbreviation full := (overlay (below_new ++ level v path l) s).

Lemma lookup_listed i nd : (list_to_map l : gmap N (Node K)) !! i = Some nd ↔ ∃ d, d ∈ ds ∧ d.1 = (i, Some nd).
Proof.
  rewrite <- elem_of_created, <- Hl. symmetry. apply elem_of_list_to_map. rewrite Hl. apply created_NoDup.
Qed.
Lemma lookup_ch i c :
  ch !! i = Some c →
  (∃ d nd, d ∈ ds ∧ d.1 = (i, Some nd) ∧ c = child_of v nd) ∨ (i ∉ ixs ∧ olds !! i = Some c).
Proof.
  rewrite Hch. destruct (list_to_map l !! i) as [nd|] eqn:Hi.
  - intros [= <-]. left. apply lookup_listed in Hi as (d & Hd & Heq). eauto.
  - destruct (decide (i ∈ ixs)); [done|]. by right.
Qed.
Lemma full_child d : d ∈ ds → overlay d.2.1 s ⊆ full.
Proof.
  intros Hd. eapply overlay_mono; [by apply below_new_level|done|].
  intros x Hx. apply elem_of_app. left. by eapply below_new_sub.
Qed.
Lemma full_level i nd : (∃ d, d ∈ ds ∧ d.1 = (i, Some nd)) → full !! mkNodeKey v (path_of (path ++ [i])) = Some nd.
Proof.
  intros Hi. apply overlay_new; [by apply below_new_level|]. apply elem_of_app. right.
  apply elem_of_level. exists i. split; [done|]. rewrite Hl. by apply elem_of_created.
Qed.
Lemma full_old : s ⊆ full.
Proof. eapply overlay_old; [by apply below_new_level|done]. Qed.

Definition final (i : N) : Node K :=
  match (list_to_map l : gmap N (Node K)) !! i with
  | Some nd => nd
  | None => default NodeNull (c ← olds !! i; s !! child_key path i c)
  end.
Lemma final_children : children_rep full path ch final m.
Proof.
  constructor; [done..| |].
  - intros i. rewrite Hch. destruct (list_to_map l !! i) as [nd|] eqn:Hi; [done|].
    destruct (decide (i ∈ ixs)) as [(d & Hd & <-)%elem_of_ixs|]; [|by auto]. intros _.
    destruct (Hds d Hd) as [_ Hr]. pose proof (r_rep _ _ _ _ _ _ _ _ Hr) as Hrep.
    destruct (d.1.2) as [nd|] eqn:Ho; [|done]. exfalso.
    assert ((list_to_map l : gmap N (Node K)) !! d.1.1 = Some nd); [|congruence].
    apply lookup_listed. exists d. split; [done|]. by destruct d as [[] ?]; cbn in *; subst.
  - intros i c Hi. pose proof (Hch i) as Hi'. rewrite Hi in Hi'. unfold final.
    destruct (list_to_map l !! i) as [nd|] eqn:Hli.
    + injection Hi' as ->. apply lookup_listed in Hli as (d & Hd & Heq).
      destruct (Hds d Hd) as [Hlt Hr]. pose proof (r_rep _ _ _ _ _ _ _ _ Hr) as Hrep. rewrite Heq in *. cbn [fst snd] in *.
      split_and!; [done|by apply full_level; eauto|by eapply rep_hash_of|done|].
      eapply rep_mono; [by apply full_child|done].
    + destruct (decide (i ∈ ixs)) as [|Hni]; [done|]. symmetry in Hi'.
      destruct (Hold i c Hi') as (nd & m0 & Hlt & Hst & Hh & Ht & Hr & Hm0). rewrite (Hm0 Hni) in Hr.
      rewrite Hi'. cbn. rewrite Hst. cbn. split_and!; [done|by eapply lookup_weaken, full_old|done|done|].
      eapply rep_mono; [apply full_old|done].
Qed.
Lemma final_uses n k :
  in_children n = ch →
  reach_below full path (NodeInternal n) k ↔
  k ∈ (level v path l).*1 ∨
  (∃ d, d ∈ ds ∧ uses (overlay d.2.1 s) (path ++ [d.1.1]) d.1.2 k) ∨ (∃ i, i ∉ ixs ∧ old_keys i k).
Proof.
  intros Hn. split.
  - assert (∀ i c, ch !! i = Some c → k = child_key path i c ∨
        (∃ nd, full !! child_key path i c = Some nd ∧ reach_below full (path ++ [i]) nd k) →
      k ∈ (level v path l).*1 ∨
      (∃ d, d ∈ ds ∧ uses (overlay d.2.1 s) (path ++ [d.1.1]) d.1.2 k) ∨ (∃ i, i ∉ ixs ∧ old_keys i k)) as Hgo.
    { intros i c Hi Hk. apply lookup_ch in Hi as [(d & nd & Hd & Heq & ->)|[Hni Hi]].
      - destruct Hk as [->|(nd' & Hst & Hk)]; [left|right; left].
        + apply elem_of_level_keys. exists i. split; [done|]. rewrite Hl. change i with (i, nd).1.
          apply list_elem_of_fmap_2, elem_of_created. eauto.
        + cbn [child_of ch_version] in Hst. rewrite (full_level i nd) in Hst by eauto. injection Hst as <-.
          exists d. split; [done|]. destruct (Hds d Hd) as [_ Hr]. apply r_rep in Hr. rewrite Heq in *.
          cbn [fst snd uses] in *. eapply reach_mono_inv; [done|by apply full_child|done].
      - right. right. exists i. split; [done|]. destruct (Hold i c Hi) as (nd & m0 & Hlt & Hst & _ & _ & Hr & _).
        exists c, nd. split_and!; [done..|]. destruct Hk as [->|(nd' & Hst' & Hk)]; [by left|right].
        rewrite (lookup_weaken _ _ _ _ Hst full_old) in Hst'. injection Hst' as <-.
        by eapply reach_mono_inv; [|apply full_old|]. }
    inversion 1; subst; eapply Hgo; eauto.
  - destruct n as [ch' lc]. cbn in Hn. subst ch'. intros [Hk|[(d & Hd & Hu)|(i & Hni & c & nd & Hi & Hst & Hk)]].
    + apply elem_of_level_keys in Hk as (i & -> & Hi). rewrite Hl in Hi.
      apply list_elem_of_fmap in Hi as ([j nd] & -> & Hi%elem_of_created). cbn [fst].
      apply (reach_child full path (mkInternalNode ch lc) j (child_of v nd)). cbn.
      rewrite Hch. by rewrite (proj2 (lookup_listed j nd) Hi).
    + destruct d as [[i [nd|]] [new old]]; [|done]. cbn [fst snd uses] in *.
      assert (ch !! i = Some (child_of v nd)) as Hi by (rewrite Hch, (proj2 (lookup_listed i nd)); eauto).
      eapply reach_deeper; [exact Hi|by apply full_level; eauto|].
      eapply reach_mono; [|exact Hu]. by apply (full_child ((i, Some nd), (new, old))).
    + assert (ch !! i = Some c) as Hc.
      { rewrite Hch. destruct (list_to_map l !! i) as [nd'|] eqn:Hli.
        - apply lookup_listed in Hli as (d & Hd & Heq). destruct Hni. apply elem_of_ixs. exists d. by rewrite Heq.
        - by rewrite decide_False. }
      destruct Hk as [->|Hk]; [by apply reach_child|].
      eapply reach_deeper; [exact Hc|by eapply lookup_weaken, full_old|]. by eapply reach_mono; [apply full_old|].
Qed.
Lemma assemble_internal :
  (2 <= size m)%nat →
  ∃ n, internal_node_new (E := anyhow) ch = Ok n ∧
    result s v path m all_old_keys (Some (NodeInternal n)) (below_new ++ level v path l) below_stale.
Proof.
  intros Hsz. destruct (internal_node_new_run (E := anyhow) full path ch final m) as [Hrun Hrep]; [apply final_children|done..|].
  eexists. split; [exact Hrun|]. constructor; [by apply below_new_level|done| |apply below_stale_ok].
  intros k. cbn [uses]. rewrite final_uses by done. rewrite uses_below, fmap_app, elem_of_app. tauto.
Qed.
End internal.

(** *** Nothing left, or a leaf that moves up *)

Lemma below_new_ok : new_ok v path below_new.
Proof.
  destruct (below_new_level created) as [Hn Hb]; [done|]. rewrite fmap_app in *. split.
  - by apply NoDup_app in Hn as (? & _ & _).
  - intros k Hk. apply Hb, elem_of_app. by left.
Qed.
Lemma assemble_flat o extra :
  (∀ k, ¬ uses (overlay below_new s) path o k) →
  (∀ d, d ∈ ds → ∀ k, ¬ uses (overlay d.2.1 s) (path ++ [d.1.1]) d.1.2 k) →
  match o with Some nd => rep (overlay below_new s) path nd m | None => m = ∅ end →
  (∀ i k, i ∉ ixs → old_keys i k → k ∈ stale_keys extra) →
  Forall (λ x, stale_since_version x = v ∧ all_old_keys (stale_node_key x)) extra →
  result s v path m all_old_keys o below_new (below_stale ++ extra).
Proof.
  intros Hno Hds' Hrep Hkept Hex. constructor; [apply below_new_ok|done| |].
  - intros k. split; [by intros ?%Hno|]. intros Hk. exfalso.
    assert (k ∈ below_new.*1 ∨ (all_old_keys k ∧ k ∉ stale_keys below_stale ∧ k ∉ stale_keys extra)) as Hk'.
    { unfold stale_keys in *. rewrite fmap_app, elem_of_app in Hk. tauto. }
    assert (k ∈ below_new.*1 ∨ (all_old_keys k ∧ k ∉ stale_keys below_stale)) as Hu by tauto.
    apply uses_below in Hu as [(d & Hd & Hu)|(i & Hi & Hu)]; [by apply (Hds' d Hd) in Hu|].
    destruct Hk' as [Hk'|(_ & _ & Hns)]; [|by apply Hns, (Hkept i)].
    apply below_new_ok in Hk' as [Hv _]. destruct (old_keys_under i k Hu) as [_ [nd Hst]]. by apply (Hfresh _ _ Hst).
  - apply Forall_app. split; [apply below_stale_ok|done].
Qed.
Lemma sub_gone j : j ∉ created.*1 → (j ∉ ixs → olds !! j = None) → sub (length path) j m = ∅.
Proof.
  intros Hnc Hno. destruct (decide (j ∈ ixs)) as [(d & Hd & <-)%elem_of_ixs|]; [|by auto].
  destruct (Hds d Hd) as [_ Hr]. apply r_rep in Hr. destruct (d.1.2) as [nd|] eqn:Ho; [|done].
  destruct Hnc. change (d.1.1) with (d.1.1, nd).1. apply list_elem_of_fmap_2, elem_of_created. exists d. split; [done|].
  by destruct d as [[] ?]; cbn in *; subst.
Qed.
Lemma created_rep i nd : (i, nd) ∈ created → i < 16 ∧ ∃ new, new ⊆ below_new ∧ rep (overlay new s) (path ++ [i]) nd (sub (length path) i m).
Proof.
  intros (d & Hd & Heq)%elem_of_created. destruct (Hds d Hd) as [Hlt Hr]. apply r_rep in Hr. rewrite Heq in *.
  split; [done|]. exists d.2.1. split; [by apply below_new_sub|done].
Qed.

(** *** Writing the new children *)

Context (hash_cache : option (gmap NibblePath HashValue)) (Hcache : cache_ok hash_cache path m).

Lemma new_child_run v0 i nd :
  (i, nd) ∈ created →
  runs (new_child (mkNodeKey v0 (path_of path)) v hash_cache (i, nd))
    (λ r new old, r = (i, child_of v nd) ∧ new = level v path [(i, nd)] ∧ old = []).
Proof.
  intros (Hi & new & _ & Hr)%created_rep. unfold new_child.
  eapply runs_lift; [by apply gen_child_node_key_run|].
  eapply runs_lift; [by eapply get_hash_run|].
  eapply runs_bind; [apply runs_put_node|]. intros _ ? ? [-> ->]. by apply runs_ret.
Qed.
Lemma new_children_run v0 l :
  l ⊆ created →
  runs (mmap (new_child (mkNodeKey v0 (path_of path)) v hash_cache) l)
    (λ r new old, r = (λ x, (x.1, child_of v x.2)) <$> l ∧ new = level v path l ∧ old = []).
Proof.
  induction l as [|[i nd] l IH]; intros Hl; cbn [mmap]; [by apply runs_ret|].
  eapply runs_bind; [apply new_child_run, Hl; left|]. intros _ ? ? (-> & -> & ->).
  eapply runs_bind; [apply IH; intros x Hx; apply Hl; by right|]. intros _ ? ? (-> & -> & ->).
  apply runs_ret. rewrite !app_nil_r. done.
Qed.
Lemma lookup_collect_children (l : list (N * Node K)) ch i :
  NoDup l.*1 →
  collect_children ((λ x, (x.1, child_of v x.2)) <$> l) ch !! i =
    match (list_to_map l : gmap N (Node K)) !! i with Some nd => Some (child_of v nd) | None => ch !! i end.
Proof.
  revert ch. induction l as [|[j nd] l IH]; intros ch Hl; [done|]. rewrite fmap_cons in Hl.
  apply NoDup_cons in Hl as [Hni Hl]. cbn [list_to_map foldr fst snd].
  change (collect_children ((λ x, (x.1, child_of v x.2)) <$> (j, nd) :: l) ch)
    with (collect_children ((λ x, (x.1, child_of v x.2)) <$> l) (<[j := child_of v nd]> ch)).
  rewrite IH by done. destruct (decide (j = i)) as [->|Hne].
  - rewrite !lookup_insert_eq. by rewrite (not_elem_of_list_to_map_1 l i).
  - by rewrite !lookup_insert_ne.
Qed.

Lemma build_internal_run {B} v0 l ch0 (k : Node K → M (TreeUpdateBatch K) anyhow B) Q :
  l ≡ₚ created → (2 <= size m)%nat →
  (∀ i, i ∉ created.*1 → ch0 !! i = if decide (i ∈ ixs) then None else olds !! i) →
  (∀ n, result s v path m all_old_keys (Some (NodeInternal n)) (below_new ++ level v path l) below_stale →
    runs (k (NodeInternal n)) (λ r new old, Q r (level v path l ++ new) old)) →
  runs (l ← mmap (new_child (mkNodeKey v0 (path_of path)) v hash_cache) l;
        n ← mlift (internal_node_new (collect_children l ch0));
        k (NodeInternal n)) Q.
Proof.
  intros Hl Hsz Hch0 Hk. eapply runs_bind; [apply new_children_run; by rewrite Hl|]. intros _ ? ? (-> & -> & ->).
  assert (NoDup l.*1) as Hndl by (rewrite Hl; apply created_NoDup).
  destruct (assemble_internal l (collect_children ((λ x, (x.1, child_of v x.2)) <$> l) ch0) Hl) as (n & Hn & Hr); [|done|].
  - intros i. rewrite lookup_collect_children by done. destruct (list_to_map l !! i) eqn:Hi; [done|].
    apply Hch0. rewrite <- Hl. by apply not_elem_of_list_to_map.
  - eapply runs_lift; [exact Hn|]. by apply Hk.
Qed.
End assemble.

(** *** [finish_subtree] *)

Section finish.
Context (s : store) (v : Version) (path : list N) (m : content) (hash_cache : option (gmap NibblePath HashValue)).
Context (Hfresh : fresh v s) (Hpath : nibbles_ok path) (Hlen : (length path < 64)%nat).
Context (Hkeys : content_in path m) (Hsize : N.of_nat (size m) < 2 ^ 64) (Hcache : cache_ok hash_cache path m).

Context (ds : list ((N * option (Node K)) * (nodes * list StaleNodeIndex))) (Hnd : NoDup (ixs ds)).
Context (Hds : ∀ d, d ∈ ds → d.1.1 < 16 ∧
  result s v (path ++ [d.1.1]) (sub (length path) d.1.1 m) (λ _, False) d.1.2 d.2.1 d.2.2).
Context (Hnone : ∀ i, i ∉ ixs ds → sub (length path) i m = ∅).

(** There are no old children. *)
Lemma no_old_keys i k : old_keys s path ∅ i k ↔ False.
Proof. split; [|done]. intros (c & nd & Hc & _). by rewrite lookup_empty in Hc. Qed.
Lemma no_all_old_keys k : all_old_keys s path ∅ k ↔ False.
Proof. split; [|done]. by intros [i ?%no_old_keys]. Qed.
Lemma finish_ds d : d ∈ ds → d.1.1 < 16 ∧
  result s v (path ++ [d.1.1]) (sub (length path) d.1.1 m) (old_keys s path ∅ d.1.1) d.1.2 d.2.1 d.2.2.
Proof.
  intros Hd. destruct (Hds d Hd) as [? Hr]. split; [done|]. eapply result_iff; [|exact Hr].
  intros k. by rewrite no_old_keys.
Qed.
Lemma finish_old i c : (∅ : Children) !! i = Some c → ∃ nd m0, i < 16 ∧
  s !! child_key path i c = Some nd ∧ node_hash (E := anyhow) nd = Ok (ch_hash c) ∧
  node_type nd = ch_node_type c ∧ rep s (path ++ [i]) nd m0 ∧ (i ∉ ixs ds → m0 = sub (length path) i m).
Proof. by intros ?%lookup_empty_Some. Qed.
Lemma finish_none i : (∅ : Children) !! i = None → i ∉ ixs ds → sub (length path) i m = ∅.
Proof. intros _. apply Hnone. Qed.
Hint Resolve no_old_keys no_all_old_keys finish_ds finish_old finish_none : core.

Abbreviation finished := (λ o new old, result s v path m (λ _, False) o (below_new ds ++ new) (below_stale ds ++ old)).
Lemma finish_internal v0 :
  (2 <= size m)%nat →
  runs (l ← mmap (new_child (mkNodeKey v0 (path_of path)) v hash_cache) (created ds);
        n ← mlift (internal_node_new (collect_children l ∅)); mret (Some (NodeInternal n))) finished.
Proof.
  intros Hsz. eapply (build_internal_run s v path m ∅ ds) with (k := λ n, mret (Some n)); eauto.
  - intros i _. by rewrite lookup_empty; case_decide.
  - intros n Hr. apply runs_ret. rewrite !app_nil_r. by eapply result_iff.
Qed.
Lemma finish_flat o :
  (∀ S k, ¬ uses S path o k) → (∀ i nd, (i, nd) ∈ created ds → node_is_leaf nd = true) →
  match o with Some nd => ∀ S, rep S path nd m | None => m = ∅ end → finished o [] [].
Proof.
  intros Hno Hlf Hrep. cbv beta. rewrite app_nil_r. eapply result_iff; [apply no_all_old_keys|].
  apply (assemble_flat s v path m ∅ ds); eauto.
  - intros d Hd k. destruct (d.1.2) as [nd|] eqn:Ho; [|by intros []].
    assert (node_is_leaf nd = true) as Hl; [|destruct nd; try done; apply reach_leaf].
    apply (Hlf d.1.1), elem_of_created. exists d. by destruct d as [[] ?]; cbn in *; subst.
  - destruct o; [|done]. apply Hrep.
  - by intros i k _ ?%no_old_keys.
Qed.
Lemma finish_gone j : j ∉ (created ds).*1 → sub (length path) j m = ∅.
Proof. intros Hj. by apply (sub_gone s v path m ∅ ds); eauto. Qed.

Lemma finish_subtree_run v0 :
  runs (finish_subtree (mkNodeKey v0 (path_of path)) v hash_cache (some_children ds.*1)) finished.
Proof.
  change (some_children ds.*1) with (created ds). pose proof (finish_internal v0) as Hint.
  pose proof (created_NoDup ds Hnd) as Hndc. pose proof finish_gone as Hgone.
  assert (∀ i nd, (i, nd) ∈ created ds → ∃ S, rep S (path ++ [i]) nd (sub (length path) i m)) as Hrep.
  { intros i nd Hi. eapply created_rep in Hi as (_ & new & _ & Hr); eauto. }
  pose proof finish_flat as Hflat. unfold finish_subtree. destruct (created ds) as [|[i nd] rest] eqn:Hc.
  - apply runs_ret, Hflat; [by intros ? k []|by intros ? ? ?%elem_of_nil|].
    apply (sub_nowhere (length path)). intros j. by apply Hgone, not_elem_of_nil.
  - destruct (Hrep i nd) as [S Hr]; [left|]. destruct rest as [|[j nd'] rest].
    2:{ assert (2 <= size m)%nat as Hsz; [|destruct nd; by apply Hint].
        destruct (Hrep j nd') as [S' Hr']; [right; left|].
        apply (size_two (length path) m i j); [|by eapply rep_size..].
        intros ->. rewrite !fmap_cons in Hndc. apply NoDup_cons in Hndc as [Hndc _]. apply Hndc. left. }
    destruct nd as [n|lf|]; [| |by apply rep_null in Hr].
    + apply Hint. pose proof (size_sub_le (length path) m i).
      destruct (rep_type _ _ _ _ Hr) as [[? _]|(_ & ? & _)]; [done|lia].
    + apply runs_ret, Hflat; [by intros ? k ?%reach_leaf|by intros ? ? [= -> ->]%list_elem_of_singleton|].
      eapply leaf_moves_up; [done|exact Hr|]. intros j Hj. apply Hgone. by intros ?%list_elem_of_singleton.
Qed.
End finish.

(** ** Updates of an empty subtree, and of a leaf *)

(** The calls for the ranges of sorted updates are those for the children that have some. *)
Definition range_call {A} (kvs : list (HashValue * A)) (d : N) (R : N → option (Node K) → nodes → list StaleNodeIndex → Prop)
    (lr : nat * nat) (y : N * option (Node K)) (new : nodes) (old : list StaleNodeIndex) : Prop :=
  range_of kvs d lr y.1 ∧ R y.1 y.2 new old.
Lemma range_calls {A} (kvs : list (HashValue * A)) d R ranges is0 ys new old :
  Forall2 (range_of kvs d) ranges is0 → calls (range_call kvs d R) ranges ys new old →
  ∃ ds, ys = ds.*1 ∧ new = below_new ds ∧ old = below_stale ds ∧ ixs ds = is0 ∧
    ∀ x, x ∈ ds → R x.1.1 x.1.2 x.2.1 x.2.2.
Proof.
  intros Hr (ds & -> & -> & -> & Hds). exists ds. split_and!; [done..| |].
  - clear -Hr Hds. revert is0 Hr. induction Hds as [|lr x ranges ds [Hx _] Hds IH]; intros is0 Hr;
      [by inversion Hr|]. apply Forall2_cons_inv_l in Hr as (i & is' & Hi & Hr & ->). unfold ixs in *.
    rewrite !fmap_cons, (IH is' Hr). f_equal. destruct Hi as (e & He & <- & _), Hx as (e' & He' & <- & _). congruence.
  - intros x Hx. apply list_elem_of_lookup in Hx as [n Hn].
    destruct (Forall2_lookup_r _ _ _ _ _ Hds Hn) as (lr & _ & _ & HR). done.
Qed.
Lemma runs_ranges {A B} (kvs : list (HashValue * A)) d R ranges is0 f
    (loop : (nat * nat → M (TreeUpdateBatch K) anyhow (N * option (Node K))) → list (nat * nat) →
      M (TreeUpdateBatch K) anyhow (list (N * option (Node K))))
    (k : list (N * option (Node K)) → M (TreeUpdateBatch K) anyhow B) Q :
  loop = mmap ∨ loop = par_mmap →
  Forall2 (range_of kvs d) ranges is0 →
  (∀ lr i, range_of kvs d lr i → i ∈ is0 → runs (f lr) (λ y new old, y.1 = i ∧ R i y.2 new old)) →
  (∀ ds, ixs ds = is0 → (∀ x, x ∈ ds → R x.1.1 x.1.2 x.2.1 x.2.2) →
    runs (k ds.*1) (λ b new old, Q b (below_new ds ++ new) (below_stale ds ++ old))) →
  runs (loop f ranges ≫= k) Q.
Proof.
  intros Hloop Hr Hf Hk. assert (runs (loop f ranges) (calls (range_call kvs d R) ranges)) as Hrun.
  { assert (∀ lr, lr ∈ ranges → runs (f lr) (range_call kvs d R lr)) as Hcall.
    { intros lr [n Hn]%list_elem_of_lookup. destruct (Forall2_lookup_l _ _ _ _ _ Hr Hn) as (i & Hi & Hlr).
      eapply runs_mono; [apply (Hf lr i Hlr); by eapply list_elem_of_lookup_2|].
      intros y new old [<- HR]. by split. }
    destruct Hloop as [->| ->]; [by apply runs_mmap|by apply runs_par_mmap]. }
  eapply runs_bind; [exact Hrun|]. intros ys new old Hc.
  destruct (range_calls _ _ _ _ _ _ _ _ Hr Hc) as (ds & -> & -> & -> & Hix & HR). by apply Hk.
Qed.

Section subtree.
Context (s : store) (v : Version) (hash_cache : option (gmap NibblePath HashValue)) (Hfresh : fresh v s).

(** What an update of a subtree needs. *)
Record update_ok (path : list N) (kvs : list kv) (m : content) : Prop := {
  uo_kvs : kvs_ok path kvs;
  uo_path : nibbles_ok path;
  uo_content : content_in path m;
  uo_cache : cache_ok hash_cache path (updated v (kvs_map kvs) m);
  uo_size : N.of_nat (size (updated v (kvs_map kvs) m)) < 2 ^ 64;
}.
Lemma update_ok_child path kvs m i :
  update_ok path kvs m → (length path < 64)%nat → i < 16 →
  update_ok (path ++ [i]) (group kvs (N.of_nat (length path)) i) (sub (length path) i m).
Proof.
  intros [Hk Hp Hc Hca Hs] Hlen Hi. constructor.
  - by apply kvs_ok_group.
  - by apply snoc_ok.
  - intros k x [Hk' Hn]%lookup_sub. rewrite key_in_snoc by done. destruct (Hc k x Hk'). done.
  - rewrite (group_map path), <- sub_updated by done. by apply cache_ok_sub.
  - rewrite (group_map path), <- sub_updated by done. pose proof (size_sub_le (length path) (updated v (kvs_map kvs) m) i). lia.
Qed.
Lemma group_nonempty {A} (kvs : list (HashValue * A)) d lr i : range_of kvs d lr i → group kvs d i ≠ [].
Proof.
  intros (e & He & Hi & _) Hg. assert (e ∈ group kvs d i) as Hin; [|by rewrite Hg in Hin; apply elem_of_nil in Hin].
  apply list_elem_of_filter. split; [done|]. by eapply list_elem_of_lookup_2.
Qed.
Lemma update_bottom path kvs m :
  update_ok path kvs m → kvs ≠ [] → (∀ e, kvs ≠ [e]) → (length path < 64)%nat.
Proof.
  intros Hu Hne Hmany. destruct (uo_path _ _ _ Hu) as [_ ?]. destruct (decide (length path = 64%nat)) as [He|]; [|lia].
  destruct (kvs_bottom path kvs (uo_kvs _ _ _ Hu) He Hne) as [e ->]. by destruct (Hmany e).
Qed.

Lemma updated_one (key : HashValue) (vo : option (HashValue * K)) m :
  updated v (kvs_map [(key, vo)]) m =
    match vo with Some (vh, sk) => <[key := (vh, (sk, v))]> m | None => delete key m end.
Proof.
  apply map_eq. intros k. rewrite lookup_updated. unfold kvs_map. cbn. destruct (decide (key = k)) as [->|Hne].
  - rewrite lookup_insert_eq. destruct vo as [[vh sk]|]; cbn; [by rewrite lookup_insert_eq|by rewrite lookup_delete_eq].
  - rewrite lookup_insert_ne, lookup_empty by done.
    destruct vo as [[vh sk]|]; cbn; [by rewrite lookup_insert_ne|by rewrite lookup_delete_ne].
Qed.
(** The children without an update keep what they have. *)
Lemma updated_elsewhere path (kvs : list kv) m (is0 : list N) i :
  kvs_ok path kvs → (length path < 64)%nat →
  (∀ i, i ∈ is0 ↔ ∃ e, e ∈ kvs ∧ hash_nibble e.1 (N.of_nat (length path)) = i) → i ∉ is0 →
  sub (length path) i (updated v (kvs_map kvs) m) = sub (length path) i m.
Proof.
  intros Hok Hlen His Hi. rewrite sub_updated. assert (sub (length path) i (kvs_map kvs) = ∅) as ->;
    [|apply updated_nothing]. apply map_empty. intros k.
  destruct (sub (length path) i (kvs_map kvs) !! k) as [o|] eqn:Hk; [|done].
  apply lookup_sub in Hk as [Hk Hn]. apply (kvs_lookup path) in Hk; [|done]. destruct Hi. apply His. eauto.
Qed.
Lemma sub_empty_map d i : sub d i (∅ : content) = ∅.
Proof. apply map_filter_empty. Qed.

Lemma range_of_lt {A} (kvs : list (HashValue * A)) d lr i : range_of kvs d lr i → i < 16.
Proof. intros (e & _ & <- & _). apply hash_nibble_lt. Qed.
Lemma range_body_run {B} path (kvs : list kv) v0 v' l r i (k : N → NodeKey → list kv → M (TreeUpdateBatch K) anyhow B) Q :
  range_of kvs (N.of_nat (length path)) (l, r) i → nibbles_ok path → (length path < 64)%nat →
  runs (k i (mkNodeKey v' (path_of (path ++ [i]))) (group kvs (N.of_nat (length path)) i)) Q →
  runs (entry ← mlift (expect (kvs !! l));
        child_index ← mlift (get_nibble entry.1 (N.of_nat (length path)));
        child_node_key ← mlift (gen_child_node_key (mkNodeKey v0 (path_of path)) v' child_index);
        sub_kvs ← mlift (slice kvs l r);
        k child_index child_node_key sub_kvs) Q.
Proof.
  intros Hlr Hp Hlen Hk. pose proof (range_of_lt _ _ _ _ Hlr) as Hlt. destruct Hlr as (e & He & Hn & Hs). cbn [fst snd] in *.
  eapply runs_lift; [by rewrite He|]. eapply runs_lift; [by rewrite get_nibble_run, Hn by lia|].
  eapply runs_lift; [by apply gen_child_node_key_run|]. by eapply runs_lift.
Qed.

Lemma batch_update_subtree_many fuel node_key (kvs : list kv) depth :
  (∀ e, kvs ≠ [e]) →
  batch_update_subtree_loop (S fuel) node_key v kvs depth hash_cache =
  (ranges ← mlift (nibble_ranges kvs depth);
   children ← mmap (λ '(l, r),
     entry ← mlift (expect (kvs !! l));
     child_index ← mlift (get_nibble entry.1 depth);
     child_node_key ← mlift (gen_child_node_key node_key v child_index);
     sub_kvs ← mlift (slice kvs l r);
     o ← batch_update_subtree_loop fuel child_node_key v sub_kvs (depth + 1) hash_cache;
     mret (child_index, o)) ranges;
   finish_subtree node_key v hash_cache (some_children children)).
Proof. intros Hm. destruct kvs as [|e [|e' kvs]]; [done|by destruct (Hm e)|by destruct e as [? [[]|]]]. Qed.

(** The whole of [batch_update_subtree]: the subtree of the values set. *)
Lemma batch_update_subtree_loop_run fuel path kvs v0 :
  update_ok path kvs ∅ → (64 < length path + fuel)%nat → (kvs ≠ [] ∨ (length path < 64)%nat) →
  runs (batch_update_subtree_loop fuel (mkNodeKey v0 (path_of path)) v kvs (N.of_nat (length path)) hash_cache)
    (result s v path (updated v (kvs_map kvs) ∅) (λ _, False)).
Proof.
  revert path kvs v0. induction fuel as [|fuel IH]; intros path kvs v0 Hu Hfuel Hne.
  { destruct (uo_path _ _ _ Hu) as [_ ?]. lia. }
  assert ((∃ e, kvs = [e]) ∨ (∀ e, kvs ≠ [e])) as [[[key vo] ->]|Hmany].
  { destruct kvs as [|e [|e' kvs]]; [by right|left; eauto|by right]. }
  - cbn [batch_update_subtree_loop]. destruct (proj2 (uo_kvs _ _ _ Hu) (key, vo)) as [Hin Hwf]; [left|].
    rewrite updated_one. destruct vo as [[vh sk]|]; apply runs_ret.
    + apply result_leaf. rewrite insert_empty. constructor; [apply Hu|done..].
    + rewrite delete_empty. apply result_none.
  - assert (length path < 64)%nat as Hlen by (destruct Hne; [by eapply update_bottom|done]).
    pose proof (kvs_sorted path kvs (uo_kvs _ _ _ Hu) Hlen) as Hsort.
    destruct (nibble_ranges_run kvs (N.of_nat (length path)) Hsort) as (ranges & is0 & Hrun & Hr & Hnd & His); [lia|].
    rewrite batch_update_subtree_many by done. eapply runs_lift; [exact Hrun|].
    eapply runs_ranges with (R := λ i, result s v (path ++ [i]) (sub (length path) i (updated v (kvs_map kvs) ∅)) (λ _, False));
      [by left|exact Hr| |].
    + intros [l r] i Hlr Hi. pose proof (group_nonempty _ _ _ _ Hlr) as Hg. pose proof (range_of_lt _ _ _ _ Hlr) as Hlt.
      eapply range_body_run; [exact Hlr|apply Hu|done|]. eapply runs_bind.
      * replace (N.of_nat (length path) + 1) with (N.of_nat (length (path ++ [i]))) by (rewrite length_app; cbn; lia).
        apply IH; [|rewrite length_app; cbn; lia|by left].
        rewrite <- (sub_empty_map (length path) i). by apply update_ok_child.
      * intros o new old Ho. apply runs_ret. rewrite !app_nil_r. split; [done|].
        by rewrite sub_updated, sub_empty_map, <- (group_map path) by (apply Hu || done).
    + intros ds Hix HR. eapply finish_subtree_run; try done; try apply Hu.
      * eapply updated_keys; apply Hu.
      * by rewrite Hix.
      * intros x Hx. split; [|by apply HR].
        assert (x.1.1 ∈ is0) as Hi by (rewrite <- Hix; apply elem_of_ixs; by exists x).
        apply His in Hi as (e & _ & <-). apply hash_nibble_lt.
      * intros i Hi. rewrite (updated_elsewhere path kvs ∅ is0), sub_empty_map; [done|apply Hu|done..|]. by rewrite <- Hix.
Qed.
Lemma batch_update_subtree_run path kvs v0 :
  update_ok path kvs ∅ → (kvs ≠ [] ∨ (length path < 64)%nat) →
  runs (batch_update_subtree (mkNodeKey v0 (path_of path)) v kvs (N.of_nat (length path)) hash_cache)
    (result s v path (updated v (kvs_map kvs) ∅) (λ _, False)).
Proof. intros Hu Hne. apply batch_update_subtree_loop_run; [done| |done]. destruct (uo_path _ _ _ Hu). lia. Qed.

(** The leaf stays where it is unless an update is for its key. *)
Lemma with_existing_leaf_many fuel node_key leaf (kvs : list kv) depth :
  (∀ e, kvs = [e] → e.1 ≠ ln_account_key leaf) →
  with_existing_leaf_loop (S fuel) node_key v leaf kvs depth hash_cache =
  (existing_leaf_bucket ← mlift (get_nibble (ln_account_key leaf) depth);
   ranges ← mlift (nibble_ranges kvs depth);
   children ← mmap (λ '(l, r),
     entry ← mlift (expect (kvs !! l));
     child_index ← mlift (get_nibble entry.1 depth);
     child_node_key ← mlift (gen_child_node_key node_key v child_index);
     sub_kvs ← mlift (slice kvs l r);
     o ← (if existing_leaf_bucket =? child_index
          then with_existing_leaf_loop fuel child_node_key v leaf sub_kvs (depth + 1) hash_cache
          else batch_update_subtree child_node_key v sub_kvs (depth + 1) hash_cache);
     mret (child_index, o)) ranges;
   finish_subtree node_key v hash_cache
     (some_children children
        ++ if negb (existsb (λ io, existing_leaf_bucket =? io.1) children)
           then [(existing_leaf_bucket, NodeLeaf leaf)] else [])).
Proof.
  intros Hm. destruct kvs as [|[k vo] [|e' kvs]]; [done| |by destruct vo as [[]|]].
  cbn [with_existing_leaf_loop]. destruct (N.eqb_spec k (ln_account_key leaf)) as [->|]; [|done].
  by destruct (Hm (ln_account_key leaf, vo)).
Qed.
Definition leaf_content (leaf : LeafNode K) : content :=
  {[ln_account_key leaf := (ln_value_hash leaf, ln_value_index leaf)]}.
Lemma sub_leaf_content d i leaf :
  sub d i (leaf_content leaf) = if decide (hash_nibble (ln_account_key leaf) (N.of_nat d) = i) then leaf_content leaf else ∅.
Proof.
  unfold leaf_content. case_decide; unfold sub.
  - by apply map_filter_singleton_True.
  - by apply map_filter_singleton_False.
Qed.
(** The isolated leaf is one more child. *)
Definition isolated (leaf : LeafNode K) (b : N) (ds : list ((N * option (Node K)) * (nodes * list StaleNodeIndex))) :=
  ds ++ if negb (existsb (λ io, b =? io.1) ds.*1) then [((b, Some (NodeLeaf leaf)), ([], []))] else [].
Lemma isolated_spec leaf b ds :
  some_children (isolated leaf b ds).*1 =
    some_children ds.*1 ++ (if negb (existsb (λ io, b =? io.1) ds.*1) then [(b, NodeLeaf leaf)] else []) ∧
  below_new (isolated leaf b ds) = below_new ds ∧ below_stale (isolated leaf b ds) = below_stale ds ∧
  (∀ x, x ∈ isolated leaf b ds → x ∈ ds ∨ (b ∉ ixs ds ∧ x = ((b, Some (NodeLeaf leaf)), ([], [])))) ∧
  (NoDup (ixs ds) → NoDup (ixs (isolated leaf b ds))) ∧ (∀ i, i ∈ ixs (isolated leaf b ds) ↔ i ∈ ixs ds ∨ i = b).
Proof.
  assert (existsb (λ io, b =? io.1) ds.*1 = true ↔ b ∈ ixs ds) as Hex.
  { rewrite existsb_exists. unfold ixs. setoid_rewrite list_elem_of_In. rewrite in_map_iff. setoid_rewrite N.eqb_eq. naive_solver. }
  unfold isolated. destruct (existsb _ ds.*1) eqn:He; cbn [negb].
  - rewrite !app_nil_r. split_and!; try done; [by left|]. intros i. split; [by left|]. intros [?|Hb]; [done|]. rewrite Hb. by apply Hex.
  - assert (b ∉ ixs ds) as Hb by (intros ?%Hex; congruence). unfold ixs, below_new, below_stale, some_children in *.
    rewrite !fmap_app, omap_app, !concat_app. cbn. rewrite !app_nil_r. split_and!; [done..| | |].
    + intros x [|Hx%list_elem_of_singleton]%elem_of_app; [by left|by right].
    + intros Hn. apply NoDup_app. split_and!; [done| |apply NoDup_singleton].
      by intros x Hx ->%list_elem_of_singleton.
    + intros i. by rewrite elem_of_app, list_elem_of_singleton.
Qed.
Lemma existing_leaf_bottom path kvs leaf :
  update_ok path kvs (leaf_content leaf) → (kvs ≠ [] ∨ (length path < 64)%nat) →
  (∀ e, kvs = [e] → e.1 ≠ ln_account_key leaf) → (length path < 64)%nat.
Proof.
  intros Hu [Hne|?] Hother; [|done]. destruct (uo_path _ _ _ Hu) as [_ ?].
  destruct (decide (length path = 64%nat)) as [He|]; [exfalso|lia].
  destruct (kvs_bottom path kvs (uo_kvs _ _ _ Hu) He Hne) as [e ->]. apply (Hother e); [done|].
  destruct (proj2 (uo_kvs _ _ _ Hu) e) as [? ?]; [left|].
  destruct (uo_content _ _ _ Hu (ln_account_key leaf) (ln_value_hash leaf, ln_value_index leaf)) as [? ?];
    [apply lookup_singleton_eq|]. by apply (key_in_unique path).
Qed.
Lemma with_existing_leaf_same fuel path leaf vo v0 :
  update_ok path [(ln_account_key leaf, vo)] (leaf_content leaf) →
  runs (with_existing_leaf_loop (S fuel) (mkNodeKey v0 (path_of path)) v leaf [(ln_account_key leaf, vo)]
          (N.of_nat (length path)) hash_cache)
    (result s v path (updated v (kvs_map [(ln_account_key leaf, vo)]) (leaf_content leaf)) (λ _, False)).
Proof.
  intros Hu. destruct (proj2 (uo_kvs _ _ _ Hu) (ln_account_key leaf, vo)) as [? ?]; [left|].
  cbn [with_existing_leaf_loop]. rewrite N.eqb_refl, updated_one. unfold leaf_content.
  destruct vo as [[vh sk]|]; apply runs_ret.
  - apply result_leaf. rewrite insert_singleton_eq. constructor; [apply Hu|done..].
  - rewrite delete_singleton_eq. apply result_none.
Qed.
Lemma rep_leaf_content S path leaf :
  nibbles_ok path → key_in path (ln_account_key leaf) → hash_wf (ln_account_key leaf) →
  rep S path (NodeLeaf leaf) (leaf_content leaf).
Proof. destruct leaf. apply rep_leaf. Qed.
Lemma existing_leaf_finish path kvs leaf v0 ds :
  update_ok path kvs (leaf_content leaf) → (length path < 64)%nat →
  (∀ i, i ∈ ixs ds ↔ ∃ e, e ∈ kvs ∧ hash_nibble e.1 (N.of_nat (length path)) = i) → NoDup (ixs ds) →
  (∀ x, x ∈ ds → result s v (path ++ [x.1.1])
     (sub (length path) x.1.1 (updated v (kvs_map kvs) (leaf_content leaf))) (λ _, False) x.1.2 x.2.1 x.2.2) →
  let b := hash_nibble (ln_account_key leaf) (N.of_nat (length path)) in
  runs (finish_subtree (mkNodeKey v0 (path_of path)) v hash_cache
          (some_children ds.*1 ++ if negb (existsb (λ io, b =? io.1) ds.*1) then [(b, NodeLeaf leaf)] else []))
    (λ o new old, result s v path (updated v (kvs_map kvs) (leaf_content leaf)) (λ _, False) o
       (below_new ds ++ new) (below_stale ds ++ old)).
Proof.
  intros Hu Hlen His Hnd HR b. destruct (isolated_spec leaf b ds) as (Hsc & Hbn & Hbs & Hel & Hndi & Hin).
  rewrite <- Hsc, <- Hbn, <- Hbs. eapply finish_subtree_run; try done; try apply Hu.
  - eapply updated_keys; apply Hu.
  - by apply Hndi.
  - intros x [Hx|[Hb ->]]%Hel.
    + split; [|by apply HR]. assert (x.1.1 ∈ ixs ds) as Hi by (apply elem_of_ixs; by exists x).
      apply His in Hi as (e & _ & <-). apply hash_nibble_lt.
    + cbn [fst snd]. split; [apply hash_nibble_lt|]. apply result_leaf.
      rewrite (updated_elsewhere path kvs _ (ixs ds)), sub_leaf_content; [|apply Hu|done..].
      rewrite decide_True by done. destruct (uo_content _ _ _ Hu (ln_account_key leaf) (ln_value_hash leaf, ln_value_index leaf)) as [? ?];
        [apply lookup_singleton_eq|].
      apply rep_leaf_content; [|by apply key_in_snoc|done].
      apply snoc_ok; [apply Hu|done|apply hash_nibble_lt].
  - intros i Hi.
    rewrite (updated_elsewhere path kvs _ (ixs ds)), sub_leaf_content; [|apply Hu|done..|intros ?; apply Hi, Hin; by left].
    rewrite decide_False; [done|]. intros <-. apply Hi, Hin. by right.
Qed.
Lemma with_existing_leaf_loop_run fuel path kvs leaf v0 :
  update_ok path kvs (leaf_content leaf) → (64 < length path + fuel)%nat → (kvs ≠ [] ∨ (length path < 64)%nat) →
  runs (with_existing_leaf_loop fuel (mkNodeKey v0 (path_of path)) v leaf kvs (N.of_nat (length path)) hash_cache)
    (result s v path (updated v (kvs_map kvs) (leaf_content leaf)) (λ _, False)).
Proof.
  revert path kvs v0. induction fuel as [|fuel IH]; intros path kvs v0 Hu Hfuel Hne.
  { destruct (uo_path _ _ _ Hu) as [_ ?]. lia. }
  assert ((∃ vo, kvs = [(ln_account_key leaf, vo)]) ∨ (∀ e, kvs = [e] → e.1 ≠ ln_account_key leaf)) as [[vo ->]|Hother].
  { destruct kvs as [|[k vo] [|]]; try by right. destruct (decide (k = ln_account_key leaf)) as [->|].
    - left. by eexists.
    - right. by intros ? [= <-]. }
  { by apply with_existing_leaf_same. }
  pose proof (existing_leaf_bottom path kvs leaf Hu Hne Hother) as Hlen.
  set (b := hash_nibble (ln_account_key leaf) (N.of_nat (length path))).
  set (m' := updated v (kvs_map kvs) (leaf_content leaf)).
  pose proof (kvs_sorted path kvs (uo_kvs _ _ _ Hu) Hlen) as Hsort.
  destruct (nibble_ranges_run kvs (N.of_nat (length path)) Hsort) as (ranges & is0 & Hrun & Hr & Hnd & His); [lia|].
  rewrite with_existing_leaf_many by done. eapply runs_lift; [apply get_nibble_run; lia|].
  eapply runs_lift; [exact Hrun|]. fold b.
  eapply runs_ranges with (R := λ i, result s v (path ++ [i]) (sub (length path) i m') (λ _, False)); [by left|exact Hr| |].
  - intros [l r] i Hlr Hi. pose proof (group_nonempty _ _ _ _ Hlr) as Hg. pose proof (range_of_lt _ _ _ _ Hlr) as Hlt.
    eapply range_body_run; [exact Hlr|apply Hu|done|].
    pose proof (update_ok_child path kvs _ i Hu Hlen Hlt) as Hui.
    rewrite sub_leaf_content in Hui. fold b in Hui.
    replace (N.of_nat (length path) + 1) with (N.of_nat (length (path ++ [i]))) by (rewrite length_app; cbn; lia).
    unfold m'. rewrite sub_updated, <- (group_map path), sub_leaf_content by (apply Hu || done). fold b.
    eapply runs_bind with (P := result s v (path ++ [i]) _ (λ _, False)).
    2:{ intros o new old Ho. apply runs_ret. rewrite !app_nil_r. split; [done|exact Ho]. }
    destruct (N.eqb_spec b i) as [Hb|Hb].
    + rewrite decide_True in * by done. apply IH; [done|rewrite length_app; cbn; lia|by left].
    + rewrite decide_False in * by done. apply batch_update_subtree_run; [done|by left].
  - intros ds Hix HR. subst is0. by apply existing_leaf_finish.
Qed.
Lemma batch_update_subtree_with_existing_leaf_run path kvs leaf v0 :
  update_ok path kvs (leaf_content leaf) → (kvs ≠ [] ∨ (length path < 64)%nat) →
  runs (batch_update_subtree_with_existing_leaf (mkNodeKey v0 (path_of path)) v leaf kvs (N.of_nat (length path)) hash_cache)
    (result s v path (updated v (kvs_map kvs) (leaf_content leaf)) (λ _, False)).
Proof. intros Hu Hne. apply with_existing_leaf_loop_run; [done| |done]. destruct (uo_path _ _ _ Hu). lia. Qed.
End subtree.
End put.
