(* ===== verification/JmtInsert.v ===== *)
(** * [batch_put_value_set] on a stored tree

    The children of an internal node after their updates, the node collapsing into its only leaf,
    the update of a stored subtree, and the update of a version of the tree. *)
From S2P Require Import Prelude Crypto Nibble SparseMerkle JmtNode Jmt JmtTree JmtUpdate JmtPut.
Local Open Scope N_scope.

Section insert.
Context `{!SparseHashes} {K : Type}.
Abbreviation content := (gmap HashValue (HashValue * (K * Version))).
Abbreviation store := (gmap NodeKey (Node K)).
Abbreviation kv := (HashValue * option (HashValue * K))%type.
Abbreviation nodes := (list (NodeKey * Node K)).
Abbreviation child_key path i c := (mkNodeKey (ch_version c) (path_of (path ++ [i]))).
Abbreviation content_in path m := (∀ k x, m !! k = Some x → key_in path k ∧ hash_wf k).
Abbreviation deltas := (list ((N * option (Node K)) * (nodes * list StaleNodeIndex))).

(** ** Small maps *)

Lemma map_two {A} (mm : gmap N A) : (2 <= size mm)%nat → ∃ i j, i ≠ j ∧ is_Some (mm !! i) ∧ is_Some (mm !! j).
Proof.
  intros Hs. rewrite <- length_map_to_list in Hs. pose proof (NoDup_fst_map_to_list mm) as Hn.
  destruct (map_to_list mm) as [|[i x] [|[j y] l]] eqn:Hl; cbn in Hs; [lia..|].
  exists i, j. rewrite !fmap_cons in Hn. apply NoDup_cons in Hn as [Hn _]. split_and!.
  - intros ->. apply Hn. left.
  - exists x. apply elem_of_map_to_list. rewrite Hl. left.
  - exists y. apply elem_of_map_to_list. rewrite Hl. right. left.
Qed.
Lemma map_one {A} (mm : gmap N A) i x l : (size mm <= 1)%nat → map_to_list mm = (i, x) :: l → mm = {[i := x]}.
Proof.
  intros Hs Hl. rewrite <- length_map_to_list, Hl in Hs. destruct l; [|cbn in Hs; lia].
  rewrite <- (list_to_map_to_list mm), Hl. done.
Qed.

(** ** Old and new children *)

Section children.
Context (s : store) (v : Version) (path : list N) (m : content) (olds : Children) (ds : deltas).
Context (Hfresh : fresh v s) (Hpath : nibbles_ok path) (Hlen : (length path < 64)%nat).
Context (Hkeys : content_in path m) (Hsize : N.of_nat (size m) < 2 ^ 64).
Context (Hnd : NoDup (ixs ds)).
Context (Hds : ∀ d, d ∈ ds → d.1.1 < 16 ∧
  result s v (path ++ [d.1.1]) (sub (length path) d.1.1 m) (old_keys s path olds d.1.1) d.1.2 d.2.1 d.2.2).
Context (Hold : ∀ i c, olds !! i = Some c → ∃ nd m0, i < 16 ∧
  s !! child_key path i c = Some nd ∧ node_hash (E := anyhow) nd = Ok (ch_hash c) ∧
  node_type nd = ch_node_type c ∧ rep s (path ++ [i]) nd m0 ∧ (i ∉ ixs ds → m0 = sub (length path) i m)).
Context (Hnone : ∀ i, olds !! i = None → i ∉ ixs ds → sub (length path) i m = ∅).

Abbreviation old_children := (split_children ds.*1 olds).1.
Abbreviation new_created := (split_children ds.*1 olds).2.

Lemma split_children_run (l : list (N * option (Node K))) och ncr i :
  NoDup l.*1 →
  let r := foldl (λ '(old_children, new_created) io,
    match io.2 with
    | Some child => (old_children, <[io.1 := child]> new_created)
    | None => (delete io.1 old_children, new_created)
    end) (och, ncr) l in
  r.1 !! i = match (list_to_map l : gmap N (option (Node K))) !! i with
             | Some None => None
             | _ => (och : Children) !! i
             end ∧
  r.2 !! i = match (list_to_map l : gmap N (option (Node K))) !! i with
             | Some (Some nd) => Some nd
             | _ => (ncr : gmap N (Node K)) !! i
             end.
Proof.
  revert och ncr. induction l as [|[j o] l IH]; intros och ncr Hl; [done|]. rewrite fmap_cons in Hl.
  apply NoDup_cons in Hl as [Hni Hl]. cbn [foldl fst snd list_to_map foldr].
  assert (j = i → (list_to_map l : gmap N (option (Node K))) !! i = None) as Hno.
  { intros <-. by apply not_elem_of_list_to_map_1. }
  destruct o as [nd|]; (destruct (decide (j = i)) as [Heq|Hne];
    [specialize (Hno Heq)|clear Hno]).
  - destruct (IH och (<[j := nd]> ncr) Hl) as [-> ->]. rewrite Hno. subst. by rewrite !lookup_insert_eq.
  - destruct (IH och (<[j := nd]> ncr) Hl) as [-> ->]. by rewrite !lookup_insert_ne.
  - destruct (IH (delete j och) ncr Hl) as [-> ->]. rewrite Hno. subst. by rewrite lookup_insert_eq, lookup_delete_eq.
  - destruct (IH (delete j och) ncr Hl) as [-> ->]. by rewrite lookup_insert_ne, lookup_delete_ne.
Qed.
Lemma lookup_ds i o : (i, o) ∈ ds.*1 ↔ ∃ d, d ∈ ds ∧ d.1 = (i, o).
Proof. rewrite list_elem_of_fmap. naive_solver. Qed.
Lemma lookup_old_children i c :
  old_children !! i = Some c ↔ (i, None) ∉ ds.*1 ∧ olds !! i = Some c.
Proof.
  destruct (split_children_run ds.*1 olds ∅ i) as [Hn _]; [done|]. unfold split_children. rewrite Hn.
  rewrite (elem_of_list_to_map (M := gmap N) ds.*1) by done.
  destruct (list_to_map ds.*1 !! i) as [[?|]|]; naive_solver.
Qed.
Lemma lookup_new_created i nd : new_created !! i = Some nd ↔ (i, nd) ∈ created ds.
Proof.
  destruct (split_children_run ds.*1 olds ∅ i) as [_ Hn]; [done|]. unfold split_children. rewrite Hn, lookup_empty.
  rewrite elem_of_created, <- lookup_ds, (elem_of_list_to_map (M := gmap N) ds.*1) by done.
  destruct (list_to_map ds.*1 !! i) as [[?|]|]; naive_solver.
Qed.
Lemma new_created_list : map_to_list new_created ≡ₚ created ds.
Proof.
  apply NoDup_Permutation; [apply NoDup_map_to_list|eapply NoDup_fmap_1, created_NoDup; done|].
  intros [i nd]. by rewrite elem_of_map_to_list, lookup_new_created.
Qed.
(** An old child is one that is not updated, or one with a new node. *)
Lemma old_children_cases i c :
  old_children !! i = Some c → olds !! i = Some c ∧ (i ∉ ixs ds ∨ is_Some (new_created !! i)).
Proof.
  intros [Hin Hi]%lookup_old_children. split; [done|].
  destruct (decide (i ∈ ixs ds)) as [(d & Hd & Heq)%elem_of_ixs|]; [right|by left].
  destruct d as [[j [nd|]] x]; cbn in Heq; subst j.
  - exists nd. apply lookup_new_created, elem_of_created. by exists ((i, Some nd), x).
  - destruct Hin. apply lookup_ds. by exists ((i, None), x).
Qed.
Lemma kept_old_children i : i ∉ ixs ds → old_children !! i = olds !! i.
Proof.
  intros Hi. apply option_eq. intros c. rewrite lookup_old_children. split; [by intros [_ ?]|]. intros Hc. split; [|done].
  intros Hin. apply Hi. apply (list_elem_of_fmap_2 fst _ _ Hin).
Qed.
Lemma created_ixs i nd : (i, nd) ∈ created ds → i ∈ ixs ds.
Proof. intros (d & Hd & Heq)%elem_of_created. apply elem_of_ixs. exists d. by rewrite Heq. Qed.

(** ** The sizes of the children, and what is left when they are gone *)

Lemma new_created_rep i nd : new_created !! i = Some nd → ∃ S, rep S (path ++ [i]) nd (sub (length path) i m).
Proof. intros Hi%lookup_new_created. eapply created_rep in Hi as (_ & ? & _ & ?); eauto. Qed.
Lemma kept_rep i c :
  old_children !! i = Some c → new_created !! i = None →
  ∃ nd, i ∉ ixs ds ∧ i < 16 ∧ s !! child_key path i c = Some nd ∧ node_type nd = ch_node_type c ∧
    rep s (path ++ [i]) nd (sub (length path) i m).
Proof.
  intros [Hi Hor]%old_children_cases Hn. destruct Hor as [Hni|[? ?]]; [|congruence].
  destruct (Hold i c Hi) as (nd & m0 & ? & ? & _ & ? & Hr & Heq). rewrite (Heq Hni) in Hr. eauto 10.
Qed.
Lemma present_size i :
  is_Some (old_children !! i) ∨ is_Some (new_created !! i) → (1 <= size (sub (length path) i m))%nat.
Proof.
  intros Hp. destruct (new_created !! i) as [nd|] eqn:Hn.
  - apply new_created_rep in Hn as [S Hr]. by eapply rep_size.
  - destruct Hp as [[c Hc]|[? ?]]; [|done]. destruct (kept_rep i c Hc Hn) as (nd & _ & _ & _ & _ & Hr). by eapply rep_size.
Qed.
Lemma absent_sub j : new_created !! j = None → old_children !! j = None → sub (length path) j m = ∅.
Proof.
  intros Hn Ho. apply (sub_gone s v path m olds ds); [done..| |].
  - intros ([j' nd] & -> & Hin)%list_elem_of_fmap. apply lookup_new_created in Hin. cbn in *. congruence.
  - intros Hi. by rewrite <- kept_old_children.
Qed.
Lemma children_flat o extra :
  (∀ S k, ¬ uses S path o k) → (∀ i nd, new_created !! i = Some nd → node_is_leaf nd = true) →
  match o with Some nd => ∀ S, rep S path nd m | None => m = ∅ end →
  (∀ i k, i ∉ ixs ds → old_keys s path olds i k → k ∈ stale_keys extra) →
  Forall (λ x, stale_since_version x = v ∧ all_old_keys s path olds (stale_node_key x)) extra →
  result s v path m (all_old_keys s path olds) o (below_new ds) (below_stale ds ++ extra).
Proof.
  intros Hno Hlf Hrep Hkept Hex. apply (assemble_flat s v path m olds ds); eauto.
  - intros d Hd k. destruct (d.1.2) as [nd|] eqn:Ho; [|by intros []].
    assert (node_is_leaf nd = true) as Hl; [|destruct nd; try done; apply reach_leaf].
    apply (Hlf d.1.1), lookup_new_created, elem_of_created. exists d. by destruct d as [[] ?]; cbn in *; subst.
  - destruct o; [|done]. apply Hrep.
Qed.
(** When no other child is left, the only new one moves up if it is a leaf. *)
Lemma only_new_child i nd :
  new_created = {[i := nd]} → (∀ j, is_Some (old_children !! j) → j = i) →
  (∀ lf, nd = NodeLeaf lf → result s v path m (all_old_keys s path olds) (Some nd) (below_new ds) (below_stale ds)) ∧
  (node_is_leaf nd = false → (2 <= size m)%nat).
Proof.
  intros Hn Ho. assert (new_created !! i = Some nd) as Hi by (rewrite Hn; apply lookup_singleton_eq).
  destruct (new_created_rep i nd Hi) as [S Hr]. split.
  - intros lf ->. rewrite <- (app_nil_r (below_stale ds)). apply children_flat; [by intros ? ? ?%reach_leaf|..|constructor].
    + intros j nd'. rewrite Hn, lookup_singleton_Some. by intros [_ <-].
    + eapply leaf_moves_up; [done|exact Hr|]. intros j Hj. apply absent_sub.
      * rewrite Hn. by apply lookup_singleton_ne.
      * destruct (old_children !! j) eqn:Hoj; [|done]. destruct Hj. apply Ho. by rewrite Hoj.
    + intros j k Hj (c & nd' & Hc & _). assert (j = i) as -> by (apply Ho; by rewrite kept_old_children, Hc by done).
      destruct Hj. by eapply created_ixs, lookup_new_created.
  - intros Hl. pose proof (size_sub_le (length path) m i).
    destruct (rep_type _ _ _ _ Hr) as [(? & _)|(_ & ? & _)]; [congruence|lia].
Qed.

Context (get_node_option : NodeKey → outcome anyhow (option (Node K))).
Context (Hserves : ∀ k nd, s !! k = Some nd → get_node_option k = Ok (Some nd)).

(** The only old child moves up if it is a leaf, and is stale then. *)
Lemma only_old_child v0 i c :
  new_created = ∅ → old_children = {[i := c]} →
  runs (if child_is_leaf c then
          key ← mlift (gen_child_node_key (mkNodeKey v0 (path_of path)) (ch_version c) i);
          old_child_node ← mlift (get_node get_node_option key);
          _ ← put_stale_node key v old_child_node;
          mret (Some old_child_node)
        else mret None)
    (λ o new old, new = [] ∧
       match o with
       | Some nd => result s v path m (all_old_keys s path olds) (Some nd) (below_new ds) (below_stale ds ++ old)
       | None => old = [] ∧ (2 <= size m)%nat
       end).
Proof.
  intros Hn Ho. assert (old_children !! i = Some c) as Hi by (rewrite Ho; apply lookup_singleton_eq).
  destruct (kept_rep i c Hi) as (nd & Hni & Hlt & Hst & Ht & Hr); [by rewrite Hn, lookup_empty|].
  rewrite (child_type_leaf c nd Ht). destruct (rep_type _ _ _ _ Hr) as [(Hl & _)|(Hl & Hsz & _)]; rewrite Hl.
  - destruct nd as [|lf|]; try done. eapply runs_lift; [by apply gen_child_node_key_run|].
    eapply runs_lift; [by apply (get_node_run s)|].
    eapply runs_bind; [apply runs_put_stale|]. intros _ ? ? [-> ->]. apply runs_ret. rewrite app_nil_r. split; [done|].
    assert (olds !! i = Some c) as Hoi by by rewrite <- kept_old_children.
    apply children_flat; [by intros ? ? ?%reach_leaf| | | |].
    + intros j nd'. by rewrite Hn, lookup_empty.
    + eapply leaf_moves_up; [done|exact Hr|]. intros j Hj. apply absent_sub; [by rewrite Hn, lookup_empty|].
      rewrite Ho. by apply lookup_singleton_ne.
    + intros j k Hj (c' & nd' & Hc' & Hst' & Hk). rewrite <- kept_old_children, Ho, lookup_singleton_Some in Hc' by done.
      destruct Hc' as [-> ->]. rewrite Hst in Hst'. injection Hst' as <-.
      destruct Hk as [->|?%reach_leaf]; [by left|done].
    + apply Forall_singleton. cbn. split; [done|]. exists i, c, (NodeLeaf lf). split_and!; [done..|by left].
  - apply runs_ret. split; [done|]. split; [done|]. pose proof (size_sub_le (length path) m i). lia.
Qed.
Lemma collapse_run v0 :
  old_children ≠ ∅ ∨ new_created ≠ ∅ →
  runs (collapse get_node_option (mkNodeKey v0 (path_of path)) v old_children new_created)
    (λ o new old, new = [] ∧
       match o with
       | Some nd => result s v path m (all_old_keys s path olds) (Some nd) (below_new ds) (below_stale ds ++ old)
       | None => old = [] ∧ (2 <= size m)%nat
       end).
Proof.
  intros Hne. unfold collapse. destruct (Nat.leb_spec (size old_children) 1) as [Hso|Hso]; cbn [andb].
  2:{ apply runs_ret. split_and!; [done..|]. destruct (map_two old_children) as (i & j & Hij & Hi & Hj); [lia|].
      apply (size_two (length path) m i j); [done|apply present_size; by left..]. }
  destruct (Nat.leb_spec (size new_created) 1) as [Hsn|Hsn].
  2:{ apply runs_ret. split_and!; [done..|]. destruct (map_two new_created) as (i & j & Hij & Hi & Hj); [lia|].
      apply (size_two (length path) m i j); [done|apply present_size; by right..]. }
  destruct (map_to_list new_created) as [|[n nd] ln] eqn:Hn; [|apply map_one in Hn; [|done]];
    (destruct (map_to_list old_children) as [|[o c] lo] eqn:Ho; [|apply map_one in Ho; [|done]]).
  - apply map_to_list_empty_iff in Hn, Ho. by destruct Hne.
  - apply map_to_list_empty_iff in Hn. by apply only_old_child.
  - apply map_to_list_empty_iff in Ho. destruct (only_new_child n nd Hn) as [Hlf Hsz].
    { intros j [? Hj]. by rewrite Ho, lookup_empty in Hj. }
    apply runs_ret. split; [done|]. destruct (node_is_leaf nd) eqn:Hl; [|by split; [|apply Hsz]].
    rewrite app_nil_r. destruct nd; try done. by eapply Hlf.
  - apply runs_ret. split; [done|]. destruct (N.eqb_spec o n) as [->|Hon]; cbn [andb].
    + destruct (only_new_child n nd Hn) as [Hlf Hsz].
      { intros j [? Hj]. by rewrite Ho, lookup_singleton_Some in Hj; destruct Hj. }
      destruct (node_is_leaf nd) eqn:Hl; [|by split; [|apply Hsz]].
      rewrite app_nil_r. destruct nd; try done. by eapply Hlf.
    + split; [done|]. apply (size_two (length path) m o n); [done|apply present_size..].
      * left. by rewrite Ho, lookup_singleton_eq.
      * right. by rewrite Hn, lookup_singleton_eq.
Qed.

(** The node after its children are updated *)
Lemma finish_node_run v0 hash_cache :
  cache_ok hash_cache path m →
  runs (let '(old_children, new_created) := split_children ds.*1 olds in
        if bool_decide (old_children = ∅) && bool_decide (new_created = ∅) then mret None
        else
          collapsed ← collapse get_node_option (mkNodeKey v0 (path_of path)) v old_children new_created;
          match collapsed with
          | Some node => mret (Some node)
          | None =>
              l ← mmap (new_child (mkNodeKey v0 (path_of path)) v hash_cache) (map_to_list new_created);
              n ← mlift (internal_node_new (collect_children l old_children));
              mret (Some (NodeInternal n))
          end)
    (λ o new old, result s v path m (all_old_keys s path olds) o (below_new ds ++ new) (below_stale ds ++ old)).
Proof.
  intros Hcache. pose proof (collapse_run v0) as Hcol. pose proof new_created_list as Hl.
  pose proof kept_old_children as Hkept. pose proof lookup_old_children as Hlook.
  pose proof absent_sub as Habs. pose proof children_flat as Hflat.
  destruct (split_children ds.*1 olds) as [och ncr]. cbn [fst snd] in *.
  destruct (bool_decide (och = ∅) && bool_decide (ncr = ∅)) eqn:Hb.
  { apply andb_true_iff in Hb as [->%bool_decide_eq_true ->%bool_decide_eq_true].
    apply runs_ret. rewrite app_nil_r. apply Hflat; [by intros ? ? []| | | |constructor].
    - intros i nd. by rewrite lookup_empty.
    - apply (sub_nowhere (length path)). intros j. by apply Habs; rewrite lookup_empty.
    - intros i k Hi (c & nd & Hc & _). rewrite <- Hkept, lookup_empty in Hc; done. }
  apply andb_false_iff in Hb as Hne. rewrite !bool_decide_eq_false in Hne.
  eapply runs_bind; [by apply Hcol|]. cbv beta. intros [nd|] new old [-> Hr]; [by apply runs_ret; rewrite !app_nil_r|].
  destruct Hr as [-> Hsz]. eapply (build_internal_run s v path m olds ds) with (k := λ n, mret (Some n)); eauto.
  - intros i Hi. destruct (decide (i ∈ ixs ds)) as [Hix|]; [|by apply Hkept]. destruct (och !! i) as [c|] eqn:Hc; [exfalso|done].
    apply Hlook in Hc as [Hin _]. apply elem_of_ixs in Hix as ([[j [nd|]] x] & Hd & [= ->]).
    + apply Hi. change i with (i, nd).1. apply list_elem_of_fmap_2, elem_of_created. by exists ((i, Some nd), x).
    + apply Hin, lookup_ds. by exists ((i, None), x).
  - intros n Hr. apply runs_ret. by rewrite !app_nil_r.
Qed.
End children.

(** ** The update of a stored subtree *)

Section stored.
Context (s : store) (v : Version) (hash_cache : option (gmap NibblePath HashValue)) (Hfresh : fresh v s).
Context (get_node_option : NodeKey → outcome anyhow (option (Node K))).
Context (Hserves : ∀ k nd, s !! k = Some nd → get_node_option k = Ok (Some nd)).

(** The node itself is stale. *)
Lemma result_self path m D o new old nk :
  result s v path m D o new old → ¬ D nk →
  result s v path m (λ k, k = nk ∨ D k) o new ([mkStaleNodeIndex v nk] ++ old).
Proof.
  intros [Hn Hr Hu Hs] HD. constructor; [done..| |].
  - intros k. rewrite Hu. unfold stale_keys. cbn. rewrite elem_of_cons. split.
    + intros [?|[Hk Hns]]; [by left|right]. split; [by right|]. intros [->|?]; [by apply HD|by apply Hns].
    + intros [?|[[->|Hk] Hns]]; [by left|destruct Hns; by left|right]. split; [done|]. intros ?. apply Hns. by right.
  - constructor; [by split; [|left]|]. eapply Forall_impl; [exact Hs|]. intros x [? ?]. split; [done|by right].
Qed.
Lemma reach_internal path n k :
  (∀ i c, in_children n !! i = Some c → is_Some (s !! child_key path i c)) →
  reach_below s path (NodeInternal n) k ↔ all_old_keys s path (in_children n) k.
Proof.
  intros Hst. split.
  - inversion 1 as [? ? i c Hi|? ? i c nd ? Hi Hc Hr]; subst; exists i, c.
    + destruct (Hst i c Hi) as [nd Hc]. exists nd. split_and!; [done..|by left].
    + exists nd. split_and!; [done..|by right].
  - intros (i & c & nd & Hi & Hc & [->|Hk]); [by apply reach_child|by eapply reach_deeper].
Qed.

(** The children of a stored internal node *)
Lemma stored_children path n m :
  rep s path (NodeInternal n) m →
  (∀ i, in_children n !! i = None → sub (length path) i m = ∅) ∧
  ∀ i c, in_children n !! i = Some c → ∃ nd, i < 16 ∧ s !! child_key path i c = Some nd ∧
    node_hash (E := anyhow) nd = Ok (ch_hash c) ∧ node_type nd = ch_node_type c ∧
    rep s (path ++ [i]) nd (sub (length path) i m).
Proof.
  inversion 1 as [|? ? ? nds Hok Hlen Hkeys Hsz Hlc Hnone Hsome Hsub]; subst. split; [done|].
  intros i c Hi. destruct (Hsome i c Hi) as (?&?&?&?). exists (nds i). split_and!; eauto.
Qed.
Lemma insert_at_child_run path n m kvs v0 fuel lr i :
  rep s path (NodeInternal n) m → update_ok v hash_cache path kvs m → (length path < 64)%nat →
  range_of kvs (N.of_nat (length path)) lr i →
  (∀ c nd, in_children n !! i = Some c → s !! child_key path i c = Some nd →
    rep s (path ++ [i]) nd (sub (length path) i m) →
    update_ok v hash_cache (path ++ [i]) (group kvs (N.of_nat (length path)) i) (sub (length path) i m) →
    runs (batch_insert_at_loop get_node_option fuel (child_key path i c) v (group kvs (N.of_nat (length path)) i)
            (N.of_nat (length path) + 1) hash_cache)
      (result s v (path ++ [i]) (updated v (kvs_map (group kvs (N.of_nat (length path)) i)) (sub (length path) i m))
         (tree_keys s (path ++ [i]) (child_key path i c) nd))) →
  runs (insert_at_child (λ key kvs depth, batch_insert_at_loop get_node_option fuel key v kvs depth hash_cache)
          (mkNodeKey v0 (path_of path)) n v kvs (N.of_nat (length path)) hash_cache lr)
    (λ y new old, y.1 = i ∧
       result s v (path ++ [i]) (sub (length path) i (updated v (kvs_map kvs) m))
         (old_keys s path (in_children n) i) y.2 new old).
Proof.
  intros Hrep Hu Hlen Hlr IH. pose proof (group_nonempty _ _ _ _ Hlr) as Hg. pose proof (range_of_lt _ _ _ _ Hlr) as Hlt.
  pose proof (update_ok_child v hash_cache path kvs m i Hu Hlen Hlt) as Hui.
  destruct (stored_children _ _ _ Hrep) as [Hnone Hsome].
  destruct lr as [l r], Hlr as (e & He & Hn & Hs). cbn [fst snd] in *. unfold insert_at_child.
  eapply runs_lift; [by rewrite He|]. eapply runs_lift; [by rewrite get_nibble_run, Hn by lia|].
  eapply runs_lift; [exact Hs|]. rewrite sub_updated, <- (group_map path) by (apply Hu || done).
  eapply runs_bind with (P := result s v (path ++ [i]) _ (old_keys s path (in_children n) i));
    [|by intros o new old Ho; apply runs_ret; rewrite !app_nil_r].
  unfold internal_child. destruct (in_children n !! i) as [c|] eqn:Hi.
  - destruct (Hsome i c Hi) as (nd & _ & Hst & _ & _ & Hr).
    eapply runs_lift; [by apply gen_child_node_key_run; [apply Hu|..]|].
    eapply runs_mono; [by apply (IH c nd)|]. intros o new old. apply result_iff. intros k. split.
    + intros Hk. exists c, nd. done.
    + intros (c' & nd' & Hc' & Hst' & Hk). by simplify_eq.
  - eapply runs_lift; [by apply gen_child_node_key_run; [apply Hu|..]|].
    rewrite (Hnone i Hi) in *.
    replace (N.of_nat (length path) + 1) with (N.of_nat (length (path ++ [i]))) by (rewrite length_app; cbn; lia).
    eapply runs_mono; [by apply (batch_update_subtree_run s v hash_cache Hfresh); [|left]|].
    intros o new old. apply result_iff. intros k. split; [done|]. intros (c & nd & Hc & _). by rewrite Hi in Hc.
Qed.

Lemma par_or_mmap {A B} (b : bool) (f : A → M (TreeUpdateBatch K) anyhow B) l :
  (if b then par_mmap f l else mmap f l) = (if b then par_mmap else mmap) f l.
Proof. by destruct b. Qed.
(** The rest of [batch_insert_at] at an internal node *)
Lemma insert_internal_run path n m kvs v0 ds :
  rep s path (NodeInternal n) m → update_ok v hash_cache path kvs m →
  (∀ i, i ∈ ixs ds ↔ ∃ e, e ∈ kvs ∧ hash_nibble e.1 (N.of_nat (length path)) = i) → NoDup (ixs ds) →
  (∀ x, x ∈ ds → result s v (path ++ [x.1.1]) (sub (length path) x.1.1 (updated v (kvs_map kvs) m))
     (old_keys s path (in_children n) x.1.1) x.1.2 x.2.1 x.2.2) →
  runs (let '(old_children, new_created) := split_children ds.*1 (in_children n) in
        if bool_decide (old_children = ∅) && bool_decide (new_created = ∅) then mret None
        else
          collapsed ← collapse get_node_option (mkNodeKey v0 (path_of path)) v old_children new_created;
          match collapsed with
          | Some node => mret (Some node)
          | None =>
              l ← mmap (new_child (mkNodeKey v0 (path_of path)) v hash_cache) (map_to_list new_created);
              n ← mlift (internal_node_new (collect_children l old_children));
              mret (Some (NodeInternal n))
          end)
    (λ o new old, result s v path (updated v (kvs_map kvs) m) (all_old_keys s path (in_children n)) o
       (below_new ds ++ new) (below_stale ds ++ old)).
Proof.
  intros Hrep Hu His Hnd HR. destruct (stored_children _ _ _ Hrep) as [Hnone Hsome].
  assert (length path < 64)%nat as Hlen by by inversion Hrep.
  assert (∀ i, i ∉ ixs ds → sub (length path) i (updated v (kvs_map kvs) m) = sub (length path) i m) as Helse.
  { intros i. by apply (updated_elsewhere v path kvs m (ixs ds)); [apply Hu|..]. }
  apply finish_node_run; try done; try apply Hu.
  - eapply updated_keys; apply Hu.
  - intros x Hx. split; [|by apply HR]. assert (x.1.1 ∈ ixs ds) as Hi by (apply elem_of_ixs; by exists x).
    apply His in Hi as (e & _ & <-). apply hash_nibble_lt.
  - intros i c Hi. destruct (Hsome i c Hi) as (nd & ? & ? & ? & ? & ?).
    exists nd, (sub (length path) i m). split_and!; [done..|]. intros Hni. by rewrite Helse.
  - intros i Hi Hni. by rewrite Helse, Hnone.
Qed.
Lemma batch_insert_at_loop_run fuel path nd m kvs v0 :
  s !! mkNodeKey v0 (path_of path) = Some nd → rep s path nd m → update_ok v hash_cache path kvs m →
  (64 < length path + fuel)%nat → (kvs ≠ [] ∨ (length path < 64)%nat) →
  runs (batch_insert_at_loop get_node_option fuel (mkNodeKey v0 (path_of path)) v kvs (N.of_nat (length path)) hash_cache)
    (result s v path (updated v (kvs_map kvs) m) (tree_keys s path (mkNodeKey v0 (path_of path)) nd)).
Proof.
  revert path nd m kvs v0. induction fuel as [|fuel IH]; intros path nd m kvs v0 Hst Hrep Hu Hfuel Hne.
  { destruct (uo_path _ _ _ _ _ Hu) as [_ ?]. lia. }
  cbn [batch_insert_at_loop]. eapply runs_lift; [by apply (get_node_run s)|].
  eapply runs_bind; [apply runs_put_stale|]. intros _ ? ? [-> ->].
  assert (∀ D o new old, (∀ k, D k ↔ reach_below s path nd k) →
    result s v path (updated v (kvs_map kvs) m) D o new old →
    result s v path (updated v (kvs_map kvs) m) (tree_keys s path (mkNodeKey v0 (path_of path)) nd) o ([] ++ new)
      ([mkStaleNodeIndex v (mkNodeKey v0 (path_of path))] ++ old)) as Hself.
  { intros D o new old HD Hr. eapply (result_iff s v path _ (λ k, k = mkNodeKey v0 (path_of path) ∨ D k)); [|apply result_self; [exact Hr|]].
    - intros k. unfold tree_keys. by rewrite HD.
    - rewrite HD. intros Hk. by apply (below_not_self path v0 _ (uo_path _ _ _ _ _ Hu) (reach_under _ _ _ _ _ Hrep Hk)). }
  destruct nd as [n|leaf|]; [| |by apply rep_null in Hrep].
  - assert (length path < 64)%nat as Hlen by by inversion Hrep.
    pose proof (kvs_sorted path kvs (uo_kvs _ _ _ _ _ Hu) Hlen) as Hsort.
    destruct (nibble_ranges_run kvs (N.of_nat (length path)) Hsort) as (ranges & is0 & Hrun & Hr & Hnd & His); [lia|].
    eapply runs_lift; [exact Hrun|]. cbv zeta.
    eapply runs_mono; [|intros o new old; apply (Hself (all_old_keys s path (in_children n)))].
    2:{ intros k. symmetry. apply reach_internal. intros i c Hi.
        by destruct (proj2 (stored_children _ _ _ Hrep) i c Hi) as (nd & _ & -> & _). }
    rewrite par_or_mmap. eapply runs_ranges with (loop := if N.of_nat (length path) <=? MAX_PARALLELIZABLE_DEPTH then par_mmap else mmap)
      (R := λ i, result s v (path ++ [i]) (sub (length path) i (updated v (kvs_map kvs) m)) (old_keys s path (in_children n) i));
      [destruct (_ <=? _); auto|exact Hr| |].
    + intros lr i Hlr Hi. apply (insert_at_child_run path n m kvs); [done..|].
      intros c nd Hc Hs Hrc Huc.
      replace (N.of_nat (length path) + 1) with (N.of_nat (length (path ++ [i]))) by (rewrite length_app; cbn; lia).
      apply IH; [done..|rewrite length_app; cbn; lia|]. left. by eapply group_nonempty.
    + intros ds Hix HR. subst is0. by apply insert_internal_run.
  - pose proof (rep_leaf_inv _ _ _ _ Hrep) as Hm. subst m.
    eapply runs_mono; [by apply (batch_update_subtree_with_existing_leaf_run s v hash_cache Hfresh)|].
    intros o new old. apply Hself. intros k. split; [done|]. by intros ?%reach_leaf.
Qed.

(** ** [batch_put_value_set] *)

(** The keys of the nodes of a version *)
Definition live (s : store) (version : Version) (k : NodeKey) : Prop :=
  ∃ nd, s !! new_empty_path version = Some nd ∧ tree_keys s [] (new_empty_path version) nd k.
Definition live_opt (s : store) (persisted_version : option Version) (k : NodeKey) : Prop :=
  match persisted_version with Some version => live s version k | None => False end.
Definition stored_opt (s : store) (persisted_version : option Version) (m : content) : Prop :=
  match persisted_version with Some version => jmt_at s version m | None => m = ∅ end.
(** The last update of a key counts. *)
Definition updates_of (value_set : list kv) : gmap HashValue (option (HashValue * K)) :=
  foldl (λ m x, <[x.1 := x.2]> m) ∅ value_set.

Lemma updates_of_keys (P : HashValue → Prop) (value_set : list kv) :
  Forall (λ x, P x.1) value_set → ∀ k o, updates_of value_set !! k = Some o → P k.
Proof.
  unfold updates_of. intros Hall.
  assert (∀ m : gmap HashValue (option (HashValue * K)), (∀ k o, m !! k = Some o → P k) →
    ∀ k o, foldl (λ m x, <[x.1 := x.2]> m) m value_set !! k = Some o → P k) as Hgen.
  { induction Hall as [|x l Hx _ IH]; intros m Hm; [done|]. cbn. apply IH.
    intros k o [[<- _]|[_ ?]]%lookup_insert_Some; eauto. }
  apply Hgen. intros k o. by rewrite lookup_empty.
Qed.
Lemma dedup_and_sort_ok (value_set : list kv) :
  Forall (λ x, hash_wf x.1) value_set →
  kvs_ok [] (dedup_and_sort value_set) ∧ kvs_map (dedup_and_sort value_set) = updates_of value_set.
Proof.
  intros Hwf. unfold dedup_and_sort. fold (updates_of value_set).
  pose proof (NoDup_fst_btree_iter (updates_of value_set)) as Hnd. split; [split|].
  - pose proof (sorted_btree_iter (updates_of value_set)) as Hs.
    induction Hs as [|x l Hs IH Hx]; constructor; apply NoDup_cons in Hnd as [Hni Hnd]; [by apply IH|].
    rewrite Forall_forall in *. intros y Hy. specialize (Hx y Hy). assert (x ≠ y) by (by intros ->). lia.
  - intros [k o] Hk%elem_of_btree_iter. split; [apply key_in_nil|].
    by apply (updates_of_keys hash_wf value_set) in Hk.
  - unfold kvs_map. apply map_eq. intros k. apply option_eq. intros o.
    by rewrite <- elem_of_list_to_map, elem_of_btree_iter by done.
Qed.
Lemma insert_root_run pv m kvs :
  jmt_at s pv m → update_ok v hash_cache [] kvs m →
  runs (batch_insert_at get_node_option (new_empty_path pv) v kvs 0 hash_cache)
    (result s v [] (updated v (kvs_map kvs) m) (live s pv)).
Proof.
  intros (nd & Hst & Hor) Hu. assert (∀ k, tree_keys s [] (new_empty_path pv) nd k ↔ live s pv k) as Hlive.
  { intros k. split; [by exists nd|]. intros (nd' & Hst' & Hk). by simplify_eq. }
  destruct Hor as [[-> ->]|Hrep].
  - unfold batch_insert_at. change (N.to_nat (65 - 0)) with (S 64). generalize 64%nat. intros fuel.
    cbn [batch_insert_at_loop].
    eapply runs_lift; [by apply (get_node_run s)|]. eapply runs_bind; [apply runs_put_stale|]. intros _ ? ? [-> ->].
    eapply runs_lift; [done|].
    eapply runs_mono; [apply (batch_update_subtree_run s v hash_cache Hfresh [] kvs pv); [done|right; cbn; lia]|].
    intros o new old Hr. eapply (result_iff s v [] _ (λ k, k = new_empty_path pv ∨ False)).
    + intros k. rewrite <- Hlive. unfold tree_keys. split; [intros [|]; [by left|done]|].
      intros [|Hk]; [by left|]. by inversion Hk.
    + by apply result_self; [|intros []].
  - eapply runs_mono; [by apply (batch_insert_at_loop_run 65 [] nd m kvs pv); [..|cbn; lia|right; cbn; lia]|].
    intros o new old. by apply result_iff.
Qed.

(** What the update of a version promises to the store and to the pruner. *)
Record put_result (persisted_version : option Version) (m' : content) (hash : HashValue)
    (batch : TreeUpdateBatch K) : Prop := {
  pr_hash : hash = smt_root (value_hashes m');
  pr_NoDup : NoDup (batch_nodes batch).*1;
  pr_version k : k ∈ (batch_nodes batch).*1 → nk_version k = v;
  pr_at : jmt_at (overlay (batch_nodes batch) s) v m';
  pr_live k : live (overlay (batch_nodes batch) s) v k ↔
    k ∈ (batch_nodes batch).*1 ∨ (live_opt s persisted_version k ∧ k ∉ stale_keys (batch_stale batch));
  pr_stale : Forall (λ x, stale_since_version x = v ∧ live_opt s persisted_version (stale_node_key x)) (batch_stale batch);
}.
Definition root_node (o : option (Node K)) : Node K := default NodeNull o.
Definition root_entry (o : option (Node K)) : NodeKey * Node K := (new_empty_path v, root_node o).

Lemma not_below_root new o : new_ok v [] new → NoDup (new ++ [root_entry o]).*1.
Proof.
  intros [Hn Hb]. rewrite fmap_app. apply NoDup_app. split_and!; [done| |apply NoDup_singleton].
  intros k Hk ->%list_elem_of_singleton. apply Hb in Hk as [_ Hk].
  apply (below_not_self [] v) in Hk; [done|]. split; [constructor|cbn; lia].
Qed.
Lemma overlay_perm new new' : new ≡ₚ new' → NoDup new.*1 → overlay new s = overlay new' s.
Proof. intros Hp Hn. unfold overlay. by rewrite (list_to_map_proper new new'). Qed.
Lemma put_result_of pv m' o new old batch :
  result s v [] m' (live_opt s pv) o new old →
  batch_nodes batch ≡ₚ new ++ [root_entry o] → batch_stale batch ≡ₚ old →
  put_result pv m' (smt_root (value_hashes m')) batch.
Proof.
  intros Hr Hn Ho. pose proof (r_new _ _ _ _ _ _ _ _ Hr) as Hnew. pose proof (not_below_root new o Hnew) as Hnd.
  assert (overlay (batch_nodes batch) s = overlay (new ++ [root_entry o]) s) as Hov.
  { symmetry. by apply overlay_perm. }
  assert (overlay new s ⊆ overlay (new ++ [root_entry o]) s) as Hsub.
  { apply map_subseteq_spec. intros k nd [Hk|Hk]%lookup_overlay.
    - apply overlay_new; [done|]. apply elem_of_app. by left.
    - unfold overlay. rewrite lookup_union_r; [done|]. apply not_elem_of_list_to_map_1. rewrite fmap_app, elem_of_app.
      intros [Hin| ->%list_elem_of_singleton]; [|by apply (Hfresh _ _ Hk)]. apply Hnew in Hin as [? _]. by apply (Hfresh _ _ Hk). }
  assert (overlay (new ++ [root_entry o]) s !! new_empty_path v = Some (root_node o)) as Hroot.
  { apply overlay_new; [done|]. apply elem_of_app. right. by left. }
  assert (∀ k, reach_below (overlay (new ++ [root_entry o]) s) [] (root_node o) k ↔ uses (overlay new s) [] o k) as Hreach.
  { intros k. pose proof (r_rep _ _ _ _ _ _ _ _ Hr) as Hrep. destruct o as [nd|]; cbn [uses root_node default].
    - split; [by eapply reach_mono_inv|by apply reach_mono].
    - split; [by inversion 1|done]. }
  constructor; [done|by rewrite Hn| | | |].
  - intros k. rewrite Hn, fmap_app, elem_of_app. intros [Hk| ->%list_elem_of_singleton]; [by apply Hnew|done].
  - rewrite Hov. exists (root_node o). split; [done|]. pose proof (r_rep _ _ _ _ _ _ _ _ Hr) as Hrep.
    destruct o as [nd|]; [right|by left]. by eapply rep_mono.
  - intros k. rewrite Hov, Hn, fmap_app, elem_of_app. unfold stale_keys. rewrite Ho. fold (stale_keys old).
    transitivity (k = new_empty_path v ∨ uses (overlay new s) [] o k).
    + rewrite <- Hreach. split; [intros (nd & Hst & Hk)|intros Hk; by exists (root_node o)].
      rewrite Hroot in Hst. by injection Hst as <-.
    + rewrite (r_uses _ _ _ _ _ _ _ _ Hr). cbn. rewrite list_elem_of_singleton. tauto.
  - rewrite Ho. apply Hr.
Qed.
Lemma put_root_run m D o new old :
  result s v [] m D o new old →
  runs (match o with
        | Some root_node => hash ← mlift (node_hash root_node); _ ← put_node (new_empty_path v) root_node; mret hash
        | None => _ ← put_node (new_empty_path v) NodeNull; mret SPARSE_MERKLE_PLACEHOLDER_HASH
        end)
    (λ h new' old', h = smt_root (value_hashes m) ∧ new' = [root_entry o] ∧ old' = []).
Proof.
  intros Hr%r_rep. rewrite smt_root_eq. destruct o as [nd|].
  - eapply runs_lift; [exact (rep_hash _ _ _ _ Hr)|]. eapply runs_bind; [apply runs_put_node|].
    intros _ ? ? [-> ->]. by apply runs_ret.
  - eapply runs_bind; [apply runs_put_node|]. intros _ ? ? [-> ->]. apply runs_ret. split; [|done].
    rewrite Hr. unfold value_hashes. by rewrite fmap_empty, smt_hash_empty.
Qed.
Lemma batch_put_value_set_run value_set pv m :
  Forall (λ x, hash_wf x.1) value_set → stored_opt s pv m →
  cache_ok hash_cache [] (updated v (updates_of value_set) m) →
  N.of_nat (size (updated v (updates_of value_set) m)) < 2 ^ 64 →
  ∃ batch, batch_put_value_set get_node_option value_set hash_cache pv v
             = Ok (smt_root (value_hashes (updated v (updates_of value_set) m)), batch) ∧
    put_result pv (updated v (updates_of value_set) m) (smt_root (value_hashes (updated v (updates_of value_set) m))) batch.
Proof.
  intros Hwf Hpv Hc Hsz. destruct (dedup_and_sort_ok value_set Hwf) as [Hok Hmap].
  set (m' := updated v (updates_of value_set) m) in *.
  assert (update_ok v hash_cache [] (dedup_and_sort value_set) m) as Hu.
  { constructor; [done|split; [constructor|cbn; lia]| |by rewrite Hmap..].
    intros k x Hk. split; [apply key_in_nil|]. destruct pv as [pv|]; cbn in Hpv; [by eapply jmt_at_keys|].
    subst m. by rewrite lookup_empty in Hk. }
  assert (runs (match pv with
                | Some pv => batch_insert_at get_node_option (new_empty_path pv) v (dedup_and_sort value_set) 0 hash_cache
                | None => batch_update_subtree (new_empty_path v) v (dedup_and_sort value_set) 0 hash_cache
                end) (result s v [] m' (live_opt s pv))) as Hrun.
  { unfold m'. rewrite <- Hmap. destruct pv as [pv|]; cbn in Hpv; [by apply insert_root_run|]. subst m.
    apply (batch_update_subtree_run s v hash_cache Hfresh [] (dedup_and_sort value_set) v); [done|right; cbn; lia]. }
  unfold batch_put_value_set. eapply runs_bind with (Q := λ h new old, h = smt_root (value_hashes m') ∧
    ∃ o new0, new = new0 ++ [root_entry o] ∧ result s v [] m' (live_opt s pv) o new0 old) in Hrun.
  2:{ intros o new old Hr. eapply runs_mono; [by eapply put_root_run|]. cbv beta. intros h new' old' (-> & -> & ->).
      split; [done|]. exists o, new. by rewrite app_nil_r. }
  destruct (Hrun batch_new) as (h & batch & new & old & Hrun' & _ & Hn & Ho & -> & o & new0 & -> & Hr); [done|].
  exists batch. split; [|by eapply put_result_of]. by rewrite Hrun'.
Qed.
End stored.

Lemma live_stored (s : store) version m k : jmt_at s version m → live s version k → is_Some (s !! k).
Proof.
  intros (nd & Hst & Hor) (nd' & Hst' & Hk). rewrite Hst in Hst'. injection Hst' as <-.
  destruct Hk as [->|Hk]; [by rewrite Hst|]. destruct Hor as [[-> _]|Hrep]; [by inversion Hk|by eapply reach_stored].
Qed.
Lemma jmt_at_mono (s s' : store) version m : s ⊆ s' → jmt_at s version m → jmt_at s' version m.
Proof.
  intros Hsub (nd & Hst & Hor). exists nd. split; [by eapply lookup_weaken|].
  destruct Hor as [?|Hrep]; [by left|right]. by eapply rep_mono.
Qed.
Lemma put_result_old (s : store) v pv m hash batch : put_result s v pv m hash batch → fresh v s → s ⊆ overlay (batch_nodes batch) s.
Proof.
  intros Hp Hf. apply map_subseteq_spec. intros k nd Hk. unfold overlay. rewrite lookup_union_r; [done|].
  apply not_elem_of_list_to_map_1. intros Hin. apply (Hf k nd Hk). by eapply pr_version.
Qed.

(** C22: An update of a stored tree with any set of values to put and to delete never fails or panics.
    It returns the root hash of the sparse Merkle tree of the updated map, and with its nodes added to
    the store the new version holds that map while every older version still holds what it held. The
    updates may repeat keys, in which case the last one counts, and the hashes of the nodes may be
    supplied. *)
Theorem batch_put_value_set_correct (s : store) get_node_option (value_set : list kv) node_hashes
    persisted_version version (m : content)
    (Hserves : ∀ k nd, s !! k = Some nd → get_node_option k = Ok (Some nd))
    (Hfresh : fresh version s) (Hwf : Forall (λ x, hash_wf x.1) value_set)
    (Hstored : stored_opt s persisted_version m)
    (Hcache : cache_ok node_hashes [] (updated version (updates_of value_set) m))
    (Hsize : N.of_nat (size (updated version (updates_of value_set) m)) < 2 ^ 64) :
  ∃ batch,
    batch_put_value_set get_node_option value_set node_hashes persisted_version version
      = Ok (smt_root (value_hashes (updated version (updates_of value_set) m)), batch) ∧
    jmt_at (overlay (batch_nodes batch) s) version (updated version (updates_of value_set) m) ∧
    ∀ version' m', jmt_at s version' m' → jmt_at (overlay (batch_nodes batch) s) version' m'.
Proof.
  destruct (batch_put_value_set_run s version node_hashes Hfresh get_node_option Hserves value_set persisted_version m)
    as (batch & Hrun & Hp); [done..|].
  exists batch. split_and!; [done|by eapply pr_at|]. intros version' m'. apply jmt_at_mono. by eapply put_result_old.
Qed.

(** C24: The bookkeeping of an update is exact. The nodes it returns are those of the new version that
    the store does not have, and the nodes it marks as stale, since this version, are those of the
    version it starts from that the new version does not use. *)
Theorem put_stale_nodes_exact (s : store) get_node_option (value_set : list kv) node_hashes
    persisted_version version (m : content)
    (Hserves : ∀ k nd, s !! k = Some nd → get_node_option k = Ok (Some nd))
    (Hfresh : fresh version s) (Hwf : Forall (λ x, hash_wf x.1) value_set)
    (Hstored : jmt_at s persisted_version m)
    (Hcache : cache_ok node_hashes [] (updated version (updates_of value_set) m))
    (Hsize : N.of_nat (size (updated version (updates_of value_set) m)) < 2 ^ 64) :
  ∃ hash batch,
    batch_put_value_set get_node_option value_set node_hashes (Some persisted_version) version = Ok (hash, batch) ∧
    (∀ x, x ∈ batch_stale batch → stale_since_version x = version) ∧
    ∀ k, (k ∈ stale_keys (batch_stale batch) ↔
            live s persisted_version k ∧ ¬ live (overlay (batch_nodes batch) s) version k) ∧
         (k ∈ (batch_nodes batch).*1 ↔ live (overlay (batch_nodes batch) s) version k ∧ s !! k = None).
Proof.
  destruct (batch_put_value_set_run s version node_hashes Hfresh get_node_option Hserves value_set (Some persisted_version) m)
    as (batch & Hrun & Hp); [done..|].
  eexists _, batch. split; [exact Hrun|]. pose proof (pr_stale _ _ _ _ _ _ Hp) as Hs. rewrite Forall_forall in Hs.
  split; [intros x Hx; by apply Hs|]. intros k. rewrite (pr_live _ _ _ _ _ _ Hp).
  assert (k ∈ stale_keys (batch_stale batch) → live s persisted_version k) as Hst.
  { intros (x & -> & Hx)%list_elem_of_fmap. by apply Hs. }
  assert (k ∈ (batch_nodes batch).*1 → s !! k = None) as Hnew.
  { intros Hk%(pr_version _ _ _ _ _ _ Hp). destruct (s !! k) eqn:Hsk; [|done]. by destruct (Hfresh _ _ Hsk). }
  pose proof (live_stored s persisted_version m k Hstored) as Hls. cbn [live_opt].
  split; split.
  - intros Hk. split; [by apply Hst|]. intros [Hn|[_ Hns]]; [|done].
    destruct (Hls (Hst Hk)). specialize (Hnew Hn). congruence.
  - intros [Hl Hnl]. destruct (decide (k ∈ stale_keys (batch_stale batch))); [done|]. destruct Hnl. by right.
  - intros Hn. split; [by left|by apply Hnew].
  - intros [[Hn|[Hl _]] Hno]; [done|]. destruct (Hls Hl). congruence.
Qed.
End insert.

(** ** A store of one version *)
#[local] Existing Instance sample_sparse_hashes.

Definition sample_reader (s : gmap NodeKey (Node N)) : NodeKey → outcome anyhow (option (Node N)) := λ k, Ok (s !! k).
Definition sample_values : list (HashValue * option (HashValue * N)) :=
  [(2 ^ 255, Some (11, 1)); (2 ^ 255 + 2 ^ 251, Some (12, 2)); (5, Some (13, 3)); (5, Some (14, 3))].
Definition sample_content : gmap HashValue (HashValue * (N * Version)) := updated 0 (updates_of sample_values) ∅.
Definition sample_store : gmap NodeKey (Node N) :=
  match batch_put_value_set (sample_reader ∅) sample_values None None 0 with
  | Ok (_, batch) => overlay (batch_nodes batch) ∅
  | _ => ∅
  end.
Definition sample_updates : list (HashValue * option (HashValue * N)) :=
  [(2 ^ 255, None); (7, Some (15, 4))].

Lemma sample_wf : Forall (λ x : HashValue * option (HashValue * N), hash_wf x.1) (sample_values ++ sample_updates).
Proof. repeat constructor; by vm_compute. Qed.
Lemma sample_store_ok : jmt_at sample_store 0 sample_content ∧ fresh 1 sample_store.
Proof.
  pose proof sample_wf as Hwf. apply Forall_app in Hwf as [Hwf _].
  destruct (batch_put_value_set_run (K := N) ∅ 0 None ltac:(intros k nd; by rewrite lookup_empty)
    (sample_reader ∅) ltac:(intros k nd; by rewrite lookup_empty) sample_values None ∅) as (batch & Hrun & Hp); [done|done|done|by vm_compute|].
  unfold sample_store. rewrite Hrun. split; [apply (pr_at _ _ _ _ _ _ Hp)|].
  intros k nd [Hk|?]%lookup_overlay; [|done].
  by rewrite (pr_version _ _ _ _ _ _ Hp k (list_elem_of_fmap_2 fst _ _ Hk)).
Qed.
Lemma batch_put_value_set_correct_witness :
  ∃ batch,
    batch_put_value_set (sample_reader sample_store) sample_updates None (Some 0) 1
      = Ok (smt_root (value_hashes (updated 1 (updates_of sample_updates) sample_content)), batch) ∧
    jmt_at (overlay (batch_nodes batch) sample_store) 1 (updated 1 (updates_of sample_updates) sample_content) ∧
    ∀ version' m', jmt_at sample_store version' m' → jmt_at (overlay (batch_nodes batch) sample_store) version' m'.
Proof.
  apply (batch_put_value_set_correct sample_store (sample_reader sample_store) sample_updates None (Some 0) 1 sample_content).
  - intros k nd Hk. unfold sample_reader. by rewrite Hk.
  - apply sample_store_ok.
  - exact (proj2 (proj1 (Forall_app _ _ _) sample_wf)).
  - apply sample_store_ok.
  - exact I.
  - by vm_compute.
Defined.
Lemma put_stale_nodes_exact_witness :
  ∃ hash batch,
    batch_put_value_set (sample_reader sample_store) sample_updates None (Some 0) 1 = Ok (hash, batch) ∧
    (∀ x, x ∈ batch_stale batch → stale_since_version x = 1) ∧
    ∀ k, (k ∈ stale_keys (batch_stale batch) ↔
            live sample_store 0 k ∧ ¬ live (overlay (batch_nodes batch) sample_store) 1 k) ∧
         (k ∈ (batch_nodes batch).*1 ↔ live (overlay (batch_nodes batch) sample_store) 1 k ∧ sample_store !! k = None).
Proof.
  apply (put_stale_nodes_exact sample_store (sample_reader sample_store) sample_updates None 0 1 sample_content).
  - intros k nd Hk. unfold sample_reader. by rewrite Hk.
  - apply sample_store_ok.
  - exact (proj2 (proj1 (Forall_app _ _ _) sample_wf)).
  - apply sample_store_ok.
  - exact I.
  - by vm_compute.
Defined.
