(* ===== verification/StateMerkleDb.v ===== *)
(** * The state tree's database, its caches and its pruners (storage/arxdb)

    The tables of the state Merkle database and the batches written to them, the cache of versions not yet
    written and the LRU cache of nodes ([StateMerkleDb]), the two pruners with their managers and worker,
    and the checks that use their progress. *)
From stdpp Require Import functions sorting.
From S2P Require Import Prelude Crypto Nibble SparseMerkle JmtNode JmtCodec Jmt.
Local Open Scope N_scope.

(** ** The tables *)

Inductive StaleSchema := StaleNodeIndexSchema | StaleNodeIndexCrossEpochSchema.
#[export] Instance StaleSchema_eq_dec : EqDecision StaleSchema.
Proof. solve_decision. Defined.
#[export] Instance StaleNodeIndex_eq_dec : EqDecision StaleNodeIndex.
Proof. solve_decision. Defined.
#[export] Instance StaleNodeIndex_countable : Countable StaleNodeIndex.
Proof.
  by apply (inj_countable' (λ i, (stale_since_version i, stale_node_key i)) (λ '(v, k), mkStaleNodeIndex v k)); intros [].
Defined.

(** [KeyCodec for StaleNodeIndex] *)
Definition stale_index_encode_key (i : StaleNodeIndex) : list N :=
  write_be 8 (stale_since_version i) ++ node_key_encode (stale_node_key i).
Definition stale_index_decode_key (data : list N) : outcome anyhow StaleNodeIndex :=
  _ ← ensure (8 <? lenN data) (fmt "Unexpected data len {}, expected to be greater than {}." [lenN data; 8]);
  '(stale_since_version, _) ← read_u64_be (take 8 data);
  node_key ← node_key_decode (drop 8 data);
  Ok (mkStaleNodeIndex stale_since_version node_key).

Inductive ColumnFamily :=
| EPOCH_BY_VERSION_CF | VERSION_DATA_CF | DB_METADATA_CF
| JELLYFISH_MERKLE_NODE_CF | STALE_NODE_INDEX_CF | STALE_NODE_INDEX_CROSS_EPOCH_CF.
#[export] Instance ColumnFamily_eq_dec : EqDecision ColumnFamily.
Proof. solve_decision. Defined.
Definition stale_cf (schema : StaleSchema) : ColumnFamily :=
  match schema with
  | StaleNodeIndexSchema => STALE_NODE_INDEX_CF
  | StaleNodeIndexCrossEpochSchema => STALE_NODE_INDEX_CROSS_EPOCH_CF
  end.
(** The families of the two databases that the rows of this file belong to *)
Definition ledger_db_column_families : list ColumnFamily := [EPOCH_BY_VERSION_CF; VERSION_DATA_CF; DB_METADATA_CF].
Definition state_merkle_db_column_families : list ColumnFamily :=
  [DB_METADATA_CF; JELLYFISH_MERKLE_NODE_CF; STALE_NODE_INDEX_CF; STALE_NODE_INDEX_CROSS_EPOCH_CF].

(** [LruCache] of the [lru] crate: a bounded map that may drop any entry when one is put. *)
Class LruCache (C K V : Type) `{Countable K} := {
  lru_new : N → C;
  lru_get : K → C → option V * C;
  lru_put : K → V → C → C;
  lru_entries : C → gmap K V;
  lru_new_entries n : lru_entries (lru_new n) = ∅;
  lru_get_entries k c : (lru_get k c).1 = lru_entries c !! k ∧ lru_entries (lru_get k c).2 = lru_entries c;
  lru_put_entries k v c : lru_entries (lru_put k v c) ⊆ <[k := v]> (lru_entries c);
}.

Section state_merkle_db.
Context `{!SparseHashes} {K C : Type} `{!LruCache C NibblePath (Version * Node K)}.
Abbreviation kv := (HashValue * option (HashValue * K))%type.

(** What the database holds: the nodes, the two indices of stale nodes, and the progress of their pruners. *)
Record Tables := mkTables {
  tb_nodes : gmap NodeKey (Node K);
  tb_stale : StaleSchema → gset StaleNodeIndex;
  tb_progress : StaleSchema → option Version;
}.
Inductive WriteOp :=
| PutNode (node_key : NodeKey) (node : Node K)
| DeleteNode (node_key : NodeKey)
| PutIndex (schema : StaleSchema) (index : StaleNodeIndex)
| DeleteIndex (schema : StaleSchema) (index : StaleNodeIndex)
| PutProgress (schema : StaleSchema) (version : Version).
Definition SchemaBatch : Type := list WriteOp.
Definition op_cf (op : WriteOp) : ColumnFamily :=
  match op with
  | PutNode _ _ | DeleteNode _ => JELLYFISH_MERKLE_NODE_CF
  | PutIndex schema _ | DeleteIndex schema _ => stale_cf schema
  | PutProgress _ _ => DB_METADATA_CF
  end.
Definition apply_op (t : Tables) (op : WriteOp) : Tables :=
  match op with
  | PutNode k n => mkTables (<[k := n]> (tb_nodes t)) (tb_stale t) (tb_progress t)
  | DeleteNode k => mkTables (delete k (tb_nodes t)) (tb_stale t) (tb_progress t)
  | PutIndex schema i => mkTables (tb_nodes t) (<[schema := {[i]} ∪ tb_stale t schema]> (tb_stale t)) (tb_progress t)
  | DeleteIndex schema i => mkTables (tb_nodes t) (<[schema := tb_stale t schema ∖ {[i]}]> (tb_stale t)) (tb_progress t)
  | PutProgress schema v => mkTables (tb_nodes t) (tb_stale t) (<[schema := Some v]> (tb_progress t))
  end.
(** [DB::write_schemas], on a database that has [families] *)
Definition write_schemas (families : list ColumnFamily) (batch : SchemaBatch) (t : Tables) : outcome anyhow Tables :=
  if forallb (λ op, bool_decide (op_cf op ∈ families)) batch then Ok (foldl apply_op t batch)
  else Err (fmt "DB::cf_handle not found for column family name: {}" []).

(** The iterator over an index: the rows in the order of their keys from [start] on *)
Definition index_words (i : StaleNodeIndex) : list N :=
  [stale_since_version i; nk_version (stale_node_key i); np_num_nibbles (nk_nibble_path (stale_node_key i))]
    ++ np_bytes (nk_nibble_path (stale_node_key i)).
Definition index_le (i j : StaleNodeIndex) : Prop := bytes_compare (index_words i) (index_words j) ≠ Gt.
#[export] Instance index_le_dec i j : Decision (index_le i j).
Proof. unfold index_le. apply _. Defined.
Definition iter_from (t : Tables) (schema : StaleSchema) (start : StaleNodeIndex) : list StaleNodeIndex :=
  filter (λ i, index_le start i) (merge_sort index_le (elements (tb_stale t schema))).

(** ** [VersionedNodeCache] *)

Abbreviation NodeCache := (gmap NodeKey (Node K)).
Definition NUM_VERSIONS_TO_CACHE : nat := 2.
Definition add_version {E} (inner : list (Version * NodeCache)) (version : Version) (nodes : NodeCache)
  : outcome E (list (Version * NodeCache)) :=
  _ ← match last inner with
      | Some (last_version, _) => rassert (last_version <? version)
      | None => Ok tt
      end;
  Ok (inner ++ [(version, nodes)]).
Definition get_version (inner : list (Version * NodeCache)) (version : Version) : option NodeCache :=
  snd <$> List.find (λ e, e.1 =? version) (reverse inner).

(** ** [LruNodeCache] *)

(** [shards]: one LRU per first byte of the path. *)
Definition shard (nibble_path : NibblePath) : N := default 0 (head (np_bytes nibble_path)).
Definition lru_node_get (shards : N → C) (node_key : NodeKey) : option (Node K) * (N → C) :=
  let i := shard (nk_nibble_path node_key) in
  let '(r, c) := lru_get (nk_nibble_path node_key) (shards i) in
  (r ≫= (λ '(version, node), if version =? nk_version node_key then Some node else None), <[i := c]> shards).
Definition lru_node_put (node_key : NodeKey) (node : Node K) (shards : N → C) : N → C :=
  let i := shard (nk_nibble_path node_key) in
  <[i := lru_put (nk_nibble_path node_key) (nk_version node_key, node) (shards i)]> shards.

(** [maybe_evict_version]: the oldest version moves to the LRU. *)
Definition maybe_evict_version (inner : list (Version * NodeCache)) (lru_cache : N → C)
  : list (Version * NodeCache) * (N → C) :=
  if decide (NUM_VERSIONS_TO_CACHE < length inner)%nat then
    match inner with
    | (_, cache) :: inner' => (inner', foldr (λ e, lru_node_put e.1 e.2) lru_cache (map_to_list cache))
    | [] => (inner, lru_cache)
    end
  else (inner, lru_cache).

(** ** [StateMerkleDb] *)

Record StateMerkleDb := mkStateMerkleDb {
  sm_db : Tables;
  enable_cache : bool;
  version_cache : list (Version * NodeCache);
  lru_cache : N → C;
}.
Definition state_merkle_db_new (db : Tables) (max_nodes_per_lru_cache_shard : N) : StateMerkleDb :=
  mkStateMerkleDb db (0 <? max_nodes_per_lru_cache_shard) [] (λ _, lru_new max_nodes_per_lru_cache_shard).

(** [TreeReader::get_node_option] *)
Definition get_node_option (s : StateMerkleDb) (node_key : NodeKey) : option (Node K) * StateMerkleDb :=
  if negb (enable_cache s) then (tb_nodes (sm_db s) !! node_key, s)
  else match get_version (version_cache s) (nk_version node_key) with
       | Some node_cache => (node_cache !! node_key, s)
       | None =>
           let '(r, lru) := lru_node_get (lru_cache s) node_key in
           match r with
           | Some node => (Some node, mkStateMerkleDb (sm_db s) (enable_cache s) (version_cache s) lru)
           | None =>
               let node_opt := tb_nodes (sm_db s) !! node_key in
               let lru := match node_opt with Some node => lru_node_put node_key node lru | None => lru end in
               (node_opt, mkStateMerkleDb (sm_db s) (enable_cache s) (version_cache s) lru)
           end
       end.
(** What a tree is given to read the nodes with *)
Definition reader (s : StateMerkleDb) (node_key : NodeKey) : outcome anyhow (option (Node K)) :=
  Ok (get_node_option s node_key).1.

(** The index a stale node is recorded in *)
Definition stale_schema (previous_epoch_ending_version : option Version) (row : StaleNodeIndex) : StaleSchema :=
  match previous_epoch_ending_version with
  | Some v => if nk_version (stale_node_key row) <=? v then StaleNodeIndexCrossEpochSchema else StaleNodeIndexSchema
  | None => StaleNodeIndexSchema
  end.
Definition batch_rows (b : TreeUpdateBatch K) (previous_epoch_ending_version : option Version) : SchemaBatch :=
  ((λ e, PutNode e.1 e.2) <$> concat (node_batch b))
    ++ ((λ row, PutIndex (stale_schema previous_epoch_ending_version row) row) <$> concat (stale_node_index_batch b)).
Definition merklize_value_set (s : StateMerkleDb) (value_set : list kv) (node_hashes : option (gmap NibblePath HashValue))
    (version : Version) (base_version previous_epoch_ending_version : option Version)
  : outcome anyhow (SchemaBatch * HashValue * StateMerkleDb) :=
  '(new_root_hash, tree_update_batch) ← batch_put_value_set (reader s) value_set node_hashes base_version version;
  cache ← (if enable_cache s
           then add_version (version_cache s) version (list_to_map (reverse (concat (node_batch tree_update_batch))))
           else Ok (version_cache s));
  Ok (batch_rows tree_update_batch previous_epoch_ending_version, new_root_hash,
      mkStateMerkleDb (sm_db s) (enable_cache s) cache (lru_cache s)).

(** [get_state_snapshot_version_before]: the version of the last node whose key is at most the root's at
    [next_version - 1] *)
Definition node_key_le (k1 k2 : NodeKey) : bool := match node_key_compare k1 k2 with Gt => false | _ => true end.
Definition last_key_upto (t : Tables) (bound : NodeKey) : option NodeKey :=
  foldr (λ k best, if node_key_le k bound && match best with Some b => node_key_le b k | None => true end
                   then Some k else best)
    None (map_to_list (tb_nodes t)).*1.
Definition get_state_snapshot_version_before (t : Tables) (next_version : Version) : option Version :=
  if 0 <? next_version then nk_version <$> last_key_upto t (new_empty_path (next_version - 1)) else None.

(** ** [StateMerklePruner] *)

Record StateMerklePruner := mkStateMerklePruner { target_version : Version; progress : Version * bool }.
Definition min_readable_version (p : StateMerklePruner) : Version := (progress p).1.
Definition is_pruning_pending (p : StateMerklePruner) : bool :=
  (min_readable_version p <? target_version p) || negb (progress p).2.
Definition set_target_version (p : StateMerklePruner) (v : Version) : StateMerklePruner :=
  mkStateMerklePruner v (progress p).
Definition record_progress_impl (p : StateMerklePruner) (v : Version) (is_fully_pruned : bool) : StateMerklePruner :=
  mkStateMerklePruner (target_version p) (v, is_fully_pruned).
Definition initialize_min_readable_version (t : Tables) (schema : StaleSchema) : Version :=
  default 0 (tb_progress t schema).
(** [new] followed by the trait's [initialize] *)
Definition state_merkle_pruner_new (t : Tables) (schema : StaleSchema) : StateMerklePruner :=
  record_progress_impl (mkStateMerklePruner 0 (0, true)) (initialize_min_readable_version t schema) false.

(** The loop that fetches up to [steps] rows *)
Fixpoint fetch_indices (steps : nat) (target : Version) (iter : list StaleNodeIndex) : list StaleNodeIndex :=
  match steps, iter with
  | S steps, index :: iter =>
      if stale_since_version index <=? target then index :: fetch_indices steps target iter else []
  | _, _ => []
  end.
Definition get_stale_node_indices (t : Tables) (schema : StaleSchema) (start_version target : Version) (batch_size : nat)
  : list StaleNodeIndex * bool :=
  let iter := iter_from t schema (mkStaleNodeIndex start_version (new_empty_path 0)) in
  let indices := fetch_indices (S batch_size) target iter in
  if decide (batch_size < length indices)%nat then (take (length indices - 1) indices, false) else (indices, true).
Definition delete_rows (schema : StaleSchema) (indices : list StaleNodeIndex) : SchemaBatch :=
  concat ((λ index, [DeleteNode (stale_node_key index); DeleteIndex schema index]) <$> indices).

(** With a batch of the caller's the rows are added to it, otherwise they are written. *)
Definition prune_state_merkle (p : StateMerklePruner) (t : Tables) (schema : StaleSchema)
    (min_readable target : Version) (batch_size : nat) (existing_schema_batch : option SchemaBatch)
  : outcome anyhow (Version * StateMerklePruner * option SchemaBatch * Tables) :=
  _ ← rassert (negb (batch_size =? 0)%nat);
  let '(indices, is_end_of_target_version) := get_stale_node_indices t schema min_readable target batch_size in
  match last indices with
  | None => Ok (target, record_progress_impl p target is_end_of_target_version, existing_schema_batch, t)
  | Some index =>
      let new_min_readable_version := stale_since_version index in
      '(existing_schema_batch, t) ←
        match existing_schema_batch with
        | Some batch => Ok (Some (batch ++ delete_rows schema indices), t)
        | None =>
            let batch := delete_rows schema indices ++ [PutProgress schema new_min_readable_version] in
            t ← write_schemas state_merkle_db_column_families batch t; Ok (None, t)
        end;
      Ok (new_min_readable_version, record_progress_impl p new_min_readable_version is_end_of_target_version,
          existing_schema_batch, t)
  end.
Definition prune (p : StateMerklePruner) (t : Tables) (schema : StaleSchema) (batch_size : nat)
  : outcome anyhow (Version * StateMerklePruner * Tables) :=
  if negb (is_pruning_pending p) then Ok (min_readable_version p, p, t)
  else
    '(v, p, _, t) ← prune_state_merkle p t schema (min_readable_version p) (target_version p) batch_size None;
    Ok (v, p, t).

(** [prune_genesis]: the caller's batch with the rows it adds *)
Definition prune_genesis (t : Tables) (batch : SchemaBatch) : outcome anyhow SchemaBatch :=
  let target := 1 in
  let max_version := 1%nat in
  let state_pruner :=
    set_target_version (state_merkle_pruner_new t StaleNodeIndexCrossEpochSchema) target in
  '(_, _, batch', _) ← prune_state_merkle state_pruner t StaleNodeIndexCrossEpochSchema
                         (min_readable_version state_pruner) (target_version state_pruner) max_version (Some batch);
  Ok (default batch batch').

(** ** [StatePrunerWorker] and [StatePrunerManager] *)

Definition set_target_db_version (p : StateMerklePruner) (target_db_version : Version) : StateMerklePruner :=
  if target_version p <? target_db_version then set_target_version p target_db_version else p.
(** [n] rounds of [work]; it returns when a round fails. *)
Fixpoint work (n : nat) (p : StateMerklePruner) (t : Tables) (schema : StaleSchema) (batch_size : nat)
  : outcome anyhow (StateMerklePruner * Tables) :=
  match n with
  | O => Ok (p, t)
  | S n => '(_, p, t) ← prune p t schema batch_size; work n p t schema batch_size
  end.

Record StateMerklePrunerConfig := mkStateMerklePrunerConfig { cfg_enable : bool; cfg_prune_window : N; cfg_batch_size : nat }.
Record StatePrunerManager := mkStatePrunerManager {
  pruner_enabled : bool;
  prune_window : Version;
  pm_pruner : StateMerklePruner;
  max_node_to_prune_per_batch : nat;
  last_version_sent_to_pruner : Version;
  latest_version : Version;
}.
Definition state_pruner_manager_new (t : Tables) (schema : StaleSchema) (config : StateMerklePrunerConfig) : StatePrunerManager :=
  let pruner := state_merkle_pruner_new t schema in
  mkStatePrunerManager (cfg_enable config) (cfg_prune_window config) pruner (cfg_batch_size config)
    (min_readable_version pruner) (min_readable_version pruner).
Definition set_pruner_target_db_version {E} (m : StatePrunerManager) (latest : Version) : outcome E StatePrunerManager :=
  _ ← rassert (pruner_enabled m);
  Ok (mkStatePrunerManager (pruner_enabled m) (prune_window m)
        (set_target_db_version (pm_pruner m) (latest - prune_window m))
        (max_node_to_prune_per_batch m) (last_version_sent_to_pruner m) (latest_version m)).
Definition maybe_set_pruner_target_db_version {E} (m : StatePrunerManager) (latest : Version) : outcome E StatePrunerManager :=
  let m := mkStatePrunerManager (pruner_enabled m) (prune_window m) (pm_pruner m) (max_node_to_prune_per_batch m)
             (last_version_sent_to_pruner m) latest in
  if pruner_enabled m then
    m ← set_pruner_target_db_version m latest;
    Ok (mkStatePrunerManager (pruner_enabled m) (prune_window m) (pm_pruner m) (max_node_to_prune_per_batch m)
          latest (latest_version m))
  else Ok m.

(** ** [StateDb] and the checks of [ArxDB] *)

(** [EpochByVersionSchema]: the epochs by the version that ends them *)
Definition get_previous_epoch_ending (epochs : gmap Version N) (version : Version) : option (Version * N) :=
  if version =? 0 then None
  else last (filter (λ e, e.1 <= version - 1) (btree_iter epochs)).
Definition ensure_epoch_ending (epochs : gmap Version N) (version : Version) : outcome anyhow unit :=
  _ ← ok_or (epochs !! version) (fmt "Version {} is not epoch ending." [version]); Ok tt.
Definition error_if_state_merkle_pruned (epochs : gmap Version N) (managers : StaleSchema → StatePrunerManager)
    (version : Version) : outcome anyhow unit :=
  let min_readable := min_readable_version (pm_pruner (managers StaleNodeIndexSchema)) in
  if min_readable <=? version then Ok tt
  else
    let min_readable_epoch_snapshot :=
      min_readable_version (pm_pruner (managers StaleNodeIndexCrossEpochSchema)) in
    if min_readable_epoch_snapshot <=? version then ensure_epoch_ending epochs version
    else Err (fmt "State merkle at version {} is pruned. snapshots are available at >= {}, epoch snapshots are available at >= {}"
                [version; min_readable; min_readable_epoch_snapshot]).
End state_merkle_db.
Arguments Tables : clear implicits.
Arguments WriteOp : clear implicits.
Arguments SchemaBatch : clear implicits.
Arguments StateMerkleDb : clear implicits.

(** ** Order of the rows *)

Lemma bytes_compare_sym l1 l2 : bytes_compare l2 l1 = CompOpp (bytes_compare l1 l2).
Proof.
  revert l2. induction l1 as [|a l1 IH]; intros [|b l2]; [done..|]. cbn. rewrite N.compare_antisym.
  destruct (a ?= b); cbn; auto.
Qed.
Lemma bytes_compare_trans l1 l2 l3 :
  bytes_compare l1 l2 ≠ Gt → bytes_compare l2 l3 ≠ Gt → bytes_compare l1 l3 ≠ Gt.
Proof.
  revert l2 l3. induction l1 as [|a l1 IH]; intros [|b l2] [|c l3]; [done..|]. cbn.
  destruct (N.compare_spec a b), (N.compare_spec b c), (N.compare_spec a c); try done; try lia; subst; eauto.
Qed.
#[export] Instance index_le_total : Total index_le.
Proof. intros i j. unfold index_le. rewrite (bytes_compare_sym (index_words i)). destruct (bytes_compare _ _); naive_solver. Qed.
#[export] Instance index_le_trans : Transitive index_le.
Proof. intros i j k. apply bytes_compare_trans. Qed.
Lemma index_le_since i j : index_le i j → stale_since_version i <= stale_since_version j.
Proof. unfold index_le. cbn. destruct (N.compare_spec (stale_since_version i) (stale_since_version j)); [lia|lia|done]. Qed.
Lemma index_le_start v j : index_le (mkStaleNodeIndex v (new_empty_path 0)) j ↔ v <= stale_since_version j.
Proof.
  split; [apply index_le_since|]. unfold index_le. cbn. destruct (N.compare_spec v (stale_since_version j)); [|done|lia].
  intros _. destruct j as [s [[|?] [[|?] [|? ?]]]]; done.
Qed.

(** The stored keys of the indices round trip and sort by the version since which the node is stale. *)
Lemma stale_index_decode_encode i :
  stale_since_version i < 2 ^ 64 → node_key_ok (stale_node_key i) →
  stale_index_decode_key (stale_index_encode_key i) = Ok i.
Proof.
  intros Hs Hk. unfold stale_index_decode_key, stale_index_encode_key.
  assert ((8 <? lenN (write_be 8 (stale_since_version i) ++ node_key_encode (stale_node_key i))) = true) as ->.
  { apply N.ltb_lt. unfold lenN, node_key_encode. rewrite !length_app, !length_write_be. cbn. lia. }
  run_ok. rewrite take_app_length', drop_app_length' by by rewrite length_write_be.
  rewrite <- (app_nil_r (write_be 8 _)), read_write_u64 by done. run_ok. rewrite node_key_decode_encode by done.
  run_ok. by destruct i.
Qed.
Lemma stale_index_order i j :
  stale_since_version i < 2 ^ 64 → stale_since_version j < 2 ^ 64 →
  node_key_ok (stale_node_key i) → node_key_ok (stale_node_key j) →
  bytes_compare (stale_index_encode_key i) (stale_index_encode_key j) = bytes_compare (index_words i) (index_words j).
Proof.
  intros Hi Hj Hki Hkj. unfold stale_index_encode_key.
  rewrite bytes_compare_app, bytes_compare_number by (rewrite ?length_write_be; done || apply write_be_bytes).
  rewrite !be_number_write, !N.mod_small, node_key_order by (done || lia).
  unfold node_key_compare, nibble_path_compare. cbn. done.
Qed.

(** ** A round of pruning *)

Section pruning.
Context {K : Type}.
Implicit Types (t : Tables K) (schema : StaleSchema) (i : StaleNodeIndex).

Lemma elem_of_iter_from t schema v i :
  i ∈ iter_from t schema (mkStaleNodeIndex v (new_empty_path 0)) ↔ i ∈ tb_stale t schema ∧ v <= stale_since_version i.
Proof.
  unfold iter_from. rewrite list_elem_of_filter, merge_sort_Permutation, elem_of_elements, index_le_start. naive_solver.
Qed.
Lemma sorted_iter_from t schema start : StronglySorted index_le (iter_from t schema start).
Proof.
  unfold iter_from. pose proof (StronglySorted_merge_sort index_le (elements (tb_stale t schema))) as Hs.
  induction Hs as [|i l Hs IH Hi]; [constructor|]. rewrite filter_cons. destruct (decide _); [|done]. constructor; [done|].
  rewrite Forall_forall in *. intros j [_ Hj]%list_elem_of_filter. by apply Hi.
Qed.
Lemma fetch_indices_spec steps target l :
  StronglySorted index_le l →
  ∃ rest, l = fetch_indices steps target l ++ rest ∧
    Forall (λ i, stale_since_version i <= target) (fetch_indices steps target l) ∧
    (length (fetch_indices steps target l) <= steps)%nat ∧
    ((length (fetch_indices steps target l) < steps)%nat → Forall (λ i, target < stale_since_version i) rest).
Proof.
  intros Hs. revert steps. induction Hs as [|i l Hs IH Hi]; intros [|steps]; cbn [fetch_indices].
  - exists []. split_and!; [done|constructor|cbn; lia|constructor].
  - exists []. split_and!; [done|constructor|cbn; lia|constructor].
  - eexists. split_and!; [done|constructor|cbn; lia|cbn; lia].
  - destruct (N.leb_spec (stale_since_version i) target).
    + destruct (IH steps) as (rest & Heq & H1 & H2 & H3). exists rest. cbn. split_and!; [by f_equal|by constructor|lia|].
      intros. apply H3. lia.
    + eexists. split_and!; [done|constructor|cbn; lia|]. intros _. constructor; [done|].
      eapply Forall_impl; [exact Hi|]. intros j Hj%index_le_since. cbn. lia.
Qed.

(** The rows a round works on: the first ones, up to the size of the batch. *)
Lemma get_stale_node_indices_spec t schema start target n l b :
  get_stale_node_indices t schema start target n = (l, b) →
  ∃ rest, iter_from t schema (mkStaleNodeIndex start (new_empty_path 0)) = l ++ rest ∧
    Forall (λ i, stale_since_version i <= target) l ∧ (length l <= n)%nat ∧
    (b = true → Forall (λ i, target < stale_since_version i) rest) ∧ (b = false → length l = n).
Proof.
  unfold get_stale_node_indices. set (iter := iter_from _ _ _).
  destruct (fetch_indices_spec (S n) target iter) as (rest & Heq & H1 & H2 & H3); [apply sorted_iter_from|].
  set (fetched := fetch_indices (S n) target iter) in *. destruct (decide _) as [Hlt|Hlt]; intros [= <- <-].
  - exists (drop (length fetched - 1) fetched ++ rest).
    rewrite app_assoc, take_drop. split_and!; [done|by apply Forall_take| |done|]; rewrite length_take; lia.
  - exists rest. split_and!; [done|done|lia| |done]. intros _. apply H3. lia.
Qed.

Lemma delete_rows_run t schema l :
  let t' := foldl apply_op t (delete_rows schema l) in
  (∀ k, tb_nodes t' !! k = if decide (k ∈ stale_node_key <$> l) then None else tb_nodes t !! k) ∧
  (∀ s i, i ∈ tb_stale t' s ↔ i ∈ tb_stale t s ∧ ¬ (s = schema ∧ i ∈ l)) ∧ tb_progress t' = tb_progress t.
Proof.
  cbv zeta. revert t. induction l as [|j l IH]; intros t; cbn [delete_rows fmap list_fmap concat app].
  - split_and!; [|set_solver|done]. intros k. by rewrite decide_False by apply not_elem_of_nil.
  - cbn [foldl]. fold (delete_rows (K := K) schema l). destruct (IH (apply_op (apply_op t (DeleteNode (stale_node_key j))) (DeleteIndex schema j)))
      as (H1 & H2 & ->). cbn [apply_op tb_nodes tb_stale tb_progress] in *. split_and!; [| |done].
    + intros k. rewrite H1. destruct (decide (k ∈ stale_node_key <$> l)).
      * by rewrite decide_True by (by apply elem_of_cons; right).
      * destruct (decide (k = stale_node_key j)) as [->|Hne].
        -- by rewrite lookup_delete_eq, decide_True by by left.
        -- rewrite lookup_delete_ne by done. by rewrite decide_False by (by intros [|]%elem_of_cons).
    + intros s i. rewrite H2. destruct (decide (s = schema)) as [->|Hne].
      * rewrite fn_lookup_insert. set_solver.
      * rewrite fn_lookup_insert_ne by done. naive_solver.
Qed.

(** What a round of [prune] does: it deletes the rows [l], which are due, and the nodes they name, and it
    advances past every row that is left. *)
Record prune_step schema (p p' : StateMerklePruner) t t' (l : list StaleNodeIndex) : Prop := {
  ps_due i : i ∈ l → i ∈ tb_stale t schema ∧ min_readable_version p <= stale_since_version i <= target_version p;
  ps_nodes k : tb_nodes t' !! k = if decide (k ∈ stale_node_key <$> l) then None else tb_nodes t !! k;
  ps_stale s i : i ∈ tb_stale t' s ↔ i ∈ tb_stale t s ∧ ¬ (s = schema ∧ i ∈ l);
  ps_target : target_version p' = target_version p;
  ps_left i : i ∈ tb_stale t' schema → min_readable_version p <= stale_since_version i →
    min_readable_version p' <= stale_since_version i;
  ps_progress s : tb_progress t' s =
    if decide (s = schema ∧ l ≠ []) then Some (min_readable_version p') else tb_progress t s;
  ps_end : (progress p').2 = true → ∀ i, i ∈ tb_stale t' schema → min_readable_version p <= stale_since_version i →
    target_version p < stale_since_version i;
  ps_more : (progress p').2 = false → l ≠ [];
  ps_min : match last l with
           | Some i => min_readable_version p' = stale_since_version i
           | None => is_pruning_pending p = true → min_readable_version p' = target_version p
           end;
  ps_upto i : i ∈ l → stale_since_version i <= min_readable_version p';
  ps_idle : is_pruning_pending p = false → p' = p ∧ t' = t;
}.
Lemma families_of_rows schema l v :
  forallb (λ op : WriteOp K, bool_decide (op_cf op ∈ state_merkle_db_column_families))
    (delete_rows schema l ++ [PutProgress schema v]) = true.
Proof.
  apply forallb_forall. intros op Hop%list_elem_of_In. apply bool_decide_eq_true. apply elem_of_app in Hop as [Hop|Hop].
  - unfold delete_rows in Hop. apply elem_of_concat in Hop as (ops & Hops & Hop).
    apply list_elem_of_fmap in Hops as (i & -> & _). repeat (apply elem_of_cons in Hop as [->|Hop]).
    + cbn. set_solver.
    + destruct schema; cbn; set_solver.
    + by apply elem_of_nil in Hop.
  - apply list_elem_of_singleton in Hop as ->. cbn. set_solver.
Qed.
Lemma prune_run p t schema batch_size :
  batch_size ≠ 0%nat →
  (is_pruning_pending p = false → ∀ i, i ∈ tb_stale t schema → min_readable_version p <= stale_since_version i →
     target_version p < stale_since_version i) →
  ∃ p' t' l, prune p t schema batch_size = Ok (min_readable_version p', p', t') ∧ prune_step schema p p' t t' l.
Proof.
  intros Hb Hidle. unfold prune. destruct (is_pruning_pending p) eqn:Hp; cbn [negb].
  2: { exists p, t, []. split; [done|]. constructor; [set_solver| |set_solver|done|auto| |auto| |cbn; by rewrite Hp|set_solver|done].
       - intros k. by rewrite decide_False by apply not_elem_of_nil.
       - intros s. by rewrite decide_False by naive_solver.
       - unfold is_pruning_pending in Hp. destruct (progress p) as [v []]; [done|]. by rewrite orb_true_r in Hp. }
  unfold prune_state_merkle. rewrite (proj2 (Nat.eqb_neq batch_size 0)) by done. run_ok.
  destruct (get_stale_node_indices _ _ _ _ _) as [l b] eqn:Hget.
  apply get_stale_node_indices_spec in Hget as (rest & Hiter & Hle & Hlen & Hend & Hfull).
  assert (∀ i, i ∈ tb_stale t schema ∧ min_readable_version p <= stale_since_version i ↔ i ∈ l ∨ i ∈ rest) as Hrows.
  { intros i. rewrite <- elem_of_iter_from, Hiter, elem_of_app. done. }
  pose proof (sorted_iter_from t schema (mkStaleNodeIndex (min_readable_version p) (new_empty_path 0))) as Hsort.
  rewrite Hiter in Hsort. rewrite Forall_forall in Hle.
  destruct (last l) as [j|] eqn:Hlast.
  - unfold write_schemas. rewrite families_of_rows, foldl_app. run_ok.
    destruct (delete_rows_run t schema l) as (Hn & Hs & Hpr). set (t1 := foldl apply_op t (delete_rows schema l)) in *.
    eexists (record_progress_impl p (stale_since_version j) b), _, l. split; [done|]. cbn [foldl apply_op]. apply last_Some in Hlast as [l' ->].
    assert (∀ i, i ∈ rest → stale_since_version j <= stale_since_version i) as Hafter.
    { intros i Hi. apply index_le_since. eapply StronglySorted_app_1_elem_of; [exact Hsort| |done].
      apply elem_of_app. right. by left. }
    constructor; cbn [tb_nodes tb_stale tb_progress target_version min_readable_version progress record_progress_impl fst snd];
      [|exact Hn|exact Hs|done| | | | | | |by rewrite Hp].
    + intros i Hi. destruct (proj2 (Hrows i)) as [? ?]; [by left|]. auto.
    + intros i Hi Hm. apply Hs in Hi as [Hi Hni]. apply Hafter. destruct (proj1 (Hrows i)); [done| |done]. naive_solver.
    + intros s. rewrite Hpr. destruct (decide (s = schema)) as [->|Hne].
      * rewrite fn_lookup_insert, decide_True; [done|]. split; [done|]. by destruct l'.
      * rewrite fn_lookup_insert_ne, decide_False by naive_solver. done.
    + intros -> i Hi Hm. apply Hs in Hi as [Hi Hni]. specialize (Hend eq_refl). rewrite Forall_forall in Hend.
      apply Hend. destruct (proj1 (Hrows i)); [done| |done]. naive_solver.
    + intros _. by destruct l'.
    + by rewrite last_snoc.
    + intros i Hi. apply elem_of_app in Hi as [Hi|Hi]; [|by apply list_elem_of_singleton in Hi as ->].
      apply index_le_since. apply StronglySorted_app_1_l in Hsort.
      eapply StronglySorted_app_1_elem_of; [exact Hsort|done|by left].
  - apply last_None in Hlast as ->. exists (record_progress_impl p (target_version p) b), t, []. split; [done|].
    destruct b; [|by specialize (Hfull eq_refl)]. specialize (Hend eq_refl). rewrite Forall_forall in Hend.
    assert (∀ i, i ∈ tb_stale t schema → min_readable_version p <= stale_since_version i →
      target_version p < stale_since_version i) as Hnone.
    { intros i Hi Hm. apply Hend. destruct (proj1 (Hrows i)) as [Hn|]; [done|by apply elem_of_nil in Hn|done]. }
    constructor; cbn [target_version min_readable_version progress record_progress_impl fst snd];
      [set_solver| |set_solver|done| | |auto|done|done|set_solver|by rewrite Hp].
    + intros k. by rewrite decide_False by apply not_elem_of_nil.
    + intros i Hi Hm. specialize (Hnone i Hi Hm). lia.
    + intros s. by rewrite decide_False by naive_solver.
Qed.

(** The pruner's view of its index: no row is behind its progress, and when it is idle none is due. *)
Definition pruner_ok schema (p : StateMerklePruner) t : Prop :=
  (∀ i, i ∈ tb_stale t schema → min_readable_version p <= stale_since_version i) ∧
  (is_pruning_pending p = false → ∀ i, i ∈ tb_stale t schema → target_version p < stale_since_version i) ∧
  ((progress p).2 = true → min_readable_version p <= target_version p).
Lemma pruner_ok_run p t schema batch_size :
  batch_size ≠ 0%nat → pruner_ok schema p t →
  ∃ p' t' l, prune p t schema batch_size = Ok (min_readable_version p', p', t') ∧ prune_step schema p p' t t' l.
Proof. intros Hb (_ & Hi & _). apply prune_run; [done|]. eauto. Qed.
Lemma prune_step_ok schema p p' t t' l : pruner_ok schema p t → prune_step schema p p' t t' l → pruner_ok schema p' t'.
Proof.
  intros (Hmin & Hidle & Hfull) Hps. split_and!.
  - intros i Hi. apply (ps_left _ _ _ _ _ _ Hps); [done|]. apply Hmin. by apply (ps_stale _ _ _ _ _ _ Hps) in Hi as [? _].
  - intros Hp i Hi. rewrite (ps_target _ _ _ _ _ _ Hps). apply (ps_end _ _ _ _ _ _ Hps); [|done|].
    + unfold is_pruning_pending in Hp. destruct (progress p') as [v []]; [done|]. by rewrite orb_true_r in Hp.
    + apply Hmin. by apply (ps_stale _ _ _ _ _ _ Hps) in Hi as [? _].
  - rewrite (ps_target _ _ _ _ _ _ Hps). intros Hf. pose proof (ps_min _ _ _ _ _ _ Hps) as Hm.
    destruct (last l) as [i|] eqn:Hi.
    + rewrite Hm. destruct (ps_due _ _ _ _ _ _ Hps i) as (_ & _ & ?); [by apply last_Some_elem_of|done].
    + destruct (is_pruning_pending p) eqn:Hp; [by rewrite Hm|].
      destruct (ps_idle _ _ _ _ _ _ Hps Hp) as [-> _]. by apply Hfull.
Qed.

(** Everything due is gone, and nothing else. *)
Record pruned_to schema (target : Version) t t' : Prop := {
  pt_stale s i : i ∈ tb_stale t' s ↔ i ∈ tb_stale t s ∧ ¬ (s = schema ∧ stale_since_version i <= target);
  pt_nodes k x : tb_nodes t' !! k = Some x ↔
    tb_nodes t !! k = Some x ∧ ∀ i, i ∈ tb_stale t schema → stale_since_version i <= target → stale_node_key i ≠ k;
}.
Lemma work_idle n p t schema batch_size : is_pruning_pending p = false → work n p t schema batch_size = Ok (p, t).
Proof. intros Hp. induction n as [|n IH]; [done|]. cbn [work]. unfold prune. rewrite Hp. run_ok. exact IH. Qed.
Lemma work_run n p t schema batch_size :
  batch_size ≠ 0%nat → pruner_ok schema p t → (size (tb_stale t schema) < n)%nat →
  ∃ p' t', work n p t schema batch_size = Ok (p', t') ∧ is_pruning_pending p' = false ∧
    target_version p' = target_version p ∧ pruner_ok schema p' t' ∧ pruned_to schema (target_version p) t t'.
Proof.
  intros Hb. revert p t. induction n as [|n IH]; intros p t Hok Hn; [lia|].
  destruct (pruner_ok_run p t schema batch_size Hb Hok) as (p1 & t1 & l & Hrun & Hps).
  pose proof (prune_step_ok _ _ _ _ _ _ Hok Hps) as Hok1. pose proof (ps_target _ _ _ _ _ _ Hps) as Ht.
  cbn [work]. rewrite Hrun. run_ok. destruct (decide (l = [])) as [->|Hl].
  - assert (is_pruning_pending p1 = false) as Hp1.
    { destruct (is_pruning_pending p) eqn:Hp; [|destruct (ps_idle _ _ _ _ _ _ Hps Hp) as [-> _]; done].
      pose proof (ps_min _ _ _ _ _ _ Hps Hp) as Hm. unfold is_pruning_pending. rewrite Hm, Ht, N.ltb_irrefl.
      destruct (progress p1).2 eqn:Hf; [done|]. by destruct (ps_more _ _ _ _ _ _ Hps Hf). }
    exists p1, t1. rewrite work_idle by done. split_and!; [done..|]. destruct Hok1 as (_ & Hidle1 & _). rewrite Ht in Hidle1.
    constructor.
    + intros s i. rewrite (ps_stale _ _ _ _ _ _ Hps). split; [|set_solver]. intros [Hi _]. split; [done|].
      intros [-> Hle]. specialize (Hidle1 Hp1 i). rewrite (ps_stale _ _ _ _ _ _ Hps) in Hidle1.
      apply N.le_ngt in Hle. apply Hle, Hidle1. set_solver.
    + intros k x. rewrite (ps_nodes _ _ _ _ _ _ Hps), decide_False by apply not_elem_of_nil. split; [|naive_solver].
      intros Hk. split; [done|]. intros i Hi Hle. specialize (Hidle1 Hp1 i). rewrite (ps_stale _ _ _ _ _ _ Hps) in Hidle1.
      apply N.le_ngt in Hle. exfalso. apply Hle, Hidle1. set_solver.
  - assert (size (tb_stale t1 schema) < size (tb_stale t schema))%nat as Hsize.
    { apply subset_size. split.
      - intros i. rewrite (ps_stale _ _ _ _ _ _ Hps). naive_solver.
      - intros Hsub. destruct l as [|j l]; [done|]. destruct (ps_due _ _ _ _ _ _ Hps j) as [Hj _]; [by left|].
        apply Hsub, (ps_stale _ _ _ _ _ _ Hps) in Hj as [_ Hj]. apply Hj. split; [done|by left]. }
    destruct (IH p1 t1 Hok1) as (p' & t' & -> & Hp' & Ht' & Hok' & [Hst Hnd]); [lia|]. rewrite Ht in *.
    exists p', t'. split_and!; [done..|].
    assert (∀ i, i ∈ l → i ∈ tb_stale t schema ∧ stale_since_version i <= target_version p) as Hdue.
    { intros i Hi. destruct (ps_due _ _ _ _ _ _ Hps i Hi) as (? & _ & ?). done. }
    constructor.
    + intros s i. rewrite Hst, (ps_stale _ _ _ _ _ _ Hps). split; [naive_solver|].
      intros [Hi Hn']. split_and!; [done| |done]. intros [-> Hl']. apply Hn'. split; [done|]. by apply Hdue.
    + intros k x. rewrite Hnd, (ps_nodes _ _ _ _ _ _ Hps). split.
      * destruct (decide _) as [|Hnk]; [by intros []|]. intros [Hk Hr]. split; [done|]. intros i Hi Hle Heq.
        destruct (decide (i ∈ l)) as [Hl'|Hl'].
        -- apply Hnk, list_elem_of_fmap. exists i. done.
        -- apply (Hr i); [|done|done]. apply (ps_stale _ _ _ _ _ _ Hps). split; [done|]. naive_solver.
      * intros [Hk Hr]. rewrite decide_False.
        -- split; [done|]. intros i Hi. apply (ps_stale _ _ _ _ _ _ Hps) in Hi as [Hi _]. by apply Hr.
        -- intros (i & -> & Hi)%list_elem_of_fmap. destruct (Hdue i Hi). by apply (Hr i).
Qed.
End pruning.
