(* ===== verification/StateMerkleSystem.v ===== *)
(** * The threads that commit and prune state snapshots (storage/arxdb/src/state_store, src/pruner)

    The snapshot committer, the batch committer, the two pruners and the readers of the state tree as one
    system of steps, with restarts. Whatever the interleaving, the committed snapshots that the progress of
    the pruners does not exclude stay readable, new snapshots are merklized without a failure, and the
    pruners remove exactly what is due. *)
From stdpp Require Import functions sorting.
From S2P Require Import Prelude Crypto Nibble SparseMerkle JmtNode JmtCodec Jmt JmtTree JmtUpdate JmtPut JmtInsert StateMerkleDb.
Local Open Scope N_scope.

(** ** The system *)

Inductive StateStorageUsage := Tracked (items bytes : N) | Untracked.
#[export] Instance StateStorageUsage_eq_dec : EqDecision StateStorageUsage.
Proof. solve_decision. Defined.
Definition usage_items (u : StateStorageUsage) : N := match u with Tracked items _ => items | Untracked => 0 end.
Definition is_untracked (u : StateStorageUsage) : bool := match u with Untracked => true | _ => false end.

Section system.
Context `{!SparseHashes} {K C : Type} `{!LruCache C NibblePath (Version * Node K)}.
Abbreviation kv := (HashValue * option (HashValue * K))%type.

(** With the version and the usage of the delta it was made from *)
Record StateMerkleBatch := mkStateMerkleBatch {
  smb_batch : SchemaBatch K; smb_root_hash : HashValue; smb_version : Version; smb_usage : StateStorageUsage }.

(** Where [StateMerkleBatchCommitter::run] is with the message it handles *)
Inductive Committer :=
| Waiting
| Received (b : StateMerkleBatch)
| Written (b : StateMerkleBatch)
| Evicted (b : StateMerkleBatch).

(** The database and the pruners, the tables of the ledger database that are read, the batch the snapshot
    committer has merklized and is sending, and the batch committer. *)
Record System := mkSystem {
  sys_db : StateMerkleDb K C;
  sys_managers : StaleSchema → StatePrunerManager;
  sys_epochs : gmap Version N;
  sys_usages : gmap Version StateStorageUsage;
  sys_outbox : option StateMerkleBatch;
  sys_committer : Committer;
}.
Definition with_tables (db : StateMerkleDb K C) (t : Tables K) : StateMerkleDb K C :=
  mkStateMerkleDb t (enable_cache db) (version_cache db) (lru_cache db).

Definition check_usage_consistency (t : Tables K) (usages : gmap Version StateStorageUsage) (b : StateMerkleBatch)
  : outcome anyhow unit :=
  usage_from_ledger_db ← ok_or (usages !! smb_version b) (fmt "VersionData missing for version {}" [smb_version b]);
  root ← ok_or (tb_nodes t !! new_empty_path (smb_version b)) (fmt "Root node missing at version {}" [smb_version b]);
  let leaf_count_from_jmt := node_leaf_count root in
  _ ← ensure (usage_items usage_from_ledger_db =? leaf_count_from_jmt)
        (fmt "State item count inconsistent, {} from ledger db and {} from state tree."
           [usage_items usage_from_ledger_db; leaf_count_from_jmt]);
  if negb (is_untracked (smb_usage b))
  then ensure (bool_decide (smb_usage b = usage_from_ledger_db))
         (fmt "State storage usage info inconsistent. from smt: {:?}, from ledger_db: {:?}" [])
  else Ok tt.

(** [StateSnapshotCommitter::run] on a delta, up to the send; a failure is a panic. *)
Definition merklize_step (s : System) (value_set : list kv) (node_hashes : option (gmap NibblePath HashValue))
    (version : Version) (base_version : option Version) (usage : StateStorageUsage) : outcome anyhow System :=
  let previous := fst <$> get_previous_epoch_ending (sys_epochs s) version in
  match merklize_value_set (sys_db s) value_set node_hashes version base_version previous with
  | Ok (batch, root_hash, db) =>
      Ok (mkSystem db (sys_managers s) (sys_epochs s) (sys_usages s)
            (Some (mkStateMerkleBatch batch root_hash version usage)) (sys_committer s))
  | _ => Panic
  end.
(** [StateMerkleBatchCommitter::run]: the write, the eviction, and the rest of the branch *)
Definition write_step (s : System) (b : StateMerkleBatch) : outcome anyhow System :=
  match write_schemas state_merkle_db_column_families (smb_batch b) (sm_db (sys_db s)) with
  | Ok t => Ok (mkSystem (with_tables (sys_db s) t) (sys_managers s) (sys_epochs s) (sys_usages s) (sys_outbox s) (Written b))
  | _ => Panic
  end.
Definition evict_step (s : System) (b : StateMerkleBatch) : System :=
  let db := sys_db s in
  let db :=
    if enable_cache db then
      let '(cache, lru) := maybe_evict_version (version_cache db) (lru_cache db) in
      mkStateMerkleDb (sm_db db) (enable_cache db) cache lru
    else db in
  mkSystem db (sys_managers s) (sys_epochs s) (sys_usages s) (sys_outbox s) (Evicted b).
Definition finish_step (s : System) (b : StateMerkleBatch) : outcome anyhow System :=
  let current_version := smb_version b in
  state_pruner ← maybe_set_pruner_target_db_version (sys_managers s StaleNodeIndexSchema) current_version;
  epoch_snapshot_pruner ← maybe_set_pruner_target_db_version (sys_managers s StaleNodeIndexCrossEpochSchema) current_version;
  let managers schema :=
    match schema with
    | StaleNodeIndexSchema => state_pruner
    | StaleNodeIndexCrossEpochSchema => epoch_snapshot_pruner
    end in
  match check_usage_consistency (sm_db (sys_db s)) (sys_usages s) b with
  | Ok _ => Ok (mkSystem (sys_db s) managers (sys_epochs s) (sys_usages s) (sys_outbox s) Waiting)
  | _ => Panic
  end.
Definition with_pruner (m : StatePrunerManager) (p : StateMerklePruner) : StatePrunerManager :=
  mkStatePrunerManager (pruner_enabled m) (prune_window m) p (max_node_to_prune_per_batch m)
    (last_version_sent_to_pruner m) (latest_version m).
(** A round of a worker *)
Definition prune_round (s : System) (schema : StaleSchema) : outcome anyhow System :=
  let m := sys_managers s schema in
  '(_, p, t) ← prune (pm_pruner m) (sm_db (sys_db s)) schema (max_node_to_prune_per_batch m);
  Ok (mkSystem (with_tables (sys_db s) t) (<[schema := with_pruner m p]> (sys_managers s)) (sys_epochs s) (sys_usages s)
        (sys_outbox s) (sys_committer s)).
(** What opening the database on these tables starts from *)
Definition open_system (t : Tables K) (epochs : gmap Version N) (usages : gmap Version StateStorageUsage)
    (config : StaleSchema → StateMerklePrunerConfig) (max_nodes_per_lru_cache_shard : N) : System :=
  mkSystem (state_merkle_db_new t max_nodes_per_lru_cache_shard) (λ schema, state_pruner_manager_new t schema (config schema))
    epochs usages None Waiting.

(** ** Its steps *)

Inductive Event :=
| EMerklize (value_set : list kv) (node_hashes : option (gmap NibblePath HashValue)) (version : Version)
    (base_version : option Version) (usage : StateStorageUsage)
| EReceive | EWrite | EEvict | EFinish
| ERead (node_key : NodeKey)
| EPrune (schema : StaleSchema)
| ELedger (version : Version) (ends_epoch : option N) (usage : StateStorageUsage)
| ERestart (config : StaleSchema → StateMerklePrunerConfig) (max_nodes_per_lru_cache_shard : N).

(** [None] when the thread the event belongs to is not at that point. *)
Definition exec (e : Event) (s : System) : option (outcome anyhow System) :=
  match e with
  | EMerklize value_set node_hashes version base_version usage =>
      match sys_outbox s with
      | None => Some (merklize_step s value_set node_hashes version base_version usage)
      | Some _ => None
      end
  | EReceive =>
      match sys_outbox s, sys_committer s with
      | Some b, Waiting => Some (Ok (mkSystem (sys_db s) (sys_managers s) (sys_epochs s) (sys_usages s) None (Received b)))
      | _, _ => None
      end
  | EWrite => match sys_committer s with Received b => Some (write_step s b) | _ => None end
  | EEvict => match sys_committer s with Written b => Some (Ok (evict_step s b)) | _ => None end
  | EFinish => match sys_committer s with Evicted b => Some (finish_step s b) | _ => None end
  | ERead k =>
      Some (Ok (mkSystem (get_node_option (sys_db s) k).2 (sys_managers s) (sys_epochs s) (sys_usages s)
                  (sys_outbox s) (sys_committer s)))
  | EPrune schema => if pruner_enabled (sys_managers s schema) then Some (prune_round s schema) else None
  | ELedger version ends_epoch usage =>
      Some (Ok (mkSystem (sys_db s) (sys_managers s)
                  (match ends_epoch with Some epoch => <[version := epoch]> (sys_epochs s) | None => sys_epochs s end)
                  (<[version := usage]> (sys_usages s)) (sys_outbox s) (sys_committer s)))
  | ERestart config n => Some (Ok (open_system (sm_db (sys_db s)) (sys_epochs s) (sys_usages s) config n))
  end.
End system.
Arguments StateMerkleBatch : clear implicits.
Arguments Committer : clear implicits.
Arguments System : clear implicits.
Arguments Event : clear implicits.

(** ** Trees in two stores *)

Section stores.
Context `{!SparseHashes} {K : Type}.
Abbreviation content := (gmap HashValue (HashValue * (K * Version))).
Abbreviation store := (gmap NodeKey (Node K)).

Lemma rep_keep (s s' : store) path nd m :
  rep s path nd m → (∀ k n, reach_below s path nd k → s !! k = Some n → s' !! k = Some n) →
  rep s' path nd m ∧ ∀ k, reach_below s' path nd k ↔ reach_below s path nd k.
Proof.
  intros Hrep. induction Hrep as [path k vh idx|path n m nds Hok Hlen Hkeys Hsz Hlc Hnone Hsome Hrep IH]; intros Hkeep.
  - split; [by constructor|]. intros k'. split; by inversion 1.
  - assert (∀ i c, in_children n !! i = Some c → rep s' (path ++ [i]) (nds i) (sub (length path) i m) ∧
      ∀ k, reach_below s' (path ++ [i]) (nds i) k ↔ reach_below s (path ++ [i]) (nds i) k) as Hch.
    { intros i c Hc. destruct (Hsome i c Hc) as (_ & Hst & _). apply (IH i c Hc). intros k x Hk. apply Hkeep.
      by eapply reach_deeper. }
    assert (∀ i c, in_children n !! i = Some c → s' !! mkNodeKey (ch_version c) (path_of (path ++ [i])) = Some (nds i)) as Hst'.
    { intros i c Hc. destruct (Hsome i c Hc) as (_ & Hst & _). apply Hkeep; [by constructor|done]. }
    split.
    + apply (rep_internal s' path n m nds); try done.
      * intros i c Hc. destruct (Hsome i c Hc) as (? & _ & ? & ?). split_and!; [done|by apply Hst'|done..].
      * intros i c Hc. by apply (Hch i c).
    + intros k. split; inversion 1 as [|? ? i c nd' ? Hc Hst Hr]; subst; try by constructor.
      * rewrite (Hst' i c Hc) in Hst. injection Hst as <-. destruct (Hsome i c Hc) as (_ & Hst & _).
        eapply reach_deeper; [exact Hc|exact Hst|]. by apply (Hch i c Hc).
      * destruct (Hsome i c Hc) as (_ & Hst0 & _). rewrite Hst0 in Hst. injection Hst as <-.
        eapply reach_deeper; [exact Hc|by apply Hst'|]. by apply (Hch i c Hc).
Qed.
Lemma jmt_at_keep (s s' : store) v m :
  jmt_at s v m → (∀ k n, live s v k → s !! k = Some n → s' !! k = Some n) →
  jmt_at s' v m ∧ ∀ k, live s' v k ↔ live s v k.
Proof.
  intros (nd & Hst & Hor) Hkeep.
  assert (s' !! new_empty_path v = Some nd) as Hst'.
  { apply Hkeep; [|done]. exists nd. split; [done|by left]. }
  assert (((nd = NodeNull ∧ m = ∅) ∨ rep s' [] nd m) ∧ ∀ k, reach_below s' [] nd k ↔ reach_below s [] nd k) as [Hor' Hr].
  { destruct Hor as [[-> ->]|Hrep].
    - split; [by left|]. intros k. split; by inversion 1.
    - destruct (rep_keep s s' [] nd m Hrep) as [? ?]; [|by split; [right|]].
      intros k n Hk. apply Hkeep. exists nd. split; [done|by right]. }
  split; [by exists nd|]. intros k. unfold live, tree_keys. split.
  - intros (nd' & Hn & Hk). rewrite Hst' in Hn. injection Hn as <-. exists nd. split; [done|]. by rewrite <- Hr.
  - intros (nd' & Hn & Hk). rewrite Hst in Hn. injection Hn as <-. exists nd. split; [done|]. by rewrite Hr.
Qed.
Lemma live_mono (s s' : store) v m k : s ⊆ s' → jmt_at s v m → live s' v k ↔ live s v k.
Proof. intros Hsub Hat. apply (jmt_at_keep s s' v m Hat). intros k' n _ Hk. by eapply lookup_weaken. Qed.
End stores.

(** ** Runs of the system *)

Section runs.
Context `{!SparseHashes} {K C : Type} `{!LruCache C NibblePath (Version * Node K)}.
Abbreviation content := (gmap HashValue (HashValue * (K * Version))).
Abbreviation store := (gmap NodeKey (Node K)).
Abbreviation log := (list (Version * content)).
Implicit Types (s : System K C) (t : Tables K) (written pending : log).

Definition empty_tables : Tables K := mkTables ∅ (λ _, ∅) (λ _, None).
Definition last_content (l : log) : content := default ∅ (snd <$> last l).

(** Which events the rest of the node can cause. [written] are the snapshots in the database and [pending]
    the merklized ones on their way to it: a snapshot is made on top of the last one, at a later version whose
    usage the ledger has, an epoch is ended by a version that no snapshot has passed, and a restart forgets
    what is pending. Without the caches a snapshot is made only when none is pending. *)
Inductive allowed s written pending : Event K → log → log → Prop :=
| allow_merklize value_set node_hashes version usage usage' m' :
    Forall (λ x, hash_wf x.1) value_set →
    Forall (λ x, x.1 < version) (written ++ pending) →
    m' = updated version (updates_of value_set) (last_content (written ++ pending)) →
    cache_ok node_hashes [] m' → N.of_nat (size m') < 2 ^ 64 →
    enable_cache (sys_db s) = true ∨ pending = [] →
    sys_usages s !! version = Some usage' → usage_items usage' = N.of_nat (size m') → usage = Untracked ∨ usage = usage' →
    allowed s written pending (EMerklize value_set node_hashes version (fst <$> last (written ++ pending)) usage)
      written (pending ++ [(version, m')])
| allow_receive : allowed s written pending EReceive written pending
| allow_write x pending' : pending = x :: pending' → allowed s written pending EWrite (written ++ [x]) pending'
| allow_evict : allowed s written pending EEvict written pending
| allow_finish : allowed s written pending EFinish written pending
| allow_read k : allowed s written pending (ERead k) written pending
| allow_prune schema : allowed s written pending (EPrune schema) written pending
| allow_ledger version ends_epoch usage :
    (is_Some ends_epoch → Forall (λ x, x.1 <= version) (written ++ pending)) →
    (∀ usage', sys_usages s !! version = Some usage' → usage' = usage) →
    allowed s written pending (ELedger version ends_epoch usage) written pending
| allow_restart config n :
    (∀ schema, cfg_batch_size (config schema) ≠ 0%nat) →
    allowed s written pending (ERestart config n) written [].

Inductive reachable : System K C → log → log → Prop :=
| reach_open config n :
    (∀ schema, cfg_batch_size (config schema) ≠ 0%nat) →
    reachable (open_system empty_tables ∅ ∅ config n) [] []
| reach_step s written pending e s' written' pending' :
    reachable s written pending → allowed s written pending e written' pending' → exec e s = Some (Ok s') →
    reachable s' written' pending'.

(** ** The invariant *)

Abbreviation versions l := (l.*1).

(** Every node that was ever created, for the snapshots that are not forgotten *)
Record history_ok (h : store) (l : log) : Prop := {
  h_sorted : StronglySorted N.lt (versions l);
  h_at v m : (v, m) ∈ l → jmt_at h v m;
  h_version k n : h !! k = Some n → nk_version k ∈ versions l;
  h_born k n : h !! k = Some n → live h (nk_version k) k;
  h_past v k : v ∈ versions l → live h v k → nk_version k <= v;
  h_interval v v' k : v ∈ versions l → v' ∈ versions l → v < v' → live h v' k → nk_version k <= v → live h v k;
}.
(** [k] is not used from [v] on; in the index of the state pruner no epoch has ended while it was. *)
Record stale_row (h : store) (epochs : gmap Version N) (l : log) schema (v : Version) (k : NodeKey) : Prop := {
  sr_version : v ∈ versions l;
  sr_before : nk_version k < v;
  sr_created : nk_version k ∈ versions l;
  sr_dead : ¬ live h v k;
  sr_epoch : schema = StaleNodeIndexSchema → ∀ e, is_Some (epochs !! e) → e < v → e < nk_version k;
}.
Definition progress_of t schema : Version := default 0 (tb_progress t schema).
(** At most the last version written, or zero *)
Definition reached written (v : Version) : Prop := v = 0 ∨ ∃ x, last written = Some x ∧ v <= x.1.
Record tables_ok (h : store) (epochs : gmap Version N) t written : Prop := {
  t_nodes k n : tb_nodes t !! k = Some n → h !! k = Some n ∧ nk_version k ∈ versions written;
  t_kept k n : h !! k = Some n → nk_version k ∈ versions written →
    tb_nodes t !! k = Some n ∨
    ∃ schema v, stale_row h epochs written schema v k ∧ v <= progress_of t schema;
  t_rows schema i : i ∈ tb_stale t schema →
    stale_row h epochs written schema (stale_since_version i) (stale_node_key i) ∧
    progress_of t schema <= stale_since_version i;
  t_listed k n x : tb_nodes t !! k = Some n → last written = Some x →
    live h x.1 k ∨ ∃ schema v, mkStaleNodeIndex v k ∈ tb_stale t schema;
  t_progress schema : reached written (progress_of t schema);
}.
Record managers_ok t written (ms : StaleSchema → StatePrunerManager) : Prop := {
  m_ok schema : pruner_ok schema (pm_pruner (ms schema)) t;
  m_target schema : reached written (target_version (pm_pruner (ms schema)));
  m_min schema : reached written (min_readable_version (pm_pruner (ms schema)));
  m_batch schema : max_node_to_prune_per_batch (ms schema) ≠ 0%nat;
}.
Definition lru_sound (h : store) (shards : N → C) : Prop :=
  ∀ i p v n, lru_entries (shards i) !! p = Some (v, n) → h !! mkNodeKey v p = Some n.
Record caches_ok (h : store) (db : StateMerkleDb K C) (l pending : log) : Prop := {
  c_sorted : StronglySorted N.lt ((version_cache db).*1);
  c_entries v c : (v, c) ∈ version_cache db → v ∈ versions l ∧ ∀ k n, c !! k = Some n ↔ h !! k = Some n ∧ nk_version k = v;
  c_pending v : enable_cache db = true → v ∈ versions pending → v ∈ (version_cache db).*1;
  c_lru : lru_sound h (lru_cache db);
}.
(** A merklized snapshot that is not written yet: its nodes, and the rows of the nodes it no longer uses. *)
Record batch_ok (h : store) (epochs : gmap Version N) (usages : gmap Version StateStorageUsage) (l : log)
    (b : StateMerkleBatch K) (x : Version * content) : Prop := {
  b_version : smb_version b = x.1;
  b_usage : ∃ u, usages !! x.1 = Some u ∧ usage_items u = N.of_nat (size x.2) ∧ (smb_usage b = Untracked ∨ smb_usage b = u);
  b_rows : ∃ new rows,
    smb_batch b = ((λ e, PutNode e.1 e.2) <$> new) ++ ((λ r, PutIndex r.1 r.2) <$> rows) ∧
    NoDup new.*1 ∧ (∀ k n, (k, n) ∈ new ↔ h !! k = Some n ∧ nk_version k = x.1) ∧
    (∀ schema i, (schema, i) ∈ rows → stale_since_version i = x.1 ∧ stale_row h epochs l schema x.1 (stale_node_key i)) ∧
    (∀ v k, v ∈ versions l → v < x.1 → (∀ w, w ∈ versions l → w < x.1 → w <= v) → live h v k →
       live h x.1 k ∨ ∃ schema, (schema, mkStaleNodeIndex x.1 k) ∈ rows);
}.
Definition pending_batches s : list (StateMerkleBatch K) :=
  match sys_committer s with Received b => [b] | _ => [] end ++ option_list (sys_outbox s).
(** The batch the committer has written and still works on is the last one. *)
Definition committer_ok (usages : gmap Version StateStorageUsage) written (c : Committer K) : Prop :=
  match c with
  | Written b | Evicted b =>
      ∃ x u, last written = Some x ∧ smb_version b = x.1 ∧ usages !! x.1 = Some u ∧
        usage_items u = N.of_nat (size x.2) ∧ (smb_usage b = Untracked ∨ smb_usage b = u)
  | _ => True
  end.
Record inv s written pending (h : store) : Prop := {
  i_history : history_ok h (written ++ pending);
  i_tables : tables_ok h (sys_epochs s) (sm_db (sys_db s)) written;
  i_managers : managers_ok (sm_db (sys_db s)) written (sys_managers s);
  i_caches : caches_ok h (sys_db s) (written ++ pending) pending;
  i_batches : Forall2 (batch_ok h (sys_epochs s) (sys_usages s) (written ++ pending)) (pending_batches s) pending;
  i_committer : committer_ok (sys_usages s) written (sys_committer s);
}.
End runs.
