(* ===== verification/StateMerkleSafety.v ===== *)
(** * Safety of the state snapshots under commits, pruning and restarts

    Every step of [StateMerkleSystem] keeps its invariant. What follows from it: reads of committed and
    merklized snapshots, the absence of panics, what the pruners remove, and how the system restarts. *)
From stdpp Require Import functions sorting.
From S2P Require Import Prelude Crypto Nibble SparseMerkle JmtNode JmtCodec Jmt JmtTree JmtUpdate JmtPut JmtInsert StateMerkleDb StateMerkleSystem.
Local Open Scope N_scope.

Section safety.
Context `{!SparseHashes} {K C : Type} `{!LruCache C NibblePath (Version * Node K)}.
Abbreviation content := (gmap HashValue (HashValue * (K * Version))).
Abbreviation store := (gmap NodeKey (Node K)).
Abbreviation log := (list (Version * content)).
Abbreviation versions l := (l.*1).
Implicit Types (s : System K C) (t : Tables K) (db : StateMerkleDb K C) (written pending l : log) (h : store).

(** ** Versions *)

Lemma elem_of_versions l v : v ∈ versions l ↔ ∃ m, (v, m) ∈ l.
Proof. rewrite list_elem_of_fmap. split; [intros ([? m] & -> & ?); eauto|intros (m & Hm); by exists (v, m)]. Qed.
Lemma versions_app l l' : versions (l ++ l') = versions l ++ versions l'.
Proof. apply fmap_app. Qed.
Lemma sorted_split l l' v v' :
  StronglySorted N.lt (versions (l ++ l')) → v ∈ versions l → v' ∈ versions l' → v < v'.
Proof. rewrite versions_app. intros Hs Hv Hv'. by eapply StronglySorted_app_1_elem_of. Qed.
Lemma sorted_left l l' : StronglySorted N.lt (versions (l ++ l')) → StronglySorted N.lt (versions l).
Proof. rewrite versions_app. apply StronglySorted_app_1_l. Qed.
Lemma sorted_last l x v : StronglySorted N.lt (versions l) → last l = Some x → v ∈ versions l → v <= x.1.
Proof.
  intros Hs [l' ->]%last_Some Hv. rewrite versions_app in Hv. apply elem_of_app in Hv as [Hv|Hv].
  - apply N.lt_le_incl. eapply sorted_split; [done|done|by left].
  - cbn in Hv. apply list_elem_of_singleton in Hv as ->. done.
Qed.
Lemma last_version l x : last l = Some x → x.1 ∈ versions l.
Proof. intros Hx. apply list_elem_of_fmap. exists x. split; [done|]. by apply last_Some_elem_of. Qed.
Lemma reached_mono l x v : StronglySorted N.lt (versions (l ++ [x])) → reached l v → reached (l ++ [x]) v.
Proof.
  intros Hs [->|(y & Hy & Hv)]; [by left|]. right. exists x. rewrite last_snoc. split; [done|].
  etransitivity; [exact Hv|]. apply N.lt_le_incl. eapply sorted_split; [done|by apply last_version|by left].
Qed.
Lemma reached_lt l x v v' : StronglySorted N.lt (versions (l ++ [x])) → reached l v → v' ∈ versions l → v < x.1.
Proof.
  intros Hs Hr Hv'. assert (∀ w, w ∈ versions l → w < x.1) as Hlt by (intros w Hw; eapply sorted_split; [done|done|by left]).
  destruct Hr as [->|(y & Hy & Hv)]; [specialize (Hlt v' Hv'); lia|]. specialize (Hlt _ (last_version _ _ Hy)). lia.
Qed.

(** ** Nodes *)

Lemma dead_stays h l v v' k :
  history_ok h l → v ∈ versions l → v' ∈ versions l → nk_version k < v → ¬ live h v k → v <= v' → ¬ live h v' k.
Proof.
  intros Hh Hv Hv' Hk Hd Hle Hl. apply Hd. destruct (decide (v = v')) as [->|Hne]; [done|].
  eapply h_interval; [done|exact Hv|exact Hv'|lia|done|lia].
Qed.
(** What the progress of the pruners leaves readable *)
Definition readable s (v : Version) : Prop :=
  progress_of (sm_db (sys_db s)) StaleNodeIndexCrossEpochSchema <= v ∧
  (progress_of (sm_db (sys_db s)) StaleNodeIndexSchema <= v ∨ is_Some (sys_epochs s !! v)).
Lemma readable_nodes h epochs t written pending v k n :
  history_ok h (written ++ pending) → tables_ok h epochs t written → v ∈ versions written →
  progress_of t StaleNodeIndexCrossEpochSchema <= v →
  progress_of t StaleNodeIndexSchema <= v ∨ is_Some (epochs !! v) →
  live h v k → h !! k = Some n → tb_nodes t !! k = Some n.
Proof.
  intros Hh Ht Hv Hc Hs Hl Hk.
  assert (∀ w, w ∈ versions written → w ∈ versions (written ++ pending)) as Hin.
  { intros w Hw. rewrite versions_app. apply elem_of_app. by left. }
  assert (nk_version k <= v) as Hkv by (eapply h_past; [done|by apply Hin|done]).
  assert (nk_version k ∈ versions written) as Hkw.
  { pose proof (h_version _ _ Hh _ _ Hk) as Hw. rewrite versions_app in Hw. apply elem_of_app in Hw as [|Hw]; [done|].
    pose proof (sorted_split _ _ _ _ (h_sorted _ _ Hh) Hv Hw). lia. }
  destruct (t_kept _ _ _ _ Ht k n Hk Hkw) as [|(schema & w & Hrow & Hw)]; [done|]. exfalso.
  assert (w <= v → False) as Hdead.
  { intros Hwv. destruct Hrow. eapply (dead_stays h _ w v); [done|by apply Hin|by apply Hin|done|done|done|done]. }
  destruct schema; [|apply Hdead; lia]. destruct Hs as [Hs|Hs]; [apply Hdead; lia|].
  destruct (N.le_gt_cases w v) as [|Hlt]; [by apply Hdead|].
  pose proof (sr_epoch _ _ _ _ _ _ Hrow eq_refl v Hs Hlt). lia.
Qed.
Lemma last_readable h epochs t written pending x k n :
  history_ok h (written ++ pending) → tables_ok h epochs t written → last written = Some x →
  live h x.1 k → h !! k = Some n → tb_nodes t !! k = Some n.
Proof.
  intros Hh Ht Hx. assert (∀ schema, progress_of t schema <= x.1) as Hp.
  { intros schema. destruct (t_progress _ _ _ _ Ht schema) as [->|(y & Hy & ?)]; [lia|]. by simplify_eq. }
  eapply readable_nodes; [done|done|by apply last_version|apply Hp|left; apply Hp].
Qed.

(** ** The caches *)

Lemma find_sorted (f : Version * gmap NodeKey (Node K) → bool) (cl : list (Version * gmap NodeKey (Node K))) e :
  List.find f cl = Some e → e ∈ cl ∧ f e = true.
Proof. intros [? ?]%List.find_some. split; [by apply list_elem_of_In|done]. Qed.
Lemma get_version_Some (cl : list (Version * gmap NodeKey (Node K))) v c : get_version cl v = Some c → (v, c) ∈ cl.
Proof.
  unfold get_version. intros ([v' c'] & Hf & ->)%fmap_Some. apply find_sorted in Hf as [Hin Heq].
  apply N.eqb_eq in Heq. cbn in Heq. subst. revert Hin. rewrite elem_of_reverse. done.
Qed.
Lemma get_version_None (cl : list (Version * gmap NodeKey (Node K))) v : get_version cl v = None → v ∉ cl.*1.
Proof.
  unfold get_version. intros Hf%fmap_None Hin. apply list_elem_of_fmap in Hin as ([v' c] & -> & Hin).
  assert (In (v', c) (reverse cl)) as Hin' by by apply list_elem_of_In, elem_of_reverse.
  apply (List.find_none _ _ Hf) in Hin'. cbn in Hin'. by rewrite N.eqb_refl in Hin'.
Qed.
Lemma lru_sound_put h shards k n : lru_sound h shards → h !! k = Some n → lru_sound h (lru_node_put k n shards).
Proof.
  intros Hs Hk i p v x. unfold lru_node_put. destruct (decide (i = shard (nk_nibble_path k))) as [->|Hne].
  - rewrite fn_lookup_insert. intros Hp. pose proof (lookup_weaken _ _ _ _ Hp (lru_put_entries _ _ _)) as Hp'.
    apply lookup_insert_Some in Hp' as [[<- [= <- <-]]|[_ Hp']]; [by destruct k|by eapply Hs].
  - rewrite fn_lookup_insert_ne by done. apply Hs.
Qed.
Lemma lru_get_sound h shards k :
  lru_sound h shards →
  lru_sound h (lru_node_get shards k).2 ∧ ∀ n, (lru_node_get shards k).1 = Some n → h !! k = Some n.
Proof.
  intros Hs. unfold lru_node_get. destruct (lru_get (nk_nibble_path k) (shards (shard (nk_nibble_path k)))) as [r c] eqn:Hg.
  destruct (lru_get_entries (nk_nibble_path k) (shards (shard (nk_nibble_path k)))) as [H1 H2]. rewrite Hg in H1, H2.
  cbn [fst snd] in *. split.
  - intros i p v x. destruct (decide (i = shard (nk_nibble_path k))) as [->|Hne].
    + rewrite fn_lookup_insert, H2. apply Hs.
    + rewrite fn_lookup_insert_ne by done. apply Hs.
  - intros n. destruct r as [[v x]|]; [|done]. cbn. destruct (N.eqb_spec v (nk_version k)) as [->|]; [|done].
    intros [= ->]. symmetry in H1. apply Hs in H1. by destruct k.
Qed.
Lemma lru_sound_fill h shards (c : gmap NodeKey (Node K)) :
  lru_sound h shards → (∀ k n, c !! k = Some n → h !! k = Some n) →
  lru_sound h (foldr (λ e, lru_node_put e.1 e.2) shards (map_to_list c)).
Proof.
  intros Hs Hc. assert (∀ e, e ∈ map_to_list c → h !! e.1 = Some e.2) as Hin.
  { intros [k n] He%elem_of_map_to_list. by apply Hc. }
  induction (map_to_list c) as [|e es IH]; [done|]. cbn [foldr]. apply lru_sound_put; [|apply Hin; by left].
  apply IH. intros e' He'. apply Hin. by right.
Qed.

(** Reading changes nothing but the LRU. *)
Lemma get_node_option_db db k :
  sm_db (get_node_option db k).2 = sm_db db ∧ enable_cache (get_node_option db k).2 = enable_cache db ∧
  version_cache (get_node_option db k).2 = version_cache db.
Proof.
  unfold get_node_option. destruct (negb _); [done|]. destruct (get_version _ _); [done|].
  by destruct (lru_node_get _ _) as [[]].
Qed.
Lemma get_node_option_ok h db l pending k :
  caches_ok h db l pending → (∀ k n, tb_nodes (sm_db db) !! k = Some n → h !! k = Some n) →
  caches_ok h (get_node_option db k).2 l pending ∧
  (∀ n, (get_node_option db k).1 = Some n → h !! k = Some n) ∧
  (∀ n, h !! k = Some n →
     tb_nodes (sm_db db) !! k = Some n ∨ (enable_cache db = true ∧ nk_version k ∈ versions pending) →
     (get_node_option db k).1 = Some n).
Proof.
  intros Hc Ht. destruct (get_node_option_db db k) as (Hdb & He & Hv).
  assert (lru_sound h (lru_cache (get_node_option db k).2) →
    caches_ok h (get_node_option db k).2 l pending) as Hok.
  { intros Hl. destruct Hc as [H1 H2 H3 H4]. constructor; rewrite ?He, ?Hv; done. }
  revert Hok. unfold get_node_option. destruct (enable_cache db) eqn:Hen; cbn [negb].
  2: { intros Hok. split_and!; [by apply Hok, (c_lru _ _ _ _ Hc)|by apply Ht|]. cbn. intros n Hk [|[? _]]; done. }
  destruct (get_version (version_cache db) (nk_version k)) as [c|] eqn:Hg.
  - intros Hok. apply get_version_Some in Hg. destruct (c_entries _ _ _ _ Hc _ _ Hg) as [_ Hcache].
    specialize (Hcache k). split_and!; [by apply Hok, (c_lru _ _ _ _ Hc)| |]; cbn; intros n; rewrite Hcache; naive_solver.
  - destruct (lru_get_sound h (lru_cache db) k (c_lru _ _ _ _ Hc)) as [Hs1 Hs2].
    destruct (lru_node_get (lru_cache db) k) as [[x|] shards]; cbn [fst snd lru_cache] in *.
    + intros Hok. split_and!; [by apply Hok|done|]. intros n Hk _. rewrite (Hs2 x eq_refl) in Hk. done.
    + intros Hok. split_and!.
      * apply Hok. destruct (tb_nodes (sm_db db) !! k) as [n|] eqn:Hk; [|done]. apply lru_sound_put; [done|by apply Ht].
      * by apply Ht.
      * intros n Hk [|[_ Hp]]; [done|]. exfalso. apply (get_version_None _ _ Hg). by eapply c_pending.
Qed.
Lemma evict_ok h db l pending cache lru :
  caches_ok h db l pending → StronglySorted N.lt (versions l) → (∃ l', l = l' ++ pending) → (length pending <= 1)%nat →
  maybe_evict_version (version_cache db) (lru_cache db) = (cache, lru) →
  caches_ok h (mkStateMerkleDb (sm_db db) (enable_cache db) cache lru) l pending.
Proof.
  intros Hc Hs [l' ->] Hlen. unfold maybe_evict_version. destruct (decide _) as [Hlt|].
  2: { intros [= <- <-]. by destruct Hc. }
  unfold NUM_VERSIONS_TO_CACHE in Hlt.
  destruct (version_cache db) as [|[v c] cl] eqn:Hcl; [cbn in Hlt; lia|]. intros [= <- <-].
  assert (∀ e, e ∈ cl → e ∈ version_cache db) as Hin by (intros e He; rewrite Hcl; by right).
  pose proof (c_sorted _ _ _ _ Hc) as Hcs. rewrite Hcl in Hcs. cbn [fmap list_fmap] in Hcs.
  apply StronglySorted_inv in Hcs as [Hcs Hfst]. rewrite Forall_forall in Hfst.
  constructor; cbn [version_cache enable_cache lru_cache].
  - exact Hcs.
  - intros v' c' He. apply (c_entries _ _ _ _ Hc). by apply Hin.
  - intros w Hen Hw. pose proof (c_pending _ _ _ _ Hc w Hen Hw) as Hw'. rewrite Hcl in Hw'.
    apply elem_of_cons in Hw' as [->|]; [|done]. exfalso.
    destruct pending as [|x [|]]; [by apply elem_of_nil in Hw| |cbn in Hlen; lia].
    cbn in Hw. apply list_elem_of_singleton in Hw. destruct cl as [|[v' c'] cl]; [cbn in Hlt; lia|].
    assert (v < v') as Hlt' by (apply Hfst; by left).
    destruct (c_entries _ _ _ _ Hc v' c') as [Hv' _]; [apply Hin; by left|].
    pose proof (sorted_last (l' ++ [x]) x v' Hs ltac:(apply last_snoc) Hv') as Hle. cbn in *. lia.
  - apply lru_sound_fill; [by apply (c_lru _ _ _ _ Hc)|]. intros k n Hk.
    destruct (c_entries _ _ _ _ Hc v c) as [_ He]; [rewrite Hcl; by left|]. by apply He.
Qed.

(** ** Restarts *)

Lemma history_restrict h written pending :
  history_ok h (written ++ pending) →
  let h' := filter (λ e, nk_version e.1 ∈ versions written) h in
  history_ok h' written ∧ ∀ v k, v ∈ versions written → live h' v k ↔ live h v k.
Proof.
  intros Hh h'. assert (∀ v, v ∈ versions written → v ∈ versions (written ++ pending)) as Hin.
  { intros v Hv. rewrite versions_app. apply elem_of_app. by left. }
  assert (∀ k n, h' !! k = Some n ↔ h !! k = Some n ∧ nk_version k ∈ versions written) as Hh'.
  { intros k n. unfold h'. by rewrite map_lookup_filter_Some. }
  assert (∀ v m, (v, m) ∈ written → jmt_at h' v m ∧ ∀ k, live h' v k ↔ live h v k) as Hkeep.
  { intros v m Hvm. assert (v ∈ versions written) as Hv by (apply elem_of_versions; eauto).
    apply jmt_at_keep; [apply (h_at _ _ Hh), elem_of_app; by left|]. intros k n Hl Hk. apply Hh'. split; [done|].
    pose proof (h_past _ _ Hh v k (Hin v Hv) Hl) as Hle. pose proof (h_version _ _ Hh _ _ Hk) as Hver.
    rewrite versions_app in Hver. apply elem_of_app in Hver as [|Hver]; [done|].
    pose proof (sorted_split _ _ _ _ (h_sorted _ _ Hh) Hv Hver). lia. }
  assert (∀ v k, v ∈ versions written → live h' v k ↔ live h v k) as Hlive.
  { intros v k (m & Hm)%elem_of_versions. by apply (Hkeep v m). }
  split; [|done]. constructor.
  - by eapply sorted_left, h_sorted.
  - intros v m Hm. by apply Hkeep.
  - by intros k n [_ ?]%Hh'.
  - intros k n [Hk Hv]%Hh'. apply Hlive; [done|]. by eapply h_born.
  - intros v k Hv Hl. eapply h_past; [done|by apply Hin|]. by apply Hlive.
  - intros v v' k Hv Hv' Hlt Hl Hle. apply Hlive; [done|].
    eapply h_interval; [done|by apply Hin|by apply Hin|exact Hlt|by apply Hlive|done].
Qed.
Lemma stale_row_live h h' epochs l schema v k :
  (∀ k, live h' v k ↔ live h v k) → stale_row h epochs l schema v k → stale_row h' epochs l schema v k.
Proof. intros Hl [? ? ? Hd ?]. constructor; try done. by rewrite Hl. Qed.
Lemma tables_change h h' epochs t written :
  (∀ k n, nk_version k ∈ versions written → h' !! k = Some n ↔ h !! k = Some n) →
  (∀ v k, v ∈ versions written → live h' v k ↔ live h v k) →
  tables_ok h epochs t written → tables_ok h' epochs t written.
Proof.
  intros Hh Hl [H1 H2 H3 H4 H5].
  assert (∀ schema v k, stale_row h epochs written schema v k → stale_row h' epochs written schema v k) as Hrow.
  { intros schema v k Hr. eapply stale_row_live; [|done]. intros k'. apply Hl. by destruct Hr. }
  constructor; [| | | |done].
  - intros k n Hk. destruct (H1 k n Hk). by rewrite Hh.
  - intros k n Hk Hv. apply Hh in Hk; [|done]. destruct (H2 k n Hk Hv) as [|(schema & v & ? & ?)]; [by left|right]. eauto.
  - intros schema i Hi. destruct (H3 schema i Hi). eauto.
  - intros k n x Hk Hx. rewrite Hl by by apply last_version. by eapply H4.
Qed.
Lemma pruner_new_ok h epochs t written schema :
  tables_ok h epochs t written → pruner_ok schema (state_merkle_pruner_new t schema) t.
Proof.
  intros Ht. split_and!; [intros i Hi; by apply (t_rows _ _ _ _ Ht schema i)| |done].
  unfold is_pruning_pending. cbn. by rewrite orb_true_r.
Qed.
Lemma caches_new h t n l : caches_ok h (state_merkle_db_new t n) l [].
Proof.
  constructor; cbn.
  - constructor.
  - intros v c Hin. by apply elem_of_nil in Hin.
  - intros v _ Hv. by apply elem_of_nil in Hv.
  - intros i p v x. by rewrite lru_new_entries, lookup_empty.
Qed.
Lemma inv_restart s written pending h config n :
  inv s written pending h → (∀ schema, cfg_batch_size (config schema) ≠ 0%nat) →
  ∃ h', inv (open_system (sm_db (sys_db s)) (sys_epochs s) (sys_usages s) config n) written [] h'.
Proof.
  intros [Hh Ht _ _ _ _] Hb. destruct (history_restrict h written pending Hh) as [Hh' Hl].
  set (h' := filter _ h) in *. exists h'.
  assert (tables_ok h' (sys_epochs s) (sm_db (sys_db s)) written) as Ht'.
  { eapply tables_change; [|done|done]. intros k x Hv. unfold h'. rewrite map_lookup_filter_Some. naive_solver. }
  constructor; cbn [open_system sys_db sys_managers sys_epochs sys_usages state_merkle_db_new sm_db sys_committer].
  - by rewrite app_nil_r.
  - done.
  - constructor; intros schema; cbn; [by eapply pruner_new_ok|by left|apply (t_progress _ _ _ _ Ht')|apply Hb].
  - apply caches_new.
  - constructor.
  - done.
Qed.
Lemma inv_open config n :
  (∀ schema, cfg_batch_size (config schema) ≠ 0%nat) → inv (open_system empty_tables ∅ ∅ config n) [] [] ∅.
Proof.
  intros Hb. constructor; cbn [open_system sys_db sys_managers sys_epochs sys_usages state_merkle_db_new sm_db sys_committer].
  - constructor; cbn; [constructor|..].
    + intros v m Hm. by apply elem_of_nil in Hm.
    + intros k x. by rewrite lookup_empty.
    + intros k x. by rewrite lookup_empty.
    + intros v k Hv. by apply elem_of_nil in Hv.
    + intros v v' k Hv. by apply elem_of_nil in Hv.
  - constructor; cbn.
    + intros k x. by rewrite lookup_empty.
    + intros k x. by rewrite lookup_empty.
    + set_solver.
    + done.
    + by left.
  - constructor; intros schema; cbn; [|by left|by left|apply Hb]. split_and!; cbn; set_solver.
  - apply caches_new.
  - constructor.
  - done.
Qed.

(** ** Pruning *)

Lemma progress_step schema p p' t t' (ls : list StaleNodeIndex) sc :
  prune_step schema p p' t t' ls →
  progress_of t' sc = if decide (sc = schema ∧ ls ≠ []) then min_readable_version p' else progress_of t sc.
Proof. intros Hps. unfold progress_of. rewrite (ps_progress _ _ _ _ _ _ Hps). by destruct (decide _). Qed.
Lemma prune_tables h epochs t t' written schema p p' ls :
  tables_ok h epochs t written → pruner_ok schema p t → StronglySorted N.lt (versions written) →
  prune_step schema p p' t t' ls → tables_ok h epochs t' written.
Proof.
  intros Ht Hok Hsort Hps.
  assert (∀ i, last ls = Some i → i ∈ tb_stale t schema ∧ min_readable_version p' = stale_since_version i) as Hlast.
  { intros i Hi. pose proof (ps_min _ _ _ _ _ _ Hps) as Hm. rewrite Hi in Hm. split; [|done].
    apply (ps_due _ _ _ _ _ _ Hps). by apply last_Some_elem_of. }
  assert (ls ≠ [] → ∃ i, last ls = Some i) as Hne by (intros; apply last_is_Some; done).
  assert (∀ sc, progress_of t sc <= progress_of t' sc) as Hmono.
  { intros sc. rewrite (progress_step _ _ _ _ _ _ sc Hps). destruct (decide _) as [[-> Hl]|]; [|lia].
    destruct (Hne Hl) as [i Hi]. destruct (Hlast i Hi) as [Hin ->]. by apply (t_rows _ _ _ _ Ht schema i). }
  constructor.
  - intros k n. rewrite (ps_nodes _ _ _ _ _ _ Hps). destruct (decide _); [done|]. apply (t_nodes _ _ _ _ Ht).
  - intros k n Hk Hv. rewrite (ps_nodes _ _ _ _ _ _ Hps). destruct (decide _) as [Hd|].
    + right. apply list_elem_of_fmap in Hd as (i & -> & Hi). exists schema, (stale_since_version i).
      destruct (ps_due _ _ _ _ _ _ Hps i Hi) as [Hin _]. split; [by apply (t_rows _ _ _ _ Ht)|].
      rewrite (progress_step _ _ _ _ _ _ schema Hps), decide_True by (split; [done|by intros ->; apply elem_of_nil in Hi]).
      by apply (ps_upto _ _ _ _ _ _ Hps).
    + destruct (t_kept _ _ _ _ Ht k n Hk Hv) as [|(sc & v & Hr & Hle)]; [by left|right].
      exists sc, v. split; [done|]. specialize (Hmono sc). lia.
  - intros sc i [Hi Hni]%(ps_stale _ _ _ _ _ _ Hps). destruct (t_rows _ _ _ _ Ht sc i Hi) as [? Hpr]. split; [done|].
    rewrite (progress_step _ _ _ _ _ _ sc Hps). destruct (decide _) as [[-> Hl]|]; [|done].
    apply (ps_left _ _ _ _ _ _ Hps); [by apply (ps_stale _ _ _ _ _ _ Hps)|]. by apply Hok.
  - intros k n x. rewrite (ps_nodes _ _ _ _ _ _ Hps). destruct (decide _) as [|Hd]; [done|]. intros Hk Hx.
    destruct (t_listed _ _ _ _ Ht k n x Hk Hx) as [|(sc & v & Hi)]; [by left|right]. exists sc, v.
    apply (ps_stale _ _ _ _ _ _ Hps). split; [done|]. intros [-> Hin]. apply Hd, list_elem_of_fmap. by exists (mkStaleNodeIndex v k).
  - intros sc. rewrite (progress_step _ _ _ _ _ _ sc Hps). destruct (decide _) as [[-> Hl]|]; [|apply (t_progress _ _ _ _ Ht)].
    destruct (Hne Hl) as [i Hi]. destruct (Hlast i Hi) as [Hin ->]. right.
    destruct (t_rows _ _ _ _ Ht schema i Hin) as [Hr _]. destruct (last written) as [x|] eqn:Hx.
    + exists x. split; [done|]. eapply sorted_last; [done|done|by destruct Hr].
    + apply last_None in Hx as ->. destruct Hr as [Hv _ _ _ _]. by apply elem_of_nil in Hv.
Qed.
Lemma pruner_ok_subset schema p t t' :
  (∀ i, i ∈ tb_stale t' schema → i ∈ tb_stale t schema) → pruner_ok schema p t → pruner_ok schema p t'.
Proof.
  intros Hsub (H1 & H2 & H3). split_and!; [by intros i Hi%Hsub; apply H1| |done]. intros Hp i Hi%Hsub. by apply H2.
Qed.
Lemma prune_min h epochs t t' written schema p p' ls :
  tables_ok h epochs t written → StronglySorted N.lt (versions written) → prune_step schema p p' t t' ls →
  reached written (target_version p) → reached written (min_readable_version p) → reached written (min_readable_version p').
Proof.
  intros Ht Hs Hps Htg Hmin. pose proof (ps_min _ _ _ _ _ _ Hps) as Hm. destruct (last ls) as [i|] eqn:Hi.
  - rewrite Hm. destruct (ps_due _ _ _ _ _ _ Hps i) as [Hin _]; [by apply last_Some_elem_of|].
    destruct (t_rows _ _ _ _ Ht schema i Hin) as [Hr _]. right. destruct (last written) as [x|] eqn:Hx.
    + exists x. split; [done|]. eapply sorted_last; [done|done|by destruct Hr].
    + apply last_None in Hx as ->. destruct Hr as [Hv _ _ _ _]. by apply elem_of_nil in Hv.
  - destruct (is_pruning_pending p) eqn:Hp; [by rewrite (Hm eq_refl)|].
    by destruct (ps_idle _ _ _ _ _ _ Hps Hp) as [-> _].
Qed.
Lemma inv_prune s written pending h schema :
  inv s written pending h → ∃ s', prune_round s schema = Ok s' ∧ inv s' written pending h.
Proof.
  intros [Hh Ht [Hok Htg Hmin Hb] [Hc1 Hc2 Hc3 Hc4] Hbs Hcm]. unfold prune_round.
  destruct (pruner_ok_run _ _ schema _ (Hb schema) (Hok schema)) as (p' & t' & ls & -> & Hps). run_ok.
  eexists. split; [done|]. pose proof (sorted_left _ _ (h_sorted _ _ Hh)) as Hs.
  constructor; cbn [sys_db sys_managers sys_epochs sys_usages sys_committer with_tables sm_db].
  - done.
  - by eapply prune_tables.
  - constructor; intros sc; (destruct (decide (sc = schema)) as [->|Hne];
      [rewrite fn_lookup_insert|rewrite fn_lookup_insert_ne by done]); cbn [with_pruner pm_pruner max_node_to_prune_per_batch].
    + by eapply prune_step_ok.
    + eapply pruner_ok_subset; [|apply Hok]. intros i. rewrite (ps_stale _ _ _ _ _ _ Hps). naive_solver.
    + rewrite (ps_target _ _ _ _ _ _ Hps). apply Htg.
    + apply Htg.
    + by eapply prune_min.
    + apply Hmin.
    + apply Hb.
    + apply Hb.
  - by constructor.
  - done.
  - done.
Qed.

(** ** Writing a batch *)

Lemma put_rows_run t (new : list (NodeKey * Node K)) (rows : list (StaleSchema * StaleNodeIndex)) :
  NoDup new.*1 →
  let t' := foldl apply_op t (((λ e, PutNode e.1 e.2) <$> new) ++ ((λ r, PutIndex r.1 r.2) <$> rows)) in
  (∀ k n, tb_nodes t' !! k = Some n ↔ (k, n) ∈ new ∨ (k ∉ new.*1 ∧ tb_nodes t !! k = Some n)) ∧
  (∀ sc i, i ∈ tb_stale t' sc ↔ (sc, i) ∈ rows ∨ i ∈ tb_stale t sc) ∧ tb_progress t' = tb_progress t.
Proof.
  cbv zeta. rewrite foldl_app. intros Hnd.
  assert (∀ t, let t' := foldl apply_op t ((λ e, PutNode e.1 e.2) <$> new) in
    (∀ k n, tb_nodes t' !! k = Some n ↔ (k, n) ∈ new ∨ (k ∉ new.*1 ∧ tb_nodes t !! k = Some n)) ∧
    tb_stale t' = tb_stale t ∧ tb_progress t' = tb_progress t) as Hnodes.
  { cbv zeta. induction new as [|[k0 n0] new IH]; intros t0; cbn [fmap list_fmap foldl fst snd].
    - split_and!; [|done|done]. intros k n. rewrite elem_of_nil. set_solver.
    - apply NoDup_cons in Hnd as [Hk0 Hnd]. destruct (IH Hnd (apply_op t0 (PutNode k0 n0))) as (H1 & -> & ->).
      split_and!; [|done|done]. intros k n. rewrite H1. cbn [apply_op tb_nodes].
      rewrite lookup_insert_Some, !elem_of_cons. split.
      + intros [|[Hk [[<- <-]|[Hne ?]]]]; [by left; right|by left; left|]. right. split; [|done]. intros [->|]; done.
      + intros [[[= -> ->]|]|[Hk ?]]; [|by left|].
        * right. split; [done|]. by left.
        * right. split; [by intros ?; apply Hk; right|]. right. split; [|done]. intros ->. apply Hk. by left. }
  destruct (Hnodes t) as (H1 & H2 & H3). set (t1 := foldl apply_op t _) in *.
  assert (∀ t, let t' := foldl apply_op t ((λ r, PutIndex r.1 r.2) <$> rows) in
    tb_nodes t' = tb_nodes t ∧ (∀ sc i, i ∈ tb_stale t' sc ↔ (sc, i) ∈ rows ∨ i ∈ tb_stale t sc) ∧
    tb_progress t' = tb_progress t) as Hrows.
  { cbv zeta. clear. induction rows as [|[sc0 i0] rows IH]; intros t0; cbn [fmap list_fmap foldl fst snd].
    - split_and!; [done| |done]. set_solver.
    - destruct (IH (apply_op t0 (PutIndex sc0 i0))) as (-> & H2 & ->). split_and!; [done| |done].
      intros sc i. rewrite H2. cbn [apply_op tb_stale]. destruct (decide (sc = sc0)) as [->|Hne].
      + rewrite fn_lookup_insert. set_solver.
      + rewrite fn_lookup_insert_ne by done. set_solver. }
  destruct (Hrows t1) as (-> & Hr & ->). rewrite H2 in Hr. rewrite H3. done.
Qed.
Lemma stale_row_grow h epochs l l' schema v k :
  (∀ w, w ∈ versions l → w ∈ versions l') → stale_row h epochs l schema v k → stale_row h epochs l' schema v k.
Proof. intros Hsub [? ? ? ? ?]. constructor; auto. Qed.
Lemma stale_row_shrink h epochs written x pending schema k :
  StronglySorted N.lt (versions (written ++ x :: pending)) →
  stale_row h epochs (written ++ x :: pending) schema x.1 k →
  stale_row h epochs (written ++ [x]) schema x.1 k ∧ nk_version k ∈ versions written.
Proof.
  intros Hs [Hv Hb Hc Hd He]. rewrite versions_app in Hc. apply elem_of_app in Hc as [Hc|Hc].
  2: { exfalso. cbn in Hc. apply elem_of_cons in Hc as [Hc|Hc]; [lia|].
       rewrite (cons_middle x written pending), app_assoc in Hs.
       assert (x.1 < nk_version k); [|lia]. eapply sorted_split; [exact Hs| |exact Hc].
       rewrite versions_app. apply elem_of_app. right. by left. }
  split; [|done]. constructor; try done.
  - rewrite versions_app. apply elem_of_app. right. by left.
  - rewrite versions_app. apply elem_of_app. by left.
Qed.
Lemma write_tables h epochs t written x pending new rows :
  history_ok h (written ++ x :: pending) → tables_ok h epochs t written →
  NoDup new.*1 → (∀ k n, (k, n) ∈ new ↔ h !! k = Some n ∧ nk_version k = x.1) →
  (∀ schema i, (schema, i) ∈ rows →
     stale_since_version i = x.1 ∧ stale_row h epochs (written ++ x :: pending) schema x.1 (stale_node_key i)) →
  (∀ v k, v ∈ versions (written ++ x :: pending) → v < x.1 →
     (∀ w, w ∈ versions (written ++ x :: pending) → w < x.1 → w <= v) → live h v k →
     live h x.1 k ∨ ∃ schema, (schema, mkStaleNodeIndex x.1 k) ∈ rows) →
  tables_ok h epochs (foldl apply_op t (((λ e, PutNode e.1 e.2) <$> new) ++ ((λ r, PutIndex r.1 r.2) <$> rows)))
    (written ++ [x]).
Proof.
  intros Hh Ht Hnd Hnew Hrows Hcomp. destruct (put_rows_run t new rows Hnd) as (Hn & Hst & Hpr).
  set (t' := foldl apply_op t _) in *. pose proof (h_sorted _ _ Hh) as Hs.
  assert (StronglySorted N.lt (versions (written ++ [x]))) as Hs'.
  { rewrite (cons_middle x written pending), app_assoc in Hs. by eapply sorted_left. }
  assert (∀ w, w ∈ versions written → w ∈ versions (written ++ [x])) as Hgrow.
  { intros w Hw. rewrite versions_app. apply elem_of_app. by left. }
  assert (∀ w, w ∈ versions written → w < x.1) as Hlt by (intros w Hw; eapply sorted_split; [exact Hs'|done|by left]).
  assert (∀ schema, progress_of t' schema = progress_of t schema) as Hp by (intros; unfold progress_of; by rewrite Hpr).
  constructor.
  - intros k n [[Hk Hv]%Hnew|[_ Hk]]%Hn.
    + split; [done|]. rewrite Hv, versions_app. apply elem_of_app. right. by left.
    + destruct (t_nodes _ _ _ _ Ht k n Hk). eauto.
  - intros k n Hk Hv. rewrite versions_app in Hv. apply elem_of_app in Hv as [Hv|Hv].
    + destruct (t_kept _ _ _ _ Ht k n Hk Hv) as [Hk'|(schema & v & Hr & Hle)].
      * left. apply Hn. right. split; [|done]. intros ([k' n'] & -> & [_ Hv']%Hnew)%list_elem_of_fmap.
        cbn in *. specialize (Hlt _ Hv). lia.
      * right. exists schema, v. rewrite Hp. split; [|done]. by eapply stale_row_grow.
    + cbn in Hv. apply list_elem_of_singleton in Hv. left. apply Hn. left. by apply Hnew.
  - intros schema i [Hi|Hi]%Hst; rewrite Hp.
    + destruct (Hrows schema i Hi) as [-> Hr]. destruct (stale_row_shrink _ _ _ _ _ _ _ Hs Hr) as [Hr' Hc]. split; [done|].
      apply N.lt_le_incl. by eapply reached_lt; [exact Hs'|apply (t_progress _ _ _ _ Ht)|exact Hc].
    + destruct (t_rows _ _ _ _ Ht schema i Hi). split; [|done]. by eapply stale_row_grow.
  - intros k n y Hk. rewrite last_snoc. intros [= <-]. apply Hn in Hk as [[Hk Hv]%Hnew|[_ Hk]].
    + left. rewrite <- Hv. by eapply h_born.
    + destruct (last written) as [y|] eqn:Hy.
      * destruct (t_listed _ _ _ _ Ht k n y Hk Hy) as [Hl|(schema & v & Hi)].
        -- destruct (Hcomp y.1 k) as [|(schema & Hr)]; [| | |done|by left|].
           ++ rewrite versions_app. apply elem_of_app. left. by apply last_version.
           ++ by apply Hlt, last_version.
           ++ intros w Hw Hwx. rewrite versions_app in Hw. apply elem_of_app in Hw as [Hw|Hw].
              ** eapply sorted_last; [by eapply sorted_left|done|done].
              ** cbn in Hw. apply elem_of_cons in Hw as [->|Hw]; [lia|]. rewrite (cons_middle x written pending), app_assoc in Hs.
                 assert (x.1 < w); [|lia]. eapply sorted_split; [exact Hs| |exact Hw].
                 rewrite versions_app. apply elem_of_app. right. by left.
           ++ right. exists schema, x.1. apply Hst. by left.
        -- right. exists schema, v. apply Hst. by right.
      * apply last_None in Hy as ->. destruct (t_nodes _ _ _ _ Ht k n Hk) as [_ Hv]. by apply elem_of_nil in Hv.
  - intros schema. rewrite Hp. apply reached_mono; [done|]. apply (t_progress _ _ _ _ Ht).
Qed.
Lemma put_rows_families (new : list (NodeKey * Node K)) (rows : list (StaleSchema * StaleNodeIndex)) :
  forallb (λ op, bool_decide (op_cf op ∈ state_merkle_db_column_families))
    (((λ e, PutNode e.1 e.2) <$> new) ++ ((λ r, PutIndex r.1 r.2) <$> rows)) = true.
Proof.
  apply forallb_forall. intros op Hop%list_elem_of_In. apply bool_decide_eq_true.
  apply elem_of_app in Hop as [(e & -> & _)%list_elem_of_fmap|([[] i] & -> & _)%list_elem_of_fmap]; cbn; set_solver.
Qed.
Lemma write_managers t t' written x ms :
  StronglySorted N.lt (versions (written ++ [x])) →
  (∀ schema i, i ∈ tb_stale t' schema →
     i ∈ tb_stale t schema ∨ (stale_since_version i = x.1 ∧ nk_version (stale_node_key i) ∈ versions written)) →
  managers_ok t written ms → managers_ok t' (written ++ [x]) ms.
Proof.
  intros Hs Hst [Hok Htg Hmin Hb]. constructor; intros schema.
  - destruct (Hok schema) as (H1 & H2 & H3). split_and!; [..|done].
    + intros i [Hi|[-> Hv]]%Hst; [by apply H1|]. by apply N.lt_le_incl; eapply reached_lt.
    + intros Hp i [Hi|[-> Hv]]%Hst; [by apply H2|]. by eapply reached_lt.
  - by apply reached_mono.
  - by apply reached_mono.
  - apply Hb.
Qed.
Lemma inv_write s written x pending h b :
  inv s written (x :: pending) h → sys_committer s = Received b →
  ∃ s', write_step s b = Ok s' ∧ inv s' (written ++ [x]) pending h.
Proof.
  intros [Hh Ht Hm Hc Hbs Hcm] Hb. unfold pending_batches in Hbs. rewrite Hb in Hbs.
  apply Forall2_cons in Hbs as [Hbx Hbs]. fold (pending_batches s) in Hbs.
  pose proof Hbx as [Hbv Hbu (new & rows & Hbatch & Hnd & Hnew & Hrows & Hcomp)].
  unfold write_step, write_schemas. rewrite Hbatch, put_rows_families. eexists. split; [done|].
  destruct (put_rows_run (sm_db (sys_db s)) new rows Hnd) as (_ & Hst & _).
  pose proof (write_tables _ _ _ _ _ _ _ _ Hh Ht Hnd Hnew Hrows Hcomp) as Ht'.
  assert (written ++ x :: pending = (written ++ [x]) ++ pending) as Happ by by rewrite <- app_assoc.
  assert (StronglySorted N.lt (versions (written ++ [x]))) as Hs.
  { eapply sorted_left. rewrite <- Happ. apply (h_sorted _ _ Hh). }
  constructor; cbn [sys_db sys_managers sys_epochs sys_usages sys_committer with_tables sm_db].
  - by rewrite <- Happ.
  - done.
  - eapply write_managers; [done| |done]. intros schema i [Hi|Hi]%Hst; [right|by left].
    destruct (Hrows schema i Hi) as [Hv Hr]. split; [done|].
    by apply (stale_row_shrink _ _ _ _ _ _ _ (h_sorted _ _ Hh) Hr).
  - rewrite <- Happ. destruct Hc as [H1 H2 H3 H4]. constructor; try done.
    intros v Hen Hv. apply H3; [done|]. by right.
  - rewrite <- Happ. exact Hbs.
  - destruct Hbu as (u & ? & ? & ?). exists x, u. rewrite last_snoc. done.
Qed.

(** ** The other steps *)

Lemma inv_receive s written pending h b s' :
  inv s written pending h → sys_outbox s = Some b → sys_committer s = Waiting →
  s' = mkSystem (sys_db s) (sys_managers s) (sys_epochs s) (sys_usages s) None (Received b) → inv s' written pending h.
Proof.
  intros [Hh Ht Hm Hc Hbs Hcm] Hb Hw ->. unfold pending_batches in Hbs. rewrite Hb, Hw in Hbs. by constructor.
Qed.
Lemma inv_evict s written pending h b :
  inv s written pending h → sys_committer s = Written b → inv (evict_step s b) written pending h.
Proof.
  intros [Hh Ht Hm Hc Hbs Hcm] Hb. unfold evict_step. unfold pending_batches in Hbs. rewrite Hb in *.
  assert (length pending <= 1)%nat as Hlen.
  { apply Forall2_length in Hbs. rewrite <- Hbs. destruct (sys_outbox s); cbn; lia. }
  destruct (enable_cache (sys_db s)) eqn:Hen; [|by constructor].
  destruct (maybe_evict_version _ _) as [cache lru] eqn:Hev. constructor; try done. cbn [sys_db].
  rewrite <- Hen. eapply evict_ok; [done|apply (h_sorted _ _ Hh)|by exists written|done|done].
Qed.
Lemma inv_read s written pending h k s' :
  inv s written pending h →
  s' = mkSystem (get_node_option (sys_db s) k).2 (sys_managers s) (sys_epochs s) (sys_usages s) (sys_outbox s) (sys_committer s) →
  inv s' written pending h.
Proof.
  intros [Hh Ht Hm Hc Hbs Hcm] ->. destruct (get_node_option_db (sys_db s) k) as (Hdb & _ & _).
  destruct (get_node_option_ok h (sys_db s) _ pending k Hc) as [Hc' _].
  { intros k' n Hk. by apply (t_nodes _ _ _ _ Ht). }
  constructor; cbn [sys_db sys_managers sys_epochs sys_usages sys_committer]; rewrite ?Hdb; done.
Qed.
Lemma stale_row_epochs h epochs l schema v k e epoch :
  Forall (λ x, x.1 <= e) l → stale_row h epochs l schema v k → stale_row h (<[e := epoch]> epochs) l schema v k.
Proof.
  intros He [Hv ? ? ? Hep]. constructor; try done. intros Hsc e' Hs Hlt. destruct (decide (e' = e)) as [->|Hne].
  - apply elem_of_versions in Hv as (m & Hm). rewrite Forall_forall in He. specialize (He _ Hm). cbn in He. lia.
  - rewrite lookup_insert_ne in Hs by done. by apply Hep.
Qed.
Lemma inv_epoch s written pending h e epoch s' :
  inv s written pending h → Forall (λ x, x.1 <= e) (written ++ pending) →
  s' = mkSystem (sys_db s) (sys_managers s) (<[e := epoch]> (sys_epochs s)) (sys_usages s) (sys_outbox s) (sys_committer s) →
  inv s' written pending h.
Proof.
  intros [Hh [T1 T2 T3 T4 T5] Hm Hc Hbs Hcm] He ->. pose proof He as [He1 _]%Forall_app.
  constructor; cbn [sys_db sys_managers sys_epochs sys_usages sys_committer]; [done| |done|done| |done].
  - constructor; [done| | |done|done].
    + intros k n Hk Hv. destruct (T2 k n Hk Hv) as [|(sc & v & Hr & ?)]; [by left|right].
      exists sc, v. split; [by apply stale_row_epochs|done].
    + intros sc i Hi. destruct (T3 sc i Hi). split; [by apply stale_row_epochs|done].
  - eapply Forall2_impl; [exact Hbs|]. intros b x [H1 H2 (new & rows & H3 & H4 & H5 & H6 & H7)].
    constructor; [done|done|]. exists new, rows. split_and!; try done.
    intros sc i Hi. destruct (H6 sc i Hi). split; [done|]. by apply stale_row_epochs.
Qed.
Lemma inv_usage s written pending h v usage s' :
  inv s written pending h → (∀ usage', sys_usages s !! v = Some usage' → usage' = usage) →
  s' = mkSystem (sys_db s) (sys_managers s) (sys_epochs s) (<[v := usage]> (sys_usages s)) (sys_outbox s) (sys_committer s) →
  inv s' written pending h.
Proof.
  intros [Hh Ht Hm Hc Hbs Hcm] Hu ->.
  assert (∀ w u, sys_usages s !! w = Some u → <[v := usage]> (sys_usages s) !! w = Some u) as Hsub.
  { intros w u Hw. destruct (decide (w = v)) as [->|]; [|by rewrite lookup_insert_ne].
    rewrite lookup_insert_eq. by rewrite (Hu u Hw). }
  constructor; cbn [sys_db sys_managers sys_epochs sys_usages sys_committer]; [done|done|done|done| |].
  - eapply Forall2_impl; [exact Hbs|]. intros b x [H1 (u & H2 & H3 & H4) H5]. constructor; [done| |done].
    exists u. split_and!; [by apply Hsub|done|done].
  - destruct (sys_committer s) as [| |b|b]; [done|done| |];
      (destruct Hcm as (x & u & ? & ? & ? & ? & ?); exists x, u; split_and!; [done|done|by apply Hsub|done|done]).
Qed.
Lemma set_target_ok schema p t v : pruner_ok schema p t → pruner_ok schema (set_target_db_version p v) t.
Proof.
  intros (H1 & H2 & H3). unfold set_target_db_version. destruct (N.ltb_spec (target_version p) v) as [Hlt|]; [|done].
  unfold pruner_ok, is_pruning_pending, set_target_version, min_readable_version in *. cbn [progress target_version].
  destruct (progress p) as [m []]; cbn [fst snd negb] in *.
  - specialize (H3 eq_refl). split_and!; [done| |lia]. rewrite orb_false_r. intros Hm%N.ltb_ge. lia.
  - rewrite orb_true_r. done.
Qed.
Lemma maybe_set_target_run {E} (m : StatePrunerManager) v :
  ∃ m', maybe_set_pruner_target_db_version (E := E) m v = Ok m' ∧
    max_node_to_prune_per_batch m' = max_node_to_prune_per_batch m ∧
    (pm_pruner m' = pm_pruner m ∨ pm_pruner m' = set_target_db_version (pm_pruner m) (v - prune_window m)).
Proof.
  unfold maybe_set_pruner_target_db_version, set_pruner_target_db_version. cbn [pruner_enabled].
  destruct (pruner_enabled m); run_ok; eexists; (split; [done|]); auto.
Qed.
Lemma manager_target_ok t written x schema (m m' : StatePrunerManager) :
  last written = Some x →
  (pm_pruner m' = pm_pruner m ∨ pm_pruner m' = set_target_db_version (pm_pruner m) (x.1 - prune_window m)) →
  pruner_ok schema (pm_pruner m) t → reached written (target_version (pm_pruner m)) →
  pruner_ok schema (pm_pruner m') t ∧ reached written (target_version (pm_pruner m')) ∧
  min_readable_version (pm_pruner m') = min_readable_version (pm_pruner m).
Proof.
  intros Hx [-> | ->] Hok Hr; [done|]. split; [by apply set_target_ok|].
  unfold set_target_db_version. destruct (_ <? _); [|done]. split; [|done]. right. exists x. cbn. split; [done|lia].
Qed.
Lemma root_leaf_count h v m nd :
  jmt_at h v m → h !! new_empty_path v = Some nd → node_leaf_count nd = N.of_nat (size m).
Proof.
  intros (nd' & Hst & Hor) Hnd. rewrite Hst in Hnd. injection Hnd as <-.
  destruct Hor as [[-> ->]|Hrep]; [done|]. destruct Hrep as [|? ? ? ? ? ? ? ? Hlc]; [by rewrite map_size_singleton|done].
Qed.
Lemma root_stored h epochs t written pending x :
  history_ok h (written ++ pending) → tables_ok h epochs t written → last written = Some x →
  ∃ nd, tb_nodes t !! new_empty_path x.1 = Some nd ∧ node_leaf_count nd = N.of_nat (size x.2).
Proof.
  intros Hh Ht Hx. assert (jmt_at h x.1 x.2) as Hat.
  { apply (h_at _ _ Hh), elem_of_app. left. destruct x. by apply last_Some_elem_of. }
  pose proof Hat as (nd & Hst & _). exists nd. split; [|by eapply root_leaf_count].
  eapply last_readable; [done|done|done| |done]. exists nd. split; [done|by left].
Qed.
Lemma inv_finish s written pending h b :
  inv s written pending h → sys_committer s = Evicted b → ∃ s', finish_step s b = Ok s' ∧ inv s' written pending h.
Proof.
  intros [Hh Ht [Hok Htg Hmin Hba] Hc Hbs Hcm] Hb. unfold pending_batches in Hbs. rewrite Hb in *.
  destruct Hcm as (x & u & Hx & Hv & Hu & Hitems & Hsm). unfold finish_step. rewrite Hv.
  destruct (maybe_set_target_run (E := anyhow) (sys_managers s StaleNodeIndexSchema) x.1) as (m1 & -> & Hb1 & Hp1). run_ok.
  destruct (maybe_set_target_run (E := anyhow) (sys_managers s StaleNodeIndexCrossEpochSchema) x.1) as (m2 & -> & Hb2 & Hp2).
  run_ok. destruct (root_stored _ _ _ _ _ _ Hh Ht Hx) as (nd & Hnd & Hlc).
  assert (check_usage_consistency (sm_db (sys_db s)) (sys_usages s) b = Ok tt) as ->.
  { unfold check_usage_consistency. rewrite Hv, Hu. run_ok. rewrite Hnd. run_ok. rewrite Hlc, Hitems, N.eqb_refl. run_ok.
    destruct Hsm as [-> | ->]; [done|]. by destruct u; [rewrite bool_decide_eq_true_2|]. }
  eexists. split; [done|].
  destruct (manager_target_ok _ _ _ _ _ _ Hx Hp1 (Hok _) (Htg _)) as (? & ? & E1).
  destruct (manager_target_ok _ _ _ _ _ _ Hx Hp2 (Hok _) (Htg _)) as (? & ? & E2).
  constructor; cbn [sys_db sys_managers sys_epochs sys_usages sys_committer]; try done.
  constructor; intros []; try done; rewrite ?E1, ?E2, ?Hb1, ?Hb2; auto.
Qed.

(** ** Merklizing *)

Lemma previous_epoch_ending_spec (epochs : gmap Version N) v :
  match get_previous_epoch_ending epochs v with
  | Some (e, _) => e < v ∧ ∀ e', is_Some (epochs !! e') → e' < v → e' <= e
  | None => ∀ e', is_Some (epochs !! e') → ¬ e' < v
  end.
Proof.
  unfold get_previous_epoch_ending. destruct (N.eqb_spec v 0) as [->|Hv]; [intros; lia|].
  set (l := filter _ (btree_iter epochs)).
  assert (∀ e' x, epochs !! e' = Some x → e' < v → (e', x) ∈ l) as Hin.
  { intros e' x Hx Hlt. apply list_elem_of_filter. split; [cbn; lia|]. by apply elem_of_btree_iter. }
  assert (StronglySorted N.le l.*1) as Hs.
  { clear Hin. subst l. pose proof (sorted_btree_iter epochs) as Hs. induction (btree_iter epochs) as [|e es IH]; [constructor|].
    cbn in Hs. apply StronglySorted_inv in Hs as [Hs He]. specialize (IH Hs). rewrite filter_cons.
    destruct (decide _); [|done]. cbn. constructor; [done|]. rewrite Forall_forall in *.
    intros y (z & -> & [_ Hz]%list_elem_of_filter)%list_elem_of_fmap. apply He, list_elem_of_fmap. by exists z. }
  destruct (last l) as [[e x]|] eqn:Hl.
  - split.
    + apply last_Some_elem_of in Hl. apply list_elem_of_filter in Hl as [Hl _]. cbn in Hl. lia.
    + intros e' [x' Hx'] Hlt. specialize (Hin e' x' Hx' Hlt). apply last_Some in Hl as [l' Hl'].
      rewrite Hl' in Hs, Hin. apply elem_of_app in Hin as [Hin|Hin].
      * rewrite fmap_app in Hs. eapply StronglySorted_app_1_elem_of; [exact Hs| |by left].
        apply list_elem_of_fmap. by exists (e', x').
      * apply list_elem_of_singleton in Hin. by simplify_eq.
  - apply last_None in Hl. intros e' [x' Hx'] Hlt. specialize (Hin e' x' Hx' Hlt). rewrite Hl in Hin. by apply elem_of_nil in Hin.
Qed.

(** The nodes the readers can serve *)
Definition served db h : store := map_imap (λ k _, (get_node_option db k).1) h.
Lemma lookup_served db h k : served db h !! k = h !! k ≫= λ _, (get_node_option db k).1.
Proof. unfold served. rewrite map_lookup_imap. by destruct (h !! k). Qed.
Lemma served_reader db h k n : served db h !! k = Some n → reader db k = Ok (Some n).
Proof. rewrite lookup_served. unfold reader. destruct (h !! k); [|done]. cbn. by intros ->. Qed.
Definition live_last h l (k : NodeKey) : Prop := match last l with Some x => live h x.1 k | None => False end.
Lemma served_last s written pending h k n :
  inv s written pending h → enable_cache (sys_db s) = true ∨ pending = [] →
  live_last h (written ++ pending) k → h !! k = Some n → (get_node_option (sys_db s) k).1 = Some n.
Proof.
  intros [Hh Ht _ Hc _ _] Hen Hl Hk.
  destruct (get_node_option_ok h (sys_db s) _ pending k Hc) as (_ & _ & Hget).
  { intros k' x Hx. by apply (t_nodes _ _ _ _ Ht). }
  apply Hget; [done|]. pose proof (h_version _ _ Hh k n Hk) as Hv. rewrite versions_app in Hv.
  apply elem_of_app in Hv as [Hv|Hv].
  2: { right. split; [|done]. destruct Hen as [|Hp]; [done|]. rewrite Hp in Hv. by apply elem_of_nil in Hv. }
  left. destruct (last written) as [x|] eqn:Hx.
  2: { apply last_None in Hx as ->. by apply elem_of_nil in Hv. }
  eapply last_readable; [done|done|exact Hx| |done]. unfold live_last in Hl.
  destruct (last (written ++ pending)) as [y|] eqn:Hy; [|done].
  assert (x.1 ∈ versions (written ++ pending)) as Hxin.
  { rewrite versions_app. apply elem_of_app. left. by apply last_version. }
  pose proof (sorted_last _ _ _ (h_sorted _ _ Hh) Hy Hxin) as Hle.
  destruct (decide (x.1 = y.1)) as [->|Hne]; [done|].
  eapply h_interval; [done|done|by apply last_version|lia|exact Hl|].
  eapply sorted_last; [by eapply sorted_left, h_sorted|done|done].
Qed.

(** A new snapshot [(v, m)]: the nodes it adds and the rows of the nodes it no longer uses. *)
Record extends h l (v : Version) (m : content) (new : list (NodeKey * Node K)) (stale : list StaleNodeIndex) : Prop := {
  x_NoDup : NoDup new.*1;
  x_version k : k ∈ new.*1 → nk_version k = v;
  x_at : jmt_at (overlay new h) v m;
  x_live k : live (overlay new h) v k ↔ k ∈ new.*1 ∨ (live_last h l k ∧ k ∉ stale_keys stale);
  x_stale r : r ∈ stale → stale_since_version r = v ∧ live_last h l (stale_node_key r);
}.
Lemma overlay_subseteq (new : list (NodeKey * Node K)) (s0 h : store) : s0 ⊆ h → overlay new s0 ⊆ overlay new h.
Proof. intros Hsub. unfold overlay. by apply map_union_mono_l. Qed.
Lemma merklize_put s written pending h value_set node_hashes v m' :
  inv s written pending h → enable_cache (sys_db s) = true ∨ pending = [] →
  Forall (λ x, hash_wf x.1) value_set → Forall (λ x, x.1 < v) (written ++ pending) →
  m' = updated v (updates_of value_set) (last_content (written ++ pending)) →
  cache_ok node_hashes [] m' → N.of_nat (size m') < 2 ^ 64 →
  ∃ batch,
    batch_put_value_set (reader (sys_db s)) value_set node_hashes (fst <$> last (written ++ pending)) v
      = Ok (smt_root (value_hashes m'), batch) ∧
    extends h (written ++ pending) v m' (batch_nodes batch) (batch_stale batch).
Proof.
  intros Hinv Hen Hwf Hv -> Hcache Hsize. pose proof Hinv as [Hh Ht _ Hc _ _].
  set (l := written ++ pending) in *. set (s0 := served (sys_db s) h). rewrite Forall_forall in Hv.
  assert (s0 ⊆ h) as Hsub.
  { apply map_subseteq_spec. intros k n Hk. unfold s0 in Hk. rewrite lookup_served in Hk. destruct (h !! k) eqn:Hk'; [|done].
    cbn in Hk. destruct (get_node_option_ok h (sys_db s) _ pending k Hc) as (_ & Hsound & _).
    - intros k' x Hx. by apply (t_nodes _ _ _ _ Ht).
    - by rewrite <- Hk', (Hsound n Hk). }
  assert (fresh v s0) as Hfresh.
  { intros k n Hk Heq. pose proof (h_version _ _ Hh _ _ (lookup_weaken _ _ _ _ Hk Hsub)) as Hkv.
    apply elem_of_versions in Hkv as (m & Hm). specialize (Hv _ Hm). cbn in Hv. lia. }
  assert (∀ x, last l = Some x → jmt_at s0 x.1 x.2 ∧ ∀ k, live s0 x.1 k ↔ live h x.1 k) as Hlast.
  { intros x Hx. apply jmt_at_keep.
    - apply (h_at _ _ Hh). destruct x. by apply last_Some_elem_of.
    - intros k n Hl Hk. unfold s0. rewrite lookup_served, Hk. cbn. eapply served_last; [done|done| |done].
      unfold live_last. fold l. by rewrite Hx. }
  assert (∀ k, live_opt s0 (fst <$> last l) k ↔ live_last h l k) as Hopt.
  { intros k. unfold live_last, live_opt. destruct (last l) as [x|] eqn:Hx; [|done]. cbn. by apply Hlast. }
  destruct (batch_put_value_set_run s0 v node_hashes Hfresh (reader (sys_db s)) (served_reader (sys_db s) h) value_set
    (fst <$> last l) (last_content l)) as (batch & Hrun & Hp); [done| |done|done|].
  { unfold last_content. destruct (last l) as [x|] eqn:Hx; [|done]. cbn. by apply Hlast. }
  exists batch. split; [done|]. constructor.
  - by eapply pr_NoDup.
  - by eapply pr_version.
  - eapply jmt_at_mono; [by apply overlay_subseteq|by eapply pr_at].
  - intros k. rewrite <- Hopt, <- (pr_live _ _ _ _ _ _ Hp). eapply live_mono; [by apply overlay_subseteq|by eapply pr_at].
  - intros r Hr. rewrite <- Hopt. pose proof (pr_stale _ _ _ _ _ _ Hp) as Hs. rewrite Forall_forall in Hs. by apply Hs.
Qed.

Section extend.
Context (h : store) (l : log) (v : Version) (m : content) (new : list (NodeKey * Node K)) (stale : list StaleNodeIndex).
Context (Hh : history_ok h l) (Hv : Forall (λ x, x.1 < v) l) (Hx : extends h l v m new stale).

Lemma extend_lt w : w ∈ versions l → w < v.
Proof. intros (y & Hy)%elem_of_versions. rewrite Forall_forall in Hv. by apply (Hv (w, y)). Qed.
Lemma extend_old k n : nk_version k ≠ v → overlay new h !! k = Some n ↔ h !! k = Some n.
Proof.
  intros Hk. unfold overlay. rewrite lookup_union_r; [done|]. apply not_elem_of_list_to_map_1. intros Hin.
  by apply Hk, (x_version _ _ _ _ _ _ Hx).
Qed.
Lemma extend_sub : h ⊆ overlay new h.
Proof.
  apply map_subseteq_spec. intros k n Hk. apply extend_old; [|done]. intros Heq.
  apply (h_version _ _ Hh), extend_lt in Hk. lia.
Qed.
Lemma extend_new k n : (k, n) ∈ new ↔ overlay new h !! k = Some n ∧ nk_version k = v.
Proof.
  split.
  - intros Hk. split; [apply overlay_new; [apply (x_NoDup _ _ _ _ _ _ Hx)|done]|].
    apply (x_version _ _ _ _ _ _ Hx), list_elem_of_fmap. by exists (k, n).
  - intros [[Hk|Hk]%lookup_overlay Heq]; [done|]. apply (h_version _ _ Hh), extend_lt in Hk. lia.
Qed.
Lemma extend_live w k : w ∈ versions l → live (overlay new h) w k ↔ live h w k.
Proof. intros (y & Hy)%elem_of_versions. eapply live_mono; [apply extend_sub|by eapply h_at]. Qed.
Lemma extend_last k : live_last h l k → ∃ x, last l = Some x ∧ live h x.1 k ∧ nk_version k <= x.1.
Proof.
  unfold live_last. destruct (last l) as [x|] eqn:Hl; [|done]. intros Hk. exists x. split_and!; [done|done|].
  eapply h_past; [done|by apply last_version|done].
Qed.
Lemma history_extend : history_ok (overlay new h) (l ++ [(v, m)]).
Proof.
  assert (∀ w, w ∈ versions (l ++ [(v, m)]) ↔ w ∈ versions l ∨ w = v) as Hvs.
  { intros w. rewrite versions_app, elem_of_app. cbn. by rewrite list_elem_of_singleton. }
  constructor.
  - rewrite versions_app. apply StronglySorted_app_2; [|apply (h_sorted _ _ Hh)|repeat constructor].
    intros w w' Hw Hw'. cbn in Hw'. apply list_elem_of_singleton in Hw' as ->. by apply extend_lt.
  - intros w y [Hy|Hy]%elem_of_app.
    + eapply jmt_at_mono; [apply extend_sub|by eapply h_at].
    + apply list_elem_of_singleton in Hy as [= -> ->]. by eapply x_at.
  - intros k n Hk. apply Hvs. destruct (decide (nk_version k = v)) as [|Hne]; [by right|left].
    apply (h_version _ _ Hh k n). by apply extend_old in Hk.
  - intros k n Hk. destruct (decide (nk_version k = v)) as [Heq|Hne].
    + rewrite Heq. apply (x_live _ _ _ _ _ _ Hx). left. apply list_elem_of_fmap. exists (k, n). split; [done|]. by apply extend_new.
    + apply extend_old in Hk; [|done]. apply extend_live; [by eapply h_version|by eapply h_born].
  - intros w k [Hw| ->]%Hvs.
    + rewrite extend_live by done. by apply (h_past _ _ Hh).
    + intros [Hk|[Hk _]]%(x_live _ _ _ _ _ _ Hx); [by rewrite (x_version _ _ _ _ _ _ Hx k Hk)|].
      destruct (extend_last k Hk) as (x & Hl & _ & Hle). pose proof (extend_lt _ (last_version _ _ Hl)). lia.
  - intros w w' k [Hw| ->]%Hvs [Hw'| ->]%Hvs Hlt Hl Hle; [| |by apply extend_lt in Hw'; lia|lia].
    + rewrite extend_live in * by done. by eapply (h_interval _ _ Hh).
    + rewrite extend_live by done. apply (x_live _ _ _ _ _ _ Hx) in Hl as [Hk|[Hk _]].
      * apply (x_version _ _ _ _ _ _ Hx) in Hk. lia.
      * destruct (extend_last k Hk) as (x & Hx' & Hlx & _).
        pose proof (sorted_last _ _ _ (h_sorted _ _ Hh) Hx' Hw) as Hwx.
        destruct (decide (w = x.1)) as [->|Hne]; [done|].
        eapply (h_interval _ _ Hh); [done|by apply last_version|lia|done|done].
Qed.

(** The new snapshot next to the tables, the caches and the batches of the others *)
Lemma extend_row epochs sc w k :
  w ∈ versions l → stale_row h epochs l sc w k → stale_row (overlay new h) epochs (l ++ [(v, m)]) sc w k.
Proof.
  intros Hw Hr. eapply stale_row_grow; [|eapply stale_row_live; [|exact Hr]].
  - intros w' Hw'. rewrite versions_app. apply elem_of_app. by left.
  - intros k'. by apply extend_live.
Qed.
Lemma extend_tables epochs t written pending :
  l = written ++ pending → tables_ok h epochs t written → tables_ok (overlay new h) epochs t written.
Proof.
  intros Hl. assert (∀ w, w ∈ versions written → w ∈ versions l) as Hin.
  { intros w Hw. rewrite Hl, versions_app. apply elem_of_app. by left. }
  apply tables_change.
  - intros k n Hk. apply extend_old. apply Hin, extend_lt in Hk. lia.
  - intros w k Hw. by apply extend_live, Hin.
Qed.
Lemma extend_batch epochs usages b x :
  x ∈ l → batch_ok h epochs usages l b x → batch_ok (overlay new h) epochs usages (l ++ [(v, m)]) b x.
Proof.
  intros Hin [H1 H2 (bnew & rows & H3 & H4 & H5 & H6 & H7)].
  assert (x.1 ∈ versions l) as Hxl by (apply list_elem_of_fmap; by exists x).
  pose proof (extend_lt _ Hxl) as Hlt. constructor; [done|done|]. exists bnew, rows. split_and!; [done|done| | |].
  - intros k n. rewrite H5. split; intros [Hk Hkv]; (split; [|done]); (apply extend_old; [lia|done]) ||
      (apply extend_old in Hk; [done|lia]).
  - intros sc i Hi. destruct (H6 sc i Hi). split; [done|]. by apply extend_row.
  - intros w k Hw Hwx Hmax Hl. rewrite versions_app in Hw. apply elem_of_app in Hw as [Hw|Hw].
    2: { cbn in Hw. apply list_elem_of_singleton in Hw. lia. }
    rewrite extend_live in * by done. apply (H7 w k); [done|done| |done].
    intros w' Hw'. apply Hmax. rewrite versions_app. apply elem_of_app. by left.
Qed.
Lemma extend_stale_row epochs prev r :
  prev = fst <$> get_previous_epoch_ending epochs v → r ∈ stale →
  stale_since_version r = v ∧
  stale_row (overlay new h) epochs (l ++ [(v, m)]) (stale_schema prev r) v (stale_node_key r).
Proof.
  intros -> Hr. destruct (x_stale _ _ _ _ _ _ Hx r Hr) as [Hs Hl]. split; [done|].
  destruct (extend_last _ Hl) as (y & Hy & Hly & Hle). pose proof (extend_lt _ (last_version _ _ Hy)) as Hlt.
  assert (jmt_at h y.1 y.2) as Hat by (apply (h_at _ _ Hh); destruct y; by apply last_Some_elem_of).
  destruct (live_stored _ _ _ _ Hat Hly) as [n Hn]. constructor.
  - rewrite versions_app. apply elem_of_app. right. by left.
  - lia.
  - rewrite versions_app. apply elem_of_app. left. by eapply h_version.
  - intros [Hk|[_ Hk]]%(x_live _ _ _ _ _ _ Hx).
    + apply (x_version _ _ _ _ _ _ Hx) in Hk. lia.
    + apply Hk, list_elem_of_fmap. by exists r.
  - unfold stale_schema. pose proof (previous_epoch_ending_spec epochs v) as Hp. intros Hsc e He Hev.
    destruct (get_previous_epoch_ending epochs v) as [[p ?]|]; cbn in Hsc; [|by destruct (Hp e He)].
    destruct Hp as [_ Hp]. specialize (Hp e He Hev). destruct (N.leb_spec (nk_version (stale_node_key r)) p); [done|lia].
Qed.
Lemma extend_new_batch epochs usages root usage u prev :
  usages !! v = Some u → usage_items u = N.of_nat (size m) → (usage = Untracked ∨ usage = u) →
  prev = fst <$> get_previous_epoch_ending epochs v →
  batch_ok (overlay new h) epochs usages (l ++ [(v, m)])
    (mkStateMerkleBatch (((λ e, PutNode e.1 e.2) <$> new) ++ ((λ r, PutIndex (stale_schema prev r) r) <$> stale)) root v usage)
    (v, m).
Proof.
  intros Hu Hitems Husage ->. constructor; [done|by exists u|]. set (prev := fst <$> _).
  exists new, ((λ r, (stale_schema prev r, r)) <$> stale). cbn [smb_batch fst].
  assert (v ∈ versions (l ++ [(v, m)])) as Hvin by (rewrite versions_app; apply elem_of_app; right; by left).
  split_and!.
  - by rewrite <- list_fmap_compose.
  - by eapply x_NoDup.
  - intros k n. apply extend_new.
  - intros sc i (r & [= -> ->] & Hr)%list_elem_of_fmap. by apply extend_stale_row.
  - intros w k Hw Hwv Hmax Hl. rewrite versions_app in Hw. apply elem_of_app in Hw as [Hw|Hw].
    2: { cbn in Hw. apply list_elem_of_singleton in Hw. lia. }
    rewrite extend_live in Hl by done.
    assert (live_last h l k) as Hll.
    { unfold live_last. destruct (last l) as [y|] eqn:Hy.
      - assert (y.1 = w) as ->; [|done]. apply N.le_antisymm; [|by eapply sorted_last; [apply (h_sorted _ _ Hh)|..]].
        apply Hmax; [|by apply extend_lt, last_version]. rewrite versions_app. apply elem_of_app. left. by apply last_version.
      - apply last_None in Hy. rewrite Hy in Hw. by apply elem_of_nil in Hw. }
    destruct (decide (k ∈ stale_keys stale)) as [Hs|Hs].
    + right. apply list_elem_of_fmap in Hs as (r & -> & Hr). exists (stale_schema prev r).
      apply list_elem_of_fmap. exists r. split; [|done]. f_equal. destruct (x_stale _ _ _ _ _ _ Hx r Hr) as [<- _]. by destruct r.
    + left. apply (x_live _ _ _ _ _ _ Hx). by right.
Qed.
End extend.

Lemma Forall2_impl_r {A B} (P Q : A → B → Prop) xs ys :
  Forall2 P xs ys → (∀ x y, y ∈ ys → P x y → Q x y) → Forall2 Q xs ys.
Proof.
  induction 1 as [|x y xs ys Hxy _ IH]; intros HPQ; constructor; [apply HPQ; [by left|done]|].
  apply IH. intros x' y' Hy'. apply HPQ. by right.
Qed.
Lemma add_version_run {E} (cl : list (Version * gmap NodeKey (Node K))) v c :
  (∀ w, w ∈ cl.*1 → w < v) → add_version (E := E) cl v c = Ok (cl ++ [(v, c)]).
Proof.
  intros Hlt. unfold add_version. destruct (last cl) as [[w c']|] eqn:Hl; [|done].
  rewrite (proj2 (N.ltb_lt w v)); [done|]. apply Hlt, list_elem_of_fmap. exists (w, c'). split; [done|]. by apply last_Some_elem_of.
Qed.
Lemma extend_caches h l v m new stale db pending :
  history_ok h l → Forall (λ x, x.1 < v) l → extends h l v m new stale → caches_ok h db l pending →
  caches_ok (overlay new h)
    (mkStateMerkleDb (sm_db db) (enable_cache db)
       (if enable_cache db then version_cache db ++ [(v, list_to_map (reverse new))] else version_cache db) (lru_cache db))
    (l ++ [(v, m)]) (pending ++ [(v, m)]).
Proof.
  intros Hh Hv Hx [H1 H2 H3 H4].
  assert (∀ w, w ∈ (version_cache db).*1 → w < v) as Hlt.
  { intros w (e & -> & He)%list_elem_of_fmap. destruct e as [w c]. destruct (H2 w c He) as [Hw _]. by eapply extend_lt. }
  assert (∀ w c, (w, c) ∈ version_cache db → w ∈ versions (l ++ [(v, m)]) ∧
    ∀ k n, c !! k = Some n ↔ overlay new h !! k = Some n ∧ nk_version k = w) as Hold.
  { intros w c He. destruct (H2 w c He) as [Hw Hc]. rewrite versions_app. split; [apply elem_of_app; by left|].
    pose proof (extend_lt l v Hv w Hw) as Hwv. intros k n. rewrite Hc. split; intros [Hk Hkw]; (split; [|done]).
    - apply (extend_old h l v m new stale Hx); [lia|done].
    - apply (extend_old h l v m new stale Hx) in Hk; [done|lia]. }
  constructor; cbn [version_cache enable_cache lru_cache].
  - destruct (enable_cache db); [|done]. rewrite fmap_app. apply StronglySorted_app_2; [|done|repeat constructor].
    intros w w' Hw Hw'. cbn in Hw'. apply list_elem_of_singleton in Hw' as ->. by apply Hlt.
  - intros w c He. destruct (enable_cache db); [|by apply Hold]. apply elem_of_app in He as [He|He]; [by apply Hold|].
    apply list_elem_of_singleton in He as [= -> ->]. split; [rewrite versions_app; apply elem_of_app; right; by left|].
    intros k n. rewrite <- (extend_new h l v m new stale Hh Hv Hx), <- elem_of_list_to_map, elem_of_reverse; [done|].
    rewrite fmap_reverse, reverse_Permutation. by eapply x_NoDup.
  - intros w Hen Hw. rewrite Hen. rewrite fmap_app, elem_of_app. rewrite versions_app in Hw.
    apply elem_of_app in Hw as [Hw|Hw]; [left; by apply H3|by right].
  - intros i p w n Hp. eapply lookup_weaken; [by eapply H4|by eapply extend_sub].
Qed.
Lemma inv_merklize s written pending h value_set node_hashes v usage u m' :
  inv s written pending h → sys_outbox s = None →
  Forall (λ x, hash_wf x.1) value_set → Forall (λ x, x.1 < v) (written ++ pending) →
  m' = updated v (updates_of value_set) (last_content (written ++ pending)) →
  cache_ok node_hashes [] m' → N.of_nat (size m') < 2 ^ 64 →
  enable_cache (sys_db s) = true ∨ pending = [] →
  sys_usages s !! v = Some u → usage_items u = N.of_nat (size m') → usage = Untracked ∨ usage = u →
  ∃ s', merklize_step s value_set node_hashes v (fst <$> last (written ++ pending)) usage = Ok s' ∧
    (∃ b, sys_outbox s' = Some b ∧ smb_version b = v ∧ smb_root_hash b = smt_root (value_hashes m')) ∧
    ∃ h', inv s' written (pending ++ [(v, m')]) h'.
Proof.
  intros Hinv Hout Hwf Hv Hm Hcache Hsize Hen Hu Hitems Husage.
  destruct (merklize_put s written pending h value_set node_hashes v m') as (batch & Hrun & Hx); [done..|].
  destruct Hinv as [Hh Ht Hms Hc Hbs Hcm]. unfold merklize_step, merklize_value_set. rewrite Hrun. run_ok.
  assert ((if enable_cache (sys_db s)
           then add_version (version_cache (sys_db s)) v (list_to_map (reverse (concat (node_batch batch))))
           else Ok (version_cache (sys_db s)) : outcome anyhow _)
          = Ok (if enable_cache (sys_db s)
                then version_cache (sys_db s) ++ [(v, list_to_map (reverse (batch_nodes batch)))]
                else version_cache (sys_db s))) as ->.
  { destruct (enable_cache (sys_db s)); [|done]. apply add_version_run. intros w (e & -> & He)%list_elem_of_fmap.
    destruct e as [w c]. destruct (c_entries _ _ _ _ Hc w c He) as [Hw _]. by eapply extend_lt. }
  run_ok. eexists. split; [done|]. split; [by eexists|]. exists (overlay (batch_nodes batch) h).
  constructor; cbn [sys_db sys_managers sys_epochs sys_usages sys_committer sm_db]; [| |done| | |done].
  - rewrite app_assoc. by eapply history_extend.
  - eapply extend_tables; [exact Hh|exact Hv|exact Hx|done|done].
  - rewrite app_assoc. by eapply extend_caches.
  - unfold pending_batches. cbn [sys_outbox sys_committer]. rewrite app_assoc. apply Forall2_app.
    + unfold pending_batches in Hbs. rewrite Hout, app_nil_r in Hbs.
      eapply Forall2_impl_r; [exact Hbs|]. intros b x Hin. apply (extend_batch _ _ _ _ _ _ Hh Hv Hx).
      apply elem_of_app. by right.
    + constructor; [|constructor]. unfold batch_rows. by eapply extend_new_batch.
Qed.

(** ** Every reachable state *)

Lemma system_step_ok s written pending h e written' pending' r :
  inv s written pending h → allowed s written pending e written' pending' → exec e s = Some r →
  ∃ s' h', r = Ok s' ∧ inv s' written' pending' h'.
Proof.
  intros Hinv Hall. destruct Hall as [vs nh v usage u m' Hwf Hv Hm Hca Hsz Hen Hu Hit Hus| |x pending' ->| | |k|sc|v ep usage He Hu|cfg n Hb];
    cbn [exec].
  - destruct (sys_outbox s) eqn:Hout; [done|]. intros [= <-].
    destruct (inv_merklize s written pending h vs nh v usage u m') as (s' & -> & _ & h' & ?); [done..|]. eauto.
  - destruct (sys_outbox s) eqn:Hout; [|done]. destruct (sys_committer s) eqn:Hc; try done. intros [= <-].
    eexists _, h. split; [done|]. by eapply inv_receive.
  - destruct (sys_committer s) eqn:Hc; try done. intros [= <-].
    destruct (inv_write _ _ _ _ _ _ Hinv Hc) as (s' & -> & ?). eauto.
  - destruct (sys_committer s) eqn:Hc; try done. intros [= <-]. eexists _, h. split; [done|]. by apply inv_evict.
  - destruct (sys_committer s) eqn:Hc; try done. intros [= <-]. destruct (inv_finish _ _ _ _ _ Hinv Hc) as (s' & -> & ?). eauto.
  - intros [= <-]. eexists _, h. split; [done|]. by eapply inv_read.
  - destruct (pruner_enabled _); [|done]. intros [= <-]. destruct (inv_prune _ _ _ _ sc Hinv) as (s' & -> & ?). eauto.
  - intros [= <-]. eexists _, h. split; [done|]. destruct ep as [epoch|]; [|by eapply inv_usage].
    eapply inv_usage; [eapply (inv_epoch s _ _ _ v epoch); [done|by apply He|done]|done|done].
  - intros [= <-]. destruct (inv_restart _ _ _ _ cfg n Hinv Hb) as [h' ?]. eauto.
Qed.
Lemma reachable_inv s written pending : reachable s written pending → ∃ h, inv s written pending h.
Proof.
  induction 1 as [config n Hb|s written pending e s' written' pending' _ [h Hinv] Hall He].
  - exists ∅. by apply inv_open.
  - destruct (system_step_ok _ _ _ _ _ _ _ _ Hinv Hall He) as (s'' & h' & [= ->] & ?). eauto.
Qed.

(** A readable snapshot in what the readers serve, and in the tables. *)
Lemma readable_at s written pending h v m :
  inv s written pending h → (v, m) ∈ written → readable s v →
  jmt_at (served (sys_db s) h) v m ∧ jmt_at (tb_nodes (sm_db (sys_db s))) v m.
Proof.
  intros [Hh Ht _ Hc _ _] Hvm [Hcross Hstate].
  assert (v ∈ versions written) as Hv by (apply elem_of_versions; eauto).
  assert (jmt_at h v m) as Hat by (apply (h_at _ _ Hh), elem_of_app; by left).
  assert (∀ k n, live h v k → h !! k = Some n → tb_nodes (sm_db (sys_db s)) !! k = Some n) as Hnodes.
  { intros k n. by eapply readable_nodes. }
  split; eapply jmt_at_keep; [done| |done|done]. intros k n Hl Hk. rewrite lookup_served, Hk. cbn.
  destruct (get_node_option_ok h (sys_db s) _ pending k Hc) as (_ & _ & Hget).
  { intros k' x Hx. by apply (t_nodes _ _ _ _ Ht). }
  apply Hget; [done|]. left. by apply Hnodes.
Qed.

(** C25: Committed state snapshots stay readable. In every state the threads can reach, whatever their
    interleaving and however often the node restarts, every committed snapshot at or above the progress of
    the epoch snapshot pruner that is also at or above the progress of the state pruner, or ends an epoch, can
    be read through the caches: each key gives what the snapshot holds, with a proof that verifies against the
    root hash of the snapshot. *)
Theorem committed_snapshots_readable s written pending v m key :
  reachable s written pending → (v, m) ∈ written → readable s v →
  ∃ proof,
    get_with_proof (reader (sys_db s)) key v = Ok (m !! key, proof) ∧
    get_root_hash (reader (sys_db s)) v = Ok (smt_root (value_hashes m)) ∧
    verify_by_hash proof (smt_root (value_hashes m)) key (fst <$> m !! key) = Ok tt.
Proof.
  intros [h Hinv]%reachable_inv Hvm Hr. destruct (readable_at _ _ _ _ _ _ Hinv Hvm Hr) as [Hat _].
  by apply (get_with_proof_run (served (sys_db s) h) (reader (sys_db s)) (served_reader (sys_db s) h)).
Qed.


(** ** What the pruners remove *)

Lemma work_tables h epochs written schema batch_size n p t p' t' :
  batch_size ≠ 0%nat → StronglySorted N.lt (versions written) → pruner_ok schema p t → tables_ok h epochs t written →
  work n p t schema batch_size = Ok (p', t') → tables_ok h epochs t' written.
Proof.
  intros Hb Hs. revert p t. induction n as [|n IH]; intros p t Hok Ht; cbn [work]; [by intros [= _ <-]|].
  destruct (pruner_ok_run p t schema batch_size Hb Hok) as (p1 & t1 & ls & -> & Hps). run_ok.
  apply IH; [by eapply prune_step_ok|by eapply prune_tables].
Qed.
Lemma last_at_tables h epochs t written pending x :
  history_ok h (written ++ pending) → tables_ok h epochs t written → last written = Some x →
  jmt_at (tb_nodes t) x.1 x.2 ∧ ∀ k, live (tb_nodes t) x.1 k ↔ live h x.1 k.
Proof.
  intros Hh Ht Hx. apply jmt_at_keep.
  - apply (h_at _ _ Hh), elem_of_app. left. destruct x. by apply last_Some_elem_of.
  - intros k n. by eapply last_readable.
Qed.

(** C27: Pruning finishes, removes everything that is due and nothing else, and leaks nothing. In every
    reachable state, with more rounds than its index has rows, a worker becomes idle. Then exactly the rows with a
    version up to its target are gone from its index, exactly the nodes they named are gone, and every node
    that is left belongs to the last snapshot or has a row, in this index with a version beyond the target or in
    the other one. *)
Theorem pruning_completes s written pending schema n :
  reachable s written pending →
  let m := sys_managers s schema in
  let t := sm_db (sys_db s) in
  (size (tb_stale t schema) < n)%nat →
  ∃ p' t', work n (pm_pruner m) t schema (max_node_to_prune_per_batch m) = Ok (p', t') ∧
    is_pruning_pending p' = false ∧ pruned_to schema (target_version (pm_pruner m)) t t' ∧
    ∀ k nd, tb_nodes t' !! k = Some nd →
      (∃ x, last written = Some x ∧ live (tb_nodes t') x.1 k) ∨
      ∃ sc v, mkStaleNodeIndex v k ∈ tb_stale t' sc ∧ (sc = schema → target_version (pm_pruner m) < v).
Proof.
  intros [h [Hh Ht [Hok _ _ Hb] _ _ _]]%reachable_inv m t Hn.
  destruct (work_run n (pm_pruner m) t schema (max_node_to_prune_per_batch m) (Hb schema) (Hok schema) Hn)
    as (p' & t' & Hrun & Hp & _ & _ & Hpt).
  assert (tables_ok h (sys_epochs s) t' written) as Ht'.
  { eapply work_tables; [apply Hb|by eapply sorted_left, h_sorted|apply Hok|exact Ht|exact Hrun]. }
  exists p', t'. split_and!; [done..|]. intros k nd Hk. destruct (last written) as [x|] eqn:Hx.
  - destruct (t_listed _ _ _ _ Ht' k nd x Hk Hx) as [Hl|(sc & v & Hi)]; [left|right].
    + exists x. split; [done|]. by apply (last_at_tables _ _ _ _ _ _ Hh Ht' Hx).
    + exists sc, v. split; [done|]. intros ->. apply (pt_stale _ _ _ _ Hpt) in Hi as [_ Hi].
      apply N.nle_gt. intros Hle. by apply Hi.
  - apply last_None in Hx as ->. destruct (t_nodes _ _ _ _ Ht' k nd Hk) as [_ Hv]. by apply elem_of_nil in Hv.
Qed.

(** ** Restarting *)

Lemma node_key_le_version k k' : node_key_le k k' = true → nk_version k <= nk_version k'.
Proof.
  unfold node_key_le, node_key_compare. destruct (N.compare_spec (nk_version k) (nk_version k')); [lia|lia|done].
Qed.
Lemma node_key_gt_version k k' : node_key_le k k' = false → nk_version k' <= nk_version k.
Proof.
  unfold node_key_le, node_key_compare. destruct (N.compare_spec (nk_version k) (nk_version k')); [lia|done|lia].
Qed.
Lemma last_key_upto_spec t bound :
  (∀ b, last_key_upto t bound = Some b → is_Some (tb_nodes t !! b)) ∧
  ∀ k, is_Some (tb_nodes t !! k) → node_key_le k bound = true →
    ∃ b, last_key_upto t bound = Some b ∧ nk_version k <= nk_version b.
Proof.
  unfold last_key_upto.
  assert (∀ k, k ∈ (map_to_list (tb_nodes t)).*1 ↔ is_Some (tb_nodes t !! k)) as Hin.
  { intros k. rewrite list_elem_of_fmap. split.
    - intros ([k0 x] & -> & Hx%elem_of_map_to_list). by exists x.
    - intros [x Hx]. exists (k, x). split; [done|]. by apply elem_of_map_to_list. }
  setoid_rewrite <- Hin. clear Hin. generalize (map_to_list (tb_nodes t)).*1. intros ks.
  induction ks as [|k0 ks [IH1 IH2]]; cbn [foldr].
  { split; [done|]. by intros k Hk%elem_of_nil. }
  destruct (foldr _ None ks) as [b|].
  - specialize (IH1 b eq_refl). destruct (node_key_le k0 bound && node_key_le b k0) eqn:Hc.
    + apply andb_true_iff in Hc as [Hb0 Hbk%node_key_le_version]. split; [intros ? [= <-]; by left|].
      intros k [->|Hk]%elem_of_cons Hle; exists k0; (split; [done|]); [lia|].
      destruct (IH2 k Hk Hle) as (? & [= <-] & ?). lia.
    + split; [intros ? [= <-]; by right|]. intros k [->|Hk]%elem_of_cons Hle; [|by apply IH2].
      exists b. split; [done|]. rewrite Hle in Hc. by apply node_key_gt_version.
  - rewrite andb_true_r. destruct (node_key_le k0 bound) eqn:Hb0.
    + split; [intros ? [= <-]; by left|]. intros k [->|Hk]%elem_of_cons Hle; exists k0; (split; [done|]); [lia|].
      by destruct (IH2 k Hk Hle) as (? & ? & _).
    + split; [done|]. intros k [->|Hk]%elem_of_cons Hle; [congruence|by apply IH2].
Qed.
Lemma root_key_le v v' : v <= v' → node_key_le (new_empty_path v) (new_empty_path v') = true.
Proof. intros Hle. unfold node_key_le, node_key_compare. cbn. by destruct (N.compare_spec v v'); [|lia..]. Qed.

(** A restart resumes from the last committed snapshot. When the database is opened again, the snapshot
    the buffered state starts from is the last one written, whatever was pending when the node stopped, its root
    hash is that of its contents, and there is none exactly when none was written. *)
Theorem restart_finds_last_snapshot s written pending config n num_transactions :
  reachable s written pending → Forall (λ x, x.1 < num_transactions) written →
  let s' := open_system (sm_db (sys_db s)) (sys_epochs s) (sys_usages s) config n in
  exec (ERestart config n) s = Some (Ok s') ∧
  get_state_snapshot_version_before (sm_db (sys_db s')) num_transactions = fst <$> last written ∧
  ∀ v m, last written = Some (v, m) → get_root_hash (reader (sys_db s')) v = Ok (smt_root (value_hashes m)) ∧
    get_leaf_count (reader (sys_db s')) v = Ok (N.of_nat (size m)).
Proof.
  intros [h [Hh Ht _ _ _ _]]%reachable_inv Hnum s'. split; [done|].
  change (sm_db (sys_db s')) with (sm_db (sys_db s)). set (t := sm_db (sys_db s)) in *.
  assert (∀ k nd, tb_nodes t !! k = Some nd → reader (sys_db s') k = Ok (Some nd)) as Hserves.
  { intros k nd Hk. unfold reader. destruct (get_node_option_ok h (sys_db s') (written ++ pending) [] k) as (_ & _ & Hget).
    - apply caches_new.
    - intros k' x Hx. by apply (t_nodes _ _ _ _ Ht).
    - rewrite (Hget nd); [done| |by left]. by apply (t_nodes _ _ _ _ Ht). }
  unfold get_state_snapshot_version_before. destruct (last written) as [x|] eqn:Hx.
  - destruct (last_at_tables _ _ _ _ _ _ Hh Ht Hx) as [Hat _]. split.
    + pose proof (last_version _ _ Hx) as Hxv. apply elem_of_versions in Hxv as (m & Hm).
      rewrite Forall_forall in Hnum. specialize (Hnum _ Hm). cbn in Hnum.
      rewrite (proj2 (N.ltb_lt 0 num_transactions)) by lia.
      destruct (last_key_upto_spec t (new_empty_path (num_transactions - 1))) as [Hst Hmax].
      destruct (Hmax (new_empty_path x.1)) as (b & Hb & Hle); [|apply root_key_le; lia|].
      { destruct Hat as (nd & ? & _). by exists nd. }
      rewrite Hb. cbn. f_equal. destruct (Hst b Hb) as [nd Hnd]. destruct (t_nodes _ _ _ _ Ht b nd Hnd) as [_ Hbv].
      pose proof (sorted_last _ _ _ (sorted_left _ _ (h_sorted _ _ Hh)) Hx Hbv). cbn in Hle. lia.
    + intros v m [= ->]. cbn [fst snd] in Hat. split; [by apply (get_root_hash_run (tb_nodes t) _ Hserves)|].
      pose proof Hat as (nd & Hnd & _). unfold get_leaf_count, get_root_node, get_root_node_option.
      rewrite (Hserves _ _ Hnd). run_ok. f_equal. by eapply root_leaf_count.
  - split; [|done]. destruct (0 <? num_transactions); [|done].
    destruct (last_key_upto t _) as [b|] eqn:Hb; [|done]. destruct (last_key_upto_spec t (new_empty_path (num_transactions - 1))) as [Hst _].
    destruct (Hst b Hb) as [nd Hnd]. destruct (t_nodes _ _ _ _ Ht b nd Hnd) as [_ Hbv].
    apply last_None in Hx as ->. by apply elem_of_nil in Hbv.
Qed.

(** ** Where the pruners' bookkeeping misleads *)

Lemma fetch_none target iter steps :
  Forall (λ i, target < stale_since_version i) iter → fetch_indices steps target iter = [].
Proof.
  intros Hall. destruct steps, iter as [|i iter]; [done..|]. apply Forall_cons in Hall as [Hi _]. cbn.
  by rewrite (proj2 (N.leb_gt _ _)).
Qed.

(** C40: After a restart the check that refuses pruned versions refuses nothing. A pruner that had made progress
    starts with the target zero, so its first round finds no row and records version zero as the least readable
    one, although the rows and nodes before its stored progress are gone. Until the next snapshot is committed
    [error_if_state_merkle_pruned] then accepts every version. *)
Theorem restart_forgets_progress s written pending config n :
  reachable s written pending →
  (∀ schema, cfg_batch_size (config schema) ≠ 0%nat) → cfg_enable (config StaleNodeIndexSchema) = true →
  0 < progress_of (sm_db (sys_db s)) StaleNodeIndexSchema →
  let s' := open_system (sm_db (sys_db s)) (sys_epochs s) (sys_usages s) config n in
  min_readable_version (pm_pruner (sys_managers s' StaleNodeIndexSchema))
    = progress_of (sm_db (sys_db s)) StaleNodeIndexSchema ∧
  ∃ s'', exec (EPrune StaleNodeIndexSchema) s' = Some (Ok s'') ∧
    sm_db (sys_db s'') = sm_db (sys_db s) ∧
    min_readable_version (pm_pruner (sys_managers s'' StaleNodeIndexSchema)) = 0 ∧
    ∀ v, error_if_state_merkle_pruned (sys_epochs s'') (sys_managers s'') v = Ok tt.
Proof.
  intros [h [Hh Ht _ _ _ _]]%reachable_inv Hb Hen Hpos s'. split; [done|].
  set (t := sm_db (sys_db s)) in *. set (p := state_merkle_pruner_new t StaleNodeIndexSchema).
  assert (prune p t StaleNodeIndexSchema (cfg_batch_size (config StaleNodeIndexSchema))
    = Ok (0, record_progress_impl p 0 true, t)) as Hprune.
  { unfold prune, is_pruning_pending. cbn [progress snd p state_merkle_pruner_new record_progress_impl]. rewrite orb_true_r.
    cbn [negb]. unfold prune_state_merkle. rewrite (proj2 (Nat.eqb_neq _ 0)) by apply Hb. run_ok.
    unfold get_stale_node_indices. rewrite fetch_none; [done|]. apply Forall_forall. intros i.
    rewrite elem_of_iter_from. intros [_ Hi]. cbn in Hi. unfold initialize_min_readable_version in Hi.
    unfold progress_of in Hpos. change (target_version p) with 0. lia. }
  eexists. split.
  - cbn [exec]. change (pruner_enabled (sys_managers s' StaleNodeIndexSchema)) with (cfg_enable (config StaleNodeIndexSchema)).
    rewrite Hen. unfold prune_round. cbn [s' open_system sys_managers state_pruner_manager_new pm_pruner sys_db
      state_merkle_db_new sm_db max_node_to_prune_per_batch]. fold p. rewrite Hprune. done.
  - cbn [sys_db sys_managers with_tables sm_db]. rewrite fn_lookup_insert. split; [done|]. split; [done|].
    intros v. unfold error_if_state_merkle_pruned. rewrite fn_lookup_insert. cbn. by rewrite (proj2 (N.leb_le 0 v)) by lia.
Qed.

(** [prune_genesis] cannot do what it says. When the index of the epoch snapshot pruner has a row due at
    version one, it adds the deletion of one node, and never of more, to the batch it is given; that batch goes to the
    ledger database, which has no column family for the nodes of the state tree, and is refused as a whole. *)
Theorem prune_genesis_batch_refused t batch i :
  i ∈ tb_stale t StaleNodeIndexCrossEpochSchema → progress_of t StaleNodeIndexCrossEpochSchema <= stale_since_version i <= 1 →
  ∃ j, prune_genesis t batch
         = Ok (batch ++ [DeleteNode (stale_node_key j); DeleteIndex StaleNodeIndexCrossEpochSchema j]) ∧
    j ∈ tb_stale t StaleNodeIndexCrossEpochSchema ∧
    ∃ e, ∀ t', write_schemas ledger_db_column_families
                 (batch ++ [DeleteNode (stale_node_key j); DeleteIndex StaleNodeIndexCrossEpochSchema j]) t' = Err e.
Proof.
  intros Hi Hv. unfold prune_genesis. set (p := set_target_version _ 1). unfold prune_state_merkle. cbn [Nat.eqb negb]. run_ok.
  destruct (get_stale_node_indices _ _ _ _ _) as [l b] eqn:Hget.
  apply get_stale_node_indices_spec in Hget as (rest & Hiter & Hle & Hlen & Hend & Hfull).
  assert (i ∈ l ++ rest) as Hin by (rewrite <- Hiter; apply elem_of_iter_from; split; [done|apply Hv]).
  destruct l as [|j [|]]; [|clear Hfull|cbn in Hlen; lia].
  { destruct b; [|by specialize (Hfull eq_refl)]. specialize (Hend eq_refl). rewrite Forall_forall in Hend.
    specialize (Hend i Hin). cbn in Hend. lia. }
  cbn [last]. run_ok. exists j. split; [done|]. split.
  - assert (j ∈ [j] ++ rest) as Hj by by left. rewrite <- Hiter in Hj. by apply elem_of_iter_from in Hj as [? _].
  - eexists. intros t'. unfold write_schemas. by rewrite forallb_app, andb_false_r.
Qed.

Lemma insert_missing_root get value_set node_hashes b v :
  get (new_empty_path b) = Ok (None (A := Node K)) →
  ∃ e, batch_put_value_set get value_set node_hashes (Some b) v = Err e.
Proof.
  intros Hget. unfold batch_put_value_set, batch_insert_at. change (N.to_nat (65 - 0)) with (S 64). generalize 64%nat.
  intros fuel. cbn [batch_insert_at_loop]. unfold get_node. rewrite Hget. by eexists.
Qed.

(** Without the caches the pipeline of snapshots panics. The snapshot committer merklizes the next snapshot
    while the batch committer still holds the previous one; with the caches disabled, the nodes of the previous
    snapshot are nowhere to be read, and merklizing on top of it panics, whatever the updates are. *)
Theorem merklize_without_caches_panics s written pending b m value_set node_hashes v usage :
  reachable s written (pending ++ [(b, m)]) → enable_cache (sys_db s) = false → sys_outbox s = None →
  exec (EMerklize value_set node_hashes v (Some b) usage) s = Some Panic.
Proof.
  intros [h [Hh Ht _ _ _ _]]%reachable_inv Hen Hout. cbn [exec]. rewrite Hout. f_equal.
  unfold merklize_step, merklize_value_set.
  destruct (insert_missing_root (reader (sys_db s)) value_set node_hashes b v) as [e He]; [|by rewrite He].
  unfold reader, get_node_option. rewrite Hen. cbn. f_equal.
  destruct (tb_nodes (sm_db (sys_db s)) !! new_empty_path b) as [nd|] eqn:Hnd; [|done].
  destruct (t_nodes _ _ _ _ Ht _ _ Hnd) as [_ Hb]. cbn in Hb.
  assert (b < b); [|lia]. eapply sorted_split; [apply (h_sorted _ _ Hh)|exact Hb|].
  rewrite versions_app. apply elem_of_app. right. by left.
Qed.
End safety.

(** ** A run of the system *)

#[local] Existing Instance sample_sparse_hashes.
(** An LRU that is never full *)
#[local] Instance sample_lru : LruCache (gmap NibblePath (Version * Node N)) NibblePath (Version * Node N).
Proof.
  refine {| lru_new _ := ∅; lru_get k c := (c !! k, c); lru_put k v c := <[k := v]> c; lru_entries c := c |}; done.
Defined.
Abbreviation sample_system := (System N (gmap NibblePath (Version * Node N))).

Definition next (e : Event N) (s : sample_system) : sample_system :=
  match exec e s with Some (Ok s') => s' | _ => s end.
Definition succeeds (e : Event N) (s : sample_system) : bool :=
  match exec e s with Some (Ok _) => true | _ => false end.
Lemma exec_next e s : succeeds e s = true → exec e s = Some (Ok (next e s)).
Proof. unfold succeeds, next. by destruct (exec e s) as [[]|]. Qed.
Lemma reach_next s written pending e written' pending' :
  reachable s written pending → allowed s written pending e written' pending' → succeeds e s = true →
  reachable (next e s) written' pending'.
Proof.
  intros Hr Ha He%exec_next. by eapply reach_step.
Qed.

Definition sample_config (schema : StaleSchema) : StateMerklePrunerConfig := mkStateMerklePrunerConfig true 0 10.
(** Two snapshots, the second written by the time the state pruner has run *)
Definition sample_opened (n : N) : sample_system := open_system empty_tables ∅ ∅ sample_config n.
Definition first_merklized (n : N) : sample_system :=
  next (EMerklize sample_values None 0 None Untracked) (next (ELedger 0 None (Tracked 3 0)) (sample_opened n)).
Definition first_received (n : N) : sample_system := next EReceive (first_merklized n).
Definition first_committed (n : N) : sample_system := next EFinish (next EEvict (next EWrite (first_received n))).
Definition second_ready (n : N) : sample_system := next (ELedger 1 (Some 1) (Tracked 3 0)) (first_committed n).
Definition second_merklized (n : N) : sample_system :=
  next (EMerklize sample_updates None 1 (Some 0) Untracked) (second_ready n).
Definition second_committed (n : N) : sample_system :=
  next EFinish (next EEvict (next EWrite (next EReceive (second_merklized n)))).
Definition sample_pruned : sample_system := next (EPrune StaleNodeIndexSchema) (second_committed 8).
Definition sample_content' : gmap HashValue (HashValue * (N * Version)) := updated 1 (updates_of sample_updates) sample_content.

Lemma first_received_reach n : n = 0 ∨ n = 8 → reachable (first_received n) [] [(0, sample_content)].
Proof.
  intros Hn. assert (reachable (sample_opened n) [] []) as H0 by by apply reach_open.
  unfold first_received, first_merklized. set (s0 := sample_opened n) in *.
  assert (reachable (next (ELedger 0 None (Tracked 3 0)) s0) [] []) as H1.
  { eapply reach_next; [exact H0| |done]. apply allow_ledger; [by intros []|]. by intros u. }
  eapply reach_next; [eapply (reach_next _ [] [] _ [] ([] ++ [(0, sample_content)]))|apply allow_receive|].
  - exact H1.
  - apply (allow_merklize _ [] [] sample_values None 0 Untracked (Tracked 3 0));
      [|constructor|done|exact I|vm_compute; reflexivity|by right|done|vm_compute; reflexivity|by left].
    exact (proj1 (proj1 (Forall_app _ _ _) sample_wf)).
  - subst s0. destruct Hn as [-> | ->]; vm_compute; reflexivity.
  - subst s0. destruct Hn as [-> | ->]; vm_compute; reflexivity.
Qed.
Lemma sample_pruned_reach :
  reachable (second_merklized 8) [(0, sample_content)] [(1, sample_content')] ∧
  reachable sample_pruned [(0, sample_content); (1, sample_content')] [].
Proof.
  pose proof (first_received_reach 8 (or_intror eq_refl)) as H0.
  assert (reachable (second_ready 8) [(0, sample_content)] []) as H1.
  { unfold second_ready, first_committed.
    eapply reach_next; [|apply allow_ledger; [by intros _; repeat constructor|by vm_compute]|vm_compute; reflexivity].
    eapply reach_next; [|apply allow_finish|vm_compute; reflexivity].
    eapply reach_next; [|apply allow_evict|vm_compute; reflexivity].
    eapply (reach_next _ [] [(0, sample_content)] _ ([] ++ [(0, sample_content)])); [exact H0|by eapply allow_write|vm_compute; reflexivity]. }
  assert (reachable (second_merklized 8) [(0, sample_content)] [(1, sample_content')]) as H2.
  { eapply (reach_next _ [(0, sample_content)] [] _ _ ([] ++ [(1, sample_content')])); [exact H1| |vm_compute; reflexivity].
    apply (allow_merklize _ [(0, sample_content)] [] sample_updates None 1 Untracked (Tracked 3 0));
      [|by repeat constructor|done|exact I|vm_compute; reflexivity|by right|vm_compute; reflexivity..|by left].
    exact (proj2 (proj1 (Forall_app _ _ _) sample_wf)). }
  split; [exact H2|]. unfold sample_pruned, second_committed.
  eapply reach_next; [|apply allow_prune|vm_compute; reflexivity].
  eapply reach_next; [|apply allow_finish|vm_compute; reflexivity].
  eapply reach_next; [|apply allow_evict|vm_compute; reflexivity].
  eapply (reach_next _ [(0, sample_content)] [(1, sample_content')] _ ([(0, sample_content)] ++ [(1, sample_content')]));
    [|by eapply allow_write|vm_compute; reflexivity].
  eapply reach_next; [exact H2|apply allow_receive|vm_compute; reflexivity].
Qed.

Lemma committed_snapshots_readable_witness :
  ∃ proof, get_with_proof (reader (sys_db sample_pruned)) 7 1 = Ok (sample_content' !! 7, proof) ∧
    get_root_hash (reader (sys_db sample_pruned)) 1 = Ok (smt_root (value_hashes sample_content')) ∧
    verify_by_hash proof (smt_root (value_hashes sample_content')) 7 (fst <$> sample_content' !! 7) = Ok tt.
Proof.
  eapply (committed_snapshots_readable sample_pruned _ _ 1 sample_content' 7).
  - apply sample_pruned_reach.
  - right. left.
  - split; [vm_compute; discriminate|left; vm_compute; discriminate].
Defined.
Lemma pruning_completes_witness :
  ∃ p' t', work 100 (pm_pruner (sys_managers sample_pruned StaleNodeIndexSchema)) (sm_db (sys_db sample_pruned))
             StaleNodeIndexSchema (max_node_to_prune_per_batch (sys_managers sample_pruned StaleNodeIndexSchema))
             = Ok (p', t') ∧ is_pruning_pending p' = false.
Proof.
  destruct (pruning_completes sample_pruned _ _ StaleNodeIndexSchema 100 (proj2 sample_pruned_reach)) as (p' & t' & H1 & H2 & _).
  - apply Nat.ltb_lt. vm_compute. reflexivity.
  - exists p', t'. split; [exact H1|exact H2].
Defined.
Lemma restart_finds_last_snapshot_witness :
  get_state_snapshot_version_before (sm_db (sys_db (open_system (sm_db (sys_db sample_pruned)) (sys_epochs sample_pruned)
    (sys_usages sample_pruned) sample_config 8 : sample_system))) 2 = Some 1.
Proof.
  destruct (restart_finds_last_snapshot sample_pruned _ _ sample_config 8 2 (proj2 sample_pruned_reach)) as (_ & H & _).
  - by repeat constructor.
  - refine (eq_trans H _). reflexivity.
Defined.
Lemma restart_forgets_progress_witness :
  ∃ s'', exec (EPrune StaleNodeIndexSchema) (open_system (sm_db (sys_db sample_pruned)) (sys_epochs sample_pruned)
           (sys_usages sample_pruned) sample_config 8) = Some (Ok s'') ∧
    error_if_state_merkle_pruned (sys_epochs s'') (sys_managers s'') 0 = Ok tt.
Proof.
  destruct (restart_forgets_progress sample_pruned _ _ sample_config 8 (proj2 sample_pruned_reach)) as (_ & s'' & He & _ & _ & Hv).
  - done.
  - reflexivity.
  - vm_compute. reflexivity.
  - exists s''. split; [exact He|apply Hv].
Defined.
(** A stale node of the genesis snapshot *)
Definition genesis_row : StaleNodeIndex := mkStaleNodeIndex 1 (new_empty_path 0).
Definition genesis_tables : Tables N :=
  mkTables {[new_empty_path 0 := NodeNull]}
    (λ schema, match schema with StaleNodeIndexCrossEpochSchema => {[genesis_row]} | _ => ∅ end) (λ _, None).
Lemma prune_genesis_batch_refused_witness :
  ∃ j, prune_genesis genesis_tables [] = Ok [DeleteNode (stale_node_key j); DeleteIndex StaleNodeIndexCrossEpochSchema j].
Proof.
  destruct (prune_genesis_batch_refused genesis_tables [] genesis_row) as (j & Hj & _).
  - cbn. by apply elem_of_singleton.
  - split; vm_compute; discriminate.
  - exists j. exact Hj.
Defined.
Lemma merklize_without_caches_panics_witness :
  exec (EMerklize sample_updates None 1 (Some 0) Untracked) (first_received 0) = Some Panic.
Proof.
  apply (merklize_without_caches_panics (first_received 0) [] [] 0 sample_content).
  - apply first_received_reach. by left.
  - vm_compute. reflexivity.
  - vm_compute. reflexivity.
Defined.
