(* ===== verification/Position.v ===== *)
(** * Node positions of the accumulator tree (types/src/proof/position)

    A node is named by its in-order index; every operation on positions is bit
    manipulation on that [u64]. The specification names a node by its level and
    its rank at that level, and each operation is shown to do on those what its
    name says. *)
From S2P Require Import Prelude.
Local Open Scope N_scope.

(** ** Bit helpers *)

Definition isolate_rightmost_zero_bit (v : N) : N :=
  N.land (u64_not v) (u64_wrapping_add v 1).

Definition smear_ones_for_u64 (v : N) : N :=
  let n := v in
  let n := N.lor n (u64_shr n 1) in
  let n := N.lor n (u64_shr n 2) in
  let n := N.lor n (u64_shr n 4) in
  let n := N.lor n (u64_shr n 8) in
  let n := N.lor n (u64_shr n 16) in
  let n := N.lor n (u64_shr n 32) in
  n.

Definition turn_off_right_most_n_bits (v n : N) : N := u64_shl (u64_shr v n) n.

(** ** Positions *)

Abbreviation Position := N (only parsing).

Inductive NodeDirection := Left | Right.

Definition position_level (p : Position) : N := trailing_zeros 64 (u64_not p).

Definition position_is_leaf (p : Position) : bool := N.land p 1 =? 0.

Definition from_level_and_pos {E} (level pos : N) : outcome E Position :=
  _ ← rassert (level <? 64);
  _ ← rassert (0 <? u64_shl 1 level);
  let level_one_bits := u64_shl 1 level - 1 in
  let shifted_pos := if level =? 63 then 0 else u64_shl pos (level + 1) in
  Ok (N.lor shifted_pos level_one_bits).

Definition from_leaf_index {E} (leaf_index : N) : outcome E Position :=
  from_level_and_pos 0 leaf_index.

(** [assert!(self.0 < u64::max_value() - 1)] *)
Definition position_invariant (p : Position) : bool := p <? U64_MAX - 1.

Definition position_parent {E} (p : Position) : outcome E Position :=
  _ ← rassert (position_invariant p);
  Ok (N.land (N.lor p (isolate_rightmost_zero_bit p))
        (u64_not (u64_shl (isolate_rightmost_zero_bit p) 1))).

Definition position_child {E} (p : Position) (dir : NodeDirection) : outcome E Position :=
  _ ← rassert (negb (position_is_leaf p));
  _ ← rassert (position_invariant p);
  let direction_bit :=
    match dir with Left => 0 | Right => isolate_rightmost_zero_bit p end in
  Ok (N.land (N.lor p direction_bit)
        (u64_not (u64_shr (isolate_rightmost_zero_bit p) 1))).

Definition position_left_child {E} (p : Position) : outcome E Position :=
  _ ← rassert (negb (position_is_leaf p));
  position_child p Left.
Definition position_right_child {E} (p : Position) : outcome E Position :=
  _ ← rassert (negb (position_is_leaf p));
  position_child p Right.

Definition position_is_left_child {E} (p : Position) : outcome E bool :=
  _ ← rassert (position_invariant p);
  Ok (N.land p (u64_shl (isolate_rightmost_zero_bit p) 1) =? 0).
Definition position_is_right_child {E} (p : Position) : outcome E bool :=
  b ← position_is_left_child p;
  Ok (negb b).

Definition position_sibling {E} (p : Position) : outcome E Position :=
  _ ← rassert (position_invariant p);
  Ok (N.lxor p (u64_shl (isolate_rightmost_zero_bit p) 1)).

Definition root_from_leaf_index {E} (leaf_index : N) : outcome E Position :=
  leaf ← from_leaf_index leaf_index;
  Ok (u64_shr (smear_ones_for_u64 leaf) 1).

Definition root_from_leaf_count {E} (leaf_count : N) : outcome E Position :=
  _ ← rassert (0 <? leaf_count);
  root_from_leaf_index (leaf_count - 1).

Definition root_level_from_leaf_count {E} (leaf_count : N) : outcome E N :=
  _ ← rassert (0 <? leaf_count);
  let index := leaf_count - 1 in
  Ok (63 + 1 - leading_zeros 64 index).

Definition right_most_child {E} (p : Position) : outcome E Position :=
  let level := position_level p in
  one ← u64_shl_checked 1 level;
  s ← u64_add p one;
  u64_sub s 1.

Definition left_most_child {E} (p : Position) : outcome E Position :=
  let level := position_level p in
  _ ← u64_shr_checked p level;
  Ok (turn_off_right_most_n_bits p level).

Definition is_freezable {E} (p : Position) (leaf_index : N) : outcome E bool :=
  leaf ← from_leaf_index leaf_index;
  r ← right_most_child p;
  Ok (r <=? leaf).

Definition is_placeholder {E} (p : Position) (leaf_index : N) : outcome E bool :=
  leaf ← from_leaf_index leaf_index;
  if p <=? leaf then Ok false
  else
    l ← left_most_child p;
    if l <=? leaf then Ok false else Ok true.

(** [n] steps of [AncestorIterator] and [AncestorSiblingIterator]. *)
Fixpoint iter_ancestor {E} (n : nat) (p : Position) : outcome E (list Position) :=
  match n with
  | O => Ok []
  | S n =>
      q ← position_parent p;
      rest ← iter_ancestor n q;
      Ok (p :: rest)
  end.
Fixpoint iter_ancestor_sibling {E} (n : nat) (p : Position) : outcome E (list Position) :=
  match n with
  | O => Ok []
  | S n =>
      s ← position_sibling p;
      q ← position_parent p;
      rest ← iter_ancestor_sibling n q;
      Ok (s :: rest)
  end.

(** ** Frozen subtrees *)

Record FrozenSubTreeIterator := mkFrozenSubTreeIterator {
  fst_bitmap : N;
  fst_seen_leaves : N;
}.

Definition frozen_subtree_iterator (n : N) : FrozenSubTreeIterator :=
  mkFrozenSubTreeIterator n 0.

Definition frozen_subtree_next {E} (it : FrozenSubTreeIterator)
  : outcome E (option Position * FrozenSubTreeIterator) :=
  room ← u64_sub U64_MAX (fst_bitmap it);
  _ ← rassert (fst_seen_leaves it <? room);
  if fst_bitmap it =? 0 then Ok (None, it)
  else
    let root_offset := u64_shr (smear_ones_for_u64 (fst_bitmap it)) 1 in
    _ ← rassert (root_offset <? fst_bitmap it);
    n ← u64_add root_offset 1;
    leftmost_leaf ← from_leaf_index (fst_seen_leaves it);
    root ← u64_add leftmost_leaf root_offset;
    seen ← u64_add (fst_seen_leaves it) n;
    Ok (Some root,
        mkFrozenSubTreeIterator (N.land (fst_bitmap it) (u64_not n)) seen).

Record FrozenSubtreeSiblingIterator := mkFrozenSubtreeSiblingIterator {
  fss_current_num_leaves : N;
  fss_remaining_new_leaves : N;
}.

Definition frozen_subtree_sibling_iterator {E} (current_num_leaves new_num_leaves : N)
  : outcome E FrozenSubtreeSiblingIterator :=
  _ ← rassert (new_num_leaves <=? 2 ^ 63);
  _ ← rassert (current_num_leaves <=? new_num_leaves);
  Ok (mkFrozenSubtreeSiblingIterator current_num_leaves
        (new_num_leaves - current_num_leaves)).

Definition next_new_leaf_batch {E} (it : FrozenSubtreeSiblingIterator) : outcome E N :=
  let zeros := leading_zeros 64 (fss_remaining_new_leaves it) in
  s ← u64_sub 63 zeros;
  u64_shl_checked 1 s.

Definition frozen_subtree_sibling_next {E} (it : FrozenSubtreeSiblingIterator)
  : outcome E (option Position * FrozenSubtreeSiblingIterator) :=
  if fss_remaining_new_leaves it =? 0 then Ok (None, it)
  else
    next_subtree_leaves ←
      (if 0 <? fss_current_num_leaves it then
         let rightmost := u64_shl 1 (trailing_zeros 64 (fss_current_num_leaves it)) in
         if rightmost <=? fss_remaining_new_leaves it then Ok rightmost
         else next_new_leaf_batch it
       else next_new_leaf_batch it);
    let first_leaf_index := fss_current_num_leaves it in
    current ← u64_add first_leaf_index next_subtree_leaves;
    last_leaf_index ← u64_sub current 1;
    remaining ← u64_sub (fss_remaining_new_leaves it) next_subtree_leaves;
    pos ← u64_add first_leaf_index last_leaf_index;
    Ok (Some pos, mkFrozenSubtreeSiblingIterator current remaining).

(** ** In-order and post-order *)

Definition children_of_node {E} (node : N) : outcome E N :=
  u64_sub (u64_shl (isolate_rightmost_zero_bit node) 1) 2.

Definition nodes_to_left_of {E} (node : N) : outcome E N :=
  ones_up_to_level ← u64_sub (isolate_rightmost_zero_bit node) 1;
  let unset_level_zeros := N.lxor node ones_up_to_level in
  u64_sub unset_level_zeros (count_ones unset_level_zeros).

Definition inorder_to_postorder {E} (node : N) : outcome E N :=
  children ← children_of_node node;
  left_nodes ← nodes_to_left_of node;
  u64_add children left_nodes.

(** The loop [for i in (0..64).rev()], [i] turns left. *)
Fixpoint postorder_loop (i : nat) (node full_binary_size bitmap : N) : N * N :=
  match i with
  | O => (node, bitmap)
  | S i =>
      let '(node, bitmap) :=
        if full_binary_size <=? node
        then (node - full_binary_size, N.lor bitmap (u64_shl 1 (N.of_nat i)))
        else (node, bitmap) in
      postorder_loop i node (u64_shr full_binary_size 1) bitmap
  end.

Definition postorder_to_inorder {E} (node : N) : outcome E N :=
  let '(node, bitmap) := postorder_loop 64 node U64_MAX 0 in
  let level := node mod 2 ^ 32 in
  pos ← u64_shr_checked bitmap level;
  from_level_and_pos level pos.

Definition from_postorder_index {E} (e : N → E) (index : N) : outcome E Position :=
  _ ← ensure (index <? U64_MAX) (e index);
  postorder_to_inorder index.

Definition to_postorder_index {E} (p : Position) : outcome E N :=
  inorder_to_postorder p.

(** ** Specification: level and rank

    [node l k] is the [k]-th node from the left at level [l] (leaves are level
    0) in the tree whose leaves are numbered below [2 ^ 63]. *)
Definition node (l k : N) : N := k * 2 ^ (l + 1) + (2 ^ l - 1).

Definition valid_node (l k : N) : Prop := l <= 63 ∧ k < 2 ^ (63 - l).

Lemma add_shift_testbit a b n i :
  b < 2 ^ n →
  N.testbit (a * 2 ^ n + b) i = if i <? n then N.testbit b i else N.testbit a (i - n).
Proof.
  intros Hb. assert (2 ^ n ≠ 0) by (apply N.pow_nonzero; done).
  case_N.
  - rewrite <- (N.mod_pow2_bits_low _ n) by done.
    rewrite N.add_comm, N.Div0.mod_add, N.mod_small by done. done.
  - replace i with (i - n + n) at 1 by lia. rewrite <- N.div_pow2_bits by lia.
    rewrite N.div_add_l, N.div_small, N.add_0_r by done. done.
Qed.

Lemma ones_testbit n i : N.testbit (2 ^ n - 1) i = (i <? n).
Proof.
  rewrite <- N.pred_sub, <- N.ones_equiv. case_N.
  - by apply N.ones_spec_low.
  - by apply N.ones_spec_high.
Qed.

Lemma pow2_pos n : 0 < 2 ^ n.
Proof. apply N.neq_0_lt_0, N.pow_nonzero. done. Qed.

Lemma node_testbit l k i :
  N.testbit (node l k) i =
    if i <? l then true else if i =? l then false else N.testbit k (i - l - 1).
Proof.
  unfold node. pose proof (pow2_pos l).
  rewrite add_shift_testbit
    by (rewrite N.add_1_r, N.pow_succ_r'; lia).
  rewrite ones_testbit. repeat case_N; try lia; try done.
  f_equal. lia.
Qed.

Lemma node_lt l k : valid_node l k → node l k < 2 ^ 64 - 1.
Proof.
  intros [Hl Hk]. unfold node. pose proof (pow2_pos l).
  assert ((k + 1) * 2 ^ (l + 1) <= 2 ^ 64).
  { replace 64 with ((63 - l) + (l + 1)) by lia. rewrite (N.pow_add_r _ (63 - l)).
    apply N.mul_le_mono_r. lia. }
  assert (2 ^ (l + 1) = 2 * 2 ^ l) by (rewrite N.add_1_r; apply N.pow_succ_r').
  lia.
Qed.

(** Every index but the last is a node. *)
Lemma node_surj p : p < 2 ^ 64 - 1 → ∃ l k, valid_node l k ∧ p = node l k.
Proof.
  intros Hp. assert (∃ q, q = p + 1) as [q Heq] by eauto. assert (q ≠ 0) as Hq by lia.
  destruct (trailing_zeros_spec 64 q Hq) as [Htz Hlow].
  set (l := trailing_zeros 64 q) in *. exists l, (q / 2 ^ (l + 1)).
  assert (q mod 2 ^ (l + 1) = 2 ^ l) as Hmod.
  { apply N.bits_inj. intros i. rewrite N.pow2_bits_eqb.
    destruct (N.lt_trichotomy i l) as [Hi|[->|Hi]].
    - rewrite N.mod_pow2_bits_low, Hlow by lia. symmetry. apply N.eqb_neq. lia.
    - rewrite N.mod_pow2_bits_low, Htz, N.eqb_refl by lia. done.
    - rewrite N.mod_pow2_bits_high by lia. symmetry. apply N.eqb_neq. lia. }
  pose proof (N.div_mod' q (2 ^ (l + 1))) as Hdm. rewrite Hmod in Hdm.
  pose proof (pow2_pos l). split; [|unfold node; lia].
  assert (l < 64) as Hl64.
  { apply N.nle_gt. intros ?. rewrite (testbit_above 64) in Htz by lia. done. }
  split; [lia|]. apply N.Div0.div_lt_upper_bound.
  rewrite <- N.pow_add_r. replace (l + 1 + (63 - l)) with 64 by lia. lia.
Qed.

Lemma u64_not_testbit a i : a < 2 ^ 64 → N.testbit (u64_not a) i = (i <? 64) && negb (N.testbit a i).
Proof.
  intros Ha. unfold u64_not. case_N; simpl.
  - by apply N.lnot_spec_low.
  - rewrite N.lnot_spec_high by done. by apply (testbit_above 64).
Qed.
Lemma u64_shl_testbit a s i :
  N.testbit (u64_shl a s) i = (i <? 64) && (s <=? i) && N.testbit a (i - s).
Proof.
  unfold u64_shl. destruct (N.ltb_spec i 64); simpl.
  - rewrite N.mod_pow2_bits_low by done. case_N; simpl.
    + by apply N.shiftl_spec_high'.
    + by apply N.shiftl_spec_low.
  - by apply N.mod_pow2_bits_high.
Qed.
Lemma u64_shr_testbit a s i : N.testbit (u64_shr a s) i = N.testbit a (i + s).
Proof. apply N.shiftr_spec'. Qed.

Lemma node_succ l k : node l k + 1 = k * 2 ^ (l + 1) + 2 ^ l.
Proof. unfold node. pose proof (pow2_pos l). lia. Qed.

Lemma node_succ_testbit l k i :
  N.testbit (node l k + 1) i =
    if i <? l then false else if i =? l then true else N.testbit k (i - l - 1).
Proof.
  rewrite node_succ. rewrite add_shift_testbit
    by (rewrite N.add_1_r; apply N.pow_lt_mono_r; lia).
  rewrite N.pow2_bits_eqb. repeat case_N; try lia; try done. f_equal. lia.
Qed.

Lemma isolate_node l k :
  valid_node l k → isolate_rightmost_zero_bit (node l k) = 2 ^ l.
Proof.
  intros Hv. pose proof (node_lt l k Hv) as Hlt. destruct Hv as [Hl Hk].
  unfold isolate_rightmost_zero_bit, u64_wrapping_add.
  rewrite N.mod_small by lia. apply N.bits_inj. intros i.
  rewrite N.land_spec, u64_not_testbit, node_testbit, node_succ_testbit by lia.
  rewrite N.pow2_bits_eqb.
  repeat case_N; simpl; try lia; try done. by destruct (N.testbit _ _).
Qed.

Lemma level_node l k : valid_node l k → position_level (node l k) = l.
Proof.
  intros Hv. pose proof (node_lt l k Hv) as Hlt.
  unfold position_level.
  assert (N.testbit (u64_not (node l k)) l = true) as Hl.
  { rewrite u64_not_testbit, node_testbit by lia. destruct Hv.
    repeat case_N; try lia; done. }
  assert (u64_not (node l k) ≠ 0) as Hne.
  { intros Heq. by rewrite Heq, N.bits_0 in Hl. }
  destruct (trailing_zeros_spec 64 _ Hne) as [H1 H2].
  destruct (N.lt_trichotomy (trailing_zeros 64 (u64_not (node l k))) l) as [Hc|[Hc|Hc]];
    [|done|].
  - rewrite u64_not_testbit, node_testbit in H1 by lia.
    destruct (N.ltb_spec (trailing_zeros 64 (u64_not (node l k))) l); [|lia].
    by rewrite andb_false_r in H1.
  - by rewrite H2 in Hl.
Qed.

Lemma pow2_lt_64 l : l <= 63 → 2 ^ l < 2 ^ 64.
Proof. intros. apply N.pow_lt_mono_r; lia. Qed.

Lemma u64_shl_1 l : l <= 63 → u64_shl 1 l = 2 ^ l.
Proof.
  intros. unfold u64_shl. rewrite N.shiftl_1_l. by apply N.mod_small, pow2_lt_64.
Qed.

Lemma u64_shl_pow2 l : l < 63 → u64_shl (2 ^ l) 1 = 2 ^ (l + 1).
Proof.
  intros Hl. unfold u64_shl. rewrite N.shiftl_mul_pow2, <- N.pow_add_r.
  apply N.mod_small, pow2_lt_64. lia.
Qed.

(** Decides an equation between [u64]s bit by bit. *)
Ltac bits64 :=
  apply N.bits_inj; intros i;
  repeat first
    [ rewrite N.land_spec | rewrite N.lor_spec | rewrite N.lxor_spec
    | rewrite node_testbit | rewrite N.pow2_bits_eqb
    | rewrite u64_not_testbit by (apply pow2_lt_64; lia) ];
  repeat case_N; simpl; try lia; try done.

Lemma testbit_half k i : N.testbit (k / 2) i = N.testbit k (i + 1).
Proof. change 2 with (2 ^ 1). apply N.div_pow2_bits. Qed.

Lemma parent_bits l k : valid_node l k → l < 63 →
  N.land (N.lor (node l k) (isolate_rightmost_zero_bit (node l k)))
        (u64_not (u64_shl (isolate_rightmost_zero_bit (node l k)) 1)) = node (l + 1) (k / 2).
Proof.
  intros Hv Hl. rewrite isolate_node, u64_shl_pow2 by done.
  destruct Hv as [_ Hk].
  assert (∀ i, 63 < i + l + 1 → N.testbit k i = false) as Hhigh.
  { intros i Hi. apply (testbit_above (63 - l)); [done|lia]. }
  bits64; rewrite ?testbit_half, ?andb_true_r, ?andb_false_r, ?orb_false_r.
  - f_equal. lia.
  - symmetry. apply Hhigh. lia.
Qed.

Lemma valid_node_parent l k : valid_node l k → l < 63 → valid_node (l + 1) (k / 2).
Proof.
  intros [Hl Hk] Hl'. split; [lia|]. apply N.Div0.div_lt_upper_bound.
  rewrite <- N.pow_succ_r'. by replace (N.succ (63 - (l + 1))) with (63 - l) by lia.
Qed.

Lemma is_left_child_bits l k : valid_node l k → l < 63 →
  (N.land (node l k) (u64_shl (isolate_rightmost_zero_bit (node l k)) 1) =? 0) = N.even k.
Proof.
  intros Hv Hl. rewrite isolate_node, u64_shl_pow2 by done.
  assert (N.testbit (node l k) (l + 1) = N.odd k) as Hbit.
  { rewrite node_testbit. repeat case_N; try lia.
    replace (l + 1 - l - 1) with 0 by lia. apply N.bit0_odd. }
  rewrite <- N.negb_odd, <- Hbit.
  destruct (N.testbit (node l k) (l + 1)) eqn:Hb; simpl.
  - apply N.eqb_neq. intros H0. apply (f_equal (λ x, N.testbit x (l + 1))) in H0.
    by rewrite N.land_spec, Hb, N.pow2_bits_true, N.bits_0 in H0.
  - apply N.eqb_eq, N.bits_inj. intros i. rewrite N.land_spec, N.pow2_bits_eqb, N.bits_0.
    case_N; [subst; by rewrite Hb|apply andb_false_r].
Qed.

Lemma sibling_bits l k : valid_node l k → l < 63 →
  N.lxor (node l k) (u64_shl (isolate_rightmost_zero_bit (node l k)) 1) = node l (N.lxor k 1).
Proof.
  intros Hv Hl. rewrite isolate_node, u64_shl_pow2 by done.
  bits64; rewrite ?N.lxor_spec, ?xorb_false_r; try done.
  - subst. replace (l + 1 - l - 1) with 0 by lia. by destruct (N.testbit k 0).
  - destruct (i - l - 1) eqn:?; [lia|]. by rewrite xorb_false_r.
Qed.

Lemma is_leaf_node l k : position_is_leaf (node l k) = (l =? 0).
Proof.
  unfold position_is_leaf. change 1 with (N.ones 1).
  rewrite N.land_ones. change (2 ^ 1) with 2. rewrite <- N.bit0_mod, node_testbit.
  destruct (N.eq_dec l 0) as [->|Hl]; [done|].
  destruct (N.ltb_spec 0 l); [|lia]. simpl. symmetry. by apply N.eqb_neq.
Qed.

Lemma child_bits l k (dir : NodeDirection) : valid_node (l + 1) k →
  N.land (N.lor (node (l + 1) k)
            match dir with Left => 0 | Right => isolate_rightmost_zero_bit (node (l + 1) k) end)
    (u64_not (u64_shr (isolate_rightmost_zero_bit (node (l + 1) k)) 1)) =
  node l (2 * k + match dir with Left => 0 | Right => 1 end).
Proof.
  intros Hv. rewrite isolate_node by done.
  assert (u64_shr (2 ^ (l + 1)) 1 = 2 ^ l) as ->.
  { unfold u64_shr. rewrite N.shiftr_div_pow2, <- N.pow_sub_r by lia. f_equal. lia. }
  destruct Hv as [Hl Hk].
  assert (∀ i, 63 <= i + (l + 1) → N.testbit k i = false) as Hhigh.
  { intros i Hi. apply (testbit_above (63 - (l + 1))); [done|lia]. }
  assert (∀ b i, b < 2 → l < i → N.testbit (2 * k + b) (i - l - 1) =
            if i =? l + 1 then b =? 1 else N.testbit k (i - (l + 1) - 1)) as Hk2.
  { intros b i Hb Hi. replace (2 * k + b) with (k * 2 ^ 1 + b) by lia.
    rewrite add_shift_testbit by done. repeat case_N; try lia.
    - replace (i - l - 1) with 0 by lia. by assert (b = 1) as -> by lia.
    - replace (i - l - 1) with 0 by lia. by assert (b = 0) as -> by lia.
    - f_equal. lia. }
  destruct dir; bits64; try rewrite Hk2 by lia;
    rewrite ?N.bits_0, ?andb_true_r, ?andb_false_r, ?orb_false_r, ?orb_true_r;
    repeat case_N; try lia; try done; symmetry; apply Hhigh; lia.
Qed.

(** ** What the operations do on level and rank *)

Lemma valid_node_invariant l k :
  valid_node l k → node l k ≠ 2 ^ 64 - 2 → position_invariant (node l k) = true.
Proof.
  intros Hv Hne. pose proof (node_lt l k Hv). apply N.ltb_lt. unfold U64_MAX. lia.
Qed.

Lemma from_level_and_pos_node {E} l k :
  valid_node l k → from_level_and_pos (E:=E) l k = Ok (node l k).
Proof.
  intros [Hl Hk]. unfold from_level_and_pos. pose proof (pow2_pos l).
  rewrite (u64_shl_1 l) by lia.
  rewrite !(proj2 (N.ltb_lt _ _)) by lia. simpl. f_equal.
  apply N.bits_inj. intros i. rewrite N.lor_spec, ones_testbit, node_testbit.
  destruct (N.eqb_spec l 63) as [->|Hl63].
  { rewrite N.bits_0.
    replace k with 0 by (change (2 ^ (63 - 63)) with 1 in Hk; lia).
    rewrite N.bits_0. repeat case_N; done. }
  rewrite u64_shl_testbit. repeat case_N; simpl; try lia; try done.
  - rewrite orb_false_r. f_equal. lia.
  - symmetry. apply (testbit_above (63 - l)); [done|lia].
Qed.

Lemma from_leaf_index_node {E} i : i < 2 ^ 63 → from_leaf_index (E:=E) i = Ok (node 0 i).
Proof. intros. apply from_level_and_pos_node. split; [lia|done]. Qed.

Lemma node_0 i : node 0 i = 2 * i.
Proof. unfold node. change (2 ^ (0 + 1)) with 2. simpl. lia. Qed.

Lemma position_parent_node {E} l k :
  valid_node l k → l < 63 → node l k ≠ 2 ^ 64 - 2 →
  position_parent (E:=E) (node l k) = Ok (node (l + 1) (k / 2)).
Proof.
  intros Hv Hl Hne. unfold position_parent.
  rewrite valid_node_invariant by done. simpl. by rewrite parent_bits.
Qed.

Lemma left_most_child_node {E} l k :
  valid_node l k → left_most_child (E:=E) (node l k) = Ok (node 0 (k * 2 ^ l)).
Proof.
  intros Hv. unfold left_most_child. rewrite level_node by done.
  unfold u64_shr_checked. pose proof (node_lt l k Hv) as Hlt.
  destruct Hv as [Hl Hk]. rewrite (proj2 (N.ltb_lt l 64)) by lia. simpl. f_equal.
  unfold turn_off_right_most_n_bits.
  apply N.bits_inj. intros i.
  rewrite u64_shl_testbit, u64_shr_testbit, node_0.
  replace (2 * (k * 2 ^ l)) with (k * 2 ^ (l + 1) + 0) by (rewrite N.pow_add_r; lia).
  rewrite add_shift_testbit by apply pow2_pos. rewrite N.bits_0, node_testbit.
  repeat case_N; simpl; try lia; try done.
  - f_equal. lia.
  - symmetry. apply (testbit_above (63 - l)); [done|lia].
Qed.

Lemma right_most_child_node {E} l k :
  valid_node l k → right_most_child (E:=E) (node l k) = Ok (node 0 ((k + 1) * 2 ^ l - 1)).
Proof.
  intros Hv. unfold right_most_child. rewrite level_node by done.
  pose proof (node_lt l k Hv) as Hlt. destruct Hv as [Hl Hk].
  unfold u64_shl_checked. rewrite (proj2 (N.ltb_lt l 64)) by lia. simpl.
  rewrite (u64_shl_1 l) by lia.
  assert (2 ^ (l + 1) = 2 * 2 ^ l) as Hp by (rewrite N.add_1_r; apply N.pow_succ_r').
  assert ((k + 1) * 2 ^ (l + 1) <= 2 ^ 64) as Hb.
  { replace 64 with ((63 - l) + (l + 1)) by lia. rewrite (N.pow_add_r _ (63 - l)).
    apply N.mul_le_mono_r. lia. }
  pose proof (pow2_pos l). rewrite node_0. unfold node in *.
  unfold u64_add. assert (u64_checked_add (k * 2 ^ (l + 1) + (2 ^ l - 1)) (2 ^ l) =
    Some ((k + 1) * 2 ^ (l + 1) - 1)) as ->.
  { apply u64_checked_add_Some. lia. }
  simpl. unfold u64_sub, u64_checked_sub. rewrite (proj2 (N.leb_le _ _)) by lia.
  simpl. f_equal. lia.
Qed.

(** ** Smearing *)

(** [n] has bit [i] iff [v] has a bit among [i .. i + w]. *)
Definition smeared (v w n : N) : Prop :=
  ∀ i, N.testbit n i = true ↔ ∃ d, d < w ∧ N.testbit v (i + d) = true.

Lemma smeared_1 v : smeared v 1 v.
Proof.
  intros i. split.
  - intros H. exists 0. by rewrite N.add_0_r.
  - intros (d & Hd & H). by replace (i + d) with i in H by lia.
Qed.

Lemma smeared_double v w n : smeared v w n → smeared v (2 * w) (N.lor n (u64_shr n w)).
Proof.
  intros Hn i. rewrite N.lor_spec, u64_shr_testbit, orb_true_iff, (Hn i), (Hn (i + w)). split.
  - intros [(d & Hd & H)|(d & Hd & H)]; [exists d; split; [lia|done]|].
    exists (w + d). split; [lia|]. by rewrite N.add_assoc.
  - intros (d & Hd & H). destruct (N.lt_ge_cases d w); [left; eauto|].
    right. exists (d - w). split; [lia|]. by replace (i + w + (d - w)) with (i + d) by lia.
Qed.

Lemma smear_ones_spec v :
  v ≠ 0 → v < 2 ^ 64 → smear_ones_for_u64 v = 2 ^ (N.log2 v + 1) - 1.
Proof.
  intros H0 Hv.
  assert (smeared v 64 (smear_ones_for_u64 v)) as Hs.
  { unfold smear_ones_for_u64. apply (smeared_double v 32), (smeared_double v 16),
      (smeared_double v 8), (smeared_double v 4), (smeared_double v 2),
      (smeared_double v 1), smeared_1. }
  assert (N.log2 v < 64) as Hlog by (apply N.log2_lt_pow2; [lia|done]).
  apply N.bits_inj. intros i. rewrite ones_testbit.
  apply eq_true_iff_eq. rewrite (Hs i), N.ltb_lt. split.
  - intros (d & _ & H). assert (i + d <= N.log2 v); [|lia].
    apply N.nlt_ge. intros Hlt. by rewrite N.bits_above_log2 in H.
  - intros Hi. exists (N.log2 v - i). split; [lia|].
    replace (i + (N.log2 v - i)) with (N.log2 v) by lia. by apply N.bit_log2.
Qed.

Lemma smear_half v : v ≠ 0 → v < 2 ^ 64 → u64_shr (smear_ones_for_u64 v) 1 = 2 ^ N.log2 v - 1.
Proof.
  intros. rewrite smear_ones_spec by done. apply N.bits_inj. intros i.
  rewrite u64_shr_testbit, !ones_testbit. repeat case_N; lia || done.
Qed.

(** ** Frozen subtrees of an accumulator *)

Fixpoint collect_frozen {E} (fuel : nat) (it : FrozenSubTreeIterator)
  : outcome E (list Position) :=
  match fuel with
  | O => Panic
  | S fuel =>
      '(o, it) ← frozen_subtree_next it;
      match o with
      | None => Ok []
      | Some p => rest ← collect_frozen fuel it; Ok (p :: rest)
      end
  end.

(** The roots of the maximal full subtrees over [n] leaves, from left to right:
    one per bit of [n], highest first. *)
Fixpoint frozen_nodes (levels : nat) (n : N) : list Position :=
  match levels with
  | O => []
  | S l =>
      (if N.testbit n (N.of_nat l) then [node (N.of_nat l) (2 * (n / 2 ^ (N.of_nat l + 1)))]
       else []) ++ frozen_nodes l n
  end.

Lemma log2_split m l : m < 2 ^ l → N.log2 (2 ^ l + m) = l.
Proof.
  intros Hm. apply N.log2_unique; [lia|]. rewrite N.pow_succ_r'. lia.
Qed.

Lemma clear_top_bit m l : l < 64 → m < 2 ^ l → N.land (2 ^ l + m) (u64_not (2 ^ l)) = m.
Proof.
  intros Hl Hm. apply N.bits_inj. intros i.
  replace (2 ^ l + m) with (1 * 2 ^ l + m) by lia.
  rewrite N.land_spec, add_shift_testbit, u64_not_testbit, N.pow2_bits_eqb
    by (done || (apply pow2_lt_64; lia)).
  destruct (N.lt_trichotomy i l) as [Hi|[->|Hi]].
  - rewrite (proj2 (N.ltb_lt i l)), (proj2 (N.ltb_lt i 64)), (proj2 (N.eqb_neq l i)) by lia.
    apply andb_true_r.
  - rewrite N.eqb_refl, !andb_false_r. symmetry. by apply (testbit_above l).
  - rewrite (proj2 (N.ltb_ge i l)) by lia.
    rewrite (testbit_above 1 1), (testbit_above l m) by (done || lia). done.
Qed.

(** One turn of the iterator takes the highest bit. *)
Lemma frozen_subtree_next_step {E} l m q :
  l <= 63 → m < 2 ^ l → q * 2 ^ (l + 1) + 2 ^ l + m <= 2 ^ 63 →
  frozen_subtree_next (E:=E) (mkFrozenSubTreeIterator (2 ^ l + m) (q * 2 ^ (l + 1))) =
    Ok (Some (node l (2 * q)), mkFrozenSubTreeIterator m (q * 2 ^ (l + 1) + 2 ^ l)).
Proof.
  intros Hl Hm Hn. pose proof (pow2_pos l) as Hpos.
  unfold frozen_subtree_next. cbn [fst_bitmap fst_seen_leaves].
  assert (2 ^ l + m < 2 ^ 64) by lia.
  unfold u64_sub at 1. replace (u64_checked_sub U64_MAX (2 ^ l + m))
    with (Some (U64_MAX - (2 ^ l + m))) by
    (symmetry; apply u64_checked_sub_Some; unfold U64_MAX; lia).
  run_ok.
  rewrite (proj2 (N.ltb_lt (q * 2 ^ (l + 1)) _)) by (unfold U64_MAX; lia). run_ok.
  rewrite (proj2 (N.eqb_neq (2 ^ l + m) 0)) by lia.
  rewrite smear_half, log2_split by lia.
  rewrite (proj2 (N.ltb_lt (2 ^ l - 1) _)) by lia. run_ok.
  unfold u64_add. replace (u64_checked_add (2 ^ l - 1) 1) with (Some (2 ^ l))
    by (symmetry; apply u64_checked_add_Some; lia). run_ok.
  rewrite from_leaf_index_node by lia. run_ok. rewrite node_0.
  replace (u64_checked_add (2 * (q * 2 ^ (l + 1))) (2 ^ l - 1))
    with (Some (node l (2 * q)))
    by (symmetry; apply u64_checked_add_Some; unfold node; lia). run_ok.
  replace (u64_checked_add (q * 2 ^ (l + 1)) (2 ^ l))
    with (Some (q * 2 ^ (l + 1) + 2 ^ l))
    by (symmetry; apply u64_checked_add_Some; lia). run_ok.
  by rewrite clear_top_bit by lia.
Qed.

Lemma collect_frozen_levels {E} levels : ∀ fuel q m,
  (levels < fuel)%nat → (levels <= 64)%nat →
  m < 2 ^ N.of_nat levels → q * 2 ^ N.of_nat levels + m <= 2 ^ 63 →
  collect_frozen (E:=E) fuel (mkFrozenSubTreeIterator m (q * 2 ^ N.of_nat levels)) =
    Ok (frozen_nodes levels (q * 2 ^ N.of_nat levels + m)).
Proof.
  induction levels as [|l IH]; intros fuel q m Hfuel Hlv Hm Hn;
    (destruct fuel as [|fuel]; [lia|]).
  { change (2 ^ N.of_nat 0) with 1 in *. assert (m = 0) as -> by lia. cbn [collect_frozen].
    unfold frozen_subtree_next, u64_sub, u64_checked_sub. simpl.
    rewrite (proj2 (N.ltb_lt _ _)) by (unfold U64_MAX; lia). done. }
  assert (2 ^ N.of_nat (S l) = 2 * 2 ^ N.of_nat l) as Hp.
  { rewrite Nat2N.inj_succ. apply N.pow_succ_r'. }
  pose proof (pow2_pos (N.of_nat l)) as Hpos. cbn [frozen_nodes].
  assert (N.testbit (q * 2 ^ N.of_nat (S l) + m) (N.of_nat l) = (2 ^ N.of_nat l <=? m)) as ->.
  { rewrite add_shift_testbit by done. rewrite (proj2 (N.ltb_lt _ _)) by lia.
    case_N.
    - replace m with (1 * 2 ^ N.of_nat l + (m - 2 ^ N.of_nat l)) by lia.
      rewrite add_shift_testbit by lia. rewrite N.ltb_irrefl, N.sub_diag. done.
    - by rewrite (testbit_above (N.of_nat l)). }
  assert ((q * 2 ^ N.of_nat (S l) + m) / 2 ^ (N.of_nat l + 1) = q) as ->.
  { rewrite N.add_1_r, <- Nat2N.inj_succ, N.div_add_l, N.div_small by lia. lia. }
  destruct (N.leb_spec (2 ^ N.of_nat l) m) as [Hge|Hlt].
  - replace m with (2 ^ N.of_nat l + (m - 2 ^ N.of_nat l)) by lia.
    cbn [collect_frozen].
    replace (2 ^ N.of_nat (S l)) with (2 ^ (N.of_nat l + 1)) by (f_equal; lia).
    rewrite frozen_subtree_next_step by (rewrite ?(N.add_1_r (N.of_nat l)), ?N.pow_succ_r'; lia).
    run_ok. cbn [app].
    replace (q * 2 ^ (N.of_nat l + 1) + 2 ^ N.of_nat l) with ((2 * q + 1) * 2 ^ N.of_nat l)
      by (rewrite (N.add_1_r (N.of_nat l)), N.pow_succ_r'; lia).
    rewrite IH by lia. run_ok. do 3 f_equal.
    rewrite (N.add_1_r (N.of_nat l)), N.pow_succ_r'. lia.
  - cbn [app].
    replace (q * 2 ^ N.of_nat (S l)) with ((2 * q) * 2 ^ N.of_nat l) by lia.
    apply IH; lia.
Qed.

Lemma lor_pow2_add n b : b < 2 ^ n → N.lor (2 ^ n) b = 2 ^ n + b.
Proof.
  intros Hb. replace (2 ^ n + b) with (1 * 2 ^ n + b) by lia.
  apply N.bits_inj. intros i. rewrite N.lor_spec, add_shift_testbit, N.pow2_bits_eqb by done.
  destruct (N.lt_trichotomy i n) as [Hi|[->|Hi]].
  - rewrite (proj2 (N.ltb_lt _ _)), (proj2 (N.eqb_neq _ _)) by lia. done.
  - by rewrite N.eqb_refl, N.ltb_irrefl, N.sub_diag.
  - rewrite (proj2 (N.ltb_ge _ _)), (proj2 (N.eqb_neq _ _)) by lia.
    rewrite (testbit_above 1 1), (testbit_above n) by (done || lia). done.
Qed.

Lemma ones_half n : u64_shr (2 ^ (n + 1) - 1) 1 = 2 ^ n - 1.
Proof.
  apply N.bits_inj. intros i. rewrite u64_shr_testbit, !ones_testbit.
  repeat case_N; lia || done.
Qed.

(** ** Post-order *)

(** The post-order index of a node: the nodes of its subtree below it and the
    nodes of the full subtrees to its left. *)
Definition post (l k : N) : N := (k + 1) * 2 ^ (l + 1) - 2 - count_ones k.

Lemma count_ones_mul_pow2 k n : count_ones (k * 2 ^ n) = count_ones k.
Proof.
  induction n as [|n IH] using N.peano_ind; [by rewrite N.mul_1_r|].
  rewrite N.pow_succ_r'. replace (k * (2 * 2 ^ n)) with (2 * (k * 2 ^ n)) by lia.
  by rewrite count_ones_double.
Qed.

Lemma count_ones_add_pow2 (j : nat) : ∀ k, k < 2 ^ N.of_nat j →
  count_ones (2 ^ N.of_nat j + k) = 1 + count_ones k.
Proof.
  induction j as [|j IH]; intros k Hk.
  { change (2 ^ N.of_nat 0) with 1 in *. by assert (k = 0) as -> by lia. }
  rewrite Nat2N.inj_succ, N.pow_succ_r' in *.
  destruct (N.Even_or_Odd k) as [[m ->]|[m ->]].
  - rewrite <- N.mul_add_distr_l, !count_ones_double. apply IH. lia.
  - rewrite N.add_assoc, <- N.mul_add_distr_l, !count_ones_succ_double, IH by lia. lia.
Qed.

Lemma count_ones_le k : count_ones k <= k.
Proof.
  destruct k as [|p]; [done|]. simpl. induction p; simpl; lia.
Qed.

Lemma post_add_pow2 l (j : nat) k : k < 2 ^ N.of_nat j →
  post l (2 ^ N.of_nat j + k) = (2 ^ (l + N.of_nat j + 1) - 1) + post l k.
Proof.
  intros Hk. unfold post. rewrite count_ones_add_pow2 by done.
  pose proof (count_ones_le k). pose proof (pow2_pos l) as Hpos.
  assert (2 ^ (l + N.of_nat j + 1) = 2 ^ N.of_nat j * 2 ^ (l + 1)) as ->.
  { rewrite <- N.pow_add_r. f_equal. lia. }
  rewrite (N.add_1_r l), N.pow_succ_r'.
  pose proof (pow2_pos (N.of_nat j)). nia.
Qed.

Lemma post_lt l (j : nat) k : k < 2 ^ N.of_nat j →
  post l k < 2 ^ (l + N.of_nat j + 1) - 1.
Proof.
  intros Hk. unfold post.
  assert (2 ^ (l + N.of_nat j + 1) = 2 ^ N.of_nat j * 2 ^ (l + 1)) as ->.
  { rewrite <- N.pow_add_r. f_equal. lia. }
  assert ((k + 1) * 2 ^ (l + 1) <= 2 ^ N.of_nat j * 2 ^ (l + 1))
    by (apply N.mul_le_mono_r; lia).
  pose proof (pow2_pos l). pose proof (pow2_pos (N.of_nat j)).
  rewrite (N.add_1_r l), N.pow_succ_r' in *. nia.
Qed.

(** The loop turns while it has not reached the level of the node: it reads the
    rank, highest bit first. *)
Lemma postorder_loop_high l (j : nat) : ∀ k bm,
  (l + j <= 64)%nat → k < 2 ^ N.of_nat j →
  postorder_loop (l + j) (post (N.of_nat l) k) (2 ^ N.of_nat (l + j) - 1) bm =
  postorder_loop l (2 ^ (N.of_nat l + 1) - 2) (2 ^ N.of_nat l - 1)
    (N.lor bm (k * 2 ^ N.of_nat l)).
Proof.
  induction j as [|j IH]; intros k bm Hlj Hk.
  { change (2 ^ N.of_nat 0) with 1 in Hk. assert (k = 0) as -> by lia.
    rewrite Nat.add_0_r, N.mul_0_l, N.lor_0_r. unfold post. f_equal. simpl. lia. }
  rewrite Nat.add_succ_r. cbn [postorder_loop].
  assert (2 ^ N.of_nat (S j) = 2 * 2 ^ N.of_nat j) as Hp
    by (rewrite Nat2N.inj_succ; apply N.pow_succ_r').
  assert (u64_shr (2 ^ N.of_nat (S (l + j)) - 1) 1 = 2 ^ N.of_nat (l + j) - 1) as ->.
  { replace (N.of_nat (S (l + j))) with (N.of_nat (l + j) + 1) by lia. apply ones_half. }
  replace (N.of_nat (S (l + j))) with (N.of_nat l + N.of_nat j + 1) by lia.
  destruct (N.lt_ge_cases k (2 ^ N.of_nat j)) as [Hlt|Hge].
  - pose proof (post_lt (N.of_nat l) j k Hlt).
    rewrite (proj2 (N.leb_gt _ _)) by lia. apply IH; [lia|done].
  - assert (∃ k', k = 2 ^ N.of_nat j + k' ∧ k' < 2 ^ N.of_nat j) as (k' & -> & Hk').
    { exists (k - 2 ^ N.of_nat j). lia. }
    rewrite post_add_pow2 by done. rewrite (proj2 (N.leb_le _ _)) by lia.
    replace (2 ^ (N.of_nat l + N.of_nat j + 1) - 1 + post (N.of_nat l) k' -
             (2 ^ (N.of_nat l + N.of_nat j + 1) - 1)) with (post (N.of_nat l) k') by lia.
    rewrite IH by (lia || done). f_equal. rewrite <- N.lor_assoc. f_equal.
    rewrite u64_shl_1 by lia.
    replace ((2 ^ N.of_nat j + k') * 2 ^ N.of_nat l)
      with (2 ^ N.of_nat (l + j) + k' * 2 ^ N.of_nat l)
      by (rewrite Nat2N.inj_add, N.pow_add_r; lia).
    apply lor_pow2_add.
    rewrite Nat2N.inj_add, N.pow_add_r, (N.mul_comm (2 ^ N.of_nat l)).
    apply N.mul_lt_mono_pos_r; [apply pow2_pos|done].
Qed.

(** Below the level of the node every subtraction succeeds, and what remains in
    the end is the level. *)
Lemma postorder_loop_low (l : nat) : ∀ (c : N) bm,
  (l <= 63)%nat →
  ∃ low, low < 2 ^ N.of_nat l ∧
  postorder_loop l (2 ^ (N.of_nat l + 1) - 2 + c) (2 ^ N.of_nat l - 1) bm =
    (c + N.of_nat l, N.lor bm low).
Proof.
  induction l as [|l IH]; intros c bm Hl.
  { exists 0. rewrite N.lor_0_r. split; [done|]. simpl. f_equal. lia. }
  cbn [postorder_loop].
  assert (2 ^ N.of_nat (S l) = 2 * 2 ^ N.of_nat l) as Hp
    by (rewrite Nat2N.inj_succ; apply N.pow_succ_r').
  assert (2 ^ (N.of_nat (S l) + 1) = 2 * 2 ^ N.of_nat (S l)) as Hp2
    by (rewrite (N.add_1_r (N.of_nat (S l))); apply N.pow_succ_r').
  assert (2 ^ (N.of_nat l + 1) = 2 * 2 ^ N.of_nat l) as Hp3
    by (rewrite (N.add_1_r (N.of_nat l)); apply N.pow_succ_r').
  pose proof (pow2_pos (N.of_nat l)) as Hpos.
  rewrite (proj2 (N.leb_le _ _)) by lia.
  assert (u64_shr (2 ^ N.of_nat (S l) - 1) 1 = 2 ^ N.of_nat l - 1) as ->.
  { replace (N.of_nat (S l)) with (N.of_nat l + 1) by lia. apply ones_half. }
  replace (2 ^ (N.of_nat (S l) + 1) - 2 + c - (2 ^ N.of_nat (S l) - 1))
    with (2 ^ (N.of_nat l + 1) - 2 + (c + 1)) by lia.
  edestruct (IH (c + 1)) as (low & Hlow & Heq); [lia|]. rewrite Heq.
  rewrite u64_shl_1 by lia.
  exists (N.lor (2 ^ N.of_nat l) low). split.
  - rewrite lor_pow2_add by done. lia.
  - f_equal; [lia|]. by rewrite N.lor_assoc.
Qed.

Lemma inorder_to_postorder_node {E} l k :
  valid_node l k → l < 63 → inorder_to_postorder (E:=E) (node l k) = Ok (post l k).
Proof.
  intros Hv Hl. pose proof (node_lt l k Hv) as Hlt.
  unfold inorder_to_postorder, children_of_node, nodes_to_left_of.
  rewrite isolate_node, u64_shl_pow2 by done.
  pose proof (pow2_pos l) as Hpos. pose proof (count_ones_le k) as Hc.
  assert (2 ^ (l + 1) = 2 * 2 ^ l) as Hp by (rewrite N.add_1_r; apply N.pow_succ_r').
  unfold u64_sub. replace (u64_checked_sub (2 ^ (l + 1)) 2) with (Some (2 ^ (l + 1) - 2))
    by (symmetry; apply u64_checked_sub_Some; lia). run_ok.
  replace (u64_checked_sub (2 ^ l) 1) with (Some (2 ^ l - 1))
    by (symmetry; apply u64_checked_sub_Some; lia). run_ok.
  assert (N.lxor (node l k) (2 ^ l - 1) = k * 2 ^ (l + 1)) as ->.
  { apply N.bits_inj. intros i.
    replace (k * 2 ^ (l + 1)) with (k * 2 ^ (l + 1) + 0) by lia.
    rewrite N.lxor_spec, node_testbit, ones_testbit, add_shift_testbit by apply pow2_pos.
    rewrite N.bits_0. repeat case_N; simpl; try lia; try done.
    rewrite xorb_false_r. f_equal. lia. }
  rewrite count_ones_mul_pow2. unfold node in Hlt.
  replace (u64_checked_sub (k * 2 ^ (l + 1)) (count_ones k))
    with (Some (k * 2 ^ (l + 1) - count_ones k))
    by (symmetry; apply u64_checked_sub_Some; split; [done|nia]). run_ok.
  unfold u64_add, post.
  replace (u64_checked_add (2 ^ (l + 1) - 2) (k * 2 ^ (l + 1) - count_ones k))
    with (Some ((k + 1) * 2 ^ (l + 1) - 2 - count_ones k)); [done|].
  symmetry. apply u64_checked_add_Some.
  assert (count_ones k <= k * 2 ^ (l + 1)) by nia. split; [nia|].
  assert (valid_node l k) as [_ Hk] by done.
  assert ((k + 1) * 2 ^ (l + 1) <= 2 ^ 64); [|nia].
  replace 64 with ((63 - l) + (l + 1)) by lia. rewrite (N.pow_add_r _ (63 - l)).
  apply N.mul_le_mono_r. lia.
Qed.

Lemma postorder_to_inorder_post {E} l k :
  valid_node l k → postorder_to_inorder (E:=E) (post l k) = Ok (node l k).
Proof.
  intros Hv. unfold postorder_to_inorder.
  pose proof Hv as [Hl Hk].
  pose proof (postorder_loop_high (N.to_nat l) (64 - N.to_nat l) k 0) as Hhigh.
  rewrite N2Nat.id in Hhigh.
  replace (N.to_nat l + (64 - N.to_nat l))%nat with 64%nat in Hhigh by lia.
  change (2 ^ N.of_nat 64 - 1) with U64_MAX in Hhigh.
  rewrite Hhigh; [|lia|].
  2: { apply (N.lt_le_trans _ _ _ Hk), N.pow_le_mono_r; lia. }
  destruct (postorder_loop_low (N.to_nat l) 0 (N.lor 0 (k * 2 ^ l))) as (low & Hlow & Hloop);
    [lia|].
  rewrite N2Nat.id, N.add_0_r in *. rewrite Hloop. rewrite N.add_0_l, N.lor_0_l.
  rewrite N.mod_small by (apply (N.le_lt_trans _ 63); [done|reflexivity]).
  unfold u64_shr_checked. rewrite (proj2 (N.ltb_lt l 64)) by lia. run_ok.
  assert (u64_shr (N.lor (k * 2 ^ l) low) l = k) as ->.
  { apply N.bits_inj. intros i. rewrite u64_shr_testbit, N.lor_spec.
    rewrite (testbit_above l low) by (done || lia). rewrite orb_false_r.
    replace (k * 2 ^ l) with (k * 2 ^ l + 0) by lia.
    rewrite add_shift_testbit by apply pow2_pos. case_N; [lia|]. f_equal. lia. }
  by apply from_level_and_pos_node.
Qed.

(** ** Properties *)

(** On the node of rank [k] at level [l] (below the root level, and not the
    one index the code's assertion excludes) [level] is [l], [parent] is the node
    of rank [k / 2] one level up, [sibling] flips the last bit of the rank, and
    [is_left_child] tells whether the rank is even. *)
Theorem position_navigation {E} l k
    (Hv : valid_node l k) (Hl : l < 63) (Hne : node l k ≠ 2 ^ 64 - 2) :
  position_level (node l k) = l ∧
  position_parent (E:=E) (node l k) = Ok (node (l + 1) (k / 2)) ∧
  position_sibling (E:=E) (node l k) = Ok (node l (N.lxor k 1)) ∧
  position_is_left_child (E:=E) (node l k) = Ok (N.even k) ∧
  position_is_right_child (E:=E) (node l k) = Ok (N.odd k).
Proof.
  pose proof (valid_node_invariant l k Hv Hne) as Hinv.
  assert (position_is_left_child (E:=E) (node l k) = Ok (N.even k)) as Hleft.
  { unfold position_is_left_child. rewrite Hinv. run_ok. by rewrite is_left_child_bits. }
  split; [by apply level_node|]. split; [by apply position_parent_node|]. split.
  - unfold position_sibling. rewrite Hinv. run_ok. by rewrite sibling_bits.
  - split; [done|]. unfold position_is_right_child. rewrite Hleft. run_ok.
    by rewrite N.negb_even.
Qed.

Lemma position_navigation_witness :
  position_level (node 1 2) = 1 ∧
  position_parent (E:=unit) (node 1 2) = Ok (node 2 1) ∧
  position_sibling (E:=unit) (node 1 2) = Ok (node 1 3) ∧
  position_is_left_child (E:=unit) (node 1 2) = Ok true ∧
  position_is_right_child (E:=unit) (node 1 2) = Ok false.
Proof.
  apply (position_navigation (E:=unit) 1 2); [split|..]; vm_compute; done.
Defined.

(** The children of an inner node are the nodes of ranks [2 k] and [2 k + 1]
    one level down, and each has it as parent. *)
Theorem position_children {E} l k
    (Hv : valid_node (l + 1) k) (Hne : node l (2 * k + 1) ≠ 2 ^ 64 - 2) :
  position_left_child (E:=E) (node (l + 1) k) = Ok (node l (2 * k)) ∧
  position_right_child (E:=E) (node (l + 1) k) = Ok (node l (2 * k + 1)) ∧
  position_parent (E:=E) (node l (2 * k)) = Ok (node (l + 1) k) ∧
  position_parent (E:=E) (node l (2 * k + 1)) = Ok (node (l + 1) k).
Proof.
  pose proof Hv as [Hl Hk].
  assert (∀ b, b < 2 → valid_node l (2 * k + b)) as Hvc.
  { intros b Hb. split; [lia|].
    replace (63 - l) with (N.succ (63 - (l + 1))) by lia. rewrite N.pow_succ_r'. lia. }
  pose proof (Hvc 0 ltac:(lia)) as Hv0. pose proof (Hvc 1 ltac:(lia)) as Hv1.
  rewrite N.add_0_r in Hv0.
  assert (node l (2 * k) < node l (2 * k + 1)) as Hlt.
  { unfold node. pose proof (pow2_pos (l + 1)). lia. }
  pose proof (node_lt _ _ Hv1) as Hlt1.
  assert (node (l + 1) k ≠ 2 ^ 64 - 2) as Hnp.
  { intros Heq. apply (f_equal (λ x, N.testbit x 0)) in Heq. rewrite node_testbit in Heq.
    destruct (N.ltb_spec 0 (l + 1)); [done|lia]. }
  assert (position_is_leaf (node (l + 1) k) = false) as Hleaf.
  { rewrite is_leaf_node. apply N.eqb_neq. lia. }
  split; [|split; [|split]].
  - unfold position_left_child, position_child.
    rewrite Hleaf, valid_node_invariant by done. run_ok.
    pose proof (child_bits l k Left Hv) as Hc. cbn in Hc |- *. by rewrite Hc, N.add_0_r.
  - unfold position_right_child, position_child.
    rewrite Hleaf, valid_node_invariant by done. run_ok.
    pose proof (child_bits l k Right Hv) as Hc. cbn in Hc |- *. by rewrite Hc.
  - rewrite position_parent_node by (done || lia).
    do 2 f_equal. rewrite N.mul_comm. by apply N.div_mul.
  - rewrite position_parent_node by (done || lia).
    do 2 f_equal. rewrite (N.mul_comm 2), N.div_add_l by done. apply N.add_0_r.
Qed.

Lemma position_children_witness :
  position_left_child (E:=unit) (node 2 1) = Ok (node 1 2) ∧
  position_right_child (E:=unit) (node 2 1) = Ok (node 1 3) ∧
  position_parent (E:=unit) (node 1 2) = Ok (node 2 1) ∧
  position_parent (E:=unit) (node 1 3) = Ok (node 2 1).
Proof. apply (position_children (E:=unit) 1 1); [split|]; vm_compute; done. Defined.

(** With [leaf_index] the last leaf, a node is freezable iff every leaf below
    it is present, and a placeholder iff none is; its leaves are
    [k * 2 ^ l .. (k + 1) * 2 ^ l]. *)
Theorem position_freezable_placeholder {E} l k leaf_index
    (Hv : valid_node l k) (Hi : leaf_index < 2 ^ 63) :
  is_freezable (E:=E) (node l k) leaf_index = Ok ((k + 1) * 2 ^ l <=? leaf_index + 1) ∧
  is_placeholder (E:=E) (node l k) leaf_index = Ok (leaf_index <? k * 2 ^ l).
Proof.
  pose proof (pow2_pos l) as Hpos.
  split.
  - unfold is_freezable. rewrite from_leaf_index_node, right_most_child_node by done.
    run_ok. rewrite !node_0. f_equal.
    assert (0 < (k + 1) * 2 ^ l) by (apply N.mul_pos_pos; lia).
    repeat case_N; lia || done.
  - unfold is_placeholder. rewrite from_leaf_index_node, left_most_child_node by done.
    run_ok. rewrite !node_0.
    assert (2 * (k * 2 ^ l) <= node l k).
    { unfold node. rewrite N.add_1_r, N.pow_succ_r'. lia. }
    repeat case_N; lia || done.
Qed.

Lemma position_freezable_placeholder_witness :
  is_freezable (E:=unit) (node 1 0) 2 = Ok true ∧ is_placeholder (E:=unit) (node 1 0) 2 = Ok false.
Proof.
  apply (position_freezable_placeholder (E:=unit) 1 0 2); [split|]; vm_compute; done.
Defined.

(** In-order to post-order and back is the identity on every node below the
    root level, and the post-order index of a node counts the nodes visited
    before it. *)
Theorem postorder_roundtrip {E} l k (Hv : valid_node l k) (Hl : l < 63) :
  inorder_to_postorder (E:=E) (node l k) = Ok (post l k) ∧
  postorder_to_inorder (E:=E) (post l k) = Ok (node l k).
Proof.
  split; [by apply inorder_to_postorder_node|by apply postorder_to_inorder_post].
Qed.

Lemma postorder_roundtrip_witness :
  inorder_to_postorder (E:=unit) (node 1 1) = Ok 5 ∧
  postorder_to_inorder (E:=unit) 5 = Ok (node 1 1).
Proof. apply (postorder_roundtrip (E:=unit) 1 1); [split|]; vm_compute; done. Defined.

(** For the root of the full tree, index [2 ^ 63 - 1], the two conversions do
    not match: its post-order index [2 ^ 64 - 2] is accepted and converted to it,
    but converting the root back panics on the subtraction in [children_of_node]. *)
Theorem postorder_root_panics (e : N → unit) :
  from_postorder_index e (2 ^ 64 - 2) = Ok (node 63 0) ∧
  to_postorder_index (E:=unit) (node 63 0) = Panic.
Proof. split; vm_compute; reflexivity. Qed.

(** Over [n] leaves the frozen-subtree iterator stops after one subtree per
    bit of [n], from left to right the nodes at the levels of those bits, highest
    first. *)
Theorem frozen_subtree_iterator_correct {E} n (Hn : n <= 2 ^ 63) :
  collect_frozen (E:=E) 65 (frozen_subtree_iterator n) = Ok (frozen_nodes 64 n).
Proof.
  unfold frozen_subtree_iterator. pose proof (collect_frozen_levels (E:=E) 64 65 0 n) as H.
  rewrite N.mul_0_l, N.add_0_l in H. apply H; [lia|lia| |done].
  change (N.of_nat 64) with 64. lia.
Qed.

Lemma frozen_subtree_iterator_correct_witness :
  collect_frozen (E:=unit) 65 (frozen_subtree_iterator 5) = Ok [node 2 0; node 0 4].
Proof.
  pose proof (frozen_subtree_iterator_correct (E:=unit) 5) as H.
  change [node 2 0; node 0 4] with (frozen_nodes 64 5). apply H. vm_compute. done.
Defined.

(** The root over [n > 0] leaves is the leftmost node of the least level whose
    full tree holds [n] leaves, and [root_level_from_leaf_count] is that level. *)
Theorem root_from_leaf_count_correct {E} n (Hn : 0 < n) (Hm : n <= 2 ^ 63) :
  ∃ l, root_level_from_leaf_count (E:=E) n = Ok l ∧
    root_from_leaf_count (E:=E) n = Ok (node l 0) ∧
    n <= 2 ^ l ∧ (1 < n → 2 ^ (l - 1) < n).
Proof.
  exists (N.size (n - 1)). unfold root_level_from_leaf_count, root_from_leaf_count.
  rewrite (proj2 (N.ltb_lt 0 n)) by done. run_ok.
  unfold root_from_leaf_index. rewrite from_leaf_index_node by lia. run_ok. rewrite node_0.
  destruct (N.eq_dec n 1) as [->|Hn1]; [by repeat split; try lia|].
  assert (n - 1 ≠ 0) as Hne by lia.
  pose proof (N.log2_spec (n - 1) ltac:(lia)) as [Hlog1 Hlog2].
  rewrite (N.size_log2 _ Hne) in *.
  assert (N.log2 (n - 1) < 63) as Hlog by (apply N.log2_lt_pow2; lia).
  split; [|split; [|split]].
  - f_equal. unfold leading_zeros. rewrite (N.size_log2 _ Hne). lia.
  - rewrite smear_half by lia. f_equal. unfold node. rewrite N.mul_0_l, N.add_0_l.
    rewrite <- N.double_spec, N.log2_double by lia. done.
  - lia.
  - intros _. replace (N.succ (N.log2 (n - 1)) - 1) with (N.log2 (n - 1)) by lia. lia.
Qed.

Lemma root_from_leaf_count_correct_witness :
  ∃ l, root_level_from_leaf_count (E:=unit) 5 = Ok l ∧
    root_from_leaf_count (E:=unit) 5 = Ok (node l 0) ∧ 5 <= 2 ^ l ∧ (1 < 5 → 2 ^ (l - 1) < 5).
Proof. apply (root_from_leaf_count_correct (E:=unit) 5); vm_compute; done. Defined.
