(* ===== verification/Accumulator.v ===== *)
(** * The in-memory Merkle accumulator and its proofs (types/src/proof)

    [InMemoryAccumulator] with its constructors, [append], [append_subtrees] and
    the root computation; the inclusion proof [AccumulatorProof], the range proof
    and the extension proof. The reference they are compared with is the Merkle
    tree built level by level over all the leaves. *)
From S2P Require Import Prelude Crypto Position.
Local Open Scope N_scope.

(** ** Data *)

Definition MAX_ACCUMULATOR_PROOF_DEPTH : N := 63.
Definition MAX_ACCUMULATOR_LEAVES : N := 2 ^ MAX_ACCUMULATOR_PROOF_DEPTH.

Record InMemoryAccumulator := mkAccumulator {
  frozen_subtree_roots : list HashValue;
  num_leaves : N;
  root_hash : HashValue;
}.

#[export] Instance InMemoryAccumulator_eq_dec : EqDecision InMemoryAccumulator.
Proof. solve_decision. Defined.

(** [Vec::pop] *)
Definition vec_pop {A} (v : list A) : option (A * list A) :=
  match reverse v with
  | [] => None
  | x :: r => Some (x, reverse r)
  end.

Lemma vec_pop_snoc {A} (v : list A) x : vec_pop (v ++ [x]) = Some (x, v).
Proof. unfold vec_pop. by rewrite reverse_snoc, reverse_involutive. Qed.
Lemma vec_pop_rev {A} (v : list A) x : vec_pop (reverse (x :: v)) = Some (x, reverse v).
Proof. rewrite reverse_cons. apply vec_pop_snoc. Qed.

Section accumulator.
(** [MerkleTreeInternalNode::<H>::new(left, right).hash()] *)
Context (node_hash : HashValue → HashValue → HashValue).

Abbreviation PLACEHOLDER := ACCUMULATOR_PLACEHOLDER_HASH.

(** ** Operations *)

(** The loop of [compute_root_hash]: one turn per bit of the bitmap, lowest
    first, taking a frozen root from the right for every bit set. *)
Fixpoint root_loop (bitmap : positive) (iter : list HashValue) (current_hash : HashValue)
  : outcome anyhow HashValue :=
  match bitmap with
  | xH =>
      '(r, _) ← expect (match iter with r :: it => Some (r, it) | [] => None end);
      Ok (node_hash r current_hash)
  | xI b =>
      '(r, it) ← expect (match iter with r :: it => Some (r, it) | [] => None end);
      root_loop b it (node_hash r current_hash)
  | xO b => root_loop b iter (node_hash current_hash PLACEHOLDER)
  end.

Definition compute_root_hash (roots : list HashValue) (n : N) : outcome anyhow HashValue :=
  match roots with
  | [] => Ok PLACEHOLDER
  | [r] => Ok r
  | _ =>
      bitmap ← u64_shr_checked n (trailing_zeros 64 n);
      match bitmap with
      | N0 => Ok PLACEHOLDER
      | Npos bitmap => root_loop bitmap (reverse roots) PLACEHOLDER
      end
  end.

Definition accumulator_new (roots : list HashValue) (n : N)
  : outcome anyhow InMemoryAccumulator :=
  _ ← ensure (lenN roots =? count_ones n)
        (fmt "The number of frozen subtrees does not match the number of leaves." [lenN roots; n]);
  h ← compute_root_hash roots n;
  Ok (mkAccumulator roots n h).

Definition accumulator_new_empty : InMemoryAccumulator :=
  mkAccumulator [] 0 PLACEHOLDER.

(** The [for _i in 0..num_trailing_ones] loop of [append_one]. *)
Fixpoint merge_last_two (times : nat) (roots : list HashValue)
  : outcome anyhow (list HashValue) :=
  match times with
  | O => Ok roots
  | S times =>
      '(right_hash, roots) ← expect (vec_pop roots);
      '(left_hash, roots) ← expect (vec_pop roots);
      merge_last_two times (roots ++ [node_hash left_hash right_hash])
  end.

Definition append_one (roots : list HashValue) (num_existing_leaves : N) (leaf : HashValue)
  : outcome anyhow (list HashValue) :=
  let num_trailing_ones := trailing_zeros 64 (u64_not num_existing_leaves) in
  merge_last_two (N.to_nat num_trailing_ones) (roots ++ [leaf]).

(** The [for leaf in leaves] loop of [append]. *)
Fixpoint append_leaves (roots : list HashValue) (n : N) (leaves : list HashValue)
  : outcome anyhow (list HashValue * N) :=
  match leaves with
  | [] => Ok (roots, n)
  | leaf :: leaves =>
      roots ← append_one roots n leaf;
      n ← u64_add n 1;
      append_leaves roots n leaves
  end.

Definition accumulator_append (acc : InMemoryAccumulator) (leaves : list HashValue)
  : outcome anyhow InMemoryAccumulator :=
  '(roots, n) ← append_leaves (frozen_subtree_roots acc) (num_leaves acc) leaves;
  match accumulator_new roots n with
  | Ok acc' => Ok acc'
  | _ => Panic
  end.

Definition accumulator_default : outcome anyhow InMemoryAccumulator :=
  match accumulator_new [] 0 with Ok acc => Ok acc | _ => Panic end.

Definition accumulator_from_leaves (leaves : list HashValue)
  : outcome anyhow InMemoryAccumulator :=
  acc ← accumulator_default;
  accumulator_append acc leaves.

Definition accumulator_version (acc : InMemoryAccumulator) : Version :=
  if num_leaves acc =? 0 then 0 else num_leaves acc - 1.

(** The inner loop of [append_subtrees]: while [current_num_leaves & mask != 0]. *)
Fixpoint carry_loop (fuel : nat) (current_num_leaves mask : N)
    (roots : list HashValue) (current_hash : HashValue)
  : outcome anyhow (list HashValue * HashValue * N) :=
  match fuel with
  | O => Panic
  | S fuel =>
      if N.land current_num_leaves mask =? 0 then Ok (roots, current_hash, mask)
      else
        '(left_hash, roots) ← expect (vec_pop roots);
        carry_loop fuel current_num_leaves (u64_shl mask 1) roots
          (node_hash left_hash current_hash)
  end.

(** The outer loop: while [remaining_new_leaves >= rightmost_frozen_subtree_size]. *)
Fixpoint combine_loop (fuel : nat) (roots : list HashValue)
    (current_num_leaves remaining_new_leaves size : N) (subtrees : list HashValue)
  : outcome anyhow (list HashValue * N * N * list HashValue) :=
  match fuel with
  | O => Panic
  | S fuel =>
      if remaining_new_leaves <? size
      then Ok (roots, current_num_leaves, remaining_new_leaves, subtrees)
      else
        '(h, subtrees) ← ok_or (match subtrees with h :: s => Some (h, s) | [] => None end)
                            (fmt "Too few subtrees." []);
        '(roots, current_hash, mask) ← carry_loop 65 current_num_leaves size roots h;
        current_num_leaves ← u64_add current_num_leaves size;
        remaining_new_leaves ← u64_sub remaining_new_leaves size;
        combine_loop fuel (roots ++ [current_hash]) current_num_leaves
          remaining_new_leaves mask subtrees
  end.

Definition append_subtrees (acc : InMemoryAccumulator) (subtrees : list HashValue)
    (num_new_leaves : N) : outcome anyhow InMemoryAccumulator :=
  room ← u64_sub MAX_ACCUMULATOR_LEAVES (num_leaves acc);
  _ ← ensure (num_new_leaves <=? room)
        (fmt "Too many new leaves." [num_leaves acc; num_new_leaves]);
  if num_leaves acc =? 0 then accumulator_new subtrees num_new_leaves
  else
    let size := u64_shl 1 (trailing_zeros 64 (num_leaves acc)) in
    '(roots, n, remaining, rest) ←
      combine_loop 65 (frozen_subtree_roots acc) (num_leaves acc) num_new_leaves size subtrees;
    n ← u64_add n remaining;
    accumulator_new (roots ++ rest) n.
(** ** Proofs *)

Record AccumulatorProof := mkAccumulatorProof { ap_siblings : list HashValue }.

(** The step of the fold in [AccumulatorProof::verify]. *)
Definition proof_step (st : HashValue * N) (sibling_hash : HashValue) : HashValue * N :=
  let '(hash, index) := st in
  (if index mod 2 =? 0 then node_hash hash sibling_hash else node_hash sibling_hash hash,
   index / 2).

Definition accumulator_proof_verify (proof : AccumulatorProof)
    (expected_root_hash element_hash : HashValue) (element_index : N) : outcome anyhow unit :=
  _ ← ensure (lenN (ap_siblings proof) <=? MAX_ACCUMULATOR_PROOF_DEPTH)
        (fmt "Accumulator proof has more than the maximum number of siblings."
           [MAX_ACCUMULATOR_PROOF_DEPTH; lenN (ap_siblings proof)]);
  let actual_root_hash :=
    (foldl proof_step (element_hash, element_index) (ap_siblings proof)).1 in
  ensure (actual_root_hash =? expected_root_hash)
    (fmt "Root hashes do not match." [actual_root_hash; expected_root_hash]).

Record AccumulatorConsistencyProof := mkAccumulatorConsistencyProof {
  acp_subtrees : list HashValue;
}.

Record AccumulatorRangeProof := mkAccumulatorRangeProof {
  arp_left_siblings : list HashValue;
  arp_right_siblings : list HashValue;
}.

Definition accumulator_range_proof_new_empty : AccumulatorRangeProof :=
  mkAccumulatorRangeProof [] [].

(** [chunks_exact(2)]: the parents of the full pairs, and the remainder. *)
Fixpoint parents_of_chunks (children : list HashValue) : list HashValue * option HashValue :=
  match children with
  | [] => ([], None)
  | [x] => ([], Some x)
  | x :: y :: rest =>
      let '(parents, remainder) := parents_of_chunks rest in
      (node_hash x y :: parents, remainder)
  end.

(** One turn of the loop of [AccumulatorRangeProof::verify]: the siblings left,
    the first position and the hashes one level up. *)
Definition range_level (first_pos : Position) (left right current_hashes : list HashValue)
  : outcome anyhow (Position * list HashValue * list HashValue * list HashValue) :=
  is_right ← position_is_right_child first_pos;
  '(first_parent, left, children) ←
    (if is_right : bool then
       '(left_hash, left) ← ok_or (match left with x :: r => Some (x, r) | [] => None end)
          (fmt "First child is a right child, but missing sibling on the left." []);
       '(right_hash, children) ←
          expect (match current_hashes with x :: r => Some (x, r) | [] => None end);
       Ok ([node_hash left_hash right_hash], left, children)
     else Ok ([], left, current_hashes));
  let '(parents, remainder) := parents_of_chunks children in
  '(last_parent, right) ←
    match remainder with
    | Some left_hash =>
        '(right_hash, right) ← ok_or (match right with x :: r => Some (x, r) | [] => None end)
          (fmt "Last child is a left child, but missing sibling on the right." []);
        Ok ([node_hash left_hash right_hash], right)
    | None => Ok ([], right)
    end;
  first_pos ← position_parent first_pos;
  Ok (first_pos, left, right, first_parent ++ parents ++ last_parent).

(** The [while] loop. Every turn halves the hashes or takes a sibling or moves
    the first position one level up, see [range_loop_fuel]. *)
Fixpoint range_loop (fuel : nat) (first_pos : Position)
    (left right current_hashes : list HashValue) : outcome anyhow (list HashValue) :=
  if (1 <? lenN current_hashes) || negb (lenN left =? 0) || negb (lenN right =? 0) then
    match fuel with
    | O => Panic
    | S fuel =>
        '(first_pos, left, right, current_hashes) ←
          range_level first_pos left right current_hashes;
        range_loop fuel first_pos left right current_hashes
    end
  else Ok current_hashes.

Definition accumulator_range_proof_verify (proof : AccumulatorRangeProof)
    (expected_root_hash : HashValue) (first_leaf_index : option N)
    (leaf_hashes : list HashValue) : outcome anyhow unit :=
  match first_leaf_index with
  | None =>
      _ ← ensure (lenN leaf_hashes =? 0)
        (fmt "first_leaf_index indicated empty list while leaf_hashes is not empty." []);
      ensure ((lenN (arp_left_siblings proof) =? 0) && (lenN (arp_right_siblings proof) =? 0))
        (fmt "No siblings are needed." [])
  | Some first_leaf_index =>
      _ ← ensure (lenN (arp_left_siblings proof) <=? MAX_ACCUMULATOR_PROOF_DEPTH)
        (fmt "Proof has too many left siblings."
           [MAX_ACCUMULATOR_PROOF_DEPTH; lenN (arp_left_siblings proof)]);
      _ ← ensure (lenN (arp_right_siblings proof) <=? MAX_ACCUMULATOR_PROOF_DEPTH)
        (fmt "Proof has too many right siblings."
           [MAX_ACCUMULATOR_PROOF_DEPTH; lenN (arp_right_siblings proof)]);
      _ ← ensure (negb (lenN leaf_hashes =? 0))
        (fmt "leaf_hashes is empty while first_leaf_index indicated non-empty list." []);
      first_pos ← from_leaf_index first_leaf_index;
      current_hashes ← range_loop 64 first_pos (arp_left_siblings proof)
        (arp_right_siblings proof) leaf_hashes;
      actual ← expect (head current_hashes);
      ensure (actual =? expected_root_hash)
        (fmt "Root hashes do not match." [actual; expected_root_hash])
  end.

Record AccumulatorExtensionProof := mkAccumulatorExtensionProof {
  aep_frozen_subtree_roots : list HashValue;
  aep_num_leaves : N;
  aep_leaves : list HashValue;
}.

Definition accumulator_extension_proof_verify (proof : AccumulatorExtensionProof)
    (original_root : HashValue) : outcome anyhow InMemoryAccumulator :=
  original_tree ← accumulator_new (aep_frozen_subtree_roots proof) (aep_num_leaves proof);
  _ ← ensure (root_hash original_tree =? original_root)
        (fmt "Root hashes do not match." [root_hash original_tree; original_root]);
  accumulator_append original_tree (aep_leaves proof).

(** [TransactionInfoListWithProof::verify_extends_ledger], on the hashes of the
    transaction infos. *)
Definition verify_extends_ledger (proof : AccumulatorRangeProof)
    (transaction_infos : list HashValue) (num_txns_in_ledger : N) (ledger_root : HashValue)
    (first_transaction_info_version : option Version) : outcome anyhow N :=
  match first_transaction_info_version with
  | Some first_version =>
      _ ← ensure (first_version <=? num_txns_in_ledger)
        (fmt "Transaction list too new." [num_txns_in_ledger; first_version]);
      let num_overlap_txns := num_txns_in_ledger - first_version in
      if lenN transaction_infos <? num_overlap_txns then Ok (lenN transaction_infos)
      else
        let overlap_txn_infos := take (N.to_nat num_overlap_txns) transaction_infos in
        accu ← accumulator_new (reverse (arp_left_siblings proof)) first_version;
        accu_from_proof ← accumulator_append accu overlap_txn_infos;
        _ ← ensure (root_hash accu_from_proof =? ledger_root)
          (fmt "Fork happens because the current synced_trees doesn't match the txn list provided." []);
        Ok num_overlap_txns
  | None =>
      _ ← ensure (lenN transaction_infos =? 0) (fmt "Condition failed: transaction_infos is empty" []);
      Ok 0
  end.

(** ** Specification: the Merkle tree built level by level

    [pair_up] hashes one level into the next, filling an incomplete last pair with
    the placeholder; the root is what is left when one hash remains. [pair_full]
    keeps the complete pairs only, and the frozen roots, from right to left, are
    the last hash of each level of odd width. *)

Fixpoint pair_up (l : list HashValue) : list HashValue :=
  match l with
  | [] => []
  | [x] => [node_hash x PLACEHOLDER]
  | x :: y :: r => node_hash x y :: pair_up r
  end.

Fixpoint pair_full (l : list HashValue) : list HashValue :=
  match l with
  | [] => []
  | [x] => []
  | x :: y :: r => node_hash x y :: pair_full r
  end.

Fixpoint merkle_root_fuel (fuel : nat) (l : list HashValue) : HashValue :=
  match fuel, l with
  | _, [] => PLACEHOLDER
  | _, [x] => x
  | O, _ => PLACEHOLDER
  | S fuel, _ => merkle_root_fuel fuel (pair_up l)
  end.

Definition merkle_root (l : list HashValue) : HashValue := merkle_root_fuel (length l) l.

Fixpoint frozen_rev_fuel (fuel : nat) (l : list HashValue) : list HashValue :=
  match fuel with
  | O => []
  | S fuel =>
      (if Nat.odd (length l) then match last l with Some x => [x] | None => [] end else [])
        ++ frozen_rev_fuel fuel (pair_full l)
  end.

Definition frozen_rev (l : list HashValue) : list HashValue := frozen_rev_fuel (length l) l.

(** The accumulator that holds exactly [leaves]. *)
Definition accumulator_of (leaves : list HashValue) : InMemoryAccumulator :=
  mkAccumulator (reverse (frozen_rev leaves)) (lenN leaves) (merkle_root leaves).

(** The siblings on the way from leaf [i] to the root. *)
Fixpoint merkle_path (fuel : nat) (l : list HashValue) (i : nat) : list HashValue :=
  match fuel, l with
  | _, [] => []
  | _, [_] => []
  | O, _ => []
  | S fuel, _ =>
      (default PLACEHOLDER (l !! (if Nat.even i then S i else pred i)))
        :: merkle_path fuel (pair_up l) (i / 2)
  end.

(** Two different pairs with the same hash. *)
Definition Collision : Prop :=
  ∃ a b c d, (a, b) ≠ (c, d) ∧ node_hash a b = node_hash c d.

(** ** Lemmas *)

Lemma pair_full_app l m :
  Nat.even (length l) = true → pair_full (l ++ m) = pair_full l ++ pair_full m.
Proof.
  induction l as [|x|x y r IH] using list_pair_ind; intros He; [done|done|].
  simpl. by rewrite IH.
Qed.
Lemma pair_up_app l m :
  Nat.even (length l) = true → pair_up (l ++ m) = pair_full l ++ pair_up m.
Proof.
  induction l as [|x|x y r IH] using list_pair_ind; intros He; [done|done|].
  simpl. by rewrite IH.
Qed.
Lemma pair_up_even l : Nat.even (length l) = true → pair_up l = pair_full l.
Proof. intros He. rewrite <- (app_nil_r l) at 1. rewrite pair_up_app by done. apply app_nil_r. Qed.
Lemma pair_full_snoc l x : Nat.even (length l) = true → pair_full (l ++ [x]) = pair_full l.
Proof. intros He. rewrite pair_full_app by done. apply app_nil_r. Qed.
Lemma lenN_pair_full l : lenN (pair_full l) = lenN l / 2.
Proof.
  unfold lenN. induction l as [|x|x y r IH] using list_pair_ind; [done|done|].
  cbn [pair_full length] in *. rewrite !Nat2N.inj_succ, IH.
  replace (N.succ (N.succ (N.of_nat (length r)))) with (N.of_nat (length r) + 1 * 2) by lia.
  rewrite N.div_add by done. lia.
Qed.
Lemma lenN_pair_up l : lenN (pair_up l) = (lenN l + 1) / 2.
Proof.
  unfold lenN. induction l as [|x|x y r IH] using list_pair_ind; [done|done|].
  cbn [pair_up length] in *. rewrite !Nat2N.inj_succ, IH.
  replace (N.succ (N.succ (N.of_nat (length r))) + 1) with (N.of_nat (length r) + 1 + 1 * 2) by lia.
  rewrite N.div_add by done. lia.
Qed.
Lemma length_pair_full l : (length (pair_full l) <= length l / 2)%nat.
Proof.
  pose proof (lenN_pair_full l) as H. unfold lenN in H.
  rewrite <- (Nat2N.id (length (pair_full l))), H, N2Nat.inj_div, Nat2N.id. done.
Qed.
Lemma length_pair_up_lt l : (2 <= length l)%nat → (length (pair_up l) < length l)%nat.
Proof. pose proof (lenN_pair_up l) as H. unfold lenN in H. dlia. Qed.
Lemma length_pair_full_lt l : l ≠ [] → (length (pair_full l) < length l)%nat.
Proof.
  intros Hl. pose proof (lenN_pair_full l) as H. unfold lenN in H.
  destruct l; [done|]. cbn [length] in *. dlia.
Qed.

Lemma odd_lenN {A} (l : list A) : Nat.odd (length l) = N.testbit (lenN l) 0.
Proof.
  unfold lenN. rewrite N.bit0_odd. destruct (Nat.odd (length l)) eqn:He; symmetry.
  - apply Nat.odd_spec in He as [m Hm]. apply N.odd_spec. exists (N.of_nat m). lia.
  - rewrite <- Nat.negb_even in He. apply negb_false_iff, Nat.even_spec in He as [m Hm].
    rewrite <- N.negb_even. apply negb_false_iff, N.even_spec. exists (N.of_nat m). lia.
Qed.
Lemma odd_snoc {A} (l : list A) :
  Nat.odd (length l) = true → ∃ l' x, l = l' ++ [x] ∧ Nat.even (length l') = true.
Proof.
  intros Ho. destruct l as [|x l' _] using rev_ind; [done|]. exists l', x. split; [done|].
  by rewrite length_app, Nat.add_1_r, Nat.odd_succ in Ho.
Qed.

Lemma frozen_rev_fuel_irrel f : ∀ l, (length l <= f)%nat → frozen_rev_fuel f l = frozen_rev l.
Proof.
  unfold frozen_rev. induction f as [f IH] using lt_wf_ind. intros l Hl.
  destruct (decide (l = [])) as [->|Hne].
  { clear. induction f; simpl; done. }
  pose proof (length_pair_full_lt l Hne).
  destruct f as [|f]; [destruct l; simpl in *; done || lia|].
  destruct (length l) as [|n] eqn:Hn; [destruct l; done|]. cbn [frozen_rev_fuel]. rewrite Hn.
  f_equal. rewrite (IH f) by lia. symmetry. apply (IH n); lia.
Qed.
Lemma frozen_rev_unfold l : l ≠ [] →
  frozen_rev l =
    (if Nat.odd (length l) then match last l with Some x => [x] | None => [] end else [])
      ++ frozen_rev (pair_full l).
Proof.
  intros Hne. unfold frozen_rev at 1. pose proof (length_pair_full_lt l Hne).
  destruct (length l) as [|n] eqn:Hn; [destruct l; done|]. cbn [frozen_rev_fuel].
  rewrite Hn, frozen_rev_fuel_irrel by lia. done.
Qed.
Lemma frozen_rev_even l : Nat.even (length l) = true → frozen_rev l = frozen_rev (pair_full l).
Proof.
  intros He. destruct (decide (l = [])) as [->|Hne]; [done|].
  rewrite frozen_rev_unfold by done. by rewrite <- Nat.negb_even, He.
Qed.
Lemma frozen_rev_snoc l x :
  Nat.even (length l) = true → frozen_rev (l ++ [x]) = x :: frozen_rev (pair_full l).
Proof.
  intros He. rewrite frozen_rev_unfold by (by destruct l).
  rewrite length_app, Nat.add_1_r, Nat.odd_succ, He, last_snoc, pair_full_snoc by done. done.
Qed.

Lemma merkle_root_fuel_irrel f : ∀ l, (length l <= f)%nat → merkle_root_fuel f l = merkle_root l.
Proof.
  unfold merkle_root. induction f as [f IH] using lt_wf_ind. intros l Hl.
  destruct l as [|x [|y r]]; [by destruct f|by destruct f|].
  pose proof (length_pair_up_lt (x :: y :: r) ltac:(simpl; lia)) as Hlt.
  destruct f as [|f]; [simpl in Hl; lia|].
  change (merkle_root_fuel f (pair_up (x :: y :: r)) =
    merkle_root_fuel (S (length r)) (pair_up (x :: y :: r))).
  cbn [length] in Hl, Hlt. rewrite (IH f) by lia. symmetry. apply (IH (S (length r))); lia.
Qed.
Lemma merkle_root_pair l : (2 <= length l)%nat → merkle_root l = merkle_root (pair_up l).
Proof.
  intros Hl. pose proof (length_pair_up_lt l Hl). unfold merkle_root at 1.
  destruct l as [|x [|y r]]; [simpl in *; lia..|].
  change (merkle_root_fuel (S (length r)) (pair_up (x :: y :: r)) = merkle_root (pair_up (x :: y :: r))).
  apply merkle_root_fuel_irrel. cbn [length] in *. lia.
Qed.

Lemma testbit_half_len l (t : N) :
  N.testbit (lenN (pair_full l)) t = N.testbit (lenN l) (t + 1).
Proof. rewrite lenN_pair_full. apply testbit_half. Qed.

(** As many merges as the leaf count has trailing ones. *)
Lemma merge_last_two_frozen (t : nat) : ∀ l x,
  (∀ i, i < N.of_nat t → N.testbit (lenN l) i = true) →
  N.testbit (lenN l) (N.of_nat t) = false →
  merge_last_two t (reverse (frozen_rev l) ++ [x]) = Ok (reverse (frozen_rev (l ++ [x]))).
Proof.
  induction t as [|t IH]; intros l x Hones Hzero.
  - change (N.of_nat 0) with 0 in Hzero. rewrite <- odd_lenN, <- Nat.negb_even in Hzero.
    apply negb_false_iff in Hzero. cbn [merge_last_two].
    by rewrite frozen_rev_snoc, (frozen_rev_even l), reverse_cons by done.
  - assert (Nat.odd (length l) = true) as Hodd by (rewrite odd_lenN; apply Hones; lia).
    destruct (odd_snoc l Hodd) as (l' & y & -> & He).
    cbn [merge_last_two]. rewrite vec_pop_snoc. run_ok.
    rewrite frozen_rev_snoc, vec_pop_rev by done. run_ok.
    rewrite IH.
    + by rewrite <- app_assoc, (frozen_rev_even (l' ++ _)), pair_full_app
        by (done || rewrite length_app, Nat.even_add; by rewrite He).
    + intros i Hi. rewrite testbit_half_len. specialize (Hones (i + 1) ltac:(lia)).
      rewrite <- testbit_half_len, pair_full_snoc, testbit_half_len in Hones by done. done.
    + rewrite <- (pair_full_snoc l' y), testbit_half_len by done.
      by rewrite N.add_1_r, <- Nat2N.inj_succ.
Qed.

Lemma append_one_frozen l x :
  lenN l < U64_MAX →
  append_one (reverse (frozen_rev l)) (lenN l) x = Ok (reverse (frozen_rev (l ++ [x]))).
Proof.
  intros Hl. unfold append_one.
  assert (∀ i, i < 64 → N.testbit (u64_not (lenN l)) i = negb (N.testbit (lenN l) i)) as Hnot.
  { intros i Hi. rewrite u64_not_testbit by (unfold U64_MAX in Hl; lia).
    by rewrite (proj2 (N.ltb_lt i 64)). }
  assert (u64_not (lenN l) ≠ 0) as Hne.
  { unfold u64_not, U64_MAX in *. intros Heq.
    assert (N.lnot (N.lnot (lenN l) 64) 64 = 2 ^ 64 - 1) as H by (by rewrite Heq).
    rewrite N.lnot_involutive in H. lia. }
  destruct (trailing_zeros_spec 64 _ Hne) as [Htz Hlow].
  set (t := trailing_zeros 64 (u64_not (lenN l))) in *.
  assert (t < 64) as Ht.
  { apply N.nle_gt. intros Hge. unfold u64_not in Htz.
    rewrite N.lnot_spec_high, (testbit_above 64) in Htz by (unfold U64_MAX in *; lia). done. }
  apply merge_last_two_frozen; rewrite N2Nat.id.
  - intros i Hi. specialize (Hlow i Hi). rewrite Hnot in Hlow by lia.
    by apply negb_false_iff in Hlow.
  - rewrite Hnot in Htz by done. by apply negb_true_iff in Htz.
Qed.

Lemma lenN_snoc {A} (l : list A) x : lenN (l ++ [x]) = lenN l + 1.
Proof. unfold lenN. rewrite length_app. simpl. lia. Qed.

Lemma append_leaves_frozen new : ∀ l,
  lenN l + lenN new < U64_MAX →
  append_leaves (reverse (frozen_rev l)) (lenN l) new =
    Ok (reverse (frozen_rev (l ++ new)), lenN (l ++ new)).
Proof.
  induction new as [|x new IH]; intros l Hl; [by rewrite app_nil_r|].
  assert (lenN (x :: new) = lenN new + 1) as Hx by (unfold lenN; simpl; lia).
  cbn [append_leaves]. rewrite append_one_frozen by lia. run_ok. unfold u64_add.
  rewrite (proj2 (u64_checked_add_Some (lenN l) 1 (lenN l + 1)))
    by (unfold U64_MAX in *; lia). run_ok.
  rewrite <- (lenN_snoc l x), IH by (rewrite lenN_snoc; lia). by rewrite <- app_assoc.
Qed.

(** ** The root *)

Lemma root_loop_spec (b : positive) : ∀ l cur,
  lenN l = Npos b → root_loop b (frozen_rev l) cur = Ok (merkle_root (l ++ [cur])).
Proof.
  induction b as [b IH|b IH|]; intros l cur Hl.
  - assert (Nat.odd (length l) = true) as Ho by (by rewrite odd_lenN, Hl).
    destruct (odd_snoc l Ho) as (l' & y & -> & He).
    cbn [root_loop]. rewrite frozen_rev_snoc by done. run_ok.
    rewrite IH by (rewrite <- (pair_full_snoc l' y), lenN_pair_full, Hl by done; dlia).
    rewrite (merkle_root_pair ((l' ++ [y]) ++ [cur])) by (rewrite !length_app; simpl; lia).
    by rewrite <- app_assoc, pair_up_app.
  - assert (Nat.odd (length l) = false) as Ho by (by rewrite odd_lenN, Hl).
    rewrite <- Nat.negb_even in Ho. apply negb_false_iff in Ho.
    cbn [root_loop]. rewrite frozen_rev_even by done.
    rewrite IH by (rewrite lenN_pair_full, Hl by done; dlia).
    rewrite (merkle_root_pair (l ++ [cur]))
      by (unfold lenN in Hl; rewrite !length_app; simpl; lia).
    by rewrite pair_up_app.
  - destruct l as [|x [|y l]]; unfold lenN in Hl; simpl in Hl; [lia| |lia]. done.
Qed.

(** Levels of even width neither add frozen roots nor placeholders. *)
Lemma strip_zeros (t : nat) : ∀ l,
  (∀ i, i < N.of_nat t → N.testbit (lenN l) i = false) →
  ∃ l', lenN l' = lenN l / 2 ^ N.of_nat t ∧ frozen_rev l' = frozen_rev l ∧
    merkle_root l' = merkle_root l.
Proof.
  induction t as [|t IH]; intros l Hz.
  { exists l. change (2 ^ N.of_nat 0) with 1. by rewrite N.div_1_r. }
  assert (Nat.even (length l) = true) as He.
  { pose proof (Hz 0 ltac:(lia)) as H0. rewrite <- odd_lenN, <- Nat.negb_even in H0.
    by apply negb_false_iff in H0. }
  destruct (IH (pair_full l)) as (l' & H1 & H2 & H3).
  { intros i Hi. rewrite testbit_half_len. apply Hz. lia. }
  exists l'. split; [|split].
  - rewrite H1, lenN_pair_full, N.Div0.div_div. f_equal. by rewrite Nat2N.inj_succ, N.pow_succ_r'.
  - by rewrite H2, <- frozen_rev_even.
  - rewrite H3. destruct l as [|x [|y l]]; [done|done|].
    rewrite (merkle_root_pair (x :: y :: l)) by (simpl; lia). by rewrite pair_up_even.
Qed.

Lemma length_frozen_rev l : lenN (frozen_rev l) = count_ones (lenN l).
Proof.
  remember (length l) as n eqn:Hn. revert l Hn.
  induction n as [n IH] using lt_wf_ind. intros l Hn.
  destruct (decide (l = [])) as [->|Hne]; [done|].
  assert (lenN (frozen_rev (pair_full l)) = count_ones (lenN l / 2)) as Hrec.
  { rewrite <- lenN_pair_full. eapply IH; [|done]. subst. by apply length_pair_full_lt. }
  destruct (Nat.odd (length l)) eqn:Ho.
  - destruct (odd_snoc l Ho) as (l' & y & -> & He).
    rewrite pair_full_snoc in Hrec by done. rewrite frozen_rev_snoc by done.
    rewrite odd_lenN, N.bit0_odd in Ho. apply N.odd_spec in Ho as [m Hm]. rewrite Hm in *.
    replace ((2 * m + 1) / 2) with m in * by dlia.
    rewrite count_ones_succ_double, <- Hrec. unfold lenN. simpl. lia.
  - rewrite <- Nat.negb_even in Ho. apply negb_false_iff in Ho.
    rewrite frozen_rev_even, Hrec by done.
    apply Nat.even_spec in Ho as [m Hm].
    assert (lenN l = 2 * N.of_nat m) as -> by (unfold lenN; lia).
    rewrite count_ones_double. f_equal. dlia.
Qed.

Lemma compute_root_hash_spec l :
  lenN l < 2 ^ 64 → compute_root_hash (reverse (frozen_rev l)) (lenN l) = Ok (merkle_root l).
Proof.
  intros Hl. destruct (decide (l = [])) as [->|Hne]; [done|].
  assert (lenN l ≠ 0) as Hn by (by destruct l).
  destruct (trailing_zeros_spec 64 _ Hn) as [Htz Hlow].
  unfold compute_root_hash.
  set (t := trailing_zeros 64 (lenN l)) in *.
  assert (t < 64) as Ht.
  { apply N.nle_gt. intros Hge. rewrite (testbit_above 64) in Htz by lia. done. }
  destruct (strip_zeros (N.to_nat t) l) as (l' & Hlen & Hfr & Hroot); rewrite N2Nat.id in *;
    [done|].
  rewrite <- Hfr, <- Hroot.
  assert (Nat.odd (length l') = true) as Ho.
  { rewrite odd_lenN, Hlen, <- N.shiftr_div_pow2, N.shiftr_spec'. done. }
  destruct (odd_snoc l' Ho) as (l2 & x & -> & He).
  rewrite frozen_rev_snoc by done.
  destruct (decide (l2 = [])) as [->|Hne2]; [done|].
  assert (∃ y z r, reverse (x :: frozen_rev (pair_full l2)) = y :: z :: r) as (y & z & r & Hyz).
  { assert (2 <= lenN (frozen_rev (l2 ++ [x]))) as H2.
    { rewrite length_frozen_rev, lenN_snoc. rewrite lenN_snoc in Hlen.
      apply Nat.even_spec in He as [m Hm].
      assert (lenN l2 = 2 * N.of_nat m) as -> by (unfold lenN; lia).
      rewrite count_ones_succ_double.
      destruct (N.of_nat m) as [|p] eqn:Hp; [destruct l2; simpl in *; done || lia|].
      simpl. clear. assert (1 <= pos_count_ones p); [|lia]. induction p; simpl; lia. }
    rewrite frozen_rev_snoc in H2 by done.
    unfold lenN in H2. rewrite <- length_reverse in H2.
    destruct (reverse _) as [|y [|z r]]; simpl in H2; [lia..|]. by eauto. }
  rewrite Hyz. unfold u64_shr_checked. rewrite (proj2 (N.ltb_lt t 64)) by done. run_ok.
  unfold u64_shr. rewrite N.shiftr_div_pow2, <- Hlen.
  destruct (lenN (l2 ++ [x])) as [|b] eqn:Hb; [rewrite lenN_snoc in Hb; lia|].
  rewrite <- Hyz, reverse_involutive, <- frozen_rev_snoc, root_loop_spec by done.
  f_equal.
  assert (2 <= length (l2 ++ [x]))%nat by (rewrite length_app; destruct l2; [done|simpl; lia]).
  rewrite (merkle_root_pair (l2 ++ [x])), (merkle_root_pair ((l2 ++ [x]) ++ _))
    by (rewrite ?(length_app (_ ++ _)); lia).
  by rewrite <- app_assoc, (pair_up_app l2 ([x] ++ _)), (pair_up_app l2 [x]).
Qed.

Lemma accumulator_new_spec l :
  lenN l < 2 ^ 64 → accumulator_new (reverse (frozen_rev l)) (lenN l) = Ok (accumulator_of l).
Proof.
  intros Hl. unfold accumulator_new, accumulator_of.
  replace (lenN (reverse (frozen_rev l))) with (count_ones (lenN l))
    by (rewrite <- length_frozen_rev; unfold lenN; by rewrite length_reverse).
  rewrite N.eqb_refl. run_ok. by rewrite compute_root_hash_spec.
Qed.

Lemma accumulator_append_spec l new :
  lenN l + lenN new < U64_MAX →
  accumulator_append (accumulator_of l) new = Ok (accumulator_of (l ++ new)).
Proof.
  intros Hl. unfold accumulator_append. cbn [accumulator_of frozen_subtree_roots num_leaves].
  rewrite append_leaves_frozen by done. run_ok.
  rewrite accumulator_new_spec; [done|].
  unfold lenN, U64_MAX in *. rewrite length_app. lia.
Qed.

(** ** Appending subtrees

    A subtree of [2 ^ s] leaves is one hash of the [s]-th level, so that combining
    it with the frozen roots is appending one leaf to that level. *)

Fixpoint levels (s : nat) (l : list HashValue) : list HashValue :=
  match s with O => l | S s => levels s (pair_full l) end.

Definition low_zeros (s : nat) (n : N) : Prop :=
  ∀ i, i < N.of_nat s → N.testbit n i = false.

Lemma low_zeros_half s n : low_zeros (S s) n → low_zeros s (n / 2).
Proof. intros Hz i Hi. rewrite testbit_half. apply Hz. lia. Qed.
Lemma low_zeros_mul s n : low_zeros s n → n = n / 2 ^ N.of_nat s * 2 ^ N.of_nat s.
Proof.
  intros Hz. apply N.bits_inj. intros i. destruct (N.lt_ge_cases i (N.of_nat s)).
  - rewrite Hz, N.mul_pow2_bits_low by done. done.
  - rewrite N.mul_pow2_bits_high, N.div_pow2_bits by done. f_equal. lia.
Qed.
Lemma low_zeros_of_mul s n : low_zeros s (n * 2 ^ N.of_nat s).
Proof. intros i Hi. by apply N.mul_pow2_bits_low. Qed.
Lemma low_zeros_even s n : low_zeros (S s) n → n = 2 * (n / 2).
Proof.
  intros Hz. specialize (Hz 0 ltac:(lia)). rewrite N.bit0_odd, <- N.negb_even in Hz.
  apply negb_false_iff, N.even_spec in Hz as [m ->]. dlia.
Qed.

Lemma even_lenN {A} (l : list A) m : lenN l = 2 * m → Nat.even (length l) = true.
Proof. intros Hl. apply Nat.even_spec. exists (N.to_nat m). unfold lenN in Hl. lia. Qed.

Lemma levels_spec s : ∀ l, low_zeros s (lenN l) →
  lenN (levels s l) = lenN l / 2 ^ N.of_nat s ∧ frozen_rev (levels s l) = frozen_rev l.
Proof.
  induction s as [|s IH]; intros l Hz; cbn [levels].
  { change (2 ^ N.of_nat 0) with 1. by rewrite N.div_1_r. }
  destruct (IH (pair_full l)) as [H1 H2].
  { rewrite lenN_pair_full. by apply low_zeros_half. }
  rewrite H1, H2, lenN_pair_full, N.Div0.div_div. split.
  - by rewrite Nat2N.inj_succ, N.pow_succ_r'.
  - symmetry. apply frozen_rev_even. eapply even_lenN, low_zeros_even, Hz.
Qed.

Lemma pair_full_take k : ∀ l, pair_full (take (2 * k) l) = take k (pair_full l).
Proof.
  induction k as [|k IH]; intros l; [by rewrite !take_0|].
  replace (2 * S k)%nat with (S (S (2 * k))) by lia.
  destruct l as [|x [|y l]]; [done|done|]. cbn [take pair_full]. by rewrite <- IH.
Qed.

Lemma levels_take s : ∀ k l,
  levels s (take (k * 2 ^ s) l) = take k (levels s l).
Proof.
  induction s as [|s IH]; intros k l; cbn [levels]; [by rewrite Nat.mul_1_r|].
  replace (k * 2 ^ S s)%nat with (2 * (k * 2 ^ s))%nat by (simpl; lia).
  by rewrite pair_full_take, IH.
Qed.

(** Appending the last subtree of [2 ^ s] leaves of [p] is merging one hash. *)
Lemma merge_subtree s j p n :
  lenN p = n + 2 ^ N.of_nat s → low_zeros s n →
  (∀ i, i < N.of_nat j → N.testbit n (N.of_nat s + i) = true) →
  N.testbit n (N.of_nat s + N.of_nat j) = false →
  ∃ x, merge_last_two j (reverse (frozen_rev (take (N.to_nat n) p)) ++ [x]) =
       Ok (reverse (frozen_rev p)).
Proof.
  intros Hlen Hz Hones Hzero. set (q := n / 2 ^ N.of_nat s).
  pose proof (low_zeros_mul s n Hz) as Hn. fold q in Hn.
  pose proof (pow2_pos (N.of_nat s)) as Hpos.
  assert (lenN (take (N.to_nat n) p) = n) as Hlt.
  { unfold lenN in *. rewrite length_take. lia. }
  destruct (levels_spec s p) as [Hl1 Hl2].
  { rewrite Hlen, Hn. replace (q * 2 ^ N.of_nat s + 2 ^ N.of_nat s)
      with ((q + 1) * 2 ^ N.of_nat s) by lia. apply low_zeros_of_mul. }
  destruct (levels_spec s (take (N.to_nat n) p)) as [Ht1 Ht2]; [by rewrite Hlt|].
  rewrite Hlt in Ht1. fold q in Ht1.
  assert (lenN (levels s p) = q + 1) as Hl3.
  { rewrite Hl1, Hlen, Hn. replace (q * 2 ^ N.of_nat s + 2 ^ N.of_nat s)
      with ((q + 1) * 2 ^ N.of_nat s) by lia. by rewrite N.div_mul by lia. }
  assert (levels s (take (N.to_nat n) p) = take (N.to_nat q) (levels s p)) as Htake.
  { rewrite <- levels_take. do 2 f_equal. rewrite Hn, N2Nat.inj_mul, N2Nat.inj_pow, Nat2N.id.
    done. }
  clearbody q. revert Hl1 Hl2 Hl3 Htake. generalize (levels s p) as M.
  intros M. destruct M as [|x L _] using rev_ind; intros Hl1 Hl2 Hl3 Htake;
    [change (lenN []) with 0 in Hl3; lia|].
  rewrite lenN_snoc in Hl3. assert (lenN L = q) as HLq by lia.
  rewrite take_app_le, (take_ge L) in Htake by (unfold lenN in HLq; lia).
  rewrite Htake in Ht2. exists x. rewrite <- Ht2, <- Hl2.
  assert (∀ i, N.testbit (lenN L) i = N.testbit n (N.of_nat s + i)) as Hbits.
  { intros i. rewrite HLq, Hn, N.mul_pow2_bits_high by lia. f_equal. lia. }
  apply merge_last_two_frozen; intros; rewrite Hbits; auto.
Qed.

Lemma merge_last_two_length j : ∀ a b,
  merge_last_two j a = Ok b → (length b + j = length a)%nat.
Proof.
  induction j as [|j IH]; intros a b H; cbn [merge_last_two] in H; [simplify_eq; lia|].
  destruct a as [|x a _] using rev_ind; [done|]. rewrite vec_pop_snoc in H.
  cbn [expect mbind outcome_bind] in H.
  destruct a as [|y a _] using rev_ind; [done|]. rewrite vec_pop_snoc in H.
  cbn [expect mbind outcome_bind] in H. apply IH in H.
  rewrite !length_app in *. simpl in *. lia.
Qed.

Lemma merge_last_two_inj j : ∀ a b c,
  length a = length b → merge_last_two j a = Ok c → merge_last_two j b = Ok c →
  a = b ∨ Collision.
Proof.
  induction j as [|j IH]; intros a b c Hlen Ha Hb; cbn [merge_last_two] in *.
  { left. congruence. }
  destruct a as [|x a _] using rev_ind; [done|]. rewrite vec_pop_snoc in Ha.
  destruct b as [|x' b _] using rev_ind; [done|]. rewrite vec_pop_snoc in Hb.
  cbn [expect mbind outcome_bind] in Ha, Hb.
  destruct a as [|y a _] using rev_ind; [done|]. rewrite vec_pop_snoc in Ha.
  destruct b as [|y' b _] using rev_ind; [done|]. rewrite vec_pop_snoc in Hb.
  cbn [expect mbind outcome_bind] in Ha, Hb.
  rewrite !length_app in Hlen. simpl in Hlen.
  destruct (IH (a ++ [node_hash y x]) (b ++ [node_hash y' x']) c) as [Heq|]; auto.
  { rewrite !length_app. simpl. lia. }
  apply app_inj_tail in Heq as [-> Heq].
  destruct (decide ((y, x) = (y', x'))) as [Hyx|Hyx]; [left; congruence|].
  right. by exists y, x, y', x'.
Qed.

(** The state of [append_subtrees]'s loop: [2 ^ s] is the size of the rightmost
    frozen subtree of [n] leaves. *)
Definition combine_inv (n : N) (s : nat) (remaining : N) : Prop :=
  low_zeros s n ∧ N.testbit n (N.of_nat s) = true ∧ n + remaining <= 2 ^ 63.

Lemma ones_run n (d : nat) : ∀ s, N.testbit n (N.of_nat (s + d)) = false →
  ∃ j, (j <= d)%nat ∧ (∀ i, i < N.of_nat j → N.testbit n (N.of_nat s + i) = true) ∧
    N.testbit n (N.of_nat s + N.of_nat j) = false.
Proof.
  induction d as [|d IH]; intros s Hz.
  { exists 0%nat. split; [lia|]. split; [intros; lia|].
    rewrite Nat.add_0_r in Hz. by rewrite N.add_0_r. }
  destruct (N.testbit n (N.of_nat s)) eqn:Hs.
  - destruct (IH (S s)) as (j & Hj & H1 & H2); [by rewrite Nat.add_succ_l, <- Nat.add_succ_r|].
    exists (S j). split; [lia|]. split.
    + intros i Hi. destruct (N.eq_dec i 0) as [->|Hi0]; [by rewrite N.add_0_r|].
      replace (N.of_nat s + i) with (N.of_nat (S s) + (i - 1)) by lia. apply H1. lia.
    + by replace (N.of_nat s + N.of_nat (S j)) with (N.of_nat (S s) + N.of_nat j) by lia.
  - exists 0%nat. split; [lia|]. split; [intros; lia|]. by rewrite N.add_0_r.
Qed.

Lemma carry_sum n (s j : nat) :
  low_zeros s n →
  (∀ i, i < N.of_nat j → N.testbit n (N.of_nat s + i) = true) →
  N.testbit n (N.of_nat s + N.of_nat j) = false →
  ∃ a, n + 2 ^ N.of_nat s = (2 * a + 1) * 2 ^ (N.of_nat s + N.of_nat j).
Proof.
  intros Hz Hones Hzero. set (t := N.of_nat s + N.of_nat j).
  pose proof (pow2_pos (N.of_nat s)). pose proof (pow2_pos (N.of_nat j)).
  assert (n mod 2 ^ t = (2 ^ N.of_nat j - 1) * 2 ^ N.of_nat s) as Hmod.
  { apply N.bits_inj. intros i. destruct (N.lt_ge_cases i (N.of_nat s)).
    - rewrite N.mul_pow2_bits_low, N.mod_pow2_bits_low by (unfold t; lia). by apply Hz.
    - rewrite N.mul_pow2_bits_high, ones_testbit by done.
      destruct (N.ltb_spec (i - N.of_nat s) (N.of_nat j)).
      + rewrite N.mod_pow2_bits_low by (unfold t; lia).
        specialize (Hones (i - N.of_nat s) ltac:(lia)). rewrite <- Hones. f_equal. lia.
      + apply N.mod_pow2_bits_high. unfold t. lia. }
  pose proof (N.div_mod' n (2 ^ t)) as Hdm. rewrite Hmod in Hdm.
  assert (N.testbit (n / 2 ^ t) 0 = false) as Heven.
  { rewrite <- N.shiftr_div_pow2, N.shiftr_spec', N.add_0_l. done. }
  rewrite N.bit0_odd, <- N.negb_even in Heven.
  apply negb_false_iff, N.even_spec in Heven as [a Ha]. exists a. rewrite Ha in Hdm.
  unfold t in *. rewrite N.pow_add_r in *. nia.
Qed.

Lemma combine_step n s rem :
  combine_inv n s rem → 2 ^ N.of_nat s <= rem →
  ∃ j, (0 < j)%nat ∧ (s + j <= 63)%nat ∧
    (∀ i, i < N.of_nat j → N.testbit n (N.of_nat s + i) = true) ∧
    N.testbit n (N.of_nat s + N.of_nat j) = false ∧
    combine_inv (n + 2 ^ N.of_nat s) (s + j) (rem - 2 ^ N.of_nat s) ∧
    count_ones (n + 2 ^ N.of_nat s) + N.of_nat j = count_ones n + 1.
Proof.
  intros (Hz & Hs & Hn) Hrem. pose proof (pow2_pos (N.of_nat s)) as Hpos.
  assert (N.of_nat s < 63) as Hs63.
  { apply N.nle_gt. intros ?. rewrite (testbit_above 63) in Hs by lia. done. }
  destruct (ones_run n (63 - s) s) as (j & Hj & Hones & Hzero).
  { replace (s + (63 - s))%nat with 63%nat by lia. apply (testbit_above 63); [lia|done]. }
  assert (0 < j)%nat as Hj0.
  { destruct j; [|lia]. rewrite N.add_0_r in Hzero. congruence. }
  exists j. split; [done|]. split; [lia|]. split; [done|]. split; [done|].
  destruct (carry_sum n s j Hz Hones Hzero) as [a Ha]. split.
  - rewrite <- Nat2N.inj_add in Ha. split; [|split; [|lia]].
    + rewrite Ha. apply low_zeros_of_mul.
    + rewrite Ha, N.mul_pow2_bits_high, N.sub_diag by done. by rewrite N.bit0_odd, N.odd_odd.
  - set (p := replicate (N.to_nat (n + 2 ^ N.of_nat s)) (0 : HashValue)).
    assert (lenN p = n + 2 ^ N.of_nat s) as Hp.
    { unfold lenN, p. rewrite length_replicate. lia. }
    destruct (merge_subtree s j p n Hp Hz Hones Hzero) as [x Hx].
    apply merge_last_two_length in Hx.
    assert (lenN (take (N.to_nat n) p) = n) as Hn'.
    { unfold lenN in *. rewrite length_take. lia. }
    pose proof (length_frozen_rev p) as H1. rewrite Hp in H1.
    pose proof (length_frozen_rev (take (N.to_nat n) p)) as H2. rewrite Hn' in H2.
    rewrite <- H1, <- H2. unfold lenN in *.
    rewrite !length_reverse, length_app, length_reverse in Hx. simpl in Hx. lia.
Qed.

Lemma land_pow2 n s : (N.land n (2 ^ s) =? 0) = negb (N.testbit n s).
Proof.
  destruct (N.testbit n s) eqn:Hs; simpl.
  - apply N.eqb_neq. intros H. apply (f_equal (λ x, N.testbit x s)) in H.
    rewrite N.land_spec, N.pow2_bits_true, Hs, N.bits_0 in H. done.
  - apply N.eqb_eq. apply N.bits_inj. intros i. rewrite N.land_spec, N.pow2_bits_eqb, N.bits_0.
    destruct (N.eqb_spec s i) as [->|]; [by rewrite Hs|apply andb_false_r].
Qed.

Lemma carry_loop_spec n (j : nat) : ∀ (s fuel : nat) roots h,
  (j < fuel)%nat → (s + j <= 63)%nat → (j <= length roots)%nat →
  (∀ i, i < N.of_nat j → N.testbit n (N.of_nat s + i) = true) →
  N.testbit n (N.of_nat s + N.of_nat j) = false →
  ∃ r c, merge_last_two j (roots ++ [h]) = Ok (r ++ [c]) ∧
    carry_loop fuel n (2 ^ N.of_nat s) roots h = Ok (r, c, 2 ^ N.of_nat (s + j)).
Proof.
  induction j as [|j IH]; intros s fuel roots h Hf Hsj Hlen Hones Hzero;
    (destruct fuel as [|fuel]; [lia|]); cbn [carry_loop merge_last_two]; rewrite land_pow2.
  - rewrite N.add_0_r in Hzero. rewrite Hzero, Nat.add_0_r. by exists roots, h.
  - pose proof (Hones 0 ltac:(lia)) as H0. rewrite N.add_0_r in H0. rewrite H0. cbn [negb]. rewrite vec_pop_snoc. run_ok.
    destruct roots as [|y roots _] using rev_ind; [simpl in Hlen; lia|].
    rewrite vec_pop_snoc. run_ok. rewrite length_app in Hlen. simpl in Hlen.
    replace (u64_shl (2 ^ N.of_nat s) 1) with (2 ^ N.of_nat (S s))
      by (rewrite u64_shl_pow2 by lia; f_equal; lia).
    replace (s + S j)%nat with (S s + j)%nat by lia.
    apply IH; [lia..| |].
    + intros i Hi. replace (N.of_nat (S s) + i) with (N.of_nat s + (i + 1)) by lia.
      apply Hones. lia.
    + by replace (N.of_nat (S s) + N.of_nat j) with (N.of_nat s + N.of_nat (S j)) by lia.
Qed.

(** One turn of the loop: it takes one subtree and merges it. *)
Lemma combine_loop_step n s rem :
  combine_inv n s rem → 2 ^ N.of_nat s <= rem →
  ∃ j, (s < s + j)%nat ∧
    (∀ i, i < N.of_nat j → N.testbit n (N.of_nat s + i) = true) ∧
    N.testbit n (N.of_nat s + N.of_nat j) = false ∧
    combine_inv (n + 2 ^ N.of_nat s) (s + j) (rem - 2 ^ N.of_nat s) ∧
    ∀ fuel roots h subtrees, lenN roots = count_ones n →
      ∃ roots1,
        merge_last_two j (roots ++ [h]) = Ok roots1 ∧
        lenN roots1 = count_ones (n + 2 ^ N.of_nat s) ∧
        combine_loop (S fuel) roots n rem (2 ^ N.of_nat s) (h :: subtrees) =
          combine_loop fuel roots1 (n + 2 ^ N.of_nat s) (rem - 2 ^ N.of_nat s)
            (2 ^ N.of_nat (s + j)) subtrees.
Proof.
  intros Hinv Hrem. pose proof (pow2_pos (N.of_nat s)) as Hpos.
  destruct (combine_step n s rem Hinv Hrem) as (j & Hj & Hsj & Hones & Hzero & Hinv' & Hcnt).
  exists j. split; [lia|]. split; [done|]. split; [done|]. split; [done|].
  intros fuel roots h subtrees Hlen.
  assert (1 <= count_ones (n + 2 ^ N.of_nat s)) as Hc1.
  { destruct (n + 2 ^ N.of_nat s) as [|q] eqn:Hq; [lia|]. simpl. clear.
    induction q; simpl; lia. }
  destruct (carry_loop_spec n j s 65 roots h) as (r & c & Hmerge & Hcarry); [lia|lia| |done|done|].
  { unfold lenN in Hlen. lia. }
  exists (r ++ [c]). split; [done|]. split.
  { apply merge_last_two_length in Hmerge. unfold lenN in *. rewrite !length_app in *.
    simpl in *. lia. }
  cbn [combine_loop]. rewrite (proj2 (N.ltb_ge rem _)) by done. run_ok.
  rewrite Hcarry. run_ok. destruct Hinv as (_ & _ & Hn).
  unfold u64_add, u64_sub.
  rewrite (proj2 (u64_checked_add_Some n (2 ^ N.of_nat s) _)) by (split; [done|lia]). run_ok.
  rewrite (proj2 (u64_checked_sub_Some rem (2 ^ N.of_nat s) _)) by (split; [done|lia]). run_ok.
  done.
Qed.

Lemma combine_loop_total fuel : ∀ roots n s rem subtrees,
  (65 <= fuel + s)%nat → combine_inv n s rem → lenN roots = count_ones n →
  (∃ roots' n' rem' rest,
     combine_loop fuel roots n rem (2 ^ N.of_nat s) subtrees = Ok (roots', n', rem', rest) ∧
     n' + rem' = n + rem) ∨
  combine_loop fuel roots n rem (2 ^ N.of_nat s) subtrees = Err (fmt "Too few subtrees." []).
Proof.
  induction fuel as [|fuel IH]; intros roots n s rem subtrees Hf Hinv Hlen.
  { destruct Hinv as (Hz & Hs & Hn). rewrite (testbit_above 64) in Hs by lia. done. }
  destruct (N.lt_ge_cases rem (2 ^ N.of_nat s)) as [Hlt|Hge].
  { left. cbn [combine_loop]. rewrite (proj2 (N.ltb_lt rem _)) by done. eauto 6. }
  destruct subtrees as [|h subtrees].
  { right. cbn [combine_loop]. by rewrite (proj2 (N.ltb_ge rem _)). }
  destruct (combine_loop_step n s rem Hinv Hge) as (j & Hj & _ & _ & Hinv1 & Hstep).
  destruct (Hstep fuel roots h subtrees Hlen) as (roots1 & _ & Hlen1 & ->).
  destruct (IH roots1 _ (s + j)%nat _ subtrees ltac:(lia) Hinv1 Hlen1)
    as [(roots' & n' & rem' & rest & Heq & Hsum)|Herr]; [left|by right].
  exists roots', n', rem', rest. split; [done|lia].
Qed.

Lemma frozen_rev_app (s : nat) : ∀ a b,
  low_zeros s (lenN a) → lenN b < 2 ^ N.of_nat s → ∃ f, frozen_rev (a ++ b) = f ++ frozen_rev a.
Proof.
  induction s as [|s IH]; intros a b Hz Hb.
  { change (2 ^ N.of_nat 0) with 1 in Hb. destruct b; [|unfold lenN in Hb; simpl in Hb; lia].
    exists []. by rewrite app_nil_r. }
  assert (Nat.even (length a) = true) as Ha by (eapply even_lenN, low_zeros_even, Hz).
  rewrite Nat2N.inj_succ, N.pow_succ_r' in Hb.
  assert (∀ b', lenN (pair_full b') = lenN b / 2 →
    ∃ f, frozen_rev (pair_full a ++ pair_full b') = f ++ frozen_rev (pair_full a)) as Hrec.
  { intros b' Hb'. apply IH.
    - rewrite lenN_pair_full. by apply low_zeros_half.
    - rewrite Hb'. apply N.Div0.div_lt_upper_bound. lia. }
  rewrite (frozen_rev_even a) by done.
  destruct (Nat.odd (length b)) eqn:Hob.
  - destruct (odd_snoc b Hob) as (b' & x & -> & Heb).
    destruct (Hrec b') as [f Hf]; [by rewrite <- lenN_pair_full, pair_full_snoc|].
    exists (x :: f). rewrite app_assoc, frozen_rev_snoc, pair_full_app by
      (done || by rewrite length_app, Nat.even_add, Ha, Heb). by rewrite Hf.
  - rewrite <- Nat.negb_even in Hob. apply negb_false_iff in Hob.
    destruct (Hrec b) as [f Hf]; [apply lenN_pair_full|]. exists f.
    rewrite frozen_rev_even, pair_full_app by
      (done || by rewrite length_app, Nat.even_add, Ha, Hob). done.
Qed.

Lemma combine_loop_sound fuel : ∀ roots n s rem subtrees l' roots' n' rem' rest,
  combine_inv n s rem → lenN roots = count_ones n → lenN l' = n + rem →
  combine_loop fuel roots n rem (2 ^ N.of_nat s) subtrees = Ok (roots', n', rem', rest) →
  roots' ++ rest = reverse (frozen_rev l') →
  roots = reverse (frozen_rev (take (N.to_nat n) l')) ∨ Collision.
Proof.
  induction fuel as [|fuel IH]; intros roots n s rem subtrees l' roots' n' rem' rest
    Hinv Hlen Hl' Hloop Hroots; [done|].
  destruct (N.lt_ge_cases rem (2 ^ N.of_nat s)) as [Hlt|Hge].
  { left. cbn [combine_loop] in Hloop. rewrite (proj2 (N.ltb_lt rem _)) in Hloop by done.
    simplify_eq. destruct Hinv as (Hz & _).
    assert (lenN (take (N.to_nat n') l') = n') as Hn'.
    { unfold lenN in *. rewrite length_take. lia. }
    destruct (frozen_rev_app s (take (N.to_nat n') l') (drop (N.to_nat n') l')) as [f Hf].
    { by rewrite Hn'. }
    { unfold lenN in *. rewrite length_drop. lia. }
    rewrite take_drop in Hf. rewrite Hf, reverse_app in Hroots.
    apply app_inj_1 in Hroots as [-> _]; [done|].
    rewrite length_reverse. pose proof (length_frozen_rev (take (N.to_nat n') l')) as Hc.
    rewrite Hn', <- Hlen in Hc. unfold lenN in Hc. lia. }
  destruct subtrees as [|h subtrees].
  { cbn [combine_loop] in Hloop. by rewrite (proj2 (N.ltb_ge rem _)) in Hloop. }
  destruct (combine_loop_step n s rem Hinv Hge) as (j & Hj & Hones & Hzero & Hinv1 & Hstep).
  destruct (Hstep fuel roots h subtrees Hlen) as (roots1 & Hmerge & Hlen1 & Heq).
  rewrite Heq in Hloop. clear Heq. pose proof (pow2_pos (N.of_nat s)).
  destruct (IH _ _ _ _ _ l' _ _ _ _ Hinv1 Hlen1 ltac:(lia) Hloop Hroots) as [Hr1|]; [|by right].
  set (p := take (N.to_nat (n + 2 ^ N.of_nat s)) l') in *.
  destruct (merge_subtree s j p n) as [x Hx]; [| apply Hinv | done | done |].
  { unfold p, lenN in *. rewrite length_take. lia. }
  assert (take (N.to_nat n) p = take (N.to_nat n) l') as Hp
    by (unfold p; rewrite take_take; f_equal; lia).
  rewrite Hp, <- Hr1 in Hx.
  assert (length (roots ++ [h]) = length (reverse (frozen_rev (take (N.to_nat n) l')) ++ [x])) as Hll.
  { apply merge_last_two_length in Hmerge. apply merge_last_two_length in Hx. lia. }
  destruct (merge_last_two_inj _ _ _ _ Hll Hmerge Hx) as [Hi|]; [left|by right].
  by apply app_inj_tail in Hi as [? _].
Qed.

Lemma combine_loop_complete fuel : ∀ n s rem l',
  (65 <= fuel + s)%nat → combine_inv n s rem → lenN l' = n + rem →
  ∃ subtrees roots' n' rem' rest,
    combine_loop fuel (reverse (frozen_rev (take (N.to_nat n) l'))) n rem (2 ^ N.of_nat s) subtrees =
      Ok (roots', n', rem', rest) ∧
    n' + rem' = n + rem ∧ roots' ++ rest = reverse (frozen_rev l').
Proof.
  induction fuel as [|fuel IH]; intros n s rem l' Hf Hinv Hl'.
  { destruct Hinv as (Hz & Hs & Hn). rewrite (testbit_above 64) in Hs by lia. done. }
  assert (lenN (take (N.to_nat n) l') = n) as Hn.
  { unfold lenN in *. rewrite length_take. lia. }
  destruct (N.lt_ge_cases rem (2 ^ N.of_nat s)) as [Hlt|Hge].
  - destruct (frozen_rev_app s (take (N.to_nat n) l') (drop (N.to_nat n) l')) as [f Hfr].
    { rewrite Hn. apply Hinv. }
    { unfold lenN in *. rewrite length_drop. lia. }
    rewrite take_drop in Hfr. exists (reverse f). do 4 eexists. split.
    { cbn [combine_loop]. by rewrite (proj2 (N.ltb_lt rem _)). }
    split; [done|]. by rewrite Hfr, reverse_app.
  - destruct (combine_loop_step n s rem Hinv Hge) as (j & Hj & Hones & Hzero & Hinv1 & Hstep).
    pose proof (pow2_pos (N.of_nat s)).
    set (p := take (N.to_nat (n + 2 ^ N.of_nat s)) l').
    destruct (merge_subtree s j p n) as [x Hx]; [| apply Hinv | done | done |].
    { unfold p, lenN in *. rewrite length_take. lia. }
    assert (take (N.to_nat n) p = take (N.to_nat n) l') as Hp
      by (unfold p; rewrite take_take; f_equal; lia). rewrite Hp in Hx.
    destruct (IH (n + 2 ^ N.of_nat s) (s + j)%nat (rem - 2 ^ N.of_nat s) l')
      as (subtrees & roots' & n' & rem' & rest & H1 & H2 & H3); [lia|done|lia|].
    destruct (Hstep fuel (reverse (frozen_rev (take (N.to_nat n) l'))) x subtrees)
      as (roots1 & Hmerge & _ & Heq).
    { rewrite <- Hn at 2. rewrite <- length_frozen_rev. unfold lenN. by rewrite length_reverse. }
    exists (x :: subtrees), roots', n', rem', rest. rewrite Heq.
    assert (roots1 = reverse (frozen_rev p)) as -> by congruence.
    split; [done|]. split; [lia|done].
Qed.

(** ** Hashes determine what they hash, up to collisions *)

Lemma node_hash_inj a b c d : node_hash a b = node_hash c d → (a = c ∧ b = d) ∨ Collision.
Proof.
  intros H. destruct (decide ((a, b) = (c, d))) as [Heq|Hne].
  - left. split; congruence.
  - right. by exists a, b, c, d.
Qed.

Lemma pair_full_inj : ∀ a b,
  length a = length b → Nat.even (length a) = true → pair_full a = pair_full b →
  a = b ∨ Collision.
Proof.
  induction a as [|x|x y a IH] using list_pair_ind; intros b Hlen He Heq; [by destruct b; auto|done|].
  destruct b as [|x' [|y' b]]; [done|done|]. simpl in *. simplify_eq.
  destruct (IH b) as [->|]; [done..| |by right].
  destruct (node_hash_inj x y x' y') as [[-> ->]|]; auto.
Qed.

Lemma frozen_rev_inj a b :
  length a = length b → frozen_rev a = frozen_rev b → a = b ∨ Collision.
Proof.
  remember (length a) as n eqn:Hn. revert a b Hn.
  induction n as [n IH] using lt_wf_ind. intros a b Ha Hb Heq.
  destruct (decide (a = [])) as [->|Hne]; [subst; destruct b; auto; done|].
  assert (∀ a', a = a' ∨ (∃ x, a = a' ++ [x]) → ∀ b', length a' = length b' →
    Nat.even (length a') = true → frozen_rev (pair_full a') = frozen_rev (pair_full b') →
    a' = b' ∨ Collision) as Hrec.
  { intros a' Ha' b' Hlen He Hf.
    assert (length (pair_full a') = length (pair_full b')) as Hlen'.
    { pose proof (lenN_pair_full a') as H1. pose proof (lenN_pair_full b') as H2.
      unfold lenN in *. rewrite Hlen in H1. lia. }
    destruct (IH (length (pair_full a'))) with (a := pair_full a') (b := pair_full b')
      as [Hpf|]; [|done|done|done| |by right].
    - subst n. destruct Ha' as [->|[x ->]]; [by apply length_pair_full_lt|].
      rewrite <- (pair_full_snoc a' x) by done. apply length_pair_full_lt. by destruct a'.
    - by apply pair_full_inj. }
  destruct (Nat.odd (length a)) eqn:Ho.
  - destruct (odd_snoc a Ho) as (a' & x & -> & Hea).
    rewrite Ha in Hb. rewrite Hb in Ho. destruct (odd_snoc b Ho) as (b' & y & -> & Heb).
    rewrite !frozen_rev_snoc in Heq by done. simplify_eq.
    rewrite !length_app in Hb. simpl in Hb.
    destruct (Hrec a' ltac:(eauto) b' ltac:(lia) Hea) as [->|]; auto.
  - rewrite <- Nat.negb_even in Ho. apply negb_false_iff in Ho.
    apply (Hrec a); [by left|congruence|done|].
    rewrite <- frozen_rev_even, <- (frozen_rev_even b) by congruence. done.
Qed.

Lemma root_loop_inj b : ∀ it it' c c' h,
  length it = length it' → lenN it = pos_count_ones b →
  root_loop b it c = Ok h → root_loop b it' c' = Ok h → (it = it' ∧ c = c') ∨ Collision.
Proof.
  induction b as [b IH|b IH|]; intros it it' c c' h Hlen Hcnt H1 H2; cbn [root_loop] in *.
  - destruct it as [|x it], it' as [|x' it']; [done..|]. cbn [expect mbind outcome_bind] in *.
    cbn [pos_count_ones] in Hcnt. unfold lenN in *. cbn [length] in *.
    destruct (IH it it' (node_hash x c) (node_hash x' c') h) as [[-> Hc]|]; [lia|lia|done|done| |by right].
    apply node_hash_inj in Hc as [[-> ->]|]; auto.
  - destruct (IH it it' (node_hash c PLACEHOLDER) (node_hash c' PLACEHOLDER) h)
      as [[-> Hc]|]; [done|done|done|done| |by right].
    apply node_hash_inj in Hc as [[-> _]|]; auto.
  - destruct it as [|x it], it' as [|x' it']; [done..|]. cbn [expect mbind outcome_bind] in *.
    cbn [pos_count_ones] in Hcnt. unfold lenN in *. cbn [length] in *.
    destruct it; [|simpl in *; lia]. destruct it'; [|simpl in *; lia].
    destruct (node_hash_inj x c x' c') as [[-> ->]|]; [congruence|auto..].
Qed.

Lemma pos_count_ones_shift t : ∀ n b,
  n ≠ 0 → N.shiftr n t = Npos b → (∀ i, i < t → N.testbit n i = false) →
  pos_count_ones b = count_ones n.
Proof.
  induction t as [|t IH] using N.peano_ind; intros n b Hn Hs Hz.
  { rewrite N.shiftr_0_r in Hs. by rewrite Hs. }
  rewrite <- N.add_1_l, <- N.shiftr_shiftr in Hs.
  assert (n = 2 * N.shiftr n 1) as Hn2.
  { specialize (Hz 0 ltac:(lia)). rewrite N.bit0_odd, <- N.negb_even in Hz.
    apply negb_false_iff, N.even_spec in Hz as [m ->].
    rewrite N.shiftr_div_pow2. change (2 ^ 1) with 2. dlia. }
  rewrite Hn2, count_ones_double. apply IH; [lia|done|].
  intros i Hi. rewrite N.shiftr_spec'. apply Hz. lia.
Qed.

Lemma compute_root_hash_inj n a b h :
  length a = length b → lenN a = count_ones n →
  compute_root_hash a n = Ok h → compute_root_hash b n = Ok h → a = b ∨ Collision.
Proof.
  intros Hlen Hcnt Ha Hb. unfold compute_root_hash in *.
  destruct a as [|x [|y a]], b as [|x' [|y' b]]; try done; auto.
  { left. congruence. }
  assert (n ≠ 0) as Hn by (intros ->; unfold lenN in Hcnt; simpl in Hcnt; lia).
  pose proof (trailing_zeros_spec 64 n Hn) as [_ Hz].
  unfold u64_shr_checked in *. destruct (trailing_zeros 64 n <? 64); [|done].
  cbn [mbind outcome_bind] in *. unfold u64_shr in *.
  destruct (N.shiftr n (trailing_zeros 64 n)) as [|q] eqn:Hq.
  { pose proof (trailing_zeros_spec 64 n Hn) as [Ht _].
    assert (N.testbit (N.shiftr n (trailing_zeros 64 n)) 0 = true) as H
      by (by rewrite N.shiftr_spec'). by rewrite Hq in H. }
  destruct (root_loop_inj q (reverse (x :: y :: a)) (reverse (x' :: y' :: b))
    PLACEHOLDER PLACEHOLDER h) as [[Heq _]|]; [by rewrite !length_reverse| |done|done| |by right].
  - rewrite (pos_count_ones_shift _ n q Hn Hq Hz), <- Hcnt. unfold lenN. by rewrite length_reverse.
  - left. by apply (inj reverse).
Qed.

Lemma root_loop_total b : ∀ it c,
  lenN it = pos_count_ones b → ∃ h, root_loop b it c = Ok h.
Proof.
  induction b as [b IH|b IH|]; intros it c Hcnt; cbn [root_loop pos_count_ones] in *.
  - destruct it as [|x it]; [unfold lenN in Hcnt; simpl in Hcnt; lia|]. run_ok.
    apply IH. unfold lenN in *. cbn [length] in Hcnt. lia.
  - by apply IH.
  - destruct it as [|x it]; [unfold lenN in Hcnt; simpl in Hcnt; lia|]. by eexists.
Qed.

Lemma compute_root_hash_total n a :
  n < 2 ^ 64 → lenN a = count_ones n → ∃ h, compute_root_hash a n = Ok h.
Proof.
  intros Hn Hcnt. unfold compute_root_hash. destruct a as [|x [|y a]]; [by eexists..|].
  assert (n ≠ 0) as Hn0 by (intros ->; unfold lenN in Hcnt; simpl in Hcnt; lia).
  pose proof (trailing_zeros_spec 64 n Hn0) as [Ht Hz]. unfold u64_shr_checked.
  destruct (N.ltb_spec (trailing_zeros 64 n) 64);
    [|rewrite (testbit_above 64) in Ht by lia; done].
  run_ok. unfold u64_shr. destruct (N.shiftr _ _) as [|q] eqn:Hq; [by eexists|].
  apply root_loop_total. rewrite (pos_count_ones_shift _ n q Hn0 Hq Hz), <- Hcnt.
  unfold lenN. by rewrite length_reverse.
Qed.

Lemma accumulator_new_inv roots n acc :
  accumulator_new roots n = Ok acc →
  lenN roots = count_ones n ∧ compute_root_hash roots n = Ok (root_hash acc) ∧
  frozen_subtree_roots acc = roots ∧ num_leaves acc = n.
Proof.
  unfold accumulator_new. intros H. destruct (N.eqb_spec (lenN roots) (count_ones n)); [|done].
  cbn [ensure mbind outcome_bind] in H.
  destruct (compute_root_hash roots n) as [h| |]; cbn [mbind outcome_bind] in H; [|done|done].
  by simplify_eq.
Qed.

Lemma accumulator_new_no_panic roots n : n < 2 ^ 64 → accumulator_new roots n ≠ Panic.
Proof.
  intros Hn. unfold accumulator_new. destruct (N.eqb_spec (lenN roots) (count_ones n)) as [Hc|];
    cbn [ensure mbind outcome_bind]; [|done].
  destruct (compute_root_hash_total n roots Hn Hc) as [h ->]. done.
Qed.

(** Accumulators with the same root over the same number of leaves. *)
Lemma accumulator_new_root l acc :
  lenN l < 2 ^ 64 → accumulator_new (frozen_subtree_roots acc) (num_leaves acc) = Ok acc →
  num_leaves acc = lenN l → root_hash acc = merkle_root l → acc = accumulator_of l ∨ Collision.
Proof.
  intros Hl Hnew Hn Hroot. apply accumulator_new_inv in Hnew as (Hcnt & Hr & _).
  rewrite Hroot, Hn in Hr.
  destruct (compute_root_hash_inj (lenN l) (frozen_subtree_roots acc) (reverse (frozen_rev l))
    (merkle_root l)) as [Heq|]; [| |done|by apply compute_root_hash_spec| |by right].
  - pose proof (length_frozen_rev l) as H. rewrite <- Hn, <- Hcnt in H.
    rewrite length_reverse. unfold lenN in H. lia.
  - by rewrite Hcnt, Hn.
  - left. destruct acc. unfold accumulator_of. by simplify_eq/=.
Qed.

(** The loop entered from a non-empty accumulator. *)
Lemma append_subtrees_unfold l k :
  l ≠ [] → lenN l + k <= 2 ^ 63 →
  ∃ s, combine_inv (lenN l) s k ∧
    ∀ subtrees, append_subtrees (accumulator_of l) subtrees k =
      ('(roots, n, remaining, rest) ←
         combine_loop 65 (reverse (frozen_rev l)) (lenN l) k (2 ^ N.of_nat s) subtrees;
       n ← u64_add n remaining;
       accumulator_new (roots ++ rest) n).
Proof.
  intros Hne Hk. assert (lenN l ≠ 0) as Hn by (by destruct l).
  pose proof (trailing_zeros_spec 64 (lenN l) Hn) as [Ht Hz].
  assert (trailing_zeros 64 (lenN l) <= 63) as Ht63.
  { apply N.nlt_ge. intros ?. rewrite (testbit_above 64) in Ht by lia. done. }
  exists (N.to_nat (trailing_zeros 64 (lenN l))). split.
  { split; [|split]; [|by rewrite N2Nat.id|done]. intros i Hi. apply Hz. lia. }
  intros subtrees. unfold append_subtrees.
  cbn [accumulator_of num_leaves frozen_subtree_roots].
  unfold u64_sub, MAX_ACCUMULATOR_LEAVES, MAX_ACCUMULATOR_PROOF_DEPTH.
  rewrite (proj2 (u64_checked_sub_Some (2 ^ 63) (lenN l) _)) by (split; [done|lia]). run_ok.
  rewrite (proj2 (N.leb_le k _)) by lia. run_ok.
  rewrite (proj2 (N.eqb_neq (lenN l) 0)) by done.
  rewrite u64_shl_1, N2Nat.id by done. done.
Qed.

Lemma append_subtrees_overflow l subtrees k :
  2 ^ 63 < lenN l → append_subtrees (accumulator_of l) subtrees k = Panic.
Proof.
  intros Hl. unfold append_subtrees. cbn [accumulator_of num_leaves].
  unfold u64_sub, u64_checked_sub, MAX_ACCUMULATOR_LEAVES, MAX_ACCUMULATOR_PROOF_DEPTH.
  by rewrite (proj2 (N.leb_gt _ _) Hl).
Qed.

Lemma append_subtrees_too_many l subtrees k :
  lenN l <= 2 ^ 63 → 2 ^ 63 < lenN l + k →
  append_subtrees (accumulator_of l) subtrees k =
    Err (fmt "Too many new leaves." [lenN l; k]).
Proof.
  intros Hl Hk. unfold append_subtrees. cbn [accumulator_of num_leaves].
  unfold u64_sub, MAX_ACCUMULATOR_LEAVES, MAX_ACCUMULATOR_PROOF_DEPTH.
  rewrite (proj2 (u64_checked_sub_Some (2 ^ 63) (lenN l) _)) by (split; [done|lia]). run_ok.
  by rewrite (proj2 (N.leb_gt k _)) by lia.
Qed.

Lemma append_subtrees_empty subtrees k :
  k <= 2 ^ 63 → append_subtrees (accumulator_of []) subtrees k = accumulator_new subtrees k.
Proof.
  intros Hk. unfold append_subtrees. cbn [accumulator_of num_leaves].
  change (u64_sub MAX_ACCUMULATOR_LEAVES (lenN [])) with (Ok (E:=anyhow) (2 ^ 63)). run_ok.
  by rewrite (proj2 (N.leb_le k _)) by lia.
Qed.

(** ** Inclusion proofs *)

Lemma lookup_pair_up l : ∀ i x, l !! i = Some x →
  pair_up l !! (i / 2)%nat =
    Some (if Nat.even i then node_hash x (default PLACEHOLDER (l !! S i))
          else node_hash (default PLACEHOLDER (l !! pred i)) x).
Proof.
  induction l as [|a|a b l IH] using list_pair_ind; intros i x Hi.
  - done.
  - destruct i; simpl in *; by simplify_eq.
  - destruct i as [|[|i]]; [simpl in *; by simplify_eq..|].
    replace (S (S i) / 2)%nat with (S (i / 2))%nat
      by (symmetry; apply (Nat.div_add_l 1 2 i); done).
    cbn [pair_up]. simpl in Hi. rewrite lookup_cons, (IH i x Hi). f_equal.
    change (Nat.even (S (S i))) with (Nat.even i). destruct (Nat.even i) eqn:He; [done|].
    destruct i; [done|]. done.
Qed.

Lemma lenN_div2 (n : nat) : N.of_nat (n / 2) = N.of_nat n / 2.
Proof. by rewrite Nat2N.inj_div. Qed.

Lemma even_N (n : nat) : (N.of_nat n mod 2 =? 0) = Nat.even n.
Proof.
  destruct (Nat.even n) eqn:He.
  - apply Nat.even_spec in He as [m ->]. apply N.eqb_eq. dlia.
  - rewrite <- Nat.negb_odd in He. apply negb_false_iff, Nat.odd_spec in He as [m ->].
    apply N.eqb_neq. dlia.
Qed.

Lemma merkle_path_root f : ∀ l i x,
  (length l <= f)%nat → l !! i = Some x →
  ∃ j, foldl proof_step (x, N.of_nat i) (merkle_path f l i) = (merkle_root l, j).
Proof.
  induction f as [|f IH]; intros l i x Hl Hi.
  { destruct l; [done|simpl in Hl; lia]. }
  destruct l as [|a [|b l]]; [done| |].
  { destruct i; [|done]. simplify_eq/=. by eexists. }
  cbn [merkle_path foldl].
  set (L := a :: b :: l) in *. rewrite (merkle_root_pair L) by (simpl; lia).
  pose proof (length_pair_up_lt L ltac:(simpl; lia)) as Hlt.
  pose proof (lookup_pair_up L i x Hi) as Hup.
  destruct (IH (pair_up L) (i / 2)%nat _ ltac:(lia) Hup) as [j Hj]. exists j.
  rewrite <- Hj. f_equal. unfold proof_step. rewrite even_N, lenN_div2.
  by destruct (Nat.even i).
Qed.

Lemma length_merkle_path f : ∀ l i,
  (length l <= f)%nat → lenN (merkle_path f l i) = N.log2_up (lenN l).
Proof.
  induction f as [|f IH]; intros l i Hl; [by destruct l; [|simpl in Hl; lia]|].
  destruct l as [|a [|b l]]; [done|done|]. set (L := a :: b :: l) in *.
  change (lenN (merkle_path (S f) L i)) with
    (lenN (default PLACEHOLDER (L !! (if Nat.even i then S i else pred i))
       :: merkle_path f (pair_up L) (i / 2)%nat)).
  pose proof (length_pair_up_lt L ltac:(simpl; lia)) as Hlt.
  assert (2 <= lenN L) as HL by (unfold lenN; simpl; lia).
  set (r := merkle_path f (pair_up L) (i / 2)%nat).
  assert (lenN r = N.log2_up (lenN (pair_up L))) as Hr by (apply IH; lia).
  replace (lenN (_ :: r)) with (N.succ (lenN r)) by (unfold lenN; simpl; lia).
  rewrite Hr, lenN_pair_up. symmetry. apply N.log2_up_unique; [lia|].
  rewrite N.pred_succ. set (m := (lenN L + 1) / 2).
  assert (2 * m = lenN L ∨ 2 * m = lenN L + 1) as Hm by (unfold m; dlia).
  destruct (N.eq_dec m 1) as [->|Hm1].
  - change (N.log2_up 1) with 0. change (2 ^ 0) with 1. change (2 ^ N.succ 0) with 2. lia.
  - pose proof (N.log2_up_spec m ltac:(lia)) as [H1 H2].
    assert (0 < N.log2_up m) by (apply N.log2_up_pos; lia).
    rewrite N.pow_succ_r'. split; [|lia].
    replace (N.log2_up m) with (N.succ (N.pred (N.log2_up m))) by lia.
    rewrite N.pow_succ_r'. lia.
Qed.

Lemma proof_fold_sound f : ∀ l i sib h j,
  (length l <= f)%nat → (i < length l)%nat → length sib = length (merkle_path f l i) →
  foldl proof_step (h, N.of_nat i) sib = (merkle_root l, j) → l !! i = Some h ∨ Collision.
Proof.
  induction f as [|f IH]; intros l i sib h j Hl Hi Hlen Hfold; [lia|].
  destruct l as [|a [|b l]]; [simpl in Hi; lia| |].
  { destruct i; [|simpl in Hi; lia]. destruct sib; [|done]. simpl in Hfold. left.
    simpl. by simplify_eq. }
  set (L := a :: b :: l) in *.
  pose proof (length_pair_up_lt L ltac:(simpl; lia)) as Hlt.
  rewrite (merkle_root_pair L) in Hfold by (simpl; lia).
  destruct sib as [|s sib]; [done|]. cbn [foldl] in Hfold.
  destruct (lookup_lt_is_Some_2 L i Hi) as [x Hx].
  pose proof (lookup_pair_up L i x Hx) as Hup.
  unfold proof_step at 2 in Hfold. rewrite even_N, <- lenN_div2 in Hfold.
  destruct (IH (pair_up L) (i / 2)%nat sib
    (if Nat.even i then node_hash h s else node_hash s h) j) as [Hc|]; [lia| | |done| |by right].
  - by apply lookup_lt_is_Some_1; eexists.
  - apply (f_equal pred) in Hlen. exact Hlen.
  - rewrite Hup in Hc. rewrite Hx. apply (inj Some) in Hc.
    destruct (Nat.even i); apply node_hash_inj in Hc as [[? ?]|]; auto; left; congruence.
Qed.

(** ** Range proofs *)

Lemma parents_of_chunks_even c :
  Nat.even (length c) = true → parents_of_chunks c = (pair_full c, None).
Proof.
  induction c as [|x|x y c IH] using list_pair_ind; intros He; [done|done|].
  simpl. by rewrite IH.
Qed.
Lemma parents_of_chunks_snoc c x :
  Nat.even (length c) = true → parents_of_chunks (c ++ [x]) = (pair_full c, Some x).
Proof.
  induction c as [|y|y z c IH] using list_pair_ind; intros He; [done|done|].
  simpl. by rewrite IH.
Qed.

(** A position whose level is counted from the leaves. After the root level the
    parent is the index [u64::MAX], on which [is_right_child] asserts. *)
Lemma root_parent {E} : position_parent (E:=E) (node 63 0) = Ok U64_MAX.
Proof. reflexivity. Qed.

Lemma range_level_end left right c : range_level U64_MAX left right c = Panic.
Proof. reflexivity. Qed.

(** What a turn takes from the left, and what it takes from the right. *)
Definition takes_left (b : bool) (left c first left' children : list HashValue) : Prop :=
  if b then ∃ x y, left = x :: left' ∧ c = y :: children ∧ first = [node_hash x y]
  else left = left' ∧ c = children ∧ first = [].
Definition takes_right (children right parents right' : list HashValue) : Prop :=
  (Nat.even (length children) = true ∧ right = right' ∧ parents = pair_full children) ∨
  (∃ ch z w, Nat.even (length ch) = true ∧ children = ch ++ [z] ∧ right = w :: right' ∧
     parents = pair_full ch ++ [node_hash z w]).

Lemma range_level_Ok p left right c p' left' right' c' :
  range_level p left right c = Ok (p', left', right', c') ↔
  ∃ b first children parents,
    position_is_right_child (E:=anyhow) p = Ok b ∧ position_parent (E:=anyhow) p = Ok p' ∧
    takes_left b left c first left' children ∧ takes_right children right parents right' ∧
    c' = first ++ parents.
Proof.
  unfold range_level. split.
  - intros H. destruct (position_is_right_child p) as [b| |]; [|done|done].
    cbn [mbind outcome_bind] in H.
    assert (∃ first left1 children, takes_left b left c first left1 children ∧
      (let '(parents, remainder) := parents_of_chunks children in
       '(last_parent, rs) ← match remainder with
         | Some left_hash =>
           '(right_hash, rs) ← ok_or (match right with x :: r => Some (x, r) | [] => None end)
             (fmt "Last child is a left child, but missing sibling on the right." []);
           Ok ([node_hash left_hash right_hash], rs)
         | None => Ok ([], right) end;
       first_pos ← position_parent p;
       Ok (first_pos, left1, rs, first ++ parents ++ last_parent)) =
      Ok (p', left', right', c')) as (first & left1 & children & Hleft & H').
    { destruct b.
      - destruct left as [|x left]; [done|]. destruct c as [|y c]; [done|].
        cbn [ok_or expect mbind outcome_bind] in H. exists [node_hash x y], left, c.
        split; [by exists x, y|done].
      - exists [], left, c. split; [done|done]. }
    clear H. destruct (Nat.even (length children)) eqn:He.
    + rewrite parents_of_chunks_even in H' by done. cbn [mbind outcome_bind] in H'.
      destruct (position_parent p) as [q| |]; [|done|done]. cbn [mbind outcome_bind] in H'.
      simplify_eq. exists b, first, children, (pair_full children).
      rewrite app_nil_r. repeat split; auto. by left.
    + rewrite <- Nat.negb_odd in He. apply negb_false_iff in He.
      destruct (odd_snoc children He) as (ch & z & -> & Hch).
      rewrite parents_of_chunks_snoc in H' by done.
      destruct right as [|w right]; [done|]. cbn [ok_or mbind outcome_bind] in H'.
      destruct (position_parent p) as [q| |]; [|done|done]. cbn [mbind outcome_bind] in H'.
      simplify_eq. exists b, first, (ch ++ [z]), (pair_full ch ++ [node_hash z w]).
      repeat split; auto. right. by exists ch, z, w.
  - intros (b & first & children & parents & -> & -> & Hleft & Hright & ->). run_ok.
    assert ((if b then
       '(left_hash, ls) ← ok_or (match left with x :: r => Some (x, r) | [] => None end)
          (fmt "First child is a right child, but missing sibling on the left." []);
       '(right_hash, children) ←
          expect (match c with x :: r => Some (x, r) | [] => None end);
       Ok ([node_hash left_hash right_hash], ls, children)
     else Ok ([], left, c)) = Ok (E:=anyhow) (first, left', children)) as ->.
    { destruct b; [destruct Hleft as (x & y & -> & -> & ->)|destruct Hleft as (-> & -> & ->)]; done. }
    run_ok. destruct Hright as [(He & -> & ->)|(ch & z & w & He & -> & -> & ->)].
    + rewrite parents_of_chunks_even by done. run_ok. by rewrite app_nil_r.
    + rewrite parents_of_chunks_snoc by done. run_ok. done.
Qed.

Lemma range_level_parent p left right c p' left' right' c' :
  range_level p left right c = Ok (p', left', right', c') → position_parent (E:=anyhow) p = Ok p'.
Proof. rewrite range_level_Ok. naive_solver. Qed.

(** The 64 turns given to the loop are all it can take: the next one panics. *)
Lemma range_loop_fuel (d : nat) : ∀ f p left right c,
  (d <= 64)%nat →
  (p = U64_MAX ∧ d = 0%nat ∨
   ∃ l k, valid_node l k ∧ p = node l k ∧ N.of_nat d = 64 - l) →
  range_loop (d + f) p left right c = range_loop d p left right c.
Proof.
  induction d as [|d IH]; intros f p left right c Hd Hp.
  - destruct Hp as [[-> _]|(l & k & [Hl _] & _ & ?)]; [|lia].
    destruct f; [done|]. cbn [Nat.add range_loop]. rewrite range_level_end.
    by destruct (_ || _).
  - destruct Hp as [[_ ?]|(l & k & Hv & -> & Hdl)]; [done|].
    cbn [Nat.add range_loop]. destruct (_ || _); [|done].
    destruct (range_level (node l k) left right c) as [[[[p' left'] right'] c']| |] eqn:Hr;
      [|done|done]. run_ok.
    apply range_level_parent in Hr. apply IH; [lia|].
    destruct (N.eq_dec l 63) as [->|Hl].
    + left. assert (k = 0) as -> by (destruct Hv as [_ Hk]; change (2 ^ (63 - 63)) with 1 in Hk; lia).
      rewrite root_parent in Hr. split; [by simplify_eq|]. change (64 - 63) with 1 in Hdl. lia.
    + right. assert (l < 63) as Hl63 by (destruct Hv; lia).
      destruct (N.eq_dec (node l k) (2 ^ 64 - 2)) as [Heq|Hne].
      { rewrite Heq in Hr. done. }
      rewrite position_parent_node in Hr by done. simplify_eq.
      exists (l + 1), (k / 2). split; [by apply valid_node_parent|]. split; [done|lia].
Qed.

(** The sibling a slice followed by [B] needs on its right, and on its left after
    [A], and the level above. *)
Lemma slice_right D B :
  ∃ rs parents B', (length rs <= 1)%nat ∧ (Nat.odd (length D) = true → rs ≠ []) ∧
    (D ≠ [] → parents ≠ []) ∧ pair_up (D ++ B) = parents ++ B' ∧
    ∀ right, takes_right D (rs ++ right) parents right.
Proof.
  destruct (Nat.odd (length D)) eqn:Ho.
  - destruct (odd_snoc D Ho) as (D1 & z & -> & He).
    destruct B as [|w B]; [exists [PLACEHOLDER], (pair_full D1 ++ [node_hash z PLACEHOLDER]), []
                          |exists [w], (pair_full D1 ++ [node_hash z w]), (pair_up B)];
      rewrite <- app_assoc; cbn [app]; rewrite pair_up_app by done; cbn [pair_up];
      rewrite ?app_nil_r, <- ?app_assoc; (split; [done|]); (split; [done|]);
      (split; [by destruct (pair_full D1)|]); (split; [done|]);
      intros rt; right; by repeat eexists.
  - rewrite <- Nat.negb_even in Ho. apply negb_false_iff in Ho.
    exists [], (pair_full D), (pair_up B). rewrite pair_up_app by done.
    split; [simpl; lia|]. split; [done|]. split.
    { destruct D as [|x [|y D]]; done. }
    split; [done|]. intros right. by left.
Qed.

Lemma slice_left A C B :
  C ≠ [] →
  ∃ ls first children A', (length ls <= 1)%nat ∧ (Nat.odd (length A) = true → ls ≠ [] ∧ first ≠ []) ∧
    (Nat.odd (length A) = false → children = C) ∧
    lenN A' = lenN A / 2 ∧ pair_up (A ++ C ++ B) = A' ++ first ++ pair_up (children ++ B) ∧
    ∀ left, takes_left (Nat.odd (length A)) (ls ++ left) C first left children.
Proof.
  intros HC. destruct C as [|c C]; [done|]. destruct (Nat.odd (length A)) eqn:Ho.
  - destruct (odd_snoc A Ho) as (A1 & a & -> & He).
    exists [a], [node_hash a c], C, (pair_full A1).
    split; [done|]. split; [done|]. split; [done|]. split.
    { by rewrite <- (pair_full_snoc A1 a), lenN_pair_full. }
    split; [by rewrite <- app_assoc, pair_up_app|]. intros left. by exists a, c.
  - rewrite <- Nat.negb_even in Ho. apply negb_false_iff in Ho.
    exists [], [], (c :: C), (pair_full A). split; [simpl; lia|]. split; [done|].
    split; [done|]. split; [apply lenN_pair_full|]. split; [by rewrite pair_up_app|]. done.
Qed.

Lemma position_is_right_child_node {E} l k :
  valid_node l k → l < 63 → node l k ≠ 2 ^ 64 - 2 →
  position_is_right_child (E:=E) (node l k) = Ok (N.odd k).
Proof.
  intros Hv Hl Hne. unfold position_is_right_child, position_is_left_child.
  rewrite valid_node_invariant by done. run_ok.
  by rewrite is_left_child_bits, N.negb_even.
Qed.

(** One turn on a slice [C] of the level [A ++ C ++ B] gives the slice above it. *)
Lemma range_level_slice (l : N) A C B :
  C ≠ [] → l < 63 → lenN A < 2 ^ (63 - l) → node l (lenN A) ≠ 2 ^ 64 - 2 →
  ∃ ls rs A' C' B', (length ls <= 1)%nat ∧ (length rs <= 1)%nat ∧ (ls ≠ [] ∨ rs ≠ [] ∨ 1 < lenN C) ∧
    pair_up (A ++ C ++ B) = A' ++ C' ++ B' ∧ lenN A' = lenN A / 2 ∧ C' ≠ [] ∧
    ∀ left right,
      range_level (node l (lenN A)) (ls ++ left) (rs ++ right) C =
        Ok (node (l + 1) (lenN A / 2), left, right, C').
Proof.
  intros HC Hl HA Hne. assert (valid_node l (lenN A)) as Hv by (split; [lia|done]).
  destruct (slice_left A C B HC) as (ls & first & children & A' & Hls & Hlo & Hle & HA' & Hup & Htl).
  destruct (slice_right children B) as (rs & parents & B' & Hrs & Hro & Hpar & HupB & Htr).
  exists ls, rs, A', (first ++ parents), B'. split; [done|]. split; [done|]. split.
  { destruct (Nat.odd (length A)) eqn:Ho; [naive_solver|]. rewrite Hle in Hro by done.
    destruct C as [|c [|d C]]; [done|naive_solver|]. right. right. unfold lenN. simpl. lia. }
  split; [by rewrite Hup, HupB, <- !app_assoc|]. split; [done|]. split.
  { destruct (Nat.odd (length A)); [|rewrite Hle in Hpar by done].
    - destruct first; naive_solver.
    - destruct parents; [naive_solver|]. by destruct first. }
  intros left right. apply range_level_Ok. exists (Nat.odd (length A)), first, children, parents.
  rewrite position_is_right_child_node, position_parent_node by done.
  rewrite odd_lenN, N.bit0_odd. rewrite odd_lenN, N.bit0_odd in Htl. auto.
Qed.

Lemma range_loop_complete (d : nat) : ∀ l A C B,
  C ≠ [] → l + N.of_nat d = 63 → lenN (A ++ C ++ B) <= 2 ^ N.of_nat d →
  (l = 0 → lenN (A ++ C ++ B) < 2 ^ 63) →
  ∃ lsib rsib, (length lsib <= d)%nat ∧ (length rsib <= d)%nat ∧
    ∀ f, (d <= f)%nat → range_loop f (node l (lenN A)) lsib rsib C = Ok [merkle_root (A ++ C ++ B)].
Proof.
  assert (∀ A C B : list HashValue, C ≠ [] → length (A ++ C ++ B) = 1%nat → ∃ x, A = [] ∧ C = [x] ∧ B = []) as Hone.
  { intros A C B HC Hlen. rewrite !length_app in Hlen. destruct C as [|x [|y C]]; [done| |simpl in Hlen; lia].
    exists x. destruct A, B; simpl in Hlen; auto; lia. }
  induction d as [|d IH]; intros l A C B HC Hl Hlen Hl0.
  { assert (length (A ++ C ++ B) = 1%nat) as H1.
    { change (2 ^ N.of_nat 0) with 1 in Hlen. unfold lenN in Hlen.
      rewrite !length_app in *. destruct C; [done|simpl in *; lia]. }
    destruct (Hone _ _ _ HC H1) as (x & -> & -> & ->).
    exists [], []. split; [done|]. split; [done|]. intros f _. by destruct f. }
  destruct (decide (length (A ++ C ++ B) = 1%nat)) as [H1|H1].
  { destruct (Hone _ _ _ HC H1) as (x & -> & -> & ->).
    exists [], []. split; [simpl; lia|]. split; [simpl; lia|]. intros f _. by destruct f. }
  assert (2 <= length (A ++ C ++ B))%nat as H2.
  { destruct C; [done|]. rewrite !length_app in *. simpl in *. lia. }
  assert (lenN A < lenN (A ++ C ++ B)) as HA.
  { destruct C; [done|]. unfold lenN. rewrite !length_app. simpl. lia. }
  destruct (range_level_slice l A C B) as (ls & rs & A' & C' & B' & Hls & Hrs & Hcond & Hup & HA' & HC' & Hstep).
  { done. } { lia. }
  { replace (63 - l) with (N.of_nat (S d)) by lia. lia. }
  { intros Heq. destruct (N.eq_dec l 0) as [->|Hne].
    - rewrite node_0 in Heq. specialize (Hl0 eq_refl). lia.
    - apply (f_equal (λ x, N.testbit x 0)) in Heq. rewrite node_testbit in Heq.
      destruct (N.ltb_spec 0 l); [done|lia]. }
  destruct (IH (l + 1) A' C' B') as (lsib & rsib & Hleft & Hright & Hrec); [done|lia| |lia|].
  { rewrite <- Hup, lenN_pair_up. rewrite Nat2N.inj_succ, N.pow_succ_r' in Hlen. dlia. }
  exists (ls ++ lsib), (rs ++ rsib). rewrite !length_app. split; [lia|]. split; [lia|].
  intros f Hf. destruct f as [|f]; [lia|]. cbn [range_loop].
  assert ((1 <? lenN C) || negb (lenN (ls ++ lsib) =? 0) || negb (lenN (rs ++ rsib) =? 0) = true) as ->.
  { destruct Hcond as [Hc|[Hc|Hc]].
    - destruct ls; [done|]. by rewrite orb_true_r.
    - destruct rs; [done|]. by rewrite orb_true_r.
    - by rewrite (proj2 (N.ltb_lt _ _)). }
  rewrite Hstep. run_ok. rewrite <- HA', Hrec by lia.
  by rewrite (merkle_root_pair (A ++ C ++ B)), Hup.
Qed.

(** Two runs of the same shape differ in their inputs only by collisions. *)
Lemma takes_left_inj b l1 c1 f1 l1' ch1 l2 c2 f2 l2' ch2 :
  takes_left b l1 c1 f1 l1' ch1 → takes_left b l2 c2 f2 l2' ch2 →
  length l1 = length l2 → length c1 = length c2 →
  length f1 = length f2 ∧ length l1' = length l2' ∧ length ch1 = length ch2 ∧
  (f1 = f2 → l1' = l2' → ch1 = ch2 → (l1 = l2 ∧ c1 = c2) ∨ Collision).
Proof.
  unfold takes_left. destruct b.
  - intros (x & y & -> & -> & ->) (x' & y' & -> & -> & ->) Hl Hc. simpl in *.
    repeat split; try lia. intros Hf -> ->. simplify_eq.
    match goal with H : node_hash _ _ = _ |- _ => apply node_hash_inj in H as [[-> ->]|] end; auto.
  - intros (-> & -> & ->) (-> & -> & ->) Hl Hc. repeat split; auto.
Qed.

Lemma takes_right_inj ch1 r1 p1 r1' ch2 r2 p2 r2' :
  takes_right ch1 r1 p1 r1' → takes_right ch2 r2 p2 r2' →
  length ch1 = length ch2 → length r1 = length r2 →
  length p1 = length p2 ∧ length r1' = length r2' ∧
  (p1 = p2 → r1' = r2' → (ch1 = ch2 ∧ r1 = r2) ∨ Collision).
Proof.
  assert (∀ a b : list HashValue, length a = length b → length (pair_full a) = length (pair_full b)) as Hpf.
  { intros a b Hab. pose proof (lenN_pair_full a). pose proof (lenN_pair_full b).
    unfold lenN in *. rewrite Hab in *. lia. }
  intros [(He1 & -> & ->)|(d1 & z1 & w1 & He1 & -> & -> & ->)]
         [(He2 & -> & ->)|(d2 & z2 & w2 & He2 & -> & -> & ->)] Hch Hr.
  - split; [auto|]. split; [done|]. intros Hp ->. apply pair_full_inj in Hp as [->|]; auto.
  - rewrite length_app, Nat.add_1_r in Hch. rewrite Hch, Nat.even_succ, <- Nat.negb_even, He2 in He1.
    done.
  - rewrite length_app, Nat.add_1_r in Hch. rewrite <- Hch, Nat.even_succ, <- Nat.negb_even, He1 in He2.
    done.
  - rewrite !length_app in *. simpl in *. assert (length d1 = length d2) as Hd by lia.
    rewrite (Hpf d1 d2 Hd). split; [done|]. split; [lia|]. intros Hp ->.
    apply app_inj_tail in Hp as [Hp Hz].
    destruct (pair_full_inj d1 d2 Hd He1 Hp) as [->|]; [|by right].
    apply node_hash_inj in Hz as [[-> ->]|]; auto.
Qed.

Lemma range_loop_inj f : ∀ p l1 r1 c1 o1 l2 r2 c2 o2,
  range_loop f p l1 r1 c1 = Ok o1 → range_loop f p l2 r2 c2 = Ok o2 →
  length l1 = length l2 → length r1 = length r2 → length c1 = length c2 →
  (length o1 <= 1)%nat ∧ length o1 = length o2 ∧
  (o1 = o2 → (l1 = l2 ∧ r1 = r2 ∧ c1 = c2) ∨ Collision).
Proof.
  induction f as [|f IH]; intros p l1 r1 c1 o1 l2 r2 c2 o2 H1 H2 Hl Hr Hc; cbn [range_loop] in *;
    unfold lenN in H1, H2; rewrite <- Hl, <- Hr, <- Hc in H2;
    destruct (_ || _) eqn:Hcond; try done.
  1: apply orb_false_iff in Hcond as [Hcond Hr0]; apply orb_false_iff in Hcond as [Hc1 Hl0].
  3: apply orb_false_iff in Hcond as [Hcond Hr0]; apply orb_false_iff in Hcond as [Hc1 Hl0].
  1,3: simplify_eq; apply N.ltb_ge in Hc1; apply negb_false_iff, N.eqb_eq in Hl0, Hr0;
    (split; [lia|]); (split; [done|]); intros ->; left;
    destruct l1, l2, r1, r2; simpl in *; try lia; done.
  destruct (range_level p l1 r1 c1) as [[[[p1 l1'] r1'] c1']| |] eqn:E1; [|done|done].
  destruct (range_level p l2 r2 c2) as [[[[p2 l2'] r2'] c2']| |] eqn:E2; [|done|done].
  cbn [mbind outcome_bind] in H1, H2.
  apply range_level_Ok in E1 as (b & f1 & ch1 & q1 & Hb & Hp1 & Hl1 & Hr1 & ->).
  apply range_level_Ok in E2 as (b' & f2 & ch2 & q2 & Hb' & Hp2 & Hl2 & Hr2 & ->).
  rewrite Hb in Hb'. rewrite Hp1 in Hp2. simplify_eq.
  destruct (takes_left_inj _ _ _ _ _ _ _ _ _ _ _ Hl1 Hl2 Hl Hc) as (Hf & Hll & Hch & Hinj1).
  destruct (takes_right_inj _ _ _ _ _ _ _ _ Hr1 Hr2 Hch Hr) as (Hq & Hrr & Hinj2).
  destruct (IH _ _ _ _ _ _ _ _ _ H1 H2 Hll Hrr) as (Ho1 & Ho2 & Hinj3).
  { rewrite !length_app. lia. }
  split; [done|]. split; [done|]. intros Ho. destruct (Hinj3 Ho) as [(Hl' & Hr' & Hc')|]; [|by right].
  apply app_inj_1 in Hc' as [Hff Hqq]; [|done].
  destruct (Hinj2 Hqq Hr') as [[Hcc ->]|]; [|by right].
  destruct (Hinj1 Hff Hl' Hcc) as [[-> ->]|]; auto.
Qed.

(** ** Extending a ledger *)

Lemma append_one_inj roots p x y :
  lenN p < U64_MAX → append_one roots (lenN p) x = Ok (reverse (frozen_rev (p ++ [y]))) →
  (roots = reverse (frozen_rev p) ∧ x = y) ∨ Collision.
Proof.
  intros Hp H1. pose proof (append_one_frozen p y Hp) as H2. unfold append_one in *.
  assert (length (roots ++ [x]) = length (reverse (frozen_rev p) ++ [y])) as Hlen.
  { apply merge_last_two_length in H1. apply merge_last_two_length in H2. lia. }
  destruct (merge_last_two_inj _ _ _ _ Hlen H1 H2) as [Heq|]; [left|by right].
  by apply app_inj_tail in Heq.
Qed.

Lemma append_leaves_count new : ∀ roots n roots' n',
  append_leaves roots n new = Ok (roots', n') → n' = n + lenN new.
Proof.
  induction new as [|x new IH]; intros roots n roots' n' H; cbn [append_leaves] in H.
  { simplify_eq. unfold lenN. simpl. lia. }
  apply bind_Ok in H as (r1 & _ & H). apply bind_Ok in H as (m & Hm & H).
  unfold u64_add in Hm. apply expect_Ok, u64_checked_add_Some in Hm as [-> _].
  apply IH in H. subst. unfold lenN. simpl. lia.
Qed.

Lemma append_leaves_inj new : ∀ roots n l,
  lenN l < U64_MAX → lenN l = n + lenN new →
  append_leaves roots n new = Ok (reverse (frozen_rev l), lenN l) →
  (roots = reverse (frozen_rev (take (N.to_nat n) l)) ∧ new = drop (N.to_nat n) l) ∨ Collision.
Proof.
  induction new as [|x new IH]; intros roots n l Hl Hlen H.
  { cbn [append_leaves] in H. simplify_eq. left. rewrite take_ge, drop_ge by (unfold lenN; lia). done. }
  assert (lenN (x :: new) = lenN new + 1) as Hx by (unfold lenN; simpl; lia).
  cbn [append_leaves] in H. apply bind_Ok in H as (r1 & H1 & H).
  unfold u64_add in H.
  rewrite (proj2 (u64_checked_add_Some n 1 (n + 1))) in H by (unfold U64_MAX in *; lia).
  cbn [expect mbind outcome_bind] in H.
  destruct (IH r1 (n + 1) l Hl ltac:(lia) H) as [[-> Hnew]|]; [|by right].
  destruct (lookup_lt_is_Some_2 l (N.to_nat n)) as [y Hy]; [unfold lenN in *; lia|].
  replace (N.to_nat (n + 1)) with (S (N.to_nat n)) in * by lia.
  rewrite (take_S_r _ _ y) in H1 by done.
  assert (lenN (take (N.to_nat n) l) = n) as Hn by (unfold lenN in *; rewrite length_take; lia).
  rewrite <- Hn in H1 at 1.
  destruct (append_one_inj roots (take (N.to_nat n) l) x y) as [[-> ->]|]; [lia|done| |by right].
  left. split; [done|]. by rewrite (drop_S _ y), Hnew.
Qed.

(** ** Properties *)

(** C20: [from_leaves] and [append] build, without panicking, the accumulator of
    all the leaves in order: its root is the root of the Merkle tree built level by
    level over them, and its frozen roots are those of the tree's full subtrees. *)
Theorem accumulator_append_correct l new
    (Hl : lenN l + lenN new < U64_MAX) :
  accumulator_from_leaves l = Ok (accumulator_of l) ∧
  accumulator_append (accumulator_of l) new = Ok (accumulator_of (l ++ new)).
Proof.
  split; [|by apply accumulator_append_spec].
  unfold accumulator_from_leaves, accumulator_default.
  change (accumulator_new [] 0) with (Ok (E:=anyhow) (accumulator_of [])). run_ok.
  apply (accumulator_append_spec [] l). change (lenN []) with 0. lia.
Qed.

(** Appending subtrees to the accumulator of [l] never panics, whatever the
    subtrees and the leaf count of the proof. *)
Theorem append_subtrees_total l subtrees k (Hl : lenN l <= 2 ^ 63) :
  append_subtrees (accumulator_of l) subtrees k ≠ Panic.
Proof.
  destruct (N.lt_ge_cases (2 ^ 63) (lenN l + k)) as [Hk|Hk].
  { by rewrite append_subtrees_too_many. }
  destruct (decide (l = [])) as [->|Hne].
  { change (lenN []) with 0 in Hk. rewrite append_subtrees_empty by lia.
    apply accumulator_new_no_panic. lia. }
  destruct (append_subtrees_unfold l k Hne Hk) as (s & Hinv & ->).
  destruct (combine_loop_total 65 (reverse (frozen_rev l)) (lenN l) s k subtrees)
    as [(roots' & n' & rem' & rest & -> & Hsum)| ->]; [lia|done| | |done].
  { rewrite <- length_frozen_rev. unfold lenN. by rewrite length_reverse. }
  run_ok. unfold u64_add. rewrite (proj2 (u64_checked_add_Some n' rem' _)) by (split; [done|lia]).
  run_ok. apply accumulator_new_no_panic. lia.
Qed.

(** A consistency proof is sound: if appending subtrees to the accumulator of
    [l] gives the root of a tree over [l'], then [l] is a prefix of [l'] and the
    result is the accumulator of [l'], or a hash collision is at hand. *)
Lemma append_subtrees_sound l l' subtrees k acc
    (Happ : append_subtrees (accumulator_of l) subtrees k = Ok acc)
    (Hlen : lenN l' = lenN l + k) (Hroot : root_hash acc = merkle_root l') :
  (l `prefix_of` l' ∧ acc = accumulator_of l') ∨ Collision.
Proof.
  destruct (N.lt_ge_cases (2 ^ 63) (lenN l)) as [Hl|Hl].
  { by rewrite append_subtrees_overflow in Happ. }
  destruct (N.lt_ge_cases (2 ^ 63) (lenN l + k)) as [Hk|Hk].
  { by rewrite append_subtrees_too_many in Happ. }
  destruct (decide (l = [])) as [->|Hne].
  { change (lenN []) with 0 in *. rewrite append_subtrees_empty in Happ by lia.
    pose proof (accumulator_new_inv _ _ _ Happ) as (_ & _ & Hfr & Hn).
    destruct (accumulator_new_root l' acc) as [Heq|];
      [lia|by rewrite Hfr, Hn|by rewrite Hn, Hlen|done| |by right].
    left. split; [apply prefix_nil|done]. }
  destruct (append_subtrees_unfold l k Hne Hk) as (s & Hinv & Heq). rewrite Heq in Happ.
  assert (lenN (reverse (frozen_rev l)) = count_ones (lenN l)) as Hlenf.
  { rewrite <- length_frozen_rev. unfold lenN. by rewrite length_reverse. }
  destruct (combine_loop_total 65 (reverse (frozen_rev l)) (lenN l) s k subtrees)
    as [(roots' & n' & rem' & rest & Hloop & Hsum)|Hloop]; [lia|done|done| |by rewrite Hloop in Happ].
  rewrite Hloop in Happ. cbn [mbind outcome_bind] in Happ. unfold u64_add in Happ.
  rewrite (proj2 (u64_checked_add_Some n' rem' _)) in Happ by (split; [done|lia]).
  cbn [expect mbind outcome_bind] in Happ.
  pose proof (accumulator_new_inv _ _ _ Happ) as (_ & _ & Hfr & Hn).
  destruct (accumulator_new_root l' acc) as [Ho|];
    [lia|by rewrite Hfr, Hn|lia|done| |by right].
  assert (roots' ++ rest = reverse (frozen_rev l')) as Hroots by (by rewrite <- Hfr, Ho).
  destruct (combine_loop_sound 65 _ _ _ _ _ l' _ _ _ _ Hinv Hlenf Hlen Hloop Hroots)
    as [Hpre|]; [|by right].
  apply (inj reverse) in Hpre.
  destruct (frozen_rev_inj l (take (N.to_nat (lenN l)) l')) as [Hl'|]; [|done| |by right].
  - unfold lenN in *. rewrite length_take. lia.
  - left. split; [|done]. rewrite Hl'. apply prefix_take.
Qed.

(** Consistency proofs are complete: between any two accumulators, the second
    extending the first, there is a list of subtrees that leads from one to the
    other. *)
Theorem append_subtrees_complete l new (Hl : lenN l + lenN new <= 2 ^ 63) :
  ∃ subtrees,
    append_subtrees (accumulator_of l) subtrees (lenN new) = Ok (accumulator_of (l ++ new)).
Proof.
  assert (lenN (l ++ new) = lenN l + lenN new) as Hlen by (unfold lenN; rewrite length_app; lia).
  destruct (decide (l = [])) as [->|Hne].
  { exists (reverse (frozen_rev new)). change (lenN []) with 0 in *.
    rewrite append_subtrees_empty by lia. apply accumulator_new_spec. lia. }
  destruct (append_subtrees_unfold l (lenN new) Hne Hl) as (s & Hinv & Heq).
  destruct (combine_loop_complete 65 (lenN l) s (lenN new) (l ++ new))
    as (subtrees & roots' & n' & rem' & rest & Hloop & Hsum & Hroots); [lia|done|done|].
  unfold lenN in Hloop at 1. rewrite Nat2N.id, take_app_length in Hloop.
  exists subtrees. rewrite Heq, Hloop. run_ok. unfold u64_add.
  rewrite (proj2 (u64_checked_add_Some n' rem' (lenN (l ++ new)))) by lia. run_ok.
  rewrite Hroots. apply accumulator_new_spec. lia.
Qed.


(** For every non-empty range of consecutive leaves of a tree there is a range
    proof that [verify] accepts. *)
Theorem accumulator_range_proof_complete before leaves after
    (Hne : leaves ≠ []) (Hlen : lenN (before ++ leaves ++ after) < MAX_ACCUMULATOR_LEAVES) :
  ∃ proof, accumulator_range_proof_verify proof (merkle_root (before ++ leaves ++ after))
             (Some (lenN before)) leaves = Ok tt.
Proof.
  change MAX_ACCUMULATOR_LEAVES with (2 ^ 63) in Hlen.
  destruct (range_loop_complete 63 0 before leaves after) as (lsib & rsib & Hl & Hr & Hloop);
    [done|done|change (N.of_nat 63) with 63; lia|done|].
  exists (mkAccumulatorRangeProof lsib rsib). unfold accumulator_range_proof_verify.
  cbn [arp_left_siblings arp_right_siblings]. unfold MAX_ACCUMULATOR_PROOF_DEPTH.
  rewrite (proj2 (N.leb_le (lenN lsib) 63)), (proj2 (N.leb_le (lenN rsib) 63)) by (unfold lenN; lia).
  run_ok. replace (lenN leaves =? 0) with false by (by destruct leaves). run_ok.
  rewrite from_leaf_index_node by (unfold lenN in *; rewrite !length_app in *; lia). run_ok.
  rewrite Hloop by lia. simpl. by rewrite N.eqb_refl.
Qed.

(** Two accepted range proofs of the same shape for the same root and first
    leaf are for the same leaves and have the same siblings, or exhibit a hash
    collision. *)
Theorem accumulator_range_proof_binding proof1 proof2 root first leaves1 leaves2
    (H1 : accumulator_range_proof_verify proof1 root (Some first) leaves1 = Ok tt)
    (H2 : accumulator_range_proof_verify proof2 root (Some first) leaves2 = Ok tt)
    (Hleaves : length leaves1 = length leaves2)
    (Hleft : length (arp_left_siblings proof1) = length (arp_left_siblings proof2))
    (Hright : length (arp_right_siblings proof1) = length (arp_right_siblings proof2)) :
  (proof1 = proof2 ∧ leaves1 = leaves2) ∨ Collision.
Proof.
  assert (∀ proof leaves, accumulator_range_proof_verify proof root (Some first) leaves = Ok tt →
    ∃ p o, from_leaf_index (E:=anyhow) first = Ok p ∧ head o = Some root ∧
      range_loop 64 p (arp_left_siblings proof) (arp_right_siblings proof) leaves = Ok o) as Hinv.
  { intros proof leaves H. unfold accumulator_range_proof_verify in H.
    apply bind_Ok in H as (? & _ & H). apply bind_Ok in H as (? & _ & H).
    apply bind_Ok in H as (? & _ & H). apply bind_Ok in H as (p & Hp & H).
    apply bind_Ok in H as (o & Ho & H). apply bind_Ok in H as (a & Ha & H).
    exists p, o. split; [done|]. split; [|done]. apply expect_Ok in Ha. rewrite Ha.
    apply ensure_Ok, N.eqb_eq in H as ->. done. }
  destruct (Hinv _ _ H1) as (p & o1 & Hp & Ho1 & Hr1).
  destruct (Hinv _ _ H2) as (p' & o2 & Hp' & Ho2 & Hr2).
  rewrite Hp in Hp'. simplify_eq.
  destruct (range_loop_inj 64 _ _ _ _ _ _ _ _ _ Hr1 Hr2 Hleft Hright Hleaves) as (Hlen1 & Hlen2 & Hinj).
  destruct Hinj as [(Hl & Hr & ->)|]; [| |by right].
  - destruct o1 as [|x [|? ?]], o2 as [|y [|? ?]]; simpl in *; congruence || lia.
  - left. split; [|done]. destruct proof1, proof2. simpl in *. congruence.
Qed.

(** A crafted range proof makes [verify] panic: one leaf at index 1, two
    siblings on the left and 63 on the right pass the length checks, the loop
    takes 64 turns and then asks for the direction of the position [u64::MAX],
    whose assertion fails. *)
Theorem accumulator_range_proof_panics root leaf a b c :
  accumulator_range_proof_verify (mkAccumulatorRangeProof [a; b] (replicate 63 c))
    root (Some 1) [leaf] = Panic.
Proof. reflexivity. Qed.

(** An extension proof accepted against the root of the tree over [l], and
    whose leaf count is that of [l], returns the accumulator of [l] extended with
    the proof's leaves, or exhibits a hash collision. *)
Theorem accumulator_extension_proof_sound proof l acc
    (Hlen : lenN l + lenN (aep_leaves proof) < U64_MAX) (Hn : aep_num_leaves proof = lenN l)
    (Hv : accumulator_extension_proof_verify proof (merkle_root l) = Ok acc) :
  acc = accumulator_of (l ++ aep_leaves proof) ∨ Collision.
Proof.
  unfold accumulator_extension_proof_verify in Hv.
  apply bind_Ok in Hv as (tree & Htree & Hv). apply bind_Ok in Hv as (? & Hroot & Hv).
  apply ensure_Ok, N.eqb_eq in Hroot.
  pose proof (accumulator_new_inv _ _ _ Htree) as (_ & _ & Hfr & Hnl).
  destruct (accumulator_new_root l tree) as [->|]; [| | |done| |by right].
  - unfold U64_MAX in *. lia.
  - by rewrite Hfr, Hnl.
  - congruence.
  - rewrite accumulator_append_spec in Hv by done. left. congruence.
Qed.

(** When [verify_extends_ledger] accepts a chunk against the root of the
    ledger [l], either the whole chunk lies in the past, or it returns the number
    of transactions that overlap and these are exactly the last ones of [l], or a
    hash collision is exhibited. *)
Theorem verify_extends_ledger_sound proof infos l first_version k
    (Hl : lenN l < U64_MAX)
    (Hv : verify_extends_ledger proof infos (lenN l) (merkle_root l) (Some first_version) = Ok k) :
  first_version <= lenN l ∧
  ((k = lenN infos ∧ first_version + k < lenN l) ∨
   (first_version + k = lenN l ∧
    take (N.to_nat k) infos = drop (N.to_nat first_version) l) ∨
   Collision).
Proof.
  unfold verify_extends_ledger in Hv. apply bind_Ok in Hv as (? & Hle & Hv).
  apply ensure_Ok, N.leb_le in Hle. split; [done|].
  destruct (N.ltb_spec (lenN infos) (lenN l - first_version)) as [Hlt|Hge].
  { left. simplify_eq. lia. }
  right. apply bind_Ok in Hv as (accu & Haccu & Hv). apply bind_Ok in Hv as (acc & Hacc & Hv).
  apply bind_Ok in Hv as (? & Hroot & Hv). apply ensure_Ok, N.eqb_eq in Hroot. simplify_eq.
  set (k := lenN l - first_version) in *.
  apply accumulator_new_inv in Haccu as (_ & _ & _ & Hn1).
  unfold accumulator_append in Hacc. apply bind_Ok in Hacc as ([roots n] & Happ & Hacc).
  rewrite Hn1 in Happ.
  assert (lenN (take (N.to_nat k) infos) = k) as Hk by (unfold lenN in *; rewrite length_take; lia).
  assert (n = lenN l) as ->.
  { apply append_leaves_count in Happ. rewrite Happ, Hk. unfold k. lia. }
  destruct (accumulator_new roots (lenN l)) as [acc'| |] eqn:Hnew; [|done|done].
  injection Hacc as ->. pose proof (accumulator_new_inv _ _ _ Hnew) as (_ & _ & Hfr & Hnl).
  destruct (accumulator_new_root l acc) as [->|];
    [unfold U64_MAX in *; lia|by rewrite Hfr, Hnl|done|done| |by right].
  cbn [accumulator_of frozen_subtree_roots] in Hfr. rewrite <- Hfr in Happ.
  assert (lenN l = first_version + lenN (take (N.to_nat k) infos)) as Hsum
    by (rewrite Hk; unfold k; lia).
  destruct (append_leaves_inj _ _ _ l Hl Hsum Happ) as [[_ Hsuf]|]; [left|by right].
  split; [unfold k; lia|done].
Qed.

End accumulator.

(** ** Witnesses *)

(** A pairing that stands for the hash in the examples. *)
Definition sample_hash (a b : N) : N := 1000 * a + b + 7.

Lemma accumulator_append_correct_witness :
  accumulator_from_leaves sample_hash [1; 2] = Ok (accumulator_of sample_hash [1; 2]) ∧
  accumulator_append sample_hash (accumulator_of sample_hash [1; 2]) [3] =
    Ok (accumulator_of sample_hash [1; 2; 3]).
Proof. apply (accumulator_append_correct sample_hash [1; 2] [3]). vm_compute. done. Defined.

Lemma append_subtrees_total_witness :
  append_subtrees sample_hash (accumulator_of sample_hash [1; 2; 3]) [4; 5; 6] 1 ≠ Panic.
Proof. apply (append_subtrees_total sample_hash [1; 2; 3] [4; 5; 6] 1). vm_compute. done. Defined.

Lemma append_subtrees_complete_witness :
  ∃ subtrees, append_subtrees sample_hash (accumulator_of sample_hash [1; 2; 3]) subtrees 2 =
    Ok (accumulator_of sample_hash [1; 2; 3; 4; 5]).
Proof. apply (append_subtrees_complete sample_hash [1; 2; 3] [4; 5]). vm_compute. done. Defined.


Lemma accumulator_range_proof_complete_witness :
  ∃ proof, accumulator_range_proof_verify sample_hash proof
    (merkle_root sample_hash [1; 2; 3; 4; 5]) (Some 1) [2; 3] = Ok tt.
Proof.
  apply (accumulator_range_proof_complete sample_hash [1] [2; 3] [4; 5]); vm_compute; done.
Defined.

Lemma accumulator_range_proof_binding_witness :
  let proof := mkAccumulatorRangeProof [1] [3] in
  let root := sample_hash (sample_hash 1 2) 3 in
  (proof = proof ∧ [2] = [2]) ∨ Collision sample_hash.
Proof.
  apply (accumulator_range_proof_binding sample_hash _ _
    (sample_hash (sample_hash 1 2) 3) 1 [2] [2]); vm_compute; reflexivity.
Defined.

Lemma accumulator_extension_proof_sound_witness :
  accumulator_of sample_hash [1; 2; 3] = accumulator_of sample_hash [1; 2; 3] ∨
  Collision sample_hash.
Proof.
  apply (accumulator_extension_proof_sound sample_hash
    (mkAccumulatorExtensionProof [sample_hash 1 2] 2 [3]) [1; 2]); vm_compute; reflexivity.
Defined.

Lemma verify_extends_ledger_sound_witness :
  2 <= 3 ∧ ((1 = 2 ∧ 2 + 1 < 3) ∨
    (2 + 1 = 3 ∧ take 1 [3; 4] = drop 2 [1; 2; 3]) ∨ Collision sample_hash).
Proof.
  apply (verify_extends_ledger_sound sample_hash
    (mkAccumulatorRangeProof [sample_hash 1 2] []) [3; 4] [1; 2; 3] 2 1); vm_compute; reflexivity.
Defined.
