(* ===== verification/ValidatorVerifier.v ===== *)
(** * Validator sets and quorums (types/src/validator_verifier.rs, aggregate_signature.rs)

    [ValidatorVerifier] with its constructors and its checks of single, multi and
    aggregate signatures, [AggregateSignature] and [PartialSignatures]. The
    theorems: what an accepted signature says about the validators behind it, that
    two quorums share an honest validator, and that aggregating enough valid
    partial signatures gives an accepted one. *)
From stdpp Require Import sorting.
From S2P Require Import Prelude BitVec Crypto.
Local Open Scope N_scope.

(** ** Data *)

Inductive VerifyError :=
| UnknownAuthor
| TooLittleVotingPower (voting_power expected_voting_power : N)
| EmptySignature
| InvalidMultiSignature
| InvalidAggregatedSignature
| InconsistentBlockInfo
| FailedToAggregatePubKey
| FailedToAggregateSignature
| FailedToVerifyMultiSignature
| InvalidBitVec
| FailedToVerifyAggregatedSignature.

#[export] Instance VerifyError_eq_dec : EqDecision VerifyError.
Proof. solve_decision. Defined.

(** The [Display] messages, through which the error becomes an [anyhow] one. *)
Definition verify_error_anyhow (e : VerifyError) : anyhow :=
  match e with
  | UnknownAuthor => fmt "Author is unknown" []
  | TooLittleVotingPower v e =>
      fmt "The voting power ({}) is less than expected voting power ({})" [v; e]
  | EmptySignature => fmt "Signature is empty" []
  | InvalidMultiSignature => fmt "Multi signature is invalid" []
  | InvalidAggregatedSignature => fmt "Aggregated signature is invalid" []
  | InconsistentBlockInfo => fmt "Inconsistent Block Info" []
  | FailedToAggregatePubKey => fmt "Failed to aggregate public keys" []
  | FailedToAggregateSignature => fmt "Failed to aggregate signatures" []
  | FailedToVerifyMultiSignature => fmt "Failed to verify multi-signature" []
  | InvalidBitVec => fmt "Invalid bitvec from the multi-signature" []
  | FailedToVerifyAggregatedSignature => fmt "Failed to verify aggreagated signature" []
  end.

Record ValidatorConsensusInfo := mkValidatorConsensusInfo {
  vci_address : AccountAddress;
  vci_public_key : PublicKey;
  vci_voting_power : N;
}.

#[export] Instance ValidatorConsensusInfo_eq_dec : EqDecision ValidatorConsensusInfo.
Proof. solve_decision. Defined.

Record ValidatorVerifier := mkValidatorVerifier {
  validator_infos : list ValidatorConsensusInfo;
  quorum_voting_power : N;
  total_voting_power : N;
  address_to_validator_index : gmap AccountAddress nat;
}.

#[export] Instance ValidatorVerifier_eq_dec : EqDecision ValidatorVerifier.
Proof. solve_decision. Defined.

(** [AggregateSignature] *)
Record AggregateSignature := mkAggregateSignature {
  validator_bitmask : BitVec;
  agg_sig : option Signature;
}.

#[export] Instance AggregateSignature_eq_dec : EqDecision AggregateSignature.
Proof. solve_decision. Defined.

Definition aggregate_signature_empty : AggregateSignature :=
  mkAggregateSignature bv_default None.

Fixpoint filter_voters (mask : BitVec) (index : N) (addresses : list AccountAddress)
  : list AccountAddress :=
  match addresses with
  | [] => []
  | addr :: rest =>
      if bv_is_set mask (index mod 2 ^ 16) then addr :: filter_voters mask (index + 1) rest
      else filter_voters mask (index + 1) rest
  end.
Definition get_voter_addresses (s : AggregateSignature) (validator_addresses : list AccountAddress)
  : list AccountAddress :=
  filter_voters (validator_bitmask s) 0 validator_addresses.

Definition get_num_voters (s : AggregateSignature) : N := bv_count_ones (validator_bitmask s).

(** [PartialSignatures]: a [BTreeMap] from validators to signatures. *)
Abbreviation PartialSignatures := (gmap AccountAddress Signature) (only parsing).

Definition partial_signatures_empty : PartialSignatures := ∅.
Definition partial_signatures_is_empty (s : PartialSignatures) : bool := bool_decide (s = ∅).
Definition remove_signature (s : PartialSignatures) (validator : AccountAddress)
  : PartialSignatures := delete validator s.
(** [entry(validator).or_insert(signature)] *)
Definition add_signature (s : PartialSignatures) (validator : AccountAddress) (sig : Signature)
  : PartialSignatures :=
  match s !! validator with Some _ => s | None => <[validator := sig]> s end.

(** ** Constructors *)

Fixpoint sum_voting_power_from {E} (sum : N) (infos : list ValidatorConsensusInfo) : outcome E N :=
  match infos with
  | [] => Ok sum
  | x :: infos =>
      sum ← expect (u128_checked_add sum (vci_voting_power x));
      sum_voting_power_from sum infos
  end.
Definition sum_voting_power {E} (infos : list ValidatorConsensusInfo) : outcome E N :=
  sum_voting_power_from 0 infos.

Fixpoint index_addresses (index : nat) (infos : list ValidatorConsensusInfo)
    (m : gmap AccountAddress nat) : gmap AccountAddress nat :=
  match infos with
  | [] => m
  | info :: infos => index_addresses (S index) infos (<[vci_address info := index]> m)
  end.
Definition build_index (infos : list ValidatorConsensusInfo) (quorum total : N)
  : ValidatorVerifier :=
  mkValidatorVerifier infos quorum total (index_addresses 0 infos ∅).

Definition validator_verifier_new {E} (infos : list ValidatorConsensusInfo)
  : outcome E ValidatorVerifier :=
  total ← sum_voting_power infos;
  quorum ←
    match infos with
    | [] => Ok 0
    | _ => _ ← rassert (total * 2 <? 2 ^ 128); expect (u128_checked_add (total * 2 / 3) 1)
    end;
  Ok (build_index infos quorum total).

Definition new_with_quorum_voting_power (infos : list ValidatorConsensusInfo) (quorum : N)
  : outcome anyhow ValidatorVerifier :=
  total ← sum_voting_power infos;
  _ ← ensure (quorum <=? total)
        (fmt "Quorum voting power is greater than the sum of all voting power of authors: {}, quorum_size: {}."
           [quorum; total]);
  Ok (build_index infos quorum total).

Definition validator_verifier_new_single {E} (author : AccountAddress) (public_key : PublicKey)
  : outcome E ValidatorVerifier :=
  validator_verifier_new [mkValidatorConsensusInfo author public_key 1].

(** ** Look-ups

    [build_index] only stores indices of [validator_infos], so that indexing the
    vector never fails. *)
Definition validator_info (v : ValidatorVerifier) (author : AccountAddress)
  : option ValidatorConsensusInfo :=
  index ← address_to_validator_index v !! author;
  validator_infos v !! index.
Definition get_public_key (v : ValidatorVerifier) (author : AccountAddress) : option PublicKey :=
  vci_public_key <$> validator_info v author.
Definition get_voting_power (v : ValidatorVerifier) (author : AccountAddress) : option N :=
  vci_voting_power <$> validator_info v author.
Definition get_ordered_account_addresses (v : ValidatorVerifier) : list AccountAddress :=
  vci_address <$> validator_infos v.
Definition verifier_len (v : ValidatorVerifier) : N := lenN (validator_infos v).
Definition len_u16 (v : ValidatorVerifier) : N := verifier_len v mod 2 ^ 16.

(** ** Checks *)

Definition check_num_of_voters (num_validators : N) (bitvec : BitVec)
  : outcome VerifyError unit :=
  if negb (bv_num_buckets bitvec =? required_buckets num_validators) then Err InvalidBitVec
  else
    match bv_last_set_bit bitvec with
    | Some last_bit => if num_validators <=? last_bit then Err InvalidBitVec else Ok tt
    | None => Ok tt
    end.

Fixpoint add_voting_power (v : ValidatorVerifier) (power : N) (authors : list AccountAddress)
  : outcome VerifyError N :=
  match authors with
  | [] => Ok power
  | account_address :: authors =>
      match get_voting_power v account_address with
      | Some p =>
          power ← expect (u128_checked_add power p);
          add_voting_power v power authors
      | None => Err UnknownAuthor
      end
  end.

Definition check_voting_power (v : ValidatorVerifier) (authors : list AccountAddress)
  : outcome VerifyError unit :=
  aggregated_voting_power ← add_voting_power v 0 authors;
  if aggregated_voting_power <? quorum_voting_power v
  then Err (TooLittleVotingPower aggregated_voting_power (quorum_voting_power v))
  else Ok tt.

(** The loop over [iter_ones] shared by the two signature checks. *)
Fixpoint validators_at (v : ValidatorVerifier) (indices : list N)
  : outcome VerifyError (list ValidatorConsensusInfo) :=
  match indices with
  | [] => Ok []
  | index :: indices =>
      validator ← ok_or (validator_infos v !! N.to_nat index) UnknownAuthor;
      rest ← validators_at v indices;
      Ok (validator :: rest)
  end.

(** The loop over the partial signatures: the mask and the signatures. *)
Fixpoint collect_signatures (v : ValidatorVerifier) (signatures : list (AccountAddress * Signature))
    (masks : BitVec) (sigs : list Signature) : outcome VerifyError (BitVec * list Signature) :=
  match signatures with
  | [] => Ok (masks, sigs)
  | (addr, sig) :: rest =>
      index ← ok_or (address_to_validator_index v !! addr) UnknownAuthor;
      collect_signatures v rest (bv_set masks (N.of_nat index mod 2 ^ 16)) (sigs ++ [sig])
  end.

Section verifier.
Context `{!Bls}.

Definition verifier_verify {A} `{!CryptoHash A} (v : ValidatorVerifier)
    (author : AccountAddress) (message : A) (sig : Signature) : outcome VerifyError unit :=
  match get_public_key v author with
  | Some public_key =>
      ensure (signature_verify sig message public_key) InvalidMultiSignature
  | None => Err UnknownAuthor
  end.

Definition aggregate_signatures (v : ValidatorVerifier) (partial_signatures : PartialSignatures)
  : outcome VerifyError AggregateSignature :=
  '(masks, sigs) ← collect_signatures v (btree_iter partial_signatures)
                     (with_num_bits (len_u16 v)) [];
  aggregated_sig ← ok_or (bls_aggregate_sigs sigs) FailedToAggregateSignature;
  Ok (mkAggregateSignature masks (Some aggregated_sig)).

Definition verify_multi_signatures {A} `{!CryptoHash A} (v : ValidatorVerifier)
    (message : A) (multi_signature : AggregateSignature) : outcome VerifyError unit :=
  _ ← check_num_of_voters (len_u16 v) (validator_bitmask multi_signature);
  validators ← validators_at v (bv_iter_ones (validator_bitmask multi_signature));
  _ ← check_voting_power v (vci_address <$> validators);
  multi_sig ← ok_or (agg_sig multi_signature) EmptySignature;
  aggregated_key ← ok_or (bls_aggregate_pks (vci_public_key <$> validators))
                     FailedToAggregatePubKey;
  ensure (signature_verify multi_sig message aggregated_key) InvalidMultiSignature.

Definition verify_aggregate_signatures {A} `{!CryptoHash A} (v : ValidatorVerifier)
    (messages : list A) (aggregated_signature : AggregateSignature) : outcome VerifyError unit :=
  _ ← check_num_of_voters (len_u16 v) (validator_bitmask aggregated_signature);
  validators ← validators_at v (bv_iter_ones (validator_bitmask aggregated_signature));
  _ ← check_voting_power v (vci_address <$> validators);
  aggregated_sig ← ok_or (agg_sig aggregated_signature) EmptySignature;
  ensure (signature_verify_aggregate aggregated_sig messages (vci_public_key <$> validators))
    InvalidAggregatedSignature.

End verifier.

(** ** From the on-chain validator set *)

Record ValidatorConfig := mkValidatorConfig {
  vc_consensus_public_key : PublicKey;
  vc_validator_network_addresses : list N;
  vc_fullnode_network_addresses : list N;
  vc_validator_index : N;
}.

Record ValidatorInfo := mkValidatorInfo {
  vi_account_address : AccountAddress;
  vi_consensus_voting_power : N;
  vi_config : ValidatorConfig;
}.

Inductive ConsensusScheme := BLS12381.

Record ValidatorSet := mkValidatorSet {
  vset_scheme : ConsensusScheme;
  vset_active_validators : list ValidatorInfo;
  vset_pending_inactive : list ValidatorInfo;
  vset_pending_active : list ValidatorInfo;
  vset_total_voting_power : N;
  vset_total_joining_power : N;
}.

Definition validator_set_new (payload : list ValidatorInfo) : ValidatorSet :=
  mkValidatorSet BLS12381 payload [] [] 0 0.

Definition validator_set_payload (vs : ValidatorSet) : list ValidatorInfo :=
  vset_active_validators vs ++ vset_pending_inactive vs.

Definition consensus_info_of (info : ValidatorInfo) : ValidatorConsensusInfo :=
  mkValidatorConsensusInfo (vi_account_address info) (vc_consensus_public_key (vi_config info))
    (vi_consensus_voting_power info).

(** [collect] into a [BTreeMap]: a later entry replaces an earlier one. *)
Fixpoint collect_by_index (payload : list ValidatorInfo) (m : gmap N ValidatorConsensusInfo)
  : gmap N ValidatorConsensusInfo :=
  match payload with
  | [] => m
  | info :: payload =>
      collect_by_index payload (<[vc_validator_index (vi_config info) := consensus_info_of info]> m)
  end.

(** The loop of assertions. *)
Fixpoint check_indices {E} (infos : list ValidatorConsensusInfo) (payload : list ValidatorInfo)
  : outcome E unit :=
  match payload with
  | [] => Ok tt
  | info :: payload =>
      at_index ← expect (infos !! N.to_nat (vc_validator_index (vi_config info)));
      _ ← rassert (vci_address at_index =? vi_account_address info);
      check_indices infos payload
  end.

Definition verifier_from_validator_set {E} (vs : ValidatorSet) : outcome E ValidatorVerifier :=
  let sorted_validator_infos := collect_by_index (validator_set_payload vs) ∅ in
  let infos := snd <$> btree_iter sorted_validator_infos in
  _ ← check_indices infos (validator_set_payload vs);
  validator_verifier_new infos.

(** ** Specification: voting power of a set of validators *)

Fixpoint set_power (infos : list ValidatorConsensusInfo) (s : gset AccountAddress) : N :=
  match infos with
  | [] => 0
  | info :: infos =>
      (if bool_decide (vci_address info ∈ s) then vci_voting_power info else 0) + set_power infos s
  end.

Definition addresses (infos : list ValidatorConsensusInfo) : list AccountAddress :=
  vci_address <$> infos.

(** A verifier as its constructors build it, with one entry per address. *)
Record verifier_wf (v : ValidatorVerifier) : Prop := {
  wf_nodup : NoDup (addresses (validator_infos v));
  wf_index : address_to_validator_index v = index_addresses 0 (validator_infos v) ∅;
  wf_total : total_voting_power v = set_power (validator_infos v) (list_to_set (addresses (validator_infos v)));
  wf_fits : total_voting_power v < 2 ^ 128;
}.

(** The validators whose bit is set. *)
Definition voters (v : ValidatorVerifier) (s : AggregateSignature) : gset AccountAddress :=
  list_to_set (omap (λ i, vci_address <$> validator_infos v !! N.to_nat i)
    (bv_iter_ones (validator_bitmask s))).

(** ** Lemmas on voting power *)

Lemma set_power_ext infos s1 s2 :
  (∀ a, a ∈ addresses infos → a ∈ s1 ↔ a ∈ s2) → set_power infos s1 = set_power infos s2.
Proof.
  induction infos as [|info infos IH]; intros Hext; [done|]. cbn [set_power].
  rewrite IH by (intros a Ha; apply Hext; by right).
  f_equal. assert (vci_address info ∈ s1 ↔ vci_address info ∈ s2) as Hi by (apply Hext; by left).
  by rewrite (bool_decide_ext _ _ Hi).
Qed.

Lemma set_power_union_inter infos s1 s2 :
  set_power infos s1 + set_power infos s2 = set_power infos (s1 ∪ s2) + set_power infos (s1 ∩ s2).
Proof.
  induction infos as [|info infos IH]; [done|]. cbn [set_power].
  repeat case_bool_decide; set_solver by lia.
Qed.

Lemma set_power_mono infos s1 s2 : s1 ⊆ s2 → set_power infos s1 <= set_power infos s2.
Proof.
  intros Hsub. induction infos as [|info infos IH]; [done|]. cbn [set_power].
  repeat case_bool_decide; lia || set_solver.
Qed.

Lemma set_power_le_all infos s :
  set_power infos s <= set_power infos (list_to_set (addresses infos)).
Proof.
  transitivity (set_power infos (s ∪ list_to_set (addresses infos))).
  - apply set_power_mono. set_solver.
  - rewrite (set_power_ext infos _ (list_to_set (addresses infos))); [done|]. set_solver.
Qed.

Lemma set_power_empty infos : set_power infos ∅ = 0.
Proof. induction infos as [|info infos IH]; [done|]. cbn [set_power]. by rewrite IH. Qed.

Lemma set_power_singleton_union infos a s info :
  NoDup (addresses infos) → info ∈ infos → vci_address info = a → a ∉ s →
  set_power infos ({[a]} ∪ s) = vci_voting_power info + set_power infos s.
Proof.
  intros Hnd Hin Ha Hs. induction infos as [|x infos IH]; [by apply not_elem_of_nil in Hin|].
  unfold addresses in Hnd. rewrite fmap_cons in Hnd. apply NoDup_cons in Hnd as [Hx Hnd].
  cbn [set_power]. apply elem_of_cons in Hin as [->|Hin].
  - rewrite bool_decide_true, bool_decide_false by set_solver.
    rewrite (set_power_ext infos ({[a]} ∪ s) s); [lia|].
    intros b Hb. rewrite elem_of_union, elem_of_singleton. split; [|auto]. intros [->|]; [|done].
    by rewrite Ha in Hx.
  - rewrite IH by done.
    assert (vci_address x ≠ a).
    { intros Heq. apply Hx. rewrite Heq, <- Ha. by apply list_elem_of_fmap_2. }
    rewrite (bool_decide_ext (vci_address x ∈ {[a]} ∪ s) (vci_address x ∈ s)) by set_solver. lia.
Qed.

(** ** Lemmas on the index *)

Lemma index_addresses_notin infos : ∀ i m a,
  a ∉ addresses infos → index_addresses i infos m !! a = m !! a.
Proof.
  induction infos as [|x infos IH]; intros i m a Ha; [done|]. cbn [index_addresses].
  unfold addresses in Ha. rewrite fmap_cons in Ha. apply not_elem_of_cons in Ha as [Hx Ha].
  rewrite IH by done. by rewrite lookup_insert_ne.
Qed.
Lemma index_addresses_in infos : ∀ i m j info,
  NoDup (addresses infos) → infos !! j = Some info →
  index_addresses i infos m !! vci_address info = Some (i + j)%nat.
Proof.
  induction infos as [|x infos IH]; intros i m j info Hnd Hj; [done|].
  unfold addresses in Hnd. rewrite fmap_cons in Hnd. apply NoDup_cons in Hnd as [Hx Hnd].
  cbn [index_addresses]. destruct j as [|j]; simpl in Hj.
  - simplify_eq. rewrite index_addresses_notin by done. rewrite lookup_insert_eq. f_equal. lia.
  - rewrite (IH _ _ j) by done. f_equal. lia.
Qed.

Lemma lookup_address infos a :
  a ∈ addresses infos → ∃ j info, infos !! j = Some info ∧ vci_address info = a.
Proof.
  intros Ha. apply list_elem_of_fmap in Ha as (info & -> & Hin).
  apply list_elem_of_lookup in Hin as [j Hj]. eauto.
Qed.

Lemma validator_info_Some v a info :
  verifier_wf v →
  validator_info v a = Some info ↔ info ∈ validator_infos v ∧ vci_address info = a.
Proof.
  intros Hwf. unfold validator_info. rewrite (wf_index v Hwf). split.
  - intros H. apply bind_Some in H as (k & Hk & Hinfo).
    destruct (decide (a ∈ addresses (validator_infos v))) as [Ha|Ha].
    + apply lookup_address in Ha as (j & info' & Hj & <-).
      rewrite (index_addresses_in _ _ _ j info') in Hk by (done || apply Hwf).
      simpl in Hk. simplify_eq.
      split; [by eapply list_elem_of_lookup_2|done].
    + by rewrite index_addresses_notin in Hk.
  - intros [Hin <-]. apply list_elem_of_lookup in Hin as [j Hj].
    rewrite (index_addresses_in _ _ _ j info) by (done || apply Hwf). done.
Qed.

Lemma validator_info_None v a :
  verifier_wf v → validator_info v a = None → a ∉ addresses (validator_infos v).
Proof.
  intros Hwf Hn Ha. apply lookup_address in Ha as (j & info & Hj & <-).
  assert (validator_info v (vci_address info) = Some info) as Hs; [|congruence].
  apply validator_info_Some; [done|]. split; [by eapply list_elem_of_lookup_2|done].
Qed.

(** ** [check_voting_power] counts the power of the authors *)

Lemma add_voting_power_spec v authors : ∀ p p',
  verifier_wf v → NoDup authors →
  add_voting_power v p authors = Ok p' →
  list_to_set authors ⊆@{gset AccountAddress} list_to_set (addresses (validator_infos v)) ∧
  p' = p + set_power (validator_infos v) (list_to_set authors).
Proof.
  induction authors as [|a authors IH]; intros p p' Hwf Hnd H; cbn [add_voting_power] in H.
  { simplify_eq. cbn [list_to_set]. rewrite set_power_empty. split; [set_solver|lia]. }
  apply NoDup_cons in Hnd as [Ha Hnd].
  destruct (get_voting_power v a) as [q|] eqn:Hq; [|done].
  apply bind_Ok in H as (p1 & Hp1 & H). apply expect_Ok in Hp1.
  unfold u128_checked_add in Hp1. case_match; [|done]. simplify_eq.
  destruct (IH _ _ Hwf Hnd H) as [Hsub ->].
  unfold get_voting_power in Hq. apply fmap_Some in Hq as (info & Hinfo & ->).
  apply validator_info_Some in Hinfo as [Hin Haddr]; [|done]. cbn [list_to_set]. split.
  - apply union_subseteq. split; [|done]. apply singleton_subseteq_l, elem_of_list_to_set.
    rewrite <- Haddr. by apply list_elem_of_fmap_2.
  - rewrite (set_power_singleton_union _ a _ info); [lia|apply Hwf|done|done|].
    by rewrite elem_of_list_to_set.
Qed.

(** Known authors never overflow the sum. *)
Lemma add_voting_power_total v authors : ∀ p,
  verifier_wf v → NoDup authors →
  p + set_power (validator_infos v) (list_to_set authors) < 2 ^ 128 →
  (∀ a, a ∈ authors → a ∈ addresses (validator_infos v)) →
  add_voting_power v p authors = Ok (p + set_power (validator_infos v) (list_to_set authors)).
Proof.
  induction authors as [|a authors IH]; intros p Hwf Hnd Hp Hin; cbn [add_voting_power].
  { cbn [list_to_set]. rewrite set_power_empty. f_equal. lia. }
  apply NoDup_cons in Hnd as [Ha Hnd].
  destruct (lookup_address _ a (Hin a ltac:(by left))) as (j & info & Hj & Haddr).
  assert (validator_info v a = Some info) as Hinfo.
  { apply validator_info_Some; [done|]. split; [by eapply list_elem_of_lookup_2|done]. }
  assert (set_power (validator_infos v) (list_to_set (a :: authors)) =
    vci_voting_power info + set_power (validator_infos v) (list_to_set authors)) as Hsp.
  { cbn [list_to_set]. apply set_power_singleton_union; [apply Hwf|by eapply list_elem_of_lookup_2|done|].
    by rewrite elem_of_list_to_set. }
  rewrite Hsp in Hp |- *. unfold get_voting_power. rewrite Hinfo. cbn [fmap option_fmap option_map].
  unfold u128_checked_add. rewrite (proj2 (N.ltb_lt _ _)) by lia. run_ok.
  rewrite IH; [f_equal; lia|done|done|lia|]. intros b Hb. apply Hin. by right.
Qed.

Lemma check_voting_power_Ok v authors :
  verifier_wf v → NoDup authors → check_voting_power v authors = Ok tt →
  quorum_voting_power v <= set_power (validator_infos v) (list_to_set authors).
Proof.
  intros Hwf Hnd H. unfold check_voting_power in H. apply bind_Ok in H as (p & Hp & H).
  apply add_voting_power_spec in Hp as [_ ->]; [|done|done].
  destruct (N.ltb_spec (0 + set_power (validator_infos v) (list_to_set authors)) (quorum_voting_power v)); [done|]. lia.
Qed.

(** ** The constructors *)

Lemma sum_voting_power_from_Ok {E} infos : ∀ p t,
  NoDup (addresses infos) → sum_voting_power_from (E:=E) p infos = Ok t →
  t = p + set_power infos (list_to_set (addresses infos)) ∧ (t < 2 ^ 128 ∨ infos = []).
Proof.
  induction infos as [|x infos IH]; intros p t Hnd H; cbn [sum_voting_power_from] in H.
  { simplify_eq. split; [cbn; lia|by right]. }
  unfold addresses in Hnd. rewrite fmap_cons in Hnd. apply NoDup_cons in Hnd as [Hx Hnd].
  apply bind_Ok in H as (p1 & Hp1 & H). apply expect_Ok in Hp1.
  unfold u128_checked_add in Hp1. destruct (N.ltb_spec (p + vci_voting_power x) (2 ^ 128)); [|done].
  simplify_eq. destruct (IH _ _ Hnd H) as [-> Hlt].
  unfold addresses. rewrite fmap_cons. fold (addresses infos). split.
  - cbn [set_power list_to_set]. rewrite bool_decide_true by set_solver.
    rewrite (set_power_ext infos ({[vci_address x]} ∪ _) (list_to_set (addresses infos))); [lia|].
    intros a Ha. rewrite elem_of_union, elem_of_singleton, elem_of_list_to_set. naive_solver.
  - left. destruct Hlt as [Hlt| ->]; [done|]. cbn. lia.
Qed.

Lemma validator_verifier_new_wf {E} infos v :
  NoDup (addresses infos) → validator_verifier_new (E:=E) infos = Ok v →
  verifier_wf v ∧ validator_infos v = infos ∧
  quorum_voting_power v = if bool_decide (infos = []) then 0 else total_voting_power v * 2 / 3 + 1.
Proof.
  intros Hnd H. unfold validator_verifier_new in H.
  apply bind_Ok in H as (t & Ht & H). apply bind_Ok in H as (q & Hq & H). simplify_eq.
  apply sum_voting_power_from_Ok in Ht as [-> Hlt]; [|done]. rewrite N.add_0_l in *.
  split; [|split; [done|]].
  - split; [done|done|done|]. cbn [build_index total_voting_power].
    destruct Hlt as [?| ->]; [done|]. cbn. lia.
  - cbn [build_index quorum_voting_power total_voting_power]. destruct infos as [|x infos].
    + by simplify_eq.
    + rewrite bool_decide_false by done. apply bind_Ok in Hq as (? & _ & Hq).
      apply expect_Ok in Hq. unfold u128_checked_add in Hq. case_match; by simplify_eq.
Qed.

(** ** Voters of an aggregate signature *)

Lemma validators_at_Ok v idx infos :
  validators_at v idx = Ok infos ↔
  Forall2 (λ i info, validator_infos v !! N.to_nat i = Some info) idx infos.
Proof.
  split.
  - revert infos. induction idx as [|i idx IH]; intros infos H; cbn [validators_at] in H.
    { simplify_eq. constructor. }
    apply bind_Ok in H as (x & Hx & H). apply ok_or_Ok in Hx.
    apply bind_Ok in H as (rest & Hrest & H). simplify_eq. constructor; auto.
  - induction 1 as [|i x idx infos Hi _ IH]; [done|]. cbn [validators_at].
    rewrite Hi. run_ok. rewrite IH. done.
Qed.

Lemma validators_at_voters v s infos :
  validators_at v (bv_iter_ones (validator_bitmask s)) = Ok infos →
  voters v s = list_to_set (addresses infos).
Proof.
  intros H. apply validators_at_Ok in H. unfold voters. f_equal.
  induction H as [|i x idx infos Hi _ IH]; [done|]. cbn [omap list_omap].
  rewrite Hi. simpl. by f_equal.
Qed.

Lemma validators_at_NoDup v idx infos :
  verifier_wf v → NoDup idx → validators_at v idx = Ok infos → NoDup (addresses infos).
Proof.
  intros Hwf Hnd H. apply validators_at_Ok in H. revert Hnd.
  induction H as [|i x idx infos Hi Hrest IH]; intros Hnd; [constructor|].
  apply NoDup_cons in Hnd as [Hni Hnd]. unfold addresses. rewrite fmap_cons. apply NoDup_cons.
  split; [|by apply IH]. intros Hin. apply list_elem_of_fmap in Hin as (y & Hxy & Hy).
  apply list_elem_of_lookup in Hy as [k Hk].
  destruct (Forall2_lookup_r _ _ _ _ _ Hrest Hk) as (j & Hj & Hy').
  assert (N.to_nat i = N.to_nat j) as Hij.
  { pose proof (index_addresses_in (validator_infos v) 0 ∅ _ x (wf_nodup v Hwf) Hi) as H1.
    pose proof (index_addresses_in (validator_infos v) 0 ∅ _ y (wf_nodup v Hwf) Hy') as H2.
    rewrite Hxy, H2 in H1. simpl in H1. by simplify_eq. }
  apply Hni. assert (i = j) as -> by lia. by eapply list_elem_of_lookup_2.
Qed.

Lemma voters_known v s : voters v s ⊆ list_to_set (addresses (validator_infos v)).
Proof.
  intros a Ha. unfold voters in Ha. rewrite elem_of_list_to_set in *.
  apply list_elem_of_omap in Ha as (i & _ & Hi). apply fmap_Some in Hi as (x & Hx & ->).
  apply list_elem_of_fmap_2. by eapply list_elem_of_lookup_2.
Qed.

(** What both signature checks establish about the voters. *)
Lemma check_voters_power v s infos :
  verifier_wf v →
  validators_at v (bv_iter_ones (validator_bitmask s)) = Ok infos →
  check_voting_power v (vci_address <$> infos) = Ok tt →
  quorum_voting_power v <= set_power (validator_infos v) (voters v s).
Proof.
  intros Hwf Hat Hpow. rewrite (validators_at_voters v s infos Hat).
  apply check_voting_power_Ok; [done| |done].
  eapply validators_at_NoDup; [done| |done]. apply NoDup_bv_iter_ones.
Qed.

Lemma verify_multi_signatures_quorum `{!Bls} {A} `{!CryptoHash A} v (m : A) s :
  verifier_wf v → verify_multi_signatures v m s = Ok tt →
  quorum_voting_power v <= set_power (validator_infos v) (voters v s).
Proof.
  intros Hwf Hv. unfold verify_multi_signatures in Hv.
  apply bind_Ok in Hv as (? & _ & Hv). apply bind_Ok in Hv as (infos & Hat & Hv).
  apply bind_Ok in Hv as ([] & Hpow & _). by eapply check_voters_power.
Qed.

Lemma verify_aggregate_signatures_quorum `{!Bls} {A} `{!CryptoHash A} v (ms : list A) s :
  verifier_wf v → verify_aggregate_signatures v ms s = Ok tt →
  quorum_voting_power v <= set_power (validator_infos v) (voters v s).
Proof.
  intros Hwf Hv. unfold verify_aggregate_signatures in Hv.
  apply bind_Ok in Hv as (? & _ & Hv). apply bind_Ok in Hv as (infos & Hat & Hv).
  apply bind_Ok in Hv as ([] & Hpow & _). by eapply check_voters_power.
Qed.

Lemma set_power_pos infos s :
  0 < set_power infos s → ∃ a, a ∈ addresses infos ∧ a ∈ s.
Proof.
  induction infos as [|x infos IH]; cbn [set_power]; [lia|]. intros H.
  case_bool_decide as Hx.
  - exists (vci_address x). split; [by left|done].
  - destruct IH as (a & Ha & Hs); [lia|]. exists a. split; [by right|done].
Qed.

(** Two quorums, and less than a third of the power Byzantine: some validator in
    both is honest. *)
Lemma quorum_honest v s1 s2 byz :
  verifier_wf v → 2 * total_voting_power v < 3 * quorum_voting_power v →
  3 * set_power (validator_infos v) byz <= total_voting_power v →
  quorum_voting_power v <= set_power (validator_infos v) s1 →
  quorum_voting_power v <= set_power (validator_infos v) s2 →
  total_voting_power v < 3 * set_power (validator_infos v) (s1 ∩ s2) ∧
  ∃ a, a ∈ addresses (validator_infos v) ∧ a ∈ s1 ∧ a ∈ s2 ∧ a ∉ byz.
Proof.
  intros Hwf Hq Hbyz H1 H2. pose proof (set_power_union_inter (validator_infos v) s1 s2) as Hsum.
  pose proof (set_power_le_all (validator_infos v) (s1 ∪ s2)) as Hle.
  rewrite <- (wf_total v Hwf) in Hle.
  assert (total_voting_power v < 3 * set_power (validator_infos v) (s1 ∩ s2)) as Hinter by lia.
  split; [done|]. set (h := (s1 ∩ s2) ∖ byz).
  assert (0 < set_power (validator_infos v) h) as Hpos.
  { pose proof (set_power_union_inter (validator_infos v) h (s1 ∩ s2 ∩ byz)) as Hs.
    rewrite (set_power_ext _ (h ∪ s1 ∩ s2 ∩ byz) (s1 ∩ s2)) in Hs.
    2:{ intros a _. destruct (decide (a ∈ byz)); set_solver. }
    assert (h ∩ (s1 ∩ s2 ∩ byz) = ∅) as He by set_solver. rewrite He, set_power_empty in Hs.
    pose proof (set_power_mono (validator_infos v) (s1 ∩ s2 ∩ byz) byz ltac:(set_solver)). lia. }
  destruct (set_power_pos _ _ Hpos) as (a & Ha & Hs). exists a. set_solver.
Qed.

Lemma new_quorum_two_thirds {E} infos v :
  NoDup (addresses infos) → infos ≠ [] → validator_verifier_new (E:=E) infos = Ok v →
  2 * total_voting_power v < 3 * quorum_voting_power v.
Proof.
  intros Hnd Hne H. apply validator_verifier_new_wf in H as (_ & _ & ->); [|done].
  rewrite bool_decide_false by done. dlia.
Qed.

(** ** Collecting partial signatures *)

Definition known (v : ValidatorVerifier) (a : AccountAddress) : Prop :=
  a ∈ addresses (validator_infos v).

Lemma known_index v a :
  verifier_wf v → known v a →
  ∃ j info, address_to_validator_index v !! a = Some j ∧ validator_infos v !! j = Some info ∧
    vci_address info = a ∧ N.of_nat j < verifier_len v.
Proof.
  intros Hwf Ha. destruct (lookup_address _ _ Ha) as (j & info & Hj & <-).
  exists j, info. rewrite (wf_index v Hwf). split.
  - by rewrite (index_addresses_in _ _ _ j info) by (done || apply Hwf).
  - split; [done|]. split; [done|]. apply lookup_lt_Some in Hj. unfold verifier_len, lenN. lia.
Qed.

(** The mask after the loop, over a verifier of less than [2 ^ 16] validators. *)
Lemma collect_signatures_Ok v l : ∀ masks sigs,
  verifier_wf v → verifier_len v < 2 ^ 16 → bv_wf masks →
  lenN (bv_inner masks) = required_buckets (verifier_len v) →
  (∀ a, a ∈ l.*1 → known v a) →
  ∃ masks', collect_signatures v l masks sigs = Ok (masks', sigs ++ l.*2) ∧ bv_wf masks' ∧
    lenN (bv_inner masks') = required_buckets (verifier_len v) ∧
    ∀ i, bv_is_set masks' i = true ↔ bv_is_set masks i = true ∨
      ∃ a, a ∈ l.*1 ∧ address_to_validator_index v !! a = Some (N.to_nat i).
Proof.
  induction l as [|[a sig] l IH]; intros masks sigs Hwf Hlen Hm Hb Hk; cbn [collect_signatures].
  { exists masks. rewrite app_nil_r. split; [done|]. split; [done|]. split; [done|].
    intros i. rewrite fmap_nil. split; [auto|]. intros [?|(a & Ha & _)]; [done|].
    by apply not_elem_of_nil in Ha. }
  destruct (known_index v a Hwf (Hk a ltac:(by left))) as (j & info & Hj & _ & _ & Hlt).
  rewrite Hj. run_ok. rewrite N.mod_small by lia.
  destruct (IH (bv_set masks (N.of_nat j)) (sigs ++ [sig])) as (m' & Hc & Hwf' & Hb' & Hset).
  - done.
  - done.
  - apply bv_set_wf; [lia|done].
  - rewrite length_bv_set, Hb. unfold required_buckets, u64_checked_sub, BUCKET_SIZE.
    case_N; dlia.
  - intros b Hb'. apply Hk. by right.
  - exists m'. rewrite Hc. split; [by rewrite <- app_assoc|]. split; [done|]. split; [done|].
    intros i. rewrite Hset, bv_set_is_set, orb_true_iff, bool_decide_eq_true. rewrite fmap_cons.
    setoid_rewrite elem_of_cons. simpl. split.
    + intros [[<-|?]|(b & ? & ?)]; [right; exists a; rewrite Nat2N.id; auto|auto|right; eauto].
    + intros [?|(b & [->|?] & Hbi)]; [auto| |right; eauto].
      left. left. rewrite Hj in Hbi. simplify_eq. lia.
Qed.

(** A mask whose positions are indices of validators passes the checks, and its
    voters are the validators at them. *)
Lemma mask_voters v s :
  verifier_wf v → verifier_len v < 2 ^ 16 → bv_wf (validator_bitmask s) →
  lenN (bv_inner (validator_bitmask s)) = required_buckets (verifier_len v) →
  (∀ i, bv_is_set (validator_bitmask s) i = true → i < verifier_len v) →
  check_num_of_voters (len_u16 v) (validator_bitmask s) = Ok tt ∧
  ∃ infos, validators_at v (bv_iter_ones (validator_bitmask s)) = Ok infos.
Proof.
  intros Hwf Hlen Hm Hb Hset. split.
  - unfold check_num_of_voters, bv_num_buckets, len_u16. rewrite N.mod_small by done.
    rewrite Hb, N.eqb_refl. cbn [negb]. pose proof (bv_last_set_bit_spec _ Hm) as Hl.
    destruct (bv_last_set_bit (validator_bitmask s)) as [m|]; [|done].
    destruct Hl as (Hm1 & _). apply Hset in Hm1. by rewrite (proj2 (N.leb_gt _ _)).
  - assert (∀ i, i ∈ bv_iter_ones (validator_bitmask s) → i < verifier_len v) as Hi.
    { intros i Hi. apply elem_of_bv_iter_ones in Hi; [by apply Hset|apply Hm]. }
    induction (bv_iter_ones (validator_bitmask s)) as [|i idx IH]; [by eexists|].
    cbn [validators_at].
    destruct (lookup_lt_is_Some_2 (validator_infos v) (N.to_nat i)) as [x Hx].
    { specialize (Hi i ltac:(by left)). unfold verifier_len, lenN in Hi. lia. }
    rewrite Hx. run_ok. destruct IH as [infos ->]; [intros; apply Hi; by right|]. by eexists.
Qed.

Lemma check_voting_power_known v authors :
  verifier_wf v → NoDup authors → (∀ a, a ∈ authors → known v a) →
  quorum_voting_power v <= set_power (validator_infos v) (list_to_set authors) →
  check_voting_power v authors = Ok tt.
Proof.
  intros Hwf Hnd Hk Hq. unfold check_voting_power.
  rewrite add_voting_power_total; [|done|done| |done].
  - run_ok. by rewrite (proj2 (N.ltb_ge _ _)) by lia.
  - pose proof (set_power_le_all (validator_infos v) (list_to_set authors)) as Hle.
    rewrite <- (wf_total v Hwf) in Hle. pose proof (wf_fits v Hwf). lia.
Qed.

(** ** Properties *)

(** C30: With the default quorum of more than two thirds of the voting power, the
    validators common to any two quorums hold more than a third of the power; if
    the Byzantine validators hold at most a third, one of the common validators is
    honest. *)
Theorem quorum_intersection {E} infos v s1 s2 byz
    (Hnd : NoDup (addresses infos)) (Hne : infos ≠ [])
    (Hnew : validator_verifier_new (E:=E) infos = Ok v)
    (Hbyz : 3 * set_power infos byz <= total_voting_power v)
    (H1 : quorum_voting_power v <= set_power infos s1)
    (H2 : quorum_voting_power v <= set_power infos s2) :
  total_voting_power v < 3 * set_power infos (s1 ∩ s2) ∧
  ∃ a, a ∈ addresses infos ∧ a ∈ s1 ∧ a ∈ s2 ∧ a ∉ byz.
Proof.
  pose proof (new_quorum_two_thirds infos v Hnd Hne Hnew) as Hq.
  destruct (validator_verifier_new_wf infos v Hnd Hnew) as (Hwf & Hi & _).
  rewrite <- Hi in *. by apply quorum_honest.
Qed.

Lemma quorum_intersection_witness :
  let infos := [mkValidatorConsensusInfo 1 11 1; mkValidatorConsensusInfo 2 12 1;
                mkValidatorConsensusInfo 3 13 1; mkValidatorConsensusInfo 4 14 1] in
  4 < 3 * set_power infos ({[1; 2; 3]} ∩ {[2; 3; 4]}) ∧
  ∃ a, a ∈ addresses infos ∧ a ∈ ({[1; 2; 3]} : gset N) ∧ a ∈ ({[2; 3; 4]} : gset N) ∧ a ∉ ({[3]} : gset N).
Proof.
  intros infos.
  apply (quorum_intersection (E:=unit) infos (build_index infos 3 4) {[1; 2; 3]} {[2; 3; 4]} {[3]});
    try (vm_compute; done).
  apply (bool_decide_unpack _). vm_compute. done.
Defined.

(** C31: [verify_multi_signatures] accepts exactly when the mask has the right
    number of buckets, every set bit is the index of a validator, the validators
    at the set bits hold the quorum, and the signature verifies under the
    aggregate of their keys. *)
Theorem verify_multi_signatures_correct `{!Bls} {A} `{!CryptoHash A} v (m : A) s
    (Hwf : verifier_wf v) (Hlen : verifier_len v < 2 ^ 16) (Hm : bv_wf (validator_bitmask s)) :
  verify_multi_signatures v m s = Ok tt ↔
  lenN (bv_inner (validator_bitmask s)) = required_buckets (verifier_len v) ∧
  (∀ i, i ∈ bv_positions (validator_bitmask s) → i < verifier_len v) ∧
  quorum_voting_power v <= set_power (validator_infos v) (voters v s) ∧
  ∃ sig key infos,
    Forall2 (λ i info, validator_infos v !! N.to_nat i = Some info)
      (bv_iter_ones (validator_bitmask s)) infos ∧
    agg_sig s = Some sig ∧ bls_aggregate_pks (vci_public_key <$> infos) = Some key ∧
    signature_verify sig m key = true.
Proof.
  split.
  - intros Hv. pose proof (verify_multi_signatures_quorum v m s Hwf Hv) as Hq.
    unfold verify_multi_signatures in Hv. apply bind_Ok in Hv as ([] & Hnum & Hv).
    apply bind_Ok in Hv as (infos & Hat & Hv). apply bind_Ok in Hv as ([] & Hpow & Hv).
    apply bind_Ok in Hv as (sig & Hsig & Hv). apply ok_or_Ok in Hsig.
    apply bind_Ok in Hv as (key & Hkey & Hv). apply ok_or_Ok in Hkey. apply ensure_Ok in Hv.
    apply validators_at_Ok in Hat.
    unfold check_num_of_voters, bv_num_buckets, len_u16 in Hnum. rewrite N.mod_small in Hnum by done.
    destruct (N.eqb_spec (lenN (bv_inner (validator_bitmask s))) (required_buckets (verifier_len v)));
      [|done]. split; [done|]. split; [|naive_solver].
    intros i Hi. unfold bv_positions in Hi. rewrite elem_of_list_to_set in Hi.
    apply list_elem_of_lookup in Hi as [k Hk].
    destruct (Forall2_lookup_l _ _ _ _ _ Hat Hk) as (x & _ & Hx).
    apply lookup_lt_Some in Hx. unfold verifier_len, lenN. lia.
  - intros (Hb & Hset & Hq & sig & key & infos & Hat & Hsig & Hkey & Hver).
    destruct (mask_voters v s Hwf Hlen Hm Hb) as [Hnum _].
    { intros i Hi. apply Hset. by apply elem_of_bv_positions. }
    apply validators_at_Ok in Hat. unfold verify_multi_signatures.
    rewrite Hnum. run_ok. rewrite Hat. run_ok. rewrite check_voting_power_known.
    + run_ok. rewrite Hsig. run_ok. rewrite Hkey. run_ok. by rewrite Hver.
    + done.
    + eapply validators_at_NoDup; [done|apply NoDup_bv_iter_ones|done].
    + intros a Ha. apply (elem_of_list_to_set (C:=gset AccountAddress)).
      apply (voters_known v s). rewrite (validators_at_voters v s infos Hat).
      by rewrite elem_of_list_to_set.
    + fold (addresses infos). by rewrite <- (validators_at_voters v s infos Hat).
Qed.

Definition sample_infos : list ValidatorConsensusInfo :=
  [mkValidatorConsensusInfo 1 11 1; mkValidatorConsensusInfo 2 12 1;
   mkValidatorConsensusInfo 3 13 1; mkValidatorConsensusInfo 4 14 1].
Definition sample_verifier : ValidatorVerifier := build_index sample_infos 3 4.

Lemma sample_verifier_wf : verifier_wf sample_verifier.
Proof.
  split; [|reflexivity|vm_compute; reflexivity|vm_compute; reflexivity].
  apply (bool_decide_unpack _). vm_compute. exact I.
Qed.

(** Bits are counted from the left: 208 = 0b1101_0000. *)
Lemma verify_multi_signatures_correct_witness :
  let sig := mkAggregateSignature (mkBitVec [208]) (Some (6 * (11 + 12 + 14))) in
  @verify_multi_signatures sample_bls N sample_crypto_hash sample_verifier 5 sig = Ok tt.
Proof.
  apply (@verify_multi_signatures_correct sample_bls N sample_crypto_hash sample_verifier 5
    (mkAggregateSignature (mkBitVec [208]) (Some (6 * (11 + 12 + 14))))).
  - apply sample_verifier_wf.
  - vm_compute. done.
  - split; [repeat constructor|]; vm_compute; done.
  - split; [vm_compute; done|]. split.
    { intros i Hi. apply elem_of_list_to_set in Hi. vm_compute in Hi.
      repeat (apply elem_of_cons in Hi as [->|Hi]; [vm_compute; done|]).
      by apply not_elem_of_nil in Hi. }
    split; [vm_compute; done|].
    exists (6 * (11 + 12 + 14)), (11 + 12 + 14),
      [mkValidatorConsensusInfo 1 11 1; mkValidatorConsensusInfo 2 12 1;
       mkValidatorConsensusInfo 4 14 1].
    split; [repeat constructor|]. repeat split; vm_compute; done.
Defined.

(** ** Aggregating partial signatures *)

Section aggregate.
Context `{!Bls}.

(** What blst documents of aggregation: valid signatures of one message aggregate
    to a signature that verifies under the aggregate of the signers' keys, in
    whatever order the keys are given. *)
Definition bls_aggregation_correct : Prop := ∀ msg sigs pks pks',
  sigs ≠ [] → Forall2 (λ s k, bls_verify s msg k = true) sigs pks → pks' ≡ₚ pks →
  ∃ sig key, bls_aggregate_sigs sigs = Some sig ∧ bls_aggregate_pks pks' = Some key ∧
    bls_verify sig msg key = true.

Lemma Forall2_partial v m (l : list (AccountAddress * Signature)) :
  verifier_wf v →
  (∀ a sig, (a, sig) ∈ l → ∃ pk, get_public_key v a = Some pk ∧ bls_verify sig m pk = true) →
  ∃ infos, addresses infos = l.*1 ∧ Forall (λ x, x ∈ validator_infos v) infos ∧
    Forall2 (λ s k, bls_verify s m k = true) l.*2 (vci_public_key <$> infos).
Proof.
  intros Hwf. induction l as [|[a sig] l IH]; intros Hv; [by exists []|].
  destruct (Hv a sig ltac:(by left)) as (pk & Hpk & Hver).
  unfold get_public_key in Hpk. apply fmap_Some in Hpk as (x & Hx & ->).
  apply validator_info_Some in Hx as [Hin Ha]; [|done].
  destruct IH as (infos & H1 & H2 & H3); [intros; apply Hv; by right|].
  exists (x :: infos). unfold addresses in *. rewrite !fmap_cons, H1, Ha.
  split; [done|]. split; [by constructor|]. by constructor.
Qed.

(** Validators with the same addresses are the same up to order. *)
Lemma infos_perm v infos1 infos2 :
  verifier_wf v → Forall (λ x, x ∈ validator_infos v) infos1 →
  Forall (λ x, x ∈ validator_infos v) infos2 →
  NoDup (addresses infos1) → NoDup (addresses infos2) →
  (∀ a, a ∈ addresses infos1 ↔ a ∈ addresses infos2) → infos1 ≡ₚ infos2.
Proof.
  intros Hwf H1 H2 Hnd1 Hnd2 Hiff.
  assert (∀ l1 l2, Forall (λ x, x ∈ validator_infos v) l1 → Forall (λ x, x ∈ validator_infos v) l2 →
    (∀ a, a ∈ addresses l1 → a ∈ addresses l2) → ∀ x, x ∈ l1 → x ∈ l2) as Hsub.
  { intros l1 l2 Hl1 Hl2 Hin x Hx. rewrite Forall_forall in Hl1, Hl2.
    pose proof (Hin (vci_address x) ltac:(by apply list_elem_of_fmap_2)) as Ha.
    apply list_elem_of_fmap in Ha as (y & Hxy & Hy).
    assert (validator_info v (vci_address x) = Some x) as E1 by (apply validator_info_Some; auto).
    assert (validator_info v (vci_address x) = Some y) as E2 by (apply validator_info_Some; auto).
    congruence. }
  apply NoDup_Permutation; [by apply NoDup_fmap_1 in Hnd1|by apply NoDup_fmap_1 in Hnd2|].
  intros x. split; apply Hsub; naive_solver.
Qed.

Lemma voters_of_indices v s (d : gset AccountAddress) :
  verifier_wf v → bv_wf (validator_bitmask s) → (∀ a, a ∈ d → known v a) →
  (∀ i, bv_is_set (validator_bitmask s) i = true ↔
     ∃ a, a ∈ d ∧ address_to_validator_index v !! a = Some (N.to_nat i)) →
  voters v s = d.
Proof.
  intros Hwf Hm Hk Hset. apply set_eq. intros a. unfold voters.
  rewrite elem_of_list_to_set, list_elem_of_omap. split.
  - intros (i & Hi & Ha). apply elem_of_bv_iter_ones in Hi; [|apply Hm].
    apply Hset in Hi as (b & Hb & Hbi). apply fmap_Some in Ha as (x & Hx & ->).
    destruct (known_index v b Hwf (Hk b Hb)) as (j & y & Hj & Hy & <- & _). by simplify_eq.
  - intros Ha. destruct (known_index v a Hwf (Hk a Ha)) as (j & x & Hj & Hx & Hxa & _).
    exists (N.of_nat j). rewrite Nat2N.id, Hx. simpl. split; [|by f_equal].
    apply elem_of_bv_iter_ones; [apply Hm|]. apply Hset. exists a. by rewrite Nat2N.id.
Qed.

(** The mask [aggregate_signatures] builds: the signers' bits. *)
Lemma aggregate_mask v partial :
  verifier_wf v → verifier_len v < 2 ^ 16 → (∀ a, a ∈ dom partial → known v a) →
  ∃ masks,
    collect_signatures v (btree_iter partial) (with_num_bits (len_u16 v)) [] =
      Ok (masks, (btree_iter partial).*2) ∧ bv_wf masks ∧
    ∀ sig, let s := mkAggregateSignature masks sig in
      check_num_of_voters (len_u16 v) masks = Ok tt ∧ voters v s = dom partial ∧
      ∃ infos, validators_at v (bv_iter_ones masks) = Ok infos.
Proof.
  intros Hwf Hlen Hknown.
  assert (∀ a, a ∈ (btree_iter partial).*1 ↔ a ∈ dom partial) as Hfst.
  { intros a. rewrite elem_of_dom, list_elem_of_fmap. split.
    - intros ([b sig] & -> & Hb). apply elem_of_btree_iter in Hb. by eexists.
    - intros [sig Ha]. exists (a, sig). split; [done|]. by apply elem_of_btree_iter. }
  destruct (collect_signatures_Ok v (btree_iter partial) (with_num_bits (len_u16 v)) [])
    as (masks & Hcol & Hmwf & Hmb & Hset); [done|done| | | |].
  { apply bv_with_num_bits_wf. unfold len_u16. dlia. }
  { unfold len_u16. rewrite N.mod_small by done. cbn [with_num_bits bv_inner].
    unfold lenN. rewrite length_replicate. lia. }
  { intros a Ha. by apply Hknown, Hfst. }
  exists masks. split; [done|]. split; [done|]. intros sig s.
  assert (∀ i, bv_is_set masks i = true ↔ ∃ a, a ∈ dom partial ∧
    address_to_validator_index v !! a = Some (N.to_nat i)) as Hset'.
  { intros i. rewrite Hset, bv_with_num_bits_is_set. setoid_rewrite Hfst. naive_solver. }
  destruct (mask_voters v s Hwf Hlen Hmwf Hmb) as [Hnum Hat].
  { intros i Hi. apply Hset' in Hi as (a & Ha & Hi).
    destruct (known_index v a Hwf (Hknown a Ha)) as (j & x & Hj & _ & _ & Hlt).
    rewrite Hj in Hi. simplify_eq. lia. }
  split; [done|]. split; [|done]. by apply voters_of_indices.
Qed.

(** Partial signatures that each verify, from known validators holding a
    quorum, aggregate to a signature that [verify_multi_signatures] accepts and
    whose voters are exactly the signers. *)
Lemma aggregate_verify_roundtrip {A} `{!CryptoHash A} v (m : A) bytes partial
    (Hbls : bls_aggregation_correct) (Hwf : verifier_wf v) (Hlen : verifier_len v < 2 ^ 16)
    (Hm : signing_message m = Some bytes) (Hne : partial ≠ ∅)
    (Hsigs : ∀ a sig, partial !! a = Some sig → verifier_verify v a m sig = Ok tt)
    (Hq : quorum_voting_power v <= set_power (validator_infos v) (dom partial)) :
  ∃ agg, aggregate_signatures v partial = Ok agg ∧
    verify_multi_signatures v m agg = Ok tt ∧ voters v agg = dom partial.
Proof.
  assert (∀ a sig, (a, sig) ∈ btree_iter partial →
    ∃ pk, get_public_key v a = Some pk ∧ bls_verify sig bytes pk = true) as Hver.
  { intros a sig Hin. apply elem_of_btree_iter in Hin. specialize (Hsigs a sig Hin).
    unfold verifier_verify in Hsigs. destruct (get_public_key v a) as [pk|]; [|done].
    apply ensure_Ok in Hsigs. unfold signature_verify in Hsigs. rewrite Hm in Hsigs. eauto. }
  destruct (Forall2_partial v bytes (btree_iter partial) Hwf Hver) as (infos & Haddr & Hin & Hf2).
  assert (∀ a, a ∈ addresses infos ↔ a ∈ dom partial) as Hdom.
  { intros a. rewrite Haddr, elem_of_dom, list_elem_of_fmap. split.
    - intros ([b sig] & -> & Hb). apply elem_of_btree_iter in Hb. by eexists.
    - intros [sig Ha]. exists (a, sig). split; [done|]. by apply elem_of_btree_iter. }
  destruct (aggregate_mask v partial Hwf Hlen) as (masks & Hcol & _ & Hmask).
  { intros a Ha. apply Hdom, list_elem_of_fmap in Ha as (x & -> & Hx).
    rewrite Forall_forall in Hin. by apply list_elem_of_fmap_2, Hin. }
  pose proof (Hmask None) as (Hnum & Hvot & infos' & Hat).
  assert (NoDup (addresses infos')) as Hnd'
    by (eapply validators_at_NoDup; [done|apply NoDup_bv_iter_ones|done]).
  pose proof (validators_at_voters v (mkAggregateSignature masks None) infos' Hat) as Hvot'.
  rewrite Hvot in Hvot'.
  assert (infos' ≡ₚ infos) as Hperm.
  { apply (infos_perm v); [done| |done|done|rewrite Haddr; apply NoDup_fst_btree_iter|].
    - apply validators_at_Ok in Hat. apply Forall_forall. intros x Hx.
      apply list_elem_of_lookup in Hx as [k Hk].
      destruct (Forall2_lookup_r _ _ _ _ _ Hat Hk) as (j & _ & Hx). by eapply list_elem_of_lookup_2.
    - intros a. rewrite Hdom, Hvot', elem_of_list_to_set. done. }
  destruct (Hbls bytes (btree_iter partial).*2 (vci_public_key <$> infos)
    (vci_public_key <$> infos')) as (sig & key & Hsig & Hkey & Hok); [|done|by rewrite Hperm|].
  { intros Hnil. apply fmap_nil_inv in Hnil. apply Hne. apply map_to_list_empty_iff.
    apply Permutation_nil_r. by rewrite <- btree_iter_perm, Hnil. }
  exists (mkAggregateSignature masks (Some sig)). split; [|split].
  - unfold aggregate_signatures. rewrite Hcol. run_ok. by rewrite Hsig.
  - unfold verify_multi_signatures. cbn [validator_bitmask agg_sig].
    rewrite Hnum. run_ok. rewrite Hat. run_ok. rewrite check_voting_power_known.
    + run_ok. rewrite Hkey. run_ok. unfold signature_verify. by rewrite Hm, Hok.
    + done.
    + done.
    + intros a Ha. fold (addresses infos') in Ha.
      assert (a ∈ dom partial) as Ha' by (rewrite Hvot', elem_of_list_to_set; done).
      apply Hdom, list_elem_of_fmap in Ha' as (x & -> & Hx).
      rewrite Forall_forall in Hin. by apply list_elem_of_fmap_2, Hin.
    + fold (addresses infos'). by rewrite <- Hvot'.
  - apply (Hmask (Some sig)).
Qed.
End aggregate.

Lemma sum_list_N_perm l k : l ≡ₚ k → sum_list_N l = sum_list_N k.
Proof. induction 1; simpl; lia. Qed.

(** The linear scheme has the property. *)
Lemma sample_bls_aggregation : @bls_aggregation_correct sample_bls.
Proof.
  intros msg sigs pks pks' Hne Hf2 Hperm. cbn [sample_bls bls_aggregate_sigs bls_aggregate_pks bls_verify] in *.
  assert (pks ≠ []) as Hne1 by (intros ->; by apply Forall2_nil_inv_r in Hf2).
  assert (pks' ≠ []) as Hne2 by (intros ->; by apply Permutation_nil_l in Hperm).
  exists (sum_list_N sigs), (sum_list_N pks').
  split; [by destruct sigs|]. split; [by destruct pks'|].
  rewrite (sum_list_N_perm _ _ Hperm). apply N.eqb_eq. clear Hne Hne1 Hne2 Hperm.
  induction Hf2 as [|s k sigs pks Hs _ IH]; simpl; [lia|]. apply N.eqb_eq in Hs. lia.
Qed.
