(* ===== verification/LedgerInfo.v ===== *)
(** * Ledger infos, epochs, waypoints and trusted states (types/src)

    [BlockInfo], [EpochState], [LedgerInfo] and its signed forms, the [Verifier]
    trait with its three implementations, [Waypoint], [EpochChangeProof] and the
    light client's [TrustedState], with the accumulator summary it extends. *)
From S2P Require Import Prelude BitVec Crypto Accumulator ValidatorVerifier.
Local Open Scope N_scope.

(** ** Data *)

Record EpochState := mkEpochState {
  es_epoch : N;
  es_verifier : ValidatorVerifier;
}.

#[export] Instance EpochState_eq_dec : EqDecision EpochState.
Proof. solve_decision. Defined.

Definition GENESIS_EPOCH : N := 0.
Definition GENESIS_ROUND : Round := 0.
Definition GENESIS_VERSION : Version := 0.
Definition GENESIS_TIMESTAMP_USECS : N := 0.

Record BlockInfo := mkBlockInfo {
  bi_epoch : N;
  bi_round : Round;
  bi_id : HashValue;
  bi_executed_state_id : HashValue;
  bi_version : Version;
  bi_timestamp_usecs : N;
  bi_next_epoch_state : option EpochState;
}.

#[export] Instance BlockInfo_eq_dec : EqDecision BlockInfo.
Proof. solve_decision. Defined.

Record LedgerInfo := mkLedgerInfo {
  li_commit_info : BlockInfo;
  li_consensus_data_hash : HashValue;
}.

#[export] Instance LedgerInfo_eq_dec : EqDecision LedgerInfo.
Proof. solve_decision. Defined.

(** [LedgerInfoWithSignatures] is an enum with the one variant [V0]. *)
Record LedgerInfoWithSignatures := mkLIWS {
  liws_ledger_info : LedgerInfo;
  liws_signatures : AggregateSignature;
}.

#[export] Instance LedgerInfoWithSignatures_eq_dec : EqDecision LedgerInfoWithSignatures.
Proof. solve_decision. Defined.

Record LedgerInfoWithPartialSignatures := mkLIWPS {
  liwps_ledger_info : LedgerInfo;
  liwps_partial_sigs : PartialSignatures;
}.

(** ** [EpochState], [BlockInfo] *)

Definition epoch_state_empty {E} : outcome E EpochState :=
  v ← validator_verifier_new [];
  Ok (mkEpochState 0 v).

Definition block_info_empty : BlockInfo := mkBlockInfo 0 0 hash_zero hash_zero 0 0 None.

Definition block_info_genesis {E} (genesis_state_root_hash : HashValue)
    (validator_set : ValidatorSet) : outcome E BlockInfo :=
  v ← verifier_from_validator_set validator_set;
  Ok (mkBlockInfo GENESIS_EPOCH GENESIS_ROUND hash_zero genesis_state_root_hash
        GENESIS_VERSION GENESIS_TIMESTAMP_USECS (Some (mkEpochState 1 v))).

Definition bi_has_reconfiguration (b : BlockInfo) : bool :=
  match bi_next_epoch_state b with Some _ => true | None => false end.

Definition bi_next_block_epoch (b : BlockInfo) : N :=
  match bi_next_epoch_state b with Some e => es_epoch e | None => bi_epoch b end.

Definition allow_timestamp_change (b : BlockInfo) (timestamp : N) : bool :=
  bi_has_reconfiguration b && (timestamp <=? bi_timestamp_usecs b).

Definition change_timestamp {E} (b : BlockInfo) (timestamp : N) : outcome E BlockInfo :=
  _ ← rassert (allow_timestamp_change b timestamp);
  Ok (mkBlockInfo (bi_epoch b) (bi_round b) (bi_id b) (bi_executed_state_id b) (bi_version b)
        timestamp (bi_next_epoch_state b)).

Definition match_ordered_only (b executed_block_info : BlockInfo) : bool :=
  (bi_epoch b =? bi_epoch executed_block_info)
  && (bi_round b =? bi_round executed_block_info)
  && (bi_id b =? bi_id executed_block_info)
  && ((bi_timestamp_usecs b =? bi_timestamp_usecs executed_block_info)
      || ((bi_timestamp_usecs executed_block_info <? bi_timestamp_usecs b)
          && bi_has_reconfiguration executed_block_info)).

Definition is_ordered_only (b : BlockInfo) : bool :=
  negb (bool_decide (b = block_info_empty))
  && negb (bi_has_reconfiguration b)
  && (bi_executed_state_id b =? ACCUMULATOR_PLACEHOLDER_HASH)
  && (bi_version b =? 0).

(** ** [LedgerInfo] *)

Definition ledger_info_genesis {E} (genesis_state_root_hash : HashValue)
    (validator_set : ValidatorSet) : outcome E LedgerInfo :=
  b ← block_info_genesis genesis_state_root_hash validator_set;
  Ok (mkLedgerInfo b hash_zero).

Definition li_epoch (li : LedgerInfo) : N := bi_epoch (li_commit_info li).
Definition li_next_block_epoch (li : LedgerInfo) : N := bi_next_block_epoch (li_commit_info li).
Definition li_round (li : LedgerInfo) : Round := bi_round (li_commit_info li).
Definition consensus_block_id (li : LedgerInfo) : HashValue := bi_id (li_commit_info li).
Definition transaction_accumulator_hash (li : LedgerInfo) : HashValue :=
  bi_executed_state_id (li_commit_info li).
Definition li_version (li : LedgerInfo) : Version := bi_version (li_commit_info li).
Definition li_timestamp_usecs (li : LedgerInfo) : N := bi_timestamp_usecs (li_commit_info li).
Definition li_next_epoch_state (li : LedgerInfo) : option EpochState :=
  bi_next_epoch_state (li_commit_info li).
Definition ends_epoch (li : LedgerInfo) : bool := bi_has_reconfiguration (li_commit_info li).
Definition set_consensus_data_hash (li : LedgerInfo) (h : HashValue) : LedgerInfo :=
  mkLedgerInfo (li_commit_info li) h.

Definition liws_genesis {E} (genesis_state_root_hash : HashValue) (validator_set : ValidatorSet)
  : outcome E LedgerInfoWithSignatures :=
  li ← ledger_info_genesis genesis_state_root_hash validator_set;
  Ok (mkLIWS li aggregate_signature_empty).

Definition liws_commit_info (l : LedgerInfoWithSignatures) : BlockInfo :=
  li_commit_info (liws_ledger_info l).
Definition liws_get_voters (l : LedgerInfoWithSignatures) (validator_addresses : list AccountAddress)
  : list AccountAddress := get_voter_addresses (liws_signatures l) validator_addresses.
Definition liws_get_num_voters (l : LedgerInfoWithSignatures) : N :=
  get_num_voters (liws_signatures l).

Definition liws_check_voting_power (l : LedgerInfoWithSignatures) (v : ValidatorVerifier)
  : outcome VerifyError unit :=
  check_voting_power v (liws_get_voters l (get_ordered_account_addresses v)).

Definition liwps_remove_signature (l : LedgerInfoWithPartialSignatures) (a : AccountAddress)
  : LedgerInfoWithPartialSignatures :=
  mkLIWPS (liwps_ledger_info l) (remove_signature (liwps_partial_sigs l) a).
Definition liwps_add_signature (l : LedgerInfoWithPartialSignatures) (a : AccountAddress)
    (sig : Signature) : LedgerInfoWithPartialSignatures :=
  mkLIWPS (liwps_ledger_info l) (add_signature (liwps_partial_sigs l) a sig).

(** ** Waypoints *)

Record Waypoint := mkWaypoint {
  wp_version : Version;
  wp_value : HashValue;
}.

#[export] Instance Waypoint_eq_dec : EqDecision Waypoint.
Proof. solve_decision. Defined.

Record Ledger2WaypointConverter := mkLedger2WaypointConverter {
  l2w_epoch : N;
  l2w_root_hash : HashValue;
  l2w_version : Version;
  l2w_timestamp_usecs : N;
  l2w_next_epoch_state : option EpochState;
}.

Definition ledger2waypoint_converter (li : LedgerInfo) : Ledger2WaypointConverter :=
  mkLedger2WaypointConverter (li_epoch li) (transaction_accumulator_hash li) (li_version li)
    (li_timestamp_usecs li) (li_next_epoch_state li).

(** ** Epoch changes and trusted states *)

Record EpochChangeProof := mkEpochChangeProof {
  ecp_ledger_info_with_sigs : list LedgerInfoWithSignatures;
  ecp_more : bool;
}.

Definition epoch_change_proof_epoch (p : EpochChangeProof) : outcome anyhow N :=
  ok_or ((λ li, li_epoch (liws_ledger_info li)) <$> head (ecp_ledger_info_with_sigs p))
    (fmt "Empty EpochChangeProof" []).

(** The trait [Verifier] *)
Record Verifier := mkVerifier {
  verifier_verify_li : LedgerInfoWithSignatures → outcome anyhow unit;
  epoch_change_verification_required : N → bool;
  is_ledger_info_stale : LedgerInfo → bool;
}.

Record StateProof := mkStateProof {
  sp_latest_li_w_sigs : LedgerInfoWithSignatures;
  sp_epoch_changes : EpochChangeProof;
}.

Inductive TrustedState :=
| EpochWaypoint (waypoint : Waypoint)
| TrustedEpochState (waypoint : Waypoint) (epoch_state : EpochState).

#[export] Instance TrustedState_eq_dec : EqDecision TrustedState.
Proof. solve_decision. Defined.

Inductive TrustedStateChange :=
| VersionChange (new_state : TrustedState)
| EpochChange (new_state : TrustedState) (latest_epoch_change_li : LedgerInfoWithSignatures)
| NoChange.

Definition trusted_state_waypoint (t : TrustedState) : Waypoint :=
  match t with EpochWaypoint w => w | TrustedEpochState w _ => w end.
Definition trusted_state_version (t : TrustedState) : Version :=
  wp_version (trusted_state_waypoint t).
Definition from_epoch_waypoint (w : Waypoint) : TrustedState := EpochWaypoint w.
Definition is_epoch_waypoint (t : TrustedState) : bool :=
  match t with EpochWaypoint _ => true | _ => false end.
Definition trusted_state_change_new_state (c : TrustedStateChange) : option TrustedState :=
  match c with VersionChange s => Some s | EpochChange s _ => Some s | NoChange => None end.

(** The accumulator summary of proof/definition.rs *)
Abbreviation TransactionAccumulatorSummary := InMemoryAccumulator (only parsing).

Section ledger.
Context `{!Bls} `{!CryptoHash LedgerInfo} `{!CryptoHash Ledger2WaypointConverter}.
Context (node_hash : HashValue → HashValue → HashValue).

Definition verify_signatures (l : LedgerInfoWithSignatures) (v : ValidatorVerifier)
  : outcome VerifyError unit :=
  verify_multi_signatures v (liws_ledger_info l) (liws_signatures l).

Definition liwps_aggregate_signatures (l : LedgerInfoWithPartialSignatures) (v : ValidatorVerifier)
  : outcome VerifyError LedgerInfoWithSignatures :=
  aggregated_sig ← aggregate_signatures v (liwps_partial_sigs l);
  Ok (mkLIWS (liwps_ledger_info l) aggregated_sig).

Definition waypoint_new_any (li : LedgerInfo) : Waypoint :=
  mkWaypoint (li_version li) (crypto_hash (ledger2waypoint_converter li)).

Definition waypoint_new_epoch_boundary (li : LedgerInfo) : outcome anyhow Waypoint :=
  _ ← ensure (ends_epoch li) (fmt "No validator set" []);
  Ok (waypoint_new_any li).

Definition waypoint_verify (w : Waypoint) (li : LedgerInfo) : outcome anyhow unit :=
  _ ← ensure (li_version li =? wp_version w)
        (fmt "Waypoint version mismatch: waypoint version = {}, given version = {}"
           [wp_version w; li_version li]);
  ensure (crypto_hash (ledger2waypoint_converter li) =? wp_value w)
    (fmt "Waypoint value mismatch: waypoint value = {}, given value = {}"
       [wp_value w; crypto_hash (ledger2waypoint_converter li)]).

Definition waypoint_verifier (w : Waypoint) : Verifier := {|
  verifier_verify_li := λ li, waypoint_verify w (liws_ledger_info li);
  epoch_change_verification_required := λ _, true;
  is_ledger_info_stale := λ li, li_version li <? wp_version w;
|}.

Definition epoch_state_verify (e : EpochState) (li : LedgerInfoWithSignatures)
  : outcome anyhow unit :=
  _ ← ensure (es_epoch e =? li_epoch (liws_ledger_info li))
        (fmt "LedgerInfo has unexpected epoch {}, expected {}"
           [li_epoch (liws_ledger_info li); es_epoch e]);
  _ ← map_err verify_error_anyhow (verify_signatures li (es_verifier e));
  Ok tt.

Definition epoch_state_verifier (e : EpochState) : Verifier := {|
  verifier_verify_li := epoch_state_verify e;
  epoch_change_verification_required := λ epoch, es_epoch e <? epoch;
  is_ledger_info_stale := λ li, li_epoch li <? es_epoch e;
|}.

Definition trusted_state_verifier (t : TrustedState) : Verifier :=
  match t with
  | EpochWaypoint w => waypoint_verifier w
  | TrustedEpochState _ e => epoch_state_verifier e
  end.

(** The [for] loop over the ledger infos that are not stale. *)
Fixpoint verify_epoch_hops (verifier : Verifier) (lis : list LedgerInfoWithSignatures)
  : outcome anyhow unit :=
  match lis with
  | [] => Ok tt
  | li :: lis =>
      _ ← verifier_verify_li verifier li;
      next ← ok_or (li_next_epoch_state (liws_ledger_info li))
               (fmt "LedgerInfo doesn't carry a ValidatorSet" []);
      verify_epoch_hops (epoch_state_verifier next) lis
  end.

Fixpoint skip_while {A} (p : A → bool) (l : list A) : list A :=
  match l with [] => [] | x :: l' => if p x then skip_while p l' else l end.

Definition epoch_change_proof_verify (p : EpochChangeProof) (verifier : Verifier)
  : outcome anyhow LedgerInfoWithSignatures :=
  match last (ecp_ledger_info_with_sigs p) with
  | None => Err (fmt "The EpochChangeProof is empty" [])
  | Some last_li =>
      _ ← ensure (negb (is_ledger_info_stale verifier (liws_ledger_info last_li)))
            (fmt "The EpochChangeProof is stale as our verifier is already ahead of the entire EpochChangeProof" []);
      _ ← verify_epoch_hops verifier
            (skip_while (λ li, is_ledger_info_stale verifier (liws_ledger_info li))
               (ecp_ledger_info_with_sigs p));
      Ok last_li
  end.

Definition verify_and_ratchet_inner (t : TrustedState) (latest_li : LedgerInfoWithSignatures)
    (epoch_change_proof : EpochChangeProof) : outcome anyhow TrustedStateChange :=
  let curr_version := trusted_state_version t in
  let target_version := li_version (liws_ledger_info latest_li) in
  _ ← ensure (curr_version <=? target_version)
        (fmt "The target latest ledger info version is stale ({}) and behind our current trusted version ({})"
           [target_version; curr_version]);
  if epoch_change_verification_required (trusted_state_verifier t)
       (li_next_block_epoch (liws_ledger_info latest_li))
  then
    epoch_change_li ← epoch_change_proof_verify epoch_change_proof (trusted_state_verifier t);
    new_epoch_state ←
      ok_or (li_next_epoch_state (liws_ledger_info epoch_change_li))
        (fmt "A valid EpochChangeProof will never return a non-epoch change ledger info" []);
    let new_epoch := es_epoch new_epoch_state in
    verified_ledger_info ←
      (if bool_decide (epoch_change_li = latest_li) then Ok latest_li
       else if li_epoch (liws_ledger_info latest_li) =? new_epoch then
         _ ← epoch_state_verify new_epoch_state latest_li;
         Ok latest_li
       else if (new_epoch <? li_epoch (liws_ledger_info latest_li)) && ecp_more epoch_change_proof
       then Ok epoch_change_li
       else Err (fmt "Inconsistent epoch change proof and latest ledger info" []));
    let new_waypoint := waypoint_new_any (liws_ledger_info verified_ledger_info) in
    Ok (EpochChange (TrustedEpochState new_waypoint new_epoch_state) epoch_change_li)
  else
    match t with
    | EpochWaypoint _ =>
        Err (fmt "EpochWaypoint can only verify an epoch change ledger info" [])
    | TrustedEpochState curr_waypoint curr_epoch_state =>
        let new_waypoint := waypoint_new_any (liws_ledger_info latest_li) in
        if wp_version new_waypoint =? wp_version curr_waypoint then
          _ ← ensure (bool_decide (new_waypoint = curr_waypoint))
                (fmt "LedgerInfo doesn't match verified state" []);
          Ok NoChange
        else
          _ ← epoch_state_verify curr_epoch_state latest_li;
          Ok (VersionChange (TrustedEpochState new_waypoint curr_epoch_state))
    end.

Definition verify_and_ratchet (t : TrustedState) (state_proof : StateProof)
  : outcome anyhow TrustedStateChange :=
  verify_and_ratchet_inner t (sp_latest_li_w_sigs state_proof) (sp_epoch_changes state_proof).

(** ** The accumulator summary *)

Definition summary_new (acc : InMemoryAccumulator)
  : outcome anyhow TransactionAccumulatorSummary :=
  _ ← ensure (negb (num_leaves acc =? 0))
        (fmt "empty accumulator: we can't verify consistency proofs from an empty accumulator" []);
  Ok acc.

Definition verify_consistency (acc : TransactionAccumulatorSummary) (li : LedgerInfo)
  : outcome anyhow unit :=
  _ ← ensure (li_version li =? accumulator_version acc)
        (fmt "ledger info and accumulator must be at the same version: ledger info version={}, accumulator version={}"
           [li_version li; accumulator_version acc]);
  ensure (transaction_accumulator_hash li =? root_hash acc)
    (fmt "ledger info root hash and accumulator root hash must match: ledger info root hash={}, accumulator root hash={}"
       [transaction_accumulator_hash li; root_hash acc]).

Definition try_from_genesis_proof (genesis_proof : AccumulatorConsistencyProof)
    (target_version : Version) : outcome anyhow TransactionAccumulatorSummary :=
  let num_txns := u64_saturating_add target_version 1 in
  accumulator_new node_hash (acp_subtrees genesis_proof) num_txns.

Definition try_extend_with_proof (acc : TransactionAccumulatorSummary)
    (consistency_proof : AccumulatorConsistencyProof) (target_li : LedgerInfo)
  : outcome anyhow TransactionAccumulatorSummary :=
  _ ← ensure (accumulator_version acc <=? li_version target_li)
        (fmt "target ledger info version ({}) must be newer than our current accumulator summary version ({})"
           [li_version target_li; accumulator_version acc]);
  let num_new_txns := li_version target_li - accumulator_version acc in
  new_accumulator ← append_subtrees node_hash acc (acp_subtrees consistency_proof) num_new_txns;
  _ ← map_err (with_context "accumulator is not consistent with the target ledger info after applying consistency proof")
        (verify_consistency new_accumulator target_li);
  Ok new_accumulator.

Definition try_from_epoch_change_li (epoch_change_li : LedgerInfo)
    (accumulator : TransactionAccumulatorSummary) : outcome anyhow TrustedState :=
  _ ← verify_consistency accumulator epoch_change_li;
  epoch_state ← ok_or (li_next_epoch_state epoch_change_li)
    (fmt "No EpochState in LedgerInfo; it must not be on an epoch boundary" []);
  waypoint ← waypoint_new_epoch_boundary epoch_change_li;
  Ok (TrustedEpochState waypoint epoch_state).

(** [verify_transaction_info] (proof/mod.rs), on the hash of the transaction
    info. *)
Definition verify_transaction_info (li : LedgerInfo) (transaction_version : Version)
    (transaction_info_hash : HashValue) (proof : AccumulatorProof) : outcome anyhow unit :=
  _ ← ensure (transaction_version <=? li_version li)
        (fmt "Transaction version {} is newer than LedgerInfo version {}."
           [transaction_version; li_version li]);
  _ ← accumulator_proof_verify node_hash proof (transaction_accumulator_hash li)
        transaction_info_hash transaction_version;
  Ok tt.

(** [TransactionInfoListWithProof::verify], on the hashes of the infos. *)
Definition transaction_info_list_verify (proof : AccumulatorRangeProof)
    (transaction_infos : list HashValue) (li : LedgerInfo)
    (first_transaction_info_version : option Version) : outcome anyhow unit :=
  accumulator_range_proof_verify node_hash proof (transaction_accumulator_hash li)
    first_transaction_info_version transaction_infos.

(** ** Specification *)

(** A sequence of epoch changes, each signed by a quorum of the epoch it ends. *)
Inductive epoch_chain : EpochState → list LedgerInfoWithSignatures → EpochState → Prop :=
| epoch_chain_nil e : epoch_chain e [] e
| epoch_chain_cons e li lis e1 e2 :
    es_epoch e = li_epoch (liws_ledger_info li) →
    verify_signatures li (es_verifier e) = Ok tt →
    li_next_epoch_state (liws_ledger_info li) = Some e1 →
    epoch_chain e1 lis e2 →
    epoch_chain e (li :: lis) e2.

(** What a light client in state [t] accepts as epoch changes: from a waypoint the
    first one is the one the waypoint commits to, and every other one is signed. *)
Definition trusted_hops (t : TrustedState) (lis : list LedgerInfoWithSignatures)
    (e : EpochState) : Prop :=
  match t with
  | EpochWaypoint w => ∃ li rest e1, lis = li :: rest ∧
      waypoint_verify w (liws_ledger_info li) = Ok tt ∧
      li_next_epoch_state (liws_ledger_info li) = Some e1 ∧ epoch_chain e1 rest e
  | TrustedEpochState _ e0 => lis ≠ [] ∧ epoch_chain e0 lis e
  end.

(** ** Lemmas *)

Lemma map_err_Ok_iff {E F A} (f : E → F) (m : outcome E A) a : map_err f m = Ok a ↔ m = Ok a.
Proof. destruct m; naive_solver. Qed.

Lemma epoch_state_verify_Ok e li :
  epoch_state_verify e li = Ok tt ↔
  es_epoch e = li_epoch (liws_ledger_info li) ∧ verify_signatures li (es_verifier e) = Ok tt.
Proof.
  unfold epoch_state_verify. split.
  - intros Hv. apply bind_Ok in Hv as (? & He & Hv). apply ensure_Ok, N.eqb_eq in He.
    apply bind_Ok in Hv as ([] & Hs & _). by apply map_err_Ok_iff in Hs.
  - intros [-> Hs]. rewrite N.eqb_refl. run_ok. by rewrite Hs.
Qed.

Lemma verify_epoch_hops_Ok lis : ∀ e,
  verify_epoch_hops (epoch_state_verifier e) lis = Ok tt ↔ ∃ e', epoch_chain e lis e'.
Proof.
  induction lis as [|li lis IH]; intros e; cbn [verify_epoch_hops].
  { split; [intros _; exists e; constructor|done]. }
  split.
  - intros Hv. apply bind_Ok in Hv as ([] & He & Hv). apply bind_Ok in Hv as (e1 & Hn & Hv).
    apply ok_or_Ok in Hn. apply IH in Hv as [e' Hc].
    apply epoch_state_verify_Ok in He as [He Hs]. exists e'. by eapply epoch_chain_cons.
  - intros [e' Hc]. inversion Hc as [|? ? ? e1 ? He Hs Hn Hrest]; subst.
    change (verifier_verify_li (epoch_state_verifier e) li) with (epoch_state_verify e li).
    rewrite (proj2 (epoch_state_verify_Ok e li)) by done. run_ok. rewrite Hn. run_ok.
    apply IH. eauto.
Qed.

Lemma epoch_chain_last e lis e' li :
  epoch_chain e lis e' → last lis = Some li → li_next_epoch_state (liws_ledger_info li) = Some e'.
Proof.
  induction 1 as [|e li0 lis e1 e2 _ _ Hn Hc IH]; [done|].
  destruct lis as [|li1 lis].
  - intros [= ->]. by inversion Hc; subst.
  - rewrite last_cons_cons. done.
Qed.

(** The last ledger info is not stale, so it survives [skip_while]. *)
Lemma last_skip_while {A} (p : A → bool) l x :
  last l = Some x → p x = false → last (skip_while p l) = Some x.
Proof.
  induction l as [|y l IH]; intros Hl Hp; [done|]. cbn [skip_while].
  destruct (p y) eqn:Hy; [|done]. destruct l as [|z l].
  - simpl in Hl. simplify_eq. congruence.
  - apply IH; [|done]. by rewrite last_cons_cons in Hl.
Qed.

Lemma skip_while_not_nil {A} (p : A → bool) l x :
  last l = Some x → p x = false → skip_while p l ≠ [].
Proof. intros Hl Hp Heq. pose proof (last_skip_while p l x Hl Hp) as H1. by rewrite Heq in H1. Qed.

Lemma epoch_change_proof_verify_Ok p verifier li :
  epoch_change_proof_verify p verifier = Ok li ↔
  last (ecp_ledger_info_with_sigs p) = Some li ∧
  is_ledger_info_stale verifier (liws_ledger_info li) = false ∧
  verify_epoch_hops verifier
    (skip_while (λ li, is_ledger_info_stale verifier (liws_ledger_info li))
       (ecp_ledger_info_with_sigs p)) = Ok tt.
Proof.
  unfold epoch_change_proof_verify. destruct (last (ecp_ledger_info_with_sigs p)) as [l|]; [|naive_solver].
  split.
  - intros Hv. apply bind_Ok in Hv as (? & Hs & Hv). apply ensure_Ok, negb_true_iff in Hs.
    apply bind_Ok in Hv as ([] & Hh & Hv). by simplify_eq.
  - intros (Heq & Hs & Hh). simplify_eq. rewrite Hs, Hh. done.
Qed.

(** The hops of an accepted proof, whatever the first verifier: it verifies the
    first ledger info that is not stale, and signed epoch changes follow. *)
Lemma verify_epoch_hops_first verifier li lis :
  verify_epoch_hops verifier (li :: lis) = Ok tt ↔
  verifier_verify_li verifier li = Ok tt ∧
  ∃ e e', li_next_epoch_state (liws_ledger_info li) = Some e ∧ epoch_chain e lis e'.
Proof.
  cbn [verify_epoch_hops]. split.
  - intros Hv. apply bind_Ok in Hv as ([] & He & Hv). apply bind_Ok in Hv as (e1 & Hn & Hv).
    apply ok_or_Ok in Hn. apply verify_epoch_hops_Ok in Hv as [e' Hc]. eauto.
  - intros (Hv & e & e' & Hn & Hc). rewrite Hv. run_ok. rewrite Hn. run_ok.
    apply verify_epoch_hops_Ok. eauto.
Qed.

Lemma skip_while_suffix {A} (p : A → bool) l : skip_while p l `suffix_of` l.
Proof.
  induction l as [|x l IH]; [done|]. cbn [skip_while]. destruct (p x); [|done].
  by apply suffix_cons_r.
Qed.

Lemma epoch_change_proof_verify_hops t p li :
  epoch_change_proof_verify p (trusted_state_verifier t) = Ok li →
  ∃ lis e, lis `suffix_of` ecp_ledger_info_with_sigs p ∧ last lis = Some li ∧
    trusted_hops t lis e ∧ li_next_epoch_state (liws_ledger_info li) = Some e.
Proof.
  intros Hv. apply epoch_change_proof_verify_Ok in Hv as (Hlast & Hstale & Hhops).
  set (stale := λ li, is_ledger_info_stale (trusted_state_verifier t) (liws_ledger_info li)) in *.
  pose proof (last_skip_while stale _ _ Hlast Hstale) as Hl.
  pose proof (skip_while_suffix stale (ecp_ledger_info_with_sigs p)) as Hsuf.
  destruct (skip_while stale (ecp_ledger_info_with_sigs p)) as [|li0 rest] eqn:Hlis; [done|].
  apply verify_epoch_hops_first in Hhops as (H0 & e1 & e & He1 & Hchain).
  assert (li_next_epoch_state (liws_ledger_info li) = Some e) as Hnext.
  { destruct rest as [|li1 rest].
    - simpl in Hl. simplify_eq. inversion Hchain; subst. done.
    - rewrite last_cons_cons in Hl. by eapply epoch_chain_last. }
  exists (li0 :: rest), e. split; [done|]. split; [done|]. split; [|done].
  destruct t as [w|w e0]; cbn [trusted_hops].
  - exists li0, rest, e1. done.
  - split; [done|]. apply epoch_state_verify_Ok in H0 as [He Hs]. by eapply epoch_chain_cons.
Qed.

(** ** Properties *)

(** From an epoch state, an epoch-change proof is accepted exactly when its
    last ledger info is not of an earlier epoch and the ledger infos that are left
    once those of earlier epochs at the front are skipped form a chain: each is of
    the current epoch, signed by a quorum of its validators, and names the
    validators of the next. The ledger info returned is the last one, and the
    chain ends in the epoch state it names. *)
Theorem epoch_change_proof_correct p e li :
  epoch_change_proof_verify p (epoch_state_verifier e) = Ok li ↔
  last (ecp_ledger_info_with_sigs p) = Some li ∧
  es_epoch e <= li_epoch (liws_ledger_info li) ∧
  ∃ e', epoch_chain e
      (skip_while (λ li, li_epoch (liws_ledger_info li) <? es_epoch e)
         (ecp_ledger_info_with_sigs p)) e' ∧
    li_next_epoch_state (liws_ledger_info li) = Some e'.
Proof.
  rewrite epoch_change_proof_verify_Ok, verify_epoch_hops_Ok.
  cbn [epoch_state_verifier is_ledger_info_stale]. rewrite N.ltb_ge. split.
  - intros (Hlast & Hge & e' & Hc). split; [done|]. split; [done|]. exists e'. split; [done|].
    eapply epoch_chain_last; [done|]. apply last_skip_while; [done|]. by apply N.ltb_ge.
  - intros (Hlast & Hge & e' & Hc & _). eauto.
Qed.


(** Extending an accumulator summary is sound: starting from the summary of
    the transactions [l] and accepted against a ledger info that commits to the
    transactions [l'], the result is the summary of [l'] and [l] is a prefix of
    [l'], or a hash collision is exhibited. *)
Theorem try_extend_with_proof_sound l l' proof li acc
    (Hne : l ≠ []) (Hlen : lenN l' = li_version li + 1)
    (Hroot : transaction_accumulator_hash li = merkle_root node_hash l')
    (Hext : try_extend_with_proof (accumulator_of node_hash l) proof li = Ok acc) :
  (l `prefix_of` l' ∧ acc = accumulator_of node_hash l') ∨ Collision node_hash.
Proof.
  assert (accumulator_version (accumulator_of node_hash l) + 1 = lenN l) as Hv.
  { unfold accumulator_version. cbn [accumulator_of num_leaves]. destruct l as [|x l]; [done|].
    unfold lenN. cbn [length]. destruct (N.eqb_spec (N.of_nat (S (length l))) 0); lia. }
  unfold try_extend_with_proof in Hext. apply bind_Ok in Hext as (? & Hle & Hext).
  apply ensure_Ok, N.leb_le in Hle. apply bind_Ok in Hext as (acc' & Happ & Hext).
  apply bind_Ok in Hext as ([] & Hc & Hext). simplify_eq. apply map_err_Ok_iff in Hc.
  unfold verify_consistency in Hc. apply bind_Ok in Hc as (? & _ & Hc).
  apply ensure_Ok, N.eqb_eq in Hc.
  eapply append_subtrees_sound; [exact Happ|lia|congruence].
Qed.

End ledger.

(** ** Witnesses *)

Definition sample_ledger_info_hash : CryptoHash LedgerInfo := {|
  crypto_hash := λ li, li_version li;
  signing_message := λ li, Some [li_version li];
|}.
Definition sample_converter_hash : CryptoHash Ledger2WaypointConverter := {|
  crypto_hash := λ c, 2 * l2w_version c + 1;
  signing_message := λ c, Some [l2w_version c];
|}.
(** Version 5 in epoch 1, signed by the validators 1, 2 and 4. *)
Definition sample_latest_li : LedgerInfoWithSignatures :=
  mkLIWS (mkLedgerInfo (mkBlockInfo 1 7 21 22 5 23 None) 0)
    (mkAggregateSignature (mkBitVec [208]) (Some (6 * (11 + 12 + 14)))).


Lemma try_extend_with_proof_sound_witness :
  ([1; 2; 3] `prefix_of` [1; 2; 3; 4; 5] ∧
   accumulator_of sample_hash [1; 2; 3; 4; 5] = accumulator_of sample_hash [1; 2; 3; 4; 5]) ∨
  Collision sample_hash.
Proof.
  apply (try_extend_with_proof_sound sample_hash [1; 2; 3] [1; 2; 3; 4; 5]
    (mkAccumulatorConsistencyProof [4; 5])
    (mkLedgerInfo (mkBlockInfo 1 7 21 (merkle_root sample_hash [1; 2; 3; 4; 5]) 4 23 None) 0));
    try done; vm_compute; reflexivity.
Defined.
