(* ===== verification/ConsensusTypes.v ===== *)
(** * The types consensus exchanges (consensus/consensus-types)

    Votes, quorum certificates, blocks, 2-chain timeouts and their certificates,
    sync infos and the messages built of them, each with its constructors and its
    verification. *)
From S2P Require Import Prelude BitVec Crypto Accumulator ValidatorVerifier LedgerInfo.
Local Open Scope N_scope.

(** ** Votes and quorum certificates *)

Record VoteData := mkVoteData {
  vd_proposed : BlockInfo;
  vd_parent : BlockInfo;
}.

#[export] Instance VoteData_eq_dec : EqDecision VoteData.
Proof. solve_decision. Defined.

Record QuorumCert := mkQuorumCert {
  qc_vote_data : VoteData;
  qc_signed_ledger_info : LedgerInfoWithSignatures;
}.

#[export] Instance QuorumCert_eq_dec : EqDecision QuorumCert.
Proof. solve_decision. Defined.

Definition certified_block (qc : QuorumCert) : BlockInfo := vd_proposed (qc_vote_data qc).
Definition parent_block (qc : QuorumCert) : BlockInfo := vd_parent (qc_vote_data qc).
Definition qc_ledger_info (qc : QuorumCert) : LedgerInfo :=
  liws_ledger_info (qc_signed_ledger_info qc).
Definition qc_commit_info (qc : QuorumCert) : BlockInfo := li_commit_info (qc_ledger_info qc).
Definition qc_ends_epoch (qc : QuorumCert) : bool := ends_epoch (qc_ledger_info qc).

Definition vote_data_verify (d : VoteData) : outcome anyhow unit :=
  _ ← ensure (bi_epoch (vd_parent d) =? bi_epoch (vd_proposed d))
        (fmt "Parent and proposed epochs do not match" []);
  _ ← ensure (bi_round (vd_parent d) <? bi_round (vd_proposed d))
        (fmt "Proposed round is less than parent round" []);
  _ ← ensure (bi_timestamp_usecs (vd_parent d) <=? bi_timestamp_usecs (vd_proposed d))
        (fmt "Proposed happened before parent" []);
  _ ← ensure ((bi_version (vd_proposed d) =? 0)
              || (bi_version (vd_parent d) <=? bi_version (vd_proposed d)))
        (fmt "Proposed version is less than parent version" []);
  Ok tt.

Definition vote_data_is_for_nil (d : VoteData) : bool :=
  bi_timestamp_usecs (vd_proposed d) =? bi_timestamp_usecs (vd_parent d).

Definition create_merged_with_executed_state (qc : QuorumCert)
    (executed_ledger_info : LedgerInfoWithSignatures) : outcome anyhow QuorumCert :=
  _ ← ensure (match_ordered_only (qc_commit_info qc) (liws_commit_info executed_ledger_info))
        (fmt "Block info from QC and executed LI need to match" []);
  Ok (mkQuorumCert (qc_vote_data qc) executed_ledger_info).

(** ** Timeouts *)

Record TwoChainTimeout := mkTwoChainTimeout {
  to_epoch : N;
  to_round : Round;
  to_quorum_cert : QuorumCert;
}.

#[export] Instance TwoChainTimeout_eq_dec : EqDecision TwoChainTimeout.
Proof. solve_decision. Defined.

Definition hqc_round (t : TwoChainTimeout) : Round := bi_round (certified_block (to_quorum_cert t)).

Record TimeoutSigningRepr := mkTimeoutSigningRepr {
  tsr_epoch : N;
  tsr_round : Round;
  tsr_hqc_round : Round;
}.

#[export] Instance TimeoutSigningRepr_eq_dec : EqDecision TimeoutSigningRepr.
Proof. solve_decision. Defined.

Definition signing_format (t : TwoChainTimeout) : TimeoutSigningRepr :=
  mkTimeoutSigningRepr (to_epoch t) (to_round t) (hqc_round t).

Record AggregateSignatureWithRounds := mkASWR {
  aswr_sig : AggregateSignature;
  aswr_rounds : list Round;
}.

#[export] Instance AggregateSignatureWithRounds_eq_dec : EqDecision AggregateSignatureWithRounds.
Proof. solve_decision. Defined.

Definition aswr_new {E} (sig : AggregateSignature) (rounds : list Round)
  : outcome E AggregateSignatureWithRounds :=
  _ ← rassert (get_num_voters sig =? lenN rounds);
  Ok (mkASWR sig rounds).
Definition aswr_empty : AggregateSignatureWithRounds := mkASWR aggregate_signature_empty [].
Definition aswr_get_voters (s : AggregateSignatureWithRounds) (validators : list AccountAddress)
  : list AccountAddress := get_voter_addresses (aswr_sig s) validators.
Definition get_voters_and_rounds (s : AggregateSignatureWithRounds)
    (validators : list AccountAddress) : list (AccountAddress * Round) :=
  zip (get_voter_addresses (aswr_sig s) validators) (aswr_rounds s).

Record TwoChainTimeoutCertificate := mkTC {
  tc_timeout : TwoChainTimeout;
  tc_signatures_with_rounds : AggregateSignatureWithRounds;
}.

#[export] Instance TwoChainTimeoutCertificate_eq_dec : EqDecision TwoChainTimeoutCertificate.
Proof. solve_decision. Defined.

Definition tc_new (t : TwoChainTimeout) : TwoChainTimeoutCertificate := mkTC t aswr_empty.
Definition tc_epoch (tc : TwoChainTimeoutCertificate) : N := to_epoch (tc_timeout tc).
Definition tc_round (tc : TwoChainTimeoutCertificate) : Round := to_round (tc_timeout tc).
Definition highest_hqc_round (tc : TwoChainTimeoutCertificate) : Round := hqc_round (tc_timeout tc).

(** [PartialSignaturesWithRound]: a [BTreeMap] to rounds and signatures. *)
Abbreviation PartialSignaturesWithRound := (gmap AccountAddress (Round * Signature)) (only parsing).

Definition pswr_add_signature (s : PartialSignaturesWithRound) (validator : AccountAddress)
    (round : Round) (sig : Signature) : PartialSignaturesWithRound :=
  match s !! validator with Some _ => s | None => <[validator := (round, sig)]> s end.

(** The closure of [for_each] in [get_partial_sig_with_rounds]. *)
Fixpoint partial_sig_with_rounds_loop (index : gmap AccountAddress nat)
    (signatures : list (AccountAddress * (Round * Signature)))
    (partial_sig : PartialSignatures) (index_to_rounds : gmap N Round)
  : PartialSignatures * gmap N Round :=
  match signatures with
  | [] => (partial_sig, index_to_rounds)
  | (address, (round, sig)) :: rest =>
      match index !! address with
      | Some i =>
          partial_sig_with_rounds_loop index rest (add_signature partial_sig address sig)
            (<[N.of_nat i := round]> index_to_rounds)
      | None => partial_sig_with_rounds_loop index rest partial_sig index_to_rounds
      end
  end.
Definition get_partial_sig_with_rounds (s : PartialSignaturesWithRound)
    (index : gmap AccountAddress nat) : PartialSignatures * list Round :=
  let '(partial_sig, index_to_rounds) :=
    partial_sig_with_rounds_loop index (btree_iter s) partial_signatures_empty ∅ in
  (partial_sig, snd <$> btree_iter index_to_rounds).

Record TwoChainTimeoutWithPartialSignatures := mkTimeoutWithPartial {
  tps_timeout : TwoChainTimeout;
  tps_signatures : PartialSignaturesWithRound;
}.

Definition tps_new (t : TwoChainTimeout) : TwoChainTimeoutWithPartialSignatures :=
  mkTimeoutWithPartial t ∅.
(** The two [debug_assert_eq!] are not compiled into release builds. *)
Definition tps_add (p : TwoChainTimeoutWithPartialSignatures) (author : Author)
    (timeout : TwoChainTimeout) (sig : Signature) : TwoChainTimeoutWithPartialSignatures :=
  let new_hqc_round := hqc_round timeout in
  let t := if hqc_round (tps_timeout p) <? hqc_round timeout then timeout else tps_timeout p in
  mkTimeoutWithPartial t (pswr_add_signature (tps_signatures p) author new_hqc_round sig).
Definition tps_signers (p : TwoChainTimeoutWithPartialSignatures) : list Author :=
  fst <$> btree_iter (tps_signatures p).

(** ** [Vote] and [SafetyData] *)

Record Vote := mkVote {
  vote_vote_data : VoteData;
  vote_author : Author;
  vote_ledger_info : LedgerInfo;
  vote_signature : Signature;
  vote_two_chain_timeout : option (TwoChainTimeout * Signature);
}.

#[export] Instance Vote_eq_dec : EqDecision Vote.
Proof. solve_decision. Defined.

Definition vote_new_with_signature (vote_data : VoteData) (author : Author)
    (ledger_info : LedgerInfo) (sig : Signature) : Vote :=
  mkVote vote_data author ledger_info sig None.
Definition add_2chain_timeout (v : Vote) (timeout : TwoChainTimeout) (sig : Signature) : Vote :=
  mkVote (vote_vote_data v) (vote_author v) (vote_ledger_info v) (vote_signature v)
    (Some (timeout, sig)).
Definition vote_epoch (v : Vote) : N := bi_epoch (vd_proposed (vote_vote_data v)).
Definition vote_round (v : Vote) : Round := bi_round (vd_proposed (vote_vote_data v)).
Definition generate_2chain_timeout (v : Vote) (qc : QuorumCert) : TwoChainTimeout :=
  mkTwoChainTimeout (vote_epoch v) (vote_round v) qc.
Definition vote_is_timeout (v : Vote) : bool :=
  match vote_two_chain_timeout v with Some _ => true | None => false end.

Record SafetyData := mkSafetyData {
  sd_epoch : N;
  sd_last_voted_round : N;
  sd_preferred_round : N;
  sd_one_chain_round : N;
  sd_last_vote : option Vote;
}.

#[export] Instance SafetyData_eq_dec : EqDecision SafetyData.
Proof. solve_decision. Defined.

(** ** Proofs of store and payloads *)

Record LogicalTime := mkLogicalTime { lt_epoch : N; lt_round : Round }.

Record SignedDigestInfo := mkSignedDigestInfo {
  sdi_digest : HashValue;
  sdi_expiration : LogicalTime;
  sdi_num_txns : N;
  sdi_num_bytes : N;
}.

Record SignedDigest := mkSignedDigest {
  sdg_epoch : N;
  sdg_peer_id : AccountAddress;
  sdg_info : SignedDigestInfo;
  sdg_signature : Signature;
}.

Record ProofOfStore := mkProofOfStore {
  pos_info : SignedDigestInfo;
  pos_multi_signature : AggregateSignature;
}.

(** What consensus reads of a [SignedTransaction]; [st_rest] stands for the bytes
    it only passes on. *)
Record SignedTransaction := mkSignedTransaction {
  st_sender : AccountAddress;
  st_sequence_number : N;
  st_raw_txn_bytes_len : N;
  st_rest : list N;
}.

(** The [status] cell of [ProofWithData] is a cache outside the serialised data. *)
Inductive Payload :=
| DirectMempool (txns : list SignedTransaction)
| InQuorumStore (proofs : list ProofOfStore).

Definition payload_empty (quorum_store_enabled : bool) : Payload :=
  if quorum_store_enabled then InQuorumStore [] else DirectMempool [].
(** [Iterator::sum] of [usize]s. *)
Fixpoint usize_sum {E} (acc : N) (l : list N) : outcome E N :=
  match l with [] => Ok acc | n :: l => acc' ← u64_add acc n; usize_sum acc' l end.
Definition payload_len {E} (p : Payload) : outcome E N :=
  match p with
  | DirectMempool txns => Ok (lenN txns)
  | InQuorumStore proofs => usize_sum 0 ((λ q, sdi_num_txns (pos_info q)) <$> proofs)
  end.
Definition payload_is_empty (p : Payload) : bool :=
  match p with
  | DirectMempool txns => lenN txns =? 0
  | InQuorumStore proofs => lenN proofs =? 0
  end.
Definition payload_is_direct (p : Payload) : bool :=
  match p with DirectMempool _ => true | InQuorumStore _ => false end.
Definition payload_size {E} (p : Payload) : outcome E N :=
  match p with
  | DirectMempool txns => usize_sum 0 (st_raw_txn_bytes_len <$> txns)
  | InQuorumStore proofs => usize_sum 0 ((λ q, sdi_num_bytes (pos_info q)) <$> proofs)
  end.

Record TransactionSummary := mkTransactionSummary {
  ts_sender : AccountAddress;
  ts_sequence_number : N;
}.

Inductive PayloadFilter :=
| FilterDirectMempool (txns : list TransactionSummary)
| FilterInQuorumStore (digests : gset HashValue)
| FilterEmpty.

Definition payload_filter_from (exclude_payloads : list Payload) : PayloadFilter :=
  match exclude_payloads with
  | [] => FilterEmpty
  | _ =>
      if existsb payload_is_direct exclude_payloads then
        FilterDirectMempool
          (mjoin ((λ p, match p with
                        | DirectMempool txns =>
                            (λ t, mkTransactionSummary (st_sender t) (st_sequence_number t)) <$> txns
                        | InQuorumStore _ => []
                        end) <$> exclude_payloads))
      else
        FilterInQuorumStore
          (list_to_set (mjoin ((λ p, match p with
                        | DirectMempool _ => []
                        | InQuorumStore proofs => (λ q, sdi_digest (pos_info q)) <$> proofs
                        end) <$> exclude_payloads)))
  end.

(** ** Blocks *)

Inductive BlockType :=
| Proposal (payload : Payload) (author : Author) (failed_authors : list (Round * Author))
| NilBlock (failed_authors : list (Round * Author))
| Genesis.

Record BlockData := mkBlockData {
  bd_epoch : N;
  bd_round : Round;
  bd_timestamp_usecs : N;
  bd_quorum_cert : QuorumCert;
  bd_block_type : BlockType;
}.

Definition bd_author (d : BlockData) : option Author :=
  match bd_block_type d with Proposal _ author _ => Some author | _ => None end.
Definition bd_payload (d : BlockData) : option Payload :=
  match bd_block_type d with Proposal payload _ _ => Some payload | _ => None end.
Definition bd_parent_id (d : BlockData) : HashValue := bi_id (certified_block (bd_quorum_cert d)).
Definition bd_is_genesis_block (d : BlockData) : bool :=
  match bd_block_type d with Genesis => true | _ => false end.
Definition bd_is_nil_block (d : BlockData) : bool :=
  match bd_block_type d with NilBlock _ => true | _ => false end.
Definition bd_failed_authors (d : BlockData) : option (list (Round * Author)) :=
  match bd_block_type d with
  | Proposal _ _ failed_authors => Some failed_authors
  | NilBlock failed_authors => Some failed_authors
  | Genesis => None
  end.

Definition block_data_new_genesis {E} (timestamp_usecs : N) (quorum_cert : QuorumCert)
  : outcome E BlockData :=
  epoch ← u64_add (bi_epoch (certified_block quorum_cert)) 1;
  Ok (mkBlockData epoch 0 timestamp_usecs quorum_cert Genesis).

Definition block_data_new_genesis_from_ledger_info {E} (ledger_info : LedgerInfo)
  : outcome E BlockData :=
  _ ← rassert (ends_epoch ledger_info);
  let ancestor := mkBlockInfo (li_epoch ledger_info) 0 hash_zero
    (transaction_accumulator_hash ledger_info) (li_version ledger_info)
    (li_timestamp_usecs ledger_info) None in
  let genesis_quorum_cert := mkQuorumCert (mkVoteData ancestor ancestor)
    (mkLIWS (mkLedgerInfo ancestor hash_zero) aggregate_signature_empty) in
  block_data_new_genesis (li_timestamp_usecs ledger_info) genesis_quorum_cert.

Definition block_data_new_nil (round : Round) (quorum_cert : QuorumCert)
    (failed_authors : list (Round * Author)) : BlockData :=
  mkBlockData (bi_epoch (certified_block quorum_cert)) round
    (bi_timestamp_usecs (certified_block quorum_cert)) quorum_cert (NilBlock failed_authors).

Definition block_data_new_proposal (payload : Payload) (author : Author)
    (failed_authors : list (Round * Author)) (round : Round) (timestamp_usecs : N)
    (quorum_cert : QuorumCert) : BlockData :=
  mkBlockData (bi_epoch (certified_block quorum_cert)) round timestamp_usecs quorum_cert
    (Proposal payload author failed_authors).

Definition is_reconfiguration_suffix (d : BlockData) : bool :=
  bi_has_reconfiguration (certified_block (bd_quorum_cert d)).

Record Block := mkBlock {
  block_id : HashValue;
  block_block_data : BlockData;
  block_signature : option Signature;
}.

Definition block_author (b : Block) : option Author := bd_author (block_block_data b).
Definition block_epoch (b : Block) : N := bd_epoch (block_block_data b).
Definition block_parent_id (b : Block) : HashValue := bd_parent_id (block_block_data b).
Definition block_payload (b : Block) : option Payload := bd_payload (block_block_data b).
Definition block_quorum_cert (b : Block) : QuorumCert := bd_quorum_cert (block_block_data b).
Definition block_round (b : Block) : Round := bd_round (block_block_data b).
Definition block_timestamp_usecs (b : Block) : N := bd_timestamp_usecs (block_block_data b).
Definition block_is_genesis_block (b : Block) : bool := bd_is_genesis_block (block_block_data b).
Definition block_is_nil_block (b : Block) : bool := bd_is_nil_block (block_block_data b).

Definition gen_block_info (b : Block) (executed_state_id : HashValue) (version : Version)
    (next_epoch_state : option EpochState) : BlockInfo :=
  mkBlockInfo (block_epoch b) (block_round b) (block_id b) executed_state_id version
    (block_timestamp_usecs b) next_epoch_state.

(** The loop over [failed_authors] in [verify_well_formed]. *)
Fixpoint check_failed_rounds (bound succ_round : Round) (failed_authors : list (Round * Author))
  : outcome anyhow unit :=
  match failed_authors with
  | [] => Ok tt
  | (round, _) :: rest =>
      _ ← ensure ((bound <? round) && (round <? succ_round))
            (fmt "Incorrect round in failed authors" []);
      check_failed_rounds round succ_round rest
  end.

Definition TIMEBOUND : N := 300000000.

(** [current_micros] is what the clock [duration_since_epoch] returns; the id is
    only compared with the hash in debug builds. *)
Definition verify_well_formed (current_micros : N) (b : Block) : outcome anyhow unit :=
  _ ← ensure (negb (block_is_genesis_block b)) (fmt "We must not accept genesis from others" []);
  let parent := certified_block (block_quorum_cert b) in
  _ ← ensure (bi_round parent <? block_round b)
        (fmt "Block must have a greater round than parent's block" []);
  _ ← ensure (bi_epoch parent =? block_epoch b)
        (fmt "block's parent should be in the same epoch" []);
  _ ← (if bi_has_reconfiguration parent then
         ensure (match block_payload b with Some p => payload_is_empty p | None => true end)
           (fmt "Reconfiguration suffix should not carry payload" [])
       else Ok tt);
  _ ← match bd_failed_authors (block_block_data b) with
      | Some failed_authors =>
          succ_round ← u64_add (block_round b) (if block_is_nil_block b then 1 else 0);
          parent_succ ← u64_add (bi_round parent) 1;
          let skipped_rounds := u64_checked_sub succ_round parent_succ in
          skipped ← ok_or skipped_rounds (fmt "Block round is smaller than block's parent round" []);
          _ ← ensure (lenN failed_authors <=? skipped)
                (fmt "Block has more failed authors than missed rounds" []);
          check_failed_rounds (bi_round parent) succ_round failed_authors
      | None => Ok tt
      end;
  _ ← (if block_is_nil_block b || bi_has_reconfiguration parent then
         ensure (block_timestamp_usecs b =? bi_timestamp_usecs parent)
           (fmt "Nil/reconfig suffix block must have same timestamp as parent" [])
       else
         _ ← ensure (bi_timestamp_usecs parent <? block_timestamp_usecs b)
               (fmt "Blocks must have strictly increasing timestamps" []);
         ensure (block_timestamp_usecs b <=?
                   u64_saturating_add (current_micros mod 2 ^ 64) TIMEBOUND)
           (fmt "Blocks must not be too far in the future" []));
  _ ← ensure (negb (qc_ends_epoch (block_quorum_cert b)))
        (fmt "Block cannot be proposed in an epoch that has ended" []);
  Ok tt.

(** The transactions of a block. *)
Record BlockMetadata := mkBlockMetadata {
  bm_id : HashValue;
  bm_epoch : N;
  bm_round : Round;
  bm_proposer : AccountAddress;
  bm_previous_block_votes_bitvec : list N;
  bm_failed_proposer_indices : list N;
  bm_timestamp_usecs : N;
}.

Inductive Transaction :=
| BlockMetadataTransaction (m : BlockMetadata)
| UserTransaction (t : SignedTransaction)
| StateCheckpoint (id : HashValue).

(** [position] then [unwrap_or_else(panic)] and [u32::try_from(..).unwrap()]. *)
Fixpoint failed_authors_to_indices {E} (validators : list AccountAddress)
    (failed_authors : list (Round * Author)) : outcome E (list N) :=
  match failed_authors with
  | [] => Ok []
  | (_, failed_author) :: rest =>
      index ← expect (fst <$> list_find (λ v, v = failed_author) validators);
      _ ← rassert (N.of_nat index <? 2 ^ 32);
      indices ← failed_authors_to_indices validators rest;
      Ok (N.of_nat index :: indices)
  end.

Definition new_block_metadata {E} (b : Block) (validators : list AccountAddress)
  : outcome E BlockMetadata :=
  indices ← match bd_failed_authors (block_block_data b) with
            | Some failed_authors => failed_authors_to_indices validators failed_authors
            | None => Ok []
            end;
  Ok (mkBlockMetadata (block_id b) (block_epoch b) (block_round b)
        (default 0 (block_author b))
        (bv_into_bytes (validator_bitmask (liws_signatures
           (qc_signed_ledger_info (block_quorum_cert b)))))
        indices (block_timestamp_usecs b)).

Definition transactions_to_execute {E} (b : Block) (validators : list AccountAddress)
    (txns : list SignedTransaction) : outcome E (list Transaction) :=
  metadata ← new_block_metadata b validators;
  Ok (BlockMetadataTransaction metadata :: (UserTransaction <$> txns)
        ++ [StateCheckpoint (block_id b)]).

(** ** Vote proposals, sync infos and messages *)

Record VoteProposal := mkVoteProposal {
  vp_accumulator_extension_proof : AccumulatorExtensionProof;
  vp_block : Block;
  vp_next_epoch_state : option EpochState;
  vp_decoupled_execution : bool;
}.

Definition vote_data_ordering_only (p : VoteProposal) : VoteData :=
  mkVoteData (gen_block_info (vp_block p) ACCUMULATOR_PLACEHOLDER_HASH 0 (vp_next_epoch_state p))
    (certified_block (block_quorum_cert (vp_block p))).

Definition vote_data_with_extension_proof (p : VoteProposal) (new_tree : InMemoryAccumulator)
  : VoteData :=
  mkVoteData (gen_block_info (vp_block p) (root_hash new_tree) (accumulator_version new_tree)
                (vp_next_epoch_state p))
    (certified_block (block_quorum_cert (vp_block p))).

Record SyncInfo := mkSyncInfo {
  si_highest_quorum_cert : QuorumCert;
  si_highest_ordered_cert : option QuorumCert;
  si_highest_commit_cert : QuorumCert;
  si_highest_2chain_timeout_cert : option TwoChainTimeoutCertificate;
}.

#[export] Instance SyncInfo_eq_dec : EqDecision SyncInfo.
Proof. solve_decision. Defined.

Definition sync_info_new_decoupled (highest_quorum_cert highest_ordered_cert
    highest_commit_cert : QuorumCert) (highest_2chain_timeout_cert : option TwoChainTimeoutCertificate)
  : SyncInfo :=
  let tc := match highest_2chain_timeout_cert with
            | Some tc => if bi_round (certified_block highest_quorum_cert) <? tc_round tc
                         then Some tc else None
            | None => None
            end in
  let hoc := if bool_decide (highest_ordered_cert = highest_quorum_cert) then None
             else Some highest_ordered_cert in
  mkSyncInfo highest_quorum_cert hoc highest_commit_cert tc.

Definition sync_info_new (highest_quorum_cert highest_ordered_cert : QuorumCert)
    (highest_2chain_timeout_cert : option TwoChainTimeoutCertificate) : SyncInfo :=
  sync_info_new_decoupled highest_quorum_cert highest_ordered_cert highest_ordered_cert
    highest_2chain_timeout_cert.

Definition highest_ordered_cert (s : SyncInfo) : QuorumCert :=
  default (si_highest_quorum_cert s) (si_highest_ordered_cert s).
Definition highest_certified_round (s : SyncInfo) : Round :=
  bi_round (certified_block (si_highest_quorum_cert s)).
Definition highest_timeout_round (s : SyncInfo) : Round :=
  match si_highest_2chain_timeout_cert s with Some tc => tc_round tc | None => 0 end.
Definition highest_ordered_round (s : SyncInfo) : Round :=
  bi_round (qc_commit_info (highest_ordered_cert s)).
Definition highest_commit_round (s : SyncInfo) : Round :=
  bi_round (qc_commit_info (si_highest_commit_cert s)).
Definition highest_round (s : SyncInfo) : Round :=
  N.max (highest_certified_round s) (highest_timeout_round s).
Definition sync_info_epoch (s : SyncInfo) : N :=
  bi_epoch (certified_block (si_highest_quorum_cert s)).
Definition has_newer_certificates (s other : SyncInfo) : bool :=
  (highest_certified_round other <? highest_certified_round s)
  || (highest_timeout_round other <? highest_timeout_round s)
  || (highest_ordered_round other <? highest_ordered_round s)
  || (highest_commit_round other <? highest_commit_round s).

Record ProposalMsg := mkProposalMsg {
  pm_proposal : Block;
  pm_sync_info : SyncInfo;
}.

Record VoteMsg := mkVoteMsg {
  vm_vote : Vote;
  vm_sync_info : SyncInfo;
}.

Definition proposal_msg_verify_well_formed (current_micros : N) (m : ProposalMsg)
  : outcome anyhow unit :=
  _ ← ensure (negb (block_is_nil_block (pm_proposal m))) (fmt "Proposal for a NIL block" []);
  _ ← map_err (with_context "Fail to verify ProposalMsg's block")
        (verify_well_formed current_micros (pm_proposal m));
  _ ← ensure (0 <? block_round (pm_proposal m)) (fmt "Proposal has an incorrect round of 0" []);
  _ ← ensure (block_epoch (pm_proposal m) =? sync_info_epoch (pm_sync_info m))
        (fmt "ProposalMsg has different epoch number from SyncInfo" []);
  _ ← ensure (block_parent_id (pm_proposal m) =?
              bi_id (certified_block (si_highest_quorum_cert (pm_sync_info m))))
        (fmt "Proposal HQC in SyncInfo certifies {}, but block parent id is {}"
           [bi_id (certified_block (si_highest_quorum_cert (pm_sync_info m)));
            block_parent_id (pm_proposal m)]);
  previous_round ← ok_or (u64_checked_sub (block_round (pm_proposal m)) 1)
                     (fmt "proposal round overflowed!" []);
  let certified := N.max (bi_round (certified_block (block_quorum_cert (pm_proposal m))))
                     (highest_timeout_round (pm_sync_info m)) in
  _ ← ensure (previous_round =? certified)
        (fmt "Proposal does not have a certified round {}" [previous_round]);
  _ ← ensure (match block_author (pm_proposal m) with Some _ => true | None => false end)
        (fmt "Proposal does not define an author" []);
  Ok tt.

Inductive BlockRetrievalStatus := Succeeded | IdNotFound | NotEnoughBlocks | SucceededWithTarget.

#[export] Instance BlockRetrievalStatus_eq_dec : EqDecision BlockRetrievalStatus.
Proof. solve_decision. Defined.

Record BlockRetrievalRequest := mkBlockRetrievalRequest {
  brq_block_id : HashValue;
  brq_num_blocks : N;
  brq_target_block_id : option HashValue;
}.
Definition match_target_id (r : BlockRetrievalRequest) (hash_value : HashValue) : bool :=
  match brq_target_block_id r with Some id => id =? hash_value | None => false end.

Record BlockRetrievalResponse := mkBlockRetrievalResponse {
  brr_status : BlockRetrievalStatus;
  brr_blocks : list Block;
}.

(** ** Operations that hash, sign or verify *)

(** The [CryptoHash] implementations the derives generate. *)
Class ArxHashes := {
  hash_ledger_info :: CryptoHash LedgerInfo;
  hash_waypoint_converter :: CryptoHash Ledger2WaypointConverter;
  hash_vote_data :: CryptoHash VoteData;
  hash_block_data :: CryptoHash BlockData;
  hash_timeout_signing_repr :: CryptoHash TimeoutSigningRepr;
  hash_signed_digest_info :: CryptoHash SignedDigestInfo;
  accumulator_node_hash : HashValue → HashValue → HashValue;
}.

Definition crypto_error_anyhow (e : CryptoMaterialError) : anyhow :=
  fmt "SerializationError" [].

Section types.
Context `{!Bls} `{!ArxHashes}.

Definition quorum_cert_for_genesis_from_ledger_info {E} (ledger_info : LedgerInfo)
    (genesis_id : HashValue) : outcome E QuorumCert :=
  epoch ← expect (u64_checked_add (li_epoch ledger_info) 1);
  let ancestor := mkBlockInfo epoch 0 genesis_id (transaction_accumulator_hash ledger_info)
    (li_version ledger_info) (li_timestamp_usecs ledger_info) None in
  let vote_data := mkVoteData ancestor ancestor in
  let li := mkLedgerInfo ancestor (crypto_hash vote_data) in
  next ← expect (li_next_epoch_state ledger_info);
  Ok (mkQuorumCert vote_data
        (mkLIWS li (mkAggregateSignature (with_num_bits (len_u16 (es_verifier next))) None))).

Definition quorum_cert_verify (qc : QuorumCert) (validator : ValidatorVerifier)
  : outcome anyhow unit :=
  let vote_hash := crypto_hash (qc_vote_data qc) in
  _ ← ensure (li_consensus_data_hash (qc_ledger_info qc) =? vote_hash)
        (fmt "Quorum Cert's hash mismatch LedgerInfo" []);
  if bi_round (certified_block qc) =? 0 then
    _ ← ensure (bool_decide (parent_block qc = certified_block qc))
          (fmt "Genesis QC has inconsistent parent block with certified block" []);
    _ ← ensure (bool_decide (certified_block qc = qc_commit_info qc))
          (fmt "Genesis QC has inconsistent commit block with certified block" []);
    _ ← ensure (liws_get_num_voters (qc_signed_ledger_info qc) =? 0)
          (fmt "Genesis QC should not carry signatures" []);
    Ok tt
  else
    _ ← map_err (λ e, with_context "Fail to verify QuorumCert" (verify_error_anyhow e))
          (verify_signatures (qc_signed_ledger_info qc) validator);
    _ ← vote_data_verify (qc_vote_data qc);
    Ok tt.

Definition timeout_verify (t : TwoChainTimeout) (validators : ValidatorVerifier)
  : outcome anyhow unit :=
  _ ← ensure (hqc_round t <? to_round t)
        (fmt "Timeout round should be larger than the QC round" []);
  _ ← quorum_cert_verify (to_quorum_cert t) validators;
  Ok tt.

Definition timeout_sign (t : TwoChainTimeout) (signer : ValidatorSigner)
  : outcome CryptoMaterialError Signature :=
  validator_signer_sign signer (signing_format t).

(** [iter().max()] *)
Definition max_round (rounds : list Round) : option Round :=
  match rounds with [] => None | r :: rest => Some (foldl N.max r rest) end.

Definition tc_verify (tc : TwoChainTimeoutCertificate) (validators : ValidatorVerifier)
  : outcome anyhow unit :=
  _ ← timeout_verify (tc_timeout tc) validators;
  let qc_round := hqc_round (tc_timeout tc) in
  let timeout_messages :=
    (λ vr : AccountAddress * Round,
       mkTimeoutSigningRepr (to_epoch (tc_timeout tc)) (to_round (tc_timeout tc)) vr.2) <$>
    get_voters_and_rounds (tc_signatures_with_rounds tc) (get_ordered_account_addresses validators) in
  _ ← map_err verify_error_anyhow
        (verify_aggregate_signatures validators timeout_messages
           (aswr_sig (tc_signatures_with_rounds tc)));
  signed_hqc ← expect (max_round (aswr_rounds (tc_signatures_with_rounds tc)));
  _ ← ensure (qc_round =? signed_hqc)
        (fmt "Inconsistent hqc round, qc has round {}, highest signed round {}"
           [qc_round; signed_hqc]);
  Ok tt.

Definition tps_aggregate_signatures (p : TwoChainTimeoutWithPartialSignatures)
    (verifier : ValidatorVerifier) : outcome VerifyError TwoChainTimeoutCertificate :=
  let '(partial_sig, ordered_rounds) :=
    get_partial_sig_with_rounds (tps_signatures p) (address_to_validator_index verifier) in
  aggregated_sig ← aggregate_signatures verifier partial_sig;
  sigs ← aswr_new aggregated_sig ordered_rounds;
  Ok (mkTC (tps_timeout p) sigs).

Definition vote_new (vote_data : VoteData) (author : Author) (ledger_info_placeholder : LedgerInfo)
    (validator_signer : ValidatorSigner) : outcome CryptoMaterialError Vote :=
  let li := set_consensus_data_hash ledger_info_placeholder (crypto_hash vote_data) in
  sig ← validator_signer_sign validator_signer li;
  Ok (vote_new_with_signature vote_data author li sig).

Definition vote_verify (v : Vote) (validator : ValidatorVerifier) : outcome anyhow unit :=
  _ ← ensure (li_consensus_data_hash (vote_ledger_info v) =? crypto_hash (vote_vote_data v))
        (fmt "Vote's hash mismatch with LedgerInfo" []);
  _ ← map_err (λ e, with_context "Failed to verify Vote" (verify_error_anyhow e))
        (verifier_verify validator (vote_author v) (vote_ledger_info v) (vote_signature v));
  _ ← match vote_two_chain_timeout v with
      | Some (timeout, sig) =>
          _ ← ensure ((to_epoch timeout =? vote_epoch v) && (to_round timeout =? vote_round v))
                (fmt "2-chain timeout has different (epoch, round) than Vote" []);
          _ ← timeout_verify timeout validator;
          map_err (λ e, with_context "Failed to verify 2-chain timeout signature" (verify_error_anyhow e))
            (verifier_verify validator (vote_author v) (signing_format timeout) sig)
      | None => Ok tt
      end;
  _ ← vote_data_verify (vote_vote_data v);
  Ok tt.

(** *** Proofs of store *)

Definition signed_digest_new (epoch : N) (digest : HashValue) (expiration : LogicalTime)
    (num_txns num_bytes : N) (signer : ValidatorSigner) : outcome CryptoMaterialError SignedDigest :=
  let info := mkSignedDigestInfo digest expiration num_txns num_bytes in
  sig ← validator_signer_sign signer info;
  Ok (mkSignedDigest epoch (vs_author signer) info sig).

Definition signed_digest_verify (d : SignedDigest) (validator : ValidatorVerifier)
  : outcome anyhow unit :=
  map_err verify_error_anyhow
    (verifier_verify validator (sdg_peer_id d) (sdg_info d) (sdg_signature d)).

Definition proof_of_store_verify (p : ProofOfStore) (validator : ValidatorVerifier)
  : outcome anyhow unit :=
  map_err (λ e, with_context "Failed to verify ProofOfStore" (verify_error_anyhow e))
    (verify_multi_signatures validator (pos_info p) (pos_multi_signature p)).

Fixpoint verify_proofs (proofs : list ProofOfStore) (validator : ValidatorVerifier)
  : outcome anyhow unit :=
  match proofs with
  | [] => Ok tt
  | p :: proofs => _ ← proof_of_store_verify p validator; verify_proofs proofs validator
  end.

Definition payload_verify (p : Payload) (validator : ValidatorVerifier)
    (quorum_store_enabled : bool) : outcome anyhow unit :=
  match quorum_store_enabled, p with
  | false, DirectMempool _ => Ok tt
  | true, InQuorumStore proofs => verify_proofs proofs validator
  | _, _ => Err (fmt "Wrong payload type." [])
  end.

(** *** Blocks *)

Definition block_make_genesis_from_ledger_info {E} (ledger_info : LedgerInfo) : outcome E Block :=
  block_data ← block_data_new_genesis_from_ledger_info ledger_info;
  Ok (mkBlock (crypto_hash block_data) block_data None).

Definition block_new_nil (round : Round) (quorum_cert : QuorumCert)
    (failed_authors : list (Round * Author)) : Block :=
  let block_data := block_data_new_nil round quorum_cert failed_authors in
  mkBlock (crypto_hash block_data) block_data None.

Definition new_proposal_from_block_data_and_signature (block_data : BlockData) (sig : Signature)
  : Block := mkBlock (crypto_hash block_data) block_data (Some sig).

Definition new_proposal_from_block_data (block_data : BlockData) (signer : ValidatorSigner)
  : outcome anyhow Block :=
  sig ← map_err crypto_error_anyhow (validator_signer_sign signer block_data);
  Ok (new_proposal_from_block_data_and_signature block_data sig).

Definition block_new_proposal (payload : Payload) (round : Round) (timestamp_usecs : N)
    (quorum_cert : QuorumCert) (signer : ValidatorSigner) (failed_authors : list (Round * Author))
  : outcome anyhow Block :=
  new_proposal_from_block_data
    (block_data_new_proposal payload (vs_author signer) failed_authors round timestamp_usecs quorum_cert)
    signer.

(** [Deserialize]: the id is recomputed. *)
Definition block_deserialize (block_data : BlockData) (sig : option Signature) : Block :=
  mkBlock (crypto_hash block_data) block_data sig.

Definition validate_signature (b : Block) (validator : ValidatorVerifier) : outcome anyhow unit :=
  match bd_block_type (block_block_data b) with
  | Genesis => Err (fmt "We should not accept genesis from others" [])
  | NilBlock _ => quorum_cert_verify (block_quorum_cert b) validator
  | Proposal _ author _ =>
      sig ← ok_or (block_signature b) (fmt "Missing signature in Proposal" []);
      _ ← map_err verify_error_anyhow (verifier_verify validator author (block_block_data b) sig);
      quorum_cert_verify (block_quorum_cert b) validator
  end.

(** *** Vote proposals, sync infos and messages *)

Definition gen_vote_data (p : VoteProposal) : outcome anyhow VoteData :=
  if vp_decoupled_execution p then Ok (vote_data_ordering_only p)
  else
    new_tree ← accumulator_extension_proof_verify accumulator_node_hash
                 (vp_accumulator_extension_proof p)
                 (bi_executed_state_id (certified_block (block_quorum_cert (vp_block p))));
    Ok (vote_data_with_extension_proof p new_tree).

Definition sync_info_verify (s : SyncInfo) (validator : ValidatorVerifier) : outcome anyhow unit :=
  let epoch := bi_epoch (certified_block (si_highest_quorum_cert s)) in
  _ ← ensure (epoch =? bi_epoch (certified_block (highest_ordered_cert s)))
        (fmt "Multi epoch in SyncInfo - HOC and HQC" []);
  _ ← ensure (epoch =? bi_epoch (qc_commit_info (si_highest_commit_cert s)))
        (fmt "Multi epoch in SyncInfo - HOC and HCC" []);
  _ ← match si_highest_2chain_timeout_cert s with
      | Some tc => ensure (epoch =? tc_epoch tc) (fmt "Multi epoch in SyncInfo - TC and HQC" [])
      | None => Ok tt
      end;
  _ ← ensure (bi_round (certified_block (highest_ordered_cert s)) <=?
              bi_round (certified_block (si_highest_quorum_cert s)))
        (fmt "HQC has lower round than HOC" []);
  _ ← ensure (highest_commit_round s <=? bi_round (certified_block (highest_ordered_cert s)))
        (fmt "HOC has lower round than HLI" []);
  _ ← ensure (negb (bool_decide (qc_commit_info (highest_ordered_cert s) = block_info_empty)))
        (fmt "HOC has no committed block" []);
  _ ← ensure (negb (bool_decide (qc_commit_info (si_highest_commit_cert s) = block_info_empty)))
        (fmt "HLI has empty commit info" []);
  _ ← map_err (with_context "Fail to verify SyncInfo")
        (_ ← quorum_cert_verify (si_highest_quorum_cert s) validator;
         _ ← match si_highest_ordered_cert s with
             | Some cert => quorum_cert_verify cert validator
             | None => Ok tt
             end;
         _ ← (if 0 <? bi_round (qc_commit_info (si_highest_commit_cert s))
              then quorum_cert_verify (si_highest_commit_cert s) validator else Ok tt);
         match si_highest_2chain_timeout_cert s with
         | Some tc => tc_verify tc validator
         | None => Ok tt
         end);
  Ok tt.

(** [format_err!(..e..)] re-renders the error; the chain is kept here. *)
Definition proposal_msg_verify (current_micros : N) (m : ProposalMsg) (validator : ValidatorVerifier)
    (quorum_store_enabled : bool) : outcome anyhow unit :=
  _ ← match block_payload (pm_proposal m) with
      | Some p => payload_verify p validator quorum_store_enabled
      | None => Ok tt
      end;
  _ ← validate_signature (pm_proposal m) validator;
  _ ← match si_highest_2chain_timeout_cert (pm_sync_info m) with
      | Some tc => tc_verify tc validator
      | None => Ok tt
      end;
  proposal_msg_verify_well_formed current_micros m.

Definition vote_msg_verify (m : VoteMsg) (validator : ValidatorVerifier) : outcome anyhow unit :=
  _ ← ensure (vote_epoch (vm_vote m) =? sync_info_epoch (vm_sync_info m))
        (fmt "VoteMsg has different epoch" []);
  _ ← ensure (highest_round (vm_sync_info m) <? vote_round (vm_vote m))
        (fmt "Vote Round should be higher than SyncInfo" []);
  _ ← match vote_two_chain_timeout (vm_vote m) with
      | Some (timeout, _) =>
          ensure (hqc_round timeout <=? highest_certified_round (vm_sync_info m))
            (fmt "2-chain Timeout hqc should be less or equal than the sync info hqc" [])
      | None => Ok tt
      end;
  vote_verify (vm_vote m) validator.

(** The [try_fold] over the blocks. *)
Fixpoint verify_block_chain (current_micros : N) (expected_id : HashValue) (blocks : list Block)
    (sig_verifier : ValidatorVerifier) : outcome anyhow HashValue :=
  match blocks with
  | [] => Ok expected_id
  | block :: blocks =>
      _ ← validate_signature block sig_verifier;
      _ ← verify_well_formed current_micros block;
      _ ← ensure (block_id block =? expected_id)
            (fmt "blocks doesn't form a chain: expect {}, get {}" [expected_id; block_id block]);
      verify_block_chain current_micros (block_parent_id block) blocks sig_verifier
  end.

Definition block_retrieval_response_verify (current_micros : N) (r : BlockRetrievalResponse)
    (request : BlockRetrievalRequest) (sig_verifier : ValidatorVerifier) : outcome anyhow unit :=
  _ ← ensure (negb (bool_decide (brr_status r = Succeeded))
              || (lenN (brr_blocks r) =? brq_num_blocks request))
        (fmt "not enough blocks returned, expect {}, get {}"
           [brq_num_blocks request; lenN (brr_blocks r)]);
  _ ← ensure (negb (bool_decide (brr_status r = SucceededWithTarget))
              || match last (brr_blocks r) with
                 | Some b => match_target_id request (block_id b)
                 | None => false
                 end)
        (fmt "target not found in blocks returned" []);
  _ ← verify_block_chain current_micros (brq_block_id request) (brr_blocks r) sig_verifier;
  Ok tt.

End types.

(** ** What verification establishes *)

Lemma vote_data_verify_Ok d :
  vote_data_verify d = Ok tt ↔
  bi_epoch (vd_parent d) = bi_epoch (vd_proposed d) ∧
  bi_round (vd_parent d) < bi_round (vd_proposed d) ∧
  bi_timestamp_usecs (vd_parent d) ≤ bi_timestamp_usecs (vd_proposed d) ∧
  (bi_version (vd_proposed d) = 0 ∨ bi_version (vd_parent d) ≤ bi_version (vd_proposed d)).
Proof.
  unfold vote_data_verify. split.
  - intros Hv. inv_ok. repeat match goal with
    | E : (_ =? _) = true |- _ => apply N.eqb_eq in E
    | E : (_ <? _) = true |- _ => apply N.ltb_lt in E
    | E : (_ <=? _) = true |- _ => apply N.leb_le in E
    | E : (_ || _) = true |- _ => apply orb_prop in E as [E|E]
    end; auto.
  - intros (H1 & H2 & H3 & H4).
    rewrite (proj2 (N.eqb_eq _ _) H1), (proj2 (N.ltb_lt _ _) H2), (proj2 (N.leb_le _ _) H3). run_ok.
    destruct H4 as [H4|H4]; [rewrite (proj2 (N.eqb_eq _ _) H4)|
      rewrite (proj2 (N.leb_le _ _) H4), orb_true_r]; done.
Qed.

Lemma verify_well_formed_parent now b :
  verify_well_formed now b = Ok tt →
  bi_round (certified_block (block_quorum_cert b)) < block_round b ∧
  bi_epoch (certified_block (block_quorum_cert b)) = block_epoch b.
Proof.
  unfold verify_well_formed. intros Hv. apply bind_Ok in Hv as (? & _ & Hv).
  apply bind_Ok in Hv as (? & H1 & Hv). apply bind_Ok in Hv as (? & H2 & _).
  apply ensure_Ok in H1 as ?%N.ltb_lt. apply ensure_Ok in H2 as ?%N.eqb_eq. done.
Qed.

Section verified.
Context `{!Bls} `{!ArxHashes}.

(** A certificate for a round other than 0 carries verified signatures. *)
Lemma quorum_cert_verify_signed qc v :
  quorum_cert_verify qc v = Ok tt → bi_round (certified_block qc) ≠ 0 →
  li_consensus_data_hash (qc_ledger_info qc) = crypto_hash (qc_vote_data qc) ∧
  verify_signatures (qc_signed_ledger_info qc) v = Ok tt ∧ vote_data_verify (qc_vote_data qc) = Ok tt.
Proof.
  unfold quorum_cert_verify. intros Hv Hr. apply bind_Ok in Hv as (u & Hh & Hv).
  apply ensure_Ok, N.eqb_eq in Hh. rewrite (proj2 (N.eqb_neq _ _) Hr) in Hv. inv_ok.
  destruct_units. done.
Qed.
(** One for round 0 is a genesis certificate. *)
Lemma quorum_cert_verify_genesis qc v :
  quorum_cert_verify qc v = Ok tt → bi_round (certified_block qc) = 0 →
  qc_commit_info qc = certified_block qc.
Proof.
  unfold quorum_cert_verify. intros Hv Hr. apply bind_Ok in Hv as (u & Hh & Hv).
  rewrite (proj2 (N.eqb_eq _ _) Hr) in Hv. inv_ok.
  repeat match goal with E : bool_decide _ = true |- _ => apply bool_decide_eq_true in E end. done.
Qed.

Lemma foldl_max_ge l r : r ≤ foldl N.max r l ∧ ∀ x, x ∈ l → x ≤ foldl N.max r l.
Proof.
  revert r. induction l as [|y l IH]; intros r; cbn; [by split; [|intros x ?%not_elem_of_nil]|].
  destruct (IH (N.max r y)) as [H1 H2]. split; [lia|].
  intros x [->|Hx]%elem_of_cons; [lia|auto].
Qed.
Lemma max_round_ge rounds m r : max_round rounds = Some m → r ∈ rounds → r ≤ m.
Proof.
  destruct rounds as [|r0 rounds]; [done|]. intros [= <-].
  destruct (foldl_max_ge rounds r0) as [H1 H2]. intros [->|Hr]%elem_of_cons; auto.
Qed.

(** What a verified timeout certificate shows. *)
Lemma tc_verify_Ok tc v :
  verifier_wf v → tc_verify tc v = Ok tt →
  timeout_verify (tc_timeout tc) v = Ok tt ∧
  quorum_voting_power v ≤
    set_power (validator_infos v) (voters v (aswr_sig (tc_signatures_with_rounds tc))) ∧
  ∀ a r, (a, r) ∈ get_voters_and_rounds (tc_signatures_with_rounds tc)
                    (get_ordered_account_addresses v) → r ≤ highest_hqc_round tc.
Proof.
  intros Hwf Hv. unfold tc_verify in Hv. inv_ok. destruct_units. split; [done|].
  match goal with E : verify_aggregate_signatures _ _ _ = _ |- _ =>
    apply verify_aggregate_signatures_quorum in E; [|done] end. split; [done|].
  match goal with E : (_ =? _) = true |- _ => apply N.eqb_eq in E; rename E into Hmax end.
  intros a' r Hin. unfold highest_hqc_round. rewrite Hmax.
  eapply max_round_ge; [done|]. apply elem_of_zip_r in Hin. done.
Qed.
End verified.

(** ** A sample instance

    Hashes that number the fields, for the examples. *)
Definition sample_block_info_number (b : BlockInfo) : N :=
  bi_epoch b + 100 * bi_round b + 10000 * bi_id b.
Definition sample_vote_data_number (d : VoteData) : N :=
  sample_block_info_number (vd_proposed d) + 100000000 * sample_block_info_number (vd_parent d).
Definition sample_hashes : ArxHashes := {|
  hash_ledger_info := {|
    crypto_hash := λ li, sample_block_info_number (li_commit_info li) + li_consensus_data_hash li;
    signing_message := λ li,
      Some [sample_block_info_number (li_commit_info li); li_consensus_data_hash li] |};
  hash_waypoint_converter := sample_converter_hash;
  hash_vote_data := {|
    crypto_hash := sample_vote_data_number;
    signing_message := λ d, Some [sample_vote_data_number d] |};
  hash_block_data := {|
    crypto_hash := λ d, bd_epoch d + 100 * bd_round d;
    signing_message := λ d, Some [bd_epoch d; bd_round d] |};
  hash_timeout_signing_repr := {|
    crypto_hash := λ t, tsr_epoch t + 100 * tsr_round t + 10000 * tsr_hqc_round t;
    signing_message := λ t, Some [tsr_epoch t; tsr_round t; tsr_hqc_round t] |};
  hash_signed_digest_info := {|
    crypto_hash := sdi_digest;
    signing_message := λ i, Some [sdi_digest i; sdi_num_txns i; sdi_num_bytes i] |};
  accumulator_node_hash := λ l r, 1 + 2 * l + 3 * r;
|}.

#[local] Existing Instance sample_bls.
#[local] Existing Instance sample_hashes.

(** Signed by the validators 1, 2 and 4. *)
Definition sample_multi_signature {A} `{!CryptoHash A} (m : A) : AggregateSignature :=
  mkAggregateSignature (mkBitVec [208])
    (Some (sample_digest (default [] (signing_message m)) * (11 + 12 + 14))).
Definition sample_block_info (epoch round : N) : BlockInfo :=
  mkBlockInfo epoch round (round + 1) ACCUMULATOR_PLACEHOLDER_HASH 0 5 None.
(** A certificate for round [round], whose parent is of the round before. *)
Definition sample_qc (epoch round : N) : QuorumCert :=
  let vd := mkVoteData (sample_block_info epoch round) (sample_block_info epoch (round - 1)) in
  let li := mkLedgerInfo (sample_block_info epoch (round - 1)) (crypto_hash vd) in
  mkQuorumCert vd (mkLIWS li (sample_multi_signature li)).
Definition sample_genesis_qc (epoch : N) : QuorumCert :=
  let vd := mkVoteData (sample_block_info epoch 0) (sample_block_info epoch 0) in
  mkQuorumCert vd (mkLIWS (mkLedgerInfo (sample_block_info epoch 0) (crypto_hash vd))
    aggregate_signature_empty).
(** A certificate that epoch and round timed out with QCs of round [hqc]. *)
Definition sample_tc (epoch round hqc : N) : TwoChainTimeoutCertificate :=
  let msg := default [] (signing_message (mkTimeoutSigningRepr epoch round hqc)) in
  mkTC (mkTwoChainTimeout epoch round (sample_qc epoch hqc))
    (mkASWR (mkAggregateSignature (mkBitVec [208]) (Some (sample_digest msg * (11 + 12 + 14))))
       [hqc; hqc; hqc]).
