(* ===== verification/Timeouts.v ===== *)
(** * From partial timeouts to a certificate (consensus-types, timeout_2chain.rs)

    Timeouts collected one by one, aggregated and verified: the rounds are listed by
    validator index while the signatures are collected by address, and the certificate
    must pair every voter with the round it signed. *)
From S2P Require Import Prelude BitVec Crypto ValidatorVerifier LedgerInfo ConsensusTypes.
Local Open Scope N_scope.

(** ** Sorted lists of indices *)

Lemma sorted_seqN start len : StronglySorted N.le (seqN start len).
Proof.
  induction len as [|len IH] using N.peano_ind; [constructor|].
  rewrite <-N.add_1_r, seqN_succ_r. apply StronglySorted_app_2; [|done|repeat constructor].
  intros x y Hx%elem_of_seqN [->|[]%not_elem_of_nil]%elem_of_cons. lia.
Qed.
Lemma sorted_filter (P : N → Prop) `{!∀ x, Decision (P x)} l :
  StronglySorted N.le l → StronglySorted N.le (filter P l).
Proof.
  induction 1 as [|x l Hl IH Hx]; [constructor|]. rewrite filter_cons. destruct (decide (P x)); [|done].
  constructor; [done|]. apply Forall_forall. intros y [_ Hy]%list_elem_of_filter.
  rewrite Forall_forall in Hx. auto.
Qed.
(** Two increasing lists without repetitions and with the same elements are equal. *)
Lemma sorted_ext (l k : list N) :
  StronglySorted N.le l → StronglySorted N.le k → NoDup l → NoDup k →
  (∀ x, x ∈ l ↔ x ∈ k) → l = k.
Proof.
  intros Hl Hk Hnl Hnk Hx. assert (AntiSymm (=) N.le) by (intros x y; lia).
  apply (StronglySorted_unique N.le); [done|done|]. by apply NoDup_Permutation.
Qed.

(** ** The voters of a mask, in order *)

Lemma seqN_cons i n : seqN i (1 + n) = i :: seqN (i + 1) n.
Proof.
  rewrite seqN_app, <-(N.add_0_l 1), seqN_succ_r, seqN_0, N.add_0_r. done.
Qed.

Lemma filter_voters_spec mask l : ∀ i,
  filter_voters mask i l =
  omap (λ j, l !! N.to_nat (j - i)) (filter (λ j, bv_is_set mask (j mod 2 ^ 16)) (seqN i (lenN l))).
Proof.
  induction l as [|x l IH]; intros i; [done|]. cbn [filter_voters].
  replace (lenN (x :: l)) with (1 + lenN l) by (unfold lenN; cbn [length]; lia).
  rewrite seqN_cons, filter_cons.
  assert (omap (λ j, (x :: l) !! N.to_nat (j - i))
    (filter (λ j, bv_is_set mask (j mod 2 ^ 16)) (seqN (i + 1) (lenN l))) =
    filter_voters mask (i + 1) l) as Hrest.
  { rewrite IH. apply list_omap_ext, Forall2_same_length_lookup_2; [done|].
    intros k j j' Hj Hj'. assert (j = j') as <- by congruence.
    apply list_elem_of_lookup_2, list_elem_of_filter in Hj as [_ Hj%elem_of_seqN].
    replace (N.to_nat (j - i)) with (S (N.to_nat (j - (i + 1)))) by lia. done. }
  destruct (bv_is_set mask (i mod 2 ^ 16)) eqn:Hset.
  - rewrite decide_True by done. cbn [omap list_omap]. rewrite N.sub_diag. cbn.
    by rewrite <-Hrest.
  - rewrite decide_False by (by intros []). done.
Qed.

Lemma voter_addresses_spec v s infos :
  verifier_len v < 2 ^ 16 → check_num_of_voters (len_u16 v) (validator_bitmask s) = Ok tt →
  validators_at v (bv_iter_ones (validator_bitmask s)) = Ok infos →
  get_voter_addresses s (get_ordered_account_addresses v) = addresses infos.
Proof.
  intros Hlen Hnum Hat. apply validators_at_Ok in Hat. unfold get_voter_addresses.
  rewrite filter_voters_spec.
  assert (lenN (get_ordered_account_addresses v) = verifier_len v) as ->.
  { unfold get_ordered_account_addresses, verifier_len, lenN. by rewrite length_fmap. }
  assert (filter (λ j, bv_is_set (validator_bitmask s) (j mod 2 ^ 16)) (seqN 0 (verifier_len v)) =
    bv_iter_ones (validator_bitmask s)) as ->.
  { apply sorted_ext.
    - apply sorted_filter, sorted_seqN.
    - apply sorted_filter, sorted_seqN.
    - apply NoDup_filter, NoDup_seqN.
    - apply NoDup_bv_iter_ones.
    - intros j. unfold bv_iter_ones. rewrite !list_elem_of_filter, !elem_of_seqN.
      assert (bv_num_buckets (validator_bitmask s) = required_buckets (verifier_len v)) as Hb.
      { unfold check_num_of_voters, len_u16 in Hnum. rewrite N.mod_small in Hnum by done.
        destruct (N.eqb_spec (bv_num_buckets (validator_bitmask s))
          (required_buckets (verifier_len v))); [done|done]. }
      split; intros [Hj Hjr]; (split; [done|]).
      + unfold bv_num_buckets in Hb. rewrite Hb. unfold required_buckets, u64_checked_sub, BUCKET_SIZE.
        case_N; dlia.
      + assert (j ∈ bv_iter_ones (validator_bitmask s)) as Hin
          by (apply list_elem_of_filter; by rewrite elem_of_seqN).
        apply list_elem_of_lookup in Hin as [k Hk].
        destruct (Forall2_lookup_l _ _ _ _ _ Hat Hk) as (x & _ & Hx).
        apply lookup_lt_Some in Hx. unfold verifier_len, lenN. lia. }
  unfold get_ordered_account_addresses, addresses.
  induction Hat as [|i x idx infos Hi _ IH]; [done|]. cbn [omap list_omap].
  rewrite N.sub_0_r, list_lookup_fmap, Hi. cbn. f_equal. exact IH.
Qed.

(** ** Collecting *)

(** The loop of [get_partial_sig_with_rounds] over known validators. *)
Lemma partial_sig_with_rounds_loop_spec index l : ∀ ps0 R0,
  NoDup l.*1 → (∀ a, a ∈ l.*1 → ps0 !! a = None) →
  (∀ a, a ∈ l.*1 → is_Some (index !! a)) →
  (∀ a b j, a ∈ l.*1 → b ∈ l.*1 → index !! a = Some j → index !! b = Some j → a = b) →
  (∀ a j, a ∈ l.*1 → index !! a = Some j → R0 !! N.of_nat j = None) →
  let '(ps, R) := partial_sig_with_rounds_loop index l ps0 R0 in
  (∀ a s, ps !! a = Some s ↔ ps0 !! a = Some s ∨ ∃ r, (a, (r, s)) ∈ l) ∧
  (∀ i r, R !! i = Some r ↔ R0 !! i = Some r ∨
     ∃ a s, (a, (r, s)) ∈ l ∧ index !! a = Some (N.to_nat i)).
Proof.
  induction l as [|[a [r s]] l IH]; intros ps0 R0 Hnd Hps Hidx Hinj HR; cbn [partial_sig_with_rounds_loop].
  { split; intros; split; auto; intros [?|(x & Hx)]; try done.
    - by apply not_elem_of_nil in Hx.
    - destruct Hx as (? & Hx & _). by apply not_elem_of_nil in Hx. }
  rewrite fmap_cons in *. apply NoDup_cons in Hnd as [Hna Hnd]. cbn [fst] in *.
  assert (a ∈ a :: l.*1) as Ha by by left.
  assert (∀ b, b ∈ l.*1 → b ∈ a :: l.*1) as Hsub by by right.
  destruct (Hidx a Ha) as [j Hj]. rewrite Hj. unfold add_signature. rewrite (Hps a Ha).
  specialize (IH (<[a := s]> ps0) (<[N.of_nat j := r]> R0) Hnd).
  destruct (partial_sig_with_rounds_loop index l _ _) as [ps R].
  destruct IH as [IH1 IH2].
  - intros b Hb. rewrite lookup_insert_ne by (intros ->; done). auto.
  - auto.
  - eauto.
  - intros b j' Hb Hj'. rewrite lookup_insert_ne; [eauto|]. intros ->%Nat2N.inj.
    by rewrite (Hinj a b j' Ha (Hsub b Hb) Hj Hj') in Hna.
  - split.
    + intros b s'. rewrite IH1. setoid_rewrite elem_of_cons. destruct (decide (a = b)) as [<-|Hab].
      * rewrite lookup_insert_eq. rewrite (Hps a Ha). split; [|naive_solver].
        intros [[= <-]|(r' & Hr')]; [right; exists r; by left|].
        by apply (list_elem_of_fmap_2 fst) in Hr'.
      * rewrite lookup_insert_ne by done. naive_solver.
    + intros i r'. rewrite IH2. setoid_rewrite elem_of_cons.
      destruct (decide (N.of_nat j = i)) as [<-|Hij].
      * rewrite lookup_insert_eq, (HR a j Ha Hj), Nat2N.id. split; [naive_solver|].
        intros [?|(b & s' & [?|Hin] & Hb)]; [done|by simplify_eq; left|].
        right. by exists b, s'.
      * rewrite lookup_insert_ne by done. split; [naive_solver|].
        intros [?|(b & s' & [?|Hin] & Hb)]; [by left| |right; by exists b, s'].
        simplify_eq. by rewrite N2Nat.id in Hij.
Qed.

(** The timeouts in the order in which they were added. *)
Abbreviation added := (list (Author * TwoChainTimeout * Signature)) (only parsing).

Definition tps_add_all (first : TwoChainTimeout) (adds : added) : TwoChainTimeoutWithPartialSignatures :=
  foldl (λ p x, tps_add p x.1.1 x.1.2 x.2) (tps_new first) adds.

(** One entry per author, and the timeout with the highest QC round. *)
Lemma tps_add_all_spec a0 t0 s0 (rest : added) :
  let adds := (a0, t0, s0) :: rest in
  NoDup (adds.*1.*1) →
  let p := tps_add_all t0 adds in
  (∀ a r s, tps_signatures p !! a = Some (r, s) ↔ ∃ t, (a, t, s) ∈ adds ∧ r = hqc_round t) ∧
  (∃ a s, (a, tps_timeout p, s) ∈ adds) ∧
  (∀ a t s, (a, t, s) ∈ adds → hqc_round t ≤ hqc_round (tps_timeout p)).
Proof.
  cbn zeta. induction rest as [|[[a1 t1] s1] rest IH] using rev_ind; intros Hnd.
  { cbn. rewrite N.ltb_irrefl. cbn. split; [|split].
    - intros a r s. unfold pswr_add_signature. rewrite lookup_empty, lookup_insert_Some, lookup_empty.
      setoid_rewrite list_elem_of_singleton. naive_solver.
    - exists a0, s0. by left.
    - intros a t s Ht%list_elem_of_singleton. by simplify_eq. }
  rewrite app_comm_cons in *. set (adds := (a0, t0, s0) :: rest) in *.
  rewrite !fmap_app in Hnd. apply NoDup_app in Hnd as (Hnd & Hdisj & _).
  destruct (IH Hnd) as (IH1 & IH2 & IH3). clear IH.
  unfold tps_add_all in *. rewrite foldl_app. cbn [foldl fst snd].
  set (p := foldl _ _ adds) in *. clearbody adds.
  assert (tps_signatures p !! a1 = None) as Hfresh.
  { destruct (tps_signatures p !! a1) as [[r s]|] eqn:E; [|done].
    apply IH1 in E as (t & Hin & _). exfalso. apply (Hdisj a1); [|by left].
    apply list_elem_of_fmap. exists (a1, t). split; [done|]. apply list_elem_of_fmap. by exists (a1, t, s). }
  unfold tps_add, pswr_add_signature. rewrite Hfresh. cbn. setoid_rewrite elem_of_app.
  setoid_rewrite list_elem_of_singleton. split; [|split].
  - intros a r s. rewrite lookup_insert_Some, IH1. split.
    + intros [[-> ?]|[? (t & ? & ?)]]; [simplify_eq; naive_solver|naive_solver].
    + intros (t & [Hin|?] & ->); [|naive_solver]. right. split; [|eauto].
      intros <-. apply (Hdisj a1); [|by left]. apply list_elem_of_fmap. exists (a1, t).
      split; [done|]. apply list_elem_of_fmap. by exists (a1, t, s).
  - destruct (N.ltb_spec (hqc_round (tps_timeout p)) (hqc_round t1)); [eauto|].
    destruct IH2 as (a & s & Hin). eauto.
  - intros a t s [Hin|?]; [apply IH3 in Hin|simplify_eq];
      destruct (N.ltb_spec (hqc_round (tps_timeout p)) (hqc_round t1)); lia.
Qed.

(** ** Aggregating *)

Section aggregate.
Context `{!Bls} `{!ArxHashes}.

(** What blst documents of aggregates over several messages: valid signatures
    aggregate, in any order, to one that verifies against the messages and keys. *)
Definition bls_multi_correct : Prop := ∀ (l : list (Signature * Msg * PublicKey)) sigs,
  l ≠ [] → Forall (λ x, bls_verify x.1.1 x.1.2 x.2 = true) l → sigs ≡ₚ l.*1.*1 →
  ∃ agg, bls_aggregate_sigs sigs = Some agg ∧ bls_verify_aggregate agg l.*1.*2 l.*2 = true.

Lemma max_round_spec rounds m :
  m ∈ rounds → (∀ r, r ∈ rounds → r ≤ m) → max_round rounds = Some m.
Proof.
  destruct rounds as [|r0 rounds]; [by intros ?%not_elem_of_nil|]. cbn [max_round]. intros Hm Hle.
  destruct (foldl_max_ge rounds r0) as [H1 H2].
  assert (∀ l x, foldl N.max x l = x ∨ foldl N.max x l ∈ l) as Hin.
  { clear. induction l as [|y l IH]; intros x; cbn; [by left|].
    destruct (IH (N.max x y)) as [->|?]; [|right; by right].
    destruct (N.max_spec x y) as [[_ ->]|[_ ->]]; [right; by left|by left]. }
  f_equal. apply N.le_antisymm.
  - apply Hle. destruct (Hin rounds r0) as [->|?]; [by left|by right].
  - apply elem_of_cons in Hm as [->|Hm]; auto.
Qed.

Section certificate.
Context (v : ValidatorVerifier) (epoch round : N)
  (signatures : gmap AccountAddress (Round * Signature)).
Hypothesis Hwf : verifier_wf v.
Hypothesis Hlen : verifier_len v < 2 ^ 16.
Hypothesis Hsigned : ∀ a r s, signatures !! a = Some (r, s) →
  verifier_verify v a (mkTimeoutSigningRepr epoch round r) s = Ok tt.

Lemma signer_known a : is_Some (signatures !! a) → known v a.
Proof.
  intros [[r s] Ha%Hsigned]. unfold verifier_verify, get_public_key in Ha.
  destruct (validator_info v a) as [x|] eqn:Hx; [|done].
  apply validator_info_Some in Hx as [Hin <-]; [|done]. by apply list_elem_of_fmap_2.
Qed.
Lemma index_of_info (j : nat) info :
  validator_infos v !! j = Some info → address_to_validator_index v !! vci_address info = Some j.
Proof.
  intros Hj. rewrite (wf_index v Hwf). by rewrite (index_addresses_in _ _ _ j info) by (done || apply Hwf).
Qed.
Lemma info_of_index a j :
  known v a → address_to_validator_index v !! a = Some j →
  ∃ info, validator_infos v !! j = Some info ∧ vci_address info = a.
Proof.
  intros Ha Hj. destruct (known_index v a Hwf Ha) as (j' & info & Hj' & Hi & Hia & _).
  simplify_eq. eauto.
Qed.

(** Both halves of [get_partial_sig_with_rounds]. *)
Lemma get_partial_sig_with_rounds_spec :
  ∃ ps R, get_partial_sig_with_rounds signatures (address_to_validator_index v) =
      (ps, (btree_iter R).*2) ∧
    (∀ a s, ps !! a = Some s ↔ ∃ r, signatures !! a = Some (r, s)) ∧
    (∀ i r, R !! i = Some r ↔ ∃ a s, signatures !! a = Some (r, s) ∧
       address_to_validator_index v !! a = Some (N.to_nat i)).
Proof.
  unfold get_partial_sig_with_rounds.
  pose proof (partial_sig_with_rounds_loop_spec (address_to_validator_index v)
    (btree_iter signatures) partial_signatures_empty ∅) as Hloop.
  destruct (partial_sig_with_rounds_loop _ _ _ _) as [ps R]. exists ps, R. split; [done|].
  assert (∀ a, a ∈ (btree_iter signatures).*1 → known v a) as Hk.
  { intros a Ha%elem_of_btree_keys. by apply signer_known. }
  destruct Hloop as [H1 H2].
  - apply NoDup_fst_btree_iter.
  - intros a _. apply lookup_empty.
  - intros a Ha%Hk. destruct (known_index v a Hwf Ha) as (j & _ & Hj & _). by exists j.
  - intros a b j Ha%Hk Hb%Hk Hja Hjb. destruct (info_of_index a j Ha Hja) as (x & Hx & <-).
    destruct (info_of_index b j Hb Hjb) as (y & Hy & <-). by simplify_eq.
  - intros a j _ _. apply lookup_empty.
  - split.
    + intros a s. rewrite H1. setoid_rewrite elem_of_btree_iter. unfold partial_signatures_empty.
      rewrite lookup_empty. naive_solver.
    + intros i r. rewrite H2, lookup_empty. setoid_rewrite elem_of_btree_iter. naive_solver.
Qed.

(** The mask's indices are the keys of the rounds. *)
Lemma mask_indices masks infos (ps : gmap AccountAddress Signature) (R : gmap N Round) :
  validators_at v (bv_iter_ones masks) = Ok infos →
  voters v (mkAggregateSignature masks None) = dom ps →
  (∀ a s, ps !! a = Some s ↔ ∃ r, signatures !! a = Some (r, s)) →
  (∀ i r, R !! i = Some r ↔ ∃ a s, signatures !! a = Some (r, s) ∧
     address_to_validator_index v !! a = Some (N.to_nat i)) →
  bv_iter_ones masks = (btree_iter R).*1.
Proof.
  intros Hat Hvot Hps HR. pose proof (validators_at_voters v (mkAggregateSignature masks None) infos Hat) as Hvot'.
  apply validators_at_Ok in Hat. apply sorted_ext.
  - apply sorted_filter, sorted_seqN.
  - apply sorted_btree_iter.
  - apply NoDup_bv_iter_ones.
  - apply NoDup_fst_btree_iter.
  - intros i. rewrite elem_of_btree_keys. split.
    + intros [k Hk]%list_elem_of_lookup. destruct (Forall2_lookup_l _ _ _ _ _ Hat Hk) as (x & Hx & Hi).
      assert (vci_address x ∈ dom ps) as [s Hs]%elem_of_dom.
      { rewrite <-Hvot, Hvot', elem_of_list_to_set. apply list_elem_of_fmap_2.
        by eapply list_elem_of_lookup_2. }
      apply Hps in Hs as [r Hr]. exists r. apply HR. exists (vci_address x), s. split; [done|].
      by apply index_of_info.
    + intros [r (a & s & Ha & Hj)%HR]. assert (a ∈ dom ps) as Hd.
      { apply elem_of_dom. exists s. apply Hps. eauto. }
      rewrite <-Hvot, Hvot', elem_of_list_to_set in Hd. apply list_elem_of_fmap in Hd as (x & -> & Hx).
      apply list_elem_of_lookup in Hx as [k Hk].
      destruct (Forall2_lookup_r _ _ _ _ _ Hat Hk) as (i' & Hi' & Hx).
      apply index_of_info in Hx. rewrite Hj in Hx. simplify_eq. by eapply list_elem_of_lookup_2.
Qed.

Lemma pair_by_index {A B C} (P : A → B → Prop) (Q : A → C → Prop) (T : B → C → Prop) l k m :
  Forall2 P l k → Forall2 Q l m → (∀ x y z, P x y → Q x z → T y z) → Forall2 T k m.
Proof.
  intros HP. revert m. induction HP as [|x y l k Hx _ IH]; intros m HQ HT;
    inversion HQ; subst; constructor; eauto.
Qed.

(** Signature, message and key of every voter, in the order of the mask. *)
Lemma signed_entries infos rounds :
  Forall2 (λ info r, info ∈ validator_infos v ∧ ∃ s, signatures !! vci_address info = Some (r, s)) infos rounds →
  ∃ l : list (Signature * Msg * PublicKey),
    l.*2 = vci_public_key <$> infos ∧
    mapM signing_message ((λ r, mkTimeoutSigningRepr epoch round r) <$> rounds) = Some l.*1.*2 ∧
    Forall (λ x, bls_verify x.1.1 x.1.2 x.2 = true) l ∧
    Forall2 (λ info x, ∃ r, signatures !! vci_address info = Some (r, x.1.1)) infos l.
Proof.
  induction 1 as [|info r infos rounds (Hin & s & Hs) _ IH].
  { exists []. split; [done|]. split; [done|]. by split; constructor. }
  destruct IH as (l & H1 & H2 & H3 & H4). pose proof (Hsigned _ _ _ Hs) as Hv.
  unfold verifier_verify, get_public_key in Hv.
  rewrite (proj2 (validator_info_Some v (vci_address info) info Hwf)) in Hv by done. cbn in Hv.
  apply ensure_Ok in Hv. unfold signature_verify in Hv.
  destruct (signing_message (mkTimeoutSigningRepr epoch round r)) as [bytes|] eqn:Hb; [|done].
  exists ((s, bytes, vci_public_key info) :: l). rewrite !fmap_cons. cbn [mapM fst snd].
  rewrite Hb, H2, H1. split; [done|]. split; [done|]. split; [by constructor|].
  constructor; [|done]. by exists r.
Qed.

(** The signatures, collected by address, are those of the entries. *)
Lemma entries_perm infos (l : list (Signature * Msg * PublicKey)) (ps : gmap AccountAddress Signature) :
  NoDup (addresses infos) → (list_to_set (addresses infos) : gset AccountAddress) = dom ps →
  (∀ a s, ps !! a = Some s ↔ ∃ r, signatures !! a = Some (r, s)) →
  Forall2 (λ info x, ∃ r, signatures !! vci_address info = Some (r, x.1.1)) infos l →
  (btree_iter ps).*2 ≡ₚ l.*1.*1.
Proof.
  intros Hnd Hdom Hps Hf.
  assert (length (addresses infos) = length l.*1.*1) as Hl
    by (unfold addresses; rewrite !length_fmap; by eapply Forall2_length).
  assert (btree_iter ps ≡ₚ zip (addresses infos) l.*1.*1) as ->.
  2:{ by rewrite snd_zip by lia. }
  apply NoDup_Permutation.
  - eapply NoDup_fmap_1, NoDup_fst_btree_iter.
  - eapply (NoDup_fmap_1 fst). by rewrite fst_zip by lia.
  - intros [a s]. rewrite elem_of_btree_iter, list_elem_of_lookup. split.
    + intros Ha. assert (a ∈ addresses infos) as [k Hk]%list_elem_of_lookup.
      { apply (elem_of_list_to_set (C := gset AccountAddress)). rewrite Hdom. by apply elem_of_dom. }
      exists k. unfold addresses in *. rewrite list_lookup_fmap in Hk.
      destruct (infos !! k) as [x|] eqn:Hx; [|done]. injection Hk as <-.
      destruct (Forall2_lookup_l _ _ _ _ _ Hf Hx) as ([[s' b] pk] & Hy & r & Hr).
      apply Hps in Ha as [r' Hr']. simplify_eq/=.
      apply lookup_zip_with_Some. exists (vci_address x), s. rewrite !list_lookup_fmap, Hx, Hy. done.
    + intros [k (a' & s' & [= <- <-] & Ha & Hs)%lookup_zip_with_Some].
      unfold addresses in Ha. rewrite !list_lookup_fmap in *.
      destruct (infos !! k) as [x|] eqn:Hx; [|done]. destruct (l !! k) as [y|] eqn:Hy; [|done].
      simplify_eq/=. apply Hps. by apply (Forall2_lookup_lr _ _ _ _ _ _ Hf Hx Hy).
Qed.

(** What aggregation and verification compute, given the pieces above. *)
Lemma certificate_pieces :
  bls_multi_correct → signatures ≠ ∅ →
  quorum_voting_power v ≤ set_power (validator_infos v) (dom signatures) →
  ∃ masks sig infos rounds,
    (∀ t, tps_aggregate_signatures (mkTimeoutWithPartial t signatures) v =
       Ok (mkTC t (mkASWR (mkAggregateSignature masks (Some sig)) rounds))) ∧
    voters v (mkAggregateSignature masks (Some sig)) = dom signatures ∧
    get_voter_addresses (mkAggregateSignature masks (Some sig)) (get_ordered_account_addresses v) =
      addresses infos ∧
    length infos = length rounds ∧
    (∀ r, r ∈ rounds ↔ ∃ a s, signatures !! a = Some (r, s)) ∧
    verify_aggregate_signatures v ((λ r, mkTimeoutSigningRepr epoch round r) <$> rounds)
      (mkAggregateSignature masks (Some sig)) = Ok tt.
Proof.
  intros Hbls Hne Hq. destruct get_partial_sig_with_rounds_spec as (ps & R & Hget & Hps & HR).
  assert (dom ps = dom signatures) as Hdom.
  { apply set_eq. intros a. rewrite !elem_of_dom. split.
    - intros [s [r Hr]%Hps]. by exists (r, s).
    - intros [[r s] Hr]. exists s. apply Hps. eauto. }
  assert (∀ a, a ∈ dom ps → known v a) as Hknown.
  { intros a Ha. apply signer_known. by rewrite Hdom, elem_of_dom in Ha. }
  destruct (aggregate_mask v ps Hwf Hlen Hknown) as (masks & Hcol & Hmwf & Hmask).
  destruct (Hmask None) as (Hnum & Hvot & infos & Hat).
  pose proof (mask_indices masks infos ps R Hat Hvot Hps HR) as Hidx.
  pose proof (validators_at_voters v (mkAggregateSignature masks None) infos Hat) as Hvot'.
  pose proof (validators_at_NoDup v _ _ Hwf (NoDup_bv_iter_ones masks) Hat) as Hnd.
  pose proof (proj1 (validators_at_Ok v _ _) Hat) as Hf. pose proof (btree_iter_values R) as HfR.
  rewrite <-Hidx in HfR.
  assert (Forall2 (λ info r, info ∈ validator_infos v ∧
    ∃ s, signatures !! vci_address info = Some (r, s)) infos (btree_iter R).*2) as Hpair.
  { apply (pair_by_index _ _ _ _ _ _ Hf HfR). intros i info r Hi (a & s & Ha & Hj)%HR.
    split; [by eapply list_elem_of_lookup_2|]. exists s.
    destruct (info_of_index a _ (signer_known a (ltac:(by eexists))) Hj) as (x & Hx & <-).
    by simplify_eq. }
  destruct (signed_entries infos (btree_iter R).*2 Hpair) as (l & Hl1 & Hl2 & Hl3 & Hl4).
  destruct (Hbls l (btree_iter ps).*2) as (sig & Hsig & Hver); [|done| |].
  { intros ->. apply Forall2_nil_inv_r in Hl4 as ->. apply Hne, dom_empty_inv_L.
    rewrite <-Hdom, <-Hvot, Hvot'. done. }
  { eapply entries_perm; try done. by rewrite <-Hvot', Hvot. }
  exists masks, sig, infos, (btree_iter R).*2. split; [|split; [|split; [|split; [|split]]]].
  - intros t. unfold tps_aggregate_signatures. cbn [tps_signatures tps_timeout]. rewrite Hget.
    unfold aggregate_signatures. rewrite Hcol. run_ok. rewrite Hsig. run_ok. unfold aswr_new, get_num_voters.
    cbn [validator_bitmask]. rewrite bv_count_ones_length by done.
    rewrite (proj2 (N.eqb_eq _ _)); [done|]. unfold lenN. f_equal. by eapply Forall2_length.
  - rewrite <-Hdom. apply (Hmask (Some sig)).
  - by apply voter_addresses_spec.
  - by eapply Forall2_length.
  - intros r. split.
    + intros Hr. apply list_elem_of_fmap in Hr as ([i r'] & -> & Hr%elem_of_btree_iter).
      apply HR in Hr as (a & s & Ha & _). eauto.
    + intros (a & s & Ha). destruct (known_index v a Hwf (signer_known a (ltac:(by eexists)))) as (j & _ & Hj & _).
      apply list_elem_of_fmap. exists (N.of_nat j, r). split; [done|]. apply elem_of_btree_iter, HR.
      exists a, s. by rewrite Nat2N.id.
  - unfold verify_aggregate_signatures. cbn [validator_bitmask agg_sig]. rewrite Hnum. run_ok.
    rewrite Hat. run_ok. rewrite check_voting_power_known; [run_ok|done|done| |].
    + unfold signature_verify_aggregate. rewrite Hl2, <-Hl1, Hver. done.
    + intros a Ha. apply Hknown. rewrite <-Hvot, Hvot'. by apply elem_of_list_to_set.
    + fold (addresses infos). rewrite <-Hvot', Hvot, Hdom. done.
Qed.
End certificate.

Lemma tps_add_all_dom a0 t0 s0 (rest : added) :
  let adds := (a0, t0, s0) :: rest in
  NoDup adds.*1.*1 → dom (tps_signatures (tps_add_all t0 adds)) = list_to_set adds.*1.*1.
Proof.
  intros adds Hnd. destruct (tps_add_all_spec a0 t0 s0 rest Hnd) as (Hsigs & _). fold adds in Hsigs.
  clearbody adds. apply set_eq. intros a.
  rewrite elem_of_dom, elem_of_list_to_set, list_elem_of_fmap. split.
  - intros [[r s] (t & Hin & _)%Hsigs]. exists (a, t). split; [done|].
    apply list_elem_of_fmap. by exists (a, t, s).
  - intros ([a' t] & -> & ([[a'' t'] s] & [= -> ->] & Hin)%list_elem_of_fmap).
    exists (hqc_round t', s). apply Hsigs. eauto.
Qed.

(** Timeouts of one round that verify, from distinct validators holding a quorum,
    aggregate to a timeout certificate that verifies, for that epoch and round, whose
    voters are exactly their authors. *)
Lemma tc_aggregate_roundtrip v epoch round a0 t0 s0 (rest : added)
    (Hbls : bls_multi_correct) (Hwf : verifier_wf v) (Hlen : verifier_len v < 2 ^ 16)
    (Hnd : NoDup (((a0, t0, s0) :: rest).*1.*1))
    (Hall : ∀ a t s, (a, t, s) ∈ (a0, t0, s0) :: rest → to_epoch t = epoch ∧ to_round t = round ∧
       timeout_verify t v = Ok tt ∧ verifier_verify v a (signing_format t) s = Ok tt)
    (Hq : quorum_voting_power v ≤
       set_power (validator_infos v) (list_to_set (((a0, t0, s0) :: rest).*1.*1))) :
  ∃ tc, tps_aggregate_signatures (tps_add_all t0 ((a0, t0, s0) :: rest)) v = Ok tc ∧
    tc_verify tc v = Ok tt ∧ tc_epoch tc = epoch ∧ tc_round tc = round ∧
    voters v (aswr_sig (tc_signatures_with_rounds tc)) = list_to_set (((a0, t0, s0) :: rest).*1.*1).
Proof.
  destruct (tps_add_all_spec a0 t0 s0 rest Hnd) as (Hsigs & (am & sm & Hmax) & Hle).
  set (adds := (a0, t0, s0) :: rest) in *. set (p := tps_add_all t0 adds) in *.
  assert (∀ a r s, tps_signatures p !! a = Some (r, s) →
    verifier_verify v a (mkTimeoutSigningRepr epoch round r) s = Ok tt) as Hsigned.
  { intros a r s (t & Hin & ->)%Hsigs. destruct (Hall a t s Hin) as (He & Hr & _ & Hv).
    unfold signing_format in Hv. by rewrite He, Hr in Hv. }
  pose proof (tps_add_all_dom a0 t0 s0 rest Hnd) as Hdom. cbv zeta in Hdom. fold adds p in Hdom.
  destruct (Hall am _ sm Hmax) as (He & Hr & Htv & _).
  destruct (certificate_pieces v epoch round (tps_signatures p) Hwf Hlen Hsigned Hbls)
    as (masks & sig & infos & rounds & Hagg & Hvot & Haddr & Hlength & Hrounds & Hver).
  { intros Hempty. assert (tps_signatures p !! am = Some (hqc_round (tps_timeout p), sm)) as Hs
      by (apply Hsigs; eauto). by rewrite Hempty, lookup_empty in Hs. }
  { by rewrite Hdom. }
  exists (mkTC (tps_timeout p) (mkASWR (mkAggregateSignature masks (Some sig)) rounds)).
  split; [rewrite <-(Hagg (tps_timeout p)); by destruct p|]. split; [|split; [done|]; split; [done|]; by rewrite <-Hdom].
  unfold tc_verify, get_voters_and_rounds. cbn [tc_timeout tc_signatures_with_rounds aswr_sig aswr_rounds].
  rewrite Htv. run_ok. rewrite Haddr, He, Hr.
  assert ((λ vr : AccountAddress * Round, mkTimeoutSigningRepr epoch round vr.2) <$>
    zip (addresses infos) rounds = (λ r, mkTimeoutSigningRepr epoch round r) <$> rounds) as ->.
  { rewrite <-(snd_zip (addresses infos) rounds) at 2
      by (unfold addresses; rewrite length_fmap; lia). by rewrite <-list_fmap_compose. }
  rewrite Hver. run_ok.
  rewrite (max_round_spec rounds (hqc_round (tps_timeout p))).
  - run_ok. by rewrite N.eqb_refl.
  - apply Hrounds. exists am, sm. apply Hsigs. eauto.
  - intros r (a & s & (t & Hin & ->)%Hsigs)%Hrounds. eauto.
Qed.
End aggregate.

(** ** The sample validators *)

(** The linear scheme has the property. *)
Lemma sample_bls_multi : @bls_multi_correct sample_bls.
Proof.
  intros l sigs Hne Hl Hperm. cbn [sample_bls bls_aggregate_sigs bls_verify_aggregate bls_verify] in *.
  exists (sum_list_N sigs). split.
  { destruct sigs; [|done]. apply Permutation_nil_l in Hperm. destruct l; [done|discriminate Hperm]. }
  rewrite (sum_list_N_perm _ _ Hperm). apply andb_true_intro. split.
  { unfold lenN. rewrite !length_fmap. apply N.eqb_refl. }
  apply N.eqb_eq. clear Hne Hperm. induction Hl as [|[[s m] k] l Hs _ IH]; [done|].
  apply N.eqb_eq in Hs. rewrite !fmap_cons. simpl in *. rewrite IH, Hs. done.
Qed.

Section sample.
#[local] Existing Instance sample_bls.
#[local] Existing Instance sample_hashes.

(** Round 5 times out: validator 4 knows the certificate of round 3, the others that of
    round 2. *)
Definition sample_timeout (hqc : N) : TwoChainTimeout := mkTwoChainTimeout 1 5 (sample_qc 1 hqc).
Definition sample_timeout_signature (key hqc : N) : Signature :=
  bls_sign key (default [] (signing_message (signing_format (sample_timeout hqc)))).

End sample.
