(* ===== verification/Blocks.v ===== *)
(** * Blocks, votes and retrieved chains (consensus/consensus-types)

    What [Block::verify_well_formed] and [BlockRetrievalResponse::verify] accept, and that
    what a validator signs with its key verifies for the others. *)
From S2P Require Import Prelude BitVec Crypto Accumulator ValidatorVerifier LedgerInfo ConsensusTypes.
Local Open Scope N_scope.

(** ** The rounds of failed authors *)

(** Strictly increasing, above [lo] and below [hi]. *)
Fixpoint rounds_between (lo hi : Round) (rounds : list Round) : Prop :=
  match rounds with
  | [] => True
  | r :: rounds => lo < r < hi ∧ rounds_between r hi rounds
  end.

Lemma check_failed_rounds_Ok lo hi l :
  check_failed_rounds lo hi l = Ok tt ↔ rounds_between lo hi l.*1.
Proof.
  revert lo. induction l as [|[r a] l IH]; intros lo; [done|].
  cbn [check_failed_rounds]. rewrite fmap_cons. cbn [rounds_between fst]. rewrite <-IH, bind_Ok.
  setoid_rewrite ensure_Ok. setoid_rewrite andb_true_iff. setoid_rewrite N.ltb_lt.
  split; [by intros (_ & ? & ?)|by exists tt].
Qed.

(** There is no room for more rounds than were skipped. *)
Lemma rounds_between_length lo hi l : rounds_between lo hi l → lo < hi → lenN l ≤ hi - (lo + 1).
Proof.
  revert lo. induction l as [|r l IH]; intros lo; cbn [rounds_between].
  { unfold lenN. cbn. lia. }
  intros [? Hl%IH] ?; [|lia]. unfold lenN in *. cbn [length]. lia.
Qed.

(** ** Well-formed blocks *)

(** The rounds a block may list as failed end before its own, or with it for a NIL block. *)
Definition failed_bound (b : Block) : Round := block_round b + if block_is_nil_block b then 1 else 0.

Record well_formed (now : N) (b : Block) : Prop := {
  bw_genesis : block_is_genesis_block b = false;
  bw_round : bi_round (certified_block (block_quorum_cert b)) < block_round b;
  bw_epoch : bi_epoch (certified_block (block_quorum_cert b)) = block_epoch b;
  bw_suffix : bi_has_reconfiguration (certified_block (block_quorum_cert b)) = true →
    ∀ p, block_payload b = Some p → payload_is_empty p = true;
  bw_failed : ∀ failed, bd_failed_authors (block_block_data b) = Some failed →
    rounds_between (bi_round (certified_block (block_quorum_cert b))) (failed_bound b) failed.*1;
  bw_timestamp :
    if block_is_nil_block b || bi_has_reconfiguration (certified_block (block_quorum_cert b))
    then block_timestamp_usecs b = bi_timestamp_usecs (certified_block (block_quorum_cert b))
    else bi_timestamp_usecs (certified_block (block_quorum_cert b)) < block_timestamp_usecs b ∧
         block_timestamp_usecs b ≤ u64_saturating_add (now mod 2 ^ 64) TIMEBOUND;
  bw_epoch_end : qc_ends_epoch (block_quorum_cert b) = false;
}.

(** The part of [verify_well_formed] on the failed authors. *)
Lemma failed_authors_check b failed :
  block_round b + 1 < 2 ^ 64 → bi_round (certified_block (block_quorum_cert b)) < block_round b →
  (succ_round ← u64_add (block_round b) (if block_is_nil_block b then 1 else 0);
   parent_succ ← u64_add (bi_round (certified_block (block_quorum_cert b))) 1;
   skipped ← ok_or (u64_checked_sub succ_round parent_succ)
               (fmt "Block round is smaller than block's parent round" []);
   _ ← ensure (lenN failed <=? skipped) (fmt "Block has more failed authors than missed rounds" []);
   check_failed_rounds (bi_round (certified_block (block_quorum_cert b))) succ_round failed) = Ok tt ↔
  rounds_between (bi_round (certified_block (block_quorum_cert b))) (failed_bound b) failed.*1.
Proof.
  intros Hb Hp. unfold failed_bound. set (lo := bi_round _) in *. set (k := if block_is_nil_block b then 1 else 0).
  assert (k ≤ 1) as Hk by (unfold k; case_match; lia). clearbody k lo.
  unfold u64_add. rewrite (proj2 (u64_checked_add_Some (block_round b) k (block_round b + k))) by lia.
  rewrite (proj2 (u64_checked_add_Some lo 1 (lo + 1))) by lia. run_ok.
  rewrite (proj2 (u64_checked_sub_Some (block_round b + k) (lo + 1) (block_round b + k - (lo + 1)))) by lia.
  run_ok. rewrite <-check_failed_rounds_Ok. destruct (N.leb_spec (lenN failed) (block_round b + k - (lo + 1)))
    as [|Hlen]; run_ok; [done|]. split; [done|]. intros Hr%check_failed_rounds_Ok%rounds_between_length; [|lia].
  unfold lenN in *. rewrite length_fmap in Hr. lia.
Qed.

Lemma verify_well_formed_iff now b :
  block_round b + 1 < 2 ^ 64 → verify_well_formed now b = Ok tt ↔ well_formed now b.
Proof.
  intros Hround.   unfold verify_well_formed. cbv zeta. rewrite ensure_bind, negb_true_iff, ensure_bind, N.ltb_lt.
  rewrite ensure_bind, N.eqb_eq, !unit_bind.
  split.
  - intros (H1 & H2 & H3 & H4 & H5 & H6 & H7 & _).
    apply ensure_Ok, negb_true_iff in H7. constructor; try done.
    + intros Hr p Hp. by rewrite Hr, ensure_Ok, Hp in H4.
    + intros failed Hf. rewrite Hf in H5. by apply failed_authors_check.
    + case_match; [by apply ensure_Ok, N.eqb_eq in H6|]. rewrite ensure_bind, ensure_Ok in H6.
      by rewrite N.ltb_lt, N.leb_le in H6.
  - intros [H1 H2 H3 H4 H5 H6 H7]. split_and!; try done.
    + destruct (bi_has_reconfiguration _); [|done]. apply ensure_Ok. destruct (block_payload b); [by apply H4|done].
    + destruct (bd_failed_authors _) as [failed|] eqn:Hf; [|done].
      apply failed_authors_check; auto.
    + case_match; [by apply ensure_Ok, N.eqb_eq|]. rewrite ensure_bind, ensure_Ok.
      by rewrite N.ltb_lt, N.leb_le.
    + by rewrite H7.
Qed.

(** [verify_well_formed] accepts exactly the blocks whose parent is of an earlier round
    of the same epoch, whose failed rounds strictly increase between the two (so that there
    are never more than the rounds skipped), whose timestamp follows the parent's, and that
    do not extend past the end of the epoch; a round below the largest never panics. *)
Theorem verify_well_formed_correct now b (Hround : block_round b + 1 < 2 ^ 64) :
  verify_well_formed now b = Ok tt ↔ well_formed now b.
Proof. by apply verify_well_formed_iff. Qed.

(** ** Retrieved chains *)

(** The ids of a chain of blocks: each block is the parent of the one before it. *)
Fixpoint id_chain (expected : HashValue) (blocks : list Block) : Prop :=
  match blocks with
  | [] => True
  | b :: blocks => block_id b = expected ∧ id_chain (block_parent_id b) blocks
  end.

Section signed.
Context `{!Bls} `{!ArxHashes}.

Lemma verify_block_chain_Ok now v blocks : ∀ expected,
  is_ok (verify_block_chain now expected blocks v) = true ↔
  Forall (λ b, validate_signature b v = Ok tt ∧ verify_well_formed now b = Ok tt) blocks ∧
  id_chain expected blocks.
Proof.
  induction blocks as [|b blocks IH]; intros expected; [done|].
  cbn [verify_block_chain id_chain]. rewrite Forall_cons. rewrite <-(N.eqb_eq (block_id b)).
  destruct (validate_signature b v) as [[]| |]; run_ok; [|naive_solver..].
  destruct (verify_well_formed now b) as [[]| |]; run_ok; [|naive_solver..].
  destruct (block_id b =? expected); run_ok; [|naive_solver]. rewrite IH. naive_solver.
Qed.

(** What a response may claim: all the blocks asked for, or a chain that ends at the target. *)
Definition status_holds (request : BlockRetrievalRequest) (r : BlockRetrievalResponse) : Prop :=
  (brr_status r = Succeeded → lenN (brr_blocks r) = brq_num_blocks request) ∧
  (brr_status r = SucceededWithTarget →
     ∃ b, last (brr_blocks r) = Some b ∧ brq_target_block_id request = Some (block_id b)).

Lemma block_retrieval_iff now r request v
    (Hround : ∀ b, b ∈ brr_blocks r → block_round b + 1 < 2 ^ 64) :
  block_retrieval_response_verify now r request v = Ok tt ↔
  status_holds request r ∧ id_chain (brq_block_id request) (brr_blocks r) ∧
  ∀ b, b ∈ brr_blocks r → validate_signature b v = Ok tt ∧ well_formed now b.
Proof.
  unfold block_retrieval_response_verify, status_holds.
  rewrite !ensure_bind, !orb_true_iff, !negb_true_iff, !bool_decide_eq_false, N.eqb_eq.
  assert (∀ e, (_ ← verify_block_chain now (brq_block_id request) (brr_blocks r) v; Ok tt) = e →
    (e = Ok tt ↔ id_chain (brq_block_id request) (brr_blocks r) ∧
      ∀ b, b ∈ brr_blocks r → validate_signature b v = Ok tt ∧ well_formed now b)) as Hchain.
  { intros e <-. transitivity (is_ok (verify_block_chain now (brq_block_id request) (brr_blocks r) v) = true).
    { destruct (verify_block_chain _ _ _ _); naive_solver. }
    rewrite verify_block_chain_Ok, Forall_forall. split.
    - intros [Hall ?]. split; [done|]. intros b Hb. rewrite <-verify_well_formed_iff by auto. auto.
    - intros [? Hall]. split; [|done]. intros b Hb. rewrite verify_well_formed_iff by auto. auto. }
  rewrite (Hchain _ eq_refl). clear Hchain.
  unfold match_target_id. destruct (last (brr_blocks r)) as [b|], (brq_target_block_id request) as [t|];
    rewrite ?N.eqb_eq; destruct (brr_status r); naive_solver.
Qed.

(** A retrieval response is accepted exactly when its blocks are signed and well formed,
    the first has the id asked for, every other is the parent of the one before it, and the
    status it claims is true of the blocks. *)
Theorem block_retrieval_correct now r request v
    (Hround : ∀ b, b ∈ brr_blocks r → block_round b + 1 < 2 ^ 64) :
  block_retrieval_response_verify now r request v = Ok tt ↔
  status_holds request r ∧ id_chain (brq_block_id request) (brr_blocks r) ∧
  ∀ b, b ∈ brr_blocks r → validate_signature b v = Ok tt ∧ well_formed now b.
Proof. exact (block_retrieval_iff now r request v Hround). Qed.

(** The answer of a malicious peer: one unsigned NIL block of the last round. *)
Definition nil_at_last_round (qc : QuorumCert) : BlockRetrievalResponse :=
  mkBlockRetrievalResponse NotEnoughBlocks [block_new_nil U64_MAX qc []].

(** C37: A peer that is asked for blocks can crash the node that asks: whatever the request, a
    response with one NIL block of the last round on any verified certificate makes
    [BlockRetrievalResponse::verify] overflow in [Block::verify_well_formed], before the id of
    the block is compared with the id asked for. *)
Theorem retrieval_response_panics now v qc request
    (Hqc : quorum_cert_verify qc v = Ok tt)
    (Hround : bi_round (certified_block qc) < U64_MAX) :
  block_retrieval_response_verify now (nil_at_last_round qc) request v = Panic.
Proof.
  unfold block_retrieval_response_verify. cbn [nil_at_last_round brr_status brr_blocks verify_block_chain].
  assert (validate_signature (block_new_nil U64_MAX qc []) v = Ok tt) as -> by exact Hqc.
  unfold verify_well_formed.
  change (block_quorum_cert (block_new_nil U64_MAX qc [])) with qc.
  change (block_round (block_new_nil U64_MAX qc [])) with U64_MAX.
  change (block_epoch (block_new_nil U64_MAX qc [])) with (bi_epoch (certified_block qc)).
  rewrite (proj2 (N.ltb_lt _ _) Hround), !N.eqb_refl. cbn [block_is_genesis_block bd_is_genesis_block
    block_new_nil block_block_data block_data_new_nil bd_block_type negb]. run_ok.
  destruct (bi_has_reconfiguration (certified_block qc)); reflexivity.
Qed.

(** ** What a validator signs verifies *)

(** What blst documents of a signature: it verifies under the key's public key. *)
Definition bls_sign_correct : Prop :=
  ∀ k m, bls_verify (bls_sign k m) m (bls_public_key k) = true.

Lemma signer_verifies {A} `{!CryptoHash A} v signer (m : A) sig :
  bls_sign_correct → get_public_key v (vs_author signer) = Some (validator_signer_public_key signer) →
  validator_signer_sign signer m = Ok sig → verifier_verify v (vs_author signer) m sig = Ok tt.
Proof.
  intros Hbls Hpk. unfold validator_signer_sign, verifier_verify, signature_verify. rewrite Hpk.
  destruct (signing_message m) as [bytes|]; [|done]. run_ok. intros [= <-].
  unfold validator_signer_public_key. by rewrite Hbls.
Qed.

(** What a validator of the verifier produces is accepted by the others: the vote
    [Vote::new] makes for consistent vote data, the same vote with its signed timeout, and
    the block [Block::new_proposal] makes on a verified certificate, which is also what a
    receiver decodes from its data and signature. *)
Theorem signed_messages_verify v signer vd li vote t s payload round timestamp qc failed b
    (Hbls : bls_sign_correct)
    (Hpk : get_public_key v (vs_author signer) = Some (validator_signer_public_key signer))
    (Hvote : vote_new vd (vs_author signer) li signer = Ok vote)
    (Hvd : vote_data_verify vd = Ok tt)
    (Ht : to_epoch t = vote_epoch vote ∧ to_round t = vote_round vote ∧ timeout_verify t v = Ok tt)
    (Hs : timeout_sign t signer = Ok s)
    (Hb : block_new_proposal payload round timestamp qc signer failed = Ok b)
    (Hqc : quorum_cert_verify qc v = Ok tt) :
  vote_verify vote v = Ok tt ∧ vote_verify (add_2chain_timeout vote t s) v = Ok tt ∧
  validate_signature b v = Ok tt ∧ block_deserialize (block_block_data b) (block_signature b) = b.
Proof.
  unfold vote_new in Hvote. inv_ok. destruct Ht as (Hte & Htr & Htv).
  match goal with E : validator_signer_sign _ _ = Ok _ |- _ =>
    apply (signer_verifies v) in E; [|done..]; rename E into Hsig end.
  unfold timeout_sign in Hs. apply (signer_verifies v) in Hs; [|done..].
  subst vote. unfold vote_verify, block_new_proposal, new_proposal_from_block_data in *.
  cbn [vote_new_with_signature add_2chain_timeout vote_ledger_info vote_vote_data vote_author
    vote_signature vote_two_chain_timeout set_consensus_data_hash li_consensus_data_hash] in *.
  rewrite N.eqb_refl, Hsig, Hvd. run_ok. rewrite Htv, Hs.
  unfold vote_epoch, vote_round in *. cbn [vote_vote_data] in *.
  rewrite Hte, Htr, !N.eqb_refl. run_ok. split_and!; [done..| |]; inv_ok; subst b; [|done].
  match goal with E : validator_signer_sign _ _ = Ok _ |- _ => apply (signer_verifies v) in E; [|done..] end.
  unfold validate_signature. cbn. rewrite Hok. run_ok. done.
Qed.
End signed.

(** ** Examples *)

(** A NIL block of round 3 on the certificate of round 1, listing both failed rounds. *)
Definition sample_nil_block : Block :=
  @block_new_nil sample_hashes 3 (sample_qc 1 1) [(2, 1); (3, 2)].

Lemma verify_well_formed_correct_witness :
  verify_well_formed 0 sample_nil_block = Ok tt ↔ well_formed 0 sample_nil_block.
Proof. apply verify_well_formed_correct. vm_compute. done. Defined.

Section sample.
#[local] Existing Instance sample_bls.
#[local] Existing Instance sample_hashes.

Definition sample_retrieval : BlockRetrievalResponse :=
  mkBlockRetrievalResponse Succeeded [sample_nil_block].
Definition sample_request : BlockRetrievalRequest :=
  mkBlockRetrievalRequest (block_id sample_nil_block) 1 None.

Lemma block_retrieval_correct_witness :
  block_retrieval_response_verify 0 sample_retrieval sample_request sample_verifier = Ok tt ∧
  (block_retrieval_response_verify 0 sample_retrieval sample_request sample_verifier = Ok tt ↔
   status_holds sample_request sample_retrieval ∧
   id_chain (brq_block_id sample_request) (brr_blocks sample_retrieval) ∧
   ∀ b, b ∈ brr_blocks sample_retrieval →
     validate_signature b sample_verifier = Ok tt ∧ well_formed 0 b).
Proof.
  split; [vm_compute; done|]. apply block_retrieval_correct.
  intros b ->%list_elem_of_singleton. vm_compute. done.
Defined.

Lemma retrieval_response_panics_witness :
  block_retrieval_response_verify 0 (nil_at_last_round (sample_qc 1 1)) sample_request
    sample_verifier = Panic.
Proof. apply retrieval_response_panics; vm_compute; reflexivity. Defined.

Lemma sample_bls_sign : bls_sign_correct.
Proof. intros k m. apply N.eqb_refl. Qed.

Definition sample_signer : ValidatorSigner := mkValidatorSigner 1 11.
Definition sample_vote_data : VoteData :=
  mkVoteData (sample_block_info 1 2) (sample_block_info 1 1).
Definition sample_li : LedgerInfo := mkLedgerInfo (sample_block_info 1 1) 0.

Lemma signed_messages_verify_witness :
  match vote_new sample_vote_data 1 sample_li sample_signer,
        timeout_sign (mkTwoChainTimeout 1 2 (sample_qc 1 1)) sample_signer,
        block_new_proposal (DirectMempool []) 2 9 (sample_qc 1 1) sample_signer [] with
  | Ok vote, Ok s, Ok b =>
      vote_verify vote sample_verifier = Ok tt ∧
      vote_verify (add_2chain_timeout vote (mkTwoChainTimeout 1 2 (sample_qc 1 1)) s)
        sample_verifier = Ok tt ∧
      validate_signature b sample_verifier = Ok tt ∧
      block_deserialize (block_block_data b) (block_signature b) = b
  | _, _, _ => False
  end.
Proof.
  eapply (signed_messages_verify sample_verifier sample_signer sample_vote_data sample_li);
    [apply sample_bls_sign|reflexivity|reflexivity|vm_compute; reflexivity| |reflexivity|reflexivity|].
  - split_and!; vm_compute; reflexivity.
  - vm_compute; reflexivity.
Defined.
End sample.
