(* ===== verification/SafetyRules.v ===== *)
(** * SafetyRules: the signing kernel of a validator (consensus/safety-rules,
    storage/secure)

    The persistent store behind a key-value interface, [PersistentSafetyStorage]
    with its cache, and the six operations of [TSafetyRules] with their guards, as
    state-passing functions that can also fail or panic.  The theorems state what
    each operation promises when it answers, which order of persisted states it
    keeps, and what an error leaves behind. *)
From S2P Require Import Prelude BitVec Crypto Accumulator ValidatorVerifier LedgerInfo ConsensusTypes.
Local Open Scope N_scope.

(** ** Secure storage (storage/secure) *)

Inductive StorageError :=
| EntropyError (s : string)
| StorageInternalError (s : string)
| KeyAlreadyExists (key : string)
| KeyNotSet (key : string)
| PermissionDenied
| StorageSerializationError (s : string)
| KeyVersionNotFound (key version : string).

#[export] Instance StorageError_eq_dec : EqDecision StorageError.
Proof. solve_decision. Defined.

(** The serialised values safety rules keeps. *)
Inductive StoredValue :=
| StoredAuthor (a : Author)
| StoredPrivateKey (k : PrivateKey)
| StoredSafetyData (d : SafetyData)
| StoredWaypoint (w : Waypoint).

#[export] Instance StoredValue_eq_dec : EqDecision StoredValue.
Proof. solve_decision. Defined.

(** [DeserializeOwned] at the types the callers ask for. *)
Definition as_author (v : StoredValue) : option Author :=
  match v with StoredAuthor a => Some a | _ => None end.
Definition as_private_key (v : StoredValue) : option PrivateKey :=
  match v with StoredPrivateKey k => Some k | _ => None end.
Definition as_safety_data (v : StoredValue) : option SafetyData :=
  match v with StoredSafetyData d => Some d | _ => None end.
Definition as_waypoint (v : StoredValue) : option Waypoint :=
  match v with StoredWaypoint w => Some w | _ => None end.

(** [KVStorage]: [get] answers the raw value, which the caller deserialises.
    [storage_contents] is the specification's view of the medium. *)
Class KVStorage (St : Type) := {
  storage_get : string → M St StorageError StoredValue;
  storage_set : string → StoredValue → M St StorageError unit;
  storage_contents : St → gmap string StoredValue;
}.

(** What the clients rely on: reads tell the truth, a successful write is
    durable, and a write that reports an error has not happened. *)
Class KVStorageLaws (St : Type) `{!KVStorage St} := {
  storage_get_law : ∀ k s r s', storage_get k s = (r, s') →
    storage_contents s' = storage_contents s ∧
    ∀ v, r = Ok v → storage_contents s !! k = Some v;
  storage_set_law : ∀ k v s r s', storage_set k v s = (r, s') →
    storage_contents s' = if is_ok r then <[k := v]> (storage_contents s) else storage_contents s;
}.

(** [InMemoryStorage] *)
Record InMemoryStorage := mkInMemoryStorage { ims_data : gmap string StoredValue }.

Definition in_memory_get (key : string) : M InMemoryStorage StorageError StoredValue := λ s,
  (ok_or (ims_data s !! key) (KeyNotSet key), s).
Definition in_memory_set (key : string) (value : StoredValue) : M InMemoryStorage StorageError unit :=
  λ s, (Ok tt, mkInMemoryStorage (<[key := value]> (ims_data s))).

#[export] Instance in_memory_kv : KVStorage InMemoryStorage := {|
  storage_get := in_memory_get;
  storage_set := in_memory_set;
  storage_contents := ims_data;
|}.

(** A medium that can be unavailable: each call first consumes the answer the
    environment has prepared, and performs the operation when that is [None]. *)
Record FaultyStorage := mkFaultyStorage {
  fs_faults : list (option StorageError);
  fs_inner : InMemoryStorage;
}.
Definition faulty {A} (op : M InMemoryStorage StorageError A) : M FaultyStorage StorageError A := λ s,
  match fs_faults s with
  | Some e :: faults => (Err e, mkFaultyStorage faults (fs_inner s))
  | faults =>
      let '(r, inner) := op (fs_inner s) in (r, mkFaultyStorage (tail faults) inner)
  end.
#[export] Instance faulty_kv : KVStorage FaultyStorage := {|
  storage_get := λ key, faulty (in_memory_get key);
  storage_set := λ key value, faulty (in_memory_set key value);
  storage_contents := λ s, ims_data (fs_inner s);
|}.

(** The keys (config/protocol-constants). *)
Definition CONSENSUS_KEY : string := "consensus".
Definition OWNER_ACCOUNT : string := "owner_account".
Definition SAFETY_DATA : string := "safety_data".
Definition WAYPOINT : string := "waypoint".

(** ** Errors *)

(** Strings rendered from other errors are kept as format string and arguments;
    a rendered value is kept as the value. *)
Abbreviation Text := (string * list N)%type (only parsing).

Inductive Error :=
| IncorrectEpoch (provided expected : N)
| IncorrectRound (round : N)
| IncorrectLastVotedRound (round last_voted_round : N)
| IncorrectPreferredRound (round preferred_round : N)
| InvalidAccumulatorExtension (s : Text)
| InvalidEpochChangeProof (s : Text)
| InternalError (s : Text)
| InvalidLedgerInfo
| InvalidProposal (s : Text)
| InvalidQuorumCertificate (s : Text)
| NotInitialized (s : string)
| SecureStorageMissingDataError (e : StorageError)
| SecureStorageUnexpectedError (e : StorageError)
| SerializationError (s : Text)
| ValidatorKeyNotFound (e : StorageError)
| ValidatorNotInSet (author : Author)
| VoteProposalSignatureNotFound
| NotSafeToVote (round qc_round tc_round hqc_round : N)
| NotSafeToTimeout (round qc_round tc_round one_chain_round : N)
| InvalidTimeoutCertificate (s : Text)
| InconsistentExecutionResult (ordered executed : BlockInfo)
| InvalidOrderedLedgerInfo (li : LedgerInfo)
| WaypointOutOfDate (previous_version updated_version current_epoch provided_epoch : N)
| InvalidTimeout (s : Text).

#[export] Instance Error_eq_dec : EqDecision Error.
Proof. solve_decision. Defined.

(** [From<arx_secure_storage::Error>]: a permission error panics. *)
Definition from_storage_error {A} (e : StorageError) : outcome Error A :=
  match e with
  | PermissionDenied => Panic
  | KeyVersionNotFound _ _ | KeyNotSet _ => Err (SecureStorageMissingDataError e)
  | _ => Err (SecureStorageUnexpectedError e)
  end.

Definition verify_error_text (e : VerifyError) : Text := anyhow_to_string (verify_error_anyhow e).

Definition next_round (round : Round) : outcome Error Round :=
  ok_or (u64_checked_add round 1) (IncorrectRound round).

(** ** [PersistentSafetyStorage] *)

Record PersistentSafetyStorage (St : Type) := mkPersistentSafetyStorage {
  enable_cached_safety_data : bool;
  cached_safety_data : option SafetyData;
  internal_store : St;
}.
Arguments mkPersistentSafetyStorage {St} _ _ _.
Arguments enable_cached_safety_data {St} _.
Arguments cached_safety_data {St} _.
Arguments internal_store {St} _.

Section storage.
Context `{!Bls} {St : Type} `{!KVStorage St}.

(** A call on the [internal_store] field. *)
Definition on_store {E A} (m : M St E A) : M (PersistentSafetyStorage St) E A := λ p,
  let '(r, st) := m (internal_store p) in
  (r, mkPersistentSafetyStorage (enable_cached_safety_data p) (cached_safety_data p) st).
(** [?] on a storage result. *)
Definition try_storage {S A} (m : M S StorageError A) : M S Error A := λ s,
  match m s with
  | (Ok a, s') => (Ok a, s')
  | (Err e, s') => (from_storage_error e, s')
  | (Panic, s') => (Panic, s')
  end.

(** [internal_store.get::<T>(key).map(|v| v.value)?] *)
Definition read_store {A} (decode : StoredValue → option A) (key : string)
  : M (PersistentSafetyStorage St) Error A :=
  try_storage (v ← on_store (storage_get key);
               mlift (ok_or (decode v) (StorageSerializationError key))).

Definition pss_new (st : St) (enable_cached : bool) : PersistentSafetyStorage St :=
  mkPersistentSafetyStorage enable_cached None st.

Definition pss_author : M (PersistentSafetyStorage St) Error Author :=
  read_store as_author OWNER_ACCOUNT.

Definition consensus_key_for_version (version : PublicKey)
  : M (PersistentSafetyStorage St) Error PrivateKey :=
  key ← read_store as_private_key CONSENSUS_KEY;
  if bls_public_key key =? version then mret key
  else mlift (Err (SecureStorageMissingDataError (KeyVersionNotFound CONSENSUS_KEY "PrivateKey not found"))).

(** Without the cache, the type [get] is asked for is the one [?] leaves,
    [Result<SafetyData, Error>]: a tagged [Ok] or [Err] object, which the
    serialisation of no stored value is. *)
Definition as_safety_data_result (v : StoredValue) : option (outcome Error SafetyData) :=
  match v with
  | StoredAuthor _ | StoredPrivateKey _ | StoredSafetyData _ | StoredWaypoint _ => None
  end.

Definition pss_safety_data : M (PersistentSafetyStorage St) Error SafetyData :=
  p ← mget;
  if negb (enable_cached_safety_data p) then
    r ← read_store as_safety_data_result SAFETY_DATA; mlift r
  else
    match cached_safety_data p with
    | Some d => mret d
    | None =>
        d ← read_store as_safety_data SAFETY_DATA;
        p' ← mget;
        _ ← mput (mkPersistentSafetyStorage (enable_cached_safety_data p') (Some d) (internal_store p'));
        mret d
    end.

Definition set_safety_data (data : SafetyData) : M (PersistentSafetyStorage St) Error unit := λ p,
  let '(r, st) := storage_set SAFETY_DATA (StoredSafetyData data) (internal_store p) in
  match r with
  | Ok _ => (Ok tt, mkPersistentSafetyStorage (enable_cached_safety_data p) (Some data) st)
  | Err e => (Err (SecureStorageUnexpectedError e),
              mkPersistentSafetyStorage (enable_cached_safety_data p) None st)
  | Panic => (Panic, mkPersistentSafetyStorage (enable_cached_safety_data p) (cached_safety_data p) st)
  end.

Definition pss_waypoint : M (PersistentSafetyStorage St) Error Waypoint :=
  read_store as_waypoint WAYPOINT.

Definition set_waypoint (w : Waypoint) : M (PersistentSafetyStorage St) Error unit :=
  try_storage (on_store (storage_set WAYPOINT (StoredWaypoint w))).

(** Any other error of the first [set] is dropped, as in the code. *)
Definition initialize_keys_and_accounts (author : Author) (consensus_private_key : PrivateKey)
  : M St Error unit := λ st,
  let '(result, st) := storage_set CONSENSUS_KEY (StoredPrivateKey consensus_private_key) st in
  match result with
  | Err (KeyAlreadyExists _) => (Ok tt, st)
  | Panic => (Panic, st)
  | _ => try_storage (storage_set OWNER_ACCOUNT (StoredAuthor author)) st
  end.

(** [expect]: an error panics. *)
Definition pss_initialize (st : St) (author : Author) (consensus_private_key : PrivateKey)
    (waypoint : Waypoint) (enable_cached : bool) : outcome Error (PersistentSafetyStorage St) :=
  match initialize_keys_and_accounts author consensus_private_key st with
  | (Ok _, st) =>
      let safety_data := mkSafetyData 1 0 0 0 None in
      match (_ ← set_safety_data safety_data; set_waypoint waypoint)
              (mkPersistentSafetyStorage enable_cached (Some safety_data) st) with
      | (Ok _, p) => Ok p
      | _ => Panic
      end
  | _ => Panic
  end.
End storage.

(** ** [SafetyRules] *)

Record SafetyRules (St : Type) := mkSafetyRules {
  persistent_storage : PersistentSafetyStorage St;
  validator_signer : option ValidatorSigner;
  epoch_state : option EpochState;
}.
Arguments mkSafetyRules {St} _ _ _.
Arguments persistent_storage {St} _.
Arguments validator_signer {St} _.
Arguments epoch_state {St} _.

Record ConsensusState := mkConsensusState {
  cs_safety_data : SafetyData;
  cs_waypoint : Waypoint;
  cs_in_validator_set : bool;
}.

Section safety_rules.
Context `{!Bls} `{!ArxHashes} {St : Type} `{!KVStorage St}.

Definition safety_rules_new (p : PersistentSafetyStorage St) : SafetyRules St :=
  mkSafetyRules p None None.

(** A call on the [persistent_storage] field. *)
Definition on_storage {A} (m : M (PersistentSafetyStorage St) Error A) : M (SafetyRules St) Error A :=
  λ s, let '(r, p) := m (persistent_storage s) in
       (r, mkSafetyRules p (validator_signer s) (epoch_state s)).

Definition get_signer : M (SafetyRules St) Error ValidatorSigner :=
  s ← mget; mlift (ok_or (validator_signer s) (NotInitialized "validator_signer")).
Definition get_epoch_state : M (SafetyRules St) Error EpochState :=
  s ← mget; mlift (ok_or (epoch_state s) (NotInitialized "epoch_state")).
Definition set_validator_signer (signer : option ValidatorSigner) : M (SafetyRules St) Error unit :=
  s ← mget; mput (mkSafetyRules (persistent_storage s) signer (epoch_state s)).
Definition set_epoch_state (e : EpochState) : M (SafetyRules St) Error unit :=
  s ← mget; mput (mkSafetyRules (persistent_storage s) (validator_signer s) (Some e)).

Definition sr_sign {A} `{!CryptoHash A} (message : A) : M (SafetyRules St) Error Signature :=
  signer ← get_signer;
  mlift (map_err (λ e, SerializationError (anyhow_to_string (crypto_error_anyhow e)))
           (validator_signer_sign signer message)).

(** The updated data and whether anything changed. *)
Definition observe_qc (qc : QuorumCert) (d : SafetyData) : SafetyData * bool :=
  let one_chain := bi_round (certified_block qc) in
  let two_chain := bi_round (parent_block qc) in
  let '(d, updated) :=
    if sd_one_chain_round d <? one_chain then
      (mkSafetyData (sd_epoch d) (sd_last_voted_round d) (sd_preferred_round d) one_chain
         (sd_last_vote d), true)
    else (d, false) in
  if sd_preferred_round d <? two_chain then
    (mkSafetyData (sd_epoch d) (sd_last_voted_round d) two_chain (sd_one_chain_round d)
       (sd_last_vote d), true)
  else (d, updated).

Definition verify_and_update_preferred_round (qc : QuorumCert) (d : SafetyData)
  : outcome Error (SafetyData * bool) :=
  let preferred_round := sd_preferred_round d in
  let one_chain_round := bi_round (certified_block qc) in
  if one_chain_round <? preferred_round then
    Err (IncorrectPreferredRound one_chain_round preferred_round)
  else Ok (observe_qc qc d).

Definition verify_author (author : option Author) : M (SafetyRules St) Error unit :=
  signer ← get_signer;
  author ← mlift (ok_or author (InvalidProposal ("No author found in the proposal"%string, [])));
  mlift (ensure (vs_author signer =? author)
           (InvalidProposal ("Proposal author is not validator signer!"%string, []))).

Definition verify_epoch (epoch : N) (d : SafetyData) : outcome Error unit :=
  ensure (epoch =? sd_epoch d) (IncorrectEpoch epoch (sd_epoch d)).

Definition verify_and_update_last_vote_round (round : Round) (d : SafetyData)
  : outcome Error SafetyData :=
  if round <=? sd_last_voted_round d then
    Err (IncorrectLastVotedRound round (sd_last_voted_round d))
  else Ok (mkSafetyData (sd_epoch d) round (sd_preferred_round d) (sd_one_chain_round d)
             (sd_last_vote d)).

Definition verify_qc (qc : QuorumCert) : M (SafetyRules St) Error unit :=
  es ← get_epoch_state;
  mlift (map_err (λ e, InvalidQuorumCertificate (anyhow_to_string e))
           (quorum_cert_verify qc (es_verifier es))).

Definition verify_tc (tc : TwoChainTimeoutCertificate) : M (SafetyRules St) Error unit :=
  es ← get_epoch_state;
  mlift (map_err (λ e, InvalidTimeoutCertificate (anyhow_to_string e))
           (tc_verify tc (es_verifier es))).
Definition verify_maybe_tc (timeout_cert : option TwoChainTimeoutCertificate)
  : M (SafetyRules St) Error unit :=
  match timeout_cert with Some tc => verify_tc tc | None => mret tt end.

Definition verify_proposal (current_micros : N) (vote_proposal : VoteProposal)
  : M (SafetyRules St) Error VoteData :=
  let proposed_block := vp_block vote_proposal in
  d ← on_storage pss_safety_data;
  _ ← mlift (verify_epoch (block_epoch proposed_block) d);
  _ ← verify_qc (block_quorum_cert proposed_block);
  es ← get_epoch_state;
  _ ← mlift (map_err (λ e, InvalidProposal (anyhow_to_string e))
               (validate_signature proposed_block (es_verifier es)));
  _ ← mlift (map_err (λ e, InvalidProposal (anyhow_to_string e))
               (verify_well_formed current_micros proposed_block));
  mlift (map_err (λ e, InvalidAccumulatorExtension (anyhow_to_string e))
           (gen_vote_data vote_proposal)).

Definition safe_to_timeout (timeout : TwoChainTimeout)
    (maybe_tc : option TwoChainTimeoutCertificate) (d : SafetyData) : outcome Error unit :=
  let round := to_round timeout in
  let qc_round := hqc_round timeout in
  let tc_rnd := match maybe_tc with Some tc => tc_round tc | None => 0 end in
  qc_next ← next_round qc_round;
  extends ← (if round =? qc_next then Ok true
             else tc_next ← next_round tc_rnd; Ok (round =? tc_next));
  ensure (extends && (sd_one_chain_round d <=? qc_round))
    (NotSafeToTimeout round qc_round tc_rnd (sd_one_chain_round d)).

Definition safe_to_vote (block : Block) (maybe_tc : option TwoChainTimeoutCertificate)
  : outcome Error unit :=
  let round := block_round block in
  let qc_round := bi_round (certified_block (block_quorum_cert block)) in
  let tc_rnd := match maybe_tc with Some tc => tc_round tc | None => 0 end in
  let hqc_rnd := match maybe_tc with Some tc => highest_hqc_round tc | None => 0 end in
  qc_next ← next_round qc_round;
  safe ← (if round =? qc_next then Ok true
          else tc_next ← next_round tc_rnd; Ok ((round =? tc_next) && (hqc_rnd <=? qc_round)));
  ensure safe (NotSafeToVote round qc_round tc_rnd hqc_rnd).

Definition construct_ledger_info_2chain (proposed_block : Block) (consensus_data_hash : HashValue)
  : outcome Error LedgerInfo :=
  let block1 := block_round proposed_block in
  let block0 := bi_round (certified_block (block_quorum_cert proposed_block)) in
  next ← next_round block0;
  let commit_info := if next =? block1 then certified_block (block_quorum_cert proposed_block)
                     else block_info_empty in
  Ok (mkLedgerInfo commit_info consensus_data_hash).

(** [tracing] tells whether the trace level is on: only then does [trace!]
    evaluate its arguments, and with them [author()?]. *)
Definition guarded_consensus_state (tracing : bool) : M (SafetyRules St) Error ConsensusState :=
  _ ← on_storage pss_waypoint;
  _ ← on_storage pss_safety_data;
  _ ← (if tracing then _ ← on_storage pss_author; mret tt else mret tt);
  d ← on_storage pss_safety_data;
  w ← on_storage pss_waypoint;
  s ← mget;
  mret (mkConsensusState d w (bool_decide (is_Some (validator_signer s)))).

(** The [match expected_key] of [guarded_initialize]. *)
Definition reconcile_key (author : Author) (expected_key : option PublicKey)
  : M (SafetyRules St) Error unit :=
  match expected_key with
  | None => mlift (Err (ValidatorNotInSet author))
  | Some expected_key =>
      s ← mget;
      if bool_decide (validator_signer_public_key <$> validator_signer s = Some expected_key)
      then mret tt
      else λ s,
        match on_storage (consensus_key_for_version expected_key) s with
        | (Ok consensus_key, s) =>
            set_validator_signer (Some (mkValidatorSigner author consensus_key)) s
        | (Err (SecureStorageMissingDataError error), s) => (Err (ValidatorKeyNotFound error), s)
        | (Err error, s) => (Err error, s)
        | (Panic, s) => (Panic, s)
        end
  end.

(** [initialize_result.map_err(..)] at its end. *)
Definition clear_signer_on_error (m : M (SafetyRules St) Error unit) : M (SafetyRules St) Error unit :=
  λ s, match m s with
       | (Err error, s') => (Err error, mkSafetyRules (persistent_storage s') None (epoch_state s'))
       | r => r
       end.

(** The new epoch state, with the waypoint before and after. *)
Definition update_waypoint (proof : EpochChangeProof)
  : M (SafetyRules St) Error (Waypoint * Waypoint * EpochState) :=
  waypoint ← on_storage pss_waypoint;
  last_li ← mlift (map_err (λ e, InvalidEpochChangeProof (anyhow_to_string e))
                     (epoch_change_proof_verify proof (waypoint_verifier waypoint)));
  let ledger_info := liws_ledger_info last_li in
  es ← mlift (ok_or (li_next_epoch_state ledger_info) InvalidLedgerInfo);
  new_waypoint ← mlift (map_err (λ e, InternalError (anyhow_to_string e))
                          (waypoint_new_epoch_boundary ledger_info));
  _ ← (if wp_version waypoint <? wp_version new_waypoint
       then on_storage (set_waypoint new_waypoint) else mret tt);
  mret (waypoint, new_waypoint, es).

Definition enter_epoch (waypoint new_waypoint : Waypoint) (es : EpochState)
  : M (SafetyRules St) Error unit :=
  d ← on_storage pss_safety_data;
  let current_epoch := sd_epoch d in
  _ ← match current_epoch ?= es_epoch es with
      | Gt => mlift (Err (WaypointOutOfDate (wp_version waypoint) (wp_version new_waypoint)
                            current_epoch (es_epoch es)))
      | Lt => on_storage (set_safety_data (mkSafetyData (es_epoch es) 0 0 0 None))
      | Eq => mret tt
      end;
  set_epoch_state es.

Definition guarded_initialize (proof : EpochChangeProof) : M (SafetyRules St) Error unit :=
  update ← update_waypoint proof;
  let '(waypoint, new_waypoint, es) := update in
  _ ← enter_epoch waypoint new_waypoint es;
  author ← on_storage pss_author;
  clear_signer_on_error (reconcile_key author (get_public_key (es_verifier es) author)).

Definition guarded_sign_proposal (block_data : BlockData) : M (SafetyRules St) Error Signature :=
  _ ← get_signer;
  _ ← verify_author (bd_author block_data);
  d ← on_storage pss_safety_data;
  _ ← mlift (verify_epoch (bd_epoch block_data) d);
  _ ← (if bd_round block_data <=? sd_last_voted_round d then
         mlift (Err (InvalidProposal
           ("Proposed round {} is not higher than last voted round {}"%string,
            [bd_round block_data; sd_last_voted_round d])))
       else mret tt);
  _ ← verify_qc (bd_quorum_cert block_data);
  _ ← mlift (verify_and_update_preferred_round (bd_quorum_cert block_data) d);
  sr_sign block_data.

Definition guarded_sign_commit_vote (ledger_info : LedgerInfoWithSignatures)
    (new_ledger_info : LedgerInfo) : M (SafetyRules St) Error Signature :=
  _ ← get_signer;
  let old_ledger_info := liws_ledger_info ledger_info in
  _ ← mlift (ensure (is_ordered_only (li_commit_info old_ledger_info))
               (InvalidOrderedLedgerInfo old_ledger_info));
  _ ← mlift (ensure (match_ordered_only (li_commit_info old_ledger_info)
                       (li_commit_info new_ledger_info))
               (InconsistentExecutionResult (li_commit_info old_ledger_info)
                  (li_commit_info new_ledger_info)));
  es ← get_epoch_state;
  _ ← mlift (map_err (λ e, InvalidQuorumCertificate (verify_error_text e))
               (verify_signatures ledger_info (es_verifier es)));
  sr_sign new_ledger_info.

Definition guarded_sign_timeout_with_qc (timeout : TwoChainTimeout)
    (timeout_cert : option TwoChainTimeoutCertificate) : M (SafetyRules St) Error Signature :=
  _ ← get_signer;
  d ← on_storage pss_safety_data;
  _ ← mlift (verify_epoch (to_epoch timeout) d);
  es ← get_epoch_state;
  _ ← mlift (map_err (λ e, InvalidTimeout (anyhow_to_string e))
               (timeout_verify timeout (es_verifier es)));
  _ ← verify_maybe_tc timeout_cert;
  _ ← mlift (safe_to_timeout timeout timeout_cert d);
  _ ← (if to_round timeout <? sd_last_voted_round d then
         mlift (Err (IncorrectLastVotedRound (to_round timeout) (sd_last_voted_round d)))
       else mret tt);
  _ ← (if sd_last_voted_round d <? to_round timeout then
         d' ← mlift (verify_and_update_last_vote_round (to_round timeout) d);
         on_storage (set_safety_data d')
       else mret tt);
  sr_sign (signing_format timeout).

(** From the two voting rules on. *)
Definition cast_vote (proposed_block : Block) (timeout_cert : option TwoChainTimeoutCertificate)
    (vote_data : VoteData) (d : SafetyData) : M (SafetyRules St) Error Vote :=
  d ← mlift (verify_and_update_last_vote_round (block_round proposed_block) d);
  _ ← mlift (safe_to_vote proposed_block timeout_cert);
  let d := fst (observe_qc (block_quorum_cert proposed_block) d) in
  signer ← get_signer;
  ledger_info ← mlift (construct_ledger_info_2chain proposed_block (crypto_hash vote_data));
  signature ← sr_sign ledger_info;
  let vote := vote_new_with_signature vote_data (vs_author signer) ledger_info signature in
  _ ← on_storage (set_safety_data
        (mkSafetyData (sd_epoch d) (sd_last_voted_round d) (sd_preferred_round d)
           (sd_one_chain_round d) (Some vote)));
  mret vote.

Definition guarded_construct_and_sign_vote_two_chain (current_micros : N)
    (vote_proposal : VoteProposal) (timeout_cert : option TwoChainTimeoutCertificate)
  : M (SafetyRules St) Error Vote :=
  _ ← get_signer;
  vote_data ← verify_proposal current_micros vote_proposal;
  _ ← verify_maybe_tc timeout_cert;
  let proposed_block := vp_block vote_proposal in
  d ← on_storage pss_safety_data;
  match sd_last_vote d with
  | Some vote =>
      if vote_round vote =? block_round proposed_block then mret vote
      else cast_vote proposed_block timeout_cert vote_data d
  | None => cast_vote proposed_block timeout_cert vote_data d
  end.

End safety_rules.

(** ** What the store shows *)

#[export] Instance in_memory_laws : KVStorageLaws InMemoryStorage.
Proof.
  split.
  - intros k s r s' [= <- <-]. split; [done|]. intros v Hv. by inv_ok.
  - by intros k v s r s' [= <- <-].
Qed.

#[export] Instance faulty_laws : KVStorageLaws FaultyStorage.
Proof.
  split; cbn; unfold faulty; intros.
  - destruct (fs_faults s) as [|[e|] faults]; simplify_eq/=; naive_solver (inv_ok; done).
  - destruct (fs_faults s) as [|[e|] faults]; by simplify_eq/=.
Qed.

Section view.
Context {St : Type} `{!KVStorage St}.

(** The persisted safety data. *)
Definition pss_stored (p : PersistentSafetyStorage St) : option SafetyData :=
  storage_contents (internal_store p) !! SAFETY_DATA ≫= as_safety_data.
(** The cache never contradicts the store. *)
Definition pss_cache_ok (p : PersistentSafetyStorage St) : Prop :=
  ∀ d, cached_safety_data p = Some d → pss_stored p = Some d.

Definition stored (s : SafetyRules St) : option SafetyData := pss_stored (persistent_storage s).
Definition cache_ok (s : SafetyRules St) : Prop := pss_cache_ok (persistent_storage s).

(** [s'] differs from [s] at most in what the medium does next and in a cache
    that still agrees with it. *)
Definition pss_quiet (p p' : PersistentSafetyStorage St) : Prop :=
  storage_contents (internal_store p') = storage_contents (internal_store p) ∧
  enable_cached_safety_data p' = enable_cached_safety_data p ∧
  (pss_cache_ok p → pss_cache_ok p').
Definition quiet (s s' : SafetyRules St) : Prop :=
  pss_quiet (persistent_storage s) (persistent_storage s') ∧
  validator_signer s' = validator_signer s ∧ epoch_state s' = epoch_state s.
(** A method that persists nothing and leaves signer and epoch state alone. *)
Definition Quiet {A} (m : M (SafetyRules St) Error A) : Prop :=
  ∀ s r s', m s = (r, s') → quiet s s'.

#[export] Instance pss_quiet_preorder : PreOrder pss_quiet.
Proof. split; [by intros p|]. unfold pss_quiet. intros p q r. naive_solver congruence. Qed.
#[export] Instance quiet_preorder : PreOrder quiet.
Proof.
  split; [by intros s|]. intros s t u (H1 & ? & ?) (H2 & ? & ?).
  split; [by etrans|]. split; congruence.
Qed.

Lemma quiet_stored s s' : quiet s s' → stored s' = stored s.
Proof. intros ((Hc & _) & _). unfold stored, pss_stored. by rewrite Hc. Qed.
Lemma quiet_cache_ok s s' : quiet s s' → cache_ok s → cache_ok s'.
Proof. by intros ((_ & _ & ?) & _). Qed.
Lemma quiet_epoch_state s s' : quiet s s' → epoch_state s' = epoch_state s.
Proof. by intros (_ & _ & ?). Qed.
Lemma quiet_signer s s' : quiet s s' → validator_signer s' = validator_signer s.
Proof. by intros (_ & ? & _). Qed.

Lemma Quiet_ret {A} (a : A) : Quiet (mret a).
Proof. by intros s r s' [= <- <-]. Qed.
Lemma Quiet_get : Quiet mget.
Proof. by intros s r s' [= <- <-]. Qed.
Lemma Quiet_lift {A} (m : outcome Error A) : Quiet (mlift m).
Proof. by intros s r s' [= <- <-]. Qed.
Lemma Quiet_bind {A B} (m : M (SafetyRules St) Error A) (k : A → M (SafetyRules St) Error B) :
  Quiet m → (∀ a, Quiet (k a)) → Quiet (m ≫= k).
Proof.
  intros Hm Hk s r s' Hrun. apply M_bind_inv in Hrun as [(a & t & H1 & H2)|(r' & H1 & _)].
  - etrans; [by eapply Hm|by eapply Hk].
  - by eapply Hm.
Qed.
Lemma Quiet_on_storage {A} (m : M (PersistentSafetyStorage St) Error A) :
  (∀ p r p', m p = (r, p') → pss_quiet p p') → Quiet (on_storage m).
Proof.
  intros Hm s r s'. unfold on_storage. destruct (m (persistent_storage s)) as [r0 p0] eqn:E.
  intros [= <- <-]. split; [by eapply Hm|done].
Qed.
Lemma Quiet_if {A} (b : bool) (m1 m2 : M (SafetyRules St) Error A) :
  Quiet m1 → Quiet m2 → Quiet (if b then m1 else m2).
Proof. by destruct b. Qed.
End view.

Create HintDb arx_quiet.
#[export] Hint Resolve Quiet_ret Quiet_get Quiet_lift Quiet_bind Quiet_if : arx_quiet.

Section storage_facts.
Context `{!Bls} {St : Type} `{!KVStorage St} `{!KVStorageLaws St}.

Lemma read_store_spec {A} (decode : StoredValue → option A) key p r p' :
  read_store decode key p = (r, p') →
  pss_quiet p p' ∧ cached_safety_data p' = cached_safety_data p ∧
  ∀ a, r = Ok a → storage_contents (internal_store p) !! key ≫= decode = Some a.
Proof.
  unfold read_store, try_storage, on_store, mbind, M_bind, mlift.
  destruct (storage_get key (internal_store p)) as [r0 st] eqn:E.
  apply storage_get_law in E as [Hc Hv].
  assert (pss_quiet p (mkPersistentSafetyStorage (enable_cached_safety_data p)
                         (cached_safety_data p) st)) as Hq.
  { split; [done|]. split; [done|]. unfold pss_cache_ok, pss_stored. cbn. by rewrite Hc. }
  destruct r0 as [v|e|]; cbn; [destruct (decode v) eqn:Hd; cbn| |]; intros [= <- <-];
    (split; [done|split; [done|]]); intros a0 Ha; inv_ok.
  - by rewrite (Hv v eq_refl), <-Ha.
  - by destruct e.
Qed.

Lemma pss_safety_data_spec p r p' :
  pss_safety_data p = (r, p') → pss_quiet p p' ∧
  ∀ d, r = Ok d → pss_cache_ok p →
    pss_stored p = Some d ∧ enable_cached_safety_data p = true.
Proof.
  unfold pss_safety_data. rewrite mget_bind.
  destruct (enable_cached_safety_data p) eqn:Hen; cbn [negb].
  - destruct (cached_safety_data p) as [c|] eqn:Hc.
    + intros [= <- <-]. split; [done|]. intros d [= <-] Hok. auto.
    + intros Hrun. apply M_bind_inv in Hrun as [(d & t & H1 & H2)|(r' & H1 & Hr' & Hr)];
        apply read_store_spec in H1 as (Hq & Hcache & Hread).
      * cbn in H2. injection H2 as <- <-. specialize (Hread d eq_refl).
        destruct Hq as (Hq1 & Hq2 & Hq3). split.
        -- split; [done|]. split; [done|]. intros _ d' [= <-]. unfold pss_stored. cbn. by rewrite Hq1.
        -- intros d' [= <-] _. done.
      * split; [done|]. by intros d ->.
  - intros Hrun. apply M_bind_inv in Hrun as [(d & t & H1 & H2)|(r' & H1 & Hr' & Hr)];
      apply read_store_spec in H1 as (Hq & Hcache & Hread).
    + specialize (Hread d eq_refl).
      destruct (storage_contents (internal_store p) !! SAFETY_DATA) as [[]|]; discriminate Hread.
    + split; [done|]. by intros d ->.
Qed.

Lemma set_safety_data_spec d p r p' :
  set_safety_data d p = (r, p') →
  enable_cached_safety_data p' = enable_cached_safety_data p ∧
  (pss_cache_ok p → pss_cache_ok p') ∧
  pss_stored p' = if is_ok r then Some d else pss_stored p.
Proof.
  unfold set_safety_data.
  destruct (storage_set SAFETY_DATA (StoredSafetyData d) (internal_store p)) as [r0 st] eqn:E.
  apply storage_set_law in E. unfold pss_cache_ok, pss_stored.
  destruct r0; intros [= <- <-]; cbn in *; rewrite E; rewrite ?lookup_insert_eq; naive_solver.
Qed.

Lemma set_waypoint_spec w p r p' :
  set_waypoint w p = (r, p') →
  enable_cached_safety_data p' = enable_cached_safety_data p ∧
  (pss_cache_ok p → pss_cache_ok p') ∧ pss_stored p' = pss_stored p.
Proof.
  unfold set_waypoint, try_storage, on_store.
  destruct (storage_set WAYPOINT (StoredWaypoint w) (internal_store p)) as [r0 st] eqn:E.
  apply storage_set_law in E.
  assert (∀ e c, pss_stored (mkPersistentSafetyStorage e c st) = pss_stored p) as Hst.
  { intros e c. unfold pss_stored. cbn. rewrite E. destruct (is_ok r0); [|done].
    by rewrite lookup_insert_ne by done. }
  destruct r0; intros [= <- <-]; unfold pss_cache_ok; cbn; rewrite Hst; naive_solver.
Qed.
End storage_facts.

(** ** The rules, as propositions *)

(** The 2-chain voting rule. *)
Definition two_chain_vote_rule (round qc_round tc_rnd hqc_rnd : N) : Prop :=
  round = qc_round + 1 ∨ (round = tc_rnd + 1 ∧ hqc_rnd ≤ qc_round).
(** The 2-chain timeout rule. *)
Definition two_chain_timeout_rule (round qc_round tc_rnd one_chain_round : N) : Prop :=
  (round = qc_round + 1 ∨ round = tc_rnd + 1) ∧ one_chain_round ≤ qc_round.

Definition maybe_tc_round (tc : option TwoChainTimeoutCertificate) : N :=
  match tc with Some tc => tc_round tc | None => 0 end.
Definition maybe_tc_hqc_round (tc : option TwoChainTimeoutCertificate) : N :=
  match tc with Some tc => highest_hqc_round tc | None => 0 end.

Lemma next_round_Ok r n : next_round r = Ok n ↔ n = r + 1 ∧ r + 1 < 2 ^ 64.
Proof.
  unfold next_round. rewrite ok_or_Ok, u64_checked_add_Some. done.
Qed.

Lemma safe_to_vote_rule b tc :
  safe_to_vote b tc = Ok tt →
  two_chain_vote_rule (block_round b) (bi_round (certified_block (block_quorum_cert b)))
    (maybe_tc_round tc) (maybe_tc_hqc_round tc).
Proof.
  unfold safe_to_vote, two_chain_vote_rule. intros Hs. inv_ok.
  apply next_round_Ok in Hok as [-> _].
  destruct (N.eqb_spec (block_round b) (bi_round (certified_block (block_quorum_cert b)) + 1));
    [auto|].
  inv_ok. apply next_round_Ok in Hok as [-> _]. subst a0.
  apply andb_prop in Hs as [?%N.eqb_eq ?%N.leb_le]. auto.
Qed.

Lemma safe_to_vote_complete b tc :
  let qc_round := bi_round (certified_block (block_quorum_cert b)) in
  block_round b < 2 ^ 64 → qc_round < block_round b →
  two_chain_vote_rule (block_round b) qc_round (maybe_tc_round tc) (maybe_tc_hqc_round tc) →
  safe_to_vote b tc = Ok tt.
Proof.
  cbn zeta. intros Hb Hq Hr. unfold safe_to_vote.
  set (q := bi_round (certified_block (block_quorum_cert b))) in *.
  rewrite (proj2 (next_round_Ok q (q + 1))) by (split; [done|lia]).
  run_ok. destruct (N.eqb_spec (block_round b) (q + 1)); [done|]. destruct Hr as [?|[Hr1 Hr2]]; [done|].
  change (match tc with Some tc => tc_round tc | None => 0 end) with (maybe_tc_round tc).
  change (match tc with Some tc => highest_hqc_round tc | None => 0 end) with (maybe_tc_hqc_round tc).
  rewrite (proj2 (next_round_Ok (maybe_tc_round tc) (maybe_tc_round tc + 1))) by (split; [done|lia]).
  run_ok. rewrite (proj2 (N.eqb_eq _ _) Hr1), (proj2 (N.leb_le _ _) Hr2). done.
Qed.

Lemma safe_to_timeout_rule t tc d :
  safe_to_timeout t tc d = Ok tt →
  two_chain_timeout_rule (to_round t) (hqc_round t) (maybe_tc_round tc) (sd_one_chain_round d).
Proof.
  unfold safe_to_timeout, two_chain_timeout_rule. intros Hs. inv_ok.
  apply andb_prop in Hs as [Ha ?%N.leb_le].
  apply next_round_Ok in Hok as [-> _].
  destruct (N.eqb_spec (to_round t) (hqc_round t + 1)); [auto|].
  inv_ok. apply next_round_Ok in Hok as [-> _]. subst a0. apply N.eqb_eq in Ha. auto.
Qed.

Lemma safe_to_timeout_complete t tc d :
  to_round t < 2 ^ 64 → hqc_round t < to_round t →
  two_chain_timeout_rule (to_round t) (hqc_round t) (maybe_tc_round tc) (sd_one_chain_round d) →
  safe_to_timeout t tc d = Ok tt.
Proof.
  intros Hb Hq [Hr Ho]. unfold safe_to_timeout.
  rewrite (proj2 (next_round_Ok (hqc_round t) (hqc_round t + 1))) by (split; [done|lia]).
  run_ok. rewrite (proj2 (N.leb_le _ _) Ho). 
  destruct (N.eqb_spec (to_round t) (hqc_round t + 1)); [done|]. destruct Hr as [?|Hr]; [done|].
  change (match tc with Some tc => tc_round tc | None => 0 end) with (maybe_tc_round tc).
  rewrite (proj2 (next_round_Ok (maybe_tc_round tc) (maybe_tc_round tc + 1))) by (split; [done|lia]).
  run_ok. by rewrite (proj2 (N.eqb_eq _ _) Hr).
Qed.

Lemma observe_qc_data qc d :
  fst (observe_qc qc d) =
  mkSafetyData (sd_epoch d) (sd_last_voted_round d)
    (N.max (sd_preferred_round d) (bi_round (parent_block qc)))
    (N.max (sd_one_chain_round d) (bi_round (certified_block qc))) (sd_last_vote d).
Proof.
  unfold observe_qc. destruct d as [e l p o v]. cbn.
  destruct (N.ltb_spec o (bi_round (certified_block qc))); cbn;
    destruct (N.ltb_spec p (bi_round (parent_block qc))); cbn; f_equal; lia.
Qed.
Lemma observe_qc_updated qc d :
  snd (observe_qc qc d) = negb (bool_decide (fst (observe_qc qc d) = d)).
Proof.
  unfold observe_qc. destruct d as [e l p o v]. cbn.
  destruct (N.ltb_spec o (bi_round (certified_block qc))); cbn;
    destruct (N.ltb_spec p (bi_round (parent_block qc))); cbn;
    symmetry; rewrite ?negb_true_iff, ?negb_false_iff;
    first [apply bool_decide_eq_false; intros [=]; lia | by apply bool_decide_eq_true].
Qed.

Section operations.
Context `{!Bls} `{!ArxHashes} {St : Type} `{!KVStorage St} `{!KVStorageLaws St}.

(** *** The parts that persist nothing *)

Lemma Quiet_safety_data : Quiet (on_storage (pss_safety_data (St := St))).
Proof. apply Quiet_on_storage. intros p r p' ?%pss_safety_data_spec. naive_solver. Qed.
Lemma Quiet_read_store {A} (decode : StoredValue → option A) key :
  Quiet (on_storage (read_store (St := St) decode key)).
Proof. apply Quiet_on_storage. intros p r p' ?%read_store_spec. naive_solver. Qed.
Hint Resolve Quiet_safety_data Quiet_read_store : arx_quiet.

Lemma Quiet_get_signer : Quiet (get_signer (St := St)).
Proof. unfold get_signer. eauto with arx_quiet. Qed.
Lemma Quiet_get_epoch_state : Quiet (get_epoch_state (St := St)).
Proof. unfold get_epoch_state. eauto with arx_quiet. Qed.
Hint Resolve Quiet_get_signer Quiet_get_epoch_state : arx_quiet.
Lemma Quiet_sign {A} `{!CryptoHash A} (m : A) : Quiet (sr_sign (St := St) m).
Proof. unfold sr_sign. eauto with arx_quiet. Qed.
Lemma Quiet_verify_qc qc : Quiet (verify_qc (St := St) qc).
Proof. unfold verify_qc. eauto with arx_quiet. Qed.
Lemma Quiet_verify_maybe_tc tc : Quiet (verify_maybe_tc (St := St) tc).
Proof. unfold verify_maybe_tc, verify_tc. destruct tc; eauto with arx_quiet. Qed.
Lemma Quiet_verify_author a : Quiet (verify_author (St := St) a).
Proof. unfold verify_author. eauto 10 with arx_quiet. Qed.
Hint Resolve Quiet_sign Quiet_verify_qc Quiet_verify_maybe_tc Quiet_verify_author : arx_quiet.
Lemma Quiet_verify_proposal now vp : Quiet (verify_proposal (St := St) now vp).
Proof. unfold verify_proposal. eauto 20 with arx_quiet. Qed.
Hint Resolve Quiet_verify_proposal : arx_quiet.

Lemma Quiet_sign_proposal b : Quiet (guarded_sign_proposal (St := St) b).
Proof. unfold guarded_sign_proposal. eauto 20 with arx_quiet. Qed.
Lemma Quiet_sign_commit_vote li li' : Quiet (guarded_sign_commit_vote (St := St) li li').
Proof. unfold guarded_sign_commit_vote. eauto 20 with arx_quiet. Qed.
Lemma Quiet_consensus_state tracing : Quiet (guarded_consensus_state (St := St) tracing).
Proof.
  unfold guarded_consensus_state, pss_waypoint, pss_author. eauto 20 with arx_quiet.
Qed.

(** *** What a success tells *)

Lemma get_signer_Ok (s : SafetyRules St) x s' :
  get_signer s = (Ok x, s') ↔ s' = s ∧ validator_signer s = Some x.
Proof.
  unfold get_signer. rewrite mget_bind. unfold mlift. destruct (validator_signer s); naive_solver.
Qed.
Lemma get_epoch_state_Ok (s : SafetyRules St) x s' :
  get_epoch_state s = (Ok x, s') ↔ s' = s ∧ epoch_state s = Some x.
Proof.
  unfold get_epoch_state. rewrite mget_bind. unfold mlift. destruct (epoch_state s); naive_solver.
Qed.
Lemma safety_data_Ok (s : SafetyRules St) d s' :
  on_storage pss_safety_data s = (Ok d, s') → cache_ok s →
  quiet s s' ∧ stored s = Some d ∧ enable_cached_safety_data (persistent_storage s) = true.
Proof.
  intros Hrun Hc. split; [by eapply Quiet_safety_data|].
  unfold on_storage in Hrun. destruct (pss_safety_data (persistent_storage s)) as [r p] eqn:E.
  injection Hrun as -> _. apply pss_safety_data_spec in E as [_ E]. by apply E.
Qed.
Lemma sr_sign_Ok {A} `{!CryptoHash A} (m : A) (s : SafetyRules St) sig s' :
  sr_sign m s = (Ok sig, s') → s' = s ∧ ∃ signer bytes, validator_signer s = Some signer ∧
    signing_message m = Some bytes ∧ sig = bls_sign (vs_private_key signer) bytes.
Proof.
  unfold sr_sign. intros Hrun. inv_M. apply get_signer_Ok in Hrun0 as [-> ?].
  unfold validator_signer_sign in *. inv_ok. naive_solver.
Qed.
Lemma verify_qc_Ok qc (s : SafetyRules St) u s' :
  verify_qc qc s = (Ok u, s') → s' = s ∧ ∃ es, epoch_state s = Some es ∧
    quorum_cert_verify qc (es_verifier es) = Ok tt.
Proof.
  unfold verify_qc. intros Hrun. inv_M. apply get_epoch_state_Ok in Hrun0 as [-> ?].
  destruct u. eauto.
Qed.

(** The certificate is absent or verifies. *)
Definition maybe_tc_ok (v : ValidatorVerifier) (tc : option TwoChainTimeoutCertificate) : Prop :=
  match tc with Some tc => tc_verify tc v = Ok tt | None => True end.
Lemma verify_maybe_tc_Ok tc (s : SafetyRules St) u s' es :
  verify_maybe_tc tc s = (Ok u, s') → epoch_state s = Some es →
  s' = s ∧ maybe_tc_ok (es_verifier es) tc.
Proof.
  destruct tc as [tc|]; cbn; [|by intros [= _ <-]].
  unfold verify_tc. intros Hrun Hes. inv_M. apply get_epoch_state_Ok in Hrun0 as [-> ?].
  destruct u. simplify_eq. done.
Qed.

Lemma verify_epoch_Ok e d u : verify_epoch e d = Ok u → e = sd_epoch d.
Proof. unfold verify_epoch. intros ?%ensure_Ok%N.eqb_eq. done. Qed.

(** What [verify_proposal] has checked of a proposal. *)
Record proposal_ok (now : N) (vp : VoteProposal) (d : SafetyData) (es : EpochState)
    (vd : VoteData) : Prop := {
  po_epoch : block_epoch (vp_block vp) = sd_epoch d;
  po_qc : quorum_cert_verify (block_quorum_cert (vp_block vp)) (es_verifier es) = Ok tt;
  po_signature : validate_signature (vp_block vp) (es_verifier es) = Ok tt;
  po_well_formed : verify_well_formed now (vp_block vp) = Ok tt;
  po_vote_data : gen_vote_data vp = Ok vd;
}.

Lemma verify_proposal_Ok now vp (s : SafetyRules St) vd s' :
  verify_proposal now vp s = (Ok vd, s') → cache_ok s →
  quiet s s' ∧ ∃ d es, stored s = Some d ∧ epoch_state s = Some es ∧ proposal_ok now vp d es vd.
Proof.
  intros Hrun Hc. split; [by eapply Quiet_verify_proposal|].
  unfold verify_proposal in Hrun. inv_M.
  apply safety_data_Ok in Hrun0 as (Hq & Hd & _); [|done].
  apply verify_qc_Ok in Hrun2 as (-> & es & Hes & Hqc).
  apply get_epoch_state_Ok in Hrun3 as [-> Hes']. simplify_eq.
  match goal with E : verify_epoch _ _ = _ |- _ => apply verify_epoch_Ok in E end.
  rewrite (quiet_epoch_state _ _ Hq) in *. destruct_units. eauto 10 using proposal_ok.
Qed.

(** *** Methods that end in one write *)

(** Signer, epoch state and cache discipline are kept. *)
Definition framed (s s' : SafetyRules St) : Prop :=
  validator_signer s' = validator_signer s ∧ epoch_state s' = epoch_state s ∧
  enable_cached_safety_data (persistent_storage s') = enable_cached_safety_data (persistent_storage s) ∧
  (cache_ok s → cache_ok s').
(** Moreover nothing is persisted unless the method succeeds. *)
Definition Saves {A} (m : M (SafetyRules St) Error A) : Prop :=
  ∀ s r s', m s = (r, s') → framed s s' ∧ (is_ok r = false → stored s' = stored s).

#[local] Instance framed_preorder : PreOrder framed.
Proof. split; [by intros s|]. unfold framed. intros s t u. naive_solver congruence. Qed.
Lemma quiet_framed s s' : quiet s s' → framed s s'.
Proof. unfold quiet, pss_quiet, framed, cache_ok. naive_solver. Qed.

Lemma Saves_Quiet {A} (m : M (SafetyRules St) Error A) : Quiet m → Saves m.
Proof.
  intros Hm s r s' Hrun%Hm. split; [by apply quiet_framed|]. intros _. by apply quiet_stored.
Qed.
Lemma Saves_bind {A B} (m : M (SafetyRules St) Error A) (k : A → M (SafetyRules St) Error B) :
  Quiet m → (∀ a, Saves (k a)) → Saves (m ≫= k).
Proof.
  intros Hm Hk s r s' Hrun. apply M_bind_inv in Hrun as [(a & t & H1 & H2)|(r' & H1 & _ & Hr)].
  - apply Hm in H1. apply Hk in H2 as [Hf Hr]. split; [by etrans; [apply quiet_framed|]|].
    intros ?%Hr. by rewrite <-(quiet_stored _ _ H1).
  - apply Hm in H1. split; [by apply quiet_framed|]. intros _. by apply quiet_stored.
Qed.

Lemma on_set_safety_data d s r s' :
  on_storage (St := St) (set_safety_data d) s = (r, s') →
  framed s s' ∧ stored s' = if is_ok r then Some d else stored s.
Proof.
  unfold on_storage. destruct (set_safety_data d (persistent_storage s)) as [r0 p] eqn:E.
  intros [= <- <-]. apply set_safety_data_spec in E as (H1 & H2 & H3). done.
Qed.
Lemma Saves_set {A} d (a : A) :
  Saves (x ← on_storage (set_safety_data d); mret a).
Proof.
  intros s r s' Hrun. apply M_bind_inv in Hrun as [(u & t & H1 & H2)|(r' & H1 & Hr' & _)];
    apply on_set_safety_data in H1 as [Hf Hst].
  - injection H2 as <- <-. done.
  - rewrite Hr' in Hst. done.
Qed.
Hint Resolve Saves_Quiet Saves_bind Saves_set : arx_quiet.

Lemma Saves_cast_vote b tc vd d : Saves (cast_vote b tc vd d).
Proof. unfold cast_vote. eauto 20 with arx_quiet. Qed.
Hint Resolve Saves_cast_vote : arx_quiet.
Lemma Saves_vote now vp tc :
  Saves (guarded_construct_and_sign_vote_two_chain now vp tc).
Proof.
  unfold guarded_construct_and_sign_vote_two_chain.
  apply Saves_bind; [eauto with arx_quiet|intros _].
  apply Saves_bind; [eauto with arx_quiet|intros vd].
  apply Saves_bind; [eauto with arx_quiet|intros _].
  apply Saves_bind; [eauto with arx_quiet|intros d]. cbn zeta.
  destruct (sd_last_vote d) as [v|]; [case_match|]; eauto with arx_quiet.
Qed.

(** *** Voting *)

(** The ledger info a vote signs: the 2-chain commit rule. *)
Definition two_chain_ledger_info (b : Block) (vd : VoteData) : LedgerInfo :=
  mkLedgerInfo
    (if bi_round (certified_block (block_quorum_cert b)) + 1 =? block_round b
     then certified_block (block_quorum_cert b) else block_info_empty)
    (crypto_hash vd).
(** The vote a signer casts, and the data it persists with it. *)
Definition is_vote_for (signer : ValidatorSigner) (b : Block) (vd : VoteData) (v : Vote) : Prop :=
  ∃ bytes, signing_message (two_chain_ledger_info b vd) = Some bytes ∧
    v = mkVote vd (vs_author signer) (two_chain_ledger_info b vd)
          (bls_sign (vs_private_key signer) bytes) None.
Definition data_after_vote (d : SafetyData) (b : Block) (v : Vote) : SafetyData :=
  mkSafetyData (sd_epoch d) (block_round b)
    (N.max (sd_preferred_round d) (bi_round (parent_block (block_quorum_cert b))))
    (N.max (sd_one_chain_round d) (bi_round (certified_block (block_quorum_cert b)))) (Some v).

(** Answering a proposal: the stored vote of that round again, or a new one. *)
Inductive vote_answer (signer : ValidatorSigner) (d : SafetyData) (vp : VoteProposal)
    (tc : option TwoChainTimeoutCertificate) (vd : VoteData) (v : Vote) : SafetyData → Prop :=
| vote_again :
    sd_last_vote d = Some v → vote_round v = block_round (vp_block vp) →
    vote_answer signer d vp tc vd v d
| vote_new_round :
    sd_last_voted_round d < block_round (vp_block vp) →
    two_chain_vote_rule (block_round (vp_block vp))
      (bi_round (certified_block (block_quorum_cert (vp_block vp))))
      (maybe_tc_round tc) (maybe_tc_hqc_round tc) →
    is_vote_for signer (vp_block vp) vd v →
    vote_answer signer d vp tc vd v (data_after_vote d (vp_block vp) v).

Lemma construct_ledger_info_2chain_Ok b vd li :
  construct_ledger_info_2chain b (crypto_hash vd) = Ok li → li = two_chain_ledger_info b vd.
Proof.
  unfold construct_ledger_info_2chain. intros Hli. inv_ok.
  apply next_round_Ok in Hok as [-> _]. done.
Qed.

Lemma cast_vote_Ok signer vp tc vd d (s : SafetyRules St) v s' :
  cast_vote (vp_block vp) tc vd d s = (Ok v, s') → validator_signer s = Some signer →
  ∃ d', vote_answer signer d vp tc vd v d' ∧ stored s' = Some d'.
Proof.
  unfold cast_vote. intros Hrun Hsigner. inv_M. destruct_units.
  unfold verify_and_update_last_vote_round in *.
  destruct (N.leb_spec (block_round (vp_block vp)) (sd_last_voted_round d)); [done|]. inv_ok.
  repeat match goal with
  | E : get_signer _ = _ |- _ => apply get_signer_Ok in E as [-> E]
  | E : construct_ledger_info_2chain _ _ = _ |- _ =>
      apply construct_ledger_info_2chain_Ok in E as ->
  | E : sr_sign _ _ = _ |- _ => apply sr_sign_Ok in E as (-> & ? & bytes & ? & ? & ->)
  | E : safe_to_vote _ _ = _ |- _ => apply safe_to_vote_rule in E
  | E : on_storage (set_safety_data _) _ = _ |- _ => apply on_set_safety_data in E as [_ E]
  end. simplify_eq. rewrite observe_qc_data in *.
  eexists. split; [|cbn in *; eassumption].
  apply vote_new_round; [done|done|]. by exists bytes.
Qed.

Lemma vote_Ok now vp tc (s : SafetyRules St) v s' :
  guarded_construct_and_sign_vote_two_chain now vp tc s = (Ok v, s') → cache_ok s →
  ∃ d es signer vd d', stored s = Some d ∧ epoch_state s = Some es ∧
    validator_signer s = Some signer ∧ proposal_ok now vp d es vd ∧
    maybe_tc_ok (es_verifier es) tc ∧
    vote_answer signer d vp tc vd v d' ∧ stored s' = Some d'.
Proof.
  intros Hrun Hc. unfold guarded_construct_and_sign_vote_two_chain in Hrun. inv_M.
  apply get_signer_Ok in Hrun0 as [-> Hsigner].
  apply verify_proposal_Ok in Hrun1 as (Hq & d & es & Hd & Hes & Hp); [|done].
  apply (verify_maybe_tc_Ok _ _ _ _ es) in Hrun2 as [-> Htc];
    [|by rewrite (quiet_epoch_state _ _ Hq)].
  apply safety_data_Ok in Hrun3 as (Hq' & Hd' & _); [|by eapply quiet_cache_ok].
  rewrite (quiet_stored _ _ Hq), Hd in Hd'. injection Hd' as <-.
  assert (quiet s s3) as Hq3 by by etrans.
  exists d, es, a, a0. cut (∃ d', vote_answer a d vp tc a0 v d' ∧ stored s' = Some d');
    [naive_solver|].
  rewrite <-(quiet_signer _ _ Hq3) in Hsigner.
  destruct (sd_last_vote d) as [v0|] eqn:Hlv; [|by eapply cast_vote_Ok].
  destruct (N.eqb_spec (vote_round v0) (block_round (vp_block vp))); [|by eapply cast_vote_Ok].
  injection Hrun as <- <-. exists d. split; [by constructor|]. by rewrite (quiet_stored _ _ Hq3).
Qed.

(** *** Timing out *)

Definition data_after_timeout (d : SafetyData) (round : Round) : SafetyData :=
  mkSafetyData (sd_epoch d) (N.max (sd_last_voted_round d) round) (sd_preferred_round d)
    (sd_one_chain_round d) (sd_last_vote d).

(** The write before the signature. *)
Lemma persist_timeout d round (s : SafetyRules St) r s' :
  (if sd_last_voted_round d <? round then
     d' ← mlift (verify_and_update_last_vote_round round d); on_storage (set_safety_data d')
   else mret tt) s = (r, s') → stored s = Some d → sd_last_voted_round d ≤ round →
  framed s s' ∧ stored s' = Some (if is_ok r then data_after_timeout d round else d).
Proof.
  unfold verify_and_update_last_vote_round, data_after_timeout. intros Hrun Hd Hle.
  destruct (N.ltb_spec (sd_last_voted_round d) round) as [Hlt|Hge].
  - destruct (N.leb_spec round (sd_last_voted_round d)); [lia|].
    erewrite mlift_bind in Hrun by done. apply on_set_safety_data in Hrun as [Hf ->].
    split; [done|]. rewrite Hd, N.max_r by lia. by destruct (is_ok r).
  - injection Hrun as <- <-. split; [done|]. rewrite Hd. cbn. f_equal.
    rewrite N.max_l by lia. by destruct d.
Qed.

(** What was checked before a timeout is signed. *)
Record timeout_ok (t : TwoChainTimeout) (tc : option TwoChainTimeoutCertificate)
    (d : SafetyData) (es : EpochState) : Prop := {
  tmo_epoch : to_epoch t = sd_epoch d;
  tmo_verify : timeout_verify t (es_verifier es) = Ok tt;
  tmo_tc : maybe_tc_ok (es_verifier es) tc;
  tmo_rule : two_chain_timeout_rule (to_round t) (hqc_round t) (maybe_tc_round tc)
               (sd_one_chain_round d);
  tmo_round : sd_last_voted_round d ≤ to_round t;
}.

Lemma timeout_Ok t tc (s : SafetyRules St) sig s' :
  guarded_sign_timeout_with_qc t tc s = (Ok sig, s') → cache_ok s →
  ∃ d es signer bytes, stored s = Some d ∧ epoch_state s = Some es ∧
    validator_signer s = Some signer ∧ timeout_ok t tc d es ∧
    signing_message (signing_format t) = Some bytes ∧
    sig = bls_sign (vs_private_key signer) bytes ∧
    stored s' = Some (data_after_timeout d (to_round t)).
Proof.
  intros Hrun Hc. unfold guarded_sign_timeout_with_qc in Hrun. inv_M. destruct_units.
  apply get_signer_Ok in Hrun0 as [-> Hsigner].
  apply safety_data_Ok in Hrun1 as (Hq & Hd & _); [|done].
  match goal with E : get_epoch_state _ = _ |- _ => apply get_epoch_state_Ok in E as [-> Hes] end.
  match goal with E : verify_maybe_tc _ _ = _ |- _ => 
    eapply verify_maybe_tc_Ok in E as [-> Htc]; [|done] end.
  match goal with E : verify_epoch _ _ = _ |- _ => apply verify_epoch_Ok in E end.
  match goal with E : safe_to_timeout _ _ _ = _ |- _ => apply safe_to_timeout_rule in E end.
  destruct (N.ltb_spec (to_round t) (sd_last_voted_round a0)); [done|].
  inv_M.
  apply persist_timeout in Hrun8 as [Hf Hst]; [|by rewrite (quiet_stored _ _ Hq)|done].
  apply sr_sign_Ok in Hrun as (-> & signer & bytes & Hs' & Hbytes & ->).
  rewrite (proj1 Hf), (quiet_signer _ _ Hq), Hsigner in Hs'. injection Hs' as <-.
  rewrite (quiet_epoch_state _ _ Hq) in Hes.
  exists a0, a2, a, bytes. eauto 10 using timeout_ok.
Qed.

Lemma timeout_any t tc (s : SafetyRules St) r s' :
  guarded_sign_timeout_with_qc t tc s = (r, s') → cache_ok s →
  framed s s' ∧ (stored s' = stored s ∨ ∃ d, stored s = Some d ∧
    to_epoch t = sd_epoch d ∧ stored s' = Some (data_after_timeout d (to_round t))).
Proof.
  intros Hrun Hc. unfold guarded_sign_timeout_with_qc in Hrun.
  assert (∀ s'', quiet s s'' → framed s s'' ∧ (stored s'' = stored s ∨ ∃ d, stored s = Some d ∧
    to_epoch t = sd_epoch d ∧ stored s'' = Some (data_after_timeout d (to_round t)))) as Hquiet.
  { intros s'' Hq. split; [by apply quiet_framed|]. left. by apply quiet_stored. }
  apply M_bind_inv in Hrun as [(? & ? & E & Hrun)|(? & E & _)];
    [apply get_signer_Ok in E as [-> _]|by eapply Hquiet, Quiet_get_signer].
  apply M_bind_inv in Hrun as [(d & s1 & E & Hrun)|(? & E & _)];
    [|by eapply Hquiet, Quiet_safety_data].
  apply safety_data_Ok in E as (Hq & Hd & _); [|done].
  apply M_bind_inv in Hrun as [(? & ? & E & Hrun)|(? & E & _)]; apply mlift_run in E as [E ->];
    [apply verify_epoch_Ok in E|by apply Hquiet].
  apply M_bind_inv in Hrun as [(es & ? & E1 & Hrun)|(? & E1 & _)];
    [apply get_epoch_state_Ok in E1 as [-> _]|by eapply Hquiet; etrans; [|eapply Quiet_get_epoch_state]].
  apply M_bind_inv in Hrun as [(? & ? & E1 & Hrun)|(? & E1 & _)]; apply mlift_run in E1 as [E1 ->];
    [|by apply Hquiet].
  apply M_bind_inv in Hrun as [(? & s2 & E2 & Hrun)|(? & E2 & _)];
    apply Quiet_verify_maybe_tc in E2; [|by apply Hquiet; etrans].
  assert (quiet s s2) as Hq2 by by etrans. clear E2.
  apply M_bind_inv in Hrun as [(? & ? & E2 & Hrun)|(? & E2 & _)]; apply mlift_run in E2 as [E2 ->];
    [|by apply Hquiet].
  destruct (N.ltb_spec (to_round t) (sd_last_voted_round d)) as [?|Hround].
  { apply M_bind_inv in Hrun as [(? & ? & E3 & Hrun)|(? & E3 & _)]; apply mlift_run in E3 as [E3 ->];
      [done|by apply Hquiet]. }
  rewrite mret_bind in Hrun.
  apply M_bind_inv in Hrun as [(? & s3 & E3 & Hrun)|(? & E3 & Herr & _)];
    (apply persist_timeout in E3 as [Hf Hst]; [|by rewrite (quiet_stored _ _ Hq2)|done]).
  - apply Quiet_sign in Hrun. split.
    + etrans; [by apply quiet_framed|]. etrans; [done|by apply quiet_framed].
    + right. exists d. split; [done|]. split; [done|]. by rewrite (quiet_stored _ _ Hrun).
  - split; [by etrans; [apply quiet_framed|]|]. left. rewrite Hst, Herr. done.
Qed.

(** *** Changing epoch *)

Definition stored_waypoint (s : SafetyRules St) : option Waypoint :=
  storage_contents (internal_store (persistent_storage s)) !! WAYPOINT ≫= as_waypoint.
Definition stored_author (s : SafetyRules St) : option Author :=
  storage_contents (internal_store (persistent_storage s)) !! OWNER_ACCOUNT ≫= as_author.

(** [es] is the epoch state a proof leads to from the stored waypoint. *)
Definition proven_epoch (proof : EpochChangeProof) (s : SafetyRules St) (es : EpochState) : Prop :=
  ∃ w li, stored_waypoint s = Some w ∧
    epoch_change_proof_verify proof (waypoint_verifier w) = Ok li ∧
    li_next_epoch_state (liws_ledger_info li) = Some es.

Lemma on_read_store {A} (decode : StoredValue → option A) key (s : SafetyRules St) a s' :
  on_storage (read_store decode key) s = (Ok a, s') → quiet s s' ∧
  storage_contents (internal_store (persistent_storage s)) !! key ≫= decode = Some a.
Proof.
  intros Hrun. split; [by eapply Quiet_read_store|]. unfold on_storage in Hrun.
  destruct (read_store decode key (persistent_storage s)) as [r p] eqn:E.
  injection Hrun as -> _. apply read_store_spec in E as (_ & _ & E). by apply E.
Qed.

Lemma quiet_author s s' : quiet s s' → stored_author s' = stored_author s.
Proof. intros ((Hc & _) & _). unfold stored_author. by rewrite Hc. Qed.

Lemma on_set_waypoint w s r s' :
  on_storage (St := St) (set_waypoint w) s = (r, s') → framed s s' ∧ stored s' = stored s.
Proof.
  unfold on_storage. destruct (set_waypoint w (persistent_storage s)) as [r0 p] eqn:E.
  intros [= <- <-]. apply set_waypoint_spec in E as (H1 & H2 & H3). done.
Qed.

Lemma update_waypoint_spec proof (s : SafetyRules St) r s' :
  update_waypoint proof s = (r, s') → framed s s' ∧ stored s' = stored s ∧
  ∀ w nw es, r = Ok (w, nw, es) → proven_epoch proof s es.
Proof.
  intros Hrun. unfold update_waypoint in Hrun.
  apply M_bind_inv in Hrun as [(w & s1 & E & Hrun)|(r' & E & ? & ?)].
  2:{ apply Quiet_read_store in E. split; [by apply quiet_framed|].
      split; [by apply quiet_stored|]. by intros ? ? ? ->. }
  apply on_read_store in E as [Hq Hw].
  pose proof (quiet_framed _ _ Hq) as Hf. pose proof (quiet_stored _ _ Hq) as Hst.
  apply M_bind_inv in Hrun as [(li & ? & E & Hrun)|(r' & E & ? & ?)];
    apply mlift_run in E as [E ->]; [|by split; [|split; [|by intros ? ? ? ->]]].
  apply M_bind_inv in Hrun as [(es & ? & E1 & Hrun)|(r' & E1 & ? & ?)];
    apply mlift_run in E1 as [E1 ->]; [|by split; [|split; [|by intros ? ? ? ->]]].
  apply M_bind_inv in Hrun as [(nw & ? & E3 & Hrun)|(r' & E3 & ? & ?)];
    apply mlift_run in E3 as [E3 ->]; [|by split; [|split; [|by intros ? ? ? ->]]].
  inv_ok.
  apply M_bind_inv in Hrun as [(? & s2 & E2 & Hrun)|(r' & E2 & ? & ?)].
  - inv_M. subst r. destruct (wp_version w <? wp_version nw).
    + apply on_set_waypoint in E2 as [Hf2 Hst2]. split; [by etrans|]. split; [congruence|].
      intros ? ? ? [= <- <- <-]. by eexists w, _.
    + inv_M. split; [done|]. split; [done|]. intros ? ? ? [= <- <- <-]. by eexists w, _.
  - destruct (wp_version w <? wp_version nw); [|inv_M; by subst].
    apply on_set_waypoint in E2 as [Hf2 Hst2]. split; [by etrans|]. split; [congruence|].
    by intros ? ? ? ->.
Qed.

(** The persisted data when entering an epoch. *)
Definition data_in_epoch (d : SafetyData) (es : EpochState) : SafetyData :=
  if sd_epoch d <? es_epoch es then mkSafetyData (es_epoch es) 0 0 0 None else d.

Lemma enter_epoch_spec w nw es (s : SafetyRules St) r s' :
  enter_epoch w nw es s = (r, s') → cache_ok s →
  cache_ok s' ∧ validator_signer s' = validator_signer s ∧
  if is_ok r then
    ∃ d, stored s = Some d ∧ sd_epoch d ≤ es_epoch es ∧
      stored s' = Some (data_in_epoch d es) ∧ epoch_state s' = Some es
  else stored s' = stored s ∧ epoch_state s' = epoch_state s.
Proof.
  intros Hrun Hc. unfold enter_epoch in Hrun.
  apply M_bind_inv in Hrun as [(d & s1 & E & Hrun)|(r' & E & _ & Hr)].
  2:{ apply Quiet_safety_data in E. rewrite Hr. split; [by eapply quiet_cache_ok|].
      split; [by apply quiet_signer|]. split; [by apply quiet_stored|by apply quiet_epoch_state]. }
  apply safety_data_Ok in E as (Hq & Hd & _); [|done].
  pose proof (quiet_cache_ok _ _ Hq Hc) as Hc1.
  rewrite <-(quiet_stored _ _ Hq), <-(quiet_signer _ _ Hq), <-(quiet_epoch_state _ _ Hq) in *.
  unfold data_in_epoch, set_epoch_state in *.
  apply M_bind_inv in Hrun as [(u & s2 & E & Hrun)|(r' & E & Hr' & Hr)].
  - rewrite mget_bind in Hrun. injection Hrun as <- <-. cbn.
    destruct (N.compare_spec (sd_epoch d) (es_epoch es)) as [He|He|He]; inv_M.
    + split; [done|]. split; [done|]. exists d. rewrite (proj2 (N.ltb_ge _ _)) by lia.
      split; [done|]. split; [lia|done].
    + apply on_set_safety_data in E as [(?&?&?&?) Hst].
      split; [auto|]. split; [done|]. exists d. rewrite (proj2 (N.ltb_lt _ _)) by lia.
      split; [done|]. split; [lia|done].
  - rewrite Hr. destruct (N.compare_spec (sd_epoch d) (es_epoch es)) as [He|He|He].
    + inv_M. by subst r'.
    + apply on_set_safety_data in E as [(?&?&?&?) Hst]. rewrite Hr' in Hst. auto.
    + inv_M. done.
Qed.

(** The signer holds the key the verifier lists for [author]. *)
Definition signer_in_set (es : EpochState) (author : Author) (signer : ValidatorSigner) : Prop :=
  get_public_key (es_verifier es) author = Some (validator_signer_public_key signer).

Lemma consensus_key_Ok pk (s : SafetyRules St) k s' :
  on_storage (consensus_key_for_version pk) s = (Ok k, s') → bls_public_key k = pk.
Proof.
  unfold on_storage. destruct (consensus_key_for_version pk (persistent_storage s)) as [r p] eqn:E.
  intros [= -> _]. unfold consensus_key_for_version in E. inv_M.
  destruct (N.eqb_spec (bls_public_key a) pk); inv_M. congruence.
Qed.
Lemma Quiet_consensus_key pk : Quiet (on_storage (consensus_key_for_version (St := St) pk)).
Proof.
  apply Quiet_on_storage. intros p r p' Hrun. unfold consensus_key_for_version in Hrun.
  apply M_bind_inv in Hrun as [(k & p1 & E & Hrun)|(r' & E & _)];
    apply read_store_spec in E as [Hq _]; [|done].
  case_match; inv_M; done.
Qed.

Lemma reconcile_key_spec es author (s : SafetyRules St) r s' :
  clear_signer_on_error (reconcile_key author (get_public_key (es_verifier es) author)) s = (r, s') →
  (cache_ok s → cache_ok s') ∧ stored s' = stored s ∧ stored_author s' = stored_author s ∧
  epoch_state s' = epoch_state s ∧
  match r with
  | Ok _ => ∃ signer, validator_signer s' = Some signer ∧ signer_in_set es author signer
  | Err _ => validator_signer s' = None
  | Panic => validator_signer s' = validator_signer s
  end.
Proof.
  unfold clear_signer_on_error, reconcile_key, signer_in_set.
  destruct (get_public_key (es_verifier es) author) as [pk|] eqn:Hpk; cbn.
  2:{ by intros [= <- <-]. }
  unfold mbind, M_bind, mget. case_bool_decide as Hk.
  { intros [= <- <-]. destruct (validator_signer s) as [sg|]; [|done]. injection Hk as Hk.
    repeat (split; [done|]). exists sg. by rewrite Hk. }
  destruct (on_storage (consensus_key_for_version pk) s) as [r1 s1] eqn:E.
  pose proof (Quiet_consensus_key _ _ _ _ E) as Hq.
  pose proof (quiet_cache_ok _ _ Hq). pose proof (quiet_stored _ _ Hq).
  pose proof (quiet_epoch_state _ _ Hq). pose proof (quiet_author _ _ Hq).
  destruct r1 as [k|e|].
  - intros [= <- <-]. apply consensus_key_Ok in E. cbn. naive_solver.
  - destruct e; intros [= <- <-]; done.
  - intros [= <- <-]. pose proof (quiet_signer _ _ Hq). done.
Qed.
End operations.

(** ** Runs of one node *)

(** The calls of [TSafetyRules], and a process restart over the same store. *)
Inductive sr_call :=
| CallConsensusState (tracing : bool)
| CallInitialize (proof : EpochChangeProof)
| CallSignProposal (block_data : BlockData)
| CallSignTimeout (timeout : TwoChainTimeout) (timeout_cert : option TwoChainTimeoutCertificate)
| CallVote (current_micros : N) (vote_proposal : VoteProposal)
    (timeout_cert : option TwoChainTimeoutCertificate)
| CallSignCommitVote (ledger_info : LedgerInfoWithSignatures) (new_ledger_info : LedgerInfo)
| CallRestart.

(** What leaves the node under its signature. *)
Inductive output :=
| OutProposal (block_data : BlockData)
| OutTimeout (timeout : TimeoutSigningRepr)
| OutVote (vote : Vote)
| OutCommitVote (ledger_info : LedgerInfoWithSignatures) (new_ledger_info : LedgerInfo).

Section runs.
Context `{!Bls} `{!ArxHashes} {St : Type} `{!KVStorage St}.

Definition release {A} (f : A → output) (run : outcome Error A * SafetyRules St)
  : option output * SafetyRules St :=
  (match run.1 with Ok a => Some (f a) | _ => None end, run.2).

Definition sr_exec (c : sr_call) (s : SafetyRules St) : option output * SafetyRules St :=
  match c with
  | CallConsensusState tracing => (None, (guarded_consensus_state tracing s).2)
  | CallInitialize proof => (None, (guarded_initialize proof s).2)
  | CallSignProposal b => release (λ _, OutProposal b) (guarded_sign_proposal b s)
  | CallSignTimeout t tc =>
      release (λ _, OutTimeout (signing_format t)) (guarded_sign_timeout_with_qc t tc s)
  | CallVote now vp tc => release OutVote (guarded_construct_and_sign_vote_two_chain now vp tc s)
  | CallSignCommitVote li li' =>
      release (λ _, OutCommitVote li li') (guarded_sign_commit_vote li li' s)
  | CallRestart =>
      (None, safety_rules_new (pss_new (internal_store (persistent_storage s))
               (enable_cached_safety_data (persistent_storage s))))
  end.

(** Latest output first. *)
Fixpoint sr_run (calls : list sr_call) (outs : list output) (s : SafetyRules St)
  : list output * SafetyRules St :=
  match calls with
  | [] => (outs, s)
  | c :: calls => let '(o, s') := sr_exec c s in sr_run calls (option_list o ++ outs) s'
  end.
End runs.

Definition vote_parent_round (v : Vote) : Round := bi_round (vd_parent (vote_vote_data v)).

(** The order in which persisted safety data moves. *)
Definition safety_data_le (d d' : SafetyData) : Prop :=
  sd_epoch d < sd_epoch d' ∨
  (sd_epoch d = sd_epoch d' ∧ sd_last_voted_round d ≤ sd_last_voted_round d' ∧
   sd_preferred_round d ≤ sd_preferred_round d' ∧ sd_one_chain_round d ≤ sd_one_chain_round d').

#[export] Instance safety_data_le_preorder : PreOrder safety_data_le.
Proof. split; [right; lia|]. unfold safety_data_le. intros a b c ? ?. lia. Qed.

(** A vote the node has cast: released, or persisted and not yet released. *)
Definition cast (outs : list output) (d : SafetyData) (v : Vote) : Prop :=
  OutVote v ∈ outs ∨ sd_last_vote d = Some v.

(** What holds between a node's outputs and its persisted data. *)
Record node_inv (outs : list output) (d : SafetyData) : Prop := {
  ni_last_vote : ∀ v, sd_last_vote d = Some v → vote_epoch v = sd_epoch d;
  ni_vote_epoch : ∀ v, cast outs d v → vote_epoch v ≤ sd_epoch d;
  ni_vote_round : ∀ v, cast outs d v → vote_epoch v = sd_epoch d →
    vote_round v ≤ sd_last_voted_round d ∧ vote_parent_round v ≤ sd_one_chain_round d;
  ni_timeout_epoch : ∀ t, OutTimeout t ∈ outs → tsr_epoch t ≤ sd_epoch d;
  ni_timeout_round : ∀ t, OutTimeout t ∈ outs → tsr_epoch t = sd_epoch d →
    tsr_round t ≤ sd_last_voted_round d;
  ni_timeout_hqc : ∀ v t, cast outs d v → OutTimeout t ∈ outs → vote_epoch v = tsr_epoch t →
    vote_round v ≤ tsr_round t → vote_parent_round v ≤ tsr_hqc_round t;
  ni_one_vote : ∀ v v', cast outs d v → cast outs d v' → vote_epoch v = vote_epoch v' →
    vote_round v = vote_round v' → v = v';
}.

(** The data a fresh store starts from, or any store between two votes. *)
Definition safety_data_wf (d : SafetyData) : Prop := node_inv [] d.

Lemma node_inv_fresh e lv p o : safety_data_wf (mkSafetyData e lv p o None).
Proof.
  split; unfold cast; intros; cbn in *; repeat match goal with
  | H : _ ∨ _ |- _ => destruct H as [H|H]
  | H : _ ∈ [] |- _ => by apply not_elem_of_nil in H
  end; done.
Qed.

(** Outputs that are neither votes nor timeouts change nothing. *)
Lemma node_inv_other outs o d :
  (∀ v, o ≠ OutVote v) → (∀ t, o ≠ OutTimeout t) → node_inv outs d → node_inv (o :: outs) d.
Proof.
  intros Hv Ht [? ? ? ? ? ? ?].
  assert (∀ v, cast (o :: outs) d v → cast outs d v) as Hc.
  { intros v [[<-|?]%elem_of_cons|?]; [by destruct (Hv v)|by left|by right]. }
  assert (∀ t, OutTimeout t ∈ o :: outs → OutTimeout t ∈ outs) as Ht'.
  { intros t [<-|?]%elem_of_cons; [by destruct (Ht t)|done]. }
  split; eauto.
Qed.

(** Entering a later epoch. *)
Lemma node_inv_epoch outs d es :
  sd_epoch d ≤ es_epoch es → node_inv outs d → node_inv outs (data_in_epoch d es).
Proof.
  unfold data_in_epoch. intros He Hi. case_N; [|done]. destruct Hi.
  assert (∀ v, cast outs (mkSafetyData (es_epoch es) 0 0 0 None) v → cast outs d v) as Hc.
  { intros v [?|?]; [by left|done]. }
  split; cbn; try done.
  - intros v ?%Hc%ni_vote_epoch0. lia.
  - intros v ?%Hc%ni_vote_epoch0 ?. lia.
  - intros t ?%ni_timeout_epoch0. lia.
  - intros t ?%ni_timeout_epoch0 ?. lia.
  - eauto.
  - eauto.
Qed.

(** Signing (and before it persisting) a timeout. *)
Lemma node_inv_persist_timeout outs d r :
  node_inv outs d → node_inv outs (data_after_timeout d r).
Proof.
  intros []. assert (∀ v, cast outs (data_after_timeout d r) v → cast outs d v) as Hc by done.
  split; cbn; try done.
  - intros v Hv%Hc He. destruct (ni_vote_round0 v Hv He). lia.
  - intros t Ht He. specialize (ni_timeout_round0 t Ht He). lia.
Qed.
Lemma node_inv_timeout outs d t :
  node_inv outs d → tsr_epoch t = sd_epoch d → tsr_round t ≤ sd_last_voted_round d →
  sd_one_chain_round d ≤ tsr_hqc_round t → node_inv (OutTimeout t :: outs) d.
Proof.
  intros [] He Hr Ho.
  assert (∀ v, cast (OutTimeout t :: outs) d v → cast outs d v) as Hc.
  { intros v [[?|?]%elem_of_cons|?]; [done|by left|by right]. }
  split; eauto.
  - intros t' [[= ->]|?]%elem_of_cons; [lia|auto].
  - intros t' [[= ->]|?]%elem_of_cons; auto.
  - intros v t' Hv%Hc [[= ->]|?]%elem_of_cons Hvt; [|eauto].
    destruct (ni_vote_round0 v Hv ltac:(congruence)). lia.
Qed.

(** Releasing the stored vote, and casting a new one. *)
Lemma node_inv_again outs d v :
  node_inv outs d → sd_last_vote d = Some v → node_inv (OutVote v :: outs) d.
Proof.
  intros [] Hv.
  assert (∀ v', cast (OutVote v :: outs) d v' → cast outs d v') as Hc.
  { intros v' [[[= ->]|?]%elem_of_cons|?]; [by right|by left|by right]. }
  assert (∀ t, OutTimeout t ∈ OutVote v :: outs → OutTimeout t ∈ outs) as Ht.
  { by intros t [?|?]%elem_of_cons. }
  split; eauto.
Qed.
Lemma node_inv_vote outs d d' v :
  node_inv outs d → sd_epoch d' = sd_epoch d → sd_last_vote d' = Some v →
  vote_epoch v = sd_epoch d → sd_last_voted_round d < vote_round v →
  sd_last_voted_round d' = vote_round v → sd_one_chain_round d ≤ sd_one_chain_round d' →
  vote_parent_round v ≤ sd_one_chain_round d' → node_inv outs d'.
Proof.
  intros [] He Hlv Hve Hr Hr' Ho Hp.
  assert (∀ v', cast outs d' v' → v' = v ∨ (v' ≠ v ∧ cast outs d v')) as Hc.
  { intros v' Hv'. destruct (decide (v' = v)); [by left|].
    destruct Hv' as [?|?]; [right; split; [done|by left]|simplify_eq]. }
  split; rewrite ?He.
  - congruence.
  - intros v' [->|[_ ?]]%Hc; [lia|auto].
  - intros v' [->|[_ Hv']]%Hc Hv'e; [lia|]. destruct (ni_vote_round0 v' Hv' Hv'e). lia.
  - auto.
  - intros t Ht Hte. specialize (ni_timeout_round0 t Ht Hte). lia.
  - intros v' t [->|[_ Hv']]%Hc Ht Hvt Hle; [|eauto].
    specialize (ni_timeout_round0 t Ht ltac:(congruence)). lia.
  - intros v1 v2 [->|[_ H1]]%Hc [->|[_ H2]]%Hc He12 Hr12; eauto.
    + destruct (ni_vote_round0 v2 H2 ltac:(congruence)). lia.
    + destruct (ni_vote_round0 v1 H1 ltac:(congruence)). lia.
Qed.

Section run_facts.
Context `{!Bls} `{!ArxHashes} {St : Type} `{!KVStorage St} `{!KVStorageLaws St}.

Lemma initialize_any proof (s : SafetyRules St) r s' :
  guarded_initialize proof s = (r, s') → cache_ok s → cache_ok s' ∧
  ((is_ok r = false ∧ stored s' = stored s ∧ epoch_state s' = epoch_state s ∧
    validator_signer s' = validator_signer s) ∨
   ∃ d es, stored s = Some d ∧ sd_epoch d ≤ es_epoch es ∧ proven_epoch proof s es ∧
     stored s' = Some (data_in_epoch d es) ∧ epoch_state s' = Some es ∧
     (is_ok r = true → ∃ author signer, stored_author s' = Some author ∧
        validator_signer s' = Some signer ∧ signer_in_set es author signer)).
Proof.
  intros Hrun Hc. unfold guarded_initialize in Hrun.
  apply M_bind_inv in Hrun as [([[w nw] es] & s1 & E & Hrun)|(r' & E & _ & Hr)];
    apply update_waypoint_spec in E as ((Hs1 & He1 & _ & Hc1) & Hst & Hp).
  2:{ split; [auto|]. left. done. }
  specialize (Hp w nw es eq_refl). specialize (Hc1 Hc).
  apply M_bind_inv in Hrun as [(u & s2 & E & Hrun)|(r' & E & Hr' & Hr)];
    apply enter_epoch_spec in E as (Hc2 & Hs2 & E); [| done | |done].
  2:{ rewrite Hr' in E. destruct E as [-> ->]. split; [done|]. left. by rewrite Hst, He1, Hs2, Hs1. }
  cbn in E. destruct E as (d & Hd & Hle & Hd' & He2). rewrite Hst in Hd.
  apply M_bind_inv in Hrun as [(author & s3 & E & Hrun)|(r' & E & Hr' & Hr)];
    apply Quiet_read_store in E as Hq; pose proof (quiet_cache_ok _ _ Hq Hc2) as Hc3;
    rewrite <-(quiet_stored _ _ Hq) in Hd'; rewrite <-(quiet_epoch_state _ _ Hq) in He2.
  - apply on_read_store in E as [_ Ha].
    apply reconcile_key_spec in Hrun as (Hc4 & Hst4 & Ha4 & He4 & Hkey). split; [auto|]. right.
    exists d, es. rewrite Hst4, He4. repeat (split; [done|]). intros Hok.
    destruct r; [|done..]. destruct Hkey as (signer & ? & ?). exists author, signer.
    by rewrite Ha4, (quiet_author _ _ Hq).
  - split; [done|]. right. exists d, es. repeat (split; [done|]). by rewrite Hr.
Qed.

(** The vote data built for a proposal names the block and its certified parent. *)
Lemma gen_vote_data_Ok vp vd :
  gen_vote_data vp = Ok vd →
  bi_epoch (vd_proposed vd) = block_epoch (vp_block vp) ∧
  bi_round (vd_proposed vd) = block_round (vp_block vp) ∧
  bi_id (vd_proposed vd) = block_id (vp_block vp) ∧
  vd_parent vd = certified_block (block_quorum_cert (vp_block vp)).
Proof.
  unfold gen_vote_data. destruct (vp_decoupled_execution vp); intros Hg; inv_ok; by subst vd.
Qed.

Lemma vote_answer_inv outs signer now d es vp tc vd v d' :
  proposal_ok now vp d es vd → vote_answer signer d vp tc vd v d' → node_inv outs d →
  node_inv (OutVote v :: outs) d' ∧ safety_data_le d d'.
Proof.
  intros Hp Ha Hi. destruct Ha as [Hlv Hr|Hr Hrule (bytes & _ & ->)].
  { split; [by apply node_inv_again|done]. }
  destruct (gen_vote_data_Ok _ _ (po_vote_data _ _ _ _ _ Hp)) as (He & Hrd & _ & Hpar).
  rewrite (po_epoch _ _ _ _ _ Hp) in He. split.
  - apply node_inv_again; [|done]. eapply node_inv_vote; [exact Hi|try done..];
      unfold vote_round, vote_parent_round; cbn; rewrite ?Hrd, ?Hpar; lia.
  - right. cbn. lia.
Qed.

Lemma timeout_inv outs t tc (s : SafetyRules St) d r s' :
  guarded_sign_timeout_with_qc t tc s = (r, s') → cache_ok s → stored s = Some d → node_inv outs d →
  ∃ d', stored s' = Some d' ∧ cache_ok s' ∧ safety_data_le d d' ∧
    node_inv (option_list (release (λ _, OutTimeout (signing_format t)) (r, s')).1 ++ outs) d'.
Proof.
  intros E Hc Hd Hi. pose proof E as E2.
  apply timeout_any in E2 as [(_ & _ & _ & Hc') Hst]; [|done].
  assert (∃ d', stored s' = Some d' ∧ safety_data_le d d' ∧ node_inv outs d') as (d' & Hd' & Hle & Hi').
  { destruct Hst as [->|(d0 & Hd0 & _ & ->)]; [by exists d|]. simplify_eq. eexists. split; [done|].
    split; [right; cbn; lia|by apply node_inv_persist_timeout]. }
  exists d'. split; [done|]. split; [auto|]. split; [done|]. destruct r as [sig| |]; [|done..]. cbn.
  apply timeout_Ok in E as (d0 & es & signer & bytes & Hd0 & _ & _ & [] & _ & _ & Hst1); [|done].
  simplify_eq. destruct tmo_rule0. apply node_inv_timeout; cbn; try done. lia.
Qed.

Lemma sr_exec_inv outs c (s : SafetyRules St) d o s' :
  sr_exec c s = (o, s') → cache_ok s → stored s = Some d → node_inv outs d →
  ∃ d', stored s' = Some d' ∧ cache_ok s' ∧ safety_data_le d d' ∧
    node_inv (option_list o ++ outs) d'.
Proof.
  intros Hexec Hc Hd Hi.
  assert (∀ s'', quiet s s'' → stored s'' = Some d ∧ cache_ok s'') as Hquiet.
  { intros s'' Hq. rewrite (quiet_stored _ _ Hq). split; [done|by eapply quiet_cache_ok]. }
  destruct c; cbn [sr_exec] in Hexec.
  - destruct (guarded_consensus_state tracing s) as [r s1] eqn:E. injection Hexec as <- <-.
    apply Quiet_consensus_state, Hquiet in E as [??]. by exists d.
  - destruct (guarded_initialize proof s) as [r s1] eqn:E. injection Hexec as <- <-.
    apply initialize_any in E as [Hc' [(_ & Hst & _)|(d0 & es & Hd0 & Hle & _ & Hst & _)]]; [| |done].
    + exists d. by rewrite Hst.
    + simplify_eq. exists (data_in_epoch d0 es). split; [done|]. split; [done|].
      split; [|by apply node_inv_epoch]. unfold data_in_epoch. case_N; [left; done|done].
  - destruct (guarded_sign_proposal block_data s) as [r s1] eqn:E. injection Hexec as <- <-.
    apply Quiet_sign_proposal, Hquiet in E as [??]. exists d. repeat (split; [done|]).
    destruct r; [by apply node_inv_other|done..].
  - destruct (guarded_sign_timeout_with_qc timeout timeout_cert s) as [r s1] eqn:E.
    injection Hexec as <- <-. by eapply timeout_inv.
  - destruct (guarded_construct_and_sign_vote_two_chain current_micros vote_proposal timeout_cert s)
      as [r s1] eqn:E. injection Hexec as <- <-.
    destruct (Saves_vote _ _ _ _ _ _ E) as [(_ & _ & _ & Hc') Herr].
    destruct r as [v|e|]; [|exists d; rewrite Herr by done; split; [done|]; by split; [auto|]..].
    apply vote_Ok in E as (d0 & es & signer & vd & d' & Hd0 & _ & _ & Hp & _ & Ha & Hst); [|done].
    simplify_eq. eapply vote_answer_inv in Ha as [Hi' Hle]; [|done|exact Hi]. exists d'. auto.
  - destruct (guarded_sign_commit_vote ledger_info new_ledger_info s) as [r s1] eqn:E.
    injection Hexec as <- <-.
    apply Quiet_sign_commit_vote, Hquiet in E as [??]. exists d. repeat (split; [done|]).
    destruct r; [by apply node_inv_other|done..].
  - injection Hexec as <- <-. exists d. by repeat (split; [done|]).
Qed.

Lemma sr_run_inv calls outs (s : SafetyRules St) d outs' s' :
  sr_run calls outs s = (outs', s') → cache_ok s → stored s = Some d → node_inv outs d →
  ∃ d', stored s' = Some d' ∧ cache_ok s' ∧ safety_data_le d d' ∧ node_inv outs' d'.
Proof.
  revert outs s d. induction calls as [|c calls IH]; intros outs s d Hrun Hc Hd Hi; cbn in Hrun.
  { injection Hrun as <- <-. by exists d. }
  destruct (sr_exec c s) as [o s1] eqn:E.
  eapply sr_exec_inv in E as (d1 & Hd1 & Hc1 & Hle & Hi1); [|done..].
  eapply IH in Hrun as (d2 & ? & ? & ? & ?); [|done..]. exists d2. repeat (split; [done|]).
  split; [|done]. by etrans.
Qed.

Lemma commit_vote_Ok li new_li (s : SafetyRules St) sig s' :
  guarded_sign_commit_vote li new_li s = (Ok sig, s') →
  ∃ es, epoch_state s = Some es ∧
    match_ordered_only (li_commit_info (liws_ledger_info li)) (li_commit_info new_li) = true ∧
    verify_signatures li (es_verifier es) = Ok tt.
Proof.
  intros Hrun. unfold guarded_sign_commit_vote in Hrun. inv_M. destruct_units.
  repeat match goal with
  | E : get_signer _ = _ |- _ => apply get_signer_Ok in E as [-> _]
  | E : get_epoch_state _ = _ |- _ => apply get_epoch_state_Ok in E as [-> ?]
  end. eauto.
Qed.

(** ** Forward runs over a store that does not fail *)

Lemma on_storage_cached (s : SafetyRules St) d :
  enable_cached_safety_data (persistent_storage s) = true →
  cached_safety_data (persistent_storage s) = Some d →
  on_storage pss_safety_data s = (Ok d, s).
Proof.
  intros He Hd. unfold on_storage, pss_safety_data. rewrite mget_bind, He, Hd. cbn. by destruct s.
Qed.
Lemma verify_epoch_refl d e : e = sd_epoch d → verify_epoch e d = Ok tt.
Proof. intros ->. unfold verify_epoch. by rewrite N.eqb_refl. Qed.
Lemma get_signer_run (s : SafetyRules St) x : validator_signer s = Some x → get_signer s = (Ok x, s).
Proof. intros ?. by apply get_signer_Ok. Qed.
Lemma get_epoch_state_run (s : SafetyRules St) x :
  epoch_state s = Some x → get_epoch_state s = (Ok x, s).
Proof. intros ?. by apply get_epoch_state_Ok. Qed.
Lemma sr_sign_run {A} `{!CryptoHash A} (m : A) (s : SafetyRules St) signer bytes :
  validator_signer s = Some signer → signing_message m = Some bytes →
  sr_sign m s = (Ok (bls_sign (vs_private_key signer) bytes), s).
Proof.
  intros Hs Hm. unfold sr_sign. rewrite (M_run_bind _ _ _ _ _ (get_signer_run _ _ Hs)).
  unfold mlift, validator_signer_sign. by rewrite Hm.
Qed.
Lemma verify_qc_run qc (s : SafetyRules St) es :
  epoch_state s = Some es → quorum_cert_verify qc (es_verifier es) = Ok tt →
  verify_qc qc s = (Ok tt, s).
Proof.
  intros He Hq. unfold verify_qc. rewrite (M_run_bind _ _ _ _ _ (get_epoch_state_run _ _ He)).
  unfold mlift. by rewrite Hq.
Qed.
Lemma verify_maybe_tc_run tc (s : SafetyRules St) es :
  epoch_state s = Some es → maybe_tc_ok (es_verifier es) tc →
  verify_maybe_tc tc s = (Ok tt, s).
Proof.
  intros He Ht. destruct tc as [tc|]; [|done]. cbn in *. unfold verify_tc.
  rewrite (M_run_bind _ _ _ _ _ (get_epoch_state_run _ _ He)). unfold mlift. by rewrite Ht.
Qed.
Lemma verify_proposal_run now vp (s s1 : SafetyRules St) d es vd :
  on_storage pss_safety_data s = (Ok d, s1) → epoch_state s1 = Some es →
  proposal_ok now vp d es vd → verify_proposal now vp s = (Ok vd, s1).
Proof.
  intros Hd He [H1 H2 H3 H4 H5]. unfold verify_proposal. rewrite (M_run_bind _ _ _ _ _ Hd).
  rewrite (mlift_bind _ _ _ _ (verify_epoch_refl _ _ H1)).
  rewrite (M_run_bind _ _ _ _ _ (verify_qc_run _ _ _ He H2)).
  rewrite (M_run_bind _ _ _ _ _ (get_epoch_state_run _ _ He)).
  rewrite H3. erewrite mlift_bind by done. rewrite H4. erewrite mlift_bind by done.
  rewrite H5. done.
Qed.
End run_facts.

Lemma set_safety_data_run (s : SafetyRules InMemoryStorage) d :
  ∃ s', on_storage (set_safety_data d) s = (Ok tt, s') ∧ stored s' = Some d.
Proof.
  eexists. split; [reflexivity|]. unfold stored, pss_stored. cbn. by rewrite lookup_insert_eq.
Qed.

(** Casting a vote, run forward. *)
Lemma cast_vote_run `{!Bls} `{!ArxHashes} (s : SafetyRules InMemoryStorage) vp tc vd d signer bytes :
  validator_signer s = Some signer → block_round (vp_block vp) < 2 ^ 64 →
  bi_round (certified_block (block_quorum_cert (vp_block vp))) < block_round (vp_block vp) →
  sd_last_voted_round d < block_round (vp_block vp) →
  two_chain_vote_rule (block_round (vp_block vp))
    (bi_round (certified_block (block_quorum_cert (vp_block vp))))
    (maybe_tc_round tc) (maybe_tc_hqc_round tc) →
  signing_message (two_chain_ledger_info (vp_block vp) vd) = Some bytes →
  ∃ v s', cast_vote (vp_block vp) tc vd d s = (Ok v, s').
Proof.
  intros Hs Hb Hq Hl Hrule Hm. unfold cast_vote, verify_and_update_last_vote_round.
  destruct (N.leb_spec (block_round (vp_block vp)) (sd_last_voted_round d)); [lia|].
  erewrite mlift_bind by done.
  erewrite mlift_bind by by apply safe_to_vote_complete.
  rewrite (M_run_bind _ _ _ _ _ (get_signer_run _ _ Hs)).
  assert (construct_ledger_info_2chain (vp_block vp) (crypto_hash vd)
    = Ok (two_chain_ledger_info (vp_block vp) vd)) as Hli.
  { unfold construct_ledger_info_2chain.
    rewrite (proj2 (next_round_Ok _ (bi_round (certified_block (block_quorum_cert (vp_block vp))) + 1)))
      by (split; [done|lia]). done. }
  rewrite (mlift_bind _ _ _ _ Hli).
  rewrite (M_run_bind _ _ _ _ _ (sr_sign_run _ _ _ _ Hs Hm)).
  match goal with |- context [set_safety_data ?d'] =>
    destruct (set_safety_data_run s d') as (s' & Hset & _) end.
  rewrite (M_run_bind _ _ _ _ _ Hset). by eexists _, s'.
Qed.

Lemma safety_data_run (s : SafetyRules InMemoryStorage) d :
  enable_cached_safety_data (persistent_storage s) = true → cache_ok s → stored s = Some d →
  ∃ s1, on_storage pss_safety_data s = (Ok d, s1) ∧ on_storage pss_safety_data s1 = (Ok d, s1).
Proof.
  intros Hen Hc Hd. destruct (cached_safety_data (persistent_storage s)) as [d'|] eqn:Hcache.
  { assert (d' = d) as -> by (apply Hc in Hcache; unfold stored in Hd; congruence).
    exists s. by split; apply on_storage_cached. }
  destruct s as [[en c [m]] sg es]. cbn in *. subst en c.
  unfold stored, pss_stored in Hd. cbn in Hd.
  destruct (m !! SAFETY_DATA) as [v|] eqn:Hm; [|done]. cbn in Hd.
  exists (mkSafetyRules (mkPersistentSafetyStorage true (Some d) (mkInMemoryStorage m)) sg es).
  split; [|done].
  unfold on_storage, pss_safety_data, read_store, try_storage, on_store, mbind, M_bind. cbn.
  unfold in_memory_get. cbn. rewrite Hm. cbn. by rewrite Hd.
Qed.

(** ** Theorems *)

Section theorems.
Context `{!Bls} `{!ArxHashes} {St : Type} `{!KVStorage St} `{!KVStorageLaws St}.

(** C2: Whatever calls a node serves, in whatever order, with restarts and storage
    faults between them, it never signs two different votes for one round of an
    epoch, and a timeout it signs never hides a vote: if it voted at or below the
    timeout's round, the timeout carries a QC round no lower than the one that vote
    was based on. *)
Theorem node_outputs_safe calls (s : SafetyRules St) d outs s'
    (Hc : cache_ok s) (Hd : stored s = Some d) (Hwf : safety_data_wf d)
    (Hrun : sr_run calls [] s = (outs, s')) :
  (∀ v v', OutVote v ∈ outs → OutVote v' ∈ outs → vote_epoch v = vote_epoch v' →
     vote_round v = vote_round v' → v = v') ∧
  (∀ v t, OutVote v ∈ outs → OutTimeout t ∈ outs → vote_epoch v = tsr_epoch t →
     vote_round v ≤ tsr_round t → vote_parent_round v ≤ tsr_hqc_round t).
Proof.
  destruct (sr_run_inv _ _ _ _ _ _ Hrun Hc Hd Hwf) as (d' & _ & _ & _ & []).
  split; intros; [eapply ni_one_vote0|eapply ni_timeout_hqc0]; try done; by left.
Qed.

(** C4: Over any run, with restarts and storage faults, the persisted safety data
    only moves forward (a later epoch, or no round going back), the cache stays in
    agreement with it, and no signed round exceeds the persisted last voted round. *)
Theorem safety_data_monotone calls (s : SafetyRules St) d outs s'
    (Hc : cache_ok s) (Hd : stored s = Some d) (Hwf : safety_data_wf d)
    (Hrun : sr_run calls [] s = (outs, s')) :
  cache_ok s' ∧ ∃ d', stored s' = Some d' ∧ safety_data_le d d' ∧
    (∀ v, OutVote v ∈ outs → vote_epoch v = sd_epoch d' → vote_round v ≤ sd_last_voted_round d') ∧
    (∀ t, OutTimeout t ∈ outs → tsr_epoch t = sd_epoch d' → tsr_round t ≤ sd_last_voted_round d').
Proof.
  destruct (sr_run_inv _ _ _ _ _ _ Hrun Hc Hd Hwf) as (d' & Hd' & Hc' & Hle & []).
  split; [done|]. exists d'. split; [done|]. split; [done|]. split; [|done].
  intros v Hv He. apply ni_vote_round0; [by left|done].
Qed.

(** C3: When [construct_and_sign_vote_two_chain] answers with a vote, the proposal
    and its certificates verified in the current epoch, and either the stored vote of
    that round is sent again with nothing changed, or the round is above the last voted one,
    the 2-chain rule holds, the vote signs the ledger info of the 2-chain commit rule,
    and it is persisted with the raised rounds; any other answer persists nothing. *)
Theorem vote_two_chain_correct now vp tc (s : SafetyRules St) r s' (Hc : cache_ok s)
    (Hrun : guarded_construct_and_sign_vote_two_chain now vp tc s = (r, s')) :
  framed s s' ∧
  match r with
  | Ok v => ∃ d es signer vd d', stored s = Some d ∧ epoch_state s = Some es ∧
      validator_signer s = Some signer ∧ proposal_ok now vp d es vd ∧
      maybe_tc_ok (es_verifier es) tc ∧
      vote_answer signer d vp tc vd v d' ∧ stored s' = Some d'
  | _ => stored s' = stored s
  end.
Proof.
  destruct (Saves_vote _ _ _ _ _ _ Hrun) as [Hf Herr]. split; [done|].
  destruct r; [by eapply vote_Ok|by apply Herr..].
Qed.

(** C10: When [sign_timeout_with_qc] signs, the timeout is of the current epoch, it and
    the timeout certificate verify, the 2-chain timeout rule holds and the last voted
    round was persisted at the timeout's round before signing; whatever the answer,
    the persisted data is as before or has just that round raised. *)
Theorem sign_timeout_correct t tc (s : SafetyRules St) r s' (Hc : cache_ok s)
    (Hrun : guarded_sign_timeout_with_qc t tc s = (r, s')) :
  framed s s' ∧
  (stored s' = stored s ∨ ∃ d, stored s = Some d ∧ to_epoch t = sd_epoch d ∧
     stored s' = Some (data_after_timeout d (to_round t))) ∧
  ∀ sig, r = Ok sig → ∃ d es signer bytes, stored s = Some d ∧ epoch_state s = Some es ∧
    validator_signer s = Some signer ∧ timeout_ok t tc d es ∧
    signing_message (signing_format t) = Some bytes ∧
    sig = bls_sign (vs_private_key signer) bytes ∧
    stored s' = Some (data_after_timeout d (to_round t)).
Proof.
  destruct (timeout_any _ _ _ _ _ Hrun Hc) as [Hf Hst]. split; [done|]. split; [done|].
  intros sig ->. by eapply timeout_Ok.
Qed.

(** [initialize] either leaves safety data, epoch state and signer as they were
    (an error before the epoch is entered), or installs the epoch state that the
    proof leads to from the stored waypoint, which is not older than the persisted
    epoch, with the safety data reset exactly when the epoch is new; when it succeeds
    the signer holds the key the validator set lists for the stored account. *)
Theorem initialize_correct proof (s : SafetyRules St) r s' (Hc : cache_ok s)
    (Hrun : guarded_initialize proof s = (r, s')) :
  cache_ok s' ∧
  ((is_ok r = false ∧ stored s' = stored s ∧ epoch_state s' = epoch_state s ∧
    validator_signer s' = validator_signer s) ∨
   ∃ d es, stored s = Some d ∧ sd_epoch d ≤ es_epoch es ∧ proven_epoch proof s es ∧
     stored s' = Some (data_in_epoch d es) ∧ epoch_state s' = Some es ∧
     (is_ok r = true → ∃ author signer, stored_author s' = Some author ∧
        validator_signer s' = Some signer ∧ signer_in_set es author signer)).
Proof. by apply initialize_any. Qed.

(** [sign_commit_vote] signs exactly when a signer and an epoch state are
    set, the ordered ledger info carries no execution result, the executed one matches
    its block, and a quorum of the epoch's validators signed the ordered one. *)
Theorem sign_commit_vote_correct li new_li (s : SafetyRules St) sig s' :
  guarded_sign_commit_vote li new_li s = (Ok sig, s') ↔
  s' = s ∧ ∃ signer es bytes, validator_signer s = Some signer ∧ epoch_state s = Some es ∧
    is_ordered_only (li_commit_info (liws_ledger_info li)) = true ∧
    match_ordered_only (li_commit_info (liws_ledger_info li)) (li_commit_info new_li) = true ∧
    verify_signatures li (es_verifier es) = Ok tt ∧
    signing_message new_li = Some bytes ∧ sig = bls_sign (vs_private_key signer) bytes.
Proof.
  split.
  - intros Hrun. unfold guarded_sign_commit_vote in Hrun. inv_M. destruct_units.
    apply get_signer_Ok in Hrun0 as [-> Hs].
    match goal with E : get_epoch_state _ = _ |- _ => apply get_epoch_state_Ok in E as [-> He] end.
    apply sr_sign_Ok in Hrun as (-> & signer & bytes & Hs' & ? & ->). naive_solver.
  - intros (-> & signer & es & bytes & Hs & He & H1 & H2 & H3 & H4 & ->).
    unfold guarded_sign_commit_vote. rewrite (M_run_bind _ _ _ _ _ (get_signer_run _ _ Hs)).
    rewrite H1. erewrite mlift_bind by done. rewrite H2. erewrite mlift_bind by done.
    rewrite (M_run_bind _ _ _ _ _ (get_epoch_state_run _ _ He)).
    rewrite H3. erewrite mlift_bind by done. by apply sr_sign_run.
Qed.

(** [sign_proposal] persists nothing; a proposal it signs is the signer's own, of the
    current epoch, above the last voted round, and its QC verifies and is not below the
    preferred round. *)
Theorem sign_proposal_correct b (s : SafetyRules St) r s' (Hc : cache_ok s)
    (Hrun : guarded_sign_proposal b s = (r, s')) :
  quiet s s' ∧
  ∀ sig, r = Ok sig → ∃ d es signer bytes, stored s = Some d ∧ epoch_state s = Some es ∧
    validator_signer s = Some signer ∧ bd_author b = Some (vs_author signer) ∧
    bd_epoch b = sd_epoch d ∧ sd_last_voted_round d < bd_round b ∧
    quorum_cert_verify (bd_quorum_cert b) (es_verifier es) = Ok tt ∧
    sd_preferred_round d ≤ bi_round (certified_block (bd_quorum_cert b)) ∧
    signing_message b = Some bytes ∧ sig = bls_sign (vs_private_key signer) bytes.
Proof.
  split; [by eapply Quiet_sign_proposal|]. intros sig ->.
  unfold guarded_sign_proposal, verify_author in Hrun. inv_M. destruct_units.
  repeat match goal with E : get_signer _ = _ |- _ =>
    apply get_signer_Ok in E as [-> ?] end. simplify_eq.
  match goal with E : on_storage pss_safety_data _ = _ |- _ =>
    apply safety_data_Ok in E as (Hq & Hd & _); [|done] end.
  match goal with E : verify_epoch _ _ = _ |- _ => apply verify_epoch_Ok in E end.
  match goal with E : verify_and_update_preferred_round _ ?d = _ |- _ =>
    unfold verify_and_update_preferred_round in E;
    destruct (N.ltb_spec (bi_round (certified_block (bd_quorum_cert b))) (sd_preferred_round d)) as [|Hpr];
    [done|]; destruct (N.leb_spec (bd_round b) (sd_last_voted_round d)) as [|Hlv]; [by inv_M|] end.
  inv_M. 
  match goal with E : verify_qc _ _ = _ |- _ => apply verify_qc_Ok in E as (-> & es & He & Hqc) end.
  apply sr_sign_Ok in Hrun as (-> & signer & bytes & Hs' & ? & ->).
  rewrite (quiet_signer _ _ Hq) in Hs'. rewrite (quiet_epoch_state _ _ Hq) in He. simplify_eq.
  match goal with E : (vs_author _ =? _) = true |- _ => apply N.eqb_eq in E; subst end.
  eauto 20.
Qed.
End theorems.

(** C11: Over a store that does not fail, a proposal that verifies, for a round already
    voted or above the last voted round and within the 2-chain rule, is answered with a vote. *)
Theorem vote_two_chain_complete `{!Bls} `{!ArxHashes} (s : SafetyRules InMemoryStorage)
    now vp tc d es signer vd bytes
    (Hen : enable_cached_safety_data (persistent_storage s) = true) (Hc : cache_ok s)
    (Hd : stored s = Some d) (Hes : epoch_state s = Some es)
    (Hsg : validator_signer s = Some signer) (Hp : proposal_ok now vp d es vd)
    (Htc : maybe_tc_ok (es_verifier es) tc) (Hb : block_round (vp_block vp) < 2 ^ 64)
    (Hm : signing_message (two_chain_ledger_info (vp_block vp) vd) = Some bytes)
    (Hrule : (∃ v, sd_last_vote d = Some v ∧ vote_round v = block_round (vp_block vp)) ∨
       sd_last_voted_round d < block_round (vp_block vp) ∧
       two_chain_vote_rule (block_round (vp_block vp))
         (bi_round (certified_block (block_quorum_cert (vp_block vp))))
         (maybe_tc_round tc) (maybe_tc_hqc_round tc)) :
  ∃ v s', guarded_construct_and_sign_vote_two_chain now vp tc s = (Ok v, s').
Proof.
  destruct (safety_data_run s d Hen Hc Hd) as (s1 & Hrun1 & Hrun2).
  pose proof (Quiet_safety_data _ _ _ Hrun1) as Hq.
  rewrite <-(quiet_epoch_state _ _ Hq) in Hes.
  unfold guarded_construct_and_sign_vote_two_chain.
  rewrite (M_run_bind _ _ _ _ _ (get_signer_run _ _ Hsg)).
  rewrite (M_run_bind _ _ _ _ _ (verify_proposal_run _ _ _ _ _ _ _ Hrun1 Hes Hp)).
  rewrite (M_run_bind _ _ _ _ _ (verify_maybe_tc_run _ _ _ Hes Htc)).
  rewrite (M_run_bind _ _ _ _ _ Hrun2).
  rewrite <-(quiet_signer _ _ Hq) in Hsg.
  pose proof (verify_well_formed_parent _ _ (po_well_formed _ _ _ _ _ Hp)) as [Hpr _].
  destruct (sd_last_vote d) as [v|] eqn:Hlv.
  - destruct (N.eqb_spec (vote_round v) (block_round (vp_block vp))); [by eexists _, _|].
    destruct Hrule as [(v' & ? & ?)|[Hl Hr]]; [simplify_eq|]. by eapply cast_vote_run.
  - destruct Hrule as [(v' & ? & ?)|[Hl Hr]]; [done|]. by eapply cast_vote_run.
Qed.

(** *** Without the cache *)

Section uncached.
Context `{!Bls} `{!ArxHashes} {St : Type} `{!KVStorage St}.

Definition uncached (s : SafetyRules St) : Prop :=
  enable_cached_safety_data (persistent_storage s) = false.
(** A method that never succeeds without the cache; one that keeps it off. *)
Definition Fails {A} (m : M (SafetyRules St) Error A) : Prop :=
  ∀ s, uncached s → is_ok (m s).1 = false.
Definition KeepsOff {A} (m : M (SafetyRules St) Error A) : Prop :=
  ∀ s, uncached s → uncached (m s).2.

Lemma Fails_bind_l {A B} (m : M (SafetyRules St) Error A) (k : A → M (SafetyRules St) Error B) :
  Fails m → Fails (m ≫= k).
Proof.
  intros Hm s Hs%Hm. unfold mbind, M_bind. destruct (m s) as [[] ?]; done.
Qed.
Lemma Fails_bind_r {A B} (m : M (SafetyRules St) Error A) (k : A → M (SafetyRules St) Error B) :
  KeepsOff m → (∀ a, Fails (k a)) → Fails (m ≫= k).
Proof.
  intros Hm Hk s Hs%Hm. unfold mbind, M_bind. destruct (m s) as [[] ?]; [by apply Hk|done..].
Qed.
Lemma KeepsOff_bind {A B} (m : M (SafetyRules St) Error A) (k : A → M (SafetyRules St) Error B) :
  KeepsOff m → (∀ a, KeepsOff (k a)) → KeepsOff (m ≫= k).
Proof.
  intros Hm Hk s Hs%Hm. unfold mbind, M_bind. destruct (m s) as [[] ?]; [by apply Hk|done..].
Qed.
Lemma KeepsOff_lift {A} (m : outcome Error A) : KeepsOff (mlift m).
Proof. by intros s. Qed.
Lemma KeepsOff_ret {A} (a : A) : KeepsOff (mret a).
Proof. by intros s. Qed.
Lemma KeepsOff_get : KeepsOff mget.
Proof. by intros s. Qed.
Lemma KeepsOff_if {A} (b : bool) (m m' : M (SafetyRules St) Error A) :
  KeepsOff m → KeepsOff m' → KeepsOff (if b then m else m').
Proof. by destruct b. Qed.
Lemma KeepsOff_read {A} (decode : StoredValue → option A) key :
  KeepsOff (on_storage (read_store decode key)).
Proof.
  intros s Hs. unfold on_storage, read_store, try_storage, on_store, mbind, M_bind, mlift.
  destruct (storage_get key (internal_store (persistent_storage s))) as [[] ?]; [|done..].
  by destruct (decode a).
Qed.
Lemma KeepsOff_set_waypoint w : KeepsOff (on_storage (set_waypoint w)).
Proof.
  intros s Hs. unfold on_storage, set_waypoint, try_storage, on_store.
  by destruct (storage_set _ _ (internal_store (persistent_storage s))) as [[] ?].
Qed.
Lemma Fails_safety_data : Fails (on_storage pss_safety_data).
Proof.
  intros s Hs. unfold on_storage, pss_safety_data. rewrite mget_bind.
  rewrite Hs. cbn [negb]. unfold read_store, try_storage, on_store, mbind, M_bind, mlift.
  destruct (storage_get SAFETY_DATA (internal_store (persistent_storage s))) as [[[]| |] ?];
    try done. by destruct e.
Qed.
End uncached.

Create HintDb arx_uncached.
#[export] Hint Resolve KeepsOff_bind KeepsOff_lift KeepsOff_ret KeepsOff_get KeepsOff_if
  KeepsOff_read KeepsOff_set_waypoint : arx_uncached.

(** With [enable_cached_safety_data] off, [safety_data] asks the store for a
    [Result<SafetyData, Error>], which no stored value deserialises to: no call that
    reads the safety data ever succeeds. *)
Theorem uncached_never_succeeds `{!Bls} `{!ArxHashes} {St} `{!KVStorage St} (s : SafetyRules St)
    (Hen : enable_cached_safety_data (persistent_storage s) = false) :
  (∀ now vp tc, is_ok (guarded_construct_and_sign_vote_two_chain now vp tc s).1 = false) ∧
  (∀ t tc, is_ok (guarded_sign_timeout_with_qc t tc s).1 = false) ∧
  (∀ b, is_ok (guarded_sign_proposal b s).1 = false) ∧
  (∀ proof, is_ok (guarded_initialize proof s).1 = false) ∧
  (∀ tracing, is_ok (guarded_consensus_state tracing s).1 = false).
Proof.
  split; [|split; [|split; [|split]]]; intros; revert s Hen.
  - apply Fails_bind_r; [unfold get_signer; eauto with arx_uncached|intros _].
    apply Fails_bind_l, Fails_bind_l, Fails_safety_data.
  - apply Fails_bind_r; [unfold get_signer; eauto with arx_uncached|intros _].
    apply Fails_bind_l, Fails_safety_data.
  - apply Fails_bind_r; [unfold get_signer; eauto with arx_uncached|intros _].
    apply Fails_bind_r; [unfold verify_author, get_signer; eauto 10 with arx_uncached|intros _].
    apply Fails_bind_l, Fails_safety_data.
  - apply Fails_bind_r; [unfold update_waypoint, pss_waypoint; eauto 20 with arx_uncached|].
    intros [[w nw] es]. apply Fails_bind_l, Fails_bind_l, Fails_safety_data.
  - apply Fails_bind_r; [unfold pss_waypoint; eauto with arx_uncached|intros _].
    apply Fails_bind_l, Fails_safety_data.
Qed.

(** ** A sample node

    Validator 1 of the four sample validators, with the sample hashes and signatures. *)
#[local] Existing Instance sample_bls.
#[local] Existing Instance sample_hashes.

Definition sample_proposal (round : N) (qc : QuorumCert) : VoteProposal :=
  mkVoteProposal (mkAccumulatorExtensionProof [] 0 []) (block_new_nil round qc []) None true.
Definition sample_node (epoch : N) (d : SafetyData) : SafetyRules InMemoryStorage :=
  mkSafetyRules
    (mkPersistentSafetyStorage true None
       (mkInMemoryStorage {[ SAFETY_DATA := StoredSafetyData d; OWNER_ACCOUNT := StoredAuthor 1;
                             CONSENSUS_KEY := StoredPrivateKey 11 ]}))
    (Some (mkValidatorSigner 1 11)) (Some (mkEpochState epoch sample_verifier)).


Definition sample_data : SafetyData := mkSafetyData 1 0 0 0 None.
Definition sample_calls : list sr_call :=
  [CallVote 0 (sample_proposal 1 (sample_genesis_qc 1)) None; CallRestart;
   CallSignTimeout (mkTwoChainTimeout 1 1 (sample_genesis_qc 1)) None;
   CallVote 0 (sample_proposal 1 (sample_genesis_qc 1)) None].
(** The run above on a node that keeps its epoch state over the restart. *)
Definition sample_calls_live : list sr_call :=
  [CallVote 0 (sample_proposal 1 (sample_genesis_qc 1)) None;
   CallSignTimeout (mkTwoChainTimeout 1 1 (sample_genesis_qc 1)) None].

Lemma sample_node_cache_ok e d : cache_ok (sample_node e d).
Proof. by intros d'. Qed.

Lemma node_outputs_safe_witness :
  ∃ v t s', sr_run sample_calls_live [] (sample_node 1 sample_data) = ([OutTimeout t; OutVote v], s') ∧
    vote_round v = 1 ∧ vote_parent_round v ≤ tsr_hqc_round t.
Proof.
  eexists _, _, _. split; [vm_compute; reflexivity|]. split; [done|].
  eapply (node_outputs_safe sample_calls_live (sample_node 1 sample_data) sample_data).
  - apply sample_node_cache_ok.
  - done.
  - apply node_inv_fresh.
  - vm_compute. reflexivity.
  - right. left.
  - left.
  - done.
  - done.
Defined.

Lemma safety_data_monotone_witness :
  cache_ok (sr_run sample_calls [] (sample_node 1 sample_data)).2 ∧
  ∃ d', stored (sr_run sample_calls [] (sample_node 1 sample_data)).2 = Some d' ∧
    safety_data_le sample_data d' ∧
    (∀ v, OutVote v ∈ (sr_run sample_calls [] (sample_node 1 sample_data)).1 →
       vote_epoch v = sd_epoch d' → vote_round v ≤ sd_last_voted_round d') ∧
    (∀ t, OutTimeout t ∈ (sr_run sample_calls [] (sample_node 1 sample_data)).1 →
       tsr_epoch t = sd_epoch d' → tsr_round t ≤ sd_last_voted_round d').
Proof.
  apply (safety_data_monotone sample_calls (sample_node 1 sample_data) sample_data).
  - apply sample_node_cache_ok.
  - done.
  - apply node_inv_fresh.
  - apply surjective_pairing.
Defined.

Lemma vote_two_chain_correct_witness :
  ∃ v s', guarded_construct_and_sign_vote_two_chain 0 (sample_proposal 1 (sample_genesis_qc 1)) None
      (sample_node 1 sample_data) = (Ok v, s') ∧
    ∃ d', stored s' = Some d' ∧ ∃ d es signer vd, stored (sample_node 1 sample_data) = Some d ∧
      proposal_ok 0 (sample_proposal 1 (sample_genesis_qc 1)) d es vd ∧
      vote_answer signer d (sample_proposal 1 (sample_genesis_qc 1)) None vd v d'.
Proof.
  assert (∃ v s', guarded_construct_and_sign_vote_two_chain 0
    (sample_proposal 1 (sample_genesis_qc 1)) None (sample_node 1 sample_data) = (Ok v, s'))
    as (v & s' & E) by (eexists _, _; vm_compute; reflexivity).
  destruct (vote_two_chain_correct _ _ _ _ _ _ (sample_node_cache_ok _ _) E)
    as [_ (d & es & signer & vd & d' & ? & ? & ? & ? & ? & ? & ?)].
  exists v, s'. split; [exact E|]. exists d'. split; [done|]. by exists d, es, signer, vd.
Defined.

Lemma vote_two_chain_complete_witness :
  ∃ v s', guarded_construct_and_sign_vote_two_chain 0 (sample_proposal 1 (sample_genesis_qc 1)) None
      (sample_node 1 sample_data) = (Ok v, s').
Proof.
  eapply (vote_two_chain_complete (sample_node 1 sample_data) 0
    (sample_proposal 1 (sample_genesis_qc 1)) None sample_data (mkEpochState 1 sample_verifier)
    (mkValidatorSigner 1 11)).
  - reflexivity.
  - apply sample_node_cache_ok.
  - reflexivity.
  - reflexivity.
  - reflexivity.
  - split; vm_compute; reflexivity.
  - exact I.
  - reflexivity.
  - reflexivity.
  - right. split; [reflexivity|]. by left.
Defined.

Lemma sign_timeout_correct_witness :
  ∃ sig s', guarded_sign_timeout_with_qc (mkTwoChainTimeout 1 1 (sample_genesis_qc 1)) None
      (sample_node 1 sample_data) = (Ok sig, s') ∧
    ∃ d, stored (sample_node 1 sample_data) = Some d ∧ stored s' = Some (data_after_timeout d 1).
Proof.
  assert (∃ sig s', guarded_sign_timeout_with_qc (mkTwoChainTimeout 1 1 (sample_genesis_qc 1)) None
    (sample_node 1 sample_data) = (Ok sig, s')) as (sig & s' & E)
    by (eexists _, _; vm_compute; reflexivity).
  destruct (sign_timeout_correct _ _ _ _ _ (sample_node_cache_ok _ _) E) as (_ & _ & H).
  destruct (H _ eq_refl) as (d & es & signer & bytes & ? & _ & _ & _ & _ & _ & ?).
  exists sig, s'. split; [exact E|]. by exists d.
Defined.

(** The end of epoch 0, from which the sample validators form epoch 1. *)
Definition sample_epoch_end : LedgerInfoWithSignatures :=
  mkLIWS (mkLedgerInfo (mkBlockInfo 0 0 1 2 3 4 (Some (mkEpochState 1 sample_verifier))) 0)
    aggregate_signature_empty.
Definition sample_uninitialized : SafetyRules InMemoryStorage :=
  mkSafetyRules
    (mkPersistentSafetyStorage true None
       (mkInMemoryStorage {[ SAFETY_DATA := StoredSafetyData (mkSafetyData 0 7 6 6 None);
                             OWNER_ACCOUNT := StoredAuthor 1; CONSENSUS_KEY := StoredPrivateKey 11;
                             WAYPOINT := StoredWaypoint (waypoint_new_any (liws_ledger_info sample_epoch_end)) ]}))
    None None.

Lemma initialize_correct_witness :
  ∃ s', guarded_initialize (mkEpochChangeProof [sample_epoch_end] false) sample_uninitialized = (Ok tt, s') ∧
    cache_ok s' ∧ stored s' = Some sample_data.
Proof.
  eexists. split; [vm_compute; reflexivity|].
  edestruct (initialize_correct (mkEpochChangeProof [sample_epoch_end] false) sample_uninitialized)
    as [Hc _].
  - by intros d.
  - vm_compute. reflexivity.
  - split; [exact Hc|]. reflexivity.
Defined.

Lemma sign_proposal_correct_witness :
  let b := block_data_new_proposal (DirectMempool []) 1 [] 1 6 (sample_genesis_qc 1) in
  ∃ sig s', guarded_sign_proposal b (sample_node 1 sample_data) = (Ok sig, s') ∧
    quiet (sample_node 1 sample_data) s'.
Proof.
  cbn zeta. eexists _, _. split; [vm_compute; reflexivity|].
  eapply (sign_proposal_correct (block_data_new_proposal (DirectMempool []) 1 [] 1 6 (sample_genesis_qc 1))
    (sample_node 1 sample_data)).
  - apply sample_node_cache_ok.
  - vm_compute. reflexivity.
Defined.

Lemma uncached_never_succeeds_witness :
  is_ok (guarded_consensus_state false (safety_rules_new (pss_new (mkInMemoryStorage ∅) false))).1 = false.
Proof.
  apply (uncached_never_succeeds (safety_rules_new (pss_new (mkInMemoryStorage ∅) false))).
  reflexivity.
Defined.
