(* ===== verification/TwoChain.v ===== *)
(** * Agreement: no two conflicting commits in an epoch

    A system of validators running [SafetyRules], each behind its own store, with an
    environment that chooses every call and every argument, restarts nodes, makes
    stores fail and controls all other validators.  The environment is bounded by
    the cryptography (an aggregate that verifies was contributed to by each of its
    honest voters; vote data does not collide) and by what the callers of safety rules
    check.  The theorem: commit certificates of one epoch lie on one chain. *)
From S2P Require Import Prelude BitVec Crypto Accumulator ValidatorVerifier LedgerInfo ConsensusTypes SafetyRules.
Local Open Scope N_scope.

(** ** The system *)

(** Latest output first, each with the node it left. *)
Abbreviation history := (list (AccountAddress * output)) (only parsing).

Definition outs_of (a : AccountAddress) (h : history) : list output :=
  omap (λ p, if decide (p.1 = a) then Some p.2 else None) h.

Section two_chain.
Context `{!Bls} `{!ArxHashes} {St : Type} `{!KVStorage St}.
(** The validators of each epoch, and the ones the environment controls. *)
Context (V : N → ValidatorVerifier) (byz : gset AccountAddress).

Record system := mkSystem {
  sys_nodes : gmap AccountAddress (SafetyRules St);
  sys_history : history;
}.

(** [a] has signed [li]: as a vote or as a commit vote. *)
Definition signed_li (h : history) (a : AccountAddress) (li : LedgerInfo) : Prop :=
  (∃ v, (a, OutVote v) ∈ h ∧ vote_ledger_info v = li) ∨ (∃ old, (a, OutCommitVote old li) ∈ h).

(** Unforgeability: the honest voters of a ledger info that verifies signed it. *)
Definition backed_li (h : history) (e : N) (l : LedgerInfoWithSignatures) : Prop :=
  verify_signatures l (V e) = Ok tt →
  ∀ a, a ∈ voters (V e) (liws_signatures l) → a ∉ byz → signed_li h a (liws_ledger_info l).
(** Collision resistance: the vote data of a certificate does not share its hash
    with other vote data that was voted for. *)
Definition no_collision (h : history) (d : VoteData) : Prop :=
  ∀ a v, (a, OutVote v) ∈ h → crypto_hash (vote_vote_data v) = crypto_hash d → vote_vote_data v = d.
Definition qc_env (h : history) (e : N) (qc : QuorumCert) : Prop :=
  backed_li h e (qc_signed_ledger_info qc) ∧ no_collision h (qc_vote_data qc).
(** Unforgeability for timeouts: each honest voter signed the round listed for it. *)
Definition tc_env (h : history) (e : N) (tc : TwoChainTimeoutCertificate) : Prop :=
  tc_verify tc (V e) = Ok tt →
  ∀ a, a ∈ voters (V e) (aswr_sig (tc_signatures_with_rounds tc)) → a ∉ byz →
  ∃ r, (a, r) ∈ get_voters_and_rounds (tc_signatures_with_rounds tc)
                  (get_ordered_account_addresses (V e)) ∧
    (a, OutTimeout (mkTimeoutSigningRepr (tc_epoch tc) (tc_round tc) r)) ∈ h.

(** What holds of a call to a node in state [s]. *)
Definition call_env (h : history) (s : SafetyRules St) (c : sr_call) : Prop :=
  match c with
  | CallVote _ vp tc =>
      (** the timeout certificate is of the block's epoch, as [SyncInfo::verify] ensures
          before the block store keeps it *)
      (∀ es, epoch_state s = Some es → qc_env h (es_epoch es) (block_quorum_cert (vp_block vp)) ∧
        ∀ tc', tc = Some tc' → tc_env h (es_epoch es) tc' ∧ tc_epoch tc' = block_epoch (vp_block vp))
  | CallSignCommitVote li new_li =>
      (** the ordered ledger info is that of a certificate of the epoch, and execution
          keeps its consensus data hash *)
      (∀ es, epoch_state s = Some es → ∃ qc, qc_signed_ledger_info qc = li ∧
        quorum_cert_verify qc (es_verifier es) = Ok tt ∧
        bi_epoch (certified_block qc) = es_epoch es ∧ qc_env h (es_epoch es) qc) ∧
      li_consensus_data_hash new_li = li_consensus_data_hash (liws_ledger_info li)
  | CallInitialize proof =>
      (** epoch changes lead to the validators of the epoch *)
      ∀ es, proven_epoch proof s es → es_verifier es = V (es_epoch es)
  | _ => True
  end.

(** One call at one node, or a change of what its medium does next. *)
Inductive step : system → system → Prop :=
| step_call a c s o s' nodes h :
    nodes !! a = Some s → call_env h s c → sr_exec c s = (o, s') →
    step (mkSystem nodes h) (mkSystem (<[a := s']> nodes) ((pair a <$> option_list o) ++ h))
| step_medium a s st nodes h :
    nodes !! a = Some s →
    storage_contents st = storage_contents (internal_store (persistent_storage s)) →
    step (mkSystem nodes h)
      (mkSystem (<[a := mkSafetyRules
         (mkPersistentSafetyStorage (enable_cached_safety_data (persistent_storage s))
            (cached_safety_data (persistent_storage s)) st)
         (validator_signer s) (epoch_state s)]> nodes) h).

(** Nodes start uninitialised, over a store without a vote. *)
Definition initial (sys : system) : Prop :=
  sys_history sys = [] ∧
  ∀ a s, sys_nodes sys !! a = Some s →
    cache_ok s ∧ epoch_state s = None ∧ ∃ d, stored s = Some d ∧ sd_last_vote d = None.

(** ** Certified blocks *)

Definition is_quorum (e : N) (S : gset AccountAddress) : Prop :=
  quorum_voting_power (V e) ≤ set_power (validator_infos (V e)) S.

(** A quorum of the epoch voted for [d]. *)
Definition certified (h : history) (e : N) (d : VoteData) : Prop :=
  bi_epoch (vd_proposed d) = e ∧
  ∃ S, is_quorum e S ∧
    ∀ a, a ∈ S → a ∉ byz → ∃ v, (a, OutVote v) ∈ h ∧ vote_vote_data v = d.
(** A quorum timed out round [t] with QC rounds of at most [r]. *)
Definition timed_out (h : history) (e t r : N) : Prop :=
  ∃ S, is_quorum e S ∧
    ∀ a, a ∈ S → a ∉ byz → ∃ x, x ≤ r ∧ (a, OutTimeout (mkTimeoutSigningRepr e t x)) ∈ h.

(** [b] is the parent of [b'] in a certified vote; and the ancestors. *)
Definition certified_parent (h : history) (e : N) (b b' : BlockInfo) : Prop :=
  ∃ d, certified h e d ∧ vd_parent d = b ∧ vd_proposed d = b'.
Definition ancestor (h : history) (e : N) : BlockInfo → BlockInfo → Prop :=
  rtc (certified_parent h e).

(** [b] is certified and so is a block of the next round on top of it. *)
Definition commits (h : history) (e : N) (b : BlockInfo) : Prop :=
  ∃ d0 d1, certified h e d0 ∧ certified h e d1 ∧ vd_proposed d0 = b ∧ vd_parent d1 = b ∧
    bi_round (vd_proposed d1) = bi_round b + 1 ∧ 0 < bi_round b.

(** Two block infos of one block, before and after execution. *)
Definition same_block (b b' : BlockInfo) : Prop :=
  bi_epoch b = bi_epoch b' ∧ bi_round b = bi_round b' ∧ bi_id b = bi_id b'.

(** ** The invariant *)

(** What justified a vote, among earlier outputs. *)
Record vote_ok (h : history) (v : Vote) : Prop := {
  vk_parent_epoch : bi_epoch (vd_parent (vote_vote_data v)) = vote_epoch v;
  vk_parent_round : vote_parent_round v < vote_round v;
  vk_hash : li_consensus_data_hash (vote_ledger_info v) = crypto_hash (vote_vote_data v);
  vk_commit : li_commit_info (vote_ledger_info v) =
    if vote_parent_round v + 1 =? vote_round v then vd_parent (vote_vote_data v)
    else block_info_empty;
  vk_parent : vote_parent_round v = 0 ∨
    ∃ d0, vd_proposed d0 = vd_parent (vote_vote_data v) ∧ certified h (vote_epoch v) d0;
  vk_rule : vote_round v = vote_parent_round v + 1 ∨
    ∃ t r, vote_round v = t + 1 ∧ r ≤ vote_parent_round v ∧ timed_out h (vote_epoch v) t r;
}.
(** What justified a commit vote. *)
Definition commit_ok (h : history) (old : LedgerInfoWithSignatures) (new : LedgerInfo) : Prop :=
  ∃ e qc, qc_signed_ledger_info qc = old ∧ quorum_cert_verify qc (V e) = Ok tt ∧
    verify_signatures old (V e) = Ok tt ∧ bi_epoch (certified_block qc) = e ∧ qc_env h e qc ∧
    li_consensus_data_hash new = li_consensus_data_hash (liws_ledger_info old) ∧
    match_ordered_only (li_commit_info (liws_ledger_info old)) (li_commit_info new) = true.

Definition output_ok (h : history) (o : output) : Prop :=
  match o with
  | OutVote v => vote_ok h v
  | OutCommitVote old new => commit_ok h old new
  | _ => True
  end.
Fixpoint history_ok (h : history) : Prop :=
  match h with [] => True | (a, o) :: h' => output_ok h' o ∧ history_ok h' end.

Record node_ok (h : history) (a : AccountAddress) (s : SafetyRules St) : Prop := {
  nk_cache : cache_ok s;
  nk_data : ∃ d, stored s = Some d ∧ node_inv (outs_of a h) d ∧
    (∀ es, epoch_state s = Some es → es_epoch es = sd_epoch d ∧ es_verifier es = V (es_epoch es)) ∧
    (∀ v, sd_last_vote d = Some v → vote_ok h v);
}.
Record system_ok (sys : system) : Prop := {
  sk_history : history_ok (sys_history sys);
  sk_nodes : ∀ a s, sys_nodes sys !! a = Some s → node_ok (sys_history sys) a s;
  sk_known : ∀ a o, (a, o) ∈ sys_history sys → is_Some (sys_nodes sys !! a);
}.
End two_chain.

(** ** Histories *)

Lemma elem_of_outs_of a o (h : history) : o ∈ outs_of a h ↔ (a, o) ∈ h.
Proof.
  unfold outs_of. rewrite list_elem_of_omap. split.
  - intros ([b o'] & Hin & Heq). cbn in Heq. destruct (decide (b = a)); by simplify_eq.
  - intros Hin. exists (a, o). split; [done|]. cbn. by rewrite decide_True.
Qed.
Lemma outs_of_app a b o (h : history) :
  outs_of a ((pair b <$> option_list o) ++ h) =
  if decide (b = a) then option_list o ++ outs_of a h else outs_of a h.
Proof. destruct o; cbn; by destruct (decide (b = a)). Qed.

Section agreement.
Context `{!Bls} `{!ArxHashes} {St : Type} `{!KVStorage St} `{!KVStorageLaws St}.
Context (V : N → ValidatorVerifier) (byz : gset AccountAddress).

Lemma certified_mono h h' e d : h ⊆ h' → certified V byz h e d → certified V byz h' e d.
Proof.
  intros Hsub (He & S & HS & Hv). split; [done|]. exists S. split; [done|].
  intros a Ha Hb. destruct (Hv a Ha Hb) as (v & Hin & ?). exists v. auto.
Qed.
Lemma timed_out_mono h h' e t r : h ⊆ h' → timed_out V byz h e t r → timed_out V byz h' e t r.
Proof.
  intros Hsub (S & HS & Hv). exists S. split; [done|].
  intros a Ha Hb. destruct (Hv a Ha Hb) as (x & ? & Hin). exists x. auto.
Qed.
Lemma vote_ok_mono h h' v : h ⊆ h' → vote_ok V byz h v → vote_ok V byz h' v.
Proof.
  intros Hsub []. split; try done.
  - destruct vk_parent0 as [?|(d0 & ? & ?)]; [by left|right]. eauto using certified_mono.
  - destruct vk_rule0 as [?|(t & r & ? & ? & ?)]; [by left|right]. eauto 10 using timed_out_mono.
Qed.

Lemma history_ok_elem h a o :
  history_ok V byz h → (a, o) ∈ h →
  ∃ h', output_ok V byz h' o ∧ history_ok V byz h' ∧ h' ⊆ h ∧ (length h' < length h)%nat.
Proof.
  induction h as [|[b o'] h IH]; [by intros _ ?%not_elem_of_nil|].
  intros [Ho Hh] [[= <- <-]|Hin]%elem_of_cons.
  - exists h. split; [done|]. split; [done|]. split; [set_solver|]. cbn. lia.
  - destruct (IH Hh Hin) as (h' & ? & ? & ? & ?). exists h'. repeat (split; [done|]).
    split; [set_solver|]. cbn. lia.
Qed.
Lemma history_vote_ok h a v : history_ok V byz h → (a, OutVote v) ∈ h → vote_ok V byz h v.
Proof.
  intros Hh Hin. destruct (history_ok_elem _ _ _ Hh Hin) as (h' & Hv & _ & Hsub & _).
  by eapply vote_ok_mono.
Qed.

(** ** Quorums *)

Hypothesis Hwf : ∀ e, verifier_wf (V e).
Hypothesis Hquorum : ∀ e, 2 * total_voting_power (V e) < 3 * quorum_voting_power (V e).
Hypothesis Hbyz : ∀ e, 3 * set_power (validator_infos (V e)) byz ≤ total_voting_power (V e).

Lemma quorum_meet e S S' :
  is_quorum V e S → is_quorum V e S' → ∃ a, a ∈ S ∧ a ∈ S' ∧ a ∉ byz.
Proof.
  intros HS HS'.
  destruct (quorum_honest (V e) S S' byz (Hwf e) (Hquorum e) (Hbyz e) HS HS') as (_ & a & _ & ?).
  by exists a.
Qed.

(** Some honest node voted for a certified block, and two certified blocks of an
    epoch share an honest voter. *)
Lemma certified_vote h e d :
  history_ok V byz h → certified V byz h e d →
  ∃ a v, (a, OutVote v) ∈ h ∧ vote_vote_data v = d ∧ vote_epoch v = e ∧ vote_ok V byz h v.
Proof.
  intros Hh (He & S & HS & Hv). destruct (quorum_meet e S S HS HS) as (a & Ha & _ & Hb).
  destruct (Hv a Ha Hb) as (v & Hin & Hd). exists a, v. split; [done|]. split; [done|].
  split; [unfold vote_epoch; by rewrite Hd|]. by eapply history_vote_ok.
Qed.
Lemma certified_common h e d d' :
  certified V byz h e d → certified V byz h e d' →
  ∃ a v v', (a, OutVote v) ∈ h ∧ vote_vote_data v = d ∧ vote_epoch v = e ∧
    (a, OutVote v') ∈ h ∧ vote_vote_data v' = d' ∧ vote_epoch v' = e.
Proof.
  intros (He & S & HS & Hv) (He' & S' & HS' & Hv').
  destruct (quorum_meet e S S' HS HS') as (a & Ha & Ha' & Hb).
  destruct (Hv a Ha Hb) as (v & ? & <-). destruct (Hv' a Ha' Hb) as (v' & ? & <-).
  by exists a, v, v'.
Qed.

Lemma forall_or_exists {A} (P Q : A → Prop) (l : list A) :
  (∀ x, x ∈ l → P x ∨ Q x) → (∀ x, x ∈ l → P x) ∨ (∃ x, x ∈ l ∧ Q x).
Proof.
  induction l as [|y l IH]; intros Hl; [left; by intros x ?%not_elem_of_nil|].
  destruct (Hl y) as [Hy|Hy]; [by left| |right; exists y; split; [by left|done]].
  destruct IH as [IH|(x & ? & ?)]; [intros; apply Hl; by right| |].
  - left. intros x [->|?]%elem_of_cons; auto.
  - right. exists x. split; [by right|done].
Qed.

(** What a quorum signed, a quorum voted for: commit votes rest on an earlier
    certificate with the same consensus data. *)
Lemma signed_certified h e S li d :
  history_ok V byz h → is_quorum V e S →
  (∀ a, a ∈ S → a ∉ byz → signed_li h a li) → no_collision h d →
  li_consensus_data_hash li = crypto_hash d → bi_epoch (vd_proposed d) = e →
  certified V byz h e d.
Proof.
  remember (length h) as n eqn:Hn. revert h e S li d Hn.
  induction n as [n IH] using lt_wf_ind. intros h e S li d -> Hh HS Hsigned Hnc Hhash He.
  destruct (forall_or_exists
    (λ a, a ∉ byz → ∃ v, (a, OutVote v) ∈ h ∧ vote_ledger_info v = li)
    (λ a, ∃ old, (a, OutCommitVote old li) ∈ h) (elements S)) as [Hall|(a & _ & old & Hin)].
  { intros a Ha%elem_of_elements. destruct (decide (a ∈ byz)) as [?|Hb]; [by left|].
    destruct (Hsigned a Ha Hb) as [(v & ? & ?)|(old & ?)]; [left; eauto|right; eauto]. }
  - split; [done|]. exists S. split; [done|]. intros a Ha%elem_of_elements Hb.
    destruct (Hall a Ha Hb) as (v & Hin & <-). exists v. split; [done|].
    apply (Hnc a v Hin). rewrite <-Hhash. symmetry. by eapply vk_hash, history_vote_ok.
  - destruct (history_ok_elem _ _ _ Hh Hin) as (h' & (e' & qc & <- & Hqc & Hsig & He' & Henv & Hh' & _)
      & Hok & Hsub & Hlen).
    destruct Henv as [Hback Hnc'].
    assert (li_consensus_data_hash (qc_ledger_info qc) = crypto_hash (qc_vote_data qc)) as Hqh.
    { unfold quorum_cert_verify in Hqc. apply bind_Ok in Hqc as (u & Hqc & _).
      by apply ensure_Ok, N.eqb_eq in Hqc. }
    assert (certified V byz h' e' (qc_vote_data qc)) as Hcert.
    { eapply (IH (length h') Hlen h' e' (voters (V e') (liws_signatures (qc_signed_ledger_info qc)))
        (qc_ledger_info qc));
        try done.
      - apply (verify_multi_signatures_quorum _ _ _ (Hwf e') Hsig).
      - by apply Hback. }
    destruct (certified_vote _ _ _ Hok Hcert) as (b & v & Hv & Hvd & _).
    assert (qc_vote_data qc = d) as Heq.
    { rewrite <-Hvd. apply (Hnc b v); [by apply Hsub|]. rewrite Hvd.
      unfold qc_ledger_info in Hqh. congruence. }
    rewrite Heq in Hcert. assert (e' = e) as -> by (rewrite <-He, <-He'; by rewrite <-Heq).
    by eapply certified_mono.
Qed.

(** ** Votes are justified *)

(** A new vote of a node whose epoch state is the epoch's. *)
Lemma new_vote_ok h now vp tc d es signer vd v :
  history_ok V byz h → es_epoch es = sd_epoch d → es_verifier es = V (es_epoch es) →
  proposal_ok now vp d es vd → maybe_tc_ok (es_verifier es) tc →
  qc_env V byz h (es_epoch es) (block_quorum_cert (vp_block vp)) →
  (∀ tc', tc = Some tc' →
     tc_env V byz h (es_epoch es) tc' ∧ tc_epoch tc' = block_epoch (vp_block vp)) →
  two_chain_vote_rule (block_round (vp_block vp))
    (bi_round (certified_block (block_quorum_cert (vp_block vp))))
    (maybe_tc_round tc) (maybe_tc_hqc_round tc) →
  is_vote_for signer (vp_block vp) vd v → vote_ok V byz h v.
Proof.
  intros Hh Hed Hver [He Hqc _ Hform Hgen] Htc [Hback Hnc] Htcenv Hrule (bytes & _ & ->).
  destruct (gen_vote_data_Ok _ _ Hgen) as (Hve & Hvr & _ & Hpar).
  destruct (verify_well_formed_parent _ _ Hform) as [Hpr Hpe].
  rewrite Hver in *. rewrite <-Hed in He.
  assert (vote_parent_round (mkVote vd (vs_author signer) (two_chain_ledger_info (vp_block vp) vd)
    (bls_sign (vs_private_key signer) bytes) None) =
    bi_round (certified_block (block_quorum_cert (vp_block vp)))) as Hp
    by (unfold vote_parent_round; cbn; by rewrite Hpar).
  split; unfold vote_round, vote_epoch; cbn; rewrite ?Hp, ?Hvr, ?Hve, ?Hpar, ?He; try done.
  - by rewrite Hpe.
  - destruct (decide (bi_round (certified_block (block_quorum_cert (vp_block vp))) = 0)) as [?|Hr0];
      [by left|right].
    destruct (quorum_cert_verify_signed _ _ Hqc Hr0) as (Hqh & Hsig & _).
    exists (qc_vote_data (block_quorum_cert (vp_block vp))). split; [done|].
    eapply signed_certified; [done| |by apply Hback|done|done|].
    + apply (verify_multi_signatures_quorum _ _ _ (Hwf _) Hsig).
    + rewrite <-He, <-Hpe. done.
  - destruct Hrule as [?|[Hr1 Hr2]]; [by left|]. destruct tc as [tc|]; cbn in *; [|left; lia].
    right. exists (tc_round tc), (highest_hqc_round tc). split; [done|]. split; [done|].
    destruct (Htcenv tc eq_refl) as [Henv Hte].
    destruct (tc_verify_Ok _ _ (Hwf _) Htc) as (_ & HS & Hrounds).
    eexists. split; [exact HS|]. intros a Ha Hb. destruct (Henv Htc a Ha Hb) as (r & Hin & Hout).
    exists r. split; [by eapply Hrounds|]. by rewrite Hte, He in Hout.
Qed.

(** What a call does to the persisted epoch and vote. *)
Lemma sr_exec_frame c (s : SafetyRules St) o s' d :
  sr_exec c s = (o, s') → cache_ok s → stored s = Some d →
  ∃ d', stored s' = Some d' ∧
  ((∃ proof es, c = CallInitialize proof ∧ proven_epoch proof s es ∧ epoch_state s' = Some es ∧
      sd_epoch d ≤ es_epoch es ∧ d' = data_in_epoch d es) ∨
   ((epoch_state s' = epoch_state s ∨ epoch_state s' = None) ∧ sd_epoch d' = sd_epoch d ∧
    (sd_last_vote d' = sd_last_vote d ∨ ∃ v, o = Some (OutVote v) ∧ sd_last_vote d' = Some v))).
Proof.
  intros Hexec Hc Hd.
  assert (∀ s'', quiet s s'' → stored s'' = Some d ∧ epoch_state s'' = epoch_state s) as Hquiet.
  { intros s'' Hq. by rewrite (quiet_stored _ _ Hq), (quiet_epoch_state _ _ Hq). }
  destruct c; cbn [sr_exec] in Hexec; unfold release in Hexec.
  - destruct (guarded_consensus_state tracing s) as [r s1] eqn:E. injection Hexec as <- <-.
    apply Quiet_consensus_state, Hquiet in E as [? ->]. exists d. auto 10.
  - destruct (guarded_initialize proof s) as [r s1] eqn:E. injection Hexec as <- <-.
    apply initialize_any in E as [_ [(_ & Hst & -> & _)|(d0 & es & Hd0 & Hle & Hp & Hst & He & _)]];
      [| |done]; [exists d; rewrite Hst; auto 10|].
    simplify_eq. exists (data_in_epoch d0 es). split; [done|]. left. by exists proof, es.
  - destruct (guarded_sign_proposal block_data s) as [r s1] eqn:E. injection Hexec as <- <-.
    apply Quiet_sign_proposal, Hquiet in E as [? ->]. exists d. auto 10.
  - destruct (guarded_sign_timeout_with_qc timeout timeout_cert s) as [r s1] eqn:E.
    injection Hexec as <- <-.
    apply timeout_any in E as [(_ & -> & _) [Hst|(d0 & Hd0 & _ & Hst)]]; [| |done].
    + exists d. rewrite Hst. auto 10.
    + simplify_eq. eexists. split; [done|]. right. auto.
  - destruct (guarded_construct_and_sign_vote_two_chain current_micros vote_proposal timeout_cert s)
      as [r s1] eqn:E. injection Hexec as <- <-.
    destruct (Saves_vote _ _ _ _ _ _ E) as [(_ & -> & _) Herr].
    destruct r as [v|e|]; [|exists d; rewrite Herr by done; auto 10..].
    apply vote_Ok in E as (d0 & es & signer & vd & d' & Hd0 & _ & _ & _ & _ & Ha & Hst); [|done].
    simplify_eq. exists d'. split; [done|]. right. split; [by left|]. destruct Ha; cbn; [auto|].
    split; [done|]. right. by exists v.
  - destruct (guarded_sign_commit_vote ledger_info new_ledger_info s) as [r s1] eqn:E.
    injection Hexec as <- <-.
    apply Quiet_sign_commit_vote, Hquiet in E as [? ->]. exists d. auto 10.
  - injection Hexec as <- <-. exists d. auto 10.
Qed.

(** What a node puts out is justified. *)
Lemma sr_exec_output h a c (s : SafetyRules St) o s' :
  history_ok V byz h → node_ok V byz h a s → call_env V byz h s c → sr_exec c s = (Some o, s') →
  output_ok V byz h o.
Proof.
  intros Hh [Hc (d & Hd & Hi & Hes & Hlv)] Henv Hexec.
  destruct c; cbn [sr_exec] in Hexec; unfold release in Hexec; try done.
  - destruct (guarded_sign_proposal block_data s) as [[] ?]; by simplify_eq/=.
  - destruct (guarded_sign_timeout_with_qc timeout timeout_cert s) as [[] ?]; by simplify_eq/=.
  - destruct (guarded_construct_and_sign_vote_two_chain current_micros vote_proposal timeout_cert s)
      as [[v| |] s1] eqn:E; simplify_eq/=.
    apply vote_Ok in E as (d0 & es & signer & vd & d' & Hd0 & He & _ & Hp & Htc & Ha & _); [|done].
    simplify_eq. destruct (Henv es He) as [Hqcenv Htcenv]. destruct (Hes es He) as [Hee Hver].
    destruct Ha as [Hv _|Hr Hrule Hfor]; [by apply Hlv|]. by eapply new_vote_ok.
  - destruct (guarded_sign_commit_vote ledger_info new_ledger_info s) as [[sig| |] s1] eqn:E;
      simplify_eq/=.
    apply commit_vote_Ok in E as (es & He & Hmatch & Hsig).
    destruct Henv as [Henv Hhash]. destruct (Henv es He) as (qc & Hli & Hqc & Hqe & Hqcenv).
    destruct (Hes es He) as [Hee Hver]. rewrite Hver in *.
    by exists (es_epoch es), qc.
Qed.

(** ** The invariant holds *)

Lemma initial_ok sys : initial sys → system_ok V byz (St := St) sys.
Proof.
  intros [Hh Hnodes]. split; rewrite Hh; [done| |by intros a o ?%not_elem_of_nil].
  intros a s Hs. destruct (Hnodes a s Hs) as (Hc & He & d & Hd & Hv).
  split; [done|]. exists d. split; [done|]. split; [|split; [by rewrite He|by rewrite Hv]].
  destruct d as [e l p r v]. cbn in Hv. subst v. apply node_inv_fresh.
Qed.

Lemma node_ok_mono h h' a (s : SafetyRules St) :
  h ⊆ h' → outs_of a h' = outs_of a h → node_ok V byz h a s → node_ok V byz h' a s.
Proof.
  intros Hsub Hout [Hc (d & Hd & Hi & Hes & Hlv)]. split; [done|]. exists d.
  rewrite Hout. split; [done|]. split; [done|]. split; [done|].
  intros v Hv. eapply vote_ok_mono; [done|auto].
Qed.

Lemma step_node_ok h a c (s : SafetyRules St) o s' :
  history_ok V byz h → node_ok V byz h a s → call_env V byz h s c → sr_exec c s = (o, s') →
  node_ok V byz ((pair a <$> option_list o) ++ h) a s'.
Proof.
  intros Hh Hn Henv Hexec. pose proof Hn as [Hc (d & Hd & Hi & Hes & Hlv)].
  destruct (sr_exec_inv _ _ _ _ _ _ Hexec Hc Hd Hi) as (d' & Hd' & Hc' & _ & Hi').
  destruct (sr_exec_frame _ _ _ _ _ Hexec Hc Hd) as (d'' & Hd'' & Hcase). simplify_eq.
  assert (h ⊆ (pair a <$> option_list o) ++ h) as Hsub by set_solver.
  split; [done|]. exists d'. split; [done|]. rewrite outs_of_app, decide_True by done.
  split; [done|]. destruct Hcase as [(proof & es & -> & Hp & He & Hle & ->)|(He & Hed & Hv)].
  - split.
    + intros es' He'. simplify_eq. split; [|by apply Henv]. unfold data_in_epoch. case_N; cbn; lia.
    + intros v. unfold data_in_epoch. case_N; [done|]. intros ?%Hlv. by eapply vote_ok_mono.
  - split.
    + intros es' He'. rewrite Hed. destruct He as [He|He]; rewrite He in He'; [auto|done].
    + intros v Hv'. eapply vote_ok_mono; [done|].
      destruct Hv as [Hv|(v' & -> & Hv)]; rewrite Hv in Hv'; [auto|]. simplify_eq.
      by eapply (sr_exec_output h a c s (OutVote v)).
Qed.

Lemma step_ok sys sys' : step V byz (St := St) sys sys' → system_ok V byz sys → system_ok V byz sys'.
Proof.
  intros Hstep [Hh Hn Hk]. destruct Hstep as [a c s o s' nodes h Hs Henv Hexec|a s st nodes h Hs Hst];
    cbn in *.
  - split; cbn.
    + destruct o as [o|]; [|done]. cbn. split; [|done]. eapply (sr_exec_output h a); eauto.
    + intros b t Ht. destruct (decide (a = b)) as [<-|Hab].
      * rewrite lookup_insert_eq in Ht. simplify_eq. by eapply step_node_ok; eauto.
      * rewrite lookup_insert_ne in Ht by done. eapply node_ok_mono; [| |by apply Hn].
        -- set_solver.
        -- rewrite outs_of_app. by rewrite decide_False.
    + intros b o' [Hin|Hin]%elem_of_app; [|destruct (decide (a = b)) as [<-|?]].
      * apply list_elem_of_fmap in Hin as (? & [= -> ->] & _). by rewrite lookup_insert_eq.
      * by rewrite lookup_insert_eq.
      * rewrite lookup_insert_ne by done. eauto.
  - split; cbn; [done| |].
    + intros b t Ht. destruct (decide (a = b)) as [<-|Hab].
      * rewrite lookup_insert_eq in Ht. simplify_eq. destruct (Hn a s Hs) as [Hc (d & Hd & Hrest)].
        assert (∀ c e, pss_stored (mkPersistentSafetyStorage e c st) = stored s) as Heq.
        { intros c e. unfold stored, pss_stored. cbn. by rewrite Hst. }
        split; [|exists d; split; [|done]].
        -- intros d' Hd'. cbn in *. rewrite Heq. by apply Hc.
        -- unfold stored at 1. cbn. by rewrite Heq.
      * rewrite lookup_insert_ne in Ht by done. by apply Hn.
    + intros b o' Hin. destruct (decide (a = b)) as [<-|?]; [by rewrite lookup_insert_eq|].
      rewrite lookup_insert_ne by done. eauto.
Qed.

Lemma reachable_ok sys sys' :
  initial sys → rtc (step V byz (St := St)) sys sys' → system_ok V byz sys'.
Proof.
  intros Hinit Hsteps. apply initial_ok in Hinit. induction Hsteps; [done|]. eauto using step_ok.
Qed.

(** ** One chain *)

Lemma node_votes_agree (sys : system) a v v' :
  system_ok V byz (St := St) sys → (a, OutVote v) ∈ sys_history sys →
  (a, OutVote v') ∈ sys_history sys → vote_epoch v = vote_epoch v' →
  vote_round v = vote_round v' → v = v'.
Proof.
  intros Hok Hv Hv' He Hr. destruct (sk_known _ _ _ Hok _ _ Hv) as [s Hs].
  destruct (sk_nodes _ _ _ Hok a s Hs) as [_ (d & _ & Hi & _)].
  apply (ni_one_vote _ _ Hi); try done; left; by apply elem_of_outs_of.
Qed.
Lemma node_timeout_covers (sys : system) a v t :
  system_ok V byz (St := St) sys → (a, OutVote v) ∈ sys_history sys →
  (a, OutTimeout t) ∈ sys_history sys → vote_epoch v = tsr_epoch t →
  vote_round v ≤ tsr_round t → vote_parent_round v ≤ tsr_hqc_round t.
Proof.
  intros Hok Hv Ht He Hr. destruct (sk_known _ _ _ Hok _ _ Hv) as [s Hs].
  destruct (sk_nodes _ _ _ Hok a s Hs) as [_ (d & _ & Hi & _)].
  apply (ni_timeout_hqc _ _ Hi v t); try done; [left|]; by apply elem_of_outs_of.
Qed.

Lemma certified_unique (sys : system) e d d' :
  system_ok V byz (St := St) sys → certified V byz (sys_history sys) e d →
  certified V byz (sys_history sys) e d' →
  bi_round (vd_proposed d) = bi_round (vd_proposed d') → d = d'.
Proof.
  intros Hok Hd Hd' Hr.
  destruct (certified_common _ _ _ _ Hd Hd') as (a & v & v' & Hv & <- & He & Hv' & <- & He').
  f_equal. eapply node_votes_agree; try done. congruence.
Qed.

(** A later vote is based on a round no lower than a committed one. *)
Lemma vote_above_commit (sys : system) e b d1 a v :
  system_ok V byz (St := St) sys → certified V byz (sys_history sys) e d1 →
  vd_parent d1 = b → bi_round (vd_proposed d1) = bi_round b + 1 →
  (a, OutVote v) ∈ sys_history sys → vote_epoch v = e → bi_round b + 1 < vote_round v →
  bi_round b ≤ vote_parent_round v.
Proof.
  intros Hok (He1 & S1 & HS1 & Hv1) Hpar Hr1 Hv He Hlt.
  destruct (history_vote_ok _ _ _ (sk_history _ _ _ Hok) Hv) as [_ _ _ _ _ Hrule].
  destruct Hrule as [?|(t & r & Ht & Hle & S & HS & Hto)]; [lia|]. rewrite He in *.
  destruct (quorum_meet e S1 S HS1 HS) as (c & Hc1 & Hc & Hb).
  destruct (Hv1 c Hc1 Hb) as (v1 & Hin1 & Hd1). destruct (Hto c Hc Hb) as (x & Hx & Hint).
  pose proof (node_timeout_covers _ _ _ _ Hok Hin1 Hint) as Hcov.
  unfold vote_parent_round, vote_epoch, vote_round in Hcov. rewrite Hd1, Hpar, Hr1, He1 in Hcov.
  cbn in Hcov. specialize (Hcov eq_refl). lia.
Qed.

Lemma commit_ancestor (sys : system) e b d :
  system_ok V byz (St := St) sys → commits V byz (sys_history sys) e b →
  certified V byz (sys_history sys) e d → bi_round b < bi_round (vd_proposed d) →
  ancestor V byz (sys_history sys) e b (vd_proposed d).
Proof.
  intros Hok (d0 & d1 & Hc0 & Hc1 & Hd0 & Hd1 & Hr1 & Hpos).
  remember (bi_round (vd_proposed d)) as n eqn:Hn. revert d Hn.
  induction n as [n IH] using (well_founded_induction N.lt_wf_0). intros d -> Hd Hlt.
  destruct (decide (bi_round (vd_proposed d) = bi_round b + 1)) as [Heq|Hne].
  { assert (d = d1) as -> by (eapply certified_unique; try done; congruence).
    apply rtc_once. by exists d1. }
  destruct (certified_vote _ _ _ (sk_history _ _ _ Hok) Hd) as (a & v & Hv & Hvd & He & Hvok).
  assert (bi_round b ≤ vote_parent_round v) as Hle.
  { eapply (vote_above_commit sys e b d1 a v); try done. unfold vote_round. rewrite Hvd. lia. }
  destruct (vk_parent _ _ _ _ Hvok) as [?|(dp & Hdp & Hcp)]; [lia|].
  pose proof (vk_parent_round _ _ _ _ Hvok) as Hpr.
  unfold vote_parent_round, vote_round in *. rewrite He, Hvd in *.
  assert (certified_parent V byz (sys_history sys) e (vd_proposed dp) (vd_proposed d)) as Hstep
    by by exists d.
  destruct (decide (bi_round (vd_parent d) = bi_round b)) as [Hq|Hq].
  - assert (dp = d0) as -> by (eapply certified_unique; try done; congruence).
    rewrite <-Hd0. by apply rtc_once.
  - eapply rtc_r; [|done]. eapply (IH (bi_round (vd_proposed dp))); rewrite ?Hdp; try done; lia.
Qed.

Lemma match_ordered_only_same b b' : match_ordered_only b b' = true → same_block b b'.
Proof.
  unfold match_ordered_only. intros Hm. repeat apply andb_prop in Hm as [Hm ?].
  repeat match goal with E : (_ =? _) = true |- _ => apply N.eqb_eq in E end. done.
Qed.

Lemma commits_mono h h' e b : h ⊆ h' → commits V byz h e b → commits V byz h' e b.
Proof.
  intros Hsub (d0 & d1 & ? & ? & ?). exists d0, d1. eauto using certified_mono.
Qed.

(** A verified certificate certifies its vote data. *)
Lemma qc_certified h e qc :
  history_ok V byz h → quorum_cert_verify qc (V e) = Ok tt →
  verify_signatures (qc_signed_ledger_info qc) (V e) = Ok tt →
  bi_epoch (certified_block qc) = e → qc_env V byz h e qc →
  certified V byz h e (qc_vote_data qc).
Proof.
  intros Hh Hqc Hsig He [Hback Hnc].
  eapply signed_certified; [done| |by apply Hback|done| |done].
  - apply (verify_multi_signatures_quorum _ _ _ (Hwf e) Hsig).
  - unfold quorum_cert_verify in Hqc. apply bind_Ok in Hqc as (u & Hqc & _).
    by apply ensure_Ok, N.eqb_eq in Hqc.
Qed.

Lemma qc_commits h e qc :
  history_ok V byz h → quorum_cert_verify qc (V e) = Ok tt →
  bi_epoch (certified_block qc) = e → qc_env V byz h e qc → 0 < bi_round (qc_commit_info qc) →
  ∃ b, same_block b (qc_commit_info qc) ∧ commits V byz h e b.
Proof.
  remember (length h) as n eqn:Hn. revert h e qc Hn.
  induction n as [n IH] using lt_wf_ind. intros h e qc -> Hh Hqc He Henv Hpos.
  destruct (decide (bi_round (certified_block qc) = 0)) as [Hr0|Hr0].
  { rewrite (quorum_cert_verify_genesis _ _ Hqc Hr0) in Hpos. lia. }
  destruct (quorum_cert_verify_signed _ _ Hqc Hr0) as (Hhash & Hsig & _).
  pose proof (qc_certified _ _ _ Hh Hqc Hsig He Henv) as Hcert.
  pose proof (verify_multi_signatures_quorum _ _ _ (Hwf e) Hsig) as HS.
  destruct (quorum_meet e _ _ HS HS) as (a & Ha & _ & Hb).
  destruct Henv as [Hback Hnc]. destruct (Hback Hsig a Ha Hb) as [(v & Hin & Hli)|(old & Hin)].
  - destruct (history_vote_ok _ _ _ Hh Hin) as [_ _ Hvh Hcommit Hparent _].
    assert (vote_vote_data v = qc_vote_data qc) as Hvd.
    { apply (Hnc a v Hin). rewrite <-Hvh, Hli. done. }
    unfold vote_parent_round, vote_round, vote_epoch in *. rewrite Hvd, Hli in *.
    assert (bi_epoch (vd_proposed (qc_vote_data qc)) = e) as Hqe by done. rewrite Hqe in *.
    unfold qc_commit_info, qc_ledger_info in *. rewrite Hcommit in *.
    destruct (N.eqb_spec (bi_round (vd_parent (qc_vote_data qc)) + 1)
      (bi_round (vd_proposed (qc_vote_data qc)))) as [Hcons|]; [|cbn in Hpos; lia].
    exists (vd_parent (qc_vote_data qc)). split; [done|].
    destruct Hparent as [?|(d0 & Hd0 & Hc0)]; [lia|]. by exists d0, (qc_vote_data qc).
  - destruct (history_ok_elem _ _ _ Hh Hin) as
      (h' & (e' & qc' & <- & Hqc' & Hsig' & He' & Henv' & Hh' & Hm) & Hok & Hsub & Hlen).
    pose proof (qc_certified _ _ _ Hok Hqc' Hsig' He' Henv') as Hcert'.
    destruct (certified_vote _ _ _ Hok Hcert') as (c & v & Hv & Hvd & _ & Hvok).
    assert (qc_vote_data qc' = qc_vote_data qc) as Heq.
    { rewrite <-Hvd. apply (Hnc c v); [by apply Hsub|]. rewrite Hvd, <-Hhash.
      unfold quorum_cert_verify in Hqc'. apply bind_Ok in Hqc' as (u & Hq' & _).
      apply ensure_Ok, N.eqb_eq in Hq'. unfold qc_ledger_info in *. congruence. }
    assert (e' = e) as -> by (rewrite <-He, <-He'; unfold certified_block; by rewrite Heq).
    apply match_ordered_only_same in Hm as (Hm1 & Hm2 & Hm3).
    destruct (IH (length h') Hlen h' e qc') as (b & (Hs1 & Hs2 & Hs3) & Hcb); try done.
    { unfold qc_commit_info, qc_ledger_info in *. by rewrite Hm2. }
    exists b. split; [|by eapply commits_mono].
    unfold same_block, qc_commit_info, qc_ledger_info in *.
    split; [congruence|]. split; congruence.
Qed.

Lemma ancestor_round (h : history) e b b' :
  history_ok V byz h → ancestor V byz h e b b' → b = b' ∨ bi_round b < bi_round b'.
Proof.
  intros Hh Hanc. induction Hanc as [|b b1 b' (d & Hd & <- & <-) _ IH]; [by left|]. right.
  destruct (certified_vote _ _ _ Hh Hd) as (a & v & _ & Hvd & _ & Hvok).
  pose proof (vk_parent_round _ _ _ _ Hvok) as Hpr. unfold vote_parent_round, vote_round in Hpr.
  rewrite Hvd in Hpr. destruct IH as [<-|?]; lia.
Qed.

Lemma commits_one_chain (sys : system) e b b' :
  system_ok V byz (St := St) sys → commits V byz (sys_history sys) e b →
  commits V byz (sys_history sys) e b' → bi_round b ≤ bi_round b' →
  ancestor V byz (sys_history sys) e b b'.
Proof.
  intros Hok Hb (d0 & d1 & Hc0 & _ & <- & _ & _) Hle.
  destruct (decide (bi_round b = bi_round (vd_proposed d0))) as [Heq|Hne].
  - destruct Hb as (d0' & d1' & Hc0' & _ & <- & _).
    by rewrite (certified_unique sys e d0' d0 Hok Hc0' Hc0 Heq).
  - apply commit_ancestor; try done. lia.
Qed.
End agreement.

(** ** The theorem *)


(** ** A run of the sample validators

    Checks of the environment's conditions on concrete calls, for certificates without a
    timeout certificate. *)
Section sample.
#[local] Existing Instance sample_bls.
#[local] Existing Instance sample_hashes.

Definition sample_V (e : N) : ValidatorVerifier := sample_verifier.
(** Validator 4 is the environment's. *)
Definition sample_byz : gset AccountAddress := {[4]}.

Definition check_signed (h : history) (a : AccountAddress) (li : LedgerInfo) : bool :=
  existsb (λ p, bool_decide (p.1 = a) && match p.2 with
    | OutVote v => bool_decide (vote_ledger_info v = li)
    | OutCommitVote _ new => bool_decide (new = li)
    | _ => false
    end) h.
Definition check_qc (h : history) (e : N) (qc : QuorumCert) : bool :=
  forallb (λ a, bool_decide (a ∈ sample_byz) || check_signed h a (qc_ledger_info qc))
    (elements (voters (sample_V e) (liws_signatures (qc_signed_ledger_info qc)))) &&
  forallb (λ p : AccountAddress * output, match p.2 with
    | OutVote v => negb (crypto_hash (vote_vote_data v) =? crypto_hash (qc_vote_data qc))
                   || bool_decide (vote_vote_data v = qc_vote_data qc)
    | _ => true
    end) h.
Definition check_call (h : history) (s : SafetyRules InMemoryStorage) (c : sr_call) : bool :=
  match c with
  | CallVote _ vp tc => bool_decide (tc = None) && match epoch_state s with
      | Some es => check_qc h (es_epoch es) (block_quorum_cert (vp_block vp))
      | None => true
      end
  | CallSignCommitVote _ _ => false
  | CallInitialize proof =>
      match stored_waypoint s with
      | Some w =>
          match epoch_change_proof_verify proof (waypoint_verifier w) with
          | Ok li => match li_next_epoch_state (liws_ledger_info li) with
                     | Some es => bool_decide (es_verifier es = sample_V (es_epoch es))
                     | None => true
                     end
          | _ => true
          end
      | None => true
      end
  | _ => true
  end.
(** Serves the calls one after the other, each after checking it. *)
Fixpoint run_calls (calls : list (AccountAddress * sr_call)) (sys : system (St := InMemoryStorage))
  : option (system (St := InMemoryStorage)) :=
  match calls with
  | [] => Some sys
  | (a, c) :: calls =>
      s ← sys_nodes sys !! a;
      if check_call (sys_history sys) s c then
        let '(o, s') := sr_exec c s in
        run_calls calls (mkSystem (<[a := s']> (sys_nodes sys))
                           ((pair a <$> option_list o) ++ sys_history sys))
      else None
  end.

Lemma check_signed_sound h a li : check_signed h a li = true → signed_li h a li.
Proof.
  unfold check_signed. rewrite existsb_exists. intros ([b o] & Hin%list_elem_of_In & Hb).
  apply andb_prop in Hb as [Hb%bool_decide_eq_true Ho]. cbn in *. subst b.
  destruct o; try done; apply bool_decide_eq_true in Ho; subst; [left|right]; eauto.
Qed.
Lemma check_qc_sound h e qc : check_qc h e qc = true → qc_env sample_V sample_byz h e qc.
Proof.
  unfold check_qc. rewrite andb_true_iff, !forallb_forall. intros [H1 H2]. split.
  - intros _ a Ha Hb. apply check_signed_sound.
    specialize (H1 a). rewrite <-list_elem_of_In, elem_of_elements, orb_true_iff in H1.
    destruct (H1 Ha) as [?%bool_decide_eq_true|?]; done.
  - intros a v Hin Hhash. specialize (H2 (a, OutVote v)). rewrite <-list_elem_of_In in H2.
    specialize (H2 Hin). cbn [fst snd] in H2. rewrite Hhash, N.eqb_refl in H2.
    by apply bool_decide_eq_true in H2.
Qed.
Lemma check_call_sound h s c : check_call h s c = true → call_env sample_V sample_byz h s c.
Proof.
  destruct c; cbn [check_call call_env]; try done.
  - intros Hb es (w & li & Hw & Hv & He). rewrite Hw, Hv, He in Hb.
    by apply bool_decide_eq_true in Hb.
  - intros [Htc%bool_decide_eq_true Hqc]%andb_prop es He. rewrite He in Hqc. subst.
    split; [by apply check_qc_sound|done].
Qed.
Lemma run_calls_sound calls sys sys' :
  run_calls calls sys = Some sys' → rtc (step sample_V sample_byz) sys sys'.
Proof.
  revert sys. induction calls as [|[a c] calls IH]; intros [nodes h] Hrun; cbn in Hrun.
  { by simplify_eq. }
  destruct (nodes !! a) as [s|] eqn:Hs; cbn in Hrun; [|done].
  destruct (check_call h s c) eqn:Hc; [|done]. destruct (sr_exec c s) as [o s'] eqn:He.
  eapply rtc_l; [|by apply IH]. econstructor; [done| |done]. by apply check_call_sound.
Qed.

Definition sample_start_node (a : AccountAddress) : SafetyRules InMemoryStorage :=
  safety_rules_new (pss_new
    (mkInMemoryStorage {[ SAFETY_DATA := StoredSafetyData (mkSafetyData 0 7 6 6 None);
       OWNER_ACCOUNT := StoredAuthor a; CONSENSUS_KEY := StoredPrivateKey (10 + a);
       WAYPOINT := StoredWaypoint (waypoint_new_any (liws_ledger_info sample_epoch_end)) ]}) true).
Definition sample_start : system (St := InMemoryStorage) :=
  mkSystem {[ 1 := sample_start_node 1; 2 := sample_start_node 2; 3 := sample_start_node 3 ]} [].

(** The certificate of the validators 1, 2 and 3 for the block of round [r] on [parent]. *)
Definition certify (r : N) (parent : QuorumCert) : QuorumCert :=
  let vp := sample_proposal r parent in
  let vd := vote_data_ordering_only vp in
  let li := two_chain_ledger_info (vp_block vp) vd in
  mkQuorumCert vd (mkLIWS li (mkAggregateSignature (mkBitVec [224])
    (Some (sample_digest (default [] (signing_message li)) * (11 + 12 + 13))))).
Definition sample_qc1 : QuorumCert := certify 1 (sample_genesis_qc 1).
Definition sample_qc2 : QuorumCert := certify 2 sample_qc1.
Definition sample_qc3 : QuorumCert := certify 3 sample_qc2.

Definition everywhere (c : sr_call) : list (AccountAddress * sr_call) := [(1, c); (2, c); (3, c)].
Definition sample_system_calls : list (AccountAddress * sr_call) :=
  everywhere (CallInitialize (mkEpochChangeProof [sample_epoch_end] false)) ++
  everywhere (CallVote 0 (sample_proposal 1 (sample_genesis_qc 1)) None) ++
  everywhere (CallVote 0 (sample_proposal 2 sample_qc1) None) ++
  everywhere (CallVote 0 (sample_proposal 3 sample_qc2) None).

Lemma sample_start_initial : initial sample_start.
Proof.
  split; [done|]. intros a s Hs. apply elem_of_map_to_list in Hs. vm_compute in Hs.
  repeat (apply elem_of_cons in Hs as [Hs|Hs];
    [simplify_eq; split; [by intros d|]; split; [done|]; eexists; split; [reflexivity|done]|]).
  by apply not_elem_of_nil in Hs.
Qed.

(** The state the calls lead to. *)
Definition sample_end : system (St := InMemoryStorage) :=
  default sample_start (run_calls sample_system_calls sample_start).
Lemma sample_steps : rtc (step sample_V sample_byz) sample_start sample_end.
Proof.
  apply (run_calls_sound sample_system_calls). unfold sample_end.
  assert (bool_decide (is_Some (run_calls sample_system_calls sample_start)) = true)
    as [sys' Hs]%bool_decide_eq_true by (vm_compute; reflexivity).
  by rewrite Hs.
Qed.

End sample.
