(* ===== verification/PendingVotes.v ===== *)
(** * Votes of the current round (consensus/src/pending_votes.rs)

    [PendingVotes] collects the votes of one round by the digest of their ledger info and
    the timeouts they carry, and forms a quorum certificate or a timeout certificate as
    soon as enough voting power has signed. *)
From S2P Require Import Prelude BitVec Crypto ValidatorVerifier LedgerInfo ConsensusTypes Timeouts.
Local Open Scope N_scope.

(** ** State and operations *)

Inductive VoteReceptionResult :=
| VoteAdded (voting_power : N)
| DuplicateVote
| EquivocateVote
| NewQuorumCertificate (qc : QuorumCert)
| New2ChainTimeoutCertificate (tc : TwoChainTimeoutCertificate)
| ErrorAddingVote (e : VerifyError)
| ErrorAggregatingSignature (e : VerifyError)
| ErrorAggregatingTimeoutCertificate (e : VerifyError)
| UnexpectedRound (vote_round current_round : Round)
| EchoTimeout (voting_power : N).

Record PendingVotes := mkPendingVotes {
  li_digest_to_votes : gmap HashValue LedgerInfoWithPartialSignatures;
  maybe_partial_2chain_tc : option TwoChainTimeoutWithPartialSignatures;
  author_to_vote : gmap Author (Vote * HashValue);
  echo_timeout : bool;
}.

Definition pending_votes_new : PendingVotes := mkPendingVotes ∅ None ∅ false.

Definition drain_votes (pv : PendingVotes) :
    (list (HashValue * LedgerInfoWithPartialSignatures) *
     option TwoChainTimeoutWithPartialSignatures) * PendingVotes :=
  ((map_to_list (li_digest_to_votes pv), maybe_partial_2chain_tc pv),
   mkPendingVotes ∅ None (author_to_vote pv) (echo_timeout pv)).

Section pending.
Context `{!Bls} `{!ArxHashes}.

Definition vote_digest (vote : Vote) : HashValue := crypto_hash (vote_ledger_info vote).

(** Step 1: the author's earlier vote of the round decides. *)
Definition previously_seen (pv : PendingVotes) (vote : Vote) : option VoteReceptionResult :=
  match author_to_vote pv !! vote_author vote with
  | Some (previously_seen_vote, previous_li_digest) =>
      if vote_digest vote =? previous_li_digest then
        let new_timeout_vote := vote_is_timeout vote && negb (vote_is_timeout previously_seen_vote) in
        if negb new_timeout_vote then Some DuplicateVote else None
      else Some EquivocateVote
  | None => None
  end.

(** Steps 4 and 5: the timeout the vote carries, when no QC could be formed. *)
Definition insert_timeout (v : ValidatorVerifier) (vote : Vote) (voting_power : N)
  : M PendingVotes Infallible VoteReceptionResult := λ pv,
  match vote_two_chain_timeout vote with
  | None => (Ok (VoteAdded voting_power), pv)
  | Some (timeout, sig) =>
      let partial_tc :=
        tps_add (default (tps_new timeout) (maybe_partial_2chain_tc pv)) (vote_author vote) timeout sig in
      let pv := mkPendingVotes (li_digest_to_votes pv) (Some partial_tc) (author_to_vote pv)
                  (echo_timeout pv) in
      match check_voting_power v (tps_signers partial_tc) with
      | Ok _ =>
          match tps_aggregate_signatures partial_tc v with
          | Ok tc_with_sig => (Ok (New2ChainTimeoutCertificate tc_with_sig), pv)
          | Err e => (Ok (ErrorAggregatingTimeoutCertificate e), pv)
          | Panic => (Panic, pv)
          end
      | Err (TooLittleVotingPower tc_voting_power _) =>
          if echo_timeout pv then (Ok (VoteAdded voting_power), pv)
          else
            match (if quorum_voting_power v <=? total_voting_power v
                   then u128_checked_add (total_voting_power v - quorum_voting_power v) 1
                   else None) with
            | None => (Panic, pv)
            | Some f_plus_one =>
                if f_plus_one <=? tc_voting_power then
                  (Ok (EchoTimeout tc_voting_power),
                   mkPendingVotes (li_digest_to_votes pv) (Some partial_tc) (author_to_vote pv) true)
                else (Ok (VoteAdded voting_power), pv)
            end
      | Err error => (Ok (ErrorAddingVote error), pv)
      | Panic => (Panic, pv)
      end
  end.

Definition insert_vote (v : ValidatorVerifier) (vote : Vote)
  : M PendingVotes Infallible VoteReceptionResult := λ pv,
  match previously_seen pv vote with
  | Some result => (Ok result, pv)
  | None =>
      let li_digest := vote_digest vote in
      let li_with_sig :=
        liwps_add_signature
          (default (mkLIWPS (vote_ledger_info vote) partial_signatures_empty)
             (li_digest_to_votes pv !! li_digest))
          (vote_author vote) (vote_signature vote) in
      let pv := mkPendingVotes (<[li_digest := li_with_sig]> (li_digest_to_votes pv))
                  (maybe_partial_2chain_tc pv)
                  (<[vote_author vote := (vote, li_digest)]> (author_to_vote pv))
                  (echo_timeout pv) in
      match check_voting_power v (fst <$> btree_iter (liwps_partial_sigs li_with_sig)) with
      | Ok _ =>
          match liwps_aggregate_signatures li_with_sig v with
          | Ok ledger_info_with_sig =>
              (Ok (NewQuorumCertificate (mkQuorumCert (vote_vote_data vote) ledger_info_with_sig)), pv)
          | Err e => (Ok (ErrorAggregatingSignature e), pv)
          | Panic => (Panic, pv)
          end
      | Err (TooLittleVotingPower voting_power _) => insert_timeout v vote voting_power pv
      | Err error => (Ok (ErrorAddingVote error), pv)
      | Panic => (Panic, pv)
      end
  end.

(** The state after the votes, in the order received. *)
Definition insert_votes (v : ValidatorVerifier) (votes : list Vote) : PendingVotes :=
  foldl (λ pv vote, (insert_vote v vote pv).2) pending_votes_new votes.

(** ** Specification on the votes received *)

(** The first vote of an author is the one that counts. *)
Definition first_digest (votes : list Vote) (a : Author) : option HashValue :=
  (λ x, vote_digest x.2) <$> list_find (λ w, vote_author w = a) votes.

Definition supporters (votes : list Vote) (d : HashValue) : gset Author :=
  list_to_set (filter (λ a, first_digest votes a = Some d) (vote_author <$> votes)).

Definition timeout_signers (pv : PendingVotes) : gset Author :=
  match maybe_partial_2chain_tc pv with Some p => dom (tps_signatures p) | None => ∅ end.

Definition power (v : ValidatorVerifier) (s : gset Author) : N := set_power (validator_infos v) s.

(** ** Lemmas on the votes received *)

Lemma first_digest_snoc votes w a :
  first_digest (votes ++ [w]) a =
  match first_digest votes a with
  | Some d => Some d
  | None => if bool_decide (vote_author w = a) then Some (vote_digest w) else None
  end.
Proof.
  unfold first_digest. destruct (list_find (λ w, vote_author w = a) votes) as [[i x]|] eqn:E.
  - by rewrite (list_find_app_l _ _ _ _ _ E).
  - rewrite list_find_app_r by done. cbn. destruct (decide _) as [Ha|Ha];
      [by rewrite bool_decide_true|by rewrite bool_decide_false].
Qed.

Lemma first_digest_elem votes a d :
  first_digest votes a = Some d → ∃ w, w ∈ votes ∧ vote_author w = a ∧ vote_digest w = d.
Proof.
  intros Hd. apply fmap_Some in Hd as ([i w] & Hf & ->).
  apply list_find_Some in Hf as (Hi & Ha & _). exists w. split; [by eapply list_elem_of_lookup_2|done].
Qed.

Lemma elem_of_supporters votes d a : a ∈ supporters votes d ↔ first_digest votes a = Some d.
Proof.
  unfold supporters. rewrite elem_of_list_to_set, list_elem_of_filter. split; [by intros [??]|].
  intros Hd. split; [done|]. destruct (first_digest_elem _ _ _ Hd) as (w & Hw & <- & _).
  by apply list_elem_of_fmap_2.
Qed.

Lemma supporters_seen votes w d :
  is_Some (first_digest votes (vote_author w)) → supporters (votes ++ [w]) d = supporters votes d.
Proof.
  intros [d' Hd']. apply set_eq. intros a. rewrite !elem_of_supporters, first_digest_snoc.
  destruct (first_digest votes a) eqn:E; [done|]. case_bool_decide; [|done]. congruence.
Qed.
Lemma supporters_new votes w :
  first_digest votes (vote_author w) = None →
  supporters (votes ++ [w]) (vote_digest w) = {[vote_author w]} ∪ supporters votes (vote_digest w).
Proof.
  intros Hn. apply set_eq. intros a. rewrite elem_of_union, elem_of_singleton.
  rewrite !elem_of_supporters, first_digest_snoc.
  destruct (first_digest votes a) eqn:E; repeat case_bool_decide; naive_solver.
Qed.
Lemma supporters_other votes w d :
  d ≠ vote_digest w → supporters (votes ++ [w]) d = supporters votes d.
Proof.
  intros Hd. apply set_eq. intros a. rewrite !elem_of_supporters, first_digest_snoc.
  destruct (first_digest votes a) eqn:E; repeat case_bool_decide; naive_solver.
Qed.

(** The power of the keys of a map of signatures. *)
Lemma check_voting_power_keys {A} v (m : gmap Author A) :
  verifier_wf v → (∀ a, a ∈ dom m → known v a) →
  check_voting_power v (fst <$> btree_iter m) =
  if power v (dom m) <? quorum_voting_power v
  then Err (TooLittleVotingPower (power v (dom m)) (quorum_voting_power v)) else Ok tt.
Proof.
  intros Hwf Hk. assert (list_to_set (fst <$> btree_iter m) = dom m) as Hdom.
  { apply set_eq. intros a. by rewrite elem_of_list_to_set, elem_of_btree_keys, elem_of_dom. }
  unfold check_voting_power. rewrite add_voting_power_total, Hdom; [done|done|apply NoDup_fst_btree_iter| |].
  - rewrite Hdom. pose proof (set_power_le_all (validator_infos v) (dom m)) as Hle.
    rewrite <-(wf_total v Hwf) in Hle. pose proof (wf_fits v Hwf). lia.
  - intros a Ha. apply Hk, elem_of_dom. by apply elem_of_btree_keys.
Qed.

Lemma verifier_verify_known {A} `{!CryptoHash A} v a (m : A) s :
  verifier_wf v → verifier_verify v a m s = Ok tt → known v a.
Proof.
  unfold verifier_verify, get_public_key. destruct (validator_info v a) as [x|] eqn:E; [|done].
  intros Hwf _. apply validator_info_Some in E as [Hin <-]; [|done]. by apply list_elem_of_fmap_2.
Qed.
Lemma verifier_verify_message {A} `{!CryptoHash A} v a (m : A) s :
  verifier_verify v a m s = Ok tt → ∃ bytes, signing_message m = Some bytes.
Proof.
  unfold verifier_verify, signature_verify. destruct (get_public_key v a); [|done].
  destruct (signing_message m); [eauto|done].
Qed.

(** What the caller has checked of a vote: it verifies, for the epoch and round. *)
Definition verified (v : ValidatorVerifier) (epoch round : N) (w : Vote) : Prop :=
  vote_verify w v = Ok tt ∧ vote_epoch w = epoch ∧ vote_round w = round.

Lemma verified_inv v epoch round w :
  verified v epoch round w →
  li_consensus_data_hash (vote_ledger_info w) = crypto_hash (vote_vote_data w) ∧
  verifier_verify v (vote_author w) (vote_ledger_info w) (vote_signature w) = Ok tt ∧
  vote_data_verify (vote_vote_data w) = Ok tt ∧
  ∀ t s, vote_two_chain_timeout w = Some (t, s) →
    to_epoch t = epoch ∧ to_round t = round ∧ timeout_verify t v = Ok tt ∧
    verifier_verify v (vote_author w) (signing_format t) s = Ok tt.
Proof.
  intros (Hv & <- & <-). unfold vote_verify in Hv. rewrite ensure_bind, N.eqb_eq, !unit_bind in Hv.
  destruct Hv as (H1 & H2 & H3 & H4 & _). split; [done|]. split; [by apply map_err_Ok in H2|].
  split; [done|]. intros t s Ht. rewrite Ht, ensure_bind, andb_true_iff, !N.eqb_eq, unit_bind, map_err_Ok in H3.
  naive_solver.
Qed.

(** No two of the votes have different ledger infos with the same digest. *)
Definition collision_free (votes : list Vote) : Prop := ∀ x y,
  x ∈ votes → y ∈ votes → vote_digest x = vote_digest y → vote_ledger_info x = vote_ledger_info y.

(** The timeouts collected so far, as a history of additions. *)
Definition timeouts_inv (v : ValidatorVerifier) (epoch round : N) (pv : PendingVotes) : Prop :=
  match maybe_partial_2chain_tc pv with
  | None => True
  | Some p => ∃ a0 t0 s0 rest, let adds := (a0, t0, s0) :: rest in
      p = tps_add_all t0 adds ∧ NoDup adds.*1.*1 ∧
      (∀ a t s, (a, t, s) ∈ adds → to_epoch t = epoch ∧ to_round t = round ∧
         timeout_verify t v = Ok tt ∧ verifier_verify v a (signing_format t) s = Ok tt) ∧
      ∀ a, a ∈ adds.*1.*1 → ∃ w d, author_to_vote pv !! a = Some (w, d) ∧ vote_is_timeout w = true
  end.

Record pv_inv (v : ValidatorVerifier) (epoch round : N) (votes : list Vote) (pv : PendingVotes)
  : Prop := {
  pi_author : ∀ a, snd <$> author_to_vote pv !! a = first_digest votes a;
  pi_vote : ∀ a w d, author_to_vote pv !! a = Some (w, d) → w ∈ votes ∧ vote_author w = a;
  pi_li : ∀ d, match li_digest_to_votes pv !! d with
    | None => supporters votes d = ∅
    | Some l =>
        (∃ w, w ∈ votes ∧ vote_digest w = d ∧ vote_ledger_info w = liwps_ledger_info l) ∧
        dom (liwps_partial_sigs l) = supporters votes d ∧
        ∀ a s, liwps_partial_sigs l !! a = Some s →
          verifier_verify v a (liwps_ledger_info l) s = Ok tt
    end;
  pi_tc : timeouts_inv v epoch round pv;
}.

(** The entry for the vote's digest after its signature is added. *)
Lemma entry_spec v epoch round votes pv w :
  pv_inv v epoch round votes pv → verified v epoch round w → collision_free (votes ++ [w]) →
  first_digest votes (vote_author w) = None ∨
    first_digest votes (vote_author w) = Some (vote_digest w) →
  let l := liwps_add_signature
    (default (mkLIWPS (vote_ledger_info w) partial_signatures_empty)
       (li_digest_to_votes pv !! vote_digest w)) (vote_author w) (vote_signature w) in
  liwps_ledger_info l = vote_ledger_info w ∧
  dom (liwps_partial_sigs l) = supporters (votes ++ [w]) (vote_digest w) ∧
  ∀ a s, liwps_partial_sigs l !! a = Some s → verifier_verify v a (liwps_ledger_info l) s = Ok tt.
Proof.
  intros Hinv Hw Hcf Hseen l. destruct (verified_inv _ _ _ _ Hw) as (_ & Hsig & _).
  set (l0 := default _ _) in l.
  assert (liwps_ledger_info l0 = vote_ledger_info w ∧
    dom (liwps_partial_sigs l0) = supporters votes (vote_digest w) ∧
    ∀ a s, liwps_partial_sigs l0 !! a = Some s →
      verifier_verify v a (liwps_ledger_info l0) s = Ok tt) as (Hli & Hdom & Hver).
  { pose proof (pi_li _ _ _ _ _ Hinv (vote_digest w)) as Hl. unfold l0.
    destruct (li_digest_to_votes pv !! vote_digest w) as [l1|]; cbn.
    - destruct Hl as ((x & Hx & Hd & Hxl) & ? & ?). split_and!; [|done..]. rewrite <-Hxl.
      apply Hcf; [apply elem_of_app; by left|apply elem_of_app; right; by left|done].
    - split; [done|]. rewrite Hl. split; [apply dom_empty_L|]. intros a s. unfold partial_signatures_empty. by rewrite lookup_empty. }
  clearbody l0. unfold l, liwps_add_signature, add_signature. cbn [liwps_ledger_info liwps_partial_sigs].
  split; [done|]. destruct (liwps_partial_sigs l0 !! vote_author w) as [s|] eqn:E.
  - apply elem_of_dom_2 in E. rewrite Hdom, elem_of_supporters in E. rewrite supporters_seen by done. done.
  - apply not_elem_of_dom_2 in E. rewrite Hdom, elem_of_supporters in E.
    destruct Hseen as [Hn|]; [|done]. rewrite dom_insert_L, Hdom, supporters_new by done. split; [done|].
    intros a s. rewrite lookup_insert_Some. intros [[<- <-]|[_ ?]]; [by rewrite Hli|auto].
Qed.

(** The votes of one round with the entry for this digest replaced. *)
Lemma li_inv_insert v epoch round votes pv w l d :
  pv_inv v epoch round votes pv →
  liwps_ledger_info l = vote_ledger_info w →
  dom (liwps_partial_sigs l) = supporters (votes ++ [w]) (vote_digest w) →
  (∀ a s, liwps_partial_sigs l !! a = Some s → verifier_verify v a (liwps_ledger_info l) s = Ok tt) →
  match <[vote_digest w := l]> (li_digest_to_votes pv) !! d with
  | None => supporters (votes ++ [w]) d = ∅
  | Some l =>
      (∃ x, x ∈ votes ++ [w] ∧ vote_digest x = d ∧ vote_ledger_info x = liwps_ledger_info l) ∧
      dom (liwps_partial_sigs l) = supporters (votes ++ [w]) d ∧
      ∀ a s, liwps_partial_sigs l !! a = Some s → verifier_verify v a (liwps_ledger_info l) s = Ok tt
  end.
Proof.
  intros Hinv Hli Hdom Hver. destruct (decide (d = vote_digest w)) as [->|Hd].
  - rewrite lookup_insert_eq. split_and!; [|done..]. exists w. split; [apply elem_of_app; right; by left|done].
  - rewrite lookup_insert_ne, supporters_other by done. pose proof (pi_li _ _ _ _ _ Hinv d) as Hl.
    destruct (li_digest_to_votes pv !! d) as [l1|]; [|done]. destruct Hl as ((x & ? & ?) & ?).
    split; [|done]. exists x. split; [apply elem_of_app; by left|done].
Qed.

(** ** One vote *)

Section step.
Context (v : ValidatorVerifier) (epoch round : N).
Hypothesis Hwf : verifier_wf v.
Hypothesis Hlen : verifier_len v < 2 ^ 16.
Hypothesis Hquorum : quorum_voting_power v ≤ total_voting_power v.
Hypothesis Hagg : bls_aggregation_correct.
Hypothesis Hmulti : bls_multi_correct.

Lemma timeout_signers_known pv a :
  timeouts_inv v epoch round pv → a ∈ timeout_signers pv →
  known v a ∧ ∃ w d, author_to_vote pv !! a = Some (w, d) ∧ vote_is_timeout w = true.
Proof.
  unfold timeouts_inv, timeout_signers. destruct (maybe_partial_2chain_tc pv) as [p|]; [|set_solver].
  intros (a0 & t0 & s0 & rest & -> & Hnd & Hall & Htimeout) Ha.
  rewrite tps_add_all_dom, elem_of_list_to_set in Ha by done. split; [|by apply Htimeout].
  apply list_elem_of_fmap in Ha as ([a' t] & -> & ([[a'' t'] s] & [= -> ->] & Hin)%list_elem_of_fmap).
  destruct (Hall _ _ _ Hin) as (_ & _ & _ & Hv). exact (verifier_verify_known _ _ _ _ Hwf Hv).
Qed.

(** The result of the timeout a vote carries. *)
Definition timeout_result (w : Vote) (p : N) (pv pv' : PendingVotes) (r : VoteReceptionResult) : Prop :=
  match r with
  | New2ChainTimeoutCertificate tc =>
      quorum_voting_power v ≤ power v (timeout_signers pv') ∧ tc_verify tc v = Ok tt ∧
      tc_epoch tc = epoch ∧ tc_round tc = round ∧
      voters v (aswr_sig (tc_signatures_with_rounds tc)) = timeout_signers pv'
  | EchoTimeout q =>
      q = power v (timeout_signers pv') ∧ q < quorum_voting_power v ∧
      total_voting_power v < q + quorum_voting_power v ∧
      echo_timeout pv = false ∧ echo_timeout pv' = true
  | VoteAdded q =>
      q = p ∧ echo_timeout pv' = echo_timeout pv ∧
      (vote_is_timeout w = true →
         power v (timeout_signers pv') < quorum_voting_power v ∧
         (echo_timeout pv = true ∨
          power v (timeout_signers pv') + quorum_voting_power v ≤ total_voting_power v))
  | _ => False
  end.

Lemma insert_timeout_step w p pv :
  verified v epoch round w → timeouts_inv v epoch round pv →
  (∃ d, author_to_vote pv !! vote_author w = Some (w, d)) → vote_author w ∉ timeout_signers pv →
  ∃ r pv', insert_timeout v w p pv = (Ok r, pv') ∧
    li_digest_to_votes pv' = li_digest_to_votes pv ∧ author_to_vote pv' = author_to_vote pv ∧
    timeouts_inv v epoch round pv' ∧
    timeout_signers pv' =
      (if vote_is_timeout w then {[vote_author w]} else ∅) ∪ timeout_signers pv ∧
    timeout_result w p pv pv' r.
Proof.
  intros Hw Hinv [d Hd] Hfresh. destruct (verified_inv _ _ _ _ Hw) as (_ & _ & _ & Htimeout).
  unfold insert_timeout, vote_is_timeout. destruct (vote_two_chain_timeout w) as [[t s]|] eqn:Et.
  2:{ exists (VoteAdded p), pv. split_and!; try done; [by rewrite (left_id_L ∅ (∪))|].
      split_and!; try done. unfold vote_is_timeout. by rewrite Et. }
  specialize (Htimeout t s eq_refl). set (p' := tps_add _ _ _ _).
  assert (∀ echo, let pv1 := mkPendingVotes (li_digest_to_votes pv) (Some p') (author_to_vote pv) echo in
    timeouts_inv v epoch round pv1 ∧ timeout_signers pv1 = {[vote_author w]} ∪ timeout_signers pv)
    as Hnew.
  { intros echo. unfold timeouts_inv, timeout_signers in *. cbn [maybe_partial_2chain_tc author_to_vote].
    destruct (maybe_partial_2chain_tc pv) as [p0|]; cbn [default] in p'.
    - destruct Hinv as (a0 & t0 & s0 & rest & -> & Hnd & Hall & Ht).
      rewrite tps_add_all_dom, elem_of_list_to_set in Hfresh by done.
      assert (NoDup ((a0, t0, s0) :: rest ++ [(vote_author w, t, s)]).*1.*1) as Hnd'.
      { rewrite app_comm_cons, !fmap_app. apply NoDup_app. split; [done|]. split; [|repeat constructor; set_solver].
        intros a Ha Ha'%list_elem_of_singleton. cbn in Ha'. by subst a. }
      assert (p' = tps_add_all t0 ((a0, t0, s0) :: rest ++ [(vote_author w, t, s)])) as Hp'.
      { unfold p', tps_add_all. by rewrite app_comm_cons, foldl_app. }
      split.
      + exists a0, t0, s0, (rest ++ [(vote_author w, t, s)]). split_and!; [done|done| |].
        * intros a t' s' Hin. rewrite app_comm_cons, elem_of_app, list_elem_of_singleton in Hin.
          destruct Hin as [Hin|Hin]; [by apply Hall|]. by simplify_eq.
        * intros a Ha. rewrite app_comm_cons, !fmap_app, elem_of_app in Ha.
          destruct Ha as [Ha|Ha%list_elem_of_singleton]; [by apply Ht|]. cbn in Ha. subst a.
          exists w, d. unfold vote_is_timeout. by rewrite Et.
      + rewrite Hp', !tps_add_all_dom by done. rewrite app_comm_cons, !fmap_app, list_to_set_app_L. set_solver.
    - split; [|unfold p'; cbn; unfold pswr_add_signature; rewrite lookup_empty; set_solver].
      exists (vote_author w), t, s, []. split_and!; [done|repeat constructor; set_solver| |].
      + intros a t' s' Hin%list_elem_of_singleton. by simplify_eq.
      + intros a Ha%list_elem_of_singleton. cbn in Ha. subst a. exists w, d.
        unfold vote_is_timeout. by rewrite Et. }
  clearbody p'. destruct (Hnew (echo_timeout pv)) as [Hinv1 Hsign1].
  set (pv1 := mkPendingVotes _ (Some p') _ (echo_timeout pv)) in *.
  assert (timeout_signers pv1 = dom (tps_signatures p')) as Hdom by done.
  unfold tps_signers. rewrite check_voting_power_keys; [|done|].
  2:{ intros a Ha. rewrite <-Hdom in Ha. by apply (timeout_signers_known pv1). }
  rewrite <-Hdom. destruct (N.ltb_spec (power v (timeout_signers pv1)) (quorum_voting_power v)) as [Hlt|Hge].
  - replace (echo_timeout pv1) with (echo_timeout pv) by done.
    destruct (echo_timeout pv) eqn:Eecho.
    { exists (VoteAdded p), pv1. split; [done|]. do 4 (split; [done|]). split; [done|]. split; [done|]. auto. }
    rewrite (proj2 (N.leb_le _ _) Hquorum). unfold u128_checked_add.
    pose proof (wf_fits v Hwf). rewrite (proj2 (N.ltb_lt _ _)) by lia.
    destruct (N.leb_spec (total_voting_power v - quorum_voting_power v + 1) (power v (timeout_signers pv1))).
    + destruct (Hnew true) as [Hinv2 Hsign2]. eexists _, _. split; [done|]. do 4 (split; [done|]).
      unfold timeout_result, timeout_signers in *. cbn in *. split_and!; try done. lia.
    + exists (VoteAdded p), pv1. split; [done|]. do 4 (split; [done|]). split; [done|]. split; [done|].
      intros _. split; [done|]. right. lia.
  - pose proof Hinv1 as (a0 & t0 & s0 & rest & -> & Hnd & Hall & _).
    rewrite Hdom, tps_add_all_dom in Hge by done.
    destruct (tc_aggregate_roundtrip v epoch round a0 t0 s0 rest Hmulti Hwf Hlen Hnd Hall Hge)
      as (tc & -> & Hver & He & Hr & Hvot).
    exists (New2ChainTimeoutCertificate tc), pv1. split; [done|]. do 4 (split; [done|]).
    unfold timeout_result. rewrite Hdom, tps_add_all_dom by done. done.
Qed.

(** What the vote does to the pending votes, by result. *)
Definition vote_result (votes : list Vote) (w : Vote) (pv pv' : PendingVotes)
    (r : VoteReceptionResult) : Prop :=
  let d := vote_digest w in
  let support := supporters (votes ++ [w]) d in
  match r with
  | DuplicateVote =>
      pv' = pv ∧ first_digest votes (vote_author w) = Some d ∧
      (vote_is_timeout w = true →
         ∃ w0, w0 ∈ votes ∧ vote_author w0 = vote_author w ∧ vote_is_timeout w0 = true)
  | EquivocateVote => pv' = pv ∧ ∃ d', first_digest votes (vote_author w) = Some d' ∧ d' ≠ d
  | NewQuorumCertificate qc =>
      quorum_voting_power v ≤ power v support ∧ quorum_cert_verify qc v = Ok tt ∧
      qc_vote_data qc = vote_vote_data w ∧ qc_ledger_info qc = vote_ledger_info w ∧
      voters v (liws_signatures (qc_signed_ledger_info qc)) = support
  | VoteAdded p =>
      p = power v support ∧ p < quorum_voting_power v ∧ timeout_result w p pv pv' r
  | New2ChainTimeoutCertificate _ | EchoTimeout _ =>
      power v support < quorum_voting_power v ∧ vote_is_timeout w = true ∧
      timeout_result w (power v support) pv pv' r
  | _ => False
  end.

Lemma timeout_result_is_timeout w p pv pv' r :
  insert_timeout v w p pv = (Ok r, pv') → r ≠ VoteAdded p → vote_is_timeout w = true.
Proof.
  unfold insert_timeout, vote_is_timeout. intros Hi Hr.
  destruct (vote_two_chain_timeout w); [done|]. by simplify_eq.
Qed.

(** A vote that is stored is the first timeout of its author. *)
Lemma timeouts_after w pv pv1 :
  timeouts_inv v epoch round pv → previously_seen pv w = None →
  maybe_partial_2chain_tc pv1 = maybe_partial_2chain_tc pv →
  author_to_vote pv1 = <[vote_author w := (w, vote_digest w)]> (author_to_vote pv) →
  timeouts_inv v epoch round pv1 ∧
  vote_author w ∉ timeout_signers pv1.
Proof.
  intros Hinv Hprev Etc Ea.
  assert (vote_author w ∉ timeout_signers pv) as Hfresh.
  { intros Hin. destruct (timeout_signers_known _ _ Hinv Hin) as (_ & w0 & d & E & Hw0).
    unfold previously_seen in Hprev. rewrite E, Hw0, andb_false_r in Hprev. by case_match. }
  split; [|unfold timeout_signers in *; by rewrite Etc].
  unfold timeouts_inv, timeout_signers in *. rewrite Etc.
  destruct (maybe_partial_2chain_tc pv) as [p|]; [|done].
  destruct Hinv as (a0 & t0 & s0 & rest & -> & Hnd & Hall & Ht). exists a0, t0, s0, rest.
  split_and!; try done. intros a Ha. destruct (Ht a Ha) as (w0 & d0 & E & Hw0). rewrite Ea.
  destruct (decide (a = vote_author w)) as [->|]; [|rewrite lookup_insert_ne by done; eauto].
  rewrite lookup_insert_eq. unfold previously_seen in Hprev. rewrite E in Hprev.
  rewrite Hw0, andb_false_r in Hprev. by case_match.
Qed.

(** The quorum certificate made of the signatures collected for the vote's ledger info. *)
Lemma new_quorum_certificate w l :
  verified v epoch round w → liwps_ledger_info l = vote_ledger_info w →
  (∀ a s, liwps_partial_sigs l !! a = Some s → verifier_verify v a (liwps_ledger_info l) s = Ok tt) →
  liwps_partial_sigs l ≠ ∅ → quorum_voting_power v ≤ power v (dom (liwps_partial_sigs l)) →
  ∃ lis, liwps_aggregate_signatures l v = Ok lis ∧
    let qc := mkQuorumCert (vote_vote_data w) lis in
    quorum_cert_verify qc v = Ok tt ∧ qc_ledger_info qc = vote_ledger_info w ∧
    voters v (liws_signatures lis) = dom (liwps_partial_sigs l).
Proof.
  intros Hw Hli Hver Hne Hq. destruct (verified_inv _ _ _ _ Hw) as (Hhash & Hsig & Hvd & _).
  destruct (verifier_verify_message _ _ _ _ Hsig) as [bytes Hbytes].
  destruct (aggregate_verify_roundtrip v (liwps_ledger_info l) bytes (liwps_partial_sigs l))
    as (agg & Hcol & Hvs & Hvot); [done..|by rewrite Hli|done|done|done|].
  exists (mkLIWS (liwps_ledger_info l) agg). split; [unfold liwps_aggregate_signatures; by rewrite Hcol|].
  split_and!; [|done|done]. unfold quorum_cert_verify, qc_ledger_info, certified_block.
  cbn [qc_vote_data qc_signed_ledger_info liws_ledger_info]. rewrite Hli, Hhash, N.eqb_refl. run_ok.
  apply vote_data_verify_Ok in Hvd as Hvd'. rewrite (proj2 (N.eqb_neq _ 0)) by lia.
  unfold verify_signatures. cbn [liws_ledger_info liws_signatures].
  rewrite <-Hli, Hvs. run_ok. by rewrite Hvd.
Qed.

Lemma insert_vote_step votes w pv :
  pv_inv v epoch round votes pv → verified v epoch round w → collision_free (votes ++ [w]) →
  ∃ r pv', insert_vote v w pv = (Ok r, pv') ∧ pv_inv v epoch round (votes ++ [w]) pv' ∧
    vote_result votes w pv pv' r.
Proof.
  intros Hinv Hw Hcf. unfold insert_vote.
  pose proof (pi_author _ _ _ _ _ Hinv (vote_author w)) as Hseen.
  destruct (previously_seen pv w) as [r|] eqn:Hprev.
  { exists r, pv. split; [done|]. unfold previously_seen in Hprev.
    destruct (author_to_vote pv !! vote_author w) as [[w0 d0]|] eqn:Ew; [|done]. cbn in Hseen.
    split.
    - split.
      + intros a. rewrite (pi_author _ _ _ _ _ Hinv), first_digest_snoc.
        destruct (first_digest votes a) eqn:Ea; [done|]. case_bool_decide; [|done]. congruence.
      + intros a x d Hx. rewrite elem_of_app. apply (pi_vote _ _ _ _ _ Hinv) in Hx. tauto.
      + intros d. rewrite supporters_seen by (rewrite <-Hseen; eauto). pose proof (pi_li _ _ _ _ _ Hinv d) as Hl.
        destruct (li_digest_to_votes pv !! d) as [l|]; [|done]. destruct Hl as ((x & ? & ?) & ?).
        split; [|done]. exists x. split; [apply elem_of_app; by left|done].
      + apply Hinv.
    - apply (pi_vote _ _ _ _ _ Hinv) in Ew as [Hw0 Ha0].
      destruct (N.eqb_spec (vote_digest w) d0) as [<-|Hne]; [|simplify_eq; cbn; eauto].
      destruct (vote_is_timeout w) eqn:E1, (vote_is_timeout w0) eqn:E2;
        cbn in Hprev; simplify_eq; cbn; rewrite E1; (split_and!; [done|done|]); eauto. }
  assert (first_digest votes (vote_author w) = None ∨
    first_digest votes (vote_author w) = Some (vote_digest w)) as Hfd.
  { rewrite <-Hseen. unfold previously_seen in Hprev.
    destruct (author_to_vote pv !! vote_author w) as [[w0 d0]|]; [|by left]. right. cbn.
    destruct (N.eqb_spec (vote_digest w) d0); [by subst|done]. }
  destruct (entry_spec _ _ _ _ _ _ Hinv Hw Hcf Hfd) as (Hli & Hdom & Hver). cbv zeta.
  set (l := liwps_add_signature _ _ _) in *. clearbody l.
  set (pv1 := mkPendingVotes _ _ _ _).
  assert (∀ pv', li_digest_to_votes pv' = li_digest_to_votes pv1 → author_to_vote pv' = author_to_vote pv1 →
    timeouts_inv v epoch round pv' → pv_inv v epoch round (votes ++ [w]) pv') as Hpv1.
  { intros pv' E1 E2 Ht. split; [| | |done].
    - intros a. rewrite E2. cbn. rewrite first_digest_snoc, <-(pi_author _ _ _ _ _ Hinv).
      case_bool_decide as Ha.
      + subst a. rewrite lookup_insert_eq. cbn. rewrite Hseen. by destruct Hfd as [->| ->].
      + rewrite lookup_insert_ne by done. by destruct (author_to_vote pv !! a).
    - intros a x d. rewrite E2, elem_of_app, list_elem_of_singleton. cbn. rewrite lookup_insert_Some.
      intros [[<- Hx]|[_ Hx]]; [simplify_eq; tauto|]. apply (pi_vote _ _ _ _ _ Hinv) in Hx. tauto.
    - rewrite E1. cbn. intros d. by apply (li_inv_insert v epoch round). }
  destruct (timeouts_after w pv pv1) as [Ht1 Hfresh]; [apply Hinv|done|done|done|].
  assert (vote_author w ∈ dom (liwps_partial_sigs l)) as Hin.
  { rewrite Hdom, elem_of_supporters, first_digest_snoc. destruct Hfd as [-> | ->]; [|done].
    by rewrite bool_decide_true. }
  rewrite check_voting_power_keys; [|done|].
  2:{ intros a [s Hs]%elem_of_dom. exact (verifier_verify_known _ _ _ _ Hwf (Hver a s Hs)). }
  destruct (N.ltb_spec (power v (dom (liwps_partial_sigs l))) (quorum_voting_power v)) as [Hlt|Hge].
  - destruct (insert_timeout_step w (power v (dom (liwps_partial_sigs l))) pv1) as
      (r & pv' & Hrun & E1 & E2 & Ht' & Hsign & Hres); [done|done| |done|].
    { exists (vote_digest w). apply lookup_insert_eq. }
    exists r, pv'. split; [done|]. split; [by apply Hpv1|]. unfold vote_result. rewrite <-Hdom.
    destruct r; try done; [destruct Hres as (-> & Hres); split; [done|]; split; [done|]; by split|..].
    all: split; [done|split; [|exact Hres]].
    all: by eapply (timeout_result_is_timeout _ _ _ _ _ Hrun).
  - destruct (new_quorum_certificate w l) as (lis & -> & Hqc & Hqli & Hvot); [done..| |done|].
    { intros He. by rewrite He, dom_empty_L in Hin. }
    eexists _, pv1. split; [done|]. split; [by apply Hpv1|]. unfold vote_result. rewrite <-Hdom. done.
Qed.

Lemma insert_votes_inv votes :
  Forall (verified v epoch round) votes → collision_free votes →
  pv_inv v epoch round votes (insert_votes v votes).
Proof.
  induction votes as [|w votes IH] using rev_ind; intros Hv Hcf.
  { split; [done|done|done|done]. }
  apply Forall_app in Hv as [Hv Hw]. rewrite Forall_singleton in Hw.
  unfold insert_votes. rewrite foldl_app. fold (insert_votes v votes). cbn [foldl].
  assert (pv_inv v epoch round votes (insert_votes v votes)) as Hpre.
  { apply IH; [done|]. intros x y Hx Hy. apply Hcf; apply elem_of_app; by left. }
  destruct (insert_vote_step votes w _ Hpre Hw Hcf) as (r & pv' & E & Hinv & _). by rewrite E.
Qed.
End step.

End pending.

(** ** The sample validators *)

Section sample.
#[local] Existing Instance sample_bls.
#[local] Existing Instance sample_hashes.

(** Votes for the block of round 5 on the block of round 4, that of validator 4 with a timeout. *)
Definition sample_vote_info : LedgerInfo :=
  let vd := mkVoteData (sample_block_info 1 5) (sample_block_info 1 4) in
  mkLedgerInfo (sample_block_info 1 4) (crypto_hash vd).
Definition sample_vote (author key : N) (timeout : option (TwoChainTimeout * Signature)) : Vote :=
  mkVote (mkVoteData (sample_block_info 1 5) (sample_block_info 1 4)) author sample_vote_info
    (bls_sign key (default [] (signing_message sample_vote_info))) timeout.
Definition sample_timeout_vote : Vote :=
  sample_vote 4 14 (Some (sample_timeout 3, sample_timeout_signature 14 3)).

End sample.
