(* ===== verification/RoundState.v ===== *)
(** * The rounds of consensus (consensus/src/liveness/round_state.rs)

    [RoundState] moves to a new round when a certificate for the previous one arrives,
    drops the votes of the old round, and schedules the local timeout. The round interval
    is a trait object and the clock a service, so both are arguments here. *)
From S2P Require Import Prelude Crypto ValidatorVerifier LedgerInfo ConsensusTypes Timeouts PendingVotes.
Local Open Scope N_scope.

(** ** State *)

Inductive NewRoundReason := QCReady | Timeout.

Record NewRoundEvent := mkNewRoundEvent {
  nre_round : Round;
  nre_reason : NewRoundReason;
  nre_timeout : Duration;
  nre_prev_round_votes : list (HashValue * LedgerInfoWithPartialSignatures);
  nre_prev_round_timeout_votes : option TwoChainTimeoutWithPartialSignatures;
}.

(** [rs_timeout_task] is the task behind [abort_handle]: the delay and the round it sends. *)
Record RoundState := mkRoundState {
  rs_highest_committed_round : Round;
  rs_current_round : Round;
  rs_current_round_deadline : Duration;
  rs_pending_votes : PendingVotes;
  rs_vote_sent : option Vote;
  rs_timeout_task : option (Duration * Round);
}.

Section round_state.
Context `{!Bls} `{!ArxHashes}.
Context (get_round_duration : N → Duration).

Definition round_state_new (now : Duration) : RoundState :=
  mkRoundState 0 0 now pending_votes_new None None.

Definition is_vote_timeout (rs : RoundState) : bool :=
  match rs_vote_sent rs with Some v => vote_is_timeout v | None => false end.

(** The rounds since the last commit. *)
Definition round_index_after_committed_round {E} (rs : RoundState) : outcome E N :=
  if rs_highest_committed_round rs =? 0 then u64_sub (rs_current_round rs) 1
  else
    bound ← u64_add (rs_highest_committed_round rs) 3;
    if rs_current_round rs <? bound then Ok 0
    else
      d ← u64_sub (rs_current_round rs) (rs_highest_committed_round rs);
      u64_sub d 3.

Definition setup_deadline (now : Duration) (multiplier : N) : M RoundState Infallible Duration :=
  rs ← mget;
  index ← mlift (round_index_after_committed_round rs);
  timeout ← mlift (duration_mul (get_round_duration index) multiplier);
  deadline ← mlift (duration_add now timeout);
  _ ← mput (mkRoundState (rs_highest_committed_round rs) (rs_current_round rs) deadline
              (rs_pending_votes rs) (rs_vote_sent rs) (rs_timeout_task rs));
  mret timeout.

(** [run_after] schedules the task and the previous one is aborted. *)
Definition setup_timeout (now : Duration) (multiplier : N) : M RoundState Infallible Duration :=
  timeout ← setup_deadline now multiplier;
  rs ← mget;
  _ ← mput (mkRoundState (rs_highest_committed_round rs) (rs_current_round rs)
              (rs_current_round_deadline rs) (rs_pending_votes rs) (rs_vote_sent rs)
              (Some (timeout, rs_current_round rs)));
  mret timeout.

Definition setup_leader_timeout (now : Duration) : M RoundState Infallible unit :=
  _ ← setup_timeout now 2;
  mret tt.

Definition process_local_timeout (now : Duration) (round : Round) : M RoundState Infallible bool :=
  rs ← mget;
  if negb (round =? rs_current_round rs) then mret false
  else
    _ ← setup_timeout now 1;
    mret true.

Definition process_certificates (now : Duration) (sync_info : SyncInfo)
  : M RoundState Infallible (option NewRoundEvent) :=
  rs ← mget;
  let committed :=
    if rs_highest_committed_round rs <? highest_ordered_round sync_info
    then highest_ordered_round sync_info else rs_highest_committed_round rs in
  let rs := mkRoundState committed (rs_current_round rs) (rs_current_round_deadline rs)
              (rs_pending_votes rs) (rs_vote_sent rs) (rs_timeout_task rs) in
  _ ← mput rs;
  new_round ← mlift (u64_add (highest_round sync_info) 1);
  if rs_current_round rs <? new_round then
    let '((prev_round_votes, prev_round_timeout_votes), _) := drain_votes (rs_pending_votes rs) in
    _ ← mput (mkRoundState committed new_round (rs_current_round_deadline rs) pending_votes_new None
                (rs_timeout_task rs));
    timeout ← setup_timeout now 1;
    certified_succ ← mlift (u64_add (highest_certified_round sync_info) 1);
    let new_round_reason := if certified_succ =? new_round then QCReady else Timeout in
    mret (Some (mkNewRoundEvent new_round new_round_reason timeout prev_round_votes
                  prev_round_timeout_votes))
  else mret None.

Definition round_state_insert_vote (verifier : ValidatorVerifier) (vote : Vote)
  : M RoundState Infallible VoteReceptionResult := λ rs,
  if vote_round vote =? rs_current_round rs then
    let '(result, pending) := insert_vote verifier vote (rs_pending_votes rs) in
    (result, mkRoundState (rs_highest_committed_round rs) (rs_current_round rs)
               (rs_current_round_deadline rs) pending (rs_vote_sent rs) (rs_timeout_task rs))
  else (Ok (UnexpectedRound (vote_round vote) (rs_current_round rs)), rs).

Definition record_vote (vote : Vote) : M RoundState Infallible unit := λ rs,
  if vote_round vote =? rs_current_round rs then
    (Ok tt, mkRoundState (rs_highest_committed_round rs) (rs_current_round rs)
              (rs_current_round_deadline rs) (rs_pending_votes rs) (Some vote) (rs_timeout_task rs))
  else (Ok tt, rs).

(** ** Calls *)

Inductive rs_call :=
| CallCertificates (now : Duration) (sync_info : SyncInfo)
| CallInsertVote (vote : Vote)
| CallRecordVote (vote : Vote)
| CallLocalTimeout (now : Duration) (round : Round)
| CallLeaderTimeout (now : Duration).

Inductive rs_output :=
| OutEvent (event : option NewRoundEvent)
| OutVote (result : VoteReceptionResult)
| OutUnit
| OutTimeout (current : bool).

Definition rs_exec (v : ValidatorVerifier) (c : rs_call) : M RoundState Infallible rs_output :=
  match c with
  | CallCertificates now sync_info => e ← process_certificates now sync_info; mret (OutEvent e)
  | CallInsertVote vote => r ← round_state_insert_vote v vote; mret (OutVote r)
  | CallRecordVote vote => _ ← record_vote vote; mret OutUnit
  | CallLocalTimeout now round => b ← process_local_timeout now round; mret (OutTimeout b)
  | CallLeaderTimeout now => _ ← setup_leader_timeout now; mret OutUnit
  end.

Fixpoint rs_run (v : ValidatorVerifier) (calls : list rs_call)
  : M RoundState Infallible (list rs_output) :=
  match calls with
  | [] => mret []
  | c :: calls => o ← rs_exec v c; outs ← rs_run v calls; mret (o :: outs)
  end.

(** ** Specification: the round, the votes received in it, and what was committed *)

Record RoundSpec := mkRoundSpec {
  spec_committed : Round;
  spec_round : Round;
  spec_votes : list Vote;
  spec_sent : option Vote;
}.

Definition spec_new : RoundSpec := mkRoundSpec 0 0 [] None.

Definition spec_step (c : rs_call) (a : RoundSpec) : RoundSpec :=
  match c with
  | CallCertificates _ si =>
      let committed := N.max (spec_committed a) (highest_ordered_round si) in
      if spec_round a <? highest_round si + 1
      then mkRoundSpec committed (highest_round si + 1) [] None
      else mkRoundSpec committed (spec_round a) (spec_votes a) (spec_sent a)
  | CallInsertVote w =>
      if vote_round w =? spec_round a
      then mkRoundSpec (spec_committed a) (spec_round a) (spec_votes a ++ [w]) (spec_sent a) else a
  | CallRecordVote w =>
      if vote_round w =? spec_round a
      then mkRoundSpec (spec_committed a) (spec_round a) (spec_votes a) (Some w) else a
  | CallLocalTimeout _ _ | CallLeaderTimeout _ => a
  end.

(** The clock and the interval stay within [Duration]. *)
Definition time_ok (now : Duration) : Prop := ∀ i, now + get_round_duration i * 2 ≤ DURATION_MAX.

(** What the callers ensure. *)
Definition call_ok (v : ValidatorVerifier) (epoch : N) (a : RoundSpec) (c : rs_call) : Prop :=
  match c with
  | CallCertificates now si =>
      time_ok now ∧ highest_round si + 1 < 2 ^ 64 ∧ highest_ordered_round si + 3 < 2 ^ 64
  | CallInsertVote w =>
      verified v epoch (vote_round w) w ∧
      (vote_round w = spec_round a → collision_free (spec_votes a ++ [w]))
  | CallRecordVote _ => True
  | CallLocalTimeout now round => time_ok now ∧ (round = spec_round a → 0 < spec_round a)
  | CallLeaderTimeout now => time_ok now ∧ 0 < spec_round a
  end.

Definition output_ok (v : ValidatorVerifier) (epoch : N) (a : RoundSpec) (c : rs_call)
    (o : rs_output) : Prop :=
  match c, o with
  | CallCertificates _ si, OutEvent None => highest_round si + 1 ≤ spec_round a
  | CallCertificates _ si, OutEvent (Some e) =>
      spec_round a < nre_round e ∧ nre_round e = highest_round si + 1 ∧
      (nre_reason e = QCReady ↔ highest_round si = highest_certified_round si) ∧
      (nre_prev_round_votes e, nre_prev_round_timeout_votes e) =
        (drain_votes (insert_votes v (spec_votes a))).1
  | CallInsertVote w, OutVote r =>
      if vote_round w =? spec_round a
      then vote_result v epoch (spec_round a) (spec_votes a) w (insert_votes v (spec_votes a))
             (insert_votes v (spec_votes a ++ [w])) r
      else r = UnexpectedRound (vote_round w) (spec_round a)
  | CallLocalTimeout _ round, OutTimeout b => b = true ↔ round = spec_round a
  | CallRecordVote _, OutUnit | CallLeaderTimeout _, OutUnit => True
  | _, _ => False
  end.

(** The state that stands for a specification. *)
Record rs_refines (v : ValidatorVerifier) (epoch : N) (rs : RoundState) (a : RoundSpec) : Prop := {
  rr_committed : rs_highest_committed_round rs = spec_committed a;
  rr_bound : spec_committed a + 3 < 2 ^ 64;
  rr_round : rs_current_round rs = spec_round a;
  rr_pending : rs_pending_votes rs = insert_votes v (spec_votes a);
  rr_sent : rs_vote_sent rs = spec_sent a;
  rr_sent_round : ∀ w, spec_sent a = Some w → vote_round w = spec_round a;
  rr_votes : Forall (verified v epoch (spec_round a)) (spec_votes a);
  rr_collision : collision_free (spec_votes a);
  rr_task : ∀ t r, rs_timeout_task rs = Some (t, r) → r = spec_round a;
}.

(** ** Refinement *)

Lemma setup_timeout_run now m rs :
  time_ok now → m ≤ 2 → 0 < rs_current_round rs → rs_highest_committed_round rs + 3 < 2 ^ 64 →
  ∃ t, setup_timeout now m rs =
    (Ok t, mkRoundState (rs_highest_committed_round rs) (rs_current_round rs) (now + t)
             (rs_pending_votes rs) (rs_vote_sent rs) (Some (t, rs_current_round rs))).
Proof.
  intros Ht Hm Hr Hc.
  assert (∃ i, round_index_after_committed_round (E := Infallible) rs = Ok i) as [i Hi].
  { unfold round_index_after_committed_round, u64_sub, u64_add.
    destruct (N.eqb_spec (rs_highest_committed_round rs) 0) as [E|E].
    - rewrite (proj2 (u64_checked_sub_Some _ _ _)) by (split; [done|lia]). by eexists.
    - rewrite (proj2 (u64_checked_add_Some _ _ _)) by (split; [done|lia]). run_ok.
      destruct (N.ltb_spec (rs_current_round rs) (rs_highest_committed_round rs + 3)); [by eexists|].
      rewrite (proj2 (u64_checked_sub_Some _ _ _)) by (split; [done|lia]). run_ok.
      rewrite (proj2 (u64_checked_sub_Some _ _ _)) by (split; [done|lia]). by eexists. }
  exists (get_round_duration i * m). specialize (Ht i).
  unfold setup_timeout, setup_deadline. unfold mbind, M_bind, mget, mlift, mput, mret, M_ret.
  rewrite Hi. unfold duration_mul, duration_add.
  rewrite (proj2 (N.leb_le (get_round_duration i * m) DURATION_MAX)) by nia.
  rewrite (proj2 (N.leb_le (now + get_round_duration i * m) DURATION_MAX)) by nia. done.
Qed.

Section simulation.
Context (v : ValidatorVerifier) (epoch : N).
Hypothesis Hwf : verifier_wf v.
Hypothesis Hlen : verifier_len v < 2 ^ 16.
Hypothesis Hquorum : quorum_voting_power v ≤ total_voting_power v.
Hypothesis Hagg : bls_aggregation_correct.
Hypothesis Hmulti : bls_multi_correct.

Lemma simulate_certificates now si rs a :
  rs_refines v epoch rs a → call_ok v epoch a (CallCertificates now si) →
  ∃ o rs', rs_exec v (CallCertificates now si) rs = (Ok o, rs') ∧
    rs_refines v epoch rs' (spec_step (CallCertificates now si) a) ∧
    output_ok v epoch a (CallCertificates now si) o.
Proof.
  intros [Hc Hb Hr Hp Hs Hsr Hv Hcf Ht] (Hnow & Hround & Hordered).
  assert ((if rs_highest_committed_round rs <? highest_ordered_round si
    then highest_ordered_round si else rs_highest_committed_round rs) =
    N.max (spec_committed a) (highest_ordered_round si)) as Hcommitted.
  { rewrite Hc. destruct (N.ltb_spec (spec_committed a) (highest_ordered_round si)); lia. }
  cbn [rs_exec spec_step].
  enough (∃ e rs', process_certificates now si rs = (Ok e, rs') ∧
    rs_refines v epoch rs' (spec_step (CallCertificates now si) a) ∧
    output_ok v epoch a (CallCertificates now si) (OutEvent e)) as (e & rs' & Hrun & ? & ?).
  { exists (OutEvent e), rs'. by rewrite (M_run_bind _ _ _ _ _ Hrun). }
  cbn [spec_step]. unfold process_certificates. rewrite mget_bind. rewrite Hcommitted. rewrite mput_bind. unfold u64_add.
  rewrite (proj2 (u64_checked_add_Some (highest_round si) 1 (highest_round si + 1))) by lia.
  rewrite (mlift_bind _ (highest_round si + 1)) by done. cbn [rs_current_round]. rewrite Hr.
  assert (highest_certified_round si ≤ highest_round si) by (unfold highest_round; lia).
  destruct (N.ltb_spec (spec_round a) (highest_round si + 1)) as [Hnew|Hold].
  - unfold drain_votes at 1. cbn beta iota zeta. rewrite mput_bind. set (rs1 := mkRoundState _ (highest_round si + 1) _ _ _ _).
    destruct (setup_timeout_run now 1 rs1) as [t Hrun];
      [done|done|unfold rs1; cbn [rs_current_round]; lia|unfold rs1; cbn [rs_highest_committed_round]; lia|].
    rewrite (M_run_bind _ _ _ _ _ Hrun).
    rewrite (mlift_bind _ (highest_certified_round si + 1))
      by (by rewrite (proj2 (u64_checked_add_Some (highest_certified_round si) 1
            (highest_certified_round si + 1))) by lia).
    eexists _, _. split; [done|]. split.
    + split; cbn [spec_committed spec_round spec_votes spec_sent]; try done.
      * lia.
      * by intros x y ?%not_elem_of_nil.
      * by intros ?? [= _ <-].
    + split_and!; [done|done| |by rewrite Hp].
      destruct (N.eqb_spec (highest_certified_round si + 1) (highest_round si + 1)); split; try done; lia.
  - eexists _, _. split; [done|]. split; [|done]. split; cbn [spec_committed spec_round spec_votes spec_sent]; try done. lia.
Qed.

Lemma simulate_call c rs a :
  rs_refines v epoch rs a → call_ok v epoch a c →
  ∃ o rs', rs_exec v c rs = (Ok o, rs') ∧ rs_refines v epoch rs' (spec_step c a) ∧
    output_ok v epoch a c o.
Proof.
  intros Hr Hok. destruct c as [now si|w|w|now round|now].
  - by apply simulate_certificates.
  - destruct Hok as [Hver Hfree]. cbn. unfold mbind, M_bind, round_state_insert_vote.
    destruct Hr as [Hc Hb Hround Hp Hs Hsr Hv Hcf Ht]. rewrite Hround.
    destruct (N.eqb_spec (vote_round w) (spec_round a)) as [E|E]; [|by eexists _, _].
    rewrite E in Hver. destruct (insert_vote_step v epoch (spec_round a) Hwf Hlen Hquorum Hagg Hmulti
      (spec_votes a) w (insert_votes v (spec_votes a))) as (r & pv' & Hrun & Hinv & Hres);
      [by apply insert_votes_inv|done|by apply Hfree|].
    assert (insert_votes v (spec_votes a ++ [w]) = pv') as Hpv'.
    { unfold insert_votes. rewrite foldl_app. cbn. fold (insert_votes v (spec_votes a)). by rewrite Hrun. }
    rewrite Hp, Hrun. eexists _, _. split; [done|]. rewrite Hpv'. split; [|done].
    split; cbn [spec_committed spec_round spec_votes spec_sent]; try done;
      [apply Forall_app; split; [done|by rewrite Forall_singleton]|by apply Hfree].
  - cbn. unfold mbind, M_bind, record_vote. destruct Hr as [Hc Hb Hround Hp Hs Hsr Hv Hcf Ht].
    rewrite Hround. destruct (N.eqb_spec (vote_round w) (spec_round a)) as [E|E]; [|by eexists _, _].
    eexists _, _. split; [done|]. split; [|done]. split; cbn; try done. by intros ? [= <-].
  - destruct Hok as [Hnow Hpos]. cbn [rs_exec spec_step]. unfold process_local_timeout.
    destruct Hr as [Hc Hb Hround Hp Hs Hsr Hv Hcf Ht].
    destruct (N.eqb_spec round (spec_round a)) as [E|E].
    + destruct (setup_timeout_run now 1 rs) as [t Hrun]; [done|done|rewrite Hround; auto|lia|].
      eexists (OutTimeout true), _. split.
      { erewrite M_run_bind; [done|]. rewrite mget_bind, Hround, (proj2 (N.eqb_eq _ _) E). cbn [negb].
        by rewrite (M_run_bind _ _ _ _ _ Hrun). }
      split; [|done]. split; cbn; try done. intros ?? [= _ <-]. done.
    + eexists (OutTimeout false), rs. split.
      { erewrite M_run_bind; [done|]. by rewrite mget_bind, Hround, (proj2 (N.eqb_neq _ _) E). }
      split; [done|]. cbn. naive_solver.
  - destruct Hok as [Hnow Hpos]. cbn [rs_exec spec_step]. unfold setup_leader_timeout.
    destruct Hr as [Hc Hb Hround Hp Hs Hsr Hv Hcf Ht].
    destruct (setup_timeout_run now 2 rs) as [t Hrun]; [done|done|by rewrite Hround|lia|].
    eexists OutUnit, _. split; [erewrite M_run_bind; [done|]; by rewrite (M_run_bind _ _ _ _ _ Hrun)|].
    split; [|done]. split; cbn; try done. intros ?? [= _ <-]. done.
Qed.
End simulation.

Fixpoint calls_ok (v : ValidatorVerifier) (epoch : N) (a : RoundSpec) (calls : list rs_call) : Prop :=
  match calls with
  | [] => True
  | c :: calls => call_ok v epoch a c ∧ calls_ok v epoch (spec_step c a) calls
  end.
Fixpoint outputs_ok (v : ValidatorVerifier) (epoch : N) (a : RoundSpec) (calls : list rs_call)
    (outs : list rs_output) : Prop :=
  match calls, outs with
  | [], [] => True
  | c :: calls, o :: outs => output_ok v epoch a c o ∧ outputs_ok v epoch (spec_step c a) calls outs
  | _, _ => False
  end.

End round_state.

(** ** The sample validators *)

Section sample.
#[local] Existing Instance sample_bls.
#[local] Existing Instance sample_hashes.

(** Round 5 starts with the certificate of round 4 and collects two votes. *)
Definition sample_round_calls : list rs_call :=
  [CallCertificates 7 (mkSyncInfo (sample_qc 1 4) None (sample_qc 1 4) None);
   CallInsertVote (sample_vote 2 12 None); CallRecordVote (sample_vote 1 11 None);
   CallLocalTimeout 9 5; CallInsertVote sample_timeout_vote].

End sample.
