(* ===== verification/ProposerElection.v ===== *)
(** * Proposer election (consensus/src/liveness)

    The proposer of a round: a fixed table, a rotation, or a weighted choice seeded by a
    hash; the wrappers that reject a second proposal for a round and that remember recent
    elections. The voting power participation ratio, a float, is passed along unread. *)
From S2P Require Import Prelude Crypto ConsensusTypes.
Local Open Scope N_scope.

(** ** Fixed and rotating proposers *)

Record RoundProposer := mkRoundProposer {
  rp_proposers : gmap Round Author;
  rp_default_proposer : Author;
}.
Definition round_proposer_get (p : RoundProposer) (round : Round) : Author :=
  match rp_proposers p !! round with
  | None => rp_default_proposer p
  | Some round_proposer => round_proposer
  end.

Record RotatingProposer := mkRotatingProposer {
  rot_proposers : list Author;
  rot_contiguous_rounds : N;
}.
(** [Iterator::min] *)
Definition choose_leader {E} (peers : list Author) : outcome E Author :=
  expect (match peers with [] => None | p :: peers => Some (foldl N.min p peers) end).
(** The division and the remainder panic on zero. *)
Definition rotating_proposer_get {E} (p : RotatingProposer) (round : Round) : outcome E Author :=
  _ ← rassert (negb (rot_contiguous_rounds p =? 0));
  _ ← rassert (negb (lenN (rot_proposers p) =? 0));
  expect (rot_proposers p !!
    N.to_nat ((round / rot_contiguous_rounds p) mod lenN (rot_proposers p))).

(** ** A choice in proportion to weights *)

(** [Vec::binary_search_by] with a comparison that is never [Equal]: [less w] is the order
    [Less]; the loop halves [size], so that the length is fuel enough. *)
Fixpoint binary_search_loop {A} (fuel : nat) (less : A → bool) (l : list A) (left right size : nat)
  : option nat :=
  match fuel with
  | O => None
  | S fuel =>
      if (left <? right)%nat then
        let mid := (left + size / 2)%nat in
        w ← l !! mid;
        let left' := if less w then S mid else left in
        let right' := if less w then right else mid in
        binary_search_loop fuel less l left' right' (right' - left')
      else Some left
  end.
Definition binary_search_by {A} (less : A → bool) (l : list A) : option nat :=
  binary_search_loop (S (length l)) less l 0 (length l) (length l).

Section choose.
Context (sha3_256_of : list N → list N).

(** [u128::from_le_bytes] of the first 16 bytes. *)
Definition le_number (bytes : list N) : N := foldr (λ b acc, b + 256 * acc) 0 bytes.
Definition next_in_range {E} (state : list N) (max : N) : outcome E N :=
  let hash := sha3_256_of state in
  _ ← rassert (negb (max =? 0));
  Ok (le_number (take 16 hash) mod max).

(** The loop that replaces each weight by the sum up to it. *)
Fixpoint cumulative_weights {E} (total_weight : N) (weights : list N) : outcome E (list N * N) :=
  match weights with
  | [] => Ok ([], total_weight)
  | w :: weights =>
      total ← expect (u128_checked_add total_weight w);
      '(rest, final) ← cumulative_weights total weights;
      Ok (total :: rest, final)
  end.

Definition choose_index {E} (weights : list N) (state : list N) : outcome E nat :=
  '(cumulative, total_weight) ← cumulative_weights 0 weights;
  chosen_weight ← next_in_range state total_weight;
  expect (binary_search_by (λ w, w <=? chosen_weight) cumulative).
End choose.

(** ** One proposal per round *)

(** [already_proposed] behind its mutex. *)
Abbreviation AlreadyProposed := (Round * HashValue)%type (only parsing).
Definition already_proposed_new : AlreadyProposed := (0, hash_zero).

Definition is_valid_proposal (get_valid_proposer : Round → Author) (block : Block)
    (already : AlreadyProposed) : bool * AlreadyProposed :=
  match block_author block with
  | None => (false, already)
  | Some author =>
      if negb (get_valid_proposer (block_round block) =? author) then (false, already)
      else
        match block_round block ?= already.1 with
        | Gt => (true, (block_round block, block_id block))
        | Eq => (already.2 =? block_id block, already)
        | Lt => (false, already)
        end
  end.

(** The proposals a node is asked about, each with the election at that time, and the ones
    it accepts. *)
Fixpoint accepted_proposals (already : AlreadyProposed) (calls : list ((Round → Author) * Block))
  : list ((Round → Author) * Block) :=
  match calls with
  | [] => []
  | (get_valid_proposer, block) :: calls =>
      let '(ok, already') := is_valid_proposal get_valid_proposer block already in
      if ok then (get_valid_proposer, block) :: accepted_proposals already' calls
      else accepted_proposals already' calls
  end.

(** ** Elections remembered *)

Section cached.
Context {Ratio : Type}.

Record CachedProposerElection := mkCached {
  ce_recent_elections : gmap Round (Author * Ratio);
  ce_window : N;
}.
Definition cached_new (window : N) : CachedProposerElection := mkCached ∅ window.

(** [split_off] keeps the keys from its argument on. *)
Definition recent_from (round : Round) (c : CachedProposerElection) : gmap Round (Author * Ratio) :=
  if ce_window c <? round
  then filter (λ e : Round * (Author * Ratio), round - ce_window c ≤ e.1) (ce_recent_elections c)
  else ce_recent_elections c.

(** The underlying election may answer differently at every call, as it reads the latest
    committed history. *)
Definition get_or_compute_entry (elect : Round → Author * Ratio) (round : Round)
    (c : CachedProposerElection) : (Author * Ratio) * CachedProposerElection :=
  let recent := recent_from round c in
  match recent !! round with
  | Some entry => (entry, mkCached recent (ce_window c))
  | None =>
      let result := elect round in
      (result, mkCached (<[round := result]> recent) (ce_window c))
  end.

(** Calls with the election each would compute. *)
Definition cached_run (calls : list ((Round → Author * Ratio) * Round)) (c : CachedProposerElection)
  : CachedProposerElection :=
  foldl (λ c call, (get_or_compute_entry call.1 call.2 c).2) c calls.
End cached.
Arguments CachedProposerElection Ratio : clear implicits.

(** ** Properties *)

(** When the elements for which [less] holds are the first [k], the search returns [k]. *)
Lemma binary_search_loop_spec {A} (less : A → bool) l k : ∀ fuel left right size,
  (∀ i w, l !! i = Some w → less w = (i <? k)%nat) →
  (left ≤ k ≤ right)%nat → (right ≤ length l)%nat → (right - left < fuel)%nat →
  size = (right - left)%nat → binary_search_loop fuel less l left right size = Some k.
Proof.
  intros fuel. induction fuel as [|fuel IH]; intros left right ? Hless Hk Hlen Hfuel ->; [lia|].
  cbn [binary_search_loop]. destruct (Nat.ltb_spec left right) as [Hlt|Hge]; [|f_equal; lia].
  set (mid := (left + (right - left) / 2)%nat).
  assert (left ≤ mid < right)%nat as Hmid.
  { unfold mid. pose proof (Nat.Div0.div_lt_upper_bound (right - left) 2 (right - left)). lia. }
  destruct (lookup_lt_is_Some_2 l mid) as [w Hw]; [lia|]. rewrite Hw. cbn [mbind option_bind].
  rewrite (Hless mid w Hw). destruct (Nat.ltb_spec mid k); apply IH; try done; lia.
Qed.

Lemma sum_list_N_cons x l : sum_list_N (x :: l) = x + sum_list_N l.
Proof. done. Qed.
Lemma sum_list_N_app l k : sum_list_N (l ++ k) = sum_list_N l + sum_list_N k.
Proof.
  induction l as [|x l IH]; [done|]. rewrite <-app_comm_cons, !sum_list_N_cons, IH. lia.
Qed.

Lemma cumulative_weights_spec {E} weights : ∀ t,
  t < 2 ^ 128 →
  cumulative_weights (E := E) t weights =
  if t + sum_list_N weights <? 2 ^ 128
  then Ok ((λ i, t + sum_list_N (take (S i) weights)) <$> seq 0 (length weights), t + sum_list_N weights)
  else Panic.
Proof.
  induction weights as [|w weights IH]; intros t Ht.
  { cbn -[N.pow]. rewrite N.add_0_r, (proj2 (N.ltb_lt _ _)) by done. done. }
  cbn [cumulative_weights]. rewrite sum_list_N_cons. unfold u128_checked_add.
  destruct (N.ltb_spec (t + w) (2 ^ 128)) as [Hw|Hw]; run_ok.
  - rewrite IH by done. rewrite N.add_assoc.
    destruct (N.ltb_spec (t + w + sum_list_N weights) (2 ^ 128)); run_ok; [|done].
    cbn [length seq]. rewrite fmap_cons, <-fmap_S_seq, <-list_fmap_compose. do 3 f_equal.
    + cbn [take]. rewrite take_0, sum_list_N_cons. cbn. lia.
    + apply list_fmap_ext. intros i x _. cbn [compose take]. rewrite sum_list_N_cons. lia.
  - rewrite (proj2 (N.ltb_ge _ _)) by lia. done.
Qed.

Lemma sum_take_mono weights i j : (i ≤ j)%nat →
  sum_list_N (take i weights) ≤ sum_list_N (take j weights).
Proof.
  intros Hij. rewrite <-(take_drop i (take j weights)), take_take, Nat.min_l by done.
  rewrite sum_list_N_app. lia.
Qed.

(** The interval of a value below the total. *)
Lemma interval_exists weights c : c < sum_list_N weights →
  ∃ k, (k < length weights)%nat ∧ sum_list_N (take k weights) ≤ c < sum_list_N (take (S k) weights).
Proof.
  revert c. induction weights as [|w weights IH]; intros c Hc; [cbn in Hc; lia|].
  rewrite sum_list_N_cons in Hc. destruct (decide (c < w)) as [Hw|Hw].
  - exists 0%nat. cbn [take length]. rewrite take_0, sum_list_N_cons. cbn. lia.
  - destruct (IH (c - w)) as (k & Hk & Hlo & Hhi); [lia|]. exists (S k).
    cbn [length]. rewrite !firstn_cons, !sum_list_N_cons. lia.
Qed.

Lemma choose_index_spec {E} sha3_256_of weights state :
  let total := sum_list_N weights in
  let c := le_number (take 16 (sha3_256_of state)) mod total in
  match choose_index (E := E) sha3_256_of weights state with
  | Ok i => 0 < total < 2 ^ 128 ∧ (i < length weights)%nat ∧
      sum_list_N (take i weights) ≤ c < sum_list_N (take (S i) weights)
  | Err _ => False
  | Panic => total = 0 ∨ 2 ^ 128 ≤ total
  end.
Proof.
  cbv zeta. unfold choose_index. rewrite cumulative_weights_spec by done. rewrite N.add_0_l.
  destruct (N.ltb_spec (sum_list_N weights) (2 ^ 128)) as [Hfit|]; run_ok; [|by right].
  unfold next_in_range. destruct (N.eqb_spec (sum_list_N weights) 0) as [H0|H0]; cbn [negb]; run_ok; [by left|].
  set (c := _ mod _). assert (c < sum_list_N weights) as Hc by (apply N.mod_lt; lia).
  clearbody c. destruct (interval_exists weights c Hc) as (k & Hk & Hlo & Hhi).
  unfold binary_search_by. match goal with |- context [binary_search_loop _ _ ?l] => set (cum := l) end.
  assert (length cum = length weights) as Hlen by (unfold cum; by rewrite length_fmap, length_seq).
  rewrite (binary_search_loop_spec _ cum k).
  - run_ok. split; [lia|]. split; [done|]. lia.
  - intros i w Hi. unfold cum in Hi. apply list_lookup_fmap_Some in Hi as (j & -> & Hj).
    apply lookup_seq in Hj as [-> Hj]. rewrite Nat.add_0_l. rewrite N.add_0_l.
    destruct (Nat.ltb_spec i k) as [Hik|Hik].
    + apply N.leb_le. pose proof (sum_take_mono weights (S i) k). lia.
    + apply N.leb_gt. pose proof (sum_take_mono weights (S k) (S i)). lia.
  - lia.
  - done.
  - lia.
  - lia.
Qed.

(** [choose_index] picks index [i] exactly when the hash, reduced modulo the total, falls
    between the sums of the weights before and up to [i]: every index is picked for as many
    values as its weight, one of weight zero never. It panics only when the total is zero or
    does not fit a [u128]. *)
Theorem choose_index_correct {E} sha3_256_of weights state :
  let total := sum_list_N weights in
  let c := le_number (take 16 (sha3_256_of state)) mod total in
  match choose_index (E := E) sha3_256_of weights state with
  | Ok i => 0 < total < 2 ^ 128 ∧ (i < length weights)%nat ∧
      sum_list_N (take i weights) ≤ c < sum_list_N (take (S i) weights)
  | Err _ => False
  | Panic => total = 0 ∨ 2 ^ 128 ≤ total
  end.
Proof. apply choose_index_spec. Qed.

(** The rotation gives every proposer the same number of contiguous rounds in every
    cycle, in the order of the list. *)
Theorem rotating_proposer_fair {E} p cycle i j a
    (Hi : rot_proposers p !! i = Some a) (Hj : j < rot_contiguous_rounds p) :
  rotating_proposer_get (E := E) p
    ((cycle * lenN (rot_proposers p) + N.of_nat i) * rot_contiguous_rounds p + j) = Ok a.
Proof.
  pose proof (lookup_lt_Some _ _ _ Hi) as Hlt. unfold rotating_proposer_get, lenN in *.
  set (n := length (rot_proposers p)) in *. set (c := rot_contiguous_rounds p) in *.
  rewrite (proj2 (N.eqb_neq c 0)), (proj2 (N.eqb_neq (N.of_nat n) 0)) by lia. cbn [negb]. run_ok.
  rewrite N.div_add_l, (N.div_small j) by lia. rewrite N.add_0_r.
  rewrite (N.add_comm (cycle * _)), N.Div0.mod_add, N.mod_small by lia.
  rewrite Nat2N.id, Hi. done.
Qed.
Lemma rotating_proposer_fair_witness :
  rotating_proposer_get (E := unit) (mkRotatingProposer [7; 8; 9] 2) ((5 * lenN [7; 8; 9] + N.of_nat 1) * 2 + 1)
    = Ok 8.
Proof. apply (rotating_proposer_fair (mkRotatingProposer [7; 8; 9] 2)); reflexivity. Defined.

(** The rounds accepted never decrease, and a round is accepted for one block id only. *)
Lemma accepted_proposals_spec calls : ∀ already,
  (∀ x, x ∈ accepted_proposals already calls →
     already.1 ≤ block_round x.2 ∧ (block_round x.2 = already.1 → block_id x.2 = already.2) ∧
     block_author x.2 = Some (x.1 (block_round x.2))) ∧
  (∀ x y, x ∈ accepted_proposals already calls → y ∈ accepted_proposals already calls →
     block_round x.2 = block_round y.2 → block_id x.2 = block_id y.2) ∧
  StronglySorted N.le ((λ x, block_round x.2) <$> accepted_proposals already calls).
Proof.
  induction calls as [|[elect b] calls IH]; intros already.
  { cbn. split_and!; [by intros x ?%not_elem_of_nil|by intros x y ?%not_elem_of_nil|constructor]. }
  cbn [accepted_proposals]. unfold is_valid_proposal.
  destruct (block_author b) as [author|] eqn:Ha; [|apply IH].
  destruct (N.eqb_spec (elect (block_round b)) author) as [Hel|Hel]; cbn [negb]; [|apply IH].
  destruct (N.compare_spec (block_round b) already.1) as [Heq|Hlt|Hgt]; [|apply IH|].
  - destruct (N.eqb_spec already.2 (block_id b)) as [Hid|Hid]; [|apply IH].
    destruct (IH already) as (H1 & H2 & H3). split_and!.
    + intros x [->|Hx]%elem_of_cons; [|auto]. cbn. rewrite Ha, Hel. split; [lia|done].
    + intros x y [->|Hx]%elem_of_cons [->|Hy]%elem_of_cons E; [done| | |auto]; cbn in *.
      * destruct (H1 y Hy) as (_ & Hy' & _). rewrite <-Hid. symmetry. apply Hy'. congruence.
      * destruct (H1 x Hx) as (_ & Hx' & _). rewrite <-Hid. apply Hx'. congruence.
    + rewrite fmap_cons. constructor; [done|]. apply Forall_fmap, Forall_forall. intros x Hx. cbn.
      destruct (H1 x Hx) as [? _]. lia.
  - destruct (IH (block_round b, block_id b)) as (H1 & H2 & H3). cbn [fst snd] in *. split_and!.
    + intros x [->|Hx]%elem_of_cons; cbn; [rewrite Ha, Hel; split; [lia|split; [lia|done]]|].
      destruct (H1 x Hx) as (? & _ & ?). split; [lia|]. split; [lia|done].
    + intros x y [->|Hx]%elem_of_cons [->|Hy]%elem_of_cons E; [done| | |auto]; cbn in *.
      * destruct (H1 y Hy) as (_ & Hy' & _). symmetry. auto.
      * destruct (H1 x Hx) as (_ & Hx' & _). auto.
    + rewrite fmap_cons. constructor; [done|]. apply Forall_fmap, Forall_forall. intros x Hx. cbn.
      by apply H1.
Qed.

(** Whatever proposals a node is asked about, the ones it accepts come from the proposer
    elected at that moment, their rounds never go back, and no two of them have the same
    round and different ids. *)
Theorem unequivocal_proposals calls :
  let accepted := accepted_proposals already_proposed_new calls in
  (∀ elect b, (elect, b) ∈ accepted → block_author b = Some (elect (block_round b))) ∧
  (∀ x y, x ∈ accepted → y ∈ accepted → block_round x.2 = block_round y.2 → block_id x.2 = block_id y.2) ∧
  StronglySorted N.le ((λ x, block_round x.2) <$> accepted).
Proof.
  destruct (accepted_proposals_spec calls already_proposed_new) as (H1 & H2 & H3).
  split; [|done]. intros elect b Hb. by apply (H1 (elect, b)).
Qed.

(** ** The cache *)

Section cached_properties.
Context {Ratio : Type}.
Implicit Types (c : CachedProposerElection Ratio).

Lemma recent_from_keeps r round c x :
  ce_recent_elections c !! round = Some x → r ≤ round + ce_window c →
  recent_from r c !! round = Some x.
Proof.
  intros Hx Hr. unfold recent_from. case_match; [|done].
  apply map_lookup_filter_Some_2; [done|]. cbn. lia.
Qed.

Lemma get_or_compute_entry_keeps elect r round c x :
  ce_recent_elections c !! round = Some x → r ≤ round + ce_window c →
  ce_recent_elections (get_or_compute_entry elect r c).2 !! round = Some x ∧
  ce_window (get_or_compute_entry elect r c).2 = ce_window c.
Proof.
  intros Hx Hr. unfold get_or_compute_entry. pose proof (recent_from_keeps r round c x Hx Hr) as Hrec.
  destruct (recent_from r c !! r) as [e|] eqn:Er; cbn; split; try done.
  rewrite lookup_insert_ne; [done|]. congruence.
Qed.

(** An election once computed is the answer for that round, whatever the underlying
    election would say later, as long as no call was for a round more than a window ahead. *)
Theorem cached_election_stable elect elect' round c calls
    (Hcalls : Forall (λ call : (Round → Author * Ratio) * Round, call.2 ≤ round + ce_window c) calls) :
  let '(answer, c1) := get_or_compute_entry elect round c in
  (get_or_compute_entry elect' round (cached_run calls c1)).1 = answer.
Proof.
  destruct (get_or_compute_entry elect round c) as [answer c1] eqn:E1.
  assert (ce_recent_elections c1 !! round = Some answer ∧ ce_window c1 = ce_window c) as [Hc1 Hw1].
  { unfold get_or_compute_entry in E1.
    destruct (recent_from round c !! round) as [e|] eqn:Er; simplify_eq; cbn; [done|].
    by rewrite lookup_insert_eq. }
  rewrite <-Hw1 in Hcalls. clear E1 Hw1.
  assert (ce_recent_elections (cached_run calls c1) !! round = Some answer ∧
    ce_window (cached_run calls c1) = ce_window c1) as [Hc2 Hw2].
  { revert c1 Hc1 Hcalls. induction calls as [|[el r] calls IH]; intros c1 Hc1 Hcalls; [done|].
    apply Forall_cons in Hcalls as [Hr Hcalls]. cbn in Hr. cbn [cached_run foldl fst snd].
    destruct (get_or_compute_entry_keeps el r round c1 answer Hc1 Hr) as [H1 H2].
    rewrite <-H2. apply IH; [done|]. by rewrite H2. }
  unfold get_or_compute_entry. by rewrite (recent_from_keeps round round _ answer) by (done || lia).
Qed.
End cached_properties.

Lemma cached_election_stable_witness :
  let '(answer, c1) := get_or_compute_entry (λ r, (r, tt)) 5 (cached_new 3) in
  (get_or_compute_entry (λ r, (r + 1, tt)) 5 (cached_run [((λ r, (r + 2, tt)), 8)] c1)).1 = answer.
Proof. apply (cached_election_stable (λ r, (r, tt))). repeat constructor. vm_compute. discriminate. Defined.
