(* ===== verification/LeaderReputation.v ===== *)
(** * Leader reputation (consensus/src/liveness/leader_reputation.rs)

    Weights computed from the committed blocks of a sliding window, multiplied by the voting
    power, and a leader drawn from them with [choose_index]. The chain health ratio is a
    float and does not influence the choice; it is an argument here. *)
From S2P Require Import Prelude BitVec Crypto ValidatorVerifier LedgerInfo ConsensusTypes ProposerElection.
Local Open Scope N_scope.

(** ** Events and the history window *)

Record NewBlockEvent := mkNewBlockEvent {
  nbe_hash : AccountAddress;
  nbe_epoch : N;
  nbe_round : Round;
  nbe_height : N;
  nbe_previous_block_votes_bitvec : list N;
  nbe_proposer : AccountAddress;
  nbe_failed_proposer_indices : list N;
  nbe_timestamp : N;
}.

(** [(e1, r1) <= (e2, r2)] *)
Definition epoch_round_le (e1 r1 e2 r2 : N) : bool := (e1 <? e2) || ((e1 =? e2) && (r1 <=? r2)).

Record VersionedNewBlockEvent := mkVersionedNewBlockEvent {
  vnbe_event : NewBlockEvent;
  vnbe_version : N;
}.

(** The loop of [get_from_db_result]: the events up to the target, at most a window of them. *)
Fixpoint select_events (window_size target_epoch target_round : N)
    (events : list VersionedNewBlockEvent) (max_version : N) (result : list NewBlockEvent)
  : list NewBlockEvent * N :=
  match events with
  | [] => (result, max_version)
  | event :: events =>
      if epoch_round_le (nbe_epoch (vnbe_event event)) (nbe_round (vnbe_event event))
           target_epoch target_round && (lenN result <? window_size)
      then select_events window_size target_epoch target_round events
             (N.max max_version (vnbe_version event)) (result ++ [vnbe_event event])
      else select_events window_size target_epoch target_round events max_version result
  end.
Definition get_from_db_result (window_size : N) (get_accumulator_root_hash : Version → option HashValue)
    (target_epoch target_round : N) (events : list VersionedNewBlockEvent)
  : list NewBlockEvent * HashValue :=
  let '(result, max_version) := select_events window_size target_epoch target_round events 0 [] in
  (result, default hash_zero (get_accumulator_root_hash max_version)).

Record NewBlockEventAggregation := mkAggregation {
  agg_voter_window_size : N;
  agg_proposer_window_size : N;
  agg_reputation_window_from_stale_end : bool;
}.

Definition bitvec_to_voters (validators : list Author) (bitvec : BitVec)
  : outcome anyhow (list Author) :=
  if negb (required_buckets (lenN validators mod 2 ^ 16) =? bv_num_buckets bitvec) then
    Err (fmt "bitvec bucket {} does not match validators len {}"
           [bv_num_buckets bitvec; lenN validators])
  else Ok (filter_voters bitvec 0 validators).

Fixpoint indices_to_validators (validators : list Author) (indices : list N)
  : outcome anyhow (list Author) :=
  match indices with
  | [] => Ok []
  | index :: indices =>
      v ← ok_or (validators !! N.to_nat index)
            (fmt "index {} is larger than number of validators {}" [index; lenN validators]);
      rest ← indices_to_validators validators indices;
      Ok (v :: rest)
  end.

Definition history_iter {E} (history : list NewBlockEvent)
    (epoch_to_candidates : gmap N (list Author)) (window_size : N) (from_stale_end : bool)
  : outcome E (list NewBlockEvent) :=
  sub_history ←
    (if from_stale_end then
       let start := if window_size <? lenN history then lenN history - window_size else 0 in
       Ok (drop (N.to_nat start) history)
     else
       _ ← match history, last history with
           | first :: _, Some final =>
               rassert (epoch_round_le (nbe_epoch final) (nbe_round final)
                          (nbe_epoch first) (nbe_round first))
           | _, _ => Ok tt
           end;
       let end_ := if window_size <? lenN history then window_size else lenN history in
       Ok (take (N.to_nat end_) history));
  Ok (filter (λ meta, is_Some (epoch_to_candidates !! nbe_epoch meta)) sub_history).

(** ** Counting *)

Definition u32_add {E} (a b : N) : outcome E N := if a + b <? 2 ^ 32 then Ok (a + b) else Panic.
Definition u32_mul {E} (a b : N) : outcome E N := if a * b <? 2 ^ 32 then Ok (a * b) else Panic.

(** [*map.entry(a).or_insert(0) += 1] for every author of the list. *)
Fixpoint count_authors {E} (authors : list Author) (map : gmap Author N) : outcome E (gmap Author N) :=
  match authors with
  | [] => Ok map
  | a :: authors =>
      count ← u32_add (default 0 (map !! a)) 1;
      count_authors authors (<[a := count]> map)
  end.

Fixpoint fold_events {E} (authors_of : NewBlockEvent → outcome E (list Author))
    (events : list NewBlockEvent) (map : gmap Author N) : outcome E (gmap Author N) :=
  match events with
  | [] => Ok map
  | meta :: events =>
      authors ← authors_of meta;
      map ← count_authors authors map;
      fold_events authors_of events map
  end.

(** A conversion error is logged and the event skipped. *)
Definition or_log {A E} (m : outcome anyhow (list A)) : outcome E (list A) :=
  match m with Ok l => Ok l | Err _ => Ok [] | Panic => Panic end.

(** [epoch_to_candidates[&epoch]] *)
Definition event_voters {E} (epoch_to_candidates : gmap N (list Author)) (meta : NewBlockEvent)
  : outcome E (list Author) :=
  validators ← expect (epoch_to_candidates !! nbe_epoch meta);
  bitvec ← bv_from_bytes (nbe_previous_block_votes_bitvec meta);
  or_log (bitvec_to_voters validators bitvec).
Definition event_failed {E} (epoch_to_candidates : gmap N (list Author)) (meta : NewBlockEvent)
  : outcome E (list Author) :=
  validators ← expect (epoch_to_candidates !! nbe_epoch meta);
  or_log (indices_to_validators validators (nbe_failed_proposer_indices meta)).

Definition count_votes_custom {E} (epoch_to_candidates : gmap N (list Author))
    (history : list NewBlockEvent) (window_size : N) (from_stale_end : bool)
  : outcome E (gmap Author N) :=
  events ← history_iter history epoch_to_candidates window_size from_stale_end;
  fold_events (event_voters epoch_to_candidates) events ∅.
Definition count_proposals_custom {E} (epoch_to_candidates : gmap N (list Author))
    (history : list NewBlockEvent) (window_size : N) (from_stale_end : bool)
  : outcome E (gmap Author N) :=
  events ← history_iter history epoch_to_candidates window_size from_stale_end;
  fold_events (λ meta, Ok [nbe_proposer meta]) events ∅.
Definition count_votes {E} (agg : NewBlockEventAggregation) (epoch_to_candidates : gmap N (list Author))
    (history : list NewBlockEvent) : outcome E (gmap Author N) :=
  count_votes_custom epoch_to_candidates history (agg_voter_window_size agg)
    (agg_reputation_window_from_stale_end agg).
Definition count_proposals {E} (agg : NewBlockEventAggregation)
    (epoch_to_candidates : gmap N (list Author)) (history : list NewBlockEvent)
  : outcome E (gmap Author N) :=
  count_proposals_custom epoch_to_candidates history (agg_proposer_window_size agg)
    (agg_reputation_window_from_stale_end agg).
Definition count_failed_proposals {E} (agg : NewBlockEventAggregation)
    (epoch_to_candidates : gmap N (list Author)) (history : list NewBlockEvent)
  : outcome E (gmap Author N) :=
  events ← history_iter history epoch_to_candidates (agg_proposer_window_size agg)
             (agg_reputation_window_from_stale_end agg);
  fold_events (event_failed epoch_to_candidates) events ∅.

(** [values().sum::<u32>()], for a gauge: it overflows like any sum. *)
Fixpoint u32_sum {E} (acc : N) (l : list N) : outcome E N :=
  match l with [] => Ok acc | n :: l => acc' ← u32_add acc n; u32_sum acc' l end.

Definition get_aggregated_metrics {E} (agg : NewBlockEventAggregation)
    (epoch_to_candidates : gmap N (list Author)) (history : list NewBlockEvent)
  : outcome E (gmap Author N * gmap Author N * gmap Author N) :=
  votes ← count_votes agg epoch_to_candidates history;
  proposals ← count_proposals agg epoch_to_candidates history;
  failed_proposals ← count_failed_proposals agg epoch_to_candidates history;
  _ ← u32_sum 0 (map_to_list proposals).*2;
  _ ← u32_sum 0 (map_to_list failed_proposals).*2;
  Ok (votes, proposals, failed_proposals).

(** ** Weights *)

Record ProposerAndVoterHeuristic := mkHeuristic {
  h_active_weight : N;
  h_inactive_weight : N;
  h_failed_weight : N;
  h_failure_threshold_percent : N;
  h_aggregation : NewBlockEventAggregation;
}.

Fixpoint weights_of {E} (h : ProposerAndVoterHeuristic)
    (votes proposals failed_proposals : gmap Author N) (authors : list Author) : outcome E (list N) :=
  match authors with
  | [] => Ok []
  | author :: authors =>
      let cur_votes := default 0 (votes !! author) in
      let cur_proposals := default 0 (proposals !! author) in
      let cur_failed_proposals := default 0 (failed_proposals !! author) in
      lhs ← u32_mul cur_failed_proposals 100;
      both ← u32_add cur_proposals cur_failed_proposals;
      rhs ← u32_mul both (h_failure_threshold_percent h);
      let w := if rhs <? lhs then h_failed_weight h
               else if (0 <? cur_proposals) || (0 <? cur_votes) then h_active_weight h
               else h_inactive_weight h in
      rest ← weights_of h votes proposals failed_proposals authors;
      Ok (w :: rest)
  end.

Definition get_weights {E} (h : ProposerAndVoterHeuristic) (epoch : N)
    (epoch_to_candidates : gmap N (list Author)) (history : list NewBlockEvent)
  : outcome E (list N) :=
  _ ← rassert (bool_decide (is_Some (epoch_to_candidates !! epoch)));
  '(votes, proposals, failed_proposals) ←
    get_aggregated_metrics (h_aggregation h) epoch_to_candidates history;
  candidates ← expect (epoch_to_candidates !! epoch);
  weights_of h votes proposals failed_proposals candidates.

(** ** Election *)

(** A [u64] in 8 little-endian bytes. *)
Fixpoint le_bytes (n : nat) (x : N) : list N :=
  match n with O => [] | S n => (x mod 256) :: le_bytes n (x / 256) end.

Record LeaderReputation := mkLeaderReputation {
  lr_epoch : N;
  lr_epoch_to_proposers : gmap N (list Author);
  lr_voting_powers : list N;
  lr_heuristic : ProposerAndVoterHeuristic;
  lr_exclude_round : N;
  lr_use_root_hash : bool;
}.

Definition leader_reputation_new {E} (epoch : N) (epoch_to_proposers : gmap N (list Author))
    (voting_powers : list N) (heuristic : ProposerAndVoterHeuristic) (exclude_round : N)
    (use_root_hash : bool) : outcome E LeaderReputation :=
  proposers ← expect (epoch_to_proposers !! epoch);
  _ ← rassert (lenN proposers =? lenN voting_powers);
  Ok (mkLeaderReputation epoch epoch_to_proposers voting_powers heuristic exclude_round use_root_hash).

Section election.
Context {Ratio : Type} (sha3_256_of : list N → list N) (hash_bytes : HashValue → list N).
Context (get_block_metadata : N → Round → list NewBlockEvent * HashValue).
Context (chain_health : ∀ E, list NewBlockEvent → Round → outcome E Ratio).

Definition election_state (lr : LeaderReputation) (root_hash : HashValue) (round : Round) : list N :=
  if lr_use_root_hash lr
  then hash_bytes root_hash ++ le_bytes 8 (lr_epoch lr) ++ le_bytes 8 round
  else le_bytes 8 (lr_epoch lr) ++ le_bytes 8 round.

Definition get_valid_proposer_and_ratio {E} (lr : LeaderReputation) (round : Round)
  : outcome E (Author * Ratio) :=
  let target_round := round - lr_exclude_round lr in
  let '(sliding_window, root_hash) := get_block_metadata (lr_epoch lr) target_round in
  ratio ← chain_health E sliding_window round;
  weights ← get_weights (lr_heuristic lr) (lr_epoch lr) (lr_epoch_to_proposers lr) sliding_window;
  proposers ← expect (lr_epoch_to_proposers lr !! lr_epoch lr);
  _ ← rassert (lenN weights =? lenN proposers);
  _ ← rassert (lenN weights <=? lenN (lr_voting_powers lr));
  let stake_weights := zip_with N.mul weights (lr_voting_powers lr) in
  chosen_index ← choose_index sha3_256_of stake_weights (election_state lr root_hash round);
  proposer ← expect (proposers !! chosen_index);
  Ok (proposer, ratio).
End election.

(** The loop over the fetched epochs, from the latest back; [is_last] marks the first pass. *)
Fixpoint extract_loop (is_last : bool) (states : list (EpochState * N)) (epoch : N)
    (proposers : list Author) (needed_rounds num_rounds : N) (result : gmap N (list Author))
  : outcome anyhow (gmap N (list Author)) :=
  match states with
  | [] => Ok result
  | (next_epoch_state, cur_epoch_rounds) :: states =>
      let next_epoch_proposers := get_ordered_account_addresses (es_verifier next_epoch_state) in
      _ ← (if is_last then
             _ ← ensure (epoch =? es_epoch next_epoch_state)
                   (fmt "fetched epoch_ending ledger_infos are for a wrong epoch {} vs {}"
                      [epoch; es_epoch next_epoch_state]);
             ensure (bool_decide (proposers = next_epoch_proposers))
               (fmt "proposers from state and fetched epoch_ending ledger_infos are missaligned" [])
           else Ok tt);
      let result := <[es_epoch next_epoch_state := next_epoch_proposers]> result in
      if needed_rounds <? num_rounds then Ok result
      else
        num_rounds ← u64_add num_rounds cur_epoch_rounds;
        extract_loop false states epoch proposers needed_rounds num_rounds result
  end.
Definition extract_epoch_to_proposers_impl (states : list (EpochState * N)) (epoch : N)
    (proposers : list Author) (needed_rounds : N) : outcome anyhow (gmap N (list Author)) :=
  _ ← rassert (negb (lenN states =? 0));
  result ← extract_loop true (rev states) epoch proposers needed_rounds 0 ∅;
  _ ← ensure (bool_decide (is_Some (result !! epoch))) (fmt "Current epoch ({}) not in fetched map" [epoch]);
  Ok result.

Fixpoint epoch_states_and_rounds (infos : list LedgerInfoWithSignatures)
  : outcome anyhow (list (EpochState * N)) :=
  match infos with
  | [] => Ok []
  | info :: infos =>
      next_epoch_state ← ok_or (li_next_epoch_state (liws_ledger_info info)) (fmt "no cur_epoch_state" []);
      rest ← epoch_states_and_rounds infos;
      Ok ((next_epoch_state, li_round (liws_ledger_info info)) :: rest)
  end.
Definition extract_epoch_to_proposers (proof : EpochChangeProof) (epoch : N) (proposers : list Author)
    (needed_rounds : N) : outcome anyhow (gmap N (list Author)) :=
  states ← epoch_states_and_rounds (ecp_ledger_info_with_sigs proof);
  extract_epoch_to_proposers_impl states epoch proposers needed_rounds.

(** ** Lemmas on counting *)

Definition tally (l : list Author) (a : Author) : N := lenN (filter (λ x, x = a) l).

Lemma tally_cons x l a : tally (x :: l) a = (if bool_decide (x = a) then 1 else 0) + tally l a.
Proof.
  unfold tally, lenN. rewrite filter_cons. case_decide; [rewrite bool_decide_true by done|
    rewrite bool_decide_false by done]; cbn [length]; lia.
Qed.
Lemma tally_le l a : tally l a ≤ lenN l.
Proof. unfold tally, lenN. pose proof (length_filter (λ x, x = a) l). lia. Qed.

Definition map_total (m : gmap Author N) : N := sum_list_N (map_to_list m).*2.

Lemma map_total_insert m a n : map_total (<[a := n]> m) + default 0 (m !! a) = map_total m + n.
Proof.
  unfold map_total. destruct (m !! a) as [k|] eqn:E; cbn [default].
  - rewrite <-(insert_delete_id m a k E) at 2. rewrite <-(insert_delete_eq m).
    rewrite (sum_list_N_perm _ ((a, n) :: map_to_list (delete a m)).*2)
      by (rewrite map_to_list_insert by apply lookup_delete_eq; done).
    rewrite (sum_list_N_perm (map_to_list (<[a := k]> (delete a m))).*2 ((a, k) :: map_to_list (delete a m)).*2)
      by (rewrite map_to_list_insert by apply lookup_delete_eq; done).
    rewrite !fmap_cons, !sum_list_N_cons. cbn. lia.
  - rewrite (sum_list_N_perm _ ((a, n) :: map_to_list m).*2)
      by (rewrite map_to_list_insert by done; done).
    rewrite fmap_cons, sum_list_N_cons. cbn. lia.
Qed.

Lemma count_authors_spec {E} l : ∀ m,
  (∀ a, default 0 (m !! a) + tally l a < 2 ^ 32) →
  ∃ m', count_authors (E := E) l m = Ok m' ∧
    (∀ a, default 0 (m' !! a) = default 0 (m !! a) + tally l a) ∧
    map_total m' = map_total m + lenN l.
Proof.
  induction l as [|x l IH]; intros m Hm.
  { exists m. split_and!; [done| |]; intros; unfold tally, lenN; cbn; lia. }
  cbn [count_authors]. unfold u32_add. pose proof (Hm x) as Hx.
  rewrite tally_cons, bool_decide_true in Hx by done.
  rewrite (proj2 (N.ltb_lt _ _)) by lia. run_ok.
  assert (∀ a, default 0 (<[x := default 0 (m !! x) + 1]> m !! a) + tally l a =
    default 0 (m !! a) + tally (x :: l) a) as Hins.
  { intros a. rewrite tally_cons. case_bool_decide as Ha.
    - subst a. rewrite lookup_insert_eq. cbn. lia.
    - rewrite lookup_insert_ne by done. lia. }
  destruct (IH (<[x := default 0 (m !! x) + 1]> m)) as (m' & Hrun & Hval & Htot).
  { intros a. rewrite Hins. apply Hm. }
  exists m'. split; [done|]. split.
  - intros a. rewrite Hval. apply Hins.
  - rewrite Htot. pose proof (map_total_insert m x (default 0 (m !! x) + 1)). unfold lenN. cbn [length]. lia.
Qed.

Lemma count_authors_app {E} l k m :
  count_authors (E := E) (l ++ k) m = (m' ← count_authors l m; count_authors k m').
Proof.
  revert m. induction l as [|x l IH]; intros m; [done|]. cbn [app count_authors].
  unfold u32_add. case_match; run_ok; [apply IH|done].
Qed.

Lemma fold_events_flat {E} authors_of (f : NewBlockEvent → list Author) events : ∀ m,
  (∀ meta, meta ∈ events → authors_of meta = Ok (f meta)) →
  fold_events (E := E) authors_of events m = count_authors (mjoin (f <$> events)) m.
Proof.
  induction events as [|meta events IH]; intros m Hf; [done|].
  cbn [fold_events]. rewrite Hf by (by left). run_ok. rewrite fmap_cons. cbn [mjoin list_join].
  rewrite count_authors_app. destruct (count_authors (f meta) m); run_ok; [|done..].
  apply IH. intros; apply Hf; by right.
Qed.

(** From no counts at all. *)
Lemma count_events {E} authors_of (f : NewBlockEvent → list Author) events :
  (∀ meta, meta ∈ events → authors_of meta = Ok (f meta)) → lenN (mjoin (f <$> events)) < 2 ^ 32 →
  ∃ m, fold_events (E := E) authors_of events ∅ = Ok m ∧
    (∀ a, default 0 (m !! a) = tally (mjoin (f <$> events)) a) ∧
    map_total m = lenN (mjoin (f <$> events)).
Proof.
  intros Hf Hlen. rewrite (fold_events_flat _ f) by done.
  destruct (count_authors_spec (E := E) (mjoin (f <$> events)) ∅) as (m & Hrun & Hval & Htot).
  { intros a. rewrite lookup_empty. cbn. pose proof (tally_le (mjoin (f <$> events)) a). lia. }
  exists m. split; [done|]. split.
  - intros a. rewrite Hval, lookup_empty. done.
  - rewrite Htot. done.
Qed.

Lemma u32_sum_Ok {E} l : ∀ acc, acc + sum_list_N l < 2 ^ 32 → u32_sum (E := E) acc l = Ok (acc + sum_list_N l).
Proof.
  induction l as [|n l IH]; intros acc Hs; [cbn; f_equal; lia|].
  rewrite sum_list_N_cons in *. cbn [u32_sum]. unfold u32_add.
  rewrite (proj2 (N.ltb_lt _ _)) by lia. run_ok. rewrite IH by lia. f_equal. lia.
Qed.

(** ** Specification of the weights *)

Section weights.
Context (h : ProposerAndVoterHeuristic) (cands : gmap N (list Author)) (history : list NewBlockEvent).

Definition stale_end : bool := agg_reputation_window_from_stale_end (h_aggregation h).

(** The newest [size] events, or the oldest when the window counts from the stale end,
    of the epochs whose candidates are known. *)
Definition window (size : N) : list NewBlockEvent :=
  filter (λ meta, is_Some (cands !! nbe_epoch meta))
    (if stale_end then drop (length history - N.to_nat size) history
     else take (N.to_nat size) history).

Definition voters_in (meta : NewBlockEvent) : list Author :=
  match cands !! nbe_epoch meta with
  | Some validators =>
      match bitvec_to_voters validators (mkBitVec (nbe_previous_block_votes_bitvec meta)) with
      | Ok l => l | _ => []
      end
  | None => []
  end.
Definition failed_in (meta : NewBlockEvent) : list Author :=
  match cands !! nbe_epoch meta with
  | Some validators =>
      match indices_to_validators validators (nbe_failed_proposer_indices meta) with
      | Ok l => l | _ => []
      end
  | None => []
  end.

Definition all_votes : list Author := mjoin (voters_in <$> window (agg_voter_window_size (h_aggregation h))).
Definition all_proposals : list Author :=
  nbe_proposer <$> window (agg_proposer_window_size (h_aggregation h)).
Definition all_failed : list Author :=
  mjoin (failed_in <$> window (agg_proposer_window_size (h_aggregation h))).

Definition weight (a : Author) : N :=
  let failed := tally all_failed a in
  let proposals := tally all_proposals a in
  if (proposals + failed) * h_failure_threshold_percent h <? failed * 100 then h_failed_weight h
  else if (0 <? proposals) || (0 <? tally all_votes a) then h_active_weight h
  else h_inactive_weight h.

(** The history starts with its newest event. *)
Definition newest_first : Prop :=
  stale_end = true ∨ ∀ first final, head history = Some first → last history = Some final →
    epoch_round_le (nbe_epoch final) (nbe_round final) (nbe_epoch first) (nbe_round first) = true.

Lemma history_iter_window {E} size :
  newest_first → history_iter (E := E) history cands size stale_end = Ok (window size).
Proof.
  intros Hnew. unfold history_iter, window, lenN. destruct stale_end eqn:Est; run_ok.
  - do 3 f_equal. destruct (N.ltb_spec size (N.of_nat (length history))); lia.
  - destruct history as [|first rest] eqn:Eh; [run_ok; cbn; case_N; by rewrite ?take_nil|]. rewrite <-Eh in *.
    destruct (last history) as [final|] eqn:El; [|by rewrite Eh, last_None in El].
    destruct Hnew as [Htrue|Hnew]; [congruence|].
    rewrite (Hnew first final); [|by rewrite Eh|done]. run_ok. do 2 f_equal.
    destruct (N.ltb_spec size (N.of_nat (length history))); [done|].
    rewrite !take_ge by lia. done.
Qed.

Lemma indices_to_validators_no_panic validators indices :
  indices_to_validators validators indices ≠ Panic.
Proof.
  induction indices as [|i indices IH]; [done|]. cbn.
  destruct (validators !! N.to_nat i); cbn; [|done]. by destruct (indices_to_validators validators indices).
Qed.

Hypothesis Hbits : ∀ meta, meta ∈ history → lenN (nbe_previous_block_votes_bitvec meta) ≤ MAX_BUCKETS.

Lemma window_elem size meta : meta ∈ window size → meta ∈ history ∧ is_Some (cands !! nbe_epoch meta).
Proof.
  unfold window. intros [Hc Hin]%list_elem_of_filter. split; [|done].
  destruct stale_end; apply list_elem_of_lookup in Hin as [i Hi].
  - rewrite lookup_drop in Hi. by eapply list_elem_of_lookup_2.
  - apply lookup_take_Some in Hi as [Hi _]. by eapply list_elem_of_lookup_2.
Qed.

Lemma event_voters_spec {E} size meta :
  meta ∈ window size → event_voters (E := E) cands meta = Ok (voters_in meta).
Proof.
  intros [Hin [validators Hv]]%window_elem. unfold event_voters, voters_in, bv_from_bytes. rewrite Hv. run_ok.
  rewrite (proj2 (N.leb_le _ _)) by auto. run_ok. unfold bitvec_to_voters. by case_match.
Qed.
Lemma event_failed_spec {E} size meta :
  meta ∈ window size → event_failed (E := E) cands meta = Ok (failed_in meta).
Proof.
  intros [Hin [validators Hv]]%window_elem. unfold event_failed, failed_in. rewrite Hv. run_ok.
  pose proof (indices_to_validators_no_panic validators (nbe_failed_proposer_indices meta)).
  by destruct (indices_to_validators _ _).
Qed.

Lemma weights_of_spec {E} votes proposals failed authors :
  (∀ a, default 0 (votes !! a) = tally all_votes a) →
  (∀ a, default 0 (proposals !! a) = tally all_proposals a) →
  (∀ a, default 0 (failed !! a) = tally all_failed a) →
  (lenN all_proposals + lenN all_failed) * N.max 100 (h_failure_threshold_percent h) < 2 ^ 32 →
  weights_of (E := E) h votes proposals failed authors = Ok (weight <$> authors).
Proof.
  intros Hv Hp Hf Hsmall. induction authors as [|a authors IH]; [done|].
  cbn [weights_of]. rewrite Hv, Hp, Hf. rewrite fmap_cons.
  pose proof (tally_le all_proposals a). pose proof (tally_le all_failed a).
  unfold u32_mul, u32_add.
  rewrite (proj2 (N.ltb_lt (tally all_failed a * 100) _)) by nia. run_ok.
  rewrite (proj2 (N.ltb_lt (tally all_proposals a + tally all_failed a) _)) by nia. run_ok.
  rewrite (proj2 (N.ltb_lt ((tally all_proposals a + tally all_failed a) * h_failure_threshold_percent h) _)) by nia.
  run_ok. rewrite IH. done.
Qed.
End weights.

(** C35: The weight of every candidate is a function of its tallies in the windows alone: the
    failed weight when its failed proposals exceed the threshold percentage of its proposals
    and failures, else the active weight when it proposed or voted, else the inactive one;
    as long as the counters fit their [u32]s, nothing panics. *)
Theorem get_weights_correct {E} h epoch cands history authors
    (Hepoch : cands !! epoch = Some authors) (Hnew : newest_first h history)
    (Hbits : ∀ meta, meta ∈ history → lenN (nbe_previous_block_votes_bitvec meta) ≤ MAX_BUCKETS)
    (Hvotes : lenN (all_votes h cands history) < 2 ^ 32)
    (Hsmall : (lenN (all_proposals h cands history) + lenN (all_failed h cands history)) *
       N.max 100 (h_failure_threshold_percent h) < 2 ^ 32) :
  get_weights (E := E) h epoch cands history = Ok (weight h cands history <$> authors).
Proof.
  unfold get_weights. rewrite Hepoch, bool_decide_true by done. run_ok.
  unfold get_aggregated_metrics, count_votes, count_proposals, count_failed_proposals,
    count_votes_custom, count_proposals_custom. fold (stale_end h).
  rewrite !(history_iter_window h cands history) by done. run_ok.
  destruct (count_events (E := E) (event_voters cands) (voters_in cands)
    (window h cands history (agg_voter_window_size (h_aggregation h)))) as (mv & -> & Hmv & _); [|done|].
  { intros meta Hm. by eapply event_voters_spec. }
  assert (∀ l : list NewBlockEvent, mjoin ((λ meta, [nbe_proposer meta]) <$> l) = nbe_proposer <$> l) as Hsingle.
  { intros l. induction l as [|x l IHl]; [done|]. rewrite !fmap_cons. cbn [mjoin list_join app]. f_equal. exact IHl. }
  run_ok. destruct (count_events (E := E) (λ meta, Ok [nbe_proposer meta]) (λ meta, [nbe_proposer meta])
    (window h cands history (agg_proposer_window_size (h_aggregation h)))) as (mp & -> & Hmp & Htp); [done| |].
  { rewrite Hsingle. fold (all_proposals h cands history). nia. }
  rewrite Hsingle in Hmp, Htp. fold (all_proposals h cands history) in Hmp, Htp. run_ok.
  destruct (count_events (E := E) (event_failed cands) (failed_in cands)
    (window h cands history (agg_proposer_window_size (h_aggregation h)))) as (mf & -> & Hmf & Htf).
  { intros meta Hm. by eapply event_failed_spec. }
  { fold (all_failed h cands history). nia. }
  fold (all_failed h cands history) in Hmf, Htf. run_ok. unfold map_total in Htp, Htf.
  rewrite u32_sum_Ok by nia. run_ok. rewrite u32_sum_Ok by nia. run_ok.
  by apply weights_of_spec.
Qed.

(** One candidate of five blocks: it proposed twice and failed once, another only voted. *)
Definition sample_heuristic : ProposerAndVoterHeuristic := mkHeuristic 100 10 1 30 (mkAggregation 5 5 false).
Definition sample_candidates : gmap N (list Author) := {[1 := [7; 8; 9]]}.
Definition sample_history : list NewBlockEvent :=
  [mkNewBlockEvent 0 1 6 6 [64] 7 [] 0; mkNewBlockEvent 0 1 5 5 [192] 7 [0] 0].

Lemma get_weights_correct_witness :
  get_weights (E := unit) sample_heuristic 1 sample_candidates sample_history = Ok [1; 100; 10].
Proof.
  rewrite (get_weights_correct sample_heuristic 1 sample_candidates sample_history [7; 8; 9]).
  - vm_compute. reflexivity.
  - reflexivity.
  - right. intros first final [= <-] [= <-]. reflexivity.
  - intros meta Hm. repeat (apply elem_of_cons in Hm as [->|Hm]; [vm_compute; discriminate|]).
    by apply not_elem_of_nil in Hm.
  - vm_compute. reflexivity.
  - vm_compute. reflexivity.
Defined.

(** ** The leader *)

Lemma zip_with_lookup_pos (weights powers : list N) i :
  sum_list_N (take i (zip_with N.mul weights powers)) <
    sum_list_N (take (S i) (zip_with N.mul weights powers)) →
  ∃ w p, weights !! i = Some w ∧ powers !! i = Some p ∧ 0 < w ∧ 0 < p.
Proof.
  intros Hlt. destruct (zip_with N.mul weights powers !! i) as [x|] eqn:Ex.
  - rewrite (take_S_r _ _ _ Ex), sum_list_N_app in Hlt. cbn in Hlt.
    apply lookup_zip_with_Some in Ex as (w & p & -> & Hw & Hp). exists w, p. split_and!; try done; nia.
  - apply lookup_ge_None in Ex. rewrite !take_ge in Hlt by lia. lia.
Qed.

Section elected.
Context {Ratio : Type} (sha3_256_of : list N → list N) (hash_bytes : HashValue → list N).
Context (get_block_metadata : N → Round → list NewBlockEvent * HashValue).
Context (chain_health : ∀ E, list NewBlockEvent → Round → outcome E Ratio).

(** The leader of a round is a proposer of the epoch with positive voting power and a
    positive reputation weight, picked by the hash of the epoch, the round and, when
    configured, the root hash, in proportion to weight times voting power. *)
Theorem leader_reputation_elects {E} lr round a ratio
    (Helect : get_valid_proposer_and_ratio (E := E) sha3_256_of hash_bytes get_block_metadata
       chain_health lr round = Ok (a, ratio)) :
  let '(history, root_hash) := get_block_metadata (lr_epoch lr) (round - lr_exclude_round lr) in
  ∃ proposers weights i w p,
    get_weights (E := E) (lr_heuristic lr) (lr_epoch lr) (lr_epoch_to_proposers lr) history = Ok weights ∧
    lr_epoch_to_proposers lr !! lr_epoch lr = Some proposers ∧ proposers !! i = Some a ∧
    weights !! i = Some w ∧ lr_voting_powers lr !! i = Some p ∧ 0 < w ∧ 0 < p ∧
    let stakes := zip_with N.mul weights (lr_voting_powers lr) in
    let c := le_number (take 16 (sha3_256_of (election_state hash_bytes lr root_hash round)))
               mod sum_list_N stakes in
    sum_list_N (take i stakes) ≤ c < sum_list_N (take (S i) stakes).
Proof.
  unfold get_valid_proposer_and_ratio in Helect.
  destruct (get_block_metadata (lr_epoch lr) (round - lr_exclude_round lr)) as [history root_hash].
  apply bind_Ok in Helect as (rt & _ & Helect). apply bind_Ok in Helect as (weights & Hw & Helect).
  apply bind_Ok in Helect as (proposers & Hp & Helect). apply expect_Ok in Hp.
  rewrite !unit_bind in Helect. destruct Helect as (_ & _ & Helect).
  apply bind_Ok in Helect as (i & Hi & Helect). apply bind_Ok in Helect as (a' & Ha & [= -> ->]).
  apply expect_Ok in Ha.
  pose proof (choose_index_spec (E := E) sha3_256_of (zip_with N.mul weights (lr_voting_powers lr))
    (election_state hash_bytes lr root_hash round)) as Hc. cbv zeta in Hc. rewrite Hi in Hc.
  destruct Hc as (_ & _ & Hlo & Hhi).
  destruct (zip_with_lookup_pos weights (lr_voting_powers lr) i) as (w & p & ? & ? & ? & ?); [lia|].
  by exists proposers, weights, i, w, p.
Qed.
End elected.

(** Two candidates of equal power, the first with a better reputation. *)
Definition sample_leader : LeaderReputation :=
  mkLeaderReputation 1 sample_candidates [5; 5; 0] sample_heuristic 10 false.

Lemma leader_reputation_elects_witness :
  let metadata := λ _ _ : N, (sample_history, 0) in
  let '(history, root_hash) := metadata 1 (12 - 10) in
  ∃ proposers weights i w p,
    get_weights (E := unit) sample_heuristic 1 sample_candidates history = Ok weights ∧
    sample_candidates !! 1 = Some proposers ∧ proposers !! i = Some 8 ∧
    weights !! i = Some w ∧ [5; 5; 0] !! i = Some p ∧ 0 < w ∧ 0 < p ∧
    let stakes := zip_with N.mul weights [5; 5; 0] in
    let c := le_number (take 16 ((λ l, l) (election_state (λ _, []) sample_leader root_hash 12)))
               mod sum_list_N stakes in
    sum_list_N (take i stakes) ≤ c < sum_list_N (take (S i) stakes).
Proof.
  cbv zeta. apply (leader_reputation_elects (E := unit) (λ l, l) (λ _, []) (λ _ _, (sample_history, 0))
    (λ _ _ _, Ok tt) sample_leader 12 8 tt).
  vm_compute. reflexivity.
Defined.

(** ** The candidates of earlier epochs *)

Lemma extract_loop_keeps states epoch proposers needed : ∀ is_last num result m,
  extract_loop is_last states epoch proposers needed num result = Ok m →
  (∀ s n, (s, n) ∈ states → epoch = es_epoch s → is_last = false → False) →
  (is_last = false → result !! epoch = Some proposers) → states ≠ [] ∨ is_last = false →
  (∀ s n rest, is_last = true → states = (s, n) :: rest →
     ∀ s' n', (s', n') ∈ rest → epoch ≠ es_epoch s') →
  m !! epoch = Some proposers.
Proof.
  induction states as [|[s n] states IH]; intros is_last num result m Hrun Hother Hres Hne Hrest.
  { cbn in Hrun. simplify_eq. destruct Hne; [done|auto]. }
  cbn [extract_loop] in Hrun. rewrite unit_bind in Hrun. destruct Hrun as [Hcheck Hrun].
  set (result' := <[_ := _]> result) in *.
  assert (result' !! epoch = Some proposers) as Hres'.
  { unfold result'. destruct is_last.
    - rewrite ensure_bind, N.eqb_eq, ensure_Ok, bool_decide_eq_true in Hcheck.
      destruct Hcheck as [-> ->]. by rewrite lookup_insert_eq.
    - rewrite lookup_insert_ne; [auto|]. intros E. eapply (Hother s n); [by left|done|done]. }
  destruct (needed <? num); [by simplify_eq|]. apply bind_Ok in Hrun as (num' & _ & Hrun).
  eapply IH; [done| |done|by right|done].
  intros s' n' Hin' He _. destruct is_last.
  - by eapply (Hrest s n states eq_refl eq_refl s' n').
  - eapply (Hother s' n'); [by right|done|done].
Qed.

(** When the fetched epochs are distinct, the extracted map lists the current proposers
    for the current epoch, so that [LeaderReputation::new] accepts it for their powers. *)
Theorem extract_epoch_to_proposers_correct states epoch proposers needed m
    (Hrun : extract_epoch_to_proposers_impl states epoch proposers needed = Ok m)
    (Hdistinct : NoDup ((λ x, es_epoch x.1) <$> states)) :
  m !! epoch = Some proposers ∧
  ∀ powers h exclude use_root, length powers = length proposers →
    leader_reputation_new (E := unit) epoch m powers h exclude use_root =
      Ok (mkLeaderReputation epoch m powers h exclude use_root).
Proof.
  unfold extract_epoch_to_proposers_impl in Hrun. rewrite unit_bind in Hrun. destruct Hrun as [Hne Hrun].
  apply rassert_Ok, negb_true_iff, N.eqb_neq in Hne.
  apply bind_Ok in Hrun as (m' & Hloop & Hrun). rewrite ensure_bind in Hrun. destruct Hrun as [_ [= ->]].
  assert (m !! epoch = Some proposers) as Hm; [|split; [done|]].
  - assert (NoDup ((λ x, es_epoch x.1) <$> rev states)) as Hnd.
    { by rewrite <-(Permutation_rev states). }
    destruct (rev states) as [|[s n] rest] eqn:Erev.
    { exfalso. apply Hne. unfold lenN. rewrite <-length_rev, Erev. done. }
    pose proof Hloop as Hloop'. cbn [extract_loop] in Hloop'. rewrite unit_bind, ensure_bind, N.eqb_eq in Hloop'.
    destruct Hloop' as [[He _] _].
    eapply extract_loop_keeps; [done|done|done|by left|].
    intros s1 n1 rest1 _ [= <- <- <-] s' n' Hin Hs'. rewrite fmap_cons in Hnd. apply NoDup_cons in Hnd as [Hnd _].
    apply Hnd. apply list_elem_of_fmap. exists (s', n'). split; [|done]. cbn in *. congruence.
  - intros powers h exclude use_root Hlen. unfold leader_reputation_new. rewrite Hm. run_ok.
    unfold lenN. rewrite Hlen, N.eqb_refl. done.
Qed.

Lemma extract_epoch_to_proposers_correct_witness :
  let states := [(mkEpochState 1 sample_verifier, 20); (mkEpochState 2 sample_verifier, 30)] in
  let m := <[1 := [1; 2; 3; 4]]> {[2 := [1; 2; 3; 4]]} in
  m !! 2 = Some [1; 2; 3; 4] ∧
  ∀ powers h exclude use_root, length powers = length [1; 2; 3; 4] →
    leader_reputation_new (E := unit) 2 m powers h exclude use_root =
      Ok (mkLeaderReputation 2 m powers h exclude use_root).
Proof.
  intros states m. apply (extract_epoch_to_proposers_correct states 2 [1; 2; 3; 4] 40 m).
  - vm_compute. reflexivity.
  - repeat constructor; set_solver.
Defined.
