(* ===== verification/Recovery.v ===== *)
(** * Consensus storage and recovery (consensus/src/consensusdb,
    consensus/src/persistent_liveness_storage.rs)

    The database consensus writes blocks, certificates and its last vote to, the proxy the
    block store writes through, and the recovery of the block tree from it after a restart. *)
From S2P Require Import Prelude Crypto Accumulator ValidatorVerifier LedgerInfo ConsensusTypes.
Local Open Scope N_scope.

(** ** The database

    Four tables; [db_faults] says for each call to come whether it fails, and how: a failing
    call writes nothing (a schema batch is written atomically). *)
Record ConsensusDB (Bytes : Type) := mkConsensusDB {
  db_last_vote : option Bytes;
  db_highest_2chain_timeout_cert : option Bytes;
  db_blocks : gmap HashValue Block;
  db_quorum_certs : gmap HashValue QuorumCert;
  db_faults : list (option anyhow);
}.
Arguments mkConsensusDB {Bytes} _ _ _ _ _.
Arguments db_last_vote {Bytes} _.
Arguments db_highest_2chain_timeout_cert {Bytes} _.
Arguments db_blocks {Bytes} _.
Arguments db_quorum_certs {Bytes} _.
Arguments db_faults {Bytes} _.

Inductive batch_entry (Bytes : Type) :=
| PutLastVote (bytes : Bytes)
| DeleteLastVote
| PutTimeoutCert (bytes : Bytes)
| DeleteTimeoutCert
| PutBlock (id : HashValue) (block : Block)
| DeleteBlock (id : HashValue)
| PutQC (id : HashValue) (qc : QuorumCert)
| DeleteQC (id : HashValue).
Arguments PutLastVote {Bytes} _.
Arguments DeleteLastVote {Bytes}.
Arguments PutTimeoutCert {Bytes} _.
Arguments DeleteTimeoutCert {Bytes}.
Arguments PutBlock {Bytes} _ _.
Arguments DeleteBlock {Bytes} _.
Arguments PutQC {Bytes} _ _.
Arguments DeleteQC {Bytes} _.

Section db.
Context {Bytes : Type}.
Implicit Types (db : ConsensusDB Bytes).

Definition apply_entry db (e : batch_entry Bytes) : ConsensusDB Bytes :=
  let '(mkConsensusDB vote tc blocks qcs faults) := db in
  match e with
  | PutLastVote bytes => mkConsensusDB (Some bytes) tc blocks qcs faults
  | DeleteLastVote => mkConsensusDB None tc blocks qcs faults
  | PutTimeoutCert bytes => mkConsensusDB vote (Some bytes) blocks qcs faults
  | DeleteTimeoutCert => mkConsensusDB vote None blocks qcs faults
  | PutBlock id block => mkConsensusDB vote tc (<[id := block]> blocks) qcs faults
  | DeleteBlock id => mkConsensusDB vote tc (delete id blocks) qcs faults
  | PutQC id qc => mkConsensusDB vote tc blocks (<[id := qc]> qcs) faults
  | DeleteQC id => mkConsensusDB vote tc blocks (delete id qcs) faults
  end.
Definition apply_batch db (batch : list (batch_entry Bytes)) : ConsensusDB Bytes :=
  foldl apply_entry db batch.

(** The next call to the database. *)
Definition db_call : M (ConsensusDB Bytes) anyhow unit := λ db,
  let rest := mkConsensusDB (db_last_vote db) (db_highest_2chain_timeout_cert db) (db_blocks db)
                (db_quorum_certs db) (tail (db_faults db)) in
  match db_faults db with
  | Some e :: _ => (Err e, rest)
  | _ => (Ok tt, rest)
  end.
Definition db_commit (batch : list (batch_entry Bytes)) : M (ConsensusDB Bytes) anyhow unit :=
  _ ← db_call; db ← mget; mput (apply_batch db batch).

(** The maps are read into vectors in some order. *)
Definition get_data : M (ConsensusDB Bytes) anyhow
    (option Bytes * option Bytes * list Block * list QuorumCert) :=
  _ ← db_call; db ← mget;
  mret (db_last_vote db, db_highest_2chain_timeout_cert db,
        (map_to_list (db_blocks db)).*2, (map_to_list (db_quorum_certs db)).*2).

Definition save_highest_2chain_timeout_certificate (tc : Bytes) : M (ConsensusDB Bytes) anyhow unit :=
  db_commit [PutTimeoutCert tc].
Definition db_save_vote (last_vote : Bytes) : M (ConsensusDB Bytes) anyhow unit :=
  db_commit [PutLastVote last_vote].
Definition save_blocks_and_quorum_certificates (block_data : list Block) (qc_data : list QuorumCert)
  : M (ConsensusDB Bytes) anyhow unit :=
  match block_data, qc_data with
  | [], [] => mlift (Err (fmt "Consensus block and qc data is empty!" []))
  | _, _ =>
      db_commit (((λ block, PutBlock (block_id block) block) <$> block_data) ++
                 ((λ qc, PutQC (bi_id (certified_block qc)) qc) <$> qc_data))
  end.
Definition delete_blocks_and_quorum_certificates (block_ids : list HashValue)
  : M (ConsensusDB Bytes) anyhow unit :=
  match block_ids with
  | [] => mlift (Err (fmt "Consensus block ids is empty!" []))
  | _ => db_commit (block_ids ≫= (λ hash, [DeleteBlock hash; DeleteQC hash]))
  end.
Definition delete_highest_2chain_timeout_certificate : M (ConsensusDB Bytes) anyhow unit :=
  db_commit [DeleteTimeoutCert].
Definition delete_last_vote_msg : M (ConsensusDB Bytes) anyhow unit := db_commit [DeleteLastVote].
End db.

(** ** Recovery data *)

Record RootInfo := mkRootInfo {
  root_block : Block;
  root_quorum_cert : QuorumCert;
  root_ordered_cert : QuorumCert;
  root_commit_cert : QuorumCert;
}.

Record LedgerRecoveryData := mkLedgerRecoveryData { storage_ledger : LedgerInfoWithSignatures }.

Definition committed_round (l : LedgerRecoveryData) : Round :=
  bi_round (liws_commit_info (storage_ledger l)).

Record RootMetadata := mkRootMetadata {
  accu_hash : HashValue;
  frozen_root_hashes : list HashValue;
  rm_num_leaves : Version;
}.
Definition root_metadata_version (m : RootMetadata) : Version := N.max (rm_num_leaves m) 1 - 1.
Definition root_metadata_from (summary : TransactionAccumulatorSummary) : RootMetadata :=
  mkRootMetadata (root_hash summary) (frozen_subtree_roots summary) (num_leaves summary).

Record RecoveryData := mkRecoveryData {
  rd_last_vote : option Vote;
  rd_root : RootInfo;
  rd_root_metadata : RootMetadata;
  rd_blocks : list Block;
  rd_quorum_certs : list QuorumCert;
  rd_blocks_to_prune : option (list HashValue);
  rd_highest_2chain_timeout_certificate : option TwoChainTimeoutCertificate;
}.

(** epoch_manager.rs *)
Inductive LivenessStorageData :=
| FullRecoveryData (data : RecoveryData)
| PartialRecoveryData (data : LedgerRecoveryData).

(** [sort_by_key(|b| (b.epoch(), b.round()))], a stable sort. *)
Definition block_key_le (a b : Block) : bool :=
  (block_epoch a <? block_epoch b)
  || ((block_epoch a =? block_epoch b) && (block_round a <=? block_round b)).
Fixpoint insert_sorted (b : Block) (blocks : list Block) : list Block :=
  match blocks with
  | [] => [b]
  | c :: blocks' => if block_key_le b c then b :: blocks else c :: insert_sorted b blocks'
  end.
Definition sort_blocks (blocks : list Block) : list Block := foldr insert_sorted [] blocks.

Section recovery.
Context `{!ArxHashes}.

(** The root the ledger points at: a virtual genesis block after an epoch change. *)
Definition ledger_root (l : LedgerRecoveryData) (blocks : list Block) (quorum_certs : list QuorumCert)
  : outcome anyhow (HashValue * LedgerInfoWithSignatures * list Block * list QuorumCert) :=
  let li := liws_ledger_info (storage_ledger l) in
  if ends_epoch li then
    genesis ← block_make_genesis_from_ledger_info li;
    genesis_qc ← quorum_cert_for_genesis_from_ledger_info li (block_id genesis);
    Ok (block_id genesis, qc_signed_ledger_info genesis_qc, blocks ++ [genesis],
        quorum_certs ++ [genesis_qc])
  else Ok (bi_id (li_commit_info li), storage_ledger l, blocks, quorum_certs).

Definition find_root (l : LedgerRecoveryData) (blocks : list Block) (quorum_certs : list QuorumCert)
  : outcome anyhow (RootInfo * list Block * list QuorumCert) :=
  '(root_id, latest_ledger_info_sig, blocks, quorum_certs) ← ledger_root l blocks quorum_certs;
  let blocks := sort_blocks blocks in
  '(root_idx, root_block) ←
    ok_or (list_find (λ block, block_id block = root_id) blocks) (fmt "unable to find root: {}" [root_id]);
  let blocks := delete root_idx blocks in
  '(_, root_quorum_cert) ←
    ok_or (list_find (λ qc, bi_id (certified_block qc) = block_id root_block) quorum_certs)
      (fmt "No QC found for root: {}" [root_id]);
  '(_, root_ordered_cert) ←
    ok_or (list_find (λ qc, bi_id (qc_commit_info qc) = block_id root_block) quorum_certs)
      (fmt "No LI found for root: {}" [root_id]);
  root_commit_cert ←
    match create_merged_with_executed_state root_ordered_cert latest_ledger_info_sig with
    | Ok qc => Ok qc
    | _ => Panic
    end;
  Ok (mkRootInfo root_block root_quorum_cert root_ordered_cert root_commit_cert, blocks, quorum_certs).

(** The [retain] over the blocks: those whose parent is in the tree so far. *)
Fixpoint retain_blocks (blocks : list Block) (tree to_remove : gset HashValue)
  : list Block * gset HashValue * gset HashValue :=
  match blocks with
  | [] => ([], tree, to_remove)
  | block :: blocks =>
      if bool_decide (block_parent_id block ∈ tree) then
        let '(kept, tree, to_remove) := retain_blocks blocks ({[block_id block]} ∪ tree) to_remove in
        (block :: kept, tree, to_remove)
      else retain_blocks blocks tree ({[block_id block]} ∪ to_remove)
  end.
Definition recovery_find_blocks_to_prune (root_id : HashValue) (blocks : list Block)
    (quorum_certs : list QuorumCert) : list HashValue * list Block * list QuorumCert :=
  let '(blocks, tree, to_remove) := retain_blocks blocks {[root_id]} ∅ in
  let kept := filter (λ qc, bi_id (certified_block qc) ∈ tree) quorum_certs in
  let dropped := filter (λ qc, bi_id (certified_block qc) ∉ tree) quorum_certs in
  (elements (to_remove ∪ list_to_set ((λ qc, bi_id (certified_block qc)) <$> dropped)), blocks, kept).

Definition recovery_data_new (last_vote : option Vote) (ledger_recovery_data : LedgerRecoveryData)
    (blocks : list Block) (root_metadata : RootMetadata) (quorum_certs : list QuorumCert)
    (highest_2chain_timeout_cert : option TwoChainTimeoutCertificate) : outcome anyhow RecoveryData :=
  '(root, blocks, quorum_certs) ←
    map_err (with_context "Root: {} Blocks in db: {} Quorum Certs in db: {}")
      (find_root ledger_recovery_data blocks quorum_certs);
  let '(blocks_to_prune, blocks, quorum_certs) :=
    recovery_find_blocks_to_prune (block_id (root_block root)) blocks quorum_certs in
  let epoch := block_epoch (root_block root) in
  Ok (mkRecoveryData
        (match last_vote with
         | Some v => if vote_epoch v =? epoch then Some v else None
         | None => None
         end)
        root root_metadata blocks quorum_certs (Some blocks_to_prune)
        (match highest_2chain_timeout_cert with
         | Some tc => if tc_epoch tc =? epoch then Some tc else None
         | None => None
         end)).

Definition take_blocks_to_prune {E} (data : RecoveryData) : outcome E (list HashValue * RecoveryData) :=
  ids ← expect (rd_blocks_to_prune data);
  Ok (ids, mkRecoveryData (rd_last_vote data) (rd_root data) (rd_root_metadata data) (rd_blocks data)
             (rd_quorum_certs data) None (rd_highest_2chain_timeout_certificate data)).
End recovery.

(** ** The storage behind the block store *)

(** What consensus reads from the ledger database. *)
Record DbReader := mkDbReader {
  get_latest_ledger_info : outcome anyhow LedgerInfoWithSignatures;
  get_accumulator_summary : Version → outcome anyhow TransactionAccumulatorSummary;
}.

(** The trait the block store is written against; its methods return errors, and do not panic
    when they write. *)
Class PersistentLivenessStorage (St : Type) := {
  save_tree : list Block → list QuorumCert → M St anyhow unit;
  prune_tree : list HashValue → M St anyhow unit;
  save_vote : Vote → M St anyhow unit;
  save_highest_2chain_timeout_cert : TwoChainTimeoutCertificate → M St anyhow unit;
  recover_from_ledger : M St Infallible LedgerRecoveryData;
  start : M St Infallible LivenessStorageData;
  save_tree_returns blocks qcs st : (save_tree blocks qcs st).1 ≠ Panic;
  prune_tree_returns ids st : (prune_tree ids st).1 ≠ Panic;
}.

Record StorageWriteProxy (Bytes : Type) := mkStorageWriteProxy {
  swp_db : ConsensusDB Bytes;
  swp_arx_db : DbReader;
}.
Arguments mkStorageWriteProxy {Bytes} _ _.
Arguments swp_db {Bytes} _.
Arguments swp_arx_db {Bytes} _.

Section proxy.
Context {Bytes : Type} `{!ArxHashes} `{!Bcs Vote Bytes} `{!Bcs TwoChainTimeoutCertificate Bytes}.
Local Abbreviation proxy := (StorageWriteProxy Bytes) (only parsing).

(** A call on the database of the proxy. *)
Definition on_db {E A} (m : M (ConsensusDB Bytes) E A) : M proxy E A :=
  zoom swp_db (λ db p, mkStorageWriteProxy db (swp_arx_db p)) m.

Definition swp_save_tree (blocks : list Block) (quorum_certs : list QuorumCert) : M proxy anyhow unit :=
  on_db (save_blocks_and_quorum_certificates blocks quorum_certs).
Definition swp_prune_tree (block_ids : list HashValue) : M proxy anyhow unit :=
  match block_ids with
  | [] => mret tt
  | _ => on_db (delete_blocks_and_quorum_certificates block_ids)
  end.
Definition swp_save_vote (vote : Vote) : M proxy anyhow unit :=
  bytes ← mlift (to_bytes vote); on_db (db_save_vote bytes).
Definition swp_save_highest_2chain_timeout_cert (tc : TwoChainTimeoutCertificate) : M proxy anyhow unit :=
  bytes ← mlift (to_bytes tc); on_db (save_highest_2chain_timeout_certificate bytes).
Definition swp_recover_from_ledger : M proxy Infallible LedgerRecoveryData :=
  p ← mget;
  li ← mexpect (mlift (get_latest_ledger_info (swp_arx_db p)));
  mret (mkLedgerRecoveryData li).

(** [raw.map(|bytes| bcs::from_bytes(&bytes).expect(..))] *)
Definition decode_entry {A} `{!Bcs A Bytes} (raw : option Bytes) : M proxy Infallible (option A) :=
  match raw with
  | Some bytes => a ← mexpect (mlift (from_bytes bytes)); mret (Some a)
  | None => mret None
  end.
(** Deletes an entry that the recovery data does not keep. *)
Definition cleanup {A} (kept : option A) (del : M (ConsensusDB Bytes) anyhow unit)
  : M proxy Infallible unit :=
  match kept with Some _ => mret tt | None => mexpect (on_db del) end.

Definition swp_start : M proxy Infallible LivenessStorageData :=
  '(raw_vote, raw_tc, blocks, quorum_certs) ← mexpect (on_db get_data);
  last_vote ← decode_entry raw_vote;
  highest_2chain_timeout_cert ← decode_entry raw_tc;
  p ← mget;
  latest_ledger_info ← mexpect (mlift (get_latest_ledger_info (swp_arx_db p)));
  accumulator_summary ←
    mexpect (mlift (get_accumulator_summary (swp_arx_db p)
      (li_version (liws_ledger_info latest_ledger_info))));
  let ledger_recovery_data := mkLedgerRecoveryData latest_ledger_info in
  match recovery_data_new last_vote ledger_recovery_data blocks
          (root_metadata_from accumulator_summary) quorum_certs highest_2chain_timeout_cert with
  | Ok initial_data =>
      '(ids, initial_data) ← mlift (take_blocks_to_prune initial_data);
      _ ← mexpect (swp_prune_tree ids);
      _ ← cleanup (rd_last_vote initial_data) delete_last_vote_msg;
      _ ← cleanup (rd_highest_2chain_timeout_certificate initial_data)
            delete_highest_2chain_timeout_certificate;
      mret (FullRecoveryData initial_data)
  | Err _ => mret (PartialRecoveryData ledger_recovery_data)
  | Panic => mlift Panic
  end.
End proxy.

(** ** Facts about the database *)

Section db_facts.
Context {Bytes : Type}.
Implicit Types (db : ConsensusDB Bytes).

Lemma db_call_run db r db' : db_call db = (r, db') →
  (r = Ok tt ∨ ∃ e, r = Err e) ∧ db_last_vote db' = db_last_vote db ∧
  db_highest_2chain_timeout_cert db' = db_highest_2chain_timeout_cert db ∧
  db_blocks db' = db_blocks db ∧ db_quorum_certs db' = db_quorum_certs db.
Proof. unfold db_call. destruct (db_faults db) as [|[e|] fs]; intros [= <- <-]; naive_solver. Qed.

(** A write takes effect as a whole or not at all. *)
Lemma db_commit_run batch db r db' : db_commit batch db = (r, db') →
  ∃ db0, (db_last_vote db0 = db_last_vote db ∧
    db_highest_2chain_timeout_cert db0 = db_highest_2chain_timeout_cert db ∧
    db_blocks db0 = db_blocks db ∧ db_quorum_certs db0 = db_quorum_certs db) ∧
  (r = Ok tt ∧ db' = apply_batch db0 batch ∨ (∃ e, r = Err e) ∧ db' = db0).
Proof.
  unfold db_commit. intros Hrun. destruct (db_call db) as [r0 db0] eqn:E0. exists db0.
  destruct (db_call_run db r0 db0 E0) as [[->|[e ->]] Hsame]; (split; [done|]).
  - rewrite (M_run_bind _ _ tt db db0 E0), mget_bind in Hrun. unfold mput in Hrun. naive_solver.
  - unfold mbind, M_bind in Hrun. rewrite E0 in Hrun. naive_solver.
Qed.

(** The single entries: the last vote and the timeout certificate. *)
Definition same_entries db db' : Prop :=
  db_last_vote db' = db_last_vote db ∧
  db_highest_2chain_timeout_cert db' = db_highest_2chain_timeout_cert db.
Definition tree_entry (e : batch_entry Bytes) : bool :=
  match e with PutBlock _ _ | DeleteBlock _ | PutQC _ _ | DeleteQC _ => true | _ => false end.

Lemma apply_batch_entries batch : ∀ db, Forall tree_entry batch → same_entries db (apply_batch db batch).
Proof.
  induction batch as [|e batch IH]; intros db Hall; [done|]. apply Forall_cons in Hall as [He Hall].
  destruct (IH (apply_entry db e) Hall) as [IH1 IH2]. unfold apply_batch in *. cbn [foldl]. split.
  - rewrite IH1. by destruct db, e.
  - rewrite IH2. by destruct db, e.
Qed.

Lemma apply_batch_blocks blocks : ∀ db,
  db_quorum_certs (apply_batch db ((λ b, PutBlock (block_id b) b) <$> blocks)) = db_quorum_certs db ∧
  (∀ k, db_blocks (apply_batch db ((λ b, PutBlock (block_id b) b) <$> blocks)) !! k =
     match last (filter (λ b, block_id b = k) blocks) with Some b => Some b | None => db_blocks db !! k end).
Proof.
  induction blocks as [|b blocks IH]; intros db; [done|]. cbn [fmap list_fmap apply_batch foldl].
  destruct (IH (apply_entry db (PutBlock (block_id b) b))) as [IHq IHb]. unfold apply_batch in *.
  destruct db as [vote tc bl qcs faults]. cbn in IHq. split; [done|]. intros k. rewrite IHb, filter_cons.
  cbn [apply_entry db_blocks]. case_decide as E.
  - rewrite last_cons, E, lookup_insert_eq. by destruct (last _).
  - by rewrite lookup_insert_ne by done.
Qed.

Lemma apply_batch_certs qcs : ∀ db,
  db_blocks (apply_batch db ((λ q, PutQC (bi_id (certified_block q)) q) <$> qcs)) = db_blocks db ∧
  (∀ k, db_quorum_certs (apply_batch db ((λ q, PutQC (bi_id (certified_block q)) q) <$> qcs)) !! k =
     match last (filter (λ q, bi_id (certified_block q) = k) qcs) with
     | Some q => Some q | None => db_quorum_certs db !! k end).
Proof.
  induction qcs as [|q qcs IH]; intros db; [done|]. cbn [fmap list_fmap apply_batch foldl].
  destruct (IH (apply_entry db (PutQC (bi_id (certified_block q)) q))) as [IHq IHb]. unfold apply_batch in *.
  destruct db as [vote tc bl cs faults]. cbn in IHq. split; [done|]. intros k. rewrite IHb, filter_cons.
  cbn [apply_entry db_quorum_certs]. case_decide as E.
  - rewrite last_cons, E, lookup_insert_eq. by destruct (last _).
  - by rewrite lookup_insert_ne by done.
Qed.

Lemma apply_batch_delete ids : ∀ db k,
  let db' := apply_batch db (ids ≫= (λ hash, [DeleteBlock hash; DeleteQC hash])) in
  db_blocks db' !! k = (if bool_decide (k ∈ ids) then None else db_blocks db !! k) ∧
  db_quorum_certs db' !! k = (if bool_decide (k ∈ ids) then None else db_quorum_certs db !! k).
Proof.
  induction ids as [|i ids IH]; intros db k; [done|]. rewrite bind_cons. cbn [app apply_batch foldl].
  destruct (IH (apply_entry (apply_entry db (DeleteBlock i)) (DeleteQC i)) k) as [IHb IHq].
  unfold apply_batch in *. cbn [foldl]. rewrite IHb, IHq.
  destruct db as [vote tc bl cs faults]. cbn [apply_entry db_blocks db_quorum_certs].
  rewrite !lookup_delete. repeat case_bool_decide; try case_decide; subst; set_solver.
Qed.
End db_facts.

(** ** The proxy implements the trait *)

Section proxy_facts.
Context {Bytes : Type} `{!ArxHashes} `{!Bcs Vote Bytes} `{!Bcs TwoChainTimeoutCertificate Bytes}.
Implicit Types (p : StorageWriteProxy Bytes).

Lemma on_db_run {E A} (m : M (ConsensusDB Bytes) E A) p r p' :
  on_db m p = (r, p') ↔
  ∃ db, m (swp_db p) = (r, db) ∧ p' = mkStorageWriteProxy db (swp_arx_db p).
Proof. unfold on_db, zoom. destruct (m (swp_db p)). naive_solver. Qed.

(** [save_tree] overwrites the entries of its blocks and certificates, or fails and writes
    nothing. *)
Lemma swp_save_tree_run blocks qcs p r p' :
  swp_save_tree blocks qcs p = (r, p') →
  (swp_arx_db p' = swp_arx_db p ∧ same_entries (swp_db p) (swp_db p')) ∧
  ((∃ e, r = Err e) ∧ db_blocks (swp_db p') = db_blocks (swp_db p) ∧
     db_quorum_certs (swp_db p') = db_quorum_certs (swp_db p) ∨
   r = Ok tt ∧
   (∀ k, db_blocks (swp_db p') !! k =
      match last (filter (λ b, block_id b = k) blocks) with
      | Some b => Some b | None => db_blocks (swp_db p) !! k end) ∧
   (∀ k, db_quorum_certs (swp_db p') !! k =
      match last (filter (λ q, bi_id (certified_block q) = k) qcs) with
      | Some q => Some q | None => db_quorum_certs (swp_db p) !! k end)).
Proof.
  unfold swp_save_tree. intros (db & Hrun & ->)%on_db_run. cbn [swp_db swp_arx_db].
  unfold save_blocks_and_quorum_certificates in Hrun.
  set (batch := _ ++ _) in Hrun.
  assert (Forall tree_entry batch) as Hbatch
    by (unfold batch; apply Forall_app; split; apply Forall_fmap, Forall_true; done).
  assert (db_commit batch (swp_db p) = (r, db) ∨
    (∃ e, r = Err e) ∧ db = swp_db p) as [Hc|[? ->]].
  { destruct blocks, qcs; [right; apply mlift_run in Hrun as [<- ->]; split; [by eexists|done]|by left..]. }
  2: { split; [done|by left]. }
  apply db_commit_run in Hc as (db0 & (Hv & Ht & Hb & Hq) & [[-> ->]|[? ->]]);
    [split; [|right]|by split; [|left; split_and!]].
  { split; [done|]. destruct (apply_batch_entries batch db0 Hbatch). split; congruence. }
  split; [done|]. subst batch. destruct (apply_batch_blocks blocks db0) as [H1 H2].
  set (db1 := apply_batch db0 ((λ b, PutBlock (block_id b) b) <$> blocks)) in *.
  assert (apply_batch db0 (((λ b, PutBlock (block_id b) b) <$> blocks) ++
    ((λ q, PutQC (bi_id (certified_block q)) q) <$> qcs)) =
    apply_batch db1 ((λ q, PutQC (bi_id (certified_block q)) q) <$> qcs)) as -> by apply foldl_app.
  destruct (apply_batch_certs qcs db1) as [H3 H4].
  rewrite H3. split; intros k; [by rewrite H2, Hb|by rewrite H4, H1, Hq].
Qed.

Lemma swp_prune_tree_run ids p r p' :
  swp_prune_tree ids p = (r, p') →
  (swp_arx_db p' = swp_arx_db p ∧ same_entries (swp_db p) (swp_db p')) ∧
  ((∃ e, r = Err e) ∧ db_blocks (swp_db p') = db_blocks (swp_db p) ∧
     db_quorum_certs (swp_db p') = db_quorum_certs (swp_db p) ∨
   r = Ok tt ∧
   ∀ k, db_blocks (swp_db p') !! k =
      (if bool_decide (k ∈ ids) then None else db_blocks (swp_db p) !! k) ∧
    db_quorum_certs (swp_db p') !! k =
      (if bool_decide (k ∈ ids) then None else db_quorum_certs (swp_db p) !! k)).
Proof.
  unfold swp_prune_tree. destruct ids as [|i ids].
  { intros [-> ->]%mret_run. split; [done|]. right. split; [done|]. intros k.
    by rewrite !bool_decide_false by apply not_elem_of_nil. }
  intros (db & Hrun & ->)%on_db_run. cbn [swp_db swp_arx_db].
  unfold delete_blocks_and_quorum_certificates in Hrun.
  apply db_commit_run in Hrun as (db0 & (Hv & Ht & Hb & Hq) & [[-> ->]|[? ->]]);
    [split; [|right]|by split; [|left; split_and!]].
  { split; [done|]. edestruct (apply_batch_entries ((i :: ids) ≫= (λ hash, [DeleteBlock hash; DeleteQC hash])) db0);
      [|split; congruence]. apply Forall_bind, Forall_true. intros h. by repeat constructor. }
  split; [done|]. intros k. destruct (apply_batch_delete (i :: ids) db0 k) as [-> ->]. by rewrite Hb, Hq.
Qed.

#[export] Program Instance storage_write_proxy : PersistentLivenessStorage (StorageWriteProxy Bytes) := {|
  save_tree := swp_save_tree;
  prune_tree := swp_prune_tree;
  save_vote := swp_save_vote;
  save_highest_2chain_timeout_cert := swp_save_highest_2chain_timeout_cert;
  recover_from_ledger := swp_recover_from_ledger;
  start := swp_start;
|}.
Next Obligation.
  intros blocks qcs p. destruct (swp_save_tree blocks qcs p) as [r p'] eqn:E.
  apply swp_save_tree_run in E as (_ & [[[e ->] _]|[-> _]]); done.
Qed.
Next Obligation.
  intros ids p. destruct (swp_prune_tree ids p) as [r p'] eqn:E.
  apply swp_prune_tree_run in E as (_ & [[[e ->] _]|[-> _]]); done.
Qed.
End proxy_facts.

(** *** A restart over a database that answers *)

Section restart.
Context {Bytes : Type} `{!ArxHashes} `{!Bcs Vote Bytes} `{!Bcs TwoChainTimeoutCertificate Bytes}.
Implicit Types (p : StorageWriteProxy Bytes).

Lemma db_commit_no_faults batch (db : ConsensusDB Bytes) :
  db_faults db = [] → ∃ db', db_commit batch db = (Ok tt, db') ∧ db_faults db' = [].
Proof.
  intros Hf. unfold db_commit. rewrite (M_run_bind _ _ tt db db), mget_bind.
  2: { unfold db_call. rewrite Hf. destruct db. cbn in *. by rewrite Hf. }
  eexists. split; [done|]. revert db Hf. induction batch as [|e batch IH]; intros db Hf; [done|].
  apply IH. by destruct db, e.
Qed.

Lemma swp_prune_tree_no_faults ids p :
  db_faults (swp_db p) = [] → ∃ p', swp_prune_tree ids p = (Ok tt, p') ∧ db_faults (swp_db p') = [].
Proof.
  intros Hf. destruct ids as [|i ids]; [by exists p|].
  unfold swp_prune_tree, on_db, zoom, delete_blocks_and_quorum_certificates.
  destruct (db_commit_no_faults ((i :: ids) ≫= (λ hash, [DeleteBlock hash; DeleteQC hash])) _ Hf) as (db & -> & Hdb).
  by eexists.
Qed.

Lemma cleanup_no_faults {A} (kept : option A) batch p :
  db_faults (swp_db p) = [] →
  ∃ p', cleanup kept (db_commit batch) p = (Ok tt, p') ∧ db_faults (swp_db p') = [].
Proof.
  intros Hf. destruct kept; [by exists p|]. unfold cleanup, mexpect, on_db, zoom.
  destruct (db_commit_no_faults batch _ Hf) as (db & -> & Hdb). by eexists.
Qed.

Lemma decode_entry_ok {A} `{!Bcs A Bytes} raw p :
  (∀ bs, raw = Some bs → ∃ a : A, to_bytes a = Ok bs) →
  ∃ a : option A, decode_entry raw p = (Ok a, p) ∧ ∀ a', a = Some a' → ∃ bs, raw = Some bs ∧ to_bytes a' = Ok bs.
Proof.
  intros Hraw. destruct raw as [bs|]; [|by exists None].
  destruct (Hraw bs eq_refl) as [a Ha]. exists (Some a). unfold decode_entry, mexpect, mlift, mbind, M_bind.
  rewrite (from_to_bytes a bs Ha). split; [done|]. intros a' [= <-]. by exists bs.
Qed.

Lemma read_no_faults p : db_faults (swp_db p) = [] →
  mexpect (F := Infallible) (on_db get_data) p =
    (Ok (db_last_vote (swp_db p), db_highest_2chain_timeout_cert (swp_db p),
         (map_to_list (db_blocks (swp_db p))).*2, (map_to_list (db_quorum_certs (swp_db p))).*2), p).
Proof.
  unfold mexpect, on_db, zoom, get_data, mbind, M_bind, db_call, mget, mret, M_ret.
  destruct p as [[v0 t0 b0 q0 f0] ?]. cbn. by intros ->.
Qed.

(** [start] reads the tables into [RecoveryData::new]. *)
Lemma swp_start_full p li summary :
  db_faults (swp_db p) = [] →
  (∀ bs, db_last_vote (swp_db p) = Some bs → ∃ v : Vote, to_bytes v = Ok bs) →
  (∀ bs, db_highest_2chain_timeout_cert (swp_db p) = Some bs →
     ∃ c : TwoChainTimeoutCertificate, to_bytes c = Ok bs) →
  get_latest_ledger_info (swp_arx_db p) = Ok li →
  get_accumulator_summary (swp_arx_db p) (li_version (liws_ledger_info li)) = Ok summary →
  ∃ vote tc, ∀ rd,
    recovery_data_new vote (mkLedgerRecoveryData li) (map_to_list (db_blocks (swp_db p))).*2
      (root_metadata_from summary) (map_to_list (db_quorum_certs (swp_db p))).*2 tc = Ok rd →
    ∃ ids rd' p', take_blocks_to_prune (E := Infallible) rd = Ok (ids, rd') ∧
      swp_start p = (Ok (FullRecoveryData rd'), p').
Proof.
  intros Hf Hv Htc Hli Hsum.
  destruct (decode_entry_ok (db_last_vote (swp_db p)) p Hv) as (vote & Evote & _).
  destruct (decode_entry_ok (db_highest_2chain_timeout_cert (swp_db p)) p Htc) as (tc & Etc & _).
  exists vote, tc. intros rd Hrd.
  assert (∃ ids, rd_blocks_to_prune rd = Some ids) as [ids Hids].
  { unfold recovery_data_new in Hrd. inv_ok. destruct a as [[root blocks] qcs].
    destruct (recovery_find_blocks_to_prune _ _ _) as [[ids b'] q']. injection Hrd as <-. by exists ids. }
  unfold take_blocks_to_prune. rewrite Hids. run_ok. eexists ids, _.
  destruct (swp_prune_tree_no_faults ids p Hf) as (p1 & Ep1 & Hf1).
  destruct (cleanup_no_faults (rd_last_vote rd) [DeleteLastVote] p1 Hf1) as (p2 & Ep2 & Hf2).
  destruct (cleanup_no_faults (rd_highest_2chain_timeout_certificate rd) [DeleteTimeoutCert] p2 Hf2) as (p3 & Ep3 & _).
  exists p3. split; [done|]. unfold swp_start.
  rewrite (M_run_bind _ _ _ _ _ (read_no_faults p Hf)).
  rewrite (M_run_bind _ _ _ _ _ Evote), (M_run_bind _ _ _ _ _ Etc), mget_bind.
  erewrite (M_run_bind _ _ li p p) by (unfold mexpect, mlift; by rewrite Hli).
  erewrite (M_run_bind _ _ summary p p) by (unfold mexpect, mlift; by rewrite Hsum).
  rewrite Hrd. unfold take_blocks_to_prune. rewrite Hids. run_ok. rewrite (mlift_bind _ _ _ _ eq_refl).
  erewrite (M_run_bind _ _ tt p p1) by (unfold mexpect; by rewrite Ep1).
  rewrite (M_run_bind _ _ tt p1 p2) by done. rewrite (M_run_bind _ _ tt p2 p3) by done. done.
Qed.
End restart.

(** ** Recovering the tree *)

(** *** The sort *)

Lemma block_key_le_trans a b c : block_key_le a b → block_key_le b c → block_key_le a c.
Proof. unfold block_key_le. repeat case_N; cbn; try done; lia. Qed.
Lemma block_key_le_total a b : block_key_le a b = false → block_key_le b a.
Proof. unfold block_key_le. repeat case_N; cbn; try done; lia. Qed.

Lemma insert_sorted_perm b l : insert_sorted b l ≡ₚ b :: l.
Proof.
  induction l as [|c l IH]; [done|]. cbn. destruct (block_key_le b c); [done|].
  rewrite IH. apply Permutation_swap.
Qed.
Lemma sort_blocks_perm l : sort_blocks l ≡ₚ l.
Proof. induction l as [|b l IH]; [done|]. cbn. by rewrite insert_sorted_perm, IH. Qed.

Lemma insert_sorted_sorted b l :
  StronglySorted block_key_le l → StronglySorted block_key_le (insert_sorted b l).
Proof.
  induction 1 as [|c l Hs IH Hall]; cbn; [repeat constructor|].
  destruct (block_key_le b c) eqn:E.
  - constructor; [by constructor|]. constructor; [by rewrite E|].
    eapply Forall_impl; [done|]. intros d. apply block_key_le_trans. by rewrite E.
  - constructor; [done|]. rewrite insert_sorted_perm. constructor; [|done]. by apply block_key_le_total.
Qed.
Lemma sort_blocks_sorted l : StronglySorted block_key_le (sort_blocks l).
Proof. induction l as [|b l IH]; [constructor|]. by apply insert_sorted_sorted. Qed.

(** *** The blocks that hang on the root *)

Inductive hangs (blocks : list Block) (root : HashValue) : Block → Prop :=
| hangs_child b : b ∈ blocks → block_parent_id b = root → hangs blocks root b
| hangs_step b p : b ∈ blocks → hangs blocks root p → block_parent_id b = block_id p → hangs blocks root b.

Lemma hangs_in blocks root b : hangs blocks root b → b ∈ blocks.
Proof. by destruct 1. Qed.
Lemma hangs_mono blocks blocks' root b : blocks ⊆ blocks' → hangs blocks root b → hangs blocks' root b.
Proof. intros Hsub. induction 1; [apply hangs_child|eapply hangs_step]; eauto. Qed.

(** Parents are older than their children. *)
Definition parents_older (blocks : list Block) : Prop := ∀ p b,
  p ∈ blocks → b ∈ blocks → block_parent_id b = block_id p → block_key_le b p = false.

Section retain.
Context (blocks : list Block) (root : HashValue).
Context (Hsorted : StronglySorted block_key_le blocks) (Holder : parents_older blocks).
Local Abbreviation hang := (hangs blocks root) (only parsing).

(** The ids retained so far. *)
Definition tree_of (l : list Block) (tree : gset HashValue) : Prop :=
  ∀ k, k ∈ tree ↔ k = root ∨ ∃ b, b ∈ l ∧ hang b ∧ block_id b = k.

Lemma tree_of_parent l1 b l2 tree :
  blocks = l1 ++ b :: l2 → tree_of l1 tree → block_parent_id b ∈ tree ↔ hang b.
Proof.
  intros E Htree. assert (b ∈ blocks) as Hb by (rewrite E; set_solver). rewrite (Htree _). split.
  - intros [?|(p & _ & Hp & Hid)]; [by apply hangs_child|]. by apply (hangs_step _ _ b p).
  - intros Hh. inversion Hh as [b' _ ?|b' p _ Hp Hid]; subst b'; [by left|]. right. exists p. split_and!; [|done|done].
    pose proof (hangs_in _ _ _ Hp) as Hin. pose proof (Holder p b Hin Hb Hid) as Hlt.
    rewrite E in Hin. apply elem_of_app in Hin as [|Hin]; [done|]. exfalso.
    rewrite E in Hsorted. apply StronglySorted_app in Hsorted as (_ & _ & Hsorted').
    apply StronglySorted_inv in Hsorted' as [_ Hall]. rewrite Forall_forall in Hall.
    apply elem_of_cons in Hin as [->|Hin].
    + unfold block_key_le in Hlt. rewrite N.ltb_irrefl, N.eqb_refl, N.leb_refl in Hlt. done.
    + specialize (Hall p Hin). by rewrite Hlt in Hall.
Qed.

Lemma retain_blocks_spec l2 : ∀ l1 tree rem kept tree' rem',
  blocks = l1 ++ l2 → tree_of l1 tree → retain_blocks l2 tree rem = (kept, tree', rem') →
  tree_of blocks tree' ∧
  (∀ b, b ∈ kept ↔ b ∈ l2 ∧ hang b) ∧
  (∀ k, k ∈ rem' ↔ k ∈ rem ∨ ∃ b, b ∈ l2 ∧ ¬ hang b ∧ block_id b = k) ∧
  ∀ k1 b k2, kept = k1 ++ b :: k2 → block_parent_id b ∈ tree ∨ block_parent_id b ∈ block_id <$> k1.
Proof.
  induction l2 as [|b l2 IH]; intros l1 tree rem kept tree' rem' E Htree Hrun; cbn in Hrun.
  { injection Hrun as <- <- <-. rewrite app_nil_r in E. subst l1. split_and!; [done|set_solver|set_solver|].
    intros [|??] ???; done. }
  pose proof (tree_of_parent l1 b l2 tree E Htree) as Hpar.
  assert (blocks = (l1 ++ [b]) ++ l2) as E' by (by rewrite <-app_assoc).
  case_bool_decide as Hin.
  - assert (hang b) as Hh by by apply Hpar.
    destruct (retain_blocks l2 ({[block_id b]} ∪ tree) rem) as [[kept0 tree0] rem0] eqn:Er.
    injection Hrun as <- <- <-. edestruct (IH (l1 ++ [b])) as (H1 & H2 & H3 & H4); [done| |done|].
    { intros k. rewrite elem_of_union, elem_of_singleton, (Htree k). set_solver. }
    split_and!; [done|set_solver|set_solver|].
    intros [|c k1] b' k2 Ek; injection Ek as <- Ek; [by left|].
    destruct (H4 k1 b' k2 Ek) as [Hin'|]; [|right; cbn; set_solver].
    apply elem_of_union in Hin' as [->%elem_of_singleton|]; [right; cbn; set_solver|by left].
  - assert (¬ hang b) as Hh by by rewrite <-Hpar.
    edestruct (IH (l1 ++ [b])) as (H1 & H2 & H3 & H4); [done| |done|].
    { intros k. rewrite (Htree k). set_solver. }
    split_and!; [done|set_solver|set_solver|done].
Qed.
End retain.

(** What recovery keeps: exactly the blocks that hang on the root, each after its parent, and
    the certificates for them; everything else is to be pruned. *)
Lemma recovery_find_blocks_to_prune_spec root blocks qcs to_prune blocks' qcs' :
  StronglySorted block_key_le blocks → parents_older blocks →
  recovery_find_blocks_to_prune root blocks qcs = (to_prune, blocks', qcs') →
  (∀ b, b ∈ blocks' ↔ hangs blocks root b) ∧
  (∀ l1 b l2, blocks' = l1 ++ b :: l2 →
     block_parent_id b = root ∨ block_parent_id b ∈ block_id <$> l1) ∧
  (∀ qc, qc ∈ qcs' ↔ qc ∈ qcs ∧
     (bi_id (certified_block qc) = root ∨ bi_id (certified_block qc) ∈ block_id <$> blocks')) ∧
  (∀ k, k ∈ to_prune ↔
     (∃ b, b ∈ blocks ∧ (b ∉ blocks') ∧ block_id b = k) ∨
     (∃ qc, qc ∈ qcs ∧ (qc ∉ qcs') ∧ bi_id (certified_block qc) = k)).
Proof.
  intros Hsorted Holder Hrun. unfold recovery_find_blocks_to_prune in Hrun.
  destruct (retain_blocks blocks {[root]} ∅) as [[kept tree] rem] eqn:Er. injection Hrun as <- <- <-.
  destruct (retain_blocks_spec blocks root Hsorted Holder blocks [] {[root]} ∅ kept tree rem)
    as (Htree & Hkept & Hrem & Htopo); [done| |done|].
  { intros k. rewrite elem_of_singleton. set_solver. }
  assert (∀ k, k ∈ tree ↔ k = root ∨ k ∈ block_id <$> kept) as Htree'.
  { intros k. rewrite (Htree k), list_elem_of_fmap. naive_solver. }
  assert (∀ b, b ∈ kept ↔ hangs blocks root b) as Hkept'.
  { intros b. rewrite Hkept. split; [tauto|]. intros Hh. split; [by eapply hangs_in|done]. }
  split_and!.
  - done.
  - intros l1 b l2 E. destruct (Htopo l1 b l2 E); set_solver.
  - intros qc. rewrite list_elem_of_filter, Htree'. tauto.
  - intros k. rewrite elem_of_elements, elem_of_union, elem_of_list_to_set, Hrem, list_elem_of_fmap.
    f_equiv.
    + setoid_rewrite Hkept'. set_solver.
    + setoid_rewrite list_elem_of_filter. split.
      * intros (qc & -> & Hn & Hq). exists qc. split_and!; naive_solver.
      * intros (qc & Hq & Hn & <-). exists qc. split_and!; [done|tauto|done].
Qed.

Lemma hangs_older blocks root r b :
  NoDup (block_id <$> blocks) → parents_older blocks → r ∈ blocks → block_id r = root →
  hangs blocks root b → block_key_le b r = false.
Proof.
  intros Hnd Holder Hr Hid. induction 1 as [b Hb Hp|b p Hb Hp IH Hpid].
  - apply Holder; [done|done|congruence].
  - destruct (block_key_le b r) eqn:E; [|done]. pose proof (Holder p b (hangs_in _ _ _ Hp) Hb Hpid) as Hlt.
    apply block_key_le_total in Hlt. rewrite <-not_true_iff_false in IH. destruct IH.
    by apply Is_true_true, (block_key_le_trans p b r); [|rewrite E].
Qed.

(** Taking the root out of the list changes nothing. *)
Lemma hangs_delete blocks root i r b :
  NoDup (block_id <$> blocks) → parents_older blocks → blocks !! i = Some r → block_id r = root →
  hangs (delete i blocks) root b ↔ hangs blocks root b.
Proof.
  intros Hnd Holder Hi Hid. split.
  { apply hangs_mono. intros c Hc. apply (delete_Permutation blocks i r) in Hi. rewrite Hi. by right. }
  assert (∀ c, hangs blocks root c → c ∈ delete i blocks) as Hin.
  { intros c Hc. pose proof (hangs_older blocks root r c Hnd Holder (list_elem_of_lookup_2 _ _ _ Hi) Hid Hc) as Hlt.
    pose proof (hangs_in _ _ _ Hc) as Hin. rewrite (delete_Permutation blocks i r) in Hin by done.
    apply elem_of_cons in Hin as [->|]; [|done].
    unfold block_key_le in Hlt. by rewrite N.ltb_irrefl, N.eqb_refl, N.leb_refl in Hlt. }
  induction 1 as [b Hb Hp|b p Hb Hp IH Hpid].
  - apply hangs_child; [|done]. apply Hin. by apply hangs_child.
  - apply (hangs_step _ _ b p); [|done|done]. apply Hin. by apply (hangs_step _ _ b p).
Qed.

Lemma hangs_perm blocks blocks' root b : blocks ≡ₚ blocks' → hangs blocks root b ↔ hangs blocks' root b.
Proof. intros Hp. split; apply hangs_mono; intros c; by rewrite Hp. Qed.
Lemma parents_older_sub blocks blocks' : blocks' ⊆ blocks → parents_older blocks → parents_older blocks'.
Proof. intros Hsub Holder p b Hp Hb. apply Holder; by apply Hsub. Qed.

Lemma StronglySorted_delete {A} (R : A → A → Prop) l : ∀ i,
  StronglySorted R l → StronglySorted R (delete i l).
Proof.
  induction l as [|x l IH]; intros i Hs; [done|]. apply StronglySorted_inv in Hs as [Hs Hall].
  destruct i as [|i]; [done|]. cbn. constructor; [by apply IH|]. rewrite Forall_forall in *. intros y Hy.
  apply Hall. clear -Hy. revert i Hy. induction l as [|z l IH]; intros [|i]; cbn; set_solver.
Qed.

Lemma sorted_root_perm blocks i r :
  sort_blocks blocks !! i = Some r → blocks ≡ₚ r :: delete i (sort_blocks blocks).
Proof. intros Hi. rewrite <-(delete_Permutation _ _ _ Hi). by rewrite sort_blocks_perm. Qed.
Lemma block_id_inj blocks : NoDup (block_id <$> blocks) →
  ∀ b c, b ∈ blocks → c ∈ blocks → block_id b = block_id c → b = c.
Proof.
  intros Hnd b c [x Hx]%list_elem_of_lookup [y Hy]%list_elem_of_lookup Heq.
  assert (x = y) as ->; [|congruence]. apply (NoDup_lookup (block_id <$> blocks) _ _ (block_id b));
    [done| |]; rewrite list_lookup_fmap, ?Hx, ?Hy; cbn; congruence.
Qed.

(** The recovered root and tree, for the root the ledger points at and the blocks and
    certificates of the database. *)
Record recovered (root_id : HashValue) (li : LedgerInfoWithSignatures) (blocks : list Block)
    (qcs : list QuorumCert) (rd : RecoveryData) : Prop := {
  rec_root : root_block (rd_root rd) ∈ blocks ∧ block_id (root_block (rd_root rd)) = root_id;
  rec_root_qc : root_quorum_cert (rd_root rd) ∈ qcs ∧
    bi_id (certified_block (root_quorum_cert (rd_root rd))) = root_id;
  rec_ordered : root_ordered_cert (rd_root rd) ∈ qcs ∧
    bi_id (qc_commit_info (root_ordered_cert (rd_root rd))) = root_id;
  rec_commit : root_commit_cert (rd_root rd) =
    mkQuorumCert (qc_vote_data (root_ordered_cert (rd_root rd))) li ∧
    match_ordered_only (qc_commit_info (root_ordered_cert (rd_root rd))) (liws_commit_info li) = true;
  rec_blocks : ∀ b, b ∈ rd_blocks rd ↔ hangs blocks root_id b;
  rec_topological : ∀ l1 b l2, rd_blocks rd = l1 ++ b :: l2 →
    block_parent_id b = root_id ∨ block_parent_id b ∈ block_id <$> l1;
  rec_certs : ∀ qc, qc ∈ rd_quorum_certs rd ↔ qc ∈ qcs ∧
    (bi_id (certified_block qc) = root_id ∨ bi_id (certified_block qc) ∈ block_id <$> rd_blocks rd);
  rec_prune : ∃ ids, rd_blocks_to_prune rd = Some ids ∧ ∀ k, k ∈ ids ↔
    k ≠ root_id ∧ (k ∉ block_id <$> rd_blocks rd) ∧
    (k ∈ block_id <$> blocks ∨ k ∈ (λ qc, bi_id (certified_block qc)) <$> qcs);
}.

Section recovery_facts.
Context `{!ArxHashes}.

Lemma find_root_spec l blocks qcs root_id li blocks1 qcs1 :
  ledger_root l blocks qcs = Ok (root_id, li, blocks1, qcs1) →
  match find_root l blocks qcs with
  | Ok (root, blocks2, qcs2) =>
      ∃ i, qcs2 = qcs1 ∧ blocks2 = delete i (sort_blocks blocks1) ∧
        sort_blocks blocks1 !! i = Some (root_block root) ∧ block_id (root_block root) = root_id ∧
        (root_quorum_cert root ∈ qcs1 ∧ bi_id (certified_block (root_quorum_cert root)) = root_id) ∧
        (root_ordered_cert root ∈ qcs1 ∧ bi_id (qc_commit_info (root_ordered_cert root)) = root_id) ∧
        root_commit_cert root = mkQuorumCert (qc_vote_data (root_ordered_cert root)) li ∧
        match_ordered_only (qc_commit_info (root_ordered_cert root)) (liws_commit_info li) = true
  | Err _ => (root_id ∉ block_id <$> blocks1) ∨
      (root_id ∉ (λ qc, bi_id (certified_block qc)) <$> qcs1) ∨
      (root_id ∉ (λ qc, bi_id (qc_commit_info qc)) <$> qcs1)
  | Panic => ∃ qc, qc ∈ qcs1 ∧ bi_id (qc_commit_info qc) = root_id ∧
      match_ordered_only (qc_commit_info qc) (liws_commit_info li) = false
  end.
Proof.
  intros Hled. unfold find_root. rewrite Hled. run_ok.
  destruct (list_find (λ block, block_id block = root_id) (sort_blocks blocks1)) as [[i rb]|] eqn:E1; run_ok.
  2: { left. rewrite list_find_None, Forall_forall in E1. intros (b & -> & Hb)%list_elem_of_fmap.
       rewrite <-sort_blocks_perm in Hb. by apply (E1 b). }
  apply list_find_Some in E1 as (E1 & Eid & _).
  destruct (list_find (λ qc, bi_id (certified_block qc) = block_id rb) qcs1) as [[j rq]|] eqn:E2; run_ok.
  2: { right; left. rewrite list_find_None, Forall_forall in E2. intros (b & Hx & Hb)%list_elem_of_fmap.
       apply (E2 b Hb). congruence. }
  apply list_find_Some in E2 as (E2%list_elem_of_lookup_2 & Hrq & _).
  destruct (list_find (λ qc, bi_id (qc_commit_info qc) = block_id rb) qcs1) as [[k ro]|] eqn:E3; run_ok.
  2: { right; right. rewrite list_find_None, Forall_forall in E3. intros (b & Hx & Hb)%list_elem_of_fmap.
       apply (E3 b Hb). congruence. }
  apply list_find_Some in E3 as (E3%list_elem_of_lookup_2 & Hro & _).
  unfold create_merged_with_executed_state.
  destruct (match_ordered_only (qc_commit_info ro) (liws_commit_info li)) eqn:Em; run_ok.
  - exists i. cbn. split_and!; try done; congruence.
  - exists ro. split_and!; [done|congruence|done].
Qed.

Lemma recovery_data_spec vote l blocks meta qcs tc root_id li blocks1 qcs1
    (Hled : ledger_root l blocks qcs = Ok (root_id, li, blocks1, qcs1))
    (Hids : NoDup (block_id <$> blocks1)) (Holder : parents_older blocks1) :
  match recovery_data_new vote l blocks meta qcs tc with
  | Ok rd => recovered root_id li blocks1 qcs1 rd ∧ rd_root_metadata rd = meta ∧
      let epoch := block_epoch (root_block (rd_root rd)) in
      (∀ v, rd_last_vote rd = Some v ↔ vote = Some v ∧ vote_epoch v = epoch) ∧
      (∀ c, rd_highest_2chain_timeout_certificate rd = Some c ↔ tc = Some c ∧ tc_epoch c = epoch)
  | Err _ => (root_id ∉ block_id <$> blocks1) ∨
      (root_id ∉ (λ qc, bi_id (certified_block qc)) <$> qcs1) ∨
      (root_id ∉ (λ qc, bi_id (qc_commit_info qc)) <$> qcs1)
  | Panic => ∃ qc, qc ∈ qcs1 ∧ bi_id (qc_commit_info qc) = root_id ∧
      match_ordered_only (qc_commit_info qc) (liws_commit_info li) = false
  end.
Proof.
  pose proof (find_root_spec l blocks qcs root_id li blocks1 qcs1 Hled) as Hroot. unfold recovery_data_new.
  destruct (find_root l blocks qcs) as [[[root blocks2] qcs2]|e|]; run_ok; [|done|done].
  destruct Hroot as (i & -> & -> & Hi & Hid & Hrq & Hro & Hrc & Hm). rewrite Hid.
  destruct (recovery_find_blocks_to_prune root_id (delete i (sort_blocks blocks1)) qcs1)
    as [[to_prune kept] qcs'] eqn:Ep.
  assert (NoDup (block_id <$> sort_blocks blocks1)) as Hids' by by rewrite sort_blocks_perm.
  assert (parents_older (sort_blocks blocks1)) as Holder'.
  { eapply parents_older_sub; [|done]. intros c. by rewrite sort_blocks_perm. }
  destruct (recovery_find_blocks_to_prune_spec root_id (delete i (sort_blocks blocks1)) qcs1 to_prune kept qcs')
    as (Hb & Htopo & Hq & Hp); [| |done|].
  { apply StronglySorted_delete, sort_blocks_sorted. }
  { eapply parents_older_sub; [|done]. intros c Hc. rewrite (delete_Permutation _ _ _ Hi). by right. }
  assert (∀ b, b ∈ kept ↔ hangs blocks1 root_id b) as Hkept.
  { intros b. rewrite Hb, (hangs_delete _ _ _ _ _ Hids' Holder' Hi Hid).
    apply hangs_perm, sort_blocks_perm. }
  split; [|split; [done|]]; cbn [rd_root rd_last_vote rd_highest_2chain_timeout_certificate].
  2: { split; [destruct vote as [v|]|destruct tc as [c|]]; intros; try case_N; naive_solver. }
  split; cbn [rd_root rd_blocks rd_quorum_certs rd_blocks_to_prune]; try done.
  - split; [|done]. rewrite <-(sort_blocks_perm blocks1). by eapply list_elem_of_lookup_2.
  - exists to_prune. split; [done|]. intros k. rewrite Hp.
    pose proof (sorted_root_perm blocks1 i (root_block root) Hi) as Hperm.
    assert (∀ b, b ∈ blocks1 ↔ b = root_block root ∨ b ∈ delete i (sort_blocks blocks1)) as Hin.
    { intros b. by rewrite Hperm, elem_of_cons at 1. }
    assert (∀ b, b ∈ delete i (sort_blocks blocks1) → block_id b ≠ root_id) as Hne.
    { intros b Hbin Heq. rewrite Hperm, fmap_cons, NoDup_cons, list_elem_of_fmap in Hids.
      destruct Hids as [Hni _]. apply Hni. exists b. split; [congruence|done]. }
    pose proof (block_id_inj blocks1 Hids) as Hinj.
    split.
    + intros [(b & Hbi & Hnk & <-)|(qc & Hqc & Hnq & <-)].
      * split_and!; [by apply Hne| |left; apply list_elem_of_fmap; exists b; split; [done|apply Hin; by right]].
        intros (c & Heq & Hc)%list_elem_of_fmap. assert (b = c) as ->; [|done].
        apply Hinj; [apply Hin; by right| |done]. apply Hkept, hangs_in in Hc. done.
      * rewrite Hq in Hnq. split_and!; [naive_solver|naive_solver|]. right. apply list_elem_of_fmap. by exists qc.
    + intros (Hk & Hnk & [(b & -> & [->|Hbi]%Hin)%list_elem_of_fmap|(qc & -> & Hqc)%list_elem_of_fmap]).
      * by rewrite Hid in Hk.
      * left. exists b. split_and!; [done| |done]. intros Hc. apply Hnk, list_elem_of_fmap. by exists b.
      * right. exists qc. split_and!; [done| |done]. rewrite Hq. naive_solver.
Qed.
(** [RecoveryData::new] finds the block the ledger points at with its certificate and the
    certificate that ordered it, and keeps exactly the blocks of the database that hang on it,
    each after its parent, with their certificates; every other block or certificate is listed
    for pruning, and votes and timeout certificates of other epochs are dropped. It fails only
    when the root or one of its certificates is missing, and panics only when the ledger
    disagrees with the certificate. *)
Theorem recovery_data_correct vote l blocks meta qcs tc root_id li blocks1 qcs1
    (Hled : ledger_root l blocks qcs = Ok (root_id, li, blocks1, qcs1))
    (Hids : NoDup (block_id <$> blocks1)) (Holder : parents_older blocks1) :
  match recovery_data_new vote l blocks meta qcs tc with
  | Ok rd => recovered root_id li blocks1 qcs1 rd ∧ rd_root_metadata rd = meta ∧
      let epoch := block_epoch (root_block (rd_root rd)) in
      (∀ v, rd_last_vote rd = Some v ↔ vote = Some v ∧ vote_epoch v = epoch) ∧
      (∀ c, rd_highest_2chain_timeout_certificate rd = Some c ↔ tc = Some c ∧ tc_epoch c = epoch)
  | Err _ => (root_id ∉ block_id <$> blocks1) ∨
      (root_id ∉ (λ qc, bi_id (certified_block qc)) <$> qcs1) ∨
      (root_id ∉ (λ qc, bi_id (qc_commit_info qc)) <$> qcs1)
  | Panic => ∃ qc, qc ∈ qcs1 ∧ bi_id (qc_commit_info qc) = root_id ∧
      match_ordered_only (qc_commit_info qc) (liws_commit_info li) = false
  end.
Proof. exact (recovery_data_spec vote l blocks meta qcs tc root_id li blocks1 qcs1 Hled Hids Holder). Qed.
End recovery_facts.

(** ** An encoding for the examples: the tagged value itself *)

Definition sample_bytes : Type := Vote + TwoChainTimeoutCertificate.
#[export] Program Instance sample_bcs_vote : Bcs Vote sample_bytes := {|
  to_bytes v := Ok (inl v);
  from_bytes bs := match bs with inl v => Ok v | inr _ => Err (fmt "remaining input" []) end;
|}.
Next Obligation. by intros v bs [= <-]. Qed.
#[export] Program Instance sample_bcs_tc : Bcs TwoChainTimeoutCertificate sample_bytes := {|
  to_bytes c := Ok (inr c);
  from_bytes bs := match bs with inr c => Ok c | inl _ => Err (fmt "remaining input" []) end;
|}.
Next Obligation. by intros v bs [= <-]. Qed.

(** ** A small database

    The committed block 100 of round 1, its child 101, the child 103 of that, and a block 205
    on an unknown parent. *)
Definition sample_cert (round id commit_round commit_id : N) : QuorumCert :=
  let info := mkBlockInfo 1 round id 0 0 0 None in
  mkQuorumCert (mkVoteData info info)
    (mkLIWS (mkLedgerInfo (mkBlockInfo 1 commit_round commit_id 0 0 0 None) 0) aggregate_signature_empty).
Definition sample_db_block (id round parent_round parent : N) : Block :=
  mkBlock id (mkBlockData 1 round 0 (sample_cert parent_round parent 0 0) (NilBlock [])) None.
Definition sample_db_blocks : list Block :=
  [sample_db_block 103 4 2 101; sample_db_block 101 2 1 100; sample_db_block 205 3 2 204;
   sample_db_block 100 1 0 99].
Definition sample_db_certs : list QuorumCert := [sample_cert 2 101 1 100; sample_cert 1 100 0 0].
Definition sample_ledger : LedgerRecoveryData :=
  mkLedgerRecoveryData (qc_signed_ledger_info (sample_cert 2 101 1 100)).

Lemma recovery_data_correct_witness :
  ∃ rd, recovery_data_new (H := sample_hashes) None sample_ledger sample_db_blocks (mkRootMetadata 0 [] 0)
    sample_db_certs None = Ok rd ∧
  recovered 100 (storage_ledger sample_ledger) sample_db_blocks sample_db_certs rd ∧
  block_id <$> rd_blocks rd = [101; 103] ∧ rd_blocks_to_prune rd = Some [205].
Proof.
  pose proof (recovery_data_correct (H := sample_hashes) None sample_ledger sample_db_blocks
    (mkRootMetadata 0 [] 0) sample_db_certs None 100 (storage_ledger sample_ledger) sample_db_blocks
    sample_db_certs) as Hthm.
  destruct (recovery_data_new (H := sample_hashes) None sample_ledger sample_db_blocks
    (mkRootMetadata 0 [] 0) sample_db_certs None) as [rd| |] eqn:E; [|vm_compute in E; discriminate E..].
  exists rd. split; [done|].
  destruct Hthm as [Hrec _].
  - vm_compute. reflexivity.
  - apply (bool_decide_unpack _). vm_compute. exact I.
  - intros p b Hp Hb. unfold sample_db_blocks in Hp, Hb. rewrite !elem_of_cons, elem_of_nil in Hp, Hb.
    destruct Hp as [->|[->|[->|[->|[]]]]], Hb as [->|[->|[->|[->|[]]]]]; vm_compute; congruence.
  - vm_compute in E. injection E as <-. split; [exact Hrec|]. split; vm_compute; reflexivity.
Defined.
