(* ===== verification/BlockTree.v ===== *)
(** * The tree of pending blocks (consensus/src/block_storage)

    [BlockTree] keeps the blocks below the last commit with their parent and child links,
    the highest certificates, and the blocks pruned but not yet dropped. *)
From S2P Require Import Prelude BitVec Crypto Accumulator ValidatorVerifier LedgerInfo ConsensusTypes Recovery.
Local Open Scope N_scope.

(** ** Executed blocks (consensus-types/src/executed_block.rs, executor-types) *)

Inductive TransactionStatus :=
| Discard (code : N)
| Keep (status : N)
| Retry.

Record StateComputeResult := mkStateComputeResult {
  scr_root_hash : HashValue;
  scr_frozen_subtree_roots : list HashValue;
  scr_num_leaves : N;
  scr_parent_frozen_subtree_roots : list HashValue;
  scr_parent_num_leaves : N;
  scr_epoch_state : option EpochState;
  scr_compute_status : list TransactionStatus;
  scr_transaction_info_hashes : list HashValue;
  scr_reconfig_events : list N;
}.

Definition scr_new_dummy_with_root_hash (root_hash : HashValue) : StateComputeResult :=
  mkStateComputeResult root_hash [] 0 [] 0 None [] [] [].
Definition scr_new_dummy : StateComputeResult :=
  scr_new_dummy_with_root_hash ACCUMULATOR_PLACEHOLDER_HASH.
Definition scr_version (r : StateComputeResult) : Version := N.max (scr_num_leaves r) 1 - 1.
Definition scr_has_reconfiguration (r : StateComputeResult) : bool :=
  match scr_epoch_state r with Some _ => true | None => false end.
Definition scr_extension_proof (r : StateComputeResult) : AccumulatorExtensionProof :=
  mkAccumulatorExtensionProof (scr_parent_frozen_subtree_roots r) (scr_parent_num_leaves r)
    (scr_transaction_info_hashes r).

Record ExecutedBlock := mkExecutedBlock {
  eb_block : Block;
  eb_state_compute_result : StateComputeResult;
}.
Definition eb_id (b : ExecutedBlock) : HashValue := block_id (eb_block b).
Definition eb_round (b : ExecutedBlock) : Round := block_round (eb_block b).
Definition eb_parent_id (b : ExecutedBlock) : HashValue :=
  bi_id (certified_block (block_quorum_cert (eb_block b))).
Definition eb_block_info (b : ExecutedBlock) : BlockInfo :=
  gen_block_info (eb_block b) (scr_root_hash (eb_state_compute_result b))
    (scr_version (eb_state_compute_result b)) (scr_epoch_state (eb_state_compute_result b)).
Definition eb_vote_proposal (b : ExecutedBlock) (decoupled_execution : bool) : VoteProposal :=
  mkVoteProposal (scr_extension_proof (eb_state_compute_result b)) (eb_block b)
    (scr_epoch_state (eb_state_compute_result b)) decoupled_execution.
Definition eb_is_reconfiguration_suffix (b : ExecutedBlock) : bool :=
  scr_has_reconfiguration (eb_state_compute_result b)
  && (lenN (scr_compute_status (eb_state_compute_result b)) =? 0).
(** [itertools::zip_eq] panics when the lengths differ. *)
Fixpoint keep_transactions {E} (txns : list Transaction) (statuses : list TransactionStatus)
  : outcome E (list Transaction) :=
  match txns, statuses with
  | [], [] => Ok []
  | txn :: txns, status :: statuses =>
      rest ← keep_transactions txns statuses;
      Ok (match status with Keep _ => txn :: rest | _ => rest end)
  | _, _ => Panic
  end.
Definition eb_transactions_to_commit {E} (b : ExecutedBlock) (validators : list AccountAddress)
    (txns : list SignedTransaction) : outcome E (list Transaction) :=
  if eb_is_reconfiguration_suffix b then Ok []
  else
    all ← transactions_to_execute (eb_block b) validators txns;
    keep_transactions all (scr_compute_status (eb_state_compute_result b)).
Definition eb_reconfig_event (b : ExecutedBlock) : list N :=
  if eb_is_reconfiguration_suffix b then [] else scr_reconfig_events (eb_state_compute_result b).

(** ** The tree *)

Record LinkableBlock := mkLinkableBlock {
  lb_executed_block : ExecutedBlock;
  lb_children : gset HashValue;
}.
Definition linkable_block_new (b : ExecutedBlock) : LinkableBlock := mkLinkableBlock b ∅.
Definition lb_id (b : LinkableBlock) : HashValue := eb_id (lb_executed_block b).
Definition add_child {E} (b : LinkableBlock) (child_id : HashValue) : outcome E LinkableBlock :=
  _ ← rassert (bool_decide (child_id ∉ lb_children b));
  Ok (mkLinkableBlock (lb_executed_block b) ({[child_id]} ∪ lb_children b)).

Record BlockTree := mkBlockTree {
  id_to_block : gmap HashValue LinkableBlock;
  ordered_root_id : HashValue;
  commit_root_id : HashValue;
  highest_certified_block_id : HashValue;
  bt_highest_quorum_cert : QuorumCert;
  bt_highest_2chain_timeout_cert : option TwoChainTimeoutCertificate;
  bt_highest_ordered_cert : QuorumCert;
  bt_highest_commit_cert : QuorumCert;
  id_to_quorum_cert : gmap HashValue QuorumCert;
  pruned_block_ids : list HashValue;
  max_pruned_blocks_in_mem : N;
}.

Definition block_tree_new {E} (root : ExecutedBlock)
    (root_quorum_cert root_ordered_cert root_commit_cert : QuorumCert)
    (max_pruned_blocks_in_mem : N)
    (highest_2chain_timeout_cert : option TwoChainTimeoutCertificate) : outcome E BlockTree :=
  _ ← rassert (eb_id root =? bi_id (qc_commit_info root_ordered_cert));
  Ok (mkBlockTree {[eb_id root := linkable_block_new root]} (eb_id root) (eb_id root) (eb_id root)
        root_quorum_cert highest_2chain_timeout_cert root_ordered_cert root_commit_cert
        {[bi_id (certified_block root_quorum_cert) := root_quorum_cert]} [] max_pruned_blocks_in_mem).

Definition get_block (t : BlockTree) (block_id : HashValue) : option ExecutedBlock :=
  lb_executed_block <$> id_to_block t !! block_id.
Definition block_exists (t : BlockTree) (block_id : HashValue) : bool :=
  bool_decide (is_Some (id_to_block t !! block_id)).
Definition linkable_root {E} (t : BlockTree) : outcome E LinkableBlock :=
  expect (id_to_block t !! commit_root_id t).
Definition ordered_root {E} (t : BlockTree) : outcome E ExecutedBlock :=
  expect (get_block t (ordered_root_id t)).
Definition commit_root {E} (t : BlockTree) : outcome E ExecutedBlock :=
  expect (get_block t (commit_root_id t)).
Definition highest_certified_block {E} (t : BlockTree) : outcome E ExecutedBlock :=
  expect (get_block t (highest_certified_block_id t)).
Definition get_quorum_cert_for_block (t : BlockTree) (block_id : HashValue) : option QuorumCert :=
  id_to_quorum_cert t !! block_id.

(** [values().filter(..)] *)
Definition get_all_quorum_certs_with_commit_info (t : BlockTree) : list QuorumCert :=
  filter (λ qc, qc_commit_info qc ≠ block_info_empty) (map_to_list (id_to_quorum_cert t)).*2.

(** Updates of single fields. *)
Definition with_blocks (t : BlockTree) (blocks : gmap HashValue LinkableBlock) : BlockTree :=
  mkBlockTree blocks (ordered_root_id t) (commit_root_id t) (highest_certified_block_id t)
    (bt_highest_quorum_cert t) (bt_highest_2chain_timeout_cert t) (bt_highest_ordered_cert t)
    (bt_highest_commit_cert t) (id_to_quorum_cert t) (pruned_block_ids t) (max_pruned_blocks_in_mem t).
Definition replace_2chain_timeout_cert (t : BlockTree) (tc : TwoChainTimeoutCertificate) : BlockTree :=
  mkBlockTree (id_to_block t) (ordered_root_id t) (commit_root_id t) (highest_certified_block_id t)
    (bt_highest_quorum_cert t) (Some tc) (bt_highest_ordered_cert t)
    (bt_highest_commit_cert t) (id_to_quorum_cert t) (pruned_block_ids t) (max_pruned_blocks_in_mem t).
Definition update_ordered_root {E} (t : BlockTree) (root_id : HashValue) : outcome E BlockTree :=
  _ ← rassert (block_exists t root_id);
  Ok (mkBlockTree (id_to_block t) root_id (commit_root_id t) (highest_certified_block_id t)
    (bt_highest_quorum_cert t) (bt_highest_2chain_timeout_cert t) (bt_highest_ordered_cert t)
    (bt_highest_commit_cert t) (id_to_quorum_cert t) (pruned_block_ids t) (max_pruned_blocks_in_mem t)).
Definition update_commit_root {E} (t : BlockTree) (root_id : HashValue) : outcome E BlockTree :=
  _ ← rassert (block_exists t root_id);
  Ok (mkBlockTree (id_to_block t) (ordered_root_id t) root_id (highest_certified_block_id t)
    (bt_highest_quorum_cert t) (bt_highest_2chain_timeout_cert t) (bt_highest_ordered_cert t)
    (bt_highest_commit_cert t) (id_to_quorum_cert t) (pruned_block_ids t) (max_pruned_blocks_in_mem t)).

Definition remove_block (t : BlockTree) (block_id : HashValue) : BlockTree :=
  mkBlockTree (delete block_id (id_to_block t)) (ordered_root_id t) (commit_root_id t)
    (highest_certified_block_id t) (bt_highest_quorum_cert t) (bt_highest_2chain_timeout_cert t)
    (bt_highest_ordered_cert t) (bt_highest_commit_cert t) (delete block_id (id_to_quorum_cert t))
    (pruned_block_ids t) (max_pruned_blocks_in_mem t).

(** The comparison of the two compute results is a [checked_verify_eq!], compiled to nothing. *)
Definition insert_block (t : BlockTree) (block : ExecutedBlock)
  : outcome anyhow (ExecutedBlock * BlockTree) :=
  match get_block t (eb_id block) with
  | Some existing_block => Ok (existing_block, t)
  | None =>
      match id_to_block t !! eb_parent_id block with
      | Some parent_block =>
          parent ← add_child parent_block (eb_id block);
          let blocks := <[eb_parent_id block := parent]> (id_to_block t) in
          _ ← rassert (bool_decide (blocks !! eb_id block = None));
          Ok (block, with_blocks t (<[eb_id block := linkable_block_new block]> blocks))
      | None => Err (fmt "Parent block {} not found" [eb_parent_id block])
      end
  end.

Definition update_highest_commit_cert {E} (t : BlockTree) (new_commit_cert : QuorumCert)
  : outcome E BlockTree :=
  if bi_round (qc_commit_info (bt_highest_commit_cert t)) <? bi_round (qc_commit_info new_commit_cert) then
    update_commit_root
      (mkBlockTree (id_to_block t) (ordered_root_id t) (commit_root_id t) (highest_certified_block_id t)
         (bt_highest_quorum_cert t) (bt_highest_2chain_timeout_cert t) (bt_highest_ordered_cert t)
         new_commit_cert (id_to_quorum_cert t) (pruned_block_ids t) (max_pruned_blocks_in_mem t))
      (bi_id (qc_commit_info new_commit_cert))
  else Ok t.

(** The [precondition!] is an annotation. *)
Definition bt_insert_quorum_cert (t : BlockTree) (qc : QuorumCert) : outcome anyhow BlockTree :=
  let block_id := bi_id (certified_block qc) in
  match get_block t block_id with
  | None => Err (fmt "Block {} not found" [block_id])
  | Some block =>
      highest ← highest_certified_block t;
      let '(hcb, hqc) :=
        if eb_round highest <? eb_round block then (eb_id block, qc)
        else (highest_certified_block_id t, bt_highest_quorum_cert t) in
      let certs := match id_to_quorum_cert t !! block_id with
                   | Some _ => id_to_quorum_cert t
                   | None => <[block_id := qc]> (id_to_quorum_cert t)
                   end in
      let hoc := if bi_round (qc_commit_info (bt_highest_ordered_cert t)) <? bi_round (qc_commit_info qc)
                 then qc else bt_highest_ordered_cert t in
      Ok (mkBlockTree (id_to_block t) (ordered_root_id t) (commit_root_id t) hcb hqc
            (bt_highest_2chain_timeout_cert t) hoc (bt_highest_commit_cert t) certs
            (pruned_block_ids t) (max_pruned_blocks_in_mem t))
  end.

(** The inner loop: the children to visit, the new root left out. *)
Fixpoint push_children {E} (t : BlockTree) (next_root_id : HashValue) (children : list HashValue)
    (stack : list LinkableBlock) : outcome E (list LinkableBlock) :=
  match children with
  | [] => Ok stack
  | child_id :: children =>
      if next_root_id =? child_id then push_children t next_root_id children stack
      else
        child ← expect (id_to_block t !! child_id);
        push_children t next_root_id children (child :: stack)
  end.
(** The [while let Some(..) = pop()] loop; the head of the list is the top of the stack, and
    the order of a [HashSet] is some order. *)
Fixpoint find_blocks_to_prune_loop {E} (fuel : nat) (t : BlockTree) (next_root_id : HashValue)
    (stack : list LinkableBlock) (blocks_pruned : list HashValue) : outcome E (list HashValue) :=
  match fuel with
  | O => Panic
  | S fuel =>
      match stack with
      | [] => Ok blocks_pruned
      | block_to_remove :: stack =>
          stack' ← push_children t next_root_id (elements (lb_children block_to_remove)) stack;
          find_blocks_to_prune_loop fuel t next_root_id stack' (blocks_pruned ++ [lb_id block_to_remove])
      end
  end.
Definition find_blocks_to_prune {E} (t : BlockTree) (next_root_id : HashValue)
  : outcome E (list HashValue) :=
  if next_root_id =? commit_root_id t then Ok []
  else
    root ← linkable_root t;
    find_blocks_to_prune_loop (S (size (id_to_block t))) t next_root_id [root] [].

(** The oldest pruned blocks are dropped when there are more than the limit. *)
Fixpoint remove_pruned (n : nat) (t : BlockTree) (ids : list HashValue) : BlockTree * list HashValue :=
  match n, ids with
  | S n, id :: ids => remove_pruned n (remove_block t id) ids
  | _, _ => (t, ids)
  end.
Definition process_pruned_blocks (t : BlockTree) (newly_pruned_blocks : list HashValue) : BlockTree :=
  let ids := pruned_block_ids t ++ newly_pruned_blocks in
  let '(t', ids') := remove_pruned (length ids - N.to_nat (max_pruned_blocks_in_mem t)) t ids in
  mkBlockTree (id_to_block t') (ordered_root_id t') (commit_root_id t') (highest_certified_block_id t')
    (bt_highest_quorum_cert t') (bt_highest_2chain_timeout_cert t') (bt_highest_ordered_cert t')
    (bt_highest_commit_cert t') (id_to_quorum_cert t') ids' (max_pruned_blocks_in_mem t').

(** The loop up the parent links; fuel as many steps as there are blocks. *)
Fixpoint path_loop (fuel : nat) (t : BlockTree) (cur_block_id : HashValue) (root_round : Round)
    (res : list ExecutedBlock) : option (HashValue * list ExecutedBlock) :=
  match fuel with
  | O => None
  | S fuel =>
      match get_block t cur_block_id with
      | Some block =>
          if eb_round block <=? root_round then Some (cur_block_id, res)
          else path_loop fuel t (eb_parent_id block) root_round (res ++ [block])
      | None => None
      end
  end.
Definition path_from_root_to_block (t : BlockTree) (block_id root_id : HashValue) (root_round : Round)
  : option (list ExecutedBlock) :=
  '(cur_block_id, res) ← path_loop (S (size (id_to_block t))) t block_id root_round [];
  if negb (cur_block_id =? root_id) then None else Some (reverse res).
Definition path_from_ordered_root {E} (t : BlockTree) (block_id : HashValue)
  : outcome E (option (list ExecutedBlock)) :=
  root ← ordered_root t;
  Ok (path_from_root_to_block t block_id (ordered_root_id t) (eb_round root)).
Definition path_from_commit_root {E} (t : BlockTree) (block_id : HashValue)
  : outcome E (option (list ExecutedBlock)) :=
  root ← commit_root t;
  Ok (path_from_root_to_block t block_id (commit_root_id t) (eb_round root)).

(** The error of [storage.prune_tree] is only logged. *)
Definition commit_callback {St} `{!PersistentLivenessStorage St} {E} (t : BlockTree) (storage : St)
    (blocks_to_commit : list ExecutedBlock) (finality_proof : QuorumCert)
    (commit_decision : LedgerInfoWithSignatures) : outcome E (BlockTree * St) :=
  commit_proof ← match create_merged_with_executed_state finality_proof commit_decision with
                 | Ok qc => Ok qc
                 | _ => Panic
                 end;
  block_to_commit ← expect (last blocks_to_commit);
  _ ← commit_root (E := E) t;
  id_to_remove ← find_blocks_to_prune t (eb_id block_to_commit);
  storage ← match prune_tree id_to_remove storage with
            | (Panic, _) => Panic
            | (_, storage) => Ok storage
            end;
  t ← update_highest_commit_cert (process_pruned_blocks t id_to_remove) commit_proof;
  Ok (t, storage).

(** ** Descendants *)

Abbreviation blocks := (gmap HashValue LinkableBlock) (only parsing).

Inductive desc (m : blocks) (r : HashValue) : HashValue → Prop :=
| desc_refl : desc m r r
| desc_step p lb c : desc m r p → m !! p = Some lb → c ∈ lb_children lb → desc m r c.

Definition lb_parent (lb : LinkableBlock) : HashValue := eb_parent_id (lb_executed_block lb).
Definition lb_round (lb : LinkableBlock) : Round := eb_round (lb_executed_block lb).

(** Links agree: blocks are stored by id, every child link leads to a block of a later round
    whose parent link leads back, and every parent link to a block is matched by a child link. *)
Record links_wf (m : blocks) : Prop := {
  w_id : ∀ k lb, m !! k = Some lb → lb_id lb = k;
  w_child : ∀ k lb c, m !! k = Some lb → c ∈ lb_children lb →
    ∃ lc, m !! c = Some lc ∧ lb_parent lc = k ∧ lb_round lb < lb_round lc;
  w_link : ∀ k lb lp, m !! k = Some lb → m !! lb_parent lb = Some lp → k ∈ lb_children lp;
}.

Section desc.
Context (m : blocks) (Hwf : links_wf m).

Lemma desc_trans a b c : desc m a b → desc m b c → desc m a c.
Proof. intros Hab. induction 1; [done|]. by econstructor. Qed.

Lemma desc_exists r k : is_Some (m !! r) → desc m r k → is_Some (m !! k).
Proof.
  intros Hr. induction 1 as [|p lb c Hd IH Hp Hc]; [done|].
  destruct (w_child _ Hwf _ _ _ Hp Hc) as (lc & ? & _). by eexists.
Qed.

Lemma desc_round r k lr lk :
  desc m r k → m !! r = Some lr → m !! k = Some lk → k ≠ r → lb_round lr < lb_round lk.
Proof.
  intros Hd Hr. revert lk. induction Hd as [|p lb c Hd IH Hp Hc]; intros lk Hk Hne; [done|].
  destruct (w_child _ Hwf _ _ _ Hp Hc) as (lc & Hlc & _ & Hlt). simplify_eq.
  destruct (decide (p = r)) as [->|Hpr]; [by simplify_eq|]. specialize (IH lb Hp Hpr). lia.
Qed.

(** A descendant other than the root has its parent below the root. *)
Lemma desc_parent r k lk :
  desc m r k → m !! k = Some lk → k ≠ r →
  desc m r (lb_parent lk) ∧ ∃ lp, m !! lb_parent lk = Some lp ∧ k ∈ lb_children lp.
Proof.
  intros Hd Hk Hne. inversion Hd as [|p lb c Hd' Hp Hc]; subst; [done|].
  destruct (w_child _ Hwf _ _ _ Hp Hc) as (lc & Hlc & Hpar & _). simplify_eq. eauto.
Qed.

(** Ancestors of one block are comparable. *)
Lemma desc_compare a b k :
  is_Some (m !! a) → is_Some (m !! b) → desc m a k → desc m b k → desc m a b ∨ desc m b a.
Proof.
  intros Ha Hb Hak. revert Hb. induction Hak as [|p lb c Hd IH Hp Hc]; intros Hb Hbk; [by right|].
  destruct (decide (c = b)) as [->|Hcb]; [left; by econstructor|].
  destruct (w_child _ Hwf _ _ _ Hp Hc) as (lc & Hlc & Hpar & _).
  destruct (desc_parent b c lc Hbk Hlc Hcb) as [Hbp _]. rewrite Hpar in Hbp. auto.
Qed.

Lemma desc_antisym a b : is_Some (m !! a) → desc m a b → desc m b a → a = b.
Proof.
  intros [la Ha] Hab Hba. destruct (decide (a = b)) as [|Hne]; [done|].
  destruct (desc_exists a b) as [lb Hb]; [by eexists|done|].
  pose proof (desc_round a b la lb Hab Ha Hb). pose proof (desc_round b a lb la Hba Hb Ha).
  assert (b ≠ a) by congruence. lia.
Qed.
End desc.

(** ** Pruning finds the blocks outside the new root's subtree *)

Section prune.
Context (t : BlockTree) (next : HashValue).
Local Abbreviation m := (id_to_block t).
Local Abbreviation root := (commit_root_id t).
Hypothesis Hwf : links_wf m.
Hypothesis Hroot : is_Some (m !! root).
Hypothesis Hnext : desc m root next.
Hypothesis Hne : next ≠ root.

(** The blocks below the root but not below the new root. *)
Definition outside (k : HashValue) : Prop := desc m root k ∧ ¬ desc m next k.

Lemma next_exists : is_Some (m !! next).
Proof. by eapply desc_exists. Qed.

Lemma outside_root : outside root.
Proof. split; [constructor|]. intros Hd. apply Hne. symmetry. by eapply desc_antisym. Qed.

Lemma outside_child k lb c : outside k → m !! k = Some lb → c ∈ lb_children lb → c ≠ next → outside c.
Proof.
  intros [Hd Hn] Hk Hc Hcn. destruct (w_child _ Hwf _ _ _ Hk Hc) as (lc & Hlc & Hpar & _).
  split; [by econstructor|]. intros Hd'. apply Hn.
  destruct (desc_parent m Hwf next c lc Hd' Hlc Hcn) as [Hp _]. by rewrite Hpar in Hp.
Qed.

Lemma push_children_spec {E} children stack :
  (∀ c, c ∈ children → is_Some (m !! c)) →
  ∃ pushed, push_children (E := E) t next children stack = Ok (pushed ++ stack) ∧
    lb_id <$> pushed ≡ₚ filter (λ c, c ≠ next) children ∧
    ∀ lb, lb ∈ pushed → m !! lb_id lb = Some lb.
Proof.
  revert stack. induction children as [|c children IH]; intros stack Hc; [by exists []; split; [|set_solver]|].
  cbn [push_children]. rewrite filter_cons. destruct (N.eqb_spec next c) as [<-|Hcn].
  - rewrite decide_False by (intros H; by apply H). apply IH. intros; apply Hc; by right.
  - rewrite decide_True by done. destruct (Hc c) as [lc Hlc]; [by left|]. rewrite Hlc. run_ok.
    destruct (IH (lc :: stack)) as (pushed & Hrun & Hperm & Hall); [intros; apply Hc; by right|].
    exists (pushed ++ [lc]). rewrite <-app_assoc. split; [done|]. split.
    + rewrite fmap_app. cbn. rewrite (w_id _ Hwf _ _ Hlc), Hperm. by rewrite Permutation_app_comm.
    + intros lb [?|Hlb%list_elem_of_singleton]%elem_of_app; [auto|]. subst lb. by rewrite (w_id _ Hwf _ _ Hlc).
Qed.

(** What holds whenever the loop is entered. *)
Record prune_inv (stack : list LinkableBlock) (pruned : list HashValue) : Prop := {
  pr_nodup : NoDup (pruned ++ (lb_id <$> stack));
  pr_stack : ∀ lb, lb ∈ stack → m !! lb_id lb = Some lb;
  pr_outside : ∀ k, k ∈ pruned ++ (lb_id <$> stack) → outside k;
  pr_root : root ∈ pruned ++ (lb_id <$> stack);
  pr_parent : ∀ lb, lb ∈ stack → lb_id lb ≠ root → lb_parent lb ∈ pruned;
  pr_closed : ∀ k lb c, k ∈ pruned → m !! k = Some lb → c ∈ lb_children lb → c ≠ next →
    c ∈ pruned ++ (lb_id <$> stack);
  pr_topo : ∀ l1 k l2 lb, pruned = l1 ++ k :: l2 → k ≠ root → m !! k = Some lb → lb_parent lb ∈ l1;
}.

Lemma prune_inv_start lr : m !! root = Some lr → prune_inv [lr] [].
Proof.
  intros Hr. pose proof (w_id _ Hwf _ _ Hr) as Hid.
  split; rewrite ?app_nil_l, ?fmap_cons, ?fmap_nil; cbn [fmap list_fmap]; rewrite ?Hid.
  - repeat constructor. set_solver.
  - intros lb ->%list_elem_of_singleton. by rewrite Hid.
  - intros k ->%list_elem_of_singleton. apply outside_root.
  - by left.
  - intros lb ->%list_elem_of_singleton. congruence.
  - by intros k lb c ?%not_elem_of_nil.
  - intros l1 k l2 lb E. by destruct l1.
Qed.

Lemma prune_inv_step b stack pruned pushed :
  prune_inv (b :: stack) pruned →
  lb_id <$> pushed ≡ₚ filter (λ c, c ≠ next) (elements (lb_children b)) →
  (∀ lb, lb ∈ pushed → m !! lb_id lb = Some lb) →
  prune_inv (pushed ++ stack) (pruned ++ [lb_id b]).
Proof.
  intros Hinv Hperm Hpushed. pose proof (pr_stack _ _ Hinv b ltac:(by left)) as Hb.
  assert (∀ c, c ∈ lb_id <$> pushed ↔ c ∈ lb_children b ∧ c ≠ next) as Hin.
  { intros c. rewrite Hperm, list_elem_of_filter, elem_of_elements. tauto. }
  assert (outside (lb_id b)) as Hbo.
  { apply (pr_outside _ _ Hinv). rewrite elem_of_app, fmap_cons. right. by left. }
  assert (∀ c, c ∈ lb_children b → c ∉ pruned ++ (lb_id <$> b :: stack)) as Hfresh.
  { intros c Hc Hold. destruct (w_child _ Hwf _ _ _ Hb Hc) as (lc & Hlc & Hpar & Hlt).
    assert (c ≠ root) as Hcr.
    { intros ->. destruct Hbo as [Hd _]. destruct (decide (lb_id b = root)) as [E|E].
      - rewrite E in Hb. simplify_eq. lia.
      - pose proof (desc_round m Hwf root (lb_id b) lc b Hd Hlc Hb E). lia. }
    assert (lb_id b ∈ pruned) as Hbp.
    { apply elem_of_app in Hold as [Hold|Hold].
      - apply list_elem_of_split in Hold as (l1 & l2 & E).
        pose proof (pr_topo _ _ Hinv _ _ _ _ E Hcr Hlc) as Hp. rewrite Hpar in Hp.
        rewrite E, elem_of_app. by left.
      - apply list_elem_of_fmap in Hold as (x & -> & Hx).
        rewrite (pr_stack _ _ Hinv x Hx) in Hlc. simplify_eq. rewrite <-Hpar.
        by apply (pr_parent _ _ Hinv). }
    pose proof (pr_nodup _ _ Hinv) as Hnd. rewrite fmap_cons in Hnd. apply NoDup_app in Hnd as (_ & Hdis & _).
    apply (Hdis _ Hbp). by left. }
  assert (∀ k, k ∈ (pruned ++ [lb_id b]) ++ (lb_id <$> pushed ++ stack) ↔
    k ∈ pruned ++ (lb_id <$> b :: stack) ∨ (k ∈ lb_children b ∧ k ≠ next)) as Hall.
  { intros k. rewrite fmap_app, fmap_cons, !elem_of_app, !elem_of_cons, Hin, elem_of_nil. tauto. }
  split.
  - pose proof (pr_nodup _ _ Hinv) as Hnd. rewrite fmap_cons in Hnd. rewrite <-app_assoc, fmap_app. cbn [app].
    assert (pruned ++ lb_id b :: (lb_id <$> pushed) ++ (lb_id <$> stack) ≡ₚ
      (lb_id <$> pushed) ++ (pruned ++ lb_id b :: (lb_id <$> stack))) as ->.
    { rewrite (Permutation_app_comm (lb_id <$> pushed) (pruned ++ lb_id b :: (lb_id <$> stack))), <-app_assoc. apply Permutation_app_head. cbn.
      apply perm_skip, Permutation_app_comm. }
    apply NoDup_app. split_and!; [|intros c [Hc _]%Hin; by apply Hfresh|done].
    rewrite Hperm. apply NoDup_filter, NoDup_elements.
  - intros lb [?|?]%elem_of_app; [auto|]. apply (pr_stack _ _ Hinv). by right.
  - intros k [Hk|[Hk Hkn]]%Hall; [by apply (pr_outside _ _ Hinv)|]. by eapply outside_child.
  - apply Hall. left. apply Hinv.
  - intros lb Hlb Hr. rewrite elem_of_app, list_elem_of_singleton. apply elem_of_app in Hlb as [Hlb|Hlb].
    + right. assert (lb_id lb ∈ lb_children b) as Hc by (apply Hin; by apply list_elem_of_fmap_2).
      destruct (w_child _ Hwf _ _ _ Hb Hc) as (lc & Hlc & Hpar & _). rewrite (Hpushed lb Hlb) in Hlc. by simplify_eq.
    + left. apply (pr_parent _ _ Hinv); [by right|done].
  - intros k lb c Hk Hlb Hc Hcn. apply Hall.
    apply elem_of_app in Hk as [Hk|Hk%list_elem_of_singleton]; [left; by eapply (pr_closed _ _ Hinv)|].
    right. subst k. by simplify_eq.
  - intros l1 k l2 lb E Hkr Hlb. destruct l2 as [|x l2 _] using rev_ind.
    + apply app_inj_tail in E as [<- <-]. simplify_eq. apply (pr_parent _ _ Hinv); [by left|done].
    + rewrite app_comm_cons, app_assoc in E. apply app_inj_tail in E as [-> _].
      by eapply (pr_topo _ _ Hinv).
Qed.

Lemma prune_inv_length stack pruned : prune_inv stack pruned → (length pruned + length stack ≤ size m)%nat.
Proof.
  intros Hinv. rewrite <-(length_fmap lb_id stack), <-length_app, <-size_dom.
  rewrite <-(size_list_to_set (C := gset HashValue)) by apply Hinv.
  apply subseteq_size. intros k Hk%elem_of_list_to_set. apply elem_of_dom.
  apply (pr_outside _ _ Hinv) in Hk as [Hk _]. by eapply desc_exists.
Qed.

Lemma find_blocks_to_prune_loop_spec {E} fuel : ∀ stack pruned,
  prune_inv stack pruned → (size m < fuel + length pruned)%nat →
  ∃ l, find_blocks_to_prune_loop (E := E) fuel t next stack pruned = Ok l ∧ prune_inv [] l.
Proof.
  induction fuel as [|fuel IH]; intros stack pruned Hinv Hfuel.
  { pose proof (prune_inv_length _ _ Hinv). lia. }
  destruct stack as [|b stack]; cbn [find_blocks_to_prune_loop]; [eauto|].
  pose proof (pr_stack _ _ Hinv b ltac:(by left)) as Hb.
  destruct (push_children_spec (E := E) (elements (lb_children b)) stack) as (pushed & -> & Hperm & Hpushed).
  { intros c Hc%elem_of_elements. destruct (w_child _ Hwf _ _ _ Hb Hc) as (lc & ? & _). by eexists. }
  run_ok. apply IH; [by apply prune_inv_step|]. rewrite length_app. cbn. lia.
Qed.

(** At the end, exactly the blocks outside, parents first. *)
Lemma prune_inv_final l k : prune_inv [] l → k ∈ l ↔ outside k.
Proof.
  intros Hinv. split.
  { intros Hk. apply (pr_outside _ _ Hinv). rewrite elem_of_app. by left. }
  intros [Hd Hn]. revert Hn. induction Hd as [|p lb c Hd IH Hp Hc]; intros Hn.
  { pose proof (pr_root _ _ Hinv) as Hr. by rewrite app_nil_r in Hr. }
  destruct (decide (c = next)) as [->|Hcn]; [exfalso; apply Hn; constructor|].
  assert (¬ desc m next p) as Hnp by (intros Hnp; apply Hn; by econstructor).
  pose proof (pr_closed _ _ Hinv p lb c (IH Hnp) Hp Hc Hcn) as Hin. by rewrite app_nil_r in Hin.
Qed.
End prune.

Lemma find_blocks_to_prune_spec {E} t next :
  links_wf (id_to_block t) → is_Some (id_to_block t !! commit_root_id t) →
  desc (id_to_block t) (commit_root_id t) next →
  ∃ l, find_blocks_to_prune (E := E) t next = Ok l ∧ NoDup l ∧ (∀ k, k ∈ l ↔ outside t next k) ∧
    ∀ l1 k l2 lb, l = l1 ++ k :: l2 → k ≠ commit_root_id t → id_to_block t !! k = Some lb →
      lb_parent lb ∈ l1.
Proof.
  intros Hwf [lr Hr] Hd. unfold find_blocks_to_prune, linkable_root.
  destruct (N.eqb_spec next (commit_root_id t)) as [->|Hne].
  { exists []. split_and!; [done|constructor| |intros l1 k l2 lb E1; by destruct l1].
    intros k. split; [by intros ?%not_elem_of_nil|]. by intros [??]. }
  rewrite Hr. run_ok.
  destruct (find_blocks_to_prune_loop_spec t next Hwf ltac:(by eexists) Hd Hne (E := E)
    (S (size (id_to_block t))) [lr] []) as (l & Hrun & Hinv).
  { by apply prune_inv_start. }
  { cbn. lia. }
  exists l. split; [done|]. split_and!.
  - pose proof (pr_nodup _ _ _ _ Hinv) as Hnd. by rewrite app_nil_r in Hnd.
  - intros k. apply prune_inv_final; try done.
  - apply (pr_topo _ _ _ _ Hinv).
Qed.

(** ** Paths follow the parent links *)

(** The blocks from below [root] down to [k], each the child of the one before. *)
Fixpoint path_ok (t : BlockTree) (root : HashValue) (l : list ExecutedBlock) (k : HashValue) : Prop :=
  match l with
  | [] => k = root
  | b :: l => get_block t (eb_id b) = Some b ∧ eb_parent_id b = root ∧ path_ok t (eb_id b) l k
  end.

Section path.
Context (t : BlockTree).
Local Abbreviation m := (id_to_block t).
Hypothesis Hwf : links_wf m.

Lemma get_block_Some k b : get_block t k = Some b ↔ ∃ lb, m !! k = Some lb ∧ lb_executed_block lb = b.
Proof. unfold get_block. rewrite fmap_Some. naive_solver. Qed.

Lemma get_block_id k b : get_block t k = Some b → eb_id b = k.
Proof. intros (lb & Hlb & <-)%get_block_Some. apply (w_id _ Hwf _ _ Hlb). Qed.

Lemma path_ok_snoc l root b :
  path_ok t root l (eb_parent_id b) → get_block t (eb_id b) = Some b → path_ok t root (l ++ [b]) (eb_id b).
Proof. revert root. induction l as [|x l IH]; intros root; cbn; naive_solver. Qed.

Lemma path_ok_snoc_inv l root b k :
  path_ok t root (l ++ [b]) k → k = eb_id b ∧ get_block t (eb_id b) = Some b ∧ path_ok t root l (eb_parent_id b).
Proof. revert root. induction l as [|x l IH]; intros root; cbn; naive_solver. Qed.

Lemma path_ok_desc l root k : is_Some (m !! root) → path_ok t root l k → desc m root k.
Proof.
  revert root. induction l as [|b l IH]; intros root Hroot Hp; [cbn in Hp; subst; constructor|].
  destruct Hp as ((lb & Hlb & Eb)%get_block_Some & Hpar & Hp). destruct Hroot as [lr Hr].
  eapply desc_trans; [|apply IH; [by eexists|done]]. econstructor; [constructor|done|].
  eapply (w_link _ Hwf _ _ _ Hlb). unfold lb_parent. by rewrite Eb, Hpar.
Qed.

Lemma desc_path_ok root k : is_Some (m !! root) → desc m root k → ∃ l, path_ok t root l k.
Proof.
  intros Hroot. induction 1 as [|p lb c Hd [l IH] Hp Hc]; [by exists []|].
  destruct (w_child _ Hwf _ _ _ Hp Hc) as (lc & Hlc & Hpar & _).
  exists (l ++ [lb_executed_block lc]). pose proof (w_id _ Hwf _ _ Hlc) as Hid. unfold lb_id in Hid.
  rewrite <-Hid. apply path_ok_snoc; [by unfold lb_parent in Hpar; rewrite Hpar|].
  apply get_block_Some. rewrite Hid. eauto.
Qed.

Lemma path_ok_elem l root k b :
  is_Some (m !! root) → path_ok t root l k → b ∈ l →
  desc m root (eb_id b) ∧ eb_id b ≠ root ∧ is_Some (m !! eb_id b).
Proof.
  revert root. induction l as [|x l IH]; intros root Hroot Hp Hb; [by apply not_elem_of_nil in Hb|].
  destruct Hp as (Hx & Hpar & Hp). pose proof Hx as (lx & Hlx & Ex)%get_block_Some.
  destruct Hroot as [lr Hr].
  assert (eb_id x ∈ lb_children lr) as Hc.
  { apply (w_link _ Hwf _ _ _ Hlx). unfold lb_parent. by rewrite Ex, Hpar. }
  assert (desc m root (eb_id x)) as Hdx by (econstructor; [constructor|done|done]).
  destruct (w_child _ Hwf _ _ _ Hr Hc) as (lx' & Hlx' & _ & Hlt).
  rewrite Hlx in Hlx'. injection Hlx' as <-.
  apply elem_of_cons in Hb as [->|Hb].
  - split_and!; [done|intros E; rewrite E, Hr in Hlx; injection Hlx as <-; lia|by eexists].
  - destruct (IH (eb_id x) ltac:(by eexists) Hp Hb) as (Hd & Hne & [lb Hlb]).
    split_and!; [by eapply desc_trans| |by eexists].
    intros E. pose proof (desc_round m Hwf _ _ _ _ Hd Hlx Hlb Hne) as Hlt'. rewrite E, Hr in Hlb. injection Hlb as <-. lia.
Qed.

Lemma path_ok_length l root k : is_Some (m !! root) → path_ok t root l k → (length l ≤ size m)%nat.
Proof.
  intros Hroot Hp. rewrite <-(length_fmap eb_id l), <-size_dom.
  rewrite <-(size_list_to_set (C := gset HashValue)).
  - apply subseteq_size. intros c Hc%elem_of_list_to_set. apply elem_of_dom.
    apply list_elem_of_fmap in Hc as (b & -> & Hb). by eapply path_ok_elem.
  - revert root Hroot Hp. induction l as [|b l IH]; intros root Hroot Hp; [constructor|].
    destruct Hp as (Hb & _ & Hp). pose proof Hb as (lb & Hlb & _)%get_block_Some.
    rewrite fmap_cons. constructor; [|eapply (IH (eb_id b)); [by eexists|done]].
    intros (x & Ex & Hx)%list_elem_of_fmap. destruct (path_ok_elem l (eb_id b) k x) as (_ & Hne & _);
      [by eexists|done|done|congruence].
Qed.

Lemma path_loop_complete root lr l : ∀ k fuel res,
  m !! root = Some lr → path_ok t root l k → (length l < fuel)%nat →
  path_loop fuel t k (lb_round lr) res = Some (root, res ++ reverse l).
Proof.
  induction l as [|b l IH] using rev_ind; intros k fuel res Hr Hp Hfuel; (destruct fuel as [|fuel]; [cbn in Hfuel; lia|]).
  - cbn in Hp. subst k. cbn [path_loop]. rewrite (proj2 (get_block_Some _ (lb_executed_block lr))) by eauto.
    fold (lb_round lr). rewrite N.leb_refl. by rewrite app_nil_r.
  - pose proof (path_ok_snoc_inv _ _ _ _ Hp) as (-> & Hb & Hp'). cbn [path_loop]. rewrite Hb.
    destruct (path_ok_elem (l ++ [b]) root (eb_id b) b) as (Hd & Hne & _);
      [by eexists|done|rewrite elem_of_app; right; by left|].
    pose proof Hb as (lb & Hlb & Eb)%get_block_Some.
    pose proof (desc_round m Hwf _ _ _ _ Hd Hr Hlb Hne) as Hlt. unfold lb_round at 2 in Hlt. rewrite Eb in Hlt.
    rewrite (proj2 (N.leb_gt _ _)) by done. rewrite length_app in Hfuel. cbn in Hfuel.
    rewrite IH by (done || lia). by rewrite reverse_app, <-app_assoc.
Qed.

Lemma path_loop_sound fuel : ∀ k rr res cur out,
  path_loop fuel t k rr res = Some (cur, out) → ∃ l, path_ok t cur l k ∧ out = res ++ reverse l.
Proof.
  induction fuel as [|fuel IH]; intros k rr res cur out Hrun; [done|].
  cbn [path_loop] in Hrun. destruct (get_block t k) as [b|] eqn:Hb; [|done].
  pose proof (get_block_id _ _ Hb) as Hid. case_match.
  - simplify_eq. exists []. by rewrite app_nil_r.
  - apply IH in Hrun as (l & Hp & ->). exists (l ++ [b]). split.
    + rewrite <-Hid. apply path_ok_snoc; [done|]. by rewrite Hid.
    + by rewrite reverse_app, <-app_assoc.
Qed.

Lemma path_from_root_spec root lr k l :
  m !! root = Some lr →
  path_from_root_to_block t k root (lb_round lr) = Some l ↔ path_ok t root l k.
Proof.
  intros Hr. unfold path_from_root_to_block. split.
  - destruct (path_loop _ t k (lb_round lr) []) as [[cur out]|] eqn:E; [|done]. cbn [mbind option_bind].
    destruct (N.eqb_spec cur root) as [->|]; cbn [negb]; [|done]. intros [= <-].
    apply path_loop_sound in E as (l' & Hp & ->). by rewrite app_nil_l, reverse_involutive.
  - intros Hp. rewrite (path_loop_complete root lr l); [|done..|].
    + cbn [mbind option_bind]. rewrite N.eqb_refl. cbn [negb]. by rewrite app_nil_l, reverse_involutive.
    + pose proof (path_ok_length l root k ltac:(by eexists) Hp). lia.
Qed.
End path.

(** ** The invariant of the tree *)

Record tree_wf (t : BlockTree) : Prop := {
  tw_links : links_wf (id_to_block t);
  tw_commit : is_Some (id_to_block t !! commit_root_id t);
  tw_ordered : desc (id_to_block t) (commit_root_id t) (ordered_root_id t);
  tw_certified : desc (id_to_block t) (commit_root_id t) (highest_certified_block_id t);
  tw_root_parent : ∀ lr, id_to_block t !! commit_root_id t = Some lr →
    is_Some (id_to_block t !! lb_parent lr) → lb_parent lr ∈ pruned_block_ids t;
  tw_pruned_nodup : NoDup (pruned_block_ids t);
  tw_pruned_inactive : ∀ k, k ∈ pruned_block_ids t →
    is_Some (id_to_block t !! k) ∧ ¬ desc (id_to_block t) (commit_root_id t) k;
  tw_pruned_topo : ∀ l1 k l2 lb, pruned_block_ids t = l1 ++ k :: l2 → id_to_block t !! k = Some lb →
    is_Some (id_to_block t !! lb_parent lb) → lb_parent lb ∈ l1;
  tw_pruned_len : lenN (pruned_block_ids t) ≤ max_pruned_blocks_in_mem t;
}.

(** *** Removing blocks together with their ancestors *)

Section remove.
Context (m m' : blocks) (R : list HashValue).
Hypothesis Hwf : links_wf m.
Hypothesis Hm' : ∀ k, m' !! k = if bool_decide (k ∈ R) then None else m !! k.
Hypothesis Hclosed : ∀ c lc, c ∈ R → m !! c = Some lc → is_Some (m !! lb_parent lc) → lb_parent lc ∈ R.

Lemma removed_lookup k lb : m' !! k = Some lb ↔ (k ∉ R) ∧ m !! k = Some lb.
Proof. rewrite Hm'. case_bool_decide; naive_solver. Qed.

Lemma removed_links_wf : links_wf m'.
Proof.
  split.
  - intros k lb [_ Hk]%removed_lookup. by apply (w_id _ Hwf).
  - intros k lb c [HkR Hk]%removed_lookup Hc. destruct (w_child _ Hwf _ _ _ Hk Hc) as (lc & Hlc & Hpar & Hlt).
    exists lc. split_and!; [|done|done]. apply removed_lookup. split; [|done]. intros HcR. apply HkR.
    rewrite <-Hpar. apply (Hclosed c lc HcR Hlc). rewrite Hpar. by eexists.
  - intros k lb lp [_ Hk]%removed_lookup [_ Hp]%removed_lookup. by apply (w_link _ Hwf _ lb).
Qed.

Lemma removed_desc r k : r ∉ R → is_Some (m !! r) → desc m' r k ↔ desc m r k ∧ k ∉ R.
Proof.
  intros HrR Hr. split.
  - induction 1 as [|p lb c Hd [IH HpR] Hp Hc]; [by split; [constructor|]|].
    apply removed_lookup in Hp as [_ Hp]. split; [by econstructor|].
    destruct (w_child _ Hwf _ _ _ Hp Hc) as (lc & Hlc & Hpar & _). intros HcR. apply HpR. rewrite <-Hpar.
    apply (Hclosed c lc HcR Hlc). rewrite Hpar. by eexists.
  - intros [Hd _]. enough (desc m' r k ∧ k ∉ R) by tauto.
    induction Hd as [|p lb c Hd [IH HpR] Hp Hc]; [by split; [constructor|]|].
    split; [econstructor; [done|by apply removed_lookup|done]|].
    destruct (w_child _ Hwf _ _ _ Hp Hc) as (lc & Hlc & Hpar & _). intros HcR. apply HpR. rewrite <-Hpar.
    apply (Hclosed c lc HcR Hlc). rewrite Hpar. by eexists.
Qed.
End remove.

(** *** Inserting a block *)

Section insert.
Context (m : blocks) (b : ExecutedBlock) (lp : LinkableBlock).
Hypothesis Hwf : links_wf m.
Hypothesis Hp : m !! eb_parent_id b = Some lp.
Hypothesis Hk : m !! eb_id b = None.
Hypothesis Hround : lb_round lp < eb_round b.
Hypothesis Hfresh : ∀ c lc, m !! c = Some lc → lb_parent lc ≠ eb_id b.

Definition inserted : blocks :=
  <[eb_id b := linkable_block_new b]>
    (<[eb_parent_id b := mkLinkableBlock (lb_executed_block lp) ({[eb_id b]} ∪ lb_children lp)]> m).

Lemma insert_parent_ne : eb_parent_id b ≠ eb_id b.
Proof. congruence. Qed.

Lemma inserted_lookup c lc :
  inserted !! c = Some lc ↔
  (c = eb_id b ∧ lc = linkable_block_new b) ∨
  (c = eb_parent_id b ∧ lc = mkLinkableBlock (lb_executed_block lp) ({[eb_id b]} ∪ lb_children lp)) ∨
  (c ≠ eb_id b ∧ c ≠ eb_parent_id b ∧ m !! c = Some lc).
Proof.
  unfold inserted. rewrite !lookup_insert_Some. pose proof insert_parent_ne. naive_solver.
Qed.

(** A block of the old tree is in the new one with the same block and at least its children. *)
Lemma inserted_old c lc : m !! c = Some lc →
  ∃ lc', inserted !! c = Some lc' ∧ lb_executed_block lc' = lb_executed_block lc ∧
    lb_children lc ⊆ lb_children lc'.
Proof.
  intros Hc. destruct (decide (c = eb_parent_id b)) as [->|Hcp].
  - simplify_eq. eexists. split; [apply inserted_lookup; right; by left|]. cbn. split; [done|set_solver].
  - exists lc. split; [apply inserted_lookup; right; right; split; [congruence|done]|done].
Qed.
Lemma inserted_inv c lc : inserted !! c = Some lc → c ≠ eb_id b →
  ∃ lc0, m !! c = Some lc0 ∧ lb_executed_block lc = lb_executed_block lc0 ∧
    ∀ x, x ∈ lb_children lc → x ∈ lb_children lc0 ∨ (x = eb_id b ∧ c = eb_parent_id b).
Proof.
  intros [[? ?]|[[-> ->]|(? & ? & Hc)]]%inserted_lookup Hne; [done| |].
  - exists lp. split; [done|]. cbn. split; [done|]. intros x. rewrite elem_of_union, elem_of_singleton. tauto.
  - exists lc. naive_solver.
Qed.

Lemma inserted_links_wf : links_wf inserted.
Proof.
  pose proof insert_parent_ne as Hne. split.
  - intros c lc [[-> ->]|[[-> ->]|(_ & _ & Hc)]]%inserted_lookup; [done|by apply (w_id _ Hwf _ lp)|by apply (w_id _ Hwf)].
  - intros c lc x Hc Hx. destruct (decide (c = eb_id b)) as [->|Hck].
    { apply inserted_lookup in Hc as [[_ ->]|[[E _]|(E & _)]]; [cbn in Hx; set_solver|congruence|congruence]. }
    destruct (inserted_inv c lc Hc Hck) as (lc0 & Hlc0 & Eb & Hch).
    unfold lb_round. rewrite Eb. destruct (Hch x Hx) as [Hx0|[-> ->]].
    + destruct (w_child _ Hwf _ _ _ Hlc0 Hx0) as (lx & Hlx & Hpar & Hlt).
      destruct (inserted_old x lx Hlx) as (lx' & Hlx' & Ex & _). exists lx'.
      unfold lb_parent. rewrite Ex. done.
    + simplify_eq. exists (linkable_block_new b). split; [apply inserted_lookup; by left|]. done.
  - intros c lc lpar Hc Hpar. destruct (decide (lb_parent lc = eb_id b)) as [E|E].
    { exfalso. destruct (decide (c = eb_id b)) as [->|Hck].
      - apply inserted_lookup in Hc as [[_ ->]|[[? _]|(? & _)]]; [|congruence|congruence].
        by apply Hne.
      - destruct (inserted_inv c lc Hc Hck) as (lc0 & Hlc0 & Eb & _). unfold lb_parent in E. rewrite Eb in E.
        by apply (Hfresh c lc0). }
    destruct (inserted_inv _ _ Hpar E) as (lp0 & Hlp0 & _ & _).
    destruct (inserted_old _ _ Hlp0) as (lp1 & Hlp1 & _ & Hsub). rewrite Hpar in Hlp1. injection Hlp1 as <-.
    destruct (decide (c = eb_id b)) as [->|Hck].
    + apply inserted_lookup in Hc as [[_ ->]|[[? _]|(? & _)]]; [|congruence|congruence].
      apply inserted_lookup in Hpar as [[? _]|[[_ ->]|(? & ? & _)]]; [done| |done]. cbn. set_solver.
    + apply Hsub. destruct (inserted_inv c lc Hc Hck) as (lc0 & Hlc0 & Eb & _).
      apply (w_link _ Hwf c lc0); [done|]. unfold lb_parent in *. by rewrite <-Eb.
Qed.

Lemma inserted_desc r c : c ≠ eb_id b → desc inserted r c ↔ desc m r c.
Proof.
  intros Hc. split.
  - intros Hd. induction Hd as [|q lq c Hd IH Hq Hin]; [constructor|].
    destruct (decide (q = eb_id b)) as [->|Hqk].
    + apply inserted_lookup in Hq as [[_ ->]|[[E _]|(E & _)]]; [cbn in Hin; set_solver| |congruence].
      by symmetry in E; apply insert_parent_ne in E.
    + destruct (inserted_inv q lq Hq Hqk) as (lq0 & Hlq0 & _ & Hch).
      destruct (Hch c Hin) as [?|[? _]]; [|done]. econstructor; [by apply IH|done|done].
  - clear Hc. induction 1 as [|q lq c Hd IH Hq Hin]; [constructor|].
    destruct (inserted_old q lq Hq) as (lq' & Hlq' & _ & Hsub). econstructor; [done|done|]. by apply Hsub.
Qed.
End insert.

(** ** Every operation keeps the invariant *)

(** What the callers ensure of a block: its parent is of an earlier round, and no block of
    the tree was built on it before (ancestors are inserted first). *)
Definition insert_ok (t : BlockTree) (b : ExecutedBlock) : Prop :=
  (∀ lp, id_to_block t !! eb_parent_id b = Some lp → lb_round lp < eb_round b) ∧
  ∀ c lc, id_to_block t !! c = Some lc → lb_parent lc ≠ eb_id b.

Lemma insert_block_spec t b :
  tree_wf t → insert_ok t b →
  match insert_block t b with
  | Ok (b', t') =>
      tree_wf t' ∧ get_block t' (eb_id b) = Some b' ∧
      (get_block t (eb_id b) = Some b' ∧ t' = t ∨ get_block t (eb_id b) = None ∧ b' = b) ∧
      (∀ k, k ≠ eb_id b → get_block t' k = get_block t k) ∧
      (∀ r k, k ≠ eb_id b → desc (id_to_block t') r k ↔ desc (id_to_block t) r k) ∧
      ∃ m, t' = with_blocks t m
  | Err _ => get_block t (eb_id b) = None ∧ get_block t (eb_parent_id b) = None
  | Panic => False
  end.
Proof.
  intros Hwf [Hround Hfresh]. unfold insert_block.
  destruct (get_block t (eb_id b)) as [b0|] eqn:E0;
    [split_and!; auto; exists (id_to_block t); by destruct t|].
  assert (id_to_block t !! eb_id b = None) as Hk by (unfold get_block in E0; by apply fmap_None in E0).
  destruct (id_to_block t !! eb_parent_id b) as [lp|] eqn:Ep; [|split; [done|]; unfold get_block; by rewrite Ep].
  specialize (Hround lp eq_refl). pose proof (tw_links t Hwf) as Hl.
  unfold add_child. rewrite bool_decide_true.
  2:{ intros Hc. destruct (w_child _ Hl _ _ _ Ep Hc) as (lc & Hlc & _). congruence. }
  run_ok. rewrite bool_decide_true by (rewrite lookup_insert_ne; [done|congruence]). run_ok.
  fold (inserted (id_to_block t) b lp).
  assert (∀ r c, c ≠ eb_id b → desc (inserted (id_to_block t) b lp) r c ↔ desc (id_to_block t) r c) as Hdesc
    by (intros; by apply inserted_desc).
  assert (∀ c, c ≠ eb_id b → is_Some (inserted (id_to_block t) b lp !! c) ↔ is_Some (id_to_block t !! c)) as Hdom.
  { intros c Hc. unfold inserted. rewrite lookup_insert_ne by done.
    destruct (decide (c = eb_parent_id b)) as [->|]; [rewrite lookup_insert_eq, Ep; split; eauto|].
    by rewrite lookup_insert_ne. }
  assert (∀ c, is_Some (id_to_block t !! c) → c ≠ eb_id b) as Hold by (intros c [? ?]; congruence).
  split; [|split; [unfold get_block, with_blocks, inserted; cbn; by rewrite lookup_insert_eq|]].
  2:{ split; [by right|]. split; [|split; [done|by eexists]]. intros k Hkb. unfold get_block, with_blocks, inserted. cbn.
      rewrite lookup_insert_ne by done. destruct (decide (k = eb_parent_id b)) as [->|];
        [rewrite lookup_insert_eq, Ep; done|by rewrite lookup_insert_ne]. }
  pose proof (tw_commit t Hwf) as Hcommit. pose proof Hcommit as Hcr%Hold.
  assert (∀ c, desc (id_to_block t) (commit_root_id t) c → c ≠ eb_id b) as Hactive.
  { intros c Hd. apply Hold. by eapply desc_exists. }
  assert (∀ c lc, inserted (id_to_block t) b lp !! c = Some lc → c ≠ eb_id b →
    ∃ lc0, id_to_block t !! c = Some lc0 ∧ lb_parent lc = lb_parent lc0) as Hpar.
  { intros c lc Hc Hcb. destruct (inserted_inv (id_to_block t) b lp Ep Hk c lc Hc Hcb) as (lc0 & ? & E & _).
    exists lc0. unfold lb_parent. by rewrite E. }
  split; cbn [with_blocks id_to_block commit_root_id ordered_root_id highest_certified_block_id
    pruned_block_ids max_pruned_blocks_in_mem].
  - by apply inserted_links_wf.
  - by apply Hdom.
  - apply Hdesc; [by apply Hactive, Hwf|apply Hwf].
  - apply Hdesc; [by apply Hactive, Hwf|apply Hwf].
  - intros lr Hr Hex. destruct (Hpar _ _ Hr Hcr) as (lr0 & Hlr0 & E). rewrite E in *.
    apply (tw_root_parent t Hwf _ Hlr0). apply Hdom; [by apply (Hfresh _ _ Hlr0)|done].
  - apply Hwf.
  - intros k Hin. destruct (tw_pruned_inactive t Hwf k Hin) as [Hex Hd]. pose proof (Hold k Hex) as Hkb.
    split; [by apply Hdom|]. by rewrite Hdesc.
  - intros l1 k l2 lb E Hlb Hex.
    assert (k ∈ pruned_block_ids t) as Hin by (rewrite E, elem_of_app; right; by left).
    destruct (tw_pruned_inactive t Hwf k Hin) as [Hkex _].
    destruct (Hpar _ _ Hlb (Hold k Hkex)) as (lb0 & Hlb0 & E'). rewrite E' in *.
    apply (tw_pruned_topo t Hwf l1 k l2 lb0 E Hlb0). apply Hdom; [by apply (Hfresh _ _ Hlb0)|done].
  - apply Hwf.
Qed.

(** A certificate that becomes the highest one is for a block below the root (the safety of
    the protocol). *)
Definition qc_ok (t : BlockTree) (qc : QuorumCert) : Prop :=
  ∀ hb b, get_block t (highest_certified_block_id t) = Some hb →
    get_block t (bi_id (certified_block qc)) = Some b → eb_round hb < eb_round b →
    desc (id_to_block t) (commit_root_id t) (bi_id (certified_block qc)).

Definition certified_round (t : BlockTree) : Round :=
  match get_block t (highest_certified_block_id t) with Some b => eb_round b | None => 0 end.

Lemma certified_exists t : tree_wf t → ∃ b, get_block t (highest_certified_block_id t) = Some b.
Proof.
  intros Hwf. destruct (desc_exists _ (tw_links t Hwf) _ _ (tw_commit t Hwf) (tw_certified t Hwf)) as [lb Hlb].
  exists (lb_executed_block lb). unfold get_block. by rewrite Hlb.
Qed.

Lemma insert_quorum_cert_spec t qc :
  tree_wf t → qc_ok t qc →
  match bt_insert_quorum_cert t qc with
  | Ok t' =>
      tree_wf t' ∧ (id_to_block t' = id_to_block t ∧ commit_root_id t' = commit_root_id t) ∧
      (∀ k, is_Some (get_quorum_cert_for_block t' k) ↔
         k = bi_id (certified_block qc) ∨ is_Some (get_quorum_cert_for_block t k)) ∧
      certified_round t ≤ certified_round t' ∧
      bi_round (qc_commit_info (bt_highest_ordered_cert t')) =
        N.max (bi_round (qc_commit_info (bt_highest_ordered_cert t))) (bi_round (qc_commit_info qc))
  | Err _ => get_block t (bi_id (certified_block qc)) = None
  | Panic => False
  end.
Proof.
  intros Hwf Hqc. unfold bt_insert_quorum_cert. destruct (certified_exists t Hwf) as [hb Hhb].
  destruct (get_block t (bi_id (certified_block qc))) as [b|] eqn:Eb; [|done].
  unfold highest_certified_block. rewrite Hhb. run_ok. specialize (Hqc hb b Hhb Eb).
  pose proof (get_block_id t (tw_links t Hwf) _ _ Eb) as Hid.
  destruct (if eb_round hb <? eb_round b then _ else _) as [hcb hqc] eqn:E.
  set (t' := mkBlockTree _ _ _ _ _ _ _ _ _ _ _).
  assert (desc (id_to_block t) (commit_root_id t) hcb ∧ certified_round t ≤ certified_round t') as [Hd Hr].
  { unfold certified_round. unfold t', get_block. cbn [id_to_block highest_certified_block_id].
    fold (get_block t hcb). fold (get_block t (highest_certified_block_id t)). rewrite Hhb.
    destruct (N.ltb_spec (eb_round hb) (eb_round b)); simplify_eq.
    - rewrite Hid, Eb. split; [auto|lia].
    - rewrite Hhb. split; [apply Hwf|lia]. }
  split; [|split; [done|split; [|split; [done|]]]].
  - destruct Hwf. by split.
  - intros k. unfold get_quorum_cert_for_block, t'. cbn [id_to_quorum_cert].
    destruct (id_to_quorum_cert t !! bi_id (certified_block qc)) eqn:E1.
    + split; [by right|]. intros [->|Hs]; [by eexists|done].
    + rewrite lookup_insert_is_Some. destruct (decide (bi_id (certified_block qc) = k)); naive_solver.
  - unfold t'. cbn [bt_highest_ordered_cert]. 
    destruct (N.ltb_spec (bi_round (qc_commit_info (bt_highest_ordered_cert t)))
      (bi_round (qc_commit_info qc))); lia.
Qed.

(** *** Commit *)

Lemma remove_pruned_spec n : ∀ t ids,
  let '(t', ids') := remove_pruned n t ids in
  ids' = drop n ids ∧
  (∀ k, id_to_block t' !! k = if bool_decide (k ∈ take n ids) then None else id_to_block t !! k) ∧
  (∀ k, id_to_quorum_cert t' !! k =
     if bool_decide (k ∈ take n ids) then None else id_to_quorum_cert t !! k) ∧
  ordered_root_id t' = ordered_root_id t ∧ commit_root_id t' = commit_root_id t ∧
  highest_certified_block_id t' = highest_certified_block_id t ∧
  bt_highest_commit_cert t' = bt_highest_commit_cert t ∧
  bt_highest_ordered_cert t' = bt_highest_ordered_cert t ∧
  max_pruned_blocks_in_mem t' = max_pruned_blocks_in_mem t.
Proof.
  induction n as [|n IH]; intros t ids; [cbn; split_and!; done|].
  destruct ids as [|id ids]; [cbn; split_and!; done|]. cbn [remove_pruned].
  specialize (IH (remove_block t id) ids). destruct (remove_pruned n (remove_block t id) ids) as [t' ids'].
  destruct IH as (-> & Hm & Hq & H1 & H2 & H3 & H4 & H5 & H6). split_and!; try done.
  all: intros k; rewrite ?Hm, ?Hq; cbn [take remove_block id_to_block id_to_quorum_cert]; rewrite lookup_delete.
  all: repeat case_bool_decide; try case_decide; set_solver.
Qed.

(** What [commit] passes to the callback: a block below the root, with the certified blocks
    and the ordered root below it, and a decision for it that is later than the last one. *)
Record commit_ok (t : BlockTree) (blocks_to_commit : list ExecutedBlock) (finality_proof : QuorumCert)
    (decision : LedgerInfoWithSignatures) (next : HashValue) : Prop := {
  co_last : ∃ b, last blocks_to_commit = Some b ∧ eb_id b = next;
  co_match : match_ordered_only (qc_commit_info finality_proof) (liws_commit_info decision) = true;
  co_id : bi_id (liws_commit_info decision) = next;
  co_round : bi_round (qc_commit_info (bt_highest_commit_cert t)) < bi_round (liws_commit_info decision);
  co_below : desc (id_to_block t) (commit_root_id t) next;
  co_ordered : desc (id_to_block t) next (ordered_root_id t);
  co_certified : desc (id_to_block t) next (highest_certified_block_id t);
}.

(** Pruning keeps the invariant for the new root. *)
Section prune_step.
Context (t : BlockTree) (next : HashValue) (newly : list HashValue) (t' : BlockTree).
Hypothesis Hwf : tree_wf t.
Hypothesis Hbelow : desc (id_to_block t) (commit_root_id t) next.
Hypothesis Hord : desc (id_to_block t) next (ordered_root_id t).
Hypothesis Hcert : desc (id_to_block t) next (highest_certified_block_id t).
Hypothesis Hnd : NoDup newly.
Hypothesis Hnewly : ∀ k, k ∈ newly ↔ outside t next k.
Hypothesis Htopo : ∀ l1 k l2 lb, newly = l1 ++ k :: l2 → k ≠ commit_root_id t →
  id_to_block t !! k = Some lb → lb_parent lb ∈ l1.

(** The queue of pruned blocks and how many of them are dropped. *)
Definition prune_queue : list HashValue := pruned_block_ids t ++ newly.
Definition excess : nat := length prune_queue - N.to_nat (max_pruned_blocks_in_mem t).
Local Abbreviation L := prune_queue (only parsing).
Local Abbreviation n := excess (only parsing).

Hypothesis Hm' : ∀ k, id_to_block t' !! k =
  if bool_decide (k ∈ take n L) then None else id_to_block t !! k.
Hypothesis Hpr : pruned_block_ids t' = drop n L.
Hypothesis Eord : ordered_root_id t' = ordered_root_id t.
Hypothesis Ecom : commit_root_id t' = next.
Hypothesis Ecert : highest_certified_block_id t' = highest_certified_block_id t.
Hypothesis Emax : max_pruned_blocks_in_mem t' = max_pruned_blocks_in_mem t.

Lemma queue_next_exists : is_Some (id_to_block t !! next).
Proof. apply (desc_exists _ (tw_links t Hwf) _ _ (tw_commit t Hwf) Hbelow). Qed.

Lemma queue_inactive k : k ∈ L → is_Some (id_to_block t !! k) ∧ ¬ desc (id_to_block t) next k.
Proof.
  intros [Hk|[Hd Hn]%Hnewly]%elem_of_app.
  - destruct (tw_pruned_inactive t Hwf k Hk) as [Hex Hd]. split; [done|]. intros Hd'. apply Hd. by eapply desc_trans.
  - split; [|done]. eapply desc_exists; [apply (tw_links t Hwf)|apply (tw_commit t Hwf)|done].
Qed.

Lemma queue_topo l1 k l2 lb :
  L = l1 ++ k :: l2 → id_to_block t !! k = Some lb → is_Some (id_to_block t !! lb_parent lb) →
  lb_parent lb ∈ l1.
Proof.
  intros E Hlb Hex. unfold prune_queue in E. apply app_eq_inv in E as [(mid & E1 & E2)|(mid & E1 & E2)].
  - destruct mid as [|x mid]; [rewrite app_nil_r in E1|].
    + cbn in E2. destruct (decide (k = commit_root_id t)) as [->|Hk].
      * rewrite <-E1. by apply (tw_root_parent t Hwf).
      * pose proof (Htopo [] k l2 lb (eq_sym E2) Hk Hlb) as []%not_elem_of_nil.
    + cbn in E2. injection E2 as -> ->. by eapply (tw_pruned_topo t Hwf).
  - destruct (decide (k = commit_root_id t)) as [->|Hk].
    + rewrite E1, elem_of_app. left. by apply (tw_root_parent t Hwf).
    + rewrite E1, elem_of_app. right. by eapply Htopo.
Qed.

Lemma queue_closed c lc :
  c ∈ take n L → id_to_block t !! c = Some lc → is_Some (id_to_block t !! lb_parent lc) →
  lb_parent lc ∈ take n L.
Proof.
  intros Hc Hlc Hex. apply list_elem_of_split in Hc as (l1 & l2 & E).
  rewrite E, elem_of_app. left. apply (queue_topo l1 c (l2 ++ drop n L) lc); [|done|done].
  transitivity (take n L ++ drop n L); [by rewrite take_drop|]. by rewrite E, <-app_assoc.
Qed.

Lemma queue_sub k : k ∈ take n L ∨ k ∈ drop n L ↔ k ∈ L.
Proof. by rewrite <-elem_of_app, take_drop. Qed.

Lemma queue_nodup : NoDup (take n L ++ drop n L).
Proof.
  rewrite take_drop. apply NoDup_app. split_and!; [apply Hwf| |done]. intros k Hk [Hd _]%Hnewly.
  by apply (tw_pruned_inactive t Hwf k Hk).
Qed.

Lemma pruned_desc k : desc (id_to_block t') next k ↔ desc (id_to_block t) next k.
Proof.
  rewrite (removed_desc _ _ _ (tw_links t Hwf) Hm' queue_closed next k); [|
    intros Hin; apply (queue_inactive next); [apply queue_sub; by left|constructor]|apply queue_next_exists].
  split; [tauto|]. intros Hd. split; [done|]. intros Hin. by apply (queue_inactive k); [apply queue_sub; left|].
Qed.

(** What is dropped is dropped with all its ancestors. *)
Lemma pruned_sub c lc : id_to_block t' !! c = Some lc → id_to_block t !! c = Some lc.
Proof. by intros [_ ?]%(removed_lookup _ _ _ Hm'). Qed.
Lemma pruned_closed c lc :
  id_to_block t !! c = Some lc → id_to_block t' !! c = None → id_to_block t' !! lb_parent lc = None.
Proof.
  intros Hc Hn. rewrite Hm' in Hn. case_bool_decide as HcR; [|by rewrite Hc in Hn].
  rewrite Hm'. case_bool_decide as HpR; [done|]. apply eq_None_not_Some. intros Hex.
  by apply HpR, (queue_closed c lc).
Qed.

Lemma pruned_root_parent lr :
  id_to_block t' !! next = Some lr → is_Some (id_to_block t' !! lb_parent lr) → lb_parent lr ∈ drop n L.
Proof.
  intros [_ Hr]%(removed_lookup _ _ _ Hm') [lp [HpR Hp]%(removed_lookup _ _ _ Hm')].
  pose proof (tw_links t Hwf) as Hl.
  enough (lb_parent lr ∈ L) as HpL by (apply queue_sub in HpL; tauto). unfold prune_queue. rewrite elem_of_app.
  destruct (decide (next = commit_root_id t)) as [E|E].
  - left. apply (tw_root_parent t Hwf); [by rewrite <-E|by eexists].
  - right. apply Hnewly.
    destruct (desc_parent _ Hl _ _ _ Hbelow Hr E) as [Hd (lp' & Hlp' & Hc)]. split; [done|]. intros Hd'.
    assert (next = lb_parent lr) as Heq.
    { apply (desc_antisym _ Hl); [by eexists|done|]. econstructor; [constructor|done|done]. }
    destruct (w_child _ Hl _ _ _ Hlp' Hc) as (ln & Hln & _ & Hlt). rewrite <-Heq in Hlp'. simplify_eq. lia.
Qed.

Lemma pruned_tree_wf : tree_wf t'.
Proof.
  pose proof (removed_lookup _ _ _ Hm') as Hlookup. pose proof queue_nodup as HndL.
  split; rewrite ?Eord, ?Ecom, ?Ecert, ?Emax, ?Hpr.
  - eapply removed_links_wf; [apply (tw_links t Hwf)|apply Hm'|apply queue_closed].
  - apply (desc_exists (id_to_block t')  (removed_links_wf _ _ _ (tw_links t Hwf) Hm' queue_closed) next next);
      [|constructor]. destruct queue_next_exists as [ln Hln]. exists ln. apply Hlookup. split; [|done].
    intros Hin. apply (queue_inactive next); [apply queue_sub; by left|constructor].
  - by apply pruned_desc.
  - by apply pruned_desc.
  - apply pruned_root_parent.
  - apply NoDup_app in HndL. tauto.
  - intros k Hk. destruct (queue_inactive k) as [[lk Hlk] Hn]; [apply queue_sub; by right|].
    split; [|by rewrite pruned_desc]. exists lk. apply Hlookup. split; [|done]. intros HkR.
    apply NoDup_app in HndL as (_ & Hdis & _). by apply (Hdis k).
  - intros l1 k l2 lb E [_ Hlb]%Hlookup [lp [HpR Hp]%Hlookup].
    assert (lb_parent lb ∈ take n L ++ l1) as Hin.
    { apply (queue_topo _ k l2 lb); [|done|by eexists]. by rewrite <-app_assoc, <-E, take_drop. }
    apply elem_of_app in Hin. tauto.
  - unfold lenN. rewrite length_drop. unfold excess. lia.
Qed.
End prune_step.

(** Committing never panics, moves the root, keeps everything below it and the invariant. *)
Lemma commit_callback_spec {St} `{!PersistentLivenessStorage St} {E} t storage blocks_to_commit qc decision next :
  tree_wf t → commit_ok t blocks_to_commit qc decision next →
  ∃ t' ids, commit_callback (E := E) t storage blocks_to_commit qc decision =
      Ok (t', (prune_tree ids storage).2) ∧ (∀ k, k ∈ ids ↔ outside t next k) ∧ tree_wf t' ∧
    commit_root_id t' = next ∧ ordered_root_id t' = ordered_root_id t ∧
    highest_certified_block_id t' = highest_certified_block_id t ∧
    bt_highest_ordered_cert t' = bt_highest_ordered_cert t ∧
    qc_commit_info (bt_highest_commit_cert t') = liws_commit_info decision ∧
    (∀ k, desc (id_to_block t') next k ↔ desc (id_to_block t) next k) ∧
    (∀ k, desc (id_to_block t) next k →
      get_block t' k = get_block t k ∧ id_to_quorum_cert t' !! k = id_to_quorum_cert t !! k) ∧
    (∀ c lc, id_to_block t' !! c = Some lc → id_to_block t !! c = Some lc) ∧
    (∀ k qc, id_to_quorum_cert t' !! k = Some qc →
       id_to_quorum_cert t !! k = Some qc ∧ get_block t' k = get_block t k) ∧
    ∀ c lc, id_to_block t !! c = Some lc → id_to_block t' !! c = None →
      id_to_block t' !! lb_parent lc = None.
Proof.
  intros Hwf [(b & Hlast & Hid) Hmatch Hcid Hround Hbelow Hord Hcert]. unfold commit_callback.
  unfold create_merged_with_executed_state. rewrite Hmatch. run_ok. rewrite Hlast. run_ok. rewrite Hid.
  unfold commit_root, get_block at 1. destruct (tw_commit t Hwf) as [lr Hr]. rewrite Hr. cbn [fmap option_fmap option_map]. run_ok.
  destruct (find_blocks_to_prune_spec (E := E) t next (tw_links t Hwf) (tw_commit t Hwf) Hbelow)
    as (newly & -> & Hnd & Hnewly & Htopo). run_ok.
  assert (match prune_tree newly storage with (Panic, _) => Panic | (_, st) => Ok st end =
    Ok (E := E) (prune_tree newly storage).2) as ->.
  { pose proof (prune_tree_returns newly storage) as Hret. by destruct (prune_tree newly storage) as [[| |] st]. }
  run_ok.
  unfold process_pruned_blocks. set (L := pruned_block_ids t ++ newly).
  set (n := (length L - N.to_nat (max_pruned_blocks_in_mem t))%nat).
  pose proof (remove_pruned_spec n t L) as Hrem. destruct (remove_pruned n t L) as [t1 ids'] eqn:Erem.
  destruct Hrem as (-> & Hm & Hq & H1 & H2 & H3 & H4 & H5 & H6).
  unfold update_highest_commit_cert. cbn [bt_highest_commit_cert]. rewrite H4.
  assert (qc_commit_info (mkQuorumCert (qc_vote_data qc) decision) = liws_commit_info decision) as -> by done.
  rewrite (proj2 (N.ltb_lt _ _) Hround). unfold update_commit_root. rewrite Hcid.
  cbn [id_to_block ordered_root_id highest_certified_block_id bt_highest_quorum_cert
    bt_highest_2chain_timeout_cert bt_highest_ordered_cert bt_highest_commit_cert id_to_quorum_cert
    pruned_block_ids max_pruned_blocks_in_mem].
  match goal with |- context [Ok (mkBlockTree ?a ?b ?c ?d ?e ?f ?g ?h ?i ?j ?k)] =>
    set (t' := mkBlockTree a b c d e f g h i j k) end.
  assert (tree_wf t') as Hwf' by by apply (pruned_tree_wf t next newly).
  assert (∀ k, desc (id_to_block t') next k ↔ desc (id_to_block t) next k) as Hdesc
    by (intros k; by apply (pruned_desc t next newly)).
  assert (∀ k, desc (id_to_block t) next k →
    get_block t' k = get_block t k ∧ id_to_quorum_cert t' !! k = id_to_quorum_cert t !! k) as Hkeep.
  { intros k Hd. pose proof Hd as Hd'. apply Hdesc in Hd'. unfold get_block, t'. cbn [id_to_block id_to_quorum_cert].
    rewrite Hm, Hq, bool_decide_false; [done|]. intros Hin.
    destruct (desc_exists _ (tw_links t' Hwf') next k) as [lk Hlk]; [apply Hwf'|done|].
    unfold t' in Hlk. cbn [id_to_block] in Hlk. by rewrite Hm, bool_decide_true in Hlk. }
  exists t', newly. split; [|split_and!; try done].
  - unfold block_exists. rewrite bool_decide_true; [done|]. apply (tw_commit t' Hwf').
  - by eapply (pruned_sub t newly).
  - intros k q. unfold t', get_block. cbn [id_to_quorum_cert id_to_block]. rewrite Hq, Hm. by case_bool_decide.
  - by eapply (pruned_closed t newly).
Qed.

(** ** Reachable trees *)

Inductive tree_step : BlockTree → BlockTree → Prop :=
| step_insert_block t b b' t' :
    insert_ok t b → insert_block t b = Ok (b', t') → tree_step t t'
| step_insert_quorum_cert t qc t' :
    qc_ok t qc → bt_insert_quorum_cert t qc = Ok t' → tree_step t t'
| step_replace_timeout_cert t tc : tree_step t (replace_2chain_timeout_cert t tc)
| step_update_ordered_root t root_id t' :
    desc (id_to_block t) (commit_root_id t) root_id →
    update_ordered_root (E := anyhow) t root_id = Ok t' → tree_step t t'
| step_commit {St} `{!PersistentLivenessStorage St} t storage blocks_to_commit qc decision next t' storage' :
    commit_ok t blocks_to_commit qc decision next →
    commit_callback (E := anyhow) t storage blocks_to_commit qc decision = Ok (t', storage') →
    tree_step t t'.

(** The rounds certified, ordered and committed. *)
Definition rounds_le (t t' : BlockTree) : Prop :=
  certified_round t ≤ certified_round t' ∧
  bi_round (qc_commit_info (bt_highest_ordered_cert t)) ≤
    bi_round (qc_commit_info (bt_highest_ordered_cert t')) ∧
  bi_round (qc_commit_info (bt_highest_commit_cert t)) ≤
    bi_round (qc_commit_info (bt_highest_commit_cert t')).

#[export] Instance rounds_le_preorder : PreOrder rounds_le.
Proof. split; [done|]. intros t1 t2 t3. unfold rounds_le. lia. Qed.

Lemma block_tree_new_wf {E} root qc ordered commit limit tc t :
  block_tree_new (E := E) root qc ordered commit limit tc = Ok t → eb_parent_id root ≠ eb_id root →
  tree_wf t.
Proof.
  intros Hnew Hne. unfold block_tree_new in Hnew. rewrite unit_bind in Hnew. destruct Hnew as [_ [= <-]].
  split; cbn [id_to_block commit_root_id ordered_root_id highest_certified_block_id pruned_block_ids
    max_pruned_blocks_in_mem].
  - split.
    + by intros k lb [<- <-]%lookup_singleton_Some.
    + intros k lb c [<- <-]%lookup_singleton_Some Hc. cbn in Hc. set_solver.
    + intros k lb lp [<- <-]%lookup_singleton_Some [E1 _]%lookup_singleton_Some. by symmetry in E1.
  - rewrite lookup_singleton_eq. by eexists.
  - constructor.
  - constructor.
  - intros lr [_ <-]%lookup_singleton_Some [lp [E1 _]%lookup_singleton_Some]. by symmetry in E1.
  - constructor.
  - by intros k ?%not_elem_of_nil.
  - intros l1 k l2 lb E1. by destruct l1.
  - unfold lenN. cbn. lia.
Qed.

Lemma tree_step_wf t t' : tree_wf t → tree_step t t' → tree_wf t' ∧ rounds_le t t'.
Proof.
  intros Hwf Hstep. destruct (certified_exists t Hwf) as [hb Hhb].
  destruct Hstep as [t b b' t' Hok Hrun|t qc t' Hok Hrun|t tc|t root_id t' Hd Hrun
    |St HSt t storage bs qc decision next t' storage' Hok Hrun].
  - pose proof (insert_block_spec t b Hwf Hok) as Hspec. rewrite Hrun in Hspec.
    destruct Hspec as (Hwf' & _ & Hcase & Hother & _). split; [done|].
    unfold insert_block in Hrun. destruct (get_block t (eb_id b)) eqn:Eb; [by simplify_eq|].
    destruct (id_to_block t !! eb_parent_id b) as [lp|]; [|done]. inv_ok. simplify_eq.
    unfold rounds_le, certified_round. cbn [with_blocks highest_certified_block_id].
    rewrite Hother by (intros E; by rewrite E, Eb in Hhb). cbn. lia.
  - pose proof (insert_quorum_cert_spec t qc Hwf Hok) as Hspec. rewrite Hrun in Hspec.
    destruct Hspec as (Hwf' & _ & _ & Hcert & Hord). split; [done|]. unfold rounds_le. split_and!; [done|lia|].
    unfold bt_insert_quorum_cert in Hrun. destruct (get_block t _); [|done]. inv_ok.
    destruct (if _ <? _ then _ else _). simplify_eq. cbn. lia.
  - split; [|done]. destruct Hwf. by split.
  - unfold update_ordered_root in Hrun. rewrite unit_bind in Hrun. destruct Hrun as [_ [= <-]].
    split; [|done]. destruct Hwf. by split.
  - destruct (commit_callback_spec (E := anyhow) t storage bs qc decision next Hwf Hok)
      as (t'' & ids & Hrun' & _ & Hwf' & _ & _ & Hhc & Hord & Hcom & _ & Hkeep & _).
    rewrite Hrun in Hrun'. injection Hrun' as <- _. split; [done|]. unfold rounds_le, certified_round.
    rewrite Hhc, Hord, Hcom, (proj1 (Hkeep _ (co_certified _ _ _ _ _ Hok))). split_and!; [lia|lia|]. pose proof (co_round _ _ _ _ _ Hok). lia.
Qed.

(** ** Properties *)


(** [find_blocks_to_prune] returns, without repetition and each after its parent, exactly
    the blocks below the commit root that are not below the new root. *)
Theorem find_blocks_to_prune_correct {E} t next
    (Hwf : tree_wf t) (Hnext : desc (id_to_block t) (commit_root_id t) next) :
  ∃ l, find_blocks_to_prune (E := E) t next = Ok l ∧ NoDup l ∧
    (∀ k, k ∈ l ↔ desc (id_to_block t) (commit_root_id t) k ∧ ¬ desc (id_to_block t) next k) ∧
    ∀ l1 k l2 b, l = l1 ++ k :: l2 → k ≠ commit_root_id t → get_block t k = Some b → eb_parent_id b ∈ l1.
Proof.
  destruct (find_blocks_to_prune_spec (E := E) t next (tw_links t Hwf) (tw_commit t Hwf) Hnext)
    as (l & Hrun & Hnd & Hin & Htopo).
  exists l. split_and!; [done|done|done|]. intros l1 k l2 b El Hk (lb & Hlb & <-)%get_block_Some. eauto.
Qed.

(** [path_from_root_to_block] terminates and returns the path of parent links from the
    root to the block, and [None] exactly when the block is not below the root. *)
Theorem path_from_root_correct t root b k
    (Hwf : tree_wf t) (Hroot : get_block t root = Some b) :
  (∀ l, path_from_root_to_block t k root (eb_round b) = Some l ↔ path_ok t root l k) ∧
  (path_from_root_to_block t k root (eb_round b) = None ↔ ¬ desc (id_to_block t) root k).
Proof.
  apply get_block_Some in Hroot as (lr & Hr & <-). fold (lb_round lr).
  assert (∀ l, path_from_root_to_block t k root (lb_round lr) = Some l ↔ path_ok t root l k) as Hpath
    by (intros l; apply path_from_root_spec; [apply Hwf|done]).
  split; [done|]. destruct (path_from_root_to_block t k root (lb_round lr)) as [l|] eqn:Ep.
  - split; [done|]. intros []. apply (path_ok_desc t (tw_links t Hwf) l); [by eexists|]. by apply Hpath.
  - split; [|done]. intros _ Hd. destruct (desc_path_ok t (tw_links t Hwf) root k) as [l Hl]; [by eexists|done|].
    by apply Hpath in Hl.
Qed.

(** The commit callback never panics, whatever the storage answers: it asks the storage to
    delete exactly the blocks below the old root that are not below the committed one, makes
    the committed block the commit root, keeps every block below it with its certificate, and
    leaves a tree in which the invariant holds. *)
Theorem commit_callback_correct {St} `{!PersistentLivenessStorage St} {E} t storage blocks_to_commit qc
    decision next
    (Hwf : tree_wf t) (Hok : commit_ok t blocks_to_commit qc decision next) :
  ∃ t' ids, commit_callback (E := E) t storage blocks_to_commit qc decision =
      Ok (t', (prune_tree ids storage).2) ∧
    (∀ k, k ∈ ids ↔ desc (id_to_block t) (commit_root_id t) k ∧ ¬ desc (id_to_block t) next k) ∧
    tree_wf t' ∧ commit_root_id t' = next ∧
    qc_commit_info (bt_highest_commit_cert t') = liws_commit_info decision ∧
    (∀ k, desc (id_to_block t') next k ↔ desc (id_to_block t) next k) ∧
    ∀ k, desc (id_to_block t) next k →
      get_block t' k = get_block t k ∧ id_to_quorum_cert t' !! k = id_to_quorum_cert t !! k.
Proof.
  destruct (commit_callback_spec (E := E) t storage blocks_to_commit qc decision next Hwf Hok)
    as (t' & ids & ? & ? & ? & ? & _ & _ & _ & ? & ? & ? & _). by exists t', ids.
Qed.

(** ** A small tree

    The root 100 of round 1, its child 101 of round 2, and two blocks on that: 102 of round 3
    and a fork 103 of round 4. *)
Definition sample_certificate (round id : N) : QuorumCert :=
  let info := mkBlockInfo 1 round id 0 0 0 None in
  mkQuorumCert (mkVoteData info info) (mkLIWS (mkLedgerInfo info 0) aggregate_signature_empty).
Definition sample_executed (id round parent_round parent : N) : ExecutedBlock :=
  mkExecutedBlock
    (mkBlock id (mkBlockData 1 round 0 (sample_certificate parent_round parent) (NilBlock [])) None)
    scr_new_dummy.
Definition sample_root : ExecutedBlock := sample_executed 100 1 0 99.

Definition insert_all (t : BlockTree) (l : list ExecutedBlock) : BlockTree :=
  foldl (λ t b, match insert_block t b with Ok (_, t') => t' | _ => t end) t l.
Definition sample_tree0 : BlockTree :=
  match block_tree_new (E := anyhow) sample_root (sample_certificate 1 100) (sample_certificate 1 100)
          (sample_certificate 1 100) 1 None with
  | Ok t => t
  | _ => mkBlockTree ∅ 0 0 0 (sample_certificate 0 0) None (sample_certificate 0 0)
           (sample_certificate 0 0) ∅ [] 0
  end.
Definition sample_blocks : list ExecutedBlock :=
  [sample_executed 101 2 1 100; sample_executed 102 3 2 101; sample_executed 103 4 2 101].
Definition sample_tree (n : nat) : BlockTree := insert_all sample_tree0 (take n sample_blocks).

(** Decides [insert_ok] on a concrete tree. *)
Lemma insert_ok_dec t b :
  match id_to_block t !! eb_parent_id b with Some lp => lb_round lp <? eb_round b | None => true end
  && forallb (λ e : N * LinkableBlock, negb (lb_parent e.2 =? eb_id b)) (map_to_list (id_to_block t)) = true →
  insert_ok t b.
Proof.
  intros [H1 H2]%andb_prop. split.
  - intros lp Hlp. rewrite Hlp in H1. by apply N.ltb_lt.
  - intros c lc Hc E. apply elem_of_map_to_list in Hc. rewrite forallb_forall in H2.
    specialize (H2 (c, lc)). rewrite <-list_elem_of_In in H2. specialize (H2 Hc). cbn in H2.
    by rewrite E, N.eqb_refl in H2.
Qed.

Lemma sample_step n b :
  sample_blocks !! n = Some b → (n < 3)%nat → tree_step (sample_tree n) (sample_tree (S n)).
Proof.
  intros Hb Hn. assert (insert_ok (sample_tree n) b) as Hok.
  { apply insert_ok_dec. destruct n as [|[|[|]]]; [..|lia]; injection Hb as <-; vm_compute; reflexivity. }
  assert (∃ b' t', insert_block (sample_tree n) b = Ok (b', t') ∧ t' = sample_tree (S n)) as (b' & t' & Hrun & <-).
  { destruct n as [|[|[|]]]; [..|lia]; injection Hb as <-; eexists _, _; split; vm_compute; reflexivity. }
  by eapply step_insert_block.
Qed.
Lemma sample_tree_steps : rtc tree_step sample_tree0 (sample_tree 3).
Proof.
  do 3 (eapply rtc_r; [|eapply sample_step; [reflexivity|lia]]). constructor.
Qed.
Lemma sample_tree_wf : tree_wf (sample_tree 3).
Proof.
  assert (tree_wf (sample_tree 0)) as H0.
  { eapply (block_tree_new_wf (E := anyhow) sample_root (sample_certificate 1 100) (sample_certificate 1 100)
      (sample_certificate 1 100) 1 None); [reflexivity|discriminate]. }
  do 3 (eapply tree_step_wf; [|eapply sample_step; [reflexivity|lia]]). done.
Qed.
Lemma sample_below : desc (id_to_block (sample_tree 3)) 100 101.
Proof.
  eapply desc_step; [constructor|vm_compute; reflexivity|]. cbn. set_solver.
Qed.


Lemma find_blocks_to_prune_correct_witness :
  let t := sample_tree 3 in
  ∃ l, find_blocks_to_prune (E := anyhow) t 101 = Ok l ∧ NoDup l ∧
    (∀ k, k ∈ l ↔ desc (id_to_block t) (commit_root_id t) k ∧ ¬ desc (id_to_block t) 101 k) ∧
    ∀ l1 k l2 b, l = l1 ++ k :: l2 → k ≠ commit_root_id t → get_block t k = Some b → eb_parent_id b ∈ l1.
Proof. apply find_blocks_to_prune_correct; [apply sample_tree_wf|apply sample_below]. Defined.

Lemma path_from_root_correct_witness :
  let t := sample_tree 3 in
  (∀ l, path_from_root_to_block t 103 100 (eb_round sample_root) = Some l ↔ path_ok t 100 l 103) ∧
  (path_from_root_to_block t 103 100 (eb_round sample_root) = None ↔ ¬ desc (id_to_block t) 100 103).
Proof. apply path_from_root_correct; [apply sample_tree_wf|vm_compute; reflexivity]. Defined.

#[local] Existing Instance sample_hashes.
Definition sample_storage : StorageWriteProxy sample_bytes :=
  mkStorageWriteProxy (mkConsensusDB None None ∅ ∅ [])
    (mkDbReader (Err (fmt "empty" [])) (λ _, Err (fmt "empty" []))).

Lemma commit_callback_correct_witness :
  let t := sample_tree 3 in
  let t1 := mkBlockTree (id_to_block t) 101 100 101 (bt_highest_quorum_cert t)
    (bt_highest_2chain_timeout_cert t) (bt_highest_ordered_cert t) (bt_highest_commit_cert t)
    (id_to_quorum_cert t) (pruned_block_ids t) (max_pruned_blocks_in_mem t) in
  let decision := qc_signed_ledger_info (sample_certificate 2 101) in
  ∃ t' ids, commit_callback (St := StorageWriteProxy sample_bytes) (E := anyhow) t1 sample_storage
      [sample_executed 101 2 1 100] (sample_certificate 2 101) decision =
      Ok (t', (prune_tree ids sample_storage).2) ∧
    (∀ k, k ∈ ids ↔ desc (id_to_block t1) 100 k ∧ ¬ desc (id_to_block t1) 101 k) ∧
    tree_wf t' ∧ commit_root_id t' = 101 ∧
    qc_commit_info (bt_highest_commit_cert t') = liws_commit_info decision ∧
    (∀ k, desc (id_to_block t') 101 k ↔ desc (id_to_block t1) 101 k) ∧
    ∀ k, desc (id_to_block t1) 101 k →
      get_block t' k = get_block t1 k ∧ id_to_quorum_cert t' !! k = id_to_quorum_cert t1 !! k.
Proof.
  intros t t1 decision. apply (commit_callback_correct (E := anyhow) t1 sample_storage).
  - destruct sample_tree_wf. split; cbn [id_to_block commit_root_id ordered_root_id highest_certified_block_id
      pruned_block_ids max_pruned_blocks_in_mem t1]; try done; apply sample_below.
  - split; try done.
    + by exists (sample_executed 101 2 1 100).
    + apply sample_below.
    + constructor.
    + constructor.
Defined.
