(* ===== verification/BlockStore.v ===== *)
(** * The block store (consensus/src/block_storage/block_store.rs)

    The block tree together with the storage it is persisted to and the executor that computes
    the blocks: every insertion executes, then persists, then enters the tree. *)
From S2P Require Import Prelude BitVec Crypto Accumulator ValidatorVerifier LedgerInfo ConsensusTypes Recovery BlockTree.
Local Open Scope N_scope.

(** ** Services *)

(** execution/executor-types/src/error.rs *)
Inductive ExecutionError :=
| BlockNotFound (id : HashValue)
| DataNotFound (id : HashValue)
| BadNumTxnsToCommit (first_version to_commit target_version : N)
| InternalError (error : anyhow)
| SerializationError (error : anyhow)
| EmptyBlocks.

Definition execution_error_anyhow (e : ExecutionError) : anyhow :=
  match e with
  | BlockNotFound id => fmt "Cannot find speculation result for block id {0}" [id]
  | DataNotFound id => fmt "Cannot get data for batch id {0}" [id]
  | BadNumTxnsToCommit a b c =>
      fmt "Bad num_txns_to_commit. first version {}, num to commit: {}, target version: {}" [a; b; c]
  | InternalError e => with_context "Internal error: {:?}" e
  | SerializationError e => with_context "Serialization error: {0}" e
  | EmptyBlocks => fmt "Received Empty Blocks" []
  end.

(** The executor (trait [StateComputer]) and the payload manager. They share the ledger with
    the storage, so they act on one state [W]; the callback given to [commit] is invoked
    later, when the blocks are executed and their commit is certified. *)
Class StateComputer (W : Type) := {
  compute : Block → HashValue → M W ExecutionError StateComputeResult;
  sc_commit : list ExecutedBlock → LedgerInfoWithSignatures → M W ExecutionError unit;
  sync_to : LedgerInfoWithSignatures → M W anyhow unit;
  prefetch_payload_data : Block → M W Infallible unit;
}.

Record BlockStore (W : Type) := mkBlockStore {
  bs_inner : BlockTree;
  bs_world : W;
  back_pressure_limit : Round;
}.
Arguments mkBlockStore {W} _ _ _.
Arguments bs_inner {W} _.
Arguments bs_world {W} _.
Arguments back_pressure_limit {W} _.

Section store.
Context {W : Type} `{!PersistentLivenessStorage W} `{!StateComputer W}.
Local Abbreviation store := (BlockStore W) (only parsing).

Definition absurd {A} (e : Infallible) : A := match e with end.

(** A call on a service. *)
Definition on_world {E A} (m : M W E A) : M store E A :=
  zoom bs_world (λ w s, mkBlockStore (bs_inner s) w (back_pressure_limit s)) m.
Definition set_inner (t : BlockTree) (s : store) : store :=
  mkBlockStore t (bs_world s) (back_pressure_limit s).
(** [self.inner.read()] and [self.inner.write()] *)
Definition read_inner {E A} (f : BlockTree → outcome E A) : M store E A := λ s, (f (bs_inner s), s).
Definition write_inner {E A} (f : BlockTree → outcome E (A * BlockTree)) : M store E A := λ s,
  match f (bs_inner s) with
  | Ok (a, t) => (Ok a, set_inner t s)
  | Err e => (Err e, s)
  | Panic => (Panic, s)
  end.
(** [.context(..)] *)
Definition mcontext {E A} (msg : string) (m : M E anyhow A) : M E anyhow A :=
  mmap_err (with_context msg) m.

Definition execute_block (block : Block) : M store ExecutionError ExecutedBlock :=
  state_compute_result ← on_world (compute block (block_parent_id block));
  mret (mkExecutedBlock block state_compute_result).

(** Re-executes the path from the ordered root, after the executor lost its block tree. *)
Fixpoint reexecute (blocks_to_reexecute : list ExecutedBlock) : M store ExecutionError unit :=
  match blocks_to_reexecute with
  | [] => mret tt
  | block :: blocks => _ ← execute_block (eb_block block); reexecute blocks
  end.
Definition execute_or_recover (block : Block) : M store ExecutionError ExecutedBlock := λ s,
  match execute_block block s with
  | (Err (BlockNotFound parent_block_id), s) =>
      (path ← read_inner (λ t, path_from_ordered_root t parent_block_id);
       _ ← reexecute (default [] path);
       execute_block block) s
  | res => res
  end.

(** Waiting for the time of the block has no effect on the state. *)
Definition execute_and_insert_block (block : Block) : M store anyhow ExecutedBlock :=
  s ← mget;
  match get_block (bs_inner s) (block_id block) with
  | Some existing_block => mret existing_block
  | None =>
      root ← read_inner ordered_root;
      _ ← mlift (ensure (eb_round root <? block_round block) (fmt "Block with old round" []));
      executed_block ← mmap_err execution_error_anyhow (execute_or_recover block);
      _ ← mmap_err absurd (on_world (prefetch_payload_data (eb_block executed_block)));
      _ ← mcontext "Insert block failed when saving block"
            (on_world (save_tree [eb_block executed_block] []));
      write_inner (λ t, insert_block t executed_block)
  end.

Definition insert_single_quorum_cert (qc : QuorumCert) : M store anyhow unit :=
  s ← mget;
  _ ← mlift (match get_block (bs_inner s) (bi_id (certified_block qc)) with
             | Some executed_block =>
                 ensure (match_ordered_only (eb_block_info executed_block) (certified_block qc))
                   (fmt "QC for block {} has different {:?} than local {:?}" [bi_id (certified_block qc)])
             | None => Err (fmt "Insert {} without having the block in store first" [])
             end);
  _ ← mcontext "Insert block failed when saving quorum" (on_world (save_tree [] [qc]));
  write_inner (λ t, t' ← bt_insert_quorum_cert t qc; Ok (tt, t')).

Definition insert_2chain_timeout_certificate (tc : TwoChainTimeoutCertificate) : M store anyhow unit :=
  s ← mget;
  let cur_tc_round := from_option tc_round 0 (bt_highest_2chain_timeout_cert (bs_inner s)) in
  if tc_round tc <=? cur_tc_round then mret tt
  else
    _ ← mcontext "Timeout certificate insert failed when persisting to DB"
          (on_world (save_highest_2chain_timeout_cert tc));
    write_inner (λ t, Ok (tt, replace_2chain_timeout_cert t tc)).

Definition commit (finality_proof : QuorumCert) : M store anyhow unit :=
  s ← mget;
  let block_id_to_commit := bi_id (qc_commit_info finality_proof) in
  block_to_commit ← mlift (ok_or (get_block (bs_inner s) block_id_to_commit)
                             (fmt "Committed block id not found" []));
  root ← read_inner ordered_root;
  _ ← mlift (ensure (eb_round root <? eb_round block_to_commit)
               (fmt "Committed block round lower than root" []));
  path ← read_inner (λ t, path_from_ordered_root t block_id_to_commit);
  let blocks_to_commit := default [] path in
  _ ← mlift (rassert (bool_decide (blocks_to_commit ≠ [])));
  _ ← mexpect (on_world (sc_commit blocks_to_commit (qc_signed_ledger_info finality_proof)));
  write_inner (λ t, t' ← update_ordered_root t (eb_id block_to_commit); Ok (tt, t')).

(** The callback [commit] hands to the executor. *)
Definition invoke_callback (finality_proof : QuorumCert) (committed_blocks : list ExecutedBlock)
    (commit_decision : LedgerInfoWithSignatures) : M store Infallible unit := λ s,
  match commit_callback (bs_inner s) (bs_world s) committed_blocks finality_proof commit_decision with
  | Ok (t, w) => (Ok tt, mkBlockStore t w (back_pressure_limit s))
  | Err e => (Err e, s)
  | Panic => (Panic, s)
  end.

(** [certs.sort_unstable_by_key(|qc| qc.commit_info().round())] *)
Fixpoint insert_by_commit_round (qc : QuorumCert) (certs : list QuorumCert) : list QuorumCert :=
  match certs with
  | [] => [qc]
  | c :: certs' =>
      if bi_round (qc_commit_info qc) <=? bi_round (qc_commit_info c) then qc :: certs
      else c :: insert_by_commit_round qc certs'
  end.
(** Errors of [commit] are only logged. *)
Fixpoint commit_certs (certs : list QuorumCert) : M store Infallible unit :=
  match certs with
  | [] => mret tt
  | qc :: certs =>
      root ← read_inner commit_root;
      _ ← (if bi_round (qc_commit_info qc) <=? eb_round root then mret tt
           else λ s, match commit qc s with
                     | (Panic, s) => (Panic, s)
                     | (_, s) => (Ok tt, s)
                     end);
      commit_certs certs
  end.
Definition try_commit : M store Infallible unit :=
  s ← mget;
  commit_certs (foldr insert_by_commit_round [] (get_all_quorum_certs_with_commit_info (bs_inner s))).

Fixpoint insert_blocks (blocks : list Block) : M store Infallible unit :=
  match blocks with
  | [] => mret tt
  | block :: blocks => _ ← mexpect (execute_and_insert_block block); insert_blocks blocks
  end.
Fixpoint insert_certs (quorum_certs : list QuorumCert) : M store Infallible unit :=
  match quorum_certs with
  | [] => mret tt
  | qc :: qcs => _ ← mexpect (insert_single_quorum_cert qc); insert_certs qcs
  end.

(** [build], on the services [w]; the store it returns is the state of the result. *)
Definition build_root (root : RootInfo) (root_metadata : RootMetadata) : ExecutedBlock :=
  mkExecutedBlock (root_block root)
    (mkStateComputeResult (accu_hash root_metadata) (frozen_root_hashes root_metadata)
       (rm_num_leaves root_metadata) [] 0 None [] [] []).
Definition build (root : RootInfo) (root_metadata : RootMetadata) (blocks : list Block)
    (quorum_certs : list QuorumCert) (highest_2chain_timeout_cert : option TwoChainTimeoutCertificate)
    (max_pruned_blocks_in_mem : N) (back_pressure_limit : Round) (w : W) : outcome Infallible store :=
  let root_info := certified_block (root_quorum_cert root) in
  _ ← rassert ((bi_version root_info =? 0) || (bi_version root_info =? root_metadata_version root_metadata));
  _ ← rassert ((bi_executed_state_id root_info =? ACCUMULATOR_PLACEHOLDER_HASH)
               || (bi_executed_state_id root_info =? accu_hash root_metadata));
  tree ← block_tree_new (build_root root root_metadata) (root_quorum_cert root) (root_ordered_cert root)
           (root_commit_cert root) max_pruned_blocks_in_mem highest_2chain_timeout_cert;
  let '(r, s) := (_ ← insert_blocks blocks; insert_certs quorum_certs)
                   (mkBlockStore tree w back_pressure_limit) in
  _ ← r; Ok s.

Definition block_store_new (initial_data : RecoveryData) (max_pruned_blocks_in_mem : N)
    (back_pressure_limit : Round) (w : W) : outcome Infallible store :=
  s ← build (rd_root initial_data) (rd_root_metadata initial_data) (rd_blocks initial_data)
        (rd_quorum_certs initial_data) (rd_highest_2chain_timeout_certificate initial_data)
        max_pruned_blocks_in_mem back_pressure_limit w;
  let '(r, s) := try_commit s in
  _ ← r; Ok s.

Definition rebuild (root : RootInfo) (root_metadata : RootMetadata) (blocks : list Block)
    (quorum_certs : list QuorumCert) : M store Infallible unit := λ s,
  match build root root_metadata blocks quorum_certs (bt_highest_2chain_timeout_cert (bs_inner s))
          (max_pruned_blocks_in_mem (bs_inner s)) (back_pressure_limit s) (bs_world s) with
  | Ok s' => try_commit (mkBlockStore (bs_inner s') (bs_world s') (back_pressure_limit s))
  | Err e => (Err e, s)
  | Panic => (Panic, s)
  end.

Definition back_pressure : M store Infallible bool :=
  commit_root ← read_inner commit_root;
  ordered_root ← read_inner ordered_root;
  s ← mget;
  _ ← mlift (u64_sub (eb_round ordered_root) (eb_round commit_root));
  limit ← mlift (u64_add (back_pressure_limit s) (eb_round commit_root));
  mret (limit <? eb_round ordered_root).

Definition sync_info (s : store) : SyncInfo :=
  let t := bs_inner s in
  sync_info_new_decoupled (bt_highest_quorum_cert t) (bt_highest_ordered_cert t)
    (bt_highest_commit_cert t) (bt_highest_2chain_timeout_cert t).
End store.

(** ** Durability

    The store over the database proxy, next to an executor with a state of its own. *)

Definition on_storage {St Ex E A} (m : M St E A) : M (St * Ex) E A := zoom fst (λ st w, (st, w.2)) m.
#[export] Program Instance paired_storage {St Ex} `{!PersistentLivenessStorage St}
  : PersistentLivenessStorage (St * Ex) := {|
  save_tree blocks qcs := on_storage (save_tree blocks qcs);
  prune_tree ids := on_storage (prune_tree ids);
  save_vote vote := on_storage (save_vote vote);
  save_highest_2chain_timeout_cert tc := on_storage (save_highest_2chain_timeout_cert tc);
  recover_from_ledger := on_storage recover_from_ledger;
  start := on_storage start;
|}.
Next Obligation.
  intros St Ex HSt blocks qcs [st ex]. unfold on_storage, zoom. cbn.
  pose proof (save_tree_returns blocks qcs st). by destruct (save_tree blocks qcs st).
Qed.
Next Obligation.
  intros St Ex HSt ids [st ex]. unfold on_storage, zoom. cbn.
  pose proof (prune_tree_returns ids st). by destruct (prune_tree ids st).
Qed.

Section durable.
Context {Bytes Ex : Type} `{!ArxHashes} `{!Bcs Vote Bytes} `{!Bcs TwoChainTimeoutCertificate Bytes}.
Local Abbreviation W := (StorageWriteProxy Bytes * Ex)%type (only parsing).
Context `{!StateComputer W}.
Local Abbreviation store := (BlockStore W) (only parsing).

Definition db_of (s : store) : ConsensusDB Bytes := swp_db (bs_world s).1.

(** The executor does not write the consensus database. *)
Definition keeps_db {E A} (m : M W E A) : Prop := ∀ w r w', m w = (r, w') → swp_db w'.1 = swp_db w.1.
Class IsolatedExecutor := {
  compute_keeps_db block parent : keeps_db (compute block parent);
  commit_keeps_db blocks li : keeps_db (sc_commit blocks li);
  prefetch_keeps_db block : keeps_db (prefetch_payload_data block);
}.
Context `{!IsolatedExecutor}.

(** Neither the tree nor the database changed. *)
Definition quiet (s s' : store) : Prop := bs_inner s' = bs_inner s ∧ db_of s' = db_of s.
#[local] Instance quiet_preorder : PreOrder quiet.
Proof. split; [done|]. intros s1 s2 s3 [] []. split; congruence. Qed.

Lemma on_world_run {E A} (m : M W E A) s r s' :
  on_world m s = (r, s') ↔
  ∃ w, m (bs_world s) = (r, w) ∧ s' = mkBlockStore (bs_inner s) w (back_pressure_limit s).
Proof. unfold on_world, zoom. destruct (m (bs_world s)). naive_solver. Qed.

Lemma on_world_quiet {E A} (m : M W E A) s r s' : keeps_db m → on_world m s = (r, s') → quiet s s'.
Proof. intros Hm (w & Hrun & ->)%on_world_run. split; [done|]. by apply (Hm _ _ _ Hrun). Qed.

Lemma execute_block_run block s r s' : execute_block block s = (r, s') →
  quiet s s' ∧ ∀ eb, r = Ok eb → eb_block eb = block.
Proof.
  intros [(scr & s1 & Hrun & Hret)|(r' & Hrun & Hr' & Hr)]%M_bind_inv.
  - apply mret_run in Hret as [-> ->]. split; [|by intros eb [= <-]].
    eapply on_world_quiet; [|done]. apply compute_keeps_db.
  - split; [|intros eb ->; done]. eapply on_world_quiet; [|done]. apply compute_keeps_db.
Qed.

Lemma reexecute_quiet l : ∀ s r s', reexecute l s = (r, s') → quiet s s'.
Proof.
  induction l as [|b l IH]; intros s r s'; [by intros [_ ->]%mret_run|].
  intros [(eb & s1 & Hrun & Hrest)|(r' & Hrun & _)]%M_bind_inv; apply execute_block_run in Hrun as [Hq _].
  - transitivity s1; [done|by eapply IH].
  - done.
Qed.

Lemma execute_or_recover_run block s r s' : execute_or_recover block s = (r, s') →
  quiet s s' ∧ ∀ eb, r = Ok eb → eb_block eb = block.
Proof.
  unfold execute_or_recover. destruct (execute_block block s) as [r1 s1] eqn:E1.
  pose proof (execute_block_run _ _ _ _ E1) as [Hq1 Hb1].
  destruct r1 as [eb|[]|]; intros Hrun; simplify_eq; try by split.
  apply M_bind_inv in Hrun as [(path & s2 & H2 & Hrun)|(r' & H2 & _ & Hr)]; unfold read_inner in H2;
    injection H2 as ? ?; subst; [|by split; [|intros eb ->]].
  apply M_bind_inv in Hrun as [(u & s3 & H3 & Hrun)|(r' & H3 & _ & Hr)]; apply reexecute_quiet in H3.
  - apply execute_block_run in Hrun as [Hq4 Hb4]. split; [|done]. by rewrite Hq1, H3.
  - split; [by rewrite Hq1|by intros eb ->].
Qed.

(** Runs of [map_err] and [context]. *)
Lemma mmap_err_run {S E F A} (f : E → F) (m : M S E A) s r s' :
  mmap_err f m s = (r, s') ↔ ∃ r0, m s = (r0, s') ∧ r = map_err f r0.
Proof. unfold mmap_err. destruct (m s). naive_solver. Qed.

(** The writes of the storage, seen from the store. *)
Lemma save_tree_run blocks qcs s r s' :
  on_world (save_tree blocks qcs) s = (r, s') →
  bs_inner s' = bs_inner s ∧ same_entries (db_of s) (db_of s') ∧
  ((∃ e, r = Err e) ∧ db_blocks (db_of s') = db_blocks (db_of s) ∧
     db_quorum_certs (db_of s') = db_quorum_certs (db_of s) ∨
   r = Ok tt ∧
   (∀ k, db_blocks (db_of s') !! k =
      match last (filter (λ b, block_id b = k) blocks) with
      | Some b => Some b | None => db_blocks (db_of s) !! k end) ∧
   (∀ k, db_quorum_certs (db_of s') !! k =
      match last (filter (λ q, bi_id (certified_block q) = k) qcs) with
      | Some q => Some q | None => db_quorum_certs (db_of s) !! k end)).
Proof.
  intros (w & Hrun & ->)%on_world_run. split; [done|]. unfold db_of. cbn [bs_world].
  cbn in Hrun. unfold on_storage, zoom in Hrun.
  destruct (swp_save_tree blocks qcs (bs_world s).1) as [r0 p] eqn:E. injection Hrun as <- <-.
  apply swp_save_tree_run in E as [[_ ?] ?]. by split.
Qed.

(** *** What is kept

    [known] are the blocks that can be received: their ids are distinct (the hash), and a block
    is of the epoch of its parent and of a later round (checked when it is verified).
    [commit_of] is the block that a certificate of a given block commits: the voters of a block
    agree on it. *)
Context (known : Block → Prop) (commit_of : HashValue → HashValue).
Record known_ok : Prop := {
  known_inj b c : known b → known c → block_id b = block_id c → b = c;
  known_parent p b : known p → known b → block_parent_id b = block_id p →
    block_epoch p = block_epoch b ∧ block_round p < block_round b;
}.
Context (Hknown : known_ok).

(** [a] is [k] or an ancestor of it. *)
Inductive ancestor (a : HashValue) : HashValue → Prop :=
| ancestor_refl : ancestor a a
| ancestor_up b : known b → ancestor a (block_parent_id b) → ancestor a (block_id b).

Record durable (s : store) : Prop := {
  du_wf : tree_wf (bs_inner s);
  du_known k b : get_block (bs_inner s) k = Some b → known (eb_block b);
  (** The blocks dropped from the tree were dropped with their ancestors. *)
  du_absent c b a : get_block (bs_inner s) c = Some b → get_block (bs_inner s) (eb_parent_id b) = None →
    ancestor a (eb_parent_id b) → get_block (bs_inner s) a = None;
  du_cert_block k : is_Some (get_quorum_cert_for_block (bs_inner s) k) → is_Some (get_block (bs_inner s) k);
  (** Every block below the commit root is in the database, and so is a certificate for each
      certified one. *)
  du_blocks k b : desc (id_to_block (bs_inner s)) (commit_root_id (bs_inner s)) k →
    get_block (bs_inner s) k = Some b → db_blocks (db_of s) !! k = Some (eb_block b);
  du_certs k : desc (id_to_block (bs_inner s)) (commit_root_id (bs_inner s)) k →
    is_Some (get_quorum_cert_for_block (bs_inner s) k) → is_Some (db_quorum_certs (db_of s) !! k);
  (** What the database holds. *)
  du_saved k b : db_blocks (db_of s) !! k = Some b → block_id b = k ∧ known b;
  du_saved_certs k qc : db_quorum_certs (db_of s) !! k = Some qc →
    bi_id (certified_block qc) = k ∧ bi_id (qc_commit_info qc) = commit_of k;
  du_vote bs : db_last_vote (db_of s) = Some bs → ∃ v : Vote, to_bytes v = Ok bs;
  du_tc bs : db_highest_2chain_timeout_cert (db_of s) = Some bs →
    ∃ c : TwoChainTimeoutCertificate, to_bytes c = Ok bs;
}.

Lemma durable_quiet s s' : durable s → quiet s s' → durable s'.
Proof. intros [] [Et Ed]. split; rewrite ?Et, ?Ed; done. Qed.

Lemma last_filter_Some {A} (P : A → Prop) `{!∀ x, Decision (P x)} (l : list A) x :
  last (filter P l) = Some x → P x ∧ x ∈ l.
Proof. intros Hx%last_Some_elem_of. by apply list_elem_of_filter in Hx. Qed.
Lemma last_filter_None {A} (P : A → Prop) `{!∀ x, Decision (P x)} (l : list A) x :
  last (filter P l) = None → x ∈ l → ¬ P x.
Proof.
  rewrite last_None. intros E Hin HP. apply (not_elem_of_nil x). rewrite <-E. by apply list_elem_of_filter.
Qed.

(** Persisting known blocks and agreed certificates. *)
Lemma save_tree_durable blocks qcs s r s' :
  durable s → (∀ b, b ∈ blocks → known b) →
  (∀ qc, qc ∈ qcs → bi_id (qc_commit_info qc) = commit_of (bi_id (certified_block qc))) →
  on_world (save_tree blocks qcs) s = (r, s') →
  durable s' ∧ bs_inner s' = bs_inner s ∧
  (r = Ok tt → (∀ b, b ∈ blocks → db_blocks (db_of s') !! block_id b = Some b) ∧
     ∀ qc, qc ∈ qcs → is_Some (db_quorum_certs (db_of s') !! bi_id (certified_block qc))).
Proof.
  intros Hd Hk Hc Hrun. apply save_tree_run in Hrun as (Ht & [Ev Etc] & [([e ->] & Eb & Eq)|(-> & Eb & Eq)]).
  { split; [|done]. destruct Hd. split; rewrite ?Ht, ?Eb, ?Eq, ?Ev, ?Etc; done. }
  assert (∀ k b, last (filter (λ b, block_id b = k) blocks) = Some b → block_id b = k ∧ known b) as Hlb.
  { intros k b [? ?]%last_filter_Some. auto. }
  split; [|split; [done|]]; [destruct Hd as [Hwf Hkn Habs Hcb Hbl Hce Hsa Hsc Hv Htc]; split;
    rewrite ?Ht, ?Ev, ?Etc; try done|].
  - intros k b Hdk Hb. rewrite Eb. destruct (last _) as [b'|] eqn:E; [|by apply Hbl]. f_equal.
    apply Hlb in E as [Hid Hkb]. apply (known_inj Hknown); [done|by apply (Hkn k)|].
    rewrite Hid. symmetry. by apply (get_block_id _ (tw_links _ Hwf)).
  - intros k Hdk Hq. rewrite Eq. destruct (last _); [by eexists|]. by apply Hce.
  - intros k b. rewrite Eb. destruct (last _) as [b'|] eqn:E; [|by apply Hsa].
    intros [= <-]. by apply Hlb.
  - intros k qc. rewrite Eq. destruct (last _) as [q'|] eqn:E; [|by apply Hsc].
    intros [= <-]. apply last_filter_Some in E as [<- Hin]. split; [done|]. by apply Hc.
  - intros _. split.
    + intros b Hb. rewrite Eb. destruct (last _) as [b'|] eqn:E.
      * f_equal. apply last_filter_Some in E as [Hid Hin]. apply (known_inj Hknown); auto.
      * by destruct (last_filter_None _ _ _ E Hb).
    + intros qc Hq. rewrite Eq. destruct (last _) as [q'|] eqn:E; [by eexists|].
      by destruct (last_filter_None _ _ _ E Hq).
Qed.

(** *** Inserting a block *)

Lemma ancestor_trans a b c : ancestor a b → ancestor b c → ancestor a c.
Proof. intros Hab. induction 1; [done|]. by apply ancestor_up. Qed.

(** A known block that is not in the tree can be inserted below its parent. *)
Lemma durable_insert_ok s eb :
  durable s → known (eb_block eb) → get_block (bs_inner s) (eb_id eb) = None →
  is_Some (id_to_block (bs_inner s) !! eb_parent_id eb) → insert_ok (bs_inner s) eb.
Proof.
  intros Hd Hk Hnew [lp Hp]. pose proof (tw_links _ (du_wf s Hd)) as Hl. split.
  - intros lp' Hp'. simplify_eq. pose proof (w_id _ Hl _ _ Hp) as Hid.
    apply (known_parent Hknown (eb_block (lb_executed_block lp)) (eb_block eb)); [|done|].
    + apply (du_known s Hd (eb_parent_id eb)). unfold get_block. by rewrite Hp.
    + by symmetry.
  - intros c lc Hc Heq.
    assert (get_block (bs_inner s) (eb_parent_id eb) = None) as Hnone.
    { apply (du_absent s Hd c (lb_executed_block lc)).
      - unfold get_block. by rewrite Hc.
      - unfold lb_parent in Heq. by rewrite Heq.
      - unfold lb_parent in Heq. rewrite Heq. apply ancestor_up; [done|]. constructor. }
    unfold get_block in Hnone. by rewrite Hp in Hnone.
Qed.

Lemma durable_insert_block s eb :
  durable s → known (eb_block eb) → db_blocks (db_of s) !! eb_id eb = Some (eb_block eb) →
  get_block (bs_inner s) (eb_id eb) = None →
  match insert_block (bs_inner s) eb with
  | Ok (b', t') => b' = eb ∧ durable (set_inner t' s) ∧ get_block t' (eb_id eb) = Some eb
  | Err _ => get_block (bs_inner s) (eb_parent_id eb) = None
  | Panic => False
  end.
Proof.
  intros Hd Hk Hsaved Hnew.
  destruct (id_to_block (bs_inner s) !! eb_parent_id eb) as [lp|] eqn:Hp.
  2: { unfold insert_block. rewrite Hnew, Hp. unfold get_block. by rewrite Hp. }
  pose proof (durable_insert_ok s eb Hd Hk Hnew (mk_is_Some _ _ Hp)) as Hok.
  pose proof (insert_block_spec (bs_inner s) eb (du_wf s Hd) Hok) as Hspec.
  destruct (insert_block (bs_inner s) eb) as [[b' t']|e|]; [|tauto|done].
  destruct Hspec as (Hwf' & Hget & [[Hold _]|[_ ->]] & Hother & Hdesc & m & Et); [congruence|].
  split; [done|]. split; [|done].
  assert (get_block (bs_inner s) (eb_parent_id eb) = Some (lb_executed_block lp)) as Hpar
    by (unfold get_block; by rewrite Hp).
  assert (∀ k b, get_block t' k = Some b → k = eb_id eb ∧ b = eb ∨ k ≠ eb_id eb ∧ get_block (bs_inner s) k = Some b)
    as Hcase.
  { intros k b Hb. destruct (decide (k = eb_id eb)) as [->|Hne]; [left; split; congruence|right].
    by rewrite <-Hother. }
  split; unfold set_inner, db_of; cbn [bs_inner bs_world].
  - done.
  - intros k b [[-> ->]|[_ Hb]]%Hcase; [done|]. by apply (du_known s Hd k).
  - intros c b a Hb Hn Ha. apply Hcase in Hb as [[-> ->]|[Hc Hb]].
    { destruct (decide (eb_parent_id eb = eb_id eb)) as [E|E]; [congruence|].
      rewrite Hother in Hn by done. congruence. }
    assert (get_block (bs_inner s) (eb_parent_id b) = None) as Hn0.
    { destruct (decide (eb_parent_id b = eb_id eb)) as [E|E]; [by rewrite E|]. by rewrite <-Hother. }
    destruct (decide (a = eb_id eb)) as [->|E].
    + exfalso. assert (get_block (bs_inner s) (eb_parent_id eb) = None) as Hx; [|congruence].
      apply (du_absent s Hd c b); [done|done|]. apply (ancestor_trans _ (eb_id eb)); [|done].
      apply (ancestor_up _ (eb_block eb)); [done|]. constructor.
    + rewrite Hother by done. by apply (du_absent s Hd c b).
  - intros k Hq. rewrite Et in Hq. apply (du_cert_block s Hd) in Hq as [b Hb].
    rewrite Hother by congruence. by eexists.
  - intros k b Hdk [[-> ->]|[Hne Hb]]%Hcase; [done|]. apply (du_blocks s Hd); [|done].
    rewrite Et in Hdk. cbn [with_blocks commit_root_id] in Hdk. rewrite <-Et in Hdk. by apply Hdesc.
  - intros k Hdk Hq. rewrite Et in Hq. destruct (decide (k = eb_id eb)) as [->|Hne]; [|apply (du_certs s Hd)].
    2: { rewrite Et in Hdk. cbn [with_blocks commit_root_id] in Hdk. rewrite <-Et in Hdk. by apply Hdesc. }
    2: done.
    apply (du_cert_block s Hd) in Hq as [b Hb]. congruence.
  - apply (du_saved s Hd).
  - apply (du_saved_certs s Hd).
  - apply (du_vote s Hd).
  - apply (du_tc s Hd).
Qed.

Lemma execute_and_insert_durable block s r s' :
  durable s → known block → execute_and_insert_block block s = (r, s') → durable s'.
Proof.
  intros Hd Hk Hrun. unfold execute_and_insert_block in Hrun. rewrite mget_bind in Hrun.
  destruct (get_block (bs_inner s) (block_id block)) as [eb0|] eqn:E0; [by apply mret_run in Hrun as [_ ->]|].
  apply M_bind_inv in Hrun as [(root & s1 & H1 & Hrun)|(? & H1 & _)]; unfold read_inner in H1;
    injection H1 as ? <-; [|done].
  apply M_bind_inv in Hrun as [(u & s2 & H2 & Hrun)|(? & H2 & _)]; apply mlift_run in H2 as [_ ->]; [|done].
  apply M_bind_inv in Hrun as [(eb & s3 & H3 & Hrun)|(? & H3 & _)];
    apply mmap_err_run in H3 as (r3 & H3 & Er3); apply execute_or_recover_run in H3 as [Hq3 Hb3];
    [|by eapply durable_quiet].
  assert (eb_block eb = block) as Heb by (destruct r3; simplify_eq/=; auto).
  apply M_bind_inv in Hrun as [(u4 & s4 & H4 & Hrun)|(? & H4 & _)];
    apply mmap_err_run in H4 as (r4 & H4 & _); apply on_world_quiet in H4; try apply prefetch_keeps_db;
    [|eapply durable_quiet; [done|by transitivity s3]].
  assert (quiet s s4) as Hq by by transitivity s3.
  pose proof (durable_quiet _ _ Hd Hq) as Hd4.
  assert (get_block (bs_inner s4) (eb_id eb) = None) as Hnew.
  { destruct Hq as [-> _]. unfold eb_id. by rewrite Heb. }
  apply M_bind_inv in Hrun as [(u5 & s5 & H5 & Hrun)|(? & H5 & _)];
    apply mmap_err_run in H5 as (r5 & H5 & Er5).
  - apply save_tree_durable in H5 as (Hd5 & Et5 & Hok5); [|done|by intros b ->%list_elem_of_singleton; rewrite Heb|
      by intros qc ?%not_elem_of_nil].
    destruct r5 as [u5'|e5|]; [|done..]. destruct u5'. specialize (Hok5 eq_refl) as [Hsaved _].
    rewrite <-Et5 in Hnew. pose proof (durable_insert_block s5 eb Hd5) as Hins.
    unfold write_inner in Hrun. rewrite <-Heb in Hk. specialize (Hins Hk).
    destruct (insert_block (bs_inner s5) eb) as [[b' t']|e|]; injection Hrun as <- <-; [|done|done].
    apply Hins; [|done]. apply (Hsaved (eb_block eb)). by left.
  - apply save_tree_durable in H5 as (Hd5 & _); [done|done|by intros b ->%list_elem_of_singleton; rewrite Heb|
      by intros qc ?%not_elem_of_nil].
Qed.

(** *** Inserting a certificate *)

Lemma insert_single_durable qc s r s' :
  durable s → qc_ok (bs_inner s) qc →
  bi_id (qc_commit_info qc) = commit_of (bi_id (certified_block qc)) →
  insert_single_quorum_cert qc s = (r, s') → durable s'.
Proof.
  intros Hd Hok Hc Hrun. unfold insert_single_quorum_cert in Hrun. rewrite mget_bind in Hrun.
  apply M_bind_inv in Hrun as [(u1 & s1 & H1 & Hrun)|(? & H1 & _)]; apply mlift_run in H1 as [H1 ->]; [|done].
  apply M_bind_inv in Hrun as [(u2 & s2 & H2 & Hrun)|(? & H2 & _)];
    apply mmap_err_run in H2 as (r2 & H2 & Er2);
    apply save_tree_durable in H2 as (Hd2 & Et2 & Hok2); try done;
    try (by intros b ?%not_elem_of_nil); try (by intros q ->%list_elem_of_singleton).
  destruct r2 as [[]|e|]; [|done..]. destruct (Hok2 eq_refl) as [_ Hsaved].
  rewrite <-Et2 in Hok. pose proof (insert_quorum_cert_spec _ qc (du_wf s2 Hd2) Hok) as Hspec.
  unfold write_inner in Hrun. destruct (bt_insert_quorum_cert (bs_inner s2) qc) as [t'|e|]; run_ok;
    cbn in Hrun; injection Hrun as <- <-; [|done|done].
  destruct Hspec as (Hwf' & [Em Ec] & Hcerts & _).
  assert (∀ k, get_block t' k = get_block (bs_inner s2) k) as Hget by (intros k; unfold get_block; by rewrite Em).
  destruct Hd2 as [Hwf Hkn Habs Hcb Hbl Hce Hsa Hsc Hv Htc]. split; unfold set_inner, db_of in *; cbn [bs_inner bs_world];
    try done; try (setoid_rewrite Hget; done).
  - intros k [->|Hk]%Hcerts; rewrite Hget; [|by apply Hcb]. rewrite Et2.
    destruct (get_block (bs_inner s) (bi_id (certified_block qc))); [by eexists|done].
  - intros k b. rewrite Em, Ec, Hget. apply Hbl.
  - intros k. rewrite Em, Ec. intros Hdk [->|Hk]%Hcerts; [|by apply Hce]. apply Hsaved. by left.
Qed.

(** *** The other calls *)

Lemma insert_tc_durable tc s r s' :
  durable s → insert_2chain_timeout_certificate tc s = (r, s') → durable s'.
Proof.
  intros Hd Hrun. unfold insert_2chain_timeout_certificate in Hrun. rewrite mget_bind in Hrun.
  destruct (tc_round tc <=? _); [by apply mret_run in Hrun as [_ ->]|].
  assert (∀ r0 s0, on_world (save_highest_2chain_timeout_cert tc) s = (r0, s0) → durable s0 ∧ bs_inner s0 = bs_inner s)
    as Hsave.
  { intros r0 s0 (w & Hw & ->)%on_world_run. split; [|done]. cbn in Hw. unfold on_storage, zoom in Hw.
    destruct (swp_save_highest_2chain_timeout_cert tc (bs_world s).1) as [r1 p] eqn:E. injection Hw as <- <-.
    unfold swp_save_highest_2chain_timeout_cert in E.
    apply M_bind_inv in E as [(bs & p1 & E1 & E)|(r1' & E1 & _)]; apply mlift_run in E1 as [E1 ->].
    2: { destruct Hd. by split. }
    apply on_db_run in E as (db & E & ->). unfold save_highest_2chain_timeout_certificate in E.
    apply db_commit_run in E as (db0 & (Ev & Et & Eb & Eq) & [[-> ->]|[_ ->]]); destruct Hd as [Hwf Hkn Habs Hcb Hbl Hce Hsa Hsc Hv Htc].
    - destruct db0 as [vote0 tc0 blocks0 certs0 faults0]. cbn in Ev, Et, Eb, Eq. split; unfold db_of in *; cbn [bs_inner bs_world fst swp_db db_blocks db_quorum_certs db_last_vote
        db_highest_2chain_timeout_cert]; subst; try done. intros bs' [= <-]. by exists tc.
    - split; unfold db_of in *; cbn [bs_inner bs_world fst swp_db]; rewrite ?Ev, ?Et, ?Eb, ?Eq; done. }
  apply M_bind_inv in Hrun as [(u2 & s2 & H2 & Hrun)|(? & H2 & _)];
    apply mmap_err_run in H2 as (r2 & H2 & _); apply Hsave in H2 as [Hd2 Et2]; [|done].
  unfold write_inner in Hrun. cbn in Hrun. injection Hrun as <- <-.
  destruct Hd2 as [Hwf Hkn Habs Hcb Hbl Hce Hsa Hsc Hv Htc]. split; try done. by destruct Hwf; split.
Qed.

(** The path [commit] takes leads from the ordered root to the block. *)
Lemma path_from_ordered_root_desc {E} t k l :
  tree_wf t → path_from_ordered_root (E := E) t k = Ok (Some l) →
  desc (id_to_block t) (ordered_root_id t) k.
Proof.
  intros Hwf Hrun. unfold path_from_ordered_root in Hrun. inv_ok.
  match goal with Hr : ordered_root t = Ok _ |- _ => unfold ordered_root in Hr; apply expect_Ok in Hr;
    apply get_block_Some in Hr as (lr & Hr & <-) end.
  match goal with Hp : path_from_root_to_block _ _ _ _ = _ |- _ => rename Hp into Hpath end.
  apply (path_from_root_spec t (tw_links t Hwf) (ordered_root_id t) lr) in Hpath; [|done].
  apply (path_ok_desc t (tw_links t Hwf) l); [by eexists|done].
Qed.

Lemma commit_durable qc s r s' : durable s → commit qc s = (r, s') → durable s'.
Proof.
  intros Hd Hrun. unfold commit in Hrun. rewrite mget_bind in Hrun.
  apply M_bind_inv in Hrun as [(b & s1 & H1 & Hrun)|(? & H1 & _)]; apply mlift_run in H1 as [H1 ->]; [|done].
  apply ok_or_Ok in H1.
  apply M_bind_inv in Hrun as [(root & s2 & H2 & Hrun)|(? & H2 & _)]; unfold read_inner in H2;
    injection H2 as ? <-; [|done].
  apply M_bind_inv in Hrun as [(u & s3 & H3 & Hrun)|(? & H3 & _)]; apply mlift_run in H3 as [_ ->]; [|done].
  apply M_bind_inv in Hrun as [(path & s4 & H4 & Hrun)|(? & H4 & _)]; unfold read_inner in H4;
    injection H4 as Hpath <-; [|done].
  apply M_bind_inv in Hrun as [(u5 & s5 & H5 & Hrun)|(? & H5 & _)]; apply mlift_run in H5 as [H5 ->]; [|done].
  apply rassert_Ok, bool_decide_eq_true in H5. destruct path as [l|]; [|done].
  apply path_from_ordered_root_desc in Hpath; [|apply Hd].
  apply M_bind_inv in Hrun as [(u6 & s6 & H6 & Hrun)|(? & H6 & _)].
  - assert (quiet s s6) as Hq.
    { unfold mexpect in H6. destruct (on_world _ s) as [r6 s6'] eqn:E6. apply on_world_quiet in E6; [|apply commit_keeps_db].
      by destruct r6; simplify_eq. }
    pose proof (durable_quiet _ _ Hd Hq) as Hd6. destruct Hq as [Et _]. rewrite <-Et in Hpath, H1.
    unfold write_inner, update_ordered_root in Hrun.
    destruct (block_exists (bs_inner s6) (eb_id b)); run_ok; cbn in Hrun; injection Hrun as <- <-; [|done].
    rewrite (get_block_id _ (tw_links _ (du_wf _ Hd6)) _ _ H1).
    destruct Hd6 as [Hwf Hkn Habs Hcb Hbl Hce Hsa Hsc Hv Htc]. split; try done.
    pose proof (tw_ordered _ Hwf) as Hord. destruct Hwf. split; try done. by eapply desc_trans.
  - unfold mexpect in H6. destruct (on_world _ s) as [r6 s6'] eqn:E6. apply on_world_quiet in E6; [|apply commit_keeps_db].
    destruct r6; simplify_eq; by eapply durable_quiet.
Qed.

(** A block that left the tree took its ancestors with it. *)
Lemma dropped_ancestors s t' :
  durable s → (∀ k b, get_block t' k = Some b → get_block (bs_inner s) k = Some b) →
  (∀ k b, get_block (bs_inner s) k = Some b → get_block t' k = None → get_block t' (eb_parent_id b) = None) →
  ∀ a k, ancestor a k → is_Some (get_block (bs_inner s) k) → get_block t' k = None → get_block t' a = None.
Proof.
  intros Hd Hsub Hclosed a k Ha. induction Ha as [|b Hb Ha IH]; [done|]. intros [eb Heb] Hn.
  assert (eb_block eb = b) as Eb.
  { apply (known_inj Hknown); [by apply (du_known s Hd _ _ Heb)|done|].
    apply (get_block_id _ (tw_links _ (du_wf s Hd)) _ _ Heb). }
  pose proof (Hclosed _ _ Heb Hn) as Hp. unfold eb_parent_id in Hp. rewrite Eb in Hp.
  destruct (get_block (bs_inner s) (block_parent_id b)) as [pb|] eqn:Epb; [by apply IH; [eexists|]|].
  destruct (get_block t' a) as [ab|] eqn:Ea; [|done]. apply Hsub in Ea.
  rewrite (du_absent s Hd _ eb a Heb) in Ea; [done|..]; unfold eb_parent_id; by rewrite Eb.
Qed.

Lemma callback_durable qc blocks decision next s r s' :
  durable s → commit_ok (bs_inner s) blocks qc decision next →
  invoke_callback qc blocks decision s = (r, s') → r = Ok tt ∧ durable s'.
Proof.
  intros Hd Hok Hrun. unfold invoke_callback in Hrun.
  destruct (commit_callback_spec (E := Infallible) (bs_inner s) (bs_world s) blocks qc decision next (du_wf s Hd) Hok)
    as (t' & ids & Hcb & Hids & Hwf' & Hroot & _ & _ & _ & _ & Hdesc & Hkeep & Hsub & Hsubq & Hclosed).
  rewrite Hcb in Hrun. injection Hrun as <- <-. split; [done|]. cbn [prune_tree paired_storage storage_write_proxy].
  unfold on_storage, zoom. destruct (swp_prune_tree ids (bs_world s).1) as [rp p] eqn:Ep. cbn [snd].
  apply swp_prune_tree_run in Ep as [[_ [Ev Etc]] Hdb].
  assert (∀ k, desc (id_to_block (bs_inner s)) next k → db_blocks (swp_db p) !! k = db_blocks (db_of s) !! k ∧
    db_quorum_certs (swp_db p) !! k = db_quorum_certs (db_of s) !! k) as Hsame.
  { intros k Hk. destruct Hdb as [(_ & -> & ->)|[_ Hdb]]; [done|]. destruct (Hdb k) as [-> ->].
    rewrite bool_decide_false; [done|]. intros [_ Hn]%Hids. done. }
  assert (∀ k b, db_blocks (swp_db p) !! k = Some b → db_blocks (db_of s) !! k = Some b) as Hsubb.
  { intros k b. destruct Hdb as [(_ & -> & _)|[_ Hdb]]; [done|]. destruct (Hdb k) as [-> _]. by case_bool_decide. }
  assert (∀ k q, db_quorum_certs (swp_db p) !! k = Some q → db_quorum_certs (db_of s) !! k = Some q) as Hsubc.
  { intros k b. destruct Hdb as [(_ & _ & ->)|[_ Hdb]]; [done|]. destruct (Hdb k) as [_ ->]. by case_bool_decide. }
  pose proof (co_below _ _ _ _ _ Hok) as Hbelow.
  assert (∀ k b, get_block t' k = Some b → get_block (bs_inner s) k = Some b) as Hgsub.
  { intros k b (lb & Hlb & <-)%get_block_Some. apply get_block_Some. exists lb. by split; [apply Hsub|]. }
  assert (∀ k b, get_block (bs_inner s) k = Some b → get_block t' k = None → get_block t' (eb_parent_id b) = None)
    as Hgclosed.
  { intros k b (lb & Hlb & <-)%get_block_Some Hn%fmap_None. unfold get_block.
    by rewrite (Hclosed k lb Hlb Hn : id_to_block t' !! eb_parent_id (lb_executed_block lb) = None). }
  pose proof Hd as Hd0. destruct Hd as [Hwf Hkn Habs Hcbk Hbl Hce Hsa Hsc Hv Htc].
  split; unfold db_of in *; cbn [bs_inner bs_world fst]; rewrite ?Hroot, ?Ev, ?Etc; try done.
  - intros k b Hb%Hgsub. by apply (Hkn k).
  - intros c b a Hb Hn Ha. destruct (get_block (bs_inner s) (eb_parent_id b)) as [pb|] eqn:Epb.
    + apply (dropped_ancestors s t' Hd0 Hgsub Hgclosed _ _ Ha); [by rewrite Epb; eexists|done].
    + destruct (get_block t' a) as [ab|] eqn:Ea; [|done]. apply Hgsub in Ea.
      by rewrite (Habs c b a (Hgsub _ _ Hb) Epb Ha) in Ea.
  - intros k [q Hq]. apply Hsubq in Hq as [Hq ->]. apply Hcbk. by eexists.
  - intros k b Hdk%Hdesc Hb%Hgsub. rewrite (proj1 (Hsame k Hdk)). apply Hbl; [|done]. by eapply desc_trans.
  - intros k Hdk%Hdesc Hq. rewrite (proj2 (Hsame k Hdk)). apply Hce; [by eapply desc_trans|].
    unfold get_quorum_cert_for_block in *. by rewrite (proj2 (Hkeep k Hdk)) in Hq.
  - intros k b Hb%Hsubb. by apply Hsa.
  - intros k b Hb%Hsubc. by apply Hsc.
Qed.

Lemma save_vote_durable vote s r s' : durable s → on_world (save_vote vote) s = (r, s') → durable s'.
Proof.
  intros Hd (w & Hw & ->)%on_world_run. cbn in Hw. unfold on_storage, zoom in Hw.
  destruct (swp_save_vote vote (bs_world s).1) as [r1 p] eqn:E. injection Hw as <- <-. unfold swp_save_vote in E.
  apply M_bind_inv in E as [(bs & p1 & E1 & E)|(r1' & E1 & _)]; apply mlift_run in E1 as [E1 ->].
  2: { destruct Hd. by split. }
  apply on_db_run in E as (db & E & ->). unfold db_save_vote in E.
  apply db_commit_run in E as (db0 & (Ev & Et & Eb & Eq) & [[-> ->]|[_ ->]]);
    destruct Hd as [Hwf Hkn Habs Hcb Hbl Hce Hsa Hsc Hv Htc].
  - destruct db0 as [vote0 tc0 blocks0 certs0 faults0]. cbn in Ev, Et, Eb, Eq.
    split; unfold db_of in *; cbn [bs_inner bs_world fst swp_db db_blocks db_quorum_certs db_last_vote
      db_highest_2chain_timeout_cert apply_batch foldl apply_entry]; subst; try done.
    intros bs' [= <-]. by exists vote.
  - split; unfold db_of in *; cbn [bs_inner bs_world fst swp_db]; rewrite ?Ev, ?Et, ?Eb, ?Eq; done.
Qed.

(** *** Runs of the store *)

Inductive bs_call :=
| CallInsertBlock (block : Block)
| CallInsertCert (qc : QuorumCert)
| CallInsertTimeoutCert (tc : TwoChainTimeoutCertificate)
| CallCommit (qc : QuorumCert)
| CallCallback (qc : QuorumCert) (blocks : list ExecutedBlock) (decision : LedgerInfoWithSignatures)
| CallSaveVote (vote : Vote).

(** Whatever a call answers, what it left behind is where the next one starts. *)
Definition bs_exec (c : bs_call) (s : store) : store :=
  match c with
  | CallInsertBlock block => (execute_and_insert_block block s).2
  | CallInsertCert qc => (insert_single_quorum_cert qc s).2
  | CallInsertTimeoutCert tc => (insert_2chain_timeout_certificate tc s).2
  | CallCommit qc => (commit qc s).2
  | CallCallback qc blocks decision => (invoke_callback qc blocks decision s).2
  | CallSaveVote vote => (on_world (save_vote vote) s).2
  end.
Definition bs_run (calls : list bs_call) (s : store) : store := foldl (λ s c, bs_exec c s) s calls.

(** Blocks are known, certificates agree with [commit_of] and respect the safety of the
    protocol, and the callback is invoked for a block below the root. *)
Definition bs_call_ok (s : store) (c : bs_call) : Prop :=
  match c with
  | CallInsertBlock block => known block
  | CallInsertCert qc => qc_ok (bs_inner s) qc ∧
      bi_id (qc_commit_info qc) = commit_of (bi_id (certified_block qc))
  | CallCallback qc blocks decision =>
      ∃ next, commit_ok (bs_inner s) blocks qc decision next
  | _ => True
  end.
Fixpoint bs_calls_ok (s : store) (calls : list bs_call) : Prop :=
  match calls with
  | [] => True
  | c :: calls => bs_call_ok s c ∧ bs_calls_ok (bs_exec c s) calls
  end.

Lemma bs_run_durable calls : ∀ s, durable s → bs_calls_ok s calls → durable (bs_run calls s).
Proof.
  induction calls as [|c calls IH]; intros s Hd Hok; [done|]. destruct Hok as [Hc Hok]. apply IH; [|done].
  destruct c as [block|qc|tc|qc|qc blocks decision|vote]; cbn [bs_exec bs_call_ok] in *.
  - destruct (execute_and_insert_block block s) eqn:E. by eapply execute_and_insert_durable.
  - destruct (insert_single_quorum_cert qc s) eqn:E. by eapply insert_single_durable; [..|done]; try apply Hc.
  - destruct (insert_2chain_timeout_certificate tc s) eqn:E. by eapply insert_tc_durable.
  - destruct (commit qc s) eqn:E. by eapply commit_durable.
  - destruct Hc as [next Hc]. destruct (invoke_callback qc blocks decision s) eqn:E.
    by eapply (callback_durable qc blocks decision next).
  - destruct (on_world (save_vote vote) s) eqn:E. by eapply save_vote_durable.
Qed.

(** *** Restarting *)

(** The database after a restart: the same tables, and calls that succeed. *)
Definition reopened (p : StorageWriteProxy Bytes) (s : store) : Prop :=
  db_blocks (swp_db p) = db_blocks (db_of s) ∧ db_quorum_certs (swp_db p) = db_quorum_certs (db_of s) ∧
  same_entries (db_of s) (swp_db p) ∧ db_faults (swp_db p) = [].

(** The ledger ends at a block [x] below the commit root that is certified and ordered. *)
Record ledger_at (s : store) (li : LedgerInfoWithSignatures) (x : HashValue) : Prop := {
  la_id : bi_id (liws_commit_info li) = x;
  la_epoch : ends_epoch (liws_ledger_info li) = false;
  la_below : desc (id_to_block (bs_inner s)) (commit_root_id (bs_inner s)) x;
  la_certified : is_Some (get_quorum_cert_for_block (bs_inner s) x);
  la_ordered : ∃ k, desc (id_to_block (bs_inner s)) (commit_root_id (bs_inner s)) k ∧
    is_Some (get_quorum_cert_for_block (bs_inner s) k) ∧ commit_of k = x;
  la_match k qc : db_quorum_certs (db_of s) !! k = Some qc → bi_id (qc_commit_info qc) = x →
    match_ordered_only (qc_commit_info qc) (liws_commit_info li) = true;
}.

Lemma durable_saved_list s : durable s →
  NoDup (block_id <$> (map_to_list (db_blocks (db_of s))).*2) ∧
  parents_older (map_to_list (db_blocks (db_of s))).*2 ∧
  (∀ b, b ∈ (map_to_list (db_blocks (db_of s))).*2 ↔ db_blocks (db_of s) !! block_id b = Some b) ∧
  (∀ q, q ∈ (map_to_list (db_quorum_certs (db_of s))).*2 ↔
     db_quorum_certs (db_of s) !! bi_id (certified_block q) = Some q).
Proof.
  intros Hd.
  assert (∀ b, b ∈ (map_to_list (db_blocks (db_of s))).*2 ↔ db_blocks (db_of s) !! block_id b = Some b) as Hin.
  { intros b. rewrite list_elem_of_fmap. split.
    - intros ([k b'] & -> & Hkb%elem_of_map_to_list). cbn. by rewrite (proj1 (du_saved s Hd _ _ Hkb)).
    - intros Hb. exists (block_id b, b). by rewrite elem_of_map_to_list. }
  split_and!; [| |done|].
  - assert (block_id <$> (map_to_list (db_blocks (db_of s))).*2 = (map_to_list (db_blocks (db_of s))).*1) as ->;
      [|apply NoDup_fst_map_to_list].
    rewrite <-list_fmap_compose. apply list_fmap_ext. intros i [k b] Hi%list_elem_of_lookup_2%elem_of_map_to_list.
    cbn. apply (du_saved s Hd _ _ Hi).
  - intros p b Hp%Hin Hb%Hin Hpar.
    destruct (known_parent Hknown p b (proj2 (du_saved s Hd _ _ Hp)) (proj2 (du_saved s Hd _ _ Hb)) Hpar) as [He Hr].
    unfold block_key_le. rewrite He, N.ltb_irrefl, N.eqb_refl. cbn. by apply N.leb_gt.
  - intros q. rewrite list_elem_of_fmap. split.
    + intros ([k q'] & -> & Hkb%elem_of_map_to_list). cbn. by rewrite (proj1 (du_saved_certs s Hd _ _ Hkb)).
    + intros Hq. exists (bi_id (certified_block q), q). by rewrite elem_of_map_to_list.
Qed.

(** The blocks below [x] in the tree hang on it in the database. *)
Lemma desc_hangs s x k b :
  durable s → desc (id_to_block (bs_inner s)) (commit_root_id (bs_inner s)) x →
  desc (id_to_block (bs_inner s)) x k → k ≠ x → get_block (bs_inner s) k = Some b →
  hangs (map_to_list (db_blocks (db_of s))).*2 x (eb_block b).
Proof.
  intros Hd Hx Hk. destruct (durable_saved_list s Hd) as (_ & _ & Hin & _).
  pose proof (tw_links _ (du_wf s Hd)) as Hl. revert b.
  induction Hk as [|p lb c Hp IH Hlb Hc]; intros b Hne Hb; [done|].
  destruct (w_child _ Hl _ _ _ Hlb Hc) as (lc & Hlc & Hpar & _).
  assert (b = lb_executed_block lc) as -> by (unfold get_block in Hb; rewrite Hlc in Hb; by injection Hb).
  assert (eb_block (lb_executed_block lc) ∈ (map_to_list (db_blocks (db_of s))).*2) as Hmem.
  { apply Hin. pose proof (w_id _ Hl _ _ Hlc : block_id (eb_block (lb_executed_block lc)) = c) as ->.
    apply (du_blocks s Hd); [|done]. apply (desc_trans _ _ x); [done|]. by econstructor. }
  destruct (decide (p = x)) as [->|Hpx]; [by apply hangs_child|].
  apply (hangs_step _ _ _ (eb_block (lb_executed_block lb))); [done| |].
  - apply IH; [done|]. unfold get_block. by rewrite Hlb.
  - pose proof (w_id _ Hl _ _ Hlb : block_id (eb_block (lb_executed_block lb)) = p) as ->. done.
Qed.

Lemma recovery_succeeds s li x vote meta tc :
  durable s → ledger_at s li x →
  ∃ rd, recovery_data_new vote (mkLedgerRecoveryData li) (map_to_list (db_blocks (db_of s))).*2 meta
      (map_to_list (db_quorum_certs (db_of s))).*2 tc = Ok rd ∧
    recovered x li (map_to_list (db_blocks (db_of s))).*2 (map_to_list (db_quorum_certs (db_of s))).*2 rd.
Proof.
  intros Hd [Hx Hends Hbelow Hcert (k & Hk & Hkc & Hkx) Hmatch].
  destruct (durable_saved_list s Hd) as (Hnd & Holder & Hinb & Hinq).
  assert (∀ k, desc (id_to_block (bs_inner s)) (commit_root_id (bs_inner s)) k →
    is_Some (get_quorum_cert_for_block (bs_inner s) k) → ∃ qc, qc ∈ (map_to_list (db_quorum_certs (db_of s))).*2 ∧
    bi_id (certified_block qc) = k ∧ bi_id (qc_commit_info qc) = commit_of k) as Hsaved.
  { intros j Hj Hq. destruct (du_certs s Hd j Hj Hq) as [qc Hqc].
    destruct (du_saved_certs s Hd _ _ Hqc) as [Hid Hcom]. exists qc. split; [|done]. apply Hinq. by rewrite Hid. }
  pose proof (recovery_data_spec vote (mkLedgerRecoveryData li) (map_to_list (db_blocks (db_of s))).*2
    meta (map_to_list (db_quorum_certs (db_of s))).*2 tc x li (map_to_list (db_blocks (db_of s))).*2
    (map_to_list (db_quorum_certs (db_of s))).*2) as Hrec.
  specialize (Hrec ltac:(unfold ledger_root; cbn [storage_ledger]; by rewrite Hends, <-Hx) Hnd Holder).
  destruct (recovery_data_new _ _ _ _ _ _) as [rd|e|].
  - exists rd. by destruct Hrec.
  - exfalso. destruct Hrec as [Hn|[Hn|Hn]]; apply Hn, list_elem_of_fmap.
    + destruct (desc_exists _ (tw_links _ (du_wf s Hd)) _ _ (tw_commit _ (du_wf s Hd)) Hbelow) as [lb Hlb].
      exists (eb_block (lb_executed_block lb)).
      pose proof (w_id _ (tw_links _ (du_wf s Hd)) _ _ Hlb : block_id (eb_block (lb_executed_block lb)) = x) as Hid.
      split; [done|]. apply Hinb. rewrite Hid. apply (du_blocks s Hd); [done|]. unfold get_block. by rewrite Hlb.
    + destruct (Hsaved x Hbelow Hcert) as (qc & ? & ? & _). by exists qc.
    + destruct (Hsaved k Hk Hkc) as (qc & ? & _ & ?). exists qc. split; [congruence|done].
  - exfalso. destruct Hrec as (qc & Hqc%Hinq & Hid & Hm). by rewrite (Hmatch _ _ Hqc Hid) in Hm.
Qed.


(** ** Building the store from recovered blocks *)

(** The executor computes every block. *)
Class TotalExecutor := {
  compute_returns block parent w : ∃ r w', compute block parent w = (Ok r, w');
  prefetch_returns block w : ∃ w', prefetch_payload_data block w = (Ok tt, w');
}.
Context `{!TotalExecutor}.

(** The certificate is for the block, as far as ordering goes. *)
Definition certifies (qc : QuorumCert) (b : Block) : Prop :=
  match_ordered_only (gen_block_info b 0 0 None) (certified_block qc) = true.

Lemma save_tree_no_faults blocks qcs s :
  db_faults (db_of s) = [] → blocks ≠ [] ∨ qcs ≠ [] →
  ∃ s', on_world (save_tree blocks qcs) s = (Ok tt, s') ∧ bs_inner s' = bs_inner s ∧ db_faults (db_of s') = [].
Proof.
  intros Hf Hne. unfold on_world, zoom. cbn [save_tree paired_storage storage_write_proxy].
  unfold on_storage, zoom, swp_save_tree, on_db, zoom, save_blocks_and_quorum_certificates.
  set (batch := _ ++ _). destruct (db_commit_no_faults batch _ Hf) as (db & Hc & Hdb).
  assert (match blocks with
          | [] => match qcs with [] => mlift (Err (fmt "Consensus block and qc data is empty!" [])) | _ => db_commit batch end
          | _ => db_commit batch end (swp_db (bs_world s).1) = (Ok tt, db)) as -> by (destruct blocks, qcs; naive_solver).
  eexists. split_and!; [done|done|done].
Qed.

Lemma execute_and_insert_run block s t' eb :
  db_faults (db_of s) = [] → get_block (bs_inner s) (block_id block) = None →
  (∃ root, get_block (bs_inner s) (ordered_root_id (bs_inner s)) = Some root ∧ eb_round root < block_round block) →
  (∀ scr, insert_block (bs_inner s) (mkExecutedBlock block scr) = Ok (eb scr, t' scr)) →
  ∃ scr s', execute_and_insert_block block s = (Ok (eb scr), s') ∧ bs_inner s' = t' scr ∧ db_faults (db_of s') = [].
Proof.
  intros Hf Hnew (root & Hroot & Hr) Hins. unfold execute_and_insert_block. rewrite mget_bind, Hnew.
  erewrite (M_run_bind _ _ root) by (unfold read_inner, ordered_root; by rewrite Hroot).
  rewrite (mlift_bind _ tt) by (by rewrite (proj2 (N.ltb_lt _ _) Hr)).
  destruct (compute_returns block (block_parent_id block) (bs_world s)) as (scr & w1 & E1).
  set (s1 := mkBlockStore (bs_inner s) w1 (back_pressure_limit s)).
  assert (execute_or_recover block s = (Ok (mkExecutedBlock block scr), s1)) as Eexec.
  { unfold execute_or_recover, execute_block. erewrite (M_run_bind _ _ scr s s1); [done|].
    apply on_world_run. by exists w1. }
  erewrite (M_run_bind _ _ (mkExecutedBlock block scr) s s1) by (apply mmap_err_run; eexists; split; [exact Eexec|done]).
  destruct (prefetch_returns block w1) as (w2 & E2). set (s2 := mkBlockStore (bs_inner s) w2 (back_pressure_limit s)).
  erewrite (M_run_bind _ _ tt s1 s2).
  2: { apply mmap_err_run. exists (Ok tt). split; [|done]. apply on_world_run. by exists w2. }
  assert (db_faults (db_of s2) = []) as Hf2.
  { rewrite <-Hf. unfold db_of. cbn [bs_world s2]. rewrite (prefetch_keeps_db _ _ _ _ E2).
    by rewrite (compute_keeps_db _ _ _ _ _ E1). }
  destruct (save_tree_no_faults [block] [] s2 Hf2) as (s3 & E3 & Et3 & Hf3); [by left|].
  erewrite (M_run_bind _ _ tt s2 s3) by (apply mmap_err_run; eexists; split; [exact E3|done]).
  exists scr. unfold write_inner. rewrite Et3. cbn [bs_inner s2]. rewrite Hins.
  eexists. split_and!; [done|done|done].
Qed.

(** The store while it is built: a tree of the root and the blocks inserted so far. *)
Record building (root : Block) (done : list Block) (s : store) : Prop := {
  bu_wf : tree_wf (bs_inner s);
  bu_commit : commit_root_id (bs_inner s) = block_id root;
  bu_ordered : ordered_root_id (bs_inner s) = block_id root;
  bu_faults : db_faults (db_of s) = [];
  bu_blocks b : b ∈ root :: done → ∃ eb, get_block (bs_inner s) (block_id b) = Some eb ∧ eb_block eb = b;
  bu_only k eb : get_block (bs_inner s) k = Some eb → eb_block eb ∈ root :: done;
  bu_desc k : is_Some (get_block (bs_inner s) k) → desc (id_to_block (bs_inner s)) (block_id root) k;
}.

Lemma building_get root done s k eb :
  building root done s → get_block (bs_inner s) k = Some eb → block_id (eb_block eb) = k.
Proof. intros Hb. apply (get_block_id _ (tw_links _ (bu_wf _ _ _ Hb))). Qed.

Lemma building_insert_ok root done s block scr :
  building root done s → known block → (∀ b, b ∈ root :: done → known b ∧ block_parent_id b ≠ block_id block) →
  insert_ok (bs_inner s) (mkExecutedBlock block scr).
Proof.
  intros Hb Hk Hall. split.
  - intros lp Hlp. assert (get_block (bs_inner s) (block_parent_id block) = Some (lb_executed_block lp)) as Hget
      by (apply get_block_Some; by exists lp).
    apply (known_parent Hknown (eb_block (lb_executed_block lp)) block); [|done|].
    + apply Hall. by apply (bu_only _ _ _ Hb _ _ Hget).
    + symmetry. by apply (building_get root done s).
  - intros c lc Hc. apply Hall, (bu_only _ _ _ Hb c). unfold get_block. by rewrite Hc.
Qed.

Lemma building_step root done s block scr s' t' :
  building root done s → bs_inner s' = t' → db_faults (db_of s') = [] → tree_wf t' →
  get_block t' (block_id block) = Some (mkExecutedBlock block scr) →
  (∀ k, k ≠ block_id block → get_block t' k = get_block (bs_inner s) k) →
  (∀ r k, k ≠ block_id block → desc (id_to_block t') r k ↔ desc (id_to_block (bs_inner s)) r k) →
  (∃ m, t' = with_blocks (bs_inner s) m) → (block_id block ∉ block_id <$> root :: done) →
  is_Some (get_block (bs_inner s) (block_parent_id block)) →
  building root (done ++ [block]) s'.
Proof.
  intros Hb Et Hf Hwf Hget Hother Hdesc [m Em] Hnew [ebp Hgp].
  assert (∀ b, b ∈ root :: done → block_id b ≠ block_id block) as Hne.
  { intros b Hin Heq. apply Hnew, list_elem_of_fmap. by exists b. }
  assert (block_parent_id block ≠ block_id block) as Hpne.
  { rewrite <-(building_get _ _ _ _ _ Hb Hgp). by apply Hne, (bu_only _ _ _ Hb _ _ Hgp). }
  split; rewrite ?Et; try done.
  - rewrite Em. apply Hb.
  - rewrite Em. apply Hb.
  - intros b Hin. rewrite app_comm_cons, elem_of_app, list_elem_of_singleton in Hin.
    destruct Hin as [Hin| ->]; [|by eexists]. rewrite Hother by auto. by apply Hb.
  - intros k eb Hk. rewrite app_comm_cons, elem_of_app, list_elem_of_singleton.
    destruct (decide (k = block_id block)) as [->|Hkb]; [right; rewrite Hget in Hk; by injection Hk as <-|left].
    rewrite Hother in Hk by done. by apply (bu_only _ _ _ Hb k).
  - intros k [eb Hk]. destruct (decide (k = block_id block)) as [->|Hkb].
    + apply get_block_Some in Hget as (lb & Hlb & Elb).
      assert (get_block t' (block_parent_id block) = Some ebp) as Hgp' by by rewrite Hother.
      apply get_block_Some in Hgp' as (lp & Hlp & _).
      apply (desc_step _ _ (block_parent_id block) lp); [|done|].
      * apply Hdesc; [done|]. apply (bu_desc _ _ _ Hb). by eexists.
      * apply (w_link _ (tw_links _ Hwf) _ lb); [done|]. unfold lb_parent. by rewrite Elb.
    + apply Hdesc; [done|]. apply (bu_desc _ _ _ Hb). rewrite <-Hother by done. by eexists.
Qed.

Lemma building_insert root done s block :
  building root done s → known block → (∀ b, b ∈ root :: done → known b ∧ block_parent_id b ≠ block_id block) →
  block_round root < block_round block → (block_id block ∉ block_id <$> root :: done) →
  block_parent_id block ∈ block_id <$> root :: done →
  ∃ eb s', execute_and_insert_block block s = (Ok eb, s') ∧ building root (done ++ [block]) s'.
Proof.
  intros Hb Hk Hall Hround Hnew (p & Hp & Hpin)%list_elem_of_fmap.
  destruct (bu_blocks _ _ _ Hb p Hpin) as (ebp & Hgp & Hebp). rewrite <-Hp in Hgp.
  assert (get_block (bs_inner s) (block_id block) = None) as Hnone.
  { destruct (get_block (bs_inner s) (block_id block)) as [eb|] eqn:E; [|done]. destruct Hnew.
    apply list_elem_of_fmap. exists (eb_block eb). split; [by rewrite (building_get _ _ _ _ _ Hb E)|].
    by apply (bu_only _ _ _ Hb _ _ E). }
  set (ins scr := insert_block (bs_inner s) (mkExecutedBlock block scr)).
  assert (∀ scr, ∃ t', ins scr = Ok (mkExecutedBlock block scr, t') ∧ tree_wf t' ∧
    get_block t' (block_id block) = Some (mkExecutedBlock block scr) ∧
    (∀ k, k ≠ block_id block → get_block t' k = get_block (bs_inner s) k) ∧
    (∀ r k, k ≠ block_id block → desc (id_to_block t') r k ↔ desc (id_to_block (bs_inner s)) r k) ∧
    ∃ m, t' = with_blocks (bs_inner s) m) as Hins.
  { intros scr. pose proof (insert_block_spec _ _ (bu_wf _ _ _ Hb) (building_insert_ok _ _ _ _ scr Hb Hk Hall)) as Hspec.
    fold (ins scr) in Hspec. destruct (ins scr) as [[b' t']|e|]; [|exfalso; destruct Hspec as [_ Hspec];
      change (eb_parent_id (mkExecutedBlock block scr)) with (block_parent_id block) in Hspec; congruence|done].
    destruct Hspec as (? & ? & [[Hold _]|[_ ->]] & ? & ? & ?); [unfold eb_id in Hold; cbn in Hold; congruence|]. by exists t'. }
  destruct (execute_and_insert_run block s
    (λ scr, match ins scr with Ok (_, t') => t' | _ => bs_inner s end)
    (λ scr, mkExecutedBlock block scr)) as (scr & s' & Hrun & Et & Hf).
  { apply Hb. } { done. }
  { destruct (bu_blocks _ _ _ Hb root) as (er & Hgr & Her); [by left|]. exists er.
    rewrite (bu_ordered _ _ _ Hb). split; [done|]. unfold eb_round. by rewrite Her. }
  { intros scr. destruct (Hins scr) as (t' & E & _). fold (ins scr). by rewrite E. }
  exists (mkExecutedBlock block scr), s'. split; [done|].
  destruct (Hins scr) as (t' & E & Hwf' & Hget & Hother & Hdesc & m & Em). rewrite E in Et.
  apply (building_step root done s block scr s' t'); try done; by eexists.
Qed.

Lemma building_cert root done s qc b :
  building root done s → b ∈ root :: done → certifies qc b →
  ∃ s', insert_single_quorum_cert qc s = (Ok tt, s') ∧ building root done s' ∧
    ∀ k, is_Some (get_quorum_cert_for_block (bs_inner s') k) ↔
      k = bi_id (certified_block qc) ∨ is_Some (get_quorum_cert_for_block (bs_inner s) k).
Proof.
  intros Hb Hin Hc. destruct (bu_blocks _ _ _ Hb b Hin) as (eb & Hget & Heb).
  assert (bi_id (certified_block qc) = block_id b) as Hid.
  { unfold certifies, match_ordered_only in Hc. rewrite !andb_true_iff in Hc. destruct Hc as [[_ Hc] _].
    by apply N.eqb_eq in Hc. }
  unfold insert_single_quorum_cert. rewrite mget_bind, Hid, Hget.
  rewrite (mlift_bind _ tt).
  2: { assert (match_ordered_only (eb_block_info eb) (certified_block qc) = true) as ->; [|done].
       rewrite <-Hc. unfold eb_block_info. by rewrite Heb. }
  destruct (save_tree_no_faults [] [qc] s (bu_faults _ _ _ Hb)) as (s2 & E2 & Et2 & Hf2); [by right|].
  erewrite (M_run_bind _ _ tt s s2) by (apply mmap_err_run; eexists; split; [exact E2|done]).
  unfold write_inner. rewrite Et2.
  assert (qc_ok (bs_inner s) qc) as Hok.
  { intros hb b0 _ Hb0 _. rewrite (bu_commit _ _ _ Hb). apply (bu_desc _ _ _ Hb). by eexists. }
  pose proof (insert_quorum_cert_spec _ qc (bu_wf _ _ _ Hb) Hok) as Hspec.
  destruct (bt_insert_quorum_cert (bs_inner s) qc) as [t'|e|] eqn:Eins; run_ok; [|congruence|done].
  destruct Hspec as (Hwf' & [Em Ec] & Hcerts & _). eexists. split; [done|]. cbn [bs_inner set_inner].
  rewrite Hid in Hcerts. split; [|done].
  assert (ordered_root_id t' = ordered_root_id (bs_inner s)) as Eo.
  { unfold bt_insert_quorum_cert in Eins. rewrite Hid, Hget in Eins. inv_ok.
    destruct (if _ <? _ then _ else _). by simplify_eq. }
  assert (∀ k, get_block t' k = get_block (bs_inner s) k) as Hg by (intros k; unfold get_block; by rewrite Em).
  destruct Hb as [Hwf Hco Hor Hfa Hbl Hon Hde]. split; cbn [set_inner bs_inner]; rewrite ?Em, ?Ec, ?Eo; try done.
  - intros b0 Hb0. rewrite Hg. auto.
  - intros k e0. rewrite Hg. apply Hon.
  - intros k. rewrite Hg. apply Hde.
Qed.

Lemma insert_blocks_building root blocks : ∀ done s,
  building root done s → (∀ b, b ∈ root :: done ++ blocks → known b) →
  NoDup (block_id <$> root :: done ++ blocks) →
  (∀ l1 b l2, done ++ blocks = l1 ++ b :: l2 → block_parent_id b ∈ block_id <$> root :: l1) →
  (∀ b, b ∈ done ++ blocks → block_round root < block_round b) →
  ∃ s', insert_blocks blocks s = (Ok tt, s') ∧ building root (done ++ blocks) s'.
Proof.
  induction blocks as [|block blocks IH]; intros done s Hb Hk Hnd Htopo Hround.
  { exists s. by rewrite app_nil_r. }
  assert (block_id block ∉ block_id <$> root :: done) as Hnew.
  { rewrite (cons_middle block), app_comm_cons, fmap_app in Hnd. apply NoDup_app in Hnd as (_ & Hdis & _).
    intros Hin. apply (Hdis _ Hin). by left. }
  destruct (building_insert root done s block) as (eb & s1 & Hrun & Hb1); [done|apply Hk; set_solver| | |done| |].
  - intros b Hin. split; [apply Hk; set_solver|]. intros Heq.
    (* a parent is older than its child, and the blocks so far are older in the list *)
    assert (b = root ∨ b ∈ done) as [->|Hd] by set_solver.
    + destruct (known_parent Hknown block root) as [_ Hlt]; [apply Hk; set_solver|apply Hk; set_solver|done|].
      assert (block_round root < block_round block) by (apply Hround; set_solver). lia.
    + apply list_elem_of_split in Hd as (l1 & l2 & ->).
      specialize (Htopo l1 b (l2 ++ block :: blocks)). rewrite <-app_assoc in Htopo. specialize (Htopo eq_refl).
      rewrite Heq in Htopo. apply Hnew. rewrite fmap_cons, fmap_app in *. set_solver.
  - apply Hround. set_solver.
  - apply (Htopo done block blocks eq_refl).
  - destruct (IH (done ++ [block]) s1) as (s' & Hrun' & Hb'); rewrite <-?app_assoc; cbn [app]; try done.
    exists s'. split; [|by rewrite <-app_assoc in Hb'].
    cbn [insert_blocks]. unfold mexpect. by erewrite M_run_bind by (by rewrite Hrun).
Qed.

Lemma insert_certs_building root done qcs : ∀ s,
  building root done s → (∀ qc, qc ∈ qcs → ∃ b, b ∈ root :: done ∧ certifies qc b) →
  ∃ s', insert_certs qcs s = (Ok tt, s') ∧ building root done s' ∧
    (∀ qc, qc ∈ qcs → is_Some (get_quorum_cert_for_block (bs_inner s') (bi_id (certified_block qc)))) ∧
    ∀ k, is_Some (get_quorum_cert_for_block (bs_inner s) k) → is_Some (get_quorum_cert_for_block (bs_inner s') k).
Proof.
  induction qcs as [|qc qcs IH]; intros s Hb Hall; [exists s; split_and!; [done|done|by intros qc ?%not_elem_of_nil|done]|].
  destruct (Hall qc) as (b & Hin & Hc); [by left|].
  destruct (building_cert root done s qc b Hb Hin Hc) as (s1 & Hrun & Hb1 & Hcerts).
  destruct (IH s1 Hb1) as (s' & Hrun' & Hb' & Hin' & Hmono); [intros q Hq; apply Hall; by right|].
  exists s'. split_and!; [|done| |].
  - cbn [insert_certs]. unfold mexpect. by erewrite M_run_bind by (by rewrite Hrun).
  - intros q [->|Hq]%elem_of_cons; [|auto]. apply Hmono, Hcerts. by left.
  - intros k Hk. apply Hmono, Hcerts. by right.
Qed.

(** Blocks listed after their parents are of later rounds than the root. *)
Lemma topological_rounds root blocks :
  (∀ b, b ∈ root :: blocks → known b) →
  (∀ l1 b l2, blocks = l1 ++ b :: l2 → block_parent_id b ∈ block_id <$> root :: l1) →
  ∀ b, b ∈ blocks → block_round root < block_round b.
Proof.
  induction blocks as [|b blocks IH] using rev_ind; intros Hk Htopo c Hc; [by apply not_elem_of_nil in Hc|].
  assert (∀ d, d ∈ blocks → block_round root < block_round d) as Hrec.
  { apply IH; [intros d Hd; apply Hk; set_solver|]. intros l1 d l2 E. apply (Htopo l1 d (l2 ++ [b])).
    by rewrite E, <-app_assoc. }
  apply elem_of_app in Hc as [Hc| ->%list_elem_of_singleton]; [auto|].
  destruct (proj1 (list_elem_of_fmap _ _ _) (Htopo blocks b [] eq_refl)) as (p & Hp & Hin).
  destruct (known_parent Hknown p b) as [_ Hlt]; [apply Hk; set_solver|apply Hk; set_solver|done|].
  apply elem_of_cons in Hin as [->|Hin]; [done|]. specialize (Hrec p Hin). lia.
Qed.

(** What [build] checks of the root. *)
Definition root_ok (root : RootInfo) (meta : RootMetadata) : Prop :=
  let info := certified_block (root_quorum_cert root) in
  (bi_version info = 0 ∨ bi_version info = root_metadata_version meta) ∧
  (bi_executed_state_id info = ACCUMULATOR_PLACEHOLDER_HASH ∨ bi_executed_state_id info = accu_hash meta) ∧
  bi_id (qc_commit_info (root_ordered_cert root)) = block_id (root_block root).

(** Building the store from recovered data never panics, when the blocks are listed after
    their parents, the certificates are for them, and the executor and the database answer: the
    tree holds exactly the root and those blocks, all below the root, and a certificate for each
    certified one. *)
Theorem build_complete root meta blocks qcs tc limit bp (w : W)
    (Hroot : root_ok root meta)
    (Hblocks : ∀ b, b ∈ root_block root :: blocks → known b)
    (Hids : NoDup (block_id <$> root_block root :: blocks))
    (Htopo : ∀ l1 b l2, blocks = l1 ++ b :: l2 →
       block_parent_id b = block_id (root_block root) ∨ block_parent_id b ∈ block_id <$> l1)
    (Hcerts : ∀ qc, qc ∈ qcs → ∃ b, b ∈ root_block root :: blocks ∧ certifies qc b)
    (Hfaults : db_faults (swp_db w.1) = []) :
  ∃ s, build root meta blocks qcs tc limit bp w = Ok s ∧
    tree_wf (bs_inner s) ∧ commit_root_id (bs_inner s) = block_id (root_block root) ∧
    (∀ b, b ∈ root_block root :: blocks →
       ∃ eb, get_block (bs_inner s) (block_id b) = Some eb ∧ eb_block eb = b) ∧
    (∀ k eb, get_block (bs_inner s) k = Some eb → eb_block eb ∈ root_block root :: blocks ∧
       desc (id_to_block (bs_inner s)) (block_id (root_block root)) k) ∧
    ∀ qc, qc ∈ qcs → is_Some (get_quorum_cert_for_block (bs_inner s) (bi_id (certified_block qc))).
Proof.
  destruct Hroot as (Hver & Hstate & Hord). unfold build.
  assert (∀ l1 b l2, blocks = l1 ++ b :: l2 → block_parent_id b ∈ block_id <$> root_block root :: l1) as Htopo'.
  { intros l1 b l2 E. rewrite fmap_cons, elem_of_cons. by apply (Htopo l1 b l2). }
  assert (∀ x y z : N, x = y ∨ x = z → (x =? y) || (x =? z) = true) as Hor.
  { intros x y z. rewrite orb_true_iff, !N.eqb_eq. done. }
  rewrite (Hor _ _ _ Hver), (Hor _ _ _ Hstate). run_ok.
  assert (∃ tree, block_tree_new (E := Infallible) (build_root root meta) (root_quorum_cert root)
    (root_ordered_cert root) (root_commit_cert root) limit tc = Ok tree ∧
    building (root_block root) [] (mkBlockStore tree w bp)) as (tree & -> & Hb0).
  { unfold block_tree_new. change (eb_id (build_root root meta)) with (block_id (root_block root)).
    rewrite Hord, N.eqb_refl. run_ok. eexists. split; [done|]. split; try done.
    - eapply (block_tree_new_wf (E := Infallible) (build_root root meta)).
      + unfold block_tree_new. change (eb_id (build_root root meta)) with (block_id (root_block root)).
        by rewrite Hord, N.eqb_refl.
      + change (block_parent_id (root_block root) ≠ block_id (root_block root)). intros Heq.
        destruct (known_parent Hknown (root_block root) (root_block root)) as [_ ?]; [apply Hblocks; by left..|done|lia].
    - intros b ->%list_elem_of_singleton. exists (build_root root meta). split; [|done].
      unfold get_block. cbn [bs_inner id_to_block]. by rewrite lookup_singleton_eq.
    - intros k eb. unfold get_block. cbn [bs_inner id_to_block]. rewrite fmap_Some.
      intros (lb & [_ <-]%lookup_singleton_Some & ->). by left.
    - intros k [eb Hk]. unfold get_block in Hk. cbn [bs_inner id_to_block] in Hk. rewrite fmap_Some in Hk.
      destruct Hk as (lb & [<- _]%lookup_singleton_Some & _). constructor. }
  run_ok. destruct (insert_blocks_building (root_block root) blocks [] _ Hb0) as (s1 & Hrun1 & Hb1); try done.
  { by apply topological_rounds. }
  destruct (insert_certs_building (root_block root) blocks qcs s1 Hb1 Hcerts) as (s2 & Hrun2 & Hb2 & Hq & _).
  rewrite (M_run_bind _ _ tt _ s1 Hrun1), Hrun2. run_ok. exists s2. split_and!; try done; [apply Hb2..|].
  intros k eb Hk. split; [by apply (bu_only _ _ _ Hb2 k)|]. apply (bu_desc _ _ _ Hb2). by eexists.
Qed.
End durable.

(** [back_pressure] never underflows: the ordered root is never behind the commit root, and
    the answer is whether it is ahead by more than the limit. *)
Theorem back_pressure_bounds {W} (s : BlockStore W) c o
    (Hwf : tree_wf (bs_inner s))
    (Hc : get_block (bs_inner s) (commit_root_id (bs_inner s)) = Some c)
    (Ho : get_block (bs_inner s) (ordered_root_id (bs_inner s)) = Some o)
    (Hlimit : back_pressure_limit s + eb_round c < 2 ^ 64) :
  eb_round c ≤ eb_round o ∧
  back_pressure s = (Ok (back_pressure_limit s + eb_round c <? eb_round o), s).
Proof.
  assert (eb_round c ≤ eb_round o) as Hle.
  { apply get_block_Some in Hc as (lc & Hlc & <-), Ho as (lo & Hlo & <-).
    destruct (decide (ordered_root_id (bs_inner s) = commit_root_id (bs_inner s))) as [E|E].
    - rewrite E in Hlo. simplify_eq. lia.
    - pose proof (desc_round _ (tw_links _ Hwf) _ _ lc lo (tw_ordered _ Hwf) Hlc Hlo E). unfold lb_round in *. lia. }
  split; [done|]. unfold back_pressure, read_inner, commit_root, ordered_root.
  erewrite (M_run_bind _ _ c s s) by by rewrite Hc.
  erewrite (M_run_bind _ _ o s s) by by rewrite Ho.
  rewrite mget_bind. erewrite (mlift_bind _ (eb_round o - eb_round c)).
  2: { unfold u64_sub. by rewrite (proj2 (u64_checked_sub_Some (eb_round o) (eb_round c) _) (conj eq_refl Hle)). }
  erewrite (mlift_bind _ (back_pressure_limit s + eb_round c)); [done|].
  unfold u64_add. by rewrite (proj2 (u64_checked_add_Some (back_pressure_limit s) (eb_round c) _) (conj eq_refl Hlimit)).
Qed.

(** ** A small store

    The database of [Recovery] without the dangling block, and an executor that computes dummy
    results. *)
#[local] Existing Instance sample_hashes.
Definition sample_world : Type := StorageWriteProxy sample_bytes * unit.
#[local] Instance sample_computer : StateComputer sample_world := {|
  compute _ _ := mret scr_new_dummy;
  sc_commit _ _ := mret tt;
  sync_to _ := mret tt;
  prefetch_payload_data _ := mret tt;
|}.
Lemma sample_isolated : IsolatedExecutor (Bytes := sample_bytes) (Ex := unit).
Proof. split; by intros * w r w' [_ ->]%mret_run. Qed.
Lemma sample_total : TotalExecutor (Bytes := sample_bytes) (Ex := unit).
Proof. split; intros; by repeat eexists. Qed.

Definition sample_known (b : Block) : Prop :=
  b ∈ [sample_db_block 100 1 0 99; sample_db_block 101 2 1 100; sample_db_block 103 4 2 101].
Lemma sample_known_ok : known_ok sample_known.
Proof.
  assert (∀ b c, sample_known b → sample_known c → (block_id b = block_id c → b = c) ∧
    (block_parent_id c = block_id b → block_epoch b = block_epoch c ∧ block_round b < block_round c)) as Hall.
  { intros b c Hb Hc. unfold sample_known in Hb, Hc. rewrite !elem_of_cons, elem_of_nil in Hb, Hc.
    destruct Hb as [->|[->|[->|[]]]], Hc as [->|[->|[->|[]]]]; (split; intros E; vm_compute in E; try discriminate E;
      try reflexivity; split; vm_compute; reflexivity). }
  split; intros b c Hb Hc; by apply Hall.
Qed.

Definition sample_root_info : RootInfo :=
  mkRootInfo (sample_db_block 100 1 0 99) (sample_cert 1 100 0 0) (sample_cert 2 101 1 100) (sample_cert 2 101 1 100).
Definition sample_reader : DbReader :=
  mkDbReader (Ok (storage_ledger sample_ledger)) (λ _, Ok (mkAccumulator [] 0 0)).
Definition sample_db : ConsensusDB sample_bytes :=
  mkConsensusDB None None {[100 := sample_db_block 100 1 0 99]} {[100 := sample_cert 1 100 0 0]} [].

Lemma build_complete_witness :
  ∃ s, build (W := sample_world) sample_root_info (mkRootMetadata 0 [] 0)
      [sample_db_block 101 2 1 100; sample_db_block 103 4 2 101] sample_db_certs None 10 10
      (mkStorageWriteProxy sample_db sample_reader, tt) = Ok s ∧
    (∀ b, b ∈ [sample_db_block 100 1 0 99; sample_db_block 101 2 1 100; sample_db_block 103 4 2 101] →
       ∃ eb, get_block (bs_inner s) (block_id b) = Some eb ∧ eb_block eb = b) ∧
    is_Some (get_quorum_cert_for_block (bs_inner s) 101).
Proof.
  destruct (build_complete (H0 := sample_isolated) sample_known sample_known_ok
    (H1 := sample_total) sample_root_info (mkRootMetadata 0 [] 0)
    [sample_db_block 101 2 1 100; sample_db_block 103 4 2 101] sample_db_certs None 10 10
    (mkStorageWriteProxy sample_db sample_reader, tt)) as (s & Hrun & _ & _ & Hb & _ & Hq).
  - split_and!; [left|right|]; reflexivity.
  - done.
  - apply (bool_decide_unpack _). vm_compute. exact I.
  - intros [|b1 [|b2 [|b3 l1]]] b l2 E; cbn in E; simplify_eq/=; [by left|right; by left].
  - intros qc Hqc. unfold sample_db_certs in Hqc. rewrite !elem_of_cons, elem_of_nil in Hqc.
    destruct Hqc as [->|[->|[]]]; [exists (sample_db_block 101 2 1 100)|exists (sample_db_block 100 1 0 99)];
      (split; [cbn; set_solver|reflexivity]).
  - reflexivity.
  - exists s. split; [done|]. split; [done|]. apply (Hq (sample_cert 2 101 1 100)). by left.
Defined.

Definition sample_store : BlockStore sample_world :=
  mkBlockStore
    (mkBlockTree {[100 := linkable_block_new (build_root sample_root_info (mkRootMetadata 0 [] 0))]} 100 100 100
       (sample_cert 1 100 0 0) None (sample_cert 2 101 1 100) (sample_cert 2 101 1 100)
       {[100 := sample_cert 1 100 0 0]} [] 10)
    (mkStorageWriteProxy sample_db sample_reader, tt) 10.
Definition sample_commit_of (k : HashValue) : HashValue := if k =? 101 then 100 else 0.

Lemma sample_store_wf : tree_wf (bs_inner sample_store).
Proof.
  apply (block_tree_new_wf (E := Infallible) (build_root sample_root_info (mkRootMetadata 0 [] 0))
    (sample_cert 1 100 0 0) (sample_cert 2 101 1 100) (sample_cert 2 101 1 100) 10 None); [reflexivity|].
  vm_compute. discriminate.
Qed.
Lemma sample_store_block k b :
  get_block (bs_inner sample_store) k = Some b →
  k = 100 ∧ b = build_root sample_root_info (mkRootMetadata 0 [] 0).
Proof.
  unfold get_block, sample_store. cbn [bs_inner id_to_block]. rewrite fmap_Some.
  by intros (lb & [<- <-]%lookup_singleton_Some & ->).
Qed.

Lemma sample_durable : durable sample_known sample_commit_of sample_store.
Proof.
  split.
  - apply sample_store_wf.
  - intros k b [-> ->]%sample_store_block. by left.
  - intros c b a [-> ->]%sample_store_block _ Ha.
    destruct (get_block (bs_inner sample_store) a) as [ab|] eqn:Ea; [|done].
    apply sample_store_block in Ea as [-> _]. exfalso.
    inversion Ha as [|b Hb _ E].
    unfold sample_known in Hb. rewrite !elem_of_cons, elem_of_nil in Hb.
    destruct Hb as [->|[->|[->|[]]]]; vm_compute in E; discriminate E.
  - intros k [q Hq]. unfold get_quorum_cert_for_block, sample_store in Hq. cbn [bs_inner id_to_quorum_cert] in Hq.
    apply lookup_singleton_Some in Hq as [<- _]. by eexists.
  - by intros k b _ [-> ->]%sample_store_block.
  - intros k _ Hq. done.
  - intros k b Hb. change (({[100 := sample_db_block 100 1 0 99]} : gmap HashValue Block) !! k = Some b) in Hb.
    apply lookup_singleton_Some in Hb as [<- <-]. split; [done|by left].
  - intros k q Hq. change (({[100 := sample_cert 1 100 0 0]} : gmap HashValue QuorumCert) !! k = Some q) in Hq.
    by apply lookup_singleton_Some in Hq as [<- <-].
  - done.
  - done.
Qed.

Definition sample_calls : list bs_call :=
  [CallInsertBlock (sample_db_block 101 2 1 100); CallInsertCert (sample_cert 2 101 1 100)].

Lemma sample_calls_ok : bs_calls_ok sample_known sample_commit_of sample_store sample_calls.
Proof.
  split; [right; by left|]. split; [|done]. split; [|reflexivity].
  intros hb b _ _ _. eapply (desc_step _ _ 100); [constructor|vm_compute; reflexivity|].
  apply (bool_decide_unpack _). vm_compute. exact I.
Qed.

Definition sample_reopened : StorageWriteProxy sample_bytes :=
  mkStorageWriteProxy (db_of (bs_run sample_calls sample_store)) sample_reader.

Lemma sample_ledger_at :
  ledger_at sample_commit_of (bs_run sample_calls sample_store) (storage_ledger sample_ledger) 100.
Proof.
  assert (db_quorum_certs (db_of (bs_run sample_calls sample_store)) =
    <[101 := sample_cert 2 101 1 100]> {[100 := sample_cert 1 100 0 0]}) as Hqs by (vm_compute; reflexivity).
  split.
  - reflexivity.
  - reflexivity.
  - assert (commit_root_id (bs_inner (bs_run sample_calls sample_store)) = 100) as -> by (vm_compute; reflexivity).
    constructor.
  - vm_compute. by eexists.
  - exists 101. split_and!; [|vm_compute; by eexists|reflexivity].
    assert (commit_root_id (bs_inner (bs_run sample_calls sample_store)) = 100) as -> by (vm_compute; reflexivity).
    eapply (desc_step _ _ 100); [constructor|vm_compute; reflexivity|].
    apply (bool_decide_unpack _). vm_compute. exact I.
  - intros k qc. rewrite Hqs. intros [[_ <-]|[_ [_ <-]%lookup_singleton_Some]]%lookup_insert_Some E; [reflexivity|].
    vm_compute in E. discriminate E.
Qed.


Lemma back_pressure_bounds_witness :
  1 ≤ 1 ∧ back_pressure sample_store = (Ok false, sample_store).
Proof.
  apply (back_pressure_bounds sample_store (build_root sample_root_info (mkRootMetadata 0 [] 0))
    (build_root sample_root_info (mkRootMetadata 0 [] 0))); [apply sample_store_wf|reflexivity|reflexivity|reflexivity].
Defined.
