(* ===== verification/SyncManager.v ===== *)
(** * Catching up with other validators (consensus/src/block_storage/sync_manager.rs)

    Certificates of a peer are inserted into the block store after the blocks they need have
    been fetched from the validators that signed them, or, when the peer is far ahead, after a
    fast forward to its last commit. *)
From S2P Require Import Prelude BitVec Crypto Accumulator ValidatorVerifier LedgerInfo ConsensusTypes Blocks.
From S2P Require Import Recovery BlockTree BlockStore.
Local Open Scope N_scope.

(** ** Retrieving blocks *)

Definition MAX_BLOCKS_PER_REQUEST : N := 10.
Definition MAX_FAILED_ATTEMPTS : N := 4.
Definition RETRIEVAL_INITIAL_TIMEOUT : N := 500.
Definition RETRIEVAL_MAX_EXP : N := 2.

(** In milliseconds. *)
Definition retrieval_timeout {E} (attempt : N) : outcome E N :=
  _ ← rassert (0 <? attempt);
  let exp := N.min RETRIEVAL_MAX_EXP (attempt - 1) in
  Ok (RETRIEVAL_INITIAL_TIMEOUT * 2 ^ exp).

(** The network, the clock and the random numbers; a response is [None] when the peer answered
    with another kind of message. *)
Class Network (W : Type) := {
  send_rpc : Author → BlockRetrievalRequest → N → M W anyhow (option BlockRetrievalResponse);
  send_commit_proof : LedgerInfoWithSignatures → M W Infallible unit;
  send_epoch_change : EpochChangeProof → M W Infallible unit;
  broadcast_epoch_change : EpochChangeProof → M W Infallible unit;
  current_micros : M W Infallible N;
  gen_range : nat → M W Infallible nat;
}.

Record BlockRetriever := mkBlockRetriever {
  net_author : Author;
  net_validators : ValidatorVerifier;
  preferred_peer : Author;
  validator_addresses : list AccountAddress;
}.

Section retriever.
Context {W : Type} `{!Network W} `{!Bls} `{!ArxHashes}.

(** network.rs *)
Definition request_block (rt : BlockRetriever) (retrieval_request : BlockRetrievalRequest) (from : Author)
    (timeout : N) : M W anyhow BlockRetrievalResponse :=
  _ ← mlift (ensure (negb (from =? net_author rt)) (fmt "Retrieve block from self" []));
  response_msg ← send_rpc from retrieval_request timeout;
  response ← mlift (ok_or response_msg (fmt "Invalid response to request" []));
  now ← mmap_err absurd current_micros;
  _ ← mlift (block_retrieval_response_verify now response retrieval_request (net_validators rt));
  mret response.

(** [peers.remove(i)] for the first [i] with the preferred peer *)
Fixpoint remove_first (a : Author) (peers : list Author) : list Author :=
  match peers with
  | [] => []
  | p :: peers => if p =? a then peers else p :: remove_first a peers
  end.

Definition pick_peer (rt : BlockRetriever) (attempt : N) (peers : list Author)
  : M W Infallible (Author * list Author) :=
  _ ← mlift (rassert (bool_decide (peers ≠ [])));
  if attempt =? 0 then mret (preferred_peer rt, remove_first (preferred_peer rt) peers)
  else
    peer_idx ← gen_range (length peers);
    peer ← mlift (expect (peers !! peer_idx));
    mret (peer, delete peer_idx peers).

(** The [while progress < num_blocks] loop. Every round retrieves a block or counts a failed
    attempt, so [num_blocks + MAX_FAILED_ATTEMPTS + 1] rounds are enough. *)
Fixpoint retrieve_loop (fuel : nat) (rt : BlockRetriever) (block_id target_block_id : HashValue)
    (num_blocks : N) (progress : N) (last_block_id : HashValue) (result_blocks : list Block)
    (retrieve_batch_size : N) (failed_attempt : N) (peer : Author) (peers : list Author)
  : M W anyhow (list Block) :=
  match fuel with
  | O => mlift Panic
  | S fuel =>
      if num_blocks <=? progress then mret result_blocks
      else
        let retrieve_batch_size := N.min retrieve_batch_size (num_blocks - progress) in
        timeout ← mlift (retrieval_timeout (failed_attempt + 1));
        (λ w,
          let '(response, w) :=
            request_block rt
              (mkBlockRetrievalRequest last_block_id retrieve_batch_size (Some target_block_id)) peer timeout w in
          let retry : M W anyhow (list Block) :=
            if bool_decide (peers = []) || (MAX_FAILED_ATTEMPTS <=? failed_attempt) then
              mlift (Err (fmt "Failed to fetch block {} in {} attempts" [block_id; failed_attempt + 1]))
            else
              '(peer, peers) ← mmap_err absurd (pick_peer rt (failed_attempt + 1) peers);
              retrieve_loop fuel rt block_id target_block_id num_blocks progress last_block_id
                result_blocks retrieve_batch_size (failed_attempt + 1) peer peers in
          match response with
          | Ok result =>
              match brr_status result with
              | Succeeded =>
                  match last (brr_blocks result) with
                  | Some b =>
                      retrieve_loop fuel rt block_id target_block_id num_blocks
                        (progress + lenN (brr_blocks result)) (block_parent_id b)
                        (result_blocks ++ brr_blocks result) retrieve_batch_size failed_attempt peer peers w
                  | None => (Panic, w)
                  end
              | SucceededWithTarget => (Ok (result_blocks ++ brr_blocks result), w)
              | _ => retry w
              end
          | Err _ => retry w
          | Panic => (Panic, w)
          end) : M W anyhow (list Block)
  end.

Definition retrieve_block_for_id (rt : BlockRetriever) (block_id target_block_id : HashValue)
    (peers : list AccountAddress) (num_blocks : N) : M W anyhow (list Block) :=
  if bool_decide (peers = []) then
    mlift (Err (fmt "Failed to fetch block {}: no peers available" [block_id]))
  else
    '(peer, peers) ← mmap_err absurd (pick_peer rt 0 peers);
    result_blocks ← retrieve_loop (N.to_nat (num_blocks + MAX_FAILED_ATTEMPTS + 1)) rt block_id
      target_block_id num_blocks 0 block_id [] MAX_BLOCKS_PER_REQUEST 0 peer peers;
    last_block ← mlift (expect (last result_blocks));
    _ ← mlift (rassert (ConsensusTypes.block_id last_block =? target_block_id));
    mret result_blocks.

Definition retrieve_block_for_qc (rt : BlockRetriever) (qc : QuorumCert) (num_blocks : N)
    (target_block_id : HashValue) : M W anyhow (list Block) :=
  retrieve_block_for_id rt (bi_id (certified_block qc)) target_block_id
    (liws_get_voters (qc_signed_ledger_info qc) (validator_addresses rt)) num_blocks.
End retriever.

(** ** The block store *)

Inductive NeedFetchResult := QCRoundBeforeRoot | QCAlreadyExist | QCBlockExist | NeedFetch.

Section sync.
Context {W : Type} `{!PersistentLivenessStorage W} `{!StateComputer W} `{!Network W} `{!Bls} `{!ArxHashes}.
Local Abbreviation store := (BlockStore W) (only parsing).

Definition u64_mul {E} (a b : N) : outcome E N := if is_u64 (a * b) then Ok (a * b) else Panic.

Definition need_sync_for_ledger_info (li : LedgerInfoWithSignatures) : M store Infallible bool :=
  ordered ← read_inner ordered_root;
  s ← mget;
  let round := bi_round (liws_commit_info li) in
  if (eb_round ordered <? round) && negb (block_exists (bs_inner s) (bi_id (liws_commit_info li)))
  then mret true
  else
    committed ← read_inner commit_root;
    distance ← mlift (u64_mul 2 (back_pressure_limit s));
    bound ← mlift (u64_add (eb_round committed) distance);
    mret (bound <? round).

Definition need_fetch_for_quorum_cert (qc : QuorumCert) : M store Infallible NeedFetchResult :=
  ordered ← read_inner ordered_root;
  s ← mget;
  let id := bi_id (certified_block qc) in
  mret (if bi_round (certified_block qc) <? eb_round ordered then QCRoundBeforeRoot
        else match get_quorum_cert_for_block (bs_inner s) id with
             | Some _ => QCAlreadyExist
             | None => if block_exists (bs_inner s) id then QCBlockExist else NeedFetch
             end).

(** The first loop of [fetch_quorum_cert]: back along the certificates to a block the store
    has; the head of [pending] is the block retrieved last. *)
Fixpoint fetch_loop (fuel : nat) (rt : BlockRetriever) (retrieve_qc : QuorumCert) (pending : list Block)
  : M store anyhow (list Block) :=
  match fuel with
  | O => mlift Panic
  | S fuel =>
      s ← mget;
      if block_exists (bs_inner s) (bi_id (certified_block retrieve_qc)) then mret pending
      else
        blocks ← on_world (retrieve_block_for_qc rt retrieve_qc 1 (bi_id (certified_block retrieve_qc)));
        block ← mlift (expect (head blocks));
        fetch_loop fuel rt (block_quorum_cert block) (block :: pending)
  end.
Fixpoint insert_pending (pending : list Block) : M store anyhow unit :=
  match pending with
  | [] => mret tt
  | block :: pending =>
      _ ← insert_single_quorum_cert (block_quorum_cert block);
      _ ← execute_and_insert_block block;
      insert_pending pending
  end.
Definition fetch_quorum_cert (fuel : nat) (rt : BlockRetriever) (qc : QuorumCert) : M store anyhow unit :=
  pending ← fetch_loop fuel rt qc [];
  _ ← insert_pending pending;
  insert_single_quorum_cert qc.

(** [fuel] bounds the number of blocks that are fetched one by one. *)
Definition insert_quorum_cert (fuel : nat) (rt : BlockRetriever) (qc : QuorumCert) : M store anyhow unit :=
  let commit_it : M store anyhow unit :=
    ordered ← read_inner ordered_root;
    if eb_round ordered <? bi_round (qc_commit_info qc) then
      _ ← commit qc;
      if qc_ends_epoch qc then
        mmap_err absurd (on_world (broadcast_epoch_change
          (mkEpochChangeProof [qc_signed_ledger_info qc] false)))
      else mret tt
    else mret tt in
  need ← mmap_err absurd (need_fetch_for_quorum_cert qc);
  match need with
  | NeedFetch => _ ← fetch_quorum_cert fuel rt qc; commit_it
  | QCBlockExist => _ ← insert_single_quorum_cert qc; commit_it
  | QCAlreadyExist => mret tt
  | QCRoundBeforeRoot => commit_it
  end.

Definition sync_to_highest_commit_cert (li : LedgerInfoWithSignatures) : M store Infallible unit :=
  s ← mget;
  committed ← read_inner commit_root;
  ordered ← read_inner ordered_root;
  let round := bi_round (liws_commit_info li) in
  if (eb_round committed <? round) && block_exists (bs_inner s) (bi_id (liws_commit_info li))
     && (round <=? eb_round ordered)
  then on_world (send_commit_proof li)
  else mret tt.

(** The checks of [fast_forward_sync] on the retrieved blocks and their certificates. *)
Definition certs_match (blocks : list Block) (quorum_certs : list QuorumCert) : bool :=
  (length blocks =? length quorum_certs)%nat
  && forallb (λ '(b, qc), block_id b =? bi_id (certified_block qc)) (zip blocks quorum_certs).

(** The certificates of the chain, and the fork that certifies the commit. *)
Definition fetch_fork (rt : BlockRetriever) (highest_commit_cert : QuorumCert) (blocks : list Block)
    (quorum_certs : list QuorumCert) : M W anyhow (list Block * list QuorumCert) :=
  let id := bi_id (certified_block highest_commit_cert) in
  if existsb (λ block, block_id block =? id) blocks then mret (blocks, quorum_certs)
  else
    additional_blocks ← retrieve_block_for_qc rt highest_commit_cert 1 id;
    _ ← mlift (rassert (length additional_blocks =? 1)%nat);
    block ← mlift (expect (last additional_blocks));
    _ ← mlift (rassert (block_id block =? id));
    mret (blocks ++ [block], quorum_certs ++ [highest_commit_cert]).

Definition fast_forward_sync (rt : BlockRetriever) (highest_ordered_cert highest_commit_cert : QuorumCert)
  : M W anyhow RecoveryData :=
  gap ← mlift (u64_sub (bi_round (certified_block highest_ordered_cert))
                 (li_round (qc_ledger_info highest_commit_cert)));
  num_blocks ← mlift (u64_add gap 1);
  _ ← mlift (rassert (num_blocks <? U64_MAX));
  blocks ← retrieve_block_for_qc rt highest_ordered_cert num_blocks (bi_id (qc_commit_info highest_commit_cert));
  first_block ← mlift (expect (head blocks));
  _ ← mlift (rassert (block_id first_block =? bi_id (certified_block highest_ordered_cert)));
  last_block ← mlift (expect (last blocks));
  _ ← mlift (rassert (block_id last_block =? bi_id (qc_commit_info highest_commit_cert)));
  let quorum_certs := highest_ordered_cert :: (block_quorum_cert <$> take (length blocks - 1) blocks) in
  '(blocks, quorum_certs) ← fetch_fork rt highest_commit_cert blocks quorum_certs;
  _ ← mlift (rassert (certs_match blocks quorum_certs));
  _ ← mlift (map_err (with_context "Root: {:?} Blocks in db: {} Quorum Certs in db: {}")
        (find_root (mkLedgerRecoveryData (qc_signed_ledger_info highest_commit_cert)) blocks quorum_certs));
  _ ← save_tree blocks quorum_certs;
  _ ← sync_to (qc_signed_ledger_info highest_commit_cert);
  data ← mmap_err absurd start;
  match data with
  | FullRecoveryData recovery_data => mret recovery_data
  | PartialRecoveryData _ => mlift Panic
  end.

Definition sync_to_highest_ordered_cert (rt : BlockRetriever)
    (highest_ordered_cert highest_commit_cert : QuorumCert) : M store anyhow unit :=
  need ← mmap_err absurd (need_sync_for_ledger_info (qc_signed_ledger_info highest_commit_cert));
  if negb need then mret tt
  else
    data ← on_world (fast_forward_sync rt highest_ordered_cert highest_commit_cert);
    _ ← read_inner ordered_root;
    _ ← mmap_err absurd (rebuild (rd_root data) (rd_root_metadata data) (rd_blocks data) (rd_quorum_certs data));
    if ends_epoch (qc_ledger_info highest_commit_cert) then
      mmap_err absurd (on_world (send_epoch_change
        (mkEpochChangeProof [qc_signed_ledger_info highest_ordered_cert] false)))
    else mret tt.

Definition add_certs (fuel : nat) (rt : BlockRetriever) (info : SyncInfo) : M store anyhow unit :=
  _ ← mmap_err absurd (sync_to_highest_commit_cert (qc_signed_ledger_info (si_highest_commit_cert info)));
  _ ← sync_to_highest_ordered_cert rt (highest_ordered_cert info) (si_highest_commit_cert info);
  _ ← insert_quorum_cert fuel rt (highest_ordered_cert info);
  _ ← insert_quorum_cert fuel rt (si_highest_quorum_cert info);
  match si_highest_2chain_timeout_cert info with
  | Some tc => insert_2chain_timeout_certificate tc
  | None => mret tt
  end.

(** *** Serving retrieval requests *)

Fixpoint retrieval_loop (num_blocks : nat) (t : BlockTree) (request : BlockRetrievalRequest) (id : HashValue)
  : BlockRetrievalStatus * list Block :=
  match num_blocks with
  | O => (Succeeded, [])
  | S num_blocks =>
      match get_block t id with
      | Some executed_block =>
          if match_target_id request id then (SucceededWithTarget, [eb_block executed_block])
          else
            let '(status, blocks) := retrieval_loop num_blocks t request (eb_parent_id executed_block) in
            (status, eb_block executed_block :: blocks)
      | None => (NotEnoughBlocks, [])
      end
  end.
(** The response of [process_block_retrieval]. *)
Definition process_block_retrieval (t : BlockTree) (request : BlockRetrievalRequest) : BlockRetrievalResponse :=
  let '(status, blocks) :=
    retrieval_loop (N.to_nat (brq_num_blocks request)) t request (brq_block_id request) in
  mkBlockRetrievalResponse (if bool_decide (blocks = []) then IdNotFound else status) blocks.
End sync.

(** ** Chains of blocks *)

(** The id after the last block of a chain. *)
Definition chain_end (id : HashValue) (l : list Block) : HashValue := from_option block_parent_id id (last l).

Lemma id_chain_app id l1 l2 : id_chain id (l1 ++ l2) ↔ id_chain id l1 ∧ id_chain (chain_end id l1) l2.
Proof.
  revert id. induction l1 as [|b l1 IH]; intros id; [cbn; tauto|]. cbn [app id_chain]. rewrite IH.
  unfold chain_end. rewrite last_cons. destruct (last l1); cbn; tauto.
Qed.
Lemma chain_end_app id l1 l2 : chain_end id (l1 ++ l2) = chain_end (chain_end id l1) l2.
Proof. unfold chain_end. rewrite last_app. by destruct (last l2), (last l1). Qed.

Section retrieval_facts.
Context {W : Type} `{!Network W} `{!Bls} `{!ArxHashes}.

(** The services answer or fail; they do not panic. *)
Class NetworkReturns := {
  send_rpc_returns from req timeout w : (send_rpc from req timeout w).1 ≠ Panic;
  clock_returns w : ∃ now w', current_micros w = (Ok now, w');
  gen_range_returns n w : (0 < n)%nat → ∃ i w', gen_range n w = (Ok i, w') ∧ (i < n)%nat;
}.
Context `{!NetworkReturns}.

(** A response made verification panic. *)
Definition verify_panics (rt : BlockRetriever) : Prop :=
  ∃ now resp req, block_retrieval_response_verify now resp req (net_validators rt) = Panic.
Definition signed_chain (rt : BlockRetriever) (id : HashValue) (l : list Block) : Prop :=
  id_chain id l ∧ ∀ b, b ∈ l → validate_signature b (net_validators rt) = Ok tt.

Lemma response_verify_chain now resp req v :
  block_retrieval_response_verify now resp req v = Ok tt →
  status_holds req resp ∧ id_chain (brq_block_id req) (brr_blocks resp) ∧
  ∀ b, b ∈ brr_blocks resp → validate_signature b v = Ok tt.
Proof.
  unfold block_retrieval_response_verify, status_holds.
  rewrite !ensure_bind, !orb_true_iff, !negb_true_iff, !bool_decide_eq_false, N.eqb_eq.
  intros (Hs1 & Hs2 & Hs3).
  assert (is_ok (verify_block_chain now (brq_block_id req) (brr_blocks resp) v) = true) as Hok
    by (destruct (verify_block_chain _ _ _ _); done).
  apply verify_block_chain_Ok in Hok as [Hall Hchain]. rewrite Forall_forall in Hall. split_and!; [naive_solver| |done|].
  - intros Hs. destruct Hs2 as [|Hs2]; [done|]. destruct (last (brr_blocks resp)) as [b|]; [|done]. exists b.
    split; [done|]. unfold match_target_id in Hs2. destruct (brq_target_block_id req) as [t|]; [|done].
    apply N.eqb_eq in Hs2. congruence.
  - intros b Hb. by apply Hall.
Qed.

(** What an accepted response holds. *)
Lemma request_block_run rt req from timeout w r w' :
  request_block rt req from timeout w = (r, w') →
  match r with
  | Ok resp => status_holds req resp ∧ signed_chain rt (brq_block_id req) (brr_blocks resp)
  | Err _ => True
  | Panic => verify_panics rt
  end.
Proof.
  unfold request_block. intros Hrun.
  apply M_bind_cases in Hrun as [(u & w1 & E1 & Hrun)|[(e & _ & ->)|[E1 ->]]]; [|done|].
  2: { apply mlift_run in E1 as [E1 _]. unfold ensure in E1. by destruct (negb _). }
  apply M_bind_cases in Hrun as [(msg & w2 & E2 & Hrun)|[(e & _ & ->)|[E2 ->]]]; [|done|].
  2: { pose proof (send_rpc_returns from req timeout w1) as Hret. by rewrite E2 in Hret. }
  apply M_bind_cases in Hrun as [(resp & w3 & E3 & Hrun)|[(e & _ & ->)|[E3 ->]]]; [|done|].
  2: { apply mlift_run in E3 as [E3 _]. by destruct msg. }
  apply M_bind_cases in Hrun as [(now & w4 & E4 & Hrun)|[(e & _ & ->)|[E4 ->]]]; [|done|].
  2: { apply mmap_err_run in E4 as (r4 & E4 & Er). destruct (clock_returns w3) as (now & w4 & E5).
       rewrite E5 in E4. by simplify_eq. }
  apply M_bind_cases in Hrun as [([] & w5 & E5 & Hrun)|[(e & _ & ->)|[E5 ->]]]; [|done|].
  - apply mret_run in Hrun as [-> _]. apply mlift_run in E5 as [E5 _].
    apply response_verify_chain in E5 as (? & ? & ?). done.
  - apply mlift_run in E5 as [E5 _]. by exists now, resp, req.
Qed.

Lemma pick_peer_run rt attempt peers w :
  peers ≠ [] → ∃ peer peers' w', pick_peer rt attempt peers w = (Ok (peer, peers'), w').
Proof.
  intros Hne. unfold pick_peer. rewrite (mlift_bind _ tt) by by rewrite bool_decide_true.
  destruct (attempt =? 0); [by repeat eexists|].
  destruct (gen_range_returns (length peers) w) as (i & w' & E & Hi); [destruct peers; [done|cbn; lia]|].
  rewrite (M_run_bind _ _ _ _ _ E). destruct (lookup_lt_is_Some_2 peers i Hi) as [p Hp].
  rewrite (mlift_bind _ p) by by rewrite Hp. by repeat eexists.
Qed.

(** The loop retrieves a signed chain that ends at the target or has as many blocks as asked
    for, within the fuel. *)
Lemma retrieve_loop_run rt id target n fuel : ∀ last_id result size failed peer peers w r w',
  signed_chain rt id result → last_id = chain_end id result → 0 < size → failed ≤ MAX_FAILED_ATTEMPTS →
  (n - lenN result) + (MAX_FAILED_ATTEMPTS - failed) < N.of_nat fuel →
  retrieve_loop fuel rt id target n (lenN result) last_id result size failed peer peers w = (r, w') →
  match r with
  | Ok l => signed_chain rt id l ∧ ((∃ b, last l = Some b ∧ block_id b = target) ∨ n ≤ lenN l)
  | Err _ => True
  | Panic => verify_panics rt
  end.
Proof.
  induction fuel as [|fuel IH]; intros last_id result size failed peer peers w r w' Hch -> Hsize Hfail Hfuel Hrun; [lia|].
  cbn [retrieve_loop] in Hrun. destruct (N.leb_spec n (lenN result)) as [Hle|Hlt].
  { apply mret_run in Hrun as [-> _]. auto. }
  destruct (retrieval_timeout (E := anyhow) (failed + 1)) as [timeout| |] eqn:Et;
    [|unfold retrieval_timeout in Et; destruct (N.ltb_spec 0 (failed + 1)); [done|lia]..].
  rewrite (mlift_bind _ timeout) in Hrun by done.
  set (req := mkBlockRetrievalRequest _ _ _) in Hrun.
  destruct (request_block rt req peer timeout w) as [resp w1] eqn:Ereq. apply request_block_run in Ereq.
  assert (∀ w r w', (if bool_decide (peers = []) || (MAX_FAILED_ATTEMPTS <=? failed) then
      mlift (Err (fmt "Failed to fetch block {} in {} attempts" [id; failed + 1]))
    else '(peer, peers) ← mmap_err absurd (pick_peer rt (failed + 1) peers);
      retrieve_loop fuel rt id target n (lenN result) (chain_end id result) result
        (size `min` (n - lenN result)) (failed + 1) peer peers) w = (r, w') →
    match r with
    | Ok l => signed_chain rt id l ∧ ((∃ b, last l = Some b ∧ block_id b = target) ∨ n ≤ lenN l)
    | Err _ => True
    | Panic => verify_panics rt
    end) as Hretry.
  { intros w0 r0 w0' Hr. case_bool_decide as Hp; [by apply mlift_run in Hr as [<- _]|]. cbn [orb] in Hr.
    destruct (N.leb_spec MAX_FAILED_ATTEMPTS failed); [by apply mlift_run in Hr as [<- _]|].
    destruct (pick_peer_run rt (failed + 1) peers w0 Hp) as (p' & peers' & w2 & Epick).
    erewrite (M_run_bind _ _ (p', peers')) in Hr by (apply mmap_err_run; eexists; split; [exact Epick|done]).
    eapply IH in Hr; [done|done|done|lia|lia|lia]. }
  destruct resp as [resp|e|]; [|by eapply Hretry|by simplify_eq].
  destruct Ereq as [[Hsuc Htgt] [Hc Hs]]. destruct Hch as [Hc0 Hs0].
  assert (signed_chain rt id (result ++ brr_blocks resp)) as Hch'.
  { split; [by apply id_chain_app|]. intros b [?|?]%elem_of_app; auto. }
  destruct (brr_status resp) eqn:Est; [|by eapply Hretry|by eapply Hretry|].
  - specialize (Hsuc eq_refl). cbn [req brq_num_blocks] in Hsuc.
    destruct (last (brr_blocks resp)) as [b|] eqn:El.
    + assert (lenN result + lenN (brr_blocks resp) = lenN (result ++ brr_blocks resp)) as Elen
        by (unfold lenN; rewrite length_app; lia).
      rewrite Elen in Hrun. eapply IH in Hrun; [done|done| |lia|done|].
      * rewrite chain_end_app. unfold chain_end at 1. by rewrite El.
      * rewrite <-Elen. lia.
    + apply last_None in El. rewrite El in Hsuc. change (lenN (@nil Block)) with 0 in Hsuc. lia.
  - injection Hrun as <- <-. split; [done|]. left. destruct (Htgt eq_refl) as (b & Hb & Hbt). exists b.
    cbn in Hbt. rewrite last_app, Hb. split; [done|congruence].
Qed.

End retrieval_facts.

(** ** What a node serves *)

Section served.
Context (t : BlockTree) (Hwf : tree_wf t).

Definition in_tree (b : Block) : Prop := ∃ eb, get_block t (block_id b) = Some eb ∧ eb_block eb = b.

Lemma retrieval_loop_spec n req : ∀ id,
  let '(status, blocks) := retrieval_loop n t req id in
  id_chain id blocks ∧ (∀ b, b ∈ blocks → in_tree b) ∧
  (blocks = [] ↔ n = 0%nat ∨ get_block t id = None) ∧
  match status with
  | Succeeded => length blocks = n
  | SucceededWithTarget => ∃ b, last blocks = Some b ∧ brq_target_block_id req = Some (block_id b)
  | NotEnoughBlocks => get_block t (chain_end id blocks) = None
  | IdNotFound => False
  end.
Proof.
  induction n as [|n IH]; intros id; [cbn; split_and!; [done|by intros b ?%not_elem_of_nil|tauto|done]|].
  cbn [retrieval_loop]. destruct (get_block t id) as [eb|] eqn:E.
  2: { split_and!; [done|by intros b ?%not_elem_of_nil|tauto|done]. }
  assert (block_id (eb_block eb) = id) as Hid by apply (get_block_id _ (tw_links _ Hwf) _ _ E).
  assert (in_tree (eb_block eb)) as Hin by (exists eb; by rewrite Hid).
  destruct (match_target_id req id) eqn:Et.
  - split_and!; [done|by intros b ->%list_elem_of_singleton|naive_solver|].
    exists (eb_block eb). split; [done|]. unfold match_target_id in Et. destruct (brq_target_block_id req); [|done].
    apply N.eqb_eq in Et. congruence.
  - specialize (IH (eb_parent_id eb)). destruct (retrieval_loop n t req (eb_parent_id eb)) as [status blocks].
    destruct IH as (Hc & Hb & _ & Hs). split_and!; [done|by intros b [->|?]%elem_of_cons; auto|naive_solver|].
    destruct status; [cbn; lia|done| |].
    + unfold chain_end in *. rewrite last_cons. by destruct (last blocks).
    + destruct Hs as (b & Hlast & ?). exists b. rewrite last_cons, Hlast. done.
Qed.

(** Along a path of the tree the loop returns the path, up to the target. *)
Lemma retrieval_loop_path target req : ∀ n l id,
  brq_target_block_id req = Some target → id_chain id l → (∀ b, b ∈ l → in_tree b) →
  (∀ l1 b l2, l = l1 ++ b :: l2 → block_id b = target ↔ l2 = []) → l ≠ [] →
  retrieval_loop n t req id =
    if (length l <=? n)%nat then (SucceededWithTarget, l) else (Succeeded, take n l).
Proof.
  intros n l. revert n. induction l as [|b l IH]; intros n id Htgt Hc Hin Hend Hne; [done|].
  destruct n as [|n]; [done|]. destruct Hc as [Hid Hc]. cbn [retrieval_loop length].
  destruct (Hin b) as (eb & Hget & Heb); [by left|]. rewrite <-Hid, Hget. unfold match_target_id. rewrite Htgt.
  destruct (decide (l = [])) as [->|Hl].
  { rewrite (proj2 (Hend [] b [] eq_refl) eq_refl), N.eqb_refl, Heb. done. }
  rewrite (proj2 (N.eqb_neq _ _)) by (intros Eq; apply Hl, (Hend [] b l eq_refl); by rewrite Eq).
  assert (eb_parent_id eb = block_parent_id b) as -> by (unfold eb_parent_id; by rewrite Heb).
  rewrite (IH n (block_parent_id b)); [|done|done|intros c ?; apply Hin; by right| |done].
  - cbn [Nat.leb]. rewrite Heb. by destruct (length l <=? n)%nat.
  - intros l1 c l2 ->. apply (Hend (b :: l1) c l2 eq_refl).
Qed.

Section verified.
Context `{!Bls} `{!ArxHashes} (v : ValidatorVerifier).

(** What a node serves is accepted by the node that asked: a response made of the blocks of
    a tree of verified blocks passes the verification of the requester; it is empty exactly when
    nothing was asked for or the first block is unknown, and it stops short only when the next
    parent is unknown. *)
Theorem served_response_verifies now req
    (Hsigned : ∀ b, in_tree b → validate_signature b v = Ok tt ∧ well_formed now b ∧ block_round b + 1 < 2 ^ 64) :
  let r := process_block_retrieval t req in
  block_retrieval_response_verify now r req v = Ok tt ∧
  (brr_status r = IdNotFound ↔ brq_num_blocks req = 0 ∨ get_block t (brq_block_id req) = None) ∧
  (brr_status r = NotEnoughBlocks → get_block t (chain_end (brq_block_id req) (brr_blocks r)) = None).
Proof.
  intros r. unfold process_block_retrieval in r.
  pose proof (retrieval_loop_spec (N.to_nat (brq_num_blocks req)) req (brq_block_id req)) as Hspec.
  destruct (retrieval_loop _ t req _) as [status blocks]. destruct Hspec as (Hc & Hin & Hempty & Hs).
  split_and!.
  - apply block_retrieval_iff; [intros b Hb; by apply Hsigned, Hin|].
    split_and!; [| |intros b Hb; split; by apply Hsigned, Hin].
    + unfold status_holds, r. cbn [brr_status brr_blocks]. case_bool_decide; [done|].
      destruct status; split; try done. intros _. unfold lenN. lia.
    + done.
  - unfold r. cbn [brr_status brr_blocks]. case_bool_decide as Eb.
    + apply Hempty in Eb as [?|?]; split; try done; [left; lia|by right].
    + split; [by destruct status|]. intros [Hn|Hn]; destruct Eb; apply Hempty; [left; lia|by right].
  - unfold r. cbn [brr_status brr_blocks]. case_bool_decide; [done|]. by destruct status.
Qed.
End verified.
End served.

(** ** Retrieving from a peer that serves its tree *)

Section honest.
Context {W : Type} `{!Network W} `{!Bls} `{!ArxHashes}.
Context (t : BlockTree) (Hwf : tree_wf t) (rt : BlockRetriever).

(** The peer answers every request from its tree. *)
Record honest_peer (peer : Author) : Prop := {
  hp_other : peer ≠ net_author rt;
  hp_answers req timeout w : ∃ w', send_rpc peer req timeout w = (Ok (Some (process_block_retrieval t req)), w');
  hp_clock w : ∃ now w', current_micros w = (Ok now, w');
  hp_verified now b : in_tree t b →
    validate_signature b (net_validators rt) = Ok tt ∧ well_formed now b ∧ block_round b + 1 < 2 ^ 64;
}.

(** A path of the tree from [id] back to [target]. *)
Record tree_path (id target : HashValue) (l : list Block) : Prop := {
  tp_chain : id_chain id l;
  tp_in b : b ∈ l → in_tree t b;
  tp_end l1 b l2 : l = l1 ++ b :: l2 → block_id b = target ↔ l2 = [];
  tp_nonempty : l ≠ [];
}.

Lemma tree_path_drop id target l1 l2 :
  tree_path id target (l1 ++ l2) → l2 ≠ [] → tree_path (chain_end id l1) target l2.
Proof.
  intros [Hc Hin Hend _] Hne. split; [by apply id_chain_app in Hc as [_ ?]|set_solver| |done].
  intros m1 b m2 ->. apply (Hend (l1 ++ m1) b m2). by rewrite <-app_assoc.
Qed.

Lemma request_honest peer req timeout target l w :
  honest_peer peer → brq_target_block_id req = Some target → tree_path (brq_block_id req) target l →
  0 < brq_num_blocks req →
  ∃ w', request_block rt req peer timeout w =
    (Ok (if lenN l <=? brq_num_blocks req then mkBlockRetrievalResponse SucceededWithTarget l
         else mkBlockRetrievalResponse Succeeded (take (N.to_nat (brq_num_blocks req)) l)), w').
Proof.
  intros Hp Htgt [Hc Hin Hend Hne] Hn. destruct Hp as [Hother Hans Hclock Hver]. unfold request_block.
  rewrite (mlift_bind _ tt) by by rewrite (proj2 (N.eqb_neq _ _) Hother).
  destruct (Hans req timeout w) as (w1 & E1). rewrite (M_run_bind _ _ _ _ _ E1), (mlift_bind _ (process_block_retrieval t req)) by done.
  destruct (Hclock w1) as (now & w2 & E2).
  erewrite (M_run_bind _ _ now) by (apply mmap_err_run; eexists; split; [exact E2|done]).
  set (r := process_block_retrieval t req).
  assert (block_retrieval_response_verify now r req (net_validators rt) = Ok tt) as Hv.
  { pose proof (retrieval_loop_spec t Hwf (N.to_nat (brq_num_blocks req)) req (brq_block_id req)) as Hspec.
    unfold r, process_block_retrieval. destruct (retrieval_loop _ t req _) as [status blocks].
    destruct Hspec as (Hc' & Hin' & _ & Hs). apply block_retrieval_iff; [intros b Hb; by apply (Hver now), Hin'|].
    split_and!; [|done|intros b Hb; split; by apply (Hver now), Hin'].
    unfold status_holds. cbn [brr_status brr_blocks]. case_bool_decide; [done|].
    destruct status; split; try done. intros _. unfold lenN. lia. }
  rewrite Hv, (mlift_bind _ tt) by done. exists w2. unfold mret, M_ret. do 2 f_equal. unfold r, process_block_retrieval.
  rewrite (retrieval_loop_path t target req _ l); [|done..].
  assert ((length l <=? N.to_nat (brq_num_blocks req))%nat = (lenN l <=? brq_num_blocks req)) as ->.
  { unfold lenN. destruct (Nat.leb_spec (length l) (N.to_nat (brq_num_blocks req))), (N.leb_spec (N.of_nat (length l)) (brq_num_blocks req));
      try done; lia. }
  destruct (lenN l <=? brq_num_blocks req) eqn:El; rewrite bool_decide_false; try done.
  intros Hnil%(f_equal length). rewrite length_take in Hnil. destruct l; [done|]. cbn in Hnil. lia.
Qed.

Lemma retrieve_loop_honest peer target n id fuel : ∀ result l size failed peers w,
  honest_peer peer → tree_path id target (result ++ l) → l ≠ [] → lenN result + lenN l ≤ n → 0 < size →
  lenN l < N.of_nat fuel →
  ∃ w', retrieve_loop fuel rt id target n (lenN result) (chain_end id result) result size failed peer peers w =
    (Ok (result ++ l), w').
Proof.
  induction fuel as [|fuel IH]; intros result l size failed peers w Hp Hpath Hne Hn Hsize Hfuel; [lia|].
  assert (0 < lenN l) as Hl by (destruct l; [done|unfold lenN; cbn; lia]).
  cbn [retrieve_loop]. rewrite (proj2 (N.leb_gt _ _)) by lia.
  destruct (retrieval_timeout (E := anyhow) (failed + 1)) as [timeout| |] eqn:Et;
    [|unfold retrieval_timeout in Et; destruct (N.ltb_spec 0 (failed + 1)); [done|lia]..].
  rewrite (mlift_bind _ timeout) by done.
  set (size' := size `min` (n - lenN result)). set (req := mkBlockRetrievalRequest _ _ _).
  pose proof (tree_path_drop _ _ _ _ Hpath Hne) as Hrest.
  destruct (request_honest peer req timeout target l w Hp) as (w1 & E1); [done|done|unfold req, size'; cbn; lia|].
  rewrite E1. cbn [req brq_num_blocks]. destruct (N.leb_spec (lenN l) size') as [Hle|Hlt].
  { cbn [brr_status brr_blocks]. by exists w1. }
  cbn [brr_status brr_blocks].
  set (k := N.to_nat size'). assert ((0 < k)%nat ∧ (k < length l)%nat) as [Hk Hk'] by (unfold k, lenN in *; lia).
  destruct (last (take k l)) as [b|] eqn:El.
  2: { apply last_None, (f_equal length) in El. rewrite length_take in El. cbn in El. lia. }
  assert (lenN result + lenN (take k l) = lenN (result ++ take k l)) as ->
    by (unfold lenN; rewrite length_app; lia).
  assert (block_parent_id b = chain_end id (result ++ take k l)) as ->
    by (rewrite chain_end_app; unfold chain_end at 1; by rewrite El).
  assert (result ++ l = (result ++ take k l) ++ drop k l) as -> by by rewrite <-app_assoc, take_drop.
  apply IH; [done| | | |unfold size'; lia|].
  - by rewrite <-app_assoc, take_drop.
  - intros Hnil%(f_equal length). rewrite length_drop in Hnil. cbn in Hnil. lia.
  - unfold lenN in *. rewrite length_app, length_take, length_drop. lia.
  - unfold lenN in *. rewrite length_drop. lia.
Qed.

(** C33: Catching up succeeds: a node that asks a peer whose tree holds a path of verified blocks
    from the id back to the target, of at most as many blocks as it asks for, retrieves exactly
    that path, in batches of at most ten blocks. *)
Theorem retrieve_from_honest_peer id target n peers l w
    (Hpeer : honest_peer (preferred_peer rt)) (Hpeers : peers ≠ [])
    (Hpath : tree_path id target l) (Hn : lenN l ≤ n) :
  ∃ w', retrieve_block_for_id rt id target peers n w = (Ok l, w').
Proof.
  unfold retrieve_block_for_id. rewrite bool_decide_false by done.
  erewrite (M_run_bind _ _ (preferred_peer rt, remove_first (preferred_peer rt) peers) w w).
  2: { apply mmap_err_run. exists (Ok (preferred_peer rt, remove_first (preferred_peer rt) peers)). split; [|done]. unfold pick_peer.
       rewrite (mlift_bind _ tt) by by rewrite bool_decide_true. reflexivity. }
  destruct (retrieve_loop_honest (preferred_peer rt) target n id (N.to_nat (n + MAX_FAILED_ATTEMPTS + 1)) [] l
    MAX_BLOCKS_PER_REQUEST 0 (remove_first (preferred_peer rt) peers) w) as (w1 & E1); try done.
  { apply Hpath. } { unfold MAX_FAILED_ATTEMPTS. lia. }
  change (lenN (@nil Block)) with 0 in E1. change (chain_end id []) with id in E1. rewrite app_nil_l in E1. rewrite (M_run_bind _ _ _ _ _ E1).
  destruct (last l) as [b|] eqn:El; [|by apply last_None, (tp_nonempty _ _ _ Hpath) in El].
  rewrite (mlift_bind _ b) by done. apply last_Some in El as [l' ->].
  rewrite (mlift_bind _ tt); [by exists w1|].
  by rewrite (proj2 (tp_end _ _ _ Hpath l' b [] eq_refl) eq_refl), N.eqb_refl.
Qed.
End honest.

(** ** A peer with one block *)

Section sample.
#[local] Existing Instance sample_bls.
#[local] Existing Instance sample_hashes.

Definition sample_served : BlockTree :=
  mkBlockTree {[block_id sample_nil_block := linkable_block_new (mkExecutedBlock sample_nil_block scr_new_dummy)]}
    (block_id sample_nil_block) (block_id sample_nil_block) (block_id sample_nil_block)
    (sample_qc 1 1) None (sample_qc 1 1) (sample_qc 1 1) ∅ [] 10.
Lemma sample_served_in b : in_tree sample_served b → b = sample_nil_block.
Proof.
  intros (eb & Hget & <-). unfold get_block, sample_served in Hget. cbn [id_to_block] in Hget.
  rewrite fmap_Some in Hget. by destruct Hget as (lb & [_ <-]%lookup_singleton_Some & ->).
Qed.
Lemma sample_served_wf : tree_wf sample_served.
Proof.
  split; cbn [sample_served id_to_block commit_root_id ordered_root_id highest_certified_block_id pruned_block_ids
    max_pruned_blocks_in_mem].
  - split.
    + by intros k lb [<- <-]%lookup_singleton_Some.
    + intros k lb c [<- <-]%lookup_singleton_Some Hc. cbn in Hc. set_solver.
    + intros k lb lp [<- <-]%lookup_singleton_Some [E1 _]%lookup_singleton_Some. vm_compute in E1. discriminate E1.
  - rewrite lookup_singleton_eq. by eexists.
  - constructor.
  - constructor.
  - intros lr [_ <-]%lookup_singleton_Some [lp [E1 _]%lookup_singleton_Some]. vm_compute in E1. discriminate E1.
  - constructor.
  - by intros k ?%not_elem_of_nil.
  - intros l1 k l2 lb E1. by destruct l1.
  - unfold lenN. cbn. lia.
Qed.
Lemma sample_served_verified now b : in_tree sample_served b →
  validate_signature b sample_verifier = Ok tt ∧ well_formed now b ∧ block_round b + 1 < 2 ^ 64.
Proof.
  intros ->%sample_served_in. split_and!; [vm_compute; reflexivity| |vm_compute; reflexivity].
  apply verify_well_formed_iff; [vm_compute; reflexivity|]. reflexivity.
Qed.

Definition sample_network : Network unit := {|
  send_rpc _ req _ := mret (Some (process_block_retrieval sample_served req));
  send_commit_proof _ := mret tt;
  send_epoch_change _ := mret tt;
  broadcast_epoch_change _ := mret tt;
  current_micros := mret 0;
  gen_range _ := mret 0%nat;
|}.
#[local] Existing Instance sample_network.
Definition sample_retriever : BlockRetriever := mkBlockRetriever 1 sample_verifier 2 [1; 2; 4].
Lemma sample_network_returns : NetworkReturns (W := unit).
Proof. split; [done|by repeat eexists|]. intros n w Hn. by exists 0%nat, w. Qed.

Lemma served_response_verifies_witness :
  block_retrieval_response_verify 0 (process_block_retrieval sample_served sample_request) sample_request
    sample_verifier = Ok tt.
Proof. apply (served_response_verifies sample_served sample_served_wf), sample_served_verified. Defined.


Lemma retrieve_from_honest_peer_witness :
  ∃ w', retrieve_block_for_id sample_retriever (block_id sample_nil_block) (block_id sample_nil_block) [2; 4] 3 tt =
    (Ok [sample_nil_block], w').
Proof.
  apply (retrieve_from_honest_peer sample_served sample_served_wf).
  - split; [done|by repeat eexists|by repeat eexists|apply sample_served_verified].
  - done.
  - split; [by split| | |done].
    + intros b ->%list_elem_of_singleton. exists (mkExecutedBlock sample_nil_block scr_new_dummy).
      split; [vm_compute; reflexivity|done].
    + intros [|b1 [|b2 l1]] b l2 E; cbn in E; simplify_eq. done.
  - vm_compute. discriminate.
Defined.
End sample.
