(* ===== verification/MempoolIndex.v ===== *)
(** * Mempool: transactions and indexes

    mempool/src/core_mempool/transaction.rs and index.rs: what the mempool keeps of a
    transaction, and the five indexes over them: the priority queue that blocks are taken
    from, the two time-to-live indexes, the timelines for broadcast and the parking lot of
    transactions that are not ready. The signed transaction is that of
    types/src/transaction/mod.rs, generic in its payload and authenticator, which the mempool only
    compares and hands on. *)
From S2P Require Import Prelude Crypto BTree.
Local Open Scope N_scope.

(** ** Transactions *)
Class TransactionTypes := {
  TransactionPayload : Type;
  TransactionPayload_eq_dec :: EqDecision TransactionPayload;
  TransactionAuthenticator : Type;
  TransactionAuthenticator_eq_dec :: EqDecision TransactionAuthenticator;
}.

Record RawTransaction `{TransactionTypes} := mkRawTransaction {
  rt_sender : AccountAddress;
  rt_sequence_number : N;
  rt_payload : TransactionPayload;
  rt_max_gas_amount : N;
  rt_gas_unit_price : N;
  rt_expiration_timestamp_secs : N;
  rt_chain_id : N;
}.
(** The cached size is a function of [raw_txn]. *)
Record SignedTransaction `{TransactionTypes} := mkSignedTransaction {
  raw_txn : RawTransaction;
  authenticator : TransactionAuthenticator;
}.

#[export] Instance RawTransaction_eq_dec `{TransactionTypes} : EqDecision RawTransaction.
Proof. solve_decision. Defined.
#[export] Instance SignedTransaction_eq_dec `{TransactionTypes} : EqDecision SignedTransaction.
Proof. solve_decision. Defined.

(** The length of the BCS encoding, the hash of [Transaction::UserTransaction], and the sizes
    the compiler gives to three structs. No vector is longer than [isize::MAX] bytes, and the
    structs are far smaller. *)
Class TransactionEncoding `{TransactionTypes} := {
  raw_txn_len : RawTransaction → N;
  committed_hash : SignedTransaction → HashValue;
  size_of_MempoolTransaction : N;
  size_of_OrderedQueueKey : N;
  size_of_TTLOrderingKey : N;
  raw_txn_len_bound r : raw_txn_len r < 2 ^ 63;
  sizes_bound : size_of_MempoolTransaction + size_of_OrderedQueueKey + 2 * size_of_TTLOrderingKey < 2 ^ 32;
}.

Inductive AccountSequenceInfo := Sequential (seqno : N).
Definition min_seq (i : AccountSequenceInfo) : N :=
  match i with Sequential seqno => seqno end.

Inductive TimelineState :=
| Ready (timeline_id : N)
| NotReady
| NonQualified.
#[export] Instance TimelineState_eq_dec : EqDecision TimelineState.
Proof. solve_decision. Defined.

Record SequenceInfo := mkSequenceInfo {
  transaction_sequence_number : N;
  account_sequence_number_type : AccountSequenceInfo;
}.

(** [size_of::<u64>()], [size_of::<AccountAddress>()], [size_of::<HashValue>()] *)
Definition size_of_u64 : N := 8.
Definition size_of_AccountAddress : N := 32.
Definition size_of_HashValue : N := 32.

Section transaction.
Context `{!TransactionTypes}.

Definition sender (t : SignedTransaction) : AccountAddress := rt_sender (raw_txn t).
Definition sequence_number (t : SignedTransaction) : N := rt_sequence_number (raw_txn t).
Definition payload (t : SignedTransaction) : TransactionPayload := rt_payload (raw_txn t).
Definition max_gas_amount (t : SignedTransaction) : N := rt_max_gas_amount (raw_txn t).
Definition gas_unit_price (t : SignedTransaction) : N := rt_gas_unit_price (raw_txn t).
Definition expiration_timestamp_secs (t : SignedTransaction) : N :=
  rt_expiration_timestamp_secs (raw_txn t).

Record MempoolTransaction := mkMempoolTransaction {
  txn : SignedTransaction;
  expiration_time : Duration;
  ranking_score : N;
  timeline_state : TimelineState;
  sequence_info : SequenceInfo;
  insertion_time : Duration;
}.

Definition mempool_transaction_new (t : SignedTransaction) (expiration_time : Duration)
    (ranking_score : N) (timeline_state : TimelineState) (seqno_type : AccountSequenceInfo)
    (insertion_time : Duration) : MempoolTransaction :=
  {| txn := t;
     expiration_time := expiration_time;
     ranking_score := ranking_score;
     timeline_state := timeline_state;
     sequence_info := {| transaction_sequence_number := sequence_number t;
                         account_sequence_number_type := seqno_type |};
     insertion_time := insertion_time |}.

Definition get_sender (t : MempoolTransaction) : AccountAddress := sender (txn t).
Definition get_gas_price (t : MempoolTransaction) : N := gas_unit_price (txn t).
Definition txn_seq (t : MempoolTransaction) : N := transaction_sequence_number (sequence_info t).

(** The assignment [txn.timeline_state = s] *)
Definition set_timeline_state (s : TimelineState) (t : MempoolTransaction) : MempoolTransaction :=
  {| txn := txn t; expiration_time := expiration_time t; ranking_score := ranking_score t;
     timeline_state := s; sequence_info := sequence_info t; insertion_time := insertion_time t |}.

(** [TxnPointer] *)
Definition txn_pointer (t : MempoolTransaction) : AccountAddress * N := (get_sender t, txn_seq t).

Section sizes.
Context `{!TransactionEncoding}.

Definition raw_txn_bytes_len (t : SignedTransaction) : N := raw_txn_len (raw_txn t).
Definition get_committed_hash (t : MempoolTransaction) : HashValue := committed_hash (txn t).

Definition TXN_INDEX_ESTIMATED_BYTES : N :=
  size_of_OrderedQueueKey + size_of_TTLOrderingKey * 2 +
  (size_of_u64 * 3 + size_of_AccountAddress) +
  (size_of_HashValue + size_of_u64 + size_of_AccountAddress).
Definition TXN_FIXED_ESTIMATED_BYTES : N := size_of_MempoolTransaction.
Definition get_estimated_bytes (t : MempoolTransaction) : N :=
  raw_txn_bytes_len (txn t) + TXN_FIXED_ESTIMATED_BYTES + TXN_INDEX_ESTIMATED_BYTES.
End sizes.

(** ** The priority index *)
Record OrderedQueueKey := mkOrderedQueueKey {
  oq_gas_ranking_score : N;
  oq_expiration_time : Duration;
  oq_address : AccountAddress;
  oq_sequence_number : SequenceInfo;
}.
Definition oq_txn_seq (k : OrderedQueueKey) : N := transaction_sequence_number (oq_sequence_number k).
Definition oq_pointer (k : OrderedQueueKey) : AccountAddress * N := (oq_address k, oq_txn_seq k).

Definition ordered_queue_cmp (x y : OrderedQueueKey) : comparison :=
  match N.compare (oq_gas_ranking_score x) (oq_gas_ranking_score y) with
  | Eq =>
      match CompOpp (N.compare (oq_expiration_time x) (oq_expiration_time y)) with
      | Eq =>
          match N.compare (oq_address x) (oq_address y) with
          | Eq => CompOpp (N.compare (oq_txn_seq x) (oq_txn_seq y))
          | ordering => ordering
          end
      | ordering => ordering
      end
  | ordering => ordering
  end.

Definition priority_make_key (t : MempoolTransaction) : OrderedQueueKey :=
  {| oq_gas_ranking_score := ranking_score t;
     oq_expiration_time := expiration_time t;
     oq_address := get_sender t;
     oq_sequence_number := sequence_info t |}.

(** ** Time to live *)
Record TTLOrderingKey := mkTTLOrderingKey {
  ttl_expiration_time : Duration;
  ttl_address : AccountAddress;
  ttl_sequence_number : N;
}.
Definition ttl_cmp (x y : TTLOrderingKey) : comparison :=
  match N.compare (ttl_expiration_time x) (ttl_expiration_time y) with
  | Eq =>
      match N.compare (ttl_address x) (ttl_address y) with
      | Eq => N.compare (ttl_sequence_number x) (ttl_sequence_number y)
      | ordering => ordering
      end
  | ordering => ordering
  end.
End transaction.

Lemma ordered_queue_lt x y :
  ordered_queue_cmp x y = Lt ↔
  oq_gas_ranking_score x < oq_gas_ranking_score y ∨
  oq_gas_ranking_score x = oq_gas_ranking_score y ∧
  (oq_expiration_time y < oq_expiration_time x ∨
   oq_expiration_time x = oq_expiration_time y ∧
   (oq_address x < oq_address y ∨
    oq_address x = oq_address y ∧ oq_txn_seq y < oq_txn_seq x)).
Proof.
  unfold ordered_queue_cmp.
  destruct (N.compare_spec (oq_gas_ranking_score x) (oq_gas_ranking_score y)); [|naive_solver lia..].
  destruct (N.compare_spec (oq_expiration_time x) (oq_expiration_time y)); cbn; [|naive_solver lia..].
  destruct (N.compare_spec (oq_address x) (oq_address y)); [|naive_solver lia..].
  destruct (N.compare_spec (oq_txn_seq x) (oq_txn_seq y)); cbn; naive_solver lia.
Qed.
Lemma ordered_queue_eq x y :
  ordered_queue_cmp x y = Eq ↔
  oq_gas_ranking_score x = oq_gas_ranking_score y ∧ oq_expiration_time x = oq_expiration_time y ∧
  oq_pointer x = oq_pointer y.
Proof.
  unfold ordered_queue_cmp, oq_pointer. rewrite pair_eq.
  destruct (N.compare_spec (oq_gas_ranking_score x) (oq_gas_ranking_score y)); [|naive_solver lia..].
  destruct (N.compare_spec (oq_expiration_time x) (oq_expiration_time y)); cbn; [|naive_solver lia..].
  destruct (N.compare_spec (oq_address x) (oq_address y)); [|naive_solver lia..].
  destruct (N.compare_spec (oq_txn_seq x) (oq_txn_seq y)); cbn; naive_solver lia.
Qed.
#[export, refine] Instance OrderedQueueKey_Ord : Ord OrderedQueueKey := {| cmp := ordered_queue_cmp |}.
Proof.
  - intros x. by apply ordered_queue_eq.
  - intros x y. unfold ordered_queue_cmp.
    rewrite (N.compare_antisym (oq_gas_ranking_score x)), (N.compare_antisym (oq_expiration_time x)),
      (N.compare_antisym (oq_address x)), (N.compare_antisym (oq_txn_seq x)).
    by repeat match goal with |- context [N.compare ?a ?b] => destruct (N.compare a b) end.
  - intros x y z. rewrite !ordered_queue_lt. lia.
  - intros x y z (H1 & H2 & [= H3 H4])%ordered_queue_eq. unfold ordered_queue_cmp.
    by rewrite H1, H2, H3, H4.
Defined.

Lemma ttl_lt x y :
  ttl_cmp x y = Lt ↔
  ttl_expiration_time x < ttl_expiration_time y ∨
  ttl_expiration_time x = ttl_expiration_time y ∧
  (ttl_address x < ttl_address y ∨
   ttl_address x = ttl_address y ∧ ttl_sequence_number x < ttl_sequence_number y).
Proof.
  unfold ttl_cmp.
  destruct (N.compare_spec (ttl_expiration_time x) (ttl_expiration_time y)); [|naive_solver lia..].
  destruct (N.compare_spec (ttl_address x) (ttl_address y)); [|naive_solver lia..].
  destruct (N.compare_spec (ttl_sequence_number x) (ttl_sequence_number y)); naive_solver lia.
Qed.
Lemma ttl_eq x y : ttl_cmp x y = Eq → x = y.
Proof.
  unfold ttl_cmp. destruct x, y; cbn.
  repeat match goal with |- context [N.compare ?a ?b] => destruct (N.compare_spec a b); [subst|done..] end.
  done.
Qed.
#[export, refine] Instance TTLOrderingKey_Ord : Ord TTLOrderingKey := {| cmp := ttl_cmp |}.
Proof.
  - intros x. unfold ttl_cmp. by rewrite !N.compare_refl.
  - intros x y. unfold ttl_cmp.
    rewrite (N.compare_antisym (ttl_expiration_time x)), (N.compare_antisym (ttl_address x)),
      (N.compare_antisym (ttl_sequence_number x)).
    by repeat match goal with |- context [N.compare ?a ?b] => destruct (N.compare a b) end.
  - intros x y z. rewrite !ttl_lt. lia.
  - intros x y z ->%ttl_eq. done.
Defined.
#[export] Instance TTLOrderingKey_StrictOrd : StrictOrd TTLOrderingKey.
Proof. intros x y. apply ttl_eq. Qed.

Section indexes.
Context `{!TransactionTypes}.

Definition priority_index_insert (t : MempoolTransaction) (data : list OrderedQueueKey)
  : list OrderedQueueKey := bset_insert (priority_make_key t) data.
Definition priority_index_remove (t : MempoolTransaction) (data : list OrderedQueueKey)
  : list OrderedQueueKey := bset_remove (priority_make_key t) data.
Definition priority_index_contains (t : MempoolTransaction) (data : list OrderedQueueKey) : bool :=
  bset_contains (priority_make_key t) data.
(** [PriorityQueueIter]: from the greatest key down *)
Definition priority_index_iter (data : list OrderedQueueKey) : list OrderedQueueKey := reverse data.
Definition priority_index_size (data : list OrderedQueueKey) : N := lenN data.

(** The closure [get_expiration_time] of a [TTLIndex] is an argument of its methods. *)
Definition ttl_make_key (get_expiration_time : MempoolTransaction → Duration)
    (t : MempoolTransaction) : TTLOrderingKey :=
  {| ttl_expiration_time := get_expiration_time t;
     ttl_address := get_sender t;
     ttl_sequence_number := txn_seq t |}.
Definition ttl_index_insert (get_expiration_time : MempoolTransaction → Duration)
    (t : MempoolTransaction) (data : list TTLOrderingKey) : list TTLOrderingKey :=
  bset_insert (ttl_make_key get_expiration_time t) data.
Definition ttl_index_remove (get_expiration_time : MempoolTransaction → Duration)
    (t : MempoolTransaction) (data : list TTLOrderingKey) : list TTLOrderingKey :=
  bset_remove (ttl_make_key get_expiration_time t) data.
(** The expired keys, and the index without them *)
Definition ttl_index_gc (now : Duration) (data : list TTLOrderingKey)
  : list TTLOrderingKey * list TTLOrderingKey :=
  let ttl_key := {| ttl_expiration_time := now; ttl_address := 0; ttl_sequence_number := 0 |} in
  let '(ttl_transactions, active) := bset_split_off ttl_key data in
  (ttl_transactions, active).
Definition ttl_index_size (data : list TTLOrderingKey) : N := lenN data.

(** ** The timelines *)
Record TimelineIndex := mkTimelineIndex {
  tl_timeline_id : N;
  tl_timeline : gmap N (AccountAddress * N);
}.
Definition timeline_index_new : TimelineIndex :=
  {| tl_timeline_id := 1; tl_timeline := ∅ |}.

(** The loop pushes before it compares, so a [count] of zero does not stop it. *)
Fixpoint read_timeline_loop (entries : list (N * (AccountAddress * N))) (count : N)
    (batch : list (AccountAddress * N)) : list (AccountAddress * N) :=
  match entries with
  | [] => batch
  | (_, (address, sequence_number)) :: rest =>
      let batch := batch ++ [(address, sequence_number)] in
      if lenN batch =? count then batch else read_timeline_loop rest count batch
  end.
Definition timeline_index_read_timeline (i : TimelineIndex) (timeline_id count : N)
  : outcome Infallible (list (AccountAddress * N)) :=
  entries ← btree_range (Excluded timeline_id) Unbounded (tl_timeline i);
  Ok (read_timeline_loop entries count []).
Definition timeline_index_timeline_range (i : TimelineIndex) (start_id end_id : N)
  : outcome Infallible (list (AccountAddress * N)) :=
  entries ← btree_range (Excluded start_id) (Included end_id) (tl_timeline i);
  Ok (entries.*2).

(** The transaction is mutable: it comes back with its place in the timeline. *)
Definition timeline_index_insert (t : MempoolTransaction) (i : TimelineIndex)
  : outcome Infallible (MempoolTransaction * TimelineIndex) :=
  let timeline := <[tl_timeline_id i := (get_sender t, txn_seq t)]> (tl_timeline i) in
  let t := set_timeline_state (Ready (tl_timeline_id i)) t in
  timeline_id ← u64_add (tl_timeline_id i) 1;
  Ok (t, {| tl_timeline_id := timeline_id; tl_timeline := timeline |}).
Definition timeline_index_remove (t : MempoolTransaction) (i : TimelineIndex) : TimelineIndex :=
  match timeline_state t with
  | Ready timeline_id =>
      {| tl_timeline_id := tl_timeline_id i; tl_timeline := delete timeline_id (tl_timeline i) |}
  | _ => i
  end.
Definition timeline_index_size (i : TimelineIndex) : N := N.of_nat (size (tl_timeline i)).

(** The names of the buckets label metrics and are left out. *)
Record MultiBucketTimelineIndex := mkMultiBucketTimelineIndex {
  mb_timelines : list TimelineIndex;
  mb_bucket_mins : list N;
}.
Fixpoint bucket_mins_loop (bucket_mins : list N) (prev : option N) (timelines : list TimelineIndex)
  : outcome anyhow (list TimelineIndex) :=
  match bucket_mins with
  | [] => Ok timelines
  | entry :: rest =>
      _ ← (match prev with
           | Some prev => ensure (prev <? entry) (fmt "Values must be sorted and not repeat" [])
           | None => Ok tt
           end);
      bucket_mins_loop rest (Some entry) (timelines ++ [timeline_index_new])
  end.
Definition multi_bucket_timeline_index_new (bucket_mins : list N)
  : outcome anyhow MultiBucketTimelineIndex :=
  _ ← ensure (negb (lenN bucket_mins =? 0)) (fmt "Must not be empty" []);
  first ← expect (bucket_mins !! 0%nat);
  _ ← ensure (first =? 0) (fmt "First bucket must start at 0" []);
  timelines ← bucket_mins_loop bucket_mins None [];
  Ok {| mb_timelines := timelines; mb_bucket_mins := bucket_mins |}.

(** [slice::binary_search] on an increasing slice: the index of the key, or the index at which
    it would be inserted *)
Definition binary_search (l : list N) (x : N) : nat + nat :=
  let i := length (filter (λ y, y < x) l) in
  if bool_decide (l !! i = Some x) then inl i else inr i.
(** [get_timeline] as an index into the timelines *)
Definition get_timeline (i : MultiBucketTimelineIndex) (ranking_score : N) : outcome Infallible nat :=
  match binary_search (mb_bucket_mins i) ranking_score with
  | inl index => Ok index
  | inr 0%nat => Panic
  | inr (S index) => Ok index
  end.
Definition multi_bucket_insert (t : MempoolTransaction) (i : MultiBucketTimelineIndex)
  : outcome Infallible (MempoolTransaction * MultiBucketTimelineIndex) :=
  index ← get_timeline i (ranking_score t);
  timeline ← expect (mb_timelines i !! index);
  '(t, timeline) ← timeline_index_insert t timeline;
  Ok (t, {| mb_timelines := <[index := timeline]> (mb_timelines i);
            mb_bucket_mins := mb_bucket_mins i |}).
Definition multi_bucket_remove (t : MempoolTransaction) (i : MultiBucketTimelineIndex)
  : outcome Infallible MultiBucketTimelineIndex :=
  index ← get_timeline i (ranking_score t);
  timeline ← expect (mb_timelines i !! index);
  Ok {| mb_timelines := <[index := timeline_index_remove t timeline]> (mb_timelines i);
        mb_bucket_mins := mb_bucket_mins i |}.

(** The buckets from the last to the first; [returned] grows in that order. *)
Fixpoint multi_read_loop (buckets : list (TimelineIndex * N)) (count added : N)
    (returned : list (list (AccountAddress * N))) : outcome Infallible (list (list (AccountAddress * N))) :=
  match buckets with
  | [] => Ok returned
  | (timeline, timeline_id) :: rest =>
      left ← u64_sub count added;
      txns ← timeline_index_read_timeline timeline timeline_id left;
      let added := added + lenN txns in
      let returned := returned ++ [txns] in
      if added =? count then Ok returned else multi_read_loop rest count added returned
  end.
Definition multi_bucket_read_timeline (i : MultiBucketTimelineIndex) (id_per_bucket : list N)
    (count : N) : outcome Infallible (list (list (AccountAddress * N))) :=
  _ ← rassert (lenN id_per_bucket =? lenN (mb_bucket_mins i));
  returned ← multi_read_loop (reverse (zip (mb_timelines i) id_per_bucket)) count 0 [];
  let returned := returned ++ replicate (length (mb_timelines i) - length returned) [] in
  Ok (reverse returned).

Fixpoint multi_range_loop (buckets : list (TimelineIndex * (N * N)))
    (all_txns : list (AccountAddress * N)) : outcome Infallible (list (AccountAddress * N)) :=
  match buckets with
  | [] => Ok all_txns
  | (timeline, (start_id, end_id)) :: rest =>
      txns ← timeline_index_timeline_range timeline start_id end_id;
      multi_range_loop rest (all_txns ++ txns)
  end.
Definition multi_bucket_timeline_range (i : MultiBucketTimelineIndex)
    (start_end_pairs : list (N * N)) : outcome Infallible (list (AccountAddress * N)) :=
  _ ← rassert (lenN start_end_pairs =? lenN (mb_timelines i));
  multi_range_loop (zip (mb_timelines i) start_end_pairs) [].
Definition multi_bucket_size (i : MultiBucketTimelineIndex) : N :=
  foldl (λ size timeline, size + timeline_index_size timeline) 0 (mb_timelines i).

(** ** The parking lot *)
Record ParkingLotIndex := mkParkingLotIndex {
  pl_data : list (AccountAddress * list N);
  pl_account_indices : gmap AccountAddress nat;
  pl_size : N;
}.
Definition parking_lot_new : ParkingLotIndex :=
  {| pl_data := []; pl_account_indices := ∅; pl_size := 0 |}.

Definition parking_lot_insert (t : MempoolTransaction) (i : ParkingLotIndex)
  : outcome Infallible ParkingLotIndex :=
  let sender := sender (txn t) in
  let sequence_number := sequence_number (txn t) in
  match pl_account_indices i !! sender with
  | Some index =>
      match pl_data i !! index with
      | Some (account, seq_nums) =>
          let is_new_entry := negb (bset_contains sequence_number seq_nums) in
          size ← (if is_new_entry then u64_add (pl_size i) 1 else Ok (pl_size i));
          Ok {| pl_data := <[index := (account, bset_insert sequence_number seq_nums)]> (pl_data i);
                pl_account_indices := pl_account_indices i;
                pl_size := size |}
      | None => Ok i
      end
  | None =>
      let data := pl_data i ++ [(sender, [sequence_number])] in
      size ← u64_add (pl_size i) 1;
      Ok {| pl_data := data;
            pl_account_indices := <[sender := (length data - 1)%nat]> (pl_account_indices i);
            pl_size := size |}
  end.

(** [Vec::swap_remove] at an index in range: the last element takes the place *)
Definition swap_remove {A} (index : nat) (l : list A) : list A :=
  match last l with
  | Some x => take (length l - 1) (<[index := x]> l)
  | None => l
  end.
Definition parking_lot_remove (t : MempoolTransaction) (i : ParkingLotIndex)
  : outcome Infallible ParkingLotIndex :=
  let sender := sender (txn t) in
  match pl_account_indices i !! sender with
  | Some index =>
      match pl_data i !! index with
      | Some (account, txns) =>
          let removed := bset_contains (sequence_number (txn t)) txns in
          let txns := bset_remove (sequence_number (txn t)) txns in
          size ← (if removed then u64_sub (pl_size i) 1 else Ok (pl_size i));
          let data := <[index := (account, txns)]> (pl_data i) in
          match txns with
          | [] =>
              let data := swap_remove index data in
              let account_indices := delete sender (pl_account_indices i) in
              let account_indices :=
                match data !! index with
                | Some (swapped_account, _) => <[swapped_account := index]> account_indices
                | None => account_indices
                end in
              Ok {| pl_data := data; pl_account_indices := account_indices; pl_size := size |}
          | _ =>
              Ok {| pl_data := data; pl_account_indices := pl_account_indices i; pl_size := size |}
          end
      | None => Ok i
      end
  | None => Ok i
  end.
Definition parking_lot_contains (account : AccountAddress) (seq_num : N) (i : ParkingLotIndex) : bool :=
  match pl_account_indices i !! account ≫= λ idx, pl_data i !! idx with
  | Some (_, txns) => bset_contains seq_num txns
  | None => false
  end.
(** [rng] is the number the random generator gives: [choose] takes any element of a vector that
    is not empty. *)
Definition parking_lot_get_poppable (rng : nat) (i : ParkingLotIndex) : option (AccountAddress * N) :=
  '(sender, txns) ← pl_data i !! (rng mod length (pl_data i))%nat;
  seq_num ← last txns;
  Some (sender, seq_num).
Definition parking_lot_size (i : ParkingLotIndex) : N := pl_size i.
End indexes.

(** ** The parking lot is a set

    [pl_wf] is the invariant the comment of the source states, with the size. *)
Section parking.
Context `{!TransactionTypes}.
Implicit Types (i : ParkingLotIndex) (t : MempoolTransaction).

Definition parked i (a n : N) : Prop := parking_lot_contains a n i = true.

Record pl_wf i : Prop := {
  pl_wf_index a idx : pl_account_indices i !! a = Some idx ↔ ∃ l, pl_data i !! idx = Some (a, l);
  pl_wf_entry idx a l : pl_data i !! idx = Some (a, l) → l ≠ [] ∧ bset_wf l;
  pl_wf_size : pl_size i = N.of_nat (sum_list_with (λ p, length p.2) (pl_data i));
}.

(** Every parked transaction, once *)
Definition parked_list i : list (N * N) := concat ((λ p : N * list N, pair p.1 <$> p.2) <$> pl_data i).

Lemma pl_wf_unique i idx idx' a l l' :
  pl_wf i → pl_data i !! idx = Some (a, l) → pl_data i !! idx' = Some (a, l') → idx = idx'.
Proof.
  intros Hwf H1 H2.
  assert (pl_account_indices i !! a = Some idx) as E1 by (apply pl_wf_index; eauto).
  assert (pl_account_indices i !! a = Some idx') as E2 by (apply pl_wf_index; eauto).
  congruence.
Qed.
Lemma parked_spec i a n :
  pl_wf i → parked i a n ↔ ∃ idx l, pl_data i !! idx = Some (a, l) ∧ n ∈ l.
Proof.
  intros Hwf. unfold parked, parking_lot_contains.
  destruct (pl_account_indices i !! a) as [idx|] eqn:Ha; cbn.
  - pose proof (proj1 (pl_wf_index _ Hwf _ _) Ha) as [l Hl]. rewrite Hl.
    destruct (pl_wf_entry _ Hwf _ _ _ Hl) as [_ Hs]. rewrite bset_contains_elem by done.
    split; [by eauto|]. intros (idx' & l' & Hl' & Hn).
    pose proof (pl_wf_unique _ _ _ _ _ _ Hwf Hl Hl') as <-. by rewrite Hl in Hl'; simplify_eq.
  - split; [done|]. intros (idx & l & Hl & _).
    assert (pl_account_indices i !! a = Some idx) by (apply pl_wf_index; eauto). congruence.
Qed.
Lemma elem_of_parked_list i a n :
  pl_wf i → (a, n) ∈ parked_list i ↔ parked i a n.
Proof.
  intros Hwf. rewrite parked_spec by done. unfold parked_list. rewrite elem_of_concat. split.
  - intros (p & (  [a' l] & -> & Hin)%list_elem_of_fmap & (n' & [= <- <-] & Hn)%list_elem_of_fmap).
    apply list_elem_of_lookup in Hin as [idx Hidx]. eauto.
  - intros (idx & l & Hidx & Hn). exists (pair a <$> l). split.
    + apply list_elem_of_fmap. exists (a, l). split; [done|]. by apply list_elem_of_lookup_2 in Hidx.
    + apply list_elem_of_fmap. eauto.
Qed.
Lemma length_parked_list i : pl_wf i → lenN (parked_list i) = pl_size i.
Proof.
  intros Hwf. rewrite (pl_wf_size _ Hwf). unfold lenN, parked_list. f_equal.
  induction (pl_data i) as [|[a l] d IH]; [done|]. cbn. rewrite length_app, length_fmap. by rewrite IH.
Qed.
Lemma NoDup_parked_list i : pl_wf i → NoDup (parked_list i).
Proof.
  intros Hwf. unfold parked_list.
  assert (∀ idx idx' a l l', pl_data i !! idx = Some (a, l) → pl_data i !! idx' = Some (a, l') → idx = idx')
    as Hu by (intros; by eapply pl_wf_unique).
  assert (∀ a l, (a, l) ∈ pl_data i → NoDup l) as Hn.
  { intros a l Hin. apply list_elem_of_lookup in Hin as [idx Hidx].
    by eapply bset_NoDup, pl_wf_entry. }
  clear Hwf. induction (pl_data i) as [|[a l] d IH]; [constructor|]. cbn. apply NoDup_app. split_and!.
  - apply NoDup_fmap_2; [by intros ?? [= ->]|]. apply (Hn a). by left.
  - intros [a' n] (n' & [= -> ->] & Hin)%list_elem_of_fmap.
    rewrite elem_of_concat. intros (p & ([a'' l'] & -> & Hd)%list_elem_of_fmap & (? & [= <- _] & _)%list_elem_of_fmap).
    apply list_elem_of_lookup in Hd as [idx Hidx].
    by specialize (Hu 0%nat (S idx) a l l' eq_refl Hidx).
  - apply IH.
    + intros idx idx' a' l1 l2 H1 H2. specialize (Hu (S idx) (S idx') a' l1 l2 H1 H2). by simplify_eq.
    + intros a' l' Hin. apply (Hn a'). by right.
Qed.
(** The size stays below any list that has all the parked transactions. *)
Lemma pl_size_le i (L : list (N * N)) :
  pl_wf i → (∀ a n, parked i a n → (a, n) ∈ L) → pl_size i <= lenN L.
Proof.
  intros Hwf HL. rewrite <- length_parked_list by done. unfold lenN.
  assert (parked_list i ⊆+ L) as Hs.
  { apply NoDup_submseteq; [by apply NoDup_parked_list|]. intros [a n] Hin. apply HL.
    by apply elem_of_parked_list. }
  apply submseteq_length in Hs. lia.
Qed.
Lemma pl_size_lt i a n (L : list (N * N)) :
  pl_wf i → (∀ a n, parked i a n → (a, n) ∈ L) → (a, n) ∈ L → ¬ parked i a n → pl_size i + 1 <= lenN L.
Proof.
  intros Hwf HL Hin Hn. rewrite <- length_parked_list by done. unfold lenN.
  assert ((a, n) :: parked_list i ⊆+ L) as Hs.
  { apply NoDup_submseteq.
    - constructor; [by rewrite elem_of_parked_list|by apply NoDup_parked_list].
    - intros [a' n'] [[= -> ->]|Hp]%elem_of_cons; [done|]. apply HL. by apply elem_of_parked_list. }
  apply submseteq_length in Hs. cbn in Hs. lia.
Qed.
Lemma parking_lot_new_wf : pl_wf parking_lot_new.
Proof. split; cbn; [|done|done]. intros a idx. rewrite lookup_empty. naive_solver. Qed.
Lemma parked_new a n : ¬ parked parking_lot_new a n.
Proof. unfold parked, parking_lot_contains. cbn. by rewrite lookup_empty. Qed.

Lemma sum_lengths_insert {A} (d : list (A * list N)) idx a l a' l' :
  d !! idx = Some (a, l) →
  (sum_list_with (λ p, length p.2) (<[idx := (a', l')]> d) + length l =
   sum_list_with (λ p, length p.2) d + length l')%nat.
Proof.
  revert idx. induction d as [|[b k] d IH]; intros [|idx] Hl; simplify_eq/=; [lia|].
  specialize (IH _ Hl). lia.
Qed.

(** An entry is replaced, or a new account comes last. *)
Lemma pl_update i idx a l l' sz :
  pl_wf i → pl_data i !! idx = Some (a, l) → l' ≠ [] → bset_wf l' →
  sz + lenN l = pl_size i + lenN l' →
  let i' := {| pl_data := <[idx := (a, l')]> (pl_data i);
               pl_account_indices := pl_account_indices i; pl_size := sz |} in
  pl_wf i' ∧ ∀ b n, parked i' b n ↔ if decide (b = a) then n ∈ l' else parked i b n.
Proof.
  intros Hwf Hl Hne Hs Hsz i'. pose proof (lookup_lt_Some _ _ _ Hl) as Hlt.
  assert (pl_wf i') as Hwf'.
  { split; cbn.
    - intros b idx'. rewrite (pl_wf_index _ Hwf). split; intros [k Hk].
      + destruct (decide (idx = idx')) as [->|]; [|exists k; by rewrite list_lookup_insert_ne].
        rewrite Hl in Hk. simplify_eq. eexists. by rewrite list_lookup_insert_eq.
      + apply list_lookup_insert_Some in Hk as [(<- & [= -> <-] & _)|[_ ?]]; eauto.
    - intros idx' b k [(<- & [= -> <-] & _)|[_ Hk]]%list_lookup_insert_Some; [done|by eapply pl_wf_entry].
    - pose proof (sum_lengths_insert _ _ _ _ a l' Hl) as Hsum. pose proof (pl_wf_size _ Hwf).
      unfold lenN in Hsz. lia. }
  split; [done|]. intros b n. rewrite parked_spec by done. cbn. case_decide as Hb.
  - subst b. split.
    + intros (idx' & k & [(<- & [= <-] & _)|[Hd Hk]]%list_lookup_insert_Some & Hn); [done|].
      by rewrite (pl_wf_unique _ _ _ _ _ _ Hwf Hl Hk) in Hd.
    + intros Hn. exists idx, l'. by rewrite list_lookup_insert_eq.
  - rewrite parked_spec by done. split.
    + intros (idx' & k & [(<- & [= -> <-] & _)|[_ Hk]]%list_lookup_insert_Some & Hn); [done|eauto].
    + intros (idx' & k & Hk & Hn). exists idx', k. rewrite list_lookup_insert_ne; [done|].
      intros <-. rewrite Hl in Hk. naive_solver.
Qed.
Lemma pl_push i a n :
  pl_wf i → pl_account_indices i !! a = None →
  let i' := {| pl_data := pl_data i ++ [(a, [n])];
               pl_account_indices := <[a := length (pl_data i)]> (pl_account_indices i);
               pl_size := pl_size i + 1 |} in
  pl_wf i' ∧ ∀ b k, parked i' b k ↔ parked i b k ∨ (b, k) = (a, n).
Proof.
  intros Hwf Ha i'. assert (∀ idx l, pl_data i !! idx ≠ Some (a, l)) as Hno.
  { intros idx l Hl. assert (pl_account_indices i !! a = Some idx) by (apply pl_wf_index; eauto).
    congruence. }
  assert (∀ idx b l, pl_data i' !! idx = Some (b, l) ↔
    pl_data i !! idx = Some (b, l) ∨ (idx = length (pl_data i) ∧ b = a ∧ l = [n])) as Hd.
  { intros idx b l. cbn. rewrite lookup_app_Some. split.
    - intros [?|[Hge Hl]]; [by left|]. right.
      destruct (idx - length (pl_data i))%nat eqn:Hk; simplify_eq/=. split_and!; [lia|done..].
    - intros [?|(-> & -> & ->)]; [by left|]. right. by rewrite Nat.sub_diag. }
  assert (pl_wf i') as Hwf'.
  { split.
    - intros b idx. setoid_rewrite Hd. cbn. rewrite lookup_insert_Some, (pl_wf_index _ Hwf). split.
      + intros [[<- <-]|[? [l Hl]]]; eauto 10.
      + intros [l [Hl|(-> & -> & _)]]; [|by left]. right. split; [|by eauto]. intros <-. by eapply Hno.
    - intros idx b l [Hl|(_ & _ & ->)]%Hd; [by eapply pl_wf_entry|].
      split; [done|]. apply bset_wf_cons. split; constructor.
    - cbn. rewrite (pl_wf_size _ Hwf), sum_list_with_app. cbn. lia. }
  split; [done|]. intros b k. rewrite !parked_spec by done. setoid_rewrite Hd. split.
  - intros (idx & l & [Hl|(_ & -> & ->)] & Hk); [by left; eauto|].
    apply list_elem_of_singleton in Hk as ->. by right.
  - intros [(idx & l & Hl & Hk)|[= -> ->]]; [by eauto 10|].
    exists (length (pl_data i)), [n]. split; [by right|by left].
Qed.

Lemma parking_lot_insert_ok i t (L : list (N * N)) :
  pl_wf i → (∀ a n, parked i a n → (a, n) ∈ L) → (sender (txn t), sequence_number (txn t)) ∈ L →
  lenN L < 2 ^ 64 →
  ∃ i', parking_lot_insert t i = Ok i' ∧ pl_wf i' ∧
        ∀ a n, parked i' a n ↔ parked i a n ∨ (a, n) = (sender (txn t), sequence_number (txn t)).
Proof.
  intros Hwf HL Hin Hlen. set (a0 := sender (txn t)) in *. set (n0 := sequence_number (txn t)) in *.
  assert (¬ parked i a0 n0 → u64_add (E := Infallible) (pl_size i) 1 = Ok (pl_size i + 1)) as Hadd.
  { intros Hn. pose proof (pl_size_lt _ _ _ _ Hwf HL Hin Hn). unfold u64_add, u64_checked_add.
    by destruct (N.ltb_spec (pl_size i + 1) (2 ^ 64)); [|lia]. }
  unfold parking_lot_insert. fold a0 n0.
  destruct (pl_account_indices i !! a0) as [idx|] eqn:Ha0.
  - pose proof (proj1 (pl_wf_index _ Hwf _ _) Ha0) as [l Hl]. rewrite Hl.
    pose proof (pl_wf_entry _ Hwf _ _ _ Hl) as [Hne Hs].
    assert (∀ n, parked i a0 n ↔ n ∈ l) as Hp.
    { intros n. rewrite parked_spec by done. split; [|by eauto]. intros (idx' & k & Hk & Hn).
      pose proof (pl_wf_unique _ _ _ _ _ _ Hwf Hl Hk) as <-. by rewrite Hl in Hk; simplify_eq. }
    set (sz := if bset_contains n0 l then pl_size i else pl_size i + 1).
    assert ((if negb (bset_contains n0 l) then u64_add (E := Infallible) (pl_size i) 1
             else Ok (pl_size i)) = Ok sz) as ->.
    { unfold sz. destruct (bset_contains n0 l) eqn:Hc; cbn; [done|]. apply Hadd.
      rewrite Hp. by apply bset_contains_not_elem in Hc. }
    run_ok. eexists. split; [done|].
    destruct (pl_update i idx a0 l (bset_insert n0 l) sz) as [Hwf' Hp']; [done..| | | |].
    + intros E. pose proof (elem_of_bset_insert_strict n0 n0 l Hs) as HE. rewrite E in HE. set_solver.
    + by apply bset_insert_wf.
    + unfold sz, lenN. rewrite length_bset_insert. destruct (bset_contains n0 l); lia.
    + split; [done|]. intros a n. rewrite Hp'. case_decide as Ha.
      * subst a. rewrite Hp, elem_of_bset_insert_strict by done. naive_solver.
      * naive_solver.
  - rewrite Hadd by (unfold parked, parking_lot_contains; by rewrite Ha0).
    run_ok. rewrite length_app, Nat.add_sub. eexists. split; [done|]. by apply pl_push.
Qed.

(** [swap_remove] of an entry that has become empty *)
Lemma lookup_swap_remove {A} (l : list A) idx x j :
  l !! idx = Some x →
  swap_remove idx l !! j =
    if decide (j = length l - 1)%nat then None
    else if decide (j = idx) then last l else l !! j.
Proof.
  intros Hx. pose proof (lookup_lt_Some _ _ _ Hx) as Hlt. unfold swap_remove.
  destruct (last l) as [y|] eqn:Hy; [|by apply last_None in Hy as ->].
  case_decide as Hj; [by apply lookup_take_ge; lia|].
  destruct (decide (j < length l - 1)%nat).
  - rewrite lookup_take_lt by done. case_decide as Hj'.
    + subst j. by rewrite list_lookup_insert_eq.
    + by rewrite list_lookup_insert_ne.
  - rewrite lookup_take_ge by lia. rewrite decide_False by lia. symmetry. apply lookup_ge_None_2. lia.
Qed.
Lemma swap_remove_Permutation {A} (l : list A) idx x :
  l !! idx = Some x → x :: swap_remove idx l ≡ₚ l.
Proof.
  intros Hx. pose proof (lookup_lt_Some _ _ _ Hx) as Hlt. unfold swap_remove.
  destruct (last l) as [y|] eqn:Hy; [|by apply last_None in Hy as ->].
  apply last_Some in Hy as [l' ->]. rewrite length_app in *. cbn in *. rewrite Nat.add_sub.
  destruct (decide (idx < length l')%nat).
  - rewrite insert_app_l, take_app_length' by (rewrite ?length_insert; done).
    rewrite lookup_app_l in Hx by done. rewrite insert_take_drop by done.
    rewrite <- (take_drop_middle _ _ _ Hx) at 3. solve_Permutation.
  - assert (idx = length l' + 0)%nat as -> by lia. rewrite insert_app_r.
    rewrite lookup_app_r in Hx by lia. replace (length l' + 0 - length l')%nat with 0%nat in Hx by lia.
    simplify_eq/=. rewrite take_app_length. solve_Permutation.
Qed.
Lemma sum_list_with_Permutation {A} (f : A → nat) l k : l ≡ₚ k → sum_list_with f l = sum_list_with f k.
Proof. induction 1; cbn; lia. Qed.

Lemma pl_drop i idx a n :
  pl_wf i → pl_data i !! idx = Some (a, [n]) →
  let data := swap_remove idx (<[idx := (a, [])]> (pl_data i)) in
  let i' := {| pl_data := data;
               pl_account_indices :=
                 match data !! idx with
                 | Some (swapped_account, _) => <[swapped_account := idx]> (delete a (pl_account_indices i))
                 | None => delete a (pl_account_indices i)
                 end;
               pl_size := pl_size i - 1 |} in
  pl_wf i' ∧ ∀ b k, parked i' b k ↔ b ≠ a ∧ parked i b k.
Proof.
  intros Hwf Hl data. pose proof (lookup_lt_Some _ _ _ Hl) as Hlt.
  set (m := (length (pl_data i) - 1)%nat).
  assert (∀ j b k, data !! j = Some (b, k) ↔
    (j ≠ idx ∧ j ≠ m ∧ pl_data i !! j = Some (b, k)) ∨
    (j = idx ∧ idx ≠ m ∧ pl_data i !! m = Some (b, k))) as Hd.
  { intros j b k. unfold data. rewrite (lookup_swap_remove _ _ (a, [])) by (by rewrite list_lookup_insert_eq).
    rewrite length_insert, last_lookup, length_insert. fold m.
    replace (pred (length (pl_data i))) with m by lia.
    destruct (decide (j = m)) as [->|Hj]; [naive_solver|].
    destruct (decide (j = idx)) as [->|Hji].
    - rewrite list_lookup_insert_ne by done. naive_solver.
    - rewrite list_lookup_insert_ne by done. naive_solver. }
  assert (∀ b k, (∃ j, data !! j = Some (b, k)) ↔ b ≠ a ∧ ∃ j, pl_data i !! j = Some (b, k)) as Hd'.
  { intros b k. setoid_rewrite Hd. split.
    - intros (j & [(Hj & _ & Hj')|(-> & Hm & Hj')]); (split; [|by eauto]); intros ->;
        by pose proof (pl_wf_unique _ _ _ _ _ _ Hwf Hl Hj').
    - intros (Hb & j & Hj). assert (j ≠ idx) by (intros ->; rewrite Hl in Hj; naive_solver).
      destruct (decide (j = m)) as [->|]; eauto 10. }
  intros i'. assert (pl_wf i') as Hwf'.
  { split; cbn.
    - intros b j. setoid_rewrite Hd. destruct (data !! idx) as [[c k]|] eqn:Hidx.
      + apply Hd in Hidx as [(? & _)|(_ & Hm & Hc)]; [done|].
        rewrite lookup_insert_Some, lookup_delete_Some, (pl_wf_index _ Hwf). split.
        * intros [[<- <-]|(Hcb & Hab & k' & Hk')]; [eauto 10|]. exists k'. left.
          split_and!; [|intros ->; naive_solver|done]. intros ->. rewrite Hl in Hk'. naive_solver.
        * intros (k' & [(Hj & Hjm & Hk')|(-> & _ & Hk')]); [|rewrite Hc in Hk'; naive_solver].
          right. split_and!; [..|by eauto]; intros <-; [by pose proof (pl_wf_unique _ _ _ _ _ _ Hwf Hc Hk')|
            by pose proof (pl_wf_unique _ _ _ _ _ _ Hwf Hl Hk')].
      + assert (idx = m) as Him.
        { destruct (decide (idx = m)); [done|].
          destruct (pl_data i !! m) as [[b' k']|] eqn:Hm; [|apply lookup_ge_None_1 in Hm; lia].
          assert (data !! idx = Some (b', k')) by (apply Hd; auto). congruence. }
        rewrite lookup_delete_Some, (pl_wf_index _ Hwf). split.
        * intros (Hab & k' & Hk'). exists k'. left. split_and!; [| |done]; intros ->;
            (rewrite Hl in Hk' || rewrite <- Him, Hl in Hk'); naive_solver.
        * intros (k' & [(Hj & _ & Hk')|(_ & ? & _)]); [|done]. split; [|by eauto]. intros <-.
          by pose proof (pl_wf_unique _ _ _ _ _ _ Hwf Hl Hk').
    - intros j b k Hj. destruct (proj1 (Hd' b k)) as (_ & j' & Hj'); [eauto|]. by eapply pl_wf_entry.
    - pose proof (swap_remove_Permutation (<[idx := (a, [])]> (pl_data i)) idx (a, [])) as Hp.
      rewrite list_lookup_insert_eq in Hp by done. specialize (Hp eq_refl).
      apply (sum_list_with_Permutation (λ p, length p.2)) in Hp. cbn in Hp. fold data in Hp. rewrite Hp.
      pose proof (sum_lengths_insert _ _ _ _ a [] Hl) as Hs. pose proof (pl_wf_size _ Hwf). cbn in Hs. lia. }
  split; [done|]. intros b k. rewrite !parked_spec by done. cbn. split.
  - intros (j & l & Hj & Hk). destruct (proj1 (Hd' b l)) as (Hb & j' & Hj'); [eauto|]. eauto 10.
  - intros (Hb & j & l & Hj & Hk). destruct (proj2 (Hd' b l)) as (j' & Hj'); eauto.
Qed.

Lemma parking_lot_remove_ok i t :
  pl_wf i →
  ∃ i', parking_lot_remove t i = Ok i' ∧ pl_wf i' ∧
        ∀ a n, parked i' a n ↔ parked i a n ∧ (a, n) ≠ (sender (txn t), sequence_number (txn t)).
Proof.
  intros Hwf. set (a0 := sender (txn t)). set (n0 := sequence_number (txn t)).
  unfold parking_lot_remove. fold a0 n0.
  destruct (pl_account_indices i !! a0) as [idx|] eqn:Ha0.
  2: { exists i. split_and!; [done..|]. intros a n. split; [|naive_solver]. intros Hp. split; [done|].
       intros [= -> ->]. revert Hp. unfold parked, parking_lot_contains. by rewrite Ha0. }
  pose proof (proj1 (pl_wf_index _ Hwf _ _) Ha0) as [l Hl]. rewrite Hl.
  pose proof (pl_wf_entry _ Hwf _ _ _ Hl) as [Hne Hs].
  assert (∀ n, parked i a0 n ↔ n ∈ l) as Hp.
  { intros n. rewrite parked_spec by done. split; [|by eauto]. intros (idx' & k & Hk & Hn).
    pose proof (pl_wf_unique _ _ _ _ _ _ Hwf Hl Hk) as <-. by rewrite Hl in Hk; simplify_eq. }
  pose proof (length_bset_remove n0 l) as Hlen.
  assert (lenN l <= pl_size i) as Hle.
  { rewrite (pl_wf_size _ Hwf). unfold lenN. apply list_elem_of_lookup_2 in Hl.
    pose proof (sum_list_with_in _ (λ p : N * list N, length p.2) _ Hl). cbn in *. lia. }
  set (sz := if bset_contains n0 l then pl_size i - 1 else pl_size i).
  assert ((if bset_contains n0 l then u64_sub (E := Infallible) (pl_size i) 1 else Ok (pl_size i)) = Ok sz) as ->.
  { unfold sz. destruct (bset_contains n0 l); [|done]. unfold u64_sub, u64_checked_sub, lenN in *.
    destruct (N.leb_spec 1 (pl_size i)); [done|lia]. }
  run_ok. destruct (bset_remove n0 l) as [|x r] eqn:Hr.
  - assert (∃ n, l = [n]) as [n ->].
    { destruct l as [|n [|n' l']]; [done|eauto|].
      destruct (bset_contains n0 _) in Hlen; cbn in Hlen; lia. }
    assert (n = n0) as ->.
    { destruct (decide (n = n0)) as [|Hn]; [done|].
      assert (n ∈ bset_remove n0 [n]) as Hin by (apply elem_of_bset_remove_strict; [done|split; [by left|done]]).
      rewrite Hr in Hin. by apply elem_of_nil in Hin. }
    assert (bset_contains n0 [n0] = true) as Hc by (apply bset_contains_elem; [done|by left]).
    unfold sz. rewrite Hc. eexists. split; [done|].
    destruct (pl_drop i idx a0 n0 Hwf Hl) as [Hwf' Hp']. split; [done|].
    intros a n. rewrite Hp'. destruct (decide (a = a0)) as [->|]; [|naive_solver].
    rewrite Hp, list_elem_of_singleton. naive_solver.
  - eexists. split; [done|]. rewrite <- Hr in *.
    destruct (pl_update i idx a0 l (bset_remove n0 l) sz) as [Hwf' Hp']; [done..| | | |].
    + by rewrite Hr.
    + by apply bset_remove_wf.
    + unfold sz, lenN in *. destruct (bset_contains n0 l); lia.
    + split; [done|]. intros a n. rewrite Hp'. case_decide as Ha.
      * subst a. rewrite Hp, elem_of_bset_remove_strict by done. naive_solver.
      * naive_solver.
Qed.

(** What is popped is parked, with the greatest sequence number of its account; something is
    popped as soon as something is parked. *)
Lemma parking_lot_get_poppable_ok rng i a n :
  pl_wf i → parking_lot_get_poppable rng i = Some (a, n) →
  parked i a n ∧ ∀ n', parked i a n' → n' <= n.
Proof.
  intros Hwf. unfold parking_lot_get_poppable.
  destruct (pl_data i !! _) as [[a' l]|] eqn:Hl; cbn; [|done].
  destruct (last l) as [n'|] eqn:Hn; cbn; [|done]. intros [= -> ->].
  assert (n ∈ l) as Hin by by apply last_Some_elem_of.
  rewrite parked_spec by done. split; [by eauto|]. intros n'.
  rewrite parked_spec by done. intros (idx & l' & Hl' & Hn').
  pose proof (pl_wf_unique _ _ _ _ _ _ Hwf Hl Hl') as <-. rewrite Hl in Hl'. simplify_eq.
  pose proof (pl_wf_entry _ Hwf _ _ _ Hl) as [_ Hs].
  destruct (bset_last_max _ n' _ Hs Hn Hn') as [->|Hlt]; [done|].
  change (N.compare n' n = Lt) in Hlt. rewrite N.compare_lt_iff in Hlt. lia.
Qed.
Lemma parking_lot_get_poppable_none rng i :
  pl_wf i → parking_lot_get_poppable rng i = None → ∀ a n, ¬ parked i a n.
Proof.
  intros Hwf. unfold parking_lot_get_poppable. intros Hpop a n.
  rewrite parked_spec by done. intros (idx & l & Hl & _).
  apply lookup_lt_Some in Hl.
  destruct (pl_data i !! (rng mod length (pl_data i))%nat) as [[a' l']|] eqn:Hl'; cbn in Hpop.
  - destruct (pl_wf_entry _ Hwf _ _ _ Hl') as [Hne _]. destruct (last l') eqn:Hlast; [done|].
    by apply last_None in Hlast.
  - apply lookup_ge_None_1 in Hl'. pose proof (Nat.mod_upper_bound rng (length (pl_data i))). lia.
Qed.
End parking.

(** ** The timelines, by bucket *)
Section timelines.
Context `{!TransactionTypes}.
Implicit Types (i : MultiBucketTimelineIndex) (t : MempoolTransaction).

(** The last bucket that starts at or below the score *)
Definition bucket_of (bucket_mins : list N) (score : N) : nat :=
  (length (filter (λ y : N, (y <= score)%N) bucket_mins) - 1)%nat.
Definition timeline_at i (b : nat) : gmap N (AccountAddress * N) :=
  default ∅ (tl_timeline <$> mb_timelines i !! b).
Definition next_id i (b : nat) : N := default 0 (tl_timeline_id <$> mb_timelines i !! b).

Record mb_wf i : Prop := {
  mb_wf_length : length (mb_timelines i) = length (mb_bucket_mins i);
  mb_wf_first : mb_bucket_mins i !! 0%nat = Some 0;
  mb_wf_sorted : StronglySorted N.lt (mb_bucket_mins i);
}.

Lemma filter_lt_le (l : list N) x :
  StronglySorted N.lt l →
  length (filter (λ y : N, (y <= x)%N) l) =
    (length (filter (λ y : N, (y < x)%N) l) + (if bool_decide (l !! length (filter (λ y : N, (y < x)%N) l) = Some x) then 1 else 0))%nat.
Proof.
  induction 1 as [|y l Hs IH Hy]; [done|].
  destruct (N.lt_trichotomy y x) as [Hlt|[->|Hgt]].
  - rewrite !filter_cons_True by lia. cbn [length]. rewrite IH. done.
  - rewrite !filter_cons, (decide_True (P := (x <= x)%N)), (decide_False (P := (x < x)%N)) by lia.
    rewrite !list_filter_none; [by cbn; rewrite bool_decide_eq_true_2| |];
      intros z Hz; rewrite Forall_forall in Hy; specialize (Hy z Hz); lia.
  - rewrite !filter_cons_False by lia.
    rewrite !list_filter_none; [|intros z Hz; rewrite Forall_forall in Hy; specialize (Hy z Hz); lia..].
    cbn. rewrite bool_decide_eq_false_2; [done|]. intros [= ->]. lia.
Qed.
Lemma bucket_of_pos (l : list N) x : l !! 0%nat = Some 0 → (0 < length (filter (λ y : N, (y <= x)%N) l))%nat.
Proof. destruct l as [|y l]; [done|]. intros [= ->]. rewrite filter_cons_True by lia. cbn. lia. Qed.
Lemma bucket_of_lt i score : mb_wf i → (bucket_of (mb_bucket_mins i) score < length (mb_timelines i))%nat.
Proof.
  intros Hwf. rewrite (mb_wf_length _ Hwf). unfold bucket_of.
  pose proof (bucket_of_pos _ score (mb_wf_first _ Hwf)).
  pose proof (length_filter (λ y : N, (y <= score)%N) (mb_bucket_mins i)). lia.
Qed.
Lemma get_timeline_ok i score : mb_wf i → get_timeline i score = Ok (bucket_of (mb_bucket_mins i) score).
Proof.
  intros Hwf. unfold get_timeline, binary_search, bucket_of.
  pose proof (filter_lt_le _ score (mb_wf_sorted _ Hwf)) as Hf.
  pose proof (bucket_of_pos _ score (mb_wf_first _ Hwf)) as Hpos. rewrite Hf in Hpos |- *.
  generalize dependent (length (filter (λ y : N, (y < score)%N) (mb_bucket_mins i))). intros k _ Hpos.
  destruct (bool_decide _).
  - f_equal. lia.
  - destruct k; [lia|]. f_equal. lia.
Qed.
Lemma timeline_lookup i b : (b < length (mb_timelines i))%nat → ∃ tl, mb_timelines i !! b = Some tl.
Proof. intros. by apply lookup_lt_is_Some_2. Qed.

Lemma multi_bucket_insert_ok i t :
  mb_wf i → let b := bucket_of (mb_bucket_mins i) (ranking_score t) in
  next_id i b + 1 < 2 ^ 64 →
  ∃ i', multi_bucket_insert t i = Ok (set_timeline_state (Ready (next_id i b)) t, i') ∧
        mb_wf i' ∧ mb_bucket_mins i' = mb_bucket_mins i ∧
        (∀ c, timeline_at i' c = if decide (c = b) then <[next_id i b := txn_pointer t]> (timeline_at i b)
                                 else timeline_at i c) ∧
        (∀ c, next_id i' c = if decide (c = b) then next_id i b + 1 else next_id i c).
Proof.
  intros Hwf b Hid. unfold multi_bucket_insert. rewrite get_timeline_ok by done. run_ok. fold b.
  destruct (timeline_lookup i b) as [tl Htl]; [by apply bucket_of_lt|]. rewrite Htl. run_ok.
  pose proof (lookup_lt_Some _ _ _ Htl) as Hlt.
  assert (next_id i b = tl_timeline_id tl) as Hn by (unfold next_id; by rewrite Htl).
  unfold timeline_index_insert, u64_add, u64_checked_add. rewrite Hn in *.
  destruct (N.ltb_spec (tl_timeline_id tl + 1) (2 ^ 64)); [|lia]. run_ok.
  eexists. split; [done|]. split; [|split; [done|]].
  { destruct Hwf. split; cbn; rewrite ?length_insert; done. }
  unfold timeline_at, next_id. cbn. split; intros c; case_decide as Hc.
  - subst c. rewrite list_lookup_insert_eq by done. cbn. by rewrite Htl.
  - by rewrite list_lookup_insert_ne.
  - subst c. rewrite list_lookup_insert_eq by done. done.
  - by rewrite list_lookup_insert_ne.
Qed.
Lemma multi_bucket_remove_ok i t :
  mb_wf i → let b := bucket_of (mb_bucket_mins i) (ranking_score t) in
  ∃ i', multi_bucket_remove t i = Ok i' ∧
        mb_wf i' ∧ mb_bucket_mins i' = mb_bucket_mins i ∧
        (∀ c, timeline_at i' c =
              match timeline_state t with
              | Ready id => if decide (c = b) then delete id (timeline_at i b) else timeline_at i c
              | _ => timeline_at i c
              end) ∧
        (∀ c, next_id i' c = next_id i c).
Proof.
  intros Hwf b. unfold multi_bucket_remove. rewrite get_timeline_ok by done. run_ok. fold b.
  destruct (timeline_lookup i b) as [tl Htl]; [by apply bucket_of_lt|]. rewrite Htl. run_ok.
  pose proof (lookup_lt_Some _ _ _ Htl) as Hlt. eexists. split; [done|]. split; [|split; [done|]].
  { destruct Hwf. split; cbn; rewrite ?length_insert; done. }
  unfold timeline_at, next_id, timeline_index_remove. cbn. split; intros c.
  - destruct (decide (c = b)) as [->|Hc].
    + rewrite list_lookup_insert_eq by done. rewrite Htl. by destruct (timeline_state t).
    + rewrite list_lookup_insert_ne by done. by destruct (timeline_state t).
  - destruct (decide (c = b)) as [->|Hc].
    + rewrite list_lookup_insert_eq by done. rewrite Htl. by destruct (timeline_state t).
    + by rewrite list_lookup_insert_ne.
Qed.

(** The buckets stay, ids are given out in order and are never used again. *)
Definition mb_evolves i i' : Prop :=
  mb_bucket_mins i' = mb_bucket_mins i ∧ (∀ b, next_id i b <= next_id i' b) ∧
  ∀ b id p, timeline_at i' b !! id = Some p → timeline_at i b !! id = Some p ∨ next_id i b <= id.
#[export] Instance mb_evolves_preorder : PreOrder mb_evolves.
Proof.
  split; [intros i; unfold mb_evolves; split_and!; [done|lia|by left]|]. intros i1 i2 i3 (M1 & N1 & T1) (M2 & N2 & T2).
  split_and!; [congruence|intros b; specialize (N1 b); specialize (N2 b); lia|].
  intros b id p Hp. specialize (N1 b). destruct (T2 b id p Hp) as [Hp2|]; [by apply T1|right; lia].
Qed.
Lemma multi_bucket_insert_evolves i i' id b :
  mb_bucket_mins i' = mb_bucket_mins i →
  (∀ c, timeline_at i' c = if decide (c = b) then <[next_id i b := id]> (timeline_at i b) else timeline_at i c) →
  (∀ c, next_id i' c = if decide (c = b) then next_id i b + 1 else next_id i c) → mb_evolves i i'.
Proof.
  intros Hm Ht Hn. split_and!; [done|intros c; rewrite Hn; case_decide; subst; lia|].
  intros c k p. rewrite Ht. case_decide; [|by left]. subst c. rewrite lookup_insert_Some.
  intros [[<- _]|[_ ?]]; [by right|by left].
Qed.
Lemma multi_bucket_remove_evolves i t i' b :
  mb_bucket_mins i' = mb_bucket_mins i →
  (∀ c, timeline_at i' c =
        match timeline_state t with
        | Ready id => if decide (c = b) then delete id (timeline_at i b) else timeline_at i c
        | _ => timeline_at i c
        end) →
  (∀ c, next_id i' c = next_id i c) → mb_evolves i i'.
Proof.
  intros Hm Ht Hn. split_and!; [done|intros c; rewrite Hn; lia|]. intros c k p. rewrite Ht.
  destruct (timeline_state t); [|by left..]. case_decide; [|by left]. subst c.
  rewrite lookup_delete_Some. naive_solver.
Qed.

Lemma bucket_mins_loop_ok l prev acc r :
  bucket_mins_loop l prev acc = Ok r →
  StronglySorted N.lt l ∧ Forall (λ x, ∀ p, prev = Some p → p < x) l ∧
  r = acc ++ replicate (length l) timeline_index_new.
Proof.
  revert prev acc. induction l as [|x l IH]; intros prev acc Hr; cbn in Hr.
  { injection Hr as <-. split_and!; [constructor..|]. by rewrite app_nil_r. }
  apply bind_Ok in Hr as (? & Hprev & Hr). apply IH in Hr as (Hs & Hx & ->).
  assert (∀ p, prev = Some p → p < x) as Hp.
  { intros p ->. apply ensure_Ok in Hprev. by apply N.ltb_lt. }
  split_and!.
  - constructor; [done|]. eapply Forall_impl; [exact Hx|]. intros y Hy. by apply Hy.
  - constructor; [done|]. eapply Forall_impl; [exact Hx|]. intros y Hy p ->.
    specialize (Hy x eq_refl). specialize (Hp p eq_refl). lia.
  - rewrite <- app_assoc. done.
Qed.
Lemma multi_bucket_new_ok mins i :
  multi_bucket_timeline_index_new mins = Ok i →
  mb_wf i ∧ mb_bucket_mins i = mins ∧ ∀ b, timeline_at i b = ∅ ∧ ((b < length mins)%nat → next_id i b = 1).
Proof.
  unfold multi_bucket_timeline_index_new. intros Hi. inv_ok. subst i. cbn in *.
  apply N.eqb_eq in Hok1 as ->.
  match goal with H : bucket_mins_loop _ _ _ = Ok _ |- _ => apply bucket_mins_loop_ok in H as (Hs & _ & ->) end.
  split_and!; [|done|].
  - split; cbn; [by rewrite length_replicate|done..].
  - intros b. unfold timeline_at, next_id. cbn. destruct (replicate _ _ !! b) as [tl|] eqn:Hb; cbn.
    + by apply lookup_replicate in Hb as [-> _].
    + split; [done|]. apply lookup_ge_None in Hb. rewrite length_replicate in Hb. lia.
Qed.
End timelines.
