(* ===== verification/MempoolStore.v ===== *)
(** * Mempool: the transaction store

    mempool/src/core_mempool/transaction_store.rs and mempool.rs. The store keeps, per account,
    its transactions by sequence number, and the indexes of [MempoolIndex] over them; [Mempool]
    adds the clock and takes blocks from the priority queue. Metrics and log messages are left
    out, as is the text of a [MempoolStatus]. The clock is an argument, as is the number a random
    generator gives when a parked transaction is evicted. *)
From S2P Require Import Prelude Crypto BTree MempoolIndex.
Local Open Scope N_scope.

(** types/src/mempool_status.rs *)
Inductive MempoolStatusCode :=
| Accepted
| InvalidSeqNumber
| MempoolIsFull
| TooManyTransactions
| InvalidUpdate
| VmError
| UnknownStatus.
#[export] Instance MempoolStatusCode_eq_dec : EqDecision MempoolStatusCode.
Proof. solve_decision. Defined.

(** The fields of config/src/config/mempool_config.rs the store reads *)
Record MempoolConfig := mkMempoolConfig {
  cfg_capacity : N;
  cfg_capacity_bytes : N;
  cfg_capacity_per_user : N;
  cfg_default_failovers : N;
  cfg_max_broadcasts_per_peer : N;
  cfg_shared_mempool_ack_timeout_ms : N;
  cfg_shared_mempool_backoff_interval_ms : N;
  cfg_shared_mempool_batch_size : N;
  cfg_shared_mempool_max_batch_bytes : N;
  cfg_shared_mempool_tick_interval_ms : N;
  cfg_system_transaction_timeout_secs : N;
  cfg_broadcast_buckets : list N;
}.

(** [Duration::from_secs] *)
Definition duration_from_secs (secs : N) : Duration := secs * 1000000000.

Section store.
Context `{!TransactionTypes, !TransactionEncoding}.

Abbreviation AccountTransactions := (gmap N MempoolTransaction).

Record TransactionStore := mkTransactionStore {
  transactions : gmap AccountAddress AccountTransactions;
  sequence_numbers : gmap AccountAddress N;
  priority_index : list OrderedQueueKey;
  expiration_time_index : list TTLOrderingKey;
  system_ttl_index : list TTLOrderingKey;
  timeline_index : MultiBucketTimelineIndex;
  parking_lot_index : ParkingLotIndex;
  hash_index : gmap HashValue (AccountAddress * N);
  size_bytes : N;
  capacity : N;
  capacity_bytes : N;
  capacity_per_user : N;
  max_batch_bytes : N;
}.

Definition set_transactions x (s : TransactionStore) : TransactionStore :=
  mkTransactionStore x (sequence_numbers s) (priority_index s) (expiration_time_index s)
    (system_ttl_index s) (timeline_index s) (parking_lot_index s) (hash_index s) (size_bytes s)
    (capacity s) (capacity_bytes s) (capacity_per_user s) (max_batch_bytes s).
Definition set_sequence_numbers x (s : TransactionStore) : TransactionStore :=
  mkTransactionStore (transactions s) x (priority_index s) (expiration_time_index s)
    (system_ttl_index s) (timeline_index s) (parking_lot_index s) (hash_index s) (size_bytes s)
    (capacity s) (capacity_bytes s) (capacity_per_user s) (max_batch_bytes s).
(** The indexes, all at once *)
Definition set_indexes priority expiration ttl timeline parking hashes bytes (s : TransactionStore)
  : TransactionStore :=
  mkTransactionStore (transactions s) (sequence_numbers s) priority expiration ttl timeline parking
    hashes bytes (capacity s) (capacity_bytes s) (capacity_per_user s) (max_batch_bytes s).

(** The closures of the two [TTLIndex]es *)
Definition system_expiration (t : MempoolTransaction) : Duration := expiration_time t.
Definition client_expiration (t : MempoolTransaction) : Duration :=
  duration_from_secs (expiration_timestamp_secs (txn t)).

Definition transaction_store_new (config : MempoolConfig) : outcome Infallible TransactionStore :=
  match multi_bucket_timeline_index_new (cfg_broadcast_buckets config) with
  | Ok timeline_index =>
      Ok {| transactions := ∅;
            sequence_numbers := ∅;
            priority_index := [];
            expiration_time_index := [];
            system_ttl_index := [];
            timeline_index := timeline_index;
            parking_lot_index := parking_lot_new;
            hash_index := ∅;
            size_bytes := 0;
            capacity := cfg_capacity config;
            capacity_bytes := cfg_capacity_bytes config;
            capacity_per_user := cfg_capacity_per_user config;
            max_batch_bytes := cfg_shared_mempool_max_batch_bytes config |}
  | _ => Panic
  end.

(** ** Lookups *)
Definition get_mempool_txn (s : TransactionStore) (address : AccountAddress) (sequence_number : N)
  : option MempoolTransaction :=
  transactions s !! address ≫= λ txns, txns !! sequence_number.
Definition store_get (s : TransactionStore) (address : AccountAddress) (sequence_number : N)
  : option SignedTransaction :=
  txn <$> get_mempool_txn s address sequence_number.
Definition get_with_ranking_score (s : TransactionStore) (address : AccountAddress)
    (sequence_number : N) : option (SignedTransaction * N) :=
  t ← get_mempool_txn s address sequence_number;
  Some (txn t, ranking_score t).
Definition store_get_by_hash (s : TransactionStore) (hash : HashValue) : option SignedTransaction :=
  match hash_index s !! hash with
  | Some (address, seq) => store_get s address seq
  | None => None
  end.
Definition get_sequence_number (s : TransactionStore) (address : AccountAddress) : option N :=
  sequence_numbers s !! address.

(** ** Removal *)
Definition index_remove (t : MempoolTransaction) (s : TransactionStore)
  : outcome Infallible TransactionStore :=
  timeline ← multi_bucket_remove t (timeline_index s);
  parking ← parking_lot_remove t (parking_lot_index s);
  bytes ← u64_sub (size_bytes s) (get_estimated_bytes t);
  let s := set_indexes (priority_index_remove t (priority_index s))
             (ttl_index_remove client_expiration t (expiration_time_index s))
             (ttl_index_remove system_expiration t (system_ttl_index s))
             timeline parking (delete (get_committed_hash t) (hash_index s)) bytes s in
  let address := get_sender t in
  match transactions s !! address with
  | Some txns =>
      if decide (txns = ∅) then
        Ok (set_sequence_numbers (delete address (sequence_numbers s))
              (set_transactions (delete address (transactions s)) s))
      else Ok s
  | None => Ok s
  end.

(** Removes each of the transactions from the indexes. *)
Fixpoint index_remove_all (l : list MempoolTransaction) (s : TransactionStore)
  : outcome Infallible TransactionStore :=
  match l with
  | [] => Ok s
  | t :: l => s ← index_remove t s; index_remove_all l s
  end.
Definition clean_committed_transactions (address : AccountAddress) (sequence_number : N)
    (s : TransactionStore) : outcome Infallible TransactionStore :=
  match transactions s !! address with
  | Some txns =>
      let active := filter (λ p, ¬ p.1 < sequence_number) txns in
      let txns_for_removal := filter (λ p, p.1 < sequence_number) txns in
      index_remove_all ((btree_iter txns_for_removal).*2)
        (set_transactions (<[address := active]> (transactions s)) s)
  | None => Ok s
  end.

(** ** Readiness *)

(** The state of the loop of [process_ready_transactions]: the transactions of the account, the
    three indexes it changes, and [min_seq] *)
Record ReadyLoop := mkReadyLoop {
  rl_txns : AccountTransactions;
  rl_priority : list OrderedQueueKey;
  rl_timeline : MultiBucketTimelineIndex;
  rl_parking : ParkingLotIndex;
  rl_min_seq : N;
}.
Definition ready_step (t : MempoolTransaction) (r : ReadyLoop) : outcome Infallible ReadyLoop :=
  let priority := priority_index_insert t (rl_priority r) in
  '(t, timeline) ← (if decide (timeline_state t = NotReady)
                    then multi_bucket_insert t (rl_timeline r)
                    else Ok (t, rl_timeline r));
  parking ← parking_lot_remove t (rl_parking r);
  min_seq ← u64_add (rl_min_seq r) 1;
  Ok {| rl_txns := <[rl_min_seq r := t]> (rl_txns r);
        rl_priority := priority;
        rl_timeline := timeline;
        rl_parking := parking;
        rl_min_seq := min_seq |}.
Fixpoint ready_loop (fuel : nat) (r : ReadyLoop) : outcome Infallible ReadyLoop :=
  match fuel with
  | O => Panic
  | S fuel =>
      match rl_txns r !! rl_min_seq r with
      | Some t => r ← ready_step t r; ready_loop fuel r
      | None => Ok r
      end
  end.
Fixpoint park_loop (txns : list MempoolTransaction) (parking : ParkingLotIndex)
  : outcome Infallible ParkingLotIndex :=
  match txns with
  | [] => Ok parking
  | t :: txns =>
      parking ← (match timeline_state t with
                 | Ready _ => Ok parking
                 | _ => parking_lot_insert t parking
                 end);
      park_loop txns parking
  end.
Definition process_ready_transactions (address : AccountAddress)
    (sequence_info : AccountSequenceInfo) (s : TransactionStore) : outcome Infallible TransactionStore :=
  match transactions s !! address with
  | Some txns =>
      r ← ready_loop (S (size txns))
            {| rl_txns := txns; rl_priority := priority_index s; rl_timeline := timeline_index s;
               rl_parking := parking_lot_index s; rl_min_seq := min_seq sequence_info |};
      later ← btree_range (Excluded (rl_min_seq r)) Unbounded (rl_txns r);
      parking ← park_loop (later.*2) (rl_parking r);
      Ok (set_transactions (<[address := rl_txns r]> (transactions s))
            (set_indexes (rl_priority r) (expiration_time_index s) (system_ttl_index s)
               (rl_timeline r) parking (hash_index s) (size_bytes s) s))
  | None => Ok s
  end.

(** ** Insertion *)
Definition is_full (s : TransactionStore) : bool :=
  (capacity s <=? ttl_index_size (system_ttl_index s)) || (capacity_bytes s <=? size_bytes s).

Definition check_txn_ready (t : MempoolTransaction) (curr_sequence_number : N)
    (s : TransactionStore) : outcome Infallible bool :=
  let tx_sequence_number := txn_seq t in
  if tx_sequence_number =? curr_sequence_number then Ok true
  else if tx_sequence_number =? 0 then Panic
  else
    match transactions s !! get_sender t ≫= λ txns, txns !! (tx_sequence_number - 1) with
    | Some prev_txn =>
        match timeline_state prev_txn with
        | Ready _ => Ok true
        | _ => Ok false
        end
    | None => Ok false
    end.

(** [txns.remove(&sequence_number)] on the transactions of the account *)
Definition remove_txn (address : AccountAddress) (sequence_number : N) (s : TransactionStore)
  : TransactionStore :=
  match transactions s !! address with
  | Some txns => set_transactions (<[address := delete sequence_number txns]> (transactions s)) s
  | None => s
  end.

Definition check_is_full_after_eviction (rng : nat) (t : MempoolTransaction)
    (curr_sequence_number : N) (s : TransactionStore) : outcome Infallible (bool * TransactionStore) :=
  evict ← (if is_full s then check_txn_ready t curr_sequence_number s else Ok false);
  s ← (if (evict : bool) then
         match parking_lot_get_poppable rng (parking_lot_index s) with
         | Some (address, sequence_number) =>
             match get_mempool_txn s address sequence_number with
             | Some t => index_remove t (remove_txn address sequence_number s)
             | None => Ok s
             end
         | None => Ok s
         end
       else Ok s);
  Ok (is_full s, s).

(** The first part of [insert]: what becomes of a transaction with the same sequence number.
    [Some status] is an early return. *)
Definition insert_update (t : MempoolTransaction) (s : TransactionStore)
  : outcome Infallible (option MempoolStatusCode * TransactionStore) :=
  match get_mempool_txn s (get_sender t) (txn_seq t) with
  | Some current_version =>
      if negb (bool_decide (payload (txn current_version) = payload (txn t))) then
        Ok (Some InvalidUpdate, s)
      else if negb (expiration_timestamp_secs (txn current_version) =? expiration_timestamp_secs (txn t))
      then Ok (Some InvalidUpdate, s)
      else if negb (max_gas_amount (txn current_version) =? max_gas_amount (txn t)) then
        Ok (Some InvalidUpdate, s)
      else if gas_unit_price (txn current_version) <? get_gas_price t then
        s ← index_remove current_version (remove_txn (get_sender t) (txn_seq t) s);
        Ok (None, s)
      else if get_gas_price t <? get_gas_price current_version then Ok (Some InvalidUpdate, s)
      else Ok (Some Accepted, s)
  | None => Ok (None, s)
  end.
(** The last part of [insert], after the capacity of the account has been checked *)
Definition insert_new (t : MempoolTransaction) (txns : AccountTransactions) (s : TransactionStore)
  : outcome Infallible TransactionStore :=
  let sender := get_sender t in
  let seq := account_sequence_number_type (sequence_info t) in
  bytes ← u64_add (size_bytes s) (get_estimated_bytes t);
  let s :=
    set_sequence_numbers (<[sender := min_seq seq]> (sequence_numbers s))
      (set_transactions (<[sender := <[txn_seq t := t]> txns]> (transactions s))
         (set_indexes (priority_index s)
            (ttl_index_insert client_expiration t (expiration_time_index s))
            (ttl_index_insert system_expiration t (system_ttl_index s))
            (timeline_index s) (parking_lot_index s)
            (<[get_committed_hash t := (sender, txn_seq t)]> (hash_index s)) bytes s)) in
  process_ready_transactions sender seq s.
(** The part of [insert] after the checks for room *)
Definition insert_clean (t : MempoolTransaction) (s : TransactionStore)
  : outcome Infallible (MempoolStatusCode * TransactionStore) :=
  let address := get_sender t in
  s ← clean_committed_transactions address (min_seq (account_sequence_number_type (sequence_info t))) s;
  let txns := default ∅ (transactions s !! address) in
  let s := set_transactions (<[address := txns]> (transactions s)) s in
  if capacity_per_user s <=? N.of_nat (size txns) then Ok (TooManyTransactions, s)
  else s ← insert_new t txns s; Ok (Accepted, s).
Definition store_insert (rng : nat) (t : MempoolTransaction) (s : TransactionStore)
  : outcome Infallible (MempoolStatusCode * TransactionStore) :=
  '(status, s) ← insert_update t s;
  match status with
  | Some status => Ok (status, s)
  | None =>
      '(full, s) ← check_is_full_after_eviction rng t
                     (min_seq (account_sequence_number_type (sequence_info t))) s;
      if full : bool then Ok (MempoolIsFull, s) else insert_clean t s
  end.

(** ** Commits, rejections and expiry *)
Definition store_commit_transaction (account : AccountAddress) (sequence_number : N)
    (s : TransactionStore) : outcome Infallible TransactionStore :=
  let current_seq_number := default 0 (get_sequence_number s account) in
  next ← u64_add sequence_number 1;
  let new_seq_number := Sequential (N.max current_seq_number next) in
  let s := set_sequence_numbers (<[account := min_seq new_seq_number]> (sequence_numbers s)) s in
  s ← clean_committed_transactions account (min_seq new_seq_number) s;
  process_ready_transactions account new_seq_number s.

Definition store_reject_transaction (account : AccountAddress) (sequence_number : N)
    (hash : HashValue) (s : TransactionStore) : outcome Infallible TransactionStore :=
  let txn_to_remove :=
    match hash_index s !! hash with
    | Some (indexed_account, indexed_sequence_number) =>
        if (account =? indexed_account) && (sequence_number =? indexed_sequence_number)
        then get_mempool_txn s account sequence_number else None
    | None => None
    end in
  match txn_to_remove with
  | Some t => index_remove t (remove_txn account sequence_number s)
  | None => Ok s
  end.

(** [gc_txns.sort_by_key(|key| (key.address, key.sequence_number))] *)
Definition gc_key_le (x y : TTLOrderingKey) : Prop :=
  ttl_address x < ttl_address y ∨
  ttl_address x = ttl_address y ∧ ttl_sequence_number x <= ttl_sequence_number y.
#[export] Instance gc_key_le_dec : RelDecision gc_key_le.
Proof. intros x y. unfold gc_key_le. apply _. Defined.

(** One transaction after an expired one becomes non-ready. *)
Definition gc_park (t : MempoolTransaction) (s : TransactionStore) : outcome Infallible TransactionStore :=
  parking ← parking_lot_insert t (parking_lot_index s);
  timeline ← multi_bucket_remove t (timeline_index s);
  let s := set_indexes (priority_index_remove t (priority_index s)) (expiration_time_index s)
             (system_ttl_index s) timeline parking (hash_index s) (size_bytes s) s in
  let t' := match timeline_state t with
            | Ready _ => set_timeline_state NotReady t
            | _ => t
            end in
  match transactions s !! get_sender t with
  | Some txns => Ok (set_transactions (<[get_sender t := <[txn_seq t := t']> txns]> (transactions s)) s)
  | None => Ok s
  end.
Fixpoint gc_park_all (l : list MempoolTransaction) (s : TransactionStore)
  : outcome Infallible TransactionStore :=
  match l with
  | [] => Ok s
  | t :: l => s ← gc_park t s; gc_park_all l s
  end.
(** The end of the range to park: the next expired transaction of the same account *)
Definition park_range_end (key : TTLOrderingKey) (rest : list TTLOrderingKey) : Bound :=
  match rest with
  | next_key :: _ =>
      if ttl_address key =? ttl_address next_key then Excluded (ttl_sequence_number next_key)
      else Unbounded
  | [] => Unbounded
  end.
(** One expired transaction *)
Definition gc_step (key : TTLOrderingKey) (rest : list TTLOrderingKey) (s : TransactionStore)
  : outcome Infallible TransactionStore :=
  match transactions s !! ttl_address key with
  | Some txns =>
      range ← btree_range (Excluded (ttl_sequence_number key)) (park_range_end key rest) txns;
      s ← gc_park_all (range.*2) s;
      match get_mempool_txn s (ttl_address key) (ttl_sequence_number key) with
      | Some t => index_remove t (remove_txn (ttl_address key) (ttl_sequence_number key) s)
      | None => Ok s
      end
  | None => Ok s
  end.
Fixpoint gc_loop (gc_txns : list TTLOrderingKey) (s : TransactionStore)
  : outcome Infallible TransactionStore :=
  match gc_txns with
  | [] => Ok s
  | key :: rest => s ← gc_step key rest s; gc_loop rest s
  end.
Definition store_gc (now : Duration) (by_system_ttl : bool) (s : TransactionStore)
  : outcome Infallible TransactionStore :=
  let '(gc_txns, active) :=
    ttl_index_gc now (if by_system_ttl then system_ttl_index s else expiration_time_index s) in
  let s := set_indexes (priority_index s)
             (if by_system_ttl then expiration_time_index s else active)
             (if by_system_ttl then active else system_ttl_index s)
             (timeline_index s) (parking_lot_index s) (hash_index s) (size_bytes s) s in
  gc_loop (merge_sort gc_key_le gc_txns) s.
Definition gc_by_system_ttl (gc_time : Duration) (s : TransactionStore)
  : outcome Infallible TransactionStore := store_gc gc_time true s.
Definition store_gc_by_expiration_time (block_time : Duration) (s : TransactionStore)
  : outcome Infallible TransactionStore := store_gc block_time false s.

(** ** Reading the timelines *)

(** One bucket, of index [i]: the batch, its bytes and the last ids. A transaction that does not
    fit ends the bucket, not the read. *)
Fixpoint read_bucket (s : TransactionStore) (i : nat) (bucket : list (AccountAddress * N))
    (batch : list SignedTransaction) (batch_total_bytes : N) (last_timeline_id : list N)
  : outcome Infallible (list SignedTransaction * N * list N) :=
  match bucket with
  | [] => Ok (batch, batch_total_bytes, last_timeline_id)
  | (address, sequence_number) :: rest =>
      match get_mempool_txn s address sequence_number with
      | Some t =>
          let transaction_bytes := raw_txn_bytes_len (txn t) in
          let total := u64_saturating_add batch_total_bytes transaction_bytes in
          if max_batch_bytes s <? total then Ok (batch, batch_total_bytes, last_timeline_id)
          else
            last_timeline_id ← (match timeline_state t with
                                | Ready timeline_id =>
                                    _ ← expect (last_timeline_id !! i);
                                    Ok (<[i := timeline_id]> last_timeline_id)
                                | _ => Ok last_timeline_id
                                end);
            read_bucket s i rest (batch ++ [txn t]) total last_timeline_id
      | None => read_bucket s i rest batch batch_total_bytes last_timeline_id
      end
  end.
(** The buckets from the last to the first, each with its index *)
Fixpoint read_buckets (s : TransactionStore) (buckets : list (nat * list (AccountAddress * N)))
    (batch : list SignedTransaction) (batch_total_bytes : N) (last_timeline_id : list N)
  : outcome Infallible (list SignedTransaction * list N) :=
  match buckets with
  | [] => Ok (batch, last_timeline_id)
  | (i, bucket) :: rest =>
      '(batch, batch_total_bytes, last_timeline_id) ←
        read_bucket s i bucket batch batch_total_bytes last_timeline_id;
      read_buckets s rest batch batch_total_bytes last_timeline_id
  end.
Definition store_read_timeline (timeline_id : list N) (count : N) (s : TransactionStore)
  : outcome Infallible (list SignedTransaction * list N) :=
  buckets ← multi_bucket_read_timeline (timeline_index s) timeline_id count;
  read_buckets s (reverse (zip (seq 0 (length buckets)) buckets)) [] 0 timeline_id.

Definition store_timeline_range (start_end_pairs : list (N * N)) (s : TransactionStore)
  : outcome Infallible (list SignedTransaction) :=
  ptrs ← multi_bucket_timeline_range (timeline_index s) start_end_pairs;
  Ok (omap (M := list) (λ '(account, sequence_number), store_get s account sequence_number) ptrs).

Definition iter_queue (s : TransactionStore) : list OrderedQueueKey :=
  priority_index_iter (priority_index s).

(** ** [Mempool] *)
Record Mempool := mkMempool {
  mp_transactions : TransactionStore;
  mp_system_transaction_timeout : Duration;
}.
Definition with_store (m : Mempool) (s : TransactionStore) : Mempool :=
  {| mp_transactions := s; mp_system_transaction_timeout := mp_system_transaction_timeout m |}.

Definition mempool_new (config : MempoolConfig) : outcome Infallible Mempool :=
  s ← transaction_store_new config;
  Ok {| mp_transactions := s;
        mp_system_transaction_timeout := duration_from_secs (cfg_system_transaction_timeout_secs config) |}.
Definition commit_transaction (sender : AccountAddress) (sequence_number : N) (m : Mempool)
  : outcome Infallible Mempool :=
  with_store m <$> store_commit_transaction sender sequence_number (mp_transactions m).
Definition reject_transaction (sender : AccountAddress) (sequence_number : N) (hash : HashValue)
    (m : Mempool) : outcome Infallible Mempool :=
  with_store m <$> store_reject_transaction sender sequence_number hash (mp_transactions m).
Definition get_by_hash (hash : HashValue) (m : Mempool) : option SignedTransaction :=
  store_get_by_hash (mp_transactions m) hash.

Definition add_txn (now : Duration) (rng : nat) (t : SignedTransaction) (ranking_score : N)
    (sequence_info : AccountSequenceInfo) (timeline_state : TimelineState) (m : Mempool)
  : outcome Infallible (MempoolStatusCode * Mempool) :=
  let db_sequence_number := min_seq sequence_info in
  if sequence_number t <? db_sequence_number then Ok (InvalidSeqNumber, m)
  else
    expiration_time ← duration_add now (mp_system_transaction_timeout m);
    let txn_info := mempool_transaction_new t expiration_time ranking_score timeline_state
                      (Sequential db_sequence_number) now in
    '(status, s) ← store_insert rng txn_info (mp_transactions m);
    Ok (status, with_store m s).

(** *** Taking a block *)

(** [seen], [skipped] and [result]; [true] in the result of a step is a [break] of the main loop. *)
Record BatchLoop := mkBatchLoop {
  bl_seen : gset (AccountAddress * N);
  bl_skipped : gset (AccountAddress * N);
  bl_result : list (AccountAddress * N);
}.
Definition batch_push (ptr : AccountAddress * N) (b : BatchLoop) : BatchLoop :=
  {| bl_seen := {[ptr]} ∪ bl_seen b;
     bl_skipped := bl_skipped b;
     bl_result := bl_result b ++ [ptr] |}.
Fixpoint skipped_loop (fuel : nat) (max_txns : N) (address : AccountAddress) (seq : N)
    (b : BatchLoop) : outcome Infallible (bool * BatchLoop) :=
  match fuel with
  | O => Panic
  | S fuel =>
      if decide ((address, seq) ∈ bl_skipped b) then
        let b := batch_push (address, seq) b in
        if lenN (bl_result b) =? max_txns then Ok (true, b)
        else next ← u64_add seq 1; skipped_loop fuel max_txns address next b
      else Ok (false, b)
  end.
Definition batch_step (s : TransactionStore) (max_txns : N) (key : OrderedQueueKey) (b : BatchLoop)
  : outcome Infallible (bool * BatchLoop) :=
  let ptr := oq_pointer key in
  if decide (ptr ∈ bl_seen b) then Ok (false, b)
  else
    let tx_seq := oq_txn_seq key in
    let account_sequence_number := get_sequence_number s (oq_address key) in
    let seen_previous := (0 <? tx_seq) && bool_decide ((oq_address key, tx_seq - 1) ∈ bl_seen b) in
    if seen_previous || bool_decide (account_sequence_number = Some tx_seq) then
      let b := batch_push ptr b in
      if lenN (bl_result b) =? max_txns then Ok (true, b)
      else
        next ← u64_add tx_seq 1;
        skipped_loop (S (size (bl_skipped b))) max_txns (oq_address key) next b
    else
      Ok (false, {| bl_seen := bl_seen b; bl_skipped := {[ptr]} ∪ bl_skipped b;
                    bl_result := bl_result b |}).
Fixpoint batch_loop (s : TransactionStore) (max_txns : N) (queue : list OrderedQueueKey)
    (b : BatchLoop) : outcome Infallible BatchLoop :=
  match queue with
  | [] => Ok b
  | key :: queue =>
      '(stop, b) ← batch_step s max_txns key b;
      if stop : bool then Ok b else batch_loop s max_txns queue b
  end.
Fixpoint block_loop (s : TransactionStore) (max_bytes : N) (result : list (AccountAddress * N))
    (total_bytes : N) (block : list SignedTransaction) : outcome Infallible (list SignedTransaction) :=
  match result with
  | [] => Ok block
  | (address, seq) :: result =>
      match get_with_ranking_score s address seq with
      | Some (t, _) =>
          total ← u64_add total_bytes (raw_txn_bytes_len t);
          if max_bytes <? total then Ok block
          else block_loop s max_bytes result total (block ++ [t])
      | None => block_loop s max_bytes result total_bytes block
      end
  end.
Definition get_batch (max_txns max_bytes : N) (seen : gset (AccountAddress * N)) (m : Mempool)
  : outcome Infallible (list SignedTransaction) :=
  let s := mp_transactions m in
  b ← batch_loop s max_txns (iter_queue s) {| bl_seen := seen; bl_skipped := ∅; bl_result := [] |};
  block_loop s max_bytes (bl_result b) 0 [].

Definition mempool_gc (now : Duration) (m : Mempool) : outcome Infallible Mempool :=
  with_store m <$> gc_by_system_ttl now (mp_transactions m).
Definition gc_by_expiration_time (block_time : Duration) (m : Mempool) : outcome Infallible Mempool :=
  with_store m <$> store_gc_by_expiration_time block_time (mp_transactions m).
Definition read_timeline (timeline_id : list N) (count : N) (m : Mempool)
  : outcome Infallible (list SignedTransaction * list N) :=
  store_read_timeline timeline_id count (mp_transactions m).
Definition timeline_range (start_end_pairs : list (N * N)) (m : Mempool)
  : outcome Infallible (list SignedTransaction) :=
  store_timeline_range start_end_pairs (mp_transactions m).
End store.
