(* ===== verification/MempoolInv.v ===== *)
(** * Mempool: the indexes agree with the store

    [indexed] says that every index of a store has exactly what its transactions ask for;
    [store_inv] adds what holds between operations: accounts without transactions are forgotten, the
    transactions that follow an account's sequence number without a gap are in the priority
    queue, every transaction is either there or parked, and the capacities are respected. Each
    operation of the store preserves it and never panics. *)
From S2P Require Import Prelude Crypto BTree MempoolIndex MempoolStore.
Local Open Scope N_scope.

(** ** Sums over finite maps *)
Definition map_sum `{Countable K} {A} (f : A → N) (m : gmap K A) : N :=
  map_fold (λ _ x acc, f x + acc) 0 m.
Lemma map_sum_insert `{Countable K} {A} (f : A → N) (m : gmap K A) i x :
  m !! i = None → map_sum f (<[i := x]> m) = f x + map_sum f m.
Proof. intros Hi. unfold map_sum. rewrite map_fold_insert_L; [done| |done]. intros. lia. Qed.
Lemma map_sum_delete `{Countable K} {A} (f : A → N) (m : gmap K A) i x :
  m !! i = Some x → map_sum f m = f x + map_sum f (delete i m).
Proof.
  intros Hi. rewrite <- (insert_delete_id m i x) at 1 by done.
  apply map_sum_insert, lookup_delete_eq.
Qed.
Lemma map_sum_update `{Countable K} {A} (f : A → N) (m : gmap K A) i x y :
  m !! i = Some x → f y = f x → map_sum f (<[i := y]> m) = map_sum f m.
Proof.
  intros Hi Hf. rewrite (map_sum_delete f m i x) by done. rewrite <- insert_delete_eq, map_sum_insert; [lia|].
  apply lookup_delete_eq.
Qed.

Lemma and_iff_strong (P Q R : Prop) : (P → Q ↔ R) → P ∧ Q ↔ P ∧ R.
Proof. naive_solver. Qed.

(** The transactions that clients submit: no two of them have the same hash, the prologue of the
    virtual machine refuses the greatest sequence number, and none needs more than [max_bytes]. *)
Class Workload `{TransactionEncoding} := {
  legit : SignedTransaction → Prop;
  max_bytes : N;
  legit_inj x y : legit x → legit y → committed_hash x = committed_hash y → x = y;
  legit_seq x : legit x → sequence_number x < U64_MAX;
  legit_bytes x : legit x →
    raw_txn_bytes_len x + TXN_FIXED_ESTIMATED_BYTES + TXN_INDEX_ESTIMATED_BYTES <= max_bytes;
}.

Section inv.
Context `{!TransactionTypes, !TransactionEncoding, !Workload}.
Abbreviation ptr := (AccountAddress * N)%type (only parsing).
Implicit Types (s : TransactionStore) (t : MempoolTransaction) (G : gmap ptr MempoolTransaction).

(** All transactions of the store, by pointer *)
Definition contents s : gmap ptr MempoolTransaction :=
  map_uncurry (K1 := N) (K2 := N) (M1 := gmap N) (M2 := gmap N) (M12 := gmap (N * N)) (transactions s).
Lemma contents_lookup s a n : contents s !! (a, n) = get_mempool_txn s a n.
Proof. unfold contents. by rewrite lookup_map_uncurry. Qed.

(** [l] has the keys of the transactions that expire no sooner than [from]. *)
Definition ttl_ok (get : MempoolTransaction → Duration) (from : Duration) G (l : list TTLOrderingKey) : Prop :=
  bset_wf l ∧
  ∀ k, k ∈ l ↔ ∃ p t, G !! p = Some t ∧ from <= get t ∧ k = ttl_make_key get t.

Definition is_ready t : Prop := ∃ id, timeline_state t = Ready id.

(** The time-to-live indexes lack what expires before [ls] and [le]: while expired transactions
    are collected, their keys leave one of the indexes first. *)
Record indexed (ls le : Duration) G s : Prop := {
  ix_txn a n t : G !! (a, n) = Some t →
    get_sender t = a ∧ txn_seq t = n ∧ sequence_number (txn t) = n ∧ legit (txn t);
  ix_system : ttl_ok system_expiration ls G (system_ttl_index s);
  ix_client : ttl_ok client_expiration le G (expiration_time_index s);
  ix_priority_wf : bset_wf (priority_index s);
  ix_priority k : k ∈ priority_index s → ∃ p t, G !! p = Some t ∧ k = priority_make_key t;
  ix_mb_wf : mb_wf (timeline_index s);
  ix_timeline b id p : timeline_at (timeline_index s) b !! id = Some p ↔
    ∃ t, G !! p = Some t ∧ timeline_state t = Ready id ∧
         bucket_of (mb_bucket_mins (timeline_index s)) (ranking_score t) = b;
  ix_next b id p : timeline_at (timeline_index s) b !! id = Some p → id < next_id (timeline_index s) b;
  ix_parking_wf : pl_wf (parking_lot_index s);
  ix_parked a n : parked (parking_lot_index s) a n → ∃ t, G !! (a, n) = Some t ∧ ¬ is_ready t;
  ix_ready p t : G !! p = Some t → is_ready t → priority_make_key t ∈ priority_index s;
  ix_not_ready p t : G !! p = Some t → timeline_state t = NotReady →
    priority_make_key t ∉ priority_index s;
  ix_hash h p : hash_index s !! h = Some p ↔ ∃ t, G !! p = Some t ∧ get_committed_hash t = h;
  ix_bytes : size_bytes s = map_sum get_estimated_bytes G;
}.

(** ** Keys determine transactions *)
Lemma ix_pointer ls le G s p t : indexed ls le G s → G !! p = Some t → txn_pointer t = p.
Proof. destruct p as [a n]. intros Hix Ht. by destruct (ix_txn _ _ _ _ Hix _ _ _ Ht) as (<- & <- & _). Qed.
Lemma ix_priority_key ls le G s p q t t' :
  indexed ls le G s → G !! p = Some t → G !! q = Some t' →
  cmp (priority_make_key t) (priority_make_key t') = Eq → p = q.
Proof.
  intros Hix Ht Ht' (_ & _ & Hp)%ordered_queue_eq.
  apply (ix_pointer _ _ _ _ _ _ Hix) in Ht as <-. by apply (ix_pointer _ _ _ _ _ _ Hix) in Ht' as <-.
Qed.
Lemma ix_ttl_key ls le G s get p q t t' :
  indexed ls le G s → G !! p = Some t → G !! q = Some t' →
  ttl_make_key get t = ttl_make_key get t' → p = q.
Proof.
  intros Hix Ht Ht' [= _ Hs Hq].
  apply (ix_pointer _ _ _ _ _ _ Hix) in Ht as <-. apply (ix_pointer _ _ _ _ _ _ Hix) in Ht' as <-.
  unfold txn_pointer. congruence.
Qed.
Lemma ix_hash_key ls le G s p q t t' :
  indexed ls le G s → G !! p = Some t → G !! q = Some t' →
  get_committed_hash t = get_committed_hash t' → p = q.
Proof.
  destruct p as [a n], q as [a' n']. intros Hix Ht Ht' Hh.
  destruct (ix_txn _ _ _ _ Hix _ _ _ Ht) as (<- & _ & <- & Hl).
  destruct (ix_txn _ _ _ _ Hix _ _ _ Ht') as (<- & _ & <- & Hl').
  unfold get_sender. by rewrite (legit_inj _ _ Hl Hl' Hh).
Qed.

(** ** The sizes of the indexes *)
Lemma ix_ttl_count ls le G s get l :
  indexed ls le G s → ttl_ok get 0 G l → ttl_index_size l = N.of_nat (size G).
Proof.
  intros Hix [Hwf Hk]. unfold ttl_index_size, lenN. f_equal.
  rewrite <- length_map_to_list, <- (length_fmap (λ x, ttl_make_key get x.2) (map_to_list G)).
  apply Permutation_length, NoDup_Permutation.
  - by apply bset_NoDup.
  - apply NoDup_fmap_2_strong; [|apply NoDup_map_to_list].
    intros [p t] [q t'] Hp%elem_of_map_to_list Hq%elem_of_map_to_list Heq. cbn in *.
    pose proof (ix_ttl_key _ _ _ _ _ _ _ _ _ Hix Hp Hq Heq) as <-. rewrite Hp in Hq. by simplify_eq.
  - intros k. rewrite Hk, list_elem_of_fmap. split.
    + intros (p & t & Ht & _ & ->). exists (p, t). split; [done|]. by apply elem_of_map_to_list.
    + intros ([p t] & -> & Ht%elem_of_map_to_list). exists p, t. split_and!; [done|lia|done].
Qed.
(** The number of transactions is the size of the index that [is_full] reads. *)
Lemma ix_count le G s : indexed 0 le G s → ttl_index_size (system_ttl_index s) = N.of_nat (size G).
Proof. intros Hix. eapply ix_ttl_count; [done|apply Hix]. Qed.
Lemma ix_priority_count ls le G s :
  indexed ls le G s → priority_index_size (priority_index s) <= N.of_nat (size G).
Proof.
  intros Hix. unfold priority_index_size, lenN. rewrite <- length_map_to_list.
  rewrite <- (length_fmap (λ x, priority_make_key x.2) (map_to_list G)).
  enough (length (priority_index s) ≤ length ((λ x, priority_make_key x.2) <$> map_to_list G))%nat by lia.
  apply submseteq_length, NoDup_submseteq; [apply bset_NoDup, Hix|].
  intros k (p & t & Ht & ->)%(ix_priority _ _ _ _ Hix). apply list_elem_of_fmap.
  exists (p, t). split; [done|]. by apply elem_of_map_to_list.
Qed.
Lemma ix_hash_count ls le G s : indexed ls le G s → size (hash_index s) = size G.
Proof.
  intros Hix. rewrite <- !length_map_to_list.
  rewrite <- (length_fmap (λ x, (get_committed_hash x.2, x.1)) (map_to_list G)).
  apply Permutation_length, NoDup_Permutation; [apply NoDup_map_to_list| |].
  - apply NoDup_fmap_2_strong; [|apply NoDup_map_to_list].
    intros [p t] [q t'] Hp%elem_of_map_to_list Hq%elem_of_map_to_list [= Heq ->]. rewrite Hp in Hq. by simplify_eq.
  - intros [h p]. rewrite elem_of_map_to_list, (ix_hash _ _ _ _ Hix), list_elem_of_fmap. split.
    + intros (t & Ht & <-). exists (p, t). split; [done|]. by apply elem_of_map_to_list.
    + intros ([q t] & [= -> ->] & Ht%elem_of_map_to_list). eauto.
Qed.
Lemma ix_parked_in ls le G s a n :
  indexed ls le G s → parked (parking_lot_index s) a n → (a, n) ∈ (map_to_list G).*1.
Proof.
  intros Hix (t & Ht & _)%(ix_parked _ _ _ _ Hix). apply list_elem_of_fmap.
  exists ((a, n), t). split; [done|]. by apply elem_of_map_to_list.
Qed.
Lemma pointers_length G : lenN ((map_to_list G).*1) = N.of_nat (size G).
Proof. unfold lenN. by rewrite length_fmap, length_map_to_list. Qed.
Lemma ix_parking_count ls le G s :
  indexed ls le G s → parking_lot_size (parking_lot_index s) <= N.of_nat (size G).
Proof.
  intros Hix. rewrite <- pointers_length. apply pl_size_le; [apply Hix|].
  intros a n. by eapply ix_parked_in.
Qed.

(** ** Changing the place of one transaction

    Between the priority queue, the timelines and the parking lot; nothing else about it changes. *)
Lemma ttl_ok_update get from G l p t t' :
  ttl_ok get from G l → G !! p = Some t → ttl_make_key get t' = ttl_make_key get t →
  ttl_ok get from (<[p := t']> G) l.
Proof.
  intros [Hwf Hk] Ht Hkey. pose proof (f_equal ttl_expiration_time Hkey : get t' = get t) as Hget.
  split; [done|]. intros k. rewrite Hk. split.
  - intros (q & x & Hx & Hfrom & ->). destruct (decide (q = p)) as [->|].
    + rewrite Ht in Hx. injection Hx as <-. exists p, t'. rewrite lookup_insert_eq, Hget, Hkey. done.
    + exists q, x. by rewrite lookup_insert_ne.
  - intros (q & x & [[<- <-]|[? Hx]]%lookup_insert_Some & Hfrom & ->).
    + exists p, t. by rewrite <- Hget, Hkey.
    + by exists q, x.
Qed.

Lemma indexed_move ls le G s a n t st priority timeline parking (inp isp : Prop) :
  indexed ls le G s → G !! (a, n) = Some t →
  bset_wf priority →
  (∀ k, k ∈ priority ↔ if decide (oq_pointer k = (a, n)) then inp ∧ k = priority_make_key t
                       else k ∈ priority_index s) →
  mb_wf timeline → mb_bucket_mins timeline = mb_bucket_mins (timeline_index s) →
  (∀ b id p, timeline_at timeline b !! id = Some p ↔
     if decide (p = (a, n)) then st = Ready id ∧ bucket_of (mb_bucket_mins timeline) (ranking_score t) = b
     else timeline_at (timeline_index s) b !! id = Some p) →
  (∀ b id p, timeline_at timeline b !! id = Some p → id < next_id timeline b) →
  pl_wf parking →
  (∀ a' n', parked parking a' n' ↔ if decide ((a', n') = (a, n)) then isp
                                   else parked (parking_lot_index s) a' n') →
  ((∃ id, st = Ready id) → inp ∧ ¬ isp) → (st = NotReady → ¬ inp) →
  indexed ls le (<[(a, n) := set_timeline_state st t]> G)
    (set_indexes priority (expiration_time_index s) (system_ttl_index s) timeline parking
       (hash_index s) (size_bytes s) s).
Proof.
  intros Hix Ht Hpwf Hp Hmb Hmins Htl Hnext Hpl Hpark Hready Hnot.
  pose proof (ix_pointer _ _ _ _ _ _ Hix Ht) as Hptr.
  split; cbn; rewrite ?Hmins in *.
  - intros a' n' x [[[= <- <-] <-]|[_ Hx]]%lookup_insert_Some.
    + apply (ix_txn _ _ _ _ Hix _ _ _ Ht).
    + apply (ix_txn _ _ _ _ Hix _ _ _ Hx).
  - eapply ttl_ok_update; [apply Hix|done|done].
  - eapply ttl_ok_update; [apply Hix|done|done].
  - done.
  - intros k. rewrite Hp. case_decide as Hk.
    + intros [_ ->]. exists (a, n), (set_timeline_state st t). by rewrite lookup_insert_eq.
    + intros (q & x & Hx & ->)%(ix_priority _ _ _ _ Hix). exists q, x. split; [|done].
      rewrite lookup_insert_ne; [done|]. intros <-.
      by pose proof (ix_pointer _ _ _ _ _ _ Hix Hx).
  - done.
  - intros b id p. rewrite Htl. case_decide as Hpn.
    + subst p. rewrite lookup_insert_eq. split; [intros [-> <-]; eexists; done|].
      intros (x & [= <-] & ? & <-). done.
    + rewrite lookup_insert_ne by done. apply Hix.
  - done.
  - done.
  - intros a' n'. rewrite Hpark. case_decide as Hpn.
    + injection Hpn as -> ->. intros Hi. rewrite lookup_insert_eq. eexists. split; [done|].
      intros [id Hid]. destruct Hready as [_ ?]; [by exists id|done].
    + rewrite lookup_insert_ne by done. apply Hix.
  - intros p x [[<- <-]|[Hne Hx]]%lookup_insert_Some Hr.
    + destruct Hready as [Hi _]; [done|]. apply Hp. rewrite decide_True by done. done.
    + apply Hp. rewrite decide_False; [by eapply ix_ready|].
      change (txn_pointer x ≠ (a, n)). by rewrite (ix_pointer _ _ _ _ _ _ Hix Hx).
  - intros p x [[<- <-]|[Hne Hx]]%lookup_insert_Some Hst; rewrite Hp.
    + rewrite decide_True by done. naive_solver.
    + rewrite decide_False; [by eapply ix_not_ready|].
      change (txn_pointer x ≠ (a, n)). by rewrite (ix_pointer _ _ _ _ _ _ Hix Hx).
  - intros h p. rewrite (ix_hash _ _ _ _ Hix). split; intros (x & Hx & Hh).
    + destruct (decide (p = (a, n))) as [->|].
      * rewrite Ht in Hx. simplify_eq. eexists. by rewrite lookup_insert_eq.
      * exists x. by rewrite lookup_insert_ne.
    + apply lookup_insert_Some in Hx as [[<- <-]|[? Hx]]; eauto.
  - rewrite (ix_bytes _ _ _ _ Hix). symmetry. by apply (map_sum_update _ _ _ t).
Qed.

(** The indexes do not see the main map. *)
Definition same_indexes s s' : Prop :=
  priority_index s' = priority_index s ∧ expiration_time_index s' = expiration_time_index s ∧
  system_ttl_index s' = system_ttl_index s ∧ timeline_index s' = timeline_index s ∧
  parking_lot_index s' = parking_lot_index s ∧ hash_index s' = hash_index s ∧
  size_bytes s' = size_bytes s.
Lemma indexed_ext ls le G s s' : same_indexes s s' → indexed ls le G s → indexed ls le G s'.
Proof.
  intros (E1 & E2 & E3 & E4 & E5 & E6 & E7) []. split; rewrite ?E1, ?E2, ?E3, ?E4, ?E5, ?E6, ?E7; done.
Qed.
(** The configuration never changes, and the timelines only go on. *)
Definition evolves s s' : Prop :=
  capacity s' = capacity s ∧ capacity_bytes s' = capacity_bytes s ∧
  capacity_per_user s' = capacity_per_user s ∧ max_batch_bytes s' = max_batch_bytes s ∧
  mb_evolves (timeline_index s) (timeline_index s').
#[export] Instance evolves_preorder : PreOrder evolves.
Proof.
  split; [done|]. intros s1 s2 s3 (A1 & A2 & A3 & A4 & A5) (B1 & B2 & B3 & B4 & B5).
  unfold evolves. split_and!; [congruence..|by etrans].
Qed.

(** ** Removing a transaction from the indexes *)
Lemma ttl_ok_remove ls le G s get from l p t :
  indexed ls le G s → ttl_ok get from G l → G !! p = Some t →
  ttl_ok get from (delete p G) (ttl_index_remove get t l).
Proof.
  intros Hix [Hwf Hk] Ht. split; [by apply bset_remove_wf|]. intros k. unfold ttl_index_remove.
  rewrite elem_of_bset_remove_strict, Hk by done. split.
  - intros ((q & x & Hx & Hfrom & ->) & Hne). exists q, x. split; [|done].
    rewrite lookup_delete_ne; [done|]. intros <-. rewrite Ht in Hx. by simplify_eq.
  - intros (q & x & [Hpq Hx]%lookup_delete_Some & Hfrom & ->). split; [by exists q, x|].
    intros Heq. by pose proof (ix_ttl_key _ _ _ _ _ _ _ _ _ Hix Hx Ht Heq).
Qed.
Lemma priority_remove_elem ls le G s p t k :
  indexed ls le G s → G !! p = Some t →
  k ∈ priority_index_remove t (priority_index s) ↔ k ∈ priority_index s ∧ oq_pointer k ≠ p.
Proof.
  intros Hix Ht. unfold priority_index_remove.
  rewrite elem_of_bset_remove by apply Hix. apply and_iff_strong.
  intros (q & x & Hx & ->)%(ix_priority _ _ _ _ Hix).
  change (oq_pointer (priority_make_key x)) with (txn_pointer x).
  rewrite (ix_pointer _ _ _ _ _ _ Hix Hx). split.
  - intros Hc ->. rewrite Hx in Ht. simplify_eq. by rewrite cmp_refl in Hc.
  - intros Hne Hc. by pose proof (ix_priority_key _ _ _ _ _ _ _ _ Hix Ht Hx Hc).
Qed.

Lemma timeline_remove_ok ls le G s p t i' :
  indexed ls le G s → G !! p = Some t →
  (∀ c, timeline_at i' c =
        match timeline_state t with
        | Ready id => if decide (c = bucket_of (mb_bucket_mins (timeline_index s)) (ranking_score t))
                      then delete id (timeline_at (timeline_index s) c)
                      else timeline_at (timeline_index s) c
        | _ => timeline_at (timeline_index s) c
        end) →
  ∀ b id q, timeline_at i' b !! id = Some q ↔ q ≠ p ∧ timeline_at (timeline_index s) b !! id = Some q.
Proof.
  intros Hix Ht Hi' b id q. rewrite Hi'. clear Hi'.
  assert (timeline_at (timeline_index s) b !! id = Some p ↔
    timeline_state t = Ready id ∧ bucket_of (mb_bucket_mins (timeline_index s)) (ranking_score t) = b) as Hp.
  { rewrite (ix_timeline _ _ _ _ Hix). split; [|by eauto]. intros (x & Hx & ?). rewrite Ht in Hx. by simplify_eq. }
  destruct (timeline_state t) as [id'| |] eqn:Hst.
  - case_decide as Hb.
    + rewrite lookup_delete_Some. split.
      * intros [Hid Hq]. split; [|done]. intros ->. apply Hp in Hq. naive_solver.
      * intros [Hq Hq']. split; [|done]. intros ->.
        assert (timeline_at (timeline_index s) b !! id = Some p) by (apply Hp; done). congruence.
    + split; [|naive_solver]. intros Hq. split; [|done]. intros ->. apply Hp in Hq. naive_solver.
  - split; [|naive_solver]. intros Hq. split; [|done]. intros ->. apply Hp in Hq. naive_solver.
  - split; [|naive_solver]. intros Hq. split; [|done]. intros ->. apply Hp in Hq. naive_solver.
Qed.

Lemma index_remove_ok ls le G s a n t :
  indexed ls le G s → G !! (a, n) = Some t →
  ∃ s', index_remove t s = Ok s' ∧ indexed ls le (delete (a, n) G) s' ∧ evolves s s' ∧
    (∀ k, k ∈ priority_index s' ↔ k ∈ priority_index s ∧ oq_pointer k ≠ (a, n)) ∧
    (∀ a' n', parked (parking_lot_index s') a' n' ↔ parked (parking_lot_index s) a' n' ∧ (a', n') ≠ (a, n)) ∧
    (∀ b, next_id (timeline_index s') b = next_id (timeline_index s) b) ∧
    (transactions s !! a = Some ∅ → transactions s' = delete a (transactions s) ∧
       sequence_numbers s' = delete a (sequence_numbers s)) ∧
    (transactions s !! a ≠ Some ∅ → transactions s' = transactions s ∧
       sequence_numbers s' = sequence_numbers s).
Proof.
  intros Hix Ht. destruct (ix_txn _ _ _ _ Hix _ _ _ Ht) as (Ha & Hn & Hn' & Hl).
  unfold index_remove.
  destruct (multi_bucket_remove_ok (timeline_index s) t) as (tl & -> & Htl & Hmins & Hat & Hnext); [apply Hix|].
  destruct (parking_lot_remove_ok (parking_lot_index s) t) as (pl & -> & Hpl & Hparked); [apply Hix|].
  fold (get_sender t) in Hparked. rewrite Ha, Hn' in Hparked.
  pose proof (map_sum_delete get_estimated_bytes _ _ _ Ht) as Hsum. rewrite <- (ix_bytes _ _ _ _ Hix) in Hsum.
  unfold u64_sub, u64_checked_sub. destruct (N.leb_spec (get_estimated_bytes t) (size_bytes s)); [|lia].
  run_ok. rewrite Ha.
  set (s1 := set_indexes _ _ _ _ _ _ _ _).
  assert (indexed ls le (delete (a, n) G) s1) as Hix1.
  { pose proof (timeline_remove_ok _ _ _ _ _ _ tl Hix Ht) as Htl'.
    assert (∀ b id q, timeline_at tl b !! id = Some q ↔
      q ≠ (a, n) ∧ timeline_at (timeline_index s) b !! id = Some q) as Hq.
    { apply Htl'. intros c. rewrite Hat. repeat case_match; by subst. }
    split; cbn; rewrite ?Hmins.
    - intros a' n' x [_ Hx]%lookup_delete_Some. by apply (ix_txn _ _ _ _ Hix).
    - by eapply ttl_ok_remove; [..|apply Hix|].
    - by eapply ttl_ok_remove; [..|apply Hix|].
    - apply bset_remove_wf, Hix.
    - intros k. rewrite priority_remove_elem by done. intros [(q & x & Hx & ->)%(ix_priority _ _ _ _ Hix) Hk].
      exists q, x. split; [|done]. rewrite lookup_delete_ne; [done|]. intros <-. apply Hk.
      by apply (ix_pointer _ _ _ _ _ _ Hix).
    - done.
    - intros b id q. rewrite Hq, (ix_timeline _ _ _ _ Hix). setoid_rewrite lookup_delete_Some. naive_solver.
    - intros b id q [_ Hb]%Hq. rewrite Hnext. by eapply ix_next.
    - done.
    - intros a' n' [(x & Hx & Hr)%(ix_parked _ _ _ _ Hix) Hne]%Hparked. exists x. split; [|done].
      by rewrite lookup_delete_ne.
    - intros p x [Hne Hx]%lookup_delete_Some Hr. rewrite priority_remove_elem by done.
      split; [by eapply ix_ready|]. change (txn_pointer x ≠ (a, n)). by rewrite (ix_pointer _ _ _ _ _ _ Hix Hx).
    - intros p x [Hne Hx]%lookup_delete_Some Hst. rewrite priority_remove_elem by done.
      intros [Hin _]. by eapply ix_not_ready.
    - intros h p. rewrite lookup_delete_Some, (ix_hash _ _ _ _ Hix). split.
      + intros (Hh & x & Hx & <-). exists x. split; [|done]. rewrite lookup_delete_ne; [done|].
        intros <-. rewrite Ht in Hx. by simplify_eq.
      + intros (x & [Hne Hx]%lookup_delete_Some & <-). split; [|by eauto]. intros Hh.
        by pose proof (ix_hash_key _ _ _ _ _ _ _ _ Hix Ht Hx Hh).
    - lia. }
  assert (∀ k, k ∈ priority_index s1 ↔ k ∈ priority_index s ∧ oq_pointer k ≠ (a, n)) as Hprio
    by (intros k; by apply (priority_remove_elem ls le G)).
  assert (evolves s s1) as Hcfg
    by (unfold evolves; split_and!; [done..|by eapply multi_bucket_remove_evolves]).
  destruct (transactions s1 !! a) as [m|] eqn:Hm; [destruct (decide (m = ∅)) as [->|Hne]|].
  - eexists. split; [done|]. split_and!; try done. by apply (indexed_ext _ _ _ s1).
  - exists s1. split_and!; try done. intros Hm'. change (transactions s1 !! a = Some ∅) in Hm'. congruence.
  - exists s1. split_and!; try done. intros Hm'. change (transactions s1 !! a = Some ∅) in Hm'. congruence.
Qed.

(** ** Adding a transaction to the indexes *)
Lemma ttl_ok_insert get G l p t :
  ttl_ok get 0 G l → G !! p = None → ttl_ok get 0 (<[p := t]> G) (ttl_index_insert get t l).
Proof.
  intros [Hwf Hk] Hp. split; [by apply bset_insert_wf|]. intros k. unfold ttl_index_insert.
  rewrite elem_of_bset_insert_strict, Hk by done. split.
  - intros [->|(q & x & Hx & Hfrom & ->)].
    + exists p, t. rewrite lookup_insert_eq. split_and!; [done|lia|done].
    + exists q, x. rewrite lookup_insert_ne; [done|]. intros <-. congruence.
  - intros (q & x & [[<- <-]|[? Hx]]%lookup_insert_Some & Hfrom & ->); [by left|]. right. by exists q, x.
Qed.
Lemma indexed_fresh G s a n t :
  indexed 0 0 G s → G !! (a, n) = None →
  get_sender t = a → txn_seq t = n → sequence_number (txn t) = n → legit (txn t) → ¬ is_ready t →
  indexed 0 0 (<[(a, n) := t]> G)
    (set_indexes (priority_index s) (ttl_index_insert client_expiration t (expiration_time_index s))
       (ttl_index_insert system_expiration t (system_ttl_index s)) (timeline_index s)
       (parking_lot_index s) (<[get_committed_hash t := (a, n)]> (hash_index s))
       (size_bytes s + get_estimated_bytes t) s).
Proof.
  intros Hix Hfree Ha Hn Hn' Hl Hnr.
  assert (∀ p x, G !! p = Some x → p ≠ (a, n)) as Hne by (intros p x Hx ->; congruence).
  assert (∀ k, k ∈ priority_index s → oq_pointer k ≠ (a, n)) as Hk.
  { intros k (p & x & Hx & ->)%(ix_priority _ _ _ _ Hix). change (txn_pointer x ≠ (a, n)).
    rewrite (ix_pointer _ _ _ _ _ _ Hix Hx). by eapply Hne. }
  split; cbn.
  - intros a' n' x [[[= <- <-] <-]|[_ Hx]]%lookup_insert_Some; [done|]. by apply (ix_txn _ _ _ _ Hix).
  - apply ttl_ok_insert; [apply Hix|done].
  - apply ttl_ok_insert; [apply Hix|done].
  - apply Hix.
  - intros k (p & x & Hx & ->)%(ix_priority _ _ _ _ Hix). exists p, x. split; [|done].
    rewrite lookup_insert_ne; [done|]. apply not_eq_sym. by eapply Hne.
  - apply Hix.
  - intros b id p. rewrite (ix_timeline _ _ _ _ Hix). split; intros (x & Hx & Hst & Hb).
    + exists x. rewrite lookup_insert_ne; [done|]. apply not_eq_sym. by eapply Hne.
    + apply lookup_insert_Some in Hx as [[<- <-]|[_ Hx]]; [|by eauto]. destruct Hnr. by exists id.
  - apply Hix.
  - apply Hix.
  - intros a' n' (x & Hx & Hr)%(ix_parked _ _ _ _ Hix). exists x. split; [|done].
    rewrite lookup_insert_ne; [done|]. apply not_eq_sym. by eapply Hne.
  - intros p x [[<- <-]|[_ Hx]]%lookup_insert_Some Hr; [done|]. by eapply ix_ready.
  - intros p x [[<- <-]|[_ Hx]]%lookup_insert_Some Hst; [|by eapply ix_not_ready].
    intros Hin. apply (Hk _ Hin). change (txn_pointer t = (a, n)). unfold txn_pointer. by rewrite Ha, Hn.
  - intros h p. rewrite lookup_insert_Some, (ix_hash _ _ _ _ Hix). split.
    + intros [[<- <-]|(_ & x & Hx & Hh)]; [exists t; by rewrite lookup_insert_eq|].
      exists x. rewrite lookup_insert_ne; [done|]. apply not_eq_sym. by eapply Hne.
    + intros (x & [[<- <-]|[_ Hx]]%lookup_insert_Some & Hh); [by left|]. right. split; [|by eauto].
      intros Heq. destruct p as [a' n'].
      destruct (ix_txn _ _ _ _ Hix _ _ _ Hx) as (Ha' & _ & Hn'' & Hl').
      apply (Hne (a', n') x); [done|]. unfold get_committed_hash in *.
      rewrite <- Ha, <- Ha', <- Hn', <- Hn''. unfold get_sender. rewrite (legit_inj (txn x) (txn t)); congruence.
  - rewrite map_sum_insert by done. rewrite (ix_bytes _ _ _ _ Hix). lia.
Qed.

(** ** Expiry takes the keys out first *)
Lemma ttl_ok_gc get G l now :
  ttl_ok get 0 G l →
  ttl_ok get now G (ttl_index_gc now l).2 ∧
  ∀ k, k ∈ (ttl_index_gc now l).1 ↔ ∃ p t, G !! p = Some t ∧ get t < now ∧ k = ttl_make_key get t.
Proof.
  intros [Hwf Hk]. unfold ttl_index_gc, bset_split_off. cbn.
  assert (∀ k, before k (mkTTLOrderingKey now 0 0) ↔ ttl_expiration_time k < now) as Hb.
  { intros k. unfold before. cbn. rewrite ttl_lt. cbn. lia. }
  split; [split|]; [by apply bset_filter_wf| |]; intros k; rewrite list_elem_of_filter, Hb, Hk.
  - split.
    + intros [Hge (p & t & Ht & _ & ->)]. exists p, t. cbn in Hge. split_and!; [done|lia|done].
    + intros (p & t & Ht & Hge & ->). cbn. split; [lia|]. exists p, t. split_and!; [done|lia|done].
  - split.
    + intros [Hge (p & t & Ht & _ & ->)]. by exists p, t.
    + intros (p & t & Ht & Hge & ->). cbn. split; [lia|]. exists p, t. split_and!; [done|lia|done].
Qed.
Lemma ttl_ok_from get G l from :
  ttl_ok get from G l → (∀ p t, G !! p = Some t → from <= get t) → ttl_ok get 0 G l.
Proof.
  intros [Hwf Hk] Hfrom. split; [done|]. intros k. rewrite Hk. split; intros (p & t & Ht & _ & ->); exists p, t.
  - split_and!; [done|lia|done].
  - eauto.
Qed.

(** ** The main map *)
Lemma contents_insert s a m n t :
  default ∅ (transactions s !! a) = m →
  contents (set_transactions (<[a := <[n := t]> m]> (transactions s)) s) = <[(a, n) := t]> (contents s).
Proof.
  intros Hm. apply map_eq. intros [a' n']. rewrite contents_lookup. unfold get_mempool_txn. cbn.
  destruct (decide (a' = a)) as [->|Ha].
  - rewrite lookup_insert_eq. cbn. destruct (decide (n' = n)) as [->|Hn].
    + by rewrite !lookup_insert_eq.
    + rewrite !lookup_insert_ne by congruence. rewrite contents_lookup. unfold get_mempool_txn. subst m.
      by destruct (transactions s !! a).
  - rewrite !lookup_insert_ne by congruence. by rewrite contents_lookup.
Qed.
Lemma contents_remove_txn s a n : contents (remove_txn a n s) = delete (a, n) (contents s).
Proof.
  apply map_eq. intros [a' n']. rewrite contents_lookup. unfold get_mempool_txn, remove_txn.
  destruct (transactions s !! a) as [m|] eqn:Hm; cbn.
  - destruct (decide (a' = a)) as [->|Ha].
    + rewrite lookup_insert_eq. cbn. destruct (decide (n' = n)) as [->|Hn].
      * by rewrite !lookup_delete_eq.
      * rewrite !lookup_delete_ne by congruence. rewrite contents_lookup. unfold get_mempool_txn. by rewrite Hm.
    + rewrite lookup_insert_ne, lookup_delete_ne by congruence. by rewrite contents_lookup.
  - destruct (decide (a' = a)) as [->|Ha]; [|rewrite lookup_delete_ne by congruence; by rewrite contents_lookup].
    rewrite Hm. cbn. symmetry. rewrite lookup_delete_None, contents_lookup. unfold get_mempool_txn.
    rewrite Hm. by right.
Qed.
Lemma contents_transactions s s' : transactions s' = transactions s → contents s' = contents s.
Proof. unfold contents. by intros ->. Qed.
Lemma contents_forget s s' a :
  transactions s !! a = Some ∅ → transactions s' = delete a (transactions s) → contents s' = contents s.
Proof.
  intros Ha Hs'. apply map_eq. intros [a' n']. rewrite !contents_lookup. unfold get_mempool_txn. rewrite Hs'.
  destruct (decide (a' = a)) as [->|]; [|by rewrite lookup_delete_ne].
  by rewrite lookup_delete_eq, Ha.
Qed.
Lemma contents_elem s a m n : transactions s !! a = Some m → contents s !! (a, n) = m !! n.
Proof. intros Hm. rewrite contents_lookup. unfold get_mempool_txn. by rewrite Hm. Qed.

(** Transactions up to their place in a timeline *)
Definition strip t : MempoolTransaction := set_timeline_state NotReady t.
Lemma strip_set st t : strip (set_timeline_state st t) = strip t.
Proof. done. Qed.
Lemma set_timeline_state_id t : set_timeline_state (timeline_state t) t = t.
Proof. by destruct t. Qed.

(** ** Parking one transaction *)
Lemma park_run ls le G s t :
  indexed ls le G s → G !! txn_pointer t = Some t → N.of_nat (size G) < 2 ^ 64 →
  ∃ pl, parking_lot_insert t (parking_lot_index s) = Ok pl ∧ pl_wf pl ∧
    ∀ a n, parked pl a n ↔ parked (parking_lot_index s) a n ∨ (a, n) = txn_pointer t.
Proof.
  intros Hix Ht Hsize. destruct (ix_txn _ _ _ _ Hix _ _ _ Ht) as (_ & _ & Hseq & _).
  assert ((sender (txn t), sequence_number (txn t)) = txn_pointer t) as Hptr
    by (unfold txn_pointer; by rewrite Hseq).
  destruct (parking_lot_insert_ok (parking_lot_index s) t ((map_to_list G).*1)) as (pl & Hrun & Hpl & Hp).
  - apply Hix.
  - intros a n. by eapply ix_parked_in.
  - rewrite Hptr. apply list_elem_of_fmap. exists (txn_pointer t, t). split; [done|].
    by apply elem_of_map_to_list.
  - by rewrite pointers_length.
  - rewrite Hptr in Hp. by exists pl.
Qed.
Lemma indexed_park ls le G s t :
  indexed ls le G s → G !! txn_pointer t = Some t → ¬ is_ready t → N.of_nat (size G) < 2 ^ 64 →
  ∃ pl, parking_lot_insert t (parking_lot_index s) = Ok pl ∧
    indexed ls le G (set_indexes (priority_index s) (expiration_time_index s) (system_ttl_index s)
                       (timeline_index s) pl (hash_index s) (size_bytes s) s) ∧
    ∀ a n, parked pl a n ↔ parked (parking_lot_index s) a n ∨ (a, n) = txn_pointer t.
Proof.
  intros Hix Ht Hnr Hsize.
  destruct (park_run _ _ _ _ _ Hix Ht Hsize) as (pl & Hrun & Hpl & Hp).
  exists pl. split_and!; [done| |done].
  rewrite <- (insert_id G (txn_pointer t) t) by done. rewrite <- (set_timeline_state_id t) at 2.
  unfold txn_pointer in *.
  apply (indexed_move ls le G s _ _ t _ _ _ _ (priority_make_key t ∈ priority_index s) True); try done.
  - apply Hix.
  - intros k. case_decide as Hk; [|done]. split; [|by intros [? ->]]. intros Hin.
    destruct (ix_priority _ _ _ _ Hix _ Hin) as (p & x & Hx & ->).
    change (txn_pointer x = txn_pointer t) in Hk. rewrite (ix_pointer _ _ _ _ _ _ Hix Hx) in Hk. subst p.
    unfold txn_pointer in Hx. rewrite Ht in Hx. by simplify_eq.
  - apply Hix.
  - intros b id p. case_decide as Hpn; [|done]. subst p. rewrite (ix_timeline _ _ _ _ Hix). split.
    + intros (x & Hx & ?). rewrite Ht in Hx. by simplify_eq.
    + intros [Hst ?]. destruct Hnr. by exists id.
  - apply Hix.
  - intros a n. rewrite Hp. case_decide; naive_solver.
  - intros Hst. by eapply ix_not_ready.
Qed.
Lemma park_loop_ok ls le G l s :
  indexed ls le G s → (∀ t, t ∈ l → G !! txn_pointer t = Some t) → N.of_nat (size G) < 2 ^ 64 →
  ∃ pl, park_loop l (parking_lot_index s) = Ok pl ∧
    indexed ls le G (set_indexes (priority_index s) (expiration_time_index s) (system_ttl_index s)
                       (timeline_index s) pl (hash_index s) (size_bytes s) s) ∧
    ∀ a n, parked pl a n ↔ parked (parking_lot_index s) a n ∨ ∃ t, t ∈ l ∧ (a, n) = txn_pointer t ∧ ¬ is_ready t.
Proof.
  intros Hix Hl Hsize. revert s Hix Hl. induction l as [|t l IH]; intros s Hix Hl.
  { exists (parking_lot_index s). split; [done|]. split; [by apply (indexed_ext _ _ _ s)|].
    intros a n. setoid_rewrite elem_of_nil. naive_solver. }
  assert (G !! txn_pointer t = Some t) as Ht by (apply Hl; by left).
  assert (∀ t, t ∈ l → G !! txn_pointer t = Some t) as Hl' by (intros x Hx; apply Hl; by right).
  assert (is_ready t ∨ ¬ is_ready t) as [Hr|Hr].
  { unfold is_ready. destruct (timeline_state t); naive_solver. }
  - destruct (IH s) as (pl & Hrun & Hix' & Hp); [done..|]. exists pl. split; [|split; [done|]].
    + cbn. destruct Hr as [id ->]. run_ok. done.
    + intros a n. rewrite Hp. setoid_rewrite elem_of_cons. naive_solver.
  - destruct (indexed_park ls le G s t) as (pl1 & Hrun1 & Hix1 & Hp1); [done..|].
    destruct (IH _ Hix1 Hl') as (pl & Hrun & Hix' & Hp). exists pl. split; [|split; [done|]].
    + cbn. rewrite Hrun1. destruct (timeline_state t) eqn:Hst; [destruct Hr; by exists timeline_id|..]; run_ok; done.
    + intros a n. rewrite Hp. cbn. rewrite Hp1. setoid_rewrite elem_of_cons. naive_solver.
Qed.

(** ** The loop over the transactions that have become ready *)
Definition ready_store (a : AccountAddress) s (r : ReadyLoop) : TransactionStore :=
  set_transactions (<[a := rl_txns r]> (transactions s))
    (set_indexes (rl_priority r) (expiration_time_index s) (system_ttl_index s) (rl_timeline r)
       (rl_parking r) (hash_index s) (size_bytes s) s).
Lemma ready_store_elem a s r n : contents (ready_store a s r) !! (a, n) = rl_txns r !! n.
Proof. apply contents_elem. cbn. by rewrite lookup_insert_eq. Qed.
Lemma ready_store_insert a s r r' n t :
  rl_txns r' = <[n := t]> (rl_txns r) →
  contents (ready_store a s r') = <[(a, n) := t]> (contents (ready_store a s r)).
Proof.
  intros Hr. rewrite <- (contents_insert (ready_store a s r) a (rl_txns r) n t).
  - apply contents_transactions. cbn. rewrite Hr. by rewrite insert_insert_eq.
  - cbn. by rewrite lookup_insert_eq.
Qed.

(** The key of a transaction of the account goes into the queue. *)
Lemma priority_insert_elem ls le G s p t k :
  indexed ls le G s → G !! p = Some t →
  k ∈ priority_index_insert t (priority_index s) ↔ k = priority_make_key t ∨ k ∈ priority_index s.
Proof.
  intros Hix Ht. unfold priority_index_insert. rewrite elem_of_bset_insert by apply Hix.
  split; [naive_solver|]. intros [->|]; [|by right].
  destruct (bset_contains _ _) eqn:Hc; [|by left]. right.
  apply bset_contains_spec in Hc as (k & Hin & Hk); [|apply Hix].
  destruct (ix_priority _ _ _ _ Hix _ Hin) as (q & x & Hx & ->).
  pose proof (ix_priority_key _ _ _ _ _ _ _ _ Hix Ht Hx Hk) as <-. rewrite Hx in Ht. by simplify_eq.
Qed.
Lemma priority_insert_move ls le G s a n t k :
  indexed ls le G s → G !! (a, n) = Some t →
  k ∈ priority_index_insert t (priority_index s) ↔
    if decide (oq_pointer k = (a, n)) then True ∧ k = priority_make_key t else k ∈ priority_index s.
Proof.
  intros Hix Ht. rewrite priority_insert_elem by done. pose proof (ix_pointer _ _ _ _ _ _ Hix Ht) as Hp.
  case_decide as Hk.
  - split; [|naive_solver]. intros [->|Hin]; [done|]. split; [done|].
    destruct (ix_priority _ _ _ _ Hix _ Hin) as (q & x & Hx & ->).
    change (txn_pointer x = (a, n)) in Hk. rewrite (ix_pointer _ _ _ _ _ _ Hix Hx) in Hk. subst q.
    rewrite Ht in Hx. by simplify_eq.
  - split; [|by right]. intros [->|]; done.
Qed.

Definition ready_effect a s r r' t' : Prop :=
  indexed 0 0 (contents (ready_store a s r')) (ready_store a s r') ∧
  rl_txns r' = <[rl_min_seq r := t']> (rl_txns r) ∧ rl_min_seq r' = rl_min_seq r + 1 ∧
  (∀ k, k ∈ rl_priority r' ↔ k = priority_make_key t' ∨ k ∈ rl_priority r) ∧
  (∀ a' n', parked (rl_parking r') a' n' ↔ parked (rl_parking r) a' n' ∧ (a', n') ≠ (a, rl_min_seq r)) ∧
  (∀ b, next_id (rl_timeline r') b <= next_id (rl_timeline r) b + 1) ∧
  mb_evolves (rl_timeline r) (rl_timeline r').

Lemma ready_step_ok a s r t :
  indexed 0 0 (contents (ready_store a s r)) (ready_store a s r) →
  rl_txns r !! rl_min_seq r = Some t → (∀ b, next_id (rl_timeline r) b + 1 < 2 ^ 64) →
  ∃ r' t', ready_step t r = Ok r' ∧ strip t' = strip t ∧ ready_effect a s r r' t'.
Proof.
  intros Hix Hr Hid. set (n := rl_min_seq r) in *.
  assert (contents (ready_store a s r) !! (a, n) = Some t) as Ht by by rewrite ready_store_elem.
  destruct (ix_txn _ _ _ _ Hix _ _ _ Ht) as (Ha & Hn & Hn' & Hl). apply legit_seq in Hl as Hmax.
  destruct (parking_lot_remove_ok (rl_parking r) t) as (pl & Hrun & Hpl & Hp); [apply (ix_parking_wf _ _ _ _ Hix)|].
  fold (get_sender t) in Hp. rewrite Ha, Hn' in Hp.
  assert (u64_add (E := Infallible) (rl_min_seq r) 1 = Ok (n + 1)) as Hadd.
  { unfold u64_add, u64_checked_add. fold n. rewrite <- Hn' in *. unfold U64_MAX in Hmax.
    destruct (N.ltb_spec (sequence_number (txn t) + 1) (2 ^ 64)); [done|lia]. }
  assert (∀ t' tl, let r' := {| rl_txns := <[n := t']> (rl_txns r);
      rl_priority := priority_index_insert t (rl_priority r); rl_timeline := tl; rl_parking := pl;
      rl_min_seq := n + 1 |} in
    indexed 0 0 (<[(a, n) := t']> (contents (ready_store a s r)))
      (set_indexes (rl_priority r') (expiration_time_index s) (system_ttl_index s) tl pl (hash_index s)
         (size_bytes s) (ready_store a s r)) →
    strip t' = strip t →
    (∀ b, next_id tl b <= next_id (rl_timeline r) b + 1) → mb_evolves (rl_timeline r) tl →
    ready_effect a s r r' t') as Hfin.
  { intros t' tl r' Hix' Hst Hnext Hmins. unfold ready_effect. cbn.
    split; [|split; [done|split; [done|split; [|split; [done|by split]]]]].
    - rewrite (ready_store_insert a s r r' n t') by done. by eapply indexed_ext; [|exact Hix'].
    - intros k. rewrite (priority_insert_elem _ _ _ _ _ _ k Hix Ht).
      change (priority_make_key t') with (priority_make_key (strip t')). by rewrite Hst. }
  assert (∀ tl st, mb_wf tl → mb_bucket_mins tl = mb_bucket_mins (rl_timeline r) →
    (∀ b id p, timeline_at tl b !! id = Some p ↔
      if decide (p = (a, n)) then st = Ready id ∧ bucket_of (mb_bucket_mins tl) (ranking_score t) = b
      else timeline_at (rl_timeline r) b !! id = Some p) →
    (∀ b id p, timeline_at tl b !! id = Some p → id < next_id tl b) → st ≠ NotReady →
    indexed 0 0 (<[(a, n) := set_timeline_state st t]> (contents (ready_store a s r)))
      (set_indexes (priority_index_insert t (rl_priority r)) (expiration_time_index s) (system_ttl_index s)
         tl pl (hash_index s) (size_bytes s) (ready_store a s r))) as Hmove.
  { intros tl st Hmb Hmins Htl Hnext Hst.
    apply (indexed_move 0 0 _ _ a n t st _ tl pl True False Hix Ht); try done.
    - apply bset_insert_wf, (ix_priority_wf _ _ _ _ Hix).
    - intros k. by apply (priority_insert_move _ _ _ _ _ _ _ k Hix Ht).
    - intros a' n'. rewrite Hp. cbn. case_decide; naive_solver.
    - naive_solver. }
  unfold ready_step. destruct (decide (timeline_state t = NotReady)) as [Hst|Hst].
  - destruct (multi_bucket_insert_ok (rl_timeline r) t) as (tl & -> & Hmb & Hmins & Hat & Hnext);
      [apply (ix_mb_wf _ _ _ _ Hix)|apply Hid|].
    run_ok. change (parking_lot_remove (set_timeline_state _ t) (rl_parking r)) with (parking_lot_remove t (rl_parking r)).
    rewrite Hrun. run_ok. rewrite Hadd. run_ok.
    eexists _, (set_timeline_state (Ready _) t). split; [done|]. split; [done|].
    set (b0 := bucket_of _ _) in *. pose proof (ix_pointer _ _ _ _ _ _ Hix Ht) as Hptr.
    apply Hfin; [|done| |by eapply multi_bucket_insert_evolves].
    + apply Hmove; try done.
      * intros b id p. rewrite Hat, Hmins. pose proof (ix_timeline _ _ _ _ Hix b id p) as Hb. cbn in Hb.
        pose proof (ix_next _ _ _ _ Hix b id p) as Hlt. cbn in Hlt. fold b0.
        destruct (decide (p = (a, n))) as [->|Hpn].
        -- assert (timeline_at (rl_timeline r) b !! id ≠ Some (a, n)).
           { rewrite Hb. intros (x & Hx & Hst' & _). rewrite Ht in Hx. simplify_eq. congruence. }
           case_decide as Hbb; [|naive_solver]. subst b. rewrite lookup_insert_Some, Hptr. naive_solver.
        -- case_decide as Hbb; [|done]. subst b. rewrite lookup_insert_Some, Hptr. split; [naive_solver|].
           intros Hin. right. split; [|done]. specialize (Hlt Hin). lia.
      * intros b id p. rewrite Hat, Hnext. pose proof (ix_next _ _ _ _ Hix b id p) as Hlt. cbn in Hlt.
        case_decide as Hbb; [|done]. subst b. rewrite lookup_insert_Some. intros [[<- _]|[_ Hin]]; [lia|].
        specialize (Hlt Hin). lia.
    + intros b. rewrite Hnext. case_decide; subst; lia.
  - run_ok. rewrite Hrun. run_ok. rewrite Hadd. run_ok. eexists _, _. split; [done|]. split; [done|].
    apply Hfin; [|done|intros; lia|done]. rewrite <- (set_timeline_state_id t) at 1. apply Hmove; try done.
    + apply (ix_mb_wf _ _ _ _ Hix).
    + intros b id p. pose proof (ix_timeline _ _ _ _ Hix b id p) as Hb. cbn in Hb. case_decide as Hpn; [|done].
      subst p. rewrite Hb. split; [|by eauto]. intros (x & Hx & ?). rewrite Ht in Hx. by simplify_eq.
    + apply (ix_next _ _ _ _ Hix).
Qed.

(** The keys the loop may still visit *)
Definition ahead (n : N) (m : gmap N MempoolTransaction) : gset N := filter (λ k, n <= k) (dom m).
Lemma ahead_step n m t t' :
  m !! n = Some t → (size (ahead (n + 1) (<[n := t']> m)) < size (ahead n m))%nat.
Proof.
  intros Hn. apply subset_size. unfold ahead. rewrite dom_insert_lookup_L by by rewrite Hn.
  split.
  - intros k. rewrite !elem_of_filter. intros [??]. split; [lia|done].
  - intros Hsub. specialize (Hsub n). rewrite !elem_of_filter in Hsub.
    apply elem_of_dom_2 in Hn. lapply Hsub; [lia|]. split; [lia|done].
Qed.

Lemma ready_loop_ok a s fuel r :
  indexed 0 0 (contents (ready_store a s r)) (ready_store a s r) →
  (size (ahead (rl_min_seq r) (rl_txns r)) < fuel)%nat →
  (∀ b, next_id (rl_timeline r) b + N.of_nat (size (ahead (rl_min_seq r) (rl_txns r))) < 2 ^ 64) →
  ∃ r', ready_loop fuel r = Ok r' ∧
    indexed 0 0 (contents (ready_store a s r')) (ready_store a s r') ∧
    strip <$> rl_txns r' = strip <$> rl_txns r ∧
    rl_min_seq r <= rl_min_seq r' ∧ rl_txns r' !! rl_min_seq r' = None ∧
    (∀ k, k ∈ rl_priority r → k ∈ rl_priority r') ∧
    (∀ n t, rl_min_seq r <= n < rl_min_seq r' → rl_txns r' !! n = Some t →
            priority_make_key t ∈ rl_priority r') ∧
    (∀ a' n', parked (rl_parking r') a' n' → parked (rl_parking r) a' n') ∧
    (∀ a' n', a' ≠ a ∨ rl_min_seq r' <= n' → parked (rl_parking r) a' n' → parked (rl_parking r') a' n') ∧
    (∀ b, next_id (rl_timeline r') b <=
          next_id (rl_timeline r) b + N.of_nat (size (ahead (rl_min_seq r) (rl_txns r)))) ∧
    mb_evolves (rl_timeline r) (rl_timeline r').
Proof.
  revert r. induction fuel as [|fuel IH]; intros r Hix Hfuel Hid; [lia|]. cbn [ready_loop].
  destruct (rl_txns r !! rl_min_seq r) as [t|] eqn:Ht.
  2: { exists r. split_and!; [done..| | | | | | |]; try done; intros; lia. }
  pose proof (ahead_step _ _ _ t Ht) as Hlt0.
  destruct (ready_step_ok a s r t) as (r1 & t' & -> & Hst & Hix1 & Htx & Hmin & Hprio & Hpark & Hnext & Hmins);
    [done..| |].
  { intros b. specialize (Hid b). lia. }
  run_ok. pose proof (ahead_step _ _ _ t' Ht) as Hlt. rewrite <- Htx, <- Hmin in Hlt.
  destruct (IH r1) as (r' & Hrun & Hix' & Hsame & Hmin' & Hend & Hmono & Hchain & Hpark1 & Hpark2 & Hnext' & Hmins');
    [done|lia| |].
  { intros b. specialize (Hid b). specialize (Hnext b). lia. }
  exists r'. split_and!; [done|done| |lia|done| | | | | |by trans (rl_timeline r1)].
  - rewrite Hsame, Htx. apply map_eq. intros k. rewrite !lookup_fmap.
    destruct (decide (k = rl_min_seq r)) as [->|]; [|by rewrite lookup_insert_ne].
    rewrite lookup_insert_eq, Ht. cbn. by rewrite Hst.
  - intros k Hk. apply Hmono, Hprio. by right.
  - intros n x Hn Hx. destruct (decide (n = rl_min_seq r)) as [->|]; [|apply (Hchain n); [lia|done]].
    apply Hmono, Hprio. left.
    assert (strip <$> rl_txns r' !! rl_min_seq r = strip <$> rl_txns r1 !! rl_min_seq r) as Hk
      by (by rewrite <- !lookup_fmap, Hsame).
    rewrite Hx, Htx, lookup_insert_eq in Hk. cbn [fmap option_fmap option_map] in Hk. apply (inj Some) in Hk.
    change (priority_make_key (strip x) = priority_make_key (strip t')). by rewrite Hk.
  - intros a' n' Hp%Hpark1%Hpark. apply Hp.
  - intros a' n' Hn Hp. apply Hpark2; [done|]. apply Hpark. split; [done|]. intros [= -> ->].
    destruct Hn as [|Hn]; [done|lia].
  - intros b. specialize (Hnext b). specialize (Hnext' b). lia.
Qed.

Lemma process_ready_ok s a m n :
  indexed 0 0 (contents s) s → transactions s !! a = Some m →
  N.of_nat (size (contents s)) < 2 ^ 64 →
  (∀ b, next_id (timeline_index s) b + N.of_nat (size m) < 2 ^ 64) →
  ∃ s' m', process_ready_transactions a (Sequential n) s = Ok s' ∧
    indexed 0 0 (contents s') s' ∧ evolves s s' ∧
    transactions s' = <[a := m']> (transactions s) ∧ strip <$> m' = strip <$> m ∧
    sequence_numbers s' = sequence_numbers s ∧
    (∀ k, k ∈ priority_index s → k ∈ priority_index s') ∧
    (∀ k t, n <= k → (∀ j, n <= j <= k → is_Some (m !! j)) → m' !! k = Some t →
            priority_make_key t ∈ priority_index s') ∧
    (∀ k t, n <= k → m' !! k = Some t →
            priority_make_key t ∈ priority_index s' ∨ parked (parking_lot_index s') a k) ∧
    (∀ a' n', a' ≠ a → parked (parking_lot_index s) a' n' → parked (parking_lot_index s') a' n') ∧
    (∀ b, next_id (timeline_index s') b <= next_id (timeline_index s) b + N.of_nat (size m)).
Proof.
  intros Hix Hm Hsize Hid. unfold process_ready_transactions. rewrite Hm.
  set (r0 := mkReadyLoop _ _ _ _ _). cbn [min_seq] in r0.
  assert (size (ahead n m) <= size m)%nat as Hahead.
  { rewrite <- size_dom. apply subseteq_size. unfold ahead. intros k. rewrite elem_of_filter. naive_solver. }
  assert (transactions (ready_store a s r0) = transactions s) as Htr by (cbn; by rewrite insert_id).
  destruct (ready_loop_ok a s (S (size m)) r0)
    as (r & -> & Hixr & Hsame & Hmin & Hend & Hmono & Hchain & Hp1 & Hp2 & Hnext & Hmins).
  { rewrite (contents_transactions s) by done. by apply (indexed_ext _ _ _ s). }
  { cbn. lia. }
  { intros b. specialize (Hid b). cbn. lia. }
  cbn [rl_txns rl_priority rl_timeline rl_parking rl_min_seq r0] in *. run_ok.
  destruct (btree_range (E := Infallible) (Excluded (rl_min_seq r)) Unbounded (rl_txns r)) as [later| |] eqn:Hlater;
    [|by unfold btree_range in Hlater..].
  assert (dom (rl_txns r) = dom m) as Hdom.
  { rewrite <- (dom_fmap_L strip (rl_txns r)), Hsame. by rewrite dom_fmap_L. }
  assert (size (contents (ready_store a s r)) = size (contents s)) as Hsz.
  { rewrite <- !size_dom. f_equal. apply set_eq. intros [a' n']. rewrite !elem_of_dom.
    destruct (decide (a' = a)) as [->|Ha].
    - rewrite ready_store_elem, (contents_elem s a m) by done. rewrite <- !elem_of_dom. by rewrite Hdom.
    - rewrite !contents_lookup. unfold get_mempool_txn. cbn. by rewrite lookup_insert_ne. }
  assert (∀ t, t ∈ later.*2 ↔ ∃ k, rl_txns r !! k = Some t ∧ rl_min_seq r < k) as Hin.
  { intros t. rewrite list_elem_of_fmap. split.
    - intros ([k x] & -> & Hx). apply (elem_of_btree_range _ _ _ _ _ _ Hlater) in Hx as [Hx Hr].
      exists k. split; [done|]. unfold in_range in Hr. cbn in Hr. rewrite andb_true_r in Hr. by apply N.ltb_lt.
    - intros (k & Hk & Hlt). exists (k, t). split; [done|].
      apply (elem_of_btree_range _ _ _ _ _ _ Hlater). split; [done|].
      unfold in_range. cbn. rewrite andb_true_r. by apply N.ltb_lt. }
  destruct (park_loop_ok 0 0 _ (later.*2) (ready_store a s r) Hixr) as (pl & Hrun & Hix' & Hpark).
  { intros t (k & Hk & _)%Hin. rewrite <- (ready_store_elem a s) in Hk.
    by rewrite (ix_pointer _ _ _ _ _ _ Hixr Hk). }
  { by rewrite Hsz. }
  change (parking_lot_index (ready_store a s r)) with (rl_parking r) in Hrun.
  run_ok. rewrite Hrun. run_ok.
  eexists _, (rl_txns r). split; [done|]. split; [|split; [|split; [done|split; [done|split; [done|]]]]].
  { eapply indexed_ext; [|exact Hix']. done. }
  { by unfold evolves. }
  split; [done|]. cbn.
  assert (∀ k, rl_min_seq r <= k → k ≠ rl_min_seq r → rl_min_seq r < k) as Hgt by (intros; lia).
  assert (∀ k t, rl_txns r !! k = Some t → k ≠ rl_min_seq r) as Hne by (intros k t Hk ->; congruence).
  split_and!.
  - intros k t Hk Hall Ht. apply (Hchain k t); [|done]. split; [done|].
    destruct (N.lt_ge_cases k (rl_min_seq r)); [done|].
    destruct (Hall (rl_min_seq r)) as [x Hx]; [lia|].
    assert (rl_min_seq r ∈ dom (rl_txns r)) as Hd by (rewrite Hdom; by eapply elem_of_dom_2).
    apply elem_of_dom in Hd. rewrite Hend in Hd. by destruct Hd.
  - intros k t Hk Ht. destruct (N.lt_ge_cases k (rl_min_seq r)) as [Hlt|Hge]; [left; by apply (Hchain k t)|].
    assert (is_ready t ∨ ¬ is_ready t) as [Hr|Hr] by (unfold is_ready; destruct (timeline_state t); naive_solver).
    + left. assert (contents (ready_store a s r) !! (a, k) = Some t) as Ht' by by rewrite ready_store_elem.
      by apply (ix_ready _ _ _ _ Hixr _ _ Ht').
    + right. apply Hpark. right. exists t. split_and!; [|by rewrite <- (ready_store_elem a s) in Ht;
        rewrite (ix_pointer _ _ _ _ _ _ Hixr Ht)|done].
      apply Hin. exists k. split; [done|]. apply Hgt; [done|]. by eapply Hne.
  - intros a' n' Ha Hp. apply Hpark. left. cbn. apply Hp2; [by left|done].
  - intros b. specialize (Hnext b). lia.
Qed.

(** ** Removing several transactions of an account *)
Lemma index_remove_all_ok ls le a l G s :
  indexed ls le G s → (∀ t, t ∈ l → get_sender t = a ∧ G !! txn_pointer t = Some t) →
  NoDup (txn_pointer <$> l) →
  ∃ s', index_remove_all l s = Ok s' ∧
    indexed ls le (filter (λ p, p.1 ∉ txn_pointer <$> l) G) s' ∧ evolves s s' ∧
    (∀ k, k ∈ priority_index s' ↔ k ∈ priority_index s ∧ oq_pointer k ∉ txn_pointer <$> l) ∧
    (∀ a' n', parked (parking_lot_index s') a' n' ↔
              parked (parking_lot_index s) a' n' ∧ (a', n') ∉ txn_pointer <$> l) ∧
    (∀ b, next_id (timeline_index s') b = next_id (timeline_index s) b) ∧
    (transactions s !! a = Some ∅ → l ≠ [] → transactions s' = delete a (transactions s) ∧
       sequence_numbers s' = delete a (sequence_numbers s)) ∧
    (transactions s !! a ≠ Some ∅ ∨ l = [] → transactions s' = transactions s ∧
       sequence_numbers s' = sequence_numbers s).
Proof.
  revert G s. induction l as [|t l IH]; intros G s Hix Hl Hnd.
  { exists s. split; [done|]. split.
    - rewrite map_filter_id; [done|]. intros p x _. cbn. apply not_elem_of_nil.
    - split_and!; try done; intros; cbn; set_solver. }
  destruct (Hl t) as [Ha Ht]; [by left|]. rewrite fmap_cons in Hnd. apply NoDup_cons in Hnd as [Hnot Hnd].
  destruct (index_remove_ok ls le G s a (txn_seq t) t) as
    (s1 & Hrun1 & Hix1 & Hcfg1 & Hprio1 & Hpark1 & Hnext1 & Hempty1 & Hsame1); [done| |].
  { rewrite <- Ha. exact Ht. }
  assert ((a, txn_seq t) = txn_pointer t) as Hptr by (unfold txn_pointer; by rewrite Ha).
  rewrite Hptr in *.
  destruct (IH (delete (txn_pointer t) G) s1) as
    (s' & Hrun & Hix' & Hcfg & Hprio & Hpark & Hnext & Hempty & Hsame); [done| |done|].
  { intros x Hx. destruct (Hl x) as [Hax Hxt]; [by right|]. split; [done|].
    rewrite lookup_delete_ne; [done|]. intros Heq. apply Hnot. rewrite Heq. apply list_elem_of_fmap. eauto. }
  exists s'. cbn [index_remove_all]. rewrite Hrun1. run_ok. rewrite fmap_cons. split_and!.
  - done.
  - assert (filter (λ p, p.1 ∉ txn_pointer t :: (txn_pointer <$> l)) G =
      filter (λ p, p.1 ∉ txn_pointer <$> l) (delete (txn_pointer t) G)) as ->; [|done].
    apply map_eq. intros p. apply option_eq. intros x.
    rewrite !map_lookup_filter_Some, lookup_delete_Some. cbn. rewrite not_elem_of_cons. naive_solver.
  - by trans s1.
  - intros k. rewrite Hprio, Hprio1, not_elem_of_cons. naive_solver.
  - intros a' n'. rewrite Hpark, Hpark1, not_elem_of_cons. naive_solver.
  - intros b. by rewrite Hnext, Hnext1.
  - intros He _. destruct (Hempty1 He) as [Htr1 Hsq1]. destruct Hsame as [Htr Hsq].
    { left. rewrite Htr1, lookup_delete_eq. done. }
    split; congruence.
  - intros [Hne|?]; [|done]. destruct (Hsame1 Hne) as [Htr1 Hsq1].
    destruct Hsame as [Htr Hsq]; [left; by rewrite Htr1|]. split; congruence.
Qed.

Definition nonempty s : Prop := ∀ a m, transactions s !! a = Some m → m ≠ ∅.

Lemma clean_committed_ok s a n :
  indexed 0 0 (contents s) s → nonempty s →
  ∃ s', clean_committed_transactions a n s = Ok s' ∧ indexed 0 0 (contents s') s' ∧ nonempty s' ∧
    evolves s s' ∧ contents s' = filter (λ p, ¬ (p.1.1 = a ∧ p.1.2 < n)) (contents s) ∧
    (∀ k, k ∈ priority_index s' ↔ k ∈ priority_index s ∧ ¬ (oq_address k = a ∧ oq_txn_seq k < n)) ∧
    (∀ a' n', parked (parking_lot_index s') a' n' ↔ parked (parking_lot_index s) a' n' ∧ ¬ (a' = a ∧ n' < n)) ∧
    (∀ b, next_id (timeline_index s') b = next_id (timeline_index s) b) ∧
    (∀ a', transactions s' !! a' =
           if decide (a' = a) then
             transactions s !! a ≫= λ m, let m' := filter (λ p, ¬ p.1 < n) m in
                                         if decide (m' = ∅) then None else Some m'
           else transactions s !! a') ∧
    (∀ a', sequence_numbers s' !! a' =
           if decide (a' = a ∧ is_Some (transactions s !! a) ∧ transactions s' !! a = None) then None
           else sequence_numbers s !! a').
Proof.
  intros Hix Hne. unfold clean_committed_transactions. destruct (transactions s !! a) as [m|] eqn:Hm.
  2: { exists s. assert (∀ n', contents s !! (a, n') = None) as Hnone
         by (intros n'; rewrite contents_lookup; unfold get_mempool_txn; by rewrite Hm).
       split_and!; try done.
       - symmetry. apply map_filter_id. intros [a' n'] x Hx [Ha _]. cbn in Ha. subst a'. by rewrite Hnone in Hx.
       - intros k. split; [|naive_solver]. intros Hin. split; [done|]. intros [<- _].
         destruct (ix_priority _ _ _ _ Hix _ Hin) as ([a' n'] & x & Hx & ->).
         destruct (ix_txn _ _ _ _ Hix _ _ _ Hx) as (<- & _). by rewrite Hnone in Hx.
       - intros a' n'. split; [|naive_solver]. intros Hin. split; [done|]. intros [-> _].
         destruct (ix_parked _ _ _ _ Hix _ _ Hin) as (x & Hx & _). by rewrite Hnone in Hx.
       - intros a'. by case_decide; [subst|].
       - intros a'. rewrite decide_False; [done|]. intros (_ & [? ?] & _). done. }
  set (active := filter (λ p, ¬ p.1 < n) m). set (removed := filter (λ p, p.1 < n) m).
  set (s0 := set_transactions _ _). set (l := (btree_iter removed).*2).
  assert (∀ t, t ∈ l ↔ ∃ k, m !! k = Some t ∧ k < n) as Hl.
  { intros t. unfold l. rewrite list_elem_of_fmap. split.
    - intros ([k x] & -> & [Hx Hk]%elem_of_btree_iter%map_lookup_filter_Some). eauto.
    - intros (k & Hk & Hlt). exists (k, t). split; [done|]. by apply elem_of_btree_iter, map_lookup_filter_Some. }
  assert (∀ k t, m !! k = Some t → txn_pointer t = (a, k)) as Hptr.
  { intros k t Hk. rewrite <- (contents_elem s a m k Hm) in Hk. by apply (ix_pointer _ _ _ _ _ _ Hix). }
  assert (txn_pointer <$> l = pair a <$> (btree_iter removed).*1) as Hptrs.
  { unfold l. rewrite <- !list_fmap_compose. apply list_fmap_ext. intros i [k x] Hi. cbn.
    apply list_elem_of_lookup_2, elem_of_btree_iter, map_lookup_filter_Some in Hi as [Hi _]. by apply Hptr. }
  assert (∀ p, p ∈ txn_pointer <$> l ↔ p.1 = a ∧ is_Some (m !! p.2) ∧ p.2 < n) as Hin.
  { intros [a' k]. rewrite Hptrs, list_elem_of_fmap. cbn. setoid_rewrite elem_of_btree_keys.
    unfold removed. split.
    - intros (k' & [= -> ->] & [x [Hx Hk]%map_lookup_filter_Some]). eauto.
    - intros (-> & [x Hx] & Hk). exists k. split; [done|]. exists x. by apply map_lookup_filter_Some. }
  assert (transactions s0 !! a = Some active) as Ha0 by (cbn; by rewrite lookup_insert_eq).
  destruct (index_remove_all_ok 0 0 a l (contents s) s0) as
    (s' & Hrun & Hix' & Hcfg & Hprio & Hpark & Hnext & Hempty & Hsame).
  { by apply (indexed_ext _ _ _ s). }
  { intros t (k & Hk & _)%Hl. rewrite (Hptr _ _ Hk), (contents_elem s a m k Hm).
    split; [|done]. by specialize (Hptr _ _ Hk) as [= ? _]. }
  { rewrite Hptrs. apply NoDup_fmap_2; [by intros ?? [= ->]|]. apply NoDup_fst_btree_iter. }
  assert (active = ∅ → l ≠ []) as Hlne.
  { intros He Hl0. apply (Hne a m Hm). apply map_empty. intros k. destruct (m !! k) as [t|] eqn:Hk; [|done].
    destruct (N.lt_ge_cases k n) as [Hlt|Hge].
    - assert (t ∈ l) as Hin' by (apply Hl; eauto). rewrite Hl0 in Hin'. by apply elem_of_nil in Hin'.
    - assert (active !! k = Some t) as Hk' by (apply map_lookup_filter_Some; split; [done|cbn; lia]).
      by rewrite He in Hk'. }
  assert (∀ a', transactions s' !! a' = if decide (a' = a) then (if decide (active = ∅) then None else Some active)
                                        else transactions s !! a') as Htr.
  { intros a'. destruct (decide (active = ∅)) as [He|He].
    - destruct Hempty as [-> _]; [by rewrite Ha0, He|by apply Hlne|]. cbn.
      case_decide; [subst; by rewrite lookup_delete_eq|]. by rewrite lookup_delete_ne, lookup_insert_ne.
    - destruct Hsame as [-> _]; [left; rewrite Ha0; naive_solver|]. cbn.
      case_decide; [subst; by rewrite lookup_insert_eq|]. by rewrite lookup_insert_ne. }
  assert (∀ a' k, contents s' !! (a', k) = filter (λ p, ¬ (p.1.1 = a ∧ p.1.2 < n)) (contents s) !! (a', k)) as Hcon.
  { intros a' k. rewrite contents_lookup. unfold get_mempool_txn. rewrite Htr.
    apply option_eq. intros x. rewrite map_lookup_filter_Some. cbn. destruct (decide (a' = a)) as [->|Ha].
    - rewrite (contents_elem s a m k Hm).
      transitivity (active !! k = Some x); [|unfold active; rewrite map_lookup_filter_Some; cbn; naive_solver].
      destruct (decide (active = ∅)) as [->|He]; [|done]. cbn. by rewrite lookup_empty.
    - rewrite contents_lookup. unfold get_mempool_txn. naive_solver. }
  assert (contents s' = filter (λ p, ¬ (p.1.1 = a ∧ p.1.2 < n)) (contents s)) as Hcontents
    by (apply map_eq; intros [??]; apply Hcon).
  exists s'. split; [done|]. split_and!; try done.
  - rewrite Hcontents. assert (filter (λ p, ¬ (p.1.1 = a ∧ p.1.2 < n)) (contents s) =
      filter (λ p, p.1 ∉ txn_pointer <$> l) (contents s)) as ->; [|done].
    apply map_filter_ext. intros [a' k] x Hx. cbn. rewrite Hin. cbn. split; [naive_solver|].
    intros Hno [-> Hk]. apply Hno. split_and!; [done| |done]. rewrite <- (contents_elem s a m k Hm). eauto.
  - intros a' m'. rewrite Htr. destruct (decide (a' = a)); [|by apply Hne].
    destruct (decide (active = ∅)); [done|]. by intros [= <-].
  - intros k. rewrite Hprio. cbn. apply and_iff_strong. intros Hk. rewrite Hin. cbn.
    destruct (ix_priority _ _ _ _ Hix _ Hk) as ([a' n'] & x & Hx & ->).
    destruct (ix_txn _ _ _ _ Hix _ _ _ Hx) as (Ha' & Hn' & _). cbn. unfold oq_txn_seq. cbn. fold (txn_seq x).
    rewrite Ha', Hn'. split; [|naive_solver]. intros Hno [-> Hlt]. apply Hno. split_and!; [done| |done].
    rewrite <- (contents_elem s a m n' Hm). eauto.
  - intros a' n'. rewrite Hpark. cbn. apply and_iff_strong. intros Hp. rewrite Hin. cbn.
    destruct (ix_parked _ _ _ _ Hix _ _ Hp) as (x & Hx & _). split; [|naive_solver].
    intros Hno [-> Hlt]. apply Hno. split_and!; [done| |done]. rewrite <- (contents_elem s a m n' Hm). eauto.
  - intros a'. assert (transactions s' !! a = if decide (active = ∅) then None else Some active) as Hta
      by (rewrite Htr; by rewrite decide_True).
    destruct (decide (active = ∅)) as [He|He].
    + destruct Hempty as [_ ->]; [by rewrite Ha0, He|by apply Hlne|]. cbn.
      destruct (decide (a' = a)) as [->|Ha].
      * rewrite lookup_delete_eq, decide_True; [done|]. split_and!; [done|by eexists|done].
      * rewrite lookup_delete_ne by done. rewrite decide_False; naive_solver.
    + destruct Hsame as [_ ->]; [left; rewrite Ha0; naive_solver|]. cbn.
      rewrite decide_False; [done|]. rewrite Hta. naive_solver.
Qed.
End inv.
