(* ===== verification/MempoolOps.v ===== *)
(** * Mempool: operations of the store

    [store_inv] holds between operations. For each operation: it does not panic, it preserves
    [store_inv], and what it does to the pool, the transactions up to their place in a timeline. *)
From S2P Require Import Prelude Crypto BTree MempoolIndex MempoolStore MempoolInv.
Local Open Scope N_scope.

Lemma map_sum_subseteq `{Countable K} {A} (f : A → N) (m1 m2 : gmap K A) :
  m1 ⊆ m2 → map_sum f m1 <= map_sum f m2.
Proof.
  revert m1. induction m2 as [|i x m2 Hi IH] using map_ind; intros m1 Hsub.
  { assert (m1 = ∅) as ->; [|lia]. by apply map_subseteq_size_eq; [|rewrite map_size_empty; lia]. }
  rewrite (map_sum_insert f m2) by done. destruct (m1 !! i) as [y|] eqn:Hy.
  - assert (y = x) as ->.
    { pose proof (lookup_weaken _ _ _ _ Hy Hsub) as Hx. rewrite lookup_insert_eq in Hx. by simplify_eq. }
    rewrite (map_sum_delete f m1 i x) by done. apply N.add_le_mono_l, IH.
    rewrite <- (delete_insert_id m2 i x) by done. by apply delete_mono.
  - transitivity (map_sum f m2); [|lia]. apply IH. rewrite <- (delete_id m1 i), <- (delete_insert_id m2 i x) by done.
    by apply delete_mono.
Qed.
Lemma map_sum_fmap `{Countable K} {A} (f : A → N) (g : A → A) (m : gmap K A) :
  (∀ x, f (g x) = f x) → map_sum f (g <$> m) = map_sum f m.
Proof.
  intros Hg. induction m as [|i x m Hi IH] using map_ind; [done|].
  rewrite fmap_insert, !map_sum_insert; [|done|by rewrite lookup_fmap, Hi]. by rewrite Hg, IH.
Qed.

Section ops.
Context `{!TransactionTypes, !TransactionEncoding, !Workload}.
Abbreviation ptr := (AccountAddress * N)%type (only parsing).
Implicit Types (s : TransactionStore) (t : MempoolTransaction).

(** The transactions, whatever their place in a timeline *)
Definition pool s : gmap ptr MempoolTransaction := strip <$> contents s.

(** The transactions from the account's sequence number on without a gap are in the queue. *)
Record account_ok s (a : AccountAddress) (m : gmap N MempoolTransaction) (n : N) : Prop := {
  ao_nonempty : m ≠ ∅;
  ao_size : N.of_nat (size m) <= capacity_per_user s;
  ao_seq : sequence_numbers s !! a = Some n;
  ao_from k : is_Some (m !! k) → n <= k;
  ao_queue k t : n <= k → (∀ j, n <= j <= k → is_Some (m !! j)) → m !! k = Some t →
    priority_make_key t ∈ priority_index s;
}.
(** [ls] and [le] are those of [indexed]: zero between operations. *)
Record store_inv (ls le : Duration) s : Prop := {
  si_indexed : indexed ls le (contents s) s;
  si_account a m : transactions s !! a = Some m → ∃ n, account_ok s a m n;
  si_placed a n t : contents s !! (a, n) = Some t →
    priority_make_key t ∈ priority_index s ∨ parked (parking_lot_index s) a n;
  si_count : N.of_nat (size (contents s)) <= capacity s;
  si_bytes : size_bytes s <= capacity_bytes s + max_bytes;
  si_capacity : capacity s < 2 ^ 64;
  si_fits : capacity_bytes s + max_bytes < 2 ^ 64;
}.

Lemma pool_lookup s a n : pool s !! (a, n) = strip <$> get_mempool_txn s a n.
Proof. unfold pool. by rewrite lookup_fmap, contents_lookup. Qed.
Lemma pool_size s : size (pool s) = size (contents s).
Proof. unfold pool. apply map_size_fmap. Qed.
Lemma pool_bytes s : map_sum get_estimated_bytes (pool s) = map_sum get_estimated_bytes (contents s).
Proof. by apply map_sum_fmap. Qed.
Lemma si_nonempty ls le s : store_inv ls le s → nonempty s.
Proof. intros Hinv a m Hm. destruct (si_account _ _ _ Hinv _ _ Hm) as [n Hn]. apply Hn. Qed.
Lemma si_is_full s :
  store_inv 0 0 s →
  is_full s = (capacity s <=? N.of_nat (size (pool s))) ||
              (capacity_bytes s <=? map_sum get_estimated_bytes (pool s)).
Proof.
  intros Hinv. unfold is_full.
  rewrite (ix_count _ _ _ (si_indexed _ _ _ Hinv)), (ix_bytes _ _ _ _ (si_indexed _ _ _ Hinv)), pool_size, pool_bytes.
  done.
Qed.
Lemma key_of ls le s a n t : store_inv ls le s → contents s !! (a, n) = Some t → oq_pointer (priority_make_key t) = (a, n).
Proof. intros Hinv Ht. apply (ix_pointer _ _ _ _ _ _ (si_indexed _ _ _ Hinv) Ht). Qed.

(** An account is untouched when its keys stay in the queue. *)
Lemma account_ok_frame s s' a m m' n :
  account_ok s a m n → m' ≠ ∅ → m' ⊆ m → capacity_per_user s' = capacity_per_user s →
  sequence_numbers s' !! a = sequence_numbers s !! a →
  (∀ k t, m' !! k = Some t → priority_make_key t ∈ priority_index s → priority_make_key t ∈ priority_index s') →
  account_ok s' a m' n.
Proof.
  intros [E1 E2 E3 E4 E5] Hne Hsub Hcap Hseq Hprio. split; [done|..].
  - rewrite Hcap. pose proof (map_subseteq_size _ _ Hsub). lia.
  - by rewrite Hseq.
  - intros k [x Hx]. apply E4. exists x. by eapply lookup_weaken.
  - intros k x Hk Hall Hx. eapply Hprio; [done|]. apply (E5 k x); [done| |by eapply lookup_weaken].
    intros j Hj. destruct (Hall j Hj) as [y Hy]. exists y. by eapply lookup_weaken.
Qed.

(** ** Transactions leave *)
Record shrunk (gone : ptr → Prop) (ls le : Duration) s s' : Prop := {
  sh_indexed : indexed ls le (contents s') s';
  sh_config : evolves s s';
  sh_contents p x : contents s' !! p = Some x ↔ contents s !! p = Some x ∧ ¬ gone p;
  sh_priority k : k ∈ priority_index s' ↔ k ∈ priority_index s ∧ ¬ gone (oq_pointer k);
  sh_parked a n : parked (parking_lot_index s') a n ↔ parked (parking_lot_index s) a n ∧ ¬ gone (a, n);
  sh_next b : next_id (timeline_index s') b = next_id (timeline_index s) b;
  sh_account a m' : transactions s' !! a = Some m' →
    m' ≠ ∅ ∧ is_Some (transactions s !! a) ∧ sequence_numbers s' !! a = sequence_numbers s !! a;
}.
Lemma shrunk_subseteq gone ls le s s' : shrunk gone ls le s s' → contents s' ⊆ contents s.
Proof. intros Hsh. apply map_subseteq_spec. intros p x Hx. by apply (sh_contents _ _ _ _ _ Hsh) in Hx as [? _]. Qed.
Lemma shrunk_account gone ls le s s' a m m' :
  shrunk gone ls le s s' → transactions s !! a = Some m → transactions s' !! a = Some m' →
  ∀ k x, m' !! k = Some x ↔ m !! k = Some x ∧ ¬ gone (a, k).
Proof.
  intros Hsh Hm Hm' k x. rewrite <- (contents_elem s' a m' k Hm'), <- (contents_elem s a m k Hm).
  apply Hsh.
Qed.
Lemma shrunk_bytes gone ls le ls' le' s s' :
  indexed ls' le' (contents s) s → shrunk gone ls le s s' → size_bytes s' <= size_bytes s.
Proof.
  intros Hix Hsh. rewrite (ix_bytes _ _ _ _ Hix), (ix_bytes _ _ _ _ (sh_indexed _ _ _ _ _ Hsh)).
  by eapply map_sum_subseteq, shrunk_subseteq.
Qed.
Lemma shrunk_inv gone ls le s s' : store_inv ls le s → shrunk gone ls le s s' → store_inv ls le s'.
Proof.
  intros Hinv Hsh. pose proof (sh_config _ _ _ _ _ Hsh) as (Hc1 & Hc2 & Hc3 & _).
  pose proof (shrunk_subseteq _ _ _ _ _ Hsh) as Hsub. split; rewrite ?Hc1, ?Hc2.
  - apply Hsh.
  - intros a m' Hm'. destruct (sh_account _ _ _ _ _ Hsh _ _ Hm') as (Hne & [m Hm] & Hseq).
    destruct (si_account _ _ _ Hinv _ _ Hm) as [n Hn]. exists n.
    pose proof (shrunk_account _ _ _ _ _ _ _ _ Hsh Hm Hm') as Hmm.
    apply (account_ok_frame s s' a m m'); [done..| |done|done|].
    + apply map_subseteq_spec. intros k x Hx. by apply Hmm in Hx as [? _].
    + intros k x [Hx Hgone]%Hmm Hin. apply (sh_priority _ _ _ _ _ Hsh). split; [done|].
      rewrite <- (contents_elem s a m k Hm) in Hx. by rewrite (key_of _ _ _ _ _ _ Hinv Hx).
  - intros a n t [Ht Hgone]%(sh_contents _ _ _ _ _ Hsh).
    destruct (si_placed _ _ _ Hinv _ _ _ Ht) as [Hin|Hp].
    + left. apply (sh_priority _ _ _ _ _ Hsh). split; [done|]. by rewrite (key_of _ _ _ _ _ _ Hinv Ht).
    + right. by apply (sh_parked _ _ _ _ _ Hsh).
  - pose proof (map_subseteq_size _ _ Hsub). pose proof (si_count _ _ _ Hinv). lia.
  - pose proof (shrunk_bytes _ _ _ _ _ _ _ (si_indexed _ _ _ Hinv) Hsh). pose proof (si_bytes _ _ _ Hinv). lia.
  - apply Hinv.
  - apply Hinv.
Qed.

Lemma clean_committed_shrunk s a n :
  indexed 0 0 (contents s) s → nonempty s →
  ∃ s', clean_committed_transactions a n s = Ok s' ∧ shrunk (λ p, p.1 = a ∧ p.2 < n) 0 0 s s' ∧
        (∀ a', a' ≠ a → sequence_numbers s' !! a' = sequence_numbers s !! a') ∧
        (transactions s !! a = None → s' = s).
Proof.
  intros Hix Hne.
  destruct (clean_committed_ok s a n Hix Hne)
    as (s' & Hrun & Hix' & Hne' & Hcfg & Hcon & Hprio & Hpark & Hnext & Htr & Hseq).
  exists s'. split; [done|]. split; [split; try done|split].
  - intros p x. rewrite Hcon, map_lookup_filter_Some. done.
  - intros a' m' Hm'. split; [by eapply Hne'|]. rewrite Hseq. pose proof Hm' as Hm. rewrite Htr in Hm.
    destruct (decide (a' = a)) as [->|Ha].
    + destruct (transactions s !! a) as [m|]; [|done]. split; [done|]. rewrite decide_False; [done|].
      intros (_ & _ & ?). congruence.
    + split; [done|]. rewrite decide_False; naive_solver.
  - intros a' Ha. rewrite Hseq, decide_False; naive_solver.
  - intros Ha. unfold clean_committed_transactions in Hrun. rewrite Ha in Hrun. by injection Hrun.
Qed.

Lemma remove_one_shrunk ls le s a n t :
  indexed ls le (contents s) s → nonempty s → get_mempool_txn s a n = Some t →
  ∃ s', index_remove t (remove_txn a n s) = Ok s' ∧ shrunk (λ p, p = (a, n)) ls le s s' ∧
        contents s' = delete (a, n) (contents s).
Proof.
  intros Hix Hne Ht. pose proof Ht as Ht'. rewrite <- contents_lookup in Ht'.
  unfold get_mempool_txn in Ht. destruct (transactions s !! a) as [m|] eqn:Hm; [|done]. cbn in Ht.
  set (s0 := remove_txn a n s).
  assert (transactions s0 = <[a := delete n m]> (transactions s)) as Htr0
    by (unfold s0, remove_txn; by rewrite Hm).
  assert (sequence_numbers s0 = sequence_numbers s) as Hsq0 by (unfold s0, remove_txn; by rewrite Hm).
  assert (same_indexes s s0 ∧ evolves s s0) as [Hsi Hsc] by (unfold s0, remove_txn; by rewrite Hm).
  destruct (index_remove_ok ls le (contents s) s0 a n t) as
    (s' & Hrun & Hix' & Hcfg & Hprio & Hpark & Hnext & Hempty & Hsame); [by eapply indexed_ext|done|].
  assert (contents s' = delete (a, n) (contents s)) as Hcon.
  { rewrite <- (contents_remove_txn s a n). fold s0.
    destruct (decide (delete n m = ∅)) as [He|He].
    - destruct Hempty as [Htr _]; [by rewrite Htr0, lookup_insert_eq, He|].
      apply (contents_forget s0 s' a); [|done]. by rewrite Htr0, lookup_insert_eq, He.
    - destruct Hsame as [Htr _]; [by rewrite Htr0, lookup_insert_eq; naive_solver|].
      by apply contents_transactions. }
  exists s'. split; [done|]. split; [|done]. destruct Hsi as (Ep & _ & _ & Et & Epl & _).
  split.
  - by rewrite Hcon.
  - by trans s0.
  - intros p x. rewrite Hcon, lookup_delete_Some. naive_solver.
  - intros k. rewrite Hprio, Ep. done.
  - intros a' n'. rewrite Hpark, Epl. done.
  - intros b. by rewrite Hnext, Et.
  - intros a' m' Hm'. destruct (decide (delete n m = ∅)) as [He|He].
    + destruct Hempty as [Htr Hsq]; [by rewrite Htr0, lookup_insert_eq, He|].
      rewrite Htr, Htr0 in Hm'. apply lookup_delete_Some in Hm' as [Ha Hm'].
      rewrite lookup_insert_ne in Hm' by done. split_and!; [by eapply Hne|done|].
      by rewrite Hsq, lookup_delete_ne, Hsq0.
    + destruct Hsame as [Htr Hsq]; [by rewrite Htr0, lookup_insert_eq; naive_solver|].
      rewrite Htr, Htr0 in Hm'. rewrite Hsq, Hsq0.
      apply lookup_insert_Some in Hm' as [[<- <-]|[Ha Hm']]; split_and!; try done; by eapply Hne.
Qed.

(** ** Transactions become ready *)

(** [store_inv] but for one account *)
Record others_ok (a : AccountAddress) s : Prop := {
  oo_indexed : indexed 0 0 (contents s) s;
  oo_account a' m' : a' ≠ a → transactions s !! a' = Some m' → ∃ n', account_ok s a' m' n';
  oo_placed a' n' t : a' ≠ a → contents s !! (a', n') = Some t →
    priority_make_key t ∈ priority_index s ∨ parked (parking_lot_index s) a' n';
  oo_count : N.of_nat (size (contents s)) <= capacity s;
  oo_bytes : size_bytes s <= capacity_bytes s + max_bytes;
  oo_capacity : capacity s < 2 ^ 64;
  oo_fits : capacity_bytes s + max_bytes < 2 ^ 64;
}.
(** The account lacks only the readiness of its transactions. *)
Record unsettled (a : AccountAddress) (m : gmap N MempoolTransaction) (n : N) s : Prop := {
  us_others : others_ok a s;
  us_this : transactions s !! a = Some m;
  us_nonempty : m ≠ ∅;
  us_size : N.of_nat (size m) <= capacity_per_user s;
  us_seq : sequence_numbers s !! a = Some n;
  us_from k : is_Some (m !! k) → n <= k;
}.
(** There are enough timeline ids left for the transactions of an account. *)
Definition ids_left s : Prop := ∀ b, next_id (timeline_index s) b + capacity_per_user s < 2 ^ 64.

Lemma strip_pool s s' a m m' :
  transactions s !! a = Some m → transactions s' = <[a := m']> (transactions s) →
  strip <$> m' = strip <$> m → pool s' = pool s.
Proof.
  intros Hm Htr Hst. apply map_eq. intros [a' n']. rewrite !pool_lookup. unfold get_mempool_txn.
  rewrite Htr. destruct (decide (a' = a)) as [->|]; [|by rewrite lookup_insert_ne].
  rewrite lookup_insert_eq, Hm. cbn. by rewrite <- !lookup_fmap, Hst.
Qed.
Lemma strip_key t t' : strip t = strip t' → priority_make_key t = priority_make_key t'.
Proof. intros Hst. change (priority_make_key (strip t) = priority_make_key (strip t')). by rewrite Hst. Qed.

Lemma settle a m n s :
  unsettled a m n s → ids_left s →
  ∃ s', process_ready_transactions a (Sequential n) s = Ok s' ∧ store_inv 0 0 s' ∧ evolves s s' ∧
        pool s' = pool s ∧ sequence_numbers s' = sequence_numbers s ∧
        (∀ b, next_id (timeline_index s') b <= next_id (timeline_index s) b + capacity_per_user s).
Proof.
  intros [Hoo Hm Hm0 Hsz Hseq Hfrom] Hids.
  destruct (process_ready_ok s a m n) as
    (s' & m' & Hrun & Hix' & Hcfg & Htr & Hst & Hsq & Hmono & Hchain & Hplaced & Hpark & Hnext).
  { apply Hoo. } { done. }
  { pose proof (oo_count _ _ Hoo). pose proof (oo_capacity _ _ Hoo). lia. }
  { intros b. specialize (Hids b). lia. }
  assert (pool s' = pool s) as Hpool by by eapply strip_pool.
  exists s'. split_and!; [done| |done..|intros b; specialize (Hnext b); lia].
  destruct Hcfg as (Hc1 & Hc2 & Hc3 & _).
  assert (dom m' = dom m) as Hdom by (rewrite <- (dom_fmap_L strip m'), Hst; by rewrite dom_fmap_L).
  assert (∀ k, is_Some (m' !! k) ↔ is_Some (m !! k)) as Hsome by (intros k; by rewrite <- !elem_of_dom, Hdom).
  split; rewrite ?Hc1, ?Hc2; [done|..|apply Hoo|apply Hoo].
  - intros a' m1 Hm1. rewrite Htr in Hm1. apply lookup_insert_Some in Hm1 as [[<- <-]|[Ha Hm1]].
    + exists n. split; [| |by rewrite Hsq| |].
      * intros He. apply Hm0. apply dom_empty_iff_L. rewrite <- Hdom, He. by apply dom_empty_L.
      * rewrite Hc3. by rewrite <- size_dom, Hdom, size_dom.
      * intros k Hk%Hsome. by apply Hfrom.
      * intros k t Hk Hall Ht. apply (Hchain k t); [done| |done]. intros j Hj. by apply Hsome, Hall.
    + destruct (oo_account _ _ Hoo _ _ (not_eq_sym Ha) Hm1) as [n' Hn']. exists n'.
      apply (account_ok_frame s s' a' m1 m1); [done|apply Hn'|done|done|by rewrite Hsq|].
      intros k t _. apply Hmono.
  - intros a' k t Ht. destruct (decide (a' = a)) as [->|Ha].
    + rewrite (contents_elem s' a m') in Ht by (by rewrite Htr, lookup_insert_eq).
      apply Hplaced; [|done]. apply Hfrom, Hsome. eauto.
    + rewrite contents_lookup in Ht. unfold get_mempool_txn in Ht. rewrite Htr, lookup_insert_ne in Ht by done.
      fold (get_mempool_txn s a' k) in Ht. rewrite <- contents_lookup in Ht.
      destruct (oo_placed _ _ Hoo _ _ _ Ha Ht); [left; by apply Hmono|right; by apply Hpark].
  - rewrite <- pool_size, Hpool, pool_size. apply Hoo.
  - rewrite (ix_bytes _ _ _ _ Hix'), <- pool_bytes, Hpool, pool_bytes, <- (ix_bytes _ _ _ _ (oo_indexed _ _ Hoo)).
    apply Hoo.
Qed.
Lemma settled_without a s : others_ok a s → transactions s !! a = None → store_inv 0 0 s.
Proof.
  intros Hoo Ha. split; try apply Hoo.
  - intros a' m' Hm'. apply (oo_account _ _ Hoo); [|done]. congruence.
  - intros a' n t Ht. apply (oo_placed _ _ Hoo); [|done]. intros ->.
    rewrite contents_lookup in Ht. unfold get_mempool_txn in Ht. by rewrite Ha in Ht.
Qed.

(** Cleaning one account, whose sequence number may have just changed, leaves the others alone. *)
Lemma clean_others a n seqs s s1 :
  store_inv 0 0 s → (∀ a', a' ≠ a → seqs !! a' = sequence_numbers s !! a') →
  shrunk (λ p, p.1 = a ∧ p.2 < n) 0 0 (set_sequence_numbers seqs s) s1 → others_ok a s1.
Proof.
  intros Hinv Hseqs Hsh. set (s0 := set_sequence_numbers seqs s) in *.
  assert (contents s0 = contents s) as Hcon0 by done.
  pose proof (sh_config _ _ _ _ _ Hsh) as (Hc1 & Hc2 & Hc3 & _). cbn in Hc1, Hc2, Hc3.
  split; rewrite ?Hc1, ?Hc2; [apply Hsh|..|apply Hinv|apply Hinv].
  - intros a' m' Ha Hm'. destruct (sh_account _ _ _ _ _ Hsh _ _ Hm') as (Hne & [m0 Hm0] & Hseq).
    pose proof (shrunk_account _ _ _ _ _ _ _ _ Hsh Hm0 Hm') as Hmm.
    destruct (si_account _ _ _ Hinv a' m0 Hm0) as [n' Hn']. exists n'.
    apply (account_ok_frame s s1 a' m0 m'); [done|done| |done| |].
    + apply map_subseteq_spec. intros k x Hx. by apply Hmm in Hx as [? _].
    + rewrite Hseq. by apply Hseqs.
    + intros k x [Hx _]%Hmm Hin. apply (sh_priority _ _ _ _ _ Hsh). split; [done|].
      rewrite <- (contents_elem s a' m0 k Hm0) in Hx. rewrite (key_of _ _ _ _ _ _ Hinv Hx). naive_solver.
  - intros a' n' t Ha [Ht Hgone]%(sh_contents _ _ _ _ _ Hsh). rewrite Hcon0 in Ht.
    destruct (si_placed _ _ _ Hinv _ _ _ Ht) as [Hin|Hp].
    + left. apply (sh_priority _ _ _ _ _ Hsh). split; [done|]. by rewrite (key_of _ _ _ _ _ _ Hinv Ht).
    + right. by apply (sh_parked _ _ _ _ _ Hsh).
  - pose proof (map_subseteq_size _ _ (shrunk_subseteq _ _ _ _ _ Hsh)) as Hsz. rewrite Hcon0 in Hsz.
    pose proof (si_count _ _ _ Hinv). lia.
  - assert (size_bytes s1 <= size_bytes s0) as Hby; [|pose proof (si_bytes _ _ _ Hinv); cbn in Hby; lia].
    eapply shrunk_bytes; [|done]. rewrite Hcon0. by eapply indexed_ext, Hinv.
Qed.
Lemma shrunk_pool gone ls le s s' p x :
  shrunk gone ls le s s' → pool s' !! p = Some x ↔ pool s !! p = Some x ∧ ¬ gone p.
Proof.
  intros Hsh. unfold pool. rewrite !lookup_fmap, !fmap_Some. setoid_rewrite (sh_contents _ _ _ _ _ Hsh).
  naive_solver.
Qed.

Lemma store_commit_ok s a n :
  store_inv 0 0 s → ids_left s → n < U64_MAX →
  let next := N.max (default 0 (sequence_numbers s !! a)) (n + 1) in
  ∃ s', store_commit_transaction a n s = Ok s' ∧ store_inv 0 0 s' ∧ evolves s s' ∧
    (∀ p x, pool s' !! p = Some x ↔ pool s !! p = Some x ∧ ¬ (p.1 = a ∧ p.2 < next)) ∧
    (∀ b, next_id (timeline_index s') b <= next_id (timeline_index s) b + capacity_per_user s).
Proof.
  intros Hinv Hids Hn next. unfold store_commit_transaction, u64_add, u64_checked_add, get_sequence_number.
  destruct (N.ltb_spec (n + 1) (2 ^ 64)); [|unfold U64_MAX in Hn; lia]. run_ok. cbn [min_seq]. fold next.
  set (s0 := set_sequence_numbers _ _).
  destruct (clean_committed_shrunk s0 a next) as (s1 & -> & Hsh & _ & _).
  { change (contents s0) with (contents s). by eapply indexed_ext, Hinv. }
  { by eapply (si_nonempty 0 0 s). }
  run_ok. pose proof (clean_others a next _ s s1 Hinv (λ a' Ha, lookup_insert_ne _ _ _ _ (not_eq_sym Ha)) Hsh) as Hoo.
  pose proof (sh_config _ _ _ _ _ Hsh : evolves s s1) as Hcfg1. pose proof Hcfg1 as (_ & _ & Hc3 & _).
  assert (∀ p x, pool s1 !! p = Some x ↔ pool s !! p = Some x ∧ ¬ (p.1 = a ∧ p.2 < next)) as Hpool
    by (intros p x; by apply (shrunk_pool _ _ _ _ _ _ _ Hsh)).
  assert (∀ b, next_id (timeline_index s1) b = next_id (timeline_index s) b) as Hnx by apply Hsh.
  destruct (transactions s1 !! a) as [m1|] eqn:Hm1.
  - destruct (sh_account _ _ _ _ _ Hsh _ _ Hm1) as (Hne & [m0 Hm0] & Hseq).
    pose proof (shrunk_account _ _ _ _ _ _ _ _ Hsh Hm0 Hm1) as Hmm.
    destruct (settle a m1 next s1) as (s' & Hrun & Hinv' & Hcfg & Hpool' & _ & Hnext).
    + split; [done..| | |].
      * rewrite Hc3. destruct (si_account _ _ _ Hinv a m0 Hm0) as [n' Hn'].
        assert (m1 ⊆ m0) as Hsub by (apply map_subseteq_spec; intros k x Hx; by apply Hmm in Hx as [? _]).
        pose proof (map_subseteq_size _ _ Hsub). pose proof (ao_size _ _ _ _ Hn'). lia.
      * rewrite Hseq. cbn. by rewrite lookup_insert_eq.
      * intros k [x [_ Hk]%Hmm]. cbn in Hk. destruct (N.lt_ge_cases k next); [naive_solver|done].
    + intros b. rewrite Hnx, Hc3. apply Hids.
    + exists s'. split_and!; [done|done|by trans s1|by rewrite Hpool'|].
      intros b. specialize (Hnext b). by rewrite Hnx, Hc3 in Hnext.
  - exists s1. unfold process_ready_transactions. rewrite Hm1. split_and!; [done| |done|done|].
    + by eapply settled_without.
    + intros b. rewrite Hnx. lia.
Qed.

(** ** Insertion *)

(** A transaction that is already there gives way to one that differs only in a higher gas price. *)
Definition same_but_gas (c t : MempoolTransaction) : bool :=
  bool_decide (payload (txn c) = payload (txn t)) &&
  (expiration_timestamp_secs (txn c) =? expiration_timestamp_secs (txn t)) &&
  (max_gas_amount (txn c) =? max_gas_amount (txn t)).
Definition replaces (c t : MempoolTransaction) : bool :=
  same_but_gas c t && (get_gas_price c <? get_gas_price t).
Definition update_status (c t : MempoolTransaction) : MempoolStatusCode :=
  if same_but_gas c t && (get_gas_price c =? get_gas_price t) then Accepted else InvalidUpdate.

Lemma insert_update_ok s t :
  store_inv 0 0 s →
  match get_mempool_txn s (get_sender t) (txn_seq t) with
  | Some c =>
      if replaces c t then
        ∃ s', insert_update t s = Ok (None, s') ∧ store_inv 0 0 s' ∧ shrunk (λ p, p = txn_pointer t) 0 0 s s' ∧
              contents s' = delete (txn_pointer t) (contents s)
      else insert_update t s = Ok (Some (update_status c t), s)
  | None => insert_update t s = Ok (None, s)
  end.
Proof.
  intros Hinv. unfold insert_update, replaces, update_status, same_but_gas, get_gas_price.
  destruct (get_mempool_txn s (get_sender t) (txn_seq t)) as [c|] eqn:Hc; [|done].
  destruct (bool_decide (payload (txn c) = payload (txn t))); cbn [negb andb]; [|done].
  destruct (expiration_timestamp_secs (txn c) =? expiration_timestamp_secs (txn t)); cbn [negb andb]; [|done].
  destruct (max_gas_amount (txn c) =? max_gas_amount (txn t)); cbn [negb andb]; [|done].
  destruct (N.ltb_spec (gas_unit_price (txn c)) (gas_unit_price (txn t))).
  - destruct (remove_one_shrunk 0 0 s (get_sender t) (txn_seq t) c) as (s' & -> & Hsh & Hcon);
      [apply Hinv|by eapply si_nonempty|done|].
    run_ok. exists s'. split_and!; [done|by eapply shrunk_inv|done..].
  - destruct (N.ltb_spec (gas_unit_price (txn t)) (gas_unit_price (txn c))),
      (N.eqb_spec (gas_unit_price (txn c)) (gas_unit_price (txn t))); done || lia.
Qed.

(** When the mempool is full, a transaction that would be ready evicts a parked one. *)
Definition evicts s s' : Prop :=
  ∃ p x, is_full s = true ∧ contents s !! p = Some x ∧ ¬ is_ready x ∧ shrunk (λ q, q = p) 0 0 s s'.
Lemma check_is_full_ok rng t n s :
  store_inv 0 0 s → n <= txn_seq t →
  ∃ s', check_is_full_after_eviction rng t n s = Ok (is_full s', s') ∧ store_inv 0 0 s' ∧
        (s' = s ∨ evicts s s').
Proof.
  intros Hinv Hn. unfold check_is_full_after_eviction.
  assert (∃ b, (if is_full s then check_txn_ready t n s else Ok false) = Ok b ∧ (b = true → is_full s = true))
    as (b & -> & Hb).
  { destruct (is_full s); [|by eexists]. unfold check_txn_ready.
    destruct (N.eqb_spec (txn_seq t) n); [by eexists|]. destruct (N.eqb_spec (txn_seq t) 0); [lia|].
    repeat case_match; by eexists. }
  run_ok. destruct b; [|exists s; run_ok; auto].
  destruct (parking_lot_get_poppable rng (parking_lot_index s)) as [[a k]|] eqn:Hpop; [|exists s; run_ok; auto].
  apply parking_lot_get_poppable_ok in Hpop as [Hp _]; [|apply Hinv].
  destruct (ix_parked _ _ _ _ (si_indexed _ _ _ Hinv) _ _ Hp) as (x & Hx & Hr).
  rewrite contents_lookup in Hx. rewrite Hx.
  destruct (remove_one_shrunk 0 0 s a k x) as (s' & -> & Hsh & Hcon); [apply Hinv|by eapply si_nonempty|done|].
  exists s'. run_ok. split_and!; [done|by eapply shrunk_inv|]. right. exists (a, k), x.
  split_and!; [by apply Hb|by rewrite contents_lookup|done|done].
Qed.

Lemma not_full s :
  store_inv 0 0 s → is_full s = false →
  N.of_nat (size (contents s)) < capacity s ∧ size_bytes s < capacity_bytes s.
Proof.
  intros Hinv. unfold is_full. rewrite orb_false_iff, !N.leb_gt, (ix_count _ _ _ (si_indexed _ _ _ Hinv)). done.
Qed.

(** A transaction as [add_txn] builds it *)
Record fresh_txn t n : Prop := {
  ft_info : sequence_info t = mkSequenceInfo (sequence_number (txn t)) (Sequential n);
  ft_from : n <= sequence_number (txn t);
  ft_legit : legit (txn t);
  ft_state : ¬ is_ready t;
}.

Lemma insert_new_ok t n txns s :
  store_inv 0 0 s → fresh_txn t n → ids_left s →
  default ∅ (transactions s !! get_sender t) = txns → txns !! txn_seq t = None →
  (∀ k, is_Some (txns !! k) → n <= k) → N.of_nat (size txns) < capacity_per_user s →
  N.of_nat (size (contents s)) < capacity s → size_bytes s < capacity_bytes s →
  ∃ s', insert_new t txns s = Ok s' ∧ store_inv 0 0 s' ∧ evolves s s' ∧
        pool s' = <[txn_pointer t := strip t]> (pool s) ∧
        (∀ b, next_id (timeline_index s') b <= next_id (timeline_index s) b + capacity_per_user s).
Proof.
  intros Hinv [Hinfo Hfrom Hl Hst] Hids Htx Hfree Hge Huser Hcount Hbytes. set (a := get_sender t) in *.
  assert (txn_seq t = sequence_number (txn t)) as Hseq by (unfold txn_seq; by rewrite Hinfo).
  pose proof (legit_bytes _ Hl) as Hmax. pose proof (si_fits _ _ _ Hinv) as Hfits.
  unfold insert_new. rewrite Hinfo. cbn [account_sequence_number_type min_seq]. fold a.
  unfold u64_add, u64_checked_add. change (raw_txn_bytes_len (txn t) + _ + _) with (get_estimated_bytes t) in Hmax.
  destruct (N.ltb_spec (size_bytes s + get_estimated_bytes t) (2 ^ 64)); [|lia]. run_ok.
  set (s1 := set_sequence_numbers _ _).
  assert (contents s1 = <[(a, txn_seq t) := t]> (contents s)) as Hcon1.
  { rewrite <- (contents_insert s a txns) by done. done. }
  assert (contents s !! (a, txn_seq t) = None) as Hnone.
  { rewrite contents_lookup. unfold get_mempool_txn. destruct (transactions s !! a); cbn in *; by subst. }
  assert (indexed 0 0 (contents s1) s1) as Hix1.
  { rewrite Hcon1. eapply indexed_ext; [|apply (indexed_fresh (contents s) s a (txn_seq t) t); try done; apply Hinv].
    done. }
  destruct (settle a (<[txn_seq t := t]> txns) n s1) as (s' & Hrun & Hinv' & Hcfg & Hpool & _ & Hnext).
  - split; [split| | | | |]; cbn.
    + done.
    + intros a' m' Ha. rewrite lookup_insert_ne by done. intros Hm'.
      destruct (si_account _ _ _ Hinv a' m' Hm') as [n' Hn']. exists n'.
      apply (account_ok_frame s _ a' m' m'); [done|apply Hn'|done|done| |done]. cbn. by rewrite lookup_insert_ne.
    + intros a' n' x Ha. rewrite Hcon1, lookup_insert_ne by congruence. apply Hinv.
    + rewrite Hcon1, map_size_insert_None by done. lia.
    + lia.
    + apply Hinv.
    + apply Hinv.
    + by rewrite lookup_insert_eq.
    + apply insert_non_empty.
    + rewrite map_size_insert_None by done. lia.
    + by rewrite lookup_insert_eq.
    + intros k. destruct (decide (k = txn_seq t)) as [->|]; [lia|]. rewrite lookup_insert_ne by done. apply Hge.
  - exact Hids.
  - exists s'. split_and!; [done|done|done| |done]. rewrite Hpool. unfold pool. rewrite Hcon1, fmap_insert. done.
Qed.

(** *** What an insertion does to the pool *)
Abbreviation Pool := (gmap (AccountAddress * N) MempoolTransaction).
Definition pool_full (cap cap_bytes : N) (P : Pool) : bool :=
  (cap <=? N.of_nat (size P)) || (cap_bytes <=? map_sum get_estimated_bytes P).
Definition pool_clean (a : AccountAddress) (n : N) (P : Pool) : Pool :=
  filter (λ p, ¬ (p.1.1 = a ∧ p.1.2 < n)) P.
Definition pool_account_size (a : AccountAddress) (P : Pool) : N :=
  N.of_nat (size (filter (λ p, p.1.1 = a) P)).
(** [evicted] is the transaction that makes room, if any; [n] the account's sequence number. *)
Definition spec_insert (cap cap_bytes cap_user : N) (evicted : option ptr) t (n : N) (P : Pool)
  : MempoolStatusCode * Pool :=
  match P !! txn_pointer t ≫= λ c, if replaces c t then None else Some (update_status c t) with
  | Some status => (status, P)
  | None =>
      let P1 := delete (txn_pointer t) P in
      let P2 := match evicted with Some p => delete p P1 | None => P1 end in
      if pool_full cap cap_bytes P2 then (MempoolIsFull, P2)
      else
        let P3 := pool_clean (get_sender t) n P2 in
        if cap_user <=? pool_account_size (get_sender t) P3 then (TooManyTransactions, P3)
        else (Accepted, <[txn_pointer t := strip t]> P3)
  end.

Lemma pool_account_size_ok s a :
  pool_account_size a (pool s) = N.of_nat (size (default ∅ (transactions s !! a))).
Proof.
  unfold pool_account_size. f_equal.
  assert (filter (λ p : ptr * MempoolTransaction, p.1.1 = a) (pool s) =
    kmap (pair a) (strip <$> default ∅ (transactions s !! a))) as ->.
  2: { rewrite <- length_map_to_list, (map_to_list_kmap _), length_fmap, length_map_to_list.
       apply map_size_fmap. }
  apply map_eq. intros [a' n']. apply option_eq. intros x. rewrite map_lookup_filter_Some, pool_lookup. cbn.
  rewrite (lookup_kmap_Some _). unfold get_mempool_txn. split.
  - intros [Hx ->]. exists n'. split; [done|]. rewrite lookup_fmap. by destruct (transactions s !! a).
  - intros (n & [= -> ->] & Hx). split; [|done]. rewrite lookup_fmap in Hx. by destruct (transactions s !! a).
Qed.
Lemma pool_full_ok s : store_inv 0 0 s → pool_full (capacity s) (capacity_bytes s) (pool s) = is_full s.
Proof. intros Hinv. by rewrite si_is_full. Qed.
Lemma shrunk_one_pool p ls le s s' : shrunk (λ q, q = p) ls le s s' → pool s' = delete p (pool s).
Proof.
  intros Hsh. apply map_eq. intros q. apply option_eq. intros x.
  rewrite (shrunk_pool _ _ _ _ _ _ _ Hsh), lookup_delete_Some. naive_solver.
Qed.
Lemma shrunk_clean_pool a n ls le s s' :
  shrunk (λ p, p.1 = a ∧ p.2 < n) ls le s s' → pool s' = pool_clean a n (pool s).
Proof.
  intros Hsh. apply map_eq. intros q. apply option_eq. intros x.
  rewrite (shrunk_pool _ _ _ _ _ _ _ Hsh). unfold pool_clean. rewrite map_lookup_filter_Some. done.
Qed.
Lemma pool_pointer s t : pool s !! txn_pointer t = strip <$> get_mempool_txn s (get_sender t) (txn_seq t).
Proof. apply pool_lookup. Qed.

Lemma set_transactions_id s m : m = transactions s → set_transactions m s = s.
Proof. intros ->. by destruct s. Qed.

Lemma insert_clean_ok t n s :
  store_inv 0 0 s → fresh_txn t n → ids_left s → 0 < capacity_per_user s →
  contents s !! txn_pointer t = None → is_full s = false →
  ∃ status s', insert_clean t s = Ok (status, s') ∧
    store_inv 0 0 s' ∧ evolves s s' ∧
    (status, pool s') =
      (let P := pool_clean (get_sender t) n (pool s) in
       if capacity_per_user s <=? pool_account_size (get_sender t) P then (TooManyTransactions, P)
       else (Accepted, <[txn_pointer t := strip t]> P)) ∧
    (∀ b, next_id (timeline_index s') b <= next_id (timeline_index s) b + capacity_per_user s).
Proof.
  intros Hinv Hft Hids Huser Hfree Hfull. unfold insert_clean. rewrite (ft_info _ _ Hft).
  cbn [account_sequence_number_type min_seq].
  destruct (clean_committed_shrunk s (get_sender t) n) as (s1 & -> & Hsh & _ & _); [apply Hinv|by eapply si_nonempty|].
  run_ok. pose proof (shrunk_inv _ _ _ _ _ Hinv Hsh) as Hinv1.
  pose proof (sh_config _ _ _ _ _ Hsh) as Hcfg. pose proof Hcfg as (Hc1 & Hc2 & Hc3 & _).
  set (txns := default ∅ (transactions s1 !! get_sender t)). set (s2 := set_transactions _ s1).
  assert (contents s2 = contents s1) as Hcon2.
  { apply map_eq. intros [a' n']. rewrite !contents_lookup. unfold get_mempool_txn. cbn.
    destruct (decide (a' = get_sender t)) as [->|]; [|by rewrite lookup_insert_ne].
    rewrite lookup_insert_eq. cbn. unfold txns. by destruct (transactions s1 !! get_sender t). }
  rewrite <- (shrunk_clean_pool _ _ _ _ _ _ Hsh), pool_account_size_ok. fold txns.
  change (capacity_per_user s2) with (capacity_per_user s1). rewrite Hc3.
  assert (txns = ∅ ∨ transactions s1 !! get_sender t = Some txns) as Htx
    by (unfold txns; destruct (transactions s1 !! get_sender t); auto).
  destruct (N.leb_spec (capacity_per_user s) (N.of_nat (size txns))) as [Hle|Hgt].
  - exists TooManyTransactions, s2. destruct Htx as [Htx|Htx]; [rewrite Htx, map_size_empty in Hle; lia|].
    assert (s2 = s1) as -> by (apply set_transactions_id; by rewrite insert_id).
    split_and!; [done..|]. intros b. rewrite (sh_next _ _ _ _ _ Hsh). lia.
  - destruct (not_full s Hinv Hfull) as [Hcount Hbytes].
    pose proof (map_subseteq_size _ _ (shrunk_subseteq _ _ _ _ _ Hsh)) as Hsz.
    pose proof (shrunk_bytes _ _ _ _ _ _ _ (si_indexed _ _ _ Hinv) Hsh) as Hby.
    destruct (insert_new_ok t n txns s1) as (s' & Hrun & Hinv' & Hcfg' & Hpool & Hnext); try done; try lia.
    + intros b. rewrite (sh_next _ _ _ _ _ Hsh), Hc3. apply Hids.
    + destruct Htx as [->|Htx]; [by rewrite lookup_empty|]. rewrite <- (contents_elem s1 _ _ _ Htx).
      apply eq_None_not_Some. intros [x [Hx _]%(sh_contents _ _ _ _ _ Hsh)].
      unfold txn_pointer in Hfree. congruence.
    + intros k [x Hx]. destruct Htx as [->|Htx]; [by rewrite lookup_empty in Hx|].
      rewrite <- (contents_elem s1 _ _ _ Htx) in Hx. apply (sh_contents _ _ _ _ _ Hsh) in Hx as [_ Hgone].
      cbn in Hgone. destruct (N.lt_ge_cases k n); [naive_solver|done].
    + assert (insert_new t txns s2 = insert_new t txns s1) as ->.
      { unfold insert_new. cbn. by rewrite insert_insert_eq. }
      rewrite Hrun. run_ok. exists Accepted, s'. split_and!; [done|done|by trans s1|by rewrite Hpool|].
      intros b. specialize (Hnext b). by rewrite (sh_next _ _ _ _ _ Hsh), Hc3 in Hnext.
Qed.

Lemma store_insert_ok rng t n s :
  store_inv 0 0 s → fresh_txn t n → ids_left s → 0 < capacity_per_user s →
  ∃ status s' evicted, store_insert rng t s = Ok (status, s') ∧ store_inv 0 0 s' ∧ evolves s s' ∧
    (status, pool s') =
      spec_insert (capacity s) (capacity_bytes s) (capacity_per_user s) evicted t n (pool s) ∧
    (∀ p, evicted = Some p → pool_full (capacity s) (capacity_bytes s) (delete (txn_pointer t) (pool s)) = true ∧
                             ∃ x, delete (txn_pointer t) (contents s) !! p = Some x ∧ ¬ is_ready x) ∧
    (∀ b, next_id (timeline_index s') b <= next_id (timeline_index s) b + capacity_per_user s).
Proof.
  intros Hinv Hft Hids Huser. unfold store_insert, spec_insert. rewrite pool_pointer.
  assert (txn_seq t = sequence_number (txn t)) as Hseq by (unfold txn_seq; by rewrite (ft_info _ _ Hft)).
  pose proof (insert_update_ok s t Hinv) as Hup. rewrite <- contents_lookup in Hup |- *.
  fold (txn_pointer t) in Hup |- *.
  assert (∃ s1, (∃ c, contents s !! txn_pointer t = Some c ∧ replaces c t = false ∧ s1 = s ∧
      insert_update t s = Ok (Some (update_status c t), s)) ∨
    (insert_update t s = Ok (None, s1) ∧ store_inv 0 0 s1 ∧ evolves s s1 ∧
     contents s1 = delete (txn_pointer t) (contents s) ∧
     (∀ b, next_id (timeline_index s1) b = next_id (timeline_index s) b) ∧
     ∀ c, contents s !! txn_pointer t = Some c → replaces c t = true)) as (s1 & Hcase).
  { destruct (contents s !! txn_pointer t) as [c|] eqn:Hc.
    - destruct (replaces c t) eqn:Hr; [|exists s; left; by exists c].
      destruct Hup as (s1 & Hrun & Hinv1 & Hsh & Hcon). exists s1. right.
      split_and!; [done|done|apply Hsh|done|apply Hsh|]. by intros c' [= <-].
    - exists s. right. split_and!; [done..| |done|done]. by rewrite delete_id. }
  destruct Hcase as [(c & Hc & Hr & -> & ->)|(-> & Hinv1 & Hcfg1 & Hcon1 & Hnx1 & Hrepl)].
  { run_ok. rewrite Hc. cbn [fmap option_fmap option_map mbind option_bind].
    change (replaces (strip c) t) with (replaces c t). rewrite Hr. exists (update_status c t), s, None.
    split_and!; [done..|]. intros; lia. }
  run_ok. assert (pool s1 = delete (txn_pointer t) (pool s)) as Hpool1
    by (unfold pool; by rewrite Hcon1, fmap_delete).
  assert (((strip <$> contents s !! txn_pointer t) ≫= λ c, if replaces c t then None else Some (update_status c t)) = None)
    as ->.
  { destruct (contents s !! txn_pointer t) as [c|] eqn:Hc; [|done]. cbn.
    change (replaces (strip c) t) with (replaces c t). by rewrite (Hrepl c eq_refl). }
  pose proof Hcfg1 as (Hc1 & Hc2 & Hc3 & _). rewrite (ft_info _ _ Hft). cbn [account_sequence_number_type min_seq].
  destruct (check_is_full_ok rng t n s1 Hinv1) as (s2 & -> & Hinv2 & Hev).
  { rewrite Hseq. apply Hft. }
  run_ok. rewrite <- Hpool1.
  assert (∃ evicted, pool s2 = match evicted with Some p => delete p (pool s1) | None => pool s1 end ∧
     evolves s1 s2 ∧ contents s2 ⊆ contents s1 ∧
     (∀ b, next_id (timeline_index s2) b = next_id (timeline_index s1) b) ∧
     (∀ p, evicted = Some p → is_full s1 = true ∧ ∃ x, contents s1 !! p = Some x ∧ ¬ is_ready x)) as (evicted & Hpool2 & Hcfg2 & Hsub2 & Hnx2 & Hevp).
  { destruct Hev as [->|(p & x & Hfull & Hx & Hnr & Hsh)]; [by exists None|]. exists (Some p).
    split_and!; [by apply (shrunk_one_pool _ _ _ _ _ Hsh)|apply Hsh|by eapply shrunk_subseteq|apply Hsh|].
    intros q [= <-]. eauto. }
  pose proof Hcfg2 as (Hd1 & Hd2 & Hd3 & _).
  assert (pool_full (capacity s) (capacity_bytes s) (pool s2) = is_full s2) as Hpf
    by (rewrite <- Hc1, <- Hc2, <- Hd1, <- Hd2; by apply pool_full_ok).
  assert (∀ p, evicted = Some p → pool_full (capacity s) (capacity_bytes s) (pool s1) = true ∧
     ∃ x, contents s1 !! p = Some x ∧ ¬ is_ready x) as Hevp' by (rewrite <- Hc1, <- Hc2, pool_full_ok; done).
  rewrite Hcon1 in Hevp'.
  destruct (is_full s2) eqn:Hfull2.
  - exists MempoolIsFull, s2, evicted. rewrite <- Hpool2, Hpf.
    split_and!; [done|done|by trans s1|done|done|]. intros b. rewrite Hnx2, Hnx1. lia.
  - destruct (insert_clean_ok t n s2) as (status & s' & Hrun & Hinv' & Hcfg' & Hpool' & Hnext); try done.
    + intros b. rewrite Hnx2, Hnx1, Hd3, Hc3. apply Hids.
    + by rewrite Hd3, Hc3.
    + apply eq_None_not_Some. intros [x Hx]. pose proof (lookup_weaken _ _ _ _ Hx Hsub2) as Hx1.
      by rewrite Hcon1, lookup_delete_eq in Hx1.
    + exists status, s', evicted. split_and!; [done|done|by trans s2; [trans s1|]| |done|].
      * rewrite <- Hpool2, Hpf. by rewrite Hpool', Hd3, Hc3.
      * intros b. specialize (Hnext b). by rewrite Hnx2, Hnx1, Hd3, Hc3 in Hnext.
Qed.

(** ** Rejection *)
Lemma store_reject_ok s a n h :
  store_inv 0 0 s →
  ∃ s', store_reject_transaction a n h s = Ok s' ∧ store_inv 0 0 s' ∧ evolves s s' ∧
    pool s' = (if decide (get_committed_hash <$> pool s !! (a, n) = Some h)
               then delete (a, n) (pool s) else pool s) ∧
    (∀ b, next_id (timeline_index s') b = next_id (timeline_index s) b).
Proof.
  intros Hinv. unfold store_reject_transaction.
  assert (get_committed_hash <$> pool s !! (a, n) = Some h ↔ hash_index s !! h = Some (a, n)) as Hh.
  { rewrite (ix_hash _ _ _ _ (si_indexed _ _ _ Hinv)). unfold pool. rewrite lookup_fmap.
    destruct (contents s !! (a, n)) as [x|]; cbn; [|naive_solver].
    change (get_committed_hash (strip x)) with (get_committed_hash x). naive_solver. }
  destruct (hash_index s !! h) as [[a' n']|] eqn:Hi.
  - destruct (N.eqb_spec a a') as [<-|]; [destruct (N.eqb_spec n n') as [<-|]|]; cbn [andb].
    + rewrite decide_True by naive_solver.
      apply (ix_hash _ _ _ _ (si_indexed _ _ _ Hinv)) in Hi as (x & Hx & _). rewrite contents_lookup in Hx.
      rewrite Hx. destruct (remove_one_shrunk 0 0 s a n x) as (s' & -> & Hsh & _);
        [apply Hinv|by eapply si_nonempty|done|].
      exists s'. split_and!; [done|by eapply shrunk_inv|apply Hsh|by apply (shrunk_one_pool _ _ _ _ _ Hsh)|apply Hsh].
    + exists s. rewrite decide_False by naive_solver. done.
    + exists s. rewrite decide_False by naive_solver. done.
  - exists s. rewrite decide_False by naive_solver. done.
Qed.

(** ** Expiry *)

(** What parking the transactions at [ps] of one account does *)
Record parks (ps : list ptr) (a : AccountAddress) (ls le : Duration) s s' : Prop := {
  pk_indexed : indexed ls le (contents s') s';
  pk_config : evolves s s';
  pk_pool : pool s' = pool s;
  pk_priority k : k ∈ priority_index s' ↔ k ∈ priority_index s ∧ oq_pointer k ∉ ps;
  pk_parked a' n' : parked (parking_lot_index s') a' n' ↔ parked (parking_lot_index s) a' n' ∨ (a', n') ∈ ps;
  pk_next b : next_id (timeline_index s') b = next_id (timeline_index s) b;
  pk_others a' : a' ≠ a → transactions s' !! a' = transactions s !! a';
  pk_seq : sequence_numbers s' = sequence_numbers s;
  pk_keep p : p ∉ ps → contents s' !! p = contents s !! p;
}.

Lemma gc_park_ok ls le s t :
  indexed ls le (contents s) s → contents s !! txn_pointer t = Some t →
  N.of_nat (size (contents s)) < 2 ^ 64 →
  ∃ s', gc_park t s = Ok s' ∧ parks [txn_pointer t] (get_sender t) ls le s s'.
Proof.
  intros Hix Ht Hsize. unfold gc_park.
  destruct (park_run _ _ _ _ _ Hix Ht Hsize) as (pl & -> & Hpl & Hp). run_ok.
  destruct (multi_bucket_remove_ok (timeline_index s) t) as (tl & -> & Htl & Hmins & Hat & Hnext); [apply Hix|].
  run_ok. set (st := match timeline_state t with Ready _ => NotReady | x => x end).
  assert (match timeline_state t with Ready _ => set_timeline_state NotReady t | _ => t end =
    set_timeline_state st t) as ->.
  { unfold st. destruct t as [? ? ? [] ? ?]; done. }
  pose proof Ht as Hm. unfold txn_pointer in Hm. rewrite contents_lookup in Hm. unfold get_mempool_txn in Hm.
  cbn [transactions set_indexes]. destruct (transactions s !! get_sender t) as [m|] eqn:Hma; [|done]. cbn in Hm.
  set (s1 := set_indexes _ _ _ _ _ _ _ s). set (s' := set_transactions _ s1).
  assert (contents s' = <[txn_pointer t := set_timeline_state st t]> (contents s)) as Hcon.
  { unfold txn_pointer. rewrite <- (contents_insert s (get_sender t) m) by (by rewrite Hma). done. }
  assert (∀ k, k ∈ priority_index_remove t (priority_index s) ↔ k ∈ priority_index s ∧ oq_pointer k ≠ txn_pointer t) as Hprio
    by (intros k; by apply (priority_remove_elem ls le (contents s))).
  exists s'. split; [done|]. split.
  - rewrite Hcon. eapply (indexed_ext _ _ _ s1); [done|].
    apply (indexed_move ls le (contents s) s _ _ t st _ tl pl False True); try done.
    + apply bset_remove_wf, Hix.
    + intros k. rewrite Hprio. unfold txn_pointer. case_decide; naive_solver.
    + intros b id p. rewrite (timeline_remove_ok _ _ _ _ _ _ tl Hix Ht).
      * unfold txn_pointer. case_decide as Hd; [|naive_solver]. subst p. split; [naive_solver|].
        intros [Hst _]. unfold st in Hst. by destruct (timeline_state t).
      * intros c. rewrite Hat. repeat case_match; by subst.
    + intros b id p. rewrite (timeline_remove_ok _ _ _ _ _ _ tl Hix Ht), Hnext.
      * intros [_ Hin]. by eapply ix_next.
      * intros c. rewrite Hat. repeat case_match; by subst.
    + intros a' n'. rewrite Hp. unfold txn_pointer. case_decide; naive_solver.
    + intros [id Hid]. unfold st in Hid. by destruct (timeline_state t).
    + naive_solver.
  - unfold evolves. split_and!; [done..|by eapply multi_bucket_remove_evolves].
  - unfold pool. rewrite Hcon, fmap_insert, strip_set. rewrite insert_id; [done|]. by rewrite lookup_fmap, Ht.
  - intros k. cbn. rewrite Hprio, list_elem_of_singleton. done.
  - intros a' n'. cbn. by rewrite Hp, list_elem_of_singleton.
  - intros b. cbn. apply Hnext.
  - intros a' Ha. cbn. by rewrite lookup_insert_ne.
  - done.
  - intros p. rewrite list_elem_of_singleton, Hcon. intros. by rewrite lookup_insert_ne.
Qed.
Lemma gc_park_all_ok ls le a l s :
  indexed ls le (contents s) s → (∀ t, t ∈ l → get_sender t = a ∧ contents s !! txn_pointer t = Some t) →
  NoDup (txn_pointer <$> l) → N.of_nat (size (contents s)) < 2 ^ 64 →
  ∃ s', gc_park_all l s = Ok s' ∧ parks (txn_pointer <$> l) a ls le s s'.
Proof.
  revert s. induction l as [|t l IH]; intros s Hix Hl Hnd Hsize.
  { exists s. split; [done|]. split; try done; intros; set_solver. }
  rewrite fmap_cons in Hnd |- *. apply NoDup_cons in Hnd as [Hnot Hnd].
  destruct (Hl t) as [Ha Ht]; [by left|].
  destruct (gc_park_ok ls le s t Hix Ht Hsize) as (s1 & Hrun1 & Hpk1).
  destruct (IH s1) as (s' & Hrun & Hpk2).
  - apply Hpk1.
  - intros x Hx. destruct (Hl x) as [Hax Hxs]; [by right|]. split; [done|].
    rewrite (pk_keep _ _ _ _ _ _ Hpk1); [done|]. rewrite list_elem_of_singleton. intros Heq. apply Hnot.
    rewrite <- Heq. apply list_elem_of_fmap. eauto.
  - done.
  - by rewrite <- pool_size, (pk_pool _ _ _ _ _ _ Hpk1), pool_size.
  - exists s'. cbn. rewrite Hrun1. run_ok. split; [done|]. split.
    + apply Hpk2.
    + trans s1; [apply Hpk1|apply Hpk2].
    + rewrite (pk_pool _ _ _ _ _ _ Hpk2). apply Hpk1.
    + intros k. rewrite (pk_priority _ _ _ _ _ _ Hpk2), (pk_priority _ _ _ _ _ _ Hpk1), list_elem_of_singleton, not_elem_of_cons.
      naive_solver.
    + intros a' n'. rewrite (pk_parked _ _ _ _ _ _ Hpk2), (pk_parked _ _ _ _ _ _ Hpk1), list_elem_of_singleton, elem_of_cons.
      naive_solver.
    + intros b. rewrite (pk_next _ _ _ _ _ _ Hpk2). apply Hpk1.
    + intros a' Ha'. rewrite (pk_others _ _ _ _ _ _ Hpk2) by done. apply Hpk1. by rewrite Ha.
    + rewrite (pk_seq _ _ _ _ _ _ Hpk2). apply Hpk1.
    + intros p Hp. apply not_elem_of_cons in Hp as [??]. rewrite (pk_keep _ _ _ _ _ _ Hpk2) by done. apply Hpk1.
      by rewrite list_elem_of_singleton.
Qed.

Lemma pool_same_dom s s' a m m' :
  pool s' = pool s → transactions s !! a = Some m → transactions s' !! a = Some m' →
  ∀ k, strip <$> m' !! k = strip <$> m !! k.
Proof.
  intros Hpool Hm Hm' k. rewrite <- (contents_elem s a m k Hm), <- (contents_elem s' a m' k Hm').
  rewrite <- !lookup_fmap. change (pool s' !! (a, k) = pool s !! (a, k)). by rewrite Hpool.
Qed.

(** An expired transaction leaves after those that follow it have been parked. *)
Lemma park_remove_inv ps a n ls le s s1 s' x :
  store_inv ls le s → contents s !! (a, n) = Some x →
  (∀ p, p ∈ ps → p.1 = a ∧ n < p.2) →
  parks ps a ls le s s1 → shrunk (λ p, p = (a, n)) ls le s1 s' → store_inv ls le s'.
Proof.
  intros Hinv Hx Hps Hpk Hsh.
  pose proof (transitivity (pk_config _ _ _ _ _ _ Hpk) (sh_config _ _ _ _ _ Hsh)) as (Hc1 & Hc2 & Hc3 & _).
  pose proof (pk_pool _ _ _ _ _ _ Hpk) as Hpool.
  assert (size (contents s1) = size (contents s)) as Hsz by by rewrite <- !pool_size, Hpool.
  assert (size_bytes s1 = size_bytes s) as Hby.
  { by rewrite (ix_bytes _ _ _ _ (pk_indexed _ _ _ _ _ _ Hpk)), (ix_bytes _ _ _ _ (si_indexed _ _ _ Hinv)),
      <- !pool_bytes, Hpool. }
  assert (∀ k, k ∈ priority_index s' ↔ k ∈ priority_index s ∧ oq_pointer k ∉ ps ∧ oq_pointer k ≠ (a, n)) as Hprio.
  { intros k. rewrite (sh_priority _ _ _ _ _ Hsh), (pk_priority _ _ _ _ _ _ Hpk). naive_solver. }
  split; rewrite ?Hc1, ?Hc2; [apply Hsh|..|apply Hinv|apply Hinv].
  - intros a' m' Hm'. destruct (sh_account _ _ _ _ _ Hsh _ _ Hm') as (Hne & [m1 Hm1] & Hseq).
    rewrite (pk_seq _ _ _ _ _ _ Hpk) in Hseq.
    pose proof (shrunk_account _ _ _ _ _ _ _ _ Hsh Hm1 Hm') as Hmm.
    destruct (decide (a' = a)) as [->|Ha].
    + pose proof Hx as Hx'. rewrite contents_lookup in Hx'. unfold get_mempool_txn in Hx'.
      destruct (transactions s !! a) as [m|] eqn:Hm; [|done]. cbn in Hx'.
      destruct (si_account _ _ _ Hinv _ _ Hm) as [n0 [E1 E2 E3 E4 E5]]. exists n0.
      pose proof (pool_same_dom _ _ _ _ _ Hpool Hm Hm1) as Hst.
      assert (∀ k, is_Some (m1 !! k) ↔ is_Some (m !! k)) as Hsome.
      { intros k. specialize (Hst k). destruct (m1 !! k), (m !! k); cbn in Hst; naive_solver. }
      assert (n0 <= n) as Hn0 by (apply E4; eauto).
      split; [done| |by rewrite Hseq| |].
      * rewrite Hc3. assert (size m1 = size m) as Hs1.
        { rewrite <- !size_dom. f_equal. apply set_eq. intros k. rewrite !elem_of_dom. apply Hsome. }
        assert (m' ⊆ m1) as Hsub by (apply map_subseteq_spec; intros k y Hy; by apply Hmm in Hy as [? _]).
        pose proof (map_subseteq_size _ _ Hsub). lia.
      * intros k [y [Hy _]%Hmm]. apply E4, Hsome. eauto.
      * intros k t Hk Hall Ht. destruct (N.lt_ge_cases k n) as [Hlt|Hge].
        2: { destruct (Hall n) as [y [_ Hy]%Hmm]; [lia|]. by destruct Hy. }
        assert ((a, k) ∉ ps) as Hnp by (intros [_ ?]%Hps; cbn in *; lia).
        pose proof (pk_keep _ _ _ _ _ _ Hpk _ Hnp) as Hkeep.
        rewrite (contents_elem s1 a m1 k Hm1), (contents_elem s a m k Hm) in Hkeep.
        apply Hmm in Ht as [Ht _]. rewrite Hkeep in Ht. apply Hprio.
        rewrite <- (contents_elem s a m k Hm) in Ht. rewrite (key_of _ _ _ _ _ _ Hinv Ht).
        split_and!; [|done|intros [= ->]; lia]. rewrite (contents_elem s a m k Hm) in Ht.
        apply (E5 k t); [done| |done]. intros j Hj. apply Hsome. destruct (Hall j Hj) as [y [Hy _]%Hmm]. eauto.
    + rewrite (pk_others _ _ _ _ _ _ Hpk) in Hm1 by done.
      destruct (si_account _ _ _ Hinv _ _ Hm1) as [n' Hn']. exists n'.
      apply (account_ok_frame s s' a' m1 m'); [done|done| |done|done|].
      * apply map_subseteq_spec. intros k y Hy. by apply Hmm in Hy as [? _].
      * intros k t [Ht _]%Hmm Hin. apply Hprio. rewrite <- (contents_elem s a' m1 k Hm1) in Ht.
        rewrite (key_of _ _ _ _ _ _ Hinv Ht). split_and!; [done| |congruence]. by intros [? _]%Hps.
  - intros a' n' t [Ht Hne]%(sh_contents _ _ _ _ _ Hsh).
    destruct (decide ((a', n') ∈ ps)) as [Hin|Hnin].
    + right. apply (sh_parked _ _ _ _ _ Hsh). split; [|done]. apply (pk_parked _ _ _ _ _ _ Hpk). by right.
    + rewrite (pk_keep _ _ _ _ _ _ Hpk) in Ht by done. destruct (si_placed _ _ _ Hinv _ _ _ Ht) as [Hin|Hp].
      * left. apply Hprio. by rewrite (key_of _ _ _ _ _ _ Hinv Ht).
      * right. apply (sh_parked _ _ _ _ _ Hsh). split; [|done]. apply (pk_parked _ _ _ _ _ _ Hpk). by left.
  - pose proof (map_subseteq_size _ _ (shrunk_subseteq _ _ _ _ _ Hsh)). pose proof (si_count _ _ _ Hinv). lia.
  - pose proof (shrunk_bytes _ _ _ _ _ _ _ (pk_indexed _ _ _ _ _ _ Hpk) Hsh).
    pose proof (si_bytes _ _ _ Hinv). lia.
Qed.

Definition ttl_pointer (k : TTLOrderingKey) : ptr := (ttl_address k, ttl_sequence_number k).

Lemma gc_step_ok key rest ls le s x :
  store_inv ls le s → contents s !! ttl_pointer key = Some x →
  range_ok (Excluded (ttl_sequence_number key)) (park_range_end key rest) = true →
  ∃ s', gc_step key rest s = Ok s' ∧ store_inv ls le s' ∧ evolves s s' ∧
        pool s' = delete (ttl_pointer key) (pool s) ∧
        (∀ b, next_id (timeline_index s') b = next_id (timeline_index s) b).
Proof.
  intros Hinv Hx Hrange. unfold ttl_pointer in *. unfold gc_step.
  set (a := ttl_address key) in *. set (n := ttl_sequence_number key) in *.
  pose proof Hx as Hx'. rewrite contents_lookup in Hx'. unfold get_mempool_txn in Hx'.
  destruct (transactions s !! a) as [m|] eqn:Hm; [|done]. cbn in Hx'.
  destruct (btree_range (E := Infallible) (Excluded n) (park_range_end key rest) m) as [range| |] eqn:Hr;
    [|by unfold btree_range in Hr; rewrite Hrange in Hr..].
  run_ok.
  assert (∀ k t, (k, t) ∈ range → m !! k = Some t ∧ n < k) as Hin.
  { intros k t [Hk Hi]%(elem_of_btree_range _ _ _ _ _ _ Hr). split; [done|].
    unfold in_range in Hi. apply andb_true_iff in Hi as [Hi _]. cbn in Hi. by apply N.ltb_lt. }
  assert (txn_pointer <$> range.*2 = pair a <$> range.*1) as Hptrs.
  { rewrite <- !list_fmap_compose. apply list_fmap_ext. intros i [k t] Hi. cbn.
    apply list_elem_of_lookup_2, Hin in Hi as [Hk _]. rewrite <- (contents_elem s a m k Hm) in Hk.
    by apply (ix_pointer _ _ _ _ _ _ (si_indexed _ _ _ Hinv)). }
  destruct (gc_park_all_ok ls le a (range.*2) s) as (s1 & -> & Hpk).
  { apply Hinv. }
  { intros t ([k t'] & -> & [Hk _]%Hin)%list_elem_of_fmap. cbn. rewrite <- (contents_elem s a m k Hm) in Hk.
    pose proof (ix_pointer _ _ _ _ _ _ (si_indexed _ _ _ Hinv) Hk) as Hp. rewrite Hp. split; [|done].
    by injection Hp. }
  { rewrite Hptrs. apply NoDup_fmap_2; [by intros ?? [= ->]|].
    unfold btree_range in Hr. rewrite Hrange in Hr. injection Hr as <-.
    apply (sublist_NoDup _ ((btree_iter m).*1)); [apply NoDup_fst_btree_iter|].
    apply fmap_sublist, sublist_filter. }
  { pose proof (si_count _ _ _ Hinv). pose proof (si_capacity _ _ _ Hinv). lia. }
  run_ok. rewrite Hptrs in Hpk.
  assert (∀ p, p ∈ pair a <$> range.*1 → p.1 = a ∧ n < p.2) as Hps.
  { intros p (k & -> & ([k' t] & -> & [_ Hk]%Hin)%list_elem_of_fmap)%list_elem_of_fmap. done. }
  assert (contents s1 !! (a, n) = Some x) as Hx1.
  { rewrite (pk_keep _ _ _ _ _ _ Hpk); [done|]. intros [_ ?]%Hps. cbn in *. lia. }
  rewrite contents_lookup in Hx1. rewrite Hx1.
  assert (nonempty s1) as Hne1.
  { intros a' m' Hm' ->. assert (is_Some (transactions s !! a')) as [m0 Hm0].
    { destruct (decide (a' = a)) as [->|Ha]; [by rewrite Hm|]. by rewrite <- (pk_others _ _ _ _ _ _ Hpk), Hm'. }
    destruct (si_account _ _ _ Hinv _ _ Hm0) as [? Hok]. apply (ao_nonempty _ _ _ _ Hok). apply map_empty. intros k.
    pose proof (pool_same_dom _ _ _ _ _ (pk_pool _ _ _ _ _ _ Hpk) Hm0 Hm' k) as Hk. rewrite lookup_empty in Hk.
    by destruct (m0 !! k). }
  destruct (remove_one_shrunk ls le s1 a n x) as (s' & -> & Hsh & _); [apply Hpk|done|done|].
  exists s'. split_and!; [done| | | |].
  - by eapply park_remove_inv.
  - trans s1; [apply Hpk|apply Hsh].
  - rewrite (shrunk_one_pool _ _ _ _ _ Hsh). f_equal. apply Hpk.
  - intros b. rewrite (sh_next _ _ _ _ _ Hsh). apply Hpk.
Qed.

(** The keys in the order of [sort_by_key], each with another pointer *)
Definition gc_key_lt (x y : TTLOrderingKey) : Prop :=
  ttl_address x < ttl_address y ∨
  ttl_address x = ttl_address y ∧ ttl_sequence_number x < ttl_sequence_number y.
Lemma gc_loop_ok ls le keys s :
  store_inv ls le s → StronglySorted gc_key_lt keys →
  (∀ k, k ∈ keys → is_Some (contents s !! ttl_pointer k)) →
  ∃ s', gc_loop keys s = Ok s' ∧ store_inv ls le s' ∧ evolves s s' ∧
        pool s' = filter (λ p, p.1 ∉ ttl_pointer <$> keys) (pool s) ∧
        (∀ b, next_id (timeline_index s') b = next_id (timeline_index s) b).
Proof.
  revert s. induction keys as [|key rest IH]; intros s Hinv Hsorted Hin.
  { exists s. split_and!; [done..| |done]. symmetry. apply map_filter_id. intros. apply not_elem_of_nil. }
  inversion Hsorted as [|? ? Hsorted' Hkey]; subst. rewrite Forall_forall in Hkey.
  destruct (Hin key) as [x Hx]; [by left|].
  destruct (gc_step_ok key rest ls le s x Hinv Hx) as (s1 & Hrun1 & Hinv1 & Hcfg1 & Hpool1 & Hnx1).
  { destruct rest as [|next rest]; [done|]. cbn [park_range_end].
    destruct (N.eqb_spec (ttl_address key) (ttl_address next)); [|done]. cbn. apply N.ltb_lt.
    destruct (Hkey next) as [|[]]; [by left|lia|done]. }
  assert (∀ k, k ∈ rest → ttl_pointer k ≠ ttl_pointer key) as Hne.
  { intros k Hk [= Ha Hn]. destruct (Hkey k Hk) as [|[]]; lia. }
  destruct (IH s1) as (s' & Hrun & Hinv' & Hcfg & Hpool & Hnx); [done|done| |].
  { intros k Hk. assert (is_Some (pool s1 !! ttl_pointer k)) as [y Hy].
    { rewrite Hpool1, lookup_delete_ne by (apply not_eq_sym; by apply Hne).
      destruct (Hin k) as [y Hy]; [by right|]. unfold pool. rewrite lookup_fmap, Hy. by eexists. }
    unfold pool in Hy. rewrite lookup_fmap in Hy. by destruct (contents s1 !! ttl_pointer k). }
  exists s'. cbn [gc_loop]. rewrite Hrun1. run_ok. split_and!; [done|done|by trans s1| |].
  - rewrite Hpool, Hpool1. apply map_eq. intros p. apply option_eq. intros y.
    rewrite !map_lookup_filter_Some, lookup_delete_Some. cbn. rewrite not_elem_of_cons. naive_solver.
  - intros b. by rewrite Hnx, Hnx1.
Qed.

Lemma gc_sorted keys :
  NoDup (ttl_pointer <$> keys) → StronglySorted gc_key_lt (merge_sort gc_key_le keys).
Proof.
  intros Hnd. assert (Transitive gc_key_le) by (intros x y z; unfold gc_key_le; lia).
  assert (Total gc_key_le) by (intros x y; unfold gc_key_le; lia).
  pose proof (StronglySorted_merge_sort gc_key_le keys) as Hs.
  assert (NoDup (ttl_pointer <$> merge_sort gc_key_le keys)) as Hnd' by by rewrite merge_sort_Permutation.
  induction Hs as [|k l Hs IH Hk]; [constructor|]. rewrite fmap_cons in Hnd'. apply NoDup_cons in Hnd' as [Hnot Hnd'].
  constructor; [by apply IH|]. rewrite Forall_forall in Hk |- *. intros y Hy. specialize (Hk y Hy).
  assert (ttl_pointer k ≠ ttl_pointer y) as Hne.
  { intros Heq. apply Hnot. rewrite Heq. apply list_elem_of_fmap. eauto. }
  unfold gc_key_le in Hk. unfold gc_key_lt. unfold ttl_pointer in Hne.
  destruct Hk as [|[Ha Hle]]; [by left|]. right. split; [done|].
  destruct (decide (ttl_sequence_number k = ttl_sequence_number y)); [congruence|lia].
Qed.

(** Expiry removes the transactions whose time has passed, and no others. *)
Lemma store_gc_ok now by_system s :
  store_inv 0 0 s →
  let get := if by_system : bool then system_expiration else client_expiration in
  ∃ s', store_gc now by_system s = Ok s' ∧ store_inv 0 0 s' ∧ evolves s s' ∧
        pool s' = filter (λ p, now <= get p.2) (pool s) ∧
        (∀ b, next_id (timeline_index s') b = next_id (timeline_index s) b).
Proof.
  intros Hinv get. unfold store_gc. set (data := if by_system then _ else _).
  assert (ttl_ok get 0 (contents s) data) as Hdata by (destruct by_system; apply (si_indexed _ _ _ Hinv)).
  destruct (ttl_ok_gc get (contents s) data now Hdata) as [Hactive Hkeys].
  destruct (ttl_index_gc now data) as [gc_txns active] eqn:Hgc. cbn in Hactive, Hkeys.
  set (s0 := set_indexes _ _ _ _ _ _ _ _).
  set (ls := if by_system then now else 0). set (le := if by_system then 0 else now).
  assert (store_inv ls le s0) as Hinv0.
  { destruct Hinv as [Hix H2' H3' H4' H5' H6' H7']. split; try done.
    - change (contents s0) with (contents s). unfold ls, le, s0. destruct Hix. destruct by_system; split; done.
    - intros a m Hm. destruct (H2' a m Hm) as [n Hn]. exists n. by destruct Hn. }
  assert (NoDup (ttl_pointer <$> gc_txns)) as Hnd.
  { apply NoDup_fmap_2_strong.
    - intros k1 k2 (p1 & t1 & Ht1 & _ & ->)%Hkeys (p2 & t2 & Ht2 & _ & ->)%Hkeys Heq.
      assert (p1 = p2) as <-.
      { rewrite <- (ix_pointer _ _ _ _ _ _ (si_indexed _ _ _ Hinv) Ht1),
          <- (ix_pointer _ _ _ _ _ _ (si_indexed _ _ _ Hinv) Ht2). exact Heq. }
      rewrite Ht1 in Ht2. by simplify_eq.
    - assert (gc_txns = (ttl_index_gc now data).1) as -> by by rewrite Hgc. cbn. apply NoDup_filter, bset_NoDup, Hdata. }
  destruct (gc_loop_ok ls le (merge_sort gc_key_le gc_txns) s0) as (s' & Hrun & Hinv' & Hcfg & Hpool & Hnx).
  { done. } { by apply gc_sorted. }
  { intros k. rewrite merge_sort_Permutation. intros (p & t & Ht & _ & ->)%Hkeys.
    rewrite <- (ix_pointer _ _ _ _ _ _ (si_indexed _ _ _ Hinv) Ht) in Ht. by exists t. }
  assert (pool s' = filter (λ p, now <= get p.2) (pool s)) as Hpool'.
  { rewrite Hpool. change (pool s0) with (pool s). apply map_filter_ext. intros p t Ht. cbn.
    rewrite merge_sort_Permutation. unfold pool in Ht. rewrite lookup_fmap in Ht.
    destruct (contents s !! p) as [t0|] eqn:Ht0; [|done]. cbn in Ht. injection Ht as <-.
    assert (get (strip t0) = get t0) as -> by by destruct by_system.
    rewrite list_elem_of_fmap. split.
    - intros Hno. destruct (N.lt_ge_cases (get t0) now); [|done]. destruct Hno.
      exists (ttl_make_key get t0). split; [by rewrite <- (ix_pointer _ _ _ _ _ _ (si_indexed _ _ _ Hinv) Ht0)|].
      apply Hkeys. by exists p, t0.
    - intros Hge (k & -> & (q & t1 & Ht1 & Hlt & ->)%Hkeys).
      change (ttl_pointer (ttl_make_key get t1)) with (txn_pointer t1) in Ht0.
      rewrite (ix_pointer _ _ _ _ _ _ (si_indexed _ _ _ Hinv) Ht1) in Ht0. rewrite Ht1 in Ht0. simplify_eq. lia. }
  assert (∀ p t, contents s' !! p = Some t → now <= get t) as Hnow.
  { intros p t Ht. assert (pool s' !! p = Some (strip t)) as Hp by (unfold pool; by rewrite lookup_fmap, Ht).
    rewrite Hpool' in Hp. apply map_lookup_filter_Some in Hp as [_ Hp]. cbn in Hp. by destruct by_system. }
  exists s'. split_and!; [done| |done|done|done].
  destruct Hinv' as [Hix H2' H3' H4' H5' H6' H7']. split; try done.
  destruct Hix as [I1 I2 I3]. split; try done.
  - unfold ls in I2. destruct by_system; [|done]. by eapply ttl_ok_from.
  - unfold le in I3. destruct by_system; [done|]. by eapply ttl_ok_from.
Qed.
End ops.
