(* ===== verification/MempoolBatch.v ===== *)
(** * Mempool: taking a block

    [get_batch] walks the priority queue and keeps aside transactions whose predecessor it has not met
    yet. The block it returns can be executed in its order, respects the two limits, and misses
    no transaction that is ready unless a limit cuts it. *)
From S2P Require Import Prelude Crypto BTree MempoolIndex MempoolStore MempoolInv MempoolOps.
Local Open Scope N_scope.

Section batch.
Context `{!TransactionTypes, !TransactionEncoding, !Workload}.
Abbreviation ptr := (AccountAddress * N)%type (only parsing).
Implicit Types (s : TransactionStore) (b : BatchLoop) (p : ptr).

Definition start s p : Prop := get_sequence_number s p.1 = Some p.2.
Definition pred p : ptr := (p.1, p.2 - 1).
(** [p] may be executed once everything in [X] has been. *)
Definition enabled s (X : ptr → Prop) p : Prop := start s p ∨ (0 < p.2 ∧ X (pred p)).

(** The state of the main loop when the queue up to here pointed at [done]. [at_most] is the one
    skipped transaction that may have become enabled since. *)
Record batch_inv s (seen0 : gset ptr) (visited : gset ptr) (at_most : ptr → Prop) b : Prop := {
  bi_seen : bl_seen b = seen0 ∪ list_to_set (bl_result b);
  bi_nodup : NoDup (bl_result b);
  bi_fresh p : p ∈ bl_result b → p ∉ seen0;
  bi_result p : p ∈ bl_result b → p ∈ visited;
  bi_skipped p : p ∈ bl_skipped b → p ∈ visited ∧ ¬ start s p;
  bi_visited p : p ∈ visited → p ∈ bl_seen b ∨ p ∈ bl_skipped b;
  bi_order i p : bl_result b !! i = Some p →
    enabled s (λ q, q ∈ seen0 ∨ ∃ j, (j < i)%nat ∧ bl_result b !! j = Some q) p;
  bi_back p : p ∈ bl_skipped b → p ∈ bl_seen b → 0 < p.2 ∧ pred p ∈ bl_seen b;
  bi_closed p : p ∈ bl_skipped b → 0 < p.2 → pred p ∈ bl_seen b → p ∈ bl_seen b ∨ at_most p;
}.

Lemma batch_inv_seen s seen0 v am b p :
  batch_inv s seen0 v am b → p ∈ bl_seen b ↔ p ∈ seen0 ∨ p ∈ bl_result b.
Proof. intros Hb. rewrite (bi_seen _ _ _ _ _ Hb), elem_of_union, elem_of_list_to_set. done. Qed.

(** The successor of a transaction that is pushed is the one that may become enabled. *)
Lemma batch_push_inv s seen0 v am b a n :
  batch_inv s seen0 v am b → (∀ p, am p → p = (a, n)) → (a, n) ∉ bl_seen b →
  (start s (a, n) ∨ (0 < n ∧ (a, n - 1) ∈ bl_seen b)) →
  ((a, n) ∈ bl_skipped b → 0 < n ∧ (a, n - 1) ∈ bl_seen b) →
  batch_inv s seen0 ({[(a, n)]} ∪ v) (λ p, p = (a, n + 1)) (batch_push (a, n) b) ∧
  ((a, n + 1) ∈ bl_skipped b → (a, n + 1) ∉ bl_seen (batch_push (a, n) b)).
Proof.
  intros Hb Ham Hnew Hen Hskip. split.
  - split; cbn.
    + rewrite (bi_seen _ _ _ _ _ Hb), list_to_set_app_L. set_solver.
    + apply NoDup_app. split_and!; [apply Hb| |apply NoDup_singleton].
      intros p Hp ->%list_elem_of_singleton. apply Hnew. rewrite (batch_inv_seen _ _ _ _ _ _ Hb). by right.
    + intros p [Hp| ->%list_elem_of_singleton]%elem_of_app; [by eapply bi_fresh|].
      intros Hs. apply Hnew. rewrite (batch_inv_seen _ _ _ _ _ _ Hb). by left.
    + intros p [Hp| ->%list_elem_of_singleton]%elem_of_app; [|set_solver].
      pose proof (bi_result _ _ _ _ _ Hb p Hp). set_solver.
    + intros p Hp. destruct (bi_skipped _ _ _ _ _ Hb p Hp). split; [set_solver|done].
    + intros p [->%elem_of_singleton|Hp]%elem_of_union; [left; set_solver|].
      destruct (bi_visited _ _ _ _ _ Hb p Hp); [left; set_solver|by right].
    + intros i p Hi. apply lookup_app_Some in Hi as [Hi|[Hlen Hi]].
      * destruct (bi_order _ _ _ _ _ Hb i p Hi) as [|[Hpos [|(j & Hj & Hq)]]]; [by left|right; auto|].
        right. split; [done|]. right. exists j. split; [done|]. by apply lookup_app_l_Some.
      * destruct (i - length (bl_result b))%nat; [|done]. cbn in Hi. injection Hi as <-.
        destruct Hen as [Hst|[Hpos Hpred]]; [by left|]. right. split; [done|].
        rewrite (batch_inv_seen _ _ _ _ _ _ Hb) in Hpred. destruct Hpred as [|Hq]; [by left|]. right.
        apply list_elem_of_lookup in Hq as [j Hj]. exists j. pose proof (lookup_lt_Some _ _ _ Hj).
        split; [lia|]. by apply lookup_app_l_Some.
    + intros p Hp [->%elem_of_singleton|Hs]%elem_of_union.
      * cbn. destruct (Hskip Hp). split; [done|]. unfold pred. set_solver.
      * destruct (bi_back _ _ _ _ _ Hb p Hp Hs). split; [done|]. set_solver.
    + intros p Hp Hpos Hq. destruct (decide (p = (a, n))) as [->|Hne]; [left; set_solver|].
      apply elem_of_union in Hq as [Hq%elem_of_singleton|Hq].
      * right. destruct p as [a' n']. unfold pred in Hq. cbn in *. injection Hq as -> Hq. f_equal. lia.
      * left. destruct (bi_closed _ _ _ _ _ Hb p Hp Hpos Hq) as [|Ha]; [set_solver|]. by apply Ham in Ha.
  - intros Hp. cbn. rewrite not_elem_of_union, not_elem_of_singleton. split; [intros [= ?]; lia|].
    intros Hs. destruct (bi_back _ _ _ _ _ Hb _ Hp Hs) as [_ Hq]. unfold pred in Hq. cbn in Hq.
    rewrite N.add_sub in Hq. done.
Qed.

Lemma batch_inv_mono s seen0 v (am am' : ptr → Prop) b :
  batch_inv s seen0 v am b → (∀ p, p ∈ bl_skipped b → am p → am' p) → batch_inv s seen0 v am' b.
Proof.
  intros [B1 B2 B3 B4 B5 B6 B7 B8 B9] Ham. split; try done. intros p Hp Hpos Hq.
  destruct (B9 p Hp Hpos Hq); [by left|right; auto].
Qed.

(** The result of a step: the loop stops exactly when the block has [max_txns] transactions. *)
Definition step_post s seen0 v (max_txns : N) (stop : bool) b : Prop :=
  if stop then lenN (bl_result b) = max_txns ∧ batch_inv s seen0 v (λ _, True) b
  else lenN (bl_result b) < max_txns ∧ batch_inv s seen0 v (λ _, False) b.

Lemma lenN_push p b : lenN (bl_result (batch_push p b)) = lenN (bl_result b) + 1.
Proof. unfold lenN. cbn. rewrite length_app. cbn. lia. Qed.

Lemma skipped_loop_ok s seen0 fuel max_txns a n v b :
  batch_inv s seen0 v (λ p, p = (a, n)) b → 0 < n → (a, n - 1) ∈ bl_seen b →
  ((a, n) ∈ bl_skipped b → (a, n) ∉ bl_seen b) → (∀ p, p ∈ v → p.2 < U64_MAX) →
  lenN (bl_result b) < max_txns →
  (size (filter (λ p : ptr, (n <= p.2)%N) (bl_skipped b)) < fuel)%nat →
  ∃ stop b', skipped_loop fuel max_txns a n b = Ok (stop, b') ∧ step_post s seen0 v max_txns stop b'.
Proof.
  revert n b. induction fuel as [|fuel IH]; intros n b Hb Hpos Hpred Hnew Hmax Hlen Hfuel; [lia|].
  cbn [skipped_loop]. destruct (decide ((a, n) ∈ bl_skipped b)) as [Hin|Hin].
  2: { exists false, b. split; [done|]. split; [done|]. eapply batch_inv_mono; [done|]. by intros p Hp ->. }
  destruct (batch_push_inv s seen0 v _ b a n Hb) as [Hb' Hnew']; [done|by apply Hnew|by right|done|].
  assert ((a, n) ∈ v) as Hv by by apply (bi_skipped _ _ _ _ _ Hb).
  assert ({[(a, n)]} ∪ v = v) as Hvv by set_solver. rewrite Hvv in Hb'.
  pose proof (lenN_push (a, n) b) as Hpush. destruct (N.eqb_spec (lenN (bl_result (batch_push (a, n) b))) max_txns).
  { exists true, (batch_push (a, n) b). split; [done|]. split; [done|]. by eapply batch_inv_mono. }
  specialize (Hmax _ Hv) as Hn. cbn in Hn. unfold U64_MAX in Hn. unfold u64_add, u64_checked_add.
  destruct (N.ltb_spec (n + 1) (2 ^ 64)); [|lia]. run_ok. apply IH.
  - done.
  - lia.
  - rewrite N.add_sub. cbn. set_solver.
  - done.
  - done.
  - lia.
  - cbn [bl_skipped batch_push]. apply (Nat.lt_le_trans _ (size (filter (λ p : ptr, (n <= p.2)%N) (bl_skipped b)))); [|lia].
    apply subset_size. split.
    + intros q. rewrite !elem_of_filter. intros [??]. split; [lia|done].
    + intros Hsub. specialize (Hsub (a, n)). rewrite !elem_of_filter in Hsub. cbn in Hsub.
      lapply Hsub; [lia|]. split; [lia|done].
Qed.

Lemma batch_step_ok s seen0 max_txns key v b :
  batch_inv s seen0 v (λ _, False) b → lenN (bl_result b) < max_txns → oq_pointer key ∉ v →
  (∀ p, p ∈ {[oq_pointer key]} ∪ v → p.2 < U64_MAX) →
  ∃ stop b', batch_step s max_txns key b = Ok (stop, b') ∧
             step_post s seen0 ({[oq_pointer key]} ∪ v) max_txns stop b'.
Proof.
  intros Hb Hlen Hnew Hmax. unfold batch_step. unfold oq_pointer in *.
  set (a := oq_address key) in *. set (n := oq_txn_seq key) in *.
  assert ((a, n) ∉ bl_skipped b) as Hnskip by (intros Hin; apply Hnew; by apply (bi_skipped _ _ _ _ _ Hb)).
  destruct (decide ((a, n) ∈ bl_seen b)) as [Hseen|Hseen].
  { exists false, b. split; [done|]. split; [done|]. destruct Hb as [B1 B2 B3 B4 B5 B6 B7 B8 B9].
    split; try done; intros p Hp; [set_solver|..].
    - destruct (B5 p Hp). split; [set_solver|done].
    - apply elem_of_union in Hp as [->%elem_of_singleton|Hp]; [by left|by apply B6]. }
  destruct ((0 <? n) && bool_decide ((a, n - 1) ∈ bl_seen b) || bool_decide (get_sequence_number s a = Some n)) eqn:Hen.
  - assert (start s (a, n) ∨ (0 < n ∧ (a, n - 1) ∈ bl_seen b)) as Hen'.
    { apply orb_true_iff in Hen as [[Hpos Hp]%andb_true_iff|Hst].
      - right. apply N.ltb_lt in Hpos. by apply bool_decide_eq_true in Hp.
      - left. by apply bool_decide_eq_true in Hst. }
    destruct (batch_push_inv s seen0 v _ b a n Hb) as [Hb' Hnew']; [done|done|done|done|].
    pose proof (lenN_push (a, n) b) as Hpush. destruct (N.eqb_spec (lenN (bl_result (batch_push (a, n) b))) max_txns).
    { exists true, (batch_push (a, n) b). split; [done|]. split; [done|]. by eapply batch_inv_mono. }
    assert (n < U64_MAX) as Hn by (apply (Hmax (a, n)); set_solver). unfold U64_MAX in Hn.
    unfold u64_add, u64_checked_add. destruct (N.ltb_spec (n + 1) (2 ^ 64)); [|lia]. run_ok.
    eapply skipped_loop_ok; try done.
    + lia.
    + rewrite N.add_sub. cbn. set_solver.
    + lia.
    + apply Nat.lt_succ_r, subseteq_size. intros p. rewrite elem_of_filter. naive_solver.
  - apply orb_false_iff in Hen as [Hp Hst]. apply bool_decide_eq_false in Hst.
    eexists false, _. split; [done|]. split; [done|]. destruct Hb as [B1 B2 B3 B4 B5 B6 B7 B8 B9].
    split; cbn; try done.
    + intros p Hp'. specialize (B4 p Hp'). set_solver.
    + intros p [->%elem_of_singleton|Hp']%elem_of_union; [split; [set_solver|done]|].
      destruct (B5 p Hp'). split; [set_solver|done].
    + intros p [->%elem_of_singleton|Hp']%elem_of_union; [right; set_solver|]. destruct (B6 p Hp'); [by left|right; set_solver].
    + intros p [->%elem_of_singleton|Hp']%elem_of_union; [done|by apply B8].
    + intros p [->%elem_of_singleton|Hp']%elem_of_union; [|by apply B9]. cbn. intros Hpos Hq. unfold pred in Hq. cbn in Hq.
      apply andb_false_iff in Hp as [Hp|Hp]; [apply N.ltb_ge in Hp; lia|]. by apply bool_decide_eq_false in Hp.
Qed.

Lemma batch_loop_ok s seen0 max_txns queue v b :
  batch_inv s seen0 v (λ _, False) b → lenN (bl_result b) < max_txns →
  NoDup (oq_pointer <$> queue) → (∀ k, k ∈ queue → oq_pointer k ∉ v) →
  (∀ p, p ∈ v → p.2 < U64_MAX) → (∀ k, k ∈ queue → oq_txn_seq k < U64_MAX) →
  ∃ stop b' v', batch_loop s max_txns queue b = Ok b' ∧ step_post s seen0 v' max_txns stop b' ∧
    v' ⊆ v ∪ list_to_set (oq_pointer <$> queue) ∧
    (stop = false → v' = v ∪ list_to_set (oq_pointer <$> queue)).
Proof.
  revert v b. induction queue as [|key queue IH]; intros v b Hb Hlen Hnd Hnew Hmax Hmaxq.
  { exists false, b, v. split; [done|]. split; [done|]. cbn. split; [set_solver|]. intros _. set_solver. }
  rewrite fmap_cons in Hnd. apply NoDup_cons in Hnd as [Hkey Hnd].
  destruct (batch_step_ok s seen0 max_txns key v b) as (stop & b1 & Hrun & Hpost); [done|done|apply Hnew; by left| |].
  { intros p [->%elem_of_singleton|Hp]%elem_of_union; [|by apply Hmax]. apply Hmaxq. by left. }
  cbn [batch_loop]. rewrite Hrun. run_ok. destruct stop.
  { exists true, b1, ({[oq_pointer key]} ∪ v). split; [done|]. split; [done|]. split; [|done].
    rewrite fmap_cons, list_to_set_cons. set_solver. }
  destruct Hpost as [Hlen1 Hb1].
  destruct (IH ({[oq_pointer key]} ∪ v) b1) as (stop & b' & v' & Hrun' & Hpost & Hsub & Heq); [done|done|done|..].
  - intros k Hk. rewrite not_elem_of_union, not_elem_of_singleton. split.
    + intros E. apply Hkey. rewrite <- E. apply list_elem_of_fmap. eauto.
    + apply Hnew. by right.
  - intros p [->%elem_of_singleton|Hp]%elem_of_union; [|by apply Hmax]. apply Hmaxq. by left.
  - intros k Hk. apply Hmaxq. by right.
  - exists stop, b', v'. split; [done|]. split; [done|]. rewrite fmap_cons, list_to_set_cons.
    split; [set_solver|]. intros Hs. rewrite (Heq Hs). set_solver.
Qed.

(** ** The block *)
Definition signed_pointer (t : SignedTransaction) : ptr := (sender t, sequence_number t).
Definition block_bytes (l : list SignedTransaction) : N := foldr (λ t acc, raw_txn_bytes_len t + acc) 0 l.
Lemma block_bytes_snoc l t : block_bytes (l ++ [t]) = block_bytes l + raw_txn_bytes_len t.
Proof. induction l as [|x l IH]; cbn; [lia|]. unfold block_bytes in *. cbn. lia. Qed.

Lemma block_loop_ok s max_bytes l block :
  Forall (λ p, ∃ t, store_get s p.1 p.2 = Some t ∧ signed_pointer t = p) l →
  block_bytes block <= max_bytes → max_bytes < 2 ^ 63 →
  ∃ more l1 l2, block_loop s max_bytes l (block_bytes block) block = Ok (block ++ more) ∧
    l = l1 ++ l2 ∧ l1 = signed_pointer <$> more ∧ block_bytes (block ++ more) <= max_bytes ∧
    (∀ t, t ∈ more → store_get s (sender t) (sequence_number t) = Some t) ∧
    (l2 = [] ∨ ∃ p t, p ∈ l2 ∧ store_get s p.1 p.2 = Some t ∧
                      max_bytes < block_bytes (block ++ more) + raw_txn_bytes_len t).
Proof.
  intros Hl. revert block. induction Hl as [|p l (t & Ht & Hp) Hl IH]; intros block Hbytes Hmax.
  { exists [], [], []. rewrite app_nil_r. split_and!; try done; [set_solver|by left]. }
  destruct p as [a n]. cbn [block_loop]. unfold store_get in Ht. cbn in Ht.
  unfold get_with_ranking_score. destruct (get_mempool_txn s a n) as [mt|] eqn:Hm; [|done].
  cbn in Ht |- *. injection Ht as Ht. rewrite Ht.
  pose proof (raw_txn_len_bound (raw_txn t)) as Hraw. fold (raw_txn_bytes_len t) in Hraw.
  unfold u64_add, u64_checked_add. destruct (N.ltb_spec (block_bytes block + raw_txn_bytes_len t) (2 ^ 64)); [|lia].
  run_ok. destruct (N.ltb_spec max_bytes (block_bytes block + raw_txn_bytes_len t)) as [Hcut|Hfit].
  - exists [], [], ((a, n) :: l). rewrite app_nil_r. split_and!; try done; [set_solver|]. right.
    exists (a, n), t. split_and!; [by left| |done]. unfold store_get. cbn. by rewrite Hm, <- Ht.
  - rewrite <- block_bytes_snoc in *.
    destruct (IH (block ++ [t]) Hfit Hmax) as (more & l1 & l2 & Hrun & -> & Hl1 & Hb & Hst & Hend).
    exists (t :: more), ((a, n) :: l1), l2. rewrite <- app_assoc in *. cbn in *.
    split_and!; [done|done|by rewrite Hl1, Hp|done| |done].
    intros x [->|Hx]%elem_of_cons; [|by apply Hst].
    injection Hp as -> ->. unfold store_get. by rewrite Hm, <- Ht.
Qed.

(** What the caller may rely on. A transaction is ready when its account has all those from the account's
    sequence number up to it. *)
Definition ready_in s (a n : N) : Prop :=
  ∃ n0, get_sequence_number s a = Some n0 ∧ n0 <= n ∧ ∀ j, n0 <= j <= n → is_Some (get_mempool_txn s a j).
Record batch_ok s (max_txns max_bytes : N) (seen : gset ptr) (block : list SignedTransaction) : Prop := {
  bo_length : lenN block <= max_txns;
  bo_bytes : block_bytes block <= max_bytes;
  bo_nodup : NoDup (signed_pointer <$> block);
  bo_unseen t : t ∈ block → signed_pointer t ∉ seen;
  bo_stored t : t ∈ block → store_get s (sender t) (sequence_number t) = Some t;
  bo_order i t : block !! i = Some t →
    get_sequence_number s (sender t) = Some (sequence_number t) ∨
    0 < sequence_number t ∧
    ((sender t, sequence_number t - 1) ∈ seen ∨
     ∃ j t', (j < i)%nat ∧ block !! j = Some t' ∧ signed_pointer t' = (sender t, sequence_number t - 1));
  bo_complete :
    lenN block = max_txns ∨
    (∃ a n t, store_get s a n = Some t ∧ (a, n) ∉ seen ∧ max_bytes < block_bytes block + raw_txn_bytes_len t) ∨
    (∀ a n t, ready_in s a n → store_get s a n = Some t → (a, n) ∈ seen ∨ t ∈ block);
}.

Lemma queue_stored s k :
  store_inv 0 0 s → k ∈ priority_index s →
  ∃ t, store_get s (oq_address k) (oq_txn_seq k) = Some t ∧ signed_pointer t = oq_pointer k ∧
       oq_txn_seq k < U64_MAX.
Proof.
  intros Hinv ([a n] & x & Hx & ->)%(ix_priority _ _ _ _ (si_indexed _ _ _ Hinv)).
  destruct (ix_txn _ _ _ _ (si_indexed _ _ _ Hinv) _ _ _ Hx) as (Ha & Hn & Hn' & Hl).
  pose proof (ix_pointer _ _ _ _ _ _ (si_indexed _ _ _ Hinv) Hx) as Hp.
  change (oq_pointer (priority_make_key x)) with (txn_pointer x). rewrite Hp.
  change (oq_address (priority_make_key x)) with (get_sender x).
  change (oq_txn_seq (priority_make_key x)) with (txn_seq x). rewrite Ha, Hn.
  exists (txn x). unfold store_get, signed_pointer. rewrite <- contents_lookup, Hx. split_and!; [done| |].
  - fold (get_sender x). by rewrite Ha, Hn'.
  - rewrite <- Hn'. by apply legit_seq.
Qed.
Lemma queue_pointers s : store_inv 0 0 s → NoDup (oq_pointer <$> iter_queue s).
Proof.
  intros Hinv. unfold iter_queue, priority_index_iter. rewrite reverse_Permutation.
  apply NoDup_fmap_2_strong; [|apply bset_NoDup, Hinv].
  intros k k' (p & x & Hx & ->)%(ix_priority _ _ _ _ (si_indexed _ _ _ Hinv))
    (p' & x' & Hx' & ->)%(ix_priority _ _ _ _ (si_indexed _ _ _ Hinv)) Heq.
  change (txn_pointer x = txn_pointer x') in Heq.
  rewrite (ix_pointer _ _ _ _ _ _ (si_indexed _ _ _ Hinv) Hx), (ix_pointer _ _ _ _ _ _ (si_indexed _ _ _ Hinv) Hx') in Heq.
  subst p'. rewrite Hx in Hx'. by simplify_eq.
Qed.
Lemma ready_queued s a n :
  store_inv 0 0 s → ready_in s a n → (a, n) ∈ oq_pointer <$> iter_queue s.
Proof.
  intros Hinv (n0 & Hseq & Hle & Hall).
  destruct (Hall n) as [x Hx]; [lia|]. pose proof Hx as Hx'. unfold get_mempool_txn in Hx'.
  destruct (transactions s !! a) as [m|] eqn:Hm; [|done]. cbn in Hx'.
  destruct (si_account _ _ _ Hinv _ _ Hm) as [n' [E1 E2 E3 E4 E5]].
  unfold get_sequence_number in Hseq. assert (n' = n0) as -> by congruence.
  apply list_elem_of_fmap. exists (priority_make_key x). split.
  - rewrite <- contents_lookup in Hx. by rewrite (key_of _ _ _ _ _ _ Hinv Hx).
  - unfold iter_queue, priority_index_iter. rewrite reverse_Permutation. apply (E5 n x); [done| |done].
    intros j Hj. specialize (Hall j Hj). unfold get_mempool_txn in Hall. by rewrite Hm in Hall.
Qed.

(** Everything ready is seen once the queue has been walked to its end. *)
Lemma ready_seen s seen0 v b a n :
  batch_inv s seen0 v (λ _, False) b → (∀ a n, ready_in s a n → (a, n) ∈ v) → ready_in s a n →
  (a, n) ∈ bl_seen b.
Proof.
  intros Hb Hv (n0 & Hseq & Hle & Hall).
  assert (∀ k, n0 <= k <= n → ready_in s a k) as Hready.
  { intros k Hk. exists n0. split_and!; [done|lia|]. intros j Hj. apply Hall. lia. }
  assert (∀ d, n0 + d <= n → (a, n0 + d) ∈ bl_seen b) as Hd.
  { intros d. induction d as [|d IH] using N.peano_ind; intros Hn.
    - rewrite N.add_0_r. destruct (bi_visited _ _ _ _ _ Hb (a, n0)) as [|Hs]; [apply Hv, Hready; lia|done|].
      destruct (bi_skipped _ _ _ _ _ Hb _ Hs) as [_ Hst]. by destruct Hst.
    - replace (n0 + N.succ d) with (n0 + d + 1) in * by lia. specialize (IH ltac:(lia)).
      destruct (bi_visited _ _ _ _ _ Hb (a, n0 + d + 1)) as [|Hs]; [apply Hv, Hready; lia|done|].
      destruct (bi_closed _ _ _ _ _ Hb _ Hs) as [|[]]; [cbn; lia| |done].
      unfold pred. cbn. by rewrite N.add_sub. }
  replace n with (n0 + (n - n0)) by lia. apply Hd. lia.
Qed.

Lemma get_batch_ok m max_txns max_bytes seen :
  store_inv 0 0 (mp_transactions m) → 0 < max_txns → max_bytes < 2 ^ 63 →
  ∃ block, get_batch max_txns max_bytes seen m = Ok block ∧
           batch_ok (mp_transactions m) max_txns max_bytes seen block.
Proof.
  intros Hinv Htx Hmax. set (s := mp_transactions m) in *. unfold get_batch. fold s.
  set (b0 := mkBatchLoop seen ∅ []).
  assert (batch_inv s seen ∅ (λ _, False) b0) as Hb0.
  { split; cbn; try (intros; set_solver). constructor. }
  assert (∀ k, k ∈ iter_queue s → k ∈ priority_index s) as Hq
    by (intros k; unfold iter_queue, priority_index_iter; by rewrite reverse_Permutation).
  destruct (batch_loop_ok s seen max_txns (iter_queue s) ∅ b0) as (stop & b & v & -> & Hpost & Hsub & Hall).
  { done. } { cbn. unfold lenN. cbn. lia. } { by apply queue_pointers. } { set_solver. } { set_solver. }
  { intros k Hk%Hq. by destruct (queue_stored s k Hinv Hk) as (_ & _ & _ & ?). }
  run_ok.
  assert (∃ am, batch_inv s seen v am b) as [am Hb] by (destruct stop; destruct Hpost; eauto).
  assert (Forall (λ p, ∃ t, store_get s p.1 p.2 = Some t ∧ signed_pointer t = p) (bl_result b)) as Hst.
  { apply Forall_forall. intros p Hp%(bi_result _ _ _ _ _ Hb)%Hsub.
    apply elem_of_union in Hp as [Hp|Hp]; [by apply elem_of_empty in Hp|].
    apply elem_of_list_to_set, list_elem_of_fmap in Hp as (k & -> & Hk%Hq).
    destruct (queue_stored s k Hinv Hk) as (t & ? & ? & _). eauto. }
  destruct (block_loop_ok s max_bytes (bl_result b) [] Hst) as (block & l1 & l2 & Hrun & Hres & Hl1 & Hbytes & Hstored & Hend);
    [cbn; lia|done|]. cbn in Hrun, Hbytes. exists block. split; [done|].
  assert (∀ t, t ∈ block → signed_pointer t ∈ bl_result b) as Hin.
  { intros t Ht. rewrite Hres, Hl1. apply elem_of_app. left. apply list_elem_of_fmap. eauto. }
  assert (lenN (bl_result b) <= max_txns) as Hlen by (destruct stop; destruct Hpost; lia).
  assert (lenN (bl_result b) = lenN block + lenN l2) as Hsum.
  { rewrite Hres, Hl1. unfold lenN. rewrite length_app, length_fmap. lia. }
  assert (∀ i p, l1 !! i = Some p → bl_result b !! i = Some p) as Hpre
    by (intros i p Hi; rewrite Hres; by apply lookup_app_l_Some).
  split.
  - lia.
  - done.
  - rewrite <- Hl1. pose proof (bi_nodup _ _ _ _ _ Hb) as Hnd. rewrite Hres in Hnd. by apply NoDup_app in Hnd as [? _].
  - intros t Ht. by apply (bi_fresh _ _ _ _ _ Hb), Hin.
  - done.
  - intros i t Hi. assert (bl_result b !! i = Some (signed_pointer t)) as Hri
      by (apply Hpre; rewrite Hl1, list_lookup_fmap, Hi; done).
    destruct (bi_order _ _ _ _ _ Hb i _ Hri) as [Hs|[Hpos [Hs|(j & Hj & Hq')]]]; [by left|right; auto|].
    right. split; [done|]. right. pose proof (lookup_lt_Some _ _ _ Hi) as Hlt.
    destruct (lookup_lt_is_Some_2 block j) as [t' Ht']; [lia|]. exists j, t'. split_and!; [done|done|].
    assert (bl_result b !! j = Some (signed_pointer t')) as Hrj
      by (apply Hpre; rewrite Hl1, list_lookup_fmap, Ht'; done).
    rewrite Hq' in Hrj. by apply (inj Some) in Hrj.
  - destruct Hend as [->|(p & t & Hp & Ht & Hcut)].
    2: { right. left. exists p.1, p.2, t. split_and!; [done| |done]. destruct p. apply (bi_fresh _ _ _ _ _ Hb).
         rewrite Hres. apply elem_of_app. by right. }
    rewrite app_nil_r in Hres. cbn in Hsum. destruct stop.
    { left. destruct Hpost as [Hp _]. change (lenN []) with 0 in Hsum. lia. }
    right. right. destruct Hpost as [_ Hb']. intros a n t Hr Ht.
    assert ((a, n) ∈ bl_seen b) as Hs.
    { eapply ready_seen; [exact Hb'| |done]. intros a' n' Hr'. rewrite (Hall eq_refl). apply elem_of_union. right.
      apply elem_of_list_to_set. by apply ready_queued. }
    rewrite (batch_inv_seen _ _ _ _ _ _ Hb) in Hs. destruct Hs as [|Hs]; [by left|]. right.
    rewrite Hres, Hl1 in Hs. apply list_elem_of_fmap in Hs as (t' & [= -> ->] & Ht').
    specialize (Hstored t' Ht'). congruence.
Qed.
End batch.
