(* ===== verification/MempoolTimeline.v ===== *)
(** * Mempool: reading the timelines

    [read_timeline] returns the next ready transactions of each bucket and the ids up to which
    they reach: exactly the transactions between the old and the new ids, within the limits on their
    number and bytes. [timeline_range] over the same ids returns those that are still there. *)
From S2P Require Import Prelude Crypto BTree MempoolIndex MempoolStore MempoolInv MempoolOps MempoolBatch.
Local Open Scope N_scope.

(** ** Prefixes of sorted lists *)
Section prefix.
Context {A : Type}.
Implicit Types l : list (N * A).

(** The greatest key of a prefix, or where it starts *)
Definition reach (from : N) l : N := match last l with Some e => e.1 | None => from end.
Definition increasing (from : N) l : Prop :=
  StronglySorted N.lt (l.*1) ∧ Forall (λ e, from < e.1) l.

Lemma increasing_app from l1 l2 :
  increasing from (l1 ++ l2) → increasing from l1 ∧ Forall (λ e, reach from l1 < e.1) l2.
Proof.
  intros [Hs Hf]. rewrite fmap_app in Hs. apply Forall_app in Hf as [Hf1 Hf2].
  split; [split; [by eapply StronglySorted_app_1_l|done]|].
  unfold reach. destruct (last l1) as [e|] eqn:He; [|done]. apply last_Some_elem_of in He.
  apply Forall_forall. intros x Hx. eapply (StronglySorted_app_1_elem_of _ (l1.*1) (l2.*1)); [done|..];
    apply list_elem_of_fmap; eauto.
Qed.
Lemma increasing_reach from l e : increasing from l → e ∈ l → e.1 <= reach from l.
Proof.
  intros [Hs _]. unfold reach. induction l as [|x l IH] using rev_ind; [by rewrite elem_of_nil|].
  rewrite last_snoc, elem_of_app, list_elem_of_singleton. intros [He| ->]; [|lia].
  rewrite fmap_app in Hs. apply N.lt_le_incl.
  eapply (StronglySorted_app_1_elem_of _ (l.*1)); [done|apply list_elem_of_fmap; eauto|]. by left.
Qed.
Lemma prefix_reach from l1 l2 e :
  increasing from (l1 ++ l2) → e ∈ l1 ↔ e ∈ l1 ++ l2 ∧ e.1 <= reach from l1.
Proof.
  intros Hi. destruct (increasing_app _ _ _ Hi) as [H1 H2]. rewrite elem_of_app. split.
  - intros He. split; [by left|]. by apply increasing_reach.
  - intros [[He|He] Hle]; [done|]. rewrite Forall_forall in H2. specialize (H2 e He). lia.
Qed.
Lemma reach_ge from l : Forall (λ e, from < e.1) l → from <= reach from l.
Proof.
  intros Hf. unfold reach. destruct (last l) as [e|] eqn:He; [|lia]. apply last_Some_elem_of in He.
  rewrite Forall_forall in Hf. specialize (Hf e He). lia.
Qed.
End prefix.

Section timeline.
Context `{!TransactionTypes, !TransactionEncoding, !Workload}.
Abbreviation ptr := (AccountAddress * N)%type (only parsing).
Implicit Types (s : TransactionStore) (i : MultiBucketTimelineIndex).

(** The entries of a timeline beyond an id, in their order *)
Definition pending (tl : gmap N ptr) (from : N) : list (N * ptr) :=
  filter (λ e, from < e.1) (btree_iter tl).
Lemma elem_of_pending tl from id p : (id, p) ∈ pending tl from ↔ tl !! id = Some p ∧ from < id.
Proof. unfold pending. rewrite list_elem_of_filter, elem_of_btree_iter. naive_solver. Qed.
Lemma sorted_strict (l : list N) : StronglySorted N.le l → NoDup l → StronglySorted N.lt l.
Proof.
  induction 1 as [|x l Hs IH Hx]; intros Hnd; [constructor|]. apply NoDup_cons in Hnd as [Hnot Hnd].
  constructor; [by apply IH|]. rewrite Forall_forall in Hx |- *. intros y Hy. specialize (Hx y Hy).
  assert (x ≠ y) by congruence. lia.
Qed.
Lemma pending_increasing tl from : increasing from (pending tl from).
Proof.
  split.
  - assert (StronglySorted N.lt ((btree_iter tl).*1)) as Hs
      by (apply sorted_strict; [apply sorted_btree_iter|apply NoDup_fst_btree_iter]).
    unfold pending. induction (btree_iter tl) as [|e l IH]; [constructor|].
    rewrite fmap_cons in Hs. inversion Hs as [|? ? Hs' Hx]; subst. rewrite filter_cons. case_decide; [|by apply IH].
    rewrite fmap_cons. constructor; [by apply IH|]. rewrite Forall_forall in Hx |- *.
    intros y (x & -> & [_ Hin]%list_elem_of_filter)%list_elem_of_fmap. apply Hx. apply list_elem_of_fmap. eauto.
  - apply Forall_forall. intros e [? _]%list_elem_of_filter. done.
Qed.

(** ** One bucket *)
Lemma read_timeline_loop_ok (l : list (N * ptr)) count batch :
  lenN batch < count → read_timeline_loop l count batch = batch ++ take (N.to_nat count - length batch) (l.*2).
Proof.
  revert batch. induction l as [|[id [a n]] l IH]; intros batch Hlen; cbn [read_timeline_loop].
  { by rewrite fmap_nil, take_nil, app_nil_r. }
  unfold lenN in *. rewrite length_app. cbn [length].
  destruct (N.to_nat count - length batch)%nat as [|k] eqn:Hk; [lia|]. cbn.
  destruct (N.eqb_spec (N.of_nat (length batch + 1)) count).
  - assert (k = 0)%nat as -> by lia. by rewrite take_0.
  - rewrite IH by (rewrite length_app; cbn; lia). rewrite <- app_assoc, length_app. cbn.
    replace (N.to_nat count - (length batch + 1))%nat with k by lia. done.
Qed.
Lemma index_read_ok tl from count :
  0 < count →
  timeline_index_read_timeline tl from count =
    Ok (take (N.to_nat count) ((pending (tl_timeline tl) from).*2)).
Proof.
  intros Hc. unfold timeline_index_read_timeline, btree_range. cbn. f_equal.
  rewrite read_timeline_loop_ok by (unfold lenN; cbn; lia). cbn. rewrite Nat.sub_0_r. unfold pending.
  do 2 f_equal. apply list_filter_ext_in. intros [id p] _. cbn. unfold in_range. cbn.
  rewrite andb_true_r, Is_true_true. apply N.ltb_lt.
Qed.

(** ** All buckets *)
Definition total_length {A} (ls : list (list A)) : N := N.of_nat (sum_list_with length ls).
Definition is_read (e : TimelineIndex * N) (l : list ptr) : Prop :=
  ∃ k, l = take k ((pending (tl_timeline e.1) e.2).*2).

Lemma multi_read_loop_ok (bs : list (TimelineIndex * N)) count added returned :
  added < count → count < 2 ^ 64 →
  ∃ reads, multi_read_loop bs count added returned = Ok (returned ++ reads) ∧
    (length reads <= length bs)%nat ∧
    (∀ j e l, bs !! j = Some e → reads !! j = Some l → is_read e l) ∧
    added + total_length reads <= count ∧
    (total_length reads = 0 → ∀ e, e ∈ bs → pending (tl_timeline e.1) e.2 = []).
Proof.
  revert added returned. induction bs as [|[tl from] bs IH]; intros added returned Hlt Hcount; cbn [multi_read_loop].
  { exists []. rewrite app_nil_r. split_and!; [done|cbn; lia|done|cbn; unfold total_length; cbn; lia|set_solver]. }
  unfold u64_sub, u64_checked_sub. destruct (N.leb_spec added count); [|lia]. run_ok.
  rewrite index_read_ok by lia. run_ok. set (txns := take _ _).
  assert (added + lenN txns <= count) as Hle.
  { unfold lenN, txns. rewrite length_take. lia. }
  assert (is_read (tl, from) txns) as Hread by by eexists.
  destruct (N.eqb_spec (added + lenN txns) count) as [Heq|Hne].
  - exists [txns]. split_and!; [done|cbn; lia| |unfold total_length; cbn; unfold lenN in *; lia|].
    + intros [|j] e l; cbn; [by intros [= <-] [= <-]|done].
    + unfold total_length. cbn. unfold lenN in *. lia.
  - destruct (IH (added + lenN txns) (returned ++ [txns])) as (reads & Hrun & Hlen & Hr & Hsum & Hprog); [lia|done|].
    exists (txns :: reads). rewrite Hrun, <- app_assoc. split_and!; [done|cbn; lia| |unfold total_length in *; cbn; unfold lenN in *; lia|].
    + intros [|j] e l; cbn; [by intros [= <-] [= <-]|by apply Hr].
    + unfold total_length in *. cbn. intros Hz e [->|He]%elem_of_cons; [|apply Hprog; [lia|done]].
      cbn. assert (length txns = 0)%nat as Ht by lia. unfold txns in Ht. rewrite length_take, length_fmap in Ht.
      destruct (pending (tl_timeline tl) from); [done|]. cbn in Ht. lia.
Qed.

Lemma multi_bucket_read_ok i ids count :
  mb_wf i → length ids = length (mb_bucket_mins i) → 0 < count → count < 2 ^ 64 →
  ∃ R, multi_bucket_read_timeline i ids count = Ok R ∧ length R = length ids ∧
    (∀ b l, R !! b = Some l → ∃ from k, ids !! b = Some from ∧ l = take k ((pending (timeline_at i b) from).*2)) ∧
    total_length R <= count ∧
    (total_length R = 0 → ∀ b from, ids !! b = Some from → pending (timeline_at i b) from = []).
Proof.
  intros Hwf Hids Hpos Hcount. unfold multi_bucket_read_timeline.
  pose proof (mb_wf_length _ Hwf) as Hlen. unfold lenN at 1 2. rewrite Hids, N.eqb_refl. run_ok.
  destruct (multi_read_loop_ok (reverse (zip (mb_timelines i) ids)) count 0 []) as
    (reads & -> & Hlr & Hr & Hsum & Hprog); [lia|done|]. run_ok. cbn [app].
  rewrite length_reverse, length_zip, Hlen, Hids, Nat.min_id in Hlr.
  set (n := length ids) in *. rewrite Hlen, <- Hids. fold n.
  set (P := reads ++ replicate (n - length reads) []).
  assert (length P = n) as HP by (unfold P; rewrite length_app, length_replicate; lia).
  assert (∀ b, (b < n)%nat → ∃ tl from, mb_timelines i !! b = Some tl ∧ ids !! b = Some from ∧
    reverse (zip (mb_timelines i) ids) !! (n - S b)%nat = Some (tl, from)) as Hb.
  { intros b Hb. destruct (lookup_lt_is_Some_2 (mb_timelines i) b) as [tl Htl]; [lia|].
    destruct (lookup_lt_is_Some_2 ids b) as [from Hfrom]; [lia|]. exists tl, from. split_and!; [done..|].
    rewrite reverse_lookup by (rewrite length_zip; lia). rewrite length_zip, Hlen, <- Hids, Nat.min_id. fold n.
    replace (n - S (n - S b))%nat with b by lia. apply lookup_zip_with_Some. eauto. }
  assert (total_length (reverse P) = total_length reads) as Htot.
  { unfold total_length, P. rewrite sum_list_with_reverse, sum_list_with_app. f_equal.
    assert (∀ k, sum_list_with (length (A:=N * N)) (replicate k []) = 0)%nat as ->; [|lia].
    intros k. induction k; [done|]. cbn. done. }
  exists (reverse P). split_and!; [done|by rewrite length_reverse| |by rewrite Htot; lia|].
  - intros b l Hl. pose proof (lookup_lt_Some _ _ _ Hl) as Hlt. rewrite length_reverse, HP in Hlt.
    destruct (Hb b Hlt) as (tl & from & Htl & Hfrom & Hz). exists from.
    rewrite reverse_lookup in Hl by lia. rewrite HP in Hl.
    unfold timeline_at. rewrite Htl. cbn. unfold P in Hl. apply lookup_app_Some in Hl as [Hl|[_ Hl]].
    + destruct (Hr _ _ _ Hz Hl) as [k ->]. eauto.
    + apply lookup_replicate in Hl as [-> _]. exists 0%nat. by rewrite take_0.
  - rewrite Htot. intros Hz b from Hfrom. pose proof (lookup_lt_Some _ _ _ Hfrom) as Hlt.
    destruct (Hb b Hlt) as (tl & from' & Htl & Hfrom' & Hz'). rewrite Hfrom in Hfrom'. simplify_eq.
    unfold timeline_at. rewrite Htl. cbn. apply (Hprog Hz (tl, from')). by eapply list_elem_of_lookup_2.
Qed.

(** ** The transactions of a read *)

(** [t] is at an id between [from], excluded, and [to] of a bucket. *)
Definition in_window s (b : nat) (from to : N) (t : SignedTransaction) : Prop :=
  ∃ id a n, timeline_at (timeline_index s) b !! id = Some (a, n) ∧ from < id <= to ∧ store_get s a n = Some t.
Definition txns_of s (l : list (N * ptr)) : list SignedTransaction :=
  omap (λ e, store_get s e.2.1 e.2.2) l.
Definition entries_ok s (l : list (N * ptr)) : Prop :=
  Forall (λ e, ∃ t, get_mempool_txn s e.2.1 e.2.2 = Some t ∧ timeline_state t = Ready e.1) l.

Lemma timeline_entries s b l :
  store_inv 0 0 s → (∀ e, e ∈ l → timeline_at (timeline_index s) b !! e.1 = Some e.2) → entries_ok s l.
Proof.
  intros Hinv Hl. apply Forall_forall. intros [id [a n]] He. specialize (Hl _ He). cbn in *.
  apply (ix_timeline _ _ _ _ (si_indexed _ _ _ Hinv)) in Hl as (t & Ht & Hst & _).
  rewrite contents_lookup in Ht. eauto.
Qed.
Lemma txns_of_cons s e l t :
  get_mempool_txn s e.2.1 e.2.2 = Some t → txns_of s (e :: l) = txn t :: txns_of s l.
Proof. intros Ht. cbn. unfold store_get at 1. by rewrite Ht. Qed.
Lemma elem_of_txns_of s l t :
  t ∈ txns_of s l ↔ ∃ e, e ∈ l ∧ store_get s e.2.1 e.2.2 = Some t.
Proof. unfold txns_of. by rewrite list_elem_of_omap. Qed.
Lemma length_txns_of s l : (length (txns_of s l) <= length l)%nat.
Proof. unfold txns_of. induction l as [|e l IH]; [done|]. cbn. destruct (store_get s e.2.1 e.2.2); cbn; lia. Qed.

Lemma reach_cons from (e : N * ptr) l : reach from (e :: l) = reach e.1 l.
Proof. unfold reach. destruct l; [done|]. change (last (e :: p :: l)) with (last (p :: l)). by destruct (last (p :: l)) eqn:E; [|apply last_None in E]. Qed.

Definition bytes_ok s (batch : list SignedTransaction) (total : N) : Prop :=
  total = N.min (block_bytes batch) U64_MAX ∧ total <= max_batch_bytes s.

Definition too_big s (total : N) (t : SignedTransaction) : Prop :=
  max_batch_bytes s < N.min (total + raw_txn_bytes_len t) U64_MAX.

Lemma read_bucket_ok s b l batch total from last_ids :
  entries_ok s l → last_ids !! b = Some from → bytes_ok s batch total →
  ∃ l1 l2 total', l = l1 ++ l2 ∧
    read_bucket s b (l.*2) batch total last_ids =
      Ok (batch ++ txns_of s l1, total', <[b := reach from l1]> last_ids) ∧
    bytes_ok s (batch ++ txns_of s l1) total' ∧
    (txns_of s l1 = [] → ∀ p t, head (l.*2) = Some p → store_get s p.1 p.2 = Some t → too_big s total t).
Proof.
  intros Hl. revert batch total from last_ids.
  induction Hl as [|[id [a n]] l (t & Ht & Hst) Hl IH]; intros batch total from last_ids Hb Hbytes; cbn [read_bucket fmap list_fmap].
  { exists [], [], total. cbn. rewrite app_nil_r, list_insert_id by done. done. }
  cbn in Ht, Hst |- *. rewrite Ht. unfold u64_saturating_add. destruct Hbytes as [Htot Hmax].
  set (total1 := N.min (total + raw_txn_bytes_len (txn t)) U64_MAX).
  destruct (N.ltb_spec (max_batch_bytes s) total1) as [Hcut|Hfit].
  { exists [], ((id, (a, n)) :: l), total. cbn. rewrite app_nil_r, list_insert_id by done. split_and!; try done.
    intros _ p t' [= <-]. unfold store_get. cbn. rewrite Ht. by intros [= <-]. }
  rewrite Hst. rewrite Hb. run_ok.
  destruct (IH (batch ++ [txn t]) total1 id (<[b := id]> last_ids)) as (l1 & l2 & total' & -> & Hrun & Hbytes' & _).
  - apply list_lookup_insert_eq. by eapply lookup_lt_Some.
  - split; [|done]. rewrite block_bytes_snoc. unfold total1. rewrite Htot. lia.
  - rewrite list_insert_insert_eq, <- app_assoc in Hrun. rewrite <- app_assoc in Hbytes'.
    exists ((id, (a, n)) :: l1), l2, total'. rewrite reach_cons, (txns_of_cons s (id, (a, n)) l1 t) by done. done.
Qed.

Lemma read_buckets_ok s bks batch total last_ids :
  store_inv 0 0 s → NoDup bks.*1 → bytes_ok s batch total →
  (∀ b l, (b, l) ∈ bks → ∃ from k, last_ids !! b = Some from ∧
      l = take k ((pending (timeline_at (timeline_index s) b) from).*2)) →
  ∃ more new_ids total', read_buckets s bks batch total last_ids = Ok (batch ++ more, new_ids) ∧
    bytes_ok s (batch ++ more) total' ∧ length new_ids = length last_ids ∧
    lenN more <= total_length bks.*2 ∧
    (∀ b, b ∉ bks.*1 → new_ids !! b = last_ids !! b) ∧
    (∀ b from, last_ids !! b = Some from → ∃ to, new_ids !! b = Some to ∧ from <= to ∧
       (to = from ∨ is_Some (timeline_at (timeline_index s) b !! to))) ∧
    (∀ t, t ∈ more ↔ ∃ b from to, last_ids !! b = Some from ∧ new_ids !! b = Some to ∧ in_window s b from to t) ∧
    (more = [] → ∀ l p t, l ∈ bks.*2 → head l = Some p → store_get s p.1 p.2 = Some t → too_big s total t).
Proof.
  intros Hinv. revert batch total last_ids. induction bks as [|[b bucket] bks IH]; intros batch total last_ids Hnd Hbytes Hbks.
  { exists [], last_ids, total. cbn. rewrite app_nil_r. split_and!; try done.
    - intros b from Hb. exists from. split_and!; [done|lia|by left].
    - intros t. split; [set_solver|]. intros (b & from & to & Hb & Hb' & id & a & n & _ & Hid & _).
      rewrite Hb in Hb'. simplify_eq. lia.
    - set_solver. }
  rewrite fmap_cons in Hnd. apply NoDup_cons in Hnd as [Hnot Hnd].
  destruct (Hbks b bucket) as (from & k & Hfrom & ->); [by left|].
  set (tl := timeline_at (timeline_index s) b) in *. rewrite <- fmap_take.
  set (l := take k (pending tl from)).
  assert (∀ e, e ∈ l → tl !! e.1 = Some e.2 ∧ from < e.1) as Hl.
  { intros [id p] He. apply (elem_of_sublist _ (pending tl from)) in He; [|apply sublist_take].
    by apply elem_of_pending in He. }
  destruct (read_bucket_ok s b l batch total from last_ids) as (l1 & l2 & total1 & Hsplit & Hrun1 & Hbytes1 & Hbig1); [|done|done|].
  { apply (timeline_entries s b); [done|]. intros e He. by apply Hl. }
  set (mid := <[b := reach from l1]> last_ids) in *.
  pose proof (lookup_lt_Some _ _ _ Hfrom) as Hlt.
  destruct (IH (batch ++ txns_of s l1) total1 mid Hnd Hbytes1) as
    (more & new_ids & total' & Hrun & Hbytes' & Hlen & Hcount & Hrest & Hnew & Hmore & Hbig).
  { intros b' l' Hin. destruct (Hbks b' l') as (from' & k' & Hfrom' & ->); [by right|].
    exists from', k'. split; [|done]. unfold mid. rewrite list_lookup_insert_ne; [done|].
    intros <-. apply Hnot. apply list_elem_of_fmap. exists (b, take k' ((pending (timeline_at (timeline_index s) b) from').*2)).
    done. }
  assert (pending tl from = l1 ++ (l2 ++ drop k (pending tl from))) as Hpend.
  { rewrite app_assoc, <- Hsplit. unfold l. by rewrite take_drop. }
  pose proof (pending_increasing tl from) as Hinc. rewrite Hpend in Hinc.
  assert (new_ids !! b = Some (reach from l1)) as Hto.
  { rewrite Hrest by done. by apply list_lookup_insert_eq. }
  assert (∀ t, t ∈ txns_of s l1 ↔ in_window s b from (reach from l1) t) as Hwin.
  { intros t. rewrite elem_of_txns_of. setoid_rewrite (prefix_reach _ _ _ _ Hinc).
    rewrite <- Hpend. split.
    - intros ([id [a n]] & [Hin Hle] & Ht). apply elem_of_pending in Hin as [Hin Hgt].
      exists id, a, n. split_and!; done.
    - intros (id & a & n & Hin & [Hgt Hle] & Ht). exists (id, (a, n)). split; [|done].
      split; [|done]. by apply elem_of_pending. }
  exists (txns_of s l1 ++ more), new_ids, total'. cbn [read_buckets]. rewrite Hrun1. run_ok.
  rewrite Hrun, !app_assoc. split_and!; [done|done| | | | | |].
  - rewrite Hlen. apply length_insert.
  - unfold lenN, total_length in *. rewrite fmap_cons. cbn [sum_list_with snd]. rewrite length_app, length_fmap.
    pose proof (length_txns_of s l1). rewrite Hsplit, length_app. lia.
  - intros b'. rewrite fmap_cons, not_elem_of_cons. intros [Hne Hb']. rewrite Hrest by done.
    unfold mid. by rewrite list_lookup_insert_ne.
  - intros b' from' Hb'. destruct (decide (b' = b)) as [->|Hne].
    + rewrite Hfrom in Hb'. injection Hb' as <-. exists (reach from l1). split; [done|].
      assert (∀ e, e ∈ l1 → e ∈ l) as Hsub by (intros e He; rewrite Hsplit; apply elem_of_app; by left).
      split; [apply reach_ge, Forall_forall; intros e He; by apply Hl, Hsub|].
      unfold reach. destruct (last l1) as [e|] eqn:He; [|by left]. right.
      apply last_Some_elem_of, Hsub, Hl in He as [He _]. by eexists.
    + apply Hnew. unfold mid. by rewrite list_lookup_insert_ne.
  - intros t. rewrite elem_of_app, Hwin, Hmore. split.
    + intros [Ht|(b' & from' & to & Hb' & Hto' & Ht)]; [by exists b, from, (reach from l1)|].
      destruct (decide (b' = b)) as [->|Hne].
      * unfold mid in Hb'. rewrite list_lookup_insert_eq in Hb' by done. rewrite Hto in Hto'. simplify_eq.
        destruct Ht as (id & a & n & _ & Hid & _). lia.
      * exists b', from', to. unfold mid in Hb'. by rewrite list_lookup_insert_ne in Hb'.
    + intros (b' & from' & to & Hb' & Hto' & Ht). destruct (decide (b' = b)) as [->|Hne].
      * left. rewrite Hfrom in Hb'. rewrite Hto in Hto'. by simplify_eq.
      * right. exists b', from', to. unfold mid. by rewrite list_lookup_insert_ne.
  - intros [Hl1 Hm]%app_nil l' p t. rewrite fmap_cons, elem_of_cons. intros [->|Hin] Hp Ht; [by eapply Hbig1|].
    assert (total1 = total) as Heq.
    { rewrite Hl1, app_nil_r in Hbytes1. destruct Hbytes as [-> _], Hbytes1 as [-> _]. done. }
    rewrite <- Heq. by eapply Hbig.
Qed.

(** Reading from [ids] gives exactly the transactions up to the ids it returns. *)
Record read_ok s (ids : list N) (count : N) (batch : list SignedTransaction) (new_ids : list N) : Prop := {
  ro_length : length new_ids = length ids;
  ro_count : lenN batch <= count;
  ro_bytes : N.min (block_bytes batch) U64_MAX <= max_batch_bytes s;
  ro_forward b from to : ids !! b = Some from → new_ids !! b = Some to →
    from <= to ∧ (to = from ∨ is_Some (timeline_at (timeline_index s) b !! to));
  ro_batch t : t ∈ batch ↔
    ∃ b from to, ids !! b = Some from ∧ new_ids !! b = Some to ∧ in_window s b from to t;
  ro_progress b from id p : batch = [] → ids !! b = Some from →
    timeline_at (timeline_index s) b !! id = Some p → from < id →
    ∃ b' id' p' t, timeline_at (timeline_index s) b' !! id' = Some p' ∧ store_get s p'.1 p'.2 = Some t ∧
                   too_big s 0 t;
}.
Lemma read_timeline_ok s ids count :
  store_inv 0 0 s → length ids = length (mb_bucket_mins (timeline_index s)) → 0 < count → count < 2 ^ 64 →
  ∃ batch new_ids, store_read_timeline ids count s = Ok (batch, new_ids) ∧ read_ok s ids count batch new_ids.
Proof.
  intros Hinv Hids Hpos Hcount. unfold store_read_timeline.
  destruct (multi_bucket_read_ok (timeline_index s) ids count) as (R & -> & HR & Hreads & Htot & Hprog);
    [apply Hinv|done..|]. run_ok.
  assert (length (seq 0 (length R)) = length R) as Hseq by apply length_seq.
  destruct (read_buckets_ok s (reverse (zip (seq 0 (length R)) R)) [] 0 ids) as
    (more & new_ids & total & -> & Hbytes & Hlen & Hcnt & _ & Hnew & Hmore & Hbig); [done| | | |].
  - rewrite fmap_reverse, reverse_Permutation, fst_zip by lia. apply NoDup_seq.
  - split; [|lia]. cbn. lia.
  - intros b l Hin. rewrite reverse_Permutation in Hin. apply list_elem_of_lookup in Hin as [j Hj].
    apply lookup_zip_with_Some in Hj as (x & y & [= -> ->] & Hx & Hy). apply lookup_seq in Hx as [-> _].
    by apply Hreads.
  - exists more, new_ids. split; [done|]. destruct Hbytes as [Hb1 Hb2]. cbn [app] in Hb1. split; [done| | | |done|].
    + rewrite fmap_reverse, snd_zip in Hcnt by lia. unfold total_length in *. rewrite sum_list_with_reverse in Hcnt. lia.
    + by rewrite <- Hb1.
    + intros b from to Hb Hto. destruct (Hnew b from Hb) as (to' & Hto' & ? & ?). rewrite Hto in Hto'. by simplify_eq.
    + intros b from id p Hm Hb Hid Hgt. rewrite fmap_reverse, snd_zip in Hbig by lia.
      destruct (decide (total_length R = 0)) as [Hz|Hnz].
      { assert ((id, p) ∈ pending (timeline_at (timeline_index s) b) from) as Hin by by apply elem_of_pending.
        rewrite (Hprog Hz b from Hb) in Hin. by apply elem_of_nil in Hin. }
      assert (∃ l, l ∈ R ∧ l ≠ []) as (l & Hl & Hne).
      { clear -Hnz. unfold total_length in Hnz. induction R as [|l R IH]; [done|].
        destruct l as [|x l]; [|exists (x :: l); split; [by left|done]]. destruct IH as (l' & ? & ?); [done|].
        exists l'. split; [by right|done]. }
      destruct l as [|[a' n'] l]; [done|]. apply list_elem_of_lookup in Hl as Hlb. destruct Hlb as [b' Hlb].
      destruct (Hreads b' _ Hlb) as (from' & k & Hfrom' & Hk).
      assert ((a', n') ∈ (pending (timeline_at (timeline_index s) b') from').*2) as Hin.
      { apply (elem_of_sublist (take k (pending (timeline_at (timeline_index s) b') from').*2)); [|apply sublist_take].
        rewrite <- Hk. by left. }
      apply list_elem_of_fmap in Hin as ([id' p'] & Hp & [Hin _]%elem_of_pending). cbn in Hp. subst p'.
      pose proof Hin as Hst. apply (ix_timeline _ _ _ _ (si_indexed _ _ _ Hinv)) in Hst as (t & Ht & _).
      rewrite contents_lookup in Ht. exists b', id', (a', n'), (txn t). unfold store_get. cbn. rewrite Ht.
      split_and!; [done|done|]. apply (Hbig Hm ((a', n') :: l) (a', n')); [|done|].
      * by rewrite reverse_Permutation.
      * unfold store_get. cbn. by rewrite Ht.
Qed.

(** ** Ranges *)

(** Bucket [b] has an entry of id [n] between the ids of [pairs]. *)
Definition covers (pairs : list (N * N)) (b : nat) (n : N) : Prop :=
  ∃ from to, pairs !! b = Some (from, to) ∧ from < n <= to.
Definition range_entries (e : TimelineIndex * (N * N)) : list ptr :=
  (filter (λ x, e.2.1 < x.1 <= e.2.2) (btree_iter (tl_timeline e.1))).*2.
Definition window_ptrs i (pairs : list (N * N)) : list ptr :=
  concat (range_entries <$> zip (mb_timelines i) pairs).
Definition pairs_ok i (pairs : list (N * N)) : Prop :=
  length pairs = length (mb_bucket_mins i) ∧ ∀ b from to, pairs !! b = Some (from, to) → from <= to.

Lemma range_entries_ok tl from to :
  from <= to → timeline_index_timeline_range tl from to = Ok (range_entries (tl, (from, to))).
Proof.
  intros Hle. unfold timeline_index_timeline_range, btree_range, range_ok, range_entries. cbn [fst snd].
  destruct (N.leb_spec from to); [|lia]. run_ok. do 2 f_equal. apply list_filter_ext_in. intros [id p] _. cbn.
  unfold in_range. cbn. rewrite Is_true_true, andb_true_iff, N.ltb_lt, N.leb_le. done.
Qed.
Lemma multi_range_loop_ok (bs : list (TimelineIndex * (N * N))) acc :
  Forall (λ e, e.2.1 <= e.2.2) bs → multi_range_loop bs acc = Ok (acc ++ concat (range_entries <$> bs)).
Proof.
  intros Hbs. revert acc. induction Hbs as [|[tl [from to]] bs Hle Hbs IH]; intros acc; cbn [multi_range_loop].
  { cbn. by rewrite app_nil_r. }
  rewrite range_entries_ok by done. run_ok. rewrite IH. by rewrite fmap_cons, <- app_assoc.
Qed.
Lemma window_ptrs_ok i pairs :
  mb_wf i → pairs_ok i pairs → multi_bucket_timeline_range i pairs = Ok (window_ptrs i pairs).
Proof.
  intros Hwf [Hlen Hle]. unfold multi_bucket_timeline_range, lenN. rewrite (mb_wf_length _ Hwf), Hlen, N.eqb_refl.
  run_ok. rewrite multi_range_loop_ok; [done|]. apply Forall_lookup. intros b [tl [from to]].
  intros (x & y & [= <- <-] & _ & Hb)%lookup_zip_with_Some. exact (Hle b from to Hb).
Qed.
Lemma elem_of_window_ptrs i pairs p :
  p ∈ window_ptrs i pairs ↔ ∃ b n, timeline_at i b !! n = Some p ∧ covers pairs b n.
Proof.
  unfold window_ptrs. rewrite list_elem_of_In, in_concat. setoid_rewrite <- list_elem_of_In. split.
  - intros (l & ([tl [from to]] & -> & Hz)%list_elem_of_fmap & Hp).
    apply list_elem_of_lookup in Hz as [b (x & y & [= <- <-] & Htl & Hb)%lookup_zip_with_Some].
    apply list_elem_of_fmap in Hp as ([n p'] & -> & [Hn Hin]%list_elem_of_filter). cbn in Hn. exists b, n.
    unfold timeline_at. rewrite Htl. cbn. apply elem_of_btree_iter in Hin. split; [done|]. by exists from, to.
  - intros (b & n & Hp & from & to & Hb & Hn). unfold timeline_at in Hp.
    destruct (mb_timelines i !! b) as [tl|] eqn:Htl; cbn in Hp; [|done].
    exists (range_entries (tl, (from, to))). split.
    + apply list_elem_of_fmap. exists (tl, (from, to)). split; [done|]. apply list_elem_of_lookup. exists b.
      apply lookup_zip_with_Some. eauto.
    + apply list_elem_of_fmap. exists (n, p). split; [done|]. apply list_elem_of_filter. split; [done|].
      by apply elem_of_btree_iter.
Qed.
Lemma NoDup_concat {A} (ls : list (list A)) :
  Forall (NoDup (A := A)) ls → (∀ b b' l l' x, ls !! b = Some l → ls !! b' = Some l' → x ∈ l → x ∈ l' → b = b') →
  NoDup (concat ls).
Proof.
  induction 1 as [|l ls Hl Hls IH]; intros Hdis; cbn; [constructor|]. apply NoDup_app. split_and!; [done| |].
  - intros x Hx Hin. apply list_elem_of_In, in_concat in Hin as (l' & Hl' & Hx').
    apply list_elem_of_In in Hl', Hx'. apply list_elem_of_lookup in Hl' as [b Hb].
    discriminate (Hdis 0%nat (S b) l l' x eq_refl Hb Hx Hx').
  - apply IH. intros b b' l1 l2 x Hb Hb' Hx1 Hx2.
    pose proof (Hdis (S b) (S b') l1 l2 x Hb Hb' Hx1 Hx2). lia.
Qed.
Lemma timeline_unique s b b' n n' p :
  store_inv 0 0 s → timeline_at (timeline_index s) b !! n = Some p → timeline_at (timeline_index s) b' !! n' = Some p →
  b = b' ∧ n = n'.
Proof.
  intros Hinv (t & Ht & Hst & Hb)%(ix_timeline _ _ _ _ (si_indexed _ _ _ Hinv))
    (t' & Ht' & Hst' & Hb')%(ix_timeline _ _ _ _ (si_indexed _ _ _ Hinv)).
  rewrite Ht in Ht'. simplify_eq. split; [done|]. congruence.
Qed.
Lemma NoDup_window_ptrs s pairs : store_inv 0 0 s → NoDup (window_ptrs (timeline_index s) pairs).
Proof.
  intros Hinv. set (i := timeline_index s). unfold window_ptrs.
  assert (∀ b e p, zip (mb_timelines i) pairs !! b = Some e → p ∈ range_entries e → ∃ n, timeline_at i b !! n = Some p) as Hat.
  { intros b e p (tl & pr & -> & Htl & _)%lookup_zip_with_Some ([n p'] & -> & [_ Hn]%list_elem_of_filter)%list_elem_of_fmap.
    exists n. unfold timeline_at. rewrite Htl. by apply elem_of_btree_iter in Hn. }
  apply NoDup_concat.
  - apply Forall_fmap, Forall_lookup. intros b e Hb. unfold compose, range_entries. apply NoDup_fmap_2_strong.
    + intros [n p] [n' p'] [_ Hn]%list_elem_of_filter [_ Hn']%list_elem_of_filter Heq. cbn in Heq. subst p'.
      apply lookup_zip_with_Some in Hb as (tl & pr & -> & Htl & _). cbn in *.
      apply elem_of_btree_iter in Hn, Hn'. f_equal.
      apply (timeline_unique s b b n n' p Hinv); unfold timeline_at; fold i; by rewrite Htl.
    + apply NoDup_filter, (NoDup_fmap_1 fst), NoDup_fst_btree_iter.
  - intros b b' l l' p Hb Hb' Hp Hp'. rewrite list_lookup_fmap in Hb, Hb'.
    apply fmap_Some in Hb as (e & Hb & ->), Hb' as (e' & Hb' & ->).
    destruct (Hat b e p Hb Hp) as [n Hn], (Hat b' e' p Hb' Hp') as [n' Hn'].
    by destruct (timeline_unique s b b' n n' p Hinv Hn Hn').
Qed.

(** [timeline_range] returns the transactions of the window, each once. *)
Lemma timeline_range_ok s pairs :
  store_inv 0 0 s → pairs_ok (timeline_index s) pairs →
  ∃ txns, store_timeline_range pairs s = Ok txns ∧
    (∀ t, t ∈ txns ↔ ∃ b n a k, timeline_at (timeline_index s) b !! n = Some (a, k) ∧ covers pairs b n ∧
                                store_get s a k = Some t) ∧
    length txns = length (window_ptrs (timeline_index s) pairs).
Proof.
  intros Hinv Hpairs. unfold store_timeline_range. rewrite window_ptrs_ok by (done || apply Hinv). run_ok.
  eexists. split; [done|]. split.
  - intros t. rewrite list_elem_of_omap. split.
    + intros ([a k] & (b & n & Hn & Hc)%elem_of_window_ptrs & Hget). by exists b, n, a, k.
    + intros (b & n & a & k & Hn & Hc & Hget). exists (a, k). split; [|done]. apply elem_of_window_ptrs. by exists b, n.
  - assert (∀ p, p ∈ window_ptrs (timeline_index s) pairs → is_Some (store_get s p.1 p.2)) as Hsome.
    { intros [a k] (b & n & (t & Ht & _)%(ix_timeline _ _ _ _ (si_indexed _ _ _ Hinv)) & _)%elem_of_window_ptrs.
      rewrite contents_lookup in Ht. unfold store_get. cbn. rewrite Ht. by eexists. }
    induction (window_ptrs (timeline_index s) pairs) as [|[a k] l IH]; [done|]. cbn.
    destruct (Hsome (a, k)) as [t Ht]; [by left|]. cbn in Ht. rewrite Ht. cbn. f_equal. apply IH. intros p Hp. apply Hsome. by right.
Qed.

(** A window below the next ids only loses entries. *)
Lemma window_evolves s s' pairs :
  store_inv 0 0 s' → evolves s s' →
  (∀ b from to, pairs !! b = Some (from, to) → to < next_id (timeline_index s) b) →
  (length (window_ptrs (timeline_index s') pairs) <= length (window_ptrs (timeline_index s) pairs))%nat.
Proof.
  intros Hinv (_ & _ & _ & _ & _ & _ & Hev) Hto. apply submseteq_length, NoDup_submseteq; [by apply NoDup_window_ptrs|].
  intros p (b & n & Hn & Hc)%elem_of_window_ptrs. apply elem_of_window_ptrs. exists b, n. split; [|done].
  destruct (Hev _ _ _ Hn) as [|Hle]; [done|]. destruct Hc as (from & to & Hb & Hle'). specialize (Hto _ _ _ Hb). lia.
Qed.

(** What was read is the window between the old and the new ids. *)
Lemma read_window s ids count batch new_ids :
  store_inv 0 0 s → read_ok s ids count batch new_ids →
  (length (window_ptrs (timeline_index s) (zip ids new_ids)) <= length batch)%nat.
Proof.
  intros Hinv Hread. rewrite <- (length_fmap signed_pointer batch).
  apply submseteq_length, NoDup_submseteq; [by apply NoDup_window_ptrs|].
  intros [a k] (b & n & Hn & from & to & Hb & Hle)%elem_of_window_ptrs.
  apply lookup_zip_with_Some in Hb as (x & y & [= -> ->] & Hx & Hy).
  pose proof Hn as (t & Ht & _)%(ix_timeline _ _ _ _ (si_indexed _ _ _ Hinv)).
  destruct (ix_txn _ _ _ _ (si_indexed _ _ _ Hinv) _ _ _ Ht) as (Ha & _ & Hk & _).
  apply list_elem_of_fmap. exists (txn t). split; [unfold signed_pointer; unfold get_sender in Ha; congruence|].
  apply (ro_batch _ _ _ _ _ Hread). exists b, x, y. split_and!; [done|done|]. exists n, a, k.
  rewrite contents_lookup in Ht. unfold store_get. by rewrite Ht.
Qed.
End timeline.
