(* ===== verification/MempoolRun.v ===== *)
(** * Mempool: runs

    A mempool in use: clients submit transactions, blocks commit or reject them, and two kinds of
    expiry collect them, in any order. In every run the indexes agree with the transactions, no
    operation panics, the capacities bound what is kept, and each operation does to the pool what a
    short specification says. Blocks taken from it can be executed in order. *)
From S2P Require Import Prelude Crypto BTree MempoolIndex MempoolStore MempoolInv MempoolOps MempoolBatch MempoolTimeline.
Local Open Scope N_scope.

Section run.
Context `{!TransactionTypes, !TransactionEncoding}.

Inductive MempoolOp :=
| AddTxn (now : Duration) (rng : nat) (t : SignedTransaction) (ranking_score : N)
    (sequence_info : AccountSequenceInfo) (timeline_state : TimelineState)
| CommitTxn (sender : AccountAddress) (sequence_number : N)
| RejectTxn (sender : AccountAddress) (sequence_number : N) (hash : HashValue)
| Gc (now : Duration)
| GcByExpiration (block_time : Duration).

Definition mempool_exec (op : MempoolOp) (m : Mempool)
  : outcome Infallible (option MempoolStatusCode * Mempool) :=
  match op with
  | AddTxn now rng t score info state =>
      '(status, m) ← add_txn now rng t score info state m; Ok (Some status, m)
  | CommitTxn a n => m ← commit_transaction a n m; Ok (None, m)
  | RejectTxn a n h => m ← reject_transaction a n h m; Ok (None, m)
  | Gc now => m ← mempool_gc now m; Ok (None, m)
  | GcByExpiration block_time => m ← gc_by_expiration_time block_time m; Ok (None, m)
  end.

(** *** The specification *)

(** What an operation does to the pool, and the status it returns *)
Definition spec_op (m : Mempool) (evicted : option (AccountAddress * N)) (op : MempoolOp)
    (P : gmap (AccountAddress * N) MempoolTransaction)
  : option MempoolStatusCode * gmap (AccountAddress * N) MempoolTransaction :=
  let s := mp_transactions m in
  match op with
  | AddTxn now _ t score info state =>
      if sequence_number t <? min_seq info then (Some InvalidSeqNumber, P)
      else
        let txn_info := mempool_transaction_new t (now + mp_system_transaction_timeout m) score state
                          (Sequential (min_seq info)) now in
        let '(status, P) := spec_insert (capacity s) (capacity_bytes s) (capacity_per_user s) evicted
                              txn_info (min_seq info) P in
        (Some status, P)
  | CommitTxn a n => (None, pool_clean a (n + 1) P)
  | RejectTxn a n h =>
      (None, if decide (get_committed_hash <$> P !! (a, n) = Some h) then delete (a, n) P else P)
  | Gc now => (None, filter (λ p, now <= system_expiration p.2) P)
  | GcByExpiration block_time => (None, filter (λ p, block_time <= client_expiration p.2) P)
  end.

Context `{!Workload}.

(** What callers guarantee: transactions of the workload, neither ready nor past the end of time,
    and timeline ids that do not run out of [u64]. *)
Definition mempool_allowed (op : MempoolOp) (m : Mempool) : Prop :=
  match op with
  | AddTxn now _ t _ _ state =>
      legit t ∧ (∀ id, state ≠ Ready id) ∧ now + mp_system_transaction_timeout m <= DURATION_MAX ∧
      ids_left (mp_transactions m)
  | CommitTxn _ n => n < U64_MAX ∧ ids_left (mp_transactions m)
  | _ => True
  end.
Record config_ok (c : MempoolConfig) : Prop := {
  co_user : 0 < cfg_capacity_per_user c;
  co_capacity : cfg_capacity c < 2 ^ 64;
  co_bytes : cfg_capacity_bytes c + max_bytes < 2 ^ 64;
}.
Inductive mempool_reachable (c : MempoolConfig) : Mempool → Prop :=
| reach_new m : mempool_new c = Ok m → mempool_reachable c m
| reach_op m op r m' :
    mempool_reachable c m → mempool_allowed op m → mempool_exec op m = Ok (r, m') →
    mempool_reachable c m'.

(** The invariant of a mempool with its configuration *)
Record mempool_inv (c : MempoolConfig) (m : Mempool) : Prop := {
  mi_store : store_inv 0 0 (mp_transactions m);
  mi_capacity : capacity (mp_transactions m) = cfg_capacity c;
  mi_capacity_bytes : capacity_bytes (mp_transactions m) = cfg_capacity_bytes c;
  mi_capacity_per_user : capacity_per_user (mp_transactions m) = cfg_capacity_per_user c;
  mi_buckets : mb_bucket_mins (timeline_index (mp_transactions m)) = cfg_broadcast_buckets c;
  mi_max_batch : max_batch_bytes (mp_transactions m) = cfg_shared_mempool_max_batch_bytes c;
}.
Lemma mempool_inv_step c m s :
  mempool_inv c m → store_inv 0 0 s → evolves (mp_transactions m) s → mempool_inv c (with_store m s).
Proof. intros [_ ? ? ? ? ?] Hs (? & ? & ? & ? & ? & _). split; cbn; congruence || done. Qed.

Lemma new_inv c m : config_ok c → mempool_new c = Ok m → mempool_inv c m.
Proof.
  intros [Hu Hc Hb]. unfold mempool_new, transaction_store_new.
  destruct (multi_bucket_timeline_index_new (cfg_broadcast_buckets c)) as [tl| |] eqn:Htl; [|done..].
  run_ok. intros [= <-]. apply multi_bucket_new_ok in Htl as (Hmb & Hmins & Htl).
  split; try done. assert (∀ s, transactions s = ∅ → contents s = ∅) as Hempty.
  { intros s Hs. apply map_empty. intros [a n]. rewrite contents_lookup. unfold get_mempool_txn. by rewrite Hs. }
  cbn [mp_transactions]. split; rewrite ?Hempty by done; cbn; try done.
  - split; cbn; try done; try (intros; set_solver).
    + split; [constructor|]. intros k. set_solver.
    + split; [constructor|]. intros k. set_solver.
    + constructor.
    + intros b id p. destruct (Htl b) as [-> _]. rewrite lookup_empty. set_solver.
    + intros b id p. destruct (Htl b) as [-> _]. by rewrite lookup_empty.
    + apply parking_lot_new_wf.
  - rewrite map_size_empty. lia.
  - lia.
Qed.

Lemma pool_clean_max m c a n :
  mempool_inv c m → let s := mp_transactions m in
  pool_clean a (N.max (default 0 (sequence_numbers s !! a)) (n + 1)) (pool s) = pool_clean a (n + 1) (pool s).
Proof.
  intros Hinv s. apply map_filter_ext. intros [a' k] x Hx. cbn. apply not_iff_compat, and_iff_strong. intros ->.
  unfold pool in Hx. rewrite lookup_fmap, contents_lookup in Hx. unfold get_mempool_txn in Hx.
  destruct (transactions s !! a) as [txns|] eqn:Hm; [|done]. cbn in Hx.
  destruct (si_account _ _ _ (mi_store _ _ Hinv) _ _ Hm) as [n0 Hn0].
  pose proof (ao_seq _ _ _ _ Hn0) as Hseq. fold s in Hseq. rewrite Hseq. cbn. assert (n0 <= k) as Hk.
  { apply (ao_from _ _ _ _ Hn0). by destruct (txns !! k). }
  lia.
Qed.

(** Room is made only in a full mempool, for a new transaction, by one that has not been made
    ready for broadcast. *)
Definition eviction_ok (m : Mempool) (op : MempoolOp) (evicted : option (AccountAddress * N)) : Prop :=
  ∀ p, evicted = Some p →
    match op with
    | AddTxn _ _ t _ _ _ =>
        let s := mp_transactions m in
        let here := (sender t, sequence_number t) in
        pool_full (capacity s) (capacity_bytes s) (delete here (pool s)) = true ∧
        ∃ x, delete here (contents s) !! p = Some x ∧ ¬ is_ready x
    | _ => False
    end.
Definition spec_step (op : MempoolOp) (m : Mempool) (r : option MempoolStatusCode) (m' : Mempool) : Prop :=
  ∃ evicted, eviction_ok m op evicted ∧
             (r, pool (mp_transactions m')) = spec_op m evicted op (pool (mp_transactions m)).

(** One operation: it runs, keeps the invariant, and follows the specification. *)
Definition op_post c op m r m' : Prop :=
  mempool_inv c m' ∧ evolves (mp_transactions m) (mp_transactions m') ∧
  spec_step op m r m' ∧
  (∀ b, next_id (timeline_index (mp_transactions m')) b <=
        next_id (timeline_index (mp_transactions m)) b + capacity_per_user (mp_transactions m)).

Lemma add_txn_ok c now rng t score info state m :
  config_ok c → mempool_inv c m → mempool_allowed (AddTxn now rng t score info state) m →
  ∃ r m', mempool_exec (AddTxn now rng t score info state) m = Ok (r, m') ∧
          op_post c (AddTxn now rng t score info state) m r m'.
Proof.
  intros Hc Hinv (Hl & Hst & Hnow & Hids). cbn [mempool_exec]. unfold add_txn, op_post, spec_step, spec_op.
  destruct (N.ltb_spec (sequence_number t) (min_seq info)).
  { run_ok. exists (Some InvalidSeqNumber), m. split_and!; [done|done|done| |intros; lia].
    by exists None. }
  unfold duration_add. destruct (N.leb_spec (now + mp_system_transaction_timeout m) DURATION_MAX); [|lia]. run_ok.
  set (x := mempool_transaction_new _ _ _ _ _ _).
  destruct (store_insert_ok rng x (min_seq info) (mp_transactions m)) as
    (status & s' & evicted & -> & Hinv' & Hcfg & Hpool & Hev & Hnext).
  - apply Hinv.
  - split; try done. by intros [id ?%Hst].
  - done.
  - rewrite (mi_capacity_per_user _ _ Hinv). apply Hc.
  - run_ok. exists (Some status), (with_store m s'). split; [done|]. split; [by apply mempool_inv_step|]. split; [done|].
    split; [|done]. exists evicted. split; [done|]. rewrite <- Hpool. done.
Qed.

Lemma mempool_exec_ok c op m :
  config_ok c → mempool_inv c m → mempool_allowed op m →
  ∃ r m', mempool_exec op m = Ok (r, m') ∧ op_post c op m r m'.
Proof.
  intros Hc Hinv Hop. destruct op as [now rng t score info state|a n|a n h|now|now].
  - by apply add_txn_ok.
  - destruct Hop as [Hn Hids].
    destruct (store_commit_ok (mp_transactions m) a n) as (s' & Hrun & Hinv' & Hcfg & Hpool & Hnext); [apply Hinv|done|done|].
    cbn [mempool_exec]. unfold commit_transaction. rewrite Hrun. run_ok. exists None, (with_store m s').
    split; [done|]. split; [by apply mempool_inv_step|]. split; [done|]. split; [|done]. exists None. split; [done|]. cbn. f_equal.
    rewrite <- (pool_clean_max m c a n Hinv). apply map_eq. intros p. apply option_eq. intros x.
    rewrite Hpool. unfold pool_clean. rewrite map_lookup_filter_Some. done.
  - destruct (store_reject_ok (mp_transactions m) a n h) as (s' & Hrun & Hinv' & Hcfg & Hpool & Hnext); [apply Hinv|].
    cbn [mempool_exec]. unfold reject_transaction. rewrite Hrun. run_ok. exists None, (with_store m s').
    split; [done|]. split; [by apply mempool_inv_step|]. split; [done|].
    split; [exists None; split; [done|]; cbn; by rewrite Hpool|]. intros b. cbn. rewrite Hnext. lia.
  - destruct (store_gc_ok now true (mp_transactions m)) as (s' & Hrun & Hinv' & Hcfg & Hpool & Hnext); [apply Hinv|].
    cbn [mempool_exec]. unfold mempool_gc, gc_by_system_ttl. rewrite Hrun. run_ok. exists None, (with_store m s').
    split; [done|]. split; [by apply mempool_inv_step|]. split; [done|].
    split; [exists None; split; [done|]; cbn; by rewrite Hpool|]. intros b. cbn. rewrite Hnext. lia.
  - destruct (store_gc_ok now false (mp_transactions m)) as (s' & Hrun & Hinv' & Hcfg & Hpool & Hnext); [apply Hinv|].
    cbn [mempool_exec]. unfold gc_by_expiration_time, store_gc_by_expiration_time. rewrite Hrun. run_ok.
    exists None, (with_store m s'). split; [done|]. split; [by apply mempool_inv_step|]. split; [done|].
    split; [exists None; split; [done|]; cbn; by rewrite Hpool|]. intros b. cbn. rewrite Hnext. lia.
Qed.

Lemma mempool_reachable_inv c m : config_ok c → mempool_reachable c m → mempool_inv c m.
Proof.
  intros Hc. induction 1 as [m Hm|m op r m' _ IH Hop Hrun]; [by apply new_inv|].
  destruct (mempool_exec_ok c op m Hc IH Hop) as (r' & m'' & Hrun' & Hinv' & _).
  rewrite Hrun in Hrun'. by simplify_eq.
Qed.

Section theorems.
Context (c : MempoolConfig) (m : Mempool).
Context (Hconfig : config_ok c) (Hm : mempool_reachable c m).

(** C9: in every run of a mempool, each index has exactly what the stored transactions ask for
    (the timelines the ready ones, the hash index one entry for each, the two time-to-live indexes a
    key for each, the priority queue every transaction that follows its account's sequence number
    without a gap), every transaction is in the queue or parked, and the next submission, commit,
    rejection or expiry runs without a panic. *)
Theorem mempool_indexes_agree :
  mempool_inv c m ∧
  ∀ op, mempool_allowed op m → ∃ r m', mempool_exec op m = Ok (r, m') ∧ mempool_reachable c m'.
Proof.
  pose proof (mempool_reachable_inv c m Hconfig Hm) as Hinv. split; [done|]. intros op Hop.
  destruct (mempool_exec_ok c op m Hconfig Hinv Hop) as (r & m' & Hrun & _).
  exists r, m'. split; [done|]. by eapply reach_op.
Qed.


(** C8: each operation does to the pool exactly what the specification [spec_op] says, and returns
    its status: a submission is refused, replaces the transaction with the same sequence number when
    it only raises the gas price, or is added, for which at most one other transaction that is
    not ready makes room in a full mempool; a commit drops the account's transactions up to the
    committed one; a rejection the rejected transaction; expiry those whose time has passed. *)
Theorem mempool_refines op r m' :
  mempool_allowed op m → mempool_exec op m = Ok (r, m') → spec_step op m r m'.
Proof.
  intros Hop Hrun. pose proof (mempool_reachable_inv c m Hconfig Hm) as Hinv.
  destruct (mempool_exec_ok c op m Hconfig Hinv Hop) as (r' & m'' & Hrun' & _ & _ & Hspec & _).
  rewrite Hrun in Hrun'. by simplify_eq.
Qed.

(** C13: a batch for consensus respects both limits, has no transaction twice and none that is
    excluded, and only stored ones; each of them is the next of its account, or follows one that is
    excluded or earlier in the batch. Unless a limit stops it, the batch has every transaction
    that the account's sequence number makes ready. *)
Theorem get_batch_correct max_txns max_bytes seen :
  0 < max_txns → max_bytes < 2 ^ 63 →
  ∃ block, get_batch max_txns max_bytes seen m = Ok block ∧
           batch_ok (mp_transactions m) max_txns max_bytes seen block.
Proof. intros. apply get_batch_ok; [|done..]. by eapply mi_store, mempool_reachable_inv. Qed.

(** C15: reading the timelines for a broadcast returns at most [count] transactions and
    [max_batch_bytes] bytes, exactly those between the ids read from and the ids returned, bucket by
    bucket, so that the next read goes on where this one stopped; when nothing is returned
    nothing is left, or some transaction is larger than a batch. *)
Theorem read_timeline_correct ids count :
  length ids = length (cfg_broadcast_buckets c) → 0 < count < 2 ^ 64 →
  ∃ batch new_ids, read_timeline ids count m = Ok (batch, new_ids) ∧
                   read_ok (mp_transactions m) ids count batch new_ids.
Proof.
  intros Hids [Hpos Hcount]. pose proof (mempool_reachable_inv c m Hconfig Hm) as Hinv.
  apply read_timeline_ok; [apply Hinv| |done..]. by rewrite (mi_buckets _ _ Hinv).
Qed.
End theorems.
End run.

(** ** A mempool of three transactions

    Account 1 submits its next transaction and the one after the following one; account 2 its
    next. The capacity is three, the low bucket is below a score of 10. *)
Module MempoolSample.
#[local] Instance types : TransactionTypes :=
  {| TransactionPayload := N; TransactionAuthenticator := N |}.
Definition sample_txn (a n gas : N) : SignedTransaction :=
  {| raw_txn := {| rt_sender := a; rt_sequence_number := n; rt_payload := 0; rt_max_gas_amount := 10;
                   rt_gas_unit_price := gas; rt_expiration_timestamp_secs := 100; rt_chain_id := 1 |};
     authenticator := 0 |}.
#[local] Program Instance encoding : TransactionEncoding :=
  {| raw_txn_len := λ _, 200;
     committed_hash := λ t, sender t * 2 ^ 128 + sequence_number t * 2 ^ 64 + gas_unit_price t;
     size_of_MempoolTransaction := 300; size_of_OrderedQueueKey := 72; size_of_TTLOrderingKey := 56 |}.
Solve Obligations with done.
Definition known : list SignedTransaction :=
  [sample_txn 1 5 3; sample_txn 1 5 4; sample_txn 1 7 3; sample_txn 2 0 20; sample_txn 1 6 3].
#[local] Program Instance workload : Workload := {| legit := λ t, t ∈ known; max_bytes := 2000 |}.
Next Obligation.
  intros x y Hx Hy. apply list_elem_of_In in Hx, Hy. cbn [known In] in Hx, Hy.
  destruct_or! Hx; destruct_or! Hy; by subst.
Qed.
Next Obligation.
  intros x Hx. apply list_elem_of_In in Hx. cbn [known In] in Hx. destruct_or! Hx; by subst.
Qed.
Next Obligation. done. Qed.

Definition sample_config : MempoolConfig :=
  {| cfg_capacity := 3; cfg_capacity_bytes := 100000; cfg_capacity_per_user := 2;
     cfg_default_failovers := 1; cfg_max_broadcasts_per_peer := 2; cfg_shared_mempool_ack_timeout_ms := 2000;
     cfg_shared_mempool_backoff_interval_ms := 30000; cfg_shared_mempool_batch_size := 10;
     cfg_shared_mempool_max_batch_bytes := 1000; cfg_shared_mempool_tick_interval_ms := 50;
     cfg_system_transaction_timeout_secs := 600;
     cfg_broadcast_buckets := [0; 10] |}.
Lemma sample_config_ok : config_ok sample_config.
Proof. by split. Qed.

Definition sample_add (t : SignedTransaction) (seqno : N) : MempoolOp :=
  AddTxn 1000 0 t (gas_unit_price t) (Sequential seqno) NotReady.
(** Runs of allowed operations, checked as they go *)
Definition allowed (op : MempoolOp) (m : Mempool) : bool :=
  let s := mp_transactions m in
  let ids := forallb (λ t, tl_timeline_id t + capacity_per_user s <? 2 ^ 64) (mb_timelines (timeline_index s)) &&
             (capacity_per_user s <? 2 ^ 64) in
  match op with
  | AddTxn now _ t _ _ state =>
      bool_decide (t ∈ known) && match state with Ready _ => false | _ => true end &&
      (now + mp_system_transaction_timeout m <=? DURATION_MAX) && ids
  | CommitTxn _ n => (n <? U64_MAX) && ids
  | _ => true
  end.
Lemma allowed_ok op m : allowed op m = true → mempool_allowed op m.
Proof.
  assert (∀ s, forallb (λ t, tl_timeline_id t + capacity_per_user s <? 2 ^ 64) (mb_timelines (timeline_index s)) &&
               (capacity_per_user s <? 2 ^ 64) = true → ids_left s) as Hids.
  { intros s [Hall Hcap%N.ltb_lt]%andb_true_iff b. unfold next_id.
    destruct (mb_timelines _ !! b) as [t|] eqn:Ht; [|done]. rewrite forallb_forall in Hall.
    apply N.ltb_lt, Hall, list_elem_of_In. by eapply list_elem_of_lookup_2. }
  unfold allowed. destruct op as [now rng t score info st|a n|a n h|now|now]; cbn [mempool_allowed]; [| |done..].
  - intros [[[Hl%bool_decide_eq_true Hst]%andb_true_iff Hnow%N.leb_le]%andb_true_iff Hi%Hids]%andb_true_iff.
    split_and!; [done| |done|done]. by intros id ->.
  - intros [Hn%N.ltb_lt Hi%Hids]%andb_true_iff. done.
Qed.
Fixpoint exec_all (ops : list MempoolOp) (m : Mempool) : outcome Infallible Mempool :=
  match ops with
  | [] => Ok m
  | op :: ops => if allowed op m then '(_, m) ← mempool_exec op m; exec_all ops m else Panic
  end.
Definition sample_run (ops : list MempoolOp) : outcome Infallible Mempool :=
  m ← mempool_new sample_config; exec_all ops m.
Lemma exec_all_reachable ops m m' :
  mempool_reachable sample_config m → exec_all ops m = Ok m' → mempool_reachable sample_config m'.
Proof.
  revert m. induction ops as [|op ops IH]; intros m Hm; cbn; [by intros [= <-]|].
  destruct (allowed op m) eqn:Hop; [|done]. apply allowed_ok in Hop.
  destruct (mempool_exec op m) as [[r m1]| |] eqn:Hrun; [|done..]. run_ok. apply IH. by eapply reach_op.
Qed.
Lemma sample_run_reachable ops {A} (f : Mempool → A) x :
  f <$> sample_run ops = Ok x → ∃ m, mempool_reachable sample_config m ∧ f m = x.
Proof.
  unfold sample_run. destruct (mempool_new sample_config) as [m| |] eqn:Hm; [|done..]. run_ok.
  destruct (exec_all ops m) as [m'| |] eqn:Hrun; [|done..]. intros [= <-]. exists m'. split; [|done].
  eapply exec_all_reachable; [|done]. by constructor.
Qed.
Definition sample_ops : list MempoolOp :=
  [sample_add (sample_txn 1 5 3) 5; sample_add (sample_txn 1 7 3) 5; sample_add (sample_txn 2 0 20) 0].
(** The transaction of account 1 with a higher gas price *)
Definition sample_bump : MempoolOp := sample_add (sample_txn 1 5 4) 5.
(** The missing transaction of account 1, for which its last one has to go *)
Definition sample_missing : MempoolOp := AddTxn 1000 0 (sample_txn 1 6 3) 3 (Sequential 5) NotReady.

(** The run of the sample operations, and what a test of the state says *)
Lemma sample_state {A} (f : Mempool → A) x :
  f <$> sample_run sample_ops = Ok x →
  ∃ m, mempool_reachable sample_config m ∧ f m = x.
Proof. apply sample_run_reachable. Qed.

Lemma mempool_indexes_agree_witness :
  ∃ m, mempool_reachable sample_config m ∧ size (contents (mp_transactions m)) = 3%nat ∧
       mempool_inv sample_config m ∧ ∃ r m', mempool_exec sample_missing m = Ok (r, m').
Proof.
  destruct (sample_state (λ m, (size (contents (mp_transactions m)), allowed sample_missing m)) (3%nat, true))
    as (m & Hm & [Hsize Hop]%pair_eq); [vm_compute; reflexivity|].
  exists m. split; [done|]. split; [done|].
  destruct (mempool_indexes_agree sample_config m sample_config_ok Hm) as [Hinv Hrun]. split; [done|].
  destruct (Hrun sample_missing (allowed_ok _ _ Hop)) as (r & m' & Hr & _). by exists r, m'.
Defined.
Lemma mempool_refines_witness :
  ∃ m r m', mempool_reachable sample_config m ∧ mempool_exec sample_bump m = Ok (r, m') ∧
            r = Some Accepted ∧ spec_step sample_bump m r m'.
Proof.
  destruct (sample_state (λ m, (allowed sample_bump m, fst <$> mempool_exec sample_bump m)) (true, Ok (Some Accepted)))
    as (m & Hm & [Hop Hrun]%pair_eq); [vm_compute; reflexivity|].
  destruct (mempool_exec sample_bump m) as [[r m']| |] eqn:Hexec; [|done..]. injection Hrun as ->.
  exists m, (Some Accepted), m'. split_and!; [done|done|done|].
  by apply (mempool_refines sample_config m sample_config_ok Hm sample_bump _ _ (allowed_ok _ _ Hop)).
Defined.
Lemma get_batch_correct_witness :
  ∃ m, get_batch 3 1000 ∅ m = Ok [sample_txn 2 0 20; sample_txn 1 5 3] ∧
       batch_ok (mp_transactions m) 3 1000 ∅ [sample_txn 2 0 20; sample_txn 1 5 3].
Proof.
  destruct (sample_state (get_batch 3 1000 ∅) (Ok [sample_txn 2 0 20; sample_txn 1 5 3])) as (m & Hm & Hb);
    [vm_compute; reflexivity|].
  exists m. split; [done|].
  destruct (get_batch_correct sample_config m sample_config_ok Hm 3 1000 ∅) as (block & Hrun & Hok); [done|done|].
  rewrite Hb in Hrun. injection Hrun as <-. done.
Defined.
Lemma read_timeline_correct_witness :
  ∃ m, read_timeline [0; 0] 10 m = Ok ([sample_txn 2 0 20; sample_txn 1 5 3], [1; 1]) ∧
       read_ok (mp_transactions m) [0; 0] 10 [sample_txn 2 0 20; sample_txn 1 5 3] [1; 1].
Proof.
  destruct (sample_state (read_timeline [0; 0] 10) (Ok ([sample_txn 2 0 20; sample_txn 1 5 3], [1; 1])))
    as (m & Hm & Hr); [vm_compute; reflexivity|].
  exists m. split; [done|].
  destruct (read_timeline_correct sample_config m sample_config_ok Hm [0; 0] 10) as (batch & ids & Hrun & Hok); [done|done|].
  rewrite Hr in Hrun. injection Hrun as <- <-. done.
Defined.
End MempoolSample.
