(* ===== verification/SharedMempool.v ===== *)
(** * Shared mempool

    mempool/src/shared_mempool: the peers a node broadcasts to and what it remembers of each
    (network.rs and types.rs), the tasks that submit, commit and reject transactions (tasks.rs) and
    the event handlers of the coordinator (coordinator.rs). The virtual machine, the database and
    the clocks are arguments of the steps that read them. *)
From S2P Require Import Prelude Crypto BTree MempoolIndex MempoolStore.
Local Open Scope N_scope.

(** ** Time

    A [SystemTime] or an [Instant] is a number of nanoseconds; its seconds are an [i64]. *)
Abbreviation SystemTime := N (only parsing).
Definition SYSTEM_TIME_MAX : SystemTime := (2 ^ 63 - 1) * 1000000000 + 999999999.
Definition system_time_add {E} (t : SystemTime) (d : Duration) : outcome E SystemTime :=
  if t + d <=? SYSTEM_TIME_MAX then Ok (t + d) else Panic.
Definition duration_from_millis (millis : N) : Duration := millis * 1000000.
Definition duration_from_micros (micros : N) : Duration := micros * 1000.

(** ** Peers *)
Inductive NetworkId := ValidatorNetwork | VfnNetwork | PublicNetwork.
#[export] Instance NetworkId_eq_dec : EqDecision NetworkId.
Proof. solve_decision. Defined.
(** The discriminants, by which the derived [Ord] compares *)
Definition network_id_rank (n : NetworkId) : N :=
  match n with ValidatorNetwork => 0 | VfnNetwork => 3 | PublicNetwork => 4 end.
Definition is_validator_network (n : NetworkId) : bool := bool_decide (n = ValidatorNetwork).

Record PeerNetworkId := mkPeerNetworkId { pn_network_id : NetworkId; pn_peer_id : AccountAddress }.
#[export] Instance PeerNetworkId_eq_dec : EqDecision PeerNetworkId.
Proof. solve_decision. Defined.
#[export, refine] Instance PeerNetworkId_countable : Countable PeerNetworkId :=
  inj_countable' (λ p, (network_id_rank (pn_network_id p), pn_peer_id p))
    (λ p, mkPeerNetworkId (if p.1 =? 0 then ValidatorNetwork else if p.1 =? 3 then VfnNetwork else PublicNetwork) p.2) _.
Proof. by intros [[] ?]. Defined.

Inductive PeerRole :=
| RoleValidator | RolePreferredUpstream | RoleUpstream | RoleValidatorFullNode | RoleDownstream
| RoleKnown | RoleUnknown.
Definition peer_role_rank (r : PeerRole) : N :=
  match r with
  | RoleValidator => 0 | RolePreferredUpstream => 1 | RoleUpstream => 2 | RoleValidatorFullNode => 3
  | RoleDownstream => 4 | RoleKnown => 5 | RoleUnknown => 6
  end.
Inductive ConnectionOrigin := Inbound | Outbound.
#[export] Instance ConnectionOrigin_eq_dec : EqDecision ConnectionOrigin.
Proof. solve_decision. Defined.
(** The fields of the metadata of a connection that the mempool reads *)
Record ConnectionMetadata := mkConnectionMetadata {
  cm_remote_peer_id : AccountAddress;
  cm_origin : ConnectionOrigin;
  cm_role : PeerRole;
}.
Inductive RoleType := NodeValidator | NodeFullNode.
Definition role_is_validator (r : RoleType) : bool :=
  match r with NodeValidator => true | NodeFullNode => false end.

(** The hash of peer ids that a node draws when it starts *)
Class PeerHasher := { hash_peer_id : AccountAddress → N }.
Definition prioritized_compare `{PeerHasher} (a b : PeerNetworkId * PeerRole) : comparison :=
  match network_id_rank (pn_network_id a.1) ?= network_id_rank (pn_network_id b.1) with
  | Eq =>
      match peer_role_rank a.2 ?= peer_role_rank b.2 with
      | Eq => hash_peer_id (pn_peer_id a.1) ?= hash_peer_id (pn_peer_id b.1)
      | ordering => ordering
      end
  | ordering => ordering
  end.

(** ** Batches *)
Abbreviation MultiBucketTimelineIndexIds := (list N) (only parsing).
Abbreviation MultiBatchId := (list (N * N)) (only parsing).

Definition timeline_ids_new (num_buckets : nat) : MultiBucketTimelineIndexIds := replicate num_buckets 0.
Definition timeline_ids_update (ids : MultiBucketTimelineIndexIds) (batch_id : MultiBatchId)
  : MultiBucketTimelineIndexIds :=
  if negb (lenN ids =? lenN batch_id) then ids
  else zip_with (λ cur p, N.max cur p.2) ids batch_id.
Definition from_timeline_ids (old new : MultiBucketTimelineIndexIds) : MultiBatchId := zip old new.

Definition pair_compare (p q : N * N) : comparison :=
  match p.1 ?= q.1 with Eq => p.2 ?= q.2 | ordering => ordering end.
(** The loop over the zipped pairs stops at the end of the shorter id. *)
Fixpoint pairs_compare (l l' : list (N * N)) : comparison :=
  match l, l' with
  | p :: l, q :: l' => match pair_compare p q with Eq => pairs_compare l l' | ordering => ordering end
  | _, _ => Eq
  end.
Definition multi_batch_compare (a b : MultiBatchId) : comparison := pairs_compare (reverse a) (reverse b).

(** [BTreeMap<MultiBatchId, A>] and, with [A := unit], [BTreeSet<MultiBatchId>]: the keys in order,
    searched from the front for the first that is not less *)
Fixpoint batches_insert {A} (id : MultiBatchId) (x : A) (l : list (MultiBatchId * A)) : list (MultiBatchId * A) :=
  match l with
  | [] => [(id, x)]
  | (k, y) :: r =>
      match multi_batch_compare id k with
      | Lt => (id, x) :: l
      | Eq => (k, x) :: r
      | Gt => (k, y) :: batches_insert id x r
      end
  end.
Fixpoint batches_remove {A} (id : MultiBatchId) (l : list (MultiBatchId * A)) : option A * list (MultiBatchId * A) :=
  match l with
  | [] => (None, [])
  | (k, y) :: r =>
      match multi_batch_compare id k with
      | Lt => (None, l)
      | Eq => (Some y, r)
      | Gt => let '(x, r) := batches_remove id r in (x, (k, y) :: r)
      end
  end.
Definition batches_collect {A} (l : list (MultiBatchId * A)) : list (MultiBatchId * A) :=
  foldl (λ m p, batches_insert p.1 p.2 m) [] l.

Record BroadcastInfo := mkBroadcastInfo {
  sent_batches : list (MultiBatchId * SystemTime);
  retry_batches : list (MultiBatchId * unit);
  backoff_mode : bool;
}.
Definition broadcast_info_new : BroadcastInfo :=
  {| sent_batches := []; retry_batches := []; backoff_mode := false |}.
Record PeerSyncState := mkPeerSyncState {
  ps_timeline_id : MultiBucketTimelineIndexIds;
  ps_broadcast_info : BroadcastInfo;
  ps_metadata : ConnectionMetadata;
}.
Definition peer_sync_state_new (metadata : ConnectionMetadata) (num_broadcast_buckets : nat) : PeerSyncState :=
  {| ps_timeline_id := timeline_ids_new num_broadcast_buckets;
     ps_broadcast_info := broadcast_info_new; ps_metadata := metadata |}.
Definition with_info (state : PeerSyncState) (info : BroadcastInfo) : PeerSyncState :=
  {| ps_timeline_id := ps_timeline_id state; ps_broadcast_info := info; ps_metadata := ps_metadata state |}.

(** ** The network interface *)
Inductive BroadcastError :=
| NetworkError (peer : PeerNetworkId)
| NoTransactions (peer : PeerNetworkId)
| PeerNotFound (peer : PeerNetworkId)
| PeerNotPrioritized (peer : PeerNetworkId) (priority : N)
| PeerNotScheduled (peer : PeerNetworkId)
| TooManyPendingBroadcasts (peer : PeerNetworkId).
Inductive BroadcastLabel := EXPIRED_BROADCAST_LABEL | RETRY_BROADCAST_LABEL.

Record MempoolNetworkInterface := mkMempoolNetworkInterface {
  sync_states : gmap PeerNetworkId PeerSyncState;
  prioritized_peers : list PeerNetworkId;
  ni_role : RoleType;
  ni_mempool_config : MempoolConfig;
}.
Definition network_interface_new (role : RoleType) (config : MempoolConfig) : MempoolNetworkInterface :=
  {| sync_states := ∅; prioritized_peers := []; ni_role := role; ni_mempool_config := config |}.
Definition with_sync_states (net : MempoolNetworkInterface) (states : gmap PeerNetworkId PeerSyncState)
  : MempoolNetworkInterface :=
  {| sync_states := states; prioritized_peers := prioritized_peers net; ni_role := ni_role net;
     ni_mempool_config := ni_mempool_config net |}.
Definition with_peer (net : MempoolNetworkInterface) (peer : PeerNetworkId) (state : PeerSyncState)
  : MempoolNetworkInterface :=
  with_sync_states net (<[peer := state]> (sync_states net)).
Definition sync_states_exists (net : MempoolNetworkInterface) (peer : PeerNetworkId) : bool :=
  match sync_states net !! peer with Some _ => true | None => false end.

Definition is_upstream_peer (net : MempoolNetworkInterface) (peer : PeerNetworkId)
    (metadata : option ConnectionMetadata) : bool :=
  if is_validator_network (pn_network_id peer) then true
  else match metadata with
       | Some metadata => bool_decide (cm_origin metadata = Outbound)
       | None => sync_states_exists net peer
       end.
Definition is_backoff_mode (net : MempoolNetworkInterface) (peer : PeerNetworkId) : bool :=
  match sync_states net !! peer with
  | Some state => backoff_mode (ps_broadcast_info state)
  | None => false
  end.

Section network.
Context `{!PeerHasher}.

(** [sorted_by] is stable; the order in which a [HashMap] is read matters only for peers
    that compare equal. *)
Definition prioritized_le (a b : PeerNetworkId * PeerRole) : Prop := prioritized_compare a b ≠ Gt.
#[export] Instance prioritized_le_dec : RelDecision prioritized_le.
Proof. intros a b. unfold prioritized_le. apply _. Defined.
Definition update_prioritized_peers (net : MempoolNetworkInterface) : MempoolNetworkInterface :=
  if role_is_validator (ni_role net) then net
  else
    let peers := (λ p : PeerNetworkId * PeerSyncState, (p.1, cm_role (ps_metadata p.2))) <$> map_to_list (sync_states net) in
    {| sync_states := sync_states net; prioritized_peers := (merge_sort prioritized_le peers).*1;
       ni_role := ni_role net; ni_mempool_config := ni_mempool_config net |}.

Definition add_peer (peer : PeerNetworkId) (metadata : ConnectionMetadata) (net : MempoolNetworkInterface)
  : bool * MempoolNetworkInterface :=
  let is_new_peer := negb (sync_states_exists net peer) in
  let net :=
    if is_upstream_peer net peer (Some metadata) then
      match sync_states net !! peer with
      | None => with_peer net peer (peer_sync_state_new metadata (length (cfg_broadcast_buckets (ni_mempool_config net))))
      | Some state => with_peer net peer {| ps_timeline_id := ps_timeline_id state;
                                            ps_broadcast_info := ps_broadcast_info state;
                                            ps_metadata := metadata |}
      end
    else net in
  (is_new_peer, update_prioritized_peers net).
Definition disable_peer (peer : PeerNetworkId) (net : MempoolNetworkInterface) : MempoolNetworkInterface :=
  update_prioritized_peers (with_sync_states net (delete peer (sync_states net))).
End network.

(** The round trip time is only measured, but computing it panics when the clock went back. *)
Definition process_broadcast_ack (peer : PeerNetworkId) (batch_id : MultiBatchId) (retry backoff : bool)
    (timestamp : SystemTime) (net : MempoolNetworkInterface) : outcome Infallible MempoolNetworkInterface :=
  match sync_states net !! peer with
  | None => Ok net
  | Some state =>
      let info := ps_broadcast_info state in
      match batches_remove batch_id (sent_batches info) with
      | (None, _) => Ok net
      | (Some sent_timestamp, sent) =>
          _ ← rassert (sent_timestamp <=? timestamp);
          Ok (with_peer net peer (with_info state
                {| sent_batches := sent;
                   retry_batches := if retry then batches_insert batch_id tt (retry_batches info)
                                    else retry_batches info;
                   backoff_mode := backoff || backoff_mode info |}))
      end
  end.

Definition check_peer_prioritized (net : MempoolNetworkInterface) (peer : PeerNetworkId)
  : outcome BroadcastError unit :=
  if role_is_validator (ni_role net) then Ok tt
  else
    let priority := match list_find (λ p, p = peer) (prioritized_peers net) with
                    | Some (pos, _) => N.of_nat pos
                    | None => U64_MAX
                    end in
    if cfg_default_failovers (ni_mempool_config net) <? priority then Err (PeerNotPrioritized peer priority)
    else Ok tt.

(** ** Broadcasts *)
Section broadcast.
Context `{!TransactionTypes, !TransactionEncoding, !PeerHasher}.

Definition absurd_error {E} (e : Infallible) : E := match e with end.

(** The batches that still have transactions in the mempool *)
Fixpoint live_batches {A} (m : Mempool) (l : list (MultiBatchId * A))
  : outcome Infallible (list (MultiBatchId * A)) :=
  match l with
  | [] => Ok []
  | (id, x) :: l =>
      txns ← timeline_range id m;
      l ← live_batches m l;
      Ok (if bool_decide (txns = []) then l else (id, x) :: l)
  end.
Definition sync_with_mempool (m : Mempool) (info : BroadcastInfo) : outcome Infallible BroadcastInfo :=
  sent ← live_batches m (sent_batches info);
  retry ← live_batches m (retry_batches info);
  Ok {| sent_batches := batches_collect sent; retry_batches := batches_collect retry;
        backoff_mode := backoff_mode info |}.

(** The loop over the sent batches; [clock i] is the [i]th time it reads. *)
Fixpoint pending_loop (peer : PeerNetworkId) (config : MempoolConfig) (clock : nat → SystemTime) (i : nat)
    (batches : list (MultiBatchId * SystemTime)) (pending_broadcasts : N)
    (expired_batch_id : option MultiBatchId) : outcome BroadcastError (option MultiBatchId) :=
  match batches with
  | [] => Ok expired_batch_id
  | (batch, sent_time) :: batches =>
      deadline ← system_time_add sent_time (duration_from_millis (cfg_shared_mempool_ack_timeout_ms config));
      let '(pending_broadcasts, expired_batch_id) :=
        if deadline <=? clock i then (pending_broadcasts, Some batch)
        else (pending_broadcasts + 1, expired_batch_id) in
      if cfg_max_broadcasts_per_peer config <=? pending_broadcasts then Err (TooManyPendingBroadcasts peer)
      else pending_loop peer config clock (S i) batches pending_broadcasts expired_batch_id
  end.

(** [std::cmp::max] of two optional ids: the second when they are equal *)
Definition max_batch_id (a b : option MultiBatchId) : option MultiBatchId :=
  match a, b with
  | None, _ => b
  | Some _, None => a
  | Some x, Some y => match multi_batch_compare x y with Gt => a | _ => b end
  end.

(** A batch to send again, or else the next transactions *)
Definition choose_batch (m : Mempool) (clock : nat → SystemTime) (peer : PeerNetworkId) (config : MempoolConfig)
    (state : PeerSyncState) : outcome BroadcastError (MultiBatchId * list SignedTransaction * option BroadcastLabel) :=
  let info := ps_broadcast_info state in
  expired_batch_id ← pending_loop peer config clock 0 (sent_batches info) 0 None;
  let retry_batch_id := fst <$> last (retry_batches info) in
  '(batch_id, transactions, metric_label) ←
    match max_batch_id expired_batch_id retry_batch_id with
    | Some id =>
        let metric_label := if bool_decide (Some id = expired_batch_id) then Some EXPIRED_BROADCAST_LABEL
                            else Some RETRY_BROADCAST_LABEL in
        txns ← map_err absurd_error (timeline_range id m);
        Ok (id, txns, metric_label)
    | None =>
        '(txns, new_timeline_id) ←
          map_err absurd_error (read_timeline (ps_timeline_id state) (cfg_shared_mempool_batch_size config) m);
        Ok (from_timeline_ids (ps_timeline_id state) new_timeline_id, txns, None)
    end;
  if bool_decide (transactions = []) then Err (NoTransactions peer)
  else Ok (batch_id, transactions, metric_label).

Definition determine_broadcast_batch (m : Mempool) (clock : nat → SystemTime) (peer : PeerNetworkId)
    (scheduled_backoff : bool)
  : M MempoolNetworkInterface BroadcastError
      (MultiBatchId * list SignedTransaction * option BroadcastLabel) :=
  net ← mget;
  state ← mlift (ok_or (sync_states net !! peer) (PeerNotFound peer));
  _ ← mlift (check_peer_prioritized net peer);
  if backoff_mode (ps_broadcast_info state) && negb scheduled_backoff then mlift (Err (PeerNotScheduled peer))
  else
    info ← mlift (map_err absurd_error (sync_with_mempool m (ps_broadcast_info state)));
    let state := with_info state info in
    _ ← mput (with_peer net peer state);
    mlift (choose_batch m clock peer (ni_mempool_config net) state).

Definition update_broadcast_state (peer : PeerNetworkId) (batch_id : MultiBatchId) (send_time : SystemTime)
  : M MempoolNetworkInterface BroadcastError N :=
  net ← mget;
  state ← mlift (ok_or (sync_states net !! peer) (PeerNotFound peer));
  let info := ps_broadcast_info state in
  let sent := batches_insert batch_id send_time (sent_batches info) in
  _ ← mput (with_peer net peer
             {| ps_timeline_id := timeline_ids_update (ps_timeline_id state) batch_id;
                ps_broadcast_info := {| sent_batches := sent;
                                        retry_batches := (batches_remove batch_id (retry_batches info)).2;
                                        backoff_mode := false |};
                ps_metadata := ps_metadata state |});
  mret (lenN sent).

(** The message that was sent is the result; [send_ok] is whether the network took it. *)
Definition execute_broadcast (m : Mempool) (clock : nat → SystemTime) (send_time : SystemTime) (send_ok : bool)
    (peer : PeerNetworkId) (scheduled_backoff : bool)
  : M MempoolNetworkInterface BroadcastError (MultiBatchId * list SignedTransaction) :=
  '(batch_id, transactions, _) ← determine_broadcast_batch m clock peer scheduled_backoff;
  _ ← mlift (ensure send_ok (NetworkError peer));
  _ ← update_broadcast_state peer batch_id send_time;
  mret (batch_id, transactions).
End broadcast.

(** ** Tasks *)

(** Codes of the external crate of the Move VM *)
Class DiscardedStatuses := {
  DiscardedVMStatus : Type;
  SEQUENCE_NUMBER_TOO_OLD : DiscardedVMStatus;
  RESOURCE_DOES_NOT_EXIST : DiscardedVMStatus;
  UNKNOWN_STATUS : DiscardedVMStatus;
}.
Record VMValidatorResult `{DiscardedStatuses} := mkVMValidatorResult {
  vr_status : option DiscardedVMStatus;
  vr_score : N;
}.
Record RejectedTransactionSummary := mkRejectedTransactionSummary {
  rts_sender : AccountAddress;
  rts_sequence_number : N;
  rts_hash : HashValue;
}.

Section tasks.
Context `{!TransactionTypes, !TransactionEncoding, !PeerHasher, !DiscardedStatuses}.

Abbreviation SubmissionStatus := (MempoolStatusCode * option DiscardedVMStatus)%type.
Abbreviation SubmissionStatusBundle := (SignedTransaction * SubmissionStatus)%type.

Inductive MempoolSyncMsg :=
| BroadcastTransactionsRequest (request_id : MultiBatchId) (transactions : list SignedTransaction)
| BroadcastTransactionsResponse (request_id : MultiBatchId) (retry backoff : bool).

(** What a task reads while it runs: the sequence numbers of the latest state checkpoint, if the
    database has one, the results of validation, and for the [i]th transaction it adds the time
    and the random number. *)
Record TaskReads := mkTaskReads {
  tr_state_view : option (AccountAddress → option AccountSequenceInfo);
  tr_validate : SignedTransaction → option VMValidatorResult;
  tr_now : nat → Duration;
  tr_rng : nat → nat;
}.

Record SharedMempool := mkSharedMempool {
  smp_mempool : Mempool;
  smp_network_interface : MempoolNetworkInterface;
  smp_broadcast_within_validator_network : bool;
}.
Definition with_mempool (smp : SharedMempool) (m : Mempool) : SharedMempool :=
  {| smp_mempool := m; smp_network_interface := smp_network_interface smp;
     smp_broadcast_within_validator_network := smp_broadcast_within_validator_network smp |}.
Definition with_network (smp : SharedMempool) (net : MempoolNetworkInterface) : SharedMempool :=
  {| smp_mempool := smp_mempool smp; smp_network_interface := net;
     smp_broadcast_within_validator_network := smp_broadcast_within_validator_network smp |}.
Definition shared_mempool_new (m : Mempool) (config : MempoolConfig) (role : RoleType) : SharedMempool :=
  {| smp_mempool := m; smp_network_interface := network_interface_new role config;
     smp_broadcast_within_validator_network := true |}.
Definition smp_is_validator (smp : SharedMempool) : bool :=
  role_is_validator (ni_role (smp_network_interface smp)).

Fixpoint add_transactions (reads : TaskReads) (i : nat) (transactions : list (SignedTransaction * AccountSequenceInfo))
    (timeline_state : TimelineState) (statuses : list SubmissionStatusBundle) (m : Mempool)
  : outcome Infallible (list SubmissionStatusBundle * Mempool) :=
  match transactions with
  | [] => Ok (statuses, m)
  | (t, sequence_info) :: transactions =>
      match tr_validate reads t with
      | Some result =>
          match vr_status result with
          | None =>
              '(status, m) ← add_txn (tr_now reads i) (tr_rng reads i) t (vr_score result) sequence_info timeline_state m;
              add_transactions reads (S i) transactions timeline_state (statuses ++ [(t, (status, None))]) m
          | Some validation_status =>
              add_transactions reads (S i) transactions timeline_state
                (statuses ++ [(t, (VmError, Some validation_status))]) m
          end
      | None =>
          add_transactions reads (S i) transactions timeline_state
            (statuses ++ [(t, (VmError, Some UNKNOWN_STATUS))]) m
      end
  end.

(** The transactions that are not too old, with their accounts' sequence numbers, and the statuses
    of the others *)
Fixpoint filter_sequence_numbers (view : AccountAddress → option AccountSequenceInfo)
    (transactions : list SignedTransaction)
  : list (SignedTransaction * AccountSequenceInfo) * list SubmissionStatusBundle :=
  match transactions with
  | [] => ([], [])
  | t :: transactions =>
      let '(kept, statuses) := filter_sequence_numbers view transactions in
      match view (sender t) with
      | Some sequence_info =>
          if min_seq sequence_info <=? sequence_number t then ((t, sequence_info) :: kept, statuses)
          else (kept, (t, (VmError, Some SEQUENCE_NUMBER_TOO_OLD)) :: statuses)
      | None => (kept, (t, (VmError, Some RESOURCE_DOES_NOT_EXIST)) :: statuses)
      end
  end.
Definition process_incoming_transactions (reads : TaskReads) (transactions : list SignedTransaction)
    (timeline_state : TimelineState) (smp : SharedMempool)
  : outcome Infallible (list SubmissionStatusBundle * SharedMempool) :=
  view ← expect (tr_state_view reads);
  let '(transactions, statuses) := filter_sequence_numbers view transactions in
  '(statuses, m) ← add_transactions reads 0 transactions timeline_state statuses (smp_mempool smp);
  Ok (statuses, with_mempool smp m).

(** The answer to the client *)
Definition process_client_transaction_submission (reads : TaskReads) (transaction : SignedTransaction)
    (smp : SharedMempool) : outcome Infallible (option SubmissionStatus * SharedMempool) :=
  let ineligible_for_broadcast := smp_is_validator smp && negb (smp_broadcast_within_validator_network smp) in
  let timeline_state := if ineligible_for_broadcast then NonQualified else NotReady in
  '(statuses, smp) ← process_incoming_transactions reads [transaction] timeline_state smp;
  Ok (snd <$> head statuses, smp).
Definition process_client_get_transaction (hash : HashValue) (smp : SharedMempool) : option SignedTransaction :=
  get_by_hash hash (smp_mempool smp).

Definition gen_ack_response (request_id : MultiBatchId) (results : list SubmissionStatusBundle) : MempoolSyncMsg :=
  let backoff_and_retry := existsb (λ r, bool_decide (r.2.1 = MempoolIsFull)) results in
  BroadcastTransactionsResponse request_id backoff_and_retry backoff_and_retry.
(** The ack sent to the peer *)
Definition process_transaction_broadcast (reads : TaskReads) (transactions : list SignedTransaction)
    (request_id : MultiBatchId) (timeline_state : TimelineState) (smp : SharedMempool)
  : outcome Infallible (MempoolSyncMsg * SharedMempool) :=
  '(results, smp) ← process_incoming_transactions reads transactions timeline_state smp;
  Ok (gen_ack_response request_id results, smp).

Definition process_get_batch (max_txns max_bytes : N) (exclude : list (AccountAddress * N)) (curr_time : Duration)
    (smp : SharedMempool) : outcome Infallible (list SignedTransaction * SharedMempool) :=
  m ← gc_by_expiration_time curr_time (smp_mempool smp);
  txns ← get_batch (N.max max_txns 1) max_bytes (list_to_set exclude) m;
  Ok (txns, with_mempool smp m).
Fixpoint commit_transactions (transactions : list (AccountAddress * N)) (m : Mempool) : outcome Infallible Mempool :=
  match transactions with
  | [] => Ok m
  | (a, n) :: transactions => m ← commit_transaction a n m; commit_transactions transactions m
  end.
Definition process_committed_transactions (transactions : list (AccountAddress * N)) (block_timestamp_usecs : N)
    (smp : SharedMempool) : outcome Infallible SharedMempool :=
  m ← commit_transactions transactions (smp_mempool smp);
  m ← (if 0 <? block_timestamp_usecs then gc_by_expiration_time (duration_from_micros block_timestamp_usecs) m
       else Ok m);
  Ok (with_mempool smp m).
Fixpoint reject_transactions (transactions : list RejectedTransactionSummary) (m : Mempool) : outcome Infallible Mempool :=
  match transactions with
  | [] => Ok m
  | t :: transactions =>
      m ← reject_transaction (rts_sender t) (rts_sequence_number t) (rts_hash t) m;
      reject_transactions transactions m
  end.
Definition process_rejected_transactions (transactions : list RejectedTransactionSummary) (smp : SharedMempool)
  : outcome Infallible SharedMempool :=
  with_mempool smp <$> reject_transactions transactions (smp_mempool smp).
(** [quorum_store_enabled] of the consensus configuration, when it could be read *)
Definition process_config_update (quorum_store_enabled : option bool) (smp : SharedMempool) : SharedMempool :=
  match quorum_store_enabled with
  | Some enabled => {| smp_mempool := smp_mempool smp; smp_network_interface := smp_network_interface smp;
                       smp_broadcast_within_validator_network := negb enabled |}
  | None => smp
  end.

(** ** The coordinator *)

(** Tasks handed to the bounded executor, which run at any later time *)
Inductive Task :=
| SubmissionTask (transaction : SignedTransaction)
| GetTransactionTask (hash : HashValue)
| BroadcastTask (transactions : list SignedTransaction) (request_id : MultiBatchId)
    (timeline_state : TimelineState) (peer : PeerNetworkId)
| ConfigTask (quorum_store_enabled : option bool).
Record ScheduledBroadcast := mkScheduledBroadcast {
  sb_deadline : SystemTime;
  sb_peer : PeerNetworkId;
  sb_backoff : bool;
}.
Record Coordinator := mkCoordinator {
  co_smp : SharedMempool;
  co_scheduled_broadcasts : list ScheduledBroadcast;
  co_tasks : list Task;
}.
Definition with_smp (co : Coordinator) (smp : SharedMempool) : Coordinator :=
  {| co_smp := smp; co_scheduled_broadcasts := co_scheduled_broadcasts co; co_tasks := co_tasks co |}.
Definition with_net (co : Coordinator) (net : MempoolNetworkInterface) : Coordinator :=
  with_smp co (with_network (co_smp co) net).
Definition co_network (co : Coordinator) : MempoolNetworkInterface := smp_network_interface (co_smp co).
Definition spawn (task : Task) (co : Coordinator) : Coordinator :=
  {| co_smp := co_smp co; co_scheduled_broadcasts := co_scheduled_broadcasts co; co_tasks := co_tasks co ++ [task] |}.

(** What a broadcast reads: the times of its loop, the time of sending, whether the network took
    the message, and the instant from which the next broadcast is scheduled *)
Record BroadcastReads := mkBroadcastReads {
  br_clock : nat → SystemTime;
  br_send_time : SystemTime;
  br_send_ok : bool;
  br_instant : SystemTime;
}.
(** What leaves the node *)
Inductive Output :=
| ToPeer (peer : PeerNetworkId) (msg : MempoolSyncMsg)
| ToClient (status : SubmissionStatus)
| ToClientFound (transaction : option SignedTransaction)
| ToConsensus (transactions : list SignedTransaction).

(** [tasks::execute_broadcast] *)
Definition broadcast_and_reschedule (reads : BroadcastReads) (peer : PeerNetworkId) (backoff : bool) (co : Coordinator)
  : outcome Infallible (list Output * Coordinator) :=
  if sync_states_exists (co_network co) peer then
    match execute_broadcast (smp_mempool (co_smp co)) (br_clock reads) (br_send_time reads) (br_send_ok reads)
            peer backoff (co_network co) with
    | (Panic, _) => Panic
    | (result, net) =>
        let schedule_backoff := is_backoff_mode net peer in
        let config := ni_mempool_config net in
        let interval_ms := if schedule_backoff then cfg_shared_mempool_backoff_interval_ms config
                           else cfg_shared_mempool_tick_interval_ms config in
        deadline ← system_time_add (br_instant reads) (duration_from_millis interval_ms);
        Ok (match result with
            | Ok (id, txns) => [ToPeer peer (BroadcastTransactionsRequest id txns)]
            | _ => []
            end,
            {| co_smp := with_network (co_smp co) net;
               co_scheduled_broadcasts := co_scheduled_broadcasts co ++
                 [{| sb_deadline := deadline; sb_peer := peer; sb_backoff := schedule_backoff |}];
               co_tasks := co_tasks co |})
    end
  else Ok ([], co).

Inductive NetworkEvent :=
| NewPeer (metadata : ConnectionMetadata)
| LostPeer (metadata : ConnectionMetadata)
| Message (peer_id : AccountAddress) (msg : MempoolSyncMsg)
| RpcRequest (peer_id : AccountAddress).
Definition handle_network_event (reads : BroadcastReads) (ack_timestamp : SystemTime) (network_id : NetworkId)
    (event : NetworkEvent) (co : Coordinator) : outcome Infallible (list Output * Coordinator) :=
  match event with
  | NewPeer metadata =>
      let peer := mkPeerNetworkId network_id (cm_remote_peer_id metadata) in
      let '(is_new_peer, net) := add_peer peer metadata (co_network co) in
      let is_upstream_peer := is_upstream_peer net peer (Some metadata) in
      let co := with_net co net in
      if is_new_peer && is_upstream_peer then broadcast_and_reschedule reads peer false co else Ok ([], co)
  | LostPeer metadata =>
      let peer := mkPeerNetworkId network_id (cm_remote_peer_id metadata) in
      Ok ([], with_net co (disable_peer peer (co_network co)))
  | Message peer_id (BroadcastTransactionsRequest request_id transactions) =>
      let peer := mkPeerNetworkId network_id peer_id in
      let ineligible_for_broadcast :=
        (smp_is_validator (co_smp co) && negb (smp_broadcast_within_validator_network (co_smp co))) ||
        is_upstream_peer (co_network co) peer None in
      let timeline_state := if ineligible_for_broadcast then NonQualified else NotReady in
      Ok ([], spawn (BroadcastTask transactions request_id timeline_state peer) co)
  | Message peer_id (BroadcastTransactionsResponse request_id retry backoff) =>
      net ← process_broadcast_ack (mkPeerNetworkId network_id peer_id) request_id retry backoff ack_timestamp
              (co_network co);
      Ok ([], with_net co net)
  | RpcRequest _ => Ok ([], co)
  end.

Definition run_task (reads : TaskReads) (send_ok : bool) (task : Task) (co : Coordinator)
  : outcome Infallible (list Output * Coordinator) :=
  match task with
  | SubmissionTask transaction =>
      '(status, smp) ← process_client_transaction_submission reads transaction (co_smp co);
      Ok (from_option (λ st, [ToClient st]) [] status, with_smp co smp)
  | GetTransactionTask hash =>
      Ok ([ToClientFound (process_client_get_transaction hash (co_smp co))], co)
  | BroadcastTask transactions request_id timeline_state peer =>
      '(ack, smp) ← process_transaction_broadcast reads transactions request_id timeline_state (co_smp co);
      Ok (if send_ok then [ToPeer peer ack] else [], with_smp co smp)
  | ConfigTask quorum_store_enabled => Ok ([], with_smp co (process_config_update quorum_store_enabled (co_smp co)))
  end.

(** The events of the loop of the coordinator, the tasks it spawned and the collector of expired
    transactions, in any order *)
Inductive CoordinatorEvent :=
| ClientSubmitTransaction (transaction : SignedTransaction)
| ClientGetTransactionByHash (hash : HashValue)
| GetBatchRequest (max_txns max_bytes : N) (exclude : list (AccountAddress * N)) (curr_time : Duration)
| RejectNotification (transactions : list RejectedTransactionSummary)
| CommitNotification (transactions : list (AccountAddress * N)) (block_timestamp_usecs : N)
| ReconfigNotification (quorum_store_enabled : option bool)
| BroadcastReady (index : nat) (reads : BroadcastReads)
| NetworkNotification (reads : BroadcastReads) (ack_timestamp : SystemTime) (network_id : NetworkId)
    (event : NetworkEvent)
| TaskRuns (index : nat) (reads : TaskReads) (send_ok : bool)
| GcInterval (now : Duration).

(** A broadcast whose deadline has passed leaves the schedule before it is executed. *)
Definition coordinator_step (event : CoordinatorEvent) (co : Coordinator)
  : outcome Infallible (list Output * Coordinator) :=
  match event with
  | ClientSubmitTransaction transaction => Ok ([], spawn (SubmissionTask transaction) co)
  | ClientGetTransactionByHash hash => Ok ([], spawn (GetTransactionTask hash) co)
  | GetBatchRequest max_txns max_bytes exclude curr_time =>
      '(txns, smp) ← process_get_batch max_txns max_bytes exclude curr_time (co_smp co);
      Ok ([ToConsensus txns], with_smp co smp)
  | RejectNotification transactions =>
      smp ← process_rejected_transactions transactions (co_smp co);
      Ok ([], with_smp co smp)
  | CommitNotification transactions block_timestamp_usecs =>
      smp ← process_committed_transactions transactions block_timestamp_usecs (co_smp co);
      Ok ([], with_smp co smp)
  | ReconfigNotification quorum_store_enabled => Ok ([], spawn (ConfigTask quorum_store_enabled) co)
  | BroadcastReady index reads =>
      match co_scheduled_broadcasts co !! index with
      | Some sb =>
          if sb_deadline sb <=? br_instant reads then
            broadcast_and_reschedule reads (sb_peer sb) (sb_backoff sb)
              {| co_smp := co_smp co; co_scheduled_broadcasts := delete index (co_scheduled_broadcasts co);
                 co_tasks := co_tasks co |}
          else Ok ([], co)
      | None => Ok ([], co)
      end
  | NetworkNotification reads ack_timestamp network_id event =>
      handle_network_event reads ack_timestamp network_id event co
  | TaskRuns index reads send_ok =>
      match co_tasks co !! index with
      | Some task =>
          run_task reads send_ok task
            {| co_smp := co_smp co; co_scheduled_broadcasts := co_scheduled_broadcasts co;
               co_tasks := delete index (co_tasks co) |}
      | None => Ok ([], co)
      end
  | GcInterval now =>
      m ← mempool_gc now (smp_mempool (co_smp co));
      Ok ([], with_smp co (with_mempool (co_smp co) m))
  end.
Definition coordinator_new (config : MempoolConfig) (role : RoleType) : outcome Infallible Coordinator :=
  m ← mempool_new config;
  Ok {| co_smp := shared_mempool_new m config role; co_scheduled_broadcasts := []; co_tasks := [] |}.
End tasks.
