(* ===== verification/SharedMempoolInv.v ===== *)
(** * Shared mempool: what a node owes its peers

    [peer_ok] is the invariant of the state kept for a peer: the ids it was sent so far, and
    batches whose windows end there. Every entry of a timeline that the peer may not have is beyond
    those ids or in a batch that is sent, to be retried or acknowledged. Broadcasts, acks and every
    change of the mempool preserve it. *)
From S2P Require Import Prelude Crypto BTree MempoolIndex MempoolStore MempoolInv MempoolOps MempoolBatch MempoolTimeline SharedMempool.
Local Open Scope N_scope.

(** ** Maps of batches

    Ids of the same length are equal when they compare equal. *)
Lemma pairs_compare_eq l l' : length l = length l' → pairs_compare l l' = Eq → l = l'.
Proof.
  revert l'. induction l as [|[a b] l IH]; intros [|[a' b'] l']; cbn; try done. intros [= Hlen].
  unfold pair_compare. cbn. destruct (N.compare_spec a a'); [|done..]. destruct (N.compare_spec b b'); [|done..].
  intros Hc. subst. f_equal. by apply IH.
Qed.
Lemma multi_batch_compare_eq (x y : list (N * N)) :
  length x = length y → multi_batch_compare x y = Eq → x = y.
Proof.
  unfold multi_batch_compare. intros Hlen Hc%pairs_compare_eq; [|by rewrite !length_reverse].
  by apply (inj reverse).
Qed.

Section batches.
Context {A : Type} (k : nat).
Implicit Types (l : list (list (N * N) * A)).
Definition of_length l : Prop := Forall (λ e, length e.1 = k) l.

Lemma elem_of_batches_insert id x l e :
  e ∈ batches_insert id x l → length id = k → of_length l → e = (id, x) ∨ e ∈ l.
Proof.
  intros He Hid Hl. induction Hl as [|[id' y] l Hid' Hl IH]; cbn [batches_insert] in He.
  { left. by apply list_elem_of_singleton in He. }
  destruct (multi_batch_compare id id') eqn:Hc.
  - apply multi_batch_compare_eq in Hc as <-; [|cbn in Hid'; congruence]. apply elem_of_cons in He as [->|]; [by left|].
    right. by right.
  - by apply elem_of_cons in He.
  - apply elem_of_cons in He as [->|He]; [right; by left|]. destruct (IH He); [by left|]. right. by right.
Qed.
Lemma batches_insert_length id x l : length id = k → of_length l → of_length (batches_insert id x l).
Proof.
  intros Hid Hl. apply Forall_forall. intros e He. apply elem_of_batches_insert in He as [->|He]; [done| |done|done].
  by eapply Forall_forall in Hl.
Qed.
Lemma batches_insert_keys id x l id' :
  length id = k → of_length l → id' ∈ (batches_insert id x l).*1 ↔ id' = id ∨ id' ∈ l.*1.
Proof.
  intros Hid Hl. induction Hl as [|[id0 y] l Hid0 Hl IH]; cbn [batches_insert].
  { cbn. rewrite list_elem_of_singleton, elem_of_nil. naive_solver. }
  destruct (multi_batch_compare id id0) eqn:Hc; rewrite !fmap_cons, !elem_of_cons; cbn [fst].
  - apply multi_batch_compare_eq in Hc as <-; [|cbn in Hid0; congruence]. naive_solver.
  - done.
  - rewrite IH. naive_solver.
Qed.
Lemma batches_remove_ok id l r l' :
  length id = k → of_length l → batches_remove id l = (r, l') →
  l' `sublist_of` l ∧ (∀ e, e ∈ l → e.1 = id ∨ e ∈ l') ∧
  match r with Some x => (id, x) ∈ l | None => l' = l end.
Proof.
  intros Hid Hl. revert r l'. induction Hl as [|[id0 y] l Hid0 Hl IH]; intros r l'; cbn [batches_remove].
  { intros [= <- <-]. split_and!; [done| |done]. by intros e ?%elem_of_nil. }
  destruct (multi_batch_compare id id0) eqn:Hc.
  - apply multi_batch_compare_eq in Hc as <-; [|cbn in Hid0; congruence]. intros [= <- <-].
    split_and!; [by constructor| |by left]. intros e [->|]%elem_of_cons; [by left|by right].
  - intros [= <- <-]. split_and!; [reflexivity|by right|done].
  - destruct (batches_remove id l) as [r0 l0] eqn:Hr. intros [= <- <-].
    destruct (IH _ _ eq_refl) as (Hs & Hin & Hx). split_and!; [by constructor| |].
    + intros e [->|He]%elem_of_cons; [right; by left|]. destruct (Hin e He); [by left|]. right. by right.
    + destruct r0; [by right|]. by subst.
Qed.

Lemma batches_collect_from l acc :
  of_length l → of_length acc → let r := foldl (λ m p, batches_insert p.1 p.2 m) acc l in
  of_length r ∧ (∀ e, e ∈ r → e ∈ l ∨ e ∈ acc) ∧ ∀ id, id ∈ r.*1 ↔ id ∈ l.*1 ∨ id ∈ acc.*1.
Proof.
  intros Hl. revert acc. induction Hl as [|[id x] l Hid Hl IH]; intros acc Hacc; cbn [foldl fst snd].
  { split_and!; [done|by right|]. intros id. cbn. rewrite elem_of_nil. naive_solver. }
  cbn in Hid. destruct (IH (batches_insert id x acc)) as (Hlen & Hin & Hkeys); [by apply batches_insert_length|].
  split_and!; [done| |].
  - intros e [He|He]%Hin; [left; by right|]. apply elem_of_batches_insert in He as [->|He]; [left; by left|by right|done|done].
  - intros id'. rewrite Hkeys, batches_insert_keys by done. rewrite fmap_cons, elem_of_cons. cbn. naive_solver.
Qed.
Lemma batches_collect_ok l :
  of_length l → let r := batches_collect l in
  of_length r ∧ (∀ e, e ∈ r → e ∈ l) ∧ ∀ id, id ∈ r.*1 ↔ id ∈ l.*1.
Proof.
  intros Hl. destruct (batches_collect_from l [] Hl) as (Hlen & Hin & Hkeys); [constructor|].
  split_and!; [done| |].
  - intros e [?|Hnil]%Hin; [done|]. by apply elem_of_nil in Hnil.
  - intros id. unfold batches_collect. rewrite Hkeys. cbn. rewrite elem_of_nil. naive_solver.
Qed.
End batches.

Section peers.
Context `{!TransactionTypes, !TransactionEncoding, !Workload}.
Abbreviation ptr := (AccountAddress * N)%type (only parsing).
Implicit Types (s : TransactionStore) (m : Mempool) (st : PeerSyncState).

(** The entries of the timelines in the window of a batch *)
Definition window s (id : list (N * N)) : list ptr := window_ptrs (timeline_index s) id.

(** ** The invariant of a peer *)
Definition tracked (info : BroadcastInfo) : list (list (N * N)) := (sent_batches info).*1 ++ (retry_batches info).*1.

(** [count] is the limit on the transactions of a batch. *)
Record batch_wf (count : N) s (ids : list N) (id : list (N * N)) : Prop := {
  bw_length : length id = length ids;
  bw_pair b from to : id !! b = Some (from, to) → from <= to ∧ ∃ n, ids !! b = Some n ∧ to <= n;
  bw_count : N.of_nat (length (window s id)) <= count;
}.
(** Every entry of a timeline is beyond [ids] or in one of [batches]. *)
Definition covered s (ids : list N) (batches : list (list (N * N))) : Prop :=
  ∀ b n p, timeline_at (timeline_index s) b !! n = Some p →
    (∃ top, ids !! b = Some top ∧ top < n) ∨ ∃ id, id ∈ batches ∧ covers id b n.
Record peer_ok (count : N) (acked : list (list (N * N))) (clock : SystemTime) s st : Prop := {
  po_length : length (ps_timeline_id st) = length (mb_bucket_mins (timeline_index s));
  po_next b n : ps_timeline_id st !! b = Some n → n < next_id (timeline_index s) b;
  po_batches : Forall (batch_wf count s (ps_timeline_id st)) (tracked (ps_broadcast_info st));
  po_sent : Forall (λ e, e.2 <= clock) (sent_batches (ps_broadcast_info st));
  po_covered : covered s (ps_timeline_id st) (tracked (ps_broadcast_info st) ++ acked);
}.

Lemma covered_mono s ids batches batches' :
  covered s ids batches → (∀ id, id ∈ batches → window s id = [] ∨ id ∈ batches') → covered s ids batches'.
Proof.
  intros Hc Hsub b n p Hp. destruct (Hc b n p Hp) as [?|(id & Hid & Hcov)]; [by left|].
  destruct (Hsub id Hid) as [Hnil|?]; [|right; eauto].
  assert (p ∈ window s id) as Hin by (apply elem_of_window_ptrs; eauto). rewrite Hnil in Hin. by apply elem_of_nil in Hin.
Qed.
Lemma batch_pairs_ok count s ids id :
  length ids = length (mb_bucket_mins (timeline_index s)) → batch_wf count s ids id → pairs_ok (timeline_index s) id.
Proof. intros Hlen [Hl Hp _]. split; [congruence|]. intros b from to Hb. by apply Hp in Hb as [? _]. Qed.
Lemma tracked_length count s st acked clock :
  peer_ok count acked clock s st → let info := ps_broadcast_info st in
  of_length (length (ps_timeline_id st)) (sent_batches info) ∧
  of_length (length (ps_timeline_id st)) (retry_batches info).
Proof.
  intros Hok info. pose proof (po_batches _ _ _ _ _ Hok) as [Hs Hr]%Forall_app. 
  apply (Forall_fmap fst) in Hs. apply (Forall_fmap fst) in Hr.
  split; [eapply Forall_impl; [exact Hs|]|eapply Forall_impl; [exact Hr|]]; intros e He; apply He.
Qed.
Lemma with_info_tracked st info : ps_timeline_id (with_info st info) = ps_timeline_id st ∧ ps_broadcast_info (with_info st info) = info.
Proof. done. Qed.

(** ** The mempool changes *)
Lemma timeline_bucket s b n p :
  store_inv 0 0 s → timeline_at (timeline_index s) b !! n = Some p →
  (b < length (mb_bucket_mins (timeline_index s)))%nat.
Proof.
  intros Hinv Hp. rewrite <- (mb_wf_length _ (ix_mb_wf _ _ _ _ (si_indexed _ _ _ Hinv))).
  unfold timeline_at in Hp. destruct (mb_timelines (timeline_index s) !! b) eqn:Htl; [|done]. by eapply lookup_lt_Some.
Qed.
Lemma batch_wf_evolves count s s' ids id :
  store_inv 0 0 s' → evolves s s' → (∀ b n, ids !! b = Some n → n < next_id (timeline_index s) b) →
  batch_wf count s ids id → batch_wf count s' ids id.
Proof.
  intros Hinv Hev Hnext [Hl Hp Hc]. split; [done|done|].
  pose proof (window_evolves s s' id Hinv Hev) as Hle. fold (window s' id) (window s id) in Hle.
  assert (length (window s' id) <= length (window s id))%nat; [|lia]. apply Hle.
  intros b from to Hb. apply Hp in Hb as (_ & n & Hn & Hto). specialize (Hnext b n Hn). lia.
Qed.
Lemma peer_evolves count acked clock s s' st :
  store_inv 0 0 s' → evolves s s' → peer_ok count acked clock s st → peer_ok count acked clock s' st.
Proof.
  intros Hinv Hev [Hlen Hnext Hb Hs Hc]. pose proof Hev as (_ & _ & _ & _ & Hmins & Hle & Hold). split.
  - congruence.
  - intros b n Hn. specialize (Hle b). specialize (Hnext b n Hn). lia.
  - eapply Forall_impl; [exact Hb|]. intros id. by apply batch_wf_evolves.
  - done.
  - intros b n p Hp. destruct (Hold b n p Hp) as [Hp'|Hge]; [by eapply Hc|]. left.
    assert (b < length (ps_timeline_id st))%nat as Hlt.
    { rewrite Hlen, <- Hmins. by eapply timeline_bucket. }
    apply lookup_lt_is_Some in Hlt as [top Htop]. exists top. split; [done|]. specialize (Hnext b top Htop). lia.
Qed.
Lemma peer_clock count acked clock clock' s st :
  clock <= clock' → peer_ok count acked clock s st → peer_ok count acked clock' s st.
Proof.
  intros Hle [Hlen Hnext Hb Hs Hc]. split; [done..| |done]. eapply Forall_impl; [exact Hs|]. cbn. lia.
Qed.

(** ** A new peer *)
Definition ids_positive s : Prop :=
  (∀ b n p, timeline_at (timeline_index s) b !! n = Some p → 0 < n) ∧
  ∀ b, (b < length (mb_bucket_mins (timeline_index s)))%nat → 0 < next_id (timeline_index s) b.
Lemma ids_positive_evolves s s' : evolves s s' → store_inv 0 0 s' → ids_positive s → ids_positive s'.
Proof.
  intros (_ & _ & _ & _ & Hmins & Hle & Hold) Hinv [Hpos Hnext]. split.
  - intros b n p Hp. destruct (Hold b n p Hp) as [Hp'|Hge]; [by eapply Hpos|].
    enough (0 < next_id (timeline_index s) b) by lia. apply Hnext.
    rewrite <- Hmins. by eapply timeline_bucket.
  - intros b Hb. rewrite Hmins in Hb. specialize (Hle b). specialize (Hnext b Hb). lia.
Qed.
Lemma peer_new_ok count clock s metadata :
  store_inv 0 0 s → ids_positive s →
  peer_ok count [] clock s (peer_sync_state_new metadata (length (mb_bucket_mins (timeline_index s)))).
Proof.
  intros Hinv [Hpos Hnext]. split; cbn.
  - apply length_replicate.
  - intros b n [-> Hb]%lookup_replicate. by apply Hnext.
  - constructor.
  - constructor.
  - intros b n p Hp. left. exists 0. split; [|by eapply Hpos]. apply lookup_replicate. split; [done|].
    by eapply timeline_bucket.
Qed.

(** ** Acks *)

(** An ack without a retry ends the node's duty for its batch. *)
Lemma ack_ok count acked clock s st id t sent retry backoff :
  peer_ok count acked clock s st → length id = length (ps_timeline_id st) →
  batches_remove id (sent_batches (ps_broadcast_info st)) = (Some t, sent) →
  t <= clock ∧
  peer_ok count (if retry : bool then acked else id :: acked) clock s
    (with_info st {| sent_batches := sent;
                     retry_batches := if retry then batches_insert id tt (retry_batches (ps_broadcast_info st))
                                      else retry_batches (ps_broadcast_info st);
                     backoff_mode := backoff |}).
Proof.
  intros Hok Hid Hr. destruct (tracked_length _ _ _ _ _ Hok) as [Hls Hlr].
  destruct (batches_remove_ok _ _ _ _ _ Hid Hls Hr) as (Hsub & Hrest & Hin).
  destruct Hok as [Hlen Hnext Hb Hs Hc]. set (info := ps_broadcast_info st) in *.
  assert (t <= clock) by (rewrite Forall_forall in Hs; by apply (Hs (id, t))).
  assert (id ∈ (sent_batches info).*1) as Hid' by (apply list_elem_of_fmap; by exists (id, t)).
  set (retry' := if retry then batches_insert id tt (retry_batches info) else retry_batches info).
  assert (∀ x, x ∈ retry'.*1 ↔ (retry = true ∧ x = id) ∨ x ∈ (retry_batches info).*1) as Hkeys.
  { intros x. unfold retry'. destruct retry; [|naive_solver].
    rewrite (batches_insert_keys (length (ps_timeline_id st))) by done. naive_solver. }
  assert (∀ x, x ∈ sent.*1 → x ∈ (sent_batches info).*1) as Hsent.
  { intros x (e & -> & He)%list_elem_of_fmap. apply list_elem_of_fmap. exists e. split; [done|].
    by eapply elem_of_sublist. }
  split; [done|]. unfold with_info. split; cbn; [done|done| | |].
  - unfold tracked in Hb |- *. cbn. rewrite Forall_forall in Hb |- *. intros x [Hx%Hsent|Hx%Hkeys]%elem_of_app.
    + apply Hb, elem_of_app. by left.
    + apply Hb, elem_of_app. destruct Hx as [[_ ->]|?]; [by left|by right].
  - rewrite Forall_forall in Hs |- *. intros e He. apply Hs. by eapply elem_of_sublist.
  - eapply covered_mono; [exact Hc|]. intros x. unfold tracked. cbn. rewrite !elem_of_app, Hkeys.
    intros [[(e & -> & He)%list_elem_of_fmap|?]|?]; right; [|by auto|destruct retry; [by auto|right; by right]].
    destruct (Hrest e He) as [->|He']; [|left; left; apply list_elem_of_fmap; eauto].
    destruct retry; [left; right; by left|right; by left].
Qed.

(** ** Forgetting the batches that are empty *)
Lemma live_batches_ok {A} m (l : list (list (N * N) * A)) :
  let s := mp_transactions m in
  store_inv 0 0 s → Forall (λ e, pairs_ok (timeline_index s) e.1) l →
  ∃ l', live_batches m l = Ok l' ∧ l' = filter (λ e, window s e.1 ≠ []) l.
Proof.
  intros s Hinv Hl. induction Hl as [|[id x] l Hid Hl (l' & Hrun & ->)]; cbn [live_batches]; [by eexists|].
  destruct (timeline_range_ok s id Hinv Hid) as (txns & Htx & _ & Hlen). unfold timeline_range. fold s. rewrite Htx.
  run_ok. rewrite Hrun. run_ok. eexists. split; [done|]. rewrite filter_cons. cbn [fst].
  fold (window s id) in Hlen. assert (txns = [] ↔ window s id = []) by (rewrite <- !length_zero_iff_nil; by rewrite Hlen).
  case_decide; case_bool_decide; tauto || done.
Qed.
Lemma sync_ok count acked clock m st :
  let s := mp_transactions m in let info := ps_broadcast_info st in
  store_inv 0 0 s → peer_ok count acked clock s st →
  ∃ info', sync_with_mempool m info = Ok info' ∧ peer_ok count acked clock s (with_info st info') ∧
    backoff_mode info' = backoff_mode info ∧
    (∀ e, e ∈ sent_batches info' → e ∈ sent_batches info) ∧
    (∀ id, id ∈ (sent_batches info').*1 ↔ id ∈ (sent_batches info).*1 ∧ window s id ≠ []) ∧
    (∀ id, id ∈ (retry_batches info').*1 ↔ id ∈ (retry_batches info).*1 ∧ window s id ≠ []).
Proof.
  intros s info Hinv Hok. destruct (tracked_length _ _ _ _ _ Hok) as [Hls Hlr].
  destruct Hok as [Hlen Hnext Hb Hs Hc]. fold info in Hls, Hlr, Hb, Hs, Hc.
  assert (Forall (λ e, pairs_ok (timeline_index s) e.1) (sent_batches info) ∧
          Forall (λ e, pairs_ok (timeline_index s) e.1) (retry_batches info)) as [Hps Hpr].
  { pose proof Hb as [Hbs Hbr]%Forall_app. apply (Forall_fmap fst) in Hbs. apply (Forall_fmap fst) in Hbr.
    split; [eapply Forall_impl; [exact Hbs|]|eapply Forall_impl; [exact Hbr|]]; intros e He; by eapply batch_pairs_ok. }
  unfold sync_with_mempool.
  destruct (live_batches_ok m _ Hinv Hps) as (sent & -> & ->). destruct (live_batches_ok m _ Hinv Hpr) as (retry & -> & ->).
  run_ok. eexists. split; [done|]. cbn [sent_batches retry_batches backoff_mode]. fold s.
  assert (∀ A (l : list (list (N * N) * A)), of_length (length (ps_timeline_id st)) l →
    of_length (length (ps_timeline_id st)) (filter (λ e, window s e.1 ≠ []) l)) as Hfl.
  { intros A l Hl. apply Forall_forall. intros e [_ He]%list_elem_of_filter. by eapply Forall_forall in Hl. }
  destruct (batches_collect_ok _ _ (Hfl _ _ Hls)) as (_ & Hsin & Hskeys).
  destruct (batches_collect_ok _ _ (Hfl _ _ Hlr)) as (_ & _ & Hrkeys).
  assert (∀ A (l : list (list (N * N) * A)) id, id ∈ (filter (λ e, window s e.1 ≠ []) l).*1 ↔ id ∈ l.*1 ∧ window s id ≠ []) as Hkeys.
  { intros A l id. rewrite !list_elem_of_fmap. setoid_rewrite list_elem_of_filter. naive_solver. }
  split_and!; [|done| | |].
  - split; cbn; [done|done| | |].
    + unfold tracked in Hb |- *. cbn. rewrite Forall_forall in Hb |- *.
      intros x [Hx%Hskeys|Hx%Hrkeys]%elem_of_app; apply Hkeys in Hx as [Hx _]; apply Hb, elem_of_app; auto.
    + rewrite Forall_forall in Hs |- *. intros e He%Hsin. apply list_elem_of_filter in He as [_ He]. by apply Hs.
    + eapply covered_mono; [exact Hc|]. intros x. unfold tracked. cbn. rewrite !elem_of_app, Hskeys, Hrkeys, !Hkeys.
      destruct (decide (window s x = [])); naive_solver.
  - intros e He%Hsin. by apply list_elem_of_filter in He as [_ He].
  - intros id. by rewrite Hskeys, Hkeys.
  - intros id. by rewrite Hrkeys, Hkeys.
Qed.

(** ** Sending a batch *)

(** What makes a batch fit to be sent to a peer *)
Record sendable (count : N) s st (id : list (N * N)) : Prop := {
  sd_length : length id = length (ps_timeline_id st);
  sd_count : N.of_nat (length (window s id)) <= count;
  sd_pair b from to top : id !! b = Some (from, to) → ps_timeline_id st !! b = Some top →
    from <= to ∧ from <= top ∧ to < next_id (timeline_index s) b;
}.
Definition sent_state st (id : list (N * N)) (send_time : SystemTime) : PeerSyncState :=
  let info := ps_broadcast_info st in
  {| ps_timeline_id := timeline_ids_update (ps_timeline_id st) id;
     ps_broadcast_info := {| sent_batches := batches_insert id send_time (sent_batches info);
                             retry_batches := (batches_remove id (retry_batches info)).2;
                             backoff_mode := false |};
     ps_metadata := ps_metadata st |}.
Lemma timeline_ids_update_lookup (ids : list N) (id : list (N * N)) b n :
  length id = length ids →
  timeline_ids_update ids id !! b = Some n ↔
  ∃ top from to, ids !! b = Some top ∧ id !! b = Some (from, to) ∧ n = N.max top to.
Proof.
  intros Hlen. unfold timeline_ids_update, lenN. rewrite Hlen, N.eqb_refl. cbn [negb].
  rewrite lookup_zip_with_Some. split.
  - intros (top & [from to] & -> & Htop & Hid). by exists top, from, to.
  - intros (top & from & to & Htop & Hid & ->). by exists top, (from, to).
Qed.
Lemma sendable_batch_wf count s st id : sendable count s st id → batch_wf count s (timeline_ids_update (ps_timeline_id st) id) id.
Proof.
  intros [Hlen Hc Hp]. split; [|intros b from to Hb|done].
  - unfold timeline_ids_update, lenN. rewrite Hlen, N.eqb_refl. cbn [negb]. rewrite length_zip_with. lia.
  - assert (is_Some (ps_timeline_id st !! b)) as [top Htop].
    { apply lookup_lt_is_Some. rewrite <- Hlen. by eapply lookup_lt_Some. }
    destruct (Hp b from to top Hb Htop) as (Hle & _). split; [done|]. exists (N.max top to). split; [|lia].
    apply timeline_ids_update_lookup; [done|]. by exists top, from, to.
Qed.
Lemma batch_wf_update count s ids id id' :
  length id' = length ids → batch_wf count s ids id → batch_wf count s (timeline_ids_update ids id') id.
Proof.
  intros Hlen [Hl Hp Hc]. split; [|intros b from to Hb|done].
  - rewrite Hl. unfold timeline_ids_update, lenN. rewrite Hlen, N.eqb_refl. cbn [negb]. rewrite length_zip_with. lia.
  - destruct (Hp b from to Hb) as (Hle & n & Hn & Hto). split; [done|].
    assert (is_Some (id' !! b)) as [[from' to'] Hb'].
    { apply lookup_lt_is_Some. rewrite Hlen. by eapply lookup_lt_Some. }
    exists (N.max n to'). split; [|lia]. apply timeline_ids_update_lookup; [done|]. by exists n, from', to'.
Qed.
Lemma sent_ok count acked clock send_time s st id :
  peer_ok count acked clock s st → sendable count s st id → clock <= send_time →
  peer_ok count acked send_time s (sent_state st id send_time).
Proof.
  intros Hok Hsd Hclock. destruct (tracked_length _ _ _ _ _ Hok) as [Hls Hlr]. pose proof (sendable_batch_wf _ _ _ _ Hsd) as Hwf.
  destruct Hok as [Hlen Hnext Hb Hs Hc], Hsd as [Hl Hcount Hp]. set (info := ps_broadcast_info st) in *.
  destruct (batches_remove id (retry_batches info)) as [r retry'] eqn:Hr.
  destruct (batches_remove_ok _ _ _ _ _ Hl Hlr Hr) as (Hsub & Hrest & _).
  assert (∀ x, x ∈ retry'.*1 → x ∈ (retry_batches info).*1) as Hretry.
  { intros x (e & -> & He)%list_elem_of_fmap. apply list_elem_of_fmap. exists e. split; [done|]. by eapply elem_of_sublist. }
  unfold sent_state. fold info. rewrite Hr. split; cbn.
  - rewrite <- Hlen, <- Hl. symmetry. by apply Hwf.
  - intros b n (top & from & to & Htop & Hid & ->)%timeline_ids_update_lookup; [|done].
    destruct (Hp b from to top Hid Htop) as (_ & _ & Hto). specialize (Hnext b top Htop). lia.
  - unfold tracked in Hb |- *. cbn. rewrite Forall_forall in Hb |- *. intros x.
    rewrite elem_of_app, (batches_insert_keys _ _ _ _ _ Hl Hls). intros [[->|Hx]|Hx%Hretry]; [done|..];
      apply batch_wf_update; try done; apply Hb, elem_of_app; auto.
  - rewrite Forall_forall in Hs |- *. intros e He. eapply elem_of_batches_insert in He as [->|He]; [cbn; lia| |done|done].
    specialize (Hs e He). cbn in Hs. lia.
  - intros b n p Hn. unfold tracked. cbn.
    assert (∀ x, x ∈ tracked info ++ acked → x ∈ ((batches_insert id send_time (sent_batches info)).*1 ++ retry'.*1) ++ acked) as Hin.
    { intros x. unfold tracked. rewrite !elem_of_app, (batches_insert_keys _ _ _ _ _ Hl Hls).
      intros [[?|(e & -> & He)%list_elem_of_fmap]|?]; [by auto| |by auto].
      destruct (Hrest e He) as [?|?]; [by auto|]. left. right. apply list_elem_of_fmap. eauto. }
    destruct (Hc b n p Hn) as [(top & Htop & Hlt)|(x & Hx & Hcov)]; [|right; exists x; auto].
    assert (is_Some (id !! b)) as [[from to] Hid].
    { apply lookup_lt_is_Some. rewrite Hl. by eapply lookup_lt_Some. }
    destruct (Hp b from to top Hid Htop) as (_ & Hfrom & _). destruct (decide (n <= to)).
    + right. exists id. split; [|exists from, to; split; [done|lia]].
      rewrite !elem_of_app, (batches_insert_keys _ _ _ _ _ Hl Hls). auto.
    + left. exists (N.max top to). split; [|lia]. apply timeline_ids_update_lookup; [done|]. by exists top, from, to.
Qed.
Lemma tracked_sendable count acked clock s st id :
  peer_ok count acked clock s st → id ∈ tracked (ps_broadcast_info st) → sendable count s st id.
Proof.
  intros Hok Hid. pose proof (po_batches _ _ _ _ _ Hok) as Hb. rewrite Forall_forall in Hb. destruct (Hb id Hid) as [Hl Hp Hc].
  split; [done|done|]. intros b from to top Hpair Htop. destruct (Hp b from to Hpair) as (Hle & n & Hn & Hto).
  rewrite Htop in Hn. injection Hn as <-. pose proof (po_next _ _ _ _ _ Hok b top Htop). lia.
Qed.
Lemma fresh_sendable count acked clock s st batch new_ids :
  store_inv 0 0 s → peer_ok count acked clock s st → read_ok s (ps_timeline_id st) count batch new_ids →
  sendable count s st (from_timeline_ids (ps_timeline_id st) new_ids).
Proof.
  intros Hinv Hok Hread. split.
  - unfold from_timeline_ids. rewrite length_zip_with, (ro_length _ _ _ _ _ Hread). lia.
  - pose proof (read_window _ _ _ _ _ Hinv Hread). pose proof (ro_count _ _ _ _ _ Hread). unfold window, from_timeline_ids, lenN in *. lia.
  - intros b from to top (x & y & [= -> ->] & Hx & Hy)%lookup_zip_with_Some Htop. rewrite Hx in Htop. injection Htop as ->.
    destruct (ro_forward _ _ _ _ _ Hread b top y Hx Hy) as [Hle Hto]. split_and!; [done|lia|].
    pose proof (po_next _ _ _ _ _ Hok b top Hx). destruct Hto as [->|[p Hp]]; [done|].
    by eapply (ix_next _ _ _ _ (si_indexed _ _ _ Hinv)).
Qed.

(** ** Choosing a batch *)
Definition ack_deadline (c : MempoolConfig) (sent_time : SystemTime) : SystemTime :=
  sent_time + duration_from_millis (cfg_shared_mempool_ack_timeout_ms c).
(** The batches that wait for an ack in time, read at [clock i], [clock (S i)], ... *)
Fixpoint unexpired (c : MempoolConfig) (clock : nat → SystemTime) (i : nat) (l : list (list (N * N) * SystemTime)) : N :=
  match l with
  | [] => 0
  | e :: l => (if clock i <? ack_deadline c e.2 then 1 else 0) + unexpired c clock (S i) l
  end.
Definition some_expired (c : MempoolConfig) (clock : nat → SystemTime) (l : list (list (N * N) * SystemTime))
    (id : list (N * N)) : Prop :=
  ∃ j t, l !! j = Some (id, t) ∧ ack_deadline c t <= clock j.

Lemma pending_loop_ok peer c clock i l pending expired :
  Forall (λ e, ack_deadline c e.2 <= SYSTEM_TIME_MAX) l →
  match pending_loop peer c clock i l pending expired with
  | Ok r =>
      (r = expired ∧ (∀ j id t, l !! j = Some (id, t) → clock (i + j)%nat < ack_deadline c t)) ∨
      ∃ id j t, r = Some id ∧ l !! j = Some (id, t) ∧ ack_deadline c t <= clock (i + j)%nat
  | Err e => e = TooManyPendingBroadcasts peer ∧ cfg_max_broadcasts_per_peer c <= pending + unexpired c clock i l
  | Panic => False
  end.
Proof.
  intros Hl. revert i pending expired. induction Hl as [|[id t] l Ht Hl IH]; intros i pending expired; cbn [pending_loop].
  { left. split; [done|]. intros j id t. by rewrite lookup_nil. }
  cbn [fst snd] in Ht. unfold ack_deadline in Ht. unfold system_time_add. destruct (N.leb_spec (t + duration_from_millis (cfg_shared_mempool_ack_timeout_ms c)) SYSTEM_TIME_MAX); [|lia].
  run_ok. fold (ack_deadline c t) in *. cbn [unexpired snd]. destruct (N.leb_spec (ack_deadline c t) (clock i)) as [He|He].
  - destruct (N.ltb_spec (clock i) (ack_deadline c t)); [lia|]. destruct (N.leb_spec (cfg_max_broadcasts_per_peer c) pending).
    { split; [done|]. lia. }
    specialize (IH (S i) pending (Some id)). destruct (pending_loop _ _ _ _ _ _ _) as [r|e|]; [|naive_solver lia|done].
    right. destruct IH as [[-> _]|(id' & j & t' & -> & Hj & Hd)].
    + exists id, 0%nat, t. rewrite Nat.add_0_r. done.
    + exists id', (S j), t'. rewrite Nat.add_succ_r. done.
  - destruct (N.ltb_spec (clock i) (ack_deadline c t)); [|lia].
    destruct (N.leb_spec (cfg_max_broadcasts_per_peer c) (pending + 1)).
    { split; [done|]. lia. }
    specialize (IH (S i) (pending + 1) expired). destruct (pending_loop _ _ _ _ _ _ _) as [r|e|]; [|naive_solver lia|done].
    destruct IH as [[-> Hall]|(id' & j & t' & -> & Hj & Hd)].
    + left. split; [done|]. intros [|j] id' t'; cbn; [intros [= <- <-]; by rewrite Nat.add_0_r|].
      rewrite Nat.add_succ_r. apply Hall.
    + right. exists id', (S j), t'. rewrite Nat.add_succ_r. done.
Qed.

(** The transactions of a batch *)
Definition batch_of s (id : list (N * N)) (txns : list SignedTransaction) : Prop :=
  ∀ t, t ∈ txns ↔ ∃ b n a k, timeline_at (timeline_index s) b !! n = Some (a, k) ∧ covers id b n ∧ store_get s a k = Some t.
(** The peer was sent everything, or some transaction is larger than a message. *)
Definition caught_up s (ids : list N) : Prop :=
  ∀ b n p top, timeline_at (timeline_index s) b !! n = Some p → ids !! b = Some top →
    n <= top ∨
    ∃ b' n' p' t, timeline_at (timeline_index s) b' !! n' = Some p' ∧ store_get s p'.1 p'.2 = Some t ∧ too_big s 0 t.

(** What a choice says of the state [st'] it is made in *)
Definition choice_ok (c : MempoolConfig) (clock : nat → SystemTime) s st' (peer : PeerNetworkId)
    (r : outcome BroadcastError (list (N * N) * list SignedTransaction * option BroadcastLabel)) : Prop :=
  let info := ps_broadcast_info st' in
  match r with
  | Ok (id, txns, label) =>
      txns ≠ [] ∧ lenN txns <= cfg_shared_mempool_batch_size c ∧ batch_of s id txns ∧
      sendable (cfg_shared_mempool_batch_size c) s st' id ∧
      match label with
      | Some EXPIRED_BROADCAST_LABEL => some_expired c clock (sent_batches info) id
      | Some RETRY_BROADCAST_LABEL => id ∈ (retry_batches info).*1
      | None => retry_batches info = [] ∧ (∀ id, ¬ some_expired c clock (sent_batches info) id) ∧
                id.*1 = ps_timeline_id st'
      end
  | Err e =>
      (e = TooManyPendingBroadcasts peer ∧
       cfg_max_broadcasts_per_peer c <= unexpired c clock 0 (sent_batches info)) ∨
      (e = NoTransactions peer ∧ retry_batches info = [] ∧
       (∀ id, ¬ some_expired c clock (sent_batches info) id) ∧ caught_up s (ps_timeline_id st'))
  | Panic => False
  end.

Lemma max_batch_id_cases a b id : max_batch_id a b = Some id → a = Some id ∨ (b = Some id ∧ a ≠ Some id).
Proof.
  destruct a as [x|], b as [y|]; cbn; try naive_solver. destruct (decide (x = id)) as [->|]; [naive_solver|].
  destruct (multi_batch_compare x y); naive_solver.
Qed.
Lemma max_batch_id_none a b : max_batch_id a b = None → a = None ∧ b = None.
Proof. destruct a as [x|], b as [y|]; cbn; try done. by destruct (multi_batch_compare x y). Qed.

Lemma choose_batch_ok c acked clock0 clock m st peer :
  let s := mp_transactions m in let count := cfg_shared_mempool_batch_size c in
  store_inv 0 0 s → 0 < count < 2 ^ 64 → peer_ok count acked clock0 s st →
  (∀ id, id ∈ tracked (ps_broadcast_info st) → window s id ≠ []) →
  ack_deadline c clock0 <= SYSTEM_TIME_MAX →
  choice_ok c clock s st peer (choose_batch m clock peer c st).
Proof.
  intros s count Hinv Hcount Hok Hlive Hmax. set (info := ps_broadcast_info st). unfold choose_batch. fold info.
  assert (Forall (λ e, ack_deadline c e.2 <= SYSTEM_TIME_MAX) (sent_batches info)) as Hdl.
  { eapply Forall_impl; [exact (po_sent _ _ _ _ _ Hok)|]. unfold ack_deadline in *. cbn. lia. }
  pose proof (pending_loop_ok peer c clock 0 (sent_batches info) 0 None Hdl) as Hloop.
  destruct (pending_loop peer c clock 0 (sent_batches info) 0 None) as [expired|e|]; [| |done]; run_ok; cycle 1.
  { left. done. }
  destruct (max_batch_id expired (fst <$> last (retry_batches info))) as [id|] eqn:Hmaxid.
  - assert (id ∈ tracked info ∧
      match (if bool_decide (Some id = expired) then Some EXPIRED_BROADCAST_LABEL else Some RETRY_BROADCAST_LABEL) with
      | Some EXPIRED_BROADCAST_LABEL => some_expired c clock (sent_batches info) id
      | Some RETRY_BROADCAST_LABEL => id ∈ (retry_batches info).*1
      | None => False
      end) as [Hid Hlabel].
    { apply max_batch_id_cases in Hmaxid as [->|[Hlast Hne]].
      - rewrite bool_decide_true by done. destruct Hloop as [[? _]|(id' & j & t & [= <-] & Hj & Hd)]; [done|].
        split; [|by exists j, t]. apply elem_of_app. left. apply list_elem_of_fmap. exists (id, t). split; [done|].
        by eapply list_elem_of_lookup_2.
      - rewrite bool_decide_false by done. apply fmap_Some in Hlast as (e & He%last_Some_elem_of & ->).
        assert (e.1 ∈ (retry_batches info).*1) by (apply list_elem_of_fmap; eauto). split; [|done].
        apply elem_of_app. by right. }
    pose proof (tracked_sendable _ _ _ _ _ _ Hok Hid) as Hsd.
    assert (pairs_ok (timeline_index s) id) as Hpairs.
    { eapply batch_pairs_ok; [apply Hok|]. pose proof (po_batches _ _ _ _ _ Hok) as Hb. rewrite Forall_forall in Hb. by apply Hb. }
    destruct (timeline_range_ok s id Hinv Hpairs) as (txns & Htx & Hin & Hlen). unfold timeline_range. fold s. rewrite Htx.
    run_ok. fold (window s id) in Hlen. rewrite bool_decide_false; cycle 1.
    { intros ->. symmetry in Hlen. apply length_zero_iff_nil in Hlen. by apply (Hlive id Hid). }
    split_and!; [|unfold lenN; rewrite Hlen; apply Hsd|done|done|].
    + intros ->. symmetry in Hlen. apply length_zero_iff_nil in Hlen. by apply (Hlive id Hid).
    + destruct (bool_decide (Some id = expired)); done.
  - apply max_batch_id_none in Hmaxid as [-> Hlast].
    assert (retry_batches info = []) as Hretry by (by apply last_None; destruct (last (retry_batches info))).
    assert (∀ id, ¬ some_expired c clock (sent_batches info) id) as Hnone.
    { intros id (j & t & Hj & Hd). destruct Hloop as [[_ Hall]|(id' & j' & t' & ? & _)]; [|done].
      specialize (Hall j id t Hj). cbn in Hall. lia. }
    destruct (read_timeline_ok s (ps_timeline_id st) count Hinv (po_length _ _ _ _ _ Hok)) as (batch & new_ids & Hread & Hro); [lia|lia|].
    unfold read_timeline. fold s. fold count. rewrite Hread. run_ok. case_bool_decide as Hempty.
    + right. split_and!; [done|done|done|]. intros b n p top Hp Htop. destruct (decide (n <= top)); [by left|right].
      apply (ro_progress _ _ _ _ _ Hro b top n p); [done..|lia].
    + split_and!; [done|apply Hro| |by eapply fresh_sendable|done|done|].
      * intros t. rewrite (ro_batch _ _ _ _ _ Hro). unfold from_timeline_ids, covers, in_window. split.
        -- intros (b & from & to & Hb & Hto & n & a & k & Hn & Hle & Hget). exists b, n, a, k. split_and!; [done| |done].
           exists from, to. split; [|done]. apply lookup_zip_with_Some. by exists from, to.
        -- intros (b & n & a & k & Hn & (from & to & (x & y & [= -> ->] & Hx & Hy)%lookup_zip_with_Some & Hle) & Hget).
           exists b, x, y. split_and!; [done|done|]. by exists n, a, k.
      * unfold from_timeline_ids. apply fst_zip. rewrite (ro_length _ _ _ _ _ Hro). lia.
Qed.

(** ** A broadcast *)
Lemma determine_ok c acked clock0 clock m st peer backoff net :
  let s := mp_transactions m in let count := cfg_shared_mempool_batch_size c in
  ni_mempool_config net = c → sync_states net !! peer = Some st →
  store_inv 0 0 s → 0 < count < 2 ^ 64 → peer_ok count acked clock0 s st → ack_deadline c clock0 <= SYSTEM_TIME_MAX →
  (∃ e, determine_broadcast_batch m clock peer backoff net = (Err e, net) ∧
        ((check_peer_prioritized net peer = Err e) ∨
         (check_peer_prioritized net peer = Ok () ∧ e = PeerNotScheduled peer ∧
          backoff_mode (ps_broadcast_info st) = true ∧ backoff = false))) ∨
  ∃ info' r, let st' := with_info st info' in
    check_peer_prioritized net peer = Ok () ∧
    (backoff_mode (ps_broadcast_info st) = true → backoff = true) ∧
    determine_broadcast_batch m clock peer backoff net = (r, with_peer net peer st') ∧
    sync_with_mempool m (ps_broadcast_info st) = Ok info' ∧
    peer_ok count acked clock0 s st' ∧ choice_ok c clock s st' peer r.
Proof.
  intros s count Hcfg Hst Hinv Hcount Hok Hmax. unfold determine_broadcast_batch. rewrite mget_bind, Hst.
  cbn [ok_or]. rewrite (mlift_bind _ st) by done.
  destruct (check_peer_prioritized net peer) as [[]|e|] eqn:Hprio.
  - rewrite (mlift_bind _ ()) by done.
    destruct (backoff_mode (ps_broadcast_info st) && negb backoff) eqn:Hb.
    { left. exists (PeerNotScheduled peer). split; [done|]. right. apply andb_true_iff in Hb as [? ?%negb_true_iff]. done. }
    right. destruct (sync_ok count acked clock0 m st Hinv Hok) as (info' & Hsync & Hok' & _ & _ & Hs & Hr).
    exists info', (choose_batch m clock peer c (with_info st info')). rewrite Hsync.
    split_and!; [done| |by rewrite <- Hcfg|done|done|].
    + intros Hbo. rewrite Hbo in Hb. by destruct backoff.
    + eapply choose_batch_ok; try done. intros id [Hid%Hs|Hid%Hr]%elem_of_app; apply Hid.
  - left. exists e. split; [done|]. by left.
  - exfalso. unfold check_peer_prioritized in Hprio. destruct (role_is_validator _); [done|]. by destruct (_ <? _).
Qed.

Lemma with_peer_same net peer st : sync_states net !! peer = Some st → with_peer net peer st = net.
Proof. intros Hst. unfold with_peer, with_sync_states. rewrite insert_id by done. by destruct net. Qed.
Lemma with_peer_twice net peer st st' : with_peer (with_peer net peer st) peer st' = with_peer net peer st'.
Proof. unfold with_peer, with_sync_states. cbn. by rewrite insert_insert_eq. Qed.

(** Nothing is sent to a peer that backs off or is not among those to broadcast to; a batch that is
    sent is recorded, and a batch is not sent only for the reasons of [choice_ok] or because the
    network did not take it. *)
Inductive broadcast_result (c : MempoolConfig) (clock : nat → SystemTime) (send_time : SystemTime) (send_ok : bool)
    m st (peer : PeerNetworkId) (backoff : bool) (net : MempoolNetworkInterface)
  : outcome BroadcastError (list (N * N) * list SignedTransaction) → PeerSyncState → Prop :=
| not_prioritized e :
    check_peer_prioritized net peer = Err e →
    broadcast_result c clock send_time send_ok m st peer backoff net (Err e) st
| not_scheduled :
    check_peer_prioritized net peer = Ok () → backoff_mode (ps_broadcast_info st) = true → backoff = false →
    broadcast_result c clock send_time send_ok m st peer backoff net (Err (PeerNotScheduled peer)) st
| not_chosen info' e :
    check_peer_prioritized net peer = Ok () → (backoff_mode (ps_broadcast_info st) = true → backoff = true) →
    sync_with_mempool m (ps_broadcast_info st) = Ok info' →
    choice_ok c clock (mp_transactions m) (with_info st info') peer (Err e) →
    broadcast_result c clock send_time send_ok m st peer backoff net (Err e) (with_info st info')
| not_sent info' id txns label :
    check_peer_prioritized net peer = Ok () → (backoff_mode (ps_broadcast_info st) = true → backoff = true) →
    sync_with_mempool m (ps_broadcast_info st) = Ok info' →
    choice_ok c clock (mp_transactions m) (with_info st info') peer (Ok (id, txns, label)) → send_ok = false →
    broadcast_result c clock send_time send_ok m st peer backoff net (Err (NetworkError peer)) (with_info st info')
| was_sent info' id txns label :
    check_peer_prioritized net peer = Ok () → (backoff_mode (ps_broadcast_info st) = true → backoff = true) →
    sync_with_mempool m (ps_broadcast_info st) = Ok info' →
    choice_ok c clock (mp_transactions m) (with_info st info') peer (Ok (id, txns, label)) → send_ok = true →
    broadcast_result c clock send_time send_ok m st peer backoff net (Ok (id, txns))
      (sent_state (with_info st info') id send_time).

Lemma execute_broadcast_ok c acked clock0 clock send_time send_ok m st peer backoff net :
  let s := mp_transactions m in let count := cfg_shared_mempool_batch_size c in
  ni_mempool_config net = c → sync_states net !! peer = Some st →
  store_inv 0 0 s → 0 < count < 2 ^ 64 → peer_ok count acked clock0 s st → ack_deadline c clock0 <= SYSTEM_TIME_MAX →
  clock0 <= send_time →
  ∃ r st', execute_broadcast m clock send_time send_ok peer backoff net = (r, with_peer net peer st') ∧
    r ≠ Panic ∧ peer_ok count acked send_time s st' ∧
    broadcast_result c clock send_time send_ok m st peer backoff net r st'.
Proof.
  intros s count Hcfg Hst Hinv Hcount Hok Hmax Hsend. unfold execute_broadcast.
  assert (peer_ok count acked send_time s st) as Hok0 by by eapply peer_clock.
  destruct (determine_ok c acked clock0 clock m st peer backoff net) as
    [(e & Hdet & Hcase)|(info' & r & Hprio & Hback & Hdet & Hsync & Hok' & Hchoice)]; try done.
  { exists (Err e), st. rewrite with_peer_same by done. unfold mbind, M_bind. rewrite Hdet. split_and!; try done.
    destruct Hcase as [?|(? & -> & ? & ?)]; [by constructor|by apply not_scheduled]. }
  assert (peer_ok count acked send_time s (with_info st info')) as Hok1 by by eapply peer_clock.
  destruct r as [[[id txns] label]|e|]; [|exists (Err e), (with_info st info')|done].
  - rewrite (M_run_bind _ _ _ _ _ Hdet). destruct send_ok; cbn [ensure].
    + rewrite (mlift_bind _ ()) by done. exists (Ok (id, txns)), (sent_state (with_info st info') id send_time).
      split_and!; [|done| |by eapply was_sent].
      * unfold update_broadcast_state. unfold mbind at 1. unfold M_bind at 1. rewrite mget_bind. cbn [sync_states with_peer with_sync_states].
        rewrite lookup_insert_eq. cbn [ok_or]. rewrite (mlift_bind _ (with_info st info')) by done. rewrite mput_bind.
        unfold mret at 1, M_ret at 1. rewrite with_peer_twice. done.
      * eapply sent_ok; [exact Hok'| |done]. by destruct Hchoice as (_ & _ & _ & ? & _).
    + exists (Err (NetworkError peer)), (with_info st info'). split_and!; [done|done|done|by eapply not_sent].
  - unfold mbind, M_bind. rewrite Hdet. split_and!; [done|done|done|by eapply not_chosen].
Qed.
End peers.
