(* ===== verification/SharedMempoolRun.v ===== *)
(** * Shared mempool: runs of a node

    The coordinator of a node with its peers, clients, consensus and timers in any order. In every
    run no handler panics, no transaction that is ready for broadcast is forgotten, each connected
    peer has a broadcast scheduled, and what is sent respects the limits. *)
From S2P Require Import Prelude Crypto BTree MempoolIndex MempoolStore MempoolInv MempoolOps MempoolBatch MempoolTimeline MempoolRun SharedMempool SharedMempoolInv.
Local Open Scope N_scope.

Section run.
Context `{!TransactionTypes, !TransactionEncoding, !PeerHasher, !DiscardedStatuses, !Workload}.
Implicit Types (co : Coordinator) (m : Mempool) (smp : SharedMempool).

(** ** Changes of the mempool

    Sequences of operations keep its invariant; ids are used up by the number of operations. *)
Definition room (k : nat) m : Prop :=
  ∀ b, next_id (timeline_index (mp_transactions m)) b + N.of_nat k * capacity_per_user (mp_transactions m) < 2 ^ 64.
Definition mempool_step (c : MempoolConfig) m m' : Prop :=
  mempool_inv c m' ∧ evolves (mp_transactions m) (mp_transactions m') ∧
  mp_system_transaction_timeout m' = mp_system_transaction_timeout m.
Lemma mempool_step_refl c m : mempool_inv c m → mempool_step c m m.
Proof. done. Qed.
Lemma mempool_step_trans c m m1 m2 : mempool_step c m m1 → mempool_step c m1 m2 → mempool_step c m m2.
Proof. intros (_ & Hev & Ht) (Hinv & Hev' & Ht'). split_and!; [done|by etrans|congruence]. Qed.

Lemma mempool_exec_timeout op m r m' :
  mempool_exec op m = Ok (r, m') → mp_system_transaction_timeout m' = mp_system_transaction_timeout m.
Proof.
  destruct op as [now rng t score info state|a n|a n h|now|now]; cbn [mempool_exec].
  - unfold add_txn. destruct (_ <? _); [run_ok; by intros [= <- <-]|].
    destruct (duration_add now _) as [exp| |]; run_ok; [|done..].
    destruct (store_insert _ _ _) as [[status s']| |]; run_ok; [|done..]. by intros [= <- <-].
  - unfold commit_transaction. destruct (store_commit_transaction _ _ _) as [s'| |]; run_ok; [|done..]. by intros [= <- <-].
  - unfold reject_transaction. destruct (store_reject_transaction _ _ _ _) as [s'| |]; run_ok; [|done..]. by intros [= <- <-].
  - unfold mempool_gc. destruct (gc_by_system_ttl _ _) as [s'| |]; run_ok; [|done..]. by intros [= <- <-].
  - unfold gc_by_expiration_time. destruct (store_gc_by_expiration_time _ _) as [s'| |]; run_ok; [|done..]. by intros [= <- <-].
Qed.
Lemma room_ids_left k m : room (S k) m → ids_left (mp_transactions m).
Proof. intros Hr b. specialize (Hr b). lia. Qed.
Lemma exec_step c op m :
  config_ok c → mempool_inv c m → mempool_allowed op m →
  ∃ r m', mempool_exec op m = Ok (r, m') ∧ mempool_step c m m' ∧ ∀ k, room (S k) m → room k m'.
Proof.
  intros Hc Hinv Hop. destruct (mempool_exec_ok c op m Hc Hinv Hop) as (r & m' & Hrun & Hinv' & Hev & _ & Hnext).
  exists r, m'. split; [done|]. split; [split_and!; [done|done|by eapply mempool_exec_timeout]|].
  intros k Hr b. specialize (Hr b). specialize (Hnext b).
  destruct Hev as (_ & _ & -> & _). lia.
Qed.

(** ** Tasks *)

(** What a task may read: a database with a state checkpoint, validated transactions of the
    workload, a clock that does not run out *)
Record reads_ok (m : Mempool) (reads : TaskReads) : Prop := {
  rd_view : is_Some (tr_state_view reads);
  rd_valid t r : tr_validate reads t = Some r → vr_status r = None → legit t;
  rd_now i : tr_now reads i + mp_system_transaction_timeout m <= DURATION_MAX;
}.
Lemma reads_ok_step c m m' reads : mempool_step c m m' → reads_ok m reads → reads_ok m' reads.
Proof. intros (_ & _ & Ht) [Hv Hl Hn]. split; [done|done|]. by rewrite Ht. Qed.

Lemma add_transactions_ok c reads ts st : ∀ i statuses m,
  config_ok c → mempool_inv c m → reads_ok m reads → (∀ id, st ≠ Ready id) → room (length ts) m →
  ∃ more m', add_transactions reads i ts st statuses m = Ok (statuses ++ more, m') ∧
             more.*1 = ts.*1 ∧ mempool_step c m m'.
Proof.
  induction ts as [|[t info] ts IH]; intros i statuses m Hc Hinv Hreads Hst Hroom; cbn [add_transactions].
  { exists [], m. rewrite app_nil_r. done. }
  assert (room (length ts) m) as Hroom'.
  { intros b. specialize (Hroom b). cbn [length] in Hroom. lia. }
  assert (∀ status, ∃ more m', add_transactions reads (S i) ts st (statuses ++ [(t, status)]) m = Ok (statuses ++ more, m') ∧
            more.*1 = t :: ts.*1 ∧ mempool_step c m m') as Hskip.
  { intros status. destruct (IH (S i) (statuses ++ [(t, status)]) m Hc Hinv Hreads Hst Hroom') as (more & m' & -> & Hm & Hs).
    exists ((t, status) :: more), m'. rewrite <- app_assoc. cbn. by rewrite Hm. }
  destruct (tr_validate reads t) as [res|] eqn:Hval; [|apply Hskip].
  destruct (vr_status res) as [vs|] eqn:Hvs; [apply Hskip|].
  destruct (exec_step c (AddTxn (tr_now reads i) (tr_rng reads i) t (vr_score res) info st) m Hc Hinv) as (r & m1 & Hrun & Hs1 & Hroom1).
  { split_and!; [by eapply rd_valid|done|apply Hreads|by eapply room_ids_left]. }
  cbn [mempool_exec] in Hrun. apply bind_Ok in Hrun as ([status m1'] & -> & [= <- <-]). run_ok.
  destruct (IH (S i) (statuses ++ [(t, (status, None))]) m1') as (more & m' & -> & Hm & Hs); [done|apply Hs1| |done|by apply Hroom1|].
  { by eapply reads_ok_step. }
  exists ((t, (status, None)) :: more), m'. rewrite <- app_assoc. cbn. rewrite Hm.
  split_and!; [done|done|by eapply mempool_step_trans].
Qed.
Lemma filter_sequence_numbers_ok view ts kept statuses :
  filter_sequence_numbers view ts = (kept, statuses) → kept.*1 ++ statuses.*1 ≡ₚ ts.
Proof.
  revert kept statuses. induction ts as [|t ts IH]; intros kept statuses; cbn; [by intros [= <- <-]|].
  destruct (filter_sequence_numbers view ts) as [kept' statuses']. specialize (IH _ _ eq_refl).
  destruct (view (sender t)) as [info|]; [destruct (_ <=? _)|]; intros [= <- <-]; cbn; rewrite <- ?Permutation_middle, IH; done.
Qed.
Lemma process_incoming_ok c reads ts st smp :
  config_ok c → mempool_inv c (smp_mempool smp) → reads_ok (smp_mempool smp) reads → (∀ id, st ≠ Ready id) →
  room (length ts) (smp_mempool smp) →
  ∃ statuses m', process_incoming_transactions reads ts st smp = Ok (statuses, with_mempool smp m') ∧
    statuses.*1 ≡ₚ ts ∧ mempool_step c (smp_mempool smp) m'.
Proof.
  intros Hc Hinv Hreads Hst Hroom. unfold process_incoming_transactions. destruct (rd_view _ _ Hreads) as [view ->]. run_ok.
  destruct (filter_sequence_numbers view ts) as [kept statuses] eqn:Hf. apply filter_sequence_numbers_ok in Hf.
  destruct (add_transactions_ok c reads kept st 0 statuses (smp_mempool smp)) as (more & m' & -> & Hm & Hs); try done.
  { apply Permutation_length in Hf. rewrite length_app, !length_fmap in Hf. intros b. specialize (Hroom b).
    assert (N.of_nat (length kept) <= N.of_nat (length ts)) as Hle by lia.
    pose proof (N.mul_le_mono_r _ _ (capacity_per_user (mp_transactions (smp_mempool smp))) Hle). lia. }
  run_ok. exists (statuses ++ more), m'. split_and!; [done| |done]. rewrite fmap_app, Hm. by rewrite (Permutation_app_comm).
Qed.

Lemma commit_transactions_ok c ts m :
  config_ok c → mempool_inv c m → Forall (λ t, t.2 < U64_MAX) ts → room (length ts) m →
  ∃ m', commit_transactions ts m = Ok m' ∧ mempool_step c m m'.
Proof.
  intros Hc Hinv Hts. revert m Hinv. induction Hts as [|[a n] ts Hn Hts IH]; intros m Hinv Hroom; cbn [commit_transactions].
  { by exists m. }
  destruct (exec_step c (CommitTxn a n) m Hc Hinv) as (r & m1 & Hrun & Hs1 & Hroom1); [split; [done|by eapply room_ids_left]|].
  cbn [mempool_exec] in Hrun. apply bind_Ok in Hrun as (m1' & -> & [= <- <-]). run_ok.
  destruct (IH m1') as (m' & -> & Hs); [apply Hs1|by apply Hroom1|]. exists m'. split; [done|by eapply mempool_step_trans].
Qed.
Lemma reject_transactions_ok c ts m :
  config_ok c → mempool_inv c m → ∃ m', reject_transactions ts m = Ok m' ∧ mempool_step c m m'.
Proof.
  intros Hc. revert m. induction ts as [|t ts IH]; intros m Hinv; cbn [reject_transactions]; [by exists m|].
  destruct (exec_step c (RejectTxn (rts_sender t) (rts_sequence_number t) (rts_hash t)) m Hc Hinv I) as (r & m1 & Hrun & Hs1 & _).
  cbn [mempool_exec] in Hrun. apply bind_Ok in Hrun as (m1' & -> & [= <- <-]). run_ok.
  destruct (IH m1') as (m' & -> & Hs); [apply Hs1|]. exists m'. split; [done|by eapply mempool_step_trans].
Qed.
Lemma gc_by_expiration_step c now m :
  config_ok c → mempool_inv c m → ∃ m', gc_by_expiration_time now m = Ok m' ∧ mempool_step c m m'.
Proof.
  intros Hc Hinv. destruct (exec_step c (GcByExpiration now) m Hc Hinv I) as (r & m1 & Hrun & Hs1 & _).
  cbn [mempool_exec] in Hrun. apply bind_Ok in Hrun as (m1' & -> & [= <- <-]). eauto.
Qed.
Lemma mempool_gc_step c now m :
  config_ok c → mempool_inv c m → ∃ m', mempool_gc now m = Ok m' ∧ mempool_step c m m'.
Proof.
  intros Hc Hinv. destruct (exec_step c (Gc now) m Hc Hinv I) as (r & m1 & Hrun & Hs1 & _).
  cbn [mempool_exec] in Hrun. apply bind_Ok in Hrun as (m1' & -> & [= <- <-]). eauto.
Qed.

(** ** Prioritized peers *)
Definition peer_roles (net : MempoolNetworkInterface) : gmap PeerNetworkId PeerRole :=
  (λ st, cm_role (ps_metadata st)) <$> sync_states net.
(** On a full node the peers are listed in the order of preference. *)
Definition prioritized_ok (net : MempoolNetworkInterface) : Prop :=
  role_is_validator (ni_role net) = false →
  ∃ l, l ≡ₚ map_to_list (peer_roles net) ∧ StronglySorted prioritized_le l ∧ prioritized_peers net = l.*1.
#[local] Instance prioritized_le_total : Total prioritized_le.
Proof.
  intros [[n a] r] [[n' a'] r']. unfold prioritized_le, prioritized_compare. cbn.
  rewrite (N.compare_antisym (network_id_rank n)), (N.compare_antisym (peer_role_rank r)), (N.compare_antisym (hash_peer_id a)).
  destruct (network_id_rank n ?= network_id_rank n'), (peer_role_rank r ?= peer_role_rank r'),
    (hash_peer_id a ?= hash_peer_id a'); cbn; auto.
Qed.
#[local] Instance prioritized_le_trans : Transitive prioritized_le.
Proof.
  intros [[n1 a1] r1] [[n2 a2] r2] [[n3 a3] r3]. unfold prioritized_le, prioritized_compare. cbn.
  destruct (N.compare_spec (network_id_rank n1) (network_id_rank n2)), (N.compare_spec (network_id_rank n2) (network_id_rank n3)),
    (N.compare_spec (network_id_rank n1) (network_id_rank n3)); try lia; try done;
  destruct (N.compare_spec (peer_role_rank r1) (peer_role_rank r2)), (N.compare_spec (peer_role_rank r2) (peer_role_rank r3)),
    (N.compare_spec (peer_role_rank r1) (peer_role_rank r3)); try lia; try done;
  destruct (N.compare_spec (hash_peer_id a1) (hash_peer_id a2)), (N.compare_spec (hash_peer_id a2) (hash_peer_id a3)),
    (N.compare_spec (hash_peer_id a1) (hash_peer_id a3)); try lia; done.
Qed.
Lemma update_prioritized_ok net : prioritized_ok (update_prioritized_peers net).
Proof.
  unfold prioritized_ok, update_prioritized_peers. destruct (role_is_validator (ni_role net)) eqn:Hr; [congruence|]. intros _.
  cbn. eexists. split_and!; [|apply StronglySorted_merge_sort; apply _|done].
  rewrite merge_sort_Permutation. unfold peer_roles. cbn. by rewrite map_to_list_fmap.
Qed.
Lemma update_prioritized_same net :
  sync_states (update_prioritized_peers net) = sync_states net ∧
  ni_mempool_config (update_prioritized_peers net) = ni_mempool_config net ∧
  ni_role (update_prioritized_peers net) = ni_role net.
Proof. unfold update_prioritized_peers. by destruct (role_is_validator (ni_role net)). Qed.
Lemma with_peer_prioritized net peer st st' :
  sync_states net !! peer = Some st → ps_metadata st' = ps_metadata st →
  prioritized_ok net → prioritized_ok (with_peer net peer st').
Proof.
  intros Hst Hmd Hok Hr. destruct (Hok Hr) as (l & Hl & Hs & Hp). exists l. split_and!; [|done|done]. rewrite Hl.
  enough (peer_roles (with_peer net peer st') = peer_roles net) as -> by done. unfold peer_roles. cbn.
  rewrite fmap_insert, insert_id; [done|]. rewrite lookup_fmap, Hst. cbn. by rewrite Hmd.
Qed.

(** ** The run *)

(** For each peer the batches it acknowledged without asking for a retry, since it connected *)
Abbreviation Acked := (gmap PeerNetworkId (list (list (N * N)))).
Definition acked_by (acked : Acked) (peer : PeerNetworkId) : list (list (N * N)) := default [] (acked !! peer).
Definition acked_after (event : CoordinatorEvent) co (acked : Acked) : Acked :=
  match event with
  | NetworkNotification _ _ network_id (NewPeer metadata) =>
      let peer := mkPeerNetworkId network_id (cm_remote_peer_id metadata) in
      if sync_states_exists (co_network co) peer then acked else delete peer acked
  | NetworkNotification _ _ network_id (LostPeer metadata) =>
      delete (mkPeerNetworkId network_id (cm_remote_peer_id metadata)) acked
  | NetworkNotification _ _ network_id (Message peer_id (BroadcastTransactionsResponse id false _)) =>
      let peer := mkPeerNetworkId network_id peer_id in
      match sync_states (co_network co) !! peer with
      | Some st =>
          match batches_remove id (sent_batches (ps_broadcast_info st)) with
          | (Some _, _) => <[peer := id :: acked_by acked peer]> acked
          | (None, _) => acked
          end
      | None => acked
      end
  | _ => acked
  end.

(** The system clock does not go back, and neither it nor the instants run out. *)
Record broadcast_reads_ok (c : MempoolConfig) (clock : SystemTime) (reads : BroadcastReads) : Prop := {
  bro_send : clock <= br_send_time reads;
  bro_deadline : ack_deadline c (br_send_time reads) <= SYSTEM_TIME_MAX;
  bro_backoff : br_instant reads + duration_from_millis (cfg_shared_mempool_backoff_interval_ms c) <= SYSTEM_TIME_MAX;
  bro_tick : br_instant reads + duration_from_millis (cfg_shared_mempool_tick_interval_ms c) <= SYSTEM_TIME_MAX;
}.
(** Peers acknowledge with ids of as many buckets as they are sent. *)
Definition event_allowed (c : MempoolConfig) (clock : SystemTime) (event : CoordinatorEvent) co : Prop :=
  let m := smp_mempool (co_smp co) in
  match event with
  | GetBatchRequest _ max_bytes _ _ => max_bytes < 2 ^ 63
  | CommitNotification ts _ => Forall (λ t, t.2 < U64_MAX) ts ∧ room (length ts) m
  | BroadcastReady _ reads => broadcast_reads_ok c clock reads
  | NetworkNotification reads _ _ (NewPeer _) => broadcast_reads_ok c clock reads
  | NetworkNotification _ ack_timestamp _ (Message _ (BroadcastTransactionsResponse id _ _)) =>
      clock <= ack_timestamp ∧ ack_deadline c ack_timestamp <= SYSTEM_TIME_MAX ∧ length id = length (cfg_broadcast_buckets c)
  | TaskRuns index reads _ =>
      reads_ok m reads ∧
      match co_tasks co !! index with
      | Some (SubmissionTask _) => room 1 m
      | Some (BroadcastTask ts _ _ _) => room (length ts) m
      | _ => True
      end
  | _ => True
  end.
Definition clock_after (event : CoordinatorEvent) (clock : SystemTime) : SystemTime :=
  match event with
  | BroadcastReady _ reads => br_send_time reads
  | NetworkNotification reads _ _ (NewPeer _) => br_send_time reads
  | NetworkNotification _ ack_timestamp _ (Message _ (BroadcastTransactionsResponse _ _ _)) => ack_timestamp
  | _ => clock
  end.
Record node_config_ok (c : MempoolConfig) : Prop := {
  nco_config : config_ok c;
  nco_batch : 0 < cfg_shared_mempool_batch_size c < 2 ^ 64;
  nco_timeout : ack_deadline c 0 <= SYSTEM_TIME_MAX;
}.
Inductive node_reachable (c : MempoolConfig) (role : RoleType) : Coordinator → Acked → SystemTime → Prop :=
| node_new co : coordinator_new c role = Ok co → node_reachable c role co ∅ 0
| node_step co acked clock event out co' :
    node_reachable c role co acked clock → event_allowed c clock event co →
    coordinator_step event co = Ok (out, co') →
    node_reachable c role co' (acked_after event co acked) (clock_after event clock).

(** ** The invariant *)
Definition task_ok (task : Task) : Prop :=
  match task with BroadcastTask _ _ st _ => ∀ id, st ≠ Ready id | _ => True end.
Definition peers_ok (c : MempoolConfig) (acked : Acked) (clock : SystemTime) m (net : MempoolNetworkInterface) : Prop :=
  ∀ peer st, sync_states net !! peer = Some st →
    peer_ok (cfg_shared_mempool_batch_size c) (acked_by acked peer) clock (mp_transactions m) st.
Definition all_scheduled (co : Coordinator) : Prop :=
  ∀ peer, is_Some (sync_states (co_network co) !! peer) →
    ∃ sb, sb ∈ co_scheduled_broadcasts co ∧ sb_peer sb = peer.
Record node_core (c : MempoolConfig) (role : RoleType) (acked : Acked) (clock : SystemTime) co : Prop := {
  ni_mempool : mempool_inv c (smp_mempool (co_smp co));
  ni_positive : ids_positive (mp_transactions (smp_mempool (co_smp co)));
  ni_config : ni_mempool_config (co_network co) = c;
  ni_role_ok : ni_role (co_network co) = role;
  ni_peers : peers_ok c acked clock (smp_mempool (co_smp co)) (co_network co);
  ni_prioritized : prioritized_ok (co_network co);
  ni_tasks : Forall task_ok (co_tasks co);
  ni_clock : ack_deadline c clock <= SYSTEM_TIME_MAX;
}.
Definition node_inv (c : MempoolConfig) (role : RoleType) (acked : Acked) (clock : SystemTime) co : Prop :=
  node_core c role acked clock co ∧ all_scheduled co.

Lemma core_mempool c role acked clock co m' :
  node_core c role acked clock co → mempool_step c (smp_mempool (co_smp co)) m' →
  node_core c role acked clock (with_smp co (with_mempool (co_smp co) m')).
Proof.
  intros [Hm Hpos Hcfg Hrole Hpeers Hprio Htasks Hclock] (Hm' & Hev & _). split; cbn; try done.
  - eapply ids_positive_evolves; [done|apply Hm'|done].
  - intros peer st Hst. eapply peer_evolves; [apply Hm'|done|by apply Hpeers].
Qed.
Lemma core_network c role acked clock acked' clock' co net' :
  node_core c role acked clock co → ack_deadline c clock' <= SYSTEM_TIME_MAX →
  ni_mempool_config net' = ni_mempool_config (co_network co) → ni_role net' = ni_role (co_network co) →
  peers_ok c acked' clock' (smp_mempool (co_smp co)) net' → prioritized_ok net' →
  node_core c role acked' clock' (with_net co net').
Proof. intros [Hm Hpos Hcfg Hrole Hpeers Hprio Htasks Hclock] ? ? ? ? ?. split; cbn; congruence || done. Qed.
Lemma core_tasks c role acked clock co tasks sched :
  node_core c role acked clock co → Forall task_ok tasks →
  node_core c role acked clock {| co_smp := co_smp co; co_scheduled_broadcasts := sched; co_tasks := tasks |}.
Proof. intros [Hm Hpos Hcfg Hrole Hpeers Hprio _ Hclock] ?. by split. Qed.
Lemma core_spawn c role acked clock co task :
  node_inv c role acked clock co → task_ok task → node_inv c role acked clock (spawn task co).
Proof.
  intros [Hcore Hs] Ht. split; [|done]. apply core_tasks; [done|]. apply Forall_app. split; [apply Hcore|]. by repeat constructor.
Qed.
Lemma inv_mempool c role acked clock co m' :
  node_inv c role acked clock co → mempool_step c (smp_mempool (co_smp co)) m' →
  node_inv c role acked clock (with_smp co (with_mempool (co_smp co) m')).
Proof. intros [Hcore Hs] Hm. split; [by apply core_mempool|done]. Qed.
Lemma peers_ok_clock c acked clock clock' m net :
  clock <= clock' → peers_ok c acked clock m net → peers_ok c acked clock' m net.
Proof. intros Hle Hp peer st Hst. eapply peer_clock; [done|]. by apply Hp. Qed.
Lemma core_clock c role acked clock clock' co :
  node_core c role acked clock co → clock <= clock' → ack_deadline c clock' <= SYSTEM_TIME_MAX →
  node_core c role acked clock' co.
Proof.
  intros [Hm Hpos Hcfg Hrole Hpeers Hprio Htasks Hclock] Hle Hmax. split; try done. by eapply peers_ok_clock.
Qed.
Lemma peers_ok_update c acked clock m net peer st acked' :
  peers_ok c acked clock m net → (∀ p, p ≠ peer → acked_by acked' p = acked_by acked p) →
  peer_ok (cfg_shared_mempool_batch_size c) (acked_by acked' peer) clock (mp_transactions m) st →
  peers_ok c acked' clock m (with_peer net peer st).
Proof.
  intros Hp Ha Hst p st' Hl. cbn in Hl. destruct (decide (p = peer)) as [->|Hne].
  - rewrite lookup_insert_eq in Hl. by simplify_eq.
  - rewrite lookup_insert_ne in Hl by done. rewrite Ha by done. by apply Hp.
Qed.

(** *** Broadcasts *)

(** A request that leaves the node has the transactions of its batch, no more than the limit. *)
Definition request_ok (c : MempoolConfig) m (out : Output) : Prop :=
  match out with
  | ToPeer _ (BroadcastTransactionsRequest id txns) =>
      txns ≠ [] ∧ lenN txns <= cfg_shared_mempool_batch_size c ∧ batch_of (mp_transactions m) id txns
  | _ => True
  end.
Lemma result_metadata c clock send_time send_ok m st peer backoff net r st' :
  broadcast_result c clock send_time send_ok m st peer backoff net r st' → ps_metadata st' = ps_metadata st.
Proof. by destruct 1. Qed.
Lemma schedule_ok c clock reads (backoff : bool) :
  broadcast_reads_ok c clock reads →
  ∃ d, system_time_add (E := Infallible) (br_instant reads) (duration_from_millis
         (if backoff then cfg_shared_mempool_backoff_interval_ms c else cfg_shared_mempool_tick_interval_ms c)) = Ok d.
Proof.
  intros Hreads. unfold system_time_add. pose proof (bro_backoff _ _ _ Hreads). pose proof (bro_tick _ _ _ Hreads).
  destruct backoff; (case_N; [eauto|lia]).
Qed.
Lemma broadcast_ok c role acked clock co reads peer backoff :
  node_config_ok c → node_core c role acked clock co → broadcast_reads_ok c clock reads →
  (∀ p, p ≠ peer → is_Some (sync_states (co_network co) !! p) → ∃ sb, sb ∈ co_scheduled_broadcasts co ∧ sb_peer sb = p) →
  ∃ out co', broadcast_and_reschedule reads peer backoff co = Ok (out, co') ∧
    node_inv c role acked (br_send_time reads) co' ∧ Forall (request_ok c (smp_mempool (co_smp co))) out.
Proof.
  intros Hc Hcore Hreads Hsched. unfold broadcast_and_reschedule, sync_states_exists.
  set (net := co_network co) in *. set (m := smp_mempool (co_smp co)).
  destruct (sync_states net !! peer) as [st|] eqn:Hst; cycle 1.
  { exists [], co. split; [done|]. split; [|done]. split; [|intros p Hp; apply Hsched; [|done]; intros ->; unfold net in Hst; by rewrite Hst in Hp; destruct Hp].
    by eapply core_clock; [|apply Hreads..]. }
  destruct (execute_broadcast_ok c (acked_by acked peer) clock (br_clock reads) (br_send_time reads) (br_send_ok reads) m st peer backoff net)
    as (r & st' & Hrun & Hnp & Hok & Hres).
  { apply Hcore. } { done. } { apply Hcore. } { apply Hc. } { by apply Hcore. } { apply Hcore. } { apply Hreads. }
  fold m. rewrite Hrun.
  destruct (schedule_ok c clock reads (is_backoff_mode (with_peer net peer st') peer) Hreads) as [d Hd].
  change (ni_mempool_config (with_peer net peer st')) with (ni_mempool_config net). rewrite (ni_config _ _ _ _ _ Hcore : ni_mempool_config net = c).
  assert (node_core c role acked (br_send_time reads) (with_net co (with_peer net peer st'))) as Hcore'.
  { eapply core_network; [done|apply Hreads|done|done| |].
    - eapply peers_ok_update; [eapply peers_ok_clock; [apply Hreads|apply Hcore]|done|done].
    - eapply with_peer_prioritized; [done|by eapply result_metadata|apply Hcore]. }
  assert (∀ l, all_scheduled {| co_smp := with_network (co_smp co) (with_peer net peer st');
             co_scheduled_broadcasts := co_scheduled_broadcasts co ++ [{| sb_deadline := d; sb_peer := peer; sb_backoff := l |}]; co_tasks := co_tasks co |}) as Hall.
  { intros l p [st0 Hp]. cbn in Hp |- *. setoid_rewrite elem_of_app. destruct (decide (p = peer)) as [->|Hne].
    - eexists. split; [right; by left|done].
    - rewrite lookup_insert_ne in Hp by done. destruct (Hsched p Hne) as (sb & ? & ?); [by eexists|]. exists sb. auto. }
  destruct r as [[id txns]|e|]; [| |done]; rewrite Hd; run_ok; (eexists _, _; split; [done|]; split; [split; [apply core_tasks with (co := with_net co (with_peer net peer st')); [done|apply Hcore]|done]|]).
  - constructor; [|done]. inversion Hres as [| | | |info' ? ? ? _ _ _ (? & ? & ? & _)]; subst. done.
  - done.
Qed.

(** *** Peers come and go *)
Lemma update_prioritized_peers_ok c acked clock m net :
  peers_ok c acked clock m net → peers_ok c acked clock m (update_prioritized_peers net).
Proof. intros Hp peer st. destruct (update_prioritized_same net) as (-> & _ & _). apply Hp. Qed.
Lemma acked_by_delete acked peer p : acked_by (delete peer acked) p = if decide (p = peer) then [] else acked_by acked p.
Proof. unfold acked_by. case_decide; [subst; by rewrite lookup_delete_eq|by rewrite lookup_delete_ne]. Qed.
Lemma add_peer_ok c role acked clock co peer metadata is_new net' :
  node_inv c role acked clock co → add_peer peer metadata (co_network co) = (is_new, net') →
  let acked' := if sync_states_exists (co_network co) peer then acked else delete peer acked in
  node_core c role acked' clock (with_net co net') ∧
  (is_new = true → is_upstream_peer net' peer (Some metadata) = true → is_Some (sync_states net' !! peer)) ∧
  (∀ p, is_Some (sync_states net' !! p) →
    (∃ sb, sb ∈ co_scheduled_broadcasts co ∧ sb_peer sb = p) ∨
    (p = peer ∧ is_new = true ∧ is_upstream_peer net' peer (Some metadata) = true)).
Proof.
  intros [Hcore Hsched] Hadd acked'. set (net := co_network co) in *. unfold add_peer in Hadd.
  pose proof (ni_mempool _ _ _ _ _ Hcore) as Hm. pose proof (ni_positive _ _ _ _ _ Hcore) as Hpos.
  assert (∀ n1, ni_mempool_config n1 = ni_mempool_config net → ni_role n1 = ni_role net →
    peers_ok c acked' clock (smp_mempool (co_smp co)) n1 → node_core c role acked' clock (with_net co (update_prioritized_peers n1))) as Hnet.
  { intros n1 Hc1 Hr1 Hp1. destruct (update_prioritized_same n1) as (_ & Hc2 & Hr2).
    eapply core_network; [done|apply Hcore|by rewrite Hc2|by rewrite Hr2|by apply update_prioritized_peers_ok|apply update_prioritized_ok]. }
  assert (∀ n1, sync_states (update_prioritized_peers n1) = sync_states n1) as Hsame by apply update_prioritized_same.
  destruct (is_upstream_peer net peer (Some metadata)) eqn:Hup; unfold sync_states_exists in *;
    destruct (sync_states net !! peer) as [st|] eqn:Hst; cbn [negb] in Hadd; injection Hadd as <- <-; unfold acked' in *; clear acked'.
  - split_and!; [|done|].
    + apply Hnet; [done|done|]. eapply peers_ok_update; [apply Hcore|done|]. by destruct (ni_peers _ _ _ _ _ Hcore peer st Hst).
    + intros p [st' Hp]. rewrite Hsame in Hp. cbn in Hp. left. apply Hsched. fold net.
      destruct (decide (p = peer)) as [->|]; [by eexists|]. rewrite lookup_insert_ne in Hp by done. by eexists.
  - split_and!.
    + apply Hnet; [done|done|]. eapply peers_ok_update; [apply Hcore| |].
      * intros p Hne. rewrite acked_by_delete. by rewrite decide_False.
      * rewrite acked_by_delete, decide_True by done.
        rewrite (ni_config _ _ _ _ _ Hcore : ni_mempool_config net = c), <- (mi_buckets _ _ Hm). by apply peer_new_ok; [apply Hm|].
    + intros _ _. rewrite Hsame. cbn. rewrite lookup_insert_eq. by eexists.
    + intros p [st' Hp]. rewrite Hsame in Hp. cbn in Hp. destruct (decide (p = peer)) as [->|]; [by right|].
      rewrite lookup_insert_ne in Hp by done. left. apply Hsched. by eexists.
  - split_and!; [apply Hnet; [done|done|apply Hcore]|done|]. intros p Hp. rewrite Hsame in Hp. left. by apply Hsched.
  - split_and!; [| |intros p Hp; rewrite Hsame in Hp; left; by apply Hsched].
    + apply Hnet; [done|done|]. intros p st Hp. rewrite acked_by_delete. case_decide; [subst; congruence|]. by apply Hcore.
    + intros _. unfold is_upstream_peer in *. destruct (is_validator_network _); congruence.
Qed.
Lemma disable_peer_ok c role acked clock co peer :
  node_inv c role acked clock co → node_inv c role (delete peer acked) clock (with_net co (disable_peer peer (co_network co))).
Proof.
  intros [Hcore Hsched]. unfold disable_peer. set (n1 := with_sync_states _ _). destruct (update_prioritized_same n1) as (Hs & Hc & Hr).
  split.
  - eapply core_network; [done|apply Hcore|by rewrite Hc|by rewrite Hr| |apply update_prioritized_ok].
    apply update_prioritized_peers_ok. intros p st Hp. cbn in Hp. apply lookup_delete_Some in Hp as [Hne Hp].
    rewrite acked_by_delete, decide_False by done. by apply Hcore.
  - intros p Hp. cbn in Hp. rewrite Hs in Hp. destruct Hp as [st Hp]. cbn in Hp. apply lookup_delete_Some in Hp as [_ Hp].
    apply Hsched. by eexists.
Qed.
Lemma process_ack_ok c role acked clock co network_id peer_id id retry backoff reads timestamp :
  node_inv c role acked clock co → clock <= timestamp → ack_deadline c timestamp <= SYSTEM_TIME_MAX →
  length id = length (cfg_broadcast_buckets c) →
  let event := NetworkNotification reads timestamp network_id (Message peer_id (BroadcastTransactionsResponse id retry backoff)) in
  ∃ net', process_broadcast_ack (mkPeerNetworkId network_id peer_id) id retry backoff timestamp (co_network co) = Ok net' ∧
    node_inv c role (acked_after event co acked) timestamp (with_net co net').
Proof.
  intros [Hcore Hsched] Hclock Hmax Hid event. set (peer := mkPeerNetworkId network_id peer_id). set (net := co_network co) in *.
  assert (node_inv c role acked timestamp (with_net co net)) as Hsame.
  { split; [|done]. eapply core_network; [done|done|done|done| |apply Hcore]. eapply peers_ok_clock; [done|apply Hcore]. }
  unfold process_broadcast_ack, event, acked_after. fold peer net. destruct (sync_states net !! peer) as [st|] eqn:Hst; cycle 1.
  { exists net. split; [done|]. by destruct retry. }
  destruct (batches_remove id (sent_batches (ps_broadcast_info st))) as [[t|] sent] eqn:Hr; cycle 1.
  { exists net. split; [done|]. by destruct retry. }
  pose proof (ni_peers _ _ _ _ _ Hcore peer st Hst) as Hok.
  destruct (ack_ok _ _ _ _ _ id t sent retry (backoff || backoff_mode (ps_broadcast_info st)) Hok) as [Ht Hok']; [|done|].
  { rewrite (po_length _ _ _ _ _ Hok), (mi_buckets _ _ (ni_mempool _ _ _ _ _ Hcore)). done. }
  unfold rassert. destruct (N.leb_spec t timestamp); [|lia]. run_ok. eexists. split; [done|]. split.
  - eapply core_network; [done|done|done|done| |].
    + eapply peers_ok_update; [eapply peers_ok_clock; [exact Hclock|apply Hcore]| |].
      * intros p Hne. destruct retry; [done|]. unfold acked_by. by rewrite lookup_insert_ne.
      * eapply peer_clock; [exact Hclock|]. destruct retry; [done|]. unfold acked_by. rewrite lookup_insert_eq. done.
    + eapply with_peer_prioritized; [done|done|apply Hcore].
  - intros p Hp. cbn in Hp |- *. apply Hsched. fold net. destruct (decide (p = peer)) as [->|]; [by eexists|].
    by rewrite lookup_insert_ne in Hp.
Qed.

(** *** One event *)
Definition step_post c role acked clock event co (r : outcome Infallible (list Output * Coordinator)) : Prop :=
  ∃ out co', r = Ok (out, co') ∧ node_inv c role (acked_after event co acked) (clock_after event clock) co' ∧
             Forall (request_ok c (smp_mempool (co_smp co))) out.

Lemma handle_network_event_ok c role acked clock co reads timestamp network_id ev :
  node_config_ok c → node_inv c role acked clock co →
  event_allowed c clock (NetworkNotification reads timestamp network_id ev) co →
  step_post c role acked clock (NetworkNotification reads timestamp network_id ev) co
    (handle_network_event reads timestamp network_id ev co).
Proof.
  intros Hc Hinv Hallowed. destruct ev as [md|md|peer_id msg|peer_id]; cbn [handle_network_event].
  - set (peer := mkPeerNetworkId network_id (cm_remote_peer_id md)).
    destruct (add_peer peer md (co_network co)) as [is_new net'] eqn:Hadd.
    destruct (add_peer_ok _ _ _ _ _ _ _ _ _ Hinv Hadd) as (Hcore & Hnew & Hsched). cbn in Hallowed.
    destruct (is_new && is_upstream_peer net' peer (Some md)) eqn:Hb.
    + apply andb_true_iff in Hb as [-> Hup].
      edestruct (broadcast_ok c role _ clock (with_net co net') reads peer false Hc Hcore Hallowed) as (out & co' & Hrun & Hinv' & Hout); [|eexists _, _; done].
      intros p Hne Hp. destruct (Hsched p Hp) as [?|[? _]]; done.
    + eexists _, _. split; [done|]. split; [|done]. split.
      * by eapply core_clock; [|apply Hallowed..].
      * intros p Hp. destruct (Hsched p Hp) as [?|(_ & -> & Hup)]; [done|]. by rewrite Hup in Hb.
  - eexists _, _. split; [done|]. split; [|done]. by apply disable_peer_ok.
  - destruct msg as [id txns|id retry backoff].
    + eexists _, _. split; [done|]. split; [|done]. apply core_spawn; [done|]. cbn. intros n. by destruct (_ || _).
    + destruct Hallowed as (Ht & Hmax & Hid).
      destruct (process_ack_ok c role acked clock co network_id peer_id id retry backoff reads timestamp) as (net' & -> & Hinv'); [done..|].
      run_ok. eexists _, _. split; [done|]. by split.
  - eexists _, _. split; [done|]. by split.
Qed.

Lemma run_task_ok c role acked clock co reads send_ok task :
  node_config_ok c → node_inv c role acked clock co → task_ok task → reads_ok (smp_mempool (co_smp co)) reads →
  (match task with
   | SubmissionTask _ => room 1 (smp_mempool (co_smp co))
   | BroadcastTask ts _ _ _ => room (length ts) (smp_mempool (co_smp co))
   | _ => True
   end) →
  ∃ out co', run_task reads send_ok task co = Ok (out, co') ∧ node_inv c role acked clock co' ∧
             Forall (request_ok c (smp_mempool (co_smp co))) out.
Proof.
  intros Hc Hinv Htask Hreads Hroom. pose proof (ni_mempool _ _ _ _ _ (proj1 Hinv)) as Hm.
  destruct task as [t|h|ts id st peer|q]; cbn [run_task].
  - unfold process_client_transaction_submission.
    destruct (process_incoming_ok c reads [t]
      (if smp_is_validator (co_smp co) && negb (smp_broadcast_within_validator_network (co_smp co)) then NonQualified else NotReady)
      (co_smp co)) as (statuses & m' & -> & _ & Hs); [apply Hc|done|done|by destruct (_ && _)|done|].
    run_ok. eexists _, _. split; [done|]. split; [by apply inv_mempool|]. destruct (snd <$> head statuses); by repeat constructor.
  - eexists _, _. split; [done|]. split; [done|]. by repeat constructor.
  - unfold process_transaction_broadcast.
    destruct (process_incoming_ok c reads ts st (co_smp co)) as (statuses & m' & -> & _ & Hs); [apply Hc|done..|].
    run_ok. eexists _, _. split; [done|]. split; [by apply inv_mempool|]. destruct send_ok; by repeat constructor.
  - eexists _, _. split; [done|]. split; [|done]. destruct q as [q|]; [|by destruct co as [[] ? ?]].
    destruct Hinv as [[] Hs]. by split.
Qed.

Lemma coordinator_step_ok c role acked clock event co :
  node_config_ok c → node_inv c role acked clock co → event_allowed c clock event co →
  step_post c role acked clock event co (coordinator_step event co).
Proof.
  intros Hc Hinv Hallowed. pose proof (ni_mempool _ _ _ _ _ (proj1 Hinv)) as Hm. pose proof (nco_config _ Hc) as Hcfg.
  destruct event as [t|h|max_txns max_b exclude now|ts|ts usecs|q|index reads|reads timestamp network_id ev|index reads send_ok|now];
    cbn [coordinator_step].
  - eexists _, _. split; [done|]. split; [|done]. by apply core_spawn.
  - eexists _, _. split; [done|]. split; [|done]. by apply core_spawn.
  - unfold process_get_batch. destruct (gc_by_expiration_step c now _ Hcfg Hm) as (m' & -> & Hs). run_ok.
    destruct (get_batch_ok m' (N.max max_txns 1) max_b (list_to_set exclude)) as (block & -> & _); [apply Hs|lia|done|].
    run_ok. eexists _, _. split; [done|]. split; [by apply inv_mempool|]. by repeat constructor.
  - unfold process_rejected_transactions. destruct (reject_transactions_ok c ts _ Hcfg Hm) as (m' & -> & Hs). run_ok.
    eexists _, _. split; [done|]. split; [by apply inv_mempool|done].
  - destruct Hallowed as [Hts Hroom]. unfold process_committed_transactions.
    destruct (commit_transactions_ok c ts _ Hcfg Hm Hts Hroom) as (m1 & -> & Hs1). run_ok.
    assert (∃ m', (if 0 <? usecs then gc_by_expiration_time (duration_from_micros usecs) m1 else Ok m1) = Ok m' ∧ mempool_step c m1 m')
      as (m' & -> & Hs).
    { destruct (0 <? usecs); [|exists m1; split; [done|]; apply mempool_step_refl, Hs1]. apply gc_by_expiration_step; [done|apply Hs1]. }
    run_ok. eexists _, _. split; [done|]. split; [|done]. apply inv_mempool; [done|by eapply mempool_step_trans].
  - eexists _, _. split; [done|]. split; [|done]. by apply core_spawn.
  - cbn in Hallowed. destruct (co_scheduled_broadcasts co !! index) as [sb|] eqn:Hsb.
    + destruct (sb_deadline sb <=? br_instant reads).
      * destruct (broadcast_ok c role acked clock
          {| co_smp := co_smp co; co_scheduled_broadcasts := delete index (co_scheduled_broadcasts co); co_tasks := co_tasks co |}
          reads (sb_peer sb) (sb_backoff sb)) as (out & co' & Hrun & Hinv' & Hout); [done| |done| |eexists _, _; done].
        -- apply core_tasks; apply Hinv.
        -- intros p Hne Hp. destruct (proj2 Hinv p Hp) as (sb' & Hin & <-). exists sb'. split; [|done]. cbn.
           apply list_elem_of_lookup in Hin as [j Hj]. assert (j ≠ index) by congruence. apply list_elem_of_lookup.
           destruct (decide (j < index)%nat).
           ++ exists j. by rewrite list_lookup_delete_lt.
           ++ exists (j - 1)%nat. rewrite list_lookup_delete_ge by lia. by replace (S (j - 1)) with j by lia.
      * eexists _, _. split; [done|]. split; [|done]. split; [by eapply core_clock; [apply Hinv|apply Hallowed..]|apply Hinv].
    + eexists _, _. split; [done|]. split; [|done]. split; [by eapply core_clock; [apply Hinv|apply Hallowed..]|apply Hinv].
  - by apply handle_network_event_ok.
  - destruct Hallowed as [Hreads Hroom]. destruct (co_tasks co !! index) as [task|] eqn:Htask.
    + destruct Hinv as [Hcore Hs]. pose proof (ni_tasks _ _ _ _ _ Hcore) as Hts.
      destruct (run_task_ok c role acked clock {| co_smp := co_smp co; co_scheduled_broadcasts := co_scheduled_broadcasts co; co_tasks := delete index (co_tasks co) |} reads send_ok task)
        as (out & co' & Hrun & Hinv' & Hout); [done| | |done|done|eexists _, _; done].
      * split; [|done]. apply core_tasks; [done|]. by apply Forall_delete.
      * by eapply Forall_lookup_1 in Hts.
    + eexists _, _. split; [done|]. by split.
  - destruct (mempool_gc_step c now _ Hcfg Hm) as (m' & -> & Hs). run_ok.
    eexists _, _. split; [done|]. split; [by apply inv_mempool|done].
Qed.

(** ** Reachable nodes *)
Lemma mempool_new_positive c m : mempool_new c = Ok m → ids_positive (mp_transactions m).
Proof.
  unfold mempool_new, transaction_store_new.
  destruct (multi_bucket_timeline_index_new (cfg_broadcast_buckets c)) as [tl| |] eqn:Htl; [|done..]. run_ok. intros [= <-].
  apply multi_bucket_new_ok in Htl as (Hwf & Hmins & Htl). split; cbn.
  - intros b n p. destruct (Htl b) as [-> _]. by rewrite lookup_empty.
  - intros b Hb. rewrite Hmins in Hb. destruct (Htl b) as [_ ->]; [done|lia].
Qed.
Lemma node_reachable_inv c role co acked clock :
  node_config_ok c → node_reachable c role co acked clock → node_inv c role acked clock co.
Proof.
  intros Hc. induction 1 as [co Hnew|co acked clock event out co' _ IH Hallowed Hrun].
  - unfold coordinator_new in Hnew. destruct (mempool_new c) as [m| |] eqn:Hm; [|done..]. injection Hnew as <-. split.
    + split; cbn; [by apply new_inv; [apply Hc|]|by eapply mempool_new_positive|done|done|done| |by constructor|apply Hc].
      intros _. exists []. split_and!; [done|constructor|done].
    + intros p [st Hp]. done.
  - destruct (coordinator_step_ok c role acked clock event co Hc IH Hallowed) as (out' & co'' & Hrun' & Hinv & _).
    rewrite Hrun in Hrun'. by simplify_eq.
Qed.

(** Once the acks are overdue a batch is chosen, unless there is nothing to send. *)
Lemma unexpired_zero c clock i l :
  (∀ e j, e ∈ l → ack_deadline c e.2 <= clock j) → unexpired c clock i l = 0.
Proof.
  revert i. induction l as [|e l IH]; intros i Hl; cbn [unexpired]; [done|]. rewrite IH by (intros; apply Hl; by right).
  destruct (N.ltb_spec (clock i) (ack_deadline c e.2)); [|done]. specialize (Hl e i (list_elem_of_here _ _)). lia.
Qed.
(** Nothing to send: no batch waits for an ack or a retry, and the peer was sent every ready
    transaction, unless one is larger than a message. *)
Definition nothing_to_send m st : Prop :=
  let s := mp_transactions m in
  (∀ id, id ∈ tracked (ps_broadcast_info st) → window s id = []) ∧ caught_up s (ps_timeline_id st).
Lemma broadcast_progress_ok c acked clock0 clock send_time m st peer backoff net r st' :
  let s := mp_transactions m in
  store_inv 0 0 s → peer_ok (cfg_shared_mempool_batch_size c) acked clock0 s st → 0 < cfg_max_broadcasts_per_peer c →
  check_peer_prioritized net peer = Ok () → (backoff_mode (ps_broadcast_info st) = true → backoff = true) →
  (∀ e j, e ∈ sent_batches (ps_broadcast_info st) → ack_deadline c e.2 <= clock j) →
  broadcast_result c clock send_time true m st peer backoff net r st' →
  (∃ id txns, r = Ok (id, txns)) ∨ nothing_to_send m st.
Proof.
  intros s Hinv Hok Hmax Hprio Hback Hdue Hres.
  destruct Hres as [e He|Hp Hb Hf|info' e _ _ Hsync Hch|info' id txns label _ _ _ _ Hsend|info' id txns label _ _ _ _ _].
  - congruence.
  - rewrite Hback in Hf; done.
  - right. destruct (sync_ok _ _ _ m st Hinv Hok) as (info2 & Hsync2 & Hok' & _ & Hin & Hs & Hr).
    rewrite Hsync in Hsync2. injection Hsync2 as <-.
    assert (∀ e j, e ∈ sent_batches info' → ack_deadline c e.2 <= clock j) as Hdue' by (intros e' j He'; apply Hdue; by apply Hin).
    destruct Hch as [[_ Hm]|(_ & Hretry & Hnone & Hcaught)].
    { cbn in Hm. rewrite unexpired_zero in Hm by done. lia. }
    split; [|done]. cbn in Hretry, Hnone. assert (sent_batches info' = []) as Hsent.
    { destruct (sent_batches info') as [|[id t] l] eqn:Hl; [done|]. destruct (Hnone id). exists 0%nat, t. split; [done|].
      apply (Hdue' (id, t)). by left. }
    intros id Hid. destruct (decide (window s id = [])) as [|Hne]; [done|]. exfalso. apply elem_of_app in Hid as [Hid|Hid].
    + assert (id ∈ (sent_batches info').*1) as Hx by (by apply Hs). rewrite Hsent in Hx. by apply elem_of_nil in Hx.
    + assert (id ∈ (retry_batches info').*1) as Hx by (by apply Hr). rewrite Hretry in Hx. by apply elem_of_nil in Hx.
  - done.
  - left. eauto.
Qed.

Lemma sorted_before {A} (R : A → A → Prop) l i j x y :
  StronglySorted R l → (i < j)%nat → l !! i = Some x → l !! j = Some y → R x y.
Proof.
  intros Hs. revert i j. induction Hs as [|z l Hs IH Hz]; intros [|i] [|j] Hlt Hx Hy; try (done || lia).
  - injection Hx as ->. by eapply Forall_lookup_1 in Hz.
  - eapply (IH i j); [lia|done..].
Qed.
(** The position of a peer in the order of preference *)
Lemma check_prioritized_position net peer :
  role_is_validator (ni_role net) = false → peer ∈ prioritized_peers net →
  ∃ i, prioritized_peers net !! i = Some peer ∧
       (check_peer_prioritized net peer = Ok () ↔ N.of_nat i <= cfg_default_failovers (ni_mempool_config net)).
Proof.
  intros Hr Hin. unfold check_peer_prioritized. rewrite Hr.
  destruct (list_find (λ p, p = peer) (prioritized_peers net)) as [[i p]|] eqn:Hf; cycle 1.
  { apply list_find_None in Hf. rewrite Forall_forall in Hf. by destruct (Hf peer Hin). }
  apply list_find_Some in Hf as (Hi & -> & _). exists i. split; [done|].
  destruct (N.ltb_spec (cfg_default_failovers (ni_mempool_config net)) (N.of_nat i)); split; (done || lia).
Qed.

Section theorems.
Context (c : MempoolConfig) (role : RoleType) (co : Coordinator) (acked : Acked) (clock : SystemTime).
Context (Hconfig : node_config_ok c) (Hco : node_reachable c role co acked clock).


(** C6: no transaction that is ready for broadcast is forgotten: for every connected peer, each
    entry of a timeline is beyond the ids the peer was sent, or in a batch that was sent and waits
    for an ack, or in a batch to be retried, or in one that the peer acknowledged without asking for a
    retry. *)
Theorem broadcasts_cover_timelines peer st b n p :
  sync_states (co_network co) !! peer = Some st →
  timeline_at (timeline_index (mp_transactions (smp_mempool (co_smp co)))) b !! n = Some p →
  (∃ top, ps_timeline_id st !! b = Some top ∧ top < n) ∨
  ∃ id, covers id b n ∧
    (id ∈ (sent_batches (ps_broadcast_info st)).*1 ∨ id ∈ (retry_batches (ps_broadcast_info st)).*1 ∨
     id ∈ acked_by acked peer).
Proof.
  intros Hst Hp. destruct (node_reachable_inv _ _ _ _ _ Hconfig Hco) as [Hcore _].
  pose proof (ni_peers _ _ _ _ _ Hcore peer st Hst) as Hok.
  destruct (po_covered _ _ _ _ _ Hok b n p Hp) as [?|(id & Hid & Hc)]; [by left|right]. exists id. split; [done|].
  unfold tracked in Hid. rewrite !elem_of_app in Hid. tauto.
Qed.




(** C38: acks are matched by comparing batch ids bucket by bucket up to the end of the shorter one, so
    the ack of a peer with an empty id matches any batch that waits for an ack. When it asks for a
    retry the empty id is kept, and the next broadcast to that peer panics. *)
Theorem empty_ack_panics peer st timestamp reads backoff :
  sync_states (co_network co) !! peer = Some st → check_peer_prioritized (co_network co) peer = Ok () →
  sent_batches (ps_broadcast_info st) ≠ [] → retry_batches (ps_broadcast_info st) = [] →
  (backoff_mode (ps_broadcast_info st) = true → backoff = true) → clock <= timestamp →
  ∃ net', process_broadcast_ack peer [] true false timestamp (co_network co) = Ok net' ∧
          broadcast_and_reschedule reads peer backoff (with_net co net') = Panic.
Proof.
  intros Hst Hprio Hsent Hretry Hback Htime. destruct (node_reachable_inv _ _ _ _ _ Hconfig Hco) as [Hcore _].
  set (net := co_network co) in *. pose proof (ni_mempool _ _ _ _ _ Hcore) as Hm.
  pose proof (ni_peers _ _ _ _ _ Hcore peer st Hst) as Hok. unfold process_broadcast_ack. rewrite Hst, Hretry.
  destruct (sent_batches (ps_broadcast_info st)) as [|[id t] sent] eqn:Hs; [done|]. cbn [batches_remove].
  change (multi_batch_compare [] id) with Eq. cbn iota beta. assert (t <= timestamp) as Ht.
  { pose proof (po_sent _ _ _ _ _ Hok) as Hf. rewrite Hs in Hf. inversion Hf; subst. cbn in *. lia. }
  unfold rassert. destruct (N.leb_spec t timestamp); [|lia]. run_ok. eexists. split; [done|].
  set (st' := with_info st _). unfold broadcast_and_reschedule, sync_states_exists.
  change (co_network (with_net co (with_peer net peer st'))) with (with_peer net peer st').
  change (smp_mempool (co_smp (with_net co (with_peer net peer st')))) with (smp_mempool (co_smp co)).
  assert (sync_states (with_peer net peer st') !! peer = Some st') as Hst' by apply lookup_insert_eq. rewrite Hst'.
  assert (∃ net', execute_broadcast (smp_mempool (co_smp co)) (br_clock reads) (br_send_time reads) (br_send_ok reads) peer backoff
            (with_peer net peer st') = (Panic, net')) as [net' Hrun]; [|by rewrite Hrun].
  unfold execute_broadcast, determine_broadcast_batch.
  assert (map_err absurd_error (sync_with_mempool (smp_mempool (co_smp co)) (ps_broadcast_info st')) = Panic (E := BroadcastError)) as Hsync.
  { unfold sync_with_mempool. destruct (live_batches_ok (smp_mempool (co_smp co)) sent) as (l & Hl & _); [apply Hm| |].
    - apply Forall_forall. intros e He. eapply batch_pairs_ok; [apply Hok|]. pose proof (po_batches _ _ _ _ _ Hok) as Hb.
      rewrite Forall_forall in Hb. apply Hb, elem_of_app. left. rewrite Hs. right. apply list_elem_of_fmap. eauto.
    - cbn [sent_batches retry_batches st' with_info ps_broadcast_info batches_insert]. rewrite Hl. run_ok. cbn [live_batches].
      unfold timeline_range, store_timeline_range, multi_bucket_timeline_range, lenN.
      pose proof (ix_mb_wf _ _ _ _ (si_indexed _ _ _ (mi_store _ _ Hm))) as Hwf. rewrite (mb_wf_length _ Hwf).
      pose proof (mb_wf_first _ Hwf) as Hfirst. by destruct (mb_bucket_mins _). }
  unfold mbind at 1. unfold M_bind at 1. rewrite mget_bind, Hst'. cbn [ok_or]. rewrite (mlift_bind _ st') by done.
  change (check_peer_prioritized (with_peer net peer st') peer) with (check_peer_prioritized net peer). rewrite Hprio, (mlift_bind _ ()) by done.
  change (backoff_mode (ps_broadcast_info st')) with (backoff_mode (ps_broadcast_info st)).
  destruct (backoff_mode (ps_broadcast_info st) && negb backoff) eqn:Hb.
  { exfalso. destruct (backoff_mode _); [|done]. by rewrite Hback in Hb. }
  unfold mbind at 1. unfold M_bind at 1. unfold mlift at 1. rewrite Hsync. by eexists.
Qed.
End theorems.
End run.

(** ** A node with one client and two peers *)
Module NodeSample.
Import MempoolSample.
#[local] Existing Instance types.
#[local] Existing Instance encoding.
#[local] Existing Instance workload.
#[local] Instance hasher : PeerHasher := {| hash_peer_id := λ a, a |}.
#[local] Instance statuses : DiscardedStatuses :=
  {| DiscardedVMStatus := N; SEQUENCE_NUMBER_TOO_OLD := 3; RESOURCE_DOES_NOT_EXIST := 4; UNKNOWN_STATUS := 5 |}.

Lemma sample_node_config : node_config_ok sample_config.
Proof. split; [apply sample_config_ok|done|done]. Qed.

Definition sample_task_reads : TaskReads :=
  {| tr_state_view := Some (λ a, Some (Sequential (if a =? 1 then 5 else 0)));
     tr_validate := λ t, if decide (t ∈ known) then Some {| vr_status := None; vr_score := gas_unit_price t |} else None;
     tr_now := λ _, 1000; tr_rng := λ _, 0%nat |}.
Definition sample_broadcast_reads (t : N) : BroadcastReads :=
  {| br_clock := λ _, t; br_send_time := t; br_send_ok := true; br_instant := t |}.
Definition sample_peer (a : N) : PeerNetworkId := mkPeerNetworkId VfnNetwork a.
Definition sample_metadata (a : N) : ConnectionMetadata := mkConnectionMetadata a Outbound RoleValidator.

(** The events of the sample runs *)
Inductive SampleEvent :=
| Connects (time peer : N)
| Submits (t : SignedTransaction)
| RunsTask
| Broadcasts (index : nat) (time : N)
| Acks (time peer : N) (id : list (N * N)) (retry : bool).
Definition sample_event (e : SampleEvent) : CoordinatorEvent :=
  match e with
  | Connects time a => NetworkNotification (sample_broadcast_reads time) time VfnNetwork (NewPeer (sample_metadata a))
  | Submits t => ClientSubmitTransaction t
  | RunsTask => TaskRuns 0 sample_task_reads true
  | Broadcasts index time => BroadcastReady index (sample_broadcast_reads time)
  | Acks time a id retry =>
      NetworkNotification (sample_broadcast_reads time) time VfnNetwork
        (Message a (BroadcastTransactionsResponse id retry false))
  end.
Definition time_ok (clock time : N) : bool := (clock <=? time) && (time <=? 2 ^ 90).
Definition room_ok (k : N) (m : Mempool) : bool :=
  let s := mp_transactions m in
  forallb (λ t, tl_timeline_id t + k * capacity_per_user s <? 2 ^ 64) (mb_timelines (timeline_index s)) &&
  (k * capacity_per_user s <? 2 ^ 64).
Definition event_ok (clock : N) (e : SampleEvent) (co : Coordinator) : bool :=
  match e with
  | Connects time _ | Broadcasts _ time => time_ok clock time
  | Submits _ => true
  | RunsTask => room_ok 1 (smp_mempool (co_smp co)) &&
                (mp_system_transaction_timeout (smp_mempool (co_smp co)) =? 600 * 1000000000) &&
                match co_tasks co with SubmissionTask _ :: _ => true | _ => false end
  | Acks time _ id _ => time_ok clock time && (length id =? 2)%nat
  end.
Lemma time_ok_spec clock time : time_ok clock time = true → broadcast_reads_ok sample_config clock (sample_broadcast_reads time).
Proof.
  intros [Hle%N.leb_le Hmax%N.leb_le]%andb_true_iff.
  split; cbn; unfold ack_deadline, duration_from_millis, SYSTEM_TIME_MAX; cbn; lia.
Qed.
Lemma room_ok_spec m : room_ok 1 m = true → room 1 m.
Proof.
  intros [Hall Hcap%N.ltb_lt]%andb_true_iff b. unfold next_id.
  destruct (mb_timelines _ !! b) as [t|] eqn:Ht; [|done]. rewrite forallb_forall in Hall.
  apply N.ltb_lt, Hall, list_elem_of_In. by eapply list_elem_of_lookup_2.
Qed.
Lemma event_ok_spec clock e co : event_ok clock e co = true → event_allowed sample_config clock (sample_event e) co.
Proof.
  destruct e as [time a|t| |index time|time a id retry]; cbn [event_ok sample_event event_allowed].
  - apply time_ok_spec.
  - done.
  - intros [[Hroom%room_ok_spec Hto%N.eqb_eq]%andb_true_iff Htask]%andb_true_iff. split.
    + split; cbn; [by eexists| |].
      * intros t r Hr _. by case_decide.
      * intros i. rewrite Hto. done.
    + destruct (co_tasks co) as [|[]]; done.
  - apply time_ok_spec.
  - intros [Ht Hid%Nat.eqb_eq]%andb_true_iff. pose proof (time_ok_spec clock time Ht) as [? ? _ _]. done.
Qed.

Fixpoint node_run (es : list SampleEvent) (co : Coordinator) (acked : gmap PeerNetworkId (list (list (N * N)))) (clock : N)
  : outcome Infallible (Coordinator * gmap PeerNetworkId (list (list (N * N))) * N) :=
  match es with
  | [] => Ok (co, acked, clock)
  | e :: es =>
      if event_ok clock e co then
        '(_, co') ← coordinator_step (sample_event e) co;
        node_run es co' (acked_after (sample_event e) co acked) (clock_after (sample_event e) clock)
      else Panic
  end.
Definition sample_node (role : RoleType) (es : list SampleEvent) :=
  co ← coordinator_new sample_config role; node_run es co ∅ 0.
Lemma node_run_reachable role es co acked clock co' acked' clock' :
  node_reachable sample_config role co acked clock → node_run es co acked clock = Ok (co', acked', clock') →
  node_reachable sample_config role co' acked' clock'.
Proof.
  revert co acked clock. induction es as [|e es IH]; intros co acked clock Hco; cbn [node_run]; [by intros [= <- <- <-]|].
  destruct (event_ok clock e co) eqn:He; [|done]. apply event_ok_spec in He.
  destruct (coordinator_step (sample_event e) co) as [[out co1]| |] eqn:Hrun; [|done..]. run_ok. apply IH. by eapply node_step.
Qed.
(** A sample run, and what a test of the state it reaches says *)
Lemma sample_node_reachable role es {A} (f : Coordinator → N → A) x :
  (λ r, f r.1.1 r.2) <$> sample_node role es = Ok x →
  ∃ co acked clock, node_reachable sample_config role co acked clock ∧ f co clock = x.
Proof.
  unfold sample_node. destruct (coordinator_new sample_config role) as [co| |] eqn:Hco; [|done..]. run_ok.
  destruct (node_run es co ∅ 0) as [[[co' acked] clock]| |] eqn:Hrun; [|done..]. intros [= <-].
  exists co', acked, clock. split; [|done]. eapply node_run_reachable; [|done]. by constructor.
Qed.
(** Three peers, a transaction that waits to be broadcast, and then its broadcast to the first peer *)
Definition sample_waiting : list SampleEvent :=
  [Connects 0 8; Connects 0 9; Connects 0 10; Submits (sample_txn 1 5 3); RunsTask].
Definition sample_sent : list SampleEvent := sample_waiting ++ [Broadcasts 0 (10 ^ 9)].
Definition view_peer (a : N) (co : Coordinator) : option (list N * BroadcastInfo) :=
  (λ st, (ps_timeline_id st, ps_broadcast_info st)) <$> sync_states (co_network co) !! sample_peer a.
Definition sample_batch : list (N * N) := [(0, 1); (0, 0)].
Definition sent_info : BroadcastInfo :=
  {| sent_batches := [(sample_batch, 10 ^ 9)]; retry_batches := []; backoff_mode := false |}.
Lemma view_peer_Some a co ids info :
  view_peer a co = Some (ids, info) →
  ∃ st, sync_states (co_network co) !! sample_peer a = Some st ∧ ps_timeline_id st = ids ∧ ps_broadcast_info st = info.
Proof. unfold view_peer. intros (st & Hst & [= -> ->])%fmap_Some. eauto. Qed.

Lemma broadcasts_cover_timelines_witness :
  ∃ co acked clock, node_reachable sample_config NodeFullNode co acked clock ∧
    view_peer 8 co = Some ([1; 0], sent_info) ∧
    timeline_at (timeline_index (mp_transactions (smp_mempool (co_smp co)))) 0 !! 1 = Some (1, 5) ∧
    ((∃ top, [1; 0] !! 0%nat = Some top ∧ top < 1) ∨
     ∃ id, covers id 0 1 ∧ (id ∈ [sample_batch] ∨ id ∈ [] ∨ id ∈ acked_by acked (sample_peer 8))).
Proof.
  destruct (sample_node_reachable NodeFullNode sample_sent
    (λ co _, (view_peer 8 co, timeline_at (timeline_index (mp_transactions (smp_mempool (co_smp co)))) 0 !! 1))
    (Some ([1; 0], sent_info), Some (1, 5))) as (co & acked & clock & Hco & [Hv Ht]%pair_eq); [vm_compute; reflexivity|].
  exists co, acked, clock. split; [done|]. split; [done|]. split; [done|].
  apply view_peer_Some in Hv as (st & Hst & Hids & Hinfo).
  pose proof (broadcasts_cover_timelines sample_config NodeFullNode co acked clock sample_node_config Hco _ _ _ _ _ Hst Ht) as Hcov.
  rewrite Hids, Hinfo in Hcov. exact Hcov.
Defined.
Lemma empty_ack_panics_witness :
  ∃ co acked clock st net', node_reachable sample_config NodeFullNode co acked clock ∧
    sync_states (co_network co) !! sample_peer 8 = Some st ∧ ps_broadcast_info st = sent_info ∧
    process_broadcast_ack (sample_peer 8) [] true false (2 * 10 ^ 9) (co_network co) = Ok net' ∧
    broadcast_and_reschedule (sample_broadcast_reads (2 * 10 ^ 9)) (sample_peer 8) false (with_net co net') = Panic.
Proof.
  destruct (sample_node_reachable NodeFullNode sample_sent
    (λ co clock, (view_peer 8 co, check_peer_prioritized (co_network co) (sample_peer 8), clock <=? 2 * 10 ^ 9))
    (Some ([1; 0], sent_info), Ok (), true)) as (co & acked & clock & Hco & [[Hv Hp]%pair_eq Hc%N.leb_le]%pair_eq); [vm_compute; reflexivity|].
  apply view_peer_Some in Hv as (st & Hst & _ & Hinfo).
  destruct (empty_ack_panics sample_config NodeFullNode co acked clock sample_node_config Hco (sample_peer 8) st (2 * 10 ^ 9)
    (sample_broadcast_reads (2 * 10 ^ 9)) false Hst Hp) as (net' & Hack & Hpanic); [by rewrite Hinfo..|done|].
  exists co, acked, clock, st, net'. done.
Defined.
End NodeSample.
